(* ===== verification/_CoqProject ===== *)
-Q . S2P
Prelude.v
PyFloat.v
Bytes.v
Sha256.v
SlotLedger.v
Periods.v
CorpusSettlement.v
TokenAuction.v
DrawLeases.v
Checks.v
Walk.v
EvalDraw.v
Admission.v
Toploc.v
Cooldown.v
Dedup.v
BatchSelection.v
SignerJournal.v
FillWindow.v
Accumulator.v
OpenQueue.v
PromptRows.v
RlBuffer.v
RlLedger.v
RlQuota.v
RlLeases.v
RlSubmit.v
RlCooldown.v
RlPay.v
RlPrice.v
PromptCircuit.v
WindowAdmission.v
Quarantine.v
FillAssembler.v
EmissionPrice.v
DifficultyAuction.v
TaskRegistry.v
RegistryStore.v
WeightSetter.v
