(* ===== verification/Prelude.v ===== *)
(** * Reliquary: a verification development for the Reliquary validator

    Reliquary trains a language model by GRPO on a Bittensor subnet: miners produce
    rollouts, a validator admits, verifies, grades and pays for them.  This development
    models the parts of the validator that decide who holds which piece of work, what is
    accepted, and what is paid, as executable functions on explicit state, and proves
    the properties that make them correct.

    ** The program's parts

    - Corpus jobs ([src/reliquary/corpus]).  A job offers prompts with a number of slots
      each.  A miner walks its own order of the prompts or draws a slot under a lease,
      submits completions with activation proofs, and is paid per slot at a price set by
      an auction.  The ledger of slots is shared by admission, the draw leases and the
      open map that miners read.  What was proved in an hour is paid from a pool
      ([validator/corpus_period_settlement.py]) through archives in a bucket.
    - Window training ([validator/batcher.py], [batch_selection.py], [cooldown.py],
      [dedup.py], [fill_window.py], [training_accumulator.py]).  A miner precommits to an
      upload under the circuits that block repeat offenders
      ([prompt_mismatch_circuit.py], [no_reveal_circuit.py]); the window accounts for the
      receipt, its bytes and the grading work it becomes until it seals.  Submissions are
      deduplicated, kept out while their prompt cools down, selected into a batch and
      accumulated per environment.  A fill-closed window is assembled chunk by chunk
      behind a durable journal ([fill_closed_batch_assembler.py], [trainer/journal.py]).
      The price of a window follows its cadence ([emission_price.py]); the difficulty
      auction ([difficulty_auction.py]) ranks sources by what training on them is worth.
    - Asynchronous RL ([validator/rl_*.py]).  A lease book hands out (environment,
      prompt, checkpoint) under per-hotkey quotas and commits to the secret each draw
      comes from; the submission path grades a lease's group, buffers it for training
      or draws it for audit, and logs what may be paid; the payment ledger reads that
      log, accrues at the prices a controller sets from the trainer's queue, settles
      hourly periods under a cap, and publishes each archive.
    - Weights.  Tasks and their caps are declared in a registry
      ([shared/task_registry.py]) that operators rewrite concurrently in a bucket
      ([infrastructure/task_registry_store.py]).  Every epoch each validator reads the
      registry and the archives of all tasks, replays them under the caps and submits
      one vector ([validator/weight_only.py]).
    - The signer's journal ([signer/journal.py]), which grants each chain write once,
      and the sandbox's open queue ([sandbox/open_queue.py]), which gives out turns.

    ** Files

    Shared:
    - [Prelude]: exceptions and the error monad ([result], [method]), Python values,
      sums, sorting, generic lemmas and the tactic [split_andb].
    - [PyFloat]: binary64 floats as counts of 2^-1074 in [Z], rounded to nearest even
      ([fadd], [fmul], [fdiv], the builtin [sum], [math.fsum]); hint database [pyfloat].
      Infinities and NaN are not represented: an overflowing result is outside the model.
    - [Bytes], [Sha256]: big-endian integers, UTF-8 of ASCII text, base64, hexadecimal;
      SHA-256 as an executable function.

    Corpus:
    - [SlotLedger]: [corpus/slots.py].  State: consumed and failed entries per prompt.
      No prompt is oversold; the open map round-trips.
    - [TokenAuction]: [corpus/token_auction.py].  Bounds of price, leases and debt; an
      admitted hotkey is given terms it asked for.
    - [DrawLeases]: [corpus/draw_leases.py].  Bounds on live leases; [grant] refines its
      contract against the class [SlotSource], of which the slot ledger is an instance.
    - [Checks], [Walk], [EvalDraw], [Admission]: [corpus/checks.py], [walk.py],
      [eval_draw.py], [admission.py].  Spans and proof chunks, walk orders, draw keys;
      [admit] accepts exactly the submissions of a declarative contract.
    - [Toploc]: [protocol/toploc.py].  Interpolation modulo 65497; proofs read back the
      values they were built from.
    - [Periods]: [validator/corpus_periods.py].  Hourly periods in float arithmetic, the
      entry of late archives, and replayed weights.
    - [CorpusSettlement]: [validator/corpus_period_settlement.py], the split of a pool in
      [corpus_settlement.py], [infrastructure/corpus_period_store.py].  Every call of the
      bucket has a fate of its own.  Tokens are paid once whatever fails, archives enter
      ahead of the clock, a healthy pass settles every closed period.

    Window training:
    - [Cooldown], [Dedup], [BatchSelection], [FillWindow], [Accumulator]: the files of
      the same purpose under [validator/].
    - [PromptCircuit]: [prompt_mismatch_circuit.py], [no_reveal_circuit.py] and the
      precommit route of [server.py].  Strikes, cooldowns and canaries per scope, their
      file and its restart; only a canary's outcome moves an armed circuit, and the order
      in which outcomes complete does not matter.
    - [WindowAdmission]: the admission ledger of [GrpoWindowBatcher] ([batcher.py]), as
      events on one state.  Bytes are held exactly and within limits, doors once shut stay
      shut, a confirmed claim is final, closing cuts no open upload.
    - [Quarantine]: [quarantine.py].  The decision that a window's rewards have the shape
      of a grader fault, read back from its statistics.
    - [FillAssembler]: [fill_closed_batch_assembler.py], [token_rewards.py],
      [trainer/journal.py] and the journal's keys, over the classes [TrainingCodec] and
      [DurableJournal].  Every taken chunk is paid once, a row is written at once, and the
      trainer's cursor reads every slot of a closed window.
    - [EmissionPrice]: [emission_price.py] and its caller in [service.py].  The price of
      each environment over time: its bounds, and that a restart restores it.
    - [DifficultyAuction]: [difficulty_auction.py].  Difficulty scores, the robust utility
      of uncertain rewards and the exact shadow auction.

    Asynchronous RL, bottom up:
    - [RlBuffer]: [rl_buffer.py].  A take hands out each queued group once and is short
      only when nothing fresh is left.
    - [RlLedger]: [rl_ledger.py].  A transition system of ingestion, settlement and
      publication; periods pay within the cap, accruals settle once, archives are final.
    - [RlQuota]: [rl_lease_quota.py].  The AIMD quota and its measure.
    - [RlLeases]: [rl_leases.py].  The lease book over the quota: exclusive leases,
      complete answers, an exact sweep, final blacklists, secrets that open their
      commitments.
    - [RlSubmit]: [rl_submit.py].  The submission path over the book and the buffer:
      every group is accounted for, resends are idempotent, failures reopen probation,
      the audit queue drains.
    - [RlPay]: the path and the ledger together, through the class [EventSource]: a
      lease is accrued at most once and no payable event is lost.

    - [PromptRows]: [protocol/rl_prompt_ranges.py].  The rows an environment may be drawn
      from, whatever the order they are declared in.
    - [RlCooldown]: [rl_cooldown.py], [rl_env_shares.py].  Cooldowns that adapt to the
      yield of a prompt, and the shares of the environments.
    - [RlPrice]: [rl_price.py].  Both control modes and their ingestion of the trainer's
      work, through the class [TokenPrices]; decided prices stay within their bounds.

    Weights:
    - [TaskRegistry]: [shared/task_registry.py].  Entries, their validation and the
      registry's document, which reads back; what a change may alter.
    - [RegistryStore]: [infrastructure/task_registry_store.py].  Read-modify-write against
      a bucket with conditional writes, in any interleaving of any number of writers: the
      shares of the registry stay within one pool, and writes are serial.
    - [WeightSetter]: [validator/weight_only.py].  When an epoch is abstained from, the
      replay of archives and periods under caps and the minimum-incentive floor, and the
      vector submitted.  The floor ends and never pays more than was there; a vector is
      submitted on a complete history only; the copies of an archive may come in any order.

    Others: [SignerJournal] ([signer/journal.py]), [OpenQueue] ([sandbox/open_queue.py]).

    ** How the code is modelled

    - A table with a primary key is a [gmap]; a dict whose order matters is an
      association list; a log with an AUTOINCREMENT key is a list in that order.  The
      order of a query without ORDER BY is a parameter ([scan]), constrained to be a
      permutation of the rows.
    - A method is a function from the state to a result or a raised exception and the
      state it leaves.  A transaction that raises restores the tables and leaves the
      memory of the process as it was changed ([rollback], [undo]).
    - Interleavings of concurrent callers are step relations with one constructor per
      transaction ([ledger_step], [book_step], [submit_step], [pay_step], and the like);
      invariants are proved over their reflexive transitive closure.
    - A coroutine that talks to the bucket is a resumption: a [prog] of calls, each with a
      continuation that takes the answer, interpreted step by step against the bucket
      ([RegistryStore]); its postconditions hold whatever the bucket answers.
    - Clocks, random draws, hash-seeded tokens, tokenizers, environments, graders, GPU
      forwards, the bucket and the chain are parameters.  What is assumed of one is a
      hypothesis of the theorem that needs it, with a witness that instantiates it.
    - Integers are [Z]; the 63-bit bound of an SQLite integer and the 64-bit bound of
      [to_bytes(8)] raise as they do in Python.
    - Loops are structural on their input, except the search for an entry period
      ([Periods.entry_loop]): its fuel is one more than the periods that can be taken,
      and [entry_for_exact] proves that it never runs out; and the preparation of ready
      chunks ([FillAssembler]): its fuel is one more than the waiting chunks, which
      [prepare_ready_spec] proves enough.  A bisection takes the number of the intervals
      ([PromptRows], [bisect_spec]).  The loop that takes a float back one step at a time
      ([WeightSetter.lower_until]) has no bound to compute: [floor_never_pays_more] proves
      that it ends, with some fuel and with any that is larger.

    ** Not modelled

    HTTP routes, process pools, GPU code, object stores, chain clients, environments,
    the miner, evaluation, vision, command lines: code whose behaviour is that of
    external services.  Read-only reports of modelled components (boards, public
    states, metrics) are left out as well.

    The largest files left are drivers of such services: [validator/service.py] (the
    window loop: tasks, timeouts, uploads and the trainer's process around the parts
    modelled above), [server.py] (routes over the same parts), [corpus_service.py],
    [training.py] and [verifier.py] (tensors on a GPU), [cli/main.py].  What they decide
    themselves is taken up with the part it belongs to: the admission ledger of the
    batcher in [WindowAdmission], the precommit route in [PromptCircuit], the price of a
    window in [EmissionPrice].  What is left out of a modelled file is said in that
    file. *)

From stdpp Require Export base tactics gmap strings list numbers sets sorting.
From Stdlib Require Import DecimalString DecimalZ.
From Stdlib Require Export Ascii Lia.

#[local] Open Scope Z_scope.

(** ** Exceptions and the error monad *)

(** The exception classes the modelled code raises. *)
Inductive exn :=
  | ValueError
  | TypeError
  | IndexError
  | KeyError
  | OverflowError
  | RuntimeError
  | ZeroDivisionError
  | AttributeError
  | SlotExhausted
  | JournalConflict
  | JournalReplay
  | JournalUncertain
  | IntegrityError
  | LookupError
  | PermissionError
  | ClientError
  | GraderInfrastructureError.

#[export] Instance exn_eq_dec : EqDecision exn.
Proof. solve_decision. Defined.

(** The result of running a Python expression: a value or a raised exception. *)
Inductive result (A : Type) :=
  | Ok (a : A)
  | Raise (e : exn).
Arguments Ok {_} _.
Arguments Raise {_} _.

#[export] Instance result_ret : MRet result := @Ok.
#[export] Instance result_bind : MBind result := fun A B f m =>
  match m with Ok a => f a | Raise e => Raise e end.
#[export] Instance result_fmap : FMap result := fun A B f m =>
  match m with Ok a => Ok (f a) | Raise e => Raise e end.

Lemma bind_ok {A B} (f : A -> result B) (a : A) : (Ok a ≫= f) = f a.
Proof. done. Qed.
Lemma bind_ok_inv {A B} (m : result A) (f : A -> result B) (b : B) :
  (m ≫= f) = Ok b -> exists a, m = Ok a /\ f a = Ok b.
Proof. destruct m as [a|e]; [by exists a|done]. Qed.

#[export] Instance Ok_inj {A} : Inj (=) (=) (@Ok A).
Proof. by intros ? ? [=]. Qed.

#[export] Instance result_eq_dec {A} `{EqDecision A} : EqDecision (result A).
Proof. solve_decision. Defined.

(** A conjunction of booleans that is true, taken apart. *)
Ltac split_andb H := repeat (apply andb_true_iff in H as [H ?]).

(** A method that mutates its object: the state it leaves is kept when it
    raises, as Python keeps every mutation made before the exception. *)
Definition method (S A : Type) : Type := S -> result A * S.

Definition run_ok {S A} (m : method S A) (s : S) (a : A) (s' : S) : Prop :=
  m s = (Ok a, s').

(** ** Python values

    Values read from JSON or passed without a static type: the code branches
    on their dynamic type.  A float is a count of 2^-1074 (file [PyFloat]). *)
Inductive pyval :=
  | VNone
  | VBool (b : bool)
  | VInt (z : Z)
  | VFloat (f : Z)
  | VStr (s : string)
  | VList (l : list pyval)
  | VDict (d : list (string * pyval)).

(** [d.get(name)] on a JSON object ([None] when absent). *)
Fixpoint dict_get (name : string) (d : list (string * pyval)) : pyval :=
  match d with
  | [] => VNone
  | (k, v) :: d' => if String.eqb k name then v else dict_get name d'
  end.

(** [d.get(name, default)] *)
Definition dict_get_or (name : string) (d : list (string * pyval)) (default : pyval) : pyval :=
  if existsb (fun kv => String.eqb kv.1 name) d then dict_get name d else default.

(** [d[name]] *)
Definition item (d : list (string * pyval)) (name : string) : result pyval :=
  if existsb (fun kv => String.eqb kv.1 name) d then Ok (dict_get name d) else Raise KeyError.

(** [{**d, name: v}] *)
Fixpoint dict_set (name : string) (v : pyval) (d : list (string * pyval)) : list (string * pyval) :=
  match d with
  | [] => [(name, v)]
  | (k, x) :: d' => if String.eqb k name then (k, v) :: d' else (k, x) :: dict_set name v d'
  end.

Lemma dict_get_set name x d : dict_get name (dict_set name x d) = x.
Proof. induction d as [|[k y] d IH]; cbn; [by rewrite String.eqb_refl|]. destruct (String.eqb k name) eqn:E; cbn; rewrite E; done. Qed.

(** [v.get(name, default)] of any value: only an object has the method. *)
Definition py_get (v : pyval) (name : string) (default : pyval) : result pyval :=
  match v with VDict d => Ok (dict_get_or name d default) | _ => Raise AttributeError end.

(** [list(v)]: lists, the characters of a string, the keys of an object. *)
Definition py_list (v : pyval) : result (list pyval) :=
  match v with
  | VList l => Ok l
  | VStr s => Ok ((fun c => VStr (String c "")) <$> String.list_ascii_of_string s)
  | VDict d => Ok ((fun kv => VStr kv.1) <$> d)
  | _ => Raise TypeError
  end.

(** [bool(v)] *)
Definition py_truth (v : pyval) : bool :=
  match v with
  | VNone => false
  | VBool b => b
  | VInt z | VFloat z => negb (z =? 0)
  | VStr s => negb (String.eqb s "")
  | VList l => negb (bool_decide (l = []))
  | VDict d => negb (bool_decide (d = []))
  end.

(** [str(z)] and [int(s)] for decimal integers.  [int] accepts an optional
    minus sign and ASCII digits: the only strings the modelled code writes. *)
Definition py_str (z : Z) : string := NilZero.string_of_int (Z.to_int z).
Definition py_int (s : string) : option Z := Z.of_int <$> NilZero.int_of_string s.

Lemma py_int_str z : py_int (py_str z) = Some z.
Proof.
  unfold py_int, py_str.
  rewrite NilZero.isi; cbn; [by rewrite DecimalZ.of_to| |].
  all: intros H; apply (f_equal Z.of_int) in H as H';
    rewrite DecimalZ.of_to in H'; cbn in H'; subst z; discriminate H.
Qed.

Lemma py_str_inj z z' : py_str z = py_str z' -> z = z'.
Proof. intros H. apply (f_equal py_int) in H. rewrite !py_int_str in H. congruence. Qed.

(** [l[i]]: a negative index counts from the end; out of range raises. *)
Definition py_nth {A} (l : list A) (i : Z) : result A :=
  let j := if i <? 0 then i + Z.of_nat (length l) else i in
  if j <? 0 then Raise IndexError
  else match l !! Z.to_nat j with Some a => Ok a | None => Raise IndexError end.

(** A loop over a list that may raise. *)
Fixpoint fold_result {A B} (f : A -> B -> result A) (a : A) (l : list B) : result A :=
  match l with
  | [] => Ok a
  | b :: l' => a' ← f a b; fold_result f a' l'
  end.

Lemma fold_result_app {A B} (f : A -> B -> result A) (a : A) (l k : list B) :
  fold_result f a (l ++ k) = (a' ← fold_result f a l; fold_result f a' k).
Proof. revert a. induction l as [|b l IH]; intros a; cbn; [done|]. destruct (f a b); cbn; [apply IH|done]. Qed.

(** ** Invariants of step relations *)
Lemma rtc_invariant {A} (R : relation A) (I : A -> Prop) (x y : A) :
  (forall a b, I a -> R a b -> I b) -> I x -> rtc R x y -> I y.
Proof. intros HR Hx. induction 1; eauto. Qed.

(** ** Sums of integers *)
Definition Zsum (l : list Z) : Z := foldr Z.add 0 l.

Lemma Zsum_app l k : Zsum (l ++ k) = Zsum l + Zsum k.
Proof. induction l as [|x l IH]; cbn; [done|]. unfold Zsum in *. lia. Qed.

Lemma Zsum_nonneg l : Forall (Z.le 0) l -> 0 <= Zsum l.
Proof. induction 1; cbn in *; [lia|]. unfold Zsum in *. lia. Qed.

Lemma Zsum_perm l k : l ≡ₚ k -> Zsum l = Zsum k.
Proof. induction 1; cbn in *; unfold Zsum in *; lia. Qed.

#[export] Instance Zsum_proper : Proper ((≡ₚ) ==> (=)) Zsum.
Proof. intros l k. apply Zsum_perm. Qed.

Lemma Zsum_le {A} (f g : A -> Z) (l : list A) :
  (forall x, x ∈ l -> f x <= g x) -> Zsum (f <$> l) <= Zsum (g <$> l).
Proof.
  induction l as [|x l IH]; cbn; intros H; [lia|].
  specialize (H x) as Hx. specialize (IH ltac:(set_solver)). unfold Zsum in *.
  specialize (Hx ltac:(set_solver)). lia.
Qed.

(** Sum of a function over the entries of a finite map. *)
Definition map_sum {K A} `{Countable K} (f : K -> A -> Z) (m : gmap K A) : Z :=
  Zsum ((fun kv => f kv.1 kv.2) <$> map_to_list m).

Section map_sum.
Context {K A : Type} `{Countable K}.
Implicit Types (m : gmap K A) (f g : K -> A -> Z).

Lemma map_sum_empty f : map_sum f (∅ : gmap K A) = 0.
Proof. unfold map_sum. by rewrite map_to_list_empty. Qed.

Lemma map_sum_insert_new f m i x :
  m !! i = None -> map_sum f (<[i:=x]> m) = f i x + map_sum f m.
Proof.
  intros Hi. unfold map_sum. rewrite (Zsum_perm _ _ (fmap_Permutation _ _ _ (map_to_list_insert m i x Hi))).
  done.
Qed.

Lemma map_sum_delete f m i x :
  m !! i = Some x -> map_sum f m = f i x + map_sum f (delete i m).
Proof.
  intros Hi. rewrite <- (insert_delete_id m i x Hi) at 1.
  apply map_sum_insert_new, lookup_delete_eq.
Qed.

Lemma map_sum_insert f m i x :
  map_sum f (<[i:=x]> m) = map_sum f m + f i x - from_option (f i) 0 (m !! i).
Proof.
  destruct (m !! i) as [y|] eqn:Hi; cbn.
  - rewrite (map_sum_delete f m i y Hi), (map_sum_delete f _ i x) by apply lookup_insert_eq.
    rewrite delete_insert_eq. lia.
  - rewrite map_sum_insert_new by done. lia.
Qed.

Lemma map_sum_ext f g m :
  (forall i x, m !! i = Some x -> f i x = g i x) -> map_sum f m = map_sum g m.
Proof.
  intros Hfg. unfold map_sum. f_equal. apply list_fmap_ext. intros j [i x] Hj. cbn.
  apply Hfg, elem_of_map_to_list, list_elem_of_lookup. eauto.
Qed.

Lemma map_sum_le f g m :
  (forall i x, m !! i = Some x -> f i x <= g i x) -> map_sum f m <= map_sum g m.
Proof.
  intros Hfg. unfold map_sum. apply Zsum_le. intros [i x] Hix. cbn.
  by apply Hfg, elem_of_map_to_list.
Qed.

Lemma map_sum_nonneg f m :
  (forall i x, m !! i = Some x -> 0 <= f i x) -> 0 <= map_sum f m.
Proof.
  intros Hf. apply Zsum_nonneg, Forall_fmap, Forall_forall. intros [i x] Hix. cbn.
  by apply Hf, elem_of_map_to_list.
Qed.
End map_sum.

(** Updating a key that is there. *)
Lemma alter_as_insert {K A} `{Countable K} (f : A -> A) (m : gmap K A) (i : K) (x : A) :
  m !! i = Some x -> alter f i m = <[i := f x]> m.
Proof.
  intros Hi. apply map_eq. intros j. destruct (decide (j = i)) as [->|].
  - by rewrite lookup_alter_eq, lookup_insert_eq, Hi.
  - by rewrite lookup_alter_ne, lookup_insert_ne by done.
Qed.

(** A sum over a list of keys covering a map is a sum over the map. *)
Lemma map_sum_keys {K A} `{Countable K} (f : K -> A -> Z) (m : gmap K A) (ks : list K) :
  NoDup ks -> (forall k x, m !! k = Some x -> k ∈ ks) ->
  Zsum ((fun k => from_option (f k) 0 (m !! k)) <$> ks) = map_sum f m.
Proof.
  revert m. induction ks as [|k ks IH]; intros m Hnd Hdom.
  - assert (m = ∅) as ->; [|by rewrite map_sum_empty].
    apply map_eq. intros i. rewrite lookup_empty. apply eq_None_not_Some. intros [x Hx].
    by apply Hdom, not_elem_of_nil in Hx.
  - apply NoDup_cons in Hnd as [Hk Hnd]. cbn [fmap list_fmap Zsum foldr].
    assert (Zsum ((fun k => from_option (f k) 0 (m !! k)) <$> ks) = map_sum f (delete k m)) as E.
    { rewrite <- (IH (delete k m)); [|done|].
      - f_equal. apply list_fmap_ext. intros j x Hx. apply list_elem_of_lookup_2 in Hx.
        rewrite lookup_delete_ne; [done|]. intros ->. contradiction.
      - intros j x Hx. apply lookup_delete_Some in Hx as [Hne Hx].
        apply Hdom, elem_of_cons in Hx as [->|]; done. }
    unfold Zsum in E. rewrite E. destruct (m !! k) as [x|] eqn:Hx; cbn.
    + by rewrite (map_sum_delete f m k x Hx).
    + by rewrite delete_id.
Qed.

Lemma Zsum_fmap_add {A} (f g : A -> Z) (l : list A) :
  Zsum ((fun x => f x + g x) <$> l) = Zsum (f <$> l) + Zsum (g <$> l).
Proof. induction l as [|x l IH]; cbn in *; [done|]. unfold Zsum in *. lia. Qed.

Lemma Zsum_fmap_const {A} (c : Z) (l : list A) :
  Zsum ((fun _ => c) <$> l) = Z.of_nat (length l) * c.
Proof. induction l as [|x l IH]; cbn [fmap list_fmap length] in *; [done|]. unfold Zsum in *. cbn. lia. Qed.

(** Pointwise bounded sums that meet are pointwise equal. *)
Lemma Zsum_le_eq {A} (f g : A -> Z) (l : list A) :
  (forall x, x ∈ l -> f x <= g x) -> Zsum (g <$> l) <= Zsum (f <$> l) ->
  forall x, x ∈ l -> f x = g x.
Proof.
  induction l as [|y l IH]; intros Hle Hsum x Hx; [by apply not_elem_of_nil in Hx|].
  assert (Zsum (f <$> l) <= Zsum (g <$> l)) by (apply Zsum_le; set_solver).
  assert (f y <= g y) by (apply Hle; set_solver).
  change (g y + Zsum (g <$> l) <= f y + Zsum (f <$> l)) in Hsum.
  apply elem_of_cons in Hx as [->|Hx]; [lia|]. apply IH; [set_solver|lia|done].
Qed.

Lemma Zsum_ext_eq {A} (f g : A -> Z) (l : list A) :
  (forall x, x ∈ l -> f x = g x) -> Zsum (f <$> l) = Zsum (g <$> l).
Proof.
  intros H. f_equal. apply list_fmap_ext. intros i x Hx. by apply H, list_elem_of_lookup_2 with i.
Qed.

(** ** Filtered lists *)
Lemma list_filter_iff' {A} (P Q : A -> Prop) `{!forall x, Decision (P x), !forall x, Decision (Q x)} (l : list A) :
  (forall x, x ∈ l -> P x <-> Q x) -> filter P l = filter Q l.
Proof.
  induction l as [|x l IH]; intros HPQ; [done|]. rewrite !filter_cons, IH by set_solver.
  pose proof (HPQ x ltac:(set_solver)). repeat case_decide; tauto.
Qed.

Lemma list_filter_all {A} (P : A -> Prop) `{!forall x, Decision (P x)} (l : list A) :
  (forall x, x ∈ l -> P x) -> filter P l = l.
Proof.
  induction l as [|x l IH]; intros HPQ; [done|]. rewrite filter_cons, IH by set_solver.
  rewrite decide_True; [done|]. set_solver.
Qed.

Lemma fmap_sublist_filter {A B} (f : A -> B) (P : A -> Prop) `{!forall x, Decision (P x)} (l : list A) :
  f <$> filter P l `sublist_of` f <$> l.
Proof. apply fmap_sublist, sublist_filter. Qed.

(** ** Extremes of a filtered sorted list *)
Section sorted_filter.
Context (P : Z -> Prop) `{!forall x, Decision (P x)}.

Lemma head_filter_Some (l : list Z) x :
  StronglySorted Z.le l -> head (filter P l) = Some x ->
  x ∈ l /\ P x /\ forall y, y ∈ l -> P y -> x <= y.
Proof.
  induction 1 as [|a l _ IH Hall]; [done|]. rewrite filter_cons. case_decide as Ha.
  - intros [= <-]. split; [set_solver|]. split; [done|]. intros y [->|Hy]%elem_of_cons _; [lia|].
    by eapply Forall_forall in Hall.
  - intros (Hx & HP & Hmin)%IH. split; [set_solver|]. split; [done|].
    intros y [->|Hy]%elem_of_cons HPy; [done|]. by apply Hmin.
Qed.

Lemma last_filter_Some (l : list Z) x :
  StronglySorted Z.le l -> last (filter P l) = Some x ->
  x ∈ l /\ P x /\ forall y, y ∈ l -> P y -> y <= x.
Proof.
  induction 1 as [|a l _ IH Hall]; [done|]. rewrite filter_cons. case_decide as Ha.
  - rewrite last_cons. destruct (last (filter P l)) as [z|] eqn:Hz; cbn.
    + intros [= ->]. destruct (IH eq_refl) as (Hx & HP & Hmax). split; [set_solver|]. split; [done|].
      intros y [->|Hy]%elem_of_cons HPy; [|by apply Hmax]. by eapply Forall_forall in Hall.
    + intros [= <-]. split; [set_solver|]. split; [done|]. apply last_None in Hz.
      intros y [->|Hy]%elem_of_cons HPy; [done|]. exfalso.
      assert (y ∈ filter P l) as Hin by by apply list_elem_of_filter. rewrite Hz in Hin.
      by apply not_elem_of_nil in Hin.
  - intros (Hx & HP & Hmax)%IH. split; [set_solver|]. split; [done|].
    intros y [->|Hy]%elem_of_cons HPy; [done|]. by apply Hmax.
Qed.

Lemma filter_nil_iff (l : list Z) : filter P l = [] <-> forall y, y ∈ l -> ~ P y.
Proof.
  split.
  - intros Hz y Hy HP. assert (y ∈ filter P l) as Hin by by apply list_elem_of_filter.
    rewrite Hz in Hin. by apply not_elem_of_nil in Hin.
  - intros Hno. destruct (filter P l) as [|y k] eqn:E; [done|]. exfalso.
    assert (y ∈ filter P l) as [HP Hy]%list_elem_of_filter by (rewrite E; set_solver). by eapply Hno.
Qed.
End sorted_filter.

(** ** Sorting

    Python's [sorted] and SQL's [ORDER BY]: a stable insertion sort by a boolean
    comparison, sorted as soon as the comparison is total and transitive. *)
Section isort.
Context {A : Type} (leb : A -> A -> bool).

Fixpoint insert_leb (x : A) (l : list A) : list A :=
  match l with [] => [x] | y :: l' => if leb x y then x :: l else y :: insert_leb x l' end.
Definition isort (l : list A) : list A := foldr insert_leb [] l.

Lemma insert_leb_perm x l : insert_leb x l ≡ₚ x :: l.
Proof. induction l as [|y l IH]; cbn; [done|]. destruct (leb x y); [done|]. rewrite IH. apply Permutation_swap. Qed.

Lemma isort_perm l : isort l ≡ₚ l.
Proof. induction l as [|x l IH]; cbn; [done|]. rewrite insert_leb_perm. by rewrite IH. Qed.

Lemma elem_of_isort x l : x ∈ isort l <-> x ∈ l.
Proof. by rewrite isort_perm. Qed.

Context (leb_total : forall x y, leb x y = true \/ leb y x = true).
Context (leb_trans : forall x y z, leb x y = true -> leb y z = true -> leb x z = true).

Lemma insert_leb_sorted x l : StronglySorted (fun x y => leb x y = true) l -> StronglySorted (fun x y => leb x y = true) (insert_leb x l).
Proof.
  induction 1 as [|y k Hs IH Hall]; cbn; [repeat constructor|]. destruct (leb x y) eqn:E.
  - constructor; [by constructor|]. constructor; [done|]. eapply Forall_impl; [exact Hall|]. intros z Hz. by eapply leb_trans.
  - constructor; [done|]. apply Forall_forall. intros z Hz. rewrite insert_leb_perm in Hz.
    apply elem_of_cons in Hz as [->|Hz]; [by destruct (leb_total x y); congruence|]. by eapply Forall_forall in Hall.
Qed.

Lemma isort_sorted l : StronglySorted (fun x y => leb x y = true) (isort l).
Proof. induction l as [|x l IH]; cbn; [constructor|]. by apply insert_leb_sorted. Qed.
End isort.

(** ** The order of strings *)
Lemma string_leb_trans a b c : String.leb a b = true -> String.leb b c = true -> String.leb a c = true.
Proof.
  unfold String.leb. revert b c. induction a as [|x a IH]; intros [|y b] [|z c]; cbn; try done.
  specialize (IH b c). unfold Ascii.compare.
  destruct (N.compare_spec (N_of_ascii x) (N_of_ascii y)) as [E1|H1|H1], (N.compare_spec (N_of_ascii y) (N_of_ascii z)) as [E2|H2|H2],
    (N.compare_spec (N_of_ascii x) (N_of_ascii z)) as [E3|H3|H3]; intros Ha Hb; try done; try lia.
  by apply IH.
Qed.

Lemma string_leb_total a b : String.leb a b = true \/ String.leb b a = true.
Proof. unfold String.leb. rewrite (String.compare_antisym a b). destruct (String.compare b a); cbn; [by left|by right|by left]. Qed.

Lemma string_leb_antisym a b : String.leb a b = true -> String.leb b a = true -> a = b.
Proof.
  unfold String.leb. rewrite (String.compare_antisym a b). destruct (String.compare b a) eqn:E; cbn; try done. intros _ _. symmetry. by apply String.compare_eq_iff.
Qed.

(** An insertion sort leaves a sorted list as it is. *)
Lemma isort_id {A} (leb : A -> A -> bool) l : StronglySorted (fun x y => leb x y = true) l -> isort leb l = l.
Proof.
  induction 1 as [|x l Hs IH Hall]; [done|]. change (insert_leb leb x (isort leb l) = x :: l). rewrite IH. destruct l as [|y l]; cbn; [done|]. apply Forall_cons in Hall as [-> _]. done.
Qed.

(** ** [mapM] *)
Lemma mapM_ok {A B} (f : A -> result B) l k : mapM f l = Ok k -> Forall2 (fun x y => f x = Ok y) l k.
Proof.
  revert k. induction l as [|x l IH]; intros k; cbn [mapM]; [by intros <-%(inj Ok)|].
  intros (y & Hy & (ys & Hys & <-%(inj Ok))%bind_ok_inv)%bind_ok_inv. constructor; [done|by apply IH].
Qed.

Lemma mapM_elem {A B} (f : A -> result B) (l : list A) k : mapM f l = Ok k -> forall b, b ∈ k <-> exists a, a ∈ l /\ f a = Ok b.
Proof.
  revert k. induction l as [|a l IH]; intros k; cbn; [intros [= <-] b; set_solver|].
  destruct (f a) as [c|] eqn:Ea; cbn; [|done]. destruct (mapM f l) as [m|]; cbn; [|done]. intros [= <-] b. rewrite elem_of_cons, (IH m eq_refl). split.
  - intros [->|(x & ? & ?)]; [exists a|exists x]; split; [by left|done|by right|done].
  - intros (x & [->|Hx]%elem_of_cons & E); [left; congruence|right; eauto].
Qed.

Lemma mapM_total {A B} (f : A -> result B) (l : list A) k : mapM f l = Ok k -> forall a, a ∈ l -> exists b, f a = Ok b /\ b ∈ k.
Proof.
  revert k. induction l as [|a l IH]; intros k; cbn; [intros _ x Hx; set_solver|].
  destruct (f a) as [c|] eqn:Ea; cbn; [|done]. destruct (mapM f l) as [m|]; cbn; [|done]. intros [= <-] x [->|Hx]%elem_of_cons.
  - exists c. split; [done|by left].
  - destruct (IH m eq_refl x Hx) as (b & ? & ?). exists b. split; [done|by right].
Qed.

Lemma mapM_perm {A B} (f : A -> result B) (l l' : list A) k : l ≡ₚ l' -> mapM f l = Ok k -> exists k', mapM f l' = Ok k' /\ k ≡ₚ k'.
Proof.
  intros H. revert k. induction H as [|a l l' H IH|a b l|l1 l2 l3 H1 IH1 H2 IH2]; intros k; cbn.
  - intros [= <-]. by exists [].
  - destruct (f a) as [b|x]; cbn; [|done]. destruct (mapM f l) as [m|]; cbn; [|done]. intros [= <-].
    destruct (IH m eq_refl) as (m' & -> & Hm). eexists. split; [done|]. by rewrite Hm.
  - destruct (f b) as [v|], (f a) as [u|]; cbn; try done. destruct (mapM f l) as [m|]; cbn; [|done]. intros [= <-]. eexists. split; [done|]. apply Permutation_swap.
  - intros (k' & E' & Hk)%IH1. apply IH2 in E' as (k2 & -> & Hk2). exists k2. split; [done|]. by rewrite Hk.
Qed.

Lemma mapM_pairs {A B} (f : A -> result B) l k : mapM (fun s => d ← f s; Ok (s, d)) l = Ok k -> k.*1 = l /\ Forall (fun x => f x.1 = Ok x.2) k.
Proof.
  revert k. induction l as [|a l IH]; intros k; cbn; [intros [= <-]; by split; [|constructor]|]. destruct (f a) as [d|] eqn:E; cbn; [|done].
  destruct (mapM _ l) as [m|]; cbn; [|done]. intros [= <-]. destruct (IH m eq_refl) as [<- Hf]. split; [done|by constructor].
Qed.
