(* ===== verification/PyFloat.v ===== *)
(** * PyFloat: Python floats as exact binary64 values

    Every finite IEEE 754 double is an integer multiple of 2^-1074, so a
    finite float is modelled as that integer.  Comparisons of floats are then
    comparisons of integers, and every arithmetic operation is the exact
    rational operation followed by [fround]: round to nearest, ties to even,
    with a 53-bit significand, subnormals included.  Overflow to infinity
    (magnitudes from 2^1024 on) and the sign of zero are not modelled; no
    value of the modelled code comes near that range. *)

From S2P Require Import Prelude.

#[local] Open Scope Z_scope.

Abbreviation float := Z (only parsing).

(** ** Rounding *)

(** The integer nearest to [p / q] ([0 < q]), ties to even. *)
Definition rdiv_even (p q : Z) : Z :=
  let d := p / q in
  let r := p mod q in
  if 2 * r <? q then d
  else if q <? 2 * r then d + 1
  else if Z.even d then d else d + 1.

(** The binary64 nearest to the rational [p / q] (in units of 2^-1074). *)
Definition fround_pos (p q : Z) : Z :=
  let e := Z.max 0 (Z.log2 (p / q) - 52) in
  rdiv_even p (q * 2 ^ e) * 2 ^ e.

Definition fround (p q : Z) : float :=
  if p <? 0 then - fround_pos (- p) q else fround_pos p q.

(** ** Operations *)

(** [1.0] *)
Definition fone : float := 2 ^ 1074.

(** [float(n)] of an integer and the literal [n / d]. *)
Definition of_int (n : Z) : float := fround (n * fone) 1.
Definition flit (n d : Z) : float := fround (n * fone) d.

Definition fadd (a b : float) : float := fround (a + b) 1.
Definition fsub (a b : float) : float := fround (a - b) 1.
Definition fmul (a b : float) : float := fround (a * b) fone.
(** [a / b]; Python raises [ZeroDivisionError] on [b = 0], which the callers
    of [fdiv] exclude before dividing. *)
Definition fdiv (a b : float) : float := fround (a * fone * Z.sgn b) (Z.abs b).

(** [math.floor(a)] and [int(a)] (truncation). *)
Definition ffloor (a : float) : Z := a / fone.
Definition ftrunc (a : float) : Z := Z.quot a fone.

(** [math.ceil(a)] *)
Definition fceil (a : float) : Z := - ffloor (- a).

(** A value a binary64 holds exactly. *)
Definition representable (a : float) : Prop := fround a 1 = a.

#[export] Instance representable_dec a : Decision (representable a) := decide (fround a 1 = a).

(** ** Rounding is monotone and exact on representable values *)

Lemma rdiv_even_bounds p q : 0 < q -> p - q <= rdiv_even p q * q <= p + q.
Proof.
  intros Hq. unfold rdiv_even.
  pose proof (Z.div_mod p q ltac:(lia)). pose proof (Z.mod_pos_bound p q Hq).
  destruct (Z.ltb_spec (2 * (p mod q)) q); [nia|].
  destruct (Z.ltb_spec q (2 * (p mod q))); [nia|].
  destruct (Z.even _); nia.
Qed.

Lemma rdiv_even_exact k q : 0 < q -> rdiv_even (k * q) q = k.
Proof.
  intros Hq. unfold rdiv_even. rewrite Z.div_mul, Z.mod_mul by lia.
  destruct (Z.ltb_spec (2 * 0) q); lia.
Qed.

Lemma rdiv_even_le_div p q : 0 < q -> p / q <= rdiv_even p q <= p / q + 1.
Proof.
  intros Hq. unfold rdiv_even.
  repeat case_match; lia.
Qed.

Lemma rdiv_even_mono p q p' q' :
  0 < q -> 0 < q' -> p * q' <= p' * q -> rdiv_even p q <= rdiv_even p' q'.
Proof.
  intros Hq Hq' Hle.
  pose proof (Z.div_mod p q ltac:(lia)) as E. pose proof (Z.mod_pos_bound p q Hq) as B.
  pose proof (Z.div_mod p' q' ltac:(lia)) as E'. pose proof (Z.mod_pos_bound p' q' Hq') as B'.
  assert (Hd : p / q <= p' / q').
  { apply Z.div_le_lower_bound; [lia|]. nia. }
  destruct (decide (p / q = p' / q')) as [Heq|Hne].
  - unfold rdiv_even. rewrite <- Heq in E' |- *.
    set (d := p / q) in *. set (r := p mod q) in *. set (r' := p' mod q') in *.
    assert (r * q' <= r' * q) by nia.
    destruct (Z.ltb_spec (2 * r) q), (Z.ltb_spec (2 * r') q'); try lia;
      destruct (Z.ltb_spec q (2 * r)); destruct (Z.ltb_spec q' (2 * r'));
      destruct (Z.even d); try lia; nia.
  - pose proof (rdiv_even_le_div p q Hq). pose proof (rdiv_even_le_div p' q' Hq'). lia.
Qed.

Lemma rdiv_even_le p q k : 0 < q -> p <= k * q -> rdiv_even p q <= k.
Proof.
  intros Hq Hp. rewrite <- (rdiv_even_exact k 1) by lia. apply rdiv_even_mono; lia.
Qed.

Lemma rdiv_even_ge p q k : 0 < q -> k * q <= p -> k <= rdiv_even p q.
Proof.
  intros Hq Hp. rewrite <- (rdiv_even_exact k 1) by lia. apply rdiv_even_mono; lia.
Qed.

(** The exponent chosen for [p / q], and the range of its significand. *)
Definition fexp (p q : Z) : Z := Z.max 0 (Z.log2 (p / q) - 52).

Lemma fround_pos_fexp p q :
  fround_pos p q = rdiv_even p (q * 2 ^ fexp p q) * 2 ^ fexp p q.
Proof. done. Qed.

Lemma fexp_upper p q : 0 <= p -> 0 < q -> p < q * 2 ^ (fexp p q + 53).
Proof.
  intros Hp Hq. unfold fexp.
  pose proof (Z.div_mod p q ltac:(lia)). pose proof (Z.mod_pos_bound p q Hq).
  pose proof (Z.div_pos p q Hp Hq).
  assert (p / q < 2 ^ (Z.max 0 (Z.log2 (p / q) - 52) + 53)).
  { destruct (decide (p / q = 0)) as [->|Hnz]; [apply Z.pow_pos_nonneg; lia|].
    apply Z.log2_lt_pow2; lia. }
  nia.
Qed.

Lemma fexp_lower p q : 0 <= p -> 0 < q -> 0 < fexp p q -> q * 2 ^ (fexp p q + 52) <= p.
Proof.
  intros Hp Hq He. unfold fexp in *.
  pose proof (Z.div_mod p q ltac:(lia)). pose proof (Z.mod_pos_bound p q Hq).
  replace (Z.max 0 (Z.log2 (p / q) - 52) + 52) with (Z.log2 (p / q)) by lia.
  assert (0 < p / q) as Hpos.
  { destruct (decide (0 < p / q)); [done|]. rewrite Z.log2_nonpos in He by lia. lia. }
  pose proof (Z.log2_spec (p / q) Hpos). nia.
Qed.

Lemma fround_pos_mono p q p' q' :
  0 <= p -> 0 <= p' -> 0 < q -> 0 < q' -> p * q' <= p' * q ->
  fround_pos p q <= fround_pos p' q'.
Proof.
  intros Hp Hp' Hq Hq' Hle. rewrite !fround_pos_fexp.
  pose proof (Z.le_max_l 0 (Z.log2 (p / q) - 52)) as Hen. fold (fexp p q) in Hen.
  assert (Hd : p / q <= p' / q') by (apply Z.div_le_lower_bound; [lia|];
    pose proof (Z.mul_div_le p q Hq); nia).
  assert (Hee : fexp p q <= fexp p' q').
  { unfold fexp. pose proof (Z.log2_le_mono _ _ Hd). lia. }
  destruct (decide (fexp p q = fexp p' q')) as [Heq|Hne].
  - rewrite <- Heq. apply Z.mul_le_mono_nonneg_r; [apply Z.pow_nonneg; lia|].
    pose proof (Z.pow_pos_nonneg 2 (fexp p q) ltac:(lia) Hen).
    apply rdiv_even_mono; nia.
  - pose proof (fexp_upper p q Hp Hq) as Hup. pose proof (fexp_lower p' q' Hp' Hq' ltac:(lia)) as Hlo.
    rewrite Z.pow_add_r in Hup, Hlo by lia.
    pose proof (Z.pow_pos_nonneg 2 (fexp p q) ltac:(lia) Hen).
    pose proof (Z.pow_pos_nonneg 2 (fexp p' q') ltac:(lia) ltac:(lia)).
    transitivity (2 ^ 53 * 2 ^ fexp p q).
    { apply Z.mul_le_mono_nonneg_r; [lia|]. apply rdiv_even_le; nia. }
    transitivity (2 ^ 52 * 2 ^ fexp p' q').
    { replace (2 ^ 53) with (2 ^ 52 * 2 ^ 1) by (rewrite <- Z.pow_add_r; done || lia).
      rewrite <- Z.mul_assoc, <- Z.pow_add_r by lia.
      apply Z.mul_le_mono_nonneg_l; [lia|]. apply Z.pow_le_mono_r; lia. }
    apply Z.mul_le_mono_nonneg_r; [lia|]. apply rdiv_even_ge; nia.
Qed.

Lemma fround_pos_nonneg p q : 0 <= p -> 0 < q -> 0 <= fround_pos p q.
Proof.
  intros Hp Hq. rewrite fround_pos_fexp.
  assert (0 < 2 ^ fexp p q) by (apply Z.pow_pos_nonneg; unfold fexp; lia).
  apply Z.mul_nonneg_nonneg; [|lia]. apply rdiv_even_ge; nia.
Qed.

Lemma fround_pos_0 q : 0 < q -> fround_pos 0 q = 0.
Proof.
  intros Hq. unfold fround_pos. rewrite Z.div_0_l by lia.
  change (Z.max 0 (Z.log2 0 - 52)) with 0.
  pose proof (rdiv_even_exact 0 (q * 2 ^ 0) ltac:(lia)) as E. rewrite Z.mul_0_l in E. by rewrite E.
Qed.

Lemma fround_mono p q p' q' :
  0 < q -> 0 < q' -> p * q' <= p' * q -> fround p q <= fround p' q'.
Proof.
  intros Hq Hq' Hle. unfold fround.
  destruct (Z.ltb_spec p 0), (Z.ltb_spec p' 0).
  - pose proof (fround_pos_mono (- p') q' (- p) q). lia.
  - pose proof (fround_pos_nonneg (- p) q). pose proof (fround_pos_nonneg p' q'). lia.
  - nia.
  - by apply fround_pos_mono.
Qed.

(** A significand of at most 53 bits, at any exponent, is rounded to itself. *)
Lemma fround_pos_exact m e : 0 <= m <= 2 ^ 53 -> 0 <= e -> fround_pos (m * 2 ^ e) 1 = m * 2 ^ e.
Proof.
  intros Hm He. unfold fround_pos. rewrite Z.div_1_r.
  set (k := Z.max 0 (Z.log2 (m * 2 ^ e) - 52)).
  assert (exists j, m * 2 ^ e = j * 2 ^ k) as [j ->].
  { destruct (decide (m = 0)) as [->|Hnz]; [by exists 0|].
    destruct (decide (m = 2 ^ 53)) as [->|Hne].
    - exists (2 ^ (53 + e - k)). rewrite <- !Z.pow_add_r; subst k;
        rewrite <- ?Z.pow_add_r, ?Z.log2_pow2 by lia; f_equal; lia.
    - assert (Z.log2 m < 53) by (apply Z.log2_lt_pow2; lia).
      assert (k <= e) by (subst k; rewrite Z.log2_mul_pow2 by lia; lia).
      exists (m * 2 ^ (e - k)). rewrite <- Z.mul_assoc, <- Z.pow_add_r by lia. do 2 f_equal; lia. }
  rewrite Z.mul_1_l, rdiv_even_exact; [done|]. apply Z.pow_pos_nonneg; lia.
Qed.

Lemma fround_pos_repr p q : 0 <= p -> 0 < q ->
  exists m e, fround_pos p q = m * 2 ^ e /\ 0 <= m <= 2 ^ 53 /\ 0 <= e.
Proof.
  intros Hp Hq. exists (rdiv_even p (q * 2 ^ fexp p q)), (fexp p q).
  assert (0 <= fexp p q) by (unfold fexp; lia).
  assert (0 < 2 ^ fexp p q) by (apply Z.pow_pos_nonneg; lia).
  pose proof (fexp_upper p q Hp Hq) as Hup. rewrite Z.pow_add_r in Hup by lia.
  split; [apply fround_pos_fexp|]. split; [|done].
  split; [apply rdiv_even_ge; nia|apply rdiv_even_le; nia].
Qed.

Lemma fround_representable p q : 0 < q -> representable (fround p q).
Proof.
  intros Hq. unfold representable. unfold fround at 2 3.
  destruct (Z.ltb_spec p 0) as [Hp|Hp].
  - destruct (fround_pos_repr (- p) q ltac:(lia) Hq) as (m & e & -> & Hm & He).
    unfold fround. pose proof (Z.pow_pos_nonneg 2 e ltac:(lia) He).
    destruct (Z.ltb_spec (- (m * 2 ^ e)) 0).
    + rewrite Z.opp_involutive, fround_pos_exact by lia. done.
    + assert (m * 2 ^ e = 0) as -> by nia. by rewrite fround_pos_0.
  - destruct (fround_pos_repr p q Hp Hq) as (m & e & -> & Hm & He).
    unfold fround. pose proof (Z.pow_pos_nonneg 2 e ltac:(lia) He).
    destruct (Z.ltb_spec (m * 2 ^ e) 0); [nia|]. by rewrite fround_pos_exact.
Qed.

Lemma fround_0 q : 0 < q -> fround 0 q = 0.
Proof. intros. unfold fround. cbn. by apply fround_pos_0. Qed.

Lemma representable_0 : representable 0.
Proof. by apply fround_0. Qed.

Lemma representable_small n : - 2 ^ 53 <= n <= 2 ^ 53 -> representable n.
Proof.
  intros Hn. unfold representable, fround.
  destruct (Z.ltb_spec n 0).
  - pose proof (fround_pos_exact (- n) 0 ltac:(lia) ltac:(lia)) as E. rewrite Z.mul_1_r in E. lia.
  - pose proof (fround_pos_exact n 0 ltac:(lia) ltac:(lia)) as E. rewrite Z.mul_1_r in E. lia.
Qed.

Lemma fone_pos : 0 < fone.
Proof. unfold fone. apply Z.pow_pos_nonneg; lia. Qed.

(** Rounding never crosses a representable value. *)
Lemma fround_le p q x : 0 < q -> representable x -> p <= x * q -> fround p q <= x.
Proof. intros Hq Hx Hp. unfold representable in Hx. rewrite <- Hx. apply fround_mono; lia. Qed.

Lemma fround_ge p q x : 0 < q -> representable x -> x * q <= p -> x <= fround p q.
Proof. intros Hq Hx Hp. unfold representable in Hx. rewrite <- Hx at 1. apply fround_mono; lia. Qed.

Lemma fadd_mono a b a' b' : a <= a' -> b <= b' -> fadd a b <= fadd a' b'.
Proof. intros. apply fround_mono; lia. Qed.

Lemma fadd_ge_l a b : representable a -> 0 <= b -> a <= fadd a b.
Proof. intros. apply fround_ge; [lia|done|lia]. Qed.

Lemma fadd_nonneg a b : 0 <= a -> 0 <= b -> 0 <= fadd a b.
Proof. intros. apply fround_ge; [lia|apply representable_0|lia]. Qed.

Lemma fadd_0_l a : representable a -> fadd 0 a = a.
Proof. done. Qed.

(** The difference of two floats is positive exactly when they are ordered:
    no underflow to zero, since the unit is the smallest subnormal. *)
Lemma fsub_pos_iff a b : 0 < fsub a b <-> b < a.
Proof.
  unfold fsub. split; intros H.
  - apply Z.nle_gt. intros Hle.
    pose proof (fround_le (a - b) 1 0 ltac:(lia) representable_0 ltac:(lia)). lia.
  - pose proof (fround_ge (a - b) 1 1 ltac:(lia) (representable_small 1 ltac:(lia)) ltac:(lia)). lia.
Qed.

Lemma fsub_neg_iff a b : fsub a b < 0 <-> a < b.
Proof.
  unfold fsub. split; intros H.
  - apply Z.nle_gt. intros Hle.
    pose proof (fround_ge (a - b) 1 0 ltac:(lia) representable_0 ltac:(lia)). lia.
  - pose proof (fround_le (a - b) 1 (-1) ltac:(lia) (representable_small (-1) ltac:(lia)) ltac:(lia)). lia.
Qed.

Lemma fsub_0_iff a b : fsub a b = 0 <-> a = b.
Proof. pose proof (fsub_pos_iff a b). pose proof (fsub_neg_iff a b). lia. Qed.

Lemma fsub_le a b : representable a -> 0 <= b -> fsub a b <= a.
Proof. intros. apply fround_le; [lia|done|lia]. Qed.

Lemma fmul_nonneg a b : 0 <= a -> 0 <= b -> 0 <= fmul a b.
Proof. intros. apply fround_ge; [apply fone_pos|apply representable_0|nia]. Qed.

(** Multiplying by a factor of at most one never increases a float. *)
Lemma fmul_le_l a b : representable a -> 0 <= a -> b <= fone -> fmul a b <= a.
Proof. intros. apply fround_le; [apply fone_pos|done|nia]. Qed.

Lemma fmul_mono a b a' b' : 0 <= a -> 0 <= b -> a <= a' -> b <= b' -> fmul a b <= fmul a' b'.
Proof. intros. pose proof fone_pos. apply fround_mono; [done..|].
  apply Z.mul_le_mono_nonneg_r; [lia|]. apply Z.mul_le_mono_nonneg; lia. Qed.

Lemma fdiv_nonneg a b : 0 <= a -> 0 < b -> 0 <= fdiv a b.
Proof.
  intros. pose proof fone_pos. unfold fdiv. rewrite Z.sgn_pos, Z.abs_eq by lia.
  apply fround_ge; [lia|apply representable_0|nia].
Qed.

Lemma fdiv_mono_l a a' b : 0 < b -> a <= a' -> fdiv a b <= fdiv a' b.
Proof.
  intros. pose proof fone_pos. unfold fdiv. rewrite Z.sgn_pos, Z.abs_eq by lia.
  apply fround_mono; [lia|lia|]. rewrite !Z.mul_1_r.
  apply Z.mul_le_mono_nonneg_r; [lia|]. apply Z.mul_le_mono_nonneg_r; lia.
Qed.

(** A quotient [a / b] with [0 <= a <= b] is at most one. *)
Lemma fone_representable : representable fone.
Proof. unfold representable. vm_compute. reflexivity. Qed.

Lemma fdiv_le_one a b : 0 < b -> a <= b -> fdiv a b <= fone.
Proof.
  intros. pose proof fone_pos. unfold fdiv. rewrite Z.sgn_pos, Z.abs_eq by lia.
  apply fround_le; [lia|apply fone_representable|nia].
Qed.

Lemma fadd_representable a b : representable (fadd a b).
Proof. by apply fround_representable. Qed.
Lemma fsub_representable a b : representable (fsub a b).
Proof. by apply fround_representable. Qed.
Lemma fmul_representable a b : representable (fmul a b).
Proof. apply fround_representable, fone_pos. Qed.
Lemma fdiv_representable a b : b <> 0 -> representable (fdiv a b).
Proof. intros. apply fround_representable. lia. Qed.
Lemma of_int_representable n : representable (of_int n).
Proof. by apply fround_representable. Qed.
Lemma min_representable a b : representable a -> representable b -> representable (Z.min a b).
Proof. destruct (Z.min_spec a b) as [[_ ->]|[_ ->]]; done. Qed.
Lemma max_representable a b : representable a -> representable b -> representable (Z.max a b).
Proof. destruct (Z.max_spec a b) as [[_ ->]|[_ ->]]; done. Qed.

Lemma of_int_mono m n : m <= n -> of_int m <= of_int n.
Proof. intros. pose proof fone_pos. apply fround_mono; nia. Qed.

Create HintDb pyfloat.
#[export] Hint Resolve fadd_representable fsub_representable fmul_representable
  of_int_representable min_representable max_representable representable_0
  fone_representable fadd_nonneg fmul_nonneg : pyfloat.

Global Arguments fround : simpl never.

(** The doubles [0.1] and [0.1 + 0.2], bit for bit. *)
Example flit_tenth : flit 1 10 = 0x1999999999999A * 2 ^ (1074 - 56).
Proof. vm_compute. reflexivity. Qed.

Example fadd_tenths : fadd (flit 1 10) (flit 2 10) = 0x13333333333334 * 2 ^ (1074 - 54).
Proof. vm_compute. reflexivity. Qed.

(** Integers up to 2^53 are floats. *)
Lemma of_int_exact n : - 2 ^ 53 <= n <= 2 ^ 53 -> of_int n = n * fone.
Proof.
  intros Hn. unfold of_int, fone, fround. destruct (Z.ltb_spec (n * 2 ^ 1074) 0).
  - rewrite <- Z.mul_opp_l, fround_pos_exact by lia. lia.
  - apply fround_pos_exact; [|lia]. pose proof (Z.pow_pos_nonneg 2 1074). nia.
Qed.

Lemma ftrunc_le a n : 0 <= a -> a <= n * fone -> ftrunc a <= n.
Proof.
  intros Ha Hn. pose proof fone_pos. unfold ftrunc. rewrite Z.quot_div_nonneg by lia.
  apply Z.div_le_upper_bound; lia.
Qed.

Lemma ftrunc_nonneg a : 0 <= a -> 0 <= ftrunc a.
Proof. intros. pose proof fone_pos. unfold ftrunc. by apply Z.quot_pos. Qed.

(** Proof search must not try to compute with 1074-bit numbers; [vm_compute]
    still does. *)
Lemma representable_scaled m e : 0 <= m <= 2 ^ 53 -> 0 <= e -> representable (m * 2 ^ e).
Proof.
  intros Hm He. unfold representable, fround.
  assert (0 <= m * 2 ^ e) by (apply Z.mul_nonneg_nonneg; [lia|apply Z.pow_nonneg; lia]).
  destruct (Z.ltb_spec (m * 2 ^ e) 0); [lia|]. by apply fround_pos_exact.
Qed.

(** A float strictly above [q] and close to it. *)
Lemma float_above q : 0 < q < 2 ^ 52 -> exists x,
  representable x /\ q * fone < x /\ (x - q * fone) * 2 ^ 52 <= q * fone.
Proof.
  intros Hq. set (k := Z.log2 q). assert (0 <= k < 52) as Hk.
  { split; [apply Z.log2_nonneg|]. apply Z.log2_lt_pow2; lia. }
  destruct (Z.log2_spec q ltac:(lia)) as [H1 H2]. fold k in H1, H2.
  exists ((q * 2 ^ (52 - k) + 1) * 2 ^ (1022 + k)). split; [apply representable_scaled; [|lia]|].
  - assert (q * 2 ^ (52 - k) < 2 ^ Z.succ k * 2 ^ (52 - k)) as Hb
      by (apply Z.mul_lt_mono_pos_r; [apply Z.pow_pos_nonneg; lia|lia]).
    rewrite <- Z.pow_add_r in Hb by lia. replace (Z.succ k + (52 - k)) with 53 in Hb by lia.
    assert (0 <= q * 2 ^ (52 - k)) by (apply Z.mul_nonneg_nonneg; [lia|apply Z.pow_nonneg; lia]). lia.
  - assert (fone = 2 ^ (52 - k) * 2 ^ (1022 + k)) as ->
      by (unfold fone; rewrite <- Z.pow_add_r by lia; f_equal; lia).
    assert (0 < 2 ^ (1022 + k)) as Hp by (apply Z.pow_pos_nonneg; lia).
    assert (2 ^ 52 = 2 ^ k * 2 ^ (52 - k)) as -> by (rewrite <- Z.pow_add_r by lia; f_equal; lia).
    assert (0 < 2 ^ (52 - k)) by (apply Z.pow_pos_nonneg; lia).
    set (u := 2 ^ (1022 + k)) in *. set (v := 2 ^ (52 - k)) in *. set (w := 2 ^ k) in *. clearbody u v w. nia.
Qed.

(** [math.ceil(a / b)] of two integers is the exact ceiling below 2^52. *)
Lemma fceil_flit a b : 0 <= a < 2 ^ 52 -> 0 < b < 2 ^ 52 -> fceil (flit a b) = - (- a / b).
Proof.
  intros Ha Hb. pose proof fone_pos as Hf. unfold fceil, ffloor.
  set (q := a / b). pose proof (Z.div_mod a b ltac:(lia)) as Hdiv. pose proof (Z.mod_pos_bound a b ltac:(lia)) as Hr.
  fold q in Hdiv. assert (0 <= q) as Hq by (apply Z.div_pos; lia).
  assert (q <= a) as Hqa by nia.
  assert (forall n, 0 <= n <= 2 ^ 53 -> representable (n * fone)) as Hrep
    by (intros n Hn; apply representable_scaled; lia).
  destruct (Z.eq_dec (a mod b) 0) as [Hz|Hz].
  - assert (flit a b = q * fone) as ->.
    { apply Z.le_antisymm; [apply fround_le|apply fround_ge]; try lia; try (apply Hrep; lia); nia. }
    rewrite <- Z.mul_opp_l, Z.div_mul by lia. replace a with (q * b) by lia.
    rewrite <- Z.mul_opp_l, Z.div_mul by lia. lia.
  - assert (flit a b <= (q + 1) * fone) as Hup.
    { apply fround_le; [lia|apply Hrep; lia|nia]. }
    assert (q * fone < flit a b) as Hlow.
    { assert (exists x, representable x /\ q * fone < x /\ x * b <= a * fone) as (x & Hx1 & Hx2 & Hx3).
      { destruct (Z.eq_dec q 0) as [->|Hq0].
        - exists 1. split; [apply representable_small; lia|]. split; [lia|].
          assert (2 ^ 52 <= fone) by (unfold fone; apply Z.pow_le_mono_r; lia). nia.
        - destruct (float_above q) as (x & Hx1 & Hx2 & Hx3); [lia|]. exists x. split; [done|]. split; [done|].
          assert ((x - q * fone) * b <= fone) by (assert ((x - q * fone) * b * 2 ^ 52 <= fone * 2 ^ 52); nia).
          nia. }
      pose proof (fround_ge (a * fone) b x ltac:(lia) Hx1 Hx3). unfold flit. lia. }
    set (y := flit a b) in *. clearbody y.
    assert (- y / fone = - (q + 1)) as ->.
    { symmetry. apply (Z.div_unique_pos _ _ _ (- y + (q + 1) * fone)); nia. }
    assert (- a / b = - (q + 1)) as ->; [|lia].
    symmetry. apply (Z.div_unique_pos _ _ _ (b - a mod b)); nia.
Qed.

(** ** Rounding errors *)

Lemma rdiv_even_half p q : 0 < q -> 2 * Z.abs (rdiv_even p q * q - p) <= q.
Proof.
  intros Hq. unfold rdiv_even. pose proof (Z.div_mod p q ltac:(lia)). pose proof (Z.mod_pos_bound p q Hq).
  destruct (Z.ltb_spec (2 * (p mod q)) q); [nia|]. destruct (Z.ltb_spec q (2 * (p mod q))); [nia|].
  destruct (Z.even _); nia.
Qed.

(** Half a unit in the last place, or half of 2^-1074. *)
Lemma fround_pos_err p q : 0 <= p -> 0 < q -> 2 ^ 53 * Z.abs (fround_pos p q * q - p) <= p + 2 ^ 52 * q.
Proof.
  intros Hp Hq. rewrite fround_pos_fexp. set (e := fexp p q). assert (0 <= e) as He by (unfold e, fexp; lia).
  assert (0 < 2 ^ e) as H2 by (apply Z.pow_pos_nonneg; lia).
  pose proof (rdiv_even_half p (q * 2 ^ e) ltac:(nia)) as Hh. set (r := rdiv_even p (q * 2 ^ e)) in *.
  replace (r * 2 ^ e * q - p) with (r * (q * 2 ^ e) - p) by ring.
  destruct (Z.eq_dec e 0) as [E|E]; [rewrite E in *; cbn [Z.pow] in *; lia|].
  pose proof (fexp_lower p q Hp Hq ltac:(fold e; lia)) as Hlow. fold e in Hlow. rewrite Z.pow_add_r in Hlow by lia. lia.
Qed.

Lemma fround_err p q : 0 <= p -> 0 < q -> 2 ^ 53 * Z.abs (fround p q * q - p) <= p + 2 ^ 52 * q.
Proof. intros Hp Hq. unfold fround. destruct (Z.ltb_spec p 0); [lia|]. by apply fround_pos_err. Qed.

(** Rounding a sum of floats is exact or has a relative error. *)
Lemma fround_int_err p : 0 <= p -> 2 ^ 53 * Z.abs (fround p 1 - p) <= p.
Proof.
  intros Hp. unfold fround. destruct (Z.ltb_spec p 0); [lia|]. rewrite fround_pos_fexp. set (e := fexp p 1).
  assert (0 <= e) as He by (unfold e, fexp; lia). rewrite !Z.mul_1_l.
  assert (0 < 2 ^ e) as H2 by (apply Z.pow_pos_nonneg; lia). pose proof (rdiv_even_half p (2 ^ e) H2) as Hh.
  set (r := rdiv_even p (2 ^ e)) in *. destruct (Z.eq_dec e 0) as [E|E]; [rewrite E in *; cbn [Z.pow] in *; lia|].
  pose proof (fexp_lower p 1 Hp ltac:(lia) ltac:(fold e; lia)) as Hlow. fold e in Hlow. rewrite Z.pow_add_r in Hlow by lia. lia.
Qed.

Lemma fmul_one a : representable a -> fmul a fone = a.
Proof.
  intros Ha. pose proof fone_pos. unfold fmul.
  apply Z.le_antisymm; [apply fround_le|apply fround_ge]; (done || lia).
Qed.

(** A float strictly below [q] and close to it. *)
Lemma float_below q : 0 < q < 2 ^ 52 -> exists x,
  representable x /\ x < q * fone /\ (q * fone - x) * 2 ^ 52 <= q * fone.
Proof.
  intros Hq. set (k := Z.log2 q). assert (0 <= k < 52) as Hk.
  { split; [apply Z.log2_nonneg|]. apply Z.log2_lt_pow2; lia. }
  destruct (Z.log2_spec q ltac:(lia)) as [H1 H2]. fold k in H1, H2.
  assert (0 < 2 ^ (52 - k)) as Hv by (apply Z.pow_pos_nonneg; lia).
  exists ((q * 2 ^ (52 - k) - 1) * 2 ^ (1022 + k)). split; [apply representable_scaled; [|lia]|].
  - assert (q * 2 ^ (52 - k) < 2 ^ Z.succ k * 2 ^ (52 - k)) as Hb by (apply Z.mul_lt_mono_pos_r; lia).
    rewrite <- Z.pow_add_r in Hb by lia. replace (Z.succ k + (52 - k)) with 53 in Hb by lia.
    assert (0 < q * 2 ^ (52 - k)) by (apply Z.mul_pos_pos; lia). lia.
  - assert (fone = 2 ^ (52 - k) * 2 ^ (1022 + k)) as ->
      by (unfold fone; rewrite <- Z.pow_add_r by lia; f_equal; lia).
    assert (0 < 2 ^ (1022 + k)) as Hp by (apply Z.pow_pos_nonneg; lia).
    assert (2 ^ 52 = 2 ^ k * 2 ^ (52 - k)) as -> by (rewrite <- Z.pow_add_r by lia; f_equal; lia).
    set (u := 2 ^ (1022 + k)) in *. set (v := 2 ^ (52 - k)) in *. set (w := 2 ^ k) in *. clearbody u v w. nia.
Qed.

(** [math.floor(d / b)] of a float and an integer is exact when [d] is not closer
    below a multiple of [b] than a float can tell. *)
Lemma ffloor_quot d b : 0 <= d -> 0 < b <= 2 ^ 53 -> let q := d / (b * fone) in q + 1 < 2 ^ 52 ->
  b * (q + 1) * fone <= (b * (q + 1) * fone - d) * 2 ^ 52 -> ffloor (fdiv d (of_int b)) = q.
Proof.
  intros Hd Hb q Hq Hgap. pose proof fone_pos as Hf. rewrite of_int_exact by lia. unfold fdiv, ffloor.
  assert (0 < b * fone) as Hbf by (apply Z.mul_pos_pos; lia).
  rewrite Z.sgn_pos, Z.abs_eq, Z.mul_1_r by lia.
  pose proof (Z.div_mod d (b * fone) ltac:(lia)) as Hdiv. pose proof (Z.mod_pos_bound d (b * fone) Hbf) as Hr. fold q in Hdiv.
  assert (0 <= q) as Hq0 by (apply Z.div_pos; lia).
  assert (q * fone <= fround (d * fone) (b * fone)) as Hlow.
  { apply fround_ge; [done|apply representable_scaled; lia|nia]. }
  assert (fround (d * fone) (b * fone) < (q + 1) * fone) as Hup.
  { destruct (float_below (q + 1)) as (x & Hx1 & Hx2 & Hx3); [lia|]. eapply Z.le_lt_trans; [|exact Hx2].
    apply fround_le; [done|done|]. set (g := (q + 1) * fone) in *.
    assert (b * (g - x) * 2 ^ 52 <= b * g) as H1 by nia.
    assert (d <= b * x) as H2; [|nia]. assert ((b * g - b * x) * 2 ^ 52 <= (b * g - d) * 2 ^ 52) as H3; [|lia].
    replace (b * (q + 1) * fone) with (b * g) in Hgap by (unfold g; ring). nia. }
  symmetry. apply (Z.div_unique_pos _ _ _ (fround (d * fone) (b * fone) - q * fone)); lia.
Qed.

(** From [2 ^ k] on, floats are multiples of [2 ^ (k - 52)] (in seconds: a clock
    reading past [2 ^ 30] is a multiple of [2 ^ -22]). *)
Lemma representable_grid x k : 0 <= k -> representable x -> 2 ^ (k + 53) <= x -> exists m, x = m * 2 ^ (k + 1).
Proof.
  intros Hk Hx Hle. assert (0 < 2 ^ (k + 53)) by (apply Z.pow_pos_nonneg; lia). unfold representable, fround in Hx.
  destruct (Z.ltb_spec x 0); [lia|]. destruct (fround_pos_repr x 1 ltac:(lia) ltac:(lia)) as (m & e & E & Hm & He).
  rewrite Hx in E. assert (k <= e) as Hke.
  { apply Z.nlt_ge. intros Hlt. assert (m * 2 ^ e <= 2 ^ 53 * 2 ^ e) as H1
      by (apply Z.mul_le_mono_nonneg_r; [apply Z.pow_nonneg; lia|lia]).
    assert (2 ^ (53 + e) < 2 ^ (k + 53)) as H2 by (apply Z.pow_lt_mono_r; lia). rewrite Z.pow_add_r in H2 by lia. lia. }
  destruct (Z.eq_dec e k) as [->|Hne].
  - assert (m = 2 ^ 53) as ->.
    { rewrite Z.pow_add_r in Hle by lia. assert (0 < 2 ^ k) by (apply Z.pow_pos_nonneg; lia). nia. }
    exists (2 ^ 52). rewrite E, Z.pow_add_r by lia. change (2 ^ 53) with (2 ^ 52 * 2 ^ 1). ring.
  - exists (m * 2 ^ (e - k - 1)). rewrite E, <- Z.mul_assoc, <- Z.pow_add_r by lia. do 2 f_equal. lia.
Qed.

(** [math.fsum(l)]: the exact sum, rounded once. *)
Definition fsum (l : list float) : float := fround (Zsum l) 1.

(** [float(v)] of a JSON number; the modelled registries hold no numeric string. *)
Definition to_float (v : pyval) : result float :=
  match v with
  | VInt z => Ok (of_int z)
  | VFloat f => Ok f
  | VBool b => Ok (of_int (Z.b2z b))
  | VStr _ => Raise ValueError
  | _ => Raise TypeError
  end.

(** [int(v)] *)
Definition to_int (v : pyval) : result Z :=
  match v with
  | VInt z => Ok z
  | VFloat f => Ok (ftrunc f)
  | VBool b => Ok (Z.b2z b)
  | VStr s => match py_int s with Some z => Ok z | None => Raise ValueError end
  | _ => Raise TypeError
  end.

Lemma fone_grid k : 0 <= k <= 1074 -> fone = 2 ^ k * 2 ^ (1074 - k).
Proof. intros Hk. unfold fone. rewrite <- Z.pow_add_r by lia. f_equal. lia. Qed.

Lemma fround_opp p q : 0 < q -> fround (- p) q = - fround p q.
Proof.
  intros Hq. unfold fround. destruct (Z.ltb_spec (- p) 0), (Z.ltb_spec p 0); try lia; [by rewrite Z.opp_involutive|]. assert (p = 0) as -> by lia. change (- 0) with 0. rewrite fround_pos_0 by done. done.
Qed.
Lemma representable_opp a : representable a -> representable (- a).
Proof. unfold representable. intros H. rewrite fround_opp by lia. by rewrite H. Qed.

#[global] Opaque fround fone.

(** ** The builtin [sum] on floats

    CPython 3.12 sums floats with Neumaier's compensation and adds the correction at
    the end when it is not zero. *)
Fixpoint sum_compensated (total comp : float) (l : list float) : float :=
  match l with
  | [] => if comp =? 0 then total else fadd total comp
  | x :: l' =>
      let t := fadd total x in
      let c := if Z.abs x <=? Z.abs total then fadd (fsub total t) x else fadd (fsub x t) total in
      sum_compensated t (fadd comp c) l'
  end.

Definition py_sum (l : list float) : float := sum_compensated 0 0 l.
