(* ===== verification/Bytes.v ===== *)
(** * Bytes: byte strings, big-endian integers, hexadecimal and base64

    [bytes] values are lists of integers in [0, 256).  The encodings are the
    ones the code takes from Python: [int.to_bytes(n, "big")],
    [int.from_bytes(b, "big")], [bytes.hex()], [bytes.fromhex] of canonical
    digits, [base64.b64encode] and [base64.b64decode(s, validate=True)]. *)

From S2P Require Import Prelude.

#[local] Open Scope Z_scope.

Definition is_byte (b : Z) : Prop := 0 <= b < 256.
#[export] Instance is_byte_dec b : Decision (is_byte b).
Proof. unfold is_byte. apply _. Defined.

Lemma is_byte_0 : is_byte 0.
Proof. unfold is_byte. lia. Qed.
#[local] Hint Resolve is_byte_0 : core.

(** ** Big-endian integers *)

(** [z.to_bytes(n, "big")] for [0 <= z < 256^n]. *)
Fixpoint to_bytes_be (n : nat) (z : Z) : list Z :=
  match n with
  | O => []
  | S n' => z / 256 ^ Z.of_nat n' mod 256 :: to_bytes_be n' z
  end.

(** [int.from_bytes(b, "big")] *)
Definition of_bytes_be (b : list Z) : Z := foldl (fun acc x => acc * 256 + x) 0 b.

Lemma length_to_bytes_be n z : length (to_bytes_be n z) = n.
Proof. induction n; cbn; auto. Qed.

Lemma to_bytes_be_byte n z : Forall is_byte (to_bytes_be n z).
Proof. induction n; cbn; constructor; auto. apply Z.mod_pos_bound. lia. Qed.

Lemma of_bytes_be_acc b acc :
  foldl (fun acc x => acc * 256 + x) acc b = acc * 256 ^ Z.of_nat (length b) + of_bytes_be b.
Proof.
  unfold of_bytes_be. revert acc. induction b as [|x b IH]; intros acc; cbn [foldl length]; [lia|].
  rewrite (IH (acc * 256 + x)), (IH (0 * 256 + x)), Nat2Z.inj_succ, Z.pow_succ_r by lia. ring.
Qed.

Lemma of_to_bytes_be n z : 0 <= z < 256 ^ Z.of_nat n -> of_bytes_be (to_bytes_be n z) = z.
Proof.
  intros Hz. assert (Hm : of_bytes_be (to_bytes_be n z) = z mod 256 ^ Z.of_nat n).
  { clear Hz. induction n as [|n IH]; [by rewrite Z.mod_1_r|].
    cbn [to_bytes_be]. unfold of_bytes_be. cbn [foldl].
    rewrite of_bytes_be_acc, length_to_bytes_be, IH.
    rewrite Nat2Z.inj_succ, Z.pow_succ_r, Z.mul_0_l, Z.add_0_l by lia.
    rewrite (Z.mul_comm 256), Z.rem_mul_r by lia. ring. }
  rewrite Hm. by apply Z.mod_small.
Qed.

Lemma to_bytes_be_inj n z z' :
  0 <= z < 256 ^ Z.of_nat n -> 0 <= z' < 256 ^ Z.of_nat n ->
  to_bytes_be n z = to_bytes_be n z' -> z = z'.
Proof.
  intros Hz Hz' E. rewrite <- (of_to_bytes_be n z Hz), <- (of_to_bytes_be n z' Hz'). by rewrite E.
Qed.

(** ** Text *)

(** [s.encode()] of an ASCII string. *)
Definition encode (s : string) : list Z :=
  (fun a => Z.of_nat (Ascii.nat_of_ascii a)) <$> String.list_ascii_of_string s.

Lemma encode_inj s s' : encode s = encode s' -> s = s'.
Proof.
  unfold encode. intros H.
  rewrite <- (String.string_of_list_ascii_of_string s), <- (String.string_of_list_ascii_of_string s').
  f_equal. revert H. generalize (String.list_ascii_of_string s'). generalize (String.list_ascii_of_string s).
  intros l. induction l as [|a l IH]; intros [|b k] H; cbn in H; try discriminate; [done|].
  injection H as Hab Hlk. f_equal; [|by apply IH].
  rewrite <- (Ascii.ascii_nat_embedding a), <- (Ascii.ascii_nat_embedding b). f_equal. lia.
Qed.

(** ** Base64 *)

(** The standard alphabet as character codes. *)
Definition b64_char (v : Z) : Z :=
  if v <? 26 then 65 + v            (* A-Z *)
  else if v <? 52 then 97 + (v - 26) (* a-z *)
  else if v <? 62 then 48 + (v - 52) (* 0-9 *)
  else if v =? 62 then 43 else 47.   (* + / *)

Definition b64_value (c : Z) : option Z :=
  if (65 <=? c) && (c <=? 90) then Some (c - 65)
  else if (97 <=? c) && (c <=? 122) then Some (c - 97 + 26)
  else if (48 <=? c) && (c <=? 57) then Some (c - 48 + 52)
  else if c =? 43 then Some 62
  else if c =? 47 then Some 63
  else None.

Definition b64_pad : Z := 61.

(** [base64.b64encode(b)] *)
Fixpoint b64encode (b : list Z) : list Z :=
  match b with
  | x :: y :: z :: rest =>
      let n := (x * 256 + y) * 256 + z in
      b64_char (n / 64 ^ 3) :: b64_char (n / 64 ^ 2 mod 64) :: b64_char (n / 64 mod 64)
        :: b64_char (n mod 64) :: b64encode rest
  | [x; y] =>
      let n := (x * 256 + y) * 256 in
      [b64_char (n / 64 ^ 3); b64_char (n / 64 ^ 2 mod 64); b64_char (n / 64 mod 64); b64_pad]
  | [x] =>
      let n := x * 256 * 256 in
      [b64_char (n / 64 ^ 3); b64_char (n / 64 ^ 2 mod 64); b64_pad; b64_pad]
  | [] => []
  end.

(** [base64.b64decode(s, validate=True)]: [None] where it raises. *)
Fixpoint b64decode (s : list Z) : option (list Z) :=
  match s with
  | [] => Some []
  | a :: b :: c :: d :: rest =>
      va ← b64_value a;
      vb ← b64_value b;
      if (c =? b64_pad) && (d =? b64_pad) then
        match rest with [] => Some [(va * 64 + vb) / 16] | _ => None end
      else
        vc ← b64_value c;
        if d =? b64_pad then
          match rest with
          | [] => let n := (va * 64 + vb) * 64 + vc in Some [n / 1024; n / 4 mod 256]
          | _ => None
          end
        else
          vd ← b64_value d;
          tail ← b64decode rest;
          let n := ((va * 64 + vb) * 64 + vc) * 64 + vd in
          Some (n / 65536 :: n / 256 mod 256 :: n mod 256 :: tail)
  | _ => None
  end.

Lemma b64_value_char v : 0 <= v < 64 -> b64_value (b64_char v) = Some v.
Proof.
  intros Hv. unfold b64_char, b64_value.
  repeat (match goal with |- context [if ?x <? ?y then _ else _] => destruct (Z.ltb_spec x y)
          | |- context [if ?x =? ?y then _ else _] => destruct (Z.eqb_spec x y) end);
    repeat (match goal with |- context [?x <=? ?y] => destruct (Z.leb_spec x y); try lia end);
    cbn; try (f_equal; lia); lia.
Qed.

Lemma b64_char_not_pad v : 0 <= v < 64 -> (b64_char v =? b64_pad) = false.
Proof.
  intros Hv. apply Z.eqb_neq. unfold b64_char, b64_pad.
  repeat case_match; lia.
Qed.

(** The base-64 digits of a 24-bit group and the bytes they spell. *)
Lemma digits64 n : 0 <= n < 2 ^ 24 ->
  0 <= n / 64 ^ 3 < 64 /\ 0 <= n / 64 ^ 2 mod 64 < 64 /\ 0 <= n / 64 mod 64 < 64 /\ 0 <= n mod 64 < 64 /\
  ((n / 64 ^ 3 * 64 + n / 64 ^ 2 mod 64) * 64 + n / 64 mod 64) * 64 + n mod 64 = n.
Proof. intros Hn. repeat split; Z.div_mod_to_equations; lia. Qed.

Lemma bytes_of_group x y z : is_byte x -> is_byte y -> is_byte z ->
  let n := (x * 256 + y) * 256 + z in
  0 <= n < 2 ^ 24 /\ n / 65536 = x /\ n / 256 mod 256 = y /\ n mod 256 = z.
Proof. intros Hx Hy Hz n. unfold is_byte in *. subst n. repeat split; Z.div_mod_to_equations; lia. Qed.

Lemma list_ind3 {A} (P : list A -> Prop) :
  P [] -> (forall x, P [x]) -> (forall x y, P [x; y]) ->
  (forall x y z l, P l -> P (x :: y :: z :: l)) -> forall l, P l.
Proof.
  intros H0 H1 H2 H3. cut (forall n l, (length l < n)%nat -> P l); [eauto|].
  induction n as [|n IH]; intros l Hl; [lia|].
  destruct l as [|x [|y [|z l]]]; auto. apply H3, IH. cbn in Hl. lia.
Qed.

Lemma b64decode_encode b : Forall is_byte b -> b64decode (b64encode b) = Some b.
Proof.
  induction b as [|x|x y|x y z b IH] using list_ind3; intros Hb; [done|..];
    rewrite ?Forall_cons in Hb.
  - destruct Hb as [Hx _].
    destruct (bytes_of_group x 0 0) as (Hn & E & _); [auto..|]. rewrite ?Z.add_0_r in Hn.
    destruct (digits64 _ Hn) as (D3 & D2 & _ & _ & _).
    cbn [b64encode b64decode]. rewrite !b64_value_char by done. cbn. f_equal. f_equal.
    unfold is_byte in Hx. clear -Hx. Z.div_mod_to_equations. lia.
  - destruct Hb as (Hx & Hy & _).
    destruct (bytes_of_group x y 0) as (Hn & _); [auto..|]. rewrite ?Z.add_0_r in Hn.
    destruct (digits64 _ Hn) as (D3 & D2 & D1 & _ & _).
    cbn [b64encode b64decode]. rewrite !b64_value_char by done. cbn [mbind option_bind].
    rewrite b64_char_not_pad by done. cbn [andb]. cbn.
    unfold is_byte in *. clear -Hx Hy. f_equal. f_equal; [|f_equal]; Z.div_mod_to_equations; lia.
  - destruct Hb as (Hx & Hy & Hz & Hb).
    destruct (bytes_of_group x y z Hx Hy Hz) as (Hn & Ex & Ey & Ez).
    destruct (digits64 _ Hn) as (D3 & D2 & D1 & D0 & E).
    cbn [b64encode b64decode]. rewrite !b64_value_char by done. cbn [mbind option_bind].
    rewrite (b64_char_not_pad (_ / 64 mod 64)), b64_char_not_pad by done. cbn [andb].
    rewrite (IH Hb), E, Ex, Ey, Ez. done.
Qed.

(** ** Bits, most significant first *)

(** [int(flags, 2)] of a string of binary digits. *)
Definition of_bits (l : list bool) : Z := foldl (fun acc b => acc * 2 + Z.b2z b) 0 l.

Lemma of_bits_snoc l b : of_bits (l ++ [b]) = of_bits l * 2 + Z.b2z b.
Proof. unfold of_bits. by rewrite foldl_app. Qed.

Lemma of_bits_bound l : 0 <= of_bits l < 2 ^ Z.of_nat (length l).
Proof.
  induction l as [|b l IH] using rev_ind; [done|].
  rewrite of_bits_snoc, length_app, Nat2Z.inj_add, Z.pow_add_r by lia. cbn.
  destruct b; cbn; lia.
Qed.

Lemma of_bits_testbit l i :
  (i < length l)%nat ->
  Z.testbit (of_bits l) (Z.of_nat (length l) - 1 - Z.of_nat i) = default false (l !! i).
Proof.
  induction l as [|b l IH] using rev_ind; intros Hi; cbn in Hi; [lia|].
  rewrite length_app in *. cbn in Hi. rewrite of_bits_snoc.
  replace (of_bits l * 2 + Z.b2z b) with (2 * of_bits l + Z.b2z b) by lia.
  destruct (decide (i = length l)) as [->|Hne].
  - replace (Z.of_nat (length l + length [b]) - 1 - Z.of_nat (length l)) with 0 by (cbn; lia).
    rewrite Z.testbit_0_r, list_lookup_middle by done. done.
  - rewrite lookup_app_l by lia. rewrite <- IH by lia.
    replace (Z.of_nat (length l + length [b]) - 1 - Z.of_nat i)
      with (Z.succ (Z.of_nat (length l) - 1 - Z.of_nat i)) by (cbn; lia).
    rewrite Z.testbit_succ_r by lia. done.
Qed.

(** Byte [j] of a big-endian integer, bit by bit. *)
Lemma to_bytes_be_lookup n z j :
  (j < n)%nat -> to_bytes_be n z !! j = Some (z / 256 ^ Z.of_nat (n - 1 - j) mod 256).
Proof.
  revert j. induction n as [|n IH]; intros j Hj; [lia|].
  destruct j as [|j]; cbn [to_bytes_be].
  - change ((?x :: ?l) !! 0%nat) with (Some x). do 3 f_equal. f_equal. lia.
  - change ((?x :: ?l) !! S j) with (l !! j). rewrite IH by lia. do 3 f_equal. f_equal. lia.
Qed.

Lemma byte_testbit z n j k :
  0 <= k < 8 -> (j < n)%nat ->
  Z.testbit (z / 256 ^ Z.of_nat (n - 1 - j) mod 256) k
  = Z.testbit z (8 * Z.of_nat (n - 1 - j) + k).
Proof.
  intros Hk Hj. change 256 with (2 ^ 8) at 2. rewrite Z.mod_pow2_bits_low by lia.
  replace (256 ^ Z.of_nat (n - 1 - j)) with (2 ^ (8 * Z.of_nat (n - 1 - j))).
  - rewrite Z.div_pow2_bits by lia. f_equal. lia.
  - rewrite Z.pow_mul_r by lia. done.
Qed.

(** [b.decode("ascii")] *)
Definition decode (b : list Z) : string :=
  String.string_of_list_ascii ((fun z => Ascii.ascii_of_nat (Z.to_nat z)) <$> b).

Lemma encode_decode b : Forall is_byte b -> encode (decode b) = b.
Proof.
  intros Hb. unfold encode, decode. rewrite String.list_ascii_of_string_of_list_ascii.
  rewrite <- list_fmap_compose. rewrite <- (list_fmap_id b) at 2. apply list_fmap_ext.
  intros i x Hx. cbn. unfold compose. rewrite Ascii.nat_ascii_embedding.
  - rewrite Z2Nat.id; [done|]. eapply Forall_lookup_1 in Hb; [|done]. unfold is_byte in Hb. lia.
  - eapply Forall_lookup_1 in Hb; [|done]. unfold is_byte in Hb. lia.
Qed.

Lemma b64_char_byte v : 0 <= v < 64 -> is_byte (b64_char v).
Proof. intros Hv. unfold b64_char, is_byte. repeat case_match; lia. Qed.

Lemma b64encode_byte b : Forall is_byte b -> Forall is_byte (b64encode b).
Proof.
  assert (Hpad : is_byte b64_pad) by (unfold is_byte, b64_pad; lia).
  induction b as [|x|x y|x y z b IH] using list_ind3; intros Hb; rewrite ?Forall_cons in Hb.
  - done.
  - destruct Hb as [Hx _]. destruct (bytes_of_group x 0 0) as (Hn & _); [auto..|].
    rewrite ?Z.add_0_r in Hn. destruct (digits64 _ Hn) as (? & ? & ? & ? & _).
    cbn [b64encode]. repeat constructor; try apply b64_char_byte; done.
  - destruct Hb as (Hx & Hy & _). destruct (bytes_of_group x y 0) as (Hn & _); [auto..|].
    rewrite ?Z.add_0_r in Hn. destruct (digits64 _ Hn) as (? & ? & ? & ? & _).
    cbn [b64encode]. repeat constructor; try apply b64_char_byte; done.
  - destruct Hb as (Hx & Hy & Hz & Hb). destruct (bytes_of_group x y z Hx Hy Hz) as (Hn & _).
    destruct (digits64 _ Hn) as (? & ? & ? & ? & _).
    cbn [b64encode]. repeat (constructor; [apply b64_char_byte; done|]). by apply IH.
Qed.

(** Testing one bit of a byte with a shifted mask. *)
Lemma land_mask b k : 0 <= k < 8 ->
  negb (Z.land b (Z.shiftr 0x80 k) =? 0) = Z.testbit b (7 - k).
Proof.
  intros Hk. assert (Z.shiftr 0x80 k = 2 ^ (7 - k)) as ->.
  { assert (k = 0 \/ k = 1 \/ k = 2 \/ k = 3 \/ k = 4 \/ k = 5 \/ k = 6 \/ k = 7) as Hc by lia.
    repeat destruct Hc as [->|Hc]; [done..|]. by subst. }
  destruct (Z.testbit b (7 - k)) eqn:Hb.
  - apply negb_true_iff, Z.eqb_neq. intros E.
    apply (f_equal (fun z => Z.testbit z (7 - k))) in E.
    rewrite Z.land_spec, Z.pow2_bits_true, Hb, Z.testbit_0_l in E by lia. discriminate.
  - apply negb_false_iff, Z.eqb_eq. apply Z.bits_inj'. intros n Hn.
    rewrite Z.land_spec, Z.testbit_0_l. destruct (decide (n = 7 - k)) as [->|Hne].
    + by rewrite Hb.
    + rewrite Z.pow2_bits_false by lia. apply andb_false_r.
Qed.

(** ** Sequences of 32-bit words *)

Lemma words_inj ts ts' :
  Forall (fun t => 0 <= t < 2 ^ 32) ts -> Forall (fun t => 0 <= t < 2 ^ 32) ts' ->
  concat (to_bytes_be 4 <$> ts) = concat (to_bytes_be 4 <$> ts') -> ts = ts'.
Proof.
  intros H. revert ts'. induction H as [|t ts Ht _ IH]; intros ts' H' E; destruct H' as [|t' ts' Ht' H'].
  - done.
  - apply (f_equal (@length Z)) in E. cbn in E. done.
  - apply (f_equal (@length Z)) in E. cbn in E. done.
  - cbn [fmap list_fmap concat] in E. apply app_inj_1 in E as [E1 E2]; [|by rewrite !length_to_bytes_be].
    f_equal; [|by apply IH]. by apply (to_bytes_be_inj 4) in E1.
Qed.

Lemma length_words ts : length (concat (to_bytes_be 4 <$> ts)) = (4 * length ts)%nat.
Proof.
  induction ts as [|t ts IH]; [done|]. cbn [fmap list_fmap concat length].
  rewrite length_app, IH, length_to_bytes_be. lia.
Qed.
