(* ===== verification/Sha256.v ===== *)
(** * Sha256: [hashlib.sha256] and [hexdigest]

    The digest of FIPS 180-4 on lists of bytes, executable, with the shape of
    its output.  Nothing here says that it is hard to invert or to collide:
    theorems about digests elsewhere speak of the bytes that are hashed. *)

From S2P Require Import Prelude Bytes.

#[local] Open Scope Z_scope.

Definition w32 (x : Z) : Z := Z.land x 0xffffffff.
Definition rotr (n x : Z) : Z := Z.lor (Z.shiftr x n) (w32 (Z.shiftl x (32 - n))).

(** The constants of the standard are defined by roots of the first primes: 32 bits
    of the fractional parts of their cube roots (the rounds) and of the square
    roots of the first eight (the initial state). *)
Definition is_prime (n : Z) : bool := forallb (fun d => negb (n mod d =? 0)) (seqZ 2 (n - 2)).
Definition first_primes (n : nat) : list Z := take n (filter (fun p => is_prime p = true) (seqZ 2 310)).

(** The integer cube root below [2 ^ bits], bit by bit from the highest. *)
Fixpoint cube_root (bits : nat) (n root : Z) : Z :=
  match bits with
  | O => root
  | S k => let r := root + 2 ^ Z.of_nat k in cube_root k n (if r * r * r <=? n then r else root)
  end.

Definition round_constants : list Z :=
  Eval vm_compute in (fun p => w32 (cube_root 36 (p * 2 ^ 96) 0)) <$> first_primes 64.
Definition initial_state : list Z :=
  Eval vm_compute in (fun p => w32 (Z.sqrt (p * 2 ^ 64))) <$> first_primes 8.

Definition small0 (x : Z) : Z := Z.lxor (Z.lxor (rotr 7 x) (rotr 18 x)) (Z.shiftr x 3).
Definition small1 (x : Z) : Z := Z.lxor (Z.lxor (rotr 17 x) (rotr 19 x)) (Z.shiftr x 10).
Definition big0 (x : Z) : Z := Z.lxor (Z.lxor (rotr 2 x) (rotr 13 x)) (rotr 22 x).
Definition big1 (x : Z) : Z := Z.lxor (Z.lxor (rotr 6 x) (rotr 11 x)) (rotr 25 x).

(** The message schedule, newest word first; [n] words are still to come. *)
Fixpoint extend (n : nat) (w : list Z) : list Z :=
  match n with
  | O => rev w
  | S n' =>
      let at_ i := nth i w 0 in
      extend n' (w32 (small1 (at_ 1%nat) + at_ 6%nat + small0 (at_ 14%nat) + at_ 15%nat) :: w)
  end.

Definition sha_round (st : list Z) (kw : Z * Z) : list Z :=
  match st with
  | [a; b; c; d; e; f; g; h] =>
      let ch := Z.lxor (Z.land e f) (Z.land (Z.lxor e 0xffffffff) g) in
      let maj := Z.lxor (Z.lxor (Z.land a b) (Z.land a c)) (Z.land b c) in
      let t1 := h + big1 e + ch + kw.1 + kw.2 in
      let t2 := big0 a + maj in
      [w32 (t1 + t2); a; b; c; w32 (d + t1); e; f; g]
  | _ => st
  end.

(** Words of a block of 64 bytes. *)
Fixpoint words (b : list Z) : list Z :=
  match b with
  | w :: x :: y :: z :: b' => of_bytes_be [w; x; y; z] :: words b'
  | _ => []
  end.

Definition compress (st : list Z) (block : list Z) : list Z :=
  let w := extend 48 (rev (words block)) in
  let st' := foldl sha_round st (zip round_constants w) in
  zip_with (fun x y => w32 (x + y)) st st'.

(** The padding: a bit 1, zeros, and the length in bits on eight bytes. *)
Definition pad (m : list Z) : list Z :=
  let n := Z.of_nat (length m) in
  m ++ 0x80 :: replicate (Z.to_nat ((55 - n) mod 64)) 0 ++ to_bytes_be 8 (8 * n).

Fixpoint blocks (fuel : nat) (m : list Z) : list (list Z) :=
  match fuel with
  | O => []
  | S fuel' => match m with [] => [] | _ => take 64 m :: blocks fuel' (drop 64 m) end
  end.

Definition sha256 (m : list Z) : list Z :=
  let p := pad m in
  concat (to_bytes_be 4 <$> foldl compress initial_state (blocks (length p) p)).

(** [bytes.hex()] *)
Definition hex_digit (n : Z) : ascii :=
  Ascii.ascii_of_nat (Z.to_nat (if n <? 10 then 48 + n else 87 + n)).
Definition hex (b : list Z) : string :=
  foldr (fun x s => String (hex_digit (x / 16)) (String (hex_digit (x mod 16)) s)) EmptyString b.
Definition hexdigest (m : list Z) : string := hex (sha256 m).

(** ** The shape of a digest *)

Lemma length_zip_with_same {A B C} (f : A -> B -> C) l k n :
  length l = n -> length k = n -> length (zip_with f l k) = n.
Proof. intros. rewrite length_zip_with. lia. Qed.

Lemma sha_round_length st kw : length st = 8%nat -> length (sha_round st kw) = 8%nat.
Proof. intros H. do 9 (destruct st as [|? st]; try discriminate H). reflexivity. Qed.

Lemma compress_length st b : length st = 8%nat -> length (compress st b) = 8%nat.
Proof.
  intros H. unfold compress. apply length_zip_with_same; [done|].
  generalize (zip round_constants (extend 48 (rev (words b)))). intros kws.
  revert st H. induction kws as [|kw kws IH]; intros st H; cbn [foldl]; [done|].
  by apply IH, sha_round_length.
Qed.

Lemma sha256_length m : length (sha256 m) = 32%nat.
Proof.
  unfold sha256. set (bs := blocks _ _).
  assert (forall st, length st = 8%nat -> length (foldl compress st bs) = 8%nat) as Hlen.
  { induction bs as [|b bs IH]; intros st H; cbn [foldl]; [done|]. by apply IH, compress_length. }
  specialize (Hlen initial_state eq_refl). revert Hlen. generalize (foldl compress initial_state bs).
  intros st H. do 9 (destruct st as [|? st]; try discriminate H). reflexivity.
Qed.

Lemma sha256_bytes m : Forall is_byte (sha256 m).
Proof.
  unfold sha256. apply Forall_concat, Forall_fmap, Forall_forall. intros x _. apply to_bytes_be_byte.
Qed.

Lemma hex_digit_inj m n : 0 <= m < 16 -> 0 <= n < 16 -> hex_digit m = hex_digit n -> m = n.
Proof.
  intros Hm Hn E. assert (forallb (fun i => forallb (fun j =>
    implb (Ascii.eqb (hex_digit i) (hex_digit j)) (i =? j)) (seqZ 0 16)) (seqZ 0 16) = true) as Hall
    by (vm_compute; reflexivity).
  rewrite forallb_forall in Hall. specialize (Hall m). rewrite forallb_forall in Hall.
  specialize (Hall ltac:(apply list_elem_of_In, elem_of_seqZ; lia) n ltac:(apply list_elem_of_In, elem_of_seqZ; lia)).
  rewrite E, Ascii.eqb_refl in Hall. cbn in Hall. lia.
Qed.

(** The hexadecimal text determines the bytes. *)
Lemma hex_inj b b' : Forall is_byte b -> Forall is_byte b' -> hex b = hex b' -> b = b'.
Proof.
  intros Hb. revert b'. induction Hb as [|x b Hx _ IH]; intros b' Hb' E; destruct Hb' as [|y b' Hy Hb']; try done.
  cbn in E. injection E as E1 E2 E3. unfold is_byte in *.
  apply hex_digit_inj in E1; [|Z.to_euclidean_division_equations; lia..].
  apply hex_digit_inj in E2; [|Z.to_euclidean_division_equations; lia..].
  f_equal; [Z.to_euclidean_division_equations; lia|by apply IH].
Qed.

Example sha256_abc :
  hexdigest (encode "abc") = "ba7816bf8f01cfea414140de5dae2223b00361a396177a9cb410ff61f20015ad"%string.
Proof. vm_compute. reflexivity. Qed.

Example sha256_empty :
  hexdigest [] = "e3b0c44298fc1c149afbf4c8996fb92427ae41e4649b934ca495991b7852b855"%string.
Proof. vm_compute. reflexivity. Qed.

Example sha256_two_blocks :
  hexdigest (encode "abcdbcdecdefdefgefghfghighijhijkijkljklmklmnlmnomnopnopq")
  = "248d6a61d20638b8e5c026930c3e6039a33ce45964ff2167f6ecedd419db06c1"%string.
Proof. vm_compute. reflexivity. Qed.

#[global] Opaque sha256.
