(* ===== verification/SlotLedger.v ===== *)
(** * SlotLedger: how many completions a prompt still accepts

    Models [reliquary/corpus/slots.py]: the slot ledger of a corpus job (V
    slots per prompt, consumed permanently, a failed audit reopening a slot up
    to [ATTEMPTS_PER_SLOT] times), its snapshot, and the open map: the bitmap
    the validator publishes and the reader a miner parses it with. *)

From S2P Require Import Prelude Bytes.

#[local] Open Scope Z_scope.

(** ** Strings *)

(** [s.split(c, 1)] when [c] occurs: the text before and after it. *)
Fixpoint cut (c : Ascii.ascii) (s : string) : option (string * string) :=
  match s with
  | EmptyString => None
  | String a s' =>
      if Ascii.eqb a c then Some (EmptyString, s')
      else match cut c s' with
           | Some (x, y) => Some (String a x, y)
           | None => None
           end
  end.

(** [s.split(c, n)] *)
Fixpoint split_max (c : Ascii.ascii) (n : nat) (s : string) : list string :=
  match n with
  | O => [s]
  | S n' => match cut c s with
            | None => [s]
            | Some (x, y) => x :: split_max c n' y
            end
  end.

Definition at_sign : Ascii.ascii := "@"%char.

(** ** The ledger *)

Definition ATTEMPTS_PER_SLOT : Z := 3.

Record ledger := Ledger {
  prompt_start : Z;
  prompt_count : Z;
  slots_per_prompt : Z;
  consumed : gmap Z Z;
  filled : Z;
  failed : gmap Z (list string);
}.

(** [SlotLedger.__init__] *)
Definition new_ledger (count slots start : Z) : result ledger :=
  if count <=? 0 then Raise ValueError
  else if slots <=? 0 then Raise ValueError
  else if start <? 0 then Raise ValueError
  else Ok (Ledger start count slots ∅ 0 ∅).

(** [_failure_id]: the submission id prefix of a [failed] entry. *)
Definition failure_id (entry : string) : string :=
  match cut at_sign entry with Some (x, _) => x | None => entry end.

(** The draw slot and hotkey of an entry that records them. *)
Definition entry_slot (entry : string) : option (string * string) :=
  match split_max at_sign 2 entry with
  | [_; slot; hotkey] => Some (slot, hotkey)
  | _ => None
  end.

(** The entry [record_failure] appends. *)
Definition failure_entry (key : string) (slot : option Z) (hotkey : option string) : string :=
  match slot with
  | None => key
  | Some z => key +:+ "@" +:+ py_str z +:+ "@" +:+ default "" hotkey
  end.

Definition owns (l : ledger) (position : Z) : bool :=
  (prompt_start l <=? position) && (position <? prompt_start l + prompt_count l).

Definition check (l : ledger) (index : Z) : result Z :=
  if owns l index then Ok index else Raise IndexError.

Definition attempt_limit (l : ledger) : Z := ATTEMPTS_PER_SLOT * slots_per_prompt l.

Definition failed_at (l : ledger) (position : Z) : list string :=
  default [] (failed l !! position).
Definition consumed_at (l : ledger) (position : Z) : Z :=
  default 0 (consumed l !! position).

(** Failures per draw slot, and failures recorded without one. *)
Definition per_slot (entries : list string) : gmap string Z :=
  foldl (fun m e => match entry_slot e with
                    | Some (slot, _) => <[slot := default 0 (m !! slot) + 1]> m
                    | None => m
                    end) ∅ entries.
Definition slotless (entries : list string) : Z :=
  Z.of_nat (length (filter (fun e => entry_slot e = None) entries)).

(** [_reopened] *)
Definition reopened_of (entries : list string) : Z :=
  slotless entries + map_sum (fun _ n => Z.min n (ATTEMPTS_PER_SLOT - 1)) (per_slot entries).
Definition reopened (l : ledger) (position : Z) : Z := reopened_of (failed_at l position).

Definition capacity_at (l : ledger) (position : Z) : Z :=
  Z.min (slots_per_prompt l + reopened l position) (attempt_limit l).
Definition capacity (l : ledger) (index : Z) : result Z :=
  position ← check l index; Ok (capacity_at l position).

Definition remaining_at (l : ledger) (position : Z) : Z :=
  capacity_at l position - consumed_at l position.
Definition remaining (l : ledger) (index : Z) : result Z :=
  position ← check l index; Ok (remaining_at l position).

Definition is_full (l : ledger) (index : Z) : result bool :=
  r ← remaining l index; Ok (r =? 0).

Definition set_failed (position : Z) (entries : list string) (l : ledger) : ledger :=
  Ledger (prompt_start l) (prompt_count l) (slots_per_prompt l) (consumed l) (filled l)
    (<[position := entries]> (failed l)).

(** [record_failure]: whether the failure reopened a slot, [None] when it was
    already recorded. *)
Definition record_failure (index : Z) (submission_id : string) (slot : option Z)
    (hotkey : option string) : method ledger (option bool) := fun l =>
  match check l index with
  | Raise e => (Raise e, l)
  | Ok position =>
      let key := String.substring 0 12 submission_id in
      let entries := failed_at l position in
      let l1 := set_failed position entries l in
      if existsb (fun e => String.eqb (failure_id e) key) entries then (Ok None, l1)
      else
        let before := capacity_at l1 position in
        let l2 := set_failed position (entries ++ [failure_entry key slot hotkey]) l1 in
        (Ok (Some (before <? capacity_at l2 position)), l2)
  end.

(** [_slot_failures]: the hotkeys that failed a draw slot, one per failure. *)
Definition slot_failures_of (entries : list string) (slot : string) : list string :=
  omap (fun e => match entry_slot e with
                 | Some (s, h) => if String.eqb s slot then Some h else None
                 | None => None
                 end) entries.
Definition slot_failures (l : ledger) (index slot : Z) : result (list string) :=
  position ← check l index; Ok (slot_failures_of (failed_at l position) (py_str slot)).

Definition slot_attempt (l : ledger) (index slot : Z) : result Z :=
  f ← slot_failures l index slot; Ok (Z.of_nat (length f)).

Definition slot_exhausted (l : ledger) (index slot : Z) : result bool :=
  n ← slot_attempt l index slot; Ok (ATTEMPTS_PER_SLOT <=? n).

(** [draw_cursors] *)
Definition draw_cursors (l : ledger) (index slots : Z) : result Z :=
  position ← check l index;
  let legacy := Z.of_nat (length (filter (fun e => cut at_sign e = None) (failed_at l position))) in
  Ok (Z.min (slots + legacy) (attempt_limit l)).

(** [_exhausted_slots]: the recorded draw slots out of attempts; [int(slot)]
    raises on a slot that is not a decimal number. *)
Definition exhausted_slots (l : ledger) (position : Z) : result Z :=
  foldr (fun s acc =>
           n ← acc;
           match py_int s with
           | None => Raise ValueError
           | Some z => x ← slot_exhausted l position z; Ok (n + Z.b2z x)
           end) (Ok 0) (map_to_list (per_slot (failed_at l position))).*1.

(** [passing] *)
Definition passing_at (l : ledger) (position : Z) : Z :=
  consumed_at l position - Z.of_nat (length (failed_at l position)).
Definition passing (l : ledger) (index : Z) : result Z :=
  position ← check l index; Ok (passing_at l position).

Inductive pstate := Complete | Exhausted | Open.

#[export] Instance pstate_eq_dec : EqDecision pstate.
Proof. solve_decision. Defined.

Definition prompt_state (l : ledger) (index : Z) : result pstate :=
  position ← check l index;
  let p := passing_at l position in
  if slots_per_prompt l <=? p then Ok Complete
  else if attempt_limit l <=? consumed_at l position then Ok Exhausted
  else x ← exhausted_slots l position;
       if slots_per_prompt l <=? p + x then Ok Exhausted else Ok Open.

(** The rows of the job, in order. *)
Definition rows (l : ledger) : list Z := seqZ (prompt_start l) (prompt_count l).

(** [prompt_counts]: how many prompts are complete, exhausted, open. *)
Definition bump (s : pstate) (c : Z * Z * Z) : Z * Z * Z :=
  let '(c1, c2, c3) := c in
  match s with
  | Complete => (c1 + 1, c2, c3)
  | Exhausted => (c1, c2 + 1, c3)
  | Open => (c1, c2, c3 + 1)
  end.
Definition prompt_counts (l : ledger) : result (Z * Z * Z) :=
  foldl (fun acc i => c ← acc; s ← prompt_state l i; Ok (bump s c)) (Ok (0, 0, 0)) (rows l).

(** [consume]: take one slot and report what is left. *)
Definition consume (index : Z) : method ledger Z := fun l =>
  match check l index with
  | Raise e => (Raise e, l)
  | Ok position =>
      let taken := consumed_at l position in
      let cap := capacity_at l position in
      if cap <=? taken then (Raise SlotExhausted, l)
      else (Ok (cap - (taken + 1)),
            Ledger (prompt_start l) (prompt_count l) (slots_per_prompt l)
              (<[position := taken + 1]> (consumed l)) (filled l + 1) (failed l))
  end.

(** [total] and [is_complete] *)
Definition total (l : ledger) : Z :=
  prompt_count l * slots_per_prompt l
  + map_sum (fun position _ => Z.min (reopened l position) (attempt_limit l - slots_per_prompt l)) (failed l).
Definition is_complete (l : ledger) : bool := total l <=? filled l.

(** [snapshot] and [failed_snapshot] (each list sorted, empty lists dropped). *)
Definition snapshot (l : ledger) : list (Z * Z) := map_to_list (consumed l).

Fixpoint insert_sorted (s : string) (k : list string) : list string :=
  match k with
  | [] => [s]
  | x :: k' => if String.leb s x then s :: k else x :: insert_sorted s k'
  end.
Definition sort_strings (k : list string) : list string := foldr insert_sorted [] k.

Definition failed_snapshot (l : ledger) : list (Z * list string) :=
  (fun kv => (kv.1, sort_strings kv.2)) <$> filter (fun kv => kv.2 <> []) (map_to_list (failed l)).

(** [from_snapshot], in the code's order: the failures first (they set the
    capacities), then the consumed counts. *)
Definition restore_failed (l : ledger) (kv : Z * list string) : result ledger :=
  let '(position, ids) := kv in
  if negb (owns l position) || bool_decide (ids = []) || negb (bool_decide (NoDup ids))
     || negb (forallb (fun i => negb (String.eqb i "")) ids)
  then Raise ValueError
  else Ok (set_failed position ids l).

Definition restore_consumed (acc : ledger * Z) (kv : Z * Z) : result (ledger * Z) :=
  let '(l, f) := acc in
  let '(position, count) := kv in
  if negb (owns l position) then Raise ValueError
  else if (count <=? 0) || (capacity_at l position <? count) then Raise ValueError
  else Ok (Ledger (prompt_start l) (prompt_count l) (slots_per_prompt l)
             (<[position := count]> (consumed l)) (filled l) (failed l), f + count).

Definition from_snapshot (count slots : Z) (snap : list (Z * Z)) (start : Z)
    (fails : list (Z * list string)) : result ledger :=
  l0 ← new_ledger count slots start;
  l1 ← fold_result restore_failed l0 fails;
  lf ← fold_result restore_consumed (l1, 0) snap;
  let '(l2, f) := lf in
  Ok (Ledger (prompt_start l2) (prompt_count l2) (slots_per_prompt l2) (consumed l2) f (failed l2)).

(** ** The open map *)

(** [open_bitmap]: one flag per row, cleared for the consumed prompts that are
    full (every consumed prompt is a row of the job), the last byte padded with
    zeros. *)
Definition clear_full (l : ledger) (position taken : Z) (flags : list bool) : list bool :=
  if (slots_per_prompt l <=? taken)
     && (bool_decide (failed l = ∅) || (capacity_at l position <=? taken))
  then <[Z.to_nat (position - prompt_start l) := false]> flags
  else flags.

Definition row_flags (l : ledger) : list bool :=
  map_fold (clear_full l) (replicate (Z.to_nat (prompt_count l)) true) (consumed l).

Definition ceil_div8 (n : Z) : Z := - (- n / 8).

Definition open_bitmap (l : ledger) : list Z * Z :=
  let flags := row_flags l in
  let opened := Z.of_nat (length (filter (fun b => b = true) flags)) in
  let padded := ceil_div8 (prompt_count l) * 8 in
  let bits := flags ++ replicate (Z.to_nat (padded - prompt_count l)) false in
  (to_bytes_be (Z.to_nat (padded / 8)) (of_bits bits), opened).

Record open_map := OpenMap {
  om_start : Z;
  om_count : Z;
  om_open : Z;
  om_bitmap : list Z;
}.

Definition OPEN_ENCODING : string := "bitmap-msb0-base64".

(** The bit test both readers use: byte [offset >> 3], mask [0x80 >> (offset & 7)];
    an index past the bitmap raises [IndexError]. *)
Definition bit_at (bitmap : list Z) (offset : Z) : result bool :=
  match bitmap !! Z.to_nat (Z.shiftr offset 3) with
  | None => Raise IndexError
  | Some b => Ok (negb (Z.land b (Z.shiftr 0x80 (Z.land offset 7)) =? 0))
  end.

Definition is_open (m : open_map) (index : Z) : result bool :=
  let offset := index - om_start m in
  if (0 <=? offset) && (offset <? om_count m) then bit_at (om_bitmap m) offset
  else Ok false.

Definition indices (m : open_map) : result (list Z) :=
  fold_result (fun acc offset =>
                 b ← bit_at (om_bitmap m) offset;
                 Ok (if b : bool then acc ++ [om_start m + offset] else acc))
    [] (seqZ 0 (om_count m)).

(** A JSON member that must be a count. *)
Definition read_count (d : list (string * pyval)) (name : string) : result Z :=
  match dict_get name d with
  | VInt z => if z <? 0 then Raise ValueError else Ok z
  | _ => Raise ValueError
  end.

Definition parse_open_map (body : pyval) : result open_map :=
  match body with
  | VDict d =>
      match dict_get "encoding" d with
      | VStr e =>
          if negb (String.eqb e OPEN_ENCODING) then Raise ValueError
          else
            start ← read_count d "prompt_start";
            count ← read_count d "prompt_count";
            opened ← read_count d "open_count";
            if (count <=? 0) || (count <? opened) then Raise ValueError
            else
              match dict_get "open" d with
              | VStr text =>
                  match b64decode (encode text) with
                  | None => Raise ValueError
                  | Some bitmap =>
                      if Z.of_nat (length bitmap) =? ceil_div8 count
                      then Ok (OpenMap start count opened bitmap)
                      else Raise ValueError
                  end
              | _ => Raise ValueError
              end
      | _ => Raise ValueError
      end
  | _ => Raise ValueError
  end.

(** The body [GET .../open] answers ([corpus_service.py], [corpus_open]). *)
Definition open_body (job_id : string) (as_of : Z) (l : ledger) : pyval :=
  let '(bitmap, opened) := open_bitmap l in
  VDict [("job_id", VStr job_id); ("prompt_start", VInt (prompt_start l));
         ("prompt_count", VInt (prompt_count l)); ("open_count", VInt opened);
         ("as_of", VFloat as_of); ("encoding", VStr OPEN_ENCODING);
         ("open", VStr (decode (b64encode bitmap)))]%string.

(** ** Counting failures *)

Definition slot_count (entries : list string) (slot : string) : Z :=
  Z.of_nat (length (slot_failures_of entries slot)).

Lemma slot_count_snoc es e s :
  slot_count (es ++ [e]) s
  = slot_count es s + match entry_slot e with
                      | Some (s', _) => if String.eqb s' s then 1 else 0
                      | None => 0
                      end.
Proof.
  unfold slot_count, slot_failures_of. rewrite omap_app, length_app, Nat2Z.inj_add. f_equal.
  cbn. destruct (entry_slot e) as [[s' h]|]; [|done]. by destruct (String.eqb s' s).
Qed.

Lemma per_slot_snoc es e :
  per_slot (es ++ [e])
  = match entry_slot e with
    | Some (s, _) => <[s := default 0 (per_slot es !! s) + 1]> (per_slot es)
    | None => per_slot es
    end.
Proof. unfold per_slot. by rewrite foldl_app. Qed.

Lemma slot_count_nonneg es s : 0 <= slot_count es s.
Proof. unfold slot_count. lia. Qed.

Lemma slot_count_le es s : slot_count es s <= Z.of_nat (length es).
Proof.
  unfold slot_count, slot_failures_of. induction es as [|e es IH]; cbn; [done|].
  destruct (entry_slot e) as [[s' h]|]; [destruct (String.eqb s' s)|]; cbn; lia.
Qed.

Lemma per_slot_lookup es s :
  per_slot es !! s = if slot_count es s =? 0 then None else Some (slot_count es s).
Proof.
  induction es as [|e es IH] using rev_ind; [done|].
  rewrite per_slot_snoc, slot_count_snoc. pose proof (slot_count_nonneg es s).
  destruct (entry_slot e) as [[s' h]|]; [|by rewrite Z.add_0_r].
  destruct (String.eqb_spec s' s) as [->|Hne].
  - rewrite lookup_insert_eq, IH. destruct (Z.eqb_spec (slot_count es s) 0) as [->|]; [done|].
    cbn. destruct (Z.eqb_spec (slot_count es s + 1) 0); [lia|done].
  - rewrite lookup_insert_ne by done. by rewrite IH, Z.add_0_r.
Qed.

Lemma per_slot_default es s : default 0 (per_slot es !! s) = slot_count es s.
Proof. rewrite per_slot_lookup. by destruct (Z.eqb_spec (slot_count es s) 0) as [->|]. Qed.

Lemma slotless_snoc es e :
  slotless (es ++ [e]) = slotless es + match entry_slot e with None => 1 | Some _ => 0 end.
Proof.
  unfold slotless. rewrite filter_app, length_app, Nat2Z.inj_add. f_equal.
  rewrite filter_cons, filter_nil. destruct (entry_slot e); by case_decide.
Qed.

(** One more failure reopens one slot, unless it used a draw slot's last attempt. *)
Lemma reopened_snoc es e :
  reopened_of (es ++ [e])
  = reopened_of es + match entry_slot e with
                     | None => 1
                     | Some (s, _) => if slot_count es s <? ATTEMPTS_PER_SLOT - 1 then 1 else 0
                     end.
Proof.
  unfold reopened_of. rewrite slotless_snoc, per_slot_snoc.
  destruct (entry_slot e) as [[s h]|]; [|lia].
  rewrite map_sum_insert, per_slot_default. pose proof (slot_count_nonneg es s).
  assert (from_option (fun n => Z.min n (ATTEMPTS_PER_SLOT - 1)) 0 (per_slot es !! s)
          = Z.min (slot_count es s) (ATTEMPTS_PER_SLOT - 1)) as ->.
  { rewrite per_slot_lookup. unfold ATTEMPTS_PER_SLOT.
    destruct (Z.eqb_spec (slot_count es s) 0) as [->|]; done. }
  destruct (Z.ltb_spec (slot_count es s) (ATTEMPTS_PER_SLOT - 1)); unfold ATTEMPTS_PER_SLOT in *; lia.
Qed.

Lemma reopened_bounds es : 0 <= reopened_of es <= Z.of_nat (length es).
Proof.
  induction es as [|e es IH] using rev_ind; [done|].
  rewrite reopened_snoc, length_app. cbn [length].
  destruct (entry_slot e) as [[s h]|]; [destruct (_ <? _)|]; lia.
Qed.

(** The counts do not depend on the order of the entries. *)
#[export] Instance slot_count_proper : Proper ((≡ₚ) ==> eq ==> eq) slot_count.
Proof.
  intros es es' Hp s ? <-. unfold slot_count, slot_failures_of.
  by rewrite (Permutation_length (omap_Permutation _ _ _ Hp)).
Qed.

#[export] Instance reopened_of_proper : Proper ((≡ₚ) ==> eq) reopened_of.
Proof.
  intros es es' Hp. unfold reopened_of, slotless. f_equal; [by rewrite Hp|].
  f_equal. apply map_eq. intros s. rewrite !per_slot_lookup.
  by rewrite (slot_count_proper _ _ Hp s s eq_refl).
Qed.

(** ** Well-formed ledgers *)

Record wf (l : ledger) : Prop := {
  wf_start : 0 <= prompt_start l;
  wf_count : 0 < prompt_count l;
  wf_slots : 0 < slots_per_prompt l;
  wf_consumed : forall p n, consumed l !! p = Some n -> owns l p = true /\ 0 < n <= capacity_at l p;
  wf_filled : filled l = map_sum (fun _ n => n) (consumed l);
  wf_failed : forall p es, failed l !! p = Some es -> owns l p = true;
}.

Lemma owns_rows l p : owns l p = true <-> p ∈ rows l.
Proof.
  unfold owns, rows. rewrite elem_of_seqZ, andb_true_iff, Z.leb_le, Z.ltb_lt. done.
Qed.

Lemma capacity_bounds l p : wf l ->
  slots_per_prompt l <= capacity_at l p <= attempt_limit l.
Proof.
  intros [_ _ Hs _ _ _]. unfold capacity_at, attempt_limit, ATTEMPTS_PER_SLOT, reopened.
  pose proof (reopened_bounds (failed_at l p)). lia.
Qed.

Lemma consumed_bounds l p : wf l -> 0 <= consumed_at l p <= capacity_at l p.
Proof.
  intros Hwf. pose proof (capacity_bounds l p Hwf). pose proof (wf_slots l Hwf).
  unfold consumed_at. destruct (consumed l !! p) as [n|] eqn:Hn; cbn; [|lia].
  pose proof (wf_consumed l Hwf p n Hn). lia.
Qed.

Lemma new_ledger_wf count slots start l : new_ledger count slots start = Ok l -> wf l.
Proof.
  unfold new_ledger. repeat case_match; intros; simplify_eq.
  split; cbn; try lia; try done; try by intros *; rewrite lookup_empty.
Qed.

Lemma consume_ok l index n l' : consume index l = (Ok n, l') ->
  owns l index = true /\ consumed_at l index < capacity_at l index /\
  n = capacity_at l index - (consumed_at l index + 1) /\
  l' = Ledger (prompt_start l) (prompt_count l) (slots_per_prompt l)
         (<[index := consumed_at l index + 1]> (consumed l)) (filled l + 1) (failed l).
Proof.
  unfold consume, check. destruct (owns l index) eqn:Ho; [|done].
  destruct (Z.leb_spec (capacity_at l index) (consumed_at l index)); intros; by simplify_eq.
Qed.

Lemma consume_err l index e l' : consume index l = (Raise e, l') -> l' = l.
Proof. unfold consume, check. repeat case_match; intros; by simplify_eq. Qed.

Lemma consume_wf l index r l' : wf l -> consume index l = (r, l') -> wf l'.
Proof.
  intros Hwf Hc. destruct r as [n|e]; [|by apply consume_err in Hc as ->].
  apply consume_ok in Hc as (Ho & Hlt & -> & ->). pose proof (consumed_bounds l index Hwf).
  destruct Hwf as [Hst Hct Hsl Hco Hfi Hfa]. split; cbn; try done.
  - intros p n. rewrite lookup_insert. case_decide as Hp; intros; simplify_eq.
    + split; [done|]. change (capacity_at (Ledger _ _ _ _ _ _) p) with (capacity_at l p). lia.
    + by apply Hco.
  - rewrite map_sum_insert, Hfi. unfold consumed_at in *. destruct (consumed l !! index); cbn in *; lia.
Qed.

Lemma capacity_snoc_mono l p es e :
  failed_at l p = es -> capacity_at l p <= capacity_at (set_failed p (es ++ [e]) l) p.
Proof.
  intros <-. unfold capacity_at, reopened, attempt_limit. cbn.
  unfold failed_at at 2. cbn. rewrite lookup_insert_eq. cbn. rewrite reopened_snoc.
  destruct (entry_slot e) as [[s h]|]; [destruct (_ <? _)|]; lia.
Qed.

Lemma capacity_set_failed_ne l p q es : p <> q -> capacity_at (set_failed p es l) q = capacity_at l q.
Proof.
  intros Hne. unfold capacity_at, reopened, failed_at, attempt_limit. cbn. by rewrite lookup_insert_ne.
Qed.

Lemma set_failed_wf l p es : wf l -> owns l p = true ->
  capacity_at l p <= capacity_at (set_failed p es l) p -> wf (set_failed p es l).
Proof.
  intros [Hst Hct Hsl Hco Hfi Hfa] Ho Hcap. split; cbn; try done.
  - intros q n Hq. change (owns (set_failed p es l) q) with (owns l q).
    destruct (Hco q n Hq) as [? ?]. split; [done|]. destruct (decide (p = q)) as [->|Hne]; [lia|].
    rewrite capacity_set_failed_ne by done. lia.
  - intros q es'. rewrite lookup_insert. case_decide; intros; simplify_eq; [done|]. by eapply Hfa.
Qed.

Lemma set_failed_same l p : failed_at (set_failed p (failed_at l p) l) p = failed_at l p.
Proof. unfold failed_at. cbn. by rewrite lookup_insert_eq. Qed.

Lemma capacity_set_failed_same l p : capacity_at (set_failed p (failed_at l p) l) p = capacity_at l p.
Proof. unfold capacity_at, reopened. by rewrite set_failed_same. Qed.

Lemma record_failure_wf l index sid slot hk r l' :
  wf l -> record_failure index sid slot hk l = (r, l') -> wf l'.
Proof.
  intros Hwf. unfold record_failure, check. destruct (owns l index) eqn:Ho; [|intros; by simplify_eq].
  assert (wf (set_failed index (failed_at l index) l)) as Hwf1
    by (apply set_failed_wf; [done..|]; rewrite capacity_set_failed_same; lia).
  destruct (existsb _ _); intros; simplify_eq; [done|].
  apply set_failed_wf; [done..|]. apply capacity_snoc_mono, set_failed_same.
Qed.

(** ** Reachable ledgers *)

Section reachable.
Context (valid_id : string -> Prop).

(** One operation of the service on the ledger; [valid_id] is what the caller
    guarantees of the submission ids it records. *)
Inductive step (l l' : ledger) : Prop :=
  | step_consume index r : consume index l = (r, l') -> step l l'
  | step_record_failure index sid slot hotkey r :
      valid_id sid -> record_failure index sid slot hotkey l = (r, l') -> step l l'.

Definition reachable (l : ledger) : Prop :=
  exists count slots start l0, new_ledger count slots start = Ok l0 /\ rtc step l0 l.

Lemma step_wf l l' : wf l -> step l l' -> wf l'.
Proof. intros Hwf []; eauto using consume_wf, record_failure_wf. Qed.

Lemma reachable_wf l : reachable l -> wf l.
Proof.
  intros (c & v & s & l0 & H0 & Hsteps). apply new_ledger_wf in H0.
  by eapply rtc_invariant; [apply step_wf| |].
Qed.
End reachable.

(** ** Totals *)

Lemma length_rows l : wf l -> Z.of_nat (length (rows l)) = prompt_count l.
Proof. intros Hwf. unfold rows. rewrite length_seqZ. pose proof (wf_count l Hwf). lia. Qed.

Lemma NoDup_rows l : NoDup (rows l).
Proof. apply NoDup_seqZ. Qed.

Lemma filled_rows l : wf l -> filled l = Zsum (consumed_at l <$> rows l).
Proof.
  intros Hwf. rewrite (wf_filled l Hwf), <- (map_sum_keys _ _ (rows l) (NoDup_rows l)).
  - apply Zsum_ext_eq. intros p _. unfold consumed_at. by destruct (consumed l !! p).
  - intros p n Hp. apply owns_rows. by eapply wf_consumed.
Qed.

Lemma total_rows l : wf l -> total l = Zsum (capacity_at l <$> rows l).
Proof.
  intros Hwf. unfold total.
  rewrite <- (map_sum_keys _ _ (rows l) (NoDup_rows l)) by (intros p es Hp; apply owns_rows; by eapply wf_failed).
  rewrite <- (length_rows l Hwf), <- Zsum_fmap_const, <- Zsum_fmap_add.
  apply Zsum_ext_eq. intros p _. unfold capacity_at, reopened, failed_at, attempt_limit, ATTEMPTS_PER_SLOT.
  pose proof (wf_slots l Hwf). destruct (failed l !! p) as [es|] eqn:He; cbn.
  - lia.
  - change (reopened_of []) with 0. lia.
Qed.

Lemma filled_le_total l : wf l -> filled l <= total l.
Proof.
  intros Hwf. rewrite (filled_rows l Hwf), (total_rows l Hwf).
  apply Zsum_le. intros p _. by apply consumed_bounds.
Qed.

(** ** The failure entries *)

Lemma cut_app c a b : cut c a = None -> cut c (a +:+ String c b) = Some (a, b).
Proof.
  induction a as [|x a IH].
  - intros _. change (cut c (String c b) = Some (""%string, b)).
    cbn [cut]. by rewrite Ascii.eqb_refl.
  - change (String x a +:+ String c b) with (String x (a +:+ String c b)). cbn [cut].
    destruct (Ascii.eqb x c); [done|]. destruct (cut c a) as [[? ?]|] eqn:E; [done|].
    intros _. by rewrite IH.
Qed.

Lemma cut_uint d : cut at_sign (DecimalString.NilEmpty.string_of_uint d) = None.
Proof. induction d; cbn; [done|..]; by rewrite IHd. Qed.

Lemma cut_py_str z : cut at_sign (py_str z) = None.
Proof.
  unfold py_str, DecimalString.NilZero.string_of_int, DecimalString.NilZero.string_of_uint.
  destruct (Z.to_int z) as [d|d]; cbn [cut]; destruct d; try done;
    try (apply (cut_uint (Decimal.Nil)));
    match goal with |- context [DecimalString.NilEmpty.string_of_uint ?d] =>
      pose proof (cut_uint d) as E; cbn [cut] in *;
      by rewrite E end.
Qed.

Lemma entry_slot_failure_entry key slot hk :
  cut at_sign key = None ->
  entry_slot (failure_entry key slot hk) = (fun z => (py_str z, default ""%string hk)) <$> slot.
Proof.
  intros Hk. unfold entry_slot, failure_entry. destruct slot as [z|]; cbn [split_max fmap option_fmap option_map].
  - change (key +:+ "@" +:+ py_str z +:+ "@" +:+ default "" hk)%string
      with (key +:+ String at_sign (py_str z +:+ String at_sign (default "" hk)))%string.
    rewrite (cut_app _ _ _ Hk), (cut_app _ _ _ (cut_py_str z)). done.
  - by rewrite Hk.
Qed.

Lemma failure_id_entry key slot hk :
  cut at_sign key = None -> failure_id (failure_entry key slot hk) = key.
Proof.
  intros Hk. unfold failure_id, failure_entry. destruct slot as [z|]; [|by rewrite Hk].
  change (key +:+ "@" +:+ py_str z +:+ "@" +:+ default "" hk)%string
    with (key +:+ String at_sign (py_str z +:+ String at_sign (default "" hk)))%string.
  by rewrite (cut_app _ _ _ Hk).
Qed.

(** Submission ids as the service writes them: hexadecimal, so not empty and
    with no ["@"]. *)
Definition plain_id (sid : string) : Prop := sid <> ""%string /\ cut at_sign sid = None.

Lemma cut_substring c n s : cut c s = None -> cut c (String.substring 0 n s) = None.
Proof.
  revert s. induction n as [|n IH]; intros [|a s]; cbn; try done.
  destruct (Ascii.eqb a c); [done|]. destruct (cut c s) as [[? ?]|] eqn:E; [done|].
  intros _. by rewrite IH.
Qed.

(** What every recorded list of failures satisfies. *)
Record clean_entries (es : list string) : Prop := {
  clean_ids : NoDup (failure_id <$> es);
  clean_nonempty : Forall (fun e => e <> ""%string) es;
  clean_slots : Forall (fun e => forall s h, entry_slot e = Some (s, h) -> exists z, s = py_str z) es;
}.
Definition clean (l : ledger) : Prop := forall p es, failed l !! p = Some es -> clean_entries es.

Lemma clean_failed_at l p : clean l -> clean_entries (failed_at l p).
Proof.
  intros Hc. unfold failed_at. destruct (failed l !! p) eqn:E; cbn; [by eapply Hc|].
  split; constructor.
Qed.

Lemma clean_snoc es sid slot hk :
  clean_entries es -> plain_id sid ->
  existsb (fun e => String.eqb (failure_id e) (String.substring 0 12 sid)) es = false ->
  clean_entries (es ++ [failure_entry (String.substring 0 12 sid) slot hk]).
Proof.
  intros [Hid Hne Hsl] [Hs Hat] Hnew.
  assert (Hk : cut at_sign (String.substring 0 12 sid) = None) by by apply cut_substring.
  split.
  - rewrite fmap_app, NoDup_app. cbn. rewrite failure_id_entry by done.
    split; [done|]. split; [|apply NoDup_singleton].
    intros x (e & -> & He)%list_elem_of_fmap Hx%list_elem_of_singleton.
    apply not_true_iff_false in Hnew. apply Hnew, existsb_exists. exists e.
    split; [by apply list_elem_of_In|]. by apply String.eqb_eq.
  - apply Forall_app. split; [done|]. constructor; [|constructor].
    destruct sid as [|a sid]; [done|]. destruct slot; done.
  - apply Forall_app. split; [done|]. constructor; [|constructor].
    rewrite entry_slot_failure_entry by done. destruct slot as [z|]; [|done].
    intros s h [= <- _]. by exists z.
Qed.

Lemma record_failure_clean l index sid slot hk r l' :
  clean l -> plain_id sid -> record_failure index sid slot hk l = (r, l') -> clean l'.
Proof.
  intros Hc Hid. unfold record_failure, check. destruct (owns l index); [|intros; by simplify_eq].
  assert (clean (set_failed index (failed_at l index) l)) as Hc1.
  { intros p es. cbn. rewrite lookup_insert. case_decide; intros; simplify_eq; [|by eapply Hc].
    by apply clean_failed_at. }
  destruct (existsb _ _) eqn:Hex; intros; simplify_eq; [done|].
  intros p es. cbn. rewrite lookup_insert. case_decide; intros; simplify_eq; [|by eapply Hc1].
  apply clean_snoc; [by apply clean_failed_at|done..].
Qed.

Lemma reachable_clean l : reachable plain_id l -> clean l.
Proof.
  intros (c & v & s & l0 & H0 & Hsteps).
  assert (clean l0) as Hc.
  { unfold new_ledger in H0. repeat case_match; simplify_eq. intros p es. cbn. by rewrite lookup_empty. }
  clear H0. induction Hsteps as [|l1 l2 l3 [index r H|index sid slot hk r Hid H] _ IH]; [done|..]; apply IH.
  - destruct r as [n|e]; [|by apply consume_err in H as ->].
    apply consume_ok in H as (_ & _ & _ & ->). done.
  - by eapply record_failure_clean.
Qed.

(** ** The open bitmap *)

Definition row_open (l : ledger) (p : Z) : bool := 0 <? remaining_at l p.

(** The shortcut test of [open_bitmap] is the capacity test. *)
Lemma full_test l p taken : wf l ->
  (slots_per_prompt l <=? taken) && (bool_decide (failed l = ∅) || (capacity_at l p <=? taken))
  = (capacity_at l p <=? taken).
Proof.
  intros Hwf. pose proof (capacity_bounds l p Hwf) as Hb.
  destruct (Z.leb_spec (slots_per_prompt l) taken), (Z.leb_spec (capacity_at l p) taken);
    cbn; rewrite ?orb_true_r; try done; try lia.
  case_bool_decide as Hf; [|done]. exfalso.
  assert (capacity_at l p = slots_per_prompt l) as E; [|lia].
  unfold capacity_at, reopened, failed_at, attempt_limit, ATTEMPTS_PER_SLOT. rewrite Hf, lookup_empty. cbn.
  change (reopened_of []) with 0. pose proof (wf_slots l Hwf). lia.
Qed.

Definition full_in (l : ledger) (m : gmap Z Z) (p : Z) : bool :=
  match m !! p with Some t => capacity_at l p <=? t | None => false end.

Definition flags_of (l : ledger) (flags : list bool) (m : gmap Z Z) : Prop :=
  length flags = Z.to_nat (prompt_count l) /\
  forall i, (i < Z.to_nat (prompt_count l))%nat ->
    flags !! i = Some (negb (full_in l m (prompt_start l + Z.of_nat i))).

Lemma clear_full_flags l p n m flags :
  wf l -> owns l p = true -> m !! p = None -> flags_of l flags m ->
  flags_of l (clear_full l p n flags) (<[p := n]> m).
Proof.
  intros Hwf [Hlo Hhi]%andb_true_iff Hp [Hlen Hget].
  apply Z.leb_le in Hlo. apply Z.ltb_lt in Hhi.
  unfold clear_full. rewrite full_test by done. unfold flags_of, full_in.
  destruct (capacity_at l p <=? n) eqn:Hfull.
  - split; [by rewrite length_insert|]. intros j Hj.
    destruct (decide (p = prompt_start l + Z.of_nat j)) as [->|Hne].
    + replace (Z.to_nat (prompt_start l + Z.of_nat j - prompt_start l)) with j by lia.
      rewrite list_lookup_insert_eq by lia. by rewrite lookup_insert_eq, Hfull.
    + rewrite list_lookup_insert_ne by lia. rewrite lookup_insert_ne by done. by apply Hget.
  - split; [done|]. intros j Hj. rewrite (Hget j Hj). unfold full_in.
    destruct (decide (p = prompt_start l + Z.of_nat j)) as [->|Hne].
    + by rewrite lookup_insert_eq, Hp, Hfull.
    + by rewrite lookup_insert_ne.
Qed.

Lemma row_flags_spec l : wf l -> flags_of l (row_flags l) (consumed l).
Proof.
  intros Hwf. unfold row_flags.
  assert (forall p n, consumed l !! p = Some n -> owns l p = true) as Hown by (intros; by eapply wf_consumed).
  revert Hown. apply (map_fold_weak_ind (fun r m =>
    (forall p n, m !! p = Some n -> owns l p = true) -> flags_of l r m)).
  - intros _. split; [by rewrite length_replicate|]. intros j Hj.
    rewrite lookup_replicate_2 by done. unfold full_in. by rewrite lookup_empty.
  - intros p n m r Hp IH Hown. apply clear_full_flags; [done| |done|].
    + eapply Hown. apply lookup_insert_eq.
    + apply IH. intros q k Hq. eapply Hown. rewrite lookup_insert_ne; [done|congruence].
Qed.

Lemma full_in_open l p : wf l -> negb (full_in l (consumed l) p) = row_open l p.
Proof.
  intros Hwf. unfold full_in, row_open, remaining_at, consumed_at.
  pose proof (capacity_bounds l p Hwf). pose proof (wf_slots l Hwf).
  destruct (consumed l !! p) as [t|]; cbn;
    [destruct (Z.leb_spec (capacity_at l p) t)|];
    match goal with |- _ = (0 <? ?x) => destruct (Z.ltb_spec 0 x) end; done || lia.
Qed.

Lemma row_flags_eq l : wf l -> row_flags l = row_open l <$> rows l.
Proof.
  intros Hwf. destruct (row_flags_spec l Hwf) as [Hlen Hget]. apply list_eq. intros i.
  destruct (decide (i < Z.to_nat (prompt_count l))%nat) as [Hi|Hi].
  - rewrite (Hget i Hi), full_in_open by done. unfold rows.
    rewrite list_lookup_fmap, lookup_seqZ_lt by lia. done.
  - rewrite (lookup_ge_None_2 (row_flags l)) by lia. symmetry.
    apply lookup_ge_None_2. rewrite length_fmap. unfold rows. rewrite length_seqZ. lia.
Qed.

Lemma ceil_div8_spec n : 0 < n -> n <= ceil_div8 n * 8 < n + 8.
Proof. intros. unfold ceil_div8. Z.div_mod_to_equations. lia. Qed.

Lemma open_bitmap_length l : wf l -> Z.of_nat (length (open_bitmap l).1) = ceil_div8 (prompt_count l).
Proof.
  intros Hwf. cbn. rewrite length_to_bytes_be, Z.div_mul by lia.
  pose proof (ceil_div8_spec _ (wf_count l Hwf)). pose proof (wf_count l Hwf). lia.
Qed.

(** Reading a bit of the published bitmap gives the row's flag. *)
Lemma bit_at_open_bitmap l o : wf l -> 0 <= o < prompt_count l ->
  bit_at (open_bitmap l).1 o = Ok (row_open l (prompt_start l + o)).
Proof.
  intros Hwf Ho. pose proof (ceil_div8_spec _ (wf_count l Hwf)) as Hc. cbn [open_bitmap fst].
  rewrite Z.div_mul by lia. rewrite row_flags_eq by done.
  set (c := ceil_div8 (prompt_count l)) in *.
  set (bits := _ ++ _). set (j := Z.to_nat (Z.shiftr o 3)).
  assert (Hbits : length bits = Z.to_nat (c * 8)).
  { unfold bits. rewrite length_app, length_fmap, length_replicate. unfold rows. rewrite length_seqZ. lia. }
  assert (Hdiv : o = 8 * Z.of_nat j + o mod 8).
  { unfold j. rewrite Z.shiftr_div_pow2 by lia. pose proof (Z.div_mod o (2 ^ 3) ltac:(lia)).
    rewrite Z2Nat.id by (apply Z.div_pos; lia). done. }
  pose proof (Z.mod_pos_bound o 8 ltac:(lia)) as Hm.
  unfold bit_at. fold j. rewrite to_bytes_be_lookup by lia. f_equal.
  change 7 with (Z.ones 3). rewrite Z.land_ones by lia. change (2 ^ 3) with 8.
  rewrite land_mask, byte_testbit by lia.
  replace (8 * Z.of_nat (Z.to_nat c - 1 - j) + (7 - o mod 8))
    with (Z.of_nat (length bits) - 1 - Z.of_nat (Z.to_nat o)) by lia.
  rewrite of_bits_testbit by lia. unfold bits.
  rewrite lookup_app_l by (rewrite length_fmap; unfold rows; rewrite length_seqZ; lia).
  unfold rows. rewrite list_lookup_fmap, lookup_seqZ_lt by lia. cbn. do 2 f_equal. lia.
Qed.

(** ** Snapshots *)

Lemma insert_sorted_perm s k : insert_sorted s k ≡ₚ s :: k.
Proof.
  induction k as [|x k IH]; cbn; [done|]. destruct (String.leb s x); [done|].
  rewrite IH. apply Permutation_swap.
Qed.

Lemma sort_strings_perm k : sort_strings k ≡ₚ k.
Proof. induction k as [|x k IH]; cbn; [done|]. by rewrite insert_sorted_perm, IH. Qed.

(** Inserting a list of bindings with distinct keys one by one. *)
Definition insert_all {A} (m : gmap Z A) (kvs : list (Z * A)) : gmap Z A :=
  foldl (fun m kv => <[kv.1 := kv.2]> m) m kvs.

Lemma insert_all_lookup {A} (kvs : list (Z * A)) (m : gmap Z A) p :
  NoDup kvs.*1 -> insert_all m kvs !! p = match (list_to_map kvs : gmap Z A) !! p with
                                          | Some x => Some x | None => m !! p end.
Proof.
  revert m. induction kvs as [|[q x] kvs IH]; intros m Hnd; cbn; [by rewrite lookup_empty|].
  apply NoDup_cons in Hnd as [Hq Hnd]. cbn in Hq.
  unfold insert_all in *. rewrite IH by done. destruct (decide (q = p)) as [->|Hne].
  - rewrite lookup_insert_eq. by rewrite (not_elem_of_list_to_map_1 kvs p Hq), lookup_insert_eq.
  - by rewrite !lookup_insert_ne.
Qed.

Lemma insert_all_map_to_list (m : gmap Z Z) : insert_all ∅ (map_to_list m) = m.
Proof.
  apply map_eq. intros p. rewrite insert_all_lookup by apply NoDup_fst_map_to_list.
  rewrite list_to_map_to_list, lookup_empty. by destruct (m !! p).
Qed.

Lemma restore_failed_all s c v m f fm fs :
  (forall p es, (p, es) ∈ fs -> (s <=? p) && (p <? s + c) = true /\ es <> [] /\ NoDup es
     /\ Forall (fun e => e <> ""%string) es) ->
  fold_result restore_failed (Ledger s c v m f fm) fs = Ok (Ledger s c v m f (insert_all fm fs)).
Proof.
  revert fm. induction fs as [|[p es] fs IH]; intros fm Hok; [done|]. cbn [fold_result].
  destruct (Hok p es) as (Ho & Hne & Hnd & Hstr); [set_solver|].
  assert (restore_failed (Ledger s c v m f fm) (p, es)
          = Ok (Ledger s c v m f (<[p := es]> fm))) as ->.
  { unfold restore_failed. replace (owns (Ledger s c v m f fm) p) with true by (symmetry; exact Ho).
    rewrite (bool_decide_eq_false_2 (es = [])) by done. rewrite bool_decide_eq_true_2 by done.
    assert (forallb (fun i => negb (String.eqb i "")) es = true) as ->; [|done].
    apply forallb_forall. intros x Hx%list_elem_of_In. eapply Forall_forall in Hstr; [|done].
    by apply negb_true_iff, String.eqb_neq. }
  cbn. apply IH. intros q es' Hq. apply Hok. set_solver.
Qed.

Lemma restore_consumed_all s c v m f fm g kvs :
  (forall p n, (p, n) ∈ kvs -> (s <=? p) && (p <? s + c) = true
     /\ 0 < n <= capacity_at (Ledger s c v m f fm) p) ->
  fold_result restore_consumed (Ledger s c v m f fm, g) kvs
  = Ok (Ledger s c v (insert_all m kvs) f fm, g + Zsum kvs.*2).
Proof.
  revert m g. induction kvs as [|[p n] kvs IH]; intros m g Hok; [by rewrite Z.add_0_r|].
  cbn [fold_result]. destruct (Hok p n) as (Ho & Hn); [set_solver|].
  assert (restore_consumed (Ledger s c v m f fm, g) (p, n)
          = Ok (Ledger s c v (<[p := n]> m) f fm, g + n)) as ->.
  { unfold restore_consumed. replace (owns (Ledger s c v m f fm) p) with true by (symmetry; exact Ho).
    destruct (Z.leb_spec n 0); [lia|].
    by destruct (Z.ltb_spec (capacity_at (Ledger s c v m f fm) p) n); [lia|]. }
  rewrite bind_ok.
  change (Zsum ((p, n) :: kvs).*2) with (n + Zsum kvs.*2).
  rewrite IH; [by rewrite Z.add_assoc|].
  intros q k Hq. change (capacity_at (Ledger s c v (<[p := n]> m) f fm) q) with (capacity_at (Ledger s c v m f fm) q).
  apply Hok. set_solver.
Qed.

Lemma failed_snapshot_elem l p es :
  (p, es) ∈ failed_snapshot l <->
  exists es0, failed l !! p = Some es0 /\ es0 <> [] /\ es = sort_strings es0.
Proof.
  unfold failed_snapshot. rewrite list_elem_of_fmap. split.
  - intros ([q es0] & [= -> ->] & [Hne Hq]%list_elem_of_filter). exists es0.
    split; [by apply elem_of_map_to_list|done].
  - intros (es0 & Hp & Hne & ->). exists (p, es0). split; [done|].
    apply list_elem_of_filter. split; [done|]. by apply elem_of_map_to_list.
Qed.

Lemma failed_snapshot_keys l : NoDup (failed_snapshot l).*1.
Proof.
  unfold failed_snapshot. rewrite <- list_fmap_compose.
  assert (fst ∘ (fun kv : Z * list string => (kv.1, sort_strings kv.2)) = fst) as -> by done.
  pose proof (NoDup_fst_map_to_list (failed l)) as Hnd. revert Hnd. generalize (map_to_list (failed l)).
  intros kvs. induction kvs as [|[p es] kvs IH]; [done|]. rewrite fmap_cons. intros [Hp Hnd]%NoDup_cons.
  rewrite filter_cons. case_decide; [|by apply IH]. rewrite fmap_cons. constructor; [|by apply IH].
  contradict Hp. apply list_elem_of_fmap in Hp as (kv & -> & [_ Hkv]%list_elem_of_filter).
  apply list_elem_of_fmap. eauto.
Qed.

(** The failures restored for a prompt are the recorded ones, sorted. *)
Lemma restored_failures l p :
  default [] (insert_all ∅ (failed_snapshot l) !! p) ≡ₚ failed_at l p.
Proof.
  rewrite insert_all_lookup by apply failed_snapshot_keys. rewrite lookup_empty. unfold failed_at.
  destruct (list_to_map (failed_snapshot l) !! p) as [es|] eqn:E; cbn.
  - apply elem_of_list_to_map_2, failed_snapshot_elem in E as (es0 & -> & _ & ->). apply sort_strings_perm.
  - destruct (failed l !! p) as [es0|] eqn:F; [|done]. cbn.
    destruct es0 as [|e es0]; [done|]. exfalso.
    apply not_elem_of_list_to_map_2 in E. apply E. apply list_elem_of_fmap.
    exists (p, sort_strings (e :: es0)). split; [done|]. apply failed_snapshot_elem. eauto.
Qed.

(** Two ledgers that answer every question alike: equal but for the order in
    which each prompt's failures are listed. *)
Record ledger_equiv (l l' : ledger) : Prop := {
  eqv_start : prompt_start l = prompt_start l';
  eqv_count : prompt_count l = prompt_count l';
  eqv_slots : slots_per_prompt l = slots_per_prompt l';
  eqv_consumed : consumed l = consumed l';
  eqv_filled : filled l = filled l';
  eqv_failed : forall p, failed_at l p ≡ₚ failed_at l' p;
}.
#[export] Instance ledger_equiv_equivalence : Equivalence ledger_equiv.
Proof.
  split.
  - intros l. by split.
  - intros l l' [? ? ? ? ? Hf]. by split.
  - intros l l' l'' [? ? ? ? ? Hf] [? ? ? ? ? Hf']. split; try congruence. intros p. by rewrite Hf.
Qed.

#[export] Instance capacity_at_proper : Proper (ledger_equiv ==> eq ==> eq) capacity_at.
Proof.
  intros l l' [_ _ Hv _ _ Hf] p ? <-. unfold capacity_at, reopened, attempt_limit. by rewrite Hv, Hf.
Qed.

#[export] Instance remaining_proper : Proper (ledger_equiv ==> eq ==> eq) remaining.
Proof.
  intros l l' E p ? <-. unfold remaining, check.
  assert (owns l p = owns l' p) as -> by (unfold owns; by destruct E as [-> -> _ _ _ _]).
  destruct (owns l' p); [|done]. rewrite !bind_ok. unfold remaining_at, consumed_at.
  rewrite (capacity_at_proper _ _ E p p eq_refl). by destruct E as [_ _ _ -> _ _].
Qed.

#[export] Instance slot_attempt_proper : Proper (ledger_equiv ==> eq ==> eq ==> eq) slot_attempt.
Proof.
  intros l l' [Hs Hc _ _ _ Hf] p ? <- s ? <-. unfold slot_attempt, slot_failures, check, owns.
  rewrite Hs, Hc. destruct (_ && _); [|done]. cbn. do 2 f_equal.
  unfold slot_failures_of. by rewrite (Permutation_length (omap_Permutation _ _ _ (Hf p))).
Qed.

(** ** Prompt states *)

Lemma length_entries es :
  Z.of_nat (length es) = slotless es + map_sum (fun _ n => n) (per_slot es).
Proof.
  induction es as [|e es IH] using rev_ind; [done|].
  rewrite length_app, slotless_snoc, per_slot_snoc. cbn [length].
  destruct (entry_slot e) as [[s h]|]; [|lia].
  rewrite map_sum_insert. destruct (per_slot es !! s); cbn; lia.
Qed.

Lemma per_slot_key es s n : clean_entries es -> per_slot es !! s = Some n -> exists z, s = py_str z.
Proof.
  intros [_ _ Hsl]. rewrite per_slot_lookup. destruct (Z.eqb_spec (slot_count es s) 0) as [|Hn]; [done|].
  intros _. clear n. induction Hsl as [|e es He _ IH]; [done|].
  unfold slot_count, slot_failures_of in Hn, IH. cbn in Hn.
  destruct (entry_slot e) as [[s' h]|] eqn:E; [|by apply IH].
  destruct (String.eqb_spec s' s) as [->|]; [by eapply He|by apply IH].
Qed.

Lemma slot_exhausted_eq l p z : owns l p = true ->
  slot_exhausted l p z = Ok (ATTEMPTS_PER_SLOT <=? slot_count (failed_at l p) (py_str z)).
Proof. intros Ho. unfold slot_exhausted, slot_attempt, slot_failures, check. by rewrite Ho. Qed.

Lemma exhausted_slots_eq l p : clean l -> owns l p = true ->
  exhausted_slots l p
  = Ok (map_sum (fun _ n => Z.b2z (ATTEMPTS_PER_SLOT <=? n)) (per_slot (failed_at l p))).
Proof.
  intros Hc Ho. apply clean_failed_at with (p := p) in Hc. unfold exhausted_slots, map_sum.
  assert (forall s n, (s, n) ∈ map_to_list (per_slot (failed_at l p)) ->
            exists z, s = py_str z /\ n = slot_count (failed_at l p) s) as Hkeys.
  { intros s n Hs%elem_of_map_to_list. destruct (per_slot_key _ _ _ Hc Hs) as [z ->]. exists z.
    split; [done|]. rewrite per_slot_lookup in Hs. by destruct (_ =? 0); simplify_eq. }
  induction (map_to_list (per_slot (failed_at l p))) as [|[s n] kvs IH]; [done|].
  rewrite !fmap_cons. cbn [foldr fst snd]. rewrite IH by (intros; apply Hkeys; set_solver).
  destruct (Hkeys s n) as (z & -> & ->); [set_solver|].
  rewrite bind_ok, py_int_str, slot_exhausted_eq by done. rewrite bind_ok. f_equal.
  unfold Zsum. cbn. lia.
Qed.

(** When no draw slot failed more than [ATTEMPTS_PER_SLOT] times, the failures
    that reopened nothing are the exhausted draw slots. *)
Lemma reopened_exhausted es :
  (forall s, slot_count es s <= ATTEMPTS_PER_SLOT) ->
  Z.of_nat (length es)
  = reopened_of es + map_sum (fun _ n => Z.b2z (ATTEMPTS_PER_SLOT <=? n)) (per_slot es).
Proof.
  intros Hmax. rewrite length_entries. unfold reopened_of.
  rewrite <- Z.add_assoc. f_equal. unfold map_sum. rewrite <- Zsum_fmap_add.
  apply Zsum_ext_eq. intros [s n] Hs%elem_of_map_to_list. cbn.
  rewrite per_slot_lookup in Hs. destruct (Z.eqb_spec (slot_count es s) 0); simplify_eq.
  pose proof (slot_count_nonneg es s). specialize (Hmax s). unfold ATTEMPTS_PER_SLOT in *.
  destruct (Z.leb_spec 3 (slot_count es s)); cbn; lia.
Qed.

(** ** Claims *)

(** C18: in every ledger the service can reach from a new one, by any sequence of
    [consume] and [record_failure] calls (accepted, refused or raising), no
    prompt is oversold: [remaining] answers a number that is never negative, at
    most [ATTEMPTS_PER_SLOT] times V completions are ever taken for a prompt,
    and [filled] is the exact sum of what was taken, within [total]. *)
Theorem slots_never_oversold (l : ledger) (p : Z) :
  reachable (fun _ => True) l -> owns l p = true ->
  (exists r, remaining l p = Ok r /\ 0 <= r) /\
  0 <= consumed_at l p <= ATTEMPTS_PER_SLOT * slots_per_prompt l /\
  filled l = Zsum (consumed_at l <$> rows l) /\ filled l <= total l.
Proof.
  intros Hr Ho. apply reachable_wf in Hr. pose proof (consumed_bounds l p Hr).
  pose proof (capacity_bounds l p Hr) as Hb. unfold attempt_limit in Hb.
  split; [|split; [lia|split; [by apply filled_rows|by apply filled_le_total]]].
  exists (remaining_at l p). unfold remaining, check. rewrite Ho. split; [done|].
  unfold remaining_at. lia.
Qed.

Lemma slots_never_oversold_witness :
  exists l, (exists r, remaining l 7 = Ok r /\ 0 <= r) /\ filled l <= total l.
Proof.
  pose (l0 := Ledger 5 4 2 ∅ 0 ∅).
  exists (consume 7 l0).2.
  destruct (slots_never_oversold (consume 7 l0).2 7) as (Hr & _ & _ & Ht).
  - exists 4, 2, 5, l0. split; [reflexivity|]. apply rtc_once.
    by apply (step_consume _ _ _ 7 (consume 7 l0).1).
  - reflexivity.
  - done.
Defined.

(** [is_complete] holds exactly when every prompt of the job is full, so a job
    is never reported complete while a prompt still has a slot, and always when
    none has. *)
Theorem complete_iff_all_full (l : ledger) :
  reachable (fun _ => True) l ->
  is_complete l = true <-> forall index, owns l index = true -> is_full l index = Ok true.
Proof.
  intros Hr. apply reachable_wf in Hr. unfold is_complete. rewrite Z.leb_le.
  rewrite (filled_rows l Hr), (total_rows l Hr). split.
  - intros Hle p Hp. unfold is_full, remaining, check. rewrite Hp. cbn. f_equal. apply Z.eqb_eq.
    unfold remaining_at. apply owns_rows in Hp.
    rewrite (Zsum_le_eq _ _ _ (fun x _ => proj2 (consumed_bounds l x Hr)) Hle p Hp). lia.
  - intros Hfull. apply Zsum_le. intros p Hp%owns_rows. specialize (Hfull p Hp).
    unfold is_full, remaining, check in Hfull. rewrite Hp in Hfull. cbn in Hfull.
    injection Hfull as Hfull%Z.eqb_eq. unfold remaining_at in Hfull. lia.
Qed.

Lemma complete_iff_all_full_witness :
  exists l, is_complete l = true /\ is_full l 0 = Ok true.
Proof.
  pose (l0 := Ledger 0 1 1 ∅ 0 ∅). exists (consume 0 l0).2.
  assert (Hr : reachable (fun _ => True) (consume 0 l0).2).
  { exists 1, 1, 0, l0. split; [reflexivity|]. apply rtc_once.
    by apply (step_consume _ _ _ 0 (consume 0 l0).1). }
  split; [reflexivity|]. by apply (complete_iff_all_full _ Hr).
Defined.

Lemma is_open_sound l start count opened m i :
  wf l -> start = prompt_start l -> count = prompt_count l -> m = OpenMap start count opened (open_bitmap l).1 ->
  is_open m i = Ok (owns l i && row_open l i).
Proof.
  intros Hwf -> -> ->. unfold is_open, owns. cbn [om_start om_count om_bitmap].
  destruct (Z.leb_spec 0 (i - prompt_start l)), (Z.ltb_spec (i - prompt_start l) (prompt_count l));
    destruct (Z.leb_spec (prompt_start l) i), (Z.ltb_spec i (prompt_start l + prompt_count l));
    try lia; try done.
  cbn [andb]. rewrite bit_at_open_bitmap by (done || lia). do 2 f_equal. lia.
Qed.

Lemma indices_sound l start count opened m :
  wf l -> start = prompt_start l -> count = prompt_count l -> m = OpenMap start count opened (open_bitmap l).1 ->
  indices m = Ok (filter (fun p => row_open l p = true) (rows l)).
Proof.
  intros Hwf -> -> ->. unfold indices, rows. cbn [om_start om_count om_bitmap].
  assert (forall os acc, Forall (fun o => 0 <= o < prompt_count l) os ->
    fold_result (fun acc offset => b ← bit_at (open_bitmap l).1 offset;
                   Ok (if b : bool then acc ++ [prompt_start l + offset] else acc)) acc os
    = Ok (acc ++ filter (fun p => row_open l p = true) (Z.add (prompt_start l) <$> os))) as Hgen.
  { induction os as [|o os IH]; intros acc Hos; cbn [fold_result]; [by rewrite app_nil_r|].
    apply Forall_cons in Hos as [Ho Hos]. rewrite bit_at_open_bitmap by done. rewrite !bind_ok.
    rewrite (IH _ Hos), fmap_cons, filter_cons.
    destruct (row_open l (prompt_start l + o)); case_decide; try done. by rewrite <- app_assoc. }
  rewrite Hgen; [|apply Forall_forall; intros o Ho%elem_of_seqZ; lia].
  by rewrite fmap_add_seqZ, Z.add_0_r.
Qed.

Lemma opened_count l : wf l ->
  (open_bitmap l).2 = Z.of_nat (length (filter (fun p => row_open l p = true) (rows l))).
Proof.
  intros Hwf. cbn. rewrite row_flags_eq by done. f_equal.
  induction (rows l) as [|p ps IH]; [done|]. rewrite fmap_cons, !filter_cons.
  repeat case_decide; try done. cbn. by rewrite IH.
Qed.

(** A body with the right members is parsed. *)
Lemma parse_body_ok (job_id text : string) (as_of start count opened : Z) (bitmap : list Z) :
  0 <= start -> 0 < count -> 0 <= opened <= count ->
  Z.of_nat (length bitmap) = ceil_div8 count -> b64decode (encode text) = Some bitmap ->
  parse_open_map (VDict [("job_id", VStr job_id); ("prompt_start", VInt start);
    ("prompt_count", VInt count); ("open_count", VInt opened); ("as_of", VFloat as_of);
    ("encoding", VStr OPEN_ENCODING); ("open", VStr text)]%string)
  = Ok (OpenMap start count opened bitmap).
Proof.
  intros Hs Hc Ho Hlen Hdec. unfold parse_open_map, read_count.
  set (d := [_; _; _; _; _; _; _]).
  change (dict_get "encoding" d) with (VStr OPEN_ENCODING).
  change (dict_get "prompt_start" d) with (VInt start). change (dict_get "prompt_count" d) with (VInt count).
  change (dict_get "open_count" d) with (VInt opened). change (dict_get "open" d) with (VStr text).
  change (String.eqb OPEN_ENCODING OPEN_ENCODING) with true. cbn [negb].
  destruct (Z.ltb_spec start 0), (Z.ltb_spec count 0), (Z.ltb_spec opened 0); try lia. rewrite !bind_ok.
  destruct (Z.leb_spec count 0), (Z.ltb_spec count opened); try lia. cbn [orb].
  by rewrite Hdec, Hlen, Z.eqb_refl.
Qed.

(** The open map survives the wire.  The body the validator serves for any
    ledger the service can reach is parsed by a miner without error, and the
    parsed map answers for every index, in or out of the job, exactly whether
    that prompt still had a slot; [indices] lists the open prompts in order and
    the published count is their number. *)
Theorem open_map_roundtrip (l : ledger) (job_id : string) (as_of : Z) :
  reachable (fun _ => True) l ->
  exists m, parse_open_map (open_body job_id as_of l) = Ok m /\
    (forall index, is_open m index = Ok (owns l index && (0 <? remaining_at l index))) /\
    indices m = Ok (filter (fun p => (0 <? remaining_at l p) = true) (rows l)) /\
    om_open m = Z.of_nat (length (filter (fun p => (0 <? remaining_at l p) = true) (rows l))).
Proof.
  intros Hr. apply reachable_wf in Hr.
  exists (OpenMap (prompt_start l) (prompt_count l) (open_bitmap l).2 (open_bitmap l).1).
  split; [|split; [intros; by eapply is_open_sound|split; [by eapply indices_sound|by apply opened_count]]].
  unfold open_body. pose proof (opened_count l Hr) as Hopen. pose proof (open_bitmap_length l Hr) as Hlen.
  assert (Forall is_byte (open_bitmap l).1) as Hbytes by apply to_bytes_be_byte.
  destruct (open_bitmap l) as [bitmap opened]. cbn [fst snd] in *.
  assert (opened <= prompt_count l).
  { rewrite Hopen, <- (length_rows l Hr). apply inj_le, length_filter. }
  pose proof (wf_start l Hr). pose proof (wf_count l Hr).
  apply parse_body_ok; [lia..|done|].
  rewrite encode_decode by by apply b64encode_byte. by apply b64decode_encode.
Qed.

Lemma open_map_roundtrip_witness :
  exists m, parse_open_map (open_body "job" 0 (Ledger 3 11 2 ∅ 0 ∅)) = Ok m /\
    is_open m 13 = Ok true /\ is_open m 14 = Ok false.
Proof.
  destruct (open_map_roundtrip (Ledger 3 11 2 ∅ 0 ∅) "job" 0) as (m & Hp & Ho & _).
  { exists 11, 2, 3, (Ledger 3 11 2 ∅ 0 ∅). split; [reflexivity|]. apply rtc_refl. }
  exists m. split; [done|]. rewrite !Ho. split; vm_compute; reflexivity.
Defined.

(** A job's slots survive a restart.  Rebuilding a ledger from [snapshot] and
    [failed_snapshot] of any ledger reachable with well-formed submission ids is
    accepted and gives a ledger that answers alike: same consumed counts, same
    [filled], same failures of every prompt up to the order they are listed in
    (so the same capacities and remaining slots). *)
Theorem snapshot_roundtrip (l : ledger) :
  reachable plain_id l ->
  exists l', from_snapshot (prompt_count l) (slots_per_prompt l) (snapshot l) (prompt_start l)
               (failed_snapshot l) = Ok l' /\
    ledger_equiv l' l /\ forall index, remaining l' index = remaining l index.
Proof.
  intros Hr. pose proof (reachable_clean l Hr) as Hc. apply reachable_wf in Hr as Hwf.
  set (l' := Ledger (prompt_start l) (prompt_count l) (slots_per_prompt l) (consumed l) (filled l)
               (insert_all ∅ (failed_snapshot l))).
  assert (E : ledger_equiv l' l) by (split; [done..|]; intros p; apply restored_failures).
  exists l'. split; [|split; [done|by intros i; rewrite E]].
  unfold from_snapshot, new_ledger. destruct Hwf as [Hst Hct Hsl Hco Hfi Hfa].
  destruct (Z.leb_spec (prompt_count l) 0); [lia|]. destruct (Z.leb_spec (slots_per_prompt l) 0); [lia|].
  destruct (Z.ltb_spec (prompt_start l) 0); [lia|]. rewrite bind_ok, restore_failed_all.
  - rewrite bind_ok, restore_consumed_all.
    + rewrite bind_ok. f_equal. unfold l', snapshot.
      rewrite insert_all_map_to_list. f_equal. rewrite Hfi. done.
    + intros p n Hp%elem_of_map_to_list. destruct (Hco p n Hp) as [Ho Hn]. split; [exact Ho|].
      change (capacity_at (Ledger _ _ _ ∅ 0 _) p) with (capacity_at l' p). by rewrite E.
  - intros p es (es0 & Hp & Hne & ->)%failed_snapshot_elem. split; [exact (Hfa p es0 Hp)|].
    destruct (Hc p es0 Hp) as [Hid Hstr _]. repeat split.
    + intros Hnil. apply Hne, Permutation_nil_r. by rewrite <- (sort_strings_perm es0), Hnil.
    + rewrite sort_strings_perm. by eapply NoDup_fmap_1.
    + by rewrite sort_strings_perm.
Qed.

Definition witness_ledger : ledger :=
  (record_failure 1 "abcdef012345ff" (Some 0) (Some "hk") (consume 1 (Ledger 0 2 1 ∅ 0 ∅)).2).2.

Lemma witness_ledger_reachable : reachable plain_id witness_ledger.
Proof.
  exists 2, 1, 0, (Ledger 0 2 1 ∅ 0 ∅). split; [reflexivity|].
  eapply rtc_l; [|apply rtc_once].
  - by apply (step_consume _ _ _ 1 (Ok 0)).
  - apply (step_record_failure _ _ _ 1 "abcdef012345ff" (Some 0) (Some "hk") (Ok (Some true))); done.
Qed.

Lemma snapshot_roundtrip_witness :
  exists l', from_snapshot 2 1 (snapshot witness_ledger) 0 (failed_snapshot witness_ledger) = Ok l' /\
    remaining l' 1 = Ok 1.
Proof.
  destruct (snapshot_roundtrip witness_ledger witness_ledger_reachable) as (l' & H & _ & Hr).
  exists l'. split; [exact H|]. rewrite Hr. vm_compute. reflexivity.
Defined.

Lemma capacity_snoc_le l p e :
  capacity_at (set_failed p (failed_at l p ++ [e]) l) p <= capacity_at l p + 1.
Proof.
  unfold capacity_at, reopened, attempt_limit. cbn. unfold failed_at at 1. cbn.
  rewrite lookup_insert_eq. cbn. rewrite reopened_snoc.
  destruct (entry_slot e) as [[s h]|]; [destruct (_ <? _)|]; lia.
Qed.

Lemma set_failed_equiv l p : ledger_equiv (set_failed p (failed_at l p) l) l.
Proof.
  split; try done. intros q. unfold failed_at at 1. cbn. rewrite lookup_insert.
  case_decide; [by subst|done].
Qed.

(** [record_failure] is exact and idempotent.  A new failure of a prompt of the
    job changes that prompt's capacity by one slot when it answers [True] and
    leaves it when it answers [False] (the attempts are used), changes no other
    prompt's capacity and no consumed count; recording the same submission again
    (whatever slot or hotkey is given) answers [None] and changes nothing. *)
Theorem record_failure_once (l l' : ledger) (index : Z) (sid : string)
    (slot slot' : option Z) (hk hk' : option string) (b : bool) :
  plain_id sid -> record_failure index sid slot hk l = (Ok (Some b), l') ->
  capacity_at l' index = capacity_at l index + Z.b2z b /\
  (forall q, q <> index -> capacity_at l' q = capacity_at l q) /\
  consumed l' = consumed l /\ filled l' = filled l /\
  exists l'', record_failure index sid slot' hk' l' = (Ok None, l'') /\ ledger_equiv l'' l'.
Proof.
  intros [_ Hat] H. unfold record_failure, check in H. destruct (owns l index) eqn:Ho; [|done].
  destruct (existsb _ (failed_at l index)) eqn:Hex; [done|]. set (key := String.substring 0 12 sid) in *.
  set (l1 := set_failed index (failed_at l index) l) in *.
  pose proof (capacity_snoc_le l1 index (failure_entry key slot hk)) as Hle.
  pose proof (capacity_snoc_mono l1 index _ (failure_entry key slot hk) (set_failed_same l index)) as Hge.
  assert (E1 : failed_at l1 index = failed_at l index) by apply set_failed_same. rewrite E1 in Hle.
  assert (E2 : capacity_at l1 index = capacity_at l index) by apply capacity_set_failed_same.
  injection H as Hb <-. rewrite E2 in *.
  split; [destruct b; [apply Z.ltb_lt in Hb|apply Z.ltb_ge in Hb]; cbn; lia|].
  split; [intros q Hq; unfold l1; by rewrite !capacity_set_failed_ne|].
  split; [done|]. split; [done|].
  set (l2 := set_failed index _ l1). exists (set_failed index (failed_at l2 index) l2).
  split; [|apply set_failed_equiv]. unfold record_failure, check.
  change (owns l2 index) with (owns l index). rewrite Ho. fold key.
  assert (existsb (fun e => String.eqb (failure_id e) key) (failed_at l2 index) = true) as ->; [|done].
  unfold l2. unfold failed_at at 1. cbn. rewrite lookup_insert_eq. cbn.
  rewrite existsb_app. cbn. rewrite failure_id_entry by by apply cut_substring.
  by rewrite String.eqb_refl, orb_true_r.
Qed.

Lemma record_failure_once_witness :
  exists l' l'', record_failure 1 "abcdef012345ff" (Some 0) None (Ledger 0 2 1 ∅ 0 ∅) = (Ok (Some true), l') /\
    capacity_at l' 1 = 2 /\ record_failure 1 "abcdef012345ff" None None l' = (Ok None, l'').
Proof.
  pose (r := record_failure 1 "abcdef012345ff" (Some 0) None (Ledger 0 2 1 ∅ 0 ∅)).
  assert (Hid : plain_id "abcdef012345ff") by (split; [discriminate|vm_compute; reflexivity]).
  assert (E : r = (Ok (Some true), r.2)) by (vm_compute; reflexivity).
  destruct (record_failure_once _ _ _ _ _ None _ None _ Hid E) as (_ & _ & _ & _ & l'' & H & _).
  exists r.2, l''. split; [exact E|]. split; [vm_compute; reflexivity|exact H].
Defined.

(** A prompt reported [open] really has a slot to give, and its state never
    raises.  Provided no draw slot of it failed more than [ATTEMPTS_PER_SLOT]
    times (admission refuses an exhausted draw slot), a prompt whose state is
    [open] has [remaining > 0]; so the lease and admission paths, which skip every
    other state, never spin on a full prompt. *)
Theorem open_prompt_has_slot (l : ledger) (index : Z) :
  reachable plain_id l -> owns l index = true ->
  (forall slot n, slot_attempt l index slot = Ok n -> n <= ATTEMPTS_PER_SLOT) ->
  exists s, prompt_state l index = Ok s /\ (s = Open -> 0 < remaining_at l index) /\
    (remaining_at l index = 0 -> s <> Open).
Proof.
  intros Hr Ho Hmax. pose proof (reachable_clean l Hr) as Hc. apply reachable_wf in Hr as Hwf.
  assert (Hmax' : forall s, slot_count (failed_at l index) s <= ATTEMPTS_PER_SLOT).
  { intros s. destruct (Z.eq_dec (slot_count (failed_at l index) s) 0) as [->|Hn]; [done|].
    assert (per_slot (failed_at l index) !! s = Some (slot_count (failed_at l index) s)) as Hs.
    { rewrite per_slot_lookup. by apply Z.eqb_neq in Hn as ->. }
    apply per_slot_key in Hs as [z ->]; [|by apply clean_failed_at].
    eapply Hmax. unfold slot_attempt, slot_failures, check. by rewrite Ho. }
  pose proof (reopened_exhausted _ Hmax') as Hlen. pose proof (exhausted_slots_eq l index Hc Ho) as Hx.
  assert (Hgoal : forall s, prompt_state l index = Ok s -> s = Open -> 0 < remaining_at l index).
  { intros s Hs ->. unfold prompt_state, check in Hs. rewrite Ho, bind_ok, Hx, bind_ok in Hs.
    unfold passing_at in Hs.
    destruct (Z.leb_spec (slots_per_prompt l) (consumed_at l index - Z.of_nat (length (failed_at l index)))) in Hs; [done|].
    destruct (Z.leb_spec (attempt_limit l) (consumed_at l index)) in Hs; [done|].
    match type of Hs with context [?a <=? ?b] => destruct (Z.leb_spec a b) in Hs; [done|] end.
    unfold remaining_at, capacity_at, reopened. lia. }
  assert (exists s, prompt_state l index = Ok s) as [s Hs].
  { unfold prompt_state, check. rewrite Ho, bind_ok, Hx, bind_ok. repeat destruct (_ <=? _); eauto. }
  exists s. split; [done|]. split; [by apply Hgoal|].
  intros Hz Hop. specialize (Hgoal s Hs Hop). lia.
Qed.

Lemma open_prompt_has_slot_witness : 0 < remaining_at witness_ledger 1.
Proof.
  destruct (open_prompt_has_slot witness_ledger 1) as (s & Hs & Hopen & _).
  - apply witness_ledger_reachable.
  - reflexivity.
  - intros slot n. unfold slot_attempt, slot_failures.
    change (check witness_ledger 1) with (@Ok Z 1). rewrite !bind_ok. intros [= <-].
    apply (Z.le_trans _ 1); [|unfold ATTEMPTS_PER_SLOT; lia].
    apply (slot_count_le (failed_at witness_ledger 1) (py_str slot)).
  - apply Hopen. vm_compute in Hs. congruence.
Defined.
