(* ===== verification/Periods.v ===== *)
(** * Periods: tasks paid on their own clock

    Models [reliquary/validator/corpus_periods.py]: the periods of drand time, when
    one closes, which period an archive enters, what it may pay, the price ceilings
    of the registry, and the replay that turns archives into weights.

    Registry parameters are JSON values; floats are finite, so [math.isfinite] of a
    number holds.  The power of [replay] is the platform's [pow], a parameter. *)

From S2P Require Import Prelude PyFloat.

#[local] Open Scope Z_scope.

Definition SETTLEMENT_PERIOD_EMA : string := "period-ema-v1".
Definition PERIOD_EPOCH : float := of_int 1692803367.
Definition PERIOD_SECONDS : Z := 4320.
Definition PERIOD_EMA_N : Z := 6.
Definition PERIOD_ALPHA : float := fdiv (of_int 2) (of_int (PERIOD_EMA_N + 1)).
Definition REPLAY_DEPTH : Z := 24.
Definition CATCHUP_ENTRIES : Z := 4.

(** ** Ceilings of the registry *)

Abbreviation json := (list (string * pyval)).

Definition pay_ceiling (params : pyval) : result (option float) :=
  match params with
  | VDict d =>
      match dict_get "cap" d with
      | VNone => Ok None
      | cap =>
          ceiling ← to_float cap;
          match dict_get "tail_cap" d with
          | VNone => Ok (Some ceiling)
          | tail => t ← to_float tail; Ok (Some (Z.max ceiling t))
          end
      end
  | _ => Ok None
  end.

(** [max_price] on a mapping; anything else has no ceiling. *)
Definition max_price (d : json) : result (option float) :=
  match dict_get "max_price_per_token" d with
  | VNone => Ok None
  | v => f ← to_float v; Ok (Some f)
  end.

Definition max_input_price (d : json) : result (option float) :=
  price ← max_price d;
  match price, dict_get "max_price_input_per_token" d with
  | None, _ | _, VNone => Ok None
  | Some _, v => f ← to_float v; Ok (Some f)
  end.

Definition MILLION : float := of_int 1000000.

(** [price_params]: the price in alpha per million tokens as a share per token. *)
Definition price_params (alpha emission set_at : float) (input_alpha : option float) : result json :=
  if negb (0 <? alpha) then Raise ValueError
  else if negb (0 <? emission) then Raise ValueError
  else
    let params := [("max_price_per_token", VFloat (fdiv (fdiv alpha MILLION) emission));
                   ("max_price_alpha_per_mtoken", VFloat alpha);
                   ("max_price_miner_alpha_per_period", VFloat emission);
                   ("max_price_set_at", VFloat set_at)]%string in
    match input_alpha with
    | None => Ok params
    | Some given =>
        if negb (0 <=? given) then Raise ValueError
        else if 0 <? given then
          Ok (params ++ [("max_price_input_per_token", VFloat (fdiv (fdiv given MILLION) emission));
                         ("max_price_input_alpha_per_mtoken", VFloat given)]%string)
        else Ok params
    end.

(** A rate that is a number and not a boolean, and the quotient of two of them:
    true division of two integers rounds the exact quotient. *)
Definition finite_number (v : pyval) : result pyval :=
  match v with VInt _ | VFloat _ => Ok v | _ => Raise ValueError end.
Definition is_pos (v : pyval) : bool := match v with VInt z | VFloat z => 0 <? z | _ => false end.
Definition is_nonneg (v : pyval) : bool := match v with VInt z | VFloat z => 0 <=? z | _ => false end.
Definition quotient (a b : pyval) : result float :=
  match a, b with
  | VInt x, VInt y => Ok (fround (x * fone * Z.sgn y) (Z.abs y))
  | _, _ => x ← to_float a; y ← to_float b; Ok (fdiv x y)
  end.

Definition usd_price_params (usd_input usd_output alpha_usd tao_usd : pyval) (miner_alpha set_at : float) : result json :=
  _ ← finite_number usd_input; _ ← finite_number usd_output; _ ← finite_number alpha_usd; _ ← finite_number tao_usd;
  if negb (is_nonneg usd_input && is_pos usd_output && is_pos alpha_usd && is_pos tao_usd) then Raise ValueError
  else
    out ← quotient usd_output alpha_usd;
    inp ← quotient usd_input alpha_usd;
    params ← price_params out miner_alpha set_at (Some inp);
    i ← to_float usd_input; o ← to_float usd_output; a ← to_float alpha_usd; t ← to_float tao_usd;
    Ok (params ++ [("max_price_usd_per_mtoken_input", VFloat i); ("max_price_usd_per_mtoken_output", VFloat o);
                   ("max_price_alpha_usd", VFloat a); ("max_price_tao_usd", VFloat t)]%string).

(** [verdict.get(name) or 0], as an integer. *)
Definition count_of (verdict : json) (name : string) : result Z :=
  let v := dict_get name verdict in if py_truth v then to_int v else Ok 0.

Definition work_value (verdict : json) (price input_price : float) : result float :=
  t ← count_of verdict "token_count";
  p ← count_of verdict "prompt_token_count";
  Ok (fadd (fmul price (of_int t)) (fmul input_price (of_int p))).

Definition period_budget (cap : float) (price : option float) (tokens : Z) : float :=
  match price with None => cap | Some p => Z.min cap (fmul p (of_int tokens)) end.

Definition price_view (params : json) : result (option json) :=
  price ← max_price params;
  match price with
  | None => Ok None
  | Some p =>
      input ← max_input_price params;
      let view := [("max_price_alpha_per_mtoken", dict_get "max_price_alpha_per_mtoken" params);
                   ("max_price_pool_share_per_token", VFloat p);
                   ("miner_alpha_per_period", dict_get "max_price_miner_alpha_per_period" params);
                   ("set_at", dict_get "max_price_set_at" params)]%string in
      let view2 := match input with
                   | None => view
                   | Some i => view ++ [("max_price_input_alpha_per_mtoken", dict_get "max_price_input_alpha_per_mtoken" params);
                                        ("max_price_input_pool_share_per_token", VFloat i)]%string
                   end in
      Ok (Some (match dict_get "max_price_usd_per_mtoken_output" params with
                | VNone => view2
                | out => view2 ++ [("usd", VDict
                    [("input_per_mtoken", dict_get "max_price_usd_per_mtoken_input" params); ("output_per_mtoken", out);
                     ("alpha_usd", dict_get "max_price_alpha_usd" params);
                     ("tao_usd", dict_get "max_price_tao_usd" params)])]%string
                end))
  end.

Definition archive_bound (recorded ceiling : option float) : option float :=
  match recorded, ceiling with
  | None, _ => ceiling
  | Some r, None => Some r
  | Some r, Some c => Some (Z.min r c)
  end.

Definition is_period_task (params : pyval) : bool :=
  match params with
  | VDict d => match dict_get "settlement" d with VStr s => String.eqb s SETTLEMENT_PERIOD_EMA | _ => false end
  | _ => false
  end.

(** ** The clock *)

Definition period_of (t genesis : float) : Z := ffloor (fdiv (fsub t genesis) (of_int PERIOD_SECONDS)).
Definition period_end (period : Z) (genesis : float) : float := fadd genesis (of_int ((period + 1) * PERIOD_SECONDS)).

Definition closed_through (now : float) (oldest_pending : option float) (genesis slack : float) : Z :=
  let bound := fsub now slack in
  let bound := match oldest_pending with Some o => Z.min bound o | None => bound end in
  period_of bound genesis - 1.

(** ** Entry periods *)

(** How many archives enter in each period from [due] on. *)
Definition entries_taken (due : Z) (entered : list Z) : gmap Z Z :=
  foldl (fun m e => if due <=? e then <[e := default 0 (m !! e) + 1]> m else m) ∅ entered.

(** The loop, with fuel; [None] when it runs out. *)
Fixpoint entry_loop (fuel : nat) (taken : gmap Z Z) (used : gset Z) (per_period entry : Z) : option Z :=
  match fuel with
  | O => None
  | S fuel' =>
      if (per_period <=? default 0 (taken !! entry)) || bool_decide (entry ∈ used)
      then entry_loop fuel' taken used per_period (entry + 1)
      else Some entry
  end.

Definition entry_for (due : Z) (entered used : list Z) (per_period : Z) : option Z :=
  entry_loop (S (length entered + length used)) (entries_taken due entered) (list_to_set used) per_period due.

(** ** Weights *)

Record archive := Archive { entry_period : Z; rewards_by_hotkey : list (string * float) }.

Section replay.
Context (pow : float -> Z -> float).

Definition add_reward (factor : float) (w : gmap string float) (hr : string * float) : gmap string float :=
  <[hr.1 := fadd (default 0 (w !! hr.1)) (fmul factor hr.2)]> w.

Definition replay_archive (current : Z) (alpha : float) (depth : Z) (w : gmap string float) (a : archive) : gmap string float :=
  let age := current - entry_period a in
  if (age <? 0) || (depth <? age) then w
  else foldl (add_reward (fmul alpha (pow (fsub fone alpha) age))) w (rewards_by_hotkey a).

(** [1e-9] *)
Definition DUST : float := flit 1 1000000000.

Definition replay (archives : list archive) (current : Z) (alpha : float) (depth : Z) : gmap string float :=
  filter (fun kv => DUST < kv.2) (foldl (replay_archive current alpha depth) ∅ archives).
End replay.

(** ** Periods are exact *)

Definition seconds (n : Z) : float := n * fone.

Lemma epoch_seconds : PERIOD_EPOCH = seconds 1692803367.
Proof. apply of_int_exact. lia. Qed.

(** Every clock reading between the epoch and 2038 is on a grid fine enough for the
    float quotient to have the integral part of the exact one. *)
Lemma period_of_exact t : representable t -> PERIOD_EPOCH <= t < seconds (2 ^ 31) ->
  period_of t PERIOD_EPOCH = (t - PERIOD_EPOCH) / seconds PERIOD_SECONDS.
Proof.
  intros Ht [Hlo Hhi]. rewrite epoch_seconds in *. unfold seconds in *.
  pose proof fone_pos as Hf. pose proof (fone_grid 22 ltac:(lia)) as Hgrid. replace (1074 - 22) with 1052 in Hgrid by lia.
  assert (0 < 2 ^ 1052) as Hu by (apply Z.pow_pos_nonneg; lia).
  destruct (representable_grid t 1051) as [m Hm]; [lia|done| |].
  { replace (1051 + 53) with (30 + (22 + 1052)) by lia. rewrite !Z.pow_add_r by lia. rewrite <- Hgrid. lia. }
  replace (1051 + 1) with 1052 in Hm by lia.
  set (u := 2 ^ 1052) in *. assert (t - 1692803367 * fone = (m - 1692803367 * 2 ^ 22) * u) as Hd by (rewrite Hm, Hgrid; ring).
  set (d := m - 1692803367 * 2 ^ 22) in *.
  assert (0 <= d < 454680281 * 2 ^ 22) as Hdr by (rewrite Hgrid in *; nia).
  assert (representable (d * u)) as Hrep by (apply representable_scaled; lia).
  unfold period_of. assert (fsub t (1692803367 * fone) = d * u) as ->.
  { unfold fsub. rewrite Hd. exact Hrep. }
  rewrite Hd. unfold PERIOD_SECONDS.
  assert (d * u / (4320 * fone) = d / (4320 * 2 ^ 22)) as Eq.
  { rewrite Hgrid, Z.mul_assoc. apply Z.div_mul_cancel_r; lia. }
  pose proof (Z.div_mod d (4320 * 2 ^ 22) ltac:(lia)) as Hdiv.
  pose proof (Z.mod_pos_bound d (4320 * 2 ^ 22) ltac:(lia)) as Hr.
  set (q := d / (4320 * 2 ^ 22)) in *.
  apply ffloor_quot; [nia|lia|rewrite Eq; lia|]. rewrite Eq, Hgrid.
  replace (4320 * (q + 1) * (2 ^ 22 * u)) with ((4320 * 2 ^ 22 * (q + 1)) * u) by ring.
  replace ((4320 * 2 ^ 22 * (q + 1)) * u - d * u) with ((4320 * 2 ^ 22 * (q + 1) - d) * u) by ring.
  assert (4320 * 2 ^ 22 * (q + 1) <= (4320 * 2 ^ 22 * (q + 1) - d) * 2 ^ 52) as H1 by lia. nia.
Qed.

Lemma period_end_exact p : - 1 <= p <= 2 ^ 31 -> period_end p PERIOD_EPOCH = PERIOD_EPOCH + seconds ((p + 1) * PERIOD_SECONDS).
Proof.
  intros Hp. unfold period_end. rewrite epoch_seconds. unfold PERIOD_SECONDS, seconds, fadd.
  rewrite of_int_exact by lia. rewrite <- Z.mul_add_distr_r.
  pose proof (fone_grid 0 ltac:(lia)) as Hg. rewrite Z.pow_0_r, Z.mul_1_l in Hg. rewrite Hg. apply representable_scaled; lia.
Qed.

Lemma period_range t p : representable t -> PERIOD_EPOCH <= t < seconds (2 ^ 31) -> 0 <= p <= 2 ^ 31 ->
  p < period_of t PERIOD_EPOCH <-> period_end p PERIOD_EPOCH <= t.
Proof.
  intros Ht Hr Hp. rewrite period_of_exact, period_end_exact by (done || lia). pose proof fone_pos. unfold seconds, PERIOD_SECONDS in *.
  set (g := PERIOD_EPOCH) in *. pose proof (Z.div_mod (t - g) (4320 * fone) ltac:(lia)) as Hdiv.
  pose proof (Z.mod_pos_bound (t - g) (4320 * fone) ltac:(lia)) as Hm. set (q := (t - g) / (4320 * fone)) in *. split; intros; nia.
Qed.

(** ** Entry periods terminate *)

Definition count_in (e : Z) (l : list Z) : Z := Z.of_nat (length (filter (fun x => x = e) l)).

Lemma count_in_snoc e l x : count_in e (l ++ [x]) = count_in e l + (if decide (x = e) then 1 else 0).
Proof.
  unfold count_in. rewrite filter_app, length_app, filter_cons, filter_nil. case_decide; cbn; lia.
Qed.

Lemma count_in_pos e l : 0 < count_in e l -> e ∈ l.
Proof.
  unfold count_in. destruct (filter _ l) as [|x k] eqn:E; cbn; [lia|]. intros _.
  assert (x ∈ filter (fun x => x = e) l) as [-> ?]%list_elem_of_filter by (rewrite E; constructor). done.
Qed.

Lemma entries_taken_spec due entered e : due <= e -> default 0 (entries_taken due entered !! e) = count_in e entered.
Proof.
  intros He. unfold entries_taken. induction entered as [|x l IH] using rev_ind; [done|].
  rewrite foldl_app, count_in_snoc. cbn [foldl]. set (m := foldl _ ∅ l) in *. rewrite <- IH.
  destruct (Z.leb_spec due x) as [Hx|Hx].
  - destruct (decide (x = e)) as [->|Hd]; [by rewrite lookup_insert_eq|]. rewrite lookup_insert_ne by done. lia.
  - rewrite decide_False by lia. lia.
Qed.

Definition blocked (entered used : list Z) (per_period e : Z) : Prop := per_period <= count_in e entered \/ e ∈ used.

Lemma entry_loop_spec due entered used per_period fuel entry : due <= entry ->
  match entry_loop fuel (entries_taken due entered) (list_to_set used) per_period entry with
  | Some e => entry <= e /\ ~ blocked entered used per_period e /\ forall x, entry <= x < e -> blocked entered used per_period x
  | None => forall x, entry <= x < entry + Z.of_nat fuel -> blocked entered used per_period x
  end.
Proof.
  revert entry. induction fuel as [|fuel IH]; intros entry Hle; cbn [entry_loop]; [lia|].
  rewrite entries_taken_spec by done.
  assert ((per_period <=? count_in entry entered) || bool_decide (entry ∈ (list_to_set used : gset Z)) = true
          <-> blocked entered used per_period entry) as Hb.
  { unfold blocked. rewrite orb_true_iff, Z.leb_le, bool_decide_eq_true, elem_of_list_to_set. done. }
  destruct ((per_period <=? _) || _).
  - assert (blocked entered used per_period entry) as Hbl by by apply Hb. specialize (IH (entry + 1) ltac:(lia)).
    destruct (entry_loop _ _ _ _ _) as [e|].
    + destruct IH as (H1 & H2 & H3). split_and!; [lia|done|]. intros x Hx. destruct (decide (x = entry)) as [->|]; [done|].
      apply H3. lia.
    + intros x Hx. destruct (decide (x = entry)) as [->|]; [done|]. apply IH. lia.
  - split_and!; [lia|by intros Hbl%Hb|lia].
Qed.

Lemma entry_for_spec due entered used per_period : 0 < per_period ->
  exists e, entry_for due entered used per_period = Some e /\ due <= e /\ ~ blocked entered used per_period e /\
    forall x, due <= x < e -> blocked entered used per_period x.
Proof.
  intros Hpos. unfold entry_for. set (fuel := S _).
  pose proof (entry_loop_spec due entered used per_period fuel due ltac:(lia)) as Hspec.
  destruct (entry_loop _ _ _ _ _) as [e|]; [eauto|]. exfalso.
  assert (seqZ due (Z.of_nat fuel) ⊆+ entered ++ used) as Hsub.
  { apply NoDup_submseteq; [apply NoDup_seqZ|]. intros x [Hx1 Hx2]%elem_of_seqZ. apply elem_of_app.
    destruct (Hspec x) as [Hc|Hu]; [lia|left; apply count_in_pos; lia|by right]. }
  apply submseteq_length in Hsub. rewrite length_seqZ, length_app in Hsub. subst fuel. lia.
Qed.

(** ** Claims *)

(** A period is closed exactly when it ended before the bound.  For every clock
    reading between drand's genesis and 2038 the float arithmetic of [period_of]
    is exact, and a period is counted by [closed_through] exactly when its end is
    at or before both [now - slack] and the oldest undecided submission. *)
Theorem closed_through_exact (now slack : float) (oldest : option float) (p : Z) :
  let bound := match oldest with Some o => Z.min (fsub now slack) o | None => fsub now slack end in
  representable bound -> PERIOD_EPOCH <= bound < seconds (2 ^ 31) -> 0 <= p <= 2 ^ 31 ->
  period_of bound PERIOD_EPOCH = (bound - PERIOD_EPOCH) / seconds PERIOD_SECONDS /\
  (p <= closed_through now oldest PERIOD_EPOCH slack <->
   period_end p PERIOD_EPOCH <= fsub now slack /\ forall o, oldest = Some o -> period_end p PERIOD_EPOCH <= o).
Proof.
  intros bound Hrep Hr Hp. split; [by apply period_of_exact|].
  assert (p <= closed_through now oldest PERIOD_EPOCH slack <-> p < period_of bound PERIOD_EPOCH) as ->.
  { unfold closed_through. fold bound. lia. }
  rewrite period_range by done. unfold bound. destruct oldest as [o|].
  - rewrite Z.min_glb_iff. split.
    + intros [H1 H2]. split; [exact H1|]. intros o' E. injection E as <-. exact H2.
    + intros [H1 H2]. split; [exact H1|]. exact (H2 o eq_refl).
  - split; intros H1.
    + split; [exact H1|]. intros o' E. discriminate E.
    + exact (proj1 H1).
Qed.

Lemma closed_through_exact_witness :
  closed_through (of_int 1760000000) (Some (of_int 1759990000)) PERIOD_EPOCH (of_int 120) = 15551 /\
  period_end 15551 PERIOD_EPOCH <= of_int 1759990000.
Proof.
  assert (closed_through (of_int 1760000000) (Some (of_int 1759990000)) PERIOD_EPOCH (of_int 120) = 15551) as E
    by (vm_compute; reflexivity).
  split; [exact E|].
  destruct (closed_through_exact (of_int 1760000000) (of_int 120) (Some (of_int 1759990000)) 15551) as [_ [H _]].
  - vm_compute. reflexivity.
  - vm_compute. split; [discriminate|reflexivity].
  - lia.
  - rewrite E in H. destruct (H ltac:(lia)) as [_ H2]. apply H2. reflexivity.
Defined.

(** An archive always finds its entry period.  The search ends, on the first
    period from [due] on that holds fewer than [per_period] archives and none of
    the same work period; so no period ever holds more than [per_period]. *)
Theorem entry_for_exact (due : Z) (entered used : list Z) (per_period : Z) :
  0 < per_period ->
  exists e, entry_for due entered used per_period = Some e /\
    due <= e /\ count_in e entered < per_period /\ e ∉ used /\
    (forall x, due <= x < e -> per_period <= count_in x entered \/ x ∈ used) /\
    (forall x, (forall y, count_in y entered <= per_period) -> count_in x (entered ++ [e]) <= per_period).
Proof.
  intros Hpos. destruct (entry_for_spec due entered used per_period Hpos) as (e & He & Hle & Hfree & Hfirst).
  exists e. unfold blocked in Hfree. split_and!; [done|done|lia|tauto|exact Hfirst|].
  intros x Hall. rewrite count_in_snoc. case_decide as Hx; [subst x; lia|]. specialize (Hall x). lia.
Qed.

Lemma entry_for_exact_witness : entry_for 5 [5; 5; 6; 4] [6] 2 = Some 7.
Proof.
  destruct (entry_for_exact 5 [5; 5; 6; 4] [6] 2 ltac:(lia)) as (e & He & _).
  etrans; [exact He|]. vm_compute in He. congruence.
Defined.
