(* ===== verification/CorpusSettlement.v ===== *)
(** * CorpusSettlement: paying the closed periods of a corpus task, across crashes

    Models [validator/corpus_period_settlement.py] ([CorpusPeriodSettler]), the split of a
    period's pool ([rewards_for] of [validator/corpus_settlement.py]) and the archives of
    [infrastructure/corpus_period_store.py], over the periods of [Periods].

    The settler is the only writer of its job's settlement document and archives.  Every
    call to the bucket has a fate ([fault]): it succeeds, is lost before its effect, or
    takes effect and loses its answer; the last two raise and end the pass, as a crash does.
    The clock and the fates are functions of a counter, so a theorem over all of them covers
    every failure at every call.  A submission identifier is a hexadecimal digest; a sorted
    list of identifiers without repetitions is a [gset].  A hotkey is a string.  A task's
    guard is its owner's check that it serves the task.  The callbacks [on_settled] and
    [on_window] are recorded. *)

From S2P Require Import Prelude PyFloat Periods.

#[local] Open Scope Z_scope.

Definition ADMISSION_SLACK_SECONDS : float := of_int 420.

(** ** What a period's work earns *)

(** [d[key] = f(d.get(key, zero))] on a dict in insertion order. *)
Fixpoint bump {A} (key : string) (f : A -> A) (zero : A) (d : list (string * A)) : list (string * A) :=
  match d with
  | [] => [(key, f zero)]
  | (k, v) :: d' => if String.eqb k key then (k, f v) :: d' else (k, v) :: bump key f zero d'
  end.

Definition passed (v : json) : bool := py_truth (dict_get "passed" v).
Definition hotkey_of (v : json) : result string :=
  h ← item v "hotkey"; match h with VStr s => Ok s | _ => Raise TypeError end.
(** [int(v["token_count"])] *)
Definition token_count (v : json) : result Z := t ← item v "token_count"; to_int t.
(** [v.get("lease_price") is not None], of a verdict that passed. *)
Definition has_lease (v : json) : bool :=
  passed v && match dict_get "lease_price" v with VNone => false | _ => true end.

(** What a verdict on an auction job earned: its tokens at its lease's price less its debt. *)
Definition lease_value (v : json) : result float :=
  t ← token_count v;
  p ← to_float (dict_get "lease_price" v);
  d ← (let debit := dict_get "lease_debit" v in if py_truth debit then to_float debit else Ok 0);
  Ok (fsub (fmul (of_int t) p) d).

(** Add up by hotkey the verdicts that count. *)
Definition by_hotkey {A} (add : A -> A -> A) (zero : A) (counts : json -> bool) (worth : json -> result A)
    (verdicts : list json) : result (list (string * A)) :=
  fold_result (fun d v =>
    if counts v then h ← hotkey_of v; x ← worth v; Ok (bump h (fun y => add y x) zero d) else Ok d) [] verdicts.

(** [_priced_rewards] *)
Definition priced_rewards (verdicts : list json) (cap : float) : result (list (string * float)) :=
  earned ← by_hotkey fadd 0 has_lease lease_value verdicts;
  let earned := filter (fun hv : string * float => 0 < hv.2) earned in
  let total := py_sum earned.*2 in
  if total <=? 0 then Ok []
  else
    let scale := if 0 <? cap then Z.min fone (fdiv cap total) else 0 in
    Ok (filter (fun hv : string * float => 0 < hv.2) ((fun hv => (hv.1, fmul hv.2 scale)) <$> earned)).

Definition rewards_for (verdicts : list json) (cap : float) (price input_price : option float)
    : result (list (string * float)) :=
  if existsb has_lease verdicts then priced_rewards verdicts cap
  else match input_price, price with
  | Some i, Some p =>
      values ← by_hotkey fadd 0 passed (fun v => work_value v p i) verdicts;
      let whole := py_sum values.*2 in
      Ok (if whole <=? 0 then [] else (fun hv => (hv.1, fdiv (fmul cap hv.2) whole)) <$> values)
  | _, _ =>
      tokens ← by_hotkey Z.add 0 passed token_count verdicts;
      let total := Zsum tokens.*2 in
      Ok (if total <=? 0 then [] else (fun hv => (hv.1, fdiv (fmul cap (of_int hv.2)) (of_int total))) <$> tokens)
  end.

(** ** The bucket *)

Record totals := Totals { n_verdicts : Z; n_passed : Z; n_tokens : Z }.

(** [state["pending"]]: a payment recorded before its archive is written.  An older
    binary's has no cap, price or paid amount. *)
Record pending := Pending {
  work : Z; entry : Z; ids : list string; rewards : gmap string float; tokens : Z;
  p_totals : totals; p_period_tokens : Z;
  p_cap : option float; p_paid : option float;
  p_price : option (float * float);                    (* the price, the budget *)
  p_input : option (float * Z * float) }.               (* the input price, its tokens, the period's value *)

Definition enter (e : Z) (p : pending) : pending :=
  Pending (work p) e (ids p) (rewards p) (tokens p) (p_totals p) (p_period_tokens p) (p_cap p) (p_paid p) (p_price p) (p_input p).

Record settlement := Settlement {
  settled : gset string; pend : option pending; s_totals : option totals;
  period_tokens : gmap Z Z; period_value : gmap Z float; period_paid : gmap Z float; last_entry : option Z }.

Definition new_settlement : settlement := Settlement ∅ None None ∅ ∅ ∅ None.
Definition totals_of (s : settlement) : totals := default (Totals 0 0 0) (s_totals s).

(** The settlement document: settled by RL window, or by period. *)
Inductive state_doc := WindowState | PeriodState (s : settlement).

(** A period archive, its schema, task, job and mechanism left out. *)
Record document := Document {
  d_work : Z; d_entry : Z; d_rewards : gmap string float; d_tokens : Z; d_verdicts : Z;
  d_cap : option float; d_price : option (float * float); d_input : option (float * Z) }.

#[export] Instance document_eq_dec : EqDecision document.
Proof. solve_decision. Defined.

(** The job's part of the bucket; [version] stands for the ETag. *)
Record bucket := Bucket {
  verdicts : gmap string json; voided : gset string;
  doc : option state_doc; version : Z;
  archives : gmap (Z * Z) document }.

Definition etag (b : bucket) : option Z := match doc b with Some _ => Some (version b) | None => None end.

(** [write_settlement]: a conditional put. *)
Definition put_settlement (s : settlement) (et : option Z) (b : bucket) : result (option Z) * bucket :=
  if bool_decide (et = etag b)
  then (Ok (Some (version b + 1)), Bucket (verdicts b) (voided b) (Some (PeriodState s)) (version b + 1) (archives b))
  else (Raise RuntimeError, b).

(** [period_archive_key] *)
Definition archive_key (w e : Z) : result (Z * Z) := if (w <? 0) || (e <? w) then Raise ValueError else Ok (w, e).

Definition read_archive (w e : Z) (b : bucket) : result (option document) * bucket :=
  match archive_key w e with Ok k => (Ok (archives b !! k), b) | Raise x => (Raise x, b) end.

Definition put_archive (w e : Z) (d : document) (b : bucket) : result unit * bucket :=
  match archive_key w e with
  | Ok k => (Ok tt, Bucket (verdicts b) (voided b) (doc b) (version b) (<[k := d]> (archives b)))
  | Raise x => (Raise x, b)
  end.

(** [list_period_archives]: the keys, sorted. *)
Definition key_leb (k k' : Z * Z) : bool := (k.1 <? k'.1) || ((k.1 =? k'.1) && (k.2 <=? k'.2)).
Definition list_archives (b : bucket) : list (Z * Z) := isort key_leb (map_to_list (archives b)).*1.

(** ** The settler *)

Record open_row := OpenRow { o_verdicts : Z; o_passed : Z; o_tokens : Z }.

Record memory := Memory {
  cap : float; max_price : option float; max_input_price : option float;
  listed_at : option float; unsettled : gset string; fed : gmap string json;
  settled_count : option Z; m_totals : option totals;
  last_period : option (Z * float * Z);                    (* its work period, paid, verified tokens *)
  open_periods : option (gmap Z open_row); open_periods_at : option float;
  reported : list (list string); windows : list (Z * gmap string float) }.

(** [CorpusPeriodSettler(...)] *)
Definition new_settler (c : float) (price input : option float) : memory :=
  Memory c price input None ∅ ∅ None None None None None [] [].

Definition set_cap (c : float) (m : memory) : memory :=
  Memory c (max_price m) (max_input_price m) (listed_at m) (unsettled m) (fed m) (settled_count m) (m_totals m)
    (last_period m) (open_periods m) (open_periods_at m) (reported m) (windows m).
Definition set_max_price (p : option float) (m : memory) : memory :=
  Memory (cap m) p (max_input_price m) (listed_at m) (unsettled m) (fed m) (settled_count m) (m_totals m)
    (last_period m) (open_periods m) (open_periods_at m) (reported m) (windows m).
Definition set_max_input_price (p : option float) (m : memory) : memory :=
  Memory (cap m) (max_price m) p (listed_at m) (unsettled m) (fed m) (settled_count m) (m_totals m)
    (last_period m) (open_periods m) (open_periods_at m) (reported m) (windows m).
Definition set_feed (l : option float) (u : gset string) (f : gmap string json) (m : memory) : memory :=
  Memory (cap m) (max_price m) (max_input_price m) l u f (settled_count m) (m_totals m)
    (last_period m) (open_periods m) (open_periods_at m) (reported m) (windows m).
Definition set_open (o : option (gmap Z open_row)) (t : option float) (m : memory) : memory :=
  Memory (cap m) (max_price m) (max_input_price m) (listed_at m) (unsettled m) (fed m) (settled_count m) (m_totals m)
    (last_period m) o t (reported m) (windows m).
Definition set_report (n : option Z) (t : option totals) (l : option (Z * float * Z)) (r : list (list string)) (m : memory) : memory :=
  Memory (cap m) (max_price m) (max_input_price m) (listed_at m) (unsettled m) (fed m) n t l
    (open_periods m) (open_periods_at m) r (windows m).
Definition add_window (w : Z) (r : gmap string float) (m : memory) : memory :=
  Memory (cap m) (max_price m) (max_input_price m) (listed_at m) (unsettled m) (fed m) (settled_count m) (m_totals m)
    (last_period m) (open_periods m) (open_periods_at m) (reported m) (windows m ++ [(w, r)]).

(** [observe] *)
Definition observe (sid : string) (verdict : option json) (m : memory) : memory :=
  set_feed (listed_at m) ({[sid]} ∪ unsettled m)
    (match verdict with Some v => <[sid := v]> (fed m) | None => fed m end) m.

(** [oldest_of] *)
Definition oldest_of (sources : list (result (option float))) : result (option float) :=
  fold_result (fun best source => at_ ← source;
    Ok (match best, at_ with Some b, Some a => Some (Z.min b a) | Some b, None => Some b | None, a => a end)) None sources.

(** [undecided_since]: whether it is known, and the instant. *)
Definition undecided_since (oldest : result (option float)) : result (bool * option float) :=
  match oldest with
  | Raise LookupError => Ok (false, None)
  | Raise e => Raise e
  | Ok at_ => Ok (true, at_)
  end.

(** *** Programs: the clock and the bucket's calls counted *)

Inductive fault := Fine | Lost (e : exn) | Late (e : exn).

Record world := World { bkt : bucket; mem : memory; ticks : nat; calls : nat }.

Definition prog (A : Type) : Type := world -> result A * world.
#[export] Instance prog_ret : MRet prog := fun _ a w => (Ok a, w).
#[export] Instance prog_bind : MBind prog := fun _ _ f m w =>
  match m w with (Ok a, w') => f a w' | (Raise e, w') => (Raise e, w') end.

Definition modify (f : memory -> memory) : prog unit := fun w => (Ok tt, World (bkt w) (f (mem w)) (ticks w) (calls w)).
Definition memory_of : prog memory := fun w => (Ok (mem w), w).
Definition pure {A} (r : result A) : prog A := fun w => (r, w).

Section settler.
Context (clock : nat -> float) (fate : nat -> fault).
Context (genesis slack : float) (full_list_every : option float) (guard : result unit).

Definition now : prog float := fun w => (Ok (clock (ticks w)), World (bkt w) (mem w) (S (ticks w)) (calls w)).

Definition call {A} (f : bucket -> result A * bucket) : prog A := fun w =>
  let '(r, b) := f (bkt w) in
  match fate (calls w) with
  | Fine => (r, World b (mem w) (ticks w) (S (calls w)))
  | Lost e => (Raise e, World (bkt w) (mem w) (ticks w) (S (calls w)))
  | Late e => (Raise e, World b (mem w) (ticks w) (S (calls w)))
  end.

(** A call that only reads. *)
Definition ask {A} (f : bucket -> A) : prog A := call (fun b => (Ok (f b), b)).

(** [R2PeriodArchives.write] *)
Definition write_archive (w e : Z) (d : document) : prog unit :=
  _ ← pure guard;
  existing ← call (read_archive w e);
  match existing with
  | Some d' => if bool_decide (d' = d) then mret tt else pure (Raise RuntimeError)
  | None => call (put_archive w e d)
  end.

(** [_work_period] *)
Definition work_period (v : json) : result Z :=
  t ← to_float (match dict_get "received_at" v with VNone => dict_get "audited_at" v | at_ => at_ end);
  Ok (period_of t genesis).

(** [_count_open] *)
Definition count_open (sids : list string) (read : gmap string json) (void : gset string) : prog unit :=
  counts ← pure (fold_result (fun (c : gmap Z open_row) sid =>
    match read !! sid with
    | None => Ok c
    | Some v =>
        p ← work_period v;
        let row := default (OpenRow 0 0 0) (c !! p) in
        if passed v && bool_decide (sid ∉ void)
        then t ← count_of v "token_count"; Ok (<[p := OpenRow (o_verdicts row + 1) (o_passed row + 1) (o_tokens row + t)]> c)
        else Ok (<[p := OpenRow (o_verdicts row + 1) (o_passed row) (o_tokens row)]> c)
    end) ∅ sids);
  t ← now;
  modify (set_open (Some counts) (Some t)).

(** [self.open_periods, self.open_periods_at = {}, self._clock()] *)
Definition nothing_open : prog unit := t ← now; modify (set_open (Some ∅) (Some t)).
Definition pop_open (period : Z) : prog unit :=
  modify (fun m => set_open (delete period <$> open_periods m) (open_periods_at m) m).

(** [_verdict_ids] *)
Definition verdict_ids (done : gset string) : prog (list string) :=
  t ← now;
  m ← memory_of;
  let due := match full_list_every, listed_at m with
             | Some every, Some at_ => negb ((0 <=? fsub t at_) && (fsub t at_ <? every))
             | _, _ => true
             end in
  _ ← (if due then
         listed ← ask (fun b => dom (verdicts b));
         modify (fun m => set_feed (Some t) (unsettled m ∪ listed) (fed m) m)
       else mret tt);
  _ ← modify (fun m => set_feed (listed_at m) (unsettled m ∖ done) (filter (fun kv : string * json => kv.1 ∉ done) (fed m)) m);
  m ← memory_of;
  mret (isort String.leb (elements (unsettled m))).

(** [_verdicts]: the verdicts fed, and the others read; a failed read raises. *)
Fixpoint read_verdicts (sids : list string) : prog (gmap string json) :=
  match sids with
  | [] => mret ∅
  | sid :: sids =>
      m ← memory_of;
      v ← (match fed m !! sid with Some v => mret (Some v) | None => ask (fun b => verdicts b !! sid) end);
      read ← read_verdicts sids;
      mret (match v with Some v => <[sid := v]> read | None => read end)
  end.

(** [_report] *)
Definition last_paid (s : settlement) : option (Z * float * Z) :=
  match (map_to_list (period_paid s)).*1 with
  | [] => None
  | p :: ps => let last := foldr Z.max p ps in Some (last, default 0 (period_paid s !! last), default 0 (period_tokens s !! last))
  end.
Definition report (s : settlement) (sids : list string) : prog unit :=
  modify (fun m => set_report (Some (Z.of_nat (size (settled s)))) (s_totals s)
    (match last_paid s with Some l => Some l | None => last_period m end)
    (match sids with [] => reported m | _ => reported m ++ [sids] end) m).

(** [_add] *)
Definition add_totals (t : totals) (batch : list json) : result totals :=
  let ok := filter (fun v => passed v = true) batch in
  n ← fold_result (fun a v => x ← token_count v; Ok (a + x)) 0 ok;
  Ok (Totals (n_verdicts t + Z.of_nat (length batch)) (n_passed t + Z.of_nat (length ok)) (n_tokens t + n)).

(** [_archive] *)
Definition archive_of (p : pending) : document :=
  Document (work p) (entry p) (rewards p) (tokens p) (Z.of_nat (length (ids p))) (p_cap p) (p_price p)
    (match p_input p with Some (i, n, _) => Some (i, n) | None => None end).

(** [_entry] *)
Definition entry_at (w due : Z) : prog Z :=
  listed ← ask list_archives;
  mret (default due (entry_for due listed.*2 (filter (fun k : Z * Z => k.1 = w) listed).*2 CATCHUP_ENTRIES)).

(** *** Settling *)

Definition batch_of (void : gset string) (read : gmap string json) (sids : list string) : list json :=
  omap (fun sid => v ← read !! sid; Some (if bool_decide (sid ∈ void) then dict_set "passed" (VBool false) v else v)) sids.

(** [sum(int(v["token_count"]) for v in batch if v.get("passed"))] *)
Definition sum_tokens (batch : list json) : result Z :=
  fold_result (fun a v => x ← token_count v; Ok (a + x)) 0 (filter (fun v => passed v = true) batch).

(** What a closed period pays: nothing, or a pending archive but for its entry period. *)
Definition payment (m : memory) (s : settlement) (period : Z) (sids : list string) (batch : list json)
    (new_tokens : Z) (t : totals) : result (option pending) :=
  let earlier := default 0 (period_tokens s !! period) in
  let already := default (if earlier =? 0 then 0 else cap m) (period_paid s !! period) in
  let leased := existsb has_lease batch in
  let input_price := match max_price m with None => None | Some _ => if leased then None else max_input_price m end in
  priced ← match max_price m, input_price with
    | None, _ => Ok (fdiv (fmul (cap m) (of_int new_tokens)) (of_int (earlier + new_tokens)), None, None)
    | Some price, None =>
        let budget := period_budget (cap m) (Some price) (earlier + new_tokens) in
        Ok (Z.max 0 (fsub budget already), Some (price, budget), None)
    | Some price, Some input =>
        let ok := filter (fun v => passed v = true) batch in
        values ← mapM (fun v => work_value v price input) ok;
        inputs ← mapM (fun v => count_of v "prompt_token_count") ok;
        let value := fadd (default (fmul price (of_int earlier)) (period_value s !! period)) (py_sum values) in
        let budget := Z.min (cap m) value in
        Ok (Z.max 0 (fsub budget already), Some (price, budget), Some (input, Zsum inputs, value))
    end;
  let '(pool, price, input) := priced in
  if pool <=? 0 then Ok None
  else
    share ← rewards_for batch pool (max_price m) input_price;
    let paid := if leased then py_sum share.*2 else pool in
    Ok (Some (Pending period 0 sids (list_to_map (reverse share)) new_tokens t (earlier + new_tokens) (Some (cap m))
                (Some (fadd already paid)) price input)).

(** [pending] recorded in the state, and cleared from it once its archive is there. *)
Definition record_pending (p : pending) (s : settlement) : settlement :=
  Settlement (settled s) (Some p) (s_totals s) (period_tokens s) (period_value s) (period_paid s) (Some (entry p)).
Definition with_totals (t : totals) (s : settlement) : settlement :=
  Settlement (settled s) (pend s) (Some t) (period_tokens s) (period_value s) (period_paid s) (last_entry s).
Definition settle_ids (sids : list string) (t : totals) (s : settlement) : settlement :=
  Settlement (settled s ∪ list_to_set sids) (pend s) (Some t) (period_tokens s) (period_value s) (period_paid s) (last_entry s).
Definition finished (p : pending) (s : settlement) : settlement :=
  Settlement (settled s ∪ list_to_set (ids p)) None (Some (p_totals p)) (<[work p := p_period_tokens p]> (period_tokens s))
    (match p_input p with Some (_, _, v) => <[work p := v]> (period_value s) | None => period_value s end)
    (match p_paid p with Some x => <[work p := x]> (period_paid s) | None => period_paid s end)
    (last_entry s).

(** The archive, entered again when its entry period is under way. *)
Definition enter_again (s : settlement) (p : pending) (et : option Z) : prog (settlement * pending * option Z) :=
  t ← now;
  let due := period_of t genesis + 1 in
  if entry p <? due then
    e ← entry_at (work p) due;
    let p := enter e p in
    let s := record_pending p s in
    et ← call (put_settlement s et);
    mret (s, p, et)
  else mret (s, p, et).

(** [_finish] *)
Definition finish (s : settlement) (p : pending) (et : option Z) : prog Z :=
  written ← call (read_archive (work p) (entry p));
  '(s, p, et) ← match written with
    | Some _ => mret (s, p, et)
    | None => '(s, p, et) ← enter_again s p et; _ ← write_archive (work p) (entry p) (archive_of p); mret (s, p, et)
    end;
  let final := finished p s in
  _ ← call (put_settlement final et);
  _ ← report final (ids p);
  _ ← modify (add_window (work p) (rewards p));
  mret (work p).

(** Verdicts settled unpaid. *)
Definition settle_unpaid (period : Z) (sids : list string) (t : totals) (s : settlement) (et : option Z)
    : prog (settlement * option Z) :=
  let s := settle_ids sids t s in
  et ← call (put_settlement s et);
  _ ← report s sids;
  _ ← pop_open period;
  mret (s, et).

(** The state read back after a payment: the one just written. *)
Definition reload : prog (settlement * option Z) :=
  '(d, et) ← ask (fun b => (doc b, etag b));
  match d with Some (PeriodState s) => mret (s, et) | _ => pure (Raise KeyError) end.

(** One closed period. *)
Definition settle_period (at_ : float) (read : gmap string json) (void : gset string) (period : Z) (sids : list string)
    (s : settlement) (et : option Z) (last : option Z) : prog (settlement * option Z * option Z) :=
  let batch := batch_of void read sids in
  new_tokens ← pure (sum_tokens batch);
  t ← pure (add_totals (totals_of s) batch);
  m ← memory_of;
  if (new_tokens <=? 0) || (cap m <=? 0) then '(s, et) ← settle_unpaid period sids t s et; mret (s, et, last)
  else
    pay ← pure (payment m s period sids batch new_tokens t);
    match pay with
    | None => '(s, et) ← settle_unpaid period sids t s et; mret (s, et, last)
    | Some p =>
        e ← entry_at period (period_of at_ genesis + 1);
        let p := enter e p in
        let s := record_pending p s in
        et ← call (put_settlement s et);
        w ← finish s p et;
        _ ← pop_open period;
        '(s, et) ← reload;
        mret (s, et, Some w)
    end.

Fixpoint settle_periods (at_ : float) (read : gmap string json) (void : gset string) (todo : list (Z * list string))
    (s : settlement) (et : option Z) (last : option Z) : prog (option Z) :=
  match todo with
  | [] => mret last
  | (period, sids) :: todo =>
      '(s, et, last) ← settle_period at_ read void period sids s et last;
      settle_periods at_ read void todo s et last
  end.

(** The verdicts of closed periods, by period, oldest first. *)
Definition by_period (closed : Z) (read : gmap string json) (sids : list string) : result (list (Z * list string)) :=
  dated ← fold_result (fun l sid =>
    match read !! sid with
    | None => Ok l
    | Some v => p ← work_period v; Ok (if p <=? closed then l ++ [(p, sid)] else l)
    end) [] sids;
  Ok ((fun p => (p, (filter (fun d : Z * string => d.1 = p) dated).*2)) <$> isort Z.leb (remove_dups dated.*1)).

Definition settle_new (oldest : option float) (s : settlement) (et : option Z) (sids : list string) : prog (option Z) :=
  at_ ← now;
  let closed := closed_through at_ oldest genesis slack in
  read ← read_verdicts sids;
  void ← ask voided;
  _ ← count_open sids read void;
  todo ← pure (by_period closed read sids);
  settle_periods at_ read void todo s et None.

(** [settle_once] once the state is read: finish what is pending, or settle what is new.
    [oldest] is what [oldest_pending] answers, [ready] the grader. *)
Definition settle_from (oldest : result (option float)) (ready : option (list string -> result (gset string)))
    (s : settlement) (et : option Z) : prog (option Z) :=
  _ ← report s [];
  match pend s with
  | Some p => w ← finish s p et; mret (Some w)
  | None =>
      sids ← verdict_ids (settled s);
      if bool_decide (sids = []) then _ ← nothing_open; mret None
      else match oldest with
      | Raise LookupError => mret None
      | Raise e => pure (Raise e)
      | Ok oldest =>
          match ready with
          | None => settle_new oldest s et sids
          | Some ready =>
              payable ← pure (ready sids);
              let sids := filter (fun sid => sid ∈ payable) sids in
              if bool_decide (sids = []) then _ ← nothing_open; mret None
              else settle_new oldest s et sids
          end
      end
  end.

Definition settle_once (oldest : result (option float)) (ready : option (list string -> result (gset string)))
    : prog (option Z) :=
  '(d, et) ← ask (fun b => (doc b, etag b));
  match d with
  | Some WindowState => mret None
  | Some (PeriodState s) => settle_from oldest ready (with_totals (totals_of s) s) et
  | None => settle_from oldest ready (with_totals (Totals 0 0 0) new_settlement) et
  end.
End settler.

(** ** Weakest preconditions

    [wp m Q E w]: from [w] the program returns with [Q], or raises with [E]. *)

Definition wp {A} (m : prog A) (Q : A -> world -> Prop) (E : world -> Prop) (w : world) : Prop :=
  match m w with (Ok a, w') => Q a w' | (Raise _, w') => E w' end.

Lemma wp_ret {A} (a : A) Q E w : Q a w -> wp (mret a) Q E w.
Proof. done. Qed.
Lemma wp_bind {A B} (m : prog A) (k : A -> prog B) Q E w : wp m (fun a w' => wp (k a) Q E w') E w -> wp (m ≫= k) Q E w.
Proof. unfold wp, mbind, prog_bind. by destruct (m w) as [[a|e] w']. Qed.
Lemma wp_pure {A} (r : result A) Q (E : world -> Prop) w : (forall a, r = Ok a -> Q a w) -> (forall e, r = Raise e -> E w) -> wp (pure r) Q E w.
Proof. unfold wp, pure. destruct r; eauto. Qed.
Lemma wp_pure_ok {A} (r : result A) a Q E w : r = Ok a -> Q a w -> wp (pure r) Q E w.
Proof. by intros ->. Qed.
Lemma wp_modify f Q E w : Q tt (World (bkt w) (f (mem w)) (ticks w) (calls w)) -> wp (modify f) Q E w.
Proof. done. Qed.
Lemma wp_memory Q E w : Q (mem w) w -> wp memory_of Q E w.
Proof. done. Qed.
Lemma wp_weaken {A} (m : prog A) (Q Q' : A -> world -> Prop) (E E' : world -> Prop) w :
  wp m Q E w -> (forall a w', Q a w' -> Q' a w') -> (forall w', E w' -> E' w') -> wp m Q' E' w.
Proof. unfold wp. destruct (m w) as [[a|e] w']; eauto. Qed.
Lemma wp_now clock Q E w : Q (clock (ticks w)) (World (bkt w) (mem w) (S (ticks w)) (calls w)) -> wp (now clock) Q E w.
Proof. done. Qed.

(** A call: what it does to the bucket may happen, or not, before the pass ends. *)
Lemma wp_call {A} fate (f : bucket -> result A * bucket) (Q : A -> world -> Prop) (E : world -> Prop) w :
  let next b := World b (mem w) (ticks w) (S (calls w)) in
  match f (bkt w) with
  | (Ok a, b) => Q a (next b) /\ (fate (calls w) <> Fine -> E (next b) /\ E (next (bkt w)))
  | (Raise _, b) => E (next b) /\ (fate (calls w) <> Fine -> E (next (bkt w)))
  end -> wp (call fate f) Q E w.
Proof.
  cbv zeta. unfold wp, call. destruct (f (bkt w)) as [[a|x] b]; destruct (fate (calls w)) eqn:F; try tauto.
  all: intros [? H]; try (apply H; congruence); destruct H; done.
Qed.

Lemma wp_ask {A} fate (f : bucket -> A) (Q : A -> world -> Prop) (E : world -> Prop) w :
  let next := World (bkt w) (mem w) (ticks w) (S (calls w)) in
  Q (f (bkt w)) next -> (fate (calls w) <> Fine -> E next) -> wp (ask fate f) Q E w.
Proof. intros next HQ HE. apply wp_call. split; [done|]. by split; apply HE. Qed.

(** ** Sums over sets of submissions *)

Definition set_sum (f : string -> Z) (X : gset string) : Z := Zsum (f <$> elements X).

Lemma set_sum_empty f : set_sum f ∅ = 0.
Proof. unfold set_sum. by rewrite elements_empty. Qed.
Lemma set_sum_list f (l : list string) : NoDup l -> set_sum f (list_to_set l) = Zsum (f <$> l).
Proof. intros H. unfold set_sum. by rewrite elements_list_to_set. Qed.
Lemma set_sum_union f X Y : X ## Y -> set_sum f (X ∪ Y) = set_sum f X + set_sum f Y.
Proof. intros H. unfold set_sum. by rewrite elements_disj_union, fmap_app, Zsum_app. Qed.
Lemma set_sum_mono f g X Y : X ⊆ Y -> (forall x, x ∈ X -> f x <= g x) -> (forall x, 0 <= g x) -> set_sum f X <= set_sum g Y.
Proof.
  intros HX Hf Hg. rewrite (union_difference_L X Y HX), set_sum_union by set_solver.
  assert (set_sum f X <= set_sum g X) by (apply Zsum_le; intros x Hx; apply Hf; by apply elem_of_elements).
  assert (0 <= set_sum g (Y ∖ X)); [|lia].
  apply Zsum_nonneg, Forall_fmap, Forall_forall. intros x _. apply Hg.
Qed.

(** ** The books

    What the settlement document and the archives say of one another. *)

Section books.
Context (genesis : float).

(** A verdict as the auditor writes it. *)
Definition ok_val {A} (P : A -> Prop) (r : result A) : Prop := exists a, r = Ok a /\ P a.
Record verdict_ok (v : json) : Prop := {
  dated : ok_val (fun p => 0 <= p) (work_period genesis v);
  counted : ok_val (fun n => 0 <= n) (token_count v);
  named : ok_val (fun _ => True) (hotkey_of v);
  leased : has_lease v = true -> ok_val (fun _ => True) (lease_value v);
  or_zero : forall name, name = "token_count" \/ name = "prompt_token_count" -> ok_val (fun _ => True) (count_of v name) }.

(** The tokens of a submission that passed, received in period [p]. *)
Definition worth_of (p : Z) (v : json) : Z :=
  if passed v && bool_decide (work_period genesis v = Ok p) then match token_count v with Ok n => n | Raise _ => 0 end else 0.
Definition worth (b : bucket) (p : Z) (sid : string) : Z := from_option (worth_of p) 0 (verdicts b !! sid).

Definition state_of (b : bucket) : settlement := match doc b with Some (PeriodState s) => s | _ => new_settlement end.
Definition recorded (s : settlement) (p : Z) : Z := default 0 (period_tokens s !! p).
Definition entries (b : bucket) : list Z := (map_to_list (archives b)).*1.*2.

(** The tokens period [p]'s archives pay for. *)
Definition archived (b : bucket) (p : Z) : Z := map_sum (fun k d => if k.1 =? p then d_tokens d else 0) (archives b).
(** Those of an archive written and not yet booked. *)
Definition in_flight (b : bucket) (s : settlement) (p : Z) : Z :=
  match pend s with
  | Some x => if (work x =? p) && bool_decide (is_Some (archives b !! (work x, entry x))) then tokens x else 0
  | None => 0
  end.
Definition pending_tokens (s : settlement) (p : Z) : Z :=
  match pend s with Some x => if work x =? p then tokens x else 0 | None => 0 end.
Definition pending_ids (s : settlement) : gset string := match pend s with Some x => list_to_set (ids x) | None => ∅ end.

Record pending_ok (b : bucket) (s : settlement) (p : pending) : Prop := {
  pending_order : 0 <= work p <= entry p;
  pending_positive : 0 < tokens p;
  pending_total : p_period_tokens p = recorded s (work p) + tokens p;
  pending_fresh : (list_to_set (ids p) : gset string) ## settled s;
  pending_archive : match archives b !! (work p, entry p) with
                    | Some d => d = archive_of p
                    | None => count_in (entry p) (entries b) < CATCHUP_ENTRIES
                    end }.

Record books_ok (b : bucket) (s : settlement) : Prop := {
  ok_verdicts : forall sid v, verdicts b !! sid = Some v -> verdict_ok v;
  ok_balance : forall p, archived b p = recorded s p + in_flight b s p;
  ok_pending : forall p, pend s = Some p -> pending_ok b s p;
  ok_worth : forall p, recorded s p + pending_tokens s p <= set_sum (worth b p) (settled s ∪ pending_ids s);
  ok_recorded : forall p, 0 <= recorded s p;
  ok_entries : forall e, count_in e (entries b) <= CATCHUP_ENTRIES }.

Lemma worth_nonneg b p sid : (forall v, verdicts b !! sid = Some v -> verdict_ok v) -> 0 <= worth b p sid.
Proof.
  intros H. unfold worth. destruct (verdicts b !! sid) as [v|] eqn:E; cbn; [|lia]. unfold worth_of.
  destruct (counted v (H v eq_refl)) as (n & -> & Hn). by case_match.
Qed.
End books.

(** *** What each write does to the books *)

Definition same_books (s s' : settlement) : Prop :=
  settled s = settled s' /\ pend s = pend s' /\ period_tokens s = period_tokens s'.

#[export] Instance same_books_equiv : Equivalence same_books.
Proof. unfold same_books. split; [by intros s|by intros s s' (?&?&?)|intros s1 s2 s3 (?&?&?) (?&?&?); split_and!; congruence]. Qed.

Section books_lemmas.
Context (genesis : float).

Lemma count_in_perm e l k : l ≡ₚ k -> count_in e l = count_in e k.
Proof. intros H. unfold count_in. by rewrite H. Qed.

#[export] Instance books_ok_proper b : Proper (same_books ==> iff) (books_ok genesis b).
Proof.
  assert (forall s s', same_books s s' -> books_ok genesis b s -> books_ok genesis b s') as H; [|intros s s' E; split; apply H; [done|by symmetry]].
  intros s s' (Es & Ep & Et) [Hv Hb Hp Hw Hr He]. split; try done.
  - intros p. rewrite (Hb p). unfold recorded, in_flight. by rewrite Ep, Et.
  - intros p Hp'. rewrite <- Ep in Hp'. destruct (Hp p Hp') as [? ? ? ? ?]. split; [done|done|by unfold recorded; rewrite <- Et|by rewrite <- Es|done].
  - intros p. specialize (Hw p). unfold recorded, pending_tokens, pending_ids in *. by rewrite <- Es, <- Ep, <- Et.
  - intros p. unfold recorded. rewrite <- Et. apply Hr.
Qed.

Lemma books_frame b b' s : verdicts b' = verdicts b -> archives b' = archives b -> books_ok genesis b s -> books_ok genesis b' s.
Proof.
  intros Ev Ea [Hv Hb Hp Hw Hr He].
  assert (forall p sid, worth genesis b' p sid = worth genesis b p sid) as Ew by (intros p sid; unfold worth; by rewrite Ev).
  assert (entries b' = entries b) as Ee by (unfold entries; by rewrite Ea).
  split; [by rewrite Ev| | |intros p; unfold set_sum; rewrite (Zsum_ext_eq _ (worth genesis b p)) by done; apply Hw|done|by rewrite Ee].
  - intros p. unfold archived, in_flight in *. rewrite Ea. apply Hb.
  - intros p Hp'. destruct (Hp p Hp'). split; try done. by rewrite Ea, Ee.
Qed.

Lemma lookup_entries b w e d : archives b !! (w, e) = Some d -> e ∈ entries b.
Proof. intros H. unfold entries. apply list_elem_of_fmap. exists (w, e). split; [done|]. apply list_elem_of_fmap. exists ((w, e), d). by rewrite elem_of_map_to_list. Qed.

Lemma worth_mono b s p X Y : books_ok genesis b s -> X ⊆ Y -> set_sum (worth genesis b p) X <= set_sum (worth genesis b p) Y.
Proof. intros H HX. apply set_sum_mono; [done|done|]. intros x. apply worth_nonneg. intros v. apply (ok_verdicts _ _ _ H). Qed.

(** A payment recorded, recorded again at a later entry, its archive written, booked. *)
Lemma books_record b s p : books_ok genesis b s -> pend s = None -> pending_ok b s p -> archives b !! (work p, entry p) = None ->
  tokens p <= set_sum (worth genesis b (work p)) (list_to_set (ids p)) -> books_ok genesis b (record_pending p s).
Proof.
  intros Hok Hn Hp Hno Hle. pose proof Hok as [Hv Hb _ Hw Hr He]. split; try done.
  - intros x. rewrite (Hb x). unfold in_flight. cbn [record_pending pend]. rewrite Hn, Hno.
    rewrite andb_comm, bool_decide_false by (intros [? [=]]). done.
  - intros p' [= <-]. destruct Hp. by split.
  - intros x. pose proof (Hw x) as Hx. unfold pending_tokens, pending_ids in *. rewrite Hn in Hx. cbn [record_pending pend settled].
    change (recorded (record_pending p s) x) with (recorded s x). rewrite Z.add_0_r, union_empty_r_L in Hx.
    rewrite set_sum_union by (symmetry; apply (pending_fresh _ _ _ Hp)).
    destruct (Z.eqb_spec (work p) x) as [<-|Hne]; [lia|].
    pose proof (worth_mono b s x ∅ (list_to_set (ids p)) Hok ltac:(set_solver)) as H0. rewrite set_sum_empty in H0. lia.
Qed.

Lemma books_reenter b s p e : books_ok genesis b s -> pend s = Some p -> entry p <= e ->
  archives b !! (work p, entry p) = None -> archives b !! (work p, e) = None -> count_in e (entries b) < CATCHUP_ENTRIES ->
  books_ok genesis b (record_pending (enter e p) s).
Proof.
  intros Hok Hp He Hno Hno' Hc. pose proof Hok as [Hv Hb Hpend Hw Hr Hent]. split; try done.
  - intros x. rewrite (Hb x). unfold in_flight. cbn [record_pending enter pend work entry]. rewrite Hp, Hno, Hno'.
    by rewrite !(andb_comm _ (bool_decide _)), !bool_decide_false by (intros [? [=]]).
  - intros p' [= <-]. destruct (Hpend p Hp) as [Ho ? ? ? ?]. split; cbn; [lia|done|done|done|]. by rewrite Hno'.
  - intros x. specialize (Hw x). unfold pending_tokens, pending_ids in *. by rewrite Hp in Hw.
Qed.

Lemma put_archive_ok b s p : pending_ok b s p -> put_archive (work p) (entry p) (archive_of p) b =
  (Ok tt, Bucket (verdicts b) (voided b) (doc b) (version b) (<[(work p, entry p) := archive_of p]> (archives b))).
Proof.
  intros Hp. unfold put_archive, archive_key. destruct (pending_order _ _ _ Hp).
  by replace ((work p <? 0) || (entry p <? work p)) with false by (symmetry; apply orb_false_iff; lia).
Qed.

Lemma books_write b s p : books_ok genesis b s -> pend s = Some p -> archives b !! (work p, entry p) = None ->
  books_ok genesis (put_archive (work p) (entry p) (archive_of p) b).2 s.
Proof.
  intros Hok Hp Hno. pose proof Hok as [Hv Hb Hpend Hw Hr Hent]. pose proof (Hpend p Hp) as Hpok. rewrite (put_archive_ok b s p Hpok). cbn [snd].
  set (b' := Bucket _ _ _ _ _). assert (Hperm : entries b' ≡ₚ entry p :: entries b).
  { unfold entries, b'. cbn. by rewrite (map_to_list_insert _ _ _ Hno). }
  assert (Hnew : is_Some (archives b' !! (work p, entry p))) by (cbn; rewrite lookup_insert_eq; eauto).
  split; try done.
  - intros x. unfold archived, b'. cbn [archives]. rewrite map_sum_insert_new by done. cbn [fst].
    pose proof (Hb x) as Hx. unfold archived in Hx. rewrite Hx. unfold in_flight. rewrite Hp, Hno.
    rewrite (andb_comm _ (bool_decide (is_Some None))), (bool_decide_false (is_Some None)) by (intros [? [=]]).
    rewrite (bool_decide_true _ Hnew), andb_true_r. cbn [andb]. change (d_tokens (archive_of p)) with (tokens p). case_match; lia.
  - intros p' Hp'. assert (p' = p) as -> by congruence. destruct Hpok. split; try done. cbn. by rewrite lookup_insert_eq.
  - intros e. rewrite (count_in_perm _ _ _ Hperm). pose proof (pending_archive _ _ _ Hpok) as Hc. rewrite Hno in Hc.
    unfold count_in in *. rewrite filter_cons. case_decide as E; [|apply Hent]. subst e. cbn [length]. lia.
Qed.

Lemma books_finish b s p : books_ok genesis b s -> pend s = Some p -> is_Some (archives b !! (work p, entry p)) ->
  books_ok genesis b (finished p s).
Proof.
  intros Hok Hp His. pose proof Hok as [Hv Hb Hpend Hw Hr Hent]. pose proof (Hpend p Hp) as Hpok.
  assert (forall x, recorded (finished p s) x = recorded s x + pending_tokens s x) as Er.
  { intros x. unfold recorded, pending_tokens. cbn [finished period_tokens]. rewrite Hp.
    destruct (Z.eqb_spec (work p) x) as [<-|Hne]; [rewrite lookup_insert_eq; cbn; apply (pending_total _ _ _ Hpok)|rewrite lookup_insert_ne by done; lia]. }
  assert (forall x, 0 <= pending_tokens s x) as Hpos.
  { intros x. unfold pending_tokens. rewrite Hp. case_match; [|done]. apply Z.lt_le_incl, (pending_positive _ _ _ Hpok). }
  split; try done.
  - intros x. rewrite Er, (Hb x). unfold in_flight, pending_tokens. cbn [finished pend]. rewrite Hp, (bool_decide_true _ His), andb_true_r.
    lia.
  - intros x. rewrite Er. specialize (Hw x). unfold pending_ids in *. cbn [finished pend settled]. rewrite Hp in Hw.
    rewrite union_empty_r_L. change (pending_tokens (finished p s) x) with 0. lia.
  - intros x. rewrite Er. specialize (Hr x). specialize (Hpos x). lia.
Qed.

Lemma books_settle b s sids t : books_ok genesis b s -> pend s = None -> books_ok genesis b (settle_ids sids t s).
Proof.
  intros Hok Hp. pose proof Hok as [Hv Hb Hpend Hw Hr Hent]. split; try done.
  - intros p' Hp'. cbn in Hp'. congruence.
  - intros x. specialize (Hw x). unfold pending_tokens, pending_ids in *. cbn [settle_ids pend settled]. rewrite Hp in *.
    change (recorded (settle_ids sids t s) x) with (recorded s x). etrans; [exact Hw|].
    apply (worth_mono b s); [done|]. set_solver.
Qed.
End books_lemmas.

(** *** Nothing a well-formed verdict holds raises *)

Section computing.
Context (genesis : float).

Lemma fold_result_ok {A B} (f : A -> B -> result A) (P : A -> Prop) (l : list B) a :
  P a -> (forall a b, P a -> b ∈ l -> ok_val P (f a b)) -> ok_val P (fold_result f a l).
Proof.
  revert a. induction l as [|b l IH]; intros a Ha H; cbn; [by exists a|].
  destruct (H a b Ha ltac:(set_solver)) as (a' & -> & Ha'). cbn. apply IH; [done|]. intros x y Hx Hy. apply H; [done|set_solver].
Qed.

Lemma mapM_answers {A B} (f : A -> result B) (l : list A) : (forall x, x ∈ l -> ok_val (fun _ => True) (f x)) -> ok_val (fun _ => True) (mapM f l).
Proof.
  induction l as [|x l IH]; intros H; cbn; [by eexists|]. destruct (H x ltac:(set_solver)) as (y & -> & _).
  destruct IH as (ys & -> & _); [intros z Hz; apply H; set_solver|]. cbn. by eexists.
Qed.

Definition batch_ok (batch : list json) : Prop := forall v, v ∈ batch -> passed v = true -> verdict_ok genesis v.

Lemma batch_elem void read sids v : v ∈ batch_of void read sids -> passed v = true -> exists sid, sid ∈ sids /\ read !! sid = Some v.
Proof.
  unfold batch_of. rewrite list_elem_of_omap. intros (sid & Hs & Hv) Hp. destruct (read !! sid) as [u|] eqn:E; cbn in Hv; [|done].
  injection Hv as <-. case_match; [|eauto]. unfold passed in Hp. by rewrite dict_get_set in Hp.
Qed.

Lemma batch_wf (b : bucket) void read sids : (forall sid v, verdicts b !! sid = Some v -> verdict_ok genesis v) -> read ⊆ verdicts b ->
  batch_ok (batch_of void read sids).
Proof. intros Hv Hr v Hin Hp. destruct (batch_elem _ _ _ _ Hin Hp) as (sid & _ & E). exact (Hv sid v (lookup_weaken _ _ _ _ E Hr)). Qed.

(** The tokens a batch pays for are its submissions'. *)
Lemma sum_tokens_cons v batch n : verdict_ok genesis v -> sum_tokens batch = Ok n ->
  sum_tokens (v :: batch) = Ok (if passed v then n + match token_count v with Ok x => x | Raise _ => 0 end else n).
Proof.
  intros Hv. unfold sum_tokens. rewrite filter_cons. destruct (passed v) eqn:E; [|by rewrite decide_False].
  rewrite decide_True by done. destruct (counted _ _ Hv) as (x & Ex & _). rewrite Ex.
  set (f := fun (a : Z) (v : json) => _). intros H. assert (f 0 v = Ok (0 + x)) as E0 by (unfold f; by rewrite Ex).
  assert (forall l a c n, fold_result f a l = Ok n -> fold_result f (a + c) l = Ok (n + c)) as Hshift.
  { intros l. induction l as [|u l IH]; intros a c m; cbn [fold_result]; [by intros [= ->]|].
    assert (forall x, f x u = (y ← token_count u; Ok (x + y))) as Ef by done. rewrite !Ef. destruct (token_count u) as [y|]; cbn [mbind result_bind]; [|done].
    intros Hm. replace (a + c + y) with (a + y + c) by lia. by apply IH. }
  cbn [fold_result]. rewrite E0. exact (Hshift _ 0 x n H).
Qed.

Lemma batch_tokens (b : bucket) void read p sids :
  (forall sid v, verdicts b !! sid = Some v -> verdict_ok genesis v) -> read ⊆ verdicts b ->
  (forall sid v, sid ∈ sids -> read !! sid = Some v -> work_period genesis v = Ok p) ->
  exists n, sum_tokens (batch_of void read sids) = Ok n /\ 0 <= n <= Zsum (worth genesis b p <$> sids).
Proof.
  intros Hv Hr. induction sids as [|sid sids IH]; intros Hp; [exists 0; split; [done|cbn; lia]|].
  destruct IH as (n & En & Hn); [intros x v Hx; apply Hp; set_solver|].
  assert (0 <= worth genesis b p sid) as Hw by (apply worth_nonneg; intros v; apply Hv).
  unfold batch_of. cbn [omap list_omap]. fold (batch_of void read sids). cbn [fmap list_fmap]. change (Zsum (?x :: ?l)) with (x + Zsum l).
  destruct (read !! sid) as [v|] eqn:E; [|exists n; split; [exact En|cbn; lia]].
  pose proof (lookup_weaken _ _ _ _ E Hr) as Ev. pose proof (Hv sid v Ev) as Hok. cbn [mbind option_bind].
  destruct (bool_decide (sid ∈ void)).
  - exists n. split; [|change (0 <= n <= worth genesis b p sid + Zsum (worth genesis b p <$> sids)); lia].
    unfold sum_tokens in *. rewrite filter_cons, decide_False; [exact En|]. unfold passed. by rewrite dict_get_set.
  - eexists. split; [exact (sum_tokens_cons v _ n Hok En)|].
    change (Zsum (worth genesis b p <$> sid :: sids)) with (worth genesis b p sid + Zsum (worth genesis b p <$> sids)).
    destruct (counted _ _ Hok) as (x & Ex & Hx). rewrite Ex.
    assert (worth genesis b p sid = if passed v then x else 0) as Ewo.
    { unfold worth. rewrite Ev. cbn. unfold worth_of. by rewrite bool_decide_true, andb_true_r, Ex by (apply (Hp sid v); [set_solver|done]). }
    rewrite Ewo in Hw |- *. destruct (passed v); lia.
Qed.

Lemma filter_passed (batch : list json) v : v ∈ filter (fun v => passed v = true) batch -> passed v = true /\ v ∈ batch.
Proof. by intros [? ?]%list_elem_of_filter. Qed.

Lemma add_totals_ok t batch : batch_ok batch -> ok_val (fun _ => True) (add_totals t batch).
Proof.
  intros Hb. unfold add_totals. set (f := fun (a : Z) (v : json) => _).
  destruct (fold_result_ok f (fun _ => True) (filter (fun v => passed v = true) batch) 0 I) as (n & -> & _); [|by eexists].
  intros a v _ [Hp Hv]%filter_passed. unfold f. destruct (counted _ _ (Hb v Hv Hp)) as (x & -> & _). by eexists.
Qed.

Lemma by_hotkey_ok {A} (add : A -> A -> A) zero counts worth_ batch : batch_ok batch ->
  (forall v, counts v = true -> passed v = true) -> (forall v, v ∈ batch -> counts v = true -> ok_val (fun _ => True) (worth_ v)) ->
  ok_val (fun _ => True) (by_hotkey add zero counts worth_ batch).
Proof.
  intros Hb Hc Hw. apply fold_result_ok; [done|]. intros d v _ Hv. destruct (counts v) eqn:E; [|by eexists].
  destruct (named _ _ (Hb v Hv (Hc v E))) as (h & -> & _). destruct (Hw v Hv E) as (x & -> & _). by eexists.
Qed.

Lemma has_lease_passed v : has_lease v = true -> passed v = true.
Proof. unfold has_lease. by intros [? _]%andb_true_iff. Qed.

Lemma work_value_ok v price input : verdict_ok genesis v -> ok_val (fun _ => True) (work_value v price input).
Proof.
  intros Hv. unfold work_value. destruct (or_zero _ _ Hv "token_count") as (x & -> & _); [by left|].
  destruct (or_zero _ _ Hv "prompt_token_count") as (y & -> & _); [by right|]. by eexists.
Qed.

Lemma rewards_for_ok batch pool price input : batch_ok batch -> ok_val (fun _ => True) (rewards_for batch pool price input).
Proof.
  intros Hb. unfold rewards_for, priced_rewards. case_match.
  - destruct (by_hotkey_ok fadd 0 has_lease lease_value batch Hb has_lease_passed) as (d & -> & _).
    + intros v Hv Hl. by apply (leased _ _ (Hb v Hv (has_lease_passed v Hl))).
    + cbn. case_match; by eexists.
  - assert (forall A (w : json -> result A) add zero, (forall v, verdict_ok genesis v -> ok_val (fun _ => True) (w v)) ->
      ok_val (fun _ => True) (by_hotkey add zero passed w batch)) as Hany.
    { intros A w add zero Hw. apply by_hotkey_ok; [done|done|]. intros v Hv Hp. by apply Hw, Hb. }
    destruct (Hany Z token_count Z.add 0) as (d & E & _); [intros v Hv; destruct (counted _ _ Hv) as (x & -> & _); by eexists|].
    destruct input as [i|], price as [p|]; try (rewrite E; by eexists).
    destruct (Hany float (fun v => work_value v p i) fadd 0) as (d' & -> & _); [|by eexists]. intros v Hv. by apply work_value_ok.
Qed.

Lemma payment_ok m s period sids batch n t : batch_ok batch ->
  ok_val (fun r => forall p, r = Some p -> work p = period /\ ids p = sids /\ tokens p = n /\ p_period_tokens p = recorded s period + n /\ p_totals p = t)
    (payment m s period sids batch n t).
Proof.
  intros Hb. unfold payment. set (input := match max_price m with None => _ | Some _ => _ end).
  set (priced := match max_price m with None => _ | Some _ => _ end).
  assert (ok_val (fun _ => True) priced) as (((pool & price) & inp) & -> & _).
  { unfold priced. destruct (max_price m) as [price|]; [|by eexists]. destruct input as [i|]; [|by eexists].
    assert (forall v, v ∈ filter (fun v => passed v = true) batch -> verdict_ok genesis v) as Hv by (intros v [? ?]%filter_passed; by apply Hb).
    destruct (mapM_answers (fun v => work_value v price i) (filter (fun v => passed v = true) batch)) as (vs & -> & _); [intros v H; by apply work_value_ok, Hv|].
    destruct (mapM_answers (fun v => count_of v "prompt_token_count") (filter (fun v => passed v = true) batch)) as (inputs & -> & _); [|by eexists].
    intros v H. apply (or_zero _ _ (Hv v H)). by right. }
  cbn [mbind result_bind]. destruct (pool <=? 0); [by eexists|].
  destruct (rewards_for_ok batch pool (max_price m) input Hb) as (share & -> & _). eexists. split; [done|].
  intros p [= <-]. done.
Qed.
End computing.

(** ** A pass, call by call

    [w0] is the world at the start of the pass; [blame] is what a pass that raises owes
    to: at least a call that failed. *)

Section pass.
Context (clock : nat -> float) (fate : nat -> fault) (genesis slack : float) (every : option float) (guard : result unit).
Context (w0 : world) (blame : Prop).
Hypothesis Hclock : forall n, representable (clock n).
Hypothesis Hslack : 0 <= slack.
Hypothesis Hblame : forall n, (calls w0 <= n)%nat -> fate n <> Fine -> blame.
Hypothesis Hguard : guard = Ok tt \/ blame.

(** The books are in order and the memory holds only verdicts of the bucket. *)
Definition sound (w : world) : Prop :=
  books_ok genesis (bkt w) (state_of (bkt w)) /\
  forall sid v, fed (mem w) !! sid = Some v -> verdicts (bkt w) !! sid = Some v.

(** Instant [t] was read during the pass, before [w]. *)
Definition seen (t : float) (w : world) : Prop := exists n, t = clock n /\ (ticks w0 <= n < ticks w)%nat.

Record grew (w : world) : Prop := {
  grew_verdicts : verdicts (bkt w) = verdicts (bkt w0);
  grew_voided : voided (bkt w) = voided (bkt w0);
  grew_archives : archives (bkt w0) ⊆ archives (bkt w);
  grew_settled : settled (state_of (bkt w0)) ⊆ settled (state_of (bkt w));
  grew_ticks : (ticks w0 <= ticks w)%nat;
  grew_calls : (calls w0 <= calls w)%nat;
  grew_ahead : forall k d, archives (bkt w) !! k = Some d -> archives (bkt w0) !! k = None ->
    exists t, seen t w /\ period_of t genesis < k.2 }.

Definition good (w : world) : Prop := sound w /\ grew w.
Definition spec {A} (m : prog A) (Q : A -> world -> Prop) (w : world) : Prop :=
  wp m (fun a w' => (good w' /\ (ticks w <= ticks w')%nat) /\ Q a w') (fun w' => good w' /\ blame) w.

(** Nothing but the counters moved, or nothing but them and the memory. *)
Definition same_bucket (w w' : world) : Prop := bkt w' = bkt w /\ (ticks w <= ticks w')%nat.
Definition same (w w' : world) : Prop := same_bucket w w' /\ mem w' = mem w.

#[export] Instance same_bucket_preorder : PreOrder same_bucket.
Proof. unfold same_bucket. split; [done|intros x y z [? ?] [? ?]; split; [congruence|lia]]. Qed.
#[export] Instance same_preorder : PreOrder same.
Proof. unfold same. split; [by intros w|intros x y z [? ?] [? ?]; split; [by etrans|congruence]]. Qed.
Lemma same_weaken w w' : same w w' -> same_bucket w w'. Proof. by intros []. Qed.

Lemma seen_later t w w' : (ticks w <= ticks w')%nat -> seen t w -> seen t w'.
Proof. intros H (n & -> & Hn). exists n. split; [done|lia]. Qed.

Lemma good_ok w : good w -> books_ok genesis (bkt w) (state_of (bkt w)).
Proof. by intros [[? _] _]. Qed.

Lemma good_next w b m t c : good w -> verdicts b = verdicts (bkt w) -> voided b = voided (bkt w) -> books_ok genesis b (state_of b) ->
  (forall sid v, fed m !! sid = Some v -> fed (mem w) !! sid = Some v) ->
  archives (bkt w) ⊆ archives b -> settled (state_of (bkt w)) ⊆ settled (state_of b) -> (ticks w <= t)%nat -> (calls w <= c)%nat ->
  (forall k d, archives b !! k = Some d -> archives (bkt w) !! k = None -> exists x, seen x w /\ period_of x genesis < k.2) ->
  good (World b m t c).
Proof.
  intros [[Hb Hf] [G1 G2 G3 G4 G5 G6 G7]] Ev Eo Hok Hm Ha Hs Ht Hc Hn. split; [split; [done|]|split; cbn].
  - intros sid v Hv. cbn in *. rewrite Ev. by apply Hf, Hm.
  - congruence.
  - congruence.
  - by etrans.
  - by etrans.
  - lia.
  - lia.
  - intros k d Hd Hk. destruct (archives (bkt w) !! k) as [d'|] eqn:E.
    + destruct (G7 k d' E Hk) as (x & Hx & Hlt). exists x. split; [by eapply seen_later, Hx|done].
    + destruct (Hn k d Hd E) as (x & Hx & Hlt). exists x. split; [by eapply seen_later, Hx|done].
Qed.

Lemma good_same_bucket w m t c : good w -> (forall sid v, fed m !! sid = Some v -> fed (mem w) !! sid = Some v) ->
  (ticks w <= t)%nat -> (calls w <= c)%nat -> good (World (bkt w) m t c).
Proof. intros Hg Hm Ht Hc. apply (good_next w); try done; [by apply good_ok|by intros k d ->]. Qed.

Lemma blamed w : good w -> fate (calls w) <> Fine -> blame.
Proof. intros [_ G] H. apply (Hblame (calls w)); [apply (grew_calls _ G)|done]. Qed.

Lemma spec_ret {A} (a : A) (Q : A -> world -> Prop) w : good w -> Q a w -> spec (mret a) Q w.
Proof. intros Hg HQ. by apply wp_ret. Qed.

Lemma spec_bind {A B} (m : prog A) (k : A -> prog B) R Q w :
  spec m R w -> (forall a w', good w' -> R a w' -> spec (k a) Q w') -> spec (m ≫= k) Q w.
Proof.
  intros Hm Hk. apply wp_bind. eapply wp_weaken; [exact Hm| |done]. intros a w' [[Hg Ht] HR].
  eapply wp_weaken; [by apply Hk| |done]. intros b w2 [[Hg2 Ht2] HQ]. split; [split; [done|lia]|done].
Qed.

Lemma spec_weaken {A} (m : prog A) (Q Q' : A -> world -> Prop) w : spec m Q w -> (forall a w', good w' -> Q a w' -> Q' a w') -> spec m Q' w.
Proof. intros Hm H. eapply wp_weaken; [exact Hm|intros a w' [[? ?] ?]; eauto|done]. Qed.

Lemma spec_later {A} (m : prog A) (Q : A -> world -> Prop) w : spec m Q w -> spec m (fun a w' => Q a w' /\ (ticks w <= ticks w')%nat) w.
Proof. intros Hm. eapply wp_weaken; [exact Hm|by intros a w' [[? ?] ?]|done]. Qed.

Lemma spec_pure {A} (r : result A) (Q : A -> world -> Prop) a w : good w -> r = Ok a -> Q a w -> spec (pure r) Q w.
Proof. intros Hg E HQ. by apply (wp_pure_ok r a). Qed.

Lemma spec_memory w : good w -> spec memory_of (fun m w' => m = mem w /\ same w w') w.
Proof. intros Hg. by apply wp_memory. Qed.

Lemma spec_modify f w : good w -> (forall sid v, fed (f (mem w)) !! sid = Some v -> fed (mem w) !! sid = Some v) ->
  spec (modify f) (fun _ w' => same_bucket w w' /\ mem w' = f (mem w)) w.
Proof. intros Hg Hf. apply wp_modify. split; [split; [by apply good_same_bucket|done]|done]. Qed.

Lemma spec_now w : good w -> spec (now clock) (fun t w' => seen t w' /\ representable t /\ same w w') w.
Proof.
  intros Hg. apply wp_now. split; [split; [apply good_same_bucket; [done|done|lia|lia]|cbn; lia]|]. split; [|split; [done|split; [split; [done|cbn; lia]|done]]].
  exists (ticks w). split; [done|]. pose proof (grew_ticks _ (proj2 Hg)). cbn. lia.
Qed.

Lemma spec_ask {A} (f : bucket -> A) w : good w -> spec (ask fate f) (fun a w' => a = f (bkt w) /\ same w w') w.
Proof.
  intros Hg. assert (good (World (bkt w) (mem w) (ticks w) (S (calls w)))) as Hg' by (apply good_same_bucket; [done|done|lia|lia]).
  apply wp_ask; [done|]. intros F. split; [done|exact (blamed w Hg F)].
Qed.

Lemma spec_read_archive p w : good w -> pending_ok (bkt w) (state_of (bkt w)) p ->
  spec (call fate (read_archive (work p) (entry p))) (fun d w' => d = archives (bkt w) !! (work p, entry p) /\ same w w') w.
Proof.
  intros Hg Hp. replace (spec _ _ w) with (spec (ask fate (fun b => archives b !! (work p, entry p))) (fun d w' => d = archives (bkt w) !! (work p, entry p) /\ same w w') w); [by apply spec_ask|].
  unfold spec, ask, wp, call, read_archive, archive_key. destruct (pending_order _ _ _ Hp).
  by replace ((work p <? 0) || (entry p <? work p)) with false by (symmetry; apply orb_false_iff; lia).
Qed.

(** What writing the settlement leaves. *)
Definition wrote (s : settlement) (w w' : world) : Prop :=
  doc (bkt w') = Some (PeriodState s) /\ archives (bkt w') = archives (bkt w) /\ verdicts (bkt w') = verdicts (bkt w) /\
  mem w' = mem w /\ (ticks w <= ticks w')%nat.

Lemma spec_put s w : good w -> books_ok genesis (bkt w) s -> settled (state_of (bkt w)) ⊆ settled s ->
  spec (call fate (put_settlement s (etag (bkt w)))) (fun et w' => et = etag (bkt w') /\ wrote s w w') w.
Proof.
  intros Hg Hok Hs. apply wp_call. unfold put_settlement. rewrite bool_decide_true by done.
  set (b := Bucket _ _ _ _ _). assert (books_ok genesis b s) as Hok' by by apply (books_frame genesis (bkt w)).
  assert (good (World b (mem w) (ticks w) (S (calls w)))) as Hg1.
  { apply (good_next w); try done; [lia|]. intros k d Hd Hk. cbn in Hd. congruence. }
  split; [split; [done|]|]; [split; [done|]; unfold wrote; cbn; split_and!; first [done|lia]|].
  intros F. pose proof (blamed w Hg F). split; split; try done. by apply good_same_bucket; [..|lia].
Qed.
(** *** Entering and finishing a payment *)

Lemma entries_perm b : (list_archives b).*2 ≡ₚ entries b.
Proof. unfold list_archives, entries. by rewrite isort_perm. Qed.

Lemma spec_entry_at x due w : good w -> spec (entry_at fate x due)
  (fun e w' => due <= e /\ archives (bkt w) !! (x, e) = None /\ count_in e (entries (bkt w)) < CATCHUP_ENTRIES /\ same w w') w.
Proof.
  intros Hg. unfold entry_at. eapply spec_bind; [by apply spec_ask|]. intros listed w' Hg' [-> Hs].
  destruct (entry_for_spec due (list_archives (bkt w)).*2 (filter (fun k : Z * Z => k.1 = x) (list_archives (bkt w))).*2 CATCHUP_ENTRIES ltac:(done))
    as (e & -> & Hle & Hfree & _).
  apply spec_ret; [done|]. cbn [default]. unfold blocked in Hfree. rewrite (count_in_perm _ _ _ (entries_perm (bkt w))) in Hfree.
  split_and!; [done| |apply Z.lt_nge; intros ?; apply Hfree; by left|done]. destruct (archives (bkt w) !! (x, e)) as [d|] eqn:E; [|done]. exfalso. apply Hfree. right.
  apply list_elem_of_fmap. exists (x, e). split; [done|]. apply list_elem_of_filter. split; [done|].
  unfold list_archives. apply elem_of_isort, list_elem_of_fmap. exists ((x, e), d). by rewrite elem_of_map_to_list.
Qed.

(** The program's state [s], its payment [p] and its ETag are the bucket's. *)
Definition holds (s : settlement) (p : pending) (et : option Z) (w : world) : Prop :=
  same_books s (state_of (bkt w)) /\ pend s = Some p /\ et = etag (bkt w).

Lemma holds_pending s p et w : good w -> holds s p et w -> books_ok genesis (bkt w) s /\ pending_ok (bkt w) s p.
Proof.
  intros Hg (Hs & Hp & _). pose proof (good_ok w Hg) as Hok. rewrite <- Hs in Hok. split; [done|]. by apply (ok_pending _ _ _ Hok).
Qed.
Lemma holds_state_pending s p et w : good w -> holds s p et w -> pending_ok (bkt w) (state_of (bkt w)) p.
Proof. intros Hg (Hs & Hp & _). apply (ok_pending _ _ _ (good_ok w Hg)). by destruct Hs as (_ & <- & _). Qed.

Lemma holds_same s p et w w' : same_bucket w w' -> holds s p et w -> holds s p et w'.
Proof. unfold holds. by intros [-> _]. Qed.

(** The same payment, perhaps later. *)
Definition moved (s : settlement) (p : pending) (sp : settlement * pending * option Z) (w w' : world) : Prop :=
  let '(s', p', et') := sp in
  holds s' p' et' w' /\ settled s' = settled s /\ work p' = work p /\ ids p' = ids p /\ mem w' = mem w.

Lemma spec_enter_again s p et w : good w -> holds s p et w -> archives (bkt w) !! (work p, entry p) = None ->
  spec (enter_again clock fate genesis s p et) (fun sp w' => moved s p sp w w' /\
    archives (bkt w') !! (work sp.1.2, entry sp.1.2) = None /\ exists t, seen t w' /\ period_of t genesis < entry sp.1.2) w.
Proof.
  intros Hg Hh Hno. unfold enter_again. eapply spec_bind; [by apply spec_now|]. intros t w1 Hg1 (Ht & _ & Hs1).
  pose proof (holds_same _ _ _ _ _ (same_weaken _ _ Hs1) Hh) as Hh1. destruct Hs1 as [[Eb1 _] Em1]. cbv zeta.
  destruct (Z.ltb_spec (entry p) (period_of t genesis + 1)) as [Hlt|Hge].
  - eapply spec_bind; [by apply spec_entry_at|]. intros e w2 Hg2 (He & Hfree & Hc & Hs2).
    pose proof (holds_same _ _ _ _ _ (same_weaken _ _ Hs2) Hh1) as Hh2. destruct Hs2 as [[Eb2 Ht2] Em2].
    destruct (holds_pending _ _ _ _ Hg2 Hh2) as [Hok2 Hp2]. destruct Hh2 as (Hb2 & Hpe & ->).
    rewrite Eb1 in *. rewrite <- Eb2 in Hfree, Hc. 
    assert (books_ok genesis (bkt w2) (record_pending (enter e p) s)) as Hok3.
    { apply books_reenter; [done|done|lia|by rewrite Eb2|done|done]. }
    eapply spec_bind; [apply spec_put; [done|exact Hok3|by destruct Hb2 as (<- & _)]|].
    intros et' w3 Hg3 (-> & Hd & Ha & _ & Hm & Ht3). apply spec_ret; [done|]. unfold moved, holds, state_of. cbn [fst snd].
    rewrite Hd. split_and!; try done; [congruence|by rewrite Ha|]. exists t. split; [|cbn; lia]. eapply seen_later; [|exact Ht]. lia.
  - apply spec_ret; [done|]. unfold moved. cbn [fst snd]. rewrite Eb1. split_and!; try done. exists t. split; [done|lia].
Qed.

Lemma spec_write_archive s p et w : good w -> holds s p et w -> archives (bkt w) !! (work p, entry p) = None ->
  (exists t, seen t w /\ period_of t genesis < entry p) ->
  spec (write_archive fate guard (work p) (entry p) (archive_of p))
    (fun _ w' => holds s p et w' /\ is_Some (archives (bkt w') !! (work p, entry p)) /\ mem w' = mem w) w.
Proof.
  intros Hg Hh Hno Hahead. unfold write_archive. eapply (spec_bind _ _ (fun _ w' => same w w')).
  { destruct guard as [[]|x] eqn:Eg; [by apply wp_pure_ok with tt|]. apply wp_pure; [done|]. intros e _. split; [done|]. by destruct Hguard. }
  intros _ w1 Hg1 Hs1. pose proof (holds_same _ _ _ _ _ (same_weaken _ _ Hs1) Hh) as Hh1.
  eapply spec_bind; [apply spec_read_archive; [done|by eapply holds_state_pending]|]. intros d w2 Hg2 [-> Hs2].
  assert (same w w2) as Hs by by etrans. pose proof (holds_same _ _ _ _ _ (same_weaken _ _ Hs) Hh) as Hh2.
  destruct Hs1 as [[Eb1 _] _]. rewrite Eb1, Hno. destruct Hs as [[Eb Ht] Em]. rewrite <- Eb in Hno.
  destruct (holds_pending _ _ _ _ Hg2 Hh2) as [Hok2 Hp2]. pose proof Hh2 as (Hb2 & Hpe & Het).
  assert (state_of (put_archive (work p) (entry p) (archive_of p) (bkt w2)).2 = state_of (bkt w2)) as Es by by rewrite (put_archive_ok _ _ _ Hp2).
  assert (books_ok genesis (put_archive (work p) (entry p) (archive_of p) (bkt w2)).2 s) as Hok3 by by apply books_write.
  apply wp_call. rewrite (put_archive_ok _ _ _ Hp2) in Hok3 |- *. cbn [snd] in Hok3. set (b := Bucket _ _ _ _ _) in *.
  assert (good (World b (mem w2) (ticks w2) (S (calls w2)))) as Hg3.
  { apply (good_next w2); try done; [change (state_of b) with (state_of (bkt w2)); by rewrite <- Hb2|by apply insert_subseteq|lia|].
    intros k x Hk Hn. cbn in Hk. destruct (decide (k = (work p, entry p))) as [->|Hne]; [|rewrite lookup_insert_ne in Hk by done; congruence].
    destruct Hahead as (t & Hseen & Hlt). exists t. split; [|done]. by eapply seen_later, Hseen. }
  split.
  - split; [done|]. split_and!; [done| |done]. cbn. rewrite lookup_insert_eq. eauto.
  - intros F. pose proof (blamed w2 Hg2 F). split; [done|]. split; [|done]. by apply good_same_bucket; [..|lia].
Qed.

(** Everything settled but the memory's reports. *)
Definition finished_state (s : settlement) (p : pending) (w : world) : Prop :=
  exists s', doc (bkt w) = Some (PeriodState s') /\ pend s' = None /\ settled s' = settled s ∪ list_to_set (ids p).

Lemma spec_report s sids w : good w -> spec (report s sids) (fun _ w' => same_bucket w w' /\ fed (mem w') = fed (mem w) /\ listed_at (mem w') = listed_at (mem w)) w.
Proof. intros Hg. eapply spec_weaken; [by apply spec_modify|]. by intros [] w' _ [? ->]. Qed.

Lemma spec_finish s p et w : good w -> holds s p et w ->
  spec (finish clock fate genesis guard s p et) (fun r w' => r = work p /\ finished_state s p w' /\ fed (mem w') = fed (mem w)) w.
Proof.
  intros Hg Hh. unfold finish. eapply spec_bind; [apply spec_read_archive; [done|by eapply holds_state_pending]|].
  intros d w1 Hg1 [-> Hs1]. pose proof (holds_same _ _ _ _ _ (same_weaken _ _ Hs1) Hh) as Hh1. destruct Hs1 as [[Eb1 _] Em1].
  rewrite <- Eb1.
  eapply (spec_bind _ _ (fun sp w' => moved s p sp w w' /\ is_Some (archives (bkt w') !! (work sp.1.2, entry sp.1.2)))).
  { destruct (archives (bkt w1) !! (work p, entry p)) as [d|] eqn:Ed.
    - apply spec_ret; [done|]. unfold moved. cbn [fst snd]. rewrite Ed. split; [by split_and!|eauto].
    - eapply spec_bind; [by apply spec_enter_again|]. intros [[s' p'] et'] w2 Hg2 ((Hh2 & Es & Ew & Ei & Em2) & Hno & Hahead). cbn [fst snd] in *.
      eapply spec_bind; [by eapply spec_write_archive|]. intros _ w3 Hg3 (Hh3 & His & Em3). apply spec_ret; [done|].
      unfold moved. cbn [fst snd]. split; [|done]. split_and!; first [done|congruence]. }
  intros [[s' p'] et'] w2 Hg2 ((Hh2 & Es & Ew & Ei & Em2) & His). cbn [fst snd] in *. cbv zeta.
  destruct (holds_pending _ _ _ _ Hg2 Hh2) as [Hok2 _]. destruct Hh2 as (Hb2 & Hpe & ->).
  eapply spec_bind; [apply spec_put; [done|by apply books_finish|destruct Hb2 as (<- & _); cbn; set_solver]|].
  intros _ w3 Hg3 (_ & Hd & Ha & _ & Em3 & _). eapply spec_bind; [by apply spec_report|]. intros _ w4 Hg4 ([Eb4 _] & Em4 & _).
  eapply spec_bind; [by apply spec_modify|]. intros _ w5 Hg5 [[Eb5 _] Em5]. apply spec_ret; [done|].
  split_and!; [done| |rewrite Em5; cbn; congruence]. exists (finished p' s'). rewrite Eb5, Eb4, Hd. cbn. by rewrite Es, Ei.
Qed.

(** *** Settling a period, and the periods *)

Definition settling (s : settlement) (et : option Z) (w : world) : Prop :=
  same_books s (state_of (bkt w)) /\ pend s = None /\ et = etag (bkt w).

Lemma settling_same s et w w' : same_bucket w w' -> settling s et w -> settling s et w'.
Proof. unfold settling. by intros [-> _]. Qed.

Lemma spec_pop period w : good w -> spec (pop_open period) (fun _ w' => same_bucket w w') w.
Proof. intros Hg. eapply spec_weaken; [by apply spec_modify|]. by intros [] w' _ [? _]. Qed.

Lemma spec_settle_unpaid period sids t s et w : good w -> settling s et w ->
  spec (settle_unpaid fate period sids t s et) (fun r w' => settling r.1 r.2 w' /\ settled r.1 = settled s ∪ list_to_set sids) w.
Proof.
  intros Hg (Hs & Hp & ->). unfold settle_unpaid. cbv zeta. pose proof (good_ok w Hg) as Hok. rewrite <- Hs in Hok.
  eapply spec_bind; [apply spec_put; [done|by apply books_settle|destruct Hs as (<- & _); cbn; set_solver]|].
  intros et w1 Hg1 (-> & Hd & _). eapply spec_bind; [by apply spec_report|]. intros _ w2 Hg2 [Hs2 _].
  eapply spec_bind; [by apply spec_pop|]. intros [] w3 Hg3 Hs3. apply spec_ret; [done|]. cbn [fst snd]. split; [|done].
  apply (settling_same _ _ w1); [by etrans|]. unfold settling, state_of. by rewrite Hd.
Qed.

Lemma spec_reload s p w : good w -> finished_state s p w ->
  spec (reload fate) (fun r w' => settling r.1 r.2 w' /\ settled r.1 = settled s ∪ list_to_set (ids p)) w.
Proof.
  intros Hg (s' & Hd & Hp & Hs). unfold reload. eapply spec_bind; [by apply spec_ask|]. intros [d et] w1 Hg1 [[= -> ->] [Hs1 _]].
  rewrite Hd. apply spec_ret; [done|]. cbn [fst snd]. split; [|done]. apply (settling_same _ _ w); [done|]. unfold settling, state_of. by rewrite Hd.
Qed.

(** What is read of the bucket, and the periods left to settle. *)
Section todo.
Context (at_ : float) (read : gmap string json) (void : gset string).
Definition period_due (s : settlement) (todo : Z * list string) : Prop :=
  0 <= todo.1 < period_of at_ genesis /\ NoDup todo.2 /\ (list_to_set todo.2 : gset string) ## settled s /\
  forall sid v, sid ∈ todo.2 -> read !! sid = Some v -> work_period genesis v = Ok todo.1.

Hypothesis Hread : read ⊆ verdicts (bkt w0).

Lemma spec_settle_period period sids s et last w : good w -> settling s et w -> period_due s (period, sids) ->
  spec (settle_period clock fate genesis guard at_ read void period sids s et last)
    (fun r w' => settling r.1.1 r.1.2 w' /\ settled r.1.1 = settled s ∪ list_to_set sids) w.
Proof.
  intros Hg Hs (Hper & Hnd & Hfresh & Hdated). cbn [fst snd] in *.
  assert (forall sid v, verdicts (bkt w) !! sid = Some v -> verdict_ok genesis v) as Hv by apply (ok_verdicts _ _ _ (good_ok w Hg)).
  assert (read ⊆ verdicts (bkt w)) as Hr by (by rewrite (grew_verdicts _ (proj2 Hg))).
  pose proof (batch_wf genesis (bkt w) void read sids Hv Hr) as Hb.
  destruct (batch_tokens genesis (bkt w) void read period sids Hv Hr Hdated) as (n & En & Hn).
  destruct (add_totals_ok genesis (totals_of s) (batch_of void read sids) Hb) as (t & Et & _).
  unfold settle_period. cbv zeta. eapply spec_bind; [eapply (spec_pure _ (fun a w' => a = n /\ w' = w)); done|]. intros ? ? _ [-> ->].
  eapply spec_bind; [eapply (spec_pure _ (fun a w' => a = t /\ w' = w)); done|]. intros ? ? _ [-> ->].
  eapply spec_bind; [by apply spec_memory|]. intros m w1 Hg1 [-> Hs1]. pose proof (settling_same _ _ _ _ (same_weaken _ _ Hs1) Hs) as Hst1.
  assert (forall w, good w -> settling s et w -> spec ('(s, et) ← settle_unpaid fate period sids t s et; mret (s, et, last))
    (fun r w' => settling r.1.1 r.1.2 w' /\ settled r.1.1 = settled s ∪ list_to_set sids) w) as Hunpaid.
  { intros x Hx Hsx. eapply spec_bind; [by apply spec_settle_unpaid|]. intros [s' et'] x' Hx' HR. by apply spec_ret. }
  destruct ((n <=? 0) || _) eqn:Hno; [by apply Hunpaid|]. apply orb_false_iff in Hno as [Hn0 _].
  destruct (payment_ok genesis (mem w) s period sids _ n t Hb) as (pay & Epay & Hpay).
  eapply spec_bind; [eapply (spec_pure _ (fun a w' => a = pay /\ w' = w1)); done|]. intros ? ? _ [-> ->].
  destruct pay as [p|]; [|by apply Hunpaid]. destruct (Hpay p eq_refl) as (Ew & Ei & Etk & Epp & _).
  eapply spec_bind; [by apply spec_entry_at|]. intros e w2 Hg2 (He & Hfree & Hc & Hs2). destruct Hs2 as [[Eb2 _] _].
  assert (settling s et w2) as (Hbk & Hp & ->) by (unfold settling in *; by rewrite Eb2). pose proof (good_ok w2 Hg2) as Hok. rewrite <- Hbk in Hok.
  rewrite <- Eb2 in Hfree, Hc. destruct Hs1 as [[Eb1 _] _].
  assert (books_ok genesis (bkt w2) (record_pending (enter e p) s)) as Hok'.
  { apply books_record; [done|done| |cbn; by rewrite Ew|].
    - split; cbn; rewrite ?Ew, ?Ei, ?Etk, ?Epp; [lia|lia|done|done|]. by rewrite Hfree.
    - cbn. rewrite Ew, Ei, Etk, set_sum_list by done. rewrite Eb2, Eb1. lia. }
  eapply spec_bind; [apply spec_put; [done|exact Hok'|by destruct Hbk as (<- & _)]|]. intros et w3 Hg3 (-> & Hd & _).
  eapply spec_bind; [apply spec_finish; [done|]; unfold holds, state_of; by rewrite Hd|].
  intros r w4 Hg4 (-> & Hf & _). eapply spec_bind; [by apply spec_pop|]. intros [] w5 Hg5 Hs5.
  eapply spec_bind; [apply (spec_reload (record_pending (enter e p) s) (enter e p)); [done|]|].
  - destruct Hf as (s' & ? & ? & ?). exists s'. by rewrite (proj1 Hs5).
  - intros [s' et'] w6 Hg6 [Hs6 E6]. apply spec_ret; [done|]. cbn [fst snd] in *. split; [done|]. cbn in E6. by rewrite E6, Ei.
Qed.

Definition all_ids (todo : list (Z * list string)) : gset string := list_to_set (concat todo.*2).

Lemma spec_settle_periods todo : forall s et last w, good w -> settling s et w -> Forall (period_due s) todo ->
  NoDup (concat todo.*2) ->
  spec (settle_periods clock fate genesis guard at_ read void todo s et last)
    (fun _ w' => pend (state_of (bkt w')) = None /\ settled (state_of (bkt w')) = settled s ∪ all_ids todo) w.
Proof.
  induction todo as [|[period sids] todo IH]; intros s et last w Hg Hs Hdue Hnd; cbn [settle_periods].
  - apply spec_ret; [done|]. destruct Hs as ((<- & <- & _) & Hp & _). split; [done|]. unfold all_ids. cbn. set_solver.
  - apply Forall_cons in Hdue as [Hd Hdue]. cbn in Hnd. apply NoDup_app in Hnd as (Hn1 & Hdis & Hn2).
    eapply spec_bind; [by apply spec_settle_period|]. intros [[s' et'] last'] w' Hg' [Hs' Es']. cbn [fst snd] in *.
    eapply spec_weaken; [apply IH; [done|done| |done]|].
    + apply Forall_forall. intros [q l] Hin. pose proof (proj1 (Forall_forall _ _) Hdue _ Hin) as (H1 & H2 & H3 & H4).
      split; [done|]. split; [done|]. split; [|done]. rewrite Es'. cbn [snd] in *. apply disjoint_union_r. split; [done|].
      intros x Hx1 Hx2. apply elem_of_list_to_set in Hx1, Hx2. apply (Hdis x Hx2). apply list_elem_of_In, in_concat. exists l. split; [|by apply list_elem_of_In]. apply list_elem_of_In.
      apply list_elem_of_fmap. by exists (q, l).
    + intros r w1 _ [Hp Hset]. split; [done|]. rewrite Hset, Es'. unfold all_ids. cbn. rewrite list_to_set_app_L. set_solver.
Qed.
End todo.

(** *** The periods that are due *)

Definition dated_of (closed : Z) (read : gmap string json) (sids : list string) : list (Z * string) :=
  omap (fun sid => v ← read !! sid;
    match work_period genesis v with Ok p => if p <=? closed then Some (p, sid) else None | Raise _ => None end) sids.

Lemma dated_elem closed read sids p sid : (p, sid) ∈ dated_of closed read sids <->
  sid ∈ sids /\ p <= closed /\ exists v, read !! sid = Some v /\ work_period genesis v = Ok p.
Proof.
  unfold dated_of. rewrite list_elem_of_omap. split.
  - intros (x & Hx & E). destruct (read !! x) as [v|] eqn:Er; cbn in E; [|done]. destruct (work_period genesis v) as [q|] eqn:Ew; [|done].
    destruct (Z.leb_spec q closed); [|done]. injection E as <- <-. eauto.
  - intros (Hx & Hle & v & Er & Ew). exists sid. split; [done|]. rewrite Er. cbn. rewrite Ew. by destruct (Z.leb_spec p closed); [|lia].
Qed.

Lemma dated_nodup closed read sids : NoDup sids -> NoDup (dated_of closed read sids).*2.
Proof.
  induction sids as [|sid sids IH]; intros Hnd; [constructor|]. apply NoDup_cons in Hnd as [Hn Hnd].
  unfold dated_of. cbn [omap list_omap]. fold (dated_of closed read sids). case_match eqn:E; [|by apply IH].
  cbn [fmap list_fmap]. apply NoDup_cons. split; [|by apply IH].
  destruct (read !! sid) as [v|]; cbn in E; [|done]. repeat case_match; simplify_eq. cbn.
  intros ([q x] & -> & Hx)%list_elem_of_fmap. cbn in Hn. by apply dated_elem in Hx as [? _].
Qed.

Lemma by_period_eq (closed : Z) (b : bucket) read sids : (forall sid v, verdicts b !! sid = Some v -> verdict_ok genesis v) -> read ⊆ verdicts b ->
  by_period genesis closed read sids = Ok ((fun p => (p, (filter (fun d : Z * string => d.1 = p) (dated_of closed read sids)).*2)) <$>
    isort Z.leb (remove_dups (dated_of closed read sids).*1)).
Proof.
  intros Hv Hr. unfold by_period. set (f := fun (l : list (Z * string)) (sid : string) => _).
  assert (forall l acc, fold_result f acc l = Ok (acc ++ dated_of closed read l)) as E; [|by rewrite E].
  induction l as [|sid l IH]; intros acc; [by rewrite app_nil_r|]. cbn [fold_result].
  assert (f acc sid = Ok (acc ++ dated_of closed read [sid])) as ->.
  { unfold f, dated_of. cbn [omap list_omap]. destruct (read !! sid) as [v|] eqn:Er; cbn [mbind option_bind result_bind]; [|by rewrite app_nil_r].
    destruct (dated _ _ (Hv sid v (lookup_weaken _ _ _ _ Er Hr))) as (p & -> & _). cbn [mbind result_bind].
    by destruct (p <=? closed); rewrite ?app_nil_r. }
  cbn [mbind result_bind]. rewrite IH, <- app_assoc. do 2 f_equal. unfold dated_of. change (sid :: l) with ([sid] ++ l). by rewrite omap_app.
Qed.

Lemma concat_nodup (dated : list (Z * string)) (ps : list Z) : NoDup dated.*2 -> (forall p q x, (p, x) ∈ dated -> (q, x) ∈ dated -> p = q) ->
  NoDup ps -> NoDup (concat ((fun p => (filter (fun d : Z * string => d.1 = p) dated).*2) <$> ps)).
Proof.
  intros Hd Hu. induction ps as [|p ps IH]; intros Hnd; [constructor|]. apply NoDup_cons in Hnd as [Hn Hnd]. cbn.
  apply NoDup_app. split; [eapply sublist_NoDup; [exact Hd|apply fmap_sublist_filter]|]. split; [|by apply IH].
  intros x ([p' x'] & -> & Hx)%list_elem_of_fmap Hx'. apply list_elem_of_filter in Hx as [Ep Hx]. cbn in Ep, Hx'. subst p'.
  apply list_elem_of_In, in_concat in Hx' as (l & Hl & Hx'). apply list_elem_of_In in Hl, Hx'.
  apply list_elem_of_fmap in Hl as (q & -> & Hq). apply list_elem_of_fmap in Hx' as ([q' y] & E & Hy). cbn in E. subst y.
  apply list_elem_of_filter in Hy as [Eq Hy]. cbn in Eq. subst q'. apply Hn. by rewrite (Hu _ _ _ Hx Hy).
Qed.

Lemma by_period_due closed (b : bucket) read at_ s sids : (forall sid v, verdicts b !! sid = Some v -> verdict_ok genesis v) -> read ⊆ verdicts b ->
  closed < period_of at_ genesis -> NoDup sids -> (list_to_set sids : gset string) ## settled s ->
  exists todo, by_period genesis closed read sids = Ok todo /\ Forall (period_due at_ read s) todo /\ NoDup (concat todo.*2) /\
    forall sid v p, sid ∈ sids -> read !! sid = Some v -> work_period genesis v = Ok p -> p <= closed -> sid ∈ all_ids todo.
Proof.
  intros Hv Hr Hclosed Hnd Hfresh. eexists. split; [by eapply by_period_eq|]. set (ds := dated_of closed read sids). set (ps := isort Z.leb _).
  assert (NoDup ps) as Hps by (unfold ps; rewrite isort_perm; apply NoDup_remove_dups).
  assert (forall p, p ∈ ps <-> exists x, (p, x) ∈ ds) as Hin.
  { intros p. unfold ps. rewrite elem_of_isort, elem_of_remove_dups, list_elem_of_fmap. split; [intros ([q x] & -> & H); eauto|intros [x H]; by exists (p, x)]. }
  assert (forall p x, x ∈ (filter (fun d : Z * string => d.1 = p) ds).*2 <-> (p, x) ∈ ds) as Hf.
  { intros p x. rewrite list_elem_of_fmap. split; [intros ([q y] & -> & H)|intros H; exists (p, x); split; [done|by apply list_elem_of_filter]].
    apply list_elem_of_filter in H as [E H]. cbn in *. by subst. }
  split_and!.
  - apply Forall_fmap, Forall_forall. intros p Hp. unfold period_due. cbn [compose fst snd]. split; [|split; [|split]].
    + apply Hin in Hp as (x & Hx). apply dated_elem in Hx as (_ & Hle & v & Er & Ew). split; [|lia].
      destruct (dated _ _ (Hv x v (lookup_weaken _ _ _ _ Er Hr))) as (q & Eq & Hq). congruence.
    + eapply sublist_NoDup; [by apply dated_nodup|apply fmap_sublist_filter].
    + intros x Hx Hs. apply (Hfresh x); [|done]. apply elem_of_list_to_set. apply elem_of_list_to_set in Hx. by apply Hf, dated_elem in Hx as [? _].
    + intros x v Hx Er. apply Hf, dated_elem in Hx as (_ & _ & u & Eu & Ew). congruence.
  - rewrite <- list_fmap_compose. apply concat_nodup; [by apply dated_nodup| |done].
    intros p q x (_ & _ & v & Ev & Ep)%dated_elem (_ & _ & u & Eu & Eq)%dated_elem. congruence.
  - intros sid v p Hs Er Ew Hle. assert ((p, sid) ∈ ds) as Hd by (apply dated_elem; eauto).
    unfold all_ids. apply elem_of_list_to_set, list_elem_of_In, in_concat. exists (filter (fun d : Z * string => d.1 = p) ds).*2.
    split; [|apply list_elem_of_In; by apply Hf]. apply list_elem_of_In. rewrite <- list_fmap_compose. apply list_elem_of_fmap. exists p. split; [done|]. apply Hin. eauto.
Qed.

(** *** A whole pass *)

Lemma spec_read_verdicts sids : forall w, good w -> spec (read_verdicts fate sids)
  (fun read w' => same w w' /\ read ⊆ verdicts (bkt w) /\ forall sid, sid ∈ sids -> read !! sid = verdicts (bkt w) !! sid) w.
Proof.
  induction sids as [|sid sids IH]; intros w Hg; cbn [read_verdicts].
  - apply spec_ret; [done|]. split; [done|]. split; [apply map_empty_subseteq|]. intros sid H. by apply not_elem_of_nil in H.
  - eapply spec_bind; [by apply spec_memory|]. intros m w1 Hg1 [-> Hs1].
    eapply (spec_bind _ _ (fun v w' => v = verdicts (bkt w) !! sid /\ same w w')).
    { destruct (fed (mem w) !! sid) as [v|] eqn:E.
      - apply spec_ret; [done|]. split; [|done]. symmetry. by apply (proj2 (proj1 Hg)).
      - eapply spec_weaken; [by apply spec_ask|]. intros v w2 _ [-> Hs2]. split; [by destruct Hs1 as [[-> _] _]|by etrans]. }
    intros v w2 Hg2 [-> Hs2]. eapply spec_bind; [by apply IH|]. intros read w3 Hg3 (Hs3 & Hsub & Hall). apply spec_ret; [done|].
    destruct Hs2 as [[Eb Ht] Em]. rewrite Eb in Hsub, Hall. split; [etrans; [|exact Hs3]; done|].
    destruct (verdicts (bkt w) !! sid) as [v|] eqn:E.
    + split; [by apply insert_subseteq_l|]. intros x Hx. destruct (decide (x = sid)) as [->|Hne]; [by rewrite lookup_insert_eq|].
      rewrite lookup_insert_ne by done. apply Hall. set_solver.
    + split; [done|]. intros x Hx. apply elem_of_cons in Hx as [->|Hx]; [|by apply Hall].
      rewrite E. destruct (read !! sid) as [v|] eqn:Er; [|done]. pose proof (lookup_weaken _ _ _ _ Er Hsub). congruence.
Qed.

(** The bucket is listed in this pass. *)
Definition listing (w : world) : Prop := every = None \/ listed_at (mem w) = None.

Lemma spec_verdict_ids (done_ : gset string) w : good w -> spec (verdict_ids clock fate every done_)
  (fun sids w' => same_bucket w w' /\ NoDup sids /\ (list_to_set sids : gset string) ## done_ /\
    (listing w -> dom (verdicts (bkt w)) ∖ done_ ⊆ list_to_set sids)) w.
Proof.
  intros Hg. unfold verdict_ids. eapply spec_bind; [by apply spec_now|]. intros t w1 Hg1 (_ & _ & Hs1).
  eapply spec_bind; [by apply spec_memory|]. intros m w2 Hg2 [-> Hs2]. cbv zeta. set (due := match every with Some _ => _ | None => _ end).
  assert (same w w2) as Hs by by etrans. destruct Hs as [Hs Em]. assert (mem w1 = mem w) as Em1 by apply Hs1.
  eapply (spec_bind _ _ (fun _ w' => same_bucket w w' /\ (listing w -> dom (verdicts (bkt w)) ⊆ unsettled (mem w')))).
  { assert (listing w -> due = true) as Hdue.
    { unfold listing, due. rewrite Em1. intros [->| ->]; [done|]. by destruct every. }
    destruct due; [|apply spec_ret; [done|]; split; [done|]; intros H; by specialize (Hdue H)].
    eapply spec_bind; [by apply spec_ask|]. intros l w3 Hg3 [-> Hs3]. eapply spec_weaken; [by apply spec_modify|].
    intros [] w4 _ [Hs4 ->]. split; [etrans; [exact Hs|]; etrans; [by apply same_weaken|exact Hs4]|]. intros _. cbn.
    destruct Hs as [-> _]. set_solver. }
  intros [] w3 Hg3 [Hs3 Hl]. eapply spec_bind; [apply spec_modify; [done|]|].
  { intros sid v. cbn. by intros [? _]%map_lookup_filter_Some. }
  intros [] w4 Hg4 [Hs4 Em4]. eapply spec_bind; [by apply spec_memory|]. intros m w5 Hg5 [-> Hs5]. apply spec_ret; [done|].
  rewrite Em4. cbn [set_feed unsettled]. split_and!.
  - etrans; [exact Hs3|]. etrans; [exact Hs4|]. by apply same_weaken.
  - rewrite isort_perm. apply NoDup_elements.
  - intros x Hx Hd. apply elem_of_list_to_set in Hx. rewrite elem_of_isort in Hx. apply elem_of_elements in Hx. set_solver.
  - intros Hli x Hx. apply elem_of_list_to_set, elem_of_isort, elem_of_elements. specialize (Hl Hli). set_solver.
Qed.

Lemma spec_count_open sids read void w : good w -> read ⊆ verdicts (bkt w) -> spec (count_open clock genesis sids read void) (fun _ w' => same_bucket w w') w.
Proof.
  intros Hg Hr. unfold count_open. set (f := fun (c : gmap Z open_row) (sid : string) => _).
  destruct (fold_result_ok f (fun _ => True) sids ∅ I) as (counts & E & _).
  { intros c sid _ _. unfold f. destruct (read !! sid) as [v|] eqn:Ev; [|by eexists].
    pose proof (ok_verdicts _ _ _ (good_ok w Hg) sid v (lookup_weaken _ _ _ _ Ev Hr)) as Hv. destruct (dated _ _ Hv) as (p & -> & _). cbn [mbind result_bind].
    destruct (passed v && _); [|by eexists]. destruct (or_zero _ _ Hv "token_count") as (n & -> & _); [by left|]. by eexists. }
  eapply spec_bind; [eapply (spec_pure _ (fun a w' => a = counts /\ w' = w)); done|]. intros ? ? _ [-> ->].
  eapply spec_bind; [by apply spec_now|]. intros t w1 Hg1 (_ & _ & Hs1). eapply spec_weaken; [by apply spec_modify|].
  intros [] w2 _ [Hs2 _]. etrans; [by apply same_weaken|done].
Qed.

Lemma spec_nothing_open w : good w -> spec (nothing_open clock) (fun _ w' => same_bucket w w' /\ exists t, seen t w') w.
Proof.
  intros Hg. unfold nothing_open. eapply spec_bind; [by apply spec_now|]. intros t w1 Hg1 (Ht & _ & Hs1).
  eapply spec_weaken; [by apply spec_modify|]. intros [] w2 _ [Hs2 _]. split; [etrans; [by apply same_weaken|done]|].
  exists t. eapply seen_later, Ht. by destruct Hs2.
Qed.

Lemma period_of_mono t t' g : t <= t' -> period_of t g <= period_of t' g.
Proof.
  intros H. unfold period_of, ffloor. pose proof fone_pos. apply Z.div_le_mono; [done|]. apply fdiv_mono_l; [by vm_compute|].
  unfold fsub. apply fround_mono; lia.
Qed.

Lemma closed_before t oldest : representable t -> closed_through t oldest genesis slack < period_of t genesis.
Proof.
  intros Ht. unfold closed_through. cbv zeta. assert (fsub t slack <= t) by by apply fsub_le.
  enough (period_of (match oldest with Some o => Z.min (fsub t slack) o | None => fsub t slack end) genesis <= period_of t genesis) by lia.
  apply period_of_mono. destruct oldest; lia.
Qed.

(** Every submission of [ids_] in a closed period is settled, and nothing is pending. *)
Definition closed_settled (oldest : option float) (ids_ : gset string) (w : world) : Prop :=
  pend (state_of (bkt w)) = None /\ exists t, seen t w /\
    forall sid v p, sid ∈ ids_ -> verdicts (bkt w0) !! sid = Some v -> work_period genesis v = Ok p ->
      p <= closed_through t oldest genesis slack -> sid ∈ settled (state_of (bkt w)).

Lemma spec_settle_new oldest s et sids w : good w -> settling s et w -> NoDup sids -> (list_to_set sids : gset string) ## settled s ->
  spec (settle_new clock fate genesis slack guard oldest s et sids) (fun _ w' => closed_settled oldest (list_to_set sids) w') w.
Proof.
  intros Hg Hs Hnd Hfresh. unfold settle_new. eapply spec_bind; [by apply spec_now|]. intros t w1 Hg1 (Hseen & Hrep & Hs1). cbv zeta.
  pose proof (settling_same _ _ _ _ (same_weaken _ _ Hs1) Hs) as Hst1. pose proof (closed_before t oldest Hrep) as Hc.
  eapply spec_bind; [by apply spec_read_verdicts|]. intros read w2 Hg2 (Hs2 & Hr & Hall).
  eapply spec_bind; [by apply spec_ask|]. intros void w3 Hg3 [-> Hs3].
  pose proof (same_weaken _ _ (transitivity Hs2 Hs3)) as Hs13. assert (read ⊆ verdicts (bkt w3)) as Hr3 by by destruct Hs13 as [-> _].
  eapply spec_bind; [by apply spec_count_open|]. intros [] w4 Hg4 Hs4. pose proof (settling_same _ _ _ _ (transitivity Hs13 Hs4) Hst1) as Hst4.
  assert (read ⊆ verdicts (bkt w4)) as Hr4 by by destruct Hs4 as [-> _].
  destruct (by_period_due (closed_through t oldest genesis slack) (bkt w4) read t s sids) as (todo & Et & Hdue & Hnd' & Hcover);
    [apply (ok_verdicts _ _ _ (good_ok w4 Hg4))|done|done|done|done|].
  eapply spec_bind; [eapply (spec_pure _ (fun a w' => a = todo /\ w' = w4)); done|]. intros ? ? _ [-> ->].
  assert (read ⊆ verdicts (bkt w0)) as Hr0 by (by rewrite <- (grew_verdicts _ (proj2 Hg4))).
  assert (ticks w4 >= ticks w1)%nat as Ht4 by (destruct Hs13, Hs4; lia).
  eapply spec_weaken; [by apply spec_later, spec_settle_periods|].
  intros r w5 Hg5 [[Hp Hset] Ht5]. split; [done|]. exists t. split; [eapply seen_later; [|done]; lia|].
  intros sid v p Hin Hv Hw Hle. rewrite Hset. apply elem_of_union_r. apply elem_of_list_to_set in Hin.
  apply (Hcover sid v p); [done| |done|done]. rewrite Hall by done. destruct Hs1 as [[Eb1 _] _].
  by rewrite (grew_verdicts _ (proj2 Hg1)).
Qed.

(** What a pass from [w] promises of the one it leaves: the recorded payment is finished, or
    every submission of a closed period is settled. *)
Definition pass_done (oldest : result (option float)) (ready : option (list string -> result (gset string))) (w : world)
    (r : option Z) (w' : world) : Prop :=
  match pend (state_of (bkt w)) with
  | Some p => r = Some (work p) /\ pend (state_of (bkt w')) = None /\ list_to_set (ids p) ⊆ settled (state_of (bkt w'))
  | None => doc (bkt w) <> Some WindowState -> ready = None -> listing w -> forall o, oldest = Ok o ->
      closed_settled o (dom (verdicts (bkt w))) w'
  end.

Lemma pass_done_same oldest ready w w1 r w' : same w w1 -> pass_done oldest ready w1 r w' -> pass_done oldest ready w r w'.
Proof. intros [[Eb _] Em]. unfold pass_done, listing. by rewrite Eb, Em. Qed.

Lemma spec_settle_from oldest ready s w : good w -> bkt w = bkt w0 -> same_books s (state_of (bkt w)) ->
  (forall e, oldest = Raise e -> e = LookupError \/ blame) -> (forall f l e, ready = Some f -> f l = Raise e -> blame) ->
  spec (settle_from clock fate genesis slack every guard oldest ready s (etag (bkt w))) (pass_done oldest ready w) w.
Proof.
  intros Hg Hstart Hbk Hold Hready. unfold settle_from. eapply spec_bind; [by apply spec_report|]. intros [] w1 Hg1 (Hs1 & _ & El1).
  assert (bkt w1 = bkt w) as Eb1 by apply Hs1. unfold pass_done. pose proof Hbk as (Hset & Epend & _). rewrite <- Epend.
  destruct (pend s) as [p|] eqn:Hp.
  { assert (holds s p (etag (bkt w)) w1) as Hh by (unfold holds; by rewrite Eb1).
    eapply spec_bind; [by apply spec_finish|]. intros r w2 Hg2 (-> & (s' & Hd & Hp' & Hs') & _). apply spec_ret; [done|].
    unfold state_of. rewrite Hd. split_and!; [done|done|]. rewrite Hs'. set_solver. }
  assert (settling s (etag (bkt w)) w1) as Hst by (unfold settling; by rewrite Eb1).
  eapply spec_bind; [by apply spec_verdict_ids|]. intros sids w2 Hg2 (Hs2 & Hnd & Hfresh & Hlist).
  assert (listing w -> listing w1) as Hli by (unfold listing; by rewrite El1).
  assert (same_bucket w w2) as Hs02 by by etrans. rewrite Eb1 in Hlist. pose proof (settling_same _ _ _ _ Hs2 Hst) as Hst2.
  case_bool_decide as Hempty.
  { eapply spec_bind; [by apply spec_nothing_open|]. intros [] w3 Hg3 [Hs3 (t & Ht)]. apply spec_ret; [done|]. intros _ _ Hl o _.
    assert (bkt w3 = bkt w) as Eb3 by (destruct Hs3, Hs02; congruence). unfold closed_settled. rewrite Eb3, <- Epend, <- Hset.
    split; [done|]. exists t. split; [done|]. intros sid v p Hin _ _ _. specialize (Hlist (Hli Hl)). subst sids. set_solver. }
  assert (forall o l, NoDup l -> (list_to_set l : gset string) ## settled s ->
    spec (settle_new clock fate genesis slack guard o s (etag (bkt w)) l) (fun _ w' => closed_settled o (list_to_set l) w') w2) as Hnew
    by (intros; by apply spec_settle_new).
  destruct oldest as [o|e].
  - destruct ready as [f|].
    + eapply (spec_bind _ _ (fun _ w' => same w2 w')).
      { apply wp_pure; [done|]. intros e He. split; [done|]. by eapply Hready. }
      intros pay w3 Hg3 Hs3. cbv zeta. case_bool_decide.
      * eapply spec_bind; [by apply spec_nothing_open|]. intros [] w4 Hg4 _. apply spec_ret; [done|]. by intros _ [=].
      * eapply spec_weaken; [apply spec_settle_new; [done|eapply settling_same; [by apply same_weaken|done]|by apply NoDup_filter|]|by intros ? ? _ _ _ [=]].
        intros x Hx. apply Hfresh. apply elem_of_list_to_set in Hx. apply elem_of_list_to_set. by apply list_elem_of_filter in Hx as [_ ?].
    + eapply spec_weaken; [by apply Hnew|]. intros r w3 Hg3 [Hp3 (t & Ht & Hall)] _ _ Hl o' [= <-]. split; [done|]. exists t. split; [done|].
      intros sid v p Hin Hv Hw Hle. destruct (decide (sid ∈ settled s)) as [Hin'|Hout].
      { apply (grew_settled _ (proj2 Hg3)). by rewrite <- Hstart, <- Hset. }
      apply (Hall sid v p); [|done|done|done]. specialize (Hlist (Hli Hl)). set_solver.
  - destruct e; try (apply spec_ret; [done|]; by intros _ _ _ o [=]).
    all: apply wp_pure; [done|]; intros e He; split; [done|]; destruct (Hold _ eq_refl); [done|done].
Qed.

Lemma spec_settle_once oldest ready w : good w -> bkt w = bkt w0 -> (forall e, oldest = Raise e -> e = LookupError \/ blame) ->
  (forall f l e, ready = Some f -> f l = Raise e -> blame) ->
  spec (settle_once clock fate genesis slack every guard oldest ready) (pass_done oldest ready w) w.
Proof.
  intros Hg Hstart Hold Hready. unfold settle_once. eapply spec_bind; [by apply spec_ask|]. intros [d et] w1 Hg1 [[= -> ->] Hs1].
  destruct (doc (bkt w)) as [[|s]|] eqn:Ed.
  { apply spec_ret; [done|]. unfold pass_done, state_of. rewrite Ed. done. }
  all: eapply spec_weaken; [|intros r w' _ H; by eapply pass_done_same]; destruct Hs1 as [[Eb1 Ht1] Em1]; rewrite <- Eb1;
    apply spec_settle_from; [done|congruence| |done|done]; unfold state_of; by rewrite Eb1, Ed.
Qed.
End pass.

(** ** Runs of the settler *)

Section runs.
Context (clock : nat -> float) (fate : nat -> fault) (genesis slack : float) (every : option float) (guard : result unit).

Definition with_verdict (sid : string) (v : json) (b : bucket) : bucket :=
  Bucket (<[sid := v]> (verdicts b)) (voided b) (doc b) (version b) (archives b).
Definition with_voided (sid : string) (b : bucket) : bucket :=
  Bucket (verdicts b) ({[sid]} ∪ voided b) (doc b) (version b) (archives b).

(** A pass, whatever its calls' fates; the auditor writes a verdict once, voids one, feeds the
    settler; the registry moves the cap and the prices; the process restarts. *)
Inductive settler_step (w : world) : world -> Prop :=
  | step_pass oldest ready : settler_step w (settle_once clock fate genesis slack every guard oldest ready w).2
  | step_verdict sid v : verdicts (bkt w) !! sid = None -> verdict_ok genesis v ->
      settler_step w (World (with_verdict sid v (bkt w)) (mem w) (ticks w) (calls w))
  | step_void sid : settler_step w (World (with_voided sid (bkt w)) (mem w) (ticks w) (calls w))
  | step_observe sid v : (forall x, v = Some x -> verdicts (bkt w) !! sid = Some x) ->
      settler_step w (World (bkt w) (observe sid v (mem w)) (ticks w) (calls w))
  | step_cap c : settler_step w (World (bkt w) (set_cap c (mem w)) (ticks w) (calls w))
  | step_price p : settler_step w (World (bkt w) (set_max_price p (mem w)) (ticks w) (calls w))
  | step_input p : settler_step w (World (bkt w) (set_max_input_price p (mem w)) (ticks w) (calls w))
  | step_restart c p i : settler_step w (World (bkt w) (new_settler c p i) (ticks w) (calls w)).

(** A job not settled yet. *)
Definition first_world (c : float) (p i : option float) : world := World (Bucket ∅ ∅ None 0 ∅) (new_settler c p i) 0 0.
Definition reachable (w : world) : Prop := exists c p i, rtc settler_step (first_world c p i) w.

Hypothesis Hclock : forall n, representable (clock n).
Hypothesis Hslack : 0 <= slack.

Lemma good_start w : sound genesis w -> good clock genesis w w.
Proof. intros H. split; [done|]. split; try done. intros k d -> [=]. Qed.

(** A pass from sound books, its calls failing or not. *)
Lemma pass_safe oldest ready w : sound genesis w -> good clock genesis w (settle_once clock fate genesis slack every guard oldest ready w).2.
Proof.
  intros H. pose proof (spec_settle_once clock fate genesis slack every guard w True) as S.
  specialize (S Hclock Hslack (fun _ _ _ => I) (or_intror I) oldest ready w (good_start w H) eq_refl (fun _ _ => or_intror I) (fun _ _ _ _ _ => I)).
  unfold spec, wp in S. destruct (settle_once _ _ _ _ _ _ _ _ w) as [[r|e] w']; cbn; tauto.
Qed.

Lemma step_sound w w' : sound genesis w -> settler_step w w' -> sound genesis w'.
Proof.
  intros H. pose proof H as [Hok Hf]. destruct 1 as [oldest ready|sid v Hn Hv|sid|sid v Hv|c|p|p|c p i]; [| | | |done|done|done|].
  - apply (proj1 (pass_safe oldest ready w H)).
  - split; [|intros x u Hx; cbn; rewrite lookup_insert_ne; [by apply Hf|intros ->; pose proof (Hf _ _ Hx); congruence]].
    change (state_of (bkt (World (with_verdict sid v (bkt w)) (mem w) (ticks w) (calls w)))) with (state_of (bkt w)). cbn [bkt].
    destruct Hok as [O1 O2 O3 O4 O5 O6]. split; [|exact O2| | |exact O5|exact O6].
    + intros x u. cbn. intros [[<- <-]|[_ Hu]]%lookup_insert_Some; [done|by eapply O1].
    + intros q Hq. destruct (O3 q Hq) as [P1 P2 P3 P4 P5]. by split.
    + intros p. etrans; [apply O4|]. apply set_sum_mono; [done| |].
      * intros x _. unfold worth. cbn. destruct (decide (x = sid)) as [->|Hne]; [|by rewrite lookup_insert_ne].
        rewrite lookup_insert_eq, Hn. cbn. unfold worth_of. destruct (counted _ _ Hv) as (m & -> & Hm). by case_match.
      * intros x. apply worth_nonneg. cbn. intros u [[<- <-]|[_ Hu]]%lookup_insert_Some; [done|by eapply O1].
  - split; [|exact Hf]. by apply (books_frame genesis (bkt w)).
  - split; [exact Hok|]. intros x u. cbn. destruct v as [v|]; [|by apply Hf].
    intros [[<- <-]|[_ Hu]]%lookup_insert_Some; [by apply Hv|by apply Hf].
  - split; [exact Hok|]. intros x u. cbn. by rewrite lookup_empty.
Qed.

Lemma reachable_sound w : reachable w -> sound genesis w.
Proof.
  intros (c & p & i & H). eapply rtc_invariant; [exact step_sound| |exact H]. split; [|by intros sid v].
  by split.
Qed.

Lemma dom_sum b p X : (forall sid v, verdicts b !! sid = Some v -> verdict_ok genesis v) ->
  set_sum (worth genesis b p) X <= set_sum (worth genesis b p) (dom (verdicts b)).
Proof.
  intros Hv. set (D := dom (verdicts b)). rewrite (union_difference_L (X ∩ D) X), set_sum_union by set_solver.
  assert (set_sum (worth genesis b p) (X ∖ (X ∩ D)) <= set_sum (fun _ => 0) (X ∖ (X ∩ D))) as H0.
  { apply Zsum_le. intros x Hx. apply elem_of_elements in Hx. unfold worth. assert (x ∉ D) as Hn by set_solver.
    by rewrite (proj1 (not_elem_of_dom _ _) Hn). }
  unfold set_sum at 2 in H0. rewrite Zsum_fmap_const in H0.
  assert (set_sum (worth genesis b p) (X ∩ D) <= set_sum (worth genesis b p) D); [|lia].
  apply set_sum_mono; [set_solver|done|]. intros x. apply worth_nonneg. by intros v; apply Hv.
Qed.

(** C2: a token is paid at most once.  Whatever calls fail and whenever the settler stops, the
    archives of a period pay for exactly the tokens booked for it and those of an archive written
    and not booked yet; together, for no more than the submissions settled or pending earned, and
    so for no more than the tokens verified in that period. *)
Theorem tokens_paid_once (w : world) (p : Z) : reachable w ->
  let b := bkt w in let s := state_of b in
  archived b p = recorded s p + in_flight b s p /\
  archived b p <= set_sum (worth genesis b p) (settled s ∪ pending_ids s) /\
  archived b p <= set_sum (worth genesis b p) (dom (verdicts b)).
Proof.
  intros [Hok _]%reachable_sound. cbv zeta. pose proof Hok as [O1 O2 O3 O4 O5 O6]. rewrite (O2 p).
  assert (in_flight (bkt w) (state_of (bkt w)) p <= pending_tokens (state_of (bkt w)) p) as Hle.
  { unfold in_flight, pending_tokens. destruct (pend (state_of (bkt w))) as [q|] eqn:Eq; [|done].
    pose proof (pending_positive _ _ _ (O3 q eq_refl)). destruct (work q =? p), (bool_decide _); cbn; lia. }
  specialize (O4 p). split_and!; [done|lia|]. etrans; [|by apply (dom_sum _ p (settled (state_of (bkt w)) ∪ pending_ids (state_of (bkt w))))]. lia.
Qed.

(** Pay enters ahead of the clock, beside few others, and stays.  Whatever fails during a
    pass, it deletes and changes no archive and unsettles nothing; each archive it writes enters
    after a period the pass read the clock in, so no weight of it is skipped; and no period ever
    holds more than [CATCHUP_ENTRIES] entries. *)
Theorem archives_enter_ahead (w : world) (oldest : result (option float)) (ready : option (list string -> result (gset string))) :
  reachable w -> let w' := (settle_once clock fate genesis slack every guard oldest ready w).2 in
  archives (bkt w) ⊆ archives (bkt w') /\ settled (state_of (bkt w)) ⊆ settled (state_of (bkt w')) /\  (forall k d, archives (bkt w') !! k = Some d -> archives (bkt w) !! k = None ->
    exists n, (ticks w <= n < ticks w')%nat /\ period_of (clock n) genesis < k.2) /\
  forall e, count_in e (entries (bkt w')) <= CATCHUP_ENTRIES.
Proof.
  intros H%reachable_sound. cbv zeta. destruct (pass_safe oldest ready w H) as [[Hok _] [G1 G2 G3 G4 G5 G6 G7]].
  split_and!; [done|done| |apply (ok_entries _ _ _ Hok)]. intros k d Hd Hk. destruct (G7 k d Hd Hk) as (t & (n & -> & Hn) & Hlt). eauto.
Qed.

(** C11: a pass whose calls succeed settles.  From any state a run of failures left, when the
    bucket answers again the pass does not raise: a payment left pending is finished, its
    submissions settled; and with none pending every submission of a closed period is settled
    (the bucket being listed), with nothing pending after. *)
Theorem healthy_pass_settles (w : world) (o : option float) :
  reachable w -> guard = Ok tt -> (forall n, (calls w <= n)%nat -> fate n = Fine) -> doc (bkt w) <> Some WindowState -> listing every w ->
  exists r, (settle_once clock fate genesis slack every guard (Ok o) None w).1 = Ok r /\
  let w' := (settle_once clock fate genesis slack every guard (Ok o) None w).2 in
  match pend (state_of (bkt w)) with
  | Some p => r = Some (work p) /\ pend (state_of (bkt w')) = None /\ list_to_set (ids p) ⊆ settled (state_of (bkt w'))
  | None => closed_settled clock genesis slack w o (dom (verdicts (bkt w))) w'
  end.
Proof.
  intros Hr Hg Hfine Hd Hl. apply reachable_sound in Hr.
  pose proof (spec_settle_once clock fate genesis slack every guard w False Hclock Hslack
    (fun n Hn F => F (Hfine n Hn)) (or_introl Hg) (Ok o) None w (good_start w Hr) eq_refl) as S.
  specialize (S ltac:(done) ltac:(done)). unfold spec, wp in S.
  destruct (settle_once _ _ _ _ _ _ _ _ w) as [[r|e] w']; cbn; [|by destruct S]. exists r. split; [done|].
  destruct S as [_ S]. unfold pass_done in S. destruct (pend _); [done|]. by apply S.
Qed.
End runs.

(** ** The split of a period's pool *)

Section split.
Context {A : Type} (add : A -> A -> A) (zero : A).

Lemma hotkey_bump_lookup key f (d : list (string * A)) : (list_to_map (bump key f zero d) : gmap string A) =
  <[key := f (default zero ((list_to_map d : gmap string A) !! key))]> (list_to_map d).
Proof.
  induction d as [|[k v] d IH]; cbn; [by rewrite insert_empty|]. destruct (String.eqb_spec k key) as [->|Hne]; cbn.
  - by rewrite lookup_insert_eq, insert_insert_eq.
  - by rewrite lookup_insert_ne, IH, insert_insert_ne by done.
Qed.

Lemma bump_keys key f d x : x ∈ (bump key f zero d).*1 <-> x = key \/ x ∈ d.*1.
Proof.
  induction d as [|[k v] d IH]; cbn; [set_solver|]. destruct (String.eqb_spec k key) as [->|Hne]; cbn; rewrite !elem_of_cons, ?IH; tauto.
Qed.

Lemma bump_nodup key f d : NoDup d.*1 -> NoDup (bump key f zero d).*1.
Proof.
  induction d as [|[k v] d IH]; cbn; intros H; [apply NoDup_singleton|]. apply NoDup_cons in H as [Hn Hd].
  destruct (String.eqb_spec k key) as [->|Hne]; cbn; [by constructor|]. constructor; [|by apply IH].
  intros [->|?]%bump_keys; done.
Qed.

(** The keys of the sum: the hotkeys of the verdicts that count. *)
Lemma by_hotkey_keys counts worth_ batch d : by_hotkey add zero counts worth_ batch = Ok d ->
  NoDup d.*1 /\ forall h, h ∈ d.*1 <-> exists v, v ∈ batch /\ counts v = true /\ hotkey_of v = Ok h.
Proof.
  unfold by_hotkey. set (f := fun (d : list (string * A)) (v : json) => _).
  assert (forall l d0 d, fold_result f d0 l = Ok d -> NoDup d0.*1 -> NoDup d.*1 /\
    forall h, h ∈ d.*1 <-> h ∈ d0.*1 \/ exists v, v ∈ l /\ counts v = true /\ hotkey_of v = Ok h) as H.
  - induction l as [|v l IH]; intros d0 d'; cbn [fold_result]; [intros [= ->] Hd; split; [done|]; set_solver|].
    intros (d1 & E1 & E2)%bind_ok_inv Hd. unfold f in E1. destruct (counts v) eqn:Ec.
    + apply bind_ok_inv in E1 as (h1 & Eh & (x & _ & [= <-])%bind_ok_inv).
      destruct (IH _ _ E2) as [Hn Hk]; [by apply bump_nodup|]. split; [done|]. intros h. rewrite Hk, bump_keys.
      split; [intros [[->|?]|(u & ? & ? & ?)]; [right; exists v|by left|right; exists u]; set_solver|].
      intros [?|(u & [->|Hu]%elem_of_cons & Hc & Hh)]; [tauto|left; left; congruence|right; eauto].
    + injection E1 as <-. destruct (IH _ _ E2 Hd) as [Hn Hk]. split; [done|]. intros h. rewrite Hk.
      split; [intros [?|(u & ? & ? & ?)]; [by left|right; exists u; set_solver]|].
      intros [?|(u & [->|Hu]%elem_of_cons & Hc & Hh)]; [by left|congruence|right; eauto].
  - intros E. destruct (H _ _ _ E ltac:(constructor)) as [Hn Hk]. split; [done|]. intros h. rewrite Hk. cbn. set_solver.
Qed.
End split.

(** What hotkey [h] delivered. *)
Definition delivered (h : string) (v : json) : Z :=
  if passed v && bool_decide (hotkey_of v = Ok h) then match token_count v with Ok n => n | Raise _ => 0 end else 0.
Definition delivered_in (batch : list json) : Z :=
  Zsum ((fun v => if passed v then match token_count v with Ok n => n | Raise _ => 0 end else 0) <$> batch).

Lemma Zsum_bump key n d : Zsum (bump key (fun y => y + n) 0 d).*2 = Zsum d.*2 + n.
Proof. unfold Zsum. induction d as [|[k v] d IH]; cbn; [lia|]. destruct (String.eqb k key); cbn in *; lia. Qed.

Lemma tokens_by_hotkey batch d : by_hotkey Z.add 0 passed token_count batch = Ok d ->
  (forall h n, (list_to_map d : gmap string Z) !! h = Some n -> n = Zsum (delivered h <$> batch)) /\ Zsum d.*2 = delivered_in batch.
Proof.
  unfold by_hotkey. set (f := fun (d : list (string * Z)) (v : json) => _).
  assert (forall l d0 d, fold_result f d0 l = Ok d ->
    (forall h, default 0 ((list_to_map d : gmap string Z) !! h) = default 0 ((list_to_map d0 : gmap string Z) !! h) + Zsum (delivered h <$> l)) /\
    Zsum d.*2 = Zsum d0.*2 + delivered_in l) as H.
  - induction l as [|v l IH]; intros d0 d'; cbn [fold_result].
    { intros [= ->]. unfold delivered_in, Zsum. cbn. split; [intros h|]; lia. }
    intros (d1 & E1 & E2)%bind_ok_inv. unfold delivered_in. cbn [fmap list_fmap]. change (Zsum (?x :: ?l)) with (x + Zsum l).
    unfold f in E1. destruct (passed v) eqn:Ec.
    + apply bind_ok_inv in E1 as (h1 & Eh & (x & Ex & [= <-])%bind_ok_inv). destruct (IH _ _ E2) as [Hd Hs]. rewrite Ex. split.
      * intros h. rewrite Hd, hotkey_bump_lookup. unfold delivered at 2. rewrite Ec, Ex, Eh. cbn [andb]. destruct (decide (h = h1)) as [->|Hne].
        -- rewrite lookup_insert_eq, bool_decide_true by done. cbn. lia.
        -- rewrite lookup_insert_ne, bool_decide_false by congruence. lia.
      * rewrite Hs, Zsum_bump. unfold delivered_in. lia.
    + injection E1 as <-. destruct (IH _ _ E2) as [Hd Hs]. split; [|rewrite Hs; unfold delivered_in; lia].
      intros h. rewrite Hd. unfold delivered at 2. rewrite Ec. cbn. lia.
  - intros E. destruct (H _ _ _ E) as [Hd Hs]. split; [|exact Hs]. intros h n Hn. specialize (Hd h). rewrite Hn in Hd. cbn in Hd.
    rewrite lookup_empty in Hd. cbn in Hd. lia.
Qed.

(** A period's pool goes to work that passed.  Under every pricing a paid hotkey has a
    submission of the period that passed and is not voided; and with neither lease prices nor an
    input price, everyone who delivered is paid, the pool times its tokens over all of them. *)
Theorem pool_goes_to_passed (read : gmap string json) (void : gset string) (sids : list string) (pool : float)
    (price input : option float) (share : list (string * float)) :
  let batch := batch_of void read sids in
  rewards_for batch pool price input = Ok share ->
  (forall h, h ∈ share.*1 -> exists sid v, sid ∈ sids /\ sid ∉ void /\ read !! sid = Some v /\ passed v = true /\ hotkey_of v = Ok h) /\
  (existsb has_lease batch = false -> input = None -> 0 < delivered_in batch -> forall h x,
    (h, x) ∈ share <-> (exists v, v ∈ batch /\ passed v = true /\ hotkey_of v = Ok h) /\
      x = fdiv (fmul pool (of_int (Zsum (delivered h <$> batch)))) (of_int (delivered_in batch))).
Proof.
  intros batch E. split.
  - assert (forall h, (exists v, v ∈ batch /\ passed v = true /\ hotkey_of v = Ok h) ->
      exists sid v, sid ∈ sids /\ sid ∉ void /\ read !! sid = Some v /\ passed v = true /\ hotkey_of v = Ok h) as Hb.
    { intros h (v & Hv & Hp & Hh). unfold batch, batch_of in Hv. apply list_elem_of_omap in Hv as (sid & Hs & Ev).
      destruct (read !! sid) as [u|] eqn:Er; cbn in Ev; [|done]. injection Ev as Ev. case_bool_decide as Hvoid; [|subst u; eauto 10].
      subst v. unfold passed in Hp. by rewrite dict_get_set in Hp. }
    intros h Hh. apply Hb. revert E. unfold rewards_for, priced_rewards. case_match.
    + intros (d & Ed & Hs)%bind_ok_inv. destruct (by_hotkey_keys _ _ _ _ _ _ Ed) as [_ Hk].
      assert (h ∈ d.*1) as (v & Hv & Hc & Hn)%Hk; [|eauto using has_lease_passed]. cbv zeta in Hs. destruct (_ <=? 0); injection Hs as <-; [by apply not_elem_of_nil in Hh|].
      apply list_elem_of_fmap in Hh as ([h' x] & -> & Hx). apply list_elem_of_filter in Hx as [_ Hx]. apply list_elem_of_fmap in Hx as ([h'' y] & [= -> ->] & Hy).
      apply list_elem_of_filter in Hy as [_ Hy]. apply list_elem_of_fmap. by exists (h'', y).
    + assert (forall B (l : list (string * B)) (g : string * B -> float) c, share = (if c : bool then [] else (fun hv => (hv.1, g hv)) <$> l) -> h ∈ l.*1) as Hl.
      { intros B l g c ->. destruct c; [by apply not_elem_of_nil in Hh|]. apply list_elem_of_fmap in Hh as (? & -> & Hx).
        apply list_elem_of_fmap in Hx as (y & -> & Hy). apply list_elem_of_fmap. by exists y. }
      destruct input as [i|]; [destruct price as [p|]|]; intros (d & Ed & Hs)%bind_ok_inv; cbv zeta in Hs; injection Hs as Hs; symmetry in Hs;
        destruct (by_hotkey_keys _ _ _ _ _ _ Ed) as [_ Hk]; apply Hk; exact (Hl _ _ _ _ Hs).
  - intros Hl -> Hpos h x. unfold rewards_for in E. rewrite Hl in E. apply bind_ok_inv in E as (d & Ed & Hs). cbv zeta in Hs. injection Hs as <-.
    destruct (by_hotkey_keys _ _ _ _ _ _ Ed) as [Hn Hk]. destruct (tokens_by_hotkey _ _ Ed) as [Hd Ht].
    rewrite Ht. destruct (Z.leb_spec (delivered_in batch) 0); [lia|]. rewrite <- Hk. rewrite list_elem_of_fmap. split.
    + intros ([h' n] & [= -> ->] & Hx). split; [apply list_elem_of_fmap; by exists (h', n)|]. cbn.
      by rewrite (Hd h' n) by by apply elem_of_list_to_map.
    + intros [([h' n] & -> & Hx)%list_elem_of_fmap ->]. exists (h', n). split; [|done]. cbn. by rewrite (Hd h' n) by by apply elem_of_list_to_map.
Qed.

(** ** Witnesses *)

Definition example_clock (n : nat) : float := of_int 20000.
Definition example_verdict : json :=
  [("passed", VBool true); ("hotkey", VStr "miner"); ("token_count", VInt 10); ("received_at", VInt 0)]%string.
(** The seventh call, the archive's write, loses its answer. *)
Definition example_fate (n : nat) : fault := if Nat.eqb n 6 then Late RuntimeError else Fine.
Definition example_world : world :=
  World (with_verdict "s" example_verdict (Bucket ∅ ∅ None 0 ∅)) (new_settler fone None None) 0 0.
Abbreviation example_pass fate w := (settle_once example_clock fate 0 0 None (Ok tt) (Ok None) None w).

Lemma example_clock_ok n : representable (example_clock n).
Proof. apply of_int_representable. Qed.

Lemma example_period : work_period 0 example_verdict = Ok 0.
Proof. vm_compute. reflexivity. Qed.

Lemma example_verdict_ok : verdict_ok 0 example_verdict.
Proof.
  split; [exists 0; split; [exact example_period|done]|exists 10; done|exists "miner"%string; done|done|].
  intros name [-> | ->]; [by exists 10|by exists 0].
Qed.

Lemma example_world_reachable fate : reachable example_clock fate 0 0 None (Ok tt) example_world.
Proof. exists fone, None, None. apply rtc_once. apply (step_verdict _ _ _ _ _ _ (first_world fone None None)); [done|exact example_verdict_ok]. Qed.

Lemma example_pass_reachable fate : reachable example_clock fate 0 0 None (Ok tt) (example_pass fate example_world).2.
Proof. destruct (example_world_reachable fate) as (c & p & i & H). exists c, p, i. eapply rtc_r; [exact H|]. apply (step_pass _ _ _ _ _ _ _ (Ok None) None). Qed.

Lemma example_closed_through : closed_through (of_int 20000) None 0 0 = 3.
Proof. vm_compute. reflexivity. Qed.

Lemma tokens_paid_once_witness :
  reachable example_clock example_fate 0 0 None (Ok tt) (example_pass example_fate example_world).2 /\
  archived (bkt (example_pass example_fate example_world).2) 0 <= set_sum (worth 0 (bkt (example_pass example_fate example_world).2) 0)
    (dom (verdicts (bkt (example_pass example_fate example_world).2))).
Proof.
  split; [exact (example_pass_reachable example_fate)|].
  exact (proj2 (proj2 (tokens_paid_once example_clock example_fate 0 0 None (Ok tt) example_clock_ok (Z.le_refl 0) _ 0 (example_pass_reachable example_fate)))).
Defined.

Lemma archives_enter_ahead_witness :
  reachable example_clock example_fate 0 0 None (Ok tt) example_world /\
  forall e, count_in e (entries (bkt (example_pass example_fate example_world).2)) <= CATCHUP_ENTRIES.
Proof.
  split; [exact (example_world_reachable example_fate)|].
  exact (proj2 (proj2 (proj2 (archives_enter_ahead example_clock example_fate 0 0 None (Ok tt) example_clock_ok (Z.le_refl 0)
    example_world (Ok None) None (example_world_reachable example_fate))))).
Defined.

(** After the failed pass of [example_fate] an honest one settles the submission. *)
Lemma healthy_pass_settles_witness :
  "s"%string ∈ settled (state_of (bkt (example_pass (fun _ => Fine) example_world).2)).
Proof.
  destruct (healthy_pass_settles example_clock (fun _ => Fine) 0 0 None (Ok tt) example_clock_ok (Z.le_refl 0) example_world None
    (example_world_reachable (fun _ => Fine)) eq_refl (fun _ _ => eq_refl) ltac:(done) (or_introl eq_refl)) as (r & _ & _ & t & (n & -> & _) & H).
  apply (H "s"%string example_verdict 0); [|done|exact example_period|].
  - by apply elem_of_dom.
  - change (example_clock n) with (of_int 20000). rewrite example_closed_through. done.
Defined.

Lemma pool_goes_to_passed_witness : exists share,
  rewards_for (batch_of ∅ {["s"%string := example_verdict]} ["s"%string]) 0 None None = Ok share /\
  forall h, h ∈ share.*1 -> h = "miner"%string.
Proof.
  destruct (rewards_for_ok 0 (batch_of ∅ {["s"%string := example_verdict]} ["s"%string]) 0 None None) as (share & E & _).
  { intros v Hv _. vm_compute in Hv. apply list_elem_of_singleton in Hv as ->. exact example_verdict_ok. }
  exists share. split; [exact E|]. intros h Hh.
  destruct (proj1 (pool_goes_to_passed _ _ _ _ _ _ _ E) h Hh) as (sid & v & _ & _ & Hr & _ & Hn).
  apply lookup_singleton_Some in Hr as [_ <-]. vm_compute in Hn. congruence.
Defined.
