(* ===== verification/TokenAuction.v ===== *)
(** * TokenAuction: the token price auction of one draw job

    Models [reliquary/corpus/token_auction.py].  Prices, times and token means
    are floats (file [PyFloat]); every read of the clock inside a method is an
    argument of the model, in the order the code reads it.  The audit queue
    callback is the value it gives when it is read ([None]: not wired, answered
    [None], or raised).  The lock makes each method atomic. *)

From S2P Require Import Prelude PyFloat Periods.

#[local] Open Scope Z_scope.

(** ** Constants *)

Definition DEFAULT_ROUND_SECONDS : float := of_int 600.
Definition MIN_ROUND_SECONDS : float := of_int 60.
Definition MAX_ROUND_SECONDS : float := of_int 86400.
Definition DEFAULT_INITIAL_LEASES : Z := 64.
Definition MIN_LEASES : Z := 4.
Definition MAX_LEASES : Z := 100000.
Definition LEASES_CUT : float := flit 7 10.
Definition LEASES_GROW : float := flit 5 4.
Definition ASK_TTL_SECONDS : float := of_int 3600.
Definition MAX_ASK_ALPHA_PER_MTOKEN : float := of_int 1000000000.
Definition HISTORY_ROUNDS : nat := 144.
Definition TOKENS_EMA_WEIGHT : float := flit 5 100.
Definition MILLION : float := of_int 1000000.

(** ** Parameters *)

Record params := AuctionParams {
  ceiling : float;
  miner_alpha_per_period : float;
  round_seconds : float;
  initial_leases : Z;
}.

Definition share_of (p : params) (alpha_per_mtoken : float) : float :=
  fdiv (fdiv alpha_per_mtoken MILLION) (miner_alpha_per_period p).
Definition alpha_of (p : params) (share : float) : float :=
  fmul (fmul share MILLION) (miner_alpha_per_period p).

Definition PRICING_AUCTION : string := "auction".

(** The numbers of an auction with price ceiling [c]. *)
Definition auction_numbers (d : list (string * pyval)) (c : float) (emission : pyval) : result (option params) :=
  seconds ← to_float (dict_get_or "auction_round_seconds" d (VFloat DEFAULT_ROUND_SECONDS));
  if negb ((MIN_ROUND_SECONDS <=? seconds) && (seconds <=? MAX_ROUND_SECONDS)) then Raise ValueError
  else
    initial ← to_float (dict_get_or "auction_initial_leases" d (VInt DEFAULT_INITIAL_LEASES));
    if negb (initial =? ftrunc initial * fone)
       || negb ((MIN_LEASES <=? ftrunc initial) && (ftrunc initial <=? MAX_LEASES))
    then Raise ValueError
    else
      alpha ← to_float emission;
      if negb ((0 <? c) && (0 <? alpha)) then Raise ValueError
      else Ok (Some (AuctionParams c alpha seconds (ftrunc initial))).

(** [auction_params]: [None] when the job is not priced by auction. *)
Definition auction_params (registry : pyval) : result (option params) :=
  match registry with
  | VDict d =>
      match dict_get "pricing" d with
      | VNone => Ok None
      | VStr kind =>
          if negb (String.eqb kind PRICING_AUCTION) then Raise ValueError
          else
            price ← max_price d;
            match price, dict_get "max_price_miner_alpha_per_period" d with
            | None, _ | _, VNone => Raise ValueError
            | Some c, emission => auction_numbers d c emission
            end
      | _ => Raise ValueError
      end
  | _ => Ok None
  end.

(** ** State *)

Record terms := Terms { term_price : float; term_round : Z }.

Record round_record := RoundRecord {
  rr_round : option Z;
  rr_price_alpha : float;
  rr_leases : Z;
  rr_granted : Z;
  rr_full : Z;
  rr_priced_out : Z;
  rr_backlog : option Z;
}.

Record auction := Auction {
  prm : params;
  asks : gmap string (float * float);   (* hotkey -> (price share, posted at) *)
  target : float;
  round : option Z;
  round_price : float;
  leases : Z;
  granted : Z;
  full : Z;                              (* refusals for round_full *)
  priced_out : Z;                        (* refusals for ask_above_price *)
  debt : gmap string float;
  mean_tokens : float;
  history : list round_record;
}.

(** [TokenAuction.__init__] *)
Definition new_auction (p : params) (mean : float) : auction :=
  Auction p ∅ (ceiling p) None (ceiling p) (initial_leases p) 0 0 0 ∅ mean [].

(** [job_auction]: the auction a job declares; an invalid declaration is not run. *)
Definition job_auction (registry : pyval) (mean : float) : result (option auction) :=
  match auction_params registry with
  | Raise ValueError => Ok None
  | Raise e => Raise e
  | Ok None => Ok None
  | Ok (Some p) => Ok (Some (new_auction p mean))
  end.

Definition set_asks (a : gmap string (float * float)) (s : auction) : auction :=
  Auction (prm s) a (target s) (round s) (round_price s) (leases s) (granted s) (full s)
    (priced_out s) (debt s) (mean_tokens s) (history s).
Definition set_counts (g f o : Z) (s : auction) : auction :=
  Auction (prm s) (asks s) (target s) (round s) (round_price s) (leases s) g f o
    (debt s) (mean_tokens s) (history s).
Definition set_debt (d : gmap string float) (s : auction) : auction :=
  Auction (prm s) (asks s) (target s) (round s) (round_price s) (leases s) (granted s) (full s)
    (priced_out s) d (mean_tokens s) (history s).
Definition set_mean (m : float) (s : auction) : auction :=
  Auction (prm s) (asks s) (target s) (round s) (round_price s) (leases s) (granted s) (full s)
    (priced_out s) (debt s) m (history s).

(** ** Asks *)

Definition expired (now posted : float) : bool := ASK_TTL_SECONDS <? fsub now posted.

(** [_live_ask]: an expired ask is deleted when it is read. *)
Definition live_ask (hotkey : string) (now : float) (s : auction) : option float * auction :=
  match asks s !! hotkey with
  | None => (None, s)
  | Some (price, posted) =>
      if expired now posted then (None, set_asks (delete hotkey (asks s)) s)
      else (Some price, s)
  end.

Definition ask_of (hotkey : string) (now : float) (s : auction) : option float * auction :=
  live_ask hotkey now s.

(** [_live_prices]: every expired ask deleted, the distinct prices left, sorted. *)
Definition live_asks (now : float) (a : gmap string (float * float)) : gmap string (float * float) :=
  filter (fun kv => expired now kv.2.2 = false) a.
Definition prices (a : gmap string (float * float)) : list float :=
  merge_sort Z.le (remove_dups ((fun kv => kv.2.1) <$> map_to_list a)).
Definition live_prices (now : float) (s : auction) : list float * auction :=
  let a := live_asks now (asks s) in (prices a, set_asks a s).

(** ** Rounds *)

Definition index_of (p : params) (now : float) : Z := ffloor (fdiv now (round_seconds p)).

(** The leases of the next round, from this round's and the audit queue. *)
Definition next_leases (n : Z) (saturated : bool) (backlog : option Z) : Z :=
  match backlog with
  | Some b =>
      if n <? b then Z.max MIN_LEASES (ftrunc (fmul (of_int n) LEASES_CUT))
      else if saturated && (b * fone <=? flit n 2)
           then Z.min MAX_LEASES (Z.max (n + 1) (ftrunc (fmul (of_int n) LEASES_GROW)))
           else n
  | None => n
  end.

(** A deque of at most [HISTORY_ROUNDS] entries. *)
Definition push_history {A} (x : A) (h : list A) : list A :=
  let h' := h ++ [x] in drop (length h' - HISTORY_ROUNDS) h'.

Definition close (now : float) (backlog : option Z) (s : auction) : auction :=
  let saturated := (leases s <=? granted s) && (0 <? full s) in
  let '(ps, s1) := live_prices now s in
  let target' :=
    if saturated then
      match last (filter (fun p => p < round_price s) ps) with Some p => p | None => target s end
    else if (granted s <? leases s) && (0 <? priced_out s) then
      match head (filter (fun p => round_price s < p /\ p <= ceiling (prm s)) ps) with
      | Some p => p
      | None => target s
      end
    else target s in
  Auction (prm s) (asks s1) target' (round s) (round_price s) (next_leases (leases s) saturated backlog)
    (granted s) (full s) (priced_out s) (debt s) (mean_tokens s)
    (push_history (RoundRecord (round s) (alpha_of (prm s) (round_price s)) (leases s) (granted s)
                     (full s) (priced_out s) backlog) (history s)).

Definition open (index : Z) (now : float) (s : auction) : auction :=
  let '(ps, s1) := live_prices now s in
  let price := match last (filter (fun p => p <= target s) ps) with Some p => p | None => target s end in
  Auction (prm s) (asks s1) price (Some index) price (leases s) 0 0 0 (debt s) (mean_tokens s) (history s).

(** [_roll] *)
Definition roll (now : float) (backlog : option Z) (s : auction) : auction :=
  let index := index_of (prm s) now in
  match round s with
  | Some r => if r =? index then s else open index now (close now backlog s)
  | None => open index now s
  end.

(** [post_ask]: [alpha] is [None] when [float()] of it raises or is not finite;
    [now1] is read by [_roll], [now2] when the ask is recorded.  The answer is
    whether the ask was refused ([invalid_ask]). *)
Definition post_ask (hotkey : string) (alpha : option float) (now1 now2 : float) (backlog : option Z)
    (s : auction) : bool * auction :=
  match alpha with
  | Some a =>
      if (0 <? a) && (a <=? MAX_ASK_ALPHA_PER_MTOKEN) then
        let s1 := roll now1 backlog s in
        (false, set_asks (<[hotkey := (share_of (prm s1) a, now2)]> (asks s1)) s1)
      else (true, s)
  | None => (true, s)
  end.

(** ** Leases *)

Inductive refusal := NO_ASK | ASK_ABOVE_PRICE | ROUND_FULL.

(** [admit] *)
Definition admit_hotkey (hotkey : string) (now1 now2 : float) (backlog : option Z) (s : auction)
    : (terms + refusal) * auction :=
  let s1 := roll now1 backlog s in
  let '(ask, s2) := live_ask hotkey now2 s1 in
  match ask with
  | None => (inr NO_ASK, s2)
  | Some a =>
      if round_price s2 <? a then (inr ASK_ABOVE_PRICE, set_counts (granted s2) (full s2) (priced_out s2 + 1) s2)
      else if leases s2 <=? granted s2 then (inr ROUND_FULL, set_counts (granted s2) (full s2 + 1) (priced_out s2) s2)
      else (inl (Terms (round_price s2) (default 0 (round s2))),
            set_counts (granted s2 + 1) (full s2) (priced_out s2) s2)
  end.

Definition unreserve (t : terms) (s : auction) : auction :=
  if bool_decide (Some (term_round t) = round s) && (0 <? granted s)
  then set_counts (granted s - 1) (full s) (priced_out s) s else s.

(** [lease_ended] *)
Definition lease_ended (hotkey : string) (price : option float) (held_fraction : float) (s : auction) : auction :=
  match price with
  | None => s
  | Some p =>
      let fraction := Z.min fone (Z.max 0 held_fraction) in
      let owed := fmul (fmul p (mean_tokens s)) fraction in
      if 0 <? owed then set_debt (<[hotkey := fadd (default 0 (debt s !! hotkey)) owed]> (debt s)) s else s
  end.

(** ** Submissions *)

Definition take_debit (hotkey : string) (value : float) (s : auction) : float * auction :=
  let owed := default 0 (debt s !! hotkey) in
  let taken := Z.min owed (Z.max 0 value) in
  if 0 <? taken then
    let left := fsub owed taken in
    (taken, set_debt (if 0 <? left then <[hotkey := left]> (debt s) else delete hotkey (debt s)) s)
  else (taken, s).

Definition refund_debit (hotkey : string) (amount : float) (s : auction) : auction :=
  if 0 <? amount then set_debt (<[hotkey := fadd (default 0 (debt s !! hotkey)) amount]> (debt s)) s else s.

Definition observe_tokens (token_count : Z) (s : auction) : auction :=
  set_mean (fadd (mean_tokens s) (fmul TOKENS_EMA_WEIGHT (fsub (of_int token_count) (mean_tokens s)))) s.

(** ** Views *)

Definition debt_alpha (hotkey : string) (s : auction) : float :=
  fmul (default 0 (debt s !! hotkey)) (miner_alpha_per_period (prm s)).

Record public_view := PublicView {
  pv_round : option Z;
  pv_round_ends_at : float;
  pv_price_alpha : float;
  pv_ceiling_alpha : float;
  pv_leases : Z;
  pv_granted : Z;
  pv_rounds : list round_record;
}.

Definition view (now : float) (backlog : option Z) (s : auction) : public_view * auction :=
  let s1 := roll now backlog s in
  (PublicView (round s1) (fmul (of_int (default 0 (round s1) + 1)) (round_seconds (prm s1)))
     (alpha_of (prm s1) (round_price s1)) (alpha_of (prm s1) (ceiling (prm s1)))
     (leases s1) (granted s1) (history s1), s1).

(** ** Live prices *)

Definition is_live (now : float) (s : auction) (p : float) : Prop :=
  exists hotkey posted, asks s !! hotkey = Some (p, posted) /\ expired now posted = false.

Lemma prices_sorted a : StronglySorted Z.le (prices a).
Proof. apply StronglySorted_merge_sort; try apply _; intros x y; lia. Qed.

Lemma prices_elem a p : p ∈ prices a <-> exists h t, a !! h = Some (p, t).
Proof.
  unfold prices. rewrite merge_sort_Permutation, elem_of_remove_dups, list_elem_of_fmap. split.
  - intros ([h [q t]] & -> & Hh%elem_of_map_to_list). eauto.
  - intros (h & t & Hh). exists (h, (p, t)). split; [done|]. by apply elem_of_map_to_list.
Qed.

Lemma live_asks_lookup now a h p t :
  live_asks now a !! h = Some (p, t) <-> a !! h = Some (p, t) /\ expired now t = false.
Proof. unfold live_asks. by rewrite map_lookup_filter_Some. Qed.

#[local] Opaque live_asks prices.

Lemma live_prices_elem now s p : p ∈ (live_prices now s).1 <-> is_live now s p.
Proof.
  unfold live_prices. cbn [fst]. rewrite prices_elem.
  split; intros (h & t & Hh); exists h, t; by apply live_asks_lookup.
Qed.

Lemma live_asks_idem now a : live_asks now (live_asks now a) = live_asks now a.
Proof.
  apply map_eq. intros h. apply option_eq. intros [p t]. rewrite !live_asks_lookup. tauto.
Qed.

Lemma is_live_set_asks now s p : is_live now (set_asks (live_asks now (asks s)) s) p <-> is_live now s p.
Proof.
  unfold is_live, set_asks. cbn [asks]. split; intros (h & t & Hh & He); exists h, t; (split; [|exact He]).
  - apply live_asks_lookup in Hh as [Hh _]. exact Hh.
  - apply live_asks_lookup. split; assumption.
Qed.

(** The price [open] picks: the highest live ask at or under the target. *)
Definition best_under (now : float) (s : auction) (bound price : float) : Prop :=
  (is_live now s price /\ price <= bound /\ forall p, is_live now s p -> p <= bound -> p <= price)
  \/ (price = bound /\ forall p, is_live now s p -> ~ p <= bound).

Lemma open_price index now s : best_under now s (target s) (round_price (open index now s)).
Proof.
  unfold open, best_under, live_prices. cbn.
  destruct (last _) as [p|] eqn:Hl.
  - left. apply last_filter_Some in Hl as (Hin & Hle & Hmax); [|apply prices_sorted].
    change (p ∈ (live_prices now s).1) in Hin. apply live_prices_elem in Hin.
    split; [done|]. split; [done|]. intros q Hq. apply Hmax. change (q ∈ (live_prices now s).1).
    by apply live_prices_elem.
  - right. split; [done|]. apply last_None in Hl. intros p Hp%live_prices_elem.
    by apply (proj1 (filter_nil_iff _ _) Hl).
Qed.

Lemma best_under_unique now s bound p q :
  best_under now s bound p -> best_under now s bound q -> p = q.
Proof.
  intros [(Hp & Hpb & Hpm)|[-> Hp]] [(Hq & Hqb & Hqm)|[-> Hq]]; try done.
  - specialize (Hpm q Hq Hqb). specialize (Hqm p Hp Hpb). lia.
  - by destruct (Hq p Hp).
  - by destruct (Hp q Hq).
Qed.

Definition saturated (s : auction) : bool := (leases s <=? granted s) && (0 <? full s).
Definition starved (s : auction) : bool := (granted s <? leases s) && (0 <? priced_out s).

Lemma close_live now b s p : is_live now (close now b s) p <-> is_live now s p.
Proof. apply is_live_set_asks. Qed.

(** The target [close] leaves: one ask down when saturated, one up when starved. *)
Lemma close_target now b s :
  (saturated s = true /\ is_live now s (target (close now b s)) /\ target (close now b s) < round_price s /\
     forall p, is_live now s p -> p < round_price s -> p <= target (close now b s))
  \/ (saturated s = false /\ starved s = true /\ is_live now s (target (close now b s)) /\
     round_price s < target (close now b s) <= ceiling (prm s) /\
     forall p, is_live now s p -> round_price s < p <= ceiling (prm s) -> target (close now b s) <= p)
  \/ (target (close now b s) = target s /\
     (saturated s = true -> forall p, is_live now s p -> ~ p < round_price s) /\
     (saturated s = false -> starved s = true ->
        forall p, is_live now s p -> ~ (round_price s < p <= ceiling (prm s)))).
Proof.
  unfold close, live_prices. cbn. fold (saturated s) (starved s).
  assert (forall p, is_live now s p <-> p ∈ prices (live_asks now (asks s))) as Hlive
    by (intros; symmetry; apply live_prices_elem).
  destruct (saturated s) eqn:Hs; [|destruct (starved s) eqn:Ht].
  - destruct (last _) as [p|] eqn:Hl.
    + left. apply last_filter_Some in Hl as (Hin & Hlt & Hmax); [|apply prices_sorted].
      split; [done|]. split; [by apply Hlive|]. split; [done|].
      intros q Hq%Hlive. by apply Hmax.
    + right. right. apply last_None in Hl. split; [done|]. split; [|done].
      intros _ p Hp%Hlive. by apply (proj1 (filter_nil_iff _ _) Hl).
  - destruct (head _) as [p|] eqn:Hl.
    + right. left. apply head_filter_Some in Hl as (Hin & Hlt & Hmin); [|apply prices_sorted].
      split; [done|]. split; [done|]. split; [by apply Hlive|]. split; [done|].
      intros q Hq%Hlive. by apply Hmin.
    + right. right. apply head_None in Hl. split; [done|]. split; [done|].
      intros _ _ p Hp%Hlive. by apply (proj1 (filter_nil_iff _ _) Hl).
  - right. right. done.
Qed.

Lemma best_under_live now s bound price :
  best_under now s bound price -> is_live now s bound -> price = bound.
Proof.
  intros [(_ & Hle & Hmax)|[-> _]] Hb; [|reflexivity]. specialize (Hmax bound Hb). lia.
Qed.

Lemma best_under_close now b s bound price :
  best_under now (close now b s) bound price -> best_under now s bound price.
Proof.
  intros [(Hp & Hle & Hmax)|[-> Hno]]; [left|right].
  - split; [by apply close_live in Hp|]. split; [exact Hle|]. intros q Hq. apply Hmax. by apply close_live.
  - split; [reflexivity|]. intros q Hq. apply Hno. by apply close_live.
Qed.

Lemma best_under_le now s bound price : best_under now s bound price -> price <= bound.
Proof. intros [(_ & Hle & _)|[-> _]]; lia. Qed.

(** ** Invariant *)

Definition good_debt (d : float) : Prop := 0 < d /\ representable d.

Record wf (s : auction) : Prop := {
  wf_target : target s <= ceiling (prm s);
  wf_price : round_price s <= ceiling (prm s);
  wf_leases : MIN_LEASES <= leases s <= MAX_LEASES;
  wf_granted : 0 <= granted s <= leases s;
  wf_refused : 0 <= full s /\ 0 <= priced_out s;
  wf_debt : forall h d, debt s !! h = Some d -> good_debt d;
  wf_history : (length (history s) <= HISTORY_ROUNDS)%nat;
}.

Lemma LEASES_CUT_bounds : 0 <= LEASES_CUT <= fone.
Proof. by vm_compute. Qed.

Lemma next_leases_bounds n sat b :
  MIN_LEASES <= n <= MAX_LEASES -> MIN_LEASES <= next_leases n sat b <= MAX_LEASES.
Proof.
  intros Hn. unfold next_leases. destruct b as [b|]; [|lia]. pose proof LEASES_CUT_bounds.
  assert (E : of_int n = n * fone) by (apply of_int_exact; unfold MIN_LEASES, MAX_LEASES in *; lia).
  pose proof fone_pos. assert (0 <= of_int n) by (rewrite E; unfold MIN_LEASES in *; nia).
  destruct (Z.ltb_spec n b).
  - assert (ftrunc (fmul (of_int n) LEASES_CUT) <= n); [|unfold MIN_LEASES, MAX_LEASES in *; lia].
    apply ftrunc_le; [apply fmul_nonneg; lia|]. rewrite <- E.
    apply fmul_le_l; [apply of_int_representable|lia|lia].
  - destruct (sat && _); unfold MIN_LEASES, MAX_LEASES in *; lia.
Qed.

Lemma push_history_length {A} (x : A) h : (length (push_history x h) <= HISTORY_ROUNDS)%nat.
Proof. unfold push_history. rewrite length_drop. lia. Qed.

Lemma new_auction_wf p m : MIN_LEASES <= initial_leases p <= MAX_LEASES -> wf (new_auction p m).
Proof.
  intros Hl. split; cbn; try lia.
  - unfold MIN_LEASES in *. lia.
  - intros h d. rewrite lookup_empty. discriminate.
Qed.

Lemma open_wf index now s :
  target s <= ceiling (prm s) -> MIN_LEASES <= leases s <= MAX_LEASES ->
  (forall h d, debt s !! h = Some d -> good_debt d) -> (length (history s) <= HISTORY_ROUNDS)%nat ->
  wf (open index now s).
Proof.
  intros Ht Hl Hd Hh. pose proof (best_under_le _ _ _ _ (open_price index now s)) as Hp.
  unfold open in *. cbn in *. split; cbn; try lia; try assumption. unfold MIN_LEASES in *. lia.
Qed.

Lemma close_target_le now b s : wf s -> target (close now b s) <= ceiling (prm s).
Proof.
  intros [Ht Hp _ _ _ _ _]. destruct (close_target now b s) as [(_ & _ & ? & _)|[(_ & _ & _ & ? & _)|(-> & _)]]; lia.
Qed.

Lemma roll_wf now b s : wf s -> wf (roll now b s).
Proof.
  intros Hwf. pose proof (close_target_le now b s Hwf) as Hc. destruct Hwf as [Ht Hp Hl Hg Hr Hd Hh] eqn:E.
  unfold roll. destruct (round s) as [r|].
  - destruct (Z.eqb r _); [exact Hwf|]. apply open_wf; [exact Hc|by apply next_leases_bounds|exact Hd|].
    apply push_history_length.
  - by apply open_wf.
Qed.

Lemma roll_prm now b s : prm (roll now b s) = prm s.
Proof. unfold roll. destruct (round s) as [r|]; [destruct (Z.eqb r _)|]; reflexivity. Qed.

Lemma live_ask_frame h now s o s' : live_ask h now s = (o, s') ->
  exists a, s' = set_asks a s.
Proof.
  unfold live_ask. destruct (asks s !! h) as [[p t]|].
  - destruct (expired now t); intros [= _ <-]; [eauto|]. exists (asks s). by destruct s.
  - intros [= _ <-]. exists (asks s). by destruct s.
Qed.

Lemma set_asks_wf a s : wf s -> wf (set_asks a s).
Proof. by intros []. Qed.

Lemma set_debt_wf d s : wf s -> (forall h x, d !! h = Some x -> good_debt x) -> wf (set_debt d s).
Proof. by intros []. Qed.

Lemma admit_wf h n1 n2 b s r s' : wf s -> admit_hotkey h n1 n2 b s = (r, s') -> wf s'.
Proof.
  intros Hwf. unfold admit_hotkey. destruct (live_ask h n2 (roll n1 b s)) as [o s2] eqn:Hl.
  apply live_ask_frame in Hl as [a ->]. apply (roll_wf n1 b) in Hwf. apply (set_asks_wf a) in Hwf.
  destruct o as [ask|]; [|by intros [= _ <-]]. destruct Hwf as [Ht Hp Hls Hg Hr Hd Hh] eqn:E. cbn in *.
  destruct (Z.ltb_spec (round_price (roll n1 b s)) ask); [intros [= _ <-]; split; cbn; lia || assumption|].
  destruct (Z.leb_spec (leases (roll n1 b s)) (granted (roll n1 b s))); intros [= _ <-];
    split; cbn; lia || assumption.
Qed.

Lemma insert_good_debt (d : gmap string float) h x :
  (forall k y, d !! k = Some y -> good_debt y) -> good_debt x ->
  forall k y, <[h := x]> d !! k = Some y -> good_debt y.
Proof. intros Hd Hx k y. rewrite lookup_insert. case_decide; [intros [= <-]; exact Hx|apply Hd]. Qed.

Lemma owed_nonneg s h : wf s -> 0 <= default 0 (debt s !! h) /\ representable (default 0 (debt s !! h)).
Proof.
  intros Hwf. destruct (debt s !! h) as [d|] eqn:E; cbn.
  - apply (wf_debt _ Hwf) in E as [? ?]. split; [lia|assumption].
  - split; [lia|apply representable_0].
Qed.

Lemma owed_good s h x : wf s -> 0 < x -> good_debt (fadd (default 0 (debt s !! h)) x).
Proof.
  intros Hwf Hx. destruct (owed_nonneg s h Hwf) as [Hn _]. split; [|apply fadd_representable].
  unfold fadd. apply Z.lt_le_trans with 1; [lia|].
  apply fround_ge; [lia|apply representable_small; lia|]. lia.
Qed.

(** ** Reachable auctions *)

Inductive step (s s' : auction) : Prop :=
  | step_post_ask h a n1 n2 b r : post_ask h a n1 n2 b s = (r, s') -> step s s'
  | step_ask_of h n r : live_ask h n s = (r, s') -> step s s'
  | step_admit h n1 n2 b r : admit_hotkey h n1 n2 b s = (r, s') -> step s s'
  | step_unreserve t : unreserve t s = s' -> step s s'
  | step_lease_ended h p f : lease_ended h p f s = s' -> step s s'
  | step_take_debit h v x : take_debit h v s = (x, s') -> step s s'
  | step_refund_debit h x : refund_debit h x s = s' -> step s s'
  | step_observe n : observe_tokens n s = s' -> step s s'
  | step_view n b v : view n b s = (v, s') -> step s s'.

Lemma take_debit_wf h v s x s' : wf s -> take_debit h v s = (x, s') -> wf s'.
Proof.
  intros Hwf. unfold take_debit. destruct (Z.ltb_spec 0 (Z.min (default 0 (debt s !! h)) (Z.max 0 v))).
  - intros [= _ <-]. apply set_debt_wf; [exact Hwf|].
    destruct (Z.ltb_spec 0 (fsub (default 0 (debt s !! h)) (Z.min (default 0 (debt s !! h)) (Z.max 0 v)))).
    + apply insert_good_debt; [apply (wf_debt _ Hwf)|]. split; [assumption|apply fsub_representable].
    + intros k y [_ Hk]%lookup_delete_Some. by apply (wf_debt _ Hwf) in Hk.
  - by intros [= _ <-].
Qed.

Lemma auction_step_wf s s' : wf s -> step s s' -> wf s'.
Proof.
  intros Hwf [h a n1 n2 b r H|h n r H|h n1 n2 b r H|t H|h p f H|h v x H|h x H|n H|n b v H].
  - unfold post_ask in H. destruct a as [a|]; [destruct (_ && _)|]; injection H as _ <-; try exact Hwf.
    apply set_asks_wf, roll_wf, Hwf.
  - apply live_ask_frame in H as [a ->]. apply set_asks_wf, Hwf.
  - by eapply admit_wf.
  - subst s'. unfold unreserve. destruct (_ && _) eqn:E; [|exact Hwf].
    apply andb_true_iff in E as [_ E%Z.ltb_lt]. destruct Hwf. split; cbn; lia || assumption.
  - subst s'. unfold lease_ended. destruct p as [p|]; [|exact Hwf]. destruct (Z.ltb_spec 0
      (fmul (fmul p (mean_tokens s)) (Z.min fone (Z.max 0 f)))); [|exact Hwf].
    apply set_debt_wf; [exact Hwf|]. apply insert_good_debt; [apply (wf_debt _ Hwf)|].
    by apply owed_good.
  - by eapply take_debit_wf.
  - subst s'. unfold refund_debit. destruct (Z.ltb_spec 0 x); [|exact Hwf].
    apply set_debt_wf; [exact Hwf|]. apply insert_good_debt; [apply (wf_debt _ Hwf)|].
    by apply owed_good.
  - subst s'. by destruct Hwf.
  - unfold view in H. injection H as _ <-. by apply roll_wf.
Qed.

Definition reachable (p : params) (s : auction) : Prop :=
  exists mean, rtc step (new_auction p mean) s.

Lemma step_prm s s' : step s s' -> prm s' = prm s.
Proof.
  intros [h a n1 n2 b r H|h n r H|h n1 n2 b r H|t H|h p f H|h v x H|h x H|n H|n b v H].
  - unfold post_ask in H. destruct a as [a|]; [destruct (_ && _)|]; injection H as _ <-; try reflexivity.
    apply roll_prm.
  - by apply live_ask_frame in H as [a ->].
  - unfold admit_hotkey in H. destruct (live_ask h n2 (roll n1 b s)) as [o s2] eqn:Hl.
    apply live_ask_frame in Hl as [a ->].
    destruct o; [destruct (_ <? _); [|destruct (_ <=? _)]|]; injection H as _ <-; apply roll_prm.
  - subst s'. unfold unreserve. by destruct (_ && _).
  - subst s'. unfold lease_ended. destruct p; [|reflexivity]. by destruct (_ <? _).
  - unfold take_debit in H. destruct (_ <? _) in H; by injection H as _ <-.
  - subst s'. unfold refund_debit. by destruct (_ <? _).
  - by subst s'.
  - unfold view in H. injection H as _ <-. apply roll_prm.
Qed.

Lemma auction_reachable_wf p s : MIN_LEASES <= initial_leases p <= MAX_LEASES -> reachable p s -> wf s /\ prm s = p.
Proof.
  intros Hp [m Hs]. revert Hs. apply (rtc_invariant step (fun s => wf s /\ prm s = p)).
  - intros x y [Hwf E] Hstep. split; [by eapply auction_step_wf|]. by rewrite (step_prm x y Hstep).
  - split; [by apply new_auction_wf|reflexivity].
Qed.

Lemma auction_numbers_ok d c e p : auction_numbers d c e = Ok (Some p) ->
  MIN_LEASES <= initial_leases p <= MAX_LEASES /\ 0 < ceiling p.
Proof.
  unfold auction_numbers. intros (sec & _ & He)%bind_ok_inv. destruct (negb _) in He; [discriminate|].
  apply bind_ok_inv in He as (ini & _ & He).
  destruct (negb (ini =? _)) in He; [discriminate|]. cbn [orb] in He.
  destruct (negb (_ && _)) eqn:Hr in He; [discriminate|].
  apply bind_ok_inv in He as (al & _ & He). destruct (negb _) eqn:Hpos in He; [discriminate|].
  injection He as <-. cbn. apply negb_false_iff, andb_true_iff in Hr as [H1%Z.leb_le H2%Z.leb_le].
  apply negb_false_iff, andb_true_iff in Hpos as [H3%Z.ltb_lt _]. lia.
Qed.

Lemma auction_params_leases registry p :
  auction_params registry = Ok (Some p) -> MIN_LEASES <= initial_leases p <= MAX_LEASES /\ 0 < ceiling p.
Proof.
  unfold auction_params. destruct registry as [| | | | | |d]; try discriminate.
  destruct (dict_get "pricing" d); try discriminate. destruct (negb _); [discriminate|].
  intros ([c|] & _ & H)%bind_ok_inv; [|discriminate].
  destruct (dict_get "max_price_miner_alpha_per_period" d); first [discriminate|by apply auction_numbers_ok in H].
Qed.

(** ** Claims *)

(** C32: whatever miners ask, refuse, hold or owe, an auction run with parameters the
    registry accepts keeps its bounds at every reachable state: the round's price
    and the target never pass the ceiling, a round's leases stay within
    [MIN_LEASES, MAX_LEASES], no more leases are granted than the round has,
    every recorded debt is positive, and the history keeps at most
    [HISTORY_ROUNDS] rounds. *)
Theorem auction_bounds (registry : pyval) (p : params) (s : auction) :
  auction_params registry = Ok (Some p) -> reachable p s ->
  round_price s <= ceiling p /\ target s <= ceiling p /\
  MIN_LEASES <= leases s <= MAX_LEASES /\ 0 <= granted s <= leases s /\
  (forall h d, debt s !! h = Some d -> 0 < d) /\ (length (history s) <= HISTORY_ROUNDS)%nat.
Proof.
  intros Hp Hs. apply auction_params_leases in Hp as [Hp _]. apply auction_reachable_wf in Hs as [[] <-]; [|exact Hp].
  repeat split; try (lia || assumption). intros h d Hd. by apply wf_debt0 in Hd as [? _].
Qed.

Definition registry_example : pyval :=
  VDict [("pricing", VStr "auction"); ("max_price_per_token", VFloat (flit 1 1000000));
         ("max_price_miner_alpha_per_period", VInt 100); ("auction_initial_leases", VInt 4)]%string.
Definition params_example : params := Eval vm_compute in AuctionParams (flit 1 1000000) (of_int 100) (of_int 600) 4.
Definition posted_example : auction := Eval vm_compute in
  (post_ask "a" (Some (of_int 50)) 0 0 None (new_auction params_example (of_int 1000))).2.

Definition admitted_example : auction := Eval vm_compute in (admit_hotkey "a" fone fone None posted_example).2.

Lemma example_reachable : reachable params_example admitted_example.
Proof.
  exists (of_int 1000). eapply rtc_l; [|apply rtc_once].
  - apply (step_post_ask _ posted_example "a" (Some (of_int 50)) 0 0 None false). vm_compute. reflexivity.
  - apply (step_admit _ admitted_example "a" fone fone None (admit_hotkey "a" fone fone None posted_example).1).
    vm_compute. reflexivity.
Qed.

Lemma auction_bounds_witness : round_price admitted_example <= ceiling params_example.
Proof.
  refine (proj1 (auction_bounds registry_example params_example admitted_example _ _)).
  - vm_compute. reflexivity.
  - apply example_reachable.
Defined.

(** The price moves one ask at a time.  When the clock enters a new round:
    after a saturated round (no lease left and someone turned away), the price
    becomes the highest live ask below the old price, if there is one; after a
    round with leases left in which a miner was refused for its price, the lowest
    live ask above it within the ceiling, if there is one; in every other case it
    is the highest live ask at or under the target, or the target itself. *)
Theorem price_moves_one_ask (s : auction) (r : Z) (now : float) (backlog : option Z) :
  round s = Some r -> r <> index_of (prm s) now ->
  let price' := round_price (roll now backlog s) in
  round (roll now backlog s) = Some (index_of (prm s) now) /\
  ((saturated s = true /\ is_live now s price' /\ price' < round_price s /\
      forall p, is_live now s p -> p < round_price s -> p <= price')
   \/ (saturated s = false /\ starved s = true /\ is_live now s price' /\
      round_price s < price' <= ceiling (prm s) /\
      forall p, is_live now s p -> round_price s < p <= ceiling (prm s) -> price' <= p)
   \/ (best_under now s (target s) price' /\
      (saturated s = true -> forall p, is_live now s p -> ~ p < round_price s) /\
      (saturated s = false -> starved s = true ->
         forall p, is_live now s p -> ~ (round_price s < p <= ceiling (prm s))))).
Proof.
  intros Hr Hne. unfold roll. rewrite Hr. apply Z.eqb_neq in Hne as ->.
  split; [reflexivity|].
  pose proof (open_price (index_of (prm s) now) now (close now backlog s)) as Hop.
  destruct (close_target now backlog s) as [(Hs & Hl & Hlt & Hmax)|[(Hs & Ht & Hl & Hlt & Hmin)|(E & H1 & H2)]].
  - left. apply best_under_live in Hop as ->; [auto|]. by apply close_live.
  - right. left. apply best_under_live in Hop as ->; [auto|]. by apply close_live.
  - right. right. rewrite E in Hop. apply best_under_close in Hop. auto.
Qed.

Definition crowded_example : auction := Eval vm_compute in
  (post_ask "b" (Some (of_int 30)) 0 0 None
    (set_counts 4 1 0 admitted_example)).2.

Lemma price_moves_one_ask_witness :
  round_price (roll (of_int 700) None crowded_example) = share_of params_example (of_int 50).
Proof.
  destruct (price_moves_one_ask crowded_example 0 (of_int 700) None) as [_ [H|[H|H]]].
  - vm_compute. reflexivity.
  - vm_compute. discriminate.
  - vm_compute. reflexivity.
  - vm_compute. reflexivity.
  - vm_compute. reflexivity.
Defined.

(** The state of the auction as far as a round's terms are concerned is kept by
    every call made while the clock stays in the round. *)
Inductive step_in (r : Z) (s s' : auction) : Prop :=
  | in_post_ask h a n1 n2 b x : index_of (prm s) n1 = r -> post_ask h a n1 n2 b s = (x, s') -> step_in r s s'
  | in_ask_of h n x : live_ask h n s = (x, s') -> step_in r s s'
  | in_admit h n1 n2 b x : index_of (prm s) n1 = r -> admit_hotkey h n1 n2 b s = (x, s') -> step_in r s s'
  | in_unreserve t : unreserve t s = s' -> step_in r s s'
  | in_lease_ended h p f : lease_ended h p f s = s' -> step_in r s s'
  | in_take_debit h v x : take_debit h v s = (x, s') -> step_in r s s'
  | in_refund_debit h x : refund_debit h x s = s' -> step_in r s s'
  | in_observe n : observe_tokens n s = s' -> step_in r s s'
  | in_view n b v : index_of (prm s) n = r -> view n b s = (v, s') -> step_in r s s'.

Lemma roll_same_round r now b s : round s = Some r -> index_of (prm s) now = r -> roll now b s = s.
Proof. intros Hr <-. unfold roll. by rewrite Hr, Z.eqb_refl. Qed.

Lemma step_in_keeps r s s' :
  round s = Some r -> step_in r s s' ->
  round s' = Some r /\ round_price s' = round_price s /\ leases s' = leases s /\ prm s' = prm s.
Proof.
  intros Hr [h a n1 n2 b x Hi H|h n x H|h n1 n2 b x Hi H|t H|h p f H|h v x H|h x H|n H|n b v Hi H].
  - unfold post_ask in H. destruct a as [a|]; [destruct (_ && _)|]; injection H as _ <-; auto.
    rewrite (roll_same_round r) by assumption. auto.
  - apply live_ask_frame in H as [a ->]. auto.
  - unfold admit_hotkey in H. rewrite (roll_same_round r) in H by assumption.
    destruct (live_ask h n2 s) as [o s2] eqn:Hl. apply live_ask_frame in Hl as [a ->].
    destruct o; [destruct (_ <? _); [|destruct (_ <=? _)]|]; injection H as _ <-; auto.
  - subst s'. unfold unreserve. destruct (_ && _); auto.
  - subst s'. unfold lease_ended. destruct p; [destruct (_ <? _)|]; auto.
  - unfold take_debit in H. destruct (_ <? _) in H; injection H as _ <-; auto.
  - subst s'. unfold refund_debit. destruct (_ <? _); auto.
  - subst s'. auto.
  - unfold view in H. injection H as _ <-. rewrite (roll_same_round r) by assumption. auto.
Qed.

Lemma steps_in_keep r s s' :
  round s = Some r -> rtc (step_in r) s s' -> round s' = Some r /\ round_price s' = round_price s /\ prm s' = prm s.
Proof.
  intros Hr Hs. revert Hs.
  apply (rtc_invariant (step_in r) (fun x => round x = Some r /\ round_price x = round_price s /\ prm x = prm s)); [|auto].
  intros x y (Hx & Hp & Hm) Hxy. destruct (step_in_keeps r x y Hx Hxy) as (? & ? & _ & ?).
  split; [assumption|]. split; congruence.
Qed.

(** What an admission says of the state it was made in. *)
Lemma admit_inl h n1 n2 b s t s' : admit_hotkey h n1 n2 b s = (inl t, s') ->
  round (roll n1 b s) = Some (term_round t) /\ term_price t = round_price (roll n1 b s) /\
  (exists ask posted, asks (roll n1 b s) !! h = Some (ask, posted) /\ expired n2 posted = false /\
     ask <= term_price t) /\
  granted (roll n1 b s) < leases (roll n1 b s) /\
  s' = set_counts (granted (roll n1 b s) + 1) (full (roll n1 b s)) (priced_out (roll n1 b s)) (roll n1 b s).
Proof.
  unfold admit_hotkey. assert (exists r, round (roll n1 b s) = Some r) as [r Hr].
  { unfold roll. destruct (round s) eqn:E; [destruct (Z.eqb_spec z (index_of (prm s) n1))|]; eauto. }
  generalize dependent (roll n1 b s). intros s1 Hr. unfold live_ask.
  destruct (asks s1 !! h) as [[ask posted]|] eqn:Ha; [|discriminate].
  destruct (expired n2 posted) eqn:He; [discriminate|].
  destruct (Z.ltb_spec (round_price s1) ask); [discriminate|].
  destruct (Z.leb_spec (leases s1) (granted s1)); [discriminate|].
  rewrite Hr. intros [= <- <-]. cbn. split; [reflexivity|]. split; [reflexivity|].
  split; [|auto]. exists ask, posted. auto.
Qed.

(** A lease is granted on known, honest terms.  An admitted hotkey has a live
    ask at or under the price it is given; the price is within the ceiling; the
    grant is counted and within the round's leases; and every other lease
    granted while the clock stays in that round, whatever happens in between,
    pays the same price. *)
Theorem lease_terms (registry : pyval) (p : params) (s s1 s2 s3 : auction) (h h' : string)
    (n1 n2 n1' n2' : float) (b b' : option Z) (t t' : terms) :
  auction_params registry = Ok (Some p) -> reachable p s ->
  admit_hotkey h n1 n2 b s = (inl t, s1) -> rtc (step_in (term_round t)) s1 s2 ->
  admit_hotkey h' n1' n2' b' s2 = (inl t', s3) -> index_of p n1' = term_round t ->
  (exists ask posted, asks (roll n1 b s) !! h = Some (ask, posted) /\ expired n2 posted = false /\
     ask <= term_price t) /\
  term_price t <= ceiling p /\ granted s1 <= leases s1 /\
  term_round t' = term_round t /\ term_price t' = term_price t.
Proof.
  intros Hp Hs Ha Hsteps Ha' Hi. apply auction_params_leases in Hp as [Hp _].
  apply auction_reachable_wf in Hs as [Hwf Eprm]; [|exact Hp]. apply (roll_wf n1 b) in Hwf.
  apply admit_inl in Ha as (Hr & Hprice & Hask & Hg & ->).
  pose proof (roll_prm n1 b s) as Ep.
  apply steps_in_keep in Hsteps as (Hr2 & Hp2 & Em2); [|exact Hr]. cbn in Hp2, Em2.
  apply admit_inl in Ha' as (Hr3 & Hprice' & _).
  rewrite (roll_same_round (term_round t)) in Hr3, Hprice' by congruence.
  split; [exact Hask|]. split; [rewrite Hprice, <- Eprm, <- Ep; apply Hwf|]. split; [cbn; lia|].
  split; congruence.
Qed.

Lemma lease_terms_witness :
  exists t s1, admit_hotkey "a" fone fone None posted_example = (inl t, s1) /\
    term_price t <= ceiling params_example.
Proof.
  pose (r := admit_hotkey "a" fone fone None posted_example).
  pose (t := Terms (ceiling params_example) 0).
  assert (E : admit_hotkey "a" fone fone None posted_example = (inl t, r.2)) by (vm_compute; reflexivity).
  exists t, r.2. split; [exact E|].
  refine (proj1 (proj2 (lease_terms registry_example params_example posted_example r.2 r.2
    (admit_hotkey "a" fone fone None r.2).2 "a" "a" fone fone fone fone None None t t _ _ E _ _ _))).
  - vm_compute. reflexivity.
  - exists (of_int 1000). apply rtc_once.
    apply (step_post_ask _ posted_example "a" (Some (of_int 50)) 0 0 None false). vm_compute. reflexivity.
  - apply rtc_refl.
  - vm_compute. reflexivity.
  - vm_compute. reflexivity.
Defined.

(** A debit never exceeds the submission it is taken from nor the debt it pays,
    so [tokens x price - debit] is never negative; what is left of the debt is the
    debt less the debit, gone when the submission covers it, and no other hotkey's
    debt moves. *)
Theorem take_debit_exact (p : params) (h : string) (value x : float) (s s' : auction) :
  MIN_LEASES <= initial_leases p <= MAX_LEASES -> reachable p s -> take_debit h value s = (x, s') ->
  let owed := default 0 (debt s !! h) in
  0 <= x /\ x <= Z.max 0 value /\ x <= owed /\
  default 0 (debt s' !! h) = fsub owed x /\
  (0 < owed <= value -> debt s' !! h = None) /\
  (forall k, k <> h -> debt s' !! k = debt s !! k).
Proof.
  intros Hp Hs H owed. apply auction_reachable_wf in Hs as [Hwf _]; [|exact Hp].
  destruct (owed_nonneg s h Hwf) as [Hn Hrep]. unfold take_debit in H. fold owed in H, Hn, Hrep.
  remember (Z.min owed (Z.max 0 value)) as taken eqn:Et.
  destruct (Z.ltb_spec 0 taken) as [Hpos|Hz]; injection H as <- <-.
  - pose proof (fsub_pos_iff owed taken). pose proof (fsub_neg_iff owed taken).
    split; [lia|]. split; [lia|]. split; [lia|].
    destruct (Z.ltb_spec 0 (fsub owed taken)) as [Hl|Hl]; cbn.
    + rewrite lookup_insert_eq. split; [reflexivity|]. split; [lia|].
      intros k Hk. by rewrite lookup_insert_ne.
    + rewrite lookup_delete_eq. split; [cbn; lia|]. split; [reflexivity|].
      intros k Hk. by rewrite lookup_delete_ne.
  - assert (taken = 0) as E0 by lia. split; [lia|]. split; [lia|]. split; [lia|].
    split; [rewrite E0; unfold fsub; rewrite Z.sub_0_r; symmetry; exact Hrep|]. split; [lia|reflexivity].
Qed.

Definition indebted_example : auction := Eval vm_compute in lease_ended "a" (Some (ceiling params_example)) fone admitted_example.

Lemma take_debit_exact_witness :
  (take_debit "a" fone indebted_example).1 <= Z.max 0 fone /\
  0 < (take_debit "a" fone indebted_example).1.
Proof.
  split; [|vm_compute; reflexivity].
  refine (proj1 (proj2 (take_debit_exact params_example "a" fone _ indebted_example
    (take_debit "a" fone indebted_example).2 _ _ _))).
  - vm_compute. split; discriminate.
  - destruct example_reachable as [m Hm]. exists m. eapply rtc_r; [exact Hm|].
    by apply (step_lease_ended _ indebted_example "a" (Some (ceiling params_example)) fone).
  - apply surjective_pairing.
Defined.
