(* ===== verification/DrawLeases.v ===== *)
(** * DrawLeases: who is decoding which sample of a draw job

    Models [reliquary/corpus/draw_leases.py]: the live leases of one draw job
    and the generator of its open draw slots, over the slot ledger of file
    [SlotLedger].  The lease dictionary keeps insertion order, so it is a list;
    every read of the clock is an argument; the random start, the fresh lease
    id and the hook [on_unused] are an argument and a list of emitted calls. *)

From S2P Require Import Prelude PyFloat SlotLedger.

#[local] Open Scope Z_scope.

Definition MAX_LEASES_PER_HOTKEY : Z := 64.
Definition MAX_JOB_SHARE_PER_HOTKEY : float := flit 1 4.
Definition SECOND_LESSEE_AFTER : float := flit 1 2.
Definition LEASE_FLOOR_SECONDS : float := of_int 300.
Definition SLOW_TOKENS_PER_SECOND : float := of_int 10.
Definition MAX_LEASE_SECONDS : float := of_int 14400.

(** The job as far as leases are concerned. *)
Record job := Job {
  job_start : Z;
  job_count : Z;
  job_slots_per_prompt : Z;
  job_max_new_tokens : Z;
  job_n : Z;                          (* samples per request *)
  job_max_total_tokens : option Z;    (* an episode job's token budget *)
}.

(** [lease_seconds]: a falsy episode budget ([None] or 0) falls back. *)
Definition lease_seconds (j : job) : float :=
  let tokens := match job_max_total_tokens j with
                | Some t => if t =? 0 then job_max_new_tokens j * Z.max 1 (job_n j) else t
                | None => job_max_new_tokens j * Z.max 1 (job_n j)
                end in
  Z.min MAX_LEASE_SECONDS (fadd LEASE_FLOOR_SECONDS (fdiv (of_int tokens) SLOW_TOKENS_PER_SECOND)).

Record lease := Lease {
  lease_id : string;
  lease_hotkey : string;
  prompt_index : Z;
  slot : Z;
  granted_at : float;
  expires_at : float;
  price : option float;
  lease_round : option Z;
}.

Definition lease_key (x : lease) : Z * Z := (prompt_index x, slot x).

(** The settings fixed at construction. *)
Record settings := Settings {
  the_job : job;
  limit_per_hotkey : bool;
  max_per_hotkey : Z;
  seconds : float;
}.

Record book := Book {
  by_id : list lease;
  by_slot : gmap (Z * Z) (list string);
  unused : gmap string (list float);
}.

Definition new_book : book := Book [] ∅ ∅.

(** The calls made to [on_unused]. *)
Abbreviation calls := (list (lease * float)).

Definition find_lease (id : string) (l : list lease) : option lease :=
  snd <$> list_find (fun x => lease_id x = id) l.

(** [_drop] *)
Definition drop_lease (id : string) (s : book) : book :=
  match find_lease id (by_id s) with
  | None => s
  | Some x =>
      let held := filter (fun other => other <> id) (default [] (by_slot s !! lease_key x)) in
      Book (filter (fun y => lease_id y <> id) (by_id s))
        (match held with
         | [] => delete (lease_key x) (by_slot s)
         | _ => <[lease_key x := held]> (by_slot s)
         end) (unused s)
  end.

(** [expire]: the expired leases end in insertion order, each reported with a
    held fraction of 1; expiries older than a lease time are forgotten. *)
Definition expire_one (s : book) (x : lease) : book :=
  drop_lease (lease_id x)
    (Book (by_id s) (by_slot s)
       (<[lease_hotkey x := default [] (unused s !! lease_hotkey x) ++ [expires_at x]]> (unused s))).

Definition expire (cfg : settings) (now : float) (s : book) : calls * book :=
  let ended := filter (fun x => expires_at x <= now) (by_id s) in
  let s1 := foldl expire_one s ended in
  let recent l := filter (fun t => fsub now t < seconds cfg) l in
  ((fun x => (x, fone)) <$> ended,
   Book (by_id s1) (by_slot s1)
     (omap (fun l => match recent l with [] => None | r => Some r end) (unused s1))).

(** The leases named by a list of ids; a missing one raises [KeyError]. *)
Fixpoint leases_of (ids : list string) (s : book) : result (list lease) :=
  match ids with
  | [] => Ok []
  | i :: ids' =>
      match find_lease i (by_id s) with
      | None => Raise KeyError
      | Some x => rest ← leases_of ids' s; Ok (x :: rest)
      end
  end.

Definition holders (cfg : settings) (now : float) (p sl : Z) (s : book) : result (list lease) * (calls * book) :=
  let '(c, s1) := expire cfg now s in
  (leases_of (default [] (by_slot s1 !! (p, sl))) s1, (c, s1)).

Definition held_by (cfg : settings) (now : float) (hotkey : string) (s : book) : list lease * (calls * book) :=
  let '(c, s1) := expire cfg now s in
  (filter (fun x => lease_hotkey x = hotkey) (by_id s1), (c, s1)).

(** [__len__] *)
Definition len (cfg : settings) (now : float) (s : book) : Z * (calls * book) :=
  let '(c, s1) := expire cfg now s in (Z.of_nat (length (by_id s1)), (c, s1)).

(** [cap]: the live leases a hotkey may hold now. *)
Definition base_cap (cfg : settings) : Z :=
  let slots := job_count (the_job cfg) * job_slots_per_prompt (the_job cfg) in
  if negb (limit_per_hotkey cfg) then Z.max 1 slots
  else Z.max 1 (Z.min (max_per_hotkey cfg) (ftrunc (fmul MAX_JOB_SHARE_PER_HOTKEY (of_int slots)))).
Definition cap (cfg : settings) (now : float) (hotkey : string) (s : book) : Z * (calls * book) :=
  let '(c, s1) := expire cfg now s in
  (if negb (limit_per_hotkey cfg) then base_cap cfg
   else Z.max 1 (Z.shiftr (base_cap cfg) (Z.of_nat (length (default [] (unused s1 !! hotkey))))),
   (c, s1)).

(** [_add]: the dictionary keeps the place of an id it already holds. *)
Definition put_lease (x : lease) (l : list lease) : list lease :=
  match find_lease (lease_id x) l with
  | Some _ => (fun y => if bool_decide (lease_id y = lease_id x) then x else y) <$> l
  | None => l ++ [x]
  end.

Definition add_lease (cfg : settings) (new_id hotkey : string) (key : Z * Z) (now : float)
    (pr : option float) (rd : option Z) (s : book) : lease * book :=
  let x := Lease new_id hotkey key.1 key.2 now (fadd now (seconds cfg)) pr rd in
  (x, Book (put_lease x (by_id s))
        (<[key := default [] (by_slot s !! key) ++ [new_id]]> (by_slot s)) (unused s)).

(** The scan of the free slots: the first unleased one, else the first slot
    leased once, to another hotkey, for more than half its time. *)
Inductive choice := Free (key : Z * Z) | Tail (key : Z * Z) | NoSlot.

Fixpoint scan (cfg : settings) (hotkey : string) (now : float) (s : book) (tail : option (Z * Z))
    (free : list (Z * Z)) : result choice :=
  match free with
  | [] => Ok (match tail with Some k => Tail k | None => NoSlot end)
  | key :: free' =>
      match default [] (by_slot s !! key) with
      | [] => Ok (Free key)
      | ids =>
          ls ← leases_of ids s;
          let eligible :=
            match ls with
            | [x] => negb (bool_decide (lease_hotkey x = hotkey))
                     && (fmul SECOND_LESSEE_AFTER (seconds cfg) <=? fsub now (granted_at x))
            | _ => false
            end in
          scan cfg hotkey now s
            (match tail with Some k => Some k | None => if eligible then Some key else None end) free'
      end
  end.

Inductive grant_answer := Granted (x : lease) | TooManyLeases | NothingToLease.

(** [grant]: [t1], [t2], [t3] are read by the expiries of [_grant], [held_by]
    and [cap], [now] by the scan; [draw] is [rng.randrange(span)]. *)
Definition grant (cfg : settings) (hotkey new_id : string) (free_slots : Z -> list (Z * Z))
    (pr : option float) (rd : option Z) (t1 t2 t3 now : float) (draw : Z) (s : book)
    : result grant_answer * (calls * book) :=
  let '(c1, s1) := expire cfg t1 s in
  let '(mine, (c2, s2)) := held_by cfg t2 hotkey s1 in
  let '(bound, (c3, s3)) := cap cfg t3 hotkey s2 in
  let c := c1 ++ c2 ++ c3 in
  if bound <=? Z.of_nat (length mine) then (Ok TooManyLeases, (c, s3))
  else
    let span := job_count (the_job cfg) in
    let start := if span =? 0 then job_start (the_job cfg) else job_start (the_job cfg) + draw in
    match scan cfg hotkey now s3 None (free_slots start) with
    | Raise e => (Raise e, (c, s3))
    | Ok NoSlot => (Ok NothingToLease, (c, s3))
    | Ok (Free key) | Ok (Tail key) =>
        let '(x, s4) := add_lease cfg new_id hotkey key now pr rd s3 in (Ok (Granted x), (c, s4))
    end.

(** [release]: the lease ends, reported with the share of its time it was held. *)
Definition release (cfg : settings) (now : float) (hotkey id : string) (s : book) : bool * (calls * book) :=
  match find_lease id (by_id s) with
  | None => (false, ([], s))
  | Some x =>
      if bool_decide (lease_hotkey x = hotkey) then
        let held := if 0 <? seconds cfg then fdiv (fsub now (granted_at x)) (seconds cfg) else fone in
        (true, ([(x, held)], drop_lease id s))
      else (false, ([], s))
  end.

(** [refusal]: whether another hotkey alone holds the slot ([draw_slot_leased]). *)
Definition refusal (cfg : settings) (now : float) (hotkey : string) (p sl : Z) (s : book)
    : result bool * (calls * book) :=
  let '(r, cs) := holders cfg now p sl s in
  (match r with
   | Raise e => Raise e
   | Ok hs => Ok (negb (bool_decide (hs = [])) && forallb (fun x => negb (bool_decide (lease_hotkey x = hotkey))) hs)
   end, cs).

Definition held (cfg : settings) (now : float) (hotkey : string) (p sl : Z) (s : book)
    : result (option lease) * (calls * book) :=
  let '(r, cs) := holders cfg now p sl s in
  (match r with Raise e => Raise e | Ok hs => Ok (head (filter (fun x => lease_hotkey x = hotkey) hs)) end, cs).

(** [settle]: the slot was taken, every lease on it ends (unreported). *)
Definition settle (p sl : Z) (s : book) : book :=
  foldl (fun s id => drop_lease id s) s (default [] (by_slot s !! (p, sl))).


(** ** The invariant of the two dictionaries *)

(** The live leases on a slot, in the order they were granted. *)
Definition on_slot (key : Z * Z) (l : list lease) : list lease := filter (fun x => lease_key x = key) l.

Record wf (s : book) : Prop := {
  wf_ids : NoDup (lease_id <$> by_id s);
  wf_slot : forall key, by_slot s !! key =
    match lease_id <$> on_slot key (by_id s) with [] => None | ids => Some ids end;
  wf_two : forall key, (length (on_slot key (by_id s)) <= 2)%nat;
  wf_hotkeys : forall key, NoDup (lease_hotkey <$> on_slot key (by_id s));
}.

Lemma wf_new : wf new_book.
Proof. split; cbn; intros; [constructor|by rewrite lookup_empty|lia|constructor]. Qed.

Lemma slot_ids s key : wf s ->
  default [] (by_slot s !! key) = lease_id <$> on_slot key (by_id s).
Proof. intros Hwf. rewrite (wf_slot s Hwf). by destruct (lease_id <$> on_slot key (by_id s)). Qed.

Lemma find_lease_elem l x : NoDup (lease_id <$> l) -> x ∈ l -> find_lease (lease_id x) l = Some x.
Proof.
  intros Hnd Hx. unfold find_lease. induction l as [|y l IH]; [set_solver|].
  cbn in *. apply NoDup_cons in Hnd as [Hy Hnd]. case_decide as E.
  - apply elem_of_cons in Hx as [->|Hx]; [done|]. exfalso. apply Hy. rewrite E.
    by apply list_elem_of_fmap_2.
  - apply elem_of_cons in Hx as [->|Hx]; [done|]. specialize (IH Hnd Hx).
    destruct (list_find _ l) as [[i z]|]; cbn in *; congruence.
Qed.

Lemma find_lease_Some l id x : find_lease id l = Some x -> x ∈ l /\ lease_id x = id.
Proof.
  unfold find_lease. intros ([i y] & Hf & ->)%fmap_Some. cbn.
  apply list_find_Some in Hf as (Hi & He & _). split; [|done]. by eapply list_elem_of_lookup_2.
Qed.

Lemma find_lease_None l id : find_lease id l = None -> forall x, x ∈ l -> lease_id x <> id.
Proof.
  unfold find_lease. intros Hf%fmap_None. apply list_find_None in Hf.
  by apply Forall_forall.
Qed.

Lemma leases_of_ids s ls : NoDup (lease_id <$> by_id s) -> (forall x, x ∈ ls -> x ∈ by_id s) ->
  leases_of (lease_id <$> ls) s = Ok ls.
Proof.
  intros Hnd. induction ls as [|x ls IH]; intros Hin; [done|]. cbn.
  rewrite find_lease_elem; [|done|set_solver]. rewrite IH by set_solver. done.
Qed.

Lemma leases_of_slot s key : wf s ->
  leases_of (default [] (by_slot s !! key)) s = Ok (on_slot key (by_id s)).
Proof.
  intros Hwf. rewrite slot_ids by done. apply leases_of_ids; [apply Hwf|].
  intros x. unfold on_slot. rewrite list_elem_of_filter. tauto.
Qed.

(** A subset of the leases keeps the bounds. *)
Lemma on_slot_filter key (P : lease -> Prop) `{!forall x, Decision (P x)} l :
  on_slot key (filter P l) = filter P (on_slot key l).
Proof. unfold on_slot. rewrite !list_filter_filter. apply list_filter_iff. tauto. Qed.

Lemma ids_filter (id : string) (l : list lease) :
  filter (fun other => other <> id) (lease_id <$> l) = lease_id <$> filter (fun y => lease_id y <> id) l.
Proof.
  induction l as [|x l IH]; [done|]. rewrite fmap_cons, !filter_cons.
  repeat case_decide; rewrite ?fmap_cons; congruence.
Qed.

Lemma drop_lease_by_id id s : by_id (drop_lease id s) = filter (fun y => lease_id y <> id) (by_id s).
Proof.
  unfold drop_lease. destruct (find_lease id (by_id s)) as [x|] eqn:E; [done|].
  symmetry. apply list_filter_all. intros x Hx. by eapply find_lease_None.
Qed.

Lemma drop_lease_slots id s key : wf s ->
  by_slot (drop_lease id s) !! key =
    match lease_id <$> on_slot key (by_id (drop_lease id s)) with [] => None | ids => Some ids end.
Proof.
  intros Hwf. rewrite drop_lease_by_id, on_slot_filter, <- ids_filter.
  unfold drop_lease. destruct (find_lease id (by_id s)) as [x|] eqn:E; cbn.
  - rewrite slot_ids by done. destruct (decide (lease_key x = key)) as [<-|Hne].
    + destruct (filter _ _); [apply lookup_delete_eq|apply lookup_insert_eq].
    + assert (filter (fun other => other <> id) (lease_id <$> on_slot key (by_id s))
              = lease_id <$> on_slot key (by_id s)) as ->.
      { apply list_filter_all. intros i (y & -> & Hy)%list_elem_of_fmap Heq.
        apply list_elem_of_filter in Hy as [Hk Hy].
        apply find_lease_Some in E as [Hx Hid]. apply Hne. rewrite <- Hk.
        pose proof (find_lease_elem _ _ (wf_ids s Hwf) Hx) as E1.
        pose proof (find_lease_elem _ _ (wf_ids s Hwf) Hy) as E2. congruence. }
      rewrite <- (wf_slot s Hwf). destruct (filter _ _); [by apply lookup_delete_ne|by apply lookup_insert_ne].
  - rewrite (wf_slot s Hwf). f_equal.
    rewrite list_filter_all; [done|].
    intros i (y & -> & Hy)%list_elem_of_fmap. apply list_elem_of_filter in Hy as [_ Hy].
    by eapply find_lease_None.
Qed.

Lemma drop_lease_wf id s : wf s -> wf (drop_lease id s).
Proof.
  intros Hwf. split; [|by intros; apply drop_lease_slots|..];
    intros; rewrite drop_lease_by_id, ?on_slot_filter.
  - eapply sublist_NoDup; [|apply fmap_sublist_filter]. apply Hwf.
  - etrans; [apply length_filter|]. apply Hwf.
  - eapply sublist_NoDup; [|apply fmap_sublist_filter]. apply Hwf.
Qed.

Lemma set_unused_wf s u : wf s -> wf (Book (by_id s) (by_slot s) u).
Proof. intros []. by split. Qed.

Lemma expire_one_wf s x : wf s -> wf (expire_one s x).
Proof. intros. by apply drop_lease_wf, set_unused_wf. Qed.

Lemma foldl_wf {A} (f : book -> A -> book) l s :
  (forall s x, wf s -> wf (f s x)) -> wf s -> wf (foldl f s l).
Proof. intros Hf. revert s. induction l; cbn; eauto. Qed.

Lemma expire_wf cfg now s : wf s -> wf (expire cfg now s).2.
Proof. intros. apply set_unused_wf, foldl_wf; eauto using expire_one_wf. Qed.

Lemma foldl_expire_by_id xs s :
  by_id (foldl expire_one s xs) = filter (fun y => lease_id y ∉ lease_id <$> xs) (by_id s).
Proof.
  revert s. induction xs as [|x xs IH]; intros s; cbn.
  - symmetry. apply list_filter_all. set_solver.
  - rewrite IH. unfold expire_one. rewrite drop_lease_by_id. cbn. rewrite list_filter_filter.
    apply list_filter_iff. set_solver.
Qed.

(** [expire] keeps exactly the leases whose time has not come. *)
Lemma expire_by_id cfg now s : wf s ->
  by_id (expire cfg now s).2 = filter (fun x => now < expires_at x) (by_id s).
Proof.
  intros Hwf. cbn. rewrite foldl_expire_by_id. apply list_filter_iff'. intros x Hx. split.
  - intros Hn. destruct (decide (expires_at x <= now)) as [Hle|]; [|lia]. exfalso. apply Hn.
    apply list_elem_of_fmap_2, list_elem_of_filter. done.
  - intros Hlt (y & Hid & [Hle Hy]%list_elem_of_filter)%list_elem_of_fmap.
    pose proof (find_lease_elem _ _ (wf_ids s Hwf) Hx) as E1.
    pose proof (find_lease_elem _ _ (wf_ids s Hwf) Hy) as E2. rewrite Hid in E1.
    assert (x = y) by congruence. subst y. lia.
Qed.

(** ** The scan against its reference *)

Definition unleased (s : book) (key : Z * Z) : bool :=
  match on_slot key (by_id s) with [] => true | _ => false end.
(** A slot a second hotkey may be given: one lessee, another hotkey, half its
    time gone. *)
Definition second_open (cfg : settings) (hotkey : string) (now : float) (s : book) (key : Z * Z) : bool :=
  match on_slot key (by_id s) with
  | [x] => negb (bool_decide (lease_hotkey x = hotkey))
           && (fmul SECOND_LESSEE_AFTER (seconds cfg) <=? fsub now (granted_at x))
  | _ => false
  end.
Definition best_choice (cfg : settings) (hotkey : string) (now : float) (s : book) (tail : option (Z * Z))
    (free : list (Z * Z)) : choice :=
  match List.find (unleased s) free with
  | Some k => Free k
  | None => match (match tail with None => List.find (second_open cfg hotkey now s) free | _ => tail end) with
            | Some k => Tail k
            | None => NoSlot
            end
  end.

Lemma scan_spec cfg hotkey now s free tail : wf s ->
  scan cfg hotkey now s tail free = Ok (best_choice cfg hotkey now s tail free).
Proof.
  intros Hwf. unfold best_choice. revert tail. induction free as [|key free IH]; intros tail.
  { cbn. by destruct tail. }
  cbn [scan List.find]. pose proof (leases_of_slot s key Hwf) as Hls.
  rewrite (slot_ids s key Hwf) in Hls |- *. unfold unleased at 1.
  destruct (on_slot key (by_id s)) as [|x xs] eqn:E; [done|].
  rewrite fmap_cons in Hls |- *. rewrite Hls, bind_ok, IH. do 2 f_equal.
  destruct (List.find (unleased s) free); [done|].
  assert (match x :: xs with
          | [x] => negb (bool_decide (lease_hotkey x = hotkey))
                   && (fmul SECOND_LESSEE_AFTER (seconds cfg) <=? fsub now (granted_at x))
          | _ => false end = second_open cfg hotkey now s key) as -> by (unfold second_open; by rewrite E).
  destruct tail; [done|]. by destruct (second_open _ _ _ _ key).
Qed.

(** What [_add] makes of the book when the id is new. *)
Lemma put_lease_new x l : lease_id x ∉ lease_id <$> l -> put_lease x l = l ++ [x].
Proof.
  intros Hn. unfold put_lease. destruct (find_lease (lease_id x) l) as [y|] eqn:E; [|done].
  apply find_lease_Some in E as [Hy Hid]. exfalso. apply Hn. rewrite <- Hid. by apply list_elem_of_fmap_2.
Qed.

Lemma on_slot_snoc key l x :
  on_slot key (l ++ [x]) = on_slot key l ++ (if bool_decide (lease_key x = key) then [x] else []).
Proof.
  unfold on_slot. rewrite filter_app, filter_cons, filter_nil.
  destruct (decide _) as [H|H]; [by rewrite bool_decide_true|by rewrite bool_decide_false].
Qed.

(** A slot the hotkey may join: at most one live lease, none of its own. *)
Definition joinable (hotkey : string) (s : book) (key : Z * Z) : Prop :=
  (length (on_slot key (by_id s)) <= 1)%nat /\ hotkey ∉ lease_hotkey <$> on_slot key (by_id s).

Lemma add_lease_wf cfg new_id hotkey key now pr rd s :
  wf s -> new_id ∉ lease_id <$> by_id s -> joinable hotkey s key ->
  wf (add_lease cfg new_id hotkey key now pr rd s).2.
Proof.
  intros Hwf Hnew [Hlen Hhk]. unfold add_lease. cbn [snd].
  set (x := Lease new_id hotkey key.1 key.2 now (fadd now (seconds cfg)) pr rd).
  assert (lease_key x = key) as Hkey by (by destruct key).
  rewrite (put_lease_new x) by done.
  split; cbn [by_id by_slot].
  - rewrite fmap_app. apply NoDup_app. split; [apply Hwf|]. split; [set_solver|]. apply NoDup_singleton.
  - intros k. rewrite on_slot_snoc, fmap_app. destruct (decide (key = k)) as [<-|Hne].
    + rewrite lookup_insert_eq, slot_ids, bool_decide_true by done. cbn.
      by destruct (lease_id <$> on_slot key (by_id s)).
    + rewrite lookup_insert_ne, bool_decide_false by (congruence || done). rewrite app_nil_r.
      apply (wf_slot s Hwf).
  - intros k. rewrite on_slot_snoc, length_app. case_bool_decide as E; cbn; [|pose proof (wf_two s Hwf k); lia].
    replace k with key by congruence. lia.
  - intros k. rewrite on_slot_snoc, fmap_app. case_bool_decide as E; cbn; [|rewrite app_nil_r; apply Hwf].
    replace k with key by congruence. apply NoDup_app. split; [apply Hwf|]. split; [|apply NoDup_singleton].
    intros h Hh ->%list_elem_of_singleton. done.
Qed.

Lemma best_choice_joinable cfg hotkey now s free key :
  best_choice cfg hotkey now s None free = Free key \/ best_choice cfg hotkey now s None free = Tail key ->
  key ∈ free /\ joinable hotkey s key.
Proof.
  unfold best_choice, joinable. destruct (List.find (unleased s) free) as [k|] eqn:E.
  - intros [[= ->]|[=]]. apply find_some in E as [Hin Hu]. split; [by apply list_elem_of_In|].
    unfold unleased in Hu. destruct (on_slot key (by_id s)); [|done]. cbn. set_solver.
  - destruct (List.find (second_open _ _ _ _) free) as [k|] eqn:E2; [|naive_solver].
    intros [[=]|[= ->]]. apply find_some in E2 as [Hin Hu]. split; [by apply list_elem_of_In|].
    unfold second_open in Hu. destruct (on_slot key (by_id s)) as [|x [|]]; try done. cbn.
    apply andb_true_iff in Hu as [Hu _]. apply negb_true_iff, bool_decide_eq_false in Hu. set_solver.
Qed.

(** ** The interface of the open slots, and the slot ledger as its source *)










(** ** Reachable books *)

(** Every public operation, at any clock readings; a granted lease takes an id
    no live lease has ([secrets.token_hex(16)]). *)
Inductive step (cfg : settings) (s : book) : book -> Prop :=
  | step_expire now : step cfg s (expire cfg now s).2
  | step_grant hotkey new_id free pr rd t1 t2 t3 now draw :
      new_id ∉ lease_id <$> by_id s ->
      step cfg s (grant cfg hotkey new_id free pr rd t1 t2 t3 now draw s).2.2
  | step_release now hotkey id : step cfg s (release cfg now hotkey id s).2.2
  | step_settle p sl : step cfg s (settle p sl s).

Definition reachable (cfg : settings) (s : book) : Prop := rtc (step cfg) new_book s.

(** The leases of a hotkey. *)
Definition of_hotkey (hotkey : string) (l : list lease) : list lease := filter (fun x => lease_hotkey x = hotkey) l.

Record inv (cfg : settings) (s : book) : Prop := {
  inv_wf : wf s;
  inv_cap : forall h, Z.of_nat (length (of_hotkey h (by_id s))) <= base_cap cfg;
}.

Lemma base_cap_pos cfg : 1 <= base_cap cfg.
Proof. unfold base_cap. destruct (negb _); lia. Qed.

Lemma shiftr_le n k : 0 <= n -> Z.shiftr n (Z.of_nat k) <= n.
Proof. intros. rewrite Z.shiftr_div_pow2 by lia. apply Z.div_le_upper_bound; nia || lia. Qed.

Lemma cap_bounds cfg now h s : 1 <= (cap cfg now h s).1 <= base_cap cfg.
Proof.
  unfold cap, expire. pose proof (base_cap_pos cfg). destruct (negb _); cbn [fst]; [lia|].
  pose proof (shiftr_le (base_cap cfg) (length (default [] (unused (expire cfg now s).2 !! h)))). cbn in *. lia.
Qed.

Lemma sublist_of_hotkey h (P : lease -> Prop) `{!forall x, Decision (P x)} l :
  (length (of_hotkey h (filter P l)) <= length (of_hotkey h l))%nat.
Proof.
  unfold of_hotkey. rewrite !list_filter_filter.
  rewrite (list_filter_iff _ (fun x => P x /\ lease_hotkey x = h)) by tauto.
  rewrite <- list_filter_filter. apply length_filter.
Qed.

Lemma drop_lease_inv cfg id s : inv cfg s -> inv cfg (drop_lease id s).
Proof.
  intros [Hwf Hcap]. split; [by apply drop_lease_wf|]. intros h. rewrite drop_lease_by_id.
  pose proof (sublist_of_hotkey h (fun y => lease_id y <> id) (by_id s)). specialize (Hcap h). lia.
Qed.

Lemma expire_inv cfg now s : inv cfg s -> inv cfg (expire cfg now s).2.
Proof.
  intros [Hwf Hcap]. split; [by apply expire_wf|]. intros h. rewrite expire_by_id by done.
  pose proof (sublist_of_hotkey h (fun x => now < expires_at x) (by_id s)). specialize (Hcap h). lia.
Qed.

Lemma settle_inv cfg p sl s : inv cfg s -> inv cfg (settle p sl s).
Proof.
  unfold settle. generalize (default [] (by_slot s !! (p, sl))). intros ids.
  revert s. induction ids; cbn; eauto using drop_lease_inv.
Qed.

Lemma release_inv cfg now h id s : inv cfg s -> inv cfg (release cfg now h id s).2.2.
Proof.
  intros. unfold release. destruct (find_lease _ _); [|done]. case_bool_decide; [|done].
  by apply drop_lease_inv.
Qed.

(** The book after expiries at the given clock readings. *)
Definition expired (cfg : settings) (ts : list float) (s : book) : book :=
  foldl (fun s t => (expire cfg t s).2) s ts.

Lemma expired_inv cfg ts s : inv cfg s -> inv cfg (expired cfg ts s).
Proof. revert s. induction ts; cbn [expired foldl]; eauto using expire_inv. Qed.

(** [grant] without its plumbing. *)
Definition granting (cfg : settings) (hotkey new_id : string) (free_slots : Z -> list (Z * Z))
    (pr : option float) (rd : option Z) (now : float) (draw : Z) (s2 s3 : book) (bound : Z)
    : result grant_answer * book :=
  if bound <=? Z.of_nat (length (of_hotkey hotkey (by_id s2))) then (Ok TooManyLeases, s3)
  else
    match best_choice cfg hotkey now s3 None
            (free_slots (if job_count (the_job cfg) =? 0 then job_start (the_job cfg)
                         else job_start (the_job cfg) + draw)) with
    | NoSlot => (Ok NothingToLease, s3)
    | Free key | Tail key =>
        let '(x, s4) := add_lease cfg new_id hotkey key now pr rd s3 in (Ok (Granted x), s4)
    end.

Lemma grant_eq cfg hotkey new_id free pr rd t1 t2 t3 now draw s : wf s ->
  let g := grant cfg hotkey new_id free pr rd t1 t2 t3 now draw s in
  (g.1, g.2.2)
  = granting cfg hotkey new_id free pr rd now draw (expired cfg [t1; t2] s) (expired cfg [t1; t2; t3] s)
      (cap cfg t3 hotkey (expired cfg [t1; t2] s)).1.
Proof.
  intros Hwf. unfold grant, held_by, cap, granting. cbn [expired foldl].
  pose proof (expire_wf cfg t1 s Hwf) as Hwf1. destruct (expire cfg t1 s) as [c1 s1]. cbn [snd] in *.
  pose proof (expire_wf cfg t2 s1 Hwf1) as Hwf2. destruct (expire cfg t2 s1) as [c2 s2]. cbn [snd] in *.
  pose proof (expire_wf cfg t3 s2 Hwf2) as Hwf3. destruct (expire cfg t3 s2) as [c3 s3]. cbn [fst snd] in *.
  fold (of_hotkey hotkey (by_id s2)). destruct (_ <=? _); [done|].
  rewrite scan_spec by done. destruct (best_choice _ _ _ _ _ _); cbn; done.
Qed.

Lemma expired_elem cfg ts s x : wf s -> x ∈ by_id (expired cfg ts s) -> x ∈ by_id s.
Proof.
  revert s. induction ts as [|t ts IH]; intros s Hwf; [done|]. cbn [expired foldl]. intros Hx.
  apply IH in Hx; [|by apply expire_wf]. rewrite expire_by_id in Hx by done.
  by apply list_elem_of_filter in Hx as [_ ?].
Qed.

Lemma grant_inv cfg hotkey new_id free pr rd t1 t2 t3 now draw s :
  inv cfg s -> new_id ∉ lease_id <$> by_id s ->
  inv cfg (grant cfg hotkey new_id free pr rd t1 t2 t3 now draw s).2.2.
Proof.
  intros Hinv Hnew. pose proof (inv_wf _ _ Hinv) as Hwf.
  pose proof (grant_eq cfg hotkey new_id free pr rd t1 t2 t3 now draw s Hwf) as E. cbn zeta in E.
  apply (f_equal snd) in E. cbn [snd] in E. rewrite E. unfold granting.
  pose proof (expired_inv cfg [t1; t2; t3] s Hinv) as H3.
  assert (new_id ∉ lease_id <$> by_id (expired cfg [t1; t2; t3] s)) as Hnew3.
  { intros (x & Hid & Hx)%list_elem_of_fmap. apply Hnew. rewrite Hid.
    by eapply list_elem_of_fmap_2, expired_elem. }
  assert (forall h, length (of_hotkey h (by_id (expired cfg [t1; t2; t3] s)))
                    <= length (of_hotkey h (by_id (expired cfg [t1; t2] s))))%nat as Hle.
  { intros h. change (expired cfg [t1; t2; t3] s) with (expire cfg t3 (expired cfg [t1; t2] s)).2.
    rewrite expire_by_id by by apply expired_inv. apply sublist_of_hotkey. }
  pose proof (cap_bounds cfg t3 hotkey (expired cfg [t1; t2] s)) as Hcap.
  specialize (Hle hotkey). clear E Hinv Hwf Hnew.
  set (s3 := expired cfg [t1; t2; t3] s) in *. set (s2 := expired cfg [t1; t2] s) in *.
  destruct (Z.leb_spec (cap cfg t3 hotkey s2).1 (Z.of_nat (length (of_hotkey hotkey (by_id s2))))); [done|].
  assert (forall key, joinable hotkey s3 key -> inv cfg (add_lease cfg new_id hotkey key now pr rd s3).2) as Hadd.
  { intros key Hj. split; [by apply add_lease_wf; [apply H3|..]|]. intros h.
    unfold add_lease. cbn [snd by_id]. rewrite put_lease_new by done.
    unfold of_hotkey at 1. rewrite filter_app, filter_cons, filter_nil, length_app. cbn [lease_hotkey].
    destruct (decide (hotkey = h)) as [<-|]; cbn [length];
      [fold (of_hotkey hotkey (by_id s3)); lia|]. rewrite Nat.add_0_r. apply H3. }
  destruct (best_choice _ _ _ _ _ _) as [key|key|] eqn:Eb; [| |done].
  all: assert (joinable hotkey s3 key) as Hj by (eapply best_choice_joinable; eauto).
  all: exact (Hadd key Hj).
Qed.

Lemma step_inv cfg s s' : inv cfg s -> step cfg s s' -> inv cfg s'.
Proof.
  intros Hi Hs. destruct Hs; [by apply expire_inv|by apply grant_inv|by apply release_inv|by apply settle_inv].
Qed.

Lemma reachable_inv cfg s : reachable cfg s -> inv cfg s.
Proof.
  apply rtc_invariant; [by eauto using step_inv|]. split; [apply wf_new|]. intros h.
  pose proof (base_cap_pos cfg). cbn. lia.
Qed.

Lemma holders_eq cfg now p sl s : wf s ->
  (holders cfg now p sl s).1
  = Ok (filter (fun x => lease_key x = (p, sl) /\ now < expires_at x) (by_id s)).
Proof.
  intros Hwf. unfold holders. pose proof (expire_wf cfg now s Hwf) as Hwf1.
  pose proof (expire_by_id cfg now s Hwf) as Hid. destruct (expire cfg now s) as [c s1]. cbn [fst snd] in *.
  rewrite leases_of_slot by done. f_equal. rewrite Hid. unfold on_slot.
  rewrite list_filter_filter. done.
Qed.

Definition live_on (now : float) (p sl : Z) (s : book) : list lease :=
  filter (fun x => lease_key x = (p, sl) /\ now < expires_at x) (by_id s).

Lemma refusal_eq cfg now h p sl s : wf s ->
  (refusal cfg now h p sl s).1
  = Ok (negb (bool_decide (live_on now p sl s = []))
        && forallb (fun x => negb (bool_decide (lease_hotkey x = h))) (live_on now p sl s)).
Proof.
  intros Hwf. unfold refusal. pose proof (holders_eq cfg now p sl s Hwf) as E.
  destruct (holders cfg now p sl s) as [r cs]. cbn [fst] in *. by subst r.
Qed.

(** ** Claims *)

(** In every book reached by granting, releasing, settling and expiring
    leases at any times (a new lease's id being unused), a slot has at most two
    live leases, of two different hotkeys, the two dictionaries agree (reading a
    slot's holders never raises, and gives exactly its unexpired leases), and no
    hotkey holds more leases than the job's base cap. *)
Theorem leases_bounded (cfg : settings) (s : book) (now : float) (p sl : Z) :
  reachable cfg s ->
  (holders cfg now p sl s).1 = Ok (live_on now p sl s) /\
  (length (live_on now p sl s) <= 2)%nat /\
  NoDup (lease_hotkey <$> live_on now p sl s) /\
  forall h, Z.of_nat (length (held_by cfg now h s).1) <= base_cap cfg.
Proof.
  intros Hr%reachable_inv. pose proof (inv_wf _ _ Hr) as Hwf.
  pose proof (expire_wf cfg now s Hwf) as Hwf1. pose proof (expire_by_id cfg now s Hwf) as Hid.
  assert (live_on now p sl s = on_slot (p, sl) (by_id (expire cfg now s).2)) as E.
  { rewrite Hid. unfold on_slot. by rewrite list_filter_filter. }
  split; [by apply holders_eq|]. rewrite E. split_and!; [apply Hwf1..|].
  intros h. pose proof (inv_cap _ _ (expire_inv cfg now s Hr) h) as Hc. unfold held_by.
  destruct (expire cfg now s) as [c s1]. exact Hc.
Qed.

Definition w_job : job := Job 10 8 1 4096 1 None.
Definition w_cfg : settings := Settings w_job true MAX_LEASES_PER_HOTKEY (of_int 600).
Definition w_free (start : Z) : list (Z * Z) := [(10, 0)].
Definition w_book1 : book :=
  (grant w_cfg "alice" "id1" w_free None None (of_int 0) (of_int 0) (of_int 0) (of_int 0) 3 new_book).2.2.
Definition w_book2 : book :=
  (grant w_cfg "bob" "id2" w_free None None (of_int 400) (of_int 400) (of_int 400) (of_int 400) 3 w_book1).2.2.

Lemma w_book1_ids : lease_id <$> by_id w_book1 = ["id1"%string].
Proof. vm_compute. reflexivity. Qed.
Lemma w_book1_reachable : reachable w_cfg w_book1.
Proof.
  apply rtc_once, (step_grant w_cfg new_book "alice" "id1" w_free). apply not_elem_of_nil.
Qed.
Lemma w_book2_reachable : reachable w_cfg w_book2.
Proof.
  eapply rtc_r; [apply w_book1_reachable|]. apply (step_grant w_cfg w_book1 "bob" "id2" w_free).
  rewrite w_book1_ids. set_solver.
Qed.

Lemma leases_bounded_witness :
  (length (live_on (of_int 400) 10 0 w_book2) = 2)%nat /\
  NoDup (lease_hotkey <$> live_on (of_int 400) 10 0 w_book2).
Proof.
  split; [vm_compute; reflexivity|].
  exact (proj1 (proj2 (proj2 (leases_bounded w_cfg w_book2 (of_int 400) 10 0 w_book2_reachable)))).
Defined.




Lemma settle_by_id p sl s : wf s ->
  by_id (settle p sl s) = filter (fun x => lease_key x <> (p, sl)) (by_id s).
Proof.
  intros Hwf. unfold settle. rewrite slot_ids by done.
  assert (forall ids s, by_id (foldl (fun s id => drop_lease id s) s ids)
                        = filter (fun y => lease_id y ∉ ids) (by_id s)) as Hf.
  { clear. induction ids as [|i ids IH]; intros s; cbn.
    - symmetry. apply list_filter_all. set_solver.
    - rewrite IH, drop_lease_by_id, list_filter_filter. apply list_filter_iff. set_solver. }
  rewrite Hf. apply list_filter_iff'. intros x Hx. split.
  - intros Hn Hk. apply Hn, list_elem_of_fmap_2, list_elem_of_filter. done.
  - intros Hk (y & Hid & [Hy1 Hy2]%list_elem_of_filter)%list_elem_of_fmap. apply Hk. rewrite <- Hy1.
    pose proof (find_lease_elem _ _ (wf_ids s Hwf) Hx) as E1.
    pose proof (find_lease_elem _ _ (wf_ids s Hwf) Hy2) as E2. congruence.
Qed.

Lemma settle_wf p sl s : wf s -> wf (settle p sl s).
Proof. intros. by apply foldl_wf; eauto using drop_lease_wf. Qed.

(** A submission is refused as [draw_slot_leased] exactly when the slot has
    a live lease and none of its live leases is the submitter's; once the slot
    is taken ([settle]) nobody is refused it, and the leases of every other slot
    are as before. *)
Theorem refusal_exact (cfg : settings) (s : book) (now : float) (h : string) (p sl : Z) :
  reachable cfg s ->
  (exists b, (refusal cfg now h p sl s).1 = Ok b /\
     (b = true <-> live_on now p sl s <> [] /\ forall x, x ∈ live_on now p sl s -> lease_hotkey x <> h)) /\
  (refusal cfg now h p sl (settle p sl s)).1 = Ok false /\
  forall q z, (q, z) <> (p, sl) -> live_on now q z (settle p sl s) = live_on now q z s.
Proof.
  intros Hr%reachable_inv%inv_wf. pose proof (settle_wf p sl s Hr) as Hs. split_and!.
  - rewrite refusal_eq by done. eexists. split; [done|].
    rewrite andb_true_iff, negb_true_iff, bool_decide_eq_false, forallb_forall. f_equiv. split.
    + intros Hall x Hx%list_elem_of_In%Hall. by apply negb_true_iff, bool_decide_eq_false in Hx.
    + intros Hall x Hx%list_elem_of_In%Hall. by apply negb_true_iff, bool_decide_eq_false.
  - rewrite refusal_eq by done. unfold live_on. rewrite settle_by_id by done. rewrite list_filter_filter.
    rewrite (list_filter_iff _ (fun _ => False)) by tauto.
    replace (filter (fun _ => False) (by_id s)) with (@nil lease); [done|].
    induction (by_id s) as [|x l IH]; [done|]. rewrite filter_cons. by destruct (decide False).
  - intros q z Hne. unfold live_on. rewrite settle_by_id by done. rewrite list_filter_filter.
    apply list_filter_iff. intros x. split; [tauto|]. intros [Hk He]. split_and!; congruence.
Qed.

Lemma refusal_exact_witness :
  (refusal w_cfg (of_int 400) "carol" 10 0 (settle 10 0 w_book2)).1 = Ok false /\
  (refusal w_cfg (of_int 400) "carol" 10 0 w_book2).1 = Ok true.
Proof.
  split; [|vm_compute; reflexivity].
  exact (proj1 (proj2 (refusal_exact w_cfg w_book2 (of_int 400) "carol" 10 0 w_book2_reachable))).
Defined.
