(* ===== verification/Checks.v ===== *)
(** * Checks: the submission checks that cost no GPU

    Models [reliquary/corpus/checks.py] and the chunk arithmetic of
    [reliquary/protocol/toploc.py] it calls ([expected_chunks],
    [span_chunk_bounds], [span_chunk_count]).  A check's result is [Passed] or
    [Refused] with the reason and the detail dictionary the miner is told. *)

From S2P Require Import Prelude PyFloat Bytes Sha256.

#[local] Open Scope Z_scope.

(** ** Proof chunks ([protocol/toploc.py]) *)

Definition MIN_CHUNK_TOKENS : Z := 8.

(** [expected_chunks]: [math.ceil(tokens / chunk)] on a float quotient. *)
Definition expected_chunks (completion_tokens chunk_tokens : Z) : result Z :=
  if (completion_tokens <? 1) || (chunk_tokens <? 1) then Raise ValueError
  else Ok (fceil (flit completion_tokens chunk_tokens)).

(** [range(0, length, chunk)] *)
Definition range_by (len chunk : Z) : list Z :=
  (fun i => i * chunk) <$> seqZ 0 (- (- len / chunk)).

(** The chunks of a span, a short last one merged into the one before. *)
Definition span_chunk_bounds (len chunk min_chunk : Z) : result (list (Z * Z)) :=
  if (len <? 1) || (chunk <? 1) then Raise ValueError
  else if negb ((1 <=? min_chunk) && (min_chunk <=? chunk)) then Raise ValueError
  else
    let bounds := (fun s => (s, Z.min (s + chunk) len)) <$> range_by len chunk in
    match rev bounds with
    | (s, e) :: (s', e') :: rest =>
        if e - s <? min_chunk then Ok (rev ((s', e) :: rest)) else Ok bounds
    | _ => Ok bounds
    end.

Definition span_chunk_count (len chunk min_chunk : Z) : result Z :=
  b ← span_chunk_bounds len chunk min_chunk; Ok (Z.of_nat (length b)).

(** ** Results *)

Abbreviation details := (list (string * pyval)).

Inductive check_result :=
  | Passed
  | Refused (reason : string) (detail : details).

(** The sampling contract of a job, as far as the checks read it. *)
Record sampling := Sampling {
  min_new_tokens : Z;
  max_new_tokens : Z;
  n : Z;
  draw : option string;
}.

Definition REASON_BAD_TURNS : string := "bad_turns".
Definition REASON_SHORT_TURNS : string := "short_turns".
Definition MAX_SHORT_TURNS : Z := 2.

(** [enumerate] from 0. *)
Definition enumerate {A} (l : list A) : list (Z * A) := zip (seqZ 0 (Z.of_nat (length l))) l.

(** The first refusal of a loop over positions. *)
Fixpoint first_refusal {A} (f : Z * A -> result check_result) (l : list (Z * A)) : result check_result :=
  match l with
  | [] => Ok Passed
  | x :: l' => r ← f x; match r with Passed => first_refusal f l' | Refused _ _ => Ok r end
  end.

(** ** The checks of a single completion *)

(** [completion_digest]: the bytes hashed, and their digest; a number that does
    not fit raises. *)
Definition uint_bytes (width : nat) (z : Z) : result (list Z) :=
  if (0 <=? z) && (z <? 256 ^ Z.of_nat width) then Ok (to_bytes_be width z) else Raise OverflowError.
Definition completion_preimage (prompt_index : Z) (tokens : list Z) : result (list Z) :=
  p ← uint_bytes 8 prompt_index;
  fold_result (fun acc t => b ← uint_bytes 4 t; Ok (acc ++ b)) p tokens.
Definition completion_digest (prompt_index : Z) (tokens : list Z) : result string :=
  b ← completion_preimage prompt_index tokens; Ok (hexdigest b).

Definition check_completion_count (count : Z) (s : sampling) : check_result :=
  if count =? n s then Passed
  else Refused "bad_completion_count" [("expected"%string, VInt (n s)); ("got"%string, VInt count)].

Definition check_token_budget (token_counts : list Z) (s : sampling) : result check_result :=
  first_refusal (fun '(position, tokens) =>
    if max_new_tokens s <? tokens then
      Ok (Refused "token_budget_exceeded"
            [("position"%string, VInt position); ("tokens"%string, VInt tokens); ("max_new_tokens"%string, VInt (max_new_tokens s))])
    else if tokens <? min_new_tokens s then
      Ok (Refused "token_budget_underrun"
            [("position"%string, VInt position); ("tokens"%string, VInt tokens); ("min_new_tokens"%string, VInt (min_new_tokens s))])
    else Ok Passed) (enumerate token_counts).

Definition check_termination (token_counts last_token_ids : list Z) (s : sampling) (eos_token_id : Z)
    : result check_result :=
  first_refusal (fun '(position, last_token_id) =>
    if last_token_id =? eos_token_id then Ok Passed
    else
      tokens ← py_nth token_counts position;
      if negb (tokens =? max_new_tokens s) then
        Ok (Refused "bad_termination"
              [("position"%string, VInt position); ("termination"%string, VStr "cap"); ("tokens"%string, VInt tokens);
               ("max_new_tokens"%string, VInt (max_new_tokens s)); ("last_token_id"%string, VInt last_token_id)])
      else Ok Passed) (enumerate last_token_ids).

(** [check_duplicates]: a digest already seen, or repeated in the submission. *)
Fixpoint duplicates_loop (seen within : gset string) (l : list (Z * string)) : check_result :=
  match l with
  | [] => Passed
  | (position, digest) :: l' =>
      if bool_decide (digest ∈ seen) || bool_decide (digest ∈ within) then
        Refused "hash_duplicate" [("position"%string, VInt position); ("digest"%string, VStr digest)]
      else duplicates_loop seen ({[digest]} ∪ within) l'
  end.
Definition check_duplicates (digests : list string) (seen : gset string) : check_result :=
  duplicates_loop seen ∅ (enumerate digests).

Definition check_proof_shape (token_counts proof_counts : list Z) (chunk_tokens : Z) : result check_result :=
  if negb (length token_counts =? length proof_counts)%nat then
    Ok (Refused "bad_proof_shape"
          [("completions"%string, VInt (Z.of_nat (length token_counts))); ("proof_lists"%string, VInt (Z.of_nat (length proof_counts)))])
  else
    first_refusal (fun '(position, (tokens, proofs)) =>
      expected ← expected_chunks tokens chunk_tokens;
      if negb (proofs =? expected) then
        Ok (Refused "bad_proof_shape"
              [("completion"%string, VInt position); ("expected"%string, VInt expected); ("got"%string, VInt proofs)])
      else Ok Passed) (enumerate (zip token_counts proof_counts)).

(** ** The checks of a trajectory of turns *)

Definition refuse (why : string) : check_result := Refused REASON_BAD_TURNS [("why"%string, VStr why)].

Definition turn_text (start stop : Z) : string := "[" +:+ py_str start +:+ ", " +:+ py_str stop +:+ ")".

Fixpoint turn_loop (previous_end : option Z) (spans : list (Z * Z)) (len : Z) : check_result :=
  match spans with
  | [] =>
      if bool_decide (previous_end = Some len) then Passed
      else refuse ("the last turn ends at " +:+ from_option py_str "None" previous_end
                   +:+ ", the tokens at " +:+ py_str len)
  | (start, stop) :: spans' =>
      if negb (start <? stop) then refuse ("empty turn " +:+ turn_text start stop)
      else if from_option (fun e => start <=? e) false previous_end then
        refuse ("turn " +:+ turn_text start stop +:+ " is not after the previous one's segment")
      else turn_loop (Some stop) spans' len
  end.

Definition check_turn_spans (spans : list (Z * Z)) (len max_turns : Z) : check_result :=
  match spans with
  | [] => refuse "no turns"
  | (first_start, _) :: _ =>
      if max_turns <? Z.of_nat (length spans) then
        refuse (py_str (Z.of_nat (length spans)) +:+ " turns, at most " +:+ py_str max_turns)
      else if negb (first_start =? 0) then refuse "the first turn does not follow the prompt"
      else turn_loop None spans len
  end.

Definition check_short_turns (spans : list (Z * Z)) (min_chunk_tokens max_short : Z) : check_result :=
  let short := Z.of_nat (length (filter (fun s => s.2 - s.1 < min_chunk_tokens) spans)) in
  if max_short <? short then
    Refused REASON_SHORT_TURNS [("short_turns"%string, VInt short); ("max"%string, VInt max_short)]
  else Passed.

Definition check_turn_budget (spans : list (Z * Z)) (prompt_len len max_tokens_per_turn max_total_tokens : Z)
    : result check_result :=
  if max_total_tokens <? prompt_len + len then
    Ok (Refused "token_budget_exceeded"
          [("tokens"%string, VInt (prompt_len + len)); ("max_total_tokens"%string, VInt max_total_tokens)])
  else
    first_refusal (fun '(position, (start, stop)) =>
      if max_tokens_per_turn <? stop - start then
        Ok (Refused "token_budget_exceeded"
              [("turn"%string, VInt position); ("tokens"%string, VInt (stop - start));
               ("max_tokens_per_turn"%string, VInt max_tokens_per_turn)])
      else Ok Passed) (enumerate spans).

Definition check_turn_termination (tokens : list Z) (spans : list (Z * Z)) (prompt_len terminator_id : Z)
    (stop_ids : gset Z) (max_tokens_per_turn max_total_tokens : Z) : result check_result :=
  let last := Z.of_nat (length spans) - 1 in
  first_refusal (fun '(position, (start, stop)) =>
    let cap := Z.min max_tokens_per_turn (max_total_tokens - (prompt_len + start)) in
    token ← py_nth tokens (stop - 1);
    let ended := if position =? last then bool_decide (token ∈ stop_ids) else token =? terminator_id in
    let other_stop := negb (position =? last) && bool_decide (token ∈ stop_ids) && negb (token =? terminator_id) in
    if other_stop || (negb ended && negb (stop - start =? cap)) then
      Ok (Refused "bad_termination"
            [("turn"%string, VInt position); ("tokens"%string, VInt (stop - start)); ("cap"%string, VInt cap);
             ("last_token_id"%string, VInt token)])
    else Ok Passed) (enumerate spans).

Definition check_turn_proof_shape (spans : list (Z * Z)) (proof_counts : list Z) (chunk_tokens min_chunk_tokens : Z)
    : result check_result :=
  if negb (length spans =? length proof_counts)%nat then
    Ok (Refused "bad_proof_shape"
          [("turns"%string, VInt (Z.of_nat (length spans))); ("proof_lists"%string, VInt (Z.of_nat (length proof_counts)))])
  else
    first_refusal (fun '(position, ((start, stop), got)) =>
      expected ← span_chunk_count (stop - start) chunk_tokens min_chunk_tokens;
      if negb (got =? expected) then
        Ok (Refused "bad_proof_shape" [("turn"%string, VInt position); ("expected"%string, VInt expected); ("got"%string, VInt got)])
      else Ok Passed) (enumerate (zip spans proof_counts)).

(** ** Loops over positions *)

Lemma lookup_enumerate {A} (l : list A) i x :
  enumerate l !! i = Some x <-> x.1 = Z.of_nat i /\ l !! i = Some x.2.
Proof.
  unfold enumerate. destruct x as [p a]. rewrite lookup_zip_Some. cbn. split.
  - intros [H1 H2]. split; [|done]. apply lookup_seqZ in H1 as [H1 _]. lia.
  - intros [-> H2]. split; [|done]. apply lookup_seqZ. apply lookup_lt_Some in H2. lia.
Qed.

Lemma first_refusal_passed {A} (f : Z * A -> result check_result) l :
  first_refusal f l = Ok Passed <-> forall x, x ∈ l -> f x = Ok Passed.
Proof.
  induction l as [|x l IH]; cbn; [split; [intros _ y Hy; by apply not_elem_of_nil in Hy|done]|].
  split.
  - intros H. destruct (f x) as [[|]|] eqn:E; cbn in H; try done. rewrite IH in H.
    intros y [->|Hy]%elem_of_cons; [done|auto].
  - intros H. rewrite (H x) by set_solver. cbn. apply IH. intros; apply H; set_solver.
Qed.

Lemma first_refusal_total {A} (f : Z * A -> result check_result) l :
  (forall x, x ∈ l -> exists r, f x = Ok r) -> exists r, first_refusal f l = Ok r.
Proof.
  induction l as [|x l IH]; cbn; intros H; [eauto|]. destruct (H x) as [r ->]; [set_solver|]. cbn.
  destruct r; [|eauto]. apply IH. intros; apply H; set_solver.
Qed.

Lemma first_refusal_enumerate {A} (f : Z * A -> result check_result) (l : list A) :
  first_refusal f (enumerate l) = Ok Passed <->
  forall i x, l !! i = Some x -> f (Z.of_nat i, x) = Ok Passed.
Proof.
  rewrite first_refusal_passed. split.
  - intros H i x Hi. apply H, list_elem_of_lookup. exists i. by apply lookup_enumerate.
  - intros H [p x] [i [E Hi]%lookup_enumerate]%list_elem_of_lookup. cbn in *. subst p. by apply H.
Qed.

Lemma enumerate_elem {A} (l : list A) x : x ∈ enumerate l -> exists i, x.1 = Z.of_nat i /\ l !! i = Some x.2.
Proof. intros [i H%lookup_enumerate]%list_elem_of_lookup. eauto. Qed.

(** ** The checks, declaratively *)

Lemma check_token_budget_passed cs s :
  check_token_budget cs s = Ok Passed <-> Forall (fun c => min_new_tokens s <= c <= max_new_tokens s) cs.
Proof.
  unfold check_token_budget. rewrite first_refusal_enumerate, Forall_lookup.
  do 2 (apply forall_proper; intros ?). apply forall_proper. intros _.
  destruct (Z.ltb_spec (max_new_tokens s) x0), (Z.ltb_spec x0 (min_new_tokens s)); split; intros; (done || lia).
Qed.

Lemma check_token_budget_total cs s : exists r, check_token_budget cs s = Ok r.
Proof. apply first_refusal_total. intros [p c] _. repeat (destruct (_ <? _); [eauto|]). eauto. Qed.

Lemma py_nth_of_nat {A} (l : list A) i :
  py_nth l (Z.of_nat i) = match l !! i with Some a => Ok a | None => Raise IndexError end.
Proof.
  unfold py_nth. destruct (Z.ltb_spec (Z.of_nat i) 0); [lia|].
  destruct (Z.ltb_spec (Z.of_nat i) 0); [lia|]. by rewrite Nat2Z.id.
Qed.

Lemma check_termination_passed cs ls s eos : length cs = length ls ->
  check_termination cs ls s eos = Ok Passed <->
  forall i c t, cs !! i = Some c -> ls !! i = Some t -> t = eos \/ c = max_new_tokens s.
Proof.
  intros Hlen. unfold check_termination. rewrite first_refusal_enumerate. split.
  - intros H i c t Hc Ht. specialize (H i t Ht). cbn in H. destruct (Z.eqb_spec t eos); [by left|].
    rewrite py_nth_of_nat, Hc in H. cbn in H. destruct (Z.eqb_spec c (max_new_tokens s)); [by right|done].
  - intros H i t Ht. cbn. destruct (Z.eqb_spec t eos); [done|].
    destruct (lookup_lt_is_Some_2 cs i) as [c Hc]; [rewrite Hlen; by eapply lookup_lt_Some|].
    rewrite py_nth_of_nat, Hc. cbn. destruct (H i c t Hc Ht) as [? | ->]; [done|]. by rewrite Z.eqb_refl.
Qed.

Lemma check_termination_total cs ls s eos : length cs = length ls -> exists r, check_termination cs ls s eos = Ok r.
Proof.
  intros Hlen. apply first_refusal_total. intros [p t] (i & E & Hi)%enumerate_elem. cbn in *. subst p.
  destruct (t =? eos); [eauto|].
  destruct (lookup_lt_is_Some_2 cs i) as [c Hc]; [rewrite Hlen; by eapply lookup_lt_Some|].
  rewrite py_nth_of_nat, Hc. cbn. destruct (negb _); eauto.
Qed.

Lemma duplicates_loop_passed seen within ps ds :
  length ps = length ds ->
  duplicates_loop seen within (zip ps ds) = Passed <->
  NoDup ds /\ forall d, d ∈ ds -> d ∉ seen /\ d ∉ within.
Proof.
  revert within ps. induction ds as [|d ds IH]; intros within [|p ps] Hlen; try done; cbn.
  - split; [|done]. intros _. split; [constructor|set_solver].
  - injection Hlen as Hlen. destruct (bool_decide (d ∈ seen) || bool_decide (d ∈ within)) eqn:E.
    + split; [done|]. intros [_ H]. destruct (H d ltac:(set_solver)).
      apply orb_true_iff in E as [E|E]; by apply bool_decide_eq_true in E.
    + apply orb_false_iff in E as [E1%bool_decide_eq_false E2%bool_decide_eq_false].
      rewrite IH by done. rewrite NoDup_cons. split.
      * intros [Hnd H]. split; [split; [|done]|].
        -- intros Hd. apply (H d Hd). set_solver.
        -- intros d' [->|Hd']%elem_of_cons; [done|]. specialize (H d' Hd'). set_solver.
      * intros [[Hd Hnd] H]. split; [done|]. intros d' Hd'. specialize (H d' ltac:(set_solver)).
        split; [apply H|]. intros [->%elem_of_singleton|Hw]%elem_of_union; [done|]. by apply H.
Qed.

Lemma check_duplicates_passed ds seen :
  check_duplicates ds seen = Passed <-> NoDup ds /\ forall d, d ∈ ds -> d ∉ seen.
Proof.
  unfold check_duplicates, enumerate.
  rewrite duplicates_loop_passed by (rewrite length_seqZ; lia).
  split; intros [Hnd H]; (split; [done|]); intros d Hd; specialize (H d Hd); set_solver.
Qed.

(** ** Chunks *)

(** Adjacent non-empty intervals from [a] to [b]. *)
Fixpoint tiles (a b : Z) (l : list (Z * Z)) : Prop :=
  match l with
  | [] => a = b
  | (s, e) :: l' => s = a /\ s < e /\ tiles e b l'
  end.

Lemma tiles_app a b c l k : tiles a b l -> tiles b c k -> tiles a c (l ++ k).
Proof.
  revert a. induction l as [|[s e] l IH]; cbn; intros a; [by intros ->|].
  intros (-> & Hlt & Ht) Hk. eauto.
Qed.

Definition full_chunks (chunk : Z) (m : nat) : list (Z * Z) :=
  (fun i => (i * chunk, (i + 1) * chunk)) <$> seqZ 0 (Z.of_nat m).

Lemma full_chunks_S chunk m :
  full_chunks chunk (S m) = full_chunks chunk m ++ [(Z.of_nat m * chunk, (Z.of_nat m + 1) * chunk)].
Proof. unfold full_chunks. rewrite seqZ_S, fmap_app, Z.add_0_l. done. Qed.

Lemma tiles_full chunk m : 0 < chunk -> tiles 0 (Z.of_nat m * chunk) (full_chunks chunk m).
Proof.
  intros Hc. induction m as [|m IH]; [done|]. rewrite full_chunks_S.
  eapply tiles_app; [exact IH|]. cbn. rewrite Nat2Z.inj_succ. nia.
Qed.

(** The bounds before a short last chunk is merged. *)
Lemma raw_chunks len chunk : 1 <= len -> 1 <= chunk -> exists m,
  (fun s => (s, Z.min (s + chunk) len)) <$> range_by len chunk
  = full_chunks chunk m ++ [(Z.of_nat m * chunk, len)] /\
  Z.of_nat m * chunk < len <= (Z.of_nat m + 1) * chunk.
Proof.
  intros Hl Hc. set (k := - (- len / chunk)).
  assert ((k - 1) * chunk < len <= k * chunk) as Hk.
  { unfold k. pose proof (Z.div_mod (- len) chunk ltac:(lia)). pose proof (Z.mod_pos_bound (- len) chunk ltac:(lia)). nia. }
  assert (1 <= k) by nia. exists (Z.to_nat (k - 1)). rewrite Z2Nat.id by lia. split; [|nia].
  unfold range_by. fold k. replace k with (Z.of_nat (S (Z.to_nat (k - 1)))) at 1 by lia.
  rewrite seqZ_S, !fmap_app. cbn [fmap list_fmap]. f_equal.
  - unfold full_chunks. rewrite <- list_fmap_compose. apply list_fmap_ext. intros i x Hx.
    apply lookup_seqZ in Hx. cbn. f_equal.
    assert ((x + 1) * chunk <= len) by nia. lia.
  - rewrite Z.add_0_l, Z2Nat.id by lia. do 2 f_equal. apply Z.min_r. nia.
Qed.

(** ** Turns *)

(** Turns in order, each after a segment of the environment. *)
Fixpoint turns_from (previous_end : option Z) (spans : list (Z * Z)) (len : Z) : Prop :=
  match spans with
  | [] => previous_end = Some len
  | (s, e) :: spans' => s < e /\ from_option (fun p => p < s) True previous_end /\ turns_from (Some e) spans' len
  end.

Lemma turn_loop_passed prev spans len : turn_loop prev spans len = Passed <-> turns_from prev spans len.
Proof.
  revert prev. induction spans as [|[s e] spans IH]; intros prev; cbn.
  - case_bool_decide; done.
  - destruct (Z.ltb_spec s e) as [Hlt|Hlt]; cbn; [|split; [done|lia]].
    destruct prev as [p|]; cbn; [destruct (Z.leb_spec s p); cbn|];
      rewrite ?IH; split; (tauto || done || lia).
Qed.

Lemma turns_from_bound prev spans len s e :
  turns_from prev spans len -> (s, e) ∈ spans -> s < e <= len.
Proof.
  revert prev. induction spans as [|[s' e'] spans IH]; intros prev; cbn; [set_solver|].
  intros (Hlt & _ & Ht) [[= -> ->]|Hin]%elem_of_cons; [|by eapply IH].
  rename e' into e0.
  split; [done|]. clear IH Hlt. revert e0 Ht. induction spans as [|[s2 e2] spans IH]; intros e0; cbn.
  - intros [= ->]. lia.
  - intros (H1 & H2 & H3). apply IH in H3. lia.
Qed.

Lemma turns_from_start spans len s e : turns_from None spans len -> (s, e) ∈ spans ->
  forall s0 e0 rest, spans = (s0, e0) :: rest -> s0 <= s.
Proof.
  intros Ht Hin s0 e0 rest ->. cbn in Ht. destruct Ht as (H1 & _ & Ht).
  apply elem_of_cons in Hin as [[= -> ->]|Hin]; [lia|].
  enough (e0 < s) by lia. clear H1 s0. revert e0 Ht. induction rest as [|[s2 e2] rest IH]; intros e0; [set_solver|].
  cbn. intros (H1 & H2 & H3). apply elem_of_cons in Hin as [[= -> ->]|Hin]; [done|].
  specialize (IH Hin e2 H3). lia.
Qed.

(** The end-of-turn test of [check_turn_termination]. *)
Lemma turn_end_test (is_last : bool) (t terminator : Z) (stop_ids : gset Z) (size cap : Z) :
  (negb is_last && bool_decide (t ∈ stop_ids) && negb (t =? terminator))
  || (negb (if is_last then bool_decide (t ∈ stop_ids) else t =? terminator) && negb (size =? cap)) = false <->
  if is_last then t ∈ stop_ids \/ size = cap else t = terminator \/ (t ∉ stop_ids /\ size = cap).
Proof.
  destruct is_last, (Z.eqb_spec size cap), (Z.eqb_spec t terminator); case_bool_decide; cbn;
    split; tauto || done.
Qed.

Lemma check_turn_spans_passed spans len max_turns :
  check_turn_spans spans len max_turns = Passed <->
  spans <> [] /\ Z.of_nat (length spans) <= max_turns /\ spans.*1 !! 0%nat = Some 0 /\ turns_from None spans len.
Proof.
  unfold check_turn_spans. destruct spans as [|[s0 e0] spans]; [split; [done|by intros []]|].
  destruct (Z.ltb_spec max_turns (Z.of_nat (length ((s0, e0) :: spans)))) as [Hm|Hm]; [split; [done|lia]|].
  cbn [fmap list_fmap lookup list_lookup fst]. destruct (Z.eqb_spec s0 0) as [->|Hne]; cbn [negb].
  - rewrite turn_loop_passed. split; [intros H; split_and!; done|tauto].
  - split; [done|]. intros (_ & _ & [= ->] & _). done.
Qed.

(** Well-formed turns end on tokens that exist. *)
Lemma turn_last_token (tokens : list Z) (spans : list (Z * Z)) (i : nat) (s e : Z) :
  turns_from None spans (Z.of_nat (length tokens)) -> spans.*1 !! 0%nat = Some 0 ->
  spans !! i = Some (s, e) ->
  exists t, tokens !! Z.to_nat (e - 1) = Some t /\ py_nth tokens (e - 1) = Ok t.
Proof.
  intros Ht H0 Hi%list_elem_of_lookup_2. pose proof (turns_from_bound _ _ _ _ _ Ht Hi) as Hb.
  assert (0 <= s) as Hs.
  { destruct spans as [|[s0 e0] rest]; [done|]. cbn in H0. injection H0 as ->. by eapply turns_from_start. }
  destruct (lookup_lt_is_Some_2 tokens (Z.to_nat (e - 1))) as [t Htok]; [lia|].
  exists t. split; [done|]. replace (e - 1) with (Z.of_nat (Z.to_nat (e - 1))) at 1 by lia.
  by rewrite py_nth_of_nat, Htok.
Qed.

(** ** Claims *)

(** The proof chunks of a span of any length tile it: they are adjacent,
    non-empty, start at 0 and end at its length; each is shorter than a chunk
    plus the minimum; and none but a lone chunk is under the minimum, so no
    chunk of a longer span is too short to be judged.  Their number is what
    [span_chunk_count] tells the checker. *)
Theorem span_chunks_tile (len chunk min_chunk : Z) :
  1 <= len -> 1 <= min_chunk <= chunk ->
  exists bounds, span_chunk_bounds len chunk min_chunk = Ok bounds /\
    span_chunk_count len chunk min_chunk = Ok (Z.of_nat (length bounds)) /\
    tiles 0 len bounds /\
    forall s e, (s, e) ∈ bounds -> e - s < chunk + min_chunk /\ (min_chunk <= e - s \/ bounds = [(0, len)]).
Proof.
  intros Hl Hm. unfold span_chunk_count, span_chunk_bounds.
  destruct (Z.ltb_spec len 1); [lia|]. destruct (Z.ltb_spec chunk 1); [lia|]. cbn [orb].
  destruct (Z.leb_spec 1 min_chunk); [|lia]. destruct (Z.leb_spec min_chunk chunk); [|lia]. cbn [andb negb].
  destruct (raw_chunks len chunk ltac:(lia) ltac:(lia)) as (m & -> & Hlast).
  assert (forall m s e, (s, e) ∈ full_chunks chunk m -> e - s = chunk) as Hfull.
  { intros m' s e (i & [= -> ->] & _)%list_elem_of_fmap. lia. }
  assert (tiles 0 len (full_chunks chunk m ++ [(Z.of_nat m * chunk, len)])) as Htiles.
  { eapply tiles_app; [apply tiles_full; lia|]. cbn. lia. }
  destruct m as [|m].
  { cbn. exists [(0, len)]. cbn in Htiles. split_and!; try done.
    intros s e [= -> ->]%list_elem_of_singleton. split; [lia|by right]. }
  rewrite rev_app_distr, full_chunks_S, rev_app_distr. cbn [rev app].
  rewrite Nat2Z.inj_succ in *.
  destruct (Z.ltb_spec (len - Z.succ (Z.of_nat m) * chunk) min_chunk) as [Hs|Hs]; rewrite bind_ok; eexists;
    (split; [done|]); (split; [done|]).
  - rewrite rev_involutive. split.
    + eapply tiles_app; [apply tiles_full; lia|]. cbn. nia.
    + intros s e [Hin|[= -> ->]%list_elem_of_singleton]%elem_of_app; [apply Hfull in Hin|]; split; nia || (left; nia).
  - rewrite <- full_chunks_S. split; [done|].
    intros s e [Hin|[= -> ->]%list_elem_of_singleton]%elem_of_app; [apply Hfull in Hin|]; split; nia || (left; nia).
Qed.

Lemma span_chunks_tile_witness : exists bounds,
  span_chunk_bounds 70 32 MIN_CHUNK_TOKENS = Ok bounds /\ bounds = [(0, 32); (32, 70)] /\ tiles 0 70 bounds.
Proof.
  destruct (span_chunks_tile 70 32 MIN_CHUNK_TOKENS) as (b & Hb & _ & Ht & _); [lia|unfold MIN_CHUNK_TOKENS; lia|].
  exists b. split; [exact Hb|]. split; [vm_compute in Hb; congruence|exact Ht].
Defined.

(** The number of proofs asked of a completion is exact.  Though the code
    divides in floating point, [expected_chunks] is the integer ceiling of
    tokens over chunk tokens for every count below 2^52, so a completion of one
    token more than k chunks is asked for k + 1 proofs. *)
Theorem expected_chunks_exact (tokens chunk : Z) :
  1 <= tokens < 2 ^ 52 -> 1 <= chunk < 2 ^ 52 ->
  exists k, expected_chunks tokens chunk = Ok k /\ (k - 1) * chunk < tokens <= k * chunk.
Proof.
  intros Ht Hc. unfold expected_chunks. destruct (Z.ltb_spec tokens 1); [lia|]. destruct (Z.ltb_spec chunk 1); [lia|].
  cbn [orb]. rewrite fceil_flit by lia. eexists. split; [done|].
  pose proof (Z.div_mod (- tokens) chunk ltac:(lia)). pose proof (Z.mod_pos_bound (- tokens) chunk ltac:(lia)). nia.
Qed.

Lemma expected_chunks_exact_witness : exists k, expected_chunks 65 32 = Ok k /\ (k - 1) * 32 < 65 <= k * 32.
Proof. apply (expected_chunks_exact 65 32); lia. Defined.

(** The trajectory checks.  [check_turn_spans] passes exactly on a non-empty
    list of at most [max_turns] turns, the first at 0, each non-empty and after
    the segment of the one before, the last ending the tokens; on such turns
    [check_turn_termination] reads only tokens that are there (it never raises)
    and passes exactly when every turn but the last ends on the terminator, or at
    its cap on a token that is no other stop id, and the last ends on a stop id
    or at its cap. *)
Theorem turn_checks_exact (tokens : list Z) (spans : list (Z * Z)) (max_turns prompt_len terminator : Z)
    (stop_ids : gset Z) (per_turn total : Z) :
  let len := Z.of_nat (length tokens) in
  let cap start := Z.min per_turn (total - (prompt_len + start)) in
  (check_turn_spans spans len max_turns = Passed <->
     spans <> [] /\ Z.of_nat (length spans) <= max_turns /\ spans.*1 !! 0%nat = Some 0 /\ turns_from None spans len) /\
  (check_turn_spans spans len max_turns = Passed ->
   (exists r, check_turn_termination tokens spans prompt_len terminator stop_ids per_turn total = Ok r) /\
   (check_turn_termination tokens spans prompt_len terminator stop_ids per_turn total = Ok Passed <->
    forall i s e, spans !! i = Some (s, e) -> exists t, tokens !! Z.to_nat (e - 1) = Some t /\
      if bool_decide (S i = length spans) then t ∈ stop_ids \/ e - s = cap s
      else t = terminator \/ (t ∉ stop_ids /\ e - s = cap s))).
Proof.
  intros len cap. split; [apply check_turn_spans_passed|].
  intros (Hne & _ & H0 & Ht)%check_turn_spans_passed. unfold check_turn_termination. split.
  - apply first_refusal_total. intros [p [s e]] (i & E & Hi)%enumerate_elem. cbn in E, Hi. subst p.
    destruct (turn_last_token _ _ _ _ _ Ht H0 Hi) as (t & _ & ->). rewrite bind_ok. destruct (_ || _); eauto.
  - rewrite first_refusal_enumerate. split.
    + intros H i s e Hi. specialize (H i (s, e) Hi). cbn beta iota in H.
      destruct (turn_last_token _ _ _ _ _ Ht H0 Hi) as (t & Htok & Hn). rewrite Hn, bind_ok in H.
      exists t. split; [done|]. destruct (_ || _) eqn:E in H; [done|]. apply turn_end_test in E.
      destruct (Z.eqb_spec (Z.of_nat i) (Z.of_nat (length spans) - 1));
        [rewrite bool_decide_true by lia|rewrite bool_decide_false by lia]; exact E.
    + intros H i [s e] Hi. cbn beta iota. destruct (H i s e Hi) as (t & Htok & Hend).
      destruct (turn_last_token _ _ _ _ _ Ht H0 Hi) as (t' & Htok' & ->).
      assert (t' = t) as -> by congruence. rewrite bind_ok.
      destruct (_ || _) eqn:E; [|done]. apply not_false_iff_true in E. exfalso. apply E, turn_end_test.
      destruct (Z.eqb_spec (Z.of_nat i) (Z.of_nat (length spans) - 1));
        [rewrite bool_decide_true in Hend by lia|rewrite bool_decide_false in Hend by lia]; exact Hend.
Qed.

Lemma turn_checks_exact_witness :
  exists r, check_turn_termination [5; 7; 9; 2] [(0, 2); (3, 4)] 10 7 {[2; 7]} 8 64 = Ok r.
Proof.
  exact (proj1 (proj2 (turn_checks_exact [5; 7; 9; 2] [(0, 2); (3, 4)] 4 10 7 {[2; 7]} 8 64) eq_refl)).
Defined.
