(* ===== verification/Walk.v ===== *)
(** * Walk: the order in which a miner visits a job's prompts

    Models [reliquary/corpus/walk.py]: the hashed walk and the ledger of cursors.
    Job ids and hotkeys are strings of UTF-8 bytes. *)

From S2P Require Import Prelude Bytes Sha256.

#[local] Open Scope Z_scope.

(** The bytes [walk_index] hashes. *)
Definition walk_preimage (job_id hotkey : string) (cursor : Z) : list Z :=
  encode job_id ++ [0] ++ encode hotkey ++ [0] ++ to_bytes_be 8 cursor.

Definition walk_index (job_id hotkey : string) (cursor prompt_count : Z) : result Z :=
  if prompt_count <=? 0 then Raise ValueError
  else if cursor <? 0 then Raise ValueError
  else if 2 ^ 64 <=? cursor then Raise OverflowError
  else Ok (of_bytes_be (sha256 (walk_preimage job_id hotkey cursor)) mod prompt_count).

(** [job_walk_index] *)
Definition job_walk_index (job_id : string) (prompt_start prompt_count : Z) (hotkey : string) (cursor : Z) : result Z :=
  i ← walk_index job_id hotkey cursor prompt_count; Ok (prompt_start + i).

(** [CursorLedger]: the dictionary of cursors. *)
Abbreviation cursors := (gmap string Z).

Definition expected (c : cursors) (hotkey : string) : Z := default 0 (c !! hotkey).

Definition advance (hotkey : string) (c : cursors) : Z * cursors :=
  let moved := default 0 (c !! hotkey) + 1 in (moved, <[hotkey := moved]> c).

Definition snapshot (c : cursors) : list (pyval * pyval) :=
  (fun kv => (VStr kv.1, VInt kv.2)) <$> map_to_list c.

(** [from_snapshot], an entry of the mapping at a time: only a non-empty string
    and a whole number that is not negative are read. *)
Definition restore_cursor (c : cursors) (kv : pyval * pyval) : result cursors :=
  match kv with
  | (VStr h, VInt z) =>
      if String.eqb h "" then Raise ValueError
      else if z <? 0 then Raise ValueError else Ok (<[h := z]> c)
  | _ => Raise ValueError
  end.
Definition from_snapshot (snap : list (pyval * pyval)) : result cursors := fold_result restore_cursor ∅ snap.

(** ** Facts *)

Lemma walk_index_ok job_id hotkey cursor count :
  0 < count -> 0 <= cursor < 2 ^ 64 ->
  exists i, walk_index job_id hotkey cursor count = Ok i /\ 0 <= i < count.
Proof.
  intros Hc Hk. unfold walk_index. destruct (Z.leb_spec count 0); [lia|].
  destruct (Z.ltb_spec cursor 0); [lia|]. destruct (Z.leb_spec (2 ^ 64) cursor); [lia|].
  eexists. split; [done|]. by apply Z.mod_pos_bound.
Qed.

Lemma job_walk_index_ok job_id start count hotkey cursor :
  0 < count -> 0 <= cursor < 2 ^ 64 ->
  exists i, job_walk_index job_id start count hotkey cursor = Ok i /\ start <= i < start + count.
Proof.
  intros Hc Hk. unfold job_walk_index. destruct (walk_index_ok job_id hotkey cursor count Hc Hk) as (i & -> & Hi).
  exists (start + i). rewrite bind_ok. split; [done|lia].
Qed.

(** Splitting at the first zero byte. *)
Lemma zero_split (a a' b b' : list Z) : 0 ∉ a -> 0 ∉ a' -> a ++ 0 :: b = a' ++ 0 :: b' -> a = a' /\ b = b'.
Proof.
  revert a'. induction a as [|x a IH]; intros [|y a'] Ha Ha' E; cbn in *.
  - injection E as ->. done.
  - injection E as <- E. set_solver.
  - injection E as -> E. set_solver.
  - injection E as -> E. destruct (IH a') as [-> ->]; [set_solver..|done|done].
Qed.

Lemma advance_expected h h' c :
  expected (advance h c).2 h' = expected c h' + (if bool_decide (h = h') then 1 else 0).
Proof.
  unfold expected, advance. cbn. destruct (decide (h = h')) as [<-|Hne].
  - rewrite lookup_insert_eq, bool_decide_true by done. done.
  - rewrite lookup_insert_ne, bool_decide_false by done. lia.
Qed.

(** Entries of a map restored one by one. *)
Lemma restore_cursors m (kvs : list (string * Z)) c :
  Forall (fun kv => kv.1 <> ""%string /\ 0 <= kv.2) kvs -> NoDup kvs.*1 ->
  (forall k, k ∈ kvs.*1 -> c !! k = None) -> list_to_map kvs ∪ c = m ->
  fold_result restore_cursor c ((fun kv => (VStr kv.1, VInt kv.2)) <$> kvs) = Ok m.
Proof.
  revert c. induction kvs as [|[k z] kvs IH]; intros c Hok Hnd Hnew Hm; cbn in *.
  - by rewrite <- Hm, (left_id_L ∅ (∪)).
  - apply Forall_cons in Hok as [[Hk Hz] Hok]. apply NoDup_cons in Hnd as [Hnk Hnd]. cbn in Hk, Hz.
    destruct (String.eqb_spec k ""); [done|]. destruct (Z.ltb_spec z 0); [lia|]. cbn.
    apply IH; [done|done| |].
    + intros k' Hk'. rewrite lookup_insert_ne by set_solver. apply Hnew. set_solver.
    + rewrite <- Hm, <- insert_union_l, <- insert_union_r; [done|]. by apply not_elem_of_list_to_map_1.
Qed.

(** ** Claims *)

(** For a job with prompts, every cursor a miner can reach names a row the
    job owns, and two different positions (another job, hotkey or cursor) hash
    different bytes, job ids having no zero byte: the walk depends on all three
    and on nothing the miner chooses besides its hotkey. *)
Theorem walk_visits_own_rows (job_id job_id' hotkey hotkey' : string) (start count cursor cursor' : Z) :
  0 < count -> 0 <= cursor < 2 ^ 64 -> 0 <= cursor' < 2 ^ 64 ->
  0 ∉ encode job_id -> 0 ∉ encode job_id' ->
  (exists i, job_walk_index job_id start count hotkey cursor = Ok i /\ start <= i < start + count) /\
  (walk_preimage job_id hotkey cursor = walk_preimage job_id' hotkey' cursor' ->
   job_id = job_id' /\ hotkey = hotkey' /\ cursor = cursor').
Proof.
  intros Hc Hk Hk' Hj Hj'. split; [by apply job_walk_index_ok|].
  unfold walk_preimage. cbn [app]. intros E. apply zero_split in E as [E1%encode_inj E2]; [|done..].
  split; [done|]. apply (f_equal (@rev Z)) in E2.
  assert (length (rev (to_bytes_be 8 cursor)) = length (rev (to_bytes_be 8 cursor'))) as Hlen
    by (rewrite !length_rev, !length_to_bytes_be; done).
  rewrite !rev_app_distr in E2. cbn [rev] in E2. rewrite <- !app_assoc in E2.
  apply app_inj_1 in E2 as [E2 E3]; [|done].
  apply (f_equal (@rev Z)) in E2. rewrite !rev_involutive in E2.
  cbn [app] in E3. injection E3 as E3. apply (f_equal (@rev Z)) in E3. rewrite !rev_involutive in E3.
  split; [by apply encode_inj|]. by apply (to_bytes_be_inj 8).
Qed.

Lemma walk_visits_own_rows_witness :
  exists i, job_walk_index "job-a" 100 50 "5F" 7 = Ok i /\ 100 <= i < 150.
Proof.
  refine (proj1 (walk_visits_own_rows "job-a" "job-a" "5F" "5F" 100 50 7 7 _ _ _ _ _)).
  - lia.
  - lia.
  - lia.
  - vm_compute. set_solver.
  - vm_compute. set_solver.
Defined.

(** A cursor ledger whose hotkeys are non-empty comes back from its snapshot
    exactly, and a snapshot with a cursor that is a boolean, a fraction or
    negative is refused. *)
Theorem cursor_snapshot_roundtrip (c : cursors) :
  (forall h z, c !! h = Some z -> h <> ""%string /\ 0 <= z) ->
  from_snapshot (snapshot c) = Ok c /\
  forall h v rest, (forall z, v <> VInt z) \/ (exists z, v = VInt z /\ z < 0) ->
    from_snapshot ((h, v) :: rest) = Raise ValueError.
Proof.
  intros Hc. split.
  - unfold from_snapshot, snapshot. apply restore_cursors.
    + apply Forall_forall. intros [h z] Hh%elem_of_map_to_list. by apply Hc.
    + apply NoDup_fst_map_to_list.
    + intros k _. apply lookup_empty.
    + by rewrite list_to_map_to_list, (right_id_L ∅ (∪)).
  - intros h v rest Hv. unfold from_snapshot. cbn. destruct h; try done. destruct v; try done.
    destruct Hv as [Hv|(y & [= ->] & Hy)]; [by destruct (Hv z)|].
    destruct (String.eqb s ""); [done|]. destruct (Z.ltb_spec y 0); [done|lia].
Qed.

Lemma cursor_snapshot_roundtrip_witness :
  from_snapshot (snapshot {["5F"%string := 3]}) = Ok {["5F"%string := 3]}.
Proof.
  refine (proj1 (cursor_snapshot_roundtrip {["5F"%string := 3]} _)).
  intros h z [<- <-]%lookup_singleton_Some. split; [discriminate|lia].
Defined.
