(* ===== verification/EvalDraw.v ===== *)
(** * EvalDraw: the seen keys of draw jobs and sandbox sessions

    Models the key functions of [reliquary/corpus/eval_draw.py] and of
    [reliquary/corpus/signed_reasons.py].  Every key is a SHA-256 of a text; the
    theorem is about the texts, which never coincide. *)

From S2P Require Import Prelude Bytes Sha256 SlotLedger Checks.

#[local] Open Scope Z_scope.

Definition EVAL_DRAW : string := "gumbel_max".
Definition EVAL_DRAW_DOMAIN : string := "reliquary-eval-draw-v1".
Definition REASON_DRAW_SLOT_TAKEN : string := "draw_slot_taken".
Definition REASON_BAD_CURSOR : string := "bad_cursor".
Definition REASON_SANDBOX_SESSION_REUSED : string := "sandbox_session_reused".

Definition has_draw (s : sampling) : bool := match draw s with Some _ => true | None => false end.

(** [draw_randomness]: each part prefixed by its length on four bytes. *)
Definition draw_randomness_preimage (parts : list string) : list Z :=
  concat ((fun p => to_bytes_be 4 (Z.of_nat (length (encode p))) ++ encode p) <$> parts).
Definition draw_randomness (job_id checkpoint_sha256 seed : string) : string :=
  hexdigest (draw_randomness_preimage [EVAL_DRAW_DOMAIN; job_id; checkpoint_sha256; seed]).

Definition rollout_index (samples draw_slot completion : Z) : Z := draw_slot * samples + completion.

(** [slot_key]: attempt 0 has no attempt part. *)
Definition slot_text (prompt_index draw_slot attempt : Z) : string :=
  let base := EVAL_DRAW_DOMAIN +:+ "/slot/" +:+ py_str prompt_index +:+ "/" +:+ py_str draw_slot in
  if attempt =? 0 then base else base +:+ "/" +:+ py_str attempt.
Definition slot_key (prompt_index draw_slot attempt : Z) : string :=
  hexdigest (encode (slot_text prompt_index draw_slot attempt)).

(** [attempt_digests] *)
Definition sample_text (prompt_index draw_slot attempt c : Z) (d : string) : string :=
  EVAL_DRAW_DOMAIN +:+ "/sample/" +:+ py_str prompt_index +:+ "/" +:+ py_str draw_slot +:+ "/" +:+ py_str attempt
    +:+ "/" +:+ py_str c +:+ "/" +:+ d.
Definition attempt_digests (prompt_index draw_slot attempt : Z) (digests : list string) : list string :=
  (fun cd => hexdigest (encode (sample_text prompt_index draw_slot attempt cd.1 cd.2))) <$> enumerate digests.

(** [session_seen_key] *)
Definition session_text (session_id : string) : list Z :=
  encode "reliquary/sandbox-session/v1" ++ [0] ++ encode session_id.
Definition session_seen_key (session_id : string) : string := hexdigest (session_text session_id).

Definition corpus_engagement (job_id : string) (prompt_index : Z) : string :=
  "corpus:" +:+ job_id +:+ ":" +:+ py_str prompt_index.

(** [state_matches] *)
Definition state_matches (state_sha256 : option string) (final_diff : string) : bool :=
  match state_sha256 with
  | None => String.eqb final_diff ""
  | Some h => String.eqb (hexdigest (encode final_diff)) h
  end.

(** ** Texts *)

Lemma append_cons a s t : String a s +:+ t = String a (s +:+ t).
Proof. done. Qed.

Lemma append_inj_l p s t : p +:+ s = p +:+ t -> s = t.
Proof. induction p as [|a p IH]; [done|]. rewrite !append_cons. intros [= H]. auto. Qed.

Definition slash : ascii := "/"%char.

Lemma cut_slash_uint d : cut slash (DecimalString.NilEmpty.string_of_uint d) = None.
Proof. induction d; cbn; [done|..]; by rewrite IHd. Qed.

Lemma cut_slash_py_str z : cut slash (py_str z) = None.
Proof.
  unfold py_str, DecimalString.NilZero.string_of_int, DecimalString.NilZero.string_of_uint.
  destruct (Z.to_int z) as [d|d]; cbn [cut]; destruct d; try done;
    try (apply (cut_slash_uint (Decimal.Nil)));
    match goal with |- context [DecimalString.NilEmpty.string_of_uint ?d] =>
      pose proof (cut_slash_uint d) as E; cbn [cut] in *;
      by rewrite E end.
Qed.

(** A number, a slash and a rest are read back. *)
Lemma number_slash_inj z z' s s' :
  py_str z +:+ String slash s = py_str z' +:+ String slash s' -> z = z' /\ s = s'.
Proof.
  intros E. apply (f_equal (cut slash)) in E. rewrite !cut_app in E by apply cut_slash_py_str.
  injection E as E1%py_str_inj E2. done.
Qed.

Lemma number_slash_ne z z' s : py_str z <> py_str z' +:+ String slash s.
Proof. intros E. apply (f_equal (cut slash)) in E. by rewrite cut_app, cut_slash_py_str in E by apply cut_slash_py_str. Qed.

Lemma append_assoc (a b c : string) : (a +:+ b) +:+ c = a +:+ (b +:+ c).
Proof. induction a as [|x a IH]; [done|]. rewrite !append_cons. by f_equal. Qed.

Lemma slot_text_inj p s a p' s' a' :
  0 <= a -> 0 <= a' -> slot_text p s a = slot_text p' s' a' -> p = p' /\ s = s' /\ a = a'.
Proof.
  intros Ha Ha'. unfold slot_text.
  destruct (Z.eqb_spec a 0) as [->|Hn], (Z.eqb_spec a' 0) as [->|Hn'];
    rewrite ?append_assoc; intros E; do 2 apply append_inj_l in E; apply number_slash_inj in E as [-> E].
  - apply py_str_inj in E as ->. done.
  - by apply number_slash_ne in E.
  - symmetry in E. by apply number_slash_ne in E.
  - apply number_slash_inj in E as [-> E]. apply py_str_inj in E as ->. done.
Qed.

Lemma sample_text_inj p s a c d p' s' a' c' d' :
  sample_text p s a c d = sample_text p' s' a' c' d' -> p = p' /\ s = s' /\ a = a' /\ c = c' /\ d = d'.
Proof.
  unfold sample_text. intros E. do 2 apply append_inj_l in E.
  apply number_slash_inj in E as [-> E]. apply number_slash_inj in E as [-> E].
  apply number_slash_inj in E as [-> E]. apply number_slash_inj in E as [-> E]. done.
Qed.

(** ** Completions *)

Lemma eval_uint_bytes_ok w z b : uint_bytes w z = Ok b -> 0 <= z < 256 ^ Z.of_nat w /\ b = to_bytes_be w z.
Proof.
  unfold uint_bytes. destruct (Z.leb_spec 0 z), (Z.ltb_spec z (256 ^ Z.of_nat w)); cbn [andb]; try done.
  intros [= <-]. done.
Qed.

Lemma uint_words_ok acc tokens b :
  fold_result (fun acc t => b ← uint_bytes 4 t; Ok (acc ++ b)) acc tokens = Ok b ->
  Forall (fun t => 0 <= t < 2 ^ 32) tokens /\ b = acc ++ concat (to_bytes_be 4 <$> tokens).
Proof.
  revert acc. induction tokens as [|t tokens IH]; intros acc; cbn [fold_result].
  - intros [= <-]. split; [constructor|]. by rewrite app_nil_r.
  - intros (acc' & (w & [Hw ->]%eval_uint_bytes_ok & [= <-])%bind_ok_inv & [H ->]%IH)%bind_ok_inv.
    split; [by constructor|]. cbn. by rewrite <- app_assoc.
Qed.

Lemma completion_preimage_ok p tokens b : completion_preimage p tokens = Ok b ->
  0 <= p < 2 ^ 64 /\ Forall (fun t => 0 <= t < 2 ^ 32) tokens /\
  b = to_bytes_be 8 p ++ concat (to_bytes_be 4 <$> tokens).
Proof.
  intros (w & [Hw ->]%eval_uint_bytes_ok & [H ->]%uint_words_ok)%bind_ok_inv. done.
Qed.

(** ** The entries of a job's seen set *)

Inductive seen_entry :=
  | SlotOf (prompt_index draw_slot attempt : Z)
  | SampleOf (prompt_index draw_slot attempt c : Z) (digest : string)
  | SessionOf (session_id : string)
  | CompletionOf (prompt_index : Z) (tokens : list Z).

Definition entry_bytes (e : seen_entry) : result (list Z) :=
  match e with
  | SlotOf p s a => Ok (encode (slot_text p s a))
  | SampleOf p s a c d => Ok (encode (sample_text p s a c d))
  | SessionOf id => Ok (session_text id)
  | CompletionOf p ts => completion_preimage p ts
  end.

(** What the code writes: attempts are counts, prompt indices are rows. *)
Definition entry_valid (e : seen_entry) : Prop :=
  match e with
  | SlotOf _ _ a => 0 <= a
  | CompletionOf p _ => p < 2 ^ 56
  | _ => True
  end.

Lemma encode_append a b : encode (a +:+ b) = encode a ++ encode b.
Proof. induction a as [|x a IH]; [done|]. rewrite append_cons. unfold encode in *. cbn. by f_equal. Qed.

Lemma completion_head p ts b : 0 <= p < 2 ^ 56 -> completion_preimage p ts = Ok b -> b !! 0%nat = Some 0.
Proof.
  intros Hp (_ & _ & ->)%completion_preimage_ok. cbn [to_bytes_be app lookup list_lookup].
  f_equal. change (Z.of_nat 7) with 7. rewrite Z.div_small by lia. done.
Qed.

Lemma completion_entry_inj p ts p' ts' b :
  completion_preimage p ts = Ok b -> completion_preimage p' ts' = Ok b -> p = p' /\ ts = ts'.
Proof.
  intros (Hp & Ht & ->)%completion_preimage_ok (Hp' & Ht' & E)%completion_preimage_ok.
  apply app_inj_1 in E as [E1 E2]; [|by rewrite !length_to_bytes_be].
  split; [by apply (to_bytes_be_inj 8)|by apply words_inj].
Qed.

(** Three bytes tell the four kinds of text apart. *)
Definition kind_of_bytes (b : list Z) : Z :=
  if bool_decide (b !! 0%nat = Some 0) then 3
  else if bool_decide (b !! 9%nat = Some 47) then 2
  else if bool_decide (b !! 24%nat = Some 108) then 0 else 1.
Definition kind_of_entry (e : seen_entry) : Z :=
  match e with SlotOf _ _ _ => 0 | SampleOf _ _ _ _ _ => 1 | SessionOf _ => 2 | CompletionOf _ _ => 3 end.

Lemma entry_kind e b : entry_valid e -> entry_bytes e = Ok b -> kind_of_bytes b = kind_of_entry e.
Proof.
  destruct e as [p s a|p s a c d|id|p ts]; cbn [entry_valid entry_bytes kind_of_entry].
  - intros _ <-%(inj Ok). unfold slot_text. destruct (a =? 0); rewrite !encode_append; reflexivity.
  - intros _ <-%(inj Ok). unfold sample_text. rewrite !encode_append. reflexivity.
  - intros _ <-%(inj Ok). reflexivity.
  - intros Hp H. unfold kind_of_bytes. rewrite bool_decide_true; [done|].
    eapply completion_head; [|exact H]. apply completion_preimage_ok in H. lia.
Qed.

Lemma session_text_inj id id' : session_text id = session_text id' -> id = id'.
Proof. unfold session_text. intros E. by apply app_inv_head, app_inv_head, encode_inj in E. Qed.

(** The texts hashed into a job's seen set never coincide: two entries with
    the same bytes are the same slot attempt, the same salted sample, the same
    sandbox session or the same completion of the same prompt.  So a slot key is
    never taken for a completion or a session, and the redo of a failed slot is
    not a duplicate of its first attempt. *)
Theorem seen_entries_distinct (e e' : seen_entry) (b : list Z) :
  entry_valid e -> entry_valid e' -> entry_bytes e = Ok b -> entry_bytes e' = Ok b -> e = e'.
Proof.
  intros Hv Hv' H H'. pose proof (entry_kind e b Hv H) as P. rewrite (entry_kind e' b Hv' H') in P.
  destruct e as [p s a|p s a c d|id|p ts], e' as [p' s' a'|p' s' a' c' d'|id'|p' ts']; cbn [entry_valid entry_bytes] in Hv, Hv', H, H';
    try discriminate P.
  - rewrite <- H in H'. apply (inj Ok), encode_inj, slot_text_inj in H' as (-> & -> & ->); done.
  - rewrite <- H in H'. by apply (inj Ok), encode_inj, sample_text_inj in H' as (-> & -> & -> & -> & ->).
  - rewrite <- H in H'. by apply (inj Ok), session_text_inj in H' as ->.
  - destruct (completion_entry_inj _ _ _ _ _ H H') as [-> ->]. done.
Qed.

Lemma seen_entries_distinct_witness :
  SlotOf 3 1 0 = SlotOf 3 1 0 /\ entry_bytes (SlotOf 3 1 0) <> entry_bytes (SlotOf 3 1 2).
Proof.
  split.
  - apply (seen_entries_distinct (SlotOf 3 1 0) (SlotOf 3 1 0) (encode (slot_text 3 1 0))); cbn; [lia|lia|reflexivity|reflexivity].
  - intros E. discriminate (seen_entries_distinct (SlotOf 3 1 0) (SlotOf 3 1 2) (encode (slot_text 3 1 0))
      ltac:(cbn; lia) ltac:(cbn; lia) eq_refl (eq_sym E)).
Defined.
