(* ===== verification/Admission.v ===== *)
(** * Admission: one verdict for one corpus submission

    Models [reliquary/corpus/admission.py]: [admit] decides a submission from the
    slot ledger, the cursor ledger and the seen set, consuming a slot and a step
    of the walk when they are earned; [skip] crosses full prompts.  The checks run
    in the code's order, each only when those before it passed. *)

From S2P Require Import Prelude PyFloat Bytes Sha256 SlotLedger Checks Walk EvalDraw.

#[local] Open Scope Z_scope.

Definition PROMPT_ORDER_MINER_WALK : string := "miner_walk".
Definition REASON_PROMPT_NOT_FULL : string := "prompt_not_full".
Definition MAX_SKIP_STEPS : Z := 256.

(** The job contract as far as admission reads it; [spec_episode] says whether
    the job is an episode job. *)
Record job_spec := JobSpec {
  spec_id : string;
  spec_checkpoint : string;
  spec_start : Z;
  spec_count : Z;
  spec_slots : Z;
  spec_order : string;
  spec_sampling : sampling;
  spec_eos : Z;
  spec_episode : bool;
}.

Definition is_walk (j : job_spec) : bool := String.eqb (spec_order j) PROMPT_ORDER_MINER_WALK.
(** [JobSpec.owns] *)
Definition job_owns (j : job_spec) (i : Z) : bool := (spec_start j <=? i) && (i <? spec_start j + spec_count j).

(** The arguments of [admit] that come from the submission. *)
Record submission := Submission {
  sub_hotkey : string;
  sub_cursor : Z;
  sub_prompt : Z;
  sub_checkpoint : string;
  token_counts : list Z;
  last_token_ids : list Z;
  digests : list string;
  proof_counts : option (list Z);
  proof_chunk_tokens : option Z;
  episode_checked : bool;
  session_key : option string;
}.

Record intake := Intake { slots : ledger; walks : cursors }.

Record verdict := Verdict {
  accepted : bool;
  v_reason : string;
  slots_remaining : option Z;
  v_detail : details;
}.
Definition refused (reason : string) (detail : details) : verdict := Verdict false reason None detail.

(** A sequence of early returns. *)
Definition guard_then (m k : result (option verdict)) : result (option verdict) :=
  r ← m; match r with Some v => Ok (Some v) | None => k end.

(** [_walk_position_refusal] *)
Definition walk_position_refusal (j : job_spec) (c : cursors) (hotkey : string) (cursor prompt_index : Z)
    : result (option verdict) :=
  let expected_cursor := expected c hotkey in
  if negb (cursor =? expected_cursor) then
    Ok (Some (refused "bad_cursor" [("expected"%string, VInt expected_cursor); ("got"%string, VInt cursor)]))
  else
    expected_index ← job_walk_index (spec_id j) (spec_start j) (spec_count j) hotkey cursor;
    if negb (prompt_index =? expected_index) then
      Ok (Some (refused "prompt_mismatch" [("expected"%string, VInt expected_index); ("got"%string, VInt prompt_index)]))
    else Ok None.

Definition out_of_range_detail (j : job_spec) (prompt_index : Z) : details :=
  let detail := [("prompt_count"%string, VInt (spec_count j)); ("got"%string, VInt prompt_index)] in
  if spec_start j =? 0 then detail else ("prompt_start"%string, VInt (spec_start j)) :: detail.

(** The shape of the submission, the job's end and the checkpoint. *)
Definition entry_guard (j : job_spec) (b : submission) (st : intake) : result (option verdict) :=
  let t := Z.of_nat (length (token_counts b)) in
  let d := Z.of_nat (length (digests b)) in
  let l := Z.of_nat (length (last_token_ids b)) in
  if negb ((t =? d) && (d =? l)) then
    Ok (Some (refused "malformed_submission"
                [("token_counts"%string, VInt t); ("digests"%string, VInt d); ("last_token_ids"%string, VInt l)]))
  else if match proof_chunk_tokens b, proof_counts b with Some _, None => true | _, _ => false end then
    Ok (Some (refused "malformed_submission" [("proof_counts"%string, VNone)]))
  else if is_complete (slots st) then Ok (Some (refused "job_complete" []))
  else if negb (String.eqb (sub_checkpoint b) (spec_checkpoint j)) then
    Ok (Some (refused "checkpoint_mismatch"
                [("expected"%string, VStr (spec_checkpoint j)); ("got"%string, VStr (sub_checkpoint b))]))
  else Ok None.

Definition position_guard (j : job_spec) (b : submission) (st : intake) : result (option verdict) :=
  if is_walk j then walk_position_refusal j (walks st) (sub_hotkey b) (sub_cursor b) (sub_prompt b)
  else if negb (job_owns j (sub_prompt b)) then
    Ok (Some (refused "prompt_mismatch" (out_of_range_detail j (sub_prompt b))))
  else Ok None.

Definition draw_guard (j : job_spec) (b : submission) (seen : gset string) (st : intake) : result (option verdict) :=
  if has_draw (spec_sampling j) then
    let cursor := sub_cursor b in
    cursors_open ← draw_cursors (slots st) (sub_prompt b) (spec_slots j);
    if (cursors_open <=? cursor) && (cursor <? ATTEMPTS_PER_SLOT * spec_slots j) then
      Ok (Some (refused REASON_DRAW_SLOT_TAKEN [("draw_slot"%string, VInt cursor); ("retired"%string, VBool true)]))
    else if negb ((0 <=? cursor) && (cursor <? cursors_open)) then
      Ok (Some (refused REASON_BAD_CURSOR
                  [("why"%string, VStr "the cursor is the draw slot"); ("slots"%string, VInt cursors_open)]))
    else
      exhausted ← slot_exhausted (slots st) (sub_prompt b) cursor;
      if exhausted : bool then
        Ok (Some (refused REASON_DRAW_SLOT_TAKEN [("draw_slot"%string, VInt cursor); ("exhausted"%string, VBool true)]))
      else
        attempt ← slot_attempt (slots st) (sub_prompt b) cursor;
        if bool_decide (slot_key (sub_prompt b) cursor attempt ∈ seen) then
          Ok (Some (refused REASON_DRAW_SLOT_TAKEN [("draw_slot"%string, VInt cursor)]))
        else Ok None
  else Ok None.

Definition episode_guard (j : job_spec) (b : submission) (seen : gset string) : result (option verdict) :=
  if spec_episode j then
    if negb (episode_checked b) then Ok (Some (refused "malformed_submission" [("episode_checked"%string, VBool false)]))
    else if match session_key b with Some k => bool_decide (k ∈ seen) | None => false end then
      Ok (Some (refused REASON_SANDBOX_SESSION_REUSED [("why"%string, VStr "this sandbox session was already paid")]))
    else Ok None
  else Ok None.

(** The content checks, run until one refuses. *)
Fixpoint run_checks (checks : list (result check_result)) : result check_result :=
  match checks with
  | [] => Ok Passed
  | c :: checks' => r ← c; match r with Passed => run_checks checks' | Refused _ _ => Ok r end
  end.

Definition content_checks (j : job_spec) (b : submission) (seen : gset string) : list (result check_result) :=
  if spec_episode j then [Ok (check_duplicates (digests b) seen)]
  else
    [Ok (check_completion_count (Z.of_nat (length (token_counts b))) (spec_sampling j));
     check_token_budget (token_counts b) (spec_sampling j);
     check_termination (token_counts b) (last_token_ids b) (spec_sampling j) (spec_eos j);
     Ok (check_duplicates (digests b) seen);
     match proof_chunk_tokens b, proof_counts b with
     | Some chunk, Some counts => check_proof_shape (token_counts b) counts chunk
     | Some _, None => Raise TypeError
     | None, _ => Ok Passed
     end].

(** [_repeats_itself] *)
Definition repeats_itself (j : job_spec) (reason : string) (detail : details) (seen : gset string) : bool :=
  String.eqb reason "hash_duplicate" && is_walk j && negb (spec_episode j)
  && match dict_get "digest" detail with VStr d => negb (bool_decide (d ∈ seen)) | _ => true end.

(** [_advance] *)
Definition advance_walk (j : job_spec) (hotkey : string) (st : intake) : intake :=
  if is_walk j then Intake (slots st) (advance hotkey (walks st)).2 else st.

Definition admit_submission (j : job_spec) (b : submission) (seen : gset string) : method intake verdict := fun st =>
  match guard_then (entry_guard j b st)
          (guard_then (position_guard j b st) (guard_then (draw_guard j b seen st) (episode_guard j b seen))) with
  | Raise e => (Raise e, st)
  | Ok (Some v) => (Ok v, st)
  | Ok None =>
      match run_checks (content_checks j b seen) with
      | Raise e => (Raise e, st)
      | Ok (Refused reason detail) =>
          if repeats_itself j reason detail seen then
            (Ok (refused reason (detail ++ [("within_submission"%string, VBool true)])), advance_walk j (sub_hotkey b) st)
          else (Ok (refused reason detail), st)
      | Ok Passed =>
          match is_full (slots st) (sub_prompt b) with
          | Raise e => (Raise e, st)
          | Ok true =>
              (Ok (Verdict false "prompt_full" (Some 0) [("prompt_index"%string, VInt (sub_prompt b))]),
               advance_walk j (sub_hotkey b) st)
          | Ok false =>
              match consume (sub_prompt b) (slots st) with
              | (Raise e, l') => (Raise e, Intake l' (walks st))
              | (Ok remaining, l') =>
                  (Ok (Verdict true "accepted" (Some remaining) []),
                   advance_walk j (sub_hotkey b) (Intake l' (walks st)))
              end
          end
      end
  end.

(** ** Skips *)

Fixpoint first_open (j : job_spec) (hotkey : string) (l : ledger) (steps : list Z) (otherwise : Z) : result Z :=
  match steps with
  | [] => Ok otherwise
  | step :: steps' =>
      index ← job_walk_index (spec_id j) (spec_start j) (spec_count j) hotkey step;
      full ← is_full l index;
      if negb full then Ok step else first_open j hotkey l steps' otherwise
  end.
Definition skip_target (j : job_spec) (hotkey : string) (cursor : Z) (l : ledger) : result Z :=
  first_open j hotkey l (seqZ (cursor + 1) (MAX_SKIP_STEPS - 1)) (cursor + MAX_SKIP_STEPS).

Fixpoint not_full_refusal (j : job_spec) (hotkey : string) (l : ledger) (steps : list Z) : result (option verdict) :=
  match steps with
  | [] => Ok None
  | step :: steps' =>
      index ← job_walk_index (spec_id j) (spec_start j) (spec_count j) hotkey step;
      left ← remaining l index;
      if left =? 0 then not_full_refusal j hotkey l steps'
      else Ok (Some (Verdict false REASON_PROMPT_NOT_FULL (Some left)
                       [("cursor"%string, VInt step); ("prompt_index"%string, VInt index); ("slots_remaining"%string, VInt left)]))
  end.

Definition skip_refusal (j : job_spec) (hotkey : string) (cursor prompt_index to_cursor : Z) (st : intake)
    : result (option verdict) :=
  if is_complete (slots st) then Ok (Some (refused "job_complete" []))
  else if negb (is_walk j) then Ok (Some (refused "malformed_submission" [("prompt_order"%string, VStr (spec_order j))]))
  else
    guard_then (walk_position_refusal j (walks st) hotkey cursor prompt_index)
      (if negb ((1 <=? to_cursor - cursor) && (to_cursor - cursor <=? MAX_SKIP_STEPS)) then
         Ok (Some (refused "malformed_submission"
                     [("cursor"%string, VInt cursor); ("to_cursor"%string, VInt to_cursor);
                      ("max_skip_steps"%string, VInt MAX_SKIP_STEPS)]))
       else not_full_refusal j hotkey (slots st) (seqZ cursor (to_cursor - cursor))).

Definition skip (j : job_spec) (hotkey : string) (cursor prompt_index to_cursor : Z) : method intake verdict := fun st =>
  match skip_refusal j hotkey cursor prompt_index to_cursor st with
  | Raise e => (Raise e, st)
  | Ok (Some v) => (Ok v, st)
  | Ok None =>
      (Ok (Verdict true "accepted" (Some 0) []),
       foldl (fun st _ => advance_walk j hotkey st) st (seqZ cursor (to_cursor - cursor)))
  end.

(** ** What the caller guarantees *)

(** The ledgers belong to the job: the slot ledger covers its rows and was only
    changed by its methods; cursors fit the eight bytes the walk hashes. *)
Record ready (j : job_spec) (st : intake) : Prop := {
  ready_slots : reachable plain_id (slots st);
  ready_start : prompt_start (slots st) = spec_start j;
  ready_count : prompt_count (slots st) = spec_count j;
  ready_cursor : forall h, 0 <= expected (walks st) h < 2 ^ 63;
}.

(** A parsed job asks for at least one token, and a proof chunk has one. *)
Definition sane (j : job_spec) (b : submission) : Prop :=
  1 <= min_new_tokens (spec_sampling j) /\ forall chunk, proof_chunk_tokens b = Some chunk -> 1 <= chunk.

Lemma ready_owns j st i : ready j st -> owns (slots st) i = job_owns j i.
Proof. intros H. unfold owns, job_owns. by rewrite (ready_start j st H), (ready_count j st H). Qed.

Lemma ready_wf j st : ready j st -> SlotLedger.wf (slots st).
Proof. intros H. eapply SlotLedger.reachable_wf, (ready_slots j st H). Qed.

Lemma ready_pos j st : ready j st -> 0 < spec_count j.
Proof. intros H. rewrite <- (ready_count j st H). apply (ready_wf j st H). Qed.

(** ** Composition of guards and checks *)

Lemma guard_then_none m k : guard_then m k = Ok None <-> m = Ok None /\ k = Ok None.
Proof. unfold guard_then. destruct m as [[v|]|e]; cbn; naive_solver. Qed.

Lemma guard_then_total m k :
  (exists r, m = Ok r) -> (m = Ok None -> exists r, k = Ok r) -> exists r, guard_then m k = Ok r.
Proof. unfold guard_then. intros [[v|] ->] Hk; cbn; [eauto|]. by apply Hk. Qed.

Lemma guard_then_refused m k :
  (forall v, m = Ok (Some v) -> accepted v = false) -> (forall v, k = Ok (Some v) -> accepted v = false) ->
  forall v, guard_then m k = Ok (Some v) -> accepted v = false.
Proof. unfold guard_then. intros Hm Hk v. destruct m as [[v'|]|e]; cbn; naive_solver. Qed.

Lemma run_checks_passed cs : run_checks cs = Ok Passed <-> Forall (fun c => c = Ok Passed) cs.
Proof.
  induction cs as [|c cs IH]; cbn; [done|]. rewrite Forall_cons, <- IH.
  destruct c as [[|]|]; cbn; naive_solver.
Qed.

(** A guard's verdict is a refusal. *)
Ltac refusal_only :=
  repeat match goal with
  | |- Ok (Some (refused _ _)) = Ok (Some _) -> _ => intros [= <-]; done
  | |- Ok None = Ok (Some _) -> _ => discriminate
  | |- Raise _ = Ok (Some _) -> _ => discriminate
  | |- (if ?c then _ else _) = _ -> _ => destruct c
  | |- (?m ≫= _) = _ -> _ => destruct m; [rewrite bind_ok|intros ?; done]
  | |- (match ?m with _ => _ end) = _ -> _ => destruct m
  end.

Lemma guards_refuse j b seen st v :
  guard_then (entry_guard j b st)
    (guard_then (position_guard j b st) (guard_then (draw_guard j b seen st) (episode_guard j b seen))) = Ok (Some v) ->
  accepted v = false.
Proof.
  apply guard_then_refused; [|apply guard_then_refused; [|apply guard_then_refused]]; clear v; intros v.
  - unfold entry_guard. refusal_only.
  - unfold position_guard, walk_position_refusal. cbv zeta. refusal_only.
  - unfold draw_guard. cbv zeta. refusal_only.
  - unfold episode_guard. refusal_only.
Qed.

(** ** The position *)

Lemma walk_position_none j c hotkey cursor i :
  walk_position_refusal j c hotkey cursor i = Ok None <->
  cursor = expected c hotkey /\ job_walk_index (spec_id j) (spec_start j) (spec_count j) hotkey cursor = Ok i.
Proof.
  unfold walk_position_refusal. cbv zeta. destruct (Z.eqb_spec cursor (expected c hotkey)) as [->|Hne]; cbn [negb];
    [|naive_solver].
  destruct (job_walk_index _ _ _ _ _) as [k|e]; [rewrite bind_ok|naive_solver].
  destruct (Z.eqb_spec i k) as [->|Hne]; cbn [negb]; naive_solver.
Qed.

Lemma walk_position_total j st hotkey cursor i : ready j st ->
  exists r, walk_position_refusal j (walks st) hotkey cursor i = Ok r.
Proof.
  intros Hr. unfold walk_position_refusal. cbv zeta. destruct (Z.eqb_spec cursor (expected (walks st) hotkey)) as [->|];
    cbn [negb]; [|eauto].
  destruct (job_walk_index_ok (spec_id j) (spec_start j) (spec_count j) hotkey (expected (walks st) hotkey))
    as (k & -> & _); [by eapply ready_pos|pose proof (ready_cursor j st Hr hotkey); lia|].
  rewrite bind_ok. destruct (negb _); eauto.
Qed.

(** The prompt an accepted position names. *)
Definition position_ok (j : job_spec) (b : submission) (st : intake) : Prop :=
  if is_walk j then
    sub_cursor b = expected (walks st) (sub_hotkey b) /\
    job_walk_index (spec_id j) (spec_start j) (spec_count j) (sub_hotkey b) (sub_cursor b) = Ok (sub_prompt b)
  else job_owns j (sub_prompt b) = true.

Lemma position_guard_none j b st : position_guard j b st = Ok None <-> position_ok j b st.
Proof.
  unfold position_guard, position_ok. destruct (is_walk j); [apply walk_position_none|].
  destruct (job_owns j (sub_prompt b)); naive_solver.
Qed.

Lemma position_owned j b st : ready j st -> position_ok j b st -> owns (slots st) (sub_prompt b) = true.
Proof.
  intros Hr. rewrite (ready_owns j st) by done. unfold position_ok. destruct (is_walk j); [|done].
  intros [Hc Hi]. pose proof (ready_cursor j st Hr (sub_hotkey b)).
  destruct (job_walk_index_ok (spec_id j) (spec_start j) (spec_count j) (sub_hotkey b) (sub_cursor b))
    as (k & Hk & Hb); [by eapply ready_pos|lia|].
  assert (k = sub_prompt b) as -> by congruence. unfold job_owns.
  apply andb_true_iff. split; [apply Z.leb_le|apply Z.ltb_lt]; lia.
Qed.

(** ** The submission, declaratively *)

Definition shape_ok (b : submission) : Prop :=
  length (token_counts b) = length (digests b) /\ length (digests b) = length (last_token_ids b) /\
  (proof_chunk_tokens b = None \/ proof_counts b <> None).

Definition draw_ok (j : job_spec) (b : submission) (seen : gset string) (st : intake) : Prop :=
  has_draw (spec_sampling j) = true ->
  exists n a, draw_cursors (slots st) (sub_prompt b) (spec_slots j) = Ok n /\ 0 <= sub_cursor b < n /\
    slot_attempt (slots st) (sub_prompt b) (sub_cursor b) = Ok a /\ a < ATTEMPTS_PER_SLOT /\
    slot_key (sub_prompt b) (sub_cursor b) a ∉ seen.

Definition unseen_digests (b : submission) (seen : gset string) : Prop :=
  NoDup (digests b) /\ forall d, d ∈ digests b -> d ∉ seen.

(** Each completion within the budget, ended on EOS or at the cap, with the
    proofs its length asks for. *)
Definition completions_ok (j : job_spec) (b : submission) : Prop :=
  let s := spec_sampling j in
  Z.of_nat (length (token_counts b)) = n s /\
  Forall (fun c => min_new_tokens s <= c <= max_new_tokens s) (token_counts b) /\
  (forall i c t, token_counts b !! i = Some c -> last_token_ids b !! i = Some t ->
     t = spec_eos j \/ c = max_new_tokens s) /\
  forall chunk counts, proof_chunk_tokens b = Some chunk -> proof_counts b = Some counts ->
    length counts = length (token_counts b) /\
    forall i c k, token_counts b !! i = Some c -> counts !! i = Some k -> expected_chunks c chunk = Ok k.

Definition content_ok (j : job_spec) (b : submission) (seen : gset string) : Prop :=
  unseen_digests b seen /\
  (if spec_episode j then
     episode_checked b = true /\ forall k, session_key b = Some k -> k ∉ seen
   else completions_ok j b).

(** Everything but a free slot. *)
Record answered (j : job_spec) (b : submission) (seen : gset string) (st : intake) : Prop := {
  ans_shape : shape_ok b;
  ans_running : is_complete (slots st) = false;
  ans_checkpoint : sub_checkpoint b = spec_checkpoint j;
  ans_position : position_ok j b st;
  ans_draw : draw_ok j b seen st;
  ans_content : content_ok j b seen;
}.

Lemma entry_guard_none j b st : entry_guard j b st = Ok None <->
  shape_ok b /\ is_complete (slots st) = false /\ sub_checkpoint b = spec_checkpoint j.
Proof.
  unfold entry_guard, shape_ok. cbv zeta.
  destruct (Z.eqb_spec (Z.of_nat (length (token_counts b))) (Z.of_nat (length (digests b)))) as [E1|E1]; cbn [andb negb];
    [|split; [done|]; intros ([H _] & _); lia].
  destruct (Z.eqb_spec (Z.of_nat (length (digests b))) (Z.of_nat (length (last_token_ids b)))) as [E2|E2]; cbn [negb];
    [|split; [done|]; intros ((_ & H & _) & _); lia].
  apply Nat2Z.inj in E1, E2.
  assert (match proof_chunk_tokens b, proof_counts b with Some _, None => true | _, _ => false end = false <->
          proof_chunk_tokens b = None \/ proof_counts b <> None) as Hp
    by (destruct (proof_chunk_tokens b), (proof_counts b); naive_solver).
  destruct (match proof_chunk_tokens b, proof_counts b with Some _, None => true | _, _ => false end);
    [split; [done|]; intros ((_ & _ & H) & _); by apply Hp in H|].
  destruct (is_complete (slots st)); [naive_solver|].
  destruct (String.eqb_spec (sub_checkpoint b) (spec_checkpoint j)) as [->|Hne]; cbn [negb]; [|naive_solver].
  split; [intros _|done]. split; [|done]. split_and!; [done|done|]. by apply Hp.
Qed.

Lemma draw_guard_none j b seen st : owns (slots st) (sub_prompt b) = true ->
  (draw_guard j b seen st = Ok None <-> draw_ok j b seen st) /\ exists r, draw_guard j b seen st = Ok r.
Proof.
  intros Ho. unfold draw_guard, draw_ok. destruct (has_draw (spec_sampling j)); [|naive_solver].
  set (c := sub_cursor b). set (p := sub_prompt b) in *. cbv zeta.
  assert (exists n, draw_cursors (slots st) p (spec_slots j) = Ok n) as [n Hn]
    by (unfold draw_cursors, check; rewrite Ho; eauto).
  assert (exists a, slot_attempt (slots st) p c = Ok a) as [a Ha]
    by (unfold slot_attempt, slot_failures, check; rewrite Ho; eauto).
  assert (slot_exhausted (slots st) p c = Ok (ATTEMPTS_PER_SLOT <=? a)) as Hx
    by (unfold slot_exhausted; by rewrite Ha).
  rewrite Hn, bind_ok, Hx, bind_ok, Ha, bind_ok.
  destruct (Z.leb_spec n c), (Z.ltb_spec c (ATTEMPTS_PER_SLOT * spec_slots j)), (Z.leb_spec 0 c), (Z.ltb_spec c n);
    cbn [andb negb]; try lia;
    try (split; [split; [done|]; intros H'; destruct (H' eq_refl) as (n' & _ & [= <-] & ? & _); lia|eauto]).
  all: destruct (Z.leb_spec ATTEMPTS_PER_SLOT a);
    [split; [split; [done|]; intros H'; destruct (H' eq_refl) as (n' & a' & _ & _ & [= <-] & ? & _); lia|eauto]|].
  all: case_bool_decide as Hin; (split; [|eauto]); split; try done.
  all: try (intros H'; destruct (H' eq_refl) as (n' & a' & _ & _ & [= <-] & _ & ?); done).
  all: intros _ _; exists n, a; split_and!; done || lia.
Qed.

Lemma run_checks_total cs : (forall i c, cs !! i = Some c ->
    (forall k d, (k < i)%nat -> cs !! k = Some d -> d = Ok Passed) -> exists r, c = Ok r) ->
  exists r, run_checks cs = Ok r.
Proof.
  induction cs as [|c cs IH]; intros H; cbn; [eauto|].
  destruct (H 0%nat c eq_refl) as [r ->]; [intros; lia|]. rewrite bind_ok. destruct r; [|eauto].
  apply IH. intros i d Hi Hb. apply (H (S i) d Hi). intros [|k] e Hk He; cbn in He; [congruence|].
  eapply (Hb k); [lia|done].
Qed.

Lemma check_proof_shape_passed ts ps chunk :
  check_proof_shape ts ps chunk = Ok Passed <->
  length ps = length ts /\ forall i c k, ts !! i = Some c -> ps !! i = Some k -> expected_chunks c chunk = Ok k.
Proof.
  unfold check_proof_shape. destruct (Nat.eqb_spec (length ts) (length ps)) as [E|E]; cbn [negb];
    [|split; [done|]; intros [H _]; lia].
  rewrite first_refusal_enumerate. split.
  - intros H. split; [done|]. intros i c k Hc Hk. specialize (H i (c, k)).
    rewrite lookup_zip_Some in H. specialize (H (conj Hc Hk)). cbn in H.
    destruct (expected_chunks c chunk) as [m|]; [|done]. rewrite bind_ok in H.
    destruct (Z.eqb_spec k m) as [->|]; done.
  - intros [_ H] i [c k] [Hc Hk]%lookup_zip_Some. cbn. rewrite (H i c k Hc Hk), bind_ok, Z.eqb_refl. done.
Qed.

Lemma check_proof_shape_total ts ps chunk : 1 <= chunk -> Forall (fun c => 1 <= c) ts ->
  exists r, check_proof_shape ts ps chunk = Ok r.
Proof.
  intros Hc Ht. unfold check_proof_shape. destruct (negb _); [eauto|]. apply first_refusal_total.
  intros [p [c k]] (i & _ & [Hi _]%lookup_zip_Some)%enumerate_elem. cbn in *.
  eapply Forall_lookup_1 in Ht; [|done]. cbn in Ht. unfold expected_chunks.
  destruct (Z.ltb_spec c 1); [lia|]. destruct (Z.ltb_spec chunk 1); [lia|]. cbn [orb]. rewrite bind_ok.
  destruct (negb _); eauto.
Qed.

Lemma episode_content j b seen : shape_ok b ->
  episode_guard j b seen = Ok None /\ run_checks (content_checks j b seen) = Ok Passed <-> content_ok j b seen.
Proof.
  intros (H1 & H2 & H3). unfold episode_guard, content_checks, content_ok, unseen_digests.
  rewrite run_checks_passed, <- check_duplicates_passed. destruct (spec_episode j).
  - rewrite Forall_singleton. destruct (episode_checked b); cbn [negb]; [|naive_solver].
    destruct (session_key b) as [k|]; [case_bool_decide as Hin|].
    + split; [by intros [? _]|]. intros (_ & _ & Hk). by destruct (Hk k eq_refl).
    + split; [intros [_ Hd]|intros (Hd & _)]; (split; [congruence||done|]); [|congruence].
      split; [done|]. by intros k' [= <-].
    + split; [intros [_ Hd]|intros (Hd & _)]; (split; [congruence||done|]); [|congruence]. done.
  - rewrite !Forall_cons, check_token_budget_passed, check_termination_passed by lia.
    unfold completions_ok, check_completion_count.
    assert (Ok (if Z.of_nat (length (token_counts b)) =? n (spec_sampling j) then Passed
                else Refused "bad_completion_count" [("expected"%string, VInt (n (spec_sampling j)));
                       ("got"%string, VInt (Z.of_nat (length (token_counts b))))]) = Ok Passed <->
            Z.of_nat (length (token_counts b)) = n (spec_sampling j)) as -> by (destruct (Z.eqb_spec
              (Z.of_nat (length (token_counts b))) (n (spec_sampling j))); naive_solver).
    assert (match proof_chunk_tokens b, proof_counts b with
            | Some chunk, Some counts => check_proof_shape (token_counts b) counts chunk
            | Some _, None => Raise TypeError
            | None, _ => Ok Passed
            end = Ok Passed <->
            forall chunk counts, proof_chunk_tokens b = Some chunk -> proof_counts b = Some counts ->
              length counts = length (token_counts b) /\
              forall i c k, token_counts b !! i = Some c -> counts !! i = Some k -> expected_chunks c chunk = Ok k) as ->.
    { destruct (proof_chunk_tokens b) as [ch|], (proof_counts b) as [cs|]; try naive_solver.
      rewrite check_proof_shape_passed. naive_solver. }
    rewrite Forall_nil. split.
    + intros (_ & HA & HB & HC & HD & HE & _). split; [congruence|]. done.
    + intros (HD & HA & HB & HC & HE). rewrite HD. done.
Qed.

Lemma content_total j b seen : shape_ok b -> sane j b -> exists r, run_checks (content_checks j b seen) = Ok r.
Proof.
  intros (H1 & H2 & H3) [Hmin Hchunk]. unfold content_checks. destruct (spec_episode j).
  { apply run_checks_total. intros [|] c Hc _; cbn in Hc; naive_solver. }
  apply run_checks_total. intros i c Hc Hbefore.
  destruct i as [|[|[|[|[|i]]]]]; cbn in Hc; try discriminate Hc; apply (inj Some) in Hc as <-; eauto.
  - apply check_token_budget_total.
  - apply check_termination_total. lia.
  - specialize (Hbefore 1%nat _ ltac:(lia) eq_refl). apply check_token_budget_passed in Hbefore.
    destruct (proof_chunk_tokens b) as [ch|] eqn:Ech; [|eauto]. destruct (proof_counts b) as [cs|]; [|naive_solver].
    apply check_proof_shape_total; [by apply Hchunk|]. eapply Forall_impl; [exact Hbefore|]. cbn. intros; lia.
Qed.

Lemma episode_guard_total j b seen : exists r, episode_guard j b seen = Ok r.
Proof. unfold episode_guard. destruct (spec_episode j); [|eauto]. repeat (destruct (negb _) || case_match); eauto. Qed.

Lemma guards_total j b seen st : ready j st ->
  exists r, guard_then (entry_guard j b st)
    (guard_then (position_guard j b st) (guard_then (draw_guard j b seen st) (episode_guard j b seen))) = Ok r.
Proof.
  intros Hr. apply guard_then_total; [|intros _; apply guard_then_total; [|intros Hp; apply guard_then_total]].
  - unfold entry_guard. cbv zeta. destruct (negb (_ && _)); [eauto|].
    destruct (proof_chunk_tokens b), (proof_counts b); eauto; (destruct (is_complete _); [eauto|]);
      destruct (negb _); eauto.
  - unfold position_guard. destruct (is_walk j); [by apply walk_position_total|]. destruct (negb _); eauto.
  - apply position_guard_none in Hp. by apply draw_guard_none, position_owned with j.
  - intros _. apply episode_guard_total.
Qed.

(** Admission up to the slot: either some refusal, or the submission answers its
    prompt. *)
Lemma guards_and_checks j b seen st : ready j st ->
  guard_then (entry_guard j b st)
    (guard_then (position_guard j b st) (guard_then (draw_guard j b seen st) (episode_guard j b seen))) = Ok None /\
  run_checks (content_checks j b seen) = Ok Passed <-> answered j b seen st.
Proof.
  intros Hr. rewrite !guard_then_none, entry_guard_none, position_guard_none. split.
  - intros ((( Hs & Hc & Hk) & Hp & Hd & He) & Hrun).
    destruct (draw_guard_none j b seen st) as [Hdg _]; [by eapply position_owned|].
    split; try done; [by apply Hdg|]. by apply episode_content.
  - intros [Hs Hc Hk Hp Hd Hcon]. apply episode_content in Hcon as [He Hrun]; [|done].
    destruct (draw_guard_none j b seen st) as [Hdg _]; [by eapply position_owned|].
    split_and!; try done. by apply Hdg.
Qed.

(** ** Claims *)

Lemma is_full_eq l p : owns l p = true -> is_full l p = Ok (remaining_at l p =? 0).
Proof. intros Ho. unfold is_full, remaining, check. by rewrite Ho. Qed.

Lemma consume_eq l p : owns l p = true -> 0 < remaining_at l p ->
  exists l', consume p l = (Ok (remaining_at l p - 1), l') /\ remaining_at l' p = remaining_at l p - 1.
Proof.
  intros Ho Hr. unfold consume, check. rewrite Ho. unfold remaining_at in *.
  destruct (Z.leb_spec (capacity_at l p) (consumed_at l p)); [lia|]. eexists. split; [do 2 f_equal; lia|].
  unfold capacity_at, consumed_at, reopened, attempt_limit, failed_at. cbn. rewrite lookup_insert_eq. cbn. lia.
Qed.

(** The three ways [admit] can end once the guards have passed or refused. *)
Inductive outcome (j : job_spec) (b : submission) (seen : gset string) (st : intake) : verdict -> intake -> Prop :=
  | out_accepted l' :
      answered j b seen st -> consume (sub_prompt b) (slots st) = (Ok (remaining_at (slots st) (sub_prompt b) - 1), l') ->
      0 < remaining_at (slots st) (sub_prompt b) ->
      outcome j b seen st (Verdict true "accepted" (Some (remaining_at (slots st) (sub_prompt b) - 1)) [])
        (advance_walk j (sub_hotkey b) (Intake l' (walks st)))
  | out_full : answered j b seen st -> remaining_at (slots st) (sub_prompt b) = 0 ->
      outcome j b seen st (Verdict false "prompt_full" (Some 0) [("prompt_index"%string, VInt (sub_prompt b))])
        (advance_walk j (sub_hotkey b) st)
  | out_repeats detail : position_ok j b st -> ~ answered j b seen st -> is_walk j = true ->
      outcome j b seen st (refused "hash_duplicate" detail) (advance_walk j (sub_hotkey b) st)
  | out_refused v : ~ answered j b seen st -> accepted v = false -> outcome j b seen st v st.

Lemma admit_outcome j b seen st : ready j st -> sane j b ->
  exists v st', admit_submission j b seen st = (Ok v, st') /\ outcome j b seen st v st'.
Proof.
  intros Hr Hsane. unfold admit_submission. pose proof (guards_and_checks j b seen st Hr) as Hans.
  destruct (guards_total j b seen st Hr) as [g Hg].
  destruct g as [v|].
  { rewrite Hg. exists v, st. split; [done|]. apply out_refused; [|by eapply guards_refuse].
    intros [H _]%Hans. congruence. }
  pose proof Hg as Hg'. rewrite !guard_then_none in Hg'. destruct Hg' as (He & Hp & _).
  apply entry_guard_none in He as (Hs & _). apply position_guard_none in Hp.
  pose proof (position_owned j b st Hr Hp) as Ho. rewrite Hg.
  destruct (content_total j b seen Hs Hsane) as [[|reason detail] Hrun]; rewrite Hrun.
  - assert (answered j b seen st) as Ha by by apply Hans.
    rewrite is_full_eq by done. destruct (Z.eqb_spec (remaining_at (slots st) (sub_prompt b)) 0) as [Hz|Hz].
    + eexists _, _. split; [done|]. by apply out_full.
    + assert (0 < remaining_at (slots st) (sub_prompt b)) as Hpos.
      { pose proof (consumed_bounds _ (sub_prompt b) (ready_wf j st Hr)). unfold remaining_at in *. lia. }
      destruct (consume_eq (slots st) (sub_prompt b) Ho Hpos) as (l' & Hl & _). rewrite Hl.
      eexists _, _. split; [done|]. by apply out_accepted.
  - assert (~ answered j b seen st) as Hna by (intros [_ H]%Hans; congruence).
    destruct (repeats_itself j reason detail seen) eqn:Erep; eexists _, _; (split; [done|]).
    + unfold repeats_itself in Erep. apply andb_true_iff in Erep as [[[E1 E2]%andb_true_iff _]%andb_true_iff _].
      apply String.eqb_eq in E1 as ->. by apply out_repeats.
    + by apply out_refused.
Qed.

(** C19: admission is exact.  For ledgers that belong to the job, [admit] always
    answers, and it accepts exactly the submissions that answer their prompt
    (matching lists, the job running, its checkpoint, the position the walk or the
    range names, a draw slot that is open, untaken and has attempts left, digests
    never seen, and for a single completion its count, budget, ending and proof
    counts) while a slot of the prompt is free. *)
Theorem admit_accepts_exactly (j : job_spec) (b : submission) (seen : gset string) (st : intake) :
  ready j st -> sane j b ->
  exists v st', admit_submission j b seen st = (Ok v, st') /\
    (accepted v = true <-> answered j b seen st /\ 0 < remaining_at (slots st) (sub_prompt b)).
Proof.
  intros Hr Hs. destruct (admit_outcome j b seen st Hr Hs) as (v & st' & E & Ho). exists v, st'. split; [done|].
  destruct Ho; cbn [accepted]; split; try done; try (intros [? ?]; done || lia). congruence.
Qed.

(** What admission changes.  An accepted submission takes exactly one slot of
    its prompt, reports what is left, and moves the walk one step; a refused one
    takes no slot, and moves the walk (by one step, that hotkey's, in a walk job)
    only when the miner answered the prompt its walk named: a full prompt, or a
    completion repeated within the submission. *)
Theorem admit_effects (j : job_spec) (b : submission) (seen : gset string) (st : intake) :
  ready j st -> sane j b ->
  exists v st', admit_submission j b seen st = (Ok v, st') /\
    (if accepted v then
       consume (sub_prompt b) (slots st) = (Ok (remaining_at (slots st) (sub_prompt b) - 1), slots st') /\
       slots_remaining v = Some (remaining_at (slots st) (sub_prompt b) - 1)
     else slots st' = slots st) /\
    (walks st' = walks st /\ (accepted v = true -> is_walk j = false) \/
     walks st' = (advance (sub_hotkey b) (walks st)).2 /\ is_walk j = true /\ position_ok j b st /\
     (accepted v = true \/ v_reason v = "prompt_full"%string \/ v_reason v = "hash_duplicate"%string)).
Proof.
  intros Hr Hs. destruct (admit_outcome j b seen st Hr Hs) as (v & st' & E & Ho). exists v, st'. split; [done|].
  destruct Ho as [l' Ha Hl Hpos|Ha Hz|detail Hp Hna Hw|v Hna Hv]; unfold advance_walk;
    cbn [accepted refused v_reason slots_remaining].
  - pose proof (ans_position _ _ _ _ Ha) as Hp. destruct (is_walk j) eqn:Hw; cbn [slots walks]; split; auto 10.
  - pose proof (ans_position _ _ _ _ Ha) as Hp. destruct (is_walk j) eqn:Hw; cbn [slots walks]; split; auto 10.
  - rewrite Hw. cbn [slots walks]. split; auto 10.
  - rewrite Hv. split; [done|]. left. done.
Qed.

Definition w_sampling : sampling := Sampling 2 8 1 None.
Definition w_spec : job_spec := JobSpec "job-a" "cafe" 0 2 1 "free" w_sampling 99 false.
Definition w_sub : submission := Submission "5F" 0 1 "cafe" [3] [99] ["d1"%string] None None false None.
Definition w_intake : intake := Intake witness_ledger ∅.

Lemma w_ready : ready w_spec w_intake.
Proof. split; [apply witness_ledger_reachable|reflexivity|reflexivity|]. intros h. unfold expected. cbn. rewrite lookup_empty. cbn. lia. Qed.
Lemma w_sane : sane w_spec w_sub.
Proof. split; [cbn; lia|]. intros chunk [=]. Qed.

Lemma admit_accepts_exactly_witness :
  exists v st', admit_submission w_spec w_sub ∅ w_intake = (Ok v, st') /\ accepted v = true /\
    answered w_spec w_sub ∅ w_intake.
Proof.
  destruct (admit_accepts_exactly w_spec w_sub ∅ w_intake w_ready w_sane) as (v & st' & E & H).
  exists v, st'. split; [exact E|].
  assert (accepted v = true) as Ha.
  { assert (match (admit_submission w_spec w_sub ∅ w_intake).1 with Ok v => accepted v | _ => false end = true) as Ht
      by (vm_compute; reflexivity).
    rewrite E in Ht. exact Ht. }
  split; [exact Ha|]. exact (proj1 (proj1 H Ha)).
Defined.

Lemma admit_effects_witness :
  exists v st', admit_submission w_spec w_sub {["d1"%string]} w_intake = (Ok v, st') /\ slots st' = slots w_intake.
Proof.
  destruct (admit_effects w_spec w_sub {["d1"%string]} w_intake w_ready w_sane) as (v & st' & E & H & _).
  exists v, st'. split; [exact E|].
  assert (match (admit_submission w_spec w_sub {["d1"%string]} w_intake).1 with Ok v => accepted v | _ => true end = false) as Ht
    by (vm_compute; reflexivity).
  rewrite E in Ht. cbn in Ht. rewrite Ht in H. exact H.
Defined.

(** ** Skipping full prompts *)

Definition full_at (j : job_spec) (hotkey : string) (l : ledger) (step : Z) : Prop :=
  exists i, job_walk_index (spec_id j) (spec_start j) (spec_count j) hotkey step = Ok i /\ remaining_at l i = 0.

(** What the walk and the ledger answer at any step they can reach. *)
Lemma step_reads j st hotkey step : ready j st -> 0 <= step < 2 ^ 64 ->
  exists i, job_walk_index (spec_id j) (spec_start j) (spec_count j) hotkey step = Ok i /\
    remaining (slots st) i = Ok (remaining_at (slots st) i) /\
    is_full (slots st) i = Ok (remaining_at (slots st) i =? 0) /\
    (full_at j hotkey (slots st) step <-> remaining_at (slots st) i = 0).
Proof.
  intros Hr Hs. destruct (job_walk_index_ok (spec_id j) (spec_start j) (spec_count j) hotkey step)
    as (i & Hi & Hb); [by eapply ready_pos|done|].
  assert (owns (slots st) i = true) as Ho.
  { rewrite (ready_owns j st) by done. unfold job_owns. apply andb_true_iff. split; [apply Z.leb_le|apply Z.ltb_lt]; lia. }
  exists i. split; [done|]. split; [unfold remaining, check; by rewrite Ho|]. split; [by apply is_full_eq|].
  unfold full_at. split; [|by eauto]. intros (i' & Hi' & Hf). congruence.
Qed.

Lemma not_full_spec j st hotkey steps : ready j st -> Forall (fun s => 0 <= s < 2 ^ 64) steps ->
  exists r, not_full_refusal j hotkey (slots st) steps = Ok r /\
    (r = None <-> Forall (full_at j hotkey (slots st)) steps) /\ (forall v, r = Some v -> accepted v = false).
Proof.
  intros Hr. induction 1 as [|s steps Hs _ IH]; cbn; [exists None; naive_solver|].
  destruct (step_reads j st hotkey s Hr Hs) as (i & -> & Hrem & _ & Hiff). rewrite bind_ok, Hrem, bind_ok.
  destruct (Z.eqb_spec (remaining_at (slots st) i) 0) as [Hz|Hz].
  - destruct IH as (r & -> & H1 & H2). exists r. split; [done|]. split; [|done].
    rewrite Forall_cons, Hiff. tauto.
  - eexists. split; [done|]. rewrite Forall_cons, Hiff. split; [split; [done|tauto]|]. intros v [= <-]. done.
Qed.

Lemma first_open_spec j st hotkey start len other : ready j st -> 0 <= start -> start + Z.of_nat len < 2 ^ 64 ->
  exists t, first_open j hotkey (slots st) (seqZ start (Z.of_nat len)) other = Ok t /\
    (t = other /\ (forall s, start <= s < start + Z.of_nat len -> full_at j hotkey (slots st) s) \/
     start <= t < start + Z.of_nat len /\ ~ full_at j hotkey (slots st) t /\
     forall s, start <= s < t -> full_at j hotkey (slots st) s).
Proof.
  intros Hr. revert start. induction len as [|len IH]; intros start Hs Hb.
  - exists other. split; [done|]. left. split; [done|lia].
  - rewrite seqZ_cons by lia. cbn [first_open].
    destruct (step_reads j st hotkey start Hr ltac:(lia)) as (i & -> & _ & Hf & Hiff). rewrite bind_ok, Hf, bind_ok.
    destruct (Z.eqb_spec (remaining_at (slots st) i) 0) as [Hz|Hz]; cbn [negb].
    + replace (Z.pred (Z.of_nat (S len))) with (Z.of_nat len) by lia.
      destruct (IH (Z.succ start)) as (t & -> & Ht); [lia..|]. exists t. split; [done|].
      assert (full_at j hotkey (slots st) start) as H0 by by apply Hiff.
      assert (forall u, (forall s, Z.succ start <= s < u -> full_at j hotkey (slots st) s) ->
                forall s, start <= s < u -> full_at j hotkey (slots st) s) as Hext.
      { intros u Hu s Hs'. destruct (Z.eq_dec s start) as [->|]; [done|]. apply Hu. lia. }
      destruct Ht as [[-> Hall]|(Hr' & Hn & Hall)]; [left|right].
      * split; [done|]. apply Hext. intros s Hs'. apply Hall. lia.
      * split_and!; [lia|lia|done|]. by apply Hext.
    + exists start. split; [done|]. right. split_and!; [lia|lia| |lia]. by rewrite Hiff.
Qed.

Lemma advance_walk_iter j hotkey st steps : is_walk j = true ->
  slots (foldl (fun st _ => advance_walk j hotkey st) st steps) = slots st /\
  forall h, expected (walks (foldl (fun st (_ : Z) => advance_walk j hotkey st) st steps)) h
    = expected (walks st) h + (if bool_decide (hotkey = h) then Z.of_nat (length steps) else 0).
Proof.
  intros Hw. revert st. induction steps as [|s steps IH]; intros st; cbn [foldl length].
  - split; [done|]. intros h. case_bool_decide; lia.
  - destruct (IH (advance_walk j hotkey st)) as [H1 H2].
    assert (advance_walk j hotkey st = Intake (slots st) (advance hotkey (walks st)).2) as E
      by (unfold advance_walk; by rewrite Hw).
    rewrite H1. split; [by rewrite E|]. intros h. rewrite H2, E. cbn [walks]. rewrite advance_expected.
    case_bool_decide; lia.
Qed.

(** Skipping.  [skip] always answers, takes no slot, and is accepted exactly
    when the job runs a walk, the cursor and the prompt are the walk's, at most
    [MAX_SKIP_STEPS] steps are crossed and every prompt crossed is full; it then
    leaves that hotkey, and no other, at [to_cursor].  The target the validator
    offers is the first free position ahead (or [MAX_SKIP_STEPS] on), so skipping
    to it from a full prompt is accepted. *)
Theorem skip_exact (j : job_spec) (hotkey : string) (cursor prompt_index to_cursor : Z) (st : intake) :
  ready j st -> 0 <= cursor < 2 ^ 63 ->
  (exists v st', skip j hotkey cursor prompt_index to_cursor st = (Ok v, st') /\ slots st' = slots st /\
     (accepted v = true <->
        is_complete (slots st) = false /\ is_walk j = true /\ cursor = expected (walks st) hotkey /\
        job_walk_index (spec_id j) (spec_start j) (spec_count j) hotkey cursor = Ok prompt_index /\
        1 <= to_cursor - cursor <= MAX_SKIP_STEPS /\
        forall s, cursor <= s < to_cursor -> full_at j hotkey (slots st) s) /\
     forall h, expected (walks st') h =
       if accepted v && bool_decide (hotkey = h) then to_cursor else expected (walks st) h) /\
  exists t, skip_target j hotkey cursor (slots st) = Ok t /\ 1 <= t - cursor <= MAX_SKIP_STEPS /\
    (forall s, cursor < s < t -> full_at j hotkey (slots st) s) /\
    (t - cursor < MAX_SKIP_STEPS -> ~ full_at j hotkey (slots st) t).
Proof.
  intros Hr Hc. split.
  - unfold skip, skip_refusal. destruct (is_complete (slots st)); [eexists _, st; split; [done|]; naive_solver|].
    destruct (is_walk j) eqn:Hw; cbn [negb]; [|eexists _, st; split; [done|]; naive_solver].
    destruct (walk_position_total j st hotkey cursor prompt_index Hr) as [g Hg].
    pose proof (walk_position_none j (walks st) hotkey cursor prompt_index) as Hnone.
    unfold guard_then. rewrite Hg in Hnone |- *. rewrite bind_ok. destruct g as [v|].
    { assert (accepted v = false) as Hv.
      { revert Hg. unfold walk_position_refusal. cbv zeta. refusal_only. }
      exists v, st. split; [done|]. rewrite Hv. split; [done|]. cbn. naive_solver. }
    destruct (proj1 Hnone eq_refl) as [Hexp Hidx].
    destruct (Z.leb_spec 1 (to_cursor - cursor)), (Z.leb_spec (to_cursor - cursor) MAX_SKIP_STEPS);
      cbn [andb negb]; try (eexists _, st; split; [done|]; cbn; split; [done|]; split; [|done]; split; [done|lia]).
    assert (Forall (fun s => 0 <= s < 2 ^ 64) (seqZ cursor (to_cursor - cursor))) as Hrange.
    { apply Forall_forall. intros s Hs%elem_of_seqZ. unfold MAX_SKIP_STEPS in *. lia. }
    destruct (not_full_spec j st hotkey _ Hr Hrange) as (r & -> & Hiff & Hrefuse).
    rewrite Forall_forall in Hiff.
    assert (r = None <-> forall s, cursor <= s < to_cursor -> full_at j hotkey (slots st) s) as Hiff'.
    { rewrite Hiff. split; intros H' s Hs; apply H'; [apply elem_of_seqZ|apply elem_of_seqZ in Hs]; lia. }
    destruct r as [v|].
    + exists v, st. split; [done|]. rewrite (Hrefuse v eq_refl). cbn. split; [done|]. split; [|done].
      split; [done|]. intros (_ & _ & _ & _ & _ & Hall). apply Hiff' in Hall. done.
    + destruct (advance_walk_iter j hotkey st (seqZ cursor (to_cursor - cursor)) Hw) as [H1 H2].
      eexists _, _. split; [done|]. split; [done|]. cbn. split; [split; [intros _|done]; split_and!; try done; by apply Hiff'|].
      intros h. rewrite H2, length_seqZ, Z2Nat.id by lia. case_bool_decide; subst; lia.
  - unfold skip_target. destruct (first_open_spec j st hotkey (cursor + 1) 255 (cursor + MAX_SKIP_STEPS) Hr)
      as (t & Ht & Hcase); [lia|lia|]. change (Z.of_nat 255) with (MAX_SKIP_STEPS - 1) in *.
    exists t. split; [done|]. unfold MAX_SKIP_STEPS in *.
    destruct Hcase as [[-> Hall]|(Hb & Hn & Hall)]; split_and!; try lia; try done; intros s Hs; apply Hall; lia.
Qed.

Definition w_walk_spec : job_spec := JobSpec "job-a" "cafe" 0 2 1 "miner_walk" w_sampling 99 false.
Lemma w_walk_ready : ready w_walk_spec w_intake.
Proof. split; [apply witness_ledger_reachable|reflexivity|reflexivity|]. intros h. unfold expected. cbn. rewrite lookup_empty. cbn. lia. Qed.

Lemma skip_exact_witness :
  exists v st', skip w_walk_spec "5F" 0 0 1 w_intake = (Ok v, st') /\ slots st' = slots w_intake /\ accepted v = false.
Proof.
  destruct (skip_exact w_walk_spec "5F" 0 0 1 w_intake w_walk_ready ltac:(lia)) as [(v & st' & E & Hs & _) _].
  exists v, st'. split; [exact E|]. split; [exact Hs|].
  assert (match (skip w_walk_spec "5F" 0 0 1 w_intake).1 with Ok v => accepted v | _ => true end = false) as Ht
    by (vm_compute; reflexivity).
  rewrite E in Ht. exact Ht.
Defined.
