(* ===== verification/Toploc.v ===== *)
(** * Toploc: activation proofs as interpolation polynomials

    Models [reliquary/protocol/toploc.py] (its chunk arithmetic is in file
    [Checks]): the modulus that keeps the indices of a chunk distinct, the Newton
    interpolation through the chunk's top activations modulo the prime 65497, its
    evaluation by the verifier, the byte format, and the verdict on a sequence.
    The numpy passes are written row by row as the slices they compute; every
    value stays below 2^32, so the int64 arrays never wrap. *)

From Stdlib Require Import Znumtheory Zpow_facts.
From S2P Require Import Prelude PyFloat Bytes.

#[local] Open Scope Z_scope.

Definition MOD_N : Z := 65497.

(** ** The code *)

(** [injective_modulus] *)
Fixpoint modulus_search (fuel : nat) (values : list Z) (modulus : Z) : result Z :=
  match fuel with
  | O => Raise ValueError
  | S fuel' =>
      if bool_decide (NoDup ((fun x => x mod modulus) <$> values)) then Ok modulus
      else modulus_search fuel' values (modulus - 1)
  end.
Definition injective_modulus (xs : list Z) : result Z :=
  if bool_decide (NoDup xs) then modulus_search (Z.to_nat MOD_N) xs MOD_N else Raise ValueError.

(** [_modinv], one entry of the table [_INVERSES]: square and multiply. *)
Fixpoint modpow (fuel : nat) (exponent base acc : Z) : Z :=
  match fuel with
  | O => acc
  | S fuel' =>
      if exponent =? 0 then acc
      else modpow fuel' (Z.shiftr exponent 1) ((base * base) mod MOD_N)
             (if Z.land exponent 1 =? 1 then (acc * base) mod MOD_N else acc)
  end.
Definition modinv (v : Z) : Z := modpow 17 (MOD_N - 2) (v mod MOD_N) 1.

(** One pass [k] of divided differences over a row: [dd[k:]] from the previous
    pass, divided by [x[k:] - x[:n-k]]. *)
Definition denominators (k : nat) (xs : list Z) : list Z :=
  zip_with (fun a b => (a - b) mod MOD_N) (drop k xs) (take (length xs - k) xs).
Definition dd_pass (k : nat) (xs dd : list Z) : result (list Z) :=
  let dens := denominators k xs in
  if bool_decide (0 ∈ dens) then Raise ValueError
  else Ok (take k dd ++
           zip_with (fun diff d => ((diff mod MOD_N) * modinv d) mod MOD_N)
             (zip_with Z.sub (drop k dd) (take (length xs - k) (drop (k - 1) dd))) dens).

Definition divided_differences (xs ys : list Z) : result (list Z) :=
  fold_result (fun dd k => dd_pass k xs dd) ((fun y => y mod MOD_N) <$> ys) (seq 1 (length xs - 1)).

(** One step [i] of the expansion: [coeffs[:i+1] += dd[i] * factor[:i+1]], and,
    before the last, [factor] multiplied by [x - x_i]. *)
Definition add_scaled (i : nat) (d : Z) (factor coeffs : list Z) : list Z :=
  zip_with (fun c f => (c + d * f) mod MOD_N) (take (S i) coeffs) (take (S i) factor) ++ drop (S i) coeffs.
Definition shift_factor (i : nat) (minus_xi : Z) (factor : list Z) : list Z :=
  match factor with
  | [] => []
  | f0 :: rest =>
      (f0 * minus_xi) mod MOD_N
        :: zip_with (fun a b => (a + b * minus_xi) mod MOD_N) (take (S i) factor) (take (S i) rest)
        ++ replicate (length factor - S (S i)) 0
  end.
Fixpoint expand (i : nat) (xs dd factor coeffs : list Z) (n : nat) : list Z :=
  match xs, dd with
  | x :: xs', d :: dd' =>
      let coeffs' := add_scaled i d factor coeffs in
      if (S i <? n)%nat then expand (S i) xs' dd' (shift_factor i ((- x) mod MOD_N) factor) coeffs' n else coeffs'
  | _, _ => coeffs
  end.

(** [newton_coefficients], the one-row case of [newton_coefficients_batch]. *)
Definition newton_coefficients (xs ys : list Z) : result (list Z) :=
  if negb (length xs =? length ys)%nat then Raise ValueError
  else match xs with
  | [] => Raise ValueError
  | _ =>
      dd ← divided_differences xs ys;
      let n := length xs in
      Ok (expand 0 xs dd (1 :: replicate (n - 1) 0) (replicate n 0) n)
  end.
Fixpoint newton_coefficients_batch (rows : list (list Z * list Z)) : result (list (list Z)) :=
  match rows with
  | [] => Ok []
  | (xs, ys) :: rows' => c ← newton_coefficients xs ys; cs ← newton_coefficients_batch rows'; Ok (c :: cs)
  end.

(** [evaluate]: Horner's method. *)
Definition horner (coeffs : list Z) (x : Z) : Z :=
  match rev coeffs with
  | [] => 0
  | c :: cs => foldl (fun acc c => (acc * x + c) mod MOD_N) c cs mod MOD_N
  end.
Definition evaluate (coeffs xs : list Z) : result (list Z) :=
  match coeffs with [] => Raise ValueError | _ => Ok (horner coeffs <$> xs) end.

Record chunk_proof := ChunkProof { modulus : Z; coeffs : list Z }.

Definition from_points (xs ys : list Z) : result chunk_proof :=
  m ← injective_modulus xs;
  cs ← newton_coefficients ((fun x => x mod m) <$> xs) ys;
  Ok (ChunkProof m cs).

(** [to_bytes]: two bytes each; a larger number raises [OverflowError]. *)
Definition two_bytes (z : Z) : result (list Z) :=
  if (0 <=? z) && (z <? 65536) then Ok (to_bytes_be 2 z) else Raise OverflowError.
Definition to_bytes (p : chunk_proof) : result (list Z) :=
  m ← two_bytes (modulus p);
  fold_result (fun acc c => b ← two_bytes c; Ok (acc ++ b)) m (coeffs p).

Fixpoint pairs (b : list Z) : list Z :=
  match b with
  | x :: y :: b' => of_bytes_be [x; y] :: pairs b'
  | _ => []
  end.
Definition from_bytes (data : list Z) : result chunk_proof :=
  let n := Z.of_nat (length data) in
  if (n <? 4) || negb (n mod 2 =? 0) then Raise ValueError
  else
    let m := of_bytes_be (take 2 data) in
    if m =? 0 then Raise ValueError
    else if MOD_N <? m then Raise ValueError
    else
      let cs := pairs (drop 2 data) in
      if existsb (fun c => MOD_N <=? c) cs then Raise ValueError else Ok (ChunkProof m cs).

Definition values_at (p : chunk_proof) (xs : list Z) : result (list Z) :=
  evaluate (coeffs p) ((fun x => x mod modulus p) <$> xs).

(** ** Verdicts *)

Definition NO_MANTISSA : float := of_int (2 ^ 64).
Definition BF16_EXP_MASK : Z := 0x7F80.
Definition BF16_MANT_MASK : Z := 0x007F.

Record chunk_result := ChunkResult {
  exp_mismatches : Z;
  mant_err_mean : float;
  mant_err_median : float;
}.

Fixpoint insert_Z (x : Z) (l : list Z) : list Z :=
  match l with [] => [x] | y :: l' => if x <=? y then x :: l else y :: insert_Z x l' end.
Definition sort_Z (l : list Z) : list Z := foldr insert_Z [] l.

Definition compare_bf16_bits (proof_bits verifier_bits : list Z) : result chunk_result :=
  if negb (length proof_bits =? length verifier_bits)%nat then Raise ValueError
  else
    let ps := zip proof_bits verifier_bits in
    let agrees pv := Z.land pv.1 BF16_EXP_MASK =? Z.land pv.2 BF16_EXP_MASK in
    let mismatches := Z.of_nat (length (filter (fun pv => agrees pv = false) ps)) in
    let errors := sort_Z ((fun pv => Z.abs (Z.land pv.1 BF16_MANT_MASK - Z.land pv.2 BF16_MANT_MASK))
                            <$> filter (fun pv => agrees pv = true) ps) in
    match errors with
    | [] => Ok (ChunkResult mismatches NO_MANTISSA NO_MANTISSA)
    | _ =>
        median ← py_nth errors (Z.of_nat (length errors) / 2);
        Ok (ChunkResult mismatches (flit (Zsum errors) (Z.of_nat (length errors))) (of_int median))
    end.

Record thresholds := Thresholds {
  exp_mismatch : Z;
  mant_mean : float;
  mant_median : float;
  min_allowed_failures : Z;
  ratio_allowed_failures : float;
}.

Fixpoint strict_verdict (t : thresholds) (results : list chunk_result) : bool * option string :=
  match results with
  | [] => (true, None)
  | r :: results' =>
      if exp_mismatch t <? exp_mismatches r then (false, Some "exp_mismatch"%string)
      else if mant_mean t <? mant_err_mean r then (false, Some "mant_err_mean"%string)
      else if mant_median t <? mant_err_median r then (false, Some "mant_err_median"%string)
      else strict_verdict t results'
  end.

Definition sequence_verdict (results : list chunk_result) (t : thresholds) : bool * option string :=
  match results with
  | [] => (false, Some "no_chunks"%string)
  | _ =>
      if (0 <? min_allowed_failures t) || (0 <? ratio_allowed_failures t) then
        let allowance := Z.max (of_int (min_allowed_failures t))
                           (fmul (ratio_allowed_failures t) (of_int (Z.of_nat (length results)))) in
        let kept := filter (fun r => exp_mismatches r <= exp_mismatch t) results in
        let forgiven := filter (fun r => exp_mismatch t < exp_mismatches r) results in
        let left := foldl (fun a _ => fsub a fone) allowance forgiven in
        if left <? 0 then (false, Some "too_many_exp_mismatches"%string)
        else if existsb (fun r => mant_mean t <? mant_err_mean r) forgiven then (false, Some "mant_err_mean"%string)
        else if existsb (fun r => mant_median t <? mant_err_median r) forgiven then (false, Some "mant_err_median"%string)
        else strict_verdict t kept
      else strict_verdict t results
  end.

Example from_points_example :
  (p ← from_points [70000; 3; 12] [100; 65000; 7]; values_at p [70000; 3; 12]) = Ok [100; 65000; 7].
Proof. vm_compute. reflexivity. Qed.

(** ** The field *)

(** Fermat's little theorem. *)
Section fermat.
Context (p : Z) (Hp : prime p) (a : Z) (Ha : ~ (p | a)).

Definition product (l : list Z) : Z := foldr Z.mul 1 l.

Lemma product_perm l k : l ≡ₚ k -> product l = product k.
Proof using.
  induction 1 as [|x l k _ IH|x y l|l k m _ IH1 _ IH2]; cbn; [done| |ring|congruence]. unfold product in IH. by rewrite IH.
Qed.

Lemma product_scaled l : exists q, product ((fun x => (a * x) mod p) <$> l)
  = a ^ Z.of_nat (length l) * product l + p * q.
Proof using Hp.
  pose proof (prime_ge_2 p Hp). induction l as [|x l [q IH]]; [exists 0; cbn; lia|].
  cbn [fmap list_fmap product foldr length]. unfold product in IH. rewrite IH, Nat2Z.inj_succ, Z.pow_succ_r by lia.
  pose proof (Z.div_mod (a * x) p ltac:(lia)) as E.
  set (y := (a * x) mod p) in *. replace y with (a * x - p * ((a * x) / p)) by lia.
  fold (product l). set (A := a ^ Z.of_nat (length l)). set (P := product l). set (d := a * x / p).
  exists (a * x * q - d * (A * P + p * q)). ring.
Qed.

Lemma product_coprime l : (forall x, x ∈ l -> ~ (p | x)) -> ~ (p | product l).
Proof using Hp.
  induction l as [|x l IH]; intros Hl; cbn.
  - intros Hd%Z.divide_1_r. pose proof (prime_ge_2 p Hp). lia.
  - intros Hd. destruct (prime_mult p Hp _ _ Hd) as [Hd'|Hd'].
    + by apply (Hl x); [constructor|].
    + apply IH; [|done]. intros; apply Hl; by constructor.
Qed.

Lemma range_coprime x : x ∈ seqZ 1 (p - 1) -> ~ (p | x).
Proof using. intros Hx%elem_of_seqZ Hd. apply Z.divide_pos_le in Hd; lia. Qed.

Lemma scaled_range : (fun x => (a * x) mod p) <$> seqZ 1 (p - 1) ≡ₚ seqZ 1 (p - 1).
Proof using Hp Ha.
  pose proof (prime_ge_2 p Hp). apply submseteq_length_Permutation; [|by rewrite length_fmap].
  apply NoDup_submseteq.
  - apply NoDup_fmap_2_strong; [|apply NoDup_seqZ]. intros x y Hx%elem_of_seqZ Hy%elem_of_seqZ E.
    assert (p | a * (x - y)) as Hd.
    { apply Z.mod_divide; [lia|]. rewrite Z.mul_sub_distr_l, Zminus_mod, E, Z.sub_diag. apply Z.mod_0_l. lia. }
    destruct (prime_mult p Hp _ _ Hd) as [Hd'|Hd']; [done|].
    destruct (Z.lt_trichotomy x y) as [|[|]]; [|done|].
    + apply Z.divide_opp_r, Z.divide_pos_le in Hd'; lia.
    + apply Z.divide_pos_le in Hd'; lia.
  - intros z (x & -> & Hx)%list_elem_of_fmap. apply elem_of_seqZ.
    pose proof (Z.mod_pos_bound (a * x) p ltac:(lia)). enough ((a * x) mod p <> 0) by lia.
    intros Hz. apply Z.mod_divide in Hz; [|lia]. destruct (prime_mult p Hp _ _ Hz) as [Hz'|Hz']; [done|].
    by apply range_coprime in Hx.
Qed.

Lemma fermat_little : (p | a ^ (p - 1) - 1).
Proof using Hp Ha.
  pose proof (prime_ge_2 p Hp). destruct (product_scaled (seqZ 1 (p - 1))) as [q E].
  rewrite (product_perm _ _ scaled_range), length_seqZ, Z2Nat.id in E by lia.
  set (P := product (seqZ 1 (p - 1))) in *.
  assert (p | (a ^ (p - 1) - 1) * P) as Hd by (exists (- q); lia).
  destruct (prime_mult p Hp _ _ Hd) as [Hd'|Hd']; [done|]. exfalso.
  by apply (product_coprime (seqZ 1 (p - 1))) in Hd'; [|apply range_coprime].
Qed.
End fermat.

Lemma small_divisors : forallb (fun d => negb (MOD_N mod d =? 0)) (seqZ 2 254) = true.
Proof. vm_compute. reflexivity. Qed.

Lemma MOD_N_prime : prime MOD_N.
Proof.
  assert (forall d, 2 <= d <= 255 -> ~ (d | MOD_N)) as Hsmall.
  { intros d Hd Hdiv. pose proof small_divisors as H. rewrite forallb_forall in H.
    specialize (H d ltac:(apply list_elem_of_In, elem_of_seqZ; lia)).
    apply Z.mod_divide in Hdiv; [|lia]. rewrite Hdiv in H. discriminate H. }
  apply prime_intro; [unfold MOD_N; lia|]. intros n Hn. apply Zgcd_1_rel_prime.
  pose proof (Z.gcd_divide_r n MOD_N) as [h Hh]. pose proof (Z.gcd_divide_l n MOD_N) as Hl.
  pose proof (Z.gcd_nonneg n MOD_N). apply Z.divide_pos_le in Hl; [|lia].
  set (g := Z.gcd n MOD_N) in *. assert (MOD_N = 65497) by done.
  destruct (Z.le_gt_cases g 1); [assert (g <> 0) by (intros E; rewrite E in Hh; lia); lia|]. exfalso. destruct (Z.le_gt_cases g 255).
  - apply (Hsmall g); [lia|]. by exists h.
  - apply (Hsmall h); [nia|]. exists g. lia.
Qed.

Lemma modpow_spec fuel e b acc : 0 <= e < 2 ^ Z.of_nat fuel ->
  modpow fuel e b acc mod MOD_N = (acc * b ^ e) mod MOD_N.
Proof.
  revert e b acc. induction fuel as [|fuel IH]; intros e b acc He.
  { assert (e = 0) as -> by (cbn in He; lia). cbn. by rewrite Z.mul_1_r. }
  cbn [modpow]. destruct (Z.eqb_spec e 0) as [->|Hne]; [by rewrite Z.pow_0_r, Z.mul_1_r|].
  rewrite Nat2Z.inj_succ, Z.pow_succ_r in He by lia.
  rewrite Z.shiftr_div_pow2 by lia. change (2 ^ 1) with 2.
  rewrite IH by (split; [apply Z.div_pos; lia|apply Z.div_lt_upper_bound; lia]).
  pose proof (Z.div_mod e 2 ltac:(lia)) as E. change (Z.land e 1) with (Z.land e (Z.ones 1)).
  rewrite Z.land_ones by lia. change (2 ^ 1) with 2.
  pose proof (Z.mod_pos_bound e 2 ltac:(lia)).
  assert (((b * b) mod MOD_N) ^ (e / 2) mod MOD_N = (b ^ (2 * (e / 2))) mod MOD_N) as Hpow.
  { rewrite Z.pow_mul_r, Z.pow_2_r by (try apply Z.div_pos; lia). by rewrite <- Zpower_mod by done. }
  destruct (Z.eqb_spec (e mod 2) 1) as [E1|E1].
  - rewrite Z.mul_mod, Hpow, Z.mod_mod, <- Z.mul_mod by done. f_equal.
    assert (0 <= e / 2) by (apply Z.div_pos; lia).
    assert (b ^ e = b ^ (2 * (e / 2)) * b) as ->; [|ring].
    replace e with (2 * (e / 2) + 1) at 1 by lia. by rewrite Z.pow_add_r, Z.pow_1_r by lia.
  - rewrite Z.mul_mod, Hpow, <- Z.mul_mod by done. do 2 f_equal. f_equal. lia.
Qed.

Lemma pow_step b n : 2 <= n -> b * b ^ (n - 2) = b ^ (n - 1).
Proof. intros. rewrite <- Z.pow_succ_r by lia. f_equal. lia. Qed.

(** [_INVERSES] holds inverses. *)
Lemma modinv_spec v : v mod MOD_N <> 0 -> (MOD_N | v * modinv v - 1).
Proof.
  intros Hv. unfold modinv. set (b := v mod MOD_N).
  assert (~ (MOD_N | b)) as Hb.
  { intros Hd. apply Z.mod_divide in Hd; [|done]. unfold b in Hd. rewrite Z.mod_mod in Hd by done. done. }
  pose proof (fermat_little MOD_N MOD_N_prime b Hb) as Hf.
  assert (modpow 17 (MOD_N - 2) b 1 mod MOD_N = b ^ (MOD_N - 2) mod MOD_N) as Hm.
  { rewrite modpow_spec by (vm_compute; done). by rewrite Z.mul_1_l. }
  apply Z.mod_divide; [done|]. rewrite Zminus_mod, Z.mul_mod, Hm by done. fold b.
  rewrite Zmult_mod_idemp_r, <- Zminus_mod.
  apply Z.mod_divide in Hf; [|done]. rewrite pow_step by (vm_compute; discriminate). exact Hf.
Qed.

(** ** Newton's interpolation, modulo the prime *)

Section newton.
Context (n : nat) (x : nat -> Z) (F : nat -> nat -> Z).
Hypothesis F_step : forall a k, (a + S k < n)%nat ->
  (MOD_N | F a (S k) * (x (a + S k)%nat - x a) - (F (S a) k - F a k)).

Fixpoint prods (a k : nat) (t : Z) : Z :=
  match k with O => 1 | S k' => prods a k' t * (t - x (a + k')%nat) end.
Fixpoint newton (a k : nat) (t : Z) : Z :=
  match k with O => F a 0 | S k' => newton a k' t + F a k * prods a k t end.

Lemma prods_shift a k t : prods a (S k) t = (t - x a) * prods (S a) k t.
Proof using.
  induction k as [|k IH]; [cbn; rewrite Nat.add_0_r; ring|].
  change (prods a (S (S k)) t) with (prods a (S k) t * (t - x (a + S k)%nat)). rewrite IH. cbn [prods].
  replace (a + S k)%nat with (S a + k)%nat by lia. ring.
Qed.

Lemma prods_zero a k j : (j < k)%nat -> prods a k (x (a + j)%nat) = 0.
Proof using.
  induction k as [|k IH]; [lia|]. intros Hj. cbn [prods]. destruct (Nat.eq_dec j k) as [->|].
  - rewrite Z.sub_diag. ring.
  - rewrite IH by lia. ring.
Qed.

(** The polynomial built from the other end. *)
Lemma newton_shift a k t : (a + S k < n)%nat ->
  (MOD_N | newton a (S k) t - newton (S a) k t - F a (S k) * prods (S a) (S k) t).
Proof using F_step.
  revert a. induction k as [|k IH]; intros a Ha.
  - destruct (F_step a 0 Ha) as [q Hq]. exists q. cbn [newton prods]. rewrite <- Hq.
    replace (S a + 0)%nat with (a + 1)%nat by lia. rewrite Nat.add_0_r. ring.
  - destruct (IH a ltac:(lia)) as [q Hq]. destruct (F_step a (S k) Ha) as [r Hr].
    exists (q + r * prods (S a) (S k) t).
    change (newton a (S (S k)) t) with (newton a (S k) t + F a (S (S k)) * prods a (S (S k)) t).
    change (newton (S a) (S k) t) with (newton (S a) k t + F (S a) (S k) * prods (S a) (S k) t).
    change (prods (S a) (S (S k)) t) with (prods (S a) (S k) t * (t - x (S a + S k)%nat)).
    rewrite (prods_shift a (S k)). replace (S a + S k)%nat with (a + S (S k))%nat by lia.
    rewrite Z.mul_add_distr_r, <- Hq.
    replace (r * prods (S a) (S k) t * MOD_N) with (r * MOD_N * prods (S a) (S k) t) by ring. rewrite <- Hr. ring.
Qed.

Lemma newton_interpolates a k j : (a + k < n)%nat -> (j <= k)%nat ->
  (MOD_N | newton a k (x (a + j)%nat) - F (a + j)%nat 0).
Proof using F_step.
  revert a j. induction k as [|k IH]; intros a j Ha Hj.
  - assert (j = 0%nat) as -> by lia. cbn. rewrite Nat.add_0_r, Z.sub_diag. by exists 0.
  - destruct (Nat.eq_dec j (S k)) as [->|].
    + destruct (newton_shift a k (x (a + S k)%nat) Ha) as [q Hq].
      destruct (IH (S a) k ltac:(lia) ltac:(lia)) as [r Hr].
      replace (S a + k)%nat with (a + S k)%nat in Hr by lia.
      replace (prods (S a) (S k) (x (a + S k)%nat)) with 0 in Hq.
      2: { replace (a + S k)%nat with (S a + k)%nat by lia. symmetry. apply prods_zero. lia. }
      exists (q + r). lia.
    + destruct (IH a j ltac:(lia) ltac:(lia)) as [q Hq]. exists q. rewrite <- Hq.
      change (newton a (S k) (x (a + j)%nat))
        with (newton a k (x (a + j)%nat) + F a (S k) * prods a (S k) (x (a + j)%nat)).
      rewrite prods_zero by lia. ring.
Qed.
End newton.

(** ** The passes compute the divided differences *)

Definition pass_value (k : nat) (xs dd : list Z) : list Z :=
  take k dd ++
  zip_with (fun diff d => ((diff mod MOD_N) * modinv d) mod MOD_N)
    (zip_with Z.sub (drop k dd) (take (length xs - k) (drop (k - 1) dd))) (denominators k xs).

Lemma length_denominators k xs : length (denominators k xs) = (length xs - k)%nat.
Proof. unfold denominators. rewrite length_zip_with, length_drop, length_take. lia. Qed.

Lemma length_pass k xs dd : (1 <= k)%nat -> length dd = length xs -> (k <= length xs)%nat ->
  length (pass_value k xs dd) = length xs.
Proof.
  intros Hk Hd Hl. unfold pass_value.
  rewrite length_app, !length_zip_with, length_denominators, length_drop, !length_take, length_drop. lia.
Qed.

#[local] Notation "l .[ i ]" := (nth i l 0) (at level 2, format "l .[ i ]").

Lemma nth_lookup (l : list Z) i v : l !! i = Some v -> l.[i] = v.
Proof. intros H. rewrite nth_lookup. by rewrite H. Qed.

Lemma lookup_nth_lt (l : list Z) i : (i < length l)%nat -> l !! i = Some l.[i].
Proof. intros [v Hv]%lookup_lt_is_Some_2. rewrite Hv. f_equal. symmetry. by apply nth_lookup. Qed.

Lemma pass_low k xs dd i : (i < k)%nat -> (k <= length dd)%nat -> (pass_value k xs dd).[i] = dd.[i].
Proof.
  intros Hi Hk. apply nth_lookup. unfold pass_value.
  rewrite lookup_app_l by (rewrite length_take; lia). rewrite lookup_take_lt by done.
  apply lookup_nth_lt. lia.
Qed.

Lemma pass_high k xs dd i : (1 <= k)%nat -> (k <= i < length xs)%nat -> length dd = length xs ->
  (pass_value k xs dd).[i]
  = (((dd.[i] - dd.[i - 1]) mod MOD_N) * modinv ((xs.[i] - xs.[i - k]) mod MOD_N)) mod MOD_N.
Proof.
  intros Hk Hi Hd. apply nth_lookup. unfold pass_value.
  rewrite lookup_app_r by (rewrite length_take; lia). rewrite length_take, Nat.min_l by lia.
  rewrite !lookup_zip_with. unfold denominators. rewrite lookup_zip_with, !lookup_drop, !lookup_take_lt, lookup_drop by lia.
  replace (k + (i - k))%nat with i by lia. replace (k - 1 + (i - k))%nat with (i - 1)%nat by lia.
  rewrite !lookup_nth_lt by lia. reflexivity.
Qed.

(** The state after [k] passes. *)
Fixpoint passes (xs ys : list Z) (k : nat) : list Z :=
  match k with O => (fun y => y mod MOD_N) <$> ys | S k' => pass_value k xs (passes xs ys k') end.

Lemma length_passes xs ys k : length ys = length xs -> (k < length xs)%nat \/ k = 0%nat ->
  length (passes xs ys k) = length xs.
Proof.
  intros Hl. induction k as [|k IH]; intros Hk; cbn [passes]; [by rewrite length_fmap|].
  apply length_pass; [lia| |lia]. apply IH. lia.
Qed.

Lemma passes_stable xs ys i k : length ys = length xs -> (i <= k < length xs)%nat ->
  (passes xs ys k).[i] = (passes xs ys i).[i].
Proof.
  intros Hl. induction k as [|k IH]; intros Hk; [by assert (i = 0%nat) as -> by lia|].
  destruct (Nat.eq_dec i (S k)) as [->|]; [done|]. cbn [passes].
  rewrite pass_low by (rewrite ?length_passes; lia). apply IH. lia.
Qed.

Lemma passes_fold xs ys m : length ys = length xs -> (m < length xs)%nat ->
  (forall k, (1 <= k <= m)%nat -> 0 ∉ denominators k xs) ->
  fold_result (fun dd k => dd_pass k xs dd) ((fun y => y mod MOD_N) <$> ys) (seq 1 m) = Ok (passes xs ys m).
Proof.
  intros Hl Hm Hden. induction m as [|m IH]; [done|].
  rewrite seq_S, fold_result_app, IH by (lia || (intros; apply Hden; lia)). rewrite bind_ok.
  cbn [fold_result]. unfold dd_pass. cbv zeta.
  rewrite bool_decide_false by (apply Hden; lia). rewrite bind_ok. reflexivity.
Qed.

(** Distinct points in the field never collide. *)
Lemma no_collision xs k : NoDup xs -> Forall (fun x => 0 <= x < MOD_N) xs -> (1 <= k)%nat -> 0 ∉ denominators k xs.
Proof.
  intros Hnd Hr Hk [i Hi]%list_elem_of_lookup. unfold denominators in Hi.
  apply lookup_zip_with_Some in Hi as (a & b & Hz & Ha & Hb).
  rewrite lookup_drop in Ha. apply lookup_take_Some in Hb as [Hb _].
  assert (0 <= a < MOD_N) by (eapply Forall_lookup_1 in Ha; [|done]; done).
  assert (0 <= b < MOD_N) by (eapply Forall_lookup_1 in Hb; [|done]; done).
  assert (a = b) as ->.
  { symmetry in Hz. apply Z.mod_divide in Hz as [q Hq]; [|done]. assert (MOD_N = 65497) by done. nia. }
  pose proof (NoDup_lookup xs _ _ _ Hnd Ha Hb). lia.
Qed.

(** A reduced quotient times its denominator. *)
Lemma divided_step D d v q : d mod MOD_N * v - 1 = q * MOD_N ->
  (MOD_N | (D mod MOD_N * v) mod MOD_N * d - D).
Proof.
  intros Hq. pose proof (Z.div_mod D MOD_N ltac:(done)). pose proof (Z.div_mod d MOD_N ltac:(done)).
  pose proof (Z.div_mod (D mod MOD_N * v) MOD_N ltac:(done)).
  set (r1 := D mod MOD_N) in *. set (q1 := D / MOD_N) in *. set (e := d mod MOD_N) in *. set (q3 := d / MOD_N) in *.
  set (q2 := r1 * v / MOD_N) in *. set (w := (r1 * v) mod MOD_N) in *.
  replace w with (r1 * v - MOD_N * q2) by lia.
  exists (r1 * v * q3 + r1 * q - q2 * d - q1).
  replace D with (MOD_N * q1 + r1) by lia.
  transitivity (r1 * v * (MOD_N * q3 + e) - MOD_N * q2 * d - MOD_N * q1 - r1); [rewrite <- H0; ring|].
  transitivity (r1 * v * MOD_N * q3 + r1 * (e * v) - MOD_N * q2 * d - MOD_N * q1 - r1); [ring|].
  assert (e * v = 1 + q * MOD_N) as -> by (rewrite <- Hq; ring). ring.
Qed.

(** Divided differences of a row of distinct points. *)
Lemma divided_differences_ok xs ys : xs <> [] -> length ys = length xs -> NoDup xs ->
  Forall (fun x => 0 <= x < MOD_N) xs ->
  exists dd, divided_differences xs ys = Ok dd /\ length dd = length xs /\
    exists F, (forall i, (i < length xs)%nat -> F i 0%nat = ys.[i] mod MOD_N /\ F 0%nat i = dd.[i]) /\
      forall a k, (a + S k < length xs)%nat ->
        (MOD_N | F a (S k) * (xs.[a + S k] - xs.[a]) - (F (S a) k - F a k)).
Proof.
  intros Hne Hl Hnd Hr. assert (0 < length xs)%nat by (destruct xs; [done|cbn; lia]).
  set (m := (length xs - 1)%nat). exists (passes xs ys m). split; [|split].
  - unfold divided_differences. apply passes_fold; [done|lia|]. intros k Hk. by apply no_collision; [..|lia].
  - apply length_passes; [done|lia].
  - exists (fun a k => (passes xs ys k).[a + k]). split.
    + intros i Hi. rewrite Nat.add_0_r, Nat.add_0_l. split; [|symmetry; apply passes_stable; [done|lia]].
      cbn [passes]. apply nth_lookup. rewrite list_lookup_fmap, lookup_nth_lt by lia. done.
    + intros a k Hak. cbn [passes]. rewrite pass_high; [|lia|lia|apply length_passes; [done|lia]].
      replace (a + S k - 1)%nat with (a + k)%nat by lia. replace (a + S k - S k)%nat with a by lia.
      replace (S a + k)%nat with (a + S k)%nat by lia.
      set (d := xs.[a + S k] - xs.[a]). set (D := (passes xs ys k).[a + S k] - (passes xs ys k).[a + k]).
      assert (d mod MOD_N <> 0) as Hd.
      { intros Hz. apply (no_collision xs (S k) Hnd Hr ltac:(lia)). apply list_elem_of_lookup. exists a.
        unfold denominators. rewrite lookup_zip_with, lookup_drop, lookup_take_lt by lia.
        replace (S k + a)%nat with (a + S k)%nat by lia. rewrite !lookup_nth_lt by lia. cbn. f_equal. exact Hz. }
      assert ((d mod MOD_N) mod MOD_N <> 0) as Hd' by (by rewrite Z.mod_mod).
      destruct (modinv_spec (d mod MOD_N) Hd') as [q Hq].
      by apply (divided_step D d _ q).
Qed.

(** ** The expansion of the coefficients *)

Definition eval (l : list Z) (t : Z) : Z := foldr (fun c acc => c + t * acc) 0 l.

Lemma eval_app l k t : eval (l ++ k) t = eval l t + t ^ Z.of_nat (length l) * eval k t.
Proof.
  induction l as [|c l IH]; [cbn [app length eval foldr]; change (Z.of_nat 0) with 0; rewrite Z.pow_0_r; fold (eval k t); ring|].
  cbn [eval foldr app length]. fold (eval (l ++ k) t) (eval l t).
  rewrite IH, Nat2Z.inj_succ, Z.pow_succ_r by lia. ring.
Qed.

Lemma eval_zeros n t : eval (replicate n 0) t = 0.
Proof.
  induction n as [|n IH]; [done|].
  change (eval (replicate (S n) 0) t) with (0 + t * eval (replicate n 0) t). rewrite IH. ring.
Qed.

Lemma eval_zip (g : Z -> Z -> Z) c l k t : (forall a b, g a b = (a + c * b) mod MOD_N) -> length l = length k ->
  (MOD_N | eval (zip_with g l k) t - (eval l t + c * eval k t)).
Proof.
  intros Hg. revert k. induction l as [|a l IH]; intros [|b k] Hl; try done.
  - exists 0. cbn. ring.
  - injection Hl as Hl. destruct (IH k Hl) as [q Hq]. cbn [zip_with eval foldr].
    fold (eval (zip_with g l k) t) (eval l t) (eval k t). rewrite Hg.
    pose proof (Z.div_mod (a + c * b) MOD_N ltac:(done)) as E.
    exists (t * q - (a + c * b) / MOD_N).
    replace ((a + c * b) mod MOD_N) with (a + c * b - MOD_N * ((a + c * b) / MOD_N)) by lia.
    rewrite Z.mul_sub_distr_r, <- Z.mul_assoc, <- Hq. ring.
Qed.

(** The part of a row that is not zero yet. *)
Definition zero_from (i : nat) (l : list Z) : Prop := drop i l = replicate (length l - i) 0.

Lemma eval_take i l t : zero_from i l -> eval (take i l) t = eval l t.
Proof. intros H. rewrite <- (take_drop i l) at 2. rewrite eval_app, H, eval_zeros. ring. Qed.

Lemma add_scaled_eval i d factor coeffs t :
  length coeffs = length factor -> (S i <= length factor)%nat -> zero_from (S i) factor ->
  length (add_scaled i d factor coeffs) = length factor /\
  (MOD_N | eval (add_scaled i d factor coeffs) t - (eval coeffs t + d * eval factor t)).
Proof.
  intros Hl Hi Hz. unfold add_scaled.
  set (zs := zip_with (fun c f => (c + d * f) mod MOD_N) (take (S i) coeffs) (take (S i) factor)).
  assert (length zs = S i) as Hzs by (unfold zs; rewrite length_zip_with, !length_take; lia).
  split; [rewrite length_app, Hzs, length_drop; lia|].
  destruct (eval_zip (fun c f => (c + d * f) mod MOD_N) d (take (S i) coeffs) (take (S i) factor) t) as [q Hq];
    [done|rewrite !length_take; lia|]. fold zs in Hq.
  exists q. rewrite <- Hq, eval_app, Hzs, (eval_take (S i) factor) by done.
  rewrite <- (take_drop (S i) coeffs) at 2. rewrite eval_app, length_take, Nat.min_l by lia. ring.
Qed.

Lemma shift_factor_eval i x factor t :
  (S i < length factor)%nat -> zero_from (S i) factor ->
  length (shift_factor i ((- x) mod MOD_N) factor) = length factor /\
  zero_from (S (S i)) (shift_factor i ((- x) mod MOD_N) factor) /\
  (MOD_N | eval (shift_factor i ((- x) mod MOD_N) factor) t - eval factor t * (t - x)).
Proof.
  intros Hi Hz. destruct factor as [|f0 rest]; [cbn in Hi; lia|]. cbn [length] in Hi.
  set (m := (- x) mod MOD_N). cbn [shift_factor].
  set (zs := zip_with (fun a b => (a + b * m) mod MOD_N) (take (S i) (f0 :: rest)) (take (S i) rest)).
  assert (length zs = S i) as Hzs by (unfold zs; rewrite length_zip_with, !length_take; cbn [length]; lia).
  assert (zero_from i rest) as Hz'.
  { unfold zero_from in *. cbn [drop length] in Hz. exact Hz. }
  assert (zero_from (S i) rest) as Hzr.
  { unfold zero_from in *. rewrite <- (Nat.add_1_r i), <- drop_drop, Hz', drop_replicate. f_equal. lia. }
  split; [cbn [length]; rewrite length_app, Hzs, length_replicate; lia|]. split.
  { unfold zero_from. cbn [drop length]. rewrite drop_app_ge, Hzs by lia. rewrite Nat.sub_diag. cbn [drop].
    rewrite length_app, Hzs, length_replicate, drop_0. f_equal. lia. }
  destruct (eval_zip (fun a b => (a + b * m) mod MOD_N) m (take (S i) (f0 :: rest)) (take (S i) rest) t) as [q Hq];
    [intros; f_equal; ring|rewrite !length_take; cbn [length]; lia|]. fold zs in Hq.
  rewrite (eval_take (S i) (f0 :: rest)), (eval_take (S i) rest) in Hq by done.
  pose proof (Z.div_mod (f0 * m) MOD_N ltac:(done)) as H0. pose proof (Z.div_mod (- x) MOD_N ltac:(done)) as Hm. fold m in Hm.
  set (r0 := (f0 * m) mod MOD_N) in *. set (q0 := f0 * m / MOD_N) in *. set (q1 := - x / MOD_N) in *.
  change (eval (r0 :: zs ++ replicate (length (f0 :: rest) - S (S i)) 0) t)
    with (r0 + t * eval (zs ++ replicate (length (f0 :: rest) - S (S i)) 0) t).
  rewrite eval_app, eval_zeros, Z.mul_0_r, Z.add_0_r.
  change (eval (f0 :: rest) t) with (f0 + t * eval rest t) in Hq |- *.
  set (R := eval rest t) in *. set (E := eval zs t) in *.
  exists (t * q - q0 - (f0 + t * R) * q1).
  replace r0 with (f0 * m - MOD_N * q0) by (rewrite H0; ring).
  replace (t - x) with (t + (MOD_N * q1 + m)) by (rewrite <- Hm; ring).
  replace E with (q * MOD_N + (f0 + t * R + m * R)) by (rewrite <- Hq; ring). ring.
Qed.

(** The Newton form accumulated by [expand]. *)
Fixpoint newton_sum (f : Z) (xs dd : list Z) (t : Z) : Z :=
  match xs, dd with
  | x :: xs', d :: dd' => d * f + newton_sum (f * (t - x)) xs' dd' t
  | _, _ => 0
  end.

Lemma newton_sum_cong f f' xs dd t : (MOD_N | f - f') ->
  (MOD_N | newton_sum f xs dd t - newton_sum f' xs dd t).
Proof.
  revert f f' dd. induction xs as [|x xs IH]; intros f f' [|d dd] [q Hq]; try (exists 0; cbn; ring).
  cbn [newton_sum]. destruct (IH (f * (t - x)) (f' * (t - x)) dd) as [r Hr].
  { exists (q * (t - x)). rewrite <- Z.mul_sub_distr_r, Hq. ring. }
  exists (d * q + r). rewrite Z.mul_add_distr_r, <- Hr. replace (d * q * MOD_N) with (d * (q * MOD_N)) by ring.
  rewrite <- Hq. ring.
Qed.

Lemma expand_eval xs dd i factor coeffs n t :
  length dd = length xs -> (i + length xs)%nat = n -> xs <> [] ->
  length factor = n -> length coeffs = n -> zero_from (S i) factor ->
  length (expand i xs dd factor coeffs n) = n /\
  (MOD_N | eval (expand i xs dd factor coeffs n) t - (eval coeffs t + newton_sum (eval factor t) xs dd t)).
Proof.
  revert dd i factor coeffs. induction xs as [|x xs IH]; intros [|d dd] i factor coeffs Hl Hn Hne Hf Hc Hz; try done.
  injection Hl as Hl. cbn [length] in Hn. cbn [expand newton_sum]. cbv zeta.
  destruct (add_scaled_eval i d factor coeffs t) as [Hal [q Hq]]; [lia|lia|done|].
  destruct (Nat.ltb_spec (S i) n).
  - destruct (shift_factor_eval i x factor t) as (Hsl & Hsz & Hse); [lia|done|].
    destruct (IH dd (S i) (shift_factor i ((- x) mod MOD_N) factor) (add_scaled i d factor coeffs)) as [Hlen [r Hr]];
      [done|lia|destruct xs; [cbn in *; lia|done]|lia|lia|done|]. split; [done|].
    destruct (newton_sum_cong _ _ xs dd t Hse) as [s Hs].
    exists (q + r + s). rewrite !Z.mul_add_distr_r, <- Hq, <- Hr, <- Hs. ring.
  - destruct xs; [|cbn in *; lia]. split; [lia|]. exists q. rewrite <- Hq. cbn. destruct dd; ring.
Qed.

Definition root_product (xs : list Z) (t : Z) : Z := foldr (fun x acc => (t - x) * acc) 1 xs.

Lemma root_product_snoc xs x t : root_product (xs ++ [x]) t = root_product xs t * (t - x).
Proof. induction xs as [|y xs IH]; cbn -[Z.mul]; [ring|]. unfold root_product in IH. rewrite IH. ring. Qed.

Lemma newton_sum_snoc f xs dd x d t : length dd = length xs ->
  newton_sum f (xs ++ [x]) (dd ++ [d]) t = newton_sum f xs dd t + d * (f * root_product xs t).
Proof.
  revert f dd. induction xs as [|y xs IH]; intros f [|e dd] Hl; try done.
  - cbn -[Z.mul]. ring.
  - injection Hl as Hl. cbn [app newton_sum]. rewrite IH by done.
    change (root_product (y :: xs) t) with ((t - y) * root_product xs t). ring.
Qed.

Lemma newton_sum_newton xs dd F k t : length dd = length xs -> (k < length xs)%nat ->
  (forall i, (i < length xs)%nat -> F 0%nat i = dd.[i]) ->
  newton_sum 1 (take (S k) xs) (take (S k) dd) t = newton (fun i => xs.[i]) F 0 k t /\
  root_product (take (S k) xs) t = prods (fun i => xs.[i]) 0 (S k) t.
Proof.
  intros Hl Hk HF. induction k as [|k IH].
  - destruct xs as [|x xs], dd as [|d dd]; [cbn in Hk; lia|done|done|].
    cbn [length] in *. pose proof (HF 0%nat ltac:(lia)) as H0. cbn in H0. cbn -[Z.mul]. rewrite H0, !take_0. cbn -[Z.mul]. split; ring.
  - destruct (IH ltac:(lia)) as [IH1 IH2].
    rewrite (take_S_r xs (S k) (xs.[S k])), (take_S_r dd (S k) (dd.[S k])) by (apply lookup_nth_lt; lia).
    split.
    + rewrite newton_sum_snoc by (rewrite !length_take; lia). rewrite IH1, IH2.
      change (newton (fun i => xs.[i]) F 0 (S k) t)
        with (newton (fun i => xs.[i]) F 0 k t + F 0%nat (S k) * prods (fun i => xs.[i]) 0 (S k) t).
      rewrite HF by lia. ring.
    + rewrite root_product_snoc, IH2. reflexivity.
Qed.

(** Horner's method evaluates the coefficients in the field. *)
Lemma horner_eval cs t : cs <> [] -> horner cs t = eval cs t mod MOD_N.
Proof.
  intros Hne. unfold horner. destruct (rev cs) as [|c l] eqn:E.
  { exfalso. apply Hne. rewrite <- (rev_involutive cs), E. done. }
  assert (cs = rev l ++ [c]) as -> by (rewrite <- (rev_involutive cs), E; done). clear E Hne.
  assert (foldl (fun acc c => (acc * t + c) mod MOD_N) c l mod MOD_N = eval (rev l ++ [c]) t mod MOD_N) as H; [|exact H].
  induction l as [|d l IH] using rev_ind.
  - cbn -[Z.mul Z.modulo]. f_equal. ring.
  - rewrite foldl_app, rev_unit. cbn [foldl app]. change (eval (d :: rev l ++ [c]) t) with (d + t * eval (rev l ++ [c]) t).
    rewrite Z.mod_mod by done. rewrite Zplus_mod, Zmult_mod, IH, <- Zmult_mod, <- Zplus_mod. f_equal. ring.
Qed.

(** Interpolation through distinct points of the field. *)
Lemma newton_coefficients_ok xs ys : xs <> [] -> length ys = length xs -> NoDup xs ->
  Forall (fun x => 0 <= x < MOD_N) xs ->
  exists cs, newton_coefficients xs ys = Ok cs /\ length cs = length xs /\
    evaluate cs xs = Ok ((fun y => y mod MOD_N) <$> ys).
Proof.
  intros Hne Hl Hnd Hr. assert (0 < length xs)%nat as Hpos by (destruct xs; [done|cbn; lia]).
  destruct (divided_differences_ok xs ys Hne Hl Hnd Hr) as (dd & Hdd & Hdl & F & HF & Hstep).
  unfold newton_coefficients. rewrite Hl, Nat.eqb_refl. cbn [negb].
  set (n := length xs) in *. set (cs := expand 0 xs dd (1 :: replicate (n - 1) 0) (replicate n 0) n).
  assert (forall t, length cs = n /\ (MOD_N | eval cs t - newton_sum 1 xs dd t)) as Hcs.
  { intros t. destruct (expand_eval xs dd 0 (1 :: replicate (n - 1) 0) (replicate n 0) n t) as [H1 [q Hq]]; try done.
    - cbn. rewrite length_replicate. lia.
    - apply length_replicate.
    - unfold zero_from. cbn [drop length]. rewrite drop_0, length_replicate. f_equal. lia.
    - split; [exact H1|]. exists q. fold cs in Hq. rewrite <- Hq, eval_zeros.
      change (eval (1 :: replicate (n - 1) 0) t) with (1 + t * eval (replicate (n - 1) 0) t).
      rewrite eval_zeros, Z.mul_0_r, Z.add_0_r. ring. }
  destruct (Hcs 0) as [Hlen _]. exists cs. split; [destruct xs; [done|]; by rewrite Hdd|]. split; [done|].
  assert (cs <> []) as Hcne by (intros E; rewrite E in Hlen; cbn in Hlen; lia).
  unfold evaluate. destruct cs as [|c0 cs']; [done|]. f_equal. apply list_eq. intros i.
  destruct (decide (i < n)%nat) as [Hi|Hi].
  - rewrite !list_lookup_fmap, !lookup_nth_lt by lia. cbn [fmap option_fmap option_map]. f_equal.
    rewrite horner_eval by done. destruct (Hcs (xs.[i])) as [_ [q Hq]].
    destruct (newton_sum_newton xs dd F (n - 1) (xs.[i]) Hdl ltac:(lia) ltac:(intros; by apply HF)) as [Hns _].
    rewrite !take_ge in Hns by lia.
    destruct (newton_interpolates n (fun i => xs.[i]) F Hstep 0 (n - 1) i ltac:(lia) ltac:(lia)) as [r Hint].
    cbn [Nat.add] in Hint. rewrite (proj1 (HF i Hi)) in Hint. rewrite Hns in Hq.
    replace (eval (c0 :: cs') (xs.[i])) with (ys.[i] mod MOD_N + (q + r) * MOD_N) by lia.
    rewrite Z.mod_add by done. by apply Z.mod_mod.
  - rewrite !lookup_ge_None_2; [done|rewrite length_fmap; lia|rewrite length_fmap; lia].
Qed.

(** ** The modulus, reduced coefficients and bytes *)

Lemma modulus_search_ok fuel values m0 m : modulus_search fuel values m0 = Ok m -> Z.of_nat fuel <= m0 ->
  m0 - Z.of_nat fuel < m <= m0 /\ NoDup ((fun x => x mod m) <$> values) /\
  forall m', m < m' <= m0 -> ~ NoDup ((fun x => x mod m') <$> values).
Proof.
  revert m0. induction fuel as [|fuel IH]; intros m0; cbn [modulus_search]; [done|].
  case_bool_decide as Hnd.
  - intros [= <-] Hf. split; [lia|]. split; [done|]. intros; lia.
  - intros H Hf. apply IH in H as (H1 & H2 & H3); [|lia]. split; [lia|]. split; [done|].
    intros m' Hm'. destruct (Z.eq_dec m' m0) as [->|]; [done|]. apply H3. lia.
Qed.

Lemma injective_modulus_ok xs m : injective_modulus xs = Ok m ->
  1 <= m <= MOD_N /\ NoDup ((fun x => x mod m) <$> xs) /\
  forall m', m < m' <= MOD_N -> ~ NoDup ((fun x => x mod m') <$> xs).
Proof.
  unfold injective_modulus. case_bool_decide; [|done]. intros Hs.
  apply modulus_search_ok in Hs as (H1 & H2 & H3); [|rewrite Z2Nat.id by done; reflexivity].
  rewrite Z2Nat.id in H1 by done. split; [lia|done].
Qed.

Definition reduced (c : Z) : Prop := 0 <= c < MOD_N.

Lemma zip_with_reduced (g : Z -> Z -> Z) l k : Forall reduced (zip_with (fun a b => (g a b) mod MOD_N) l k).
Proof.
  apply Forall_forall. intros z [i Hi]%list_elem_of_lookup.
  apply lookup_zip_with_Some in Hi as (a & b & -> & _). by apply Z.mod_pos_bound.
Qed.

Lemma expand_reduced xs dd i factor coeffs n :
  Forall reduced coeffs -> Forall reduced (expand i xs dd factor coeffs n).
Proof.
  revert dd i factor coeffs. induction xs as [|x xs IH]; intros [|d dd] i factor coeffs Hc; try done.
  cbn [expand]. cbv zeta. assert (Forall reduced (add_scaled i d factor coeffs)).
  { unfold add_scaled. apply Forall_app. split; [apply zip_with_reduced|by apply Forall_drop]. }
  destruct (S i <? n)%nat; [by apply IH|done].
Qed.

Lemma newton_coefficients_reduced xs ys cs : newton_coefficients xs ys = Ok cs -> Forall reduced cs.
Proof.
  unfold newton_coefficients. destruct (negb _); [done|]. destruct xs as [|x xs]; [done|].
  intros (dd & _ & Hcs)%bind_ok_inv. cbv zeta in Hcs. apply (inj Ok) in Hcs as <-.
  apply expand_reduced, Forall_replicate. done.
Qed.

Lemma two_bytes_ok z : 0 <= z < 65536 -> two_bytes z = Ok (to_bytes_be 2 z).
Proof. intros Hz. unfold two_bytes. destruct (Z.leb_spec 0 z), (Z.ltb_spec z 65536); try lia. done. Qed.

Lemma to_bytes_coeffs acc cs : Forall reduced cs ->
  fold_result (fun acc c => b ← two_bytes c; Ok (acc ++ b)) acc cs = Ok (acc ++ concat (to_bytes_be 2 <$> cs)).
Proof.
  intros H. revert acc. induction H as [|c cs Hc _ IH]; intros acc; cbn [fold_result fmap list_fmap concat];
    [by rewrite app_nil_r|].
  assert (MOD_N = 65497) by done. unfold reduced in Hc. rewrite two_bytes_ok by lia.
  rewrite !bind_ok, IH, <- app_assoc. done.
Qed.

Lemma to_bytes_two z : exists a b, to_bytes_be 2 z = [a; b] /\ is_byte a /\ is_byte b.
Proof.
  pose proof (to_bytes_be_byte 2 z) as H. cbn [to_bytes_be] in *. inversion H as [|? ? H1 H2]; subst.
  inversion H2; subst. eauto.
Qed.

Lemma pairs_concat cs : Forall reduced cs -> pairs (concat (to_bytes_be 2 <$> cs)) = cs.
Proof.
  induction 1 as [|c cs Hc _ IH]; [done|]. cbn [fmap list_fmap concat].
  assert (of_bytes_be (to_bytes_be 2 c) = c) as E.
  { apply of_to_bytes_be. assert (MOD_N = 65497) by done. unfold reduced in Hc. cbn. lia. }
  destruct (to_bytes_two c) as (a & b & Hab & _). rewrite Hab in E |- *. cbn [app pairs]. by rewrite E, IH.
Qed.

Lemma length_concat_two cs : length (concat (to_bytes_be 2 <$> cs)) = (2 * length cs)%nat.
Proof.
  induction cs as [|c cs IH]; [done|]. cbn [fmap list_fmap concat]. rewrite length_app, IH, length_to_bytes_be. cbn. lia.
Qed.

Lemma proof_bytes p : 1 <= modulus p <= MOD_N -> coeffs p <> [] -> Forall reduced (coeffs p) ->
  exists b, to_bytes p = Ok b /\ from_bytes b = Ok p.
Proof.
  destruct p as [m cs]. cbn [modulus coeffs]. intros Hm Hne Hr. assert (MOD_N = 65497) as HM by done.
  exists (to_bytes_be 2 m ++ concat (to_bytes_be 2 <$> cs)). unfold to_bytes. cbn [modulus coeffs].
  rewrite two_bytes_ok, bind_ok, to_bytes_coeffs by (done || lia). split; [done|].
  unfold from_bytes. rewrite length_app, length_to_bytes_be, length_concat_two.
  assert (0 < length cs)%nat by (destruct cs; [done|cbn; lia]).
  destruct (Z.ltb_spec (Z.of_nat (2 + 2 * length cs)) 4); [lia|].
  replace (Z.of_nat (2 + 2 * length cs)) with ((1 + Z.of_nat (length cs)) * 2) by lia. rewrite Z.mod_mul by done.
  cbn [orb negb Z.eqb]. rewrite take_app_length', drop_app_length' by (by rewrite length_to_bytes_be).
  rewrite of_to_bytes_be by (cbn; lia). rewrite pairs_concat by done.
  destruct (Z.eqb_spec m 0); [lia|]. destruct (Z.ltb_spec MOD_N m); [lia|].
  replace (existsb (fun c => MOD_N <=? c) cs) with false; [done|]. symmetry. apply not_true_iff_false.
  rewrite existsb_exists. intros (c & Hc%list_elem_of_In & Hle%Z.leb_le). rewrite Forall_forall in Hr.
  destruct (Hr c Hc). lia.
Qed.

Lemma list_even_ind {A} (P : list A -> Prop) :
  P [] -> (forall a b l, P l -> P (a :: b :: l)) -> forall l, Z.of_nat (length l) mod 2 = 0 -> P l.
Proof.
  intros H0 H2. fix IH 1. intros [|a [|b l]] Hl; [exact H0|discriminate Hl|]. apply H2, IH.
  cbn [length] in Hl. rewrite !Nat2Z.inj_succ in Hl.
  replace (Z.succ (Z.succ (Z.of_nat (length l)))) with (Z.of_nat (length l) + 1 * 2) in Hl by lia.
  by rewrite Z.mod_add in Hl.
Qed.

Lemma concat_pairs b : Z.of_nat (length b) mod 2 = 0 -> Forall is_byte b ->
  concat (to_bytes_be 2 <$> pairs b) = b /\ Forall (fun c => 0 <= c) (pairs b).
Proof.
  revert b. refine (list_even_ind _ _ _); [done|]. intros x y l IH Hb.
  apply Forall_cons in Hb as [Hx Hb]. apply Forall_cons in Hb as [Hy Hb]. destruct (IH Hb) as [IH1 IH2].
  cbn [pairs fmap list_fmap concat]. unfold is_byte in *. assert (of_bytes_be [x; y] = x * 256 + y) as -> by done.
  split; [|constructor; [lia|done]]. rewrite IH1. cbn [to_bytes_be app].
  change (256 ^ Z.of_nat 1) with 256. change (256 ^ Z.of_nat 0) with 1. rewrite Z.div_1_r.
  f_equal; [|f_equal]; Z.to_euclidean_division_equations; lia.
Qed.

(** ** Claims *)

Lemma mod_points xs m : 1 <= m <= MOD_N -> Forall (fun x => 0 <= x < MOD_N) ((fun x => x mod m) <$> xs).
Proof.
  intros Hm. apply Forall_fmap, Forall_forall. intros x _. cbn. pose proof (Z.mod_pos_bound x m ltac:(lia)). lia.
Qed.

(** C31: a proof proves what it was built from.  For any chunk of distinct points
    with an injective modulus, [from_points] builds a proof (the points never
    collide in the field), the proof survives its byte format, and the verifier
    that evaluates it at the same points reads back every value, reduced modulo
    65497: exactly the value for every value below the prime.  The modulus is the
    largest that keeps the points distinct. *)
Theorem proof_reads_back (xs ys : list Z) (m : Z) :
  xs <> [] -> length ys = length xs -> injective_modulus xs = Ok m ->
  exists p b, from_points xs ys = Ok p /\ to_bytes p = Ok b /\ from_bytes b = Ok p /\ modulus p = m /\
    values_at p xs = Ok ((fun y => y mod MOD_N) <$> ys) /\
    (Forall (fun y => 0 <= y < MOD_N) ys -> values_at p xs = Ok ys) /\
    forall m', m < m' <= MOD_N -> ~ NoDup ((fun x => x mod m') <$> xs).
Proof.
  intros Hne Hl Hm. pose proof (injective_modulus_ok xs m Hm) as (Hr & Hnd & Hmax).
  destruct (newton_coefficients_ok ((fun x => x mod m) <$> xs) ys) as (cs & Hcs & Hlen & Hev).
  { destruct xs; done. }
  { by rewrite length_fmap. }
  { done. }
  { by apply mod_points. }
  rewrite length_fmap in Hlen.
  destruct (proof_bytes (ChunkProof m cs)) as (b & Hto & Hfrom); cbn [modulus coeffs].
  { done. }
  { intros ->. destruct xs; [done|]. cbn in Hlen. lia. }
  { by eapply newton_coefficients_reduced. }
  assert (values_at (ChunkProof m cs) xs = Ok ((fun y => y mod MOD_N) <$> ys)) as Hval by exact Hev.
  exists (ChunkProof m cs), b. unfold from_points. rewrite Hm, bind_ok, Hcs, bind_ok. split_and!; try done.
  intros Hys. rewrite Hval. f_equal. rewrite <- (list_fmap_id ys) at 2. apply list_fmap_ext.
  intros i y Hy. eapply Forall_lookup_1 in Hys; [|done]. by apply Z.mod_small.
Qed.

Lemma proof_reads_back_witness : exists p, from_points [70000; 3; 12] [100; 65000; 7] = Ok p /\
  values_at p [70000; 3; 12] = Ok [100; 65000; 7].
Proof.
  destruct (proof_reads_back [70000; 3; 12] [100; 65000; 7] MOD_N) as (p & b & H1 & _ & _ & _ & _ & H2 & _).
  - discriminate.
  - reflexivity.
  - vm_compute. reflexivity.
  - exists p. split; [exact H1|]. apply H2. repeat constructor; vm_compute; congruence.
Defined.

(** The byte format fails closed and is canonical.  Whatever bytes arrive,
    [from_bytes] either raises or gives a proof with a modulus in [1, 65497], at
    least one coefficient and every coefficient in the field, and that proof
    writes exactly the bytes that were read: no proof has two encodings. *)
Theorem proof_bytes_canonical (data : list Z) (p : chunk_proof) :
  Forall is_byte data -> from_bytes data = Ok p ->
  1 <= modulus p <= MOD_N /\ coeffs p <> [] /\ Forall reduced (coeffs p) /\ to_bytes p = Ok data.
Proof.
  intros Hb. unfold from_bytes.
  destruct (Z.ltb_spec (Z.of_nat (length data)) 4) as [|Hlen]; [done|]. cbn [orb].
  destruct (Z.eqb_spec (Z.of_nat (length data) mod 2) 0) as [Heven|]; [|done]. cbn [negb].
  destruct (Z.eqb_spec (of_bytes_be (take 2 data)) 0) as [|Hnz]; [done|].
  destruct (Z.ltb_spec MOD_N (of_bytes_be (take 2 data))) as [|Hle]; [done|].
  destruct (existsb _ _) eqn:Hex; [done|]. intros [= <-]. cbn [modulus coeffs].
  destruct data as [|x [|y rest]]; [cbn in Hlen; lia..|]. cbn [take drop] in *. rewrite drop_0, take_0 in *.
  apply Forall_cons in Hb as [Hx Hb]. apply Forall_cons in Hb as [Hy Hb].
  assert (Z.of_nat (length rest) mod 2 = 0) as Heven'.
  { cbn [length] in Heven. rewrite !Nat2Z.inj_succ in Heven.
    replace (Z.succ (Z.succ (Z.of_nat (length rest)))) with (Z.of_nat (length rest) + 1 * 2) in Heven by lia.
    by rewrite Z.mod_add in Heven. }
  destruct (concat_pairs rest Heven' Hb) as [Hcat Hnn].
  assert (of_bytes_be [x; y] = x * 256 + y) as Hm by done. unfold is_byte in Hx, Hy. rewrite Hm in Hnz, Hle.
  assert (Forall reduced (pairs rest)) as Hred.
  { apply Forall_forall. intros c Hc. split; [by eapply Forall_forall in Hnn|].
    apply Z.nle_gt. intros Hge. apply not_true_iff_false in Hex. apply Hex, existsb_exists. exists c.
    split; [by apply list_elem_of_In|by apply Z.leb_le]. }
  rewrite Hm. split; [lia|]. split; [|split; [done|]].
  { destruct rest as [|a [|b rest]]; [cbn in Hlen; lia|discriminate Heven'|done]. }
  assert (MOD_N = 65497) by done. unfold to_bytes. cbn [modulus coeffs].
  rewrite two_bytes_ok, bind_ok, to_bytes_coeffs, Hcat by (done || lia). do 2 f_equal.
  cbn [to_bytes_be app]. change (256 ^ Z.of_nat 1) with 256. change (256 ^ Z.of_nat 0) with 1. rewrite Z.div_1_r.
  f_equal; [|f_equal]; Z.to_euclidean_division_equations; lia.
Qed.

Lemma proof_bytes_canonical_witness :
  to_bytes (ChunkProof 258 [3; 4]) = Ok [1; 2; 0; 3; 0; 4].
Proof.
  apply (proof_bytes_canonical [1; 2; 0; 3; 0; 4] (ChunkProof 258 [3; 4])).
  - repeat constructor; vm_compute; congruence.
  - vm_compute. reflexivity.
Defined.

Lemma strict_verdict_true t rs : (strict_verdict t rs).1 = true <->
  Forall (fun r => exp_mismatches r <= exp_mismatch t /\ mant_err_mean r <= mant_mean t /\
                   mant_err_median r <= mant_median t) rs.
Proof.
  induction rs as [|r rs IH]; cbn [strict_verdict]; [done|]. rewrite Forall_cons, <- IH.
  destruct (Z.ltb_spec (exp_mismatch t) (exp_mismatches r)); [cbn; split; [done|lia]|].
  destruct (Z.ltb_spec (mant_mean t) (mant_err_mean r)); [cbn; split; [done|lia]|].
  destruct (Z.ltb_spec (mant_median t) (mant_err_median r)); [cbn; split; [done|lia]|]. tauto.
Qed.

(** The verdict on a sequence.  An empty sequence is refused; without an
    allowance the sequence passes exactly when every chunk is at or under all
    three thresholds; and with any allowance a passing sequence still has every
    mantissa error, of forgiven and kept chunks alike, at or under its threshold,
    and every chunk over the exponent threshold was paid for by the allowance. *)
Theorem sequence_verdict_exact (results : list chunk_result) (t : thresholds) :
  (sequence_verdict [] t).1 = false /\
  (min_allowed_failures t <= 0 -> ratio_allowed_failures t <= 0 ->
   (sequence_verdict results t).1 = true <->
   results <> [] /\ Forall (fun r => exp_mismatches r <= exp_mismatch t /\ mant_err_mean r <= mant_mean t /\
                                     mant_err_median r <= mant_median t) results) /\
  ((sequence_verdict results t).1 = true ->
   Forall (fun r => mant_err_mean r <= mant_mean t /\ mant_err_median r <= mant_median t) results /\
   let over := filter (fun r => exp_mismatch t < exp_mismatches r) results in
   over = [] \/ 0 <= foldl (fun a _ => fsub a fone)
     (Z.max (of_int (min_allowed_failures t)) (fmul (ratio_allowed_failures t) (of_int (Z.of_nat (length results))))) over).
Proof.
  split; [done|]. split.
  - intros H1 H2. unfold sequence_verdict. destruct results as [|r rs]; [cbn; naive_solver|].
    destruct (Z.ltb_spec 0 (min_allowed_failures t)); [lia|]. destruct (Z.ltb_spec 0 (ratio_allowed_failures t)); [lia|].
    cbn [orb]. rewrite strict_verdict_true. naive_solver.
  - unfold sequence_verdict. destruct results as [|r0 rs0]; [done|]. set (rs := r0 :: rs0).
    destruct ((0 <? min_allowed_failures t) || (0 <? ratio_allowed_failures t)).
    + cbv zeta. set (over := filter (fun r => exp_mismatch t < exp_mismatches r) rs).
      destruct (Z.ltb_spec (foldl (fun a _ => fsub a fone)
        (Z.max (of_int (min_allowed_failures t)) (fmul (ratio_allowed_failures t) (of_int (Z.of_nat (length rs))))) over) 0)
        as [|Hleft]; [done|].
      destruct (existsb (fun r => mant_mean t <? mant_err_mean r) over) eqn:E1; [done|].
      destruct (existsb (fun r => mant_median t <? mant_err_median r) over) eqn:E2; [done|].
      intros Hs%strict_verdict_true. split; [|by right]. apply Forall_forall. intros r Hr.
      destruct (Z.le_gt_cases (exp_mismatches r) (exp_mismatch t)) as [Hle|Hgt].
      * rewrite Forall_forall in Hs. apply Hs. apply list_elem_of_filter. done.
      * assert (r ∈ over) as Hin by (apply list_elem_of_filter; split; [lia|done]).
        apply list_elem_of_In in Hin. rewrite <- not_true_iff_false, existsb_exists in E1, E2. split.
        -- apply Z.nlt_ge. intros Hlt. apply E1. exists r. split; [done|]. by apply Z.ltb_lt.
        -- apply Z.nlt_ge. intros Hlt. apply E2. exists r. split; [done|]. by apply Z.ltb_lt.
    + intros Hs%strict_verdict_true. split; [eapply Forall_impl; [exact Hs|]; cbn; tauto|]. left.
      destruct (filter (fun r => exp_mismatch t < exp_mismatches r) rs) as [|r k] eqn:E; [done|]. exfalso.
      assert (r ∈ filter (fun r => exp_mismatch t < exp_mismatches r) rs) as [Hlt Hin]%list_elem_of_filter
        by (rewrite E; constructor).
      eapply Forall_forall in Hs; [|done]. lia.
Qed.
