(* ===== verification/Cooldown.v ===== *)
(** * Cooldown: prompts and contents that just earned emission

    Models [reliquary/validator/cooldown.py]: the map of the last rewarded window
    per prompt, and the same map keyed by content digest.  The operations the two
    classes share are written once, over any key ([Section entries]).  Saving to
    and loading from a file ([save], [load]) move [export_state] and
    [import_state] through JSON, whose keys are the decimal strings [json_keys]. *)

From S2P Require Import Prelude Bytes.

#[local] Open Scope Z_scope.

(** ** Validation *)

(** [_nonnegative_int]: [type(value) is int] refuses booleans. *)
Definition nonnegative_int (v : pyval) : result Z :=
  match v with VInt z => if z <? 0 then Raise ValueError else Ok z | _ => Raise ValueError end.

Definition is_digit (c : ascii) : bool :=
  let n := Z.of_nat (Ascii.nat_of_ascii c) in (48 <=? n) && (n <=? 57).
Fixpoint all_chars (f : ascii -> bool) (s : string) : bool :=
  match s with EmptyString => true | String c s' => f c && all_chars f s' end.

(** [_PROMPT_INDEX_RE]: [0] or digits with no leading zero. *)
Definition canonical_index (s : string) : bool :=
  match s with
  | EmptyString => false
  | String c s' =>
      if Ascii.eqb c "0" then String.eqb s' "" else is_digit c && all_chars is_digit s'
  end.

(** [_prompt_index] *)
Definition prompt_index (v : pyval) : result Z :=
  match v with
  | VInt _ => nonnegative_int v
  | VStr s => if canonical_index s then match py_int s with Some z => Ok z | None => Raise ValueError end
              else Raise ValueError
  | _ => Raise ValueError
  end.

(** [_SHA256_HEX_RE] *)
Definition is_lower_hex (c : ascii) : bool :=
  let n := Z.of_nat (Ascii.nat_of_ascii c) in is_digit c || ((97 <=? n) && (n <=? 102)).
Definition is_sha256_hex (s : string) : bool := (String.length s =? 64)%nat && all_chars is_lower_hex s.

(** A Python dictionary, or anything else. *)
Inductive pyobject := PyDict (items : list (pyval * pyval)) | PyOther.

Definition parse_prompt_cooldown_state (state : pyobject) : result (gmap Z Z) :=
  match state with
  | PyOther => Raise ValueError
  | PyDict items =>
      fold_result (fun restored '(raw_idx, raw_window) =>
        idx ← prompt_index raw_idx;
        if bool_decide (is_Some (restored !! idx)) then Raise ValueError
        else w ← nonnegative_int raw_window; Ok (<[idx := w]> restored)) ∅ items
  end.

Definition parse_content_cooldown_state (state : pyobject) : result (gmap string Z) :=
  match state with
  | PyOther => Raise ValueError
  | PyDict items =>
      fold_result (fun restored '(digest, window) =>
        match digest with
        | VStr d => if is_sha256_hex d then w ← nonnegative_int window; Ok (<[d := w]> restored) else Raise ValueError
        | _ => Raise ValueError
        end) ∅ items
  end.

(** ** The shared part of the two maps *)

Section entries.
Context {K : Type} `{Countable K}.

Record cmap := CMap { cooldown_windows : Z; entries : gmap K Z }.

(** [__init__] *)
Definition new_cmap (cw : Z) : result cmap := if cw <? 0 then Raise ValueError else Ok (CMap cw ∅).

Definition is_in_cooldown (k : K) (current_window : Z) (m : cmap) : bool :=
  if cooldown_windows m =? 0 then false
  else match entries m !! k with
       | None => false
       | Some last => current_window - last <? cooldown_windows m
       end.

Definition current_cooldown_set (current_window : Z) (m : cmap) : gset K :=
  if cooldown_windows m =? 0 then ∅
  else dom (filter (fun kv => current_window - kv.2 < cooldown_windows m) (entries m)).

(** [__len__] *)
Definition cmap_len (m : cmap) : Z := Z.of_nat (size (entries m)).

Definition with_cooldown_windows (v : pyval) (m : cmap) : result cmap :=
  cw ← nonnegative_int v; m' ← new_cmap cw; Ok (CMap (cooldown_windows m') (entries m)).

Definition export_state (through_window : option Z) (m : cmap) : gmap K Z :=
  match through_window with
  | None => entries m
  | Some t => filter (fun kv => kv.2 <= t) (entries m)
  end.

Definition set_entries (e : gmap K Z) (m : cmap) : cmap := CMap (cooldown_windows m) e.
End entries.
Arguments cmap _ {_ _}.

(** ** Prompts *)

Abbreviation prompt_map := (cmap Z).

Definition record_batched (idx window : Z) : method prompt_map unit := fun m =>
  if idx <? 0 then (Raise ValueError, m)
  else if window <? 0 then (Raise ValueError, m)
  else (Ok tt, set_entries (<[idx := window]> (entries m)) m).

Definition import_state (state : pyobject) : method prompt_map unit := fun m =>
  match parse_prompt_cooldown_state state with
  | Raise e => (Raise e, m)
  | Ok restored => (Ok tt, set_entries restored m)
  end.

(** The rewarded entries of one archived window: the batch and the runners-up
    that carry a true [rewarded]. *)
Definition rewarded_entries (record : pyval) : result (list pyval) :=
  batch ← (b ← py_get record "batch" (VList []); py_list b);
  runners ← (r ← py_get record "runners_up" (VList []); py_list r);
  rewarded ← fold_result (fun acc entry =>
               flag ← py_get entry "rewarded" (VBool false);
               Ok (if py_truth flag then acc ++ [entry] else acc)) [] runners;
  Ok (batch ++ rewarded).

Definition bump_window (idx w : Z) (updates : gmap Z Z) : gmap Z Z :=
  if default (-1) (updates !! idx) <? w then <[idx := w]> updates else updates.

Definition history_record (horizon : Z) (updates : gmap Z Z) (record : pyval) : result (gmap Z Z) :=
  w ← (v ← py_get record "window_start" VNone; nonnegative_int v);
  if w <=? horizon then Ok updates
  else
    es ← rewarded_entries record;
    fold_result (fun updates entry =>
      idx ← (v ← py_get entry "prompt_idx" VNone; nonnegative_int v);
      Ok (bump_window idx w updates)) updates es.

Definition history_updates (archived : list pyval) (current_window : Z) (m : prompt_map) : result (gmap Z Z) :=
  fold_result (history_record (current_window - cooldown_windows m)) ∅ archived.

(** [apply_history]: the whole history is validated before the live map moves. *)
Definition apply_history (archived : list pyval) (current_window : Z) : method prompt_map unit := fun m =>
  match history_updates archived current_window m with
  | Raise e => (Raise e, m)
  | Ok updates => (Ok tt, set_entries (map_fold bump_window (entries m) updates) m)
  end.

(** [rebuild_from_history]: the map is cleared first. *)
Definition rebuild_from_history (archived : list pyval) (current_window : Z) : method prompt_map unit := fun m =>
  apply_history archived current_window (set_entries ∅ m).

(** ** Contents *)

Abbreviation content_map := (cmap string).

Definition is_space (c : ascii) : bool :=
  let n := Z.of_nat (Ascii.nat_of_ascii c) in ((9 <=? n) && (n <=? 13)) || ((28 <=? n) && (n <=? 32)).
Fixpoint lstrip (s : string) : string :=
  match s with String c s' => if is_space c then lstrip s' else s | EmptyString => EmptyString end.
Definition reverse (s : string) : string :=
  String.string_of_list_ascii (rev (String.list_ascii_of_string s)).
Definition strip (s : string) : string := reverse (lstrip (reverse (lstrip s))).
Definition lower_char (c : ascii) : ascii :=
  let n := Z.of_nat (Ascii.nat_of_ascii c) in
  if (65 <=? n) && (n <=? 90) then Ascii.ascii_of_nat (Z.to_nat (n + 32)) else c.
Fixpoint lower (s : string) : string :=
  match s with EmptyString => EmptyString | String c s' => String (lower_char c) (lower s') end.

(** [_digest], on ASCII text. *)
Definition digest_of (value : string) : result string :=
  let d := lower (strip value) in if is_sha256_hex d then Ok d else Raise ValueError.

Definition record_selected (value : string) (window : Z) : method content_map unit := fun m =>
  if window <? 0 then (Raise ValueError, m)
  else match digest_of value with
       | Raise e => (Raise e, m)
       | Ok d => (Ok tt, set_entries (<[d := window]> (entries m)) m)
       end.

Definition content_in_cooldown (value : string) (current_window : Z) (m : content_map) : result bool :=
  if cooldown_windows m =? 0 then Ok false
  else d ← digest_of value; Ok (is_in_cooldown d current_window m).

Definition import_content_state (state : pyobject) : method content_map unit := fun m =>
  match parse_content_cooldown_state state with
  | Raise e => (Raise e, m)
  | Ok restored => (Ok tt, set_entries restored m)
  end.

Example digest_example :
  digest_of " BA7816BF8F01CFEA414140DE5DAE2223B00361A396177A9CB410FF61F20015AD
"
  = Ok "ba7816bf8f01cfea414140de5dae2223b00361a396177a9cb410ff61f20015ad"%string.
Proof. vm_compute. reflexivity. Qed.

(** ** The interval *)

Section interval.
Context {K : Type} `{Countable K}.

Lemma in_cooldown_iff (k : K) cur (m : cmap K) :
  is_in_cooldown k cur m = true <->
  cooldown_windows m <> 0 /\ exists last, entries m !! k = Some last /\ cur - last < cooldown_windows m.
Proof.
  unfold is_in_cooldown. destruct (Z.eqb_spec (cooldown_windows m) 0); [split; [done|tauto]|].
  destruct (entries m !! k) as [last|]; [|split; [done|]; intros (_ & ? & [=] & _)].
  destruct (Z.ltb_spec (cur - last) (cooldown_windows m)); split; try done.
  - intros _. split; [done|]. by exists last.
  - intros (_ & ? & [= <-] & ?). lia.
Qed.

Lemma cooldown_set_iff (k : K) cur (m : cmap K) :
  k ∈ current_cooldown_set cur m <-> is_in_cooldown k cur m = true.
Proof.
  rewrite in_cooldown_iff. unfold current_cooldown_set.
  destruct (Z.eqb_spec (cooldown_windows m) 0); [set_solver|].
  rewrite elem_of_dom. split.
  - intros [last [Hl Hc]%map_lookup_filter_Some]. eauto.
  - intros (_ & last & Hl & Hc). exists last. by apply map_lookup_filter_Some.
Qed.
End interval.

(** ** Archived history *)

Definition record_window (record : pyval) : result Z := v ← py_get record "window_start" VNone; nonnegative_int v.
Definition entry_index (entry : pyval) : result Z := v ← py_get entry "prompt_idx" VNone; nonnegative_int v.

(** An archived window [w] rewarded the prompt [idx]. *)
Definition rewards (record : pyval) (w idx : Z) : Prop :=
  record_window record = Ok w /\
  exists es e, rewarded_entries record = Ok es /\ e ∈ es /\ entry_index e = Ok idx.

Lemma nonnegative_int_ok v z : nonnegative_int v = Ok z -> 0 <= z.
Proof. destruct v; try done. cbn. destruct (Z.ltb_spec z0 0); [done|]. by intros [= <-]. Qed.

Lemma record_window_nonneg record w : record_window record = Ok w -> 0 <= w.
Proof. intros (v & _ & H%nonnegative_int_ok)%bind_ok_inv. done. Qed.

(** The updates hold the latest rewarded window past the horizon. *)
Definition latest (horizon : Z) (records : list pyval) (updates : gmap Z Z) : Prop :=
  forall idx,
    match updates !! idx with
    | Some u => (exists record, record ∈ records /\ rewards record u idx /\ horizon < u) /\
                forall record w, record ∈ records -> rewards record w idx -> horizon < w -> w <= u
    | None => forall record w, record ∈ records -> rewards record w idx -> ~ horizon < w
    end.

Lemma bump_lookup idx w u i : 0 <= w ->
  bump_window idx w u !! i =
  if bool_decide (i = idx) then Some (match u !! idx with Some x => Z.max x w | None => w end) else u !! i.
Proof.
  intros Hw. unfold bump_window. case_bool_decide as Hi; [subst i|].
  - destruct (u !! idx) as [x|] eqn:E; cbn;
      [destruct (Z.ltb_spec x w)|destruct (Z.ltb_spec (-1) w); [|lia]].
    + rewrite lookup_insert_eq. f_equal. lia.
    + rewrite E. f_equal. lia.
    + by rewrite lookup_insert_eq.
  - destruct (_ <? w); [by rewrite lookup_insert_ne by done|done].
Qed.

(** One record's entries. *)
Definition mentions (es : list pyval) (i : Z) : bool := existsb (fun e => bool_decide (entry_index e = Ok i)) es.

Lemma mentions_iff es i : mentions es i = true <-> exists e, e ∈ es /\ entry_index e = Ok i.
Proof.
  unfold mentions. rewrite existsb_exists. split; intros (e & He & Hi); exists e;
    rewrite ?list_elem_of_In in *; [apply bool_decide_eq_true in Hi|rewrite bool_decide_eq_true]; done.
Qed.

Lemma record_fold w es u0 u : 0 <= w ->
  fold_result (fun updates entry => idx ← entry_index entry; Ok (bump_window idx w updates)) u0 es = Ok u ->
  forall i, u !! i = if mentions es i then Some (match u0 !! i with Some x => Z.max x w | None => w end) else u0 !! i.
Proof.
  intros Hw. revert u0. induction es as [|e es IH]; intros u0; cbn [fold_result].
  - by intros [= <-].
  - intros (u1 & (idx & Hidx & [= <-])%bind_ok_inv & Hf)%bind_ok_inv i. rewrite (IH _ Hf), bump_lookup by done.
    unfold mentions. cbn [existsb]. fold (mentions es i). rewrite Hidx.
    destruct (decide (i = idx)) as [->|Hne].
    + rewrite !bool_decide_true by done. cbn [orb]. destruct (mentions es idx); [|done].
      destruct (u0 !! idx); f_equal; lia.
    + rewrite !bool_decide_false by congruence. done.
Qed.

Lemma latest_record horizon records record u u' :
  latest horizon records u -> history_record horizon u record = Ok u' -> latest horizon (records ++ [record]) u'.
Proof.
  intros Hl. unfold history_record. fold (record_window record).
  intros (w & Hw & H)%bind_ok_inv. pose proof (record_window_nonneg record w Hw) as Hpos.
  assert (forall r v i, r ∈ records ++ [record] -> rewards r v i ->
            r ∈ records \/ r = record /\ v = w) as Hcase.
  { intros r v i [Hr| ->%list_elem_of_singleton]%elem_of_app [Hv _]; [by left|right]. split; [done|]. congruence. }
  destruct (Z.leb_spec w horizon) as [Hle|Hgt].
  - injection H as <-. intros i. specialize (Hl i). destruct (u !! i) as [x|].
    + destruct Hl as [(r & Hr & Hrew) Hmax]. split; [exists r; split; [set_solver|done]|].
      intros r' v Hr' Hv Hh. destruct (Hcase r' v i Hr' Hv) as [Hin|[-> ->]]; [by eapply Hmax|lia].
    + intros r' v Hr' Hv Hh. destruct (Hcase r' v i Hr' Hv) as [Hin|[-> ->]]; [by eapply Hl|lia].
  - apply bind_ok_inv in H as (es & Hes & Hf). intros i.
    rewrite (record_fold w es u u' Hpos Hf). specialize (Hl i).
    destruct (mentions es i) eqn:Em.
    + apply mentions_iff in Em as (e & He & Hi).
      assert (rewards record w i) as Hnew by (split; [done|]; exists es, e; done).
      destruct (u !! i) as [x|].
      * destruct Hl as [(r & Hr & Hrew & Hh) Hmax]. split.
        -- destruct (Z.max_spec x w) as [[_ ->]|[_ ->]]; [exists record|exists r]; (split; [set_solver|]); done.
        -- intros r' v Hr' Hv Hh'. destruct (Hcase r' v i Hr' Hv) as [Hin|[-> ->]]; [|lia].
           specialize (Hmax r' v Hin Hv Hh'). lia.
      * split; [exists record; split; [set_solver|done]|].
        intros r' v Hr' Hv Hh'. destruct (Hcase r' v i Hr' Hv) as [Hin|[-> ->]]; [|lia].
        by destruct (Hl r' v Hin Hv).
    + assert (~ rewards record w i) as Hno.
      { intros (_ & es' & e & Hes' & He & Hi). apply not_true_iff_false in Em. apply Em, mentions_iff.
        exists e. assert (es' = es) as -> by congruence. done. }
      destruct (u !! i) as [x|].
      * destruct Hl as [(r & Hr & Hrew) Hmax]. split; [exists r; split; [set_solver|done]|].
        intros r' v Hr' Hv Hh'. destruct (Hcase r' v i Hr' Hv) as [Hin|[-> ->]]; [by eapply Hmax|done].
      * intros r' v Hr' Hv Hh'. destruct (Hcase r' v i Hr' Hv) as [Hin|[-> ->]]; [by eapply Hl|done].
Qed.

Lemma latest_history archived cur m u :
  history_updates archived cur m = Ok u -> latest (cur - cooldown_windows m) archived u.
Proof.
  unfold history_updates. set (h := cur - cooldown_windows m).
  enough (forall done_ u0, latest h done_ u0 -> fold_result (history_record h) u0 archived = Ok u ->
            latest h (done_ ++ archived) u) as E.
  { intros Hf. apply (E []  ∅); [|done]. intros i. rewrite lookup_empty. set_solver. }
  induction archived as [|r rs IH]; intros done_ u0 Hl; cbn [fold_result].
  - intros [= <-]. by rewrite app_nil_r.
  - intros (u1 & Hr & Hf)%bind_ok_inv. rewrite cons_middle, app_assoc. eapply IH; [|exact Hf].
    by eapply latest_record.
Qed.

(** Merging the updates keeps the later window of each prompt. *)
Lemma merge_lookup (e u : gmap Z Z) i : (forall j w, u !! j = Some w -> 0 <= w) ->
  map_fold bump_window e u !! i =
  match u !! i with Some w => Some (match e !! i with Some x => Z.max x w | None => w end) | None => e !! i end.
Proof.
  revert i. apply (map_fold_weak_ind (fun b m => forall i, (forall j w, m !! j = Some w -> 0 <= w) ->
    b !! i = match m !! i with Some w => Some (match e !! i with Some x => Z.max x w | None => w end)
                             | None => e !! i end)).
  - intros i _. by rewrite lookup_empty.
  - intros j w m b Hj IH i Hpos. rewrite bump_lookup by (eapply Hpos, lookup_insert_eq).
    assert (forall j' w', m !! j' = Some w' -> 0 <= w') as Hpos'.
    { intros j' w' Hj'. apply (Hpos j' w'). rewrite lookup_insert_ne; [done|]. congruence. }
    destruct (decide (i = j)) as [->|Hne].
    + rewrite bool_decide_true, lookup_insert_eq, IH, Hj by done. done.
    + rewrite bool_decide_false, lookup_insert_ne by done. by apply IH.
Qed.

(** ** Keys through JSON *)

Lemma uint_all_digits d : all_chars is_digit (DecimalString.NilEmpty.string_of_uint d) = true.
Proof. induction d; cbn; done. Qed.

Lemma pos_uint_head p : match Pos.to_uint p with Decimal.Nil | Decimal.D0 _ => False | _ => True end.
Proof.
  pose proof (DecimalPos.Unsigned.of_to p) as Hof. pose proof (DecimalPos.Unsigned.to_uint_nonnil p) as Hnil.
  pose proof (DecimalPos.Unsigned.to_of (Pos.to_uint p)) as Hto. rewrite Hof in Hto. cbn in Hto.
  destruct (Pos.to_uint p) as [|d|d|d|d|d|d|d|d|d|d]; try done.
  unfold Decimal.unorm in Hto. cbn in Hto. pose proof (DecimalFacts.nzhead_spec d) as Hn.
  assert (forall x, Decimal.nzhead d <> Decimal.D0 x) as Hz by (intros x; apply DecimalFacts.nzhead_nonzero).
  destruct (Decimal.nzhead d) as [|e|e|e|e|e|e|e|e|e|e]; try discriminate Hto.
  - injection Hto as ->. discriminate Hof.
  - by apply (Hz e).
Qed.

Lemma canonical_py_str z : 0 <= z -> canonical_index (py_str z) = true.
Proof.
  intros Hz. destruct z as [|p|p]; [reflexivity| |lia].
  unfold py_str. cbn [Z.to_int DecimalString.NilZero.string_of_int]. pose proof (pos_uint_head p) as Hh.
  destruct (Pos.to_uint p) as [|d|d|d|d|d|d|d|d|d|d]; try done; cbn; apply uint_all_digits.
Qed.

Lemma prompt_index_key z : 0 <= z -> prompt_index (VStr (py_str z)) = Ok z.
Proof. intros Hz. cbn [prompt_index]. by rewrite canonical_py_str, py_int_str by done. Qed.

(** A snapshot as Python holds it, and as JSON stores it. *)
Definition int_keys (e : gmap Z Z) : pyobject := PyDict ((fun kv => (VInt kv.1, VInt kv.2)) <$> map_to_list e).
Definition json_keys (e : gmap Z Z) : pyobject := PyDict ((fun kv => (VStr (py_str kv.1), VInt kv.2)) <$> map_to_list e).

Lemma nonnegative_int_VInt z : 0 <= z -> nonnegative_int (VInt z) = Ok z.
Proof. intros. cbn. destruct (Z.ltb_spec z 0); [lia|done]. Qed.

Lemma parse_items (f : Z -> pyval) (e : gmap Z Z) :
  (forall z, 0 <= z -> prompt_index (f z) = Ok z) -> (forall k w, e !! k = Some w -> 0 <= k /\ 0 <= w) ->
  parse_prompt_cooldown_state (PyDict ((fun kv => (f kv.1, VInt kv.2)) <$> map_to_list e)) = Ok e.
Proof.
  intros Hf He. cbn [parse_prompt_cooldown_state].
  assert (forall kvs (acc : gmap Z Z), NoDup kvs.*1 -> (forall k w, (k, w) ∈ kvs -> 0 <= k /\ 0 <= w) ->
    (forall k, k ∈ kvs.*1 -> acc !! k = None) ->
    fold_result (fun restored '(raw_idx, raw_window) =>
        idx ← prompt_index raw_idx;
        if bool_decide (is_Some (restored !! idx)) then Raise ValueError
        else w ← nonnegative_int raw_window; Ok (<[idx := w]> restored)) acc
      ((fun kv => (f kv.1, VInt kv.2)) <$> kvs) = Ok (list_to_map kvs ∪ acc)) as Hfold.
  { induction kvs as [|[k w] kvs IH]; intros acc Hnd Hpos Hnew; cbn [fmap list_fmap fold_result list_to_map foldr fst snd].
    - by rewrite (left_id_L ∅ (∪)).
    - apply NoDup_cons in Hnd as [Hk Hnd]. destruct (Hpos k w) as [Hk0 Hw0]; [set_solver|].
      rewrite Hf, bind_ok by done.
      rewrite bool_decide_false by (rewrite Hnew by (cbn; set_solver); by intros [? [=]]).
      rewrite nonnegative_int_VInt, !bind_ok by done. rewrite IH; [|done|..].
      + rewrite <- insert_union_l, <- insert_union_r; [done|]. by apply not_elem_of_list_to_map_1.
      + intros; apply Hpos; set_solver.
      + intros k' Hk'. rewrite lookup_insert_ne by set_solver. apply Hnew. cbn. set_solver. }
  rewrite Hfold.
  - by rewrite list_to_map_to_list, (right_id_L ∅ (∪)).
  - apply NoDup_fst_map_to_list.
  - intros k w Hkw%elem_of_map_to_list. by apply He.
  - intros. apply lookup_empty.
Qed.

(** ** Claims *)

(** The cooldown is the half-open interval the class documents.  After a prompt
    is recorded at a window, it is in cooldown at every later window strictly
    before [window + cooldown_windows] and eligible from there on; no other
    prompt's answer changes; and [current_cooldown_set] is the set of prompts
    [is_in_cooldown] answers for. *)
Theorem cooldown_interval (idx window : Z) (m m' : cmap Z) :
  record_batched idx window m = (Ok tt, m') -> 0 <= cooldown_windows m ->
  (forall cur, window <= cur ->
     is_in_cooldown idx cur m' = true <-> cur < window + cooldown_windows m) /\
  (forall j cur, j <> idx -> is_in_cooldown j cur m' = is_in_cooldown j cur m) /\
  forall j cur, j ∈ current_cooldown_set cur m' <-> is_in_cooldown j cur m' = true.
Proof.
  unfold record_batched. destruct (idx <? 0); [done|]. destruct (window <? 0); [done|]. intros [= <-] Hcw.
  split_and!.
  - intros cur Hcur. rewrite in_cooldown_iff. cbn [cooldown_windows entries set_entries]. rewrite lookup_insert_eq. split.
    + intros (_ & last & [= <-] & Hlt). lia.
    + intros Hlt. split; [lia|]. exists window. split; [done|lia].
  - intros j cur Hj. unfold is_in_cooldown. cbn [cooldown_windows entries set_entries].
    by rewrite lookup_insert_ne by done.
  - intros. apply cooldown_set_iff.
Qed.

Lemma cooldown_interval_witness :
  is_in_cooldown 7 14 (CMap 5 {[7 := 10]}) = true /\ is_in_cooldown 7 15 (CMap 5 {[7 := 10]}) = false.
Proof.
  destruct (cooldown_interval 7 10 (CMap 5 ∅) (CMap 5 {[7 := 10]}) eq_refl ltac:(cbn; lia)) as [H _].
  cbn [cooldown_windows] in H. split; [apply H; lia|]. apply not_true_iff_false. rewrite H by lia. lia.
Defined.

(** Durable snapshots.  A map of non-negative prompts and windows comes back
    from its exported state, through JSON or not, with exactly the entries up to
    the requested window; a snapshot that is not an object, or with a negative or
    boolean window, is refused and leaves the map as it was. *)
Theorem cooldown_state_roundtrip (m live : cmap Z) (t : Z) :
  (forall k w, entries m !! k = Some w -> 0 <= k /\ 0 <= w) ->
  import_state (json_keys (export_state None m)) live = (Ok tt, CMap (cooldown_windows live) (entries m)) /\
  import_state (int_keys (export_state (Some t) m)) live
    = (Ok tt, CMap (cooldown_windows live) (filter (fun kv => kv.2 <= t) (entries m))) /\
  import_state PyOther live = (Raise ValueError, live) /\
  forall k b rest, import_state (PyDict ((k, VBool b) :: rest)) live = (Raise ValueError, live).
Proof.
  intros Hm. unfold import_state, json_keys, int_keys, export_state. split_and!.
  - rewrite (parse_items (fun z => VStr (py_str z))); [done|apply prompt_index_key|done].
  - rewrite (parse_items VInt); [done|apply nonnegative_int_VInt|].
    intros k w [Hk _]%map_lookup_filter_Some. by apply Hm.
  - done.
  - intros k b rest. cbn [parse_prompt_cooldown_state fold_result].
    destruct (prompt_index k) as [z|e] eqn:E; cbn; [done|].
    destruct k; try (cbn in E; congruence); cbn in E.
    + destruct (z <? 0); congruence.
    + destruct (canonical_index s); [destruct (py_int s)|]; congruence.
Qed.

Lemma cooldown_state_roundtrip_witness :
  import_state (json_keys {[7 := 10]}) (CMap 5 ∅) = (Ok tt, CMap 5 {[7 := 10]}).
Proof.
  refine (proj1 (cooldown_state_roundtrip (CMap 5 {[7 := 10]}) (CMap 5 ∅) 0 _)).
  intros k w H. change (({[7 := 10]} : gmap Z Z) !! k = Some w) in H. apply lookup_singleton_Some in H as [<- <-]. lia.
Defined.

(** History.  When every archived window is readable, [apply_history] puts a
    prompt in cooldown now exactly when it was already, or when some archived
    window within the horizon rewarded it (in the batch or as a rewarded
    runner-up), whatever the order of the archives; when any of them is not, the
    live map is untouched. *)
Theorem history_exact (archived : list pyval) (cur : Z) (m m' : cmap Z) (r : result unit) :
  0 < cooldown_windows m -> apply_history archived cur m = (r, m') ->
  match r with
  | Raise _ => m' = m
  | Ok _ => forall idx, is_in_cooldown idx cur m' = true <->
      is_in_cooldown idx cur m = true \/
      exists record w, record ∈ archived /\ rewards record w idx /\ cur - cooldown_windows m < w
  end.
Proof.
  intros Hcw. unfold apply_history. destruct (history_updates archived cur m) as [u|e] eqn:Hu; intros [= <- <-]; [|done].
  pose proof (latest_history archived cur m u Hu) as Hl. intros idx. rewrite !in_cooldown_iff.
  cbn [cooldown_windows entries set_entries]. rewrite merge_lookup.
  2: { intros j w Hj. specialize (Hl j). rewrite Hj in Hl. destruct Hl as [(rec & _ & [Hw _] & _) _].
       by eapply record_window_nonneg. }
  specialize (Hl idx). destruct (u !! idx) as [w|].
  - destruct Hl as [(rec & Hin & Hrew & Hh) Hmax]. split.
    + intros _. right. eauto.
    + intros _. split; [lia|]. eexists. split; [done|]. destruct (entries m !! idx); lia.
  - split.
    + intros H. left. done.
    + intros [H|(rec & w & Hin & Hrew & Hh)]; [done|]. by destruct (Hl rec w Hin Hrew).
Qed.

Definition w_archive : pyval :=
  VDict [("window_start"%string, VInt 12);
         ("batch"%string, VList [VDict [("prompt_idx"%string, VInt 3)]]);
         ("runners_up"%string, VList [VDict [("prompt_idx"%string, VInt 4); ("rewarded"%string, VBool true)];
                                      VDict [("prompt_idx"%string, VInt 5)]])].

Lemma history_exact_witness :
  is_in_cooldown 4 14 (apply_history [w_archive] 14 (CMap 5 ∅)).2 = true.
Proof.
  apply (history_exact [w_archive] 14 (CMap 5 ∅) (apply_history [w_archive] 14 (CMap 5 ∅)).2 (Ok tt)); [cbn; lia|reflexivity|].
  right. exists w_archive, 12. split; [constructor|]. split; [|cbn; lia]. split; [reflexivity|].
  eexists _, (VDict [("prompt_idx"%string, VInt 4); ("rewarded"%string, VBool true)]).
  split; [reflexivity|]. split; [set_solver|reflexivity].
Defined.

(** A history that cannot be read leaves a rebuilt map empty: it is cleared before
    the history is validated. *)
Lemma rebuild_unreadable_clears (m : cmap Z) cur :
  rebuild_from_history [VDict []] cur m = (Raise ValueError, CMap (cooldown_windows m) ∅).
Proof. reflexivity. Qed.
