(* ===== verification/Dedup.v ===== *)
(** * Dedup: content hashes and the set of rollouts already paid

    Models [reliquary/validator/dedup.py].  A digest is the list of its 32 bytes;
    archives are JSON values, since the code validates every shape it reads. *)

From S2P Require Import Prelude Bytes Sha256 Cooldown.

#[local] Open Scope Z_scope.

(** ** Hashes *)

(** [_uint_bytes]: a boolean, a negative or a too wide number is refused. *)
Definition uint_bytes (width : nat) (v : pyval) : result (list Z) :=
  match v with
  | VInt z => if z <? 0 then Raise ValueError
              else if z <? 256 ^ Z.of_nat width then Ok (to_bytes_be width z) else Raise ValueError
  | _ => Raise ValueError
  end.

Definition length_prefixed (b : list Z) : result (list Z) :=
  n ← uint_bytes 4 (VInt (Z.of_nat (length b))); Ok (n ++ b).

Definition LOGICAL_GROUP_DOMAIN : list Z := encode "reliquary/logical-group/v1" ++ [0].

Record rollout := Rollout { env_name : pyval; commit : pyval }.
Record request := Request { prompt_idx : pyval; rollouts : list rollout }.

(** [commit["tokens"]]: a missing key or a value that is not an object raises. *)
Definition commit_tokens (c : pyval) : result (list pyval) :=
  match c with
  | VDict d =>
      if existsb (fun kv => String.eqb kv.1 "tokens") d then
        match dict_get "tokens" d with VList l => Ok l | _ => Raise ValueError end
      else Raise ValueError
  | _ => Raise ValueError
  end.

Definition token_bytes (tokens : list pyval) : result (list Z) :=
  fold_result (fun acc t => b ← uint_bytes 4 t; Ok (acc ++ b)) [] tokens.

Definition rollout_bytes (index : Z) (r : rollout) : result (list Z) :=
  i ← uint_bytes 4 (VInt index);
  name ← match env_name r with VStr s => length_prefixed (encode s) | _ => Raise ValueError end;
  tokens ← commit_tokens (commit r);
  n ← uint_bytes 4 (VInt (Z.of_nat (length tokens)));
  ts ← token_bytes tokens;
  Ok (i ++ name ++ n ++ ts).

Fixpoint rollouts_bytes (index : Z) (rs : list rollout) : result (list Z) :=
  match rs with
  | [] => Ok []
  | r :: rs' => b ← rollout_bytes index r; rest ← rollouts_bytes (index + 1) rs'; Ok (b ++ rest)
  end.

(** The bytes [compute_logical_group_hash] feeds to the hash, in order. *)
Definition group_preimage (q : request) : result (list Z) :=
  p ← uint_bytes 8 (prompt_idx q);
  n ← uint_bytes 4 (VInt (Z.of_nat (length (rollouts q))));
  rs ← rollouts_bytes 0 (rollouts q);
  Ok (LOGICAL_GROUP_DOMAIN ++ p ++ n ++ rs).
Definition compute_logical_group_hash (q : request) : result (list Z) := b ← group_preimage q; Ok (sha256 b).

Definition compute_rollout_hash (tokens : list pyval) : result (list Z) := b ← token_bytes tokens; Ok (sha256 b).

(** ** Hexadecimal digests *)

Definition hex_value (c : ascii) : Z :=
  let n := Z.of_nat (Ascii.nat_of_ascii c) in if n <=? 57 then n - 48 else n - 87.
(** [bytes.fromhex] of lowercase digits. *)
Fixpoint fromhex (s : string) : list Z :=
  match s with
  | String a (String b s') => hex_value a * 16 + hex_value b :: fromhex s'
  | _ => []
  end.

Definition canonical_rollout_digest (v : pyval) : result (list Z) :=
  match v with VStr s => if is_sha256_hex s then Ok (fromhex s) else Raise ValueError | _ => Raise ValueError end.

(** ** The set *)

Record hash_set := HashSet { retention_windows : Z; hashes : gmap (list Z) Z }.

Definition new_hash_set (r : Z) : result hash_set := if r <? 0 then Raise ValueError else Ok (HashSet r ∅).

(** The dictionary update of [add] and [remember]: the most recent window stays. *)
Definition remember (h : list Z) (window : Z) (m : gmap (list Z) Z) : gmap (list Z) Z :=
  if default (-1) (m !! h) <? window then <[h := window]> m else m.

Definition add (h : list Z) (window : Z) : method hash_set unit := fun s =>
  if window <? 0 then (Raise ValueError, s)
  else (Ok tt, HashSet (retention_windows s) (remember h window (hashes s))).

(** [__contains__] and [__len__] *)
Definition contains (h : list Z) (s : hash_set) : bool := bool_decide (is_Some (hashes s !! h)).
Definition set_len (s : hash_set) : Z := Z.of_nat (size (hashes s)).

Definition prune (current_window : Z) (s : hash_set) : hash_set :=
  if retention_windows s =? 0 then HashSet (retention_windows s) ∅
  else HashSet (retention_windows s)
         (filter (fun kv => current_window - retention_windows s < kv.2) (hashes s)).

Definition export_state (s : hash_set) : pyobject :=
  PyDict ((fun kv => (VStr (hex kv.1), VInt kv.2)) <$> map_to_list (hashes s)).

Definition parse_item (through_window : Z) (parsed : gmap (list Z) Z) (item : pyval * pyval) : result (gmap (list Z) Z) :=
  digest ← canonical_rollout_digest item.1;
  match item.2 with
  | VInt w => if (0 <=? w) && (w <=? through_window) then Ok (<[digest := w]> parsed) else Raise ValueError
  | _ => Raise ValueError
  end.
Definition import_state (state : pyobject) (through_window : Z) : method hash_set unit := fun s =>
  match state with
  | PyOther => (Raise ValueError, s)
  | PyDict items =>
      match fold_result (parse_item through_window) ∅ items with
      | Raise e => (Raise e, s)
      | Ok parsed => (Ok tt, prune through_window (HashSet (retention_windows s) parsed))
      end
  end.

(** ** History *)

Definition as_dict (v : pyval) : result (list (string * pyval)) :=
  match v with VDict d => Ok d | _ => Raise ValueError end.
Definition as_list (v : pyval) : result (list pyval) :=
  match v with VList l => Ok l | _ => Raise ValueError end.

(** The digest of one archived rollout: its tokens', checked against a stored one. *)
Definition archived_digest (v : pyval) : result (list Z) :=
  d ← as_dict v;
  tokens ← as_list (dict_get "tokens" d);
  computed ← compute_rollout_hash tokens;
  if existsb (fun kv => String.eqb kv.1 "hash") d then
    stored ← canonical_rollout_digest (dict_get "hash" d);
    if bool_decide (stored = computed) then Ok stored else Raise ValueError
  else Ok computed.

Definition batch_digests (sub : pyval) : result (list (list Z)) :=
  d ← as_dict sub;
  rs ← as_list (dict_get_or "rollouts" d (VList []));
  fold_result (fun acc r => h ← archived_digest r; Ok (acc ++ [h])) [] rs.

Definition runner_digests (sub : pyval) : result (list (list Z)) :=
  d ← as_dict sub;
  if py_truth (dict_get_or "rewarded" d (VBool false)) then
    hs ← as_list (dict_get_or "rollout_hashes" d (VList []));
    fold_result (fun acc v => h ← canonical_rollout_digest v; Ok (acc ++ [h])) [] hs
  else Ok [].

(** Every digest one archive remembers, in the code's order. *)
Definition archive_digests (d : list (string * pyval)) : result (list (list Z)) :=
  batch ← as_list (dict_get_or "batch" d (VList []));
  bs ← fold_result (fun acc sub => h ← batch_digests sub; Ok (acc ++ h)) [] batch;
  runners ← as_list (dict_get_or "runners_up" d (VList []));
  rs ← fold_result (fun acc sub => h ← runner_digests sub; Ok (acc ++ h)) [] runners;
  Ok (bs ++ rs).

Definition archive_window (d : list (string * pyval)) : result Z :=
  match dict_get "window_start" d with VInt w => if w <? 0 then Raise ValueError else Ok w | _ => Raise ValueError end.

Definition restore_archive (horizon : Z) (restored : gmap (list Z) Z) (archive : pyval) : result (gmap (list Z) Z) :=
  d ← as_dict archive;
  w ← archive_window d;
  if w <=? horizon then Ok restored
  else hs ← archive_digests d; Ok (foldl (fun m h => remember h w m) restored hs).

Definition rebuild_from_history (archives : list pyval) (current_window : Z) : method hash_set unit := fun s =>
  match fold_result (restore_archive (current_window - retention_windows s)) ∅ archives with
  | Raise e => (Raise e, s)
  | Ok restored => (Ok tt, HashSet (retention_windows s) restored)
  end.

(** [apply_history]: rebuilt aside, then merged with [add]. *)
Definition apply_history (archives : list pyval) (current_window : Z) : method hash_set unit := fun s =>
  match rebuild_from_history archives current_window s with
  | (Raise e, s') => (Raise e, s')
  | (Ok _, s') => (Ok tt, HashSet (retention_windows s) (map_fold remember (hashes s) (hashes s')))
  end.

(** ** The encoding is injective *)

Lemma uint_bytes_ok w v b : uint_bytes w v = Ok b ->
  exists z, v = VInt z /\ 0 <= z < 256 ^ Z.of_nat w /\ b = to_bytes_be w z.
Proof.
  destruct v; try done. cbn. destruct (Z.ltb_spec z 0); [done|].
  destruct (Z.ltb_spec z (256 ^ Z.of_nat w)); [|done]. intros [= <-]. exists z. split; [done|]. split; [lia|done].
Qed.

Lemma uint_bytes_length w v b : uint_bytes w v = Ok b -> length b = w.
Proof. intros (z & -> & _ & ->)%uint_bytes_ok. apply length_to_bytes_be. Qed.

Lemma uint_bytes_inj w v v' b : uint_bytes w v = Ok b -> uint_bytes w v' = Ok b -> v = v'.
Proof.
  intros (z & -> & Hz & ->)%uint_bytes_ok (z' & -> & Hz' & E)%uint_bytes_ok. f_equal. by apply (to_bytes_be_inj w).
Qed.

Lemma token_bytes_ok tokens b : token_bytes tokens = Ok b ->
  exists zs, tokens = VInt <$> zs /\ Forall (fun t => 0 <= t < 2 ^ 32) zs /\ b = concat (to_bytes_be 4 <$> zs).
Proof.
  unfold token_bytes. enough (forall acc, fold_result (fun acc t => b ← uint_bytes 4 t; Ok (acc ++ b)) acc tokens = Ok b ->
    exists zs, tokens = VInt <$> zs /\ Forall (fun t => 0 <= t < 2 ^ 32) zs /\ b = acc ++ concat (to_bytes_be 4 <$> zs))
    as E by apply E.
  induction tokens as [|t tokens IH]; intros acc; cbn [fold_result].
  - intros [= <-]. exists []. split_and!; [done|constructor|]. by rewrite app_nil_r.
  - intros (acc' & (w & (z & -> & Hz & ->)%uint_bytes_ok & [= <-])%bind_ok_inv & Hf)%bind_ok_inv.
    apply IH in Hf as (zs & -> & Hzs & ->). exists (z :: zs). split; [done|]. split; [by constructor|].
    cbn. by rewrite <- app_assoc.
Qed.

(** What the hash binds of a rollout. *)
Definition rollout_content (r : rollout) : option (pyval * list pyval) :=
  match commit_tokens (commit r) with Ok ts => Some (env_name r, ts) | Raise _ => None end.

(** Splitting off a field of known length. *)
Lemma app_field (a a' x x' : list Z) : length a = length a' -> a ++ x = a' ++ x' -> a = a' /\ x = x'.
Proof. intros Hl E. by apply app_inj_1 in E. Qed.

Lemma length_prefixed_inj b b' p p' x x' :
  length_prefixed b = Ok p -> length_prefixed b' = Ok p' -> p ++ x = p' ++ x' -> b = b' /\ x = x'.
Proof.
  intros (n & Hn & [= <-])%bind_ok_inv (n' & Hn' & [= <-])%bind_ok_inv E. rewrite <- !app_assoc in E.
  apply app_field in E as [-> E]; [|by rewrite (uint_bytes_length _ _ _ Hn), (uint_bytes_length _ _ _ Hn')].
  pose proof (uint_bytes_inj _ _ _ _ Hn Hn') as Hl. injection Hl as Hl%(inj Z.of_nat). by apply app_field.
Qed.

Lemma rollout_bytes_inj i i' r r' b b' x x' :
  rollout_bytes i r = Ok b -> rollout_bytes i' r' = Ok b' -> b ++ x = b' ++ x' ->
  rollout_content r = rollout_content r' /\ x = x'.
Proof.
  unfold rollout_bytes, rollout_content.
  intros (bi & Hi & (bn & Hn & (ts & Hts & (bl & Hl & (bt & Ht & [= <-])%bind_ok_inv)%bind_ok_inv)%bind_ok_inv)%bind_ok_inv)%bind_ok_inv.
  intros (bi' & Hi' & (bn' & Hn' & (ts' & Hts' & (bl' & Hl' & (bt' & Ht' & [= <-])%bind_ok_inv)%bind_ok_inv)%bind_ok_inv)%bind_ok_inv)%bind_ok_inv.
  rewrite <- !app_assoc. intros E.
  apply app_field in E as [_ E]; [|by rewrite (uint_bytes_length _ _ _ Hi), (uint_bytes_length _ _ _ Hi')].
  destruct (env_name r) as [| | | |s| |]; try done. destruct (env_name r') as [| | | |s'| |]; try done.
  destruct (length_prefixed_inj _ _ _ _ _ _ Hn Hn' E) as [->%encode_inj E2].
  apply app_field in E2 as [-> E2]; [|by rewrite (uint_bytes_length _ _ _ Hl), (uint_bytes_length _ _ _ Hl')].
  pose proof (uint_bytes_inj _ _ _ _ Hl Hl') as Hlen. injection Hlen as Hlen%(inj Z.of_nat).
  apply token_bytes_ok in Ht as (zs & -> & Hzs & ->). apply token_bytes_ok in Ht' as (zs' & -> & Hzs' & ->).
  rewrite !length_fmap in Hlen.
  apply app_field in E2 as [E2 ->]; [|rewrite !length_words; lia].
  apply words_inj in E2 as ->; [|done..]. rewrite Hts, Hts'. done.
Qed.

Lemma rollouts_bytes_inj i i' rs rs' b : length rs = length rs' ->
  rollouts_bytes i rs = Ok b -> rollouts_bytes i' rs' = Ok b ->
  rollout_content <$> rs = rollout_content <$> rs'.
Proof.
  revert i i' rs' b. induction rs as [|r rs IH]; intros i i' [|r' rs'] b Hl; try done.
  injection Hl as Hl. cbn [rollouts_bytes].
  intros (b1 & H1 & (b2 & H2 & [= <-])%bind_ok_inv)%bind_ok_inv (b1' & H1' & (b2' & H2' & E)%bind_ok_inv)%bind_ok_inv.
  apply (inj Ok) in E. symmetry in E. destruct (rollout_bytes_inj _ _ _ _ _ _ _ _ H1 H1' E) as [Hc ->].
  cbn. rewrite Hc. f_equal. by eapply IH.
Qed.

(** ** Hexadecimal round trip *)

Lemma hex_digit_facts n : 0 <= n < 16 -> hex_value (hex_digit n) = n /\ is_lower_hex (hex_digit n) = true.
Proof.
  intros Hn. assert (forallb (fun i => (hex_value (hex_digit i) =? i) && is_lower_hex (hex_digit i)) (seqZ 0 16) = true) as H
    by (vm_compute; reflexivity).
  rewrite forallb_forall in H. specialize (H n ltac:(apply list_elem_of_In, elem_of_seqZ; lia)).
  apply andb_true_iff in H as [H1%Z.eqb_eq H2]. done.
Qed.

Lemma hex_facts b : Forall is_byte b ->
  fromhex (hex b) = b /\ all_chars is_lower_hex (hex b) = true /\ String.length (hex b) = (2 * length b)%nat.
Proof.
  induction 1 as [|x b Hx _ (IH1 & IH2 & IH3)]; [done|]. unfold is_byte in Hx.
  destruct (hex_digit_facts (x / 16)) as [H1 H2]; [Z.to_euclidean_division_equations; lia|].
  destruct (hex_digit_facts (x mod 16)) as [H3 H4]; [Z.to_euclidean_division_equations; lia|].
  cbn [hex foldr fromhex all_chars String.length length]. fold (hex b). rewrite H1, H2, H3, H4, IH1, IH2, IH3.
  split; [f_equal; Z.to_euclidean_division_equations; lia|]. split; [done|lia].
Qed.

Lemma canonical_digest_hex b : Forall is_byte b -> length b = 32%nat -> canonical_rollout_digest (VStr (hex b)) = Ok b.
Proof.
  intros Hb Hl. destruct (hex_facts b Hb) as (H1 & H2 & H3). cbn [canonical_rollout_digest].
  unfold is_sha256_hex. rewrite H2, H3, Hl. cbn. by rewrite H1.
Qed.

(** ** The retained hashes *)

Record good_hashes (through : Z) (m : gmap (list Z) Z) : Prop := {
  good_key : forall h w, m !! h = Some w -> Forall is_byte h /\ length h = 32%nat;
  good_window : forall h w, m !! h = Some w -> 0 <= w <= through;
}.

Lemma remember_lookup h w m k : 0 <= w ->
  remember h w m !! k = if bool_decide (k = h) then Some (match m !! h with Some x => Z.max x w | None => w end) else m !! k.
Proof.
  intros Hw. unfold remember. case_bool_decide as Hi; [subst k|].
  - destruct (m !! h) as [x|] eqn:E; cbn;
      [destruct (Z.ltb_spec x w)|destruct (Z.ltb_spec (-1) w); [|lia]].
    + rewrite lookup_insert_eq. f_equal. lia.
    + rewrite E. f_equal. lia.
    + by rewrite lookup_insert_eq.
  - destruct (_ <? w); [by rewrite lookup_insert_ne by done|done].
Qed.

Lemma remember_some h w m k : 0 <= w -> is_Some (remember h w m !! k) <-> k = h \/ is_Some (m !! k).
Proof.
  intros Hw. rewrite remember_lookup by done. case_bool_decide as Hk; [subst|].
  - split; [by left|]. intros _. eauto.
  - tauto.
Qed.

Lemma remember_all_some w hs m k : 0 <= w ->
  is_Some (foldl (fun m h => remember h w m) m hs !! k) <-> k ∈ hs \/ is_Some (m !! k).
Proof.
  intros Hw. revert m. induction hs as [|h hs IH]; intros m; cbn [foldl].
  - rewrite elem_of_nil. tauto.
  - rewrite IH, remember_some, elem_of_cons by done. tauto.
Qed.

Lemma prune_contains h cur s : 0 <= retention_windows s -> (forall w, hashes s !! h = Some w -> w <= cur) ->
  contains h (prune cur s) = true <->
  exists w, hashes s !! h = Some w /\ cur - w < retention_windows s.
Proof.
  intros Hr Hw. unfold contains, prune. rewrite bool_decide_eq_true.
  destruct (Z.eqb_spec (retention_windows s) 0) as [E|E]; cbn [hashes].
  - rewrite lookup_empty. split; [by intros [? [=]]|]. intros (w & Hh & Hlt). specialize (Hw w Hh). lia.
  - split.
    + intros [w [Hh Hlt]%map_lookup_filter_Some]. cbn in Hlt. exists w. split; [done|lia].
    + intros (w & Hh & Hlt). exists w. apply map_lookup_filter_Some. split; [done|]. cbn. lia.
Qed.

(** ** History *)

(** An archive within the horizon holds the digest. *)
Definition archived_in (horizon : Z) (h : list Z) (archive : pyval) : Prop :=
  exists d w hs, archive = VDict d /\ archive_window d = Ok w /\ horizon < w /\ archive_digests d = Ok hs /\ h ∈ hs.

Lemma archive_window_nonneg d w : archive_window d = Ok w -> 0 <= w.
Proof.
  unfold archive_window. destruct (dict_get "window_start" d); try done. destruct (Z.ltb_spec z 0); [done|].
  by intros [= <-].
Qed.

Lemma restore_archive_some horizon m a m' k : restore_archive horizon m a = Ok m' ->
  is_Some (m' !! k) <-> is_Some (m !! k) \/ archived_in horizon k a.
Proof.
  unfold restore_archive. intros (d & Hd & (w & Hw & H)%bind_ok_inv)%bind_ok_inv.
  destruct a as [| | | | | |d']; try done. injection Hd as ->. pose proof (archive_window_nonneg d w Hw) as Hpos.
  destruct (Z.leb_spec w horizon).
  - injection H as <-. split; [by left|]. intros [?|(? & w' & hs & [= <-] & Hw' & Hlt & _)]; [done|].
    assert (w' = w) as -> by congruence. lia.
  - apply bind_ok_inv in H as (hs & Hhs & [= <-]). rewrite remember_all_some by done. split.
    + intros [Hin|?]; [right|by left]. exists d, w, hs. done.
    + intros [?|(? & w' & hs' & [= <-] & Hw' & Hlt & Hhs' & Hin)]; [by right|left].
      assert (hs' = hs) as -> by congruence. done.
Qed.

Lemma restore_all horizon archives m m' k : fold_result (restore_archive horizon) m archives = Ok m' ->
  is_Some (m' !! k) <-> is_Some (m !! k) \/ exists a, a ∈ archives /\ archived_in horizon k a.
Proof.
  revert m. induction archives as [|a archives IH]; intros m; cbn [fold_result].
  - intros [= <-]. split; [by left|]. intros [?|(a & []%not_elem_of_nil & _)]. done.
  - intros (m1 & Ha & Hf)%bind_ok_inv. rewrite (IH _ Hf), (restore_archive_some _ _ _ _ _ Ha).
    setoid_rewrite elem_of_cons. split.
    + intros [[?|?]|(a' & ? & ?)]; eauto.
    + intros [?|(a' & [->|?] & ?)]; eauto.
Qed.

Lemma restored_nonneg horizon archives m m' :
  (forall k w, m !! k = Some w -> 0 <= w) -> fold_result (restore_archive horizon) m archives = Ok m' ->
  forall k w, m' !! k = Some w -> 0 <= w.
Proof.
  revert m. induction archives as [|a archives IH]; intros m Hm; cbn [fold_result]; [by intros [= <-]|].
  intros (m1 & Ha & Hf)%bind_ok_inv. apply (IH m1); [|done]. clear IH Hf.
  unfold restore_archive in Ha. apply bind_ok_inv in Ha as (d & _ & (w & Hw & H)%bind_ok_inv).
  destruct (w <=? horizon); [by injection H as <-|]. apply bind_ok_inv in H as (hs & _ & [= <-]).
  apply archive_window_nonneg in Hw. revert m Hm. induction hs as [|h hs IH]; intros m Hm; cbn [foldl]; [done|].
  apply IH. intros k x. rewrite remember_lookup by done. case_bool_decide; [|apply Hm].
  intros [= <-]. destruct (m !! h) eqn:E; [apply Hm in E|]; lia.
Qed.

Lemma merge_some (m u : gmap (list Z) Z) k : (forall j w, u !! j = Some w -> 0 <= w) ->
  is_Some (map_fold remember m u !! k) <-> is_Some (m !! k) \/ is_Some (u !! k).
Proof.
  apply (map_fold_weak_ind (fun b u => (forall j w, u !! j = Some w -> 0 <= w) ->
    is_Some (b !! k) <-> is_Some (m !! k) \/ is_Some (u !! k))).
  - intros _. rewrite lookup_empty. split; [by left|]. intros [?|[? [=]]]. done.
  - intros j w u' b Hj IH Hpos. rewrite remember_some by (eapply Hpos, lookup_insert_eq).
    rewrite IH by (intros j' w' Hj'; apply (Hpos j' w'); rewrite lookup_insert_ne; [done|congruence]).
    destruct (decide (k = j)) as [->|Hne].
    + rewrite lookup_insert_eq. split; [right; eauto|by left].
    + rewrite lookup_insert_ne by done. tauto.
Qed.

(** ** Claims *)

(** The economic identity of a group is bound.  Two submitted groups that feed
    the same bytes to the hash have the same prompt, the same number of rollouts,
    and, rollout by rollout, the same environment and the same tokens; the fields
    the hash leaves out are the only ones free to differ. *)
Theorem group_hash_binds (q q' : request) (b : list Z) :
  group_preimage q = Ok b -> group_preimage q' = Ok b ->
  prompt_idx q = prompt_idx q' /\ rollout_content <$> rollouts q = rollout_content <$> rollouts q'.
Proof.
  intros (p & Hp & (n & Hn & (rs & Hrs & <-%(inj Ok))%bind_ok_inv)%bind_ok_inv)%bind_ok_inv.
  intros (p' & Hp' & (n' & Hn' & (rs' & Hrs' & E)%bind_ok_inv)%bind_ok_inv)%bind_ok_inv.
  apply (inj Ok) in E. apply app_inv_head in E.
  apply app_field in E as [-> E]; [|by rewrite (uint_bytes_length _ _ _ Hp), (uint_bytes_length _ _ _ Hp')].
  apply app_field in E as [-> ->]; [|by rewrite (uint_bytes_length _ _ _ Hn), (uint_bytes_length _ _ _ Hn')].
  split; [by eapply uint_bytes_inj|].
  pose proof (uint_bytes_inj _ _ _ _ Hn Hn') as Hl. injection Hl as Hl%(inj Z.of_nat).
  by eapply rollouts_bytes_inj.
Qed.

Definition w_request (nonce : Z) : request :=
  Request (VInt 7) [Rollout (VStr "math") (VDict [("tokens"%string, VList [VInt 1; VInt 2]); ("nonce"%string, VInt nonce)])].

Lemma group_hash_binds_witness :
  rollout_content <$> rollouts (w_request 1) = rollout_content <$> rollouts (w_request 2).
Proof.
  apply (group_hash_binds (w_request 1) (w_request 2)
    match group_preimage (w_request 1) with Ok b => b | Raise _ => [] end); vm_compute; reflexivity.
Defined.

(** The retained hashes.  A set of 32-byte digests recorded up to a window
    comes back from its exported state pruned at that window, and pruning keeps
    exactly the digests whose last window is less than [retention_windows] old. *)
Theorem rollout_set_roundtrip (s live : hash_set) (through : Z) :
  0 <= retention_windows live -> good_hashes through (hashes s) ->
  exists s', import_state (export_state s) through live = (Ok tt, s') /\
    s' = prune through (HashSet (retention_windows live) (hashes s)) /\
    forall h, contains h s' = true <->
      exists w, hashes s !! h = Some w /\ through - w < retention_windows live.
Proof.
  intros Hr [Hk Hw]. unfold import_state, export_state.
  assert (forall kvs (acc : gmap (list Z) Z), NoDup kvs.*1 ->
    (forall k w, (k, w) ∈ kvs -> (Forall is_byte k /\ length k = 32%nat) /\ 0 <= w <= through) ->
    fold_result (parse_item through) acc ((fun kv => (VStr (hex kv.1), VInt kv.2)) <$> kvs) = Ok (list_to_map kvs ∪ acc)) as Hfold.
  { induction kvs as [|[k w] kvs IH]; intros acc Hnd Hgood; cbn [fmap list_fmap fold_result list_to_map foldr fst snd].
    - by rewrite (left_id_L ∅ (∪)).
    - apply NoDup_cons in Hnd as [Hnk Hnd]. destruct (Hgood k w) as [[Hb Hl] Hwin]; [set_solver|].
      assert (parse_item through acc (VStr (hex k), VInt w) = Ok (<[k := w]> acc)) as ->.
      { unfold parse_item. cbn [fst snd]. rewrite canonical_digest_hex, bind_ok by done.
        by rewrite (proj2 (Z.leb_le 0 w)), (proj2 (Z.leb_le w through)) by lia. }
      rewrite bind_ok.
      rewrite IH; [|done|intros; apply Hgood; set_solver].
      rewrite <- insert_union_l, <- insert_union_r; [done|]. by apply not_elem_of_list_to_map_1. }
  rewrite Hfold; [|apply NoDup_fst_map_to_list|
    intros k w Hkw%elem_of_map_to_list; split; [by eapply Hk|by eapply Hw]].
  rewrite list_to_map_to_list, (right_id_L ∅ (∪)). eexists. split; [done|]. split; [done|].
  intros h. apply (prune_contains h through (HashSet (retention_windows live) (hashes s))); [done|].
  intros w Hh. by eapply Hw.
Qed.

Definition w_digest : list Z := sha256 [0; 0; 0; 5].
Lemma rollout_set_roundtrip_witness :
  exists s', import_state (export_state (HashSet 10 {[w_digest := 4]})) 8 (HashSet 10 ∅) = (Ok tt, s') /\
    contains w_digest s' = true.
Proof.
  destruct (rollout_set_roundtrip (HashSet 10 {[w_digest := 4]}) (HashSet 10 ∅) 8) as (s' & E & _ & H).
  - cbn. lia.
  - split; cbn [hashes]; intros h w [<- <-]%lookup_singleton_Some; [|lia].
    split; [apply sha256_bytes|apply sha256_length].
  - exists s'. split; [exact E|]. apply H. exists 4. split; [apply lookup_singleton_eq|cbn; lia].
Defined.

(** An archived rollout is indexed by the hash of its own tokens. *)
Lemma archived_digest_sound v h : archived_digest v = Ok h ->
  exists d tokens, v = VDict d /\ dict_get "tokens" d = VList tokens /\ compute_rollout_hash tokens = Ok h.
Proof.
  unfold archived_digest. intros (d & Hd & (tokens & Ht & (c & Hc & H)%bind_ok_inv)%bind_ok_inv)%bind_ok_inv.
  destruct v; try done. injection Hd as ->. exists d, tokens. split; [done|].
  destruct (dict_get "tokens" d); try done. injection Ht as ->. split; [done|].
  destruct (existsb _ _); [|congruence]. apply bind_ok_inv in H as (st & _ & H).
  case_bool_decide; [congruence|done].
Qed.

(** Rebuilding from archives is exact and atomic.  When every archive reads,
    the set afterwards holds exactly the digests some archive within the retention
    horizon remembers, and merging ([apply_history]) adds exactly those; when one
    does not read, the set is untouched.  A batch rollout is only ever indexed by
    the hash of its archived tokens: a stored hash that differs is refused. *)
Theorem dedup_history_exact (archives : list pyval) (cur : Z) (s : hash_set) :
  let horizon := cur - retention_windows s in
  (match rebuild_from_history archives cur s with
   | (Ok _, s') => forall h, contains h s' = true <-> exists a, a ∈ archives /\ archived_in horizon h a
   | (Raise _, s') => s' = s
   end) /\
  (match apply_history archives cur s with
   | (Ok _, s') => forall h, contains h s' = true <->
       contains h s = true \/ exists a, a ∈ archives /\ archived_in horizon h a
   | (Raise _, s') => s' = s
   end) /\
  forall v h, archived_digest v = Ok h ->
    exists d tokens, v = VDict d /\ dict_get "tokens" d = VList tokens /\ compute_rollout_hash tokens = Ok h.
Proof.
  intros horizon. unfold apply_history, rebuild_from_history. fold horizon.
  destruct (fold_result (restore_archive horizon) ∅ archives) as [m|e] eqn:E; [|split_and!; [done|done|apply archived_digest_sound]].
  assert (forall h, is_Some (m !! h) <-> exists a, a ∈ archives /\ archived_in horizon h a) as Hm.
  { intros h. rewrite (restore_all _ _ _ _ h E), lookup_empty. split; [intros [[? [=]]|?]; done|by right]. }
  split_and!; [| |apply archived_digest_sound].
  - intros h. unfold contains. cbn [hashes]. rewrite bool_decide_eq_true. apply Hm.
  - intros h. unfold contains. cbn [hashes]. rewrite !bool_decide_eq_true, merge_some; [by rewrite Hm|].
    eapply restored_nonneg; [|exact E]. intros k w. by rewrite lookup_empty.
Qed.
