(* ===== verification/BatchSelection.v ===== *)
(** * BatchSelection: the training batch and the emission of a window

    Models [reliquary/validator/batch_selection.py]: submissions grouped by drand
    round and prompt, rounds visited in order, a slot per distinct prompt in
    canonical hash order, the boundary round shared by all its prompts, and the
    per-submission explanation that mirrors it.

    Dictionaries keep insertion order, so the groups are association lists; the
    reward dictionary is read by hotkey only, so it is a map, filled by the code's
    sequence of float additions.  Prompt indices were validated at submit time and
    fit the eight bytes they are hashed on; [sub_id] is Python's [id]. *)

From S2P Require Import Prelude PyFloat Bytes Sha256 Cooldown.

#[local] Open Scope Z_scope.

Record sub := Sub {
  sub_id : Z;
  hotkey : string;
  prompt : Z;
  merkle_root : list Z;
  selection_digest : option (list Z);
  drand_round : Z;
}.

(** [_within_slot_key]: the validator's digest when the submission has one. *)
Definition within_slot_key (s : sub) : list Z :=
  sha256 (encode (hotkey s) ++ to_bytes_be 8 (prompt s) ++ default (merkle_root s) (selection_digest s)).
Definition prompt_canonical_key (p : Z) : list Z := sha256 (to_bytes_be 8 p).

(** [throughput_rank]; a token count that is not a number counts as none. *)
Definition throughput_rank (tokens : option Z) (arrival_round window_open_round token_cap bucket : Z) : Z :=
  let capped := match tokens with Some t => Z.min t token_cap | None => 0 end in
  let elapsed := Z.max (arrival_round - window_open_round) 1 in
  let width := Z.max 1 bucket in
  - (Z.max 0 capped / (elapsed * width)).

(** ** Python's ordering of bytes, [sorted] and [min] *)

Fixpoint bytes_ltb (a b : list Z) : bool :=
  match a, b with
  | _, [] => false
  | [], _ :: _ => true
  | x :: a', y :: b' => (x <? y) || ((x =? y) && bytes_ltb a' b')
  end.

(** [sorted(l, key)], stable. *)
Fixpoint insert_by {A} (key : A -> list Z) (x : A) (l : list A) : list A :=
  match l with
  | [] => [x]
  | y :: l' => if bytes_ltb (key y) (key x) then y :: insert_by key x l' else x :: l
  end.
Definition sorted_by {A} (key : A -> list Z) (l : list A) : list A := foldr (insert_by key) [] l.

(** [min(l, key)] of a non-empty list: the first least. *)
Fixpoint min_by {A} (key : A -> list Z) (best : A) (l : list A) : A :=
  match l with
  | [] => best
  | x :: l' => min_by key (if bytes_ltb (key x) (key best) then x else best) l'
  end.

Fixpoint insert_int (x : Z) (l : list Z) : list Z :=
  match l with [] => [x] | y :: l' => if y <? x then y :: insert_int x l' else x :: l end.
Definition sorted_ints (l : list Z) : list Z := foldr insert_int [] l.

(** ** Groups *)

(** [d.setdefault(k, default)] followed by a mutation of the value. *)
Fixpoint update_at {V} (k : Z) (dflt : V) (f : V -> V) (d : list (Z * V)) : list (Z * V) :=
  match d with
  | [] => [(k, f dflt)]
  | (k', v) :: d' => if k' =? k then (k', f v) :: d' else (k', v) :: update_at k dflt f d'
  end.
Definition get_at {V} (k : Z) (d : list (Z * V)) : option V :=
  snd <$> List.find (fun kv => kv.1 =? k) d.

Abbreviation groups := (list (Z * list sub)).

Definition add_sub (g : groups) (s : sub) : groups := update_at (prompt s) [] (fun l => l ++ [s]) g.
Definition add_to_rounds (by_round : list (Z * groups)) (s : sub) : list (Z * groups) :=
  update_at (drand_round s) [] (fun g => add_sub g s) by_round.

Definition eligible (cd : cmap Z) (window : Z) (s : sub) : bool := negb (is_in_cooldown (prompt s) window cd).
Definition group_rounds (cd : cmap Z) (window : Z) (submissions : list sub) : list (Z * groups) :=
  foldl (fun acc s => if eligible cd window s then add_to_rounds acc s else acc) [] submissions.

(** ** Selection *)

Record selection := Selection {
  batch : list sub;
  rewards : gmap string float;
  claimed : gset Z;
}.

Definition pay (per_miner : float) (r : gmap string float) (s : sub) : gmap string float :=
  <[hotkey s := fadd (default 0 (r !! hotkey s)) per_miner]> r.

Definition representative (l : list sub) : option sub :=
  match l with [] => None | s :: l' => Some (min_by within_slot_key s l') end.

Definition take_slot (g : groups) (sel : selection) (p : Z) : selection :=
  match get_at p g with
  | None => sel
  | Some l => Selection (batch sel ++ option_list (representative l)) (rewards sel) ({[p]} ∪ claimed sel)
  end.

(** A prompt of a fully included round: paid, then given its slot. *)
Definition full_slot (slot_share : float) (g : groups) (sel : selection) (p : Z) : selection :=
  match get_at p g with
  | None => sel
  | Some l =>
      let per_miner := fdiv slot_share (of_int (Z.of_nat (length l))) in
      take_slot g (Selection (batch sel) (foldl (pay per_miner) (rewards sel) l) (claimed sel)) p
  end.

Definition pay_group (per_prompt : float) (r : gmap string float) (pl : Z * list sub) : gmap string float :=
  foldl (pay (fdiv per_prompt (of_int (Z.of_nat (length pl.2))))) r pl.2.

Fixpoint rounds_loop (b : Z) (slot_share : float) (by_round : list (Z * groups)) (rounds : list Z) (sel : selection)
    : selection :=
  match rounds with
  | [] => sel
  | r :: rounds' =>
      let remaining := b - Z.of_nat (length (batch sel)) in
      if remaining <=? 0 then sel
      else
        let available := filter (fun pl => pl.1 ∉ claimed sel) (default [] (get_at r by_round)) in
        match available with
        | [] => rounds_loop b slot_share by_round rounds' sel
        | _ =>
            let num_prompts := Z.of_nat (length available) in
            if num_prompts <=? remaining then
              rounds_loop b slot_share by_round rounds'
                (foldl (full_slot slot_share available) sel (sorted_by prompt_canonical_key available.*1))
            else
              let per_prompt := fdiv (fmul (of_int remaining) slot_share) (of_int num_prompts) in
              let paid := Selection (batch sel) (foldl (pay_group per_prompt) (rewards sel) available) (claimed sel) in
              foldl (take_slot available) paid
                (take (Z.to_nat remaining) (sorted_by prompt_canonical_key available.*1))
        end
  end.

Definition select_batch_and_distribute (submissions : list sub) (b : Z) (cd : cmap Z) (window : Z) (pool : float)
    : list sub * gmap string float :=
  if (b <=? 0) || bool_decide (submissions = []) then ([], ∅)
  else
    let by_round := group_rounds cd window submissions in
    if bool_decide (by_round = []) then ([], ∅)
    else
      let sel := rounds_loop b (fdiv pool (of_int b)) by_round (sorted_ints by_round.*1) (Selection [] ∅ ∅) in
      (batch sel, rewards sel).

(** ** Explanation *)

Record meta := Meta {
  selected_for_batch : bool;
  rewarded : bool;
  reward_amount : float;
  canonical_rank : option Z;
  selection_reason : string;
}.

Definition initial_meta : meta := Meta false false 0 None "not_reached_before_batch_filled".
Definition set_reason (r : string) (m : meta) : meta :=
  Meta (selected_for_batch m) (rewarded m) (reward_amount m) (canonical_rank m) r.

(** [payment_source] of every entry. *)
Definition payment_source (fill_closed_enabled : bool) : string :=
  if fill_closed_enabled then "fill_closed_fixed_group" else "slot_share".

(** One prompt's submissions: [update], and the flag of the representative. *)
Definition explain_sub (chosen boundary : bool) (rep : Z) (rank : Z) (per_miner : float)
    (m : gmap Z meta) (s : sub) : gmap Z meta :=
  let is_rep := sub_id s =? rep in
  let reason :=
    if boundary then
      (if chosen && is_rep then "selected_boundary_canonical"
       else if chosen then "rewarded_same_prompt" else "same_trigger_round_lost_canonical_ordering")
    else if is_rep then "selected_for_batch" else "rewarded_same_prompt" in
  alter (fun e => Meta (selected_for_batch e || (chosen && is_rep)) true per_miner (Some rank) reason) (sub_id s) m.

Definition explain_prompt (boundary : bool) (chosen : list Z) (share : float) (g : groups)
    (st : gmap Z meta * Z) (p : Z) : gmap Z meta * Z :=
  let '(m, rank) := st in
  match get_at p g with
  | None => st
  | Some l =>
      let rank' := rank + 1 in
      let per_miner := fdiv share (of_int (Z.of_nat (length l))) in
      match representative l with
      | None => st
      | Some s => (foldl (explain_sub (bool_decide (p ∈ chosen)) boundary (sub_id s) rank' per_miner) m l, rank')
      end
  end.

Fixpoint explain_loop (b : Z) (slot_share : float) (by_round : list (Z * groups)) (rounds : list Z)
    (selected_count : Z) (claimed_prompts : gset Z) (st : gmap Z meta * Z) : gmap Z meta :=
  match rounds with
  | [] => st.1
  | r :: rounds' =>
      let remaining := b - selected_count in
      if remaining <=? 0 then st.1
      else
        let available := filter (fun pl => pl.1 ∉ claimed_prompts) (default [] (get_at r by_round)) in
        match available with
        | [] => explain_loop b slot_share by_round rounds' selected_count claimed_prompts st
        | _ =>
            let sorted_prompts := sorted_by prompt_canonical_key available.*1 in
            let n := Z.of_nat (length sorted_prompts) in
            if n <=? remaining then
              explain_loop b slot_share by_round rounds' (selected_count + n) (list_to_set sorted_prompts ∪ claimed_prompts)
                (foldl (explain_prompt false sorted_prompts slot_share available) st sorted_prompts)
            else
              let chosen := take (Z.to_nat remaining) sorted_prompts in
              let per_prompt := fdiv (fmul (of_int remaining) slot_share) (of_int n) in
              (foldl (explain_prompt true chosen per_prompt available) st sorted_prompts).1
        end
  end.

Definition explain_batch_selection (submissions : list sub) (b : Z) (cd : cmap Z) (window : Z) (pool : float)
    : gmap Z meta :=
  let meta0 := list_to_map ((fun s => (sub_id s, initial_meta)) <$> submissions) in
  if (b <=? 0) || bool_decide (submissions = []) then meta0
  else
    let meta1 := foldl (fun m s => if eligible cd window s then m
                                   else alter (set_reason "prompt_in_cooldown_at_selection") (sub_id s) m) meta0 submissions in
    let by_round := group_rounds cd window submissions in
    explain_loop b (fdiv pool (of_int b)) by_round (sorted_ints by_round.*1) 0 ∅ (meta1, 0).

(** ** The order of keys *)

Lemma bytes_ltb_irrefl a : bytes_ltb a a = false.
Proof. induction a as [|x a IH]; [done|]. cbn. rewrite Z.ltb_irrefl, Z.eqb_refl, IH. done. Qed.

Lemma bytes_ltb_trans a b c : bytes_ltb a b = true -> bytes_ltb b c = true -> bytes_ltb a c = true.
Proof.
  revert b c. induction a as [|x a IH]; intros [|y b] [|z c]; cbn; try done.
  rewrite !orb_true_iff, !andb_true_iff, !Z.ltb_lt, !Z.eqb_eq.
  intros [H1|[-> H1]] [H2|[-> H2]]; [left; lia|left; lia|left; lia|]. right. split; [done|]. by eapply IH.
Qed.

Lemma bytes_total a b : bytes_ltb a b = false -> bytes_ltb b a = false -> a = b.
Proof.
  revert b. induction a as [|x a IH]; intros [|y b]; cbn; try done.
  rewrite !orb_false_iff. intros [H1%Z.ltb_ge H2] [H3%Z.ltb_ge H4]. assert (x = y) as -> by lia.
  rewrite Z.eqb_refl in H2, H4. f_equal. by apply IH.
Qed.

Section sorting.
Context {A : Type} (key : A -> list Z).

(** [x] may stand before [y]. *)
Definition before (x y : A) : Prop := bytes_ltb (key y) (key x) = false.

Lemma before_trans x y z : before x y -> before y z -> before x z.
Proof.
  unfold before. intros H1 H2. destruct (bytes_ltb (key z) (key x)) eqn:E; [|done].
  destruct (bytes_ltb (key y) (key z)) eqn:E2.
  - by rewrite (bytes_ltb_trans _ _ _ E2 E) in H1.
  - rewrite (bytes_total _ _ E2 H2) in H1. congruence.
Qed.

Lemma insert_by_perm x l : insert_by key x l ≡ₚ x :: l.
Proof.
  induction l as [|y l IH]; cbn; [done|]. destruct (bytes_ltb _ _); [|done]. rewrite IH. apply Permutation_swap.
Qed.

Lemma sorted_by_perm l : sorted_by key l ≡ₚ l.
Proof. induction l as [|x l IH]; cbn; [done|]. rewrite insert_by_perm. by rewrite IH. Qed.

Lemma sorted_by_sorted l : StronglySorted before (sorted_by key l).
Proof.
  induction l as [|x l IH]; cbn; [constructor|].
  assert (forall k, StronglySorted before k -> StronglySorted before (insert_by key x k)) as Hins; [|by apply Hins].
  clear IH. intros k. induction 1 as [|y k Hs IH Hall]; cbn; [repeat constructor|].
  destruct (bytes_ltb (key y) (key x)) eqn:E.
  - constructor; [done|]. apply Forall_forall. intros z Hz. rewrite insert_by_perm in Hz.
    apply elem_of_cons in Hz as [->|Hz]; [|by eapply Forall_forall in Hall].
    unfold before. destruct (bytes_ltb (key x) (key y)) eqn:E2; [|done].
    pose proof (bytes_ltb_trans _ _ _ E E2) as Ht. by rewrite bytes_ltb_irrefl in Ht.
  - constructor; [by constructor|]. constructor; [exact E|]. eapply Forall_impl; [exact Hall|].
    intros z Hz. eapply before_trans; [exact E|exact Hz].
Qed.

(** The key tells the elements apart. *)
Definition key_inj (l : list A) : Prop := forall x y, x ∈ l -> y ∈ l -> key x = key y -> x = y.

Lemma sorted_by_unique l l' : l ≡ₚ l' -> key_inj l -> sorted_by key l = sorted_by key l'.
Proof.
  intros Hp Hinj. eapply (StronglySorted_unique_strong before).
  - intros x y Hx Hy H1 H2. rewrite sorted_by_perm in Hx. rewrite sorted_by_perm, <- Hp in Hy.
    apply Hinj; [done..|]. by apply bytes_total.
  - apply sorted_by_sorted.
  - apply sorted_by_sorted.
  - by rewrite !sorted_by_perm.
Qed.

Lemma min_by_spec best l : let m := min_by key best l in m ∈ best :: l /\ forall x, x ∈ best :: l -> before m x.
Proof.
  revert best. induction l as [|y l IH]; intros best; cbn.
  - split; [set_solver|]. intros x ->%list_elem_of_singleton. apply bytes_ltb_irrefl.
  - destruct (IH (if bytes_ltb (key y) (key best) then y else best)) as [Hin Hle]. split.
    + destruct (bytes_ltb _ _); set_solver.
    + intros x Hx. assert (before (min_by key (if bytes_ltb (key y) (key best) then y else best) l)
        (if bytes_ltb (key y) (key best) then y else best)) as Hm by (apply Hle; constructor).
      destruct (bytes_ltb (key y) (key best)) eqn:E.
      * apply elem_of_cons in Hx as [->|Hx]; [|by apply Hle]. eapply before_trans; [exact Hm|].
        unfold before. destruct (bytes_ltb (key best) (key y)) eqn:E2; [|done].
        pose proof (bytes_ltb_trans _ _ _ E E2) as Ht. by rewrite bytes_ltb_irrefl in Ht.
      * rewrite !elem_of_cons in Hx. destruct Hx as [->|[->|Hx]]; [done| |apply Hle; set_solver].
        eapply before_trans; [exact Hm|exact E].
Qed.
End sorting.

Lemma representative_spec l s : representative l = Some s -> s ∈ l /\ forall x, x ∈ l -> before within_slot_key s x.
Proof. destruct l as [|a l]; [done|]. intros [= <-]. apply (min_by_spec within_slot_key a l). Qed.

Lemma representative_some l : l <> [] -> is_Some (representative l).
Proof. destruct l; [done|]. cbn. eauto. Qed.

Lemma representative_unique l l' : l ≡ₚ l' -> key_inj within_slot_key l -> representative l = representative l'.
Proof.
  intros Hp Hinj. destruct (decide (l = [])) as [->|Hne]; [by rewrite (Permutation_nil Hp)|].
  assert (l' <> []) as Hne' by (intros ->; by apply Permutation_nil_r in Hp).
  destruct (representative_some l Hne) as [s Hs], (representative_some l' Hne') as [s' Hs'].
  rewrite Hs, Hs'. f_equal. apply representative_spec in Hs as [H1 H2]. apply representative_spec in Hs' as [H3 H4].
  apply Hinj; [done|by rewrite Hp|]. apply bytes_total; [apply H4|apply H2]; [by rewrite <- Hp|by rewrite Hp].
Qed.

Lemma insert_int_perm x l : insert_int x l ≡ₚ x :: l.
Proof. induction l as [|y l IH]; cbn; [done|]. destruct (y <? x); [|done]. rewrite IH. apply Permutation_swap. Qed.

Lemma sorted_ints_perm l : sorted_ints l ≡ₚ l.
Proof. induction l as [|x l IH]; cbn; [done|]. rewrite insert_int_perm. by rewrite IH. Qed.

Lemma insert_int_sorted x l : StronglySorted Z.le l -> StronglySorted Z.le (insert_int x l).
Proof.
  induction 1 as [|y k Hs IH Hall]; cbn; [repeat constructor|]. destruct (Z.ltb_spec y x).
  - constructor; [done|]. apply Forall_forall. intros z Hz. rewrite insert_int_perm in Hz.
    apply elem_of_cons in Hz as [->|Hz]; [lia|by eapply Forall_forall in Hall].
  - constructor; [by constructor|]. constructor; [done|]. eapply Forall_impl; [exact Hall|]. intros; cbn in *; lia.
Qed.

Lemma sorted_ints_sorted l : StronglySorted Z.le (sorted_ints l).
Proof. induction l as [|x l IH]; [constructor|]. by apply insert_int_sorted. Qed.

Lemma sorted_ints_unique l l' : l ≡ₚ l' -> sorted_ints l = sorted_ints l'.
Proof.
  intros Hp. eapply (StronglySorted_unique Z.le); [apply sorted_ints_sorted..|]. by rewrite !sorted_ints_perm.
Qed.

(** ** What the groups hold *)

Lemma get_update {V} k dflt (f : V -> V) d k' :
  get_at k' (update_at k dflt f d) = if k' =? k then Some (f (default dflt (get_at k d))) else get_at k' d.
Proof.
  unfold get_at. induction d as [|[j v] d IH]; cbn.
  - destruct (Z.eqb_spec k k'), (Z.eqb_spec k' k); done || lia.
  - destruct (Z.eqb_spec j k) as [->|Hj]; cbn.
    + destruct (Z.eqb_spec k k') as [->|]; [by rewrite Z.eqb_refl|]. by destruct (Z.eqb_spec k' k); [lia|].
    + destruct (Z.eqb_spec j k') as [->|]; [|exact IH]. by destruct (Z.eqb_spec k' k); [lia|].
Qed.

Lemma get_elem {V} (d : list (Z * V)) k v : NoDup d.*1 -> get_at k d = Some v <-> (k, v) ∈ d.
Proof.
  unfold get_at. induction d as [|[j w] d IH]; cbn; intros Hnd; [split; [done|set_solver]|].
  apply NoDup_cons in Hnd as [Hj Hnd]. rewrite elem_of_cons. destruct (Z.eqb_spec j k) as [->|Hne]; cbn.
  - split; [intros [= ->]; by left|]. intros [[= ->]|Hin]; [done|]. exfalso. apply Hj.
    by apply (list_elem_of_fmap_2 fst) in Hin.
  - rewrite IH by done. split; [by right|]. intros [[= -> _]|]; done.
Qed.

Lemma get_none {V} (d : list (Z * V)) k : get_at k d = None <-> k ∉ d.*1.
Proof.
  unfold get_at. induction d as [|[j w] d IH]; cbn; [set_solver|].
  destruct (Z.eqb_spec j k) as [->|Hne]; cbn; [set_solver|]. rewrite IH. set_solver.
Qed.

Lemma keys_update {V} k dflt (f : V -> V) d : NoDup d.*1 -> NoDup (update_at k dflt f d).*1.
Proof.
  assert (forall k' (d : list (Z * V)), k' ∈ (update_at k dflt f d).*1 -> k' = k \/ k' ∈ d.*1) as Hin.
  { intros k' e. induction e as [|[j v] e IH]; cbn; [set_solver|]. destruct (j =? k); cbn; set_solver. }
  induction d as [|[j v] d IH]; cbn; intros Hnd; [apply NoDup_singleton|].
  apply NoDup_cons in Hnd as [Hj Hnd]. destruct (Z.eqb_spec j k) as [->|Hne]; cbn; apply NoDup_cons; [done|].
  split; [|by apply IH]. intros [->|]%Hin; done.
Qed.

(** The submissions grouped by prompt. *)
Definition by_prompt (l : list sub) : groups := foldl add_sub [] l.

Lemma by_prompt_spec l : NoDup (by_prompt l).*1 /\
  forall p, get_at p (by_prompt l) =
    match filter (fun s => prompt s = p) l with [] => None | k => Some k end.
Proof.
  unfold by_prompt. induction l as [|s l IH] using rev_ind; [split; [constructor|done]|].
  rewrite foldl_app. cbn [foldl]. destruct IH as [IH1 IH2]. split; [by apply keys_update|].
  intros p. unfold add_sub. rewrite get_update, IH2, filter_app, filter_cons, filter_nil.
  destruct (Z.eqb_spec p (prompt s)) as [->|Hne].
  - rewrite decide_True by done. destruct (filter _ l); done.
  - rewrite decide_False by done. rewrite app_nil_r. apply IH2.
Qed.

(** The groups of a round. *)
Definition round_subs (cd : cmap Z) (window : Z) (subs : list sub) (r : Z) : list sub :=
  filter (fun s => eligible cd window s = true /\ drand_round s = r) subs.

Lemma group_rounds_spec cd window subs :
  NoDup (group_rounds cd window subs).*1 /\
  forall r, get_at r (group_rounds cd window subs) =
    match round_subs cd window subs r with [] => None | k => Some (by_prompt k) end.
Proof.
  unfold group_rounds, round_subs. induction subs as [|s subs IH] using rev_ind; [split; [constructor|done]|].
  rewrite foldl_app. cbn [foldl]. destruct IH as [IH1 IH2].
  set (acc := foldl _ [] subs) in *. destruct (eligible cd window s) eqn:He.
  - split; [by apply keys_update|]. intros r. unfold add_to_rounds.
    rewrite get_update, IH2, filter_app, filter_cons, filter_nil. destruct (Z.eqb_spec r (drand_round s)) as [->|Hne].
    + rewrite decide_True by done. unfold by_prompt. destruct (filter _ subs) as [|a k]; [done|].
      transitivity (Some (foldl add_sub [] ((a :: k) ++ [s]))); [by rewrite foldl_app|done].
    + rewrite decide_False by (intros [? ?]; congruence). rewrite app_nil_r. apply IH2.
  - split; [done|]. intros r. rewrite filter_app, filter_cons, filter_nil, decide_False by (intros [? ?]; congruence).
    rewrite app_nil_r. apply IH2.
Qed.

Lemma round_groups cd window subs r :
  default [] (get_at r (group_rounds cd window subs)) = by_prompt (round_subs cd window subs r).
Proof. destruct (group_rounds_spec cd window subs) as [_ ->]. by destruct (round_subs _ _ _ _). Qed.

(** ** The slots, without the money *)

Definition reps (g : groups) (ps : list Z) : list sub := omap (fun p => get_at p g ≫= representative) ps.

(** Which submissions take slots: round by round, the first unclaimed prompts in
    canonical order, while slots remain. *)
Fixpoint picks (b : Z) (groups_of : Z -> groups) (rounds : list Z) (bt : list sub) (cl : gset Z) : list sub * gset Z :=
  match rounds with
  | [] => (bt, cl)
  | r :: rounds' =>
      let remaining := b - Z.of_nat (length bt) in
      if remaining <=? 0 then (bt, cl)
      else
        let available := filter (fun pl => pl.1 ∉ cl) (groups_of r) in
        let ps := take (Z.to_nat remaining) (sorted_by prompt_canonical_key available.*1) in
        picks b groups_of rounds' (bt ++ reps available ps) (list_to_set ps ∪ cl)
  end.

(** Groups as the code builds them: keyed once, never empty. *)
Definition good_groups (g : groups) : Prop := NoDup g.*1 /\ forall p l, (p, l) ∈ g -> l <> [] /\ forall s, s ∈ l -> prompt s = p.

Lemma by_prompt_good l : good_groups (by_prompt l).
Proof.
  destruct (by_prompt_spec l) as [Hnd Hget]. split; [done|]. intros p k Hk. rewrite <- get_elem, Hget in Hk by done.
  destruct (filter _ l) as [|a k'] eqn:E; [done|]. injection Hk as <-. split; [done|]. intros s Hs.
  rewrite <- E in Hs. by apply list_elem_of_filter in Hs as [-> _].
Qed.

Lemma filter_good (P : Z * list sub -> Prop) `{!forall x, Decision (P x)} g : good_groups g -> good_groups (filter P g).
Proof.
  intros [Hnd Hg]. split; [eapply sublist_NoDup; [exact Hnd|apply fmap_sublist_filter]|].
  intros p l [_ Hin]%list_elem_of_filter. by apply Hg.
Qed.

Lemma reps_prompts g ps : good_groups g -> (forall p, p ∈ ps -> p ∈ g.*1) -> prompt <$> reps g ps = ps.
Proof.
  intros [Hnd Hg]. induction ps as [|p ps IH]; intros Hps; [done|].
  assert (p ∈ g.*1) as ([p' l] & Hp & Hin)%list_elem_of_fmap by (apply Hps; constructor). cbn in Hp. subst p.
  destruct (Hg p' l Hin) as [Hne Hpr]. destruct (representative_some l Hne) as [s Hs].
  assert (reps g (p' :: ps) = s :: reps g ps) as ->.
  { unfold reps. cbn. rewrite (proj2 (get_elem g p' l Hnd) Hin). cbn. by rewrite Hs. }
  rewrite fmap_cons, IH by (intros; apply Hps; by constructor). f_equal. apply Hpr. by apply representative_spec in Hs as [Hs _].
Qed.

Lemma take_slots_eq g ps sel : (forall p, p ∈ ps -> p ∈ g.*1) ->
  foldl (take_slot g) sel ps
  = Selection (batch sel ++ reps g ps) (rewards sel) (list_to_set ps ∪ claimed sel).
Proof.
  revert sel. induction ps as [|p ps IH]; intros sel Hps; cbn [foldl].
  - change (reps g []) with (@nil sub). rewrite app_nil_r, list_to_set_nil, (left_id_L ∅ (∪)). by destruct sel.
  - rewrite IH by (intros; apply Hps; by constructor). unfold take_slot, reps. cbn [omap list_omap].
    destruct (get_at p g) as [l|] eqn:E.
    + cbn [batch rewards claimed mbind option_bind]. f_equal; [|set_solver].
      rewrite <- app_assoc. f_equal. by destruct (representative l).
    + exfalso. apply get_none in E. apply E, Hps. constructor.
Qed.

Lemma full_slots_eq share g ps sel : (forall p, p ∈ ps -> p ∈ g.*1) ->
  batch (foldl (full_slot share g) sel ps) = batch sel ++ reps g ps /\
  claimed (foldl (full_slot share g) sel ps) = list_to_set ps ∪ claimed sel.
Proof.
  revert sel. induction ps as [|p ps IH]; intros sel Hps; cbn [foldl].
  - change (reps g []) with (@nil sub). rewrite app_nil_r, list_to_set_nil, (left_id_L ∅ (∪)). done.
  - destruct (IH (full_slot share g sel p)) as [-> ->]; [intros; apply Hps; by constructor|].
    unfold full_slot, take_slot, reps. cbn [omap list_omap].
    destruct (get_at p g) as [l|] eqn:E.
    + cbn [batch rewards claimed mbind option_bind]. split; [|set_solver].
      rewrite <- app_assoc. f_equal. by destruct (representative l).
    + exfalso. apply get_none in E. apply E, Hps. constructor.
Qed.

Lemma sorted_keys_in (g : groups) n p : p ∈ take n (sorted_by prompt_canonical_key g.*1) -> p ∈ g.*1.
Proof. intros H. apply elem_of_take in H as (i & Hi & _). apply list_elem_of_lookup_2 in Hi. by rewrite sorted_by_perm in Hi. Qed.

(** The loop of the code is [picks] plus payments. *)
Lemma rounds_loop_picks b share by_round rounds sel :
  (forall r, good_groups (default [] (get_at r by_round))) ->
  let sel' := rounds_loop b share by_round rounds sel in
  (batch sel', claimed sel') = picks b (fun r => default [] (get_at r by_round)) rounds (batch sel) (claimed sel).
Proof.
  intros Hg. revert sel. induction rounds as [|r rounds IH]; intros sel; [done|]. cbn [rounds_loop picks].
  set (remaining := b - Z.of_nat (length (batch sel))). destruct (Z.leb_spec remaining 0); [done|].
  set (available := filter (fun pl => pl.1 ∉ claimed sel) (default [] (get_at r by_round))).
  assert (good_groups available) as Hga by (apply filter_good, Hg).
  assert (length (sorted_by prompt_canonical_key available.*1) = length available) as Hlen.
  { rewrite (Permutation_length (sorted_by_perm _ _)). apply length_fmap. }
  destruct available as [|a0 rest] eqn:Ea; [|rewrite <- Ea in *].
  { cbn [fmap list_fmap sorted_by foldr]. rewrite take_nil. change (reps [] []) with (@nil sub).
    rewrite app_nil_r, list_to_set_nil, (left_id_L ∅ (∪)). apply IH. }
  destruct (Z.leb_spec (Z.of_nat (length available)) remaining) as [Hle|Hgt].
  - rewrite (take_ge (sorted_by _ _)) by lia.
    set (ps := sorted_by prompt_canonical_key available.*1) in *.
    destruct (full_slots_eq share available ps sel) as [Hb Hc].
    { intros p Hp. unfold ps in Hp. by rewrite sorted_by_perm in Hp. }
    rewrite IH, Hb, Hc. done.
  - rewrite take_slots_eq by (intros p; apply sorted_keys_in). cbn [batch claimed].
    set (ps := take (Z.to_nat remaining) (sorted_by prompt_canonical_key available.*1)).
    assert (length (reps available ps) = Z.to_nat remaining) as Hrl.
    { rewrite <- (length_fmap prompt), reps_prompts by (done || (intros p; apply sorted_keys_in)).
      unfold ps. rewrite length_take. lia. }
    destruct rounds as [|r' rounds']; [done|]. cbn [picks].
    destruct (Z.leb_spec (b - Z.of_nat (length (batch sel ++ reps available ps))) 0) as [|Hbad]; [done|].
    rewrite length_app, Hrl in Hbad. lia.
Qed.

(** ** Invariant of the rounds *)

Section rounds.
Context (cd : cmap Z) (window b : Z) (subs : list sub).

Definition candidate (s : sub) : Prop := s ∈ subs /\ eligible cd window s = true.
Definition groups_at (r : Z) : groups := by_prompt (round_subs cd window subs r).

(** The earliest round of its prompt, and the least key of that round. *)
Definition winner (s : sub) : Prop := candidate s /\ forall x, candidate x -> prompt x = prompt s ->
  drand_round s <= drand_round x /\ (drand_round x = drand_round s -> before within_slot_key s x).

Record picked (done_ : list Z) (bt : list sub) (cl : gset Z) : Prop := {
  picked_nodup : NoDup (prompt <$> bt);
  picked_claimed : forall p, p ∈ cl <-> p ∈ prompt <$> bt;
  picked_le : Z.of_nat (length bt) <= b;
  picked_winner : forall s, s ∈ bt -> winner s;
  picked_all : Z.of_nat (length bt) < b -> forall x, candidate x -> drand_round x ∈ done_ -> prompt x ∈ cl;
}.

Lemma groups_at_elem r p l : (p, l) ∈ groups_at r <->
  l <> [] /\ l = filter (fun s => prompt s = p) (round_subs cd window subs r).
Proof using.
  unfold groups_at. destruct (by_prompt_spec (round_subs cd window subs r)) as [Hnd Hget].
  rewrite <- get_elem, Hget by done. destruct (filter _ _) as [|a k]; [|naive_solver].
  split; [done|]. intros [? ->]. done.
Qed.

Lemma groups_at_keys r p : p ∈ (groups_at r).*1 <-> exists x, candidate x /\ drand_round x = r /\ prompt x = p.
Proof using.
  split.
  - intros ([p' l] & Hp & [Hne ->]%groups_at_elem)%list_elem_of_fmap. cbn in Hp. subst p'.
    destruct (filter _ _) as [|x k] eqn:E; [done|]. exists x.
    assert (x ∈ filter (fun s => prompt s = p) (round_subs cd window subs r)) as [Hp Hx]%list_elem_of_filter
      by (rewrite E; constructor).
    apply list_elem_of_filter in Hx as [[He Hr] Hx]. done.
  - intros (x & [Hx He] & Hr & Hp).
    assert (x ∈ filter (fun s => prompt s = p) (round_subs cd window subs r)) as Hin
      by (apply list_elem_of_filter; split; [done|]; by apply list_elem_of_filter).
    apply list_elem_of_fmap. exists (p, filter (fun s => prompt s = p) (round_subs cd window subs r)).
    split; [done|]. apply groups_at_elem. split; [|done]. intros E. rewrite E in Hin. set_solver.
Qed.

Lemma reps_elem g ps s : s ∈ reps g ps -> exists p l, p ∈ ps /\ get_at p g = Some l /\ representative l = Some s.
Proof using.
  unfold reps. intros (p & Hp & H)%list_elem_of_omap. apply bind_Some in H as (l & Hl & Hs). eauto.
Qed.

Lemma picked_step done_ bt cl r rest :
  (forall x, candidate x -> drand_round x ∈ done_ \/ drand_round x ∈ r :: rest) ->
  Forall (Z.le r) rest -> picked done_ bt cl -> Z.of_nat (length bt) < b ->
  let available := filter (fun pl => pl.1 ∉ cl) (groups_at r) in
  let ps := take (Z.to_nat (b - Z.of_nat (length bt))) (sorted_by prompt_canonical_key available.*1) in
  picked (done_ ++ [r]) (bt ++ reps available ps) (list_to_set ps ∪ cl).
Proof using.
  intros Hcover Hle [Hnd Hcl Hlen Hwin Hall] Hlt available ps.
  assert (good_groups available) as Hgood by (apply filter_good, by_prompt_good).
  assert (forall p, p ∈ ps -> p ∈ available.*1) as Hin by (intros p; apply sorted_keys_in).
  assert (forall p, p ∈ available.*1 -> p ∉ cl /\ p ∈ (groups_at r).*1) as Hav.
  { intros p ([p' l] & -> & [Hc Hg]%list_elem_of_filter)%list_elem_of_fmap. split; [done|].
    by apply (list_elem_of_fmap_2 fst) in Hg. }
  pose proof (reps_prompts available ps Hgood Hin) as Hrp.
  assert (NoDup ps) as Hndps.
  { unfold ps. eapply sublist_NoDup; [|apply sublist_take]. rewrite sorted_by_perm. apply Hgood. }
  assert (length (reps available ps) = length ps) as Hrl by (rewrite <- Hrp at 2; by rewrite length_fmap).
  split.
  - rewrite fmap_app, Hrp. apply NoDup_app. split; [done|]. split; [|done].
    intros p Hp Hp'. apply Hcl in Hp. destruct (Hav p (Hin p Hp')) as [? _]. done.
  - intros p. rewrite fmap_app, Hrp, elem_of_app, elem_of_union, elem_of_list_to_set, Hcl. tauto.
  - rewrite length_app, Hrl. unfold ps. rewrite length_take. lia.
  - intros s [Hs|(p & l & Hp & Hl & Hs)%reps_elem]%elem_of_app; [by apply Hwin|].
    apply get_elem in Hl; [|apply Hgood]. apply list_elem_of_filter in Hl as [Hncl Hl]. cbn in Hncl.
    apply groups_at_elem in Hl as [_ ->]. apply representative_spec in Hs as [Hs Hmin].
    apply list_elem_of_filter in Hs as [Hsp [[He Hr] Hs]%list_elem_of_filter].
    split; [done|]. intros x Hx Hxp. rewrite Hr.
    assert (r <= drand_round x) as Hrx.
    { destruct (Hcover x Hx) as [Hd|Hd].
      - exfalso. apply Hncl. rewrite <- Hsp, <- Hxp. by apply Hall.
      - apply elem_of_cons in Hd as [->|Hd]; [lia|]. by eapply Forall_forall in Hle. }
    split; [done|]. intros Heq. apply Hmin. apply list_elem_of_filter. split; [congruence|].
    apply list_elem_of_filter. destruct Hx. done.
  - rewrite length_app, Hrl. intros Hlt' x Hx [Hd|Hd%list_elem_of_singleton]%elem_of_app.
    + apply elem_of_union_r. by apply Hall.
    + destruct (decide (prompt x ∈ cl)) as [?|Hncl]; [set_solver|]. apply elem_of_union_l, elem_of_list_to_set.
      unfold ps in Hlt' |- *. rewrite length_take in Hlt'.
      rewrite take_ge by lia. rewrite sorted_by_perm.
      assert (prompt x ∈ (groups_at r).*1) as ([p l] & Hp & Hpl)%list_elem_of_fmap by (apply groups_at_keys; eauto).
      apply list_elem_of_fmap. exists (p, l). split; [done|]. apply list_elem_of_filter. cbn in Hp |- *. subst p. done.
Qed.

Lemma picks_picked rounds done_ bt cl :
  StronglySorted Z.le rounds -> (forall x, candidate x -> drand_round x ∈ done_ \/ drand_round x ∈ rounds) ->
  picked done_ bt cl ->
  picked (done_ ++ rounds) (picks b groups_at rounds bt cl).1 (picks b groups_at rounds bt cl).2.
Proof using.
  intros Hs. revert done_ bt cl. induction Hs as [|r rounds Hs IH Hle]; intros done_ bt cl Hcover Hp; cbn [picks].
  - by rewrite app_nil_r.
  - destruct (Z.leb_spec (b - Z.of_nat (length bt)) 0) as [Hz|Hz]; cbn [fst snd].
    { destruct Hp. split; try done. lia. }
    rewrite cons_middle, app_assoc. apply IH.
    + intros x [Hd|[->|Hd]%elem_of_cons]%Hcover; [left; set_solver|left; set_solver|by right].
    + apply (picked_step done_ bt cl r rounds); [done|done|done|lia].
Qed.
End rounds.

Lemma picks_ext b g g' rounds bt cl : (forall r, g r = g' r) -> picks b g rounds bt cl = picks b g' rounds bt cl.
Proof.
  intros Hg. revert bt cl. induction rounds as [|r rounds IH]; intros bt cl; cbn [picks]; [done|].
  rewrite Hg. destruct (_ <=? 0); [done|]. apply IH.
Qed.

Definition all_rounds (cd : cmap Z) (window : Z) (subs : list sub) : list Z :=
  sorted_ints (group_rounds cd window subs).*1.

Lemma all_rounds_elem cd window subs r :
  r ∈ all_rounds cd window subs <-> exists x, candidate cd window subs x /\ drand_round x = r.
Proof.
  unfold all_rounds. rewrite sorted_ints_perm. destruct (group_rounds_spec cd window subs) as [_ Hget].
  assert (r ∈ (group_rounds cd window subs).*1 <-> get_at r (group_rounds cd window subs) <> None) as ->.
  { rewrite get_none. split; [naive_solver|apply dec_stable]. }
  rewrite Hget. unfold round_subs. destruct (filter _ subs) as [|x k] eqn:E.
  - split; [done|]. intros (x & [Hx He] & Hr).
    assert (x ∈ filter (fun s => eligible cd window s = true /\ drand_round s = r) subs) as Hin
      by by apply list_elem_of_filter.
    rewrite E in Hin. set_solver.
  - split; [|done]. intros _. exists x.
    assert (x ∈ filter (fun s => eligible cd window s = true /\ drand_round s = r) subs) as [[He Hr] Hx]%list_elem_of_filter
      by (rewrite E; constructor). done.
Qed.

(** The batch of a window, by the reference definition. *)
Definition batch_of (subs : list sub) (b : Z) (cd : cmap Z) (window : Z) : list sub :=
  (picks b (groups_at cd window subs) (all_rounds cd window subs) [] ∅).1.

Lemma select_batch_of subs b cd window pool : 0 < b ->
  (select_batch_and_distribute subs b cd window pool).1 = batch_of subs b cd window.
Proof.
  intros Hb. unfold select_batch_and_distribute, batch_of. destruct (Z.leb_spec b 0); [lia|]. cbn [orb].
  case_bool_decide as Hs; [by subst subs|].
  case_bool_decide as Hg; [unfold all_rounds; by rewrite Hg|]. cbn [fst].
  pose proof (rounds_loop_picks b (fdiv pool (of_int b)) (group_rounds cd window subs)
    (all_rounds cd window subs) (Selection [] ∅ ∅)) as H1. cbv zeta in H1. cbn [batch claimed] in H1.
  rewrite (picks_ext b _ (groups_at cd window subs)) in H1 by (intros; apply round_groups).
  unfold all_rounds in *. rewrite <- H1; [done|]. intros r. rewrite round_groups. apply by_prompt_good.
Qed.

Lemma batch_of_picked subs b cd window : 0 < b ->
  exists cl, picked cd window b subs (all_rounds cd window subs) (batch_of subs b cd window) cl.
Proof.
  intros Hb. eexists. apply (picks_picked cd window b subs (all_rounds cd window subs) []).
  - apply sorted_ints_sorted.
  - intros x Hx. right. apply all_rounds_elem. eauto.
  - split; cbn; [constructor|set_solver|lia|set_solver|set_solver].
Qed.

(** ** Permuted submissions *)

Lemma by_prompt_keys_perm l l' : l ≡ₚ l' -> (by_prompt l).*1 ≡ₚ (by_prompt l').*1.
Proof.
  intros Hp. destruct (by_prompt_spec l) as [H1 H2], (by_prompt_spec l') as [H3 H4].
  apply NoDup_Permutation; [done..|]. intros p.
  assert (forall (d : groups), p ∈ d.*1 <-> get_at p d <> None) as Hk.
  { intros d. rewrite get_none. split; [naive_solver|apply dec_stable]. }
  rewrite !Hk, H2, H4. assert (filter (fun s => prompt s = p) l ≡ₚ filter (fun s => prompt s = p) l') as Hf by by rewrite Hp.
  destruct (filter _ l), (filter _ l'); try done; [by apply Permutation_nil_cons in Hf|].
  symmetry in Hf. by apply Permutation_nil_cons in Hf.
Qed.

Lemma available_keys (cl : gset Z) (g : groups) : (filter (fun pl => pl.1 ∉ cl) g).*1 = filter (fun p => p ∉ cl) g.*1.
Proof.
  induction g as [|[p l] g IH]; [done|]. rewrite fmap_cons, !filter_cons. cbn [fst].
  case_decide; rewrite ?fmap_cons; cbn; congruence.
Qed.

Lemma get_filter (cl : gset Z) (g : groups) p : p ∉ cl -> get_at p (filter (fun pl => pl.1 ∉ cl) g) = get_at p g.
Proof.
  intros Hp. unfold get_at. f_equal. induction g as [|[q l] g IH]; [done|]. rewrite filter_cons. cbn [fst].
  case_decide as Hq; cbn [List.find fst]; destruct (Z.eqb_spec q p) as [->|]; done.
Qed.

Lemma omap_ext_elem {A B} (f g : A -> option B) (l : list A) : (forall x, x ∈ l -> f x = g x) -> omap f l = omap g l.
Proof.
  induction l as [|x l IH]; intros H; [done|]. cbn [omap list_omap]. rewrite (H x) by constructor.
  rewrite IH; [done|]. intros; apply H; by constructor.
Qed.

Lemma picks_perm cd window b subs subs' rounds bt cl :
  subs ≡ₚ subs' -> key_inj prompt_canonical_key (prompt <$> subs) -> key_inj within_slot_key subs ->
  picks b (groups_at cd window subs) rounds bt cl = picks b (groups_at cd window subs') rounds bt cl.
Proof.
  intros Hp Hinj1 Hinj2. revert bt cl. induction rounds as [|r rounds IH]; intros bt cl; cbn [picks]; [done|].
  destruct (_ <=? 0); [done|]. unfold groups_at. rewrite !available_keys.
  assert (round_subs cd window subs r ≡ₚ round_subs cd window subs' r) as Hr by (unfold round_subs; by rewrite Hp).
  set (l := round_subs cd window subs r) in *. set (l' := round_subs cd window subs' r) in *.
  assert (forall x, x ∈ l -> x ∈ subs) as Hsub by (intros x [_ Hx]%list_elem_of_filter; done).
  assert (sorted_by prompt_canonical_key (filter (fun p => p ∉ cl) (by_prompt l).*1)
          = sorted_by prompt_canonical_key (filter (fun p => p ∉ cl) (by_prompt l').*1)) as Hsort.
  { apply sorted_by_unique; [by rewrite (by_prompt_keys_perm l l' Hr)|].
    assert (forall p, p ∈ filter (fun p => p ∉ cl) (by_prompt l).*1 -> p ∈ prompt <$> subs) as Hk.
    { intros p [_ Hk]%list_elem_of_filter. apply groups_at_keys in Hk as (x & [Hx _] & _ & <-).
      by apply list_elem_of_fmap_2. }
    intros p q Hp1 Hq1. apply Hinj1; by apply Hk. }
  rewrite <- Hsort. set (ps := take _ _).
  assert (reps (filter (fun pl => pl.1 ∉ cl) (by_prompt l)) ps = reps (filter (fun pl => pl.1 ∉ cl) (by_prompt l')) ps) as ->.
  { unfold reps. apply omap_ext_elem. intros p Hp1.
    assert (p ∉ cl) as Hncl.
    { unfold ps in Hp1. apply elem_of_take in Hp1 as (i & Hi%list_elem_of_lookup_2 & _).
      rewrite sorted_by_perm in Hi. by apply list_elem_of_filter in Hi as [? _]. }
    rewrite !get_filter by done. destruct (by_prompt_spec l) as [_ ->], (by_prompt_spec l') as [_ ->].
    assert (filter (fun s => prompt s = p) l ≡ₚ filter (fun s => prompt s = p) l') as Hf by by rewrite Hr.
    assert (representative (filter (fun s => prompt s = p) l) = representative (filter (fun s => prompt s = p) l')) as Hrep.
    { apply representative_unique; [done|]. intros x y [_ Hx]%list_elem_of_filter [_ Hy]%list_elem_of_filter.
      apply Hinj2; auto. }
    destruct (filter _ l), (filter _ l'); try done; cbn. }
  apply IH.
Qed.

(** ** Claims *)

(** C28: what a window trains on.  The batch has at most [b] submissions, of distinct
    prompts, none in cooldown; each comes from the earliest drand round of its
    prompt and, in that round, has the least canonical key; and a batch with a
    slot left has a slot for every eligible prompt of the window. *)
Theorem batch_selection_exact (subs : list sub) (b : Z) (cd : cmap Z) (window : Z) (pool : float) :
  0 < b ->
  let bt := (select_batch_and_distribute subs b cd window pool).1 in
  Z.of_nat (length bt) <= b /\ NoDup (prompt <$> bt) /\
  (forall s, s ∈ bt -> s ∈ subs /\ is_in_cooldown (prompt s) window cd = false /\
     forall x, x ∈ subs -> is_in_cooldown (prompt x) window cd = false -> prompt x = prompt s ->
       drand_round s <= drand_round x /\
       (drand_round x = drand_round s -> bytes_ltb (within_slot_key x) (within_slot_key s) = false)) /\
  (Z.of_nat (length bt) < b ->
   forall x, x ∈ subs -> is_in_cooldown (prompt x) window cd = false -> prompt x ∈ prompt <$> bt).
Proof.
  intros Hb bt. unfold bt. rewrite select_batch_of by done.
  destruct (batch_of_picked subs b cd window Hb) as [cl [Hnd Hcl Hle Hwin Hall]].
  assert (forall x, x ∈ subs -> is_in_cooldown (prompt x) window cd = false -> candidate cd window subs x) as Hcand.
  { intros x Hx He. split; [done|]. unfold eligible. by rewrite He. }
  split_and!; [done|done| |].
  - intros s Hs. destruct (Hwin s Hs) as [[Hin He] Hfirst]. unfold eligible in He. apply negb_true_iff in He.
    split_and!; [done|done|]. intros x Hx Hxe Hxp. exact (Hfirst x (Hcand x Hx Hxe) Hxp).
  - intros Hlt x Hx He. apply Hcl, Hall; [done|by apply Hcand|]. apply all_rounds_elem. eauto.
Qed.

Definition w_subs : list sub :=
  [Sub 1 "a" 5 [1] None 10; Sub 2 "b" 5 [2] None 9; Sub 3 "c" 6 [3] None 10; Sub 4 "d" 7 [4] None 10].
Definition w_cd : cmap Z := CMap 4 {[7 := 20]}.

Lemma batch_selection_exact_witness :
  prompt <$> (select_batch_and_distribute w_subs 3 w_cd 21 fone).1 = [5; 6] /\
  forall x, x ∈ w_subs -> is_in_cooldown (prompt x) 21 w_cd = false ->
    prompt x ∈ prompt <$> (select_batch_and_distribute w_subs 3 w_cd 21 fone).1.
Proof.
  split; [vm_compute; reflexivity|].
  refine (proj2 (proj2 (proj2 (batch_selection_exact w_subs 3 w_cd 21 fone ltac:(lia)))) _). vm_compute. reflexivity.
Defined.

(** Two validators agree.  Whatever order the submissions arrived in, the batch
    is the same list, provided the canonical keys tell the prompts and the
    submissions apart (no SHA-256 collision, no submission held twice). *)
Theorem batch_order_independent (subs subs' : list sub) (b : Z) (cd : cmap Z) (window : Z) (pool : float) :
  subs ≡ₚ subs' -> key_inj prompt_canonical_key (prompt <$> subs) -> key_inj within_slot_key subs ->
  (select_batch_and_distribute subs b cd window pool).1 = (select_batch_and_distribute subs' b cd window pool).1.
Proof.
  intros Hp H1 H2. destruct (Z.le_gt_cases b 0) as [Hb|Hb].
  - unfold select_batch_and_distribute. destruct (Z.leb_spec b 0); [done|lia].
  - rewrite !select_batch_of by done. unfold batch_of. rewrite (picks_perm cd window b subs subs') by done.
    do 2 f_equal. unfold all_rounds. apply sorted_ints_unique.
    destruct (group_rounds_spec cd window subs) as [Hnd _], (group_rounds_spec cd window subs') as [Hnd' _].
    apply NoDup_Permutation; [done..|]. intros r.
    pose proof (all_rounds_elem cd window subs r) as E1. pose proof (all_rounds_elem cd window subs' r) as E2.
    unfold all_rounds, candidate in E1, E2. rewrite sorted_ints_perm in E1, E2. rewrite E1, E2.
    by setoid_rewrite Hp.
Qed.

Lemma key_inj_dec {A} (key : A -> list Z) `{!EqDecision A} (l : list A) :
  forallb (fun x => forallb (fun y => implb (bool_decide (key x = key y)) (bool_decide (x = y))) l) l = true ->
  key_inj key l.
Proof.
  rewrite forallb_forall. intros H x y Hx%list_elem_of_In Hy%list_elem_of_In E. specialize (H x Hx).
  rewrite forallb_forall in H. specialize (H y Hy). rewrite bool_decide_true in H by done. cbn in H.
  by apply bool_decide_eq_true in H.
Qed.

#[export] Instance sub_eq_dec : EqDecision sub.
Proof. solve_decision. Defined.

Lemma batch_order_independent_witness :
  (select_batch_and_distribute w_subs 2 w_cd 21 fone).1 = (select_batch_and_distribute (rev w_subs) 2 w_cd 21 fone).1.
Proof.
  apply (batch_order_independent w_subs (rev w_subs)).
  - apply Permutation_rev.
  - apply (key_inj_dec prompt_canonical_key (prompt <$> w_subs)). vm_compute. reflexivity.
  - apply (key_inj_dec within_slot_key w_subs). vm_compute. reflexivity.
Defined.

(** The boundary round adds a hotkey's shares in arrival order, so its reward, a
    sum of floats, depends on that order in the last bit. *)
Definition w_boundary (ps : list Z) : list sub :=
  (fun p => Sub p "h" p [p] None 1) <$> ps.
Definition w_others : list sub :=
  [Sub 11 "x" 2 [11] None 1; Sub 12 "y" 3 [12] None 1; Sub 13 "z" 3 [13] None 1].

Lemma boundary_reward_order :
  w_boundary [1; 2; 3] ++ w_others ≡ₚ w_boundary [1; 3; 2] ++ w_others /\
  (select_batch_and_distribute (w_boundary [1; 2; 3] ++ w_others) 2 w_cd 21 fone).2 !! "h"%string
  <> (select_batch_and_distribute (w_boundary [1; 3; 2] ++ w_others) 2 w_cd 21 fone).2 !! "h"%string.
Proof.
  split; [|vm_compute; discriminate]. apply Permutation_app_tail.
  unfold w_boundary. apply fmap_Permutation. constructor. exact (Permutation_app_comm [2] [3]).
Qed.

(** ** The explanation mirrors the selection *)

Definition sel_in (m : gmap Z meta) (i : Z) : Prop := exists e, m !! i = Some e /\ selected_for_batch e = true.

Lemma explain_subs chosen boundary rep rank per_miner l m :
  (forall s, s ∈ l -> is_Some (m !! sub_id s)) ->
  let m' := foldl (explain_sub chosen boundary rep rank per_miner) m l in
  (forall i, sel_in m' i <-> sel_in m i \/ (chosen = true /\ i = rep /\ i ∈ sub_id <$> l)) /\
  (forall i, is_Some (m' !! i) <-> is_Some (m !! i)).
Proof.
  revert m. induction l as [|s l IH]; intros m Hdom; cbn [foldl].
  - split; [|done]. intros i. split; [by left|]. intros [?|(_ & _ & ?)]; [done|set_solver].
  - set (m1 := explain_sub chosen boundary rep rank per_miner m s).
    assert (forall i, is_Some (m1 !! i) <-> is_Some (m !! i)) as Hdom1.
    { intros i. unfold m1, explain_sub. rewrite lookup_alter. case_decide; [|done]. subst. by rewrite fmap_is_Some. }
    assert (forall i, sel_in m1 i <-> sel_in m i \/ (chosen = true /\ i = rep /\ i = sub_id s)) as Hsel1.
    { intros i. unfold sel_in, m1, explain_sub. rewrite lookup_alter. case_decide as Hi.
      - subst i. destruct (Hdom s ltac:(constructor)) as [e He]. rewrite He. cbn. split.
        + intros (e' & [= <-] & H). cbn in H. apply orb_true_iff in H as [H|[H1 H2%Z.eqb_eq]%andb_true_iff]; [left; eauto|].
          right. done.
        + intros [(e' & [= <-] & H)|(-> & H & _)]; (eexists; split; [done|]); cbn; [by rewrite H|].
          rewrite (proj2 (Z.eqb_eq _ _) H). apply orb_true_r.
      - split; [by left|]. intros [?|(_ & _ & ->)]; done. }
    destruct (IH m1) as [H1 H2]; [intros x Hx; apply Hdom1, Hdom; by constructor|]. split.
    + intros i. rewrite H1, Hsel1, fmap_cons, elem_of_cons. tauto.
    + intros i. by rewrite H2.
Qed.

Lemma explain_prompts boundary chosen share g ps m rank :
  good_groups g -> (forall p, p ∈ ps -> p ∈ g.*1) ->
  (forall p l s, (p, l) ∈ g -> s ∈ l -> is_Some (m !! sub_id s)) ->
  let m' := (foldl (explain_prompt boundary chosen share g) (m, rank) ps).1 in
  (forall i, sel_in m' i <-> sel_in m i \/ i ∈ sub_id <$> reps g (filter (fun p => p ∈ chosen) ps)) /\
  (forall i, is_Some (m' !! i) <-> is_Some (m !! i)).
Proof.
  intros Hg. revert m rank. induction ps as [|p ps IH]; intros m rank Hps Hdom; cbn [foldl].
  - split; [|done]. intros i. rewrite filter_nil. split; [by left|]. intros [?|Hi]; [done|]. by apply not_elem_of_nil in Hi.
  - assert (p ∈ g.*1) as ([p' l] & Hp & Hin)%list_elem_of_fmap by (apply Hps; constructor). cbn in Hp. subst p'.
    destruct Hg as [Hnd Hgood]. destruct (Hgood p l Hin) as [Hne Hpr].
    destruct (representative_some l Hne) as [s Hs].
    set (m1 := foldl (explain_sub (bool_decide (p ∈ chosen)) boundary (sub_id s) (rank + 1)
      (fdiv share (of_int (Z.of_nat (length l))))) m l).
    assert (explain_prompt boundary chosen share g (m, rank) p = (m1, rank + 1)) as ->.
    { unfold explain_prompt. by rewrite (proj2 (get_elem g p l Hnd) Hin), Hs. }
    destruct (explain_subs (bool_decide (p ∈ chosen)) boundary (sub_id s) (rank + 1)
      (fdiv share (of_int (Z.of_nat (length l)))) l m) as [Hsel Hd]; [intros x Hx; by eapply Hdom|].
    fold m1 in Hsel, Hd.
    destruct (IH m1 (rank + 1)) as [IH1 IH2]; [intros; apply Hps; by constructor|
      intros q k x Hq Hx; apply Hd; by eapply Hdom|].
    cbv zeta in IH1, IH2 |- *.
    split; [|intros i; etrans; [apply IH2|apply Hd]].
    assert (sub_id s ∈ sub_id <$> l) as Hsl.
    { apply list_elem_of_fmap_2. by apply representative_spec in Hs as [? _]. }
    intros i. rewrite IH1, Hsel. destruct (decide (p ∈ chosen)) as [Hc|Hc].
    + rewrite bool_decide_true, filter_cons_True by done.
      assert (forall k, reps g (p :: k) = s :: reps g k) as ->.
      { intros k. unfold reps. cbn. rewrite (proj2 (get_elem g p l Hnd) Hin). cbn. by rewrite Hs. }
      rewrite fmap_cons, elem_of_cons. split; [intros [[?|(_ & -> & _)]|?]; auto|].
      intros [?|[->|?]]; auto.
    + rewrite bool_decide_false, filter_cons_False by done. split; [intros [[?|(? & _)]|?]; auto; done|]. intros [?|?]; auto.
Qed.

Lemma filter_take_self {A} `{EqDecision A} (l : list A) n : NoDup l -> filter (fun x => x ∈ take n l) l = take n l.
Proof.
  intros Hnd. pose proof (take_drop n l) as E. rewrite <- E in Hnd. apply NoDup_app in Hnd as (_ & Hdis & _).
  set (a := take n l) in *. set (d := drop n l) in *. clearbody a d. subst l.
  rewrite filter_app, list_filter_all by done.
  replace (filter (fun x => x ∈ a) d) with (@nil A); [apply app_nil_r|].
  destruct (filter _ d) as [|x k] eqn:E; [done|].
  assert (x ∈ filter (fun x => x ∈ a) d) as [Hx Hd]%list_elem_of_filter by (rewrite E; constructor).
  by apply Hdis in Hx.
Qed.

Lemma explain_loop_picks b share by_round rounds bt cl m rank :
  (forall r, good_groups (default [] (get_at r by_round))) ->
  (forall r p l s, (p, l) ∈ default [] (get_at r by_round) -> s ∈ l -> is_Some (m !! sub_id s)) ->
  (forall i, sel_in m i <-> i ∈ sub_id <$> bt) ->
  forall i, sel_in (explain_loop b share by_round rounds (Z.of_nat (length bt)) cl (m, rank)) i <->
    i ∈ sub_id <$> (picks b (fun r => default [] (get_at r by_round)) rounds bt cl).1.
Proof.
  intros Hg. revert bt cl m rank. induction rounds as [|r rounds IH]; intros bt cl m rank Hdom Hsel i; [apply Hsel|].
  cbn [explain_loop picks]. destruct (Z.leb_spec (b - Z.of_nat (length bt)) 0); [apply Hsel|].
  set (remaining := b - Z.of_nat (length bt)) in *.
  set (available := filter (fun pl => pl.1 ∉ cl) (default [] (get_at r by_round))).
  assert (good_groups available) as Hga by (apply filter_good, Hg).
  assert (forall p l s, (p, l) ∈ available -> s ∈ l -> is_Some (m !! sub_id s)) as Hdoma
    by (intros p l s [_ Hin]%list_elem_of_filter; by eapply Hdom).
  set (ps := sorted_by prompt_canonical_key available.*1).
  assert (forall p, p ∈ ps -> p ∈ available.*1) as Hps by (intros p Hp; unfold ps in Hp; by rewrite sorted_by_perm in Hp).
  assert (NoDup ps) as Hnd by (unfold ps; rewrite sorted_by_perm; apply Hga).
  destruct available as [|a0 rest] eqn:Ea; [|rewrite <- Ea in *].
  { unfold ps. cbn [fmap list_fmap sorted_by foldr]. rewrite take_nil. change (reps [] []) with (@nil sub).
    rewrite app_nil_r, list_to_set_nil, (left_id_L ∅ (∪)). by apply IH. }
  destruct (Z.leb_spec (Z.of_nat (length ps)) remaining) as [Hle|Hgt].
  - rewrite take_ge by lia.
    destruct (foldl (explain_prompt false ps share available) (m, rank) ps) as [m' rank'] eqn:Em.
    destruct (explain_prompts false ps share available ps m rank Hga Hps Hdoma) as [Hs' Hd']. rewrite Em in Hs', Hd'. cbn [fst] in Hs', Hd'.
    rewrite list_filter_all in Hs' by done.
    assert (length (bt ++ reps available ps) = (length bt + length ps)%nat) as Hlen.
    { rewrite length_app. f_equal. rewrite <- (length_fmap prompt). by rewrite reps_prompts. }
    replace (Z.of_nat (length bt) + Z.of_nat (length ps)) with (Z.of_nat (length (bt ++ reps available ps))) by lia.
    apply IH.
    + intros r' p l s Hin Hs. apply Hd'. by eapply Hdom.
    + intros j. rewrite Hs', Hsel, fmap_app, elem_of_app. done.
  - set (chosen := take (Z.to_nat remaining) ps).
    destruct (explain_prompts true chosen (fdiv (fmul (of_int remaining) share) (of_int (Z.of_nat (length ps)))) available ps m rank
      Hga Hps Hdoma) as [Hs' _]. cbv zeta in Hs'.
    unfold chosen in Hs'. rewrite filter_take_self in Hs' by done. fold chosen in Hs'. rewrite Hs', Hsel.
    assert (length (reps available chosen) = Z.to_nat remaining) as Hrl.
    { rewrite <- (length_fmap prompt), reps_prompts.
      - unfold chosen. rewrite length_take. lia.
      - done.
      - intros p Hp. apply Hps. unfold chosen in Hp. by apply elem_of_take in Hp as (j & Hj%list_elem_of_lookup_2 & _). }
    assert ((picks b (fun r => default [] (get_at r by_round)) rounds (bt ++ reps available chosen) (list_to_set chosen ∪ cl)).1
            = bt ++ reps available chosen) as ->.
    { destruct rounds as [|r' rounds']; [done|]. cbn [picks].
      destruct (Z.leb_spec (b - Z.of_nat (length (bt ++ reps available chosen))) 0) as [|Hbad]; [done|].
      rewrite length_app, Hrl in Hbad. lia. }
    rewrite fmap_app, elem_of_app. done.
Qed.

Lemma NoDup_fmap_elem {A B} (f : A -> B) (l : list A) x y : NoDup (f <$> l) -> x ∈ l -> y ∈ l -> f x = f y -> x = y.
Proof.
  intros Hnd (i & Hi)%list_elem_of_lookup (j & Hj)%list_elem_of_lookup E.
  assert (i = j) as ->; [|congruence].
  apply (NoDup_lookup (f <$> l) i j (f x)); [done|by rewrite list_lookup_fmap, Hi|by rewrite list_lookup_fmap, Hj, E].
Qed.

Lemma lookup_initial subs s : s ∈ subs ->
  (list_to_map ((fun x => (sub_id x, initial_meta)) <$> subs) : gmap Z meta) !! sub_id s = Some initial_meta.
Proof.
  induction subs as [|x subs IH]; intros Hs; [by apply not_elem_of_nil in Hs|]. cbn.
  destruct (decide (sub_id x = sub_id s)) as [->|Hne]; [apply lookup_insert_eq|].
  rewrite lookup_insert_ne by done. apply IH. by apply elem_of_cons in Hs as [->|].
Qed.

Lemma unselected_initial subs i : ~ sel_in (list_to_map ((fun x => (sub_id x, initial_meta)) <$> subs)) i.
Proof.
  intros (e & He & Hsel). apply elem_of_list_to_map_2, list_elem_of_fmap in He as (x & [= _ ->] & _). done.
Qed.

(** Marking the cooldowns keeps the keys and selects nothing. *)
Lemma mark_cooldown cd window subs m :
  let m' := foldl (fun m s => if eligible cd window s then m
                              else alter (set_reason "prompt_in_cooldown_at_selection") (sub_id s) m) m subs in
  forall i, (sel_in m' i <-> sel_in m i) /\ (is_Some (m' !! i) <-> is_Some (m !! i)).
Proof.
  revert m. induction subs as [|s subs IH]; intros m; cbn [foldl]; [done|]. cbv zeta. intros i.
  destruct (IH (if eligible cd window s then m
    else alter (set_reason "prompt_in_cooldown_at_selection") (sub_id s) m) i) as [H1 H2].
  rewrite H1, H2. destruct (eligible cd window s); [done|]. unfold sel_in. rewrite lookup_alter.
  case_decide as Hi; [subst i|done]. rewrite fmap_is_Some. split; [|done]. destruct (m !! sub_id s) as [e|]; cbn; [|done].
  split; intros (e' & [= <-] & H); eexists; (split; [done|]); exact H.
Qed.

(** The explanation mirrors the selection.  Of the submissions of a window (told
    apart by their identity), exactly those of the batch are explained as selected. *)
Theorem explain_mirrors (subs : list sub) (b : Z) (cd : cmap Z) (window : Z) (pool : float) (s : sub) :
  0 < b -> NoDup (sub_id <$> subs) -> s ∈ subs ->
  (exists e, explain_batch_selection subs b cd window pool !! sub_id s = Some e /\ selected_for_batch e = true)
  <-> s ∈ (select_batch_and_distribute subs b cd window pool).1.
Proof.
  intros Hb Hid Hs. rewrite select_batch_of by done. fold (sel_in (explain_batch_selection subs b cd window pool) (sub_id s)).
  destruct (batch_of_picked subs b cd window Hb) as [cl [_ _ _ Hwin _]].
  unfold explain_batch_selection. destruct (Z.leb_spec b 0); [lia|]. cbn [orb].
  rewrite bool_decide_false by (intros ->; by apply not_elem_of_nil in Hs).
  set (m0 := list_to_map _). set (m1 := foldl _ m0 subs).
  pose proof (mark_cooldown cd window subs m0) as Hm. cbv zeta in Hm. fold m1 in Hm.
  change 0 with (Z.of_nat (length (@nil sub))) at 1. rewrite explain_loop_picks.
  - rewrite (picks_ext b _ (groups_at cd window subs)) by (intros; apply round_groups).
    change (picks _ _ _ _ _).1 with (batch_of subs b cd window). split.
    + intros (x & Hx & Hin)%list_elem_of_fmap. destruct (Hwin x Hin) as [[Hxs _] _].
      by rewrite (NoDup_fmap_elem _ _ _ _ Hid Hs Hxs Hx).
    + apply list_elem_of_fmap_2.
  - intros r. rewrite round_groups. apply by_prompt_good.
  - intros r p l x Hin Hx. apply Hm. rewrite round_groups in Hin.
    apply get_elem in Hin; [|apply by_prompt_good]. destruct (by_prompt_spec (round_subs cd window subs r)) as [_ Hget].
    rewrite Hget in Hin. exists initial_meta. apply lookup_initial.
    destruct (filter _ _) as [|a k] eqn:E; [done|]. injection Hin as <-. rewrite <- E in Hx.
    by apply list_elem_of_filter in Hx as [_ [_ Hx]%list_elem_of_filter].
  - intros i. rewrite (proj1 (Hm i)). split; [intros Hi; by apply unselected_initial in Hi|].
    intros Hi. by apply not_elem_of_nil in Hi.
Qed.

Lemma explain_mirrors_witness :
  exists e, explain_batch_selection w_subs 3 w_cd 21 fone !! 2 = Some e /\ selected_for_batch e = true.
Proof.
  apply (explain_mirrors w_subs 3 w_cd 21 fone (Sub 2 "b" 5 [2] None 9)); [lia| | |].
  - apply (bool_decide_unpack _). vm_compute. exact I.
  - do 1 right. left.
  - apply (bool_decide_unpack _). vm_compute. exact I.
Defined.
