(* ===== verification/SignerJournal.v ===== *)
(** * SignerJournal: the durable journal of the signer's operations

    Models [reliquary/signer/journal.py].  The two SQLite tables are maps from
    their primary keys; a method's statements run in one transaction under the
    lock, so a method that raises leaves the tables as they were.  A response is
    stored as canonical JSON and read back with [json.loads]: the row holds the
    value the text denotes, whose objects have sorted keys.  Clock readings are
    arguments. *)

From S2P Require Import Prelude.

#[local] Open Scope Z_scope.

Inductive op_state := pending | completed | failed | uncertain.

Record operation := Operation {
  op_kind : string;
  payload_digest : string;
  state : op_state;
  response_json : option pyval;
  error_type : option string;
  created_at : Z;
  updated_at : Z;
}.

Record journal := Journal {
  operations : gmap string operation;
  cursors : gmap string Z;
}.

(** [Reservation(cached_response)]: without a response, the caller may act. *)
Record reservation := Reservation { cached_response : option pyval }.

(** ** [json.dumps(..., sort_keys=True)] and back *)

Definition key_leb (k1 k2 : string) : bool := String.leb k1 k2.

Fixpoint insert_key (kv : string * pyval) (d : list (string * pyval)) : list (string * pyval) :=
  match d with
  | [] => [kv]
  | kv' :: d' => if key_leb kv.1 kv'.1 then kv :: d else kv' :: insert_key kv d'
  end.

Fixpoint sort_keys (v : pyval) : pyval :=
  match v with
  | VList l => VList (List.map sort_keys l)
  | VDict d => VDict (List.fold_right (fun kv acc => insert_key (kv.1, sort_keys kv.2) acc) [] d)
  | _ => v
  end.

(** ** Operations of the journal *)

(** The kinds a process loss leaves retryable. *)
Definition pure_kinds : list string := ["checkpoint-sign"; "rl-index-sign"; "rl-observation-sign"]%string.

Definition set_state (st : op_state) (response : option pyval) (error : option string) (now : Z) (o : operation) : operation :=
  Operation (op_kind o) (payload_digest o) st response error (created_at o) now.

(** [__init__] on an existing file: pure operations that were pending failed. *)
Definition restart_row (now : Z) (o : operation) : operation :=
  if bool_decide (op_kind o ∈ pure_kinds) then
    match state o with
    | pending => set_state failed (response_json o) (Some "signer_restart"%string) now o
    | _ => o
    end
  else o.
Definition open_journal (now : Z) (j : journal) : journal :=
  Journal (restart_row now <$> operations j) (cursors j).
Definition empty_journal : journal := Journal ∅ ∅.

Definition last_weight_epoch (j : journal) : option Z := cursors j !! "weight_epoch"%string.

Record request := Request {
  operation_id : string;
  kind : string;
  digest : string;
  cursor_name : option string;
  cursor_value : option Z;
  cursor_strict : bool;
}.

(** SQLite's INTEGER is 64 bits wide. *)
Definition fits_integer (z : Z) : bool := (- 2 ^ 63 <=? z) && (z <? 2 ^ 63).

(** The cursor guard and update of [reserve]. *)
Definition move_cursor (r : request) (j : journal) : result journal :=
  match cursor_name r with
  | None => Ok j
  | Some name =>
      match cursor_value r with
      | None => Raise ValueError
      | Some v =>
          let stale := match cursors j !! name with
                       | None => false
                       | Some c => (v <? c) || (cursor_strict r && (v =? c))
                       end in
          if stale then Raise JournalReplay
          else if fits_integer v then Ok (Journal (operations j) (<[name := v]> (cursors j)))
          else Raise OverflowError
      end
  end.

Definition reserve (r : request) (now : Z) : method journal reservation := fun j =>
  match operations j !! operation_id r with
  | Some row =>
      if negb (String.eqb (op_kind row) (kind r)) || negb (String.eqb (payload_digest row) (digest r))
      then (Raise JournalConflict, j)
      else
        match state row with
        | completed =>
            match response_json row with
            | Some v => (Ok (Reservation (Some v)), j)
            | None => (Raise TypeError, j)
            end
        | uncertain => (Raise JournalUncertain, j)
        | pending => (Raise JournalConflict, j)
        | failed =>
            (Ok (Reservation None),
             Journal (<[operation_id r := set_state pending (response_json row) None now row]> (operations j)) (cursors j))
        end
  | None =>
      match move_cursor r j with
      | Raise e => (Raise e, j)
      | Ok j' =>
          (Ok (Reservation None),
           Journal (<[operation_id r := Operation (kind r) (digest r) pending None None now now]> (operations j')) (cursors j'))
      end
  end.

(** [UPDATE ... WHERE operation_id=? AND state='pending'], and its row count. *)
Definition update_pending (id : string) (f : operation -> operation) (j : journal) : Z * journal :=
  match operations j !! id with
  | Some row =>
      match state row with
      | pending => (1, Journal (<[id := f row]> (operations j)) (cursors j))
      | _ => (0, j)
      end
  | None => (0, j)
  end.

Definition complete (id : string) (response : pyval) (now : Z) : method journal unit := fun j =>
  let '(updated, j') := update_pending id (set_state completed (Some (sort_keys response)) None now) j in
  if negb (updated =? 1) then (Raise JournalConflict, j') else (Ok tt, j').

(** [error_type[:100]]; an error type is the ASCII name of a class. *)
Definition fail_definite (id error : string) (now : Z) (j : journal) : journal :=
  (update_pending id (fun o => set_state failed (response_json o) (Some (String.substring 0 100 error)) now o) j).2.

Definition mark_uncertain (id error : string) (now : Z) (j : journal) : journal :=
  (update_pending id (fun o => set_state uncertain (response_json o) (Some (String.substring 0 100 error)) now o) j).2.

(** ** Runs *)

Inductive event :=
  | EReserve (r : request)
  | EComplete (id : string) (response : pyval)
  | EFail (id error : string)
  | EUncertain (id error : string)
  | ERestart.

(** One call, at some clock reading; the process may stop between calls. *)
Inductive journal_step : event -> journal -> journal -> Prop :=
  | step_reserve r now j : journal_step (EReserve r) j (reserve r now j).2
  | step_complete id v now j : journal_step (EComplete id v) j (complete id v now j).2
  | step_fail id e now j : journal_step (EFail id e) j (fail_definite id e now j)
  | step_uncertain id e now j : journal_step (EUncertain id e) j (mark_uncertain id e now j)
  | step_restart now j : journal_step ERestart j (open_journal now j).

Inductive journal_run : list event -> journal -> journal -> Prop :=
  | run_nil j : journal_run [] j j
  | run_cons e es j j1 j2 : journal_step e j j1 -> journal_run es j1 j2 -> journal_run (e :: es) j j2.

Lemma run_invariant (P : journal -> Prop) (Q : event -> Prop) es j j' :
  (forall e a b, Q e -> P a -> journal_step e a b -> P b) ->
  Forall Q es -> P j -> journal_run es j j' -> P j'.
Proof.
  intros Hstep HQ Hj Hrun. induction Hrun as [|e es j j1 j2 Hs _ IH]; [done|].
  apply Forall_cons in HQ as [He HQ]. eauto.
Qed.

(** ** How a step changes a row and a cursor *)

Lemma update_pending_lookup id f j i :
  operations (update_pending id f j).2 !! i =
  match operations j !! i with
  | Some row => Some (match state row with pending => if decide (i = id) then f row else row | _ => row end)
  | None => None
  end.
Proof.
  unfold update_pending. destruct (decide (i = id)) as [->|Hne].
  - destruct (operations j !! id) as [row|] eqn:E; [|by cbn; rewrite E]. destruct (state row) eqn:Es; cbn; rewrite ?E; try done.
    by rewrite lookup_insert_eq.
  - assert (operations (match operations j !! id with
      | Some row => match state row with pending => (1, Journal (<[id := f row]> (operations j)) (cursors j)) | _ => (0, j) end
      | None => (0, j) end).2 !! i = operations j !! i) as ->.
    { destruct (operations j !! id) as [row|]; [|done]. destruct (state row); cbn; try done. by rewrite lookup_insert_ne. }
    destruct (operations j !! i) as [row|]; [|done]. by destruct (state row).
Qed.

Lemma update_pending_cursors id f j : cursors (update_pending id f j).2 = cursors j.
Proof. unfold update_pending. destruct (operations j !! id) as [row|]; [|done]. by destruct (state row). Qed.

Lemma complete_journal id v now j :
  (complete id v now j).2 = (update_pending id (set_state completed (Some (sort_keys v)) None now) j).2.
Proof. unfold complete. destruct (update_pending _ _ j) as [n j']. by destruct (negb _). Qed.

(** [reserve] writes only the row it is asked for. *)
Lemma reserve_other r now j i : i <> operation_id r -> operations (reserve r now j).2 !! i = operations j !! i.
Proof.
  intros Hi. unfold reserve. destruct (operations j !! operation_id r) as [row|] eqn:E.
  - destruct (_ || _); [done|]. destruct (state row); cbn; try done; [by destruct (response_json row)|].
    by rewrite lookup_insert_ne.
  - unfold move_cursor. destruct (cursor_name r) as [n|]; cbn; [|by rewrite lookup_insert_ne].
    destruct (cursor_value r) as [v|]; [|done]. cbv zeta.
    destruct (match cursors j !! n with Some c => _ | None => _ end); [done|].
    destruct (fits_integer v); [|done]. cbn. by rewrite lookup_insert_ne.
Qed.

(** [reserve] on a row that exists: the row is kept unless it had failed. *)
Lemma reserve_row r now j row :
  operations j !! operation_id r = Some row -> state row <> failed ->
  (reserve r now j).2 = j /\ (reserve r now j).1 <> Ok (Reservation None).
Proof.
  intros E Hst. unfold reserve. rewrite E. destruct (_ || _); [done|]. destruct (state row); try done.
  by destruct (response_json row).
Qed.

Lemma reserve_granted_row r now j j1 : reserve r now j = (Ok (Reservation None), j1) ->
  exists row, operations j1 !! operation_id r = Some row /\ state row = pending /\
    op_kind row = kind r /\ payload_digest row = digest r.
Proof.
  unfold reserve. destruct (operations j !! operation_id r) as [row|] eqn:E.
  - destruct (String.eqb_spec (op_kind row) (kind r)) as [Hk|]; [|done].
    destruct (String.eqb_spec (payload_digest row) (digest r)) as [Hd|]; [|done]. cbn [negb orb].
    destruct (state row); try done; [by destruct (response_json row)|].
    intros [= <-]. eexists. cbn. rewrite lookup_insert_eq. split_and!; done.
  - destruct (move_cursor r j) as [j'|]; [|done]. intros [= <-]. eexists. cbn. rewrite lookup_insert_eq. split_and!; done.
Qed.

(** ** A granted chain write stays out of reach *)

Definition blocked (id : string) (j : journal) : Prop :=
  exists row, operations j !! id = Some row /\ state row <> failed /\ op_kind row ∉ pure_kinds.

Definition not_failed_by (id : string) (e : event) : Prop := forall err, e <> EFail id err.

Lemma update_pending_blocked id id' f j :
  (forall row, op_kind (f row) = op_kind row) -> (id' = id -> forall row, state (f row) <> failed) ->
  blocked id j -> blocked id (update_pending id' f j).2.
Proof.
  intros Hk Hf (row & E & Hst & Hkind). unfold blocked. rewrite update_pending_lookup, E.
  eexists. split; [done|]. destruct (state row) eqn:Es; try (rewrite Es; done).
  case_decide as Hi; [|by rewrite Es]. rewrite Hk. split; [by apply Hf|done].
Qed.

Lemma step_blocked id e j j' : not_failed_by id e -> blocked id j -> journal_step e j j' -> blocked id j'.
Proof.
  intros He Hb Hs. destruct Hs as [r now j|i v now j|i err now j|i err now j|now j].
  - destruct Hb as (row & E & Hst & Hkind). destruct (decide (operation_id r = id)) as [Hid|Hid].
    + subst id. destruct (reserve_row r now j row E Hst) as [-> _]. by exists row.
    + exists row. by rewrite reserve_other.
  - rewrite complete_journal. by apply update_pending_blocked.
  - apply update_pending_blocked; [done| |done]. intros ->. by destruct (He err).
  - by apply update_pending_blocked.
  - destruct Hb as (row & E & Hst & Hkind). exists row. unfold open_journal. cbn. rewrite lookup_fmap, E. cbn.
    unfold restart_row. rewrite bool_decide_false by done. done.
Qed.

(** ** A completed operation stays completed *)

Definition done_with (id k d : string) (v : pyval) (j : journal) : Prop :=
  exists row, operations j !! id = Some row /\ state row = completed /\ response_json row = Some v /\
    op_kind row = k /\ payload_digest row = d.

Lemma update_pending_done id k d v id' f j : done_with id k d v j -> done_with id k d v (update_pending id' f j).2.
Proof.
  intros (row & E & Hst & Hrest). exists row. rewrite update_pending_lookup, E, Hst. done.
Qed.

Lemma step_done id k d v e j j' : done_with id k d v j -> journal_step e j j' -> done_with id k d v j'.
Proof.
  intros Hd Hs. destruct Hs as [r now j|i w now j|i err now j|i err now j|now j].
  - destruct Hd as (row & E & Hst & Hrest). destruct (decide (operation_id r = id)) as [Hid|Hid].
    + subst id. destruct (reserve_row r now j row E) as [-> _]; [by rewrite Hst|]. by exists row.
    + exists row. by rewrite reserve_other.
  - rewrite complete_journal. by apply update_pending_done.
  - by apply update_pending_done.
  - by apply update_pending_done.
  - destruct Hd as (row & E & Hst & Hrest). exists row. unfold open_journal. cbn. rewrite lookup_fmap, E. cbn.
    unfold restart_row. rewrite Hst. by case_bool_decide.
Qed.

(** ** Cursors *)

Definition cursor_at_least (n : string) (v : Z) (j : journal) : Prop := exists c, cursors j !! n = Some c /\ v <= c.

Lemma move_cursor_at_least r j j' n v : move_cursor r j = Ok j' -> cursor_at_least n v j -> cursor_at_least n v j'.
Proof.
  unfold move_cursor. destruct (cursor_name r) as [m|]; [|by intros <-%(inj Ok)].
  destruct (cursor_value r) as [w|]; [|done]. cbv zeta. intros H (c & Hc & Hle).
  destruct (decide (m = n)) as [->|Hne].
  - rewrite Hc in H. destruct ((w <? c) || _) eqn:Eb; [done|]. apply orb_false_iff in Eb as [Hw%Z.ltb_ge _].
    destruct (fits_integer w); [|done]. apply (inj Ok) in H as <-. exists w. cbn. rewrite lookup_insert_eq. split; [done|lia].
  - destruct (match cursors j !! m with Some _ => _ | None => _ end); [done|]. destruct (fits_integer w); [|done].
    apply (inj Ok) in H as <-. exists c. cbn. by rewrite lookup_insert_ne.
Qed.

Lemma step_cursor n v e j j' : cursor_at_least n v j -> journal_step e j j' -> cursor_at_least n v j'.
Proof.
  intros Hc Hs. destruct Hs as [r now j|i w now j|i err now j|i err now j|now j].
  - unfold reserve. destruct (operations j !! operation_id r) as [row|].
    + destruct (_ || _); [done|]. destruct (state row); try done. by destruct (response_json row).
    + destruct (move_cursor r j) as [j1|] eqn:E; [|done]. exact (move_cursor_at_least r j j1 n v E Hc).
  - unfold cursor_at_least. by rewrite complete_journal, update_pending_cursors.
  - unfold cursor_at_least, fail_definite. by rewrite update_pending_cursors.
  - unfold cursor_at_least, mark_uncertain. by rewrite update_pending_cursors.
  - done.
Qed.

Lemma run_cursor n v es j j' : cursor_at_least n v j -> journal_run es j j' -> cursor_at_least n v j'.
Proof.
  intros Hc. apply (run_invariant (cursor_at_least n v) (fun _ => True)); [|by apply Forall_true|done].
  intros e a b _. apply step_cursor.
Qed.

(** ** Claims *)

(** C27: a chain write is signed at most once.  After an operation that is not pure
    was granted, no later call on its identity is granted, whatever happens in
    between (restarts included), unless a definite failure is recorded for it; and
    once it completed, every later call answers its recorded response or reports a
    conflict of content. *)
Theorem chain_write_granted_once (r : request) (now : Z) (j j1 : journal) :
  reserve r now j = (Ok (Reservation None), j1) -> kind r ∉ pure_kinds ->
  (forall es j2 r' now', Forall (not_failed_by (operation_id r)) es -> journal_run es j1 j2 ->
     operation_id r' = operation_id r -> (reserve r' now' j2).1 <> Ok (Reservation None)) /\
  (forall v now1 j2 es j3 r' now', complete (operation_id r) v now1 j1 = (Ok tt, j2) -> journal_run es j2 j3 ->
     operation_id r' = operation_id r ->
     reserve r' now' j3 =
       (if bool_decide (kind r' = kind r /\ digest r' = digest r) then Ok (Reservation (Some (sort_keys v)))
        else Raise JournalConflict, j3)).
Proof.
  intros Hres Hkind. destruct (reserve_granted_row r now j j1 Hres) as (row & Hrow & Hst & Hk & Hd). split.
  - intros es j2 r' now' Hes Hrun Hid.
    assert (blocked (operation_id r) j2) as (row2 & E2 & Hst2 & _).
    { eapply (run_invariant (blocked (operation_id r))); [|exact Hes| |exact Hrun].
      - intros e a b He Ha. by apply step_blocked.
      - exists row. by rewrite Hst, Hk. }
    rewrite <- Hid in E2. apply (reserve_row r' now' j2 row2 E2 Hst2).
  - intros v now1 j2 es j3 r' now' Hcomp Hrun Hid.
    assert (done_with (operation_id r) (kind r) (digest r) (sort_keys v) j3) as (row3 & E3 & Hst3 & Hv3 & Hk3 & Hd3).
    { eapply (run_invariant (done_with _ _ _ _) (fun _ => True)); [|by apply Forall_true| |exact Hrun].
      - intros e a b _. apply step_done.
      - apply (f_equal snd) in Hcomp. rewrite complete_journal in Hcomp. cbn [snd] in Hcomp. subst j2.
        unfold done_with. rewrite update_pending_lookup, Hrow, Hst, decide_True by done. eexists. done. }
    unfold reserve. rewrite Hid, E3, Hst3, Hv3, Hk3, Hd3.
    destruct (String.eqb_spec (kind r) (kind r')) as [Ek|Ek]; cbn [negb orb]; [|by rewrite bool_decide_false by naive_solver].
    destruct (String.eqb_spec (digest r) (digest r')) as [Ed|Ed]; cbn [negb]; [by rewrite bool_decide_true|].
    by rewrite bool_decide_false by naive_solver.
Qed.

(** Cursors never go back.  Along any run a cursor only grows; once a fresh
    operation moved it to [v], no fresh operation moves it below, and a strict one
    not even to [v] again: it raises [JournalReplay] and leaves no trace. *)
Theorem cursor_never_goes_back (r : request) (n : string) (v now : Z) (j j1 : journal) :
  operations j !! operation_id r = None -> cursor_name r = Some n -> cursor_value r = Some v ->
  reserve r now j = (Ok (Reservation None), j1) ->
  (forall c, cursors j !! n = Some c -> if cursor_strict r then c < v else c <= v) /\
  forall es j2, journal_run es j1 j2 ->
    (exists c, cursors j2 !! n = Some c /\ v <= c) /\
    forall r' v' now', operations j2 !! operation_id r' = None -> cursor_name r' = Some n -> cursor_value r' = Some v' ->
      v' < v \/ (v' = v /\ cursor_strict r' = true) -> reserve r' now' j2 = (Raise JournalReplay, j2).
Proof.
  intros Hnew Hn Hv Hres. unfold reserve in Hres. rewrite Hnew in Hres. unfold move_cursor in Hres. rewrite Hn, Hv in Hres.
  cbv zeta in Hres. split.
  { intros c Hc. rewrite Hc in Hres. destruct ((v <? c) || _) eqn:Eb; [done|].
    apply orb_false_iff in Eb as [Hlt%Z.ltb_ge Heq]. destruct (cursor_strict r); [|done].
    cbn in Heq. apply Z.eqb_neq in Heq. lia. }
  intros es j2 Hrun.
  assert (cursor_at_least n v j1) as Hc1.
  { destruct (match cursors j !! n with Some c => _ | None => _ end); [done|]. destruct (fits_integer v); [|done].
    injection Hres as <-. exists v. cbn. rewrite lookup_insert_eq. done. }
  pose proof (run_cursor n v es j1 j2 Hc1 Hrun) as (c & Hc & Hle). split; [eauto|].
  intros r' v' now' Hnew' Hn' Hv' Hstale. unfold reserve, move_cursor. rewrite Hnew', Hn', Hv', Hc. cbv zeta.
  destruct ((v' <? c) || _) eqn:Eb; [done|]. apply orb_false_iff in Eb as [Hlt%Z.ltb_ge Heq].
  destruct Hstale as [|[-> Hs]]; [lia|]. rewrite Hs in Heq. cbn in Heq. apply Z.eqb_neq in Heq. lia.
Qed.

(** ** Witnesses *)

Definition w_set : request := Request "op1" "weights" "d1" (Some "weight_epoch") (Some 7) true.
Definition w_j1 : journal := (reserve w_set 100 empty_journal).2.
Definition w_response : pyval := VDict [("ok", VBool true); ("epoch", VInt 7)].

Lemma chain_write_granted_once_witness :
  (reserve w_set 120 (mark_uncertain "op1" "TimeoutError" 115 (open_journal 110 w_j1))).1 <> Ok (Reservation None) /\
  (reserve w_set 120 (complete "op1" w_response 105 w_j1).2).1
  = Ok (Reservation (Some (VDict [("epoch", VInt 7); ("ok", VBool true)]))).
Proof.
  assert (kind w_set ∉ pure_kinds) as Hk by (apply (bool_decide_unpack _); vm_compute; exact I).
  destruct (chain_write_granted_once w_set 100 empty_journal w_j1 eq_refl Hk) as [H1 H2]. split.
  - eapply (H1 [ERestart; EUncertain "op1" "TimeoutError"] _ w_set 120); [repeat constructor; intros err; discriminate| |done].
    econstructor; [apply (step_restart 110)|]. econstructor; [apply (step_uncertain "op1" "TimeoutError" 115)|constructor].
  - exact (f_equal fst (H2 w_response 105 (complete "op1" w_response 105 w_j1).2 [] _ w_set 120
      eq_refl (run_nil _) eq_refl)).
Defined.

Definition w_replay : request := Request "op2" "weights" "d2" (Some "weight_epoch") (Some 7) true.

Lemma cursor_never_goes_back_witness :
  (reserve w_replay 130 (open_journal 110 w_j1)).1 = Raise JournalReplay /\ last_weight_epoch w_j1 = Some 7.
Proof.
  split; [|vm_compute; reflexivity].
  destruct (cursor_never_goes_back w_set "weight_epoch" 7 100 empty_journal w_j1 eq_refl eq_refl eq_refl eq_refl) as [_ H2].
  destruct (H2 [ERestart] (open_journal 110 w_j1)) as [_ H3]; [econstructor; [constructor|constructor]|].
  rewrite (H3 w_replay 7 130); [done|vm_compute; reflexivity|done|done|by right].
Defined.
