(* ===== verification/FillWindow.v ===== *)
(** * FillWindow: admission and pick accounting of a fill-closed window

    Models [FillState] of [reliquary/validator/fill_window.py].  The counters are
    dictionaries over the window's environments, read and written by name only, so
    they are maps; a method that raises leaves the counters as they were.  The lock
    is held by the caller over every read and write it makes, so a method is one
    step. *)

From S2P Require Import Prelude.

#[local] Open Scope Z_scope.

Record fill_state := FillState {
  budgets : gmap string Z;
  admitted : gmap string Z;
  proven : gmap string Z;
  in_flight : gmap string Z;
  picks_target : Z;
  picks : gmap string Z;
  revision : Z;
}.

(** [d[k]] *)
Definition get_item (m : gmap string Z) (k : string) : result Z :=
  match m !! k with Some v => Ok v | None => Raise KeyError end.
(** [d[k] += n] *)
Definition add_item (m : gmap string Z) (k : string) (n : Z) : result (gmap string Z) :=
  v ← get_item m k; Ok (<[k := v + n]> m).

Definition values (m : gmap string Z) : list Z := (map_to_list m).*2.
(** [max] and [min] of the values of a dictionary. *)
Definition max_values (m : gmap string Z) : result Z :=
  match values m with [] => Raise ValueError | v :: l => Ok (foldr Z.max v l) end.
Definition min_values (m : gmap string Z) : result Z :=
  match values m with [] => Raise ValueError | v :: l => Ok (foldr Z.min v l) end.

(** ** Operations *)

Definition new_fill_state (bs : gmap string Z) (target : Z) : result fill_state :=
  if bool_decide (bs = ∅) then Raise ValueError
  else if existsb (fun b => b <=? 0) (values bs) then Raise ValueError
  else if target <=? 0 then Raise ValueError
  else let zero := (fun _ => 0) <$> bs in Ok (FillState bs zero zero zero target zero 0).

Definition known (environment : string) (st : fill_state) : result string :=
  if bool_decide (is_Some (budgets st !! environment)) then Ok environment else Raise ValueError.

Definition may_admit (environment : string) (st : fill_state) : result bool :=
  name ← known environment st;
  a ← get_item (admitted st) name;
  b ← get_item (budgets st) name;
  Ok (a <? b).

Definition reserve (environment : string) (st : fill_state) : result fill_state :=
  name ← known environment st;
  fl ← add_item (in_flight st) name 1;
  ad ← add_item (admitted st) name 1;
  Ok (FillState (budgets st) ad (proven st) fl (picks_target st) (picks st) (revision st + 1)).

Definition release (environment : string) (st : fill_state) : result fill_state :=
  name ← known environment st;
  n ← get_item (in_flight st) name;
  if n <=? 0 then Raise ValueError
  else
    fl ← add_item (in_flight st) name (-1);
    Ok (FillState (budgets st) (admitted st) (proven st) fl (picks_target st) (picks st) (revision st + 1)).

Definition record_proven (environment : string) (st : fill_state) : result fill_state :=
  name ← known environment st;
  n ← get_item (in_flight st) name;
  fl ← (if 0 <? n then add_item (in_flight st) name (-1) else Ok (in_flight st));
  pr ← add_item (proven st) name 1;
  Ok (FillState (budgets st) (admitted st) pr fl (picks_target st) (picks st) (revision st + 1)).

Definition record_pick (environment : string) (st : fill_state) : result fill_state :=
  name ← known environment st;
  p ← get_item (picks st) name;
  if picks_target st <=? p then Raise ValueError
  else
    prospective ← add_item (picks st) name 1;
    hi ← max_values prospective;
    lo ← min_values prospective;
    if 1 <? hi - lo then Raise ValueError
    else
      q ← get_item prospective name;
      Ok (FillState (budgets st) (admitted st) (proven st) (in_flight st) (picks_target st)
            (<[name := q]> (picks st)) (revision st + 1)).

Definition picks_taken (environment : string) (st : fill_state) : result Z :=
  name ← known environment st; get_item (picks st) name.

Definition is_closed (st : fill_state) : result bool :=
  lo ← min_values (picks st); Ok (picks_target st <=? lo).

Record fill_snapshot := Snapshot {
  snap_budgets : gmap string Z;
  snap_admitted : gmap string Z;
  snap_proven : gmap string Z;
  snap_in_flight : gmap string Z;
  picks_by_environment : gmap string Z;
  picks_emitted : Z;
  snap_picks_target : Z;
  closed : bool;
}.
Definition snapshot (st : fill_state) : result fill_snapshot :=
  lo ← min_values (picks st);
  c ← is_closed st;
  Ok (Snapshot (budgets st) (admitted st) (proven st) (in_flight st) (picks st) lo (picks_target st) c).

(** ** Runs *)

(** The batcher reserves only what [may_admit] allowed under the same lock. *)
Inductive fill_step : fill_state -> fill_state -> Prop :=
  | step_reserve e st st' : may_admit e st = Ok true -> reserve e st = Ok st' -> fill_step st st'
  | step_release e st st' : release e st = Ok st' -> fill_step st st'
  | step_proven e st st' : record_proven e st = Ok st' -> fill_step st st'
  | step_pick e st st' : record_pick e st = Ok st' -> fill_step st st'.

(** The counters of one environment. *)
Definition counters_ok (target b a fl p : Z) : Prop := 0 <= fl <= a /\ a <= b /\ 0 <= p <= target.

Record fill_ok (st : fill_state) : Prop := {
  ok_nonempty : budgets st <> ∅;
  ok_counters : forall e b, budgets st !! e = Some b -> exists a fl p,
    admitted st !! e = Some a /\ in_flight st !! e = Some fl /\ picks st !! e = Some p /\ is_Some (proven st !! e) /\
    counters_ok (picks_target st) b a fl p;
  ok_dom : forall e, is_Some (picks st !! e) -> is_Some (budgets st !! e);
  ok_spread : forall e e' p p', picks st !! e = Some p -> picks st !! e' = Some p' -> p - p' <= 1;
}.

(** ** Extremes of a dictionary *)

Lemma elem_values (m : gmap string Z) v : v ∈ values m <-> exists k, m !! k = Some v.
Proof.
  unfold values. rewrite list_elem_of_fmap. split.
  - intros ([k w] & -> & Hk%elem_of_map_to_list). eauto.
  - intros [k Hk]. exists (k, v). split; [done|]. by apply elem_of_map_to_list.
Qed.

Lemma foldr_max_spec v l : foldr Z.max v l ∈ v :: l /\ forall x, x ∈ v :: l -> x <= foldr Z.max v l.
Proof.
  induction l as [|y l [IH1 IH2]]; cbn [foldr].
  - split; [constructor|]. intros x ->%list_elem_of_singleton. lia.
  - split.
    + destruct (Z.max_spec y (foldr Z.max v l)) as [[_ ->]|[_ ->]]; [|set_solver].
      apply elem_of_cons in IH1 as [->|]; set_solver.
    + intros x Hx. rewrite !elem_of_cons in Hx. destruct Hx as [->|[->|Hx]]; [|lia|].
      * specialize (IH2 v ltac:(constructor)). lia.
      * specialize (IH2 x ltac:(by constructor)). lia.
Qed.

Lemma foldr_min_spec v l : foldr Z.min v l ∈ v :: l /\ forall x, x ∈ v :: l -> foldr Z.min v l <= x.
Proof.
  induction l as [|y l [IH1 IH2]]; cbn [foldr].
  - split; [constructor|]. intros x ->%list_elem_of_singleton. lia.
  - split.
    + destruct (Z.min_spec y (foldr Z.min v l)) as [[_ ->]|[_ ->]]; [set_solver|].
      apply elem_of_cons in IH1 as [->|]; set_solver.
    + intros x Hx. rewrite !elem_of_cons in Hx. destruct Hx as [->|[->|Hx]]; [|lia|].
      * specialize (IH2 v ltac:(constructor)). lia.
      * specialize (IH2 x ltac:(by constructor)). lia.
Qed.

Lemma max_values_spec m k0 v0 : m !! k0 = Some v0 ->
  exists hi, max_values m = Ok hi /\ (exists k, m !! k = Some hi) /\ forall k v, m !! k = Some v -> v <= hi.
Proof.
  intros Hk0. unfold max_values. destruct (values m) as [|v l] eqn:E.
  - assert (v0 ∈ values m) as Hin by (apply elem_values; eauto). rewrite E in Hin. by apply not_elem_of_nil in Hin.
  - destruct (foldr_max_spec v l) as [Hin Hmax]. rewrite <- E in Hin, Hmax. eexists. split_and!; [done|by apply elem_values|].
    intros k w Hw. apply Hmax, elem_values. eauto.
Qed.

Lemma min_values_spec m k0 v0 : m !! k0 = Some v0 ->
  exists lo, min_values m = Ok lo /\ (exists k, m !! k = Some lo) /\ forall k v, m !! k = Some v -> lo <= v.
Proof.
  intros Hk0. unfold min_values. destruct (values m) as [|v l] eqn:E.
  - assert (v0 ∈ values m) as Hin by (apply elem_values; eauto). rewrite E in Hin. by apply not_elem_of_nil in Hin.
  - destruct (foldr_min_spec v l) as [Hin Hmin]. rewrite <- E in Hin, Hmin. eexists. split_and!; [done|by apply elem_values|].
    intros k w Hw. apply Hmin, elem_values. eauto.
Qed.

(** ** The invariant *)

Lemma get_item_some m k v : m !! k = Some v -> get_item m k = Ok v.
Proof. unfold get_item. by intros ->. Qed.
Lemma add_item_some m k v n : m !! k = Some v -> add_item m k n = Ok (<[k := v + n]> m).
Proof. intros H. unfold add_item. by rewrite (get_item_some _ _ _ H). Qed.

Lemma known_ok e st n : known e st = Ok n -> n = e /\ exists b, budgets st !! e = Some b.
Proof. unfold known. case_bool_decide as H; [|done]. intros <-%(inj Ok). split; [done|exact H]. Qed.

Lemma known_some e st b : budgets st !! e = Some b -> known e st = Ok e.
Proof. intros H. unfold known. by rewrite bool_decide_true by eauto. Qed.

Lemma new_fill_ok bs target st : new_fill_state bs target = Ok st -> fill_ok st.
Proof.
  unfold new_fill_state. case_bool_decide as Hne; [done|]. destruct (existsb _ _) eqn:Eb; [done|].
  destruct (Z.leb_spec target 0) as [|Ht]; [done|]. intros <-%(inj Ok).
  split; cbn; [done| | |].
  - intros e b Hb. rewrite !lookup_fmap, Hb. cbn. exists 0, 0, 0.
    assert (0 < b) as Hpos; [|unfold counters_ok; split_and!; (done || lia)].
    destruct (Z.lt_ge_cases 0 b) as [|Hle]; [done|].
    rewrite (proj2 (List.existsb_exists _ _)) in Eb; [done|]. exists b. split; [|by apply Z.leb_le].
    apply list_elem_of_In, elem_values. eauto.
  - intros e. rewrite lookup_fmap. destruct (bs !! e); [eauto|by intros [? ?]].
  - intros e e' p p'. rewrite !lookup_fmap. destruct (bs !! e), (bs !! e'); try done. cbn. intros [= <-] [= <-]. lia.
Qed.

(** An update of one counter of [e] keeps the others. *)
Lemma reserve_ok e st st' : fill_ok st -> may_admit e st = Ok true -> reserve e st = Ok st' -> fill_ok st'.
Proof.
  intros [Hne Hc Hd Hs] Hadm Hr. unfold reserve in Hr. apply bind_ok_inv in Hr as (n & Hn & Hr).
  apply known_ok in Hn as [-> [b Hb]]. destruct (Hc e b Hb) as (a & fl & p & Ha & Hfl & Hp & Hpr & Hok).
  unfold may_admit in Hadm. rewrite (known_some e st b Hb) in Hadm. cbn in Hadm.
  rewrite (get_item_some _ _ _ Ha) in Hadm. cbn in Hadm. rewrite (get_item_some _ _ _ Hb) in Hadm. cbn in Hadm.
  apply (inj Ok), Z.ltb_lt in Hadm.
  rewrite (add_item_some _ _ _ _ Hfl), bind_ok, (add_item_some _ _ _ _ Ha), bind_ok in Hr. apply (inj Ok) in Hr as <-.
  split; cbn; [done| |done|done]. intros e' b' Hb'. destruct (decide (e' = e)) as [->|Hne'].
  - rewrite Hb in Hb'. injection Hb' as <-. exists (a + 1), (fl + 1), p. rewrite !lookup_insert_eq.
    unfold counters_ok in *. split_and!; (done || lia).
  - rewrite !lookup_insert_ne by done. by apply Hc.
Qed.

Lemma in_flight_down_ok e st st' pr rev fl : fill_ok st -> in_flight st !! e = Some fl -> 0 < fl ->
  (forall i, is_Some (proven st !! i) -> is_Some (pr !! i)) ->
  st' = FillState (budgets st) (admitted st) pr (<[e := fl + -1]> (in_flight st)) (picks_target st) (picks st) rev ->
  fill_ok st'.
Proof.
  intros [Hne Hc Hd Hs] Hfl Hpos Hpr ->. split; cbn; [done| |done|done]. intros e' b' Hb'.
  destruct (Hc e' b' Hb') as (a & f & p & Ha & Hf & Hp & Hpr' & Hok). unfold counters_ok in *.
  destruct (decide (e' = e)) as [->|Hne'].
  - rewrite Hfl in Hf. injection Hf as <-. exists a, (fl + -1), p. rewrite lookup_insert_eq. split_and!; (by auto || lia).
  - exists a, f, p. rewrite lookup_insert_ne by done. split_and!; (by auto || lia).
Qed.

Lemma release_ok e st st' : fill_ok st -> release e st = Ok st' -> fill_ok st'.
Proof.
  intros Hok Hr. unfold release in Hr. apply bind_ok_inv in Hr as (n & Hn & Hr).
  apply known_ok in Hn as [-> [b Hb]]. destruct (ok_counters st Hok e b Hb) as (a & fl & p & Ha & Hfl & Hp & Hpr & _).
  rewrite (get_item_some _ _ _ Hfl), bind_ok in Hr. destruct (Z.leb_spec fl 0); [done|].
  rewrite (add_item_some _ _ _ _ Hfl), bind_ok in Hr. apply (inj Ok) in Hr as <-.
  by eapply (in_flight_down_ok e st _ (proven st)).
Qed.

Lemma is_some_insert (m : gmap string Z) e v i : is_Some (m !! i) -> is_Some (<[e := v]> m !! i).
Proof. intros H. destruct (decide (i = e)) as [->|]; [by rewrite lookup_insert_eq|by rewrite lookup_insert_ne]. Qed.

Lemma record_proven_ok e st st' : fill_ok st -> record_proven e st = Ok st' -> fill_ok st'.
Proof.
  intros Hok Hr. unfold record_proven in Hr. apply bind_ok_inv in Hr as (n & Hn & Hr).
  apply known_ok in Hn as [-> [b Hb]]. destruct (ok_counters st Hok e b Hb) as (a & fl & p & Ha & Hfl & Hp & [v Hpr] & _).
  rewrite (get_item_some _ _ _ Hfl), bind_ok in Hr. destruct (Z.ltb_spec 0 fl) as [Hpos|].
  - rewrite (add_item_some _ _ _ _ Hfl), bind_ok, (add_item_some _ _ _ _ Hpr), bind_ok in Hr. apply (inj Ok) in Hr as <-.
    eapply (in_flight_down_ok e st _ (<[e := v + 1]> (proven st))); [done|done|done| |done]. intros i. apply is_some_insert.
  - rewrite bind_ok, (add_item_some _ _ _ _ Hpr), bind_ok in Hr. apply (inj Ok) in Hr as <-.
    destruct Hok as [Hne Hc Hd Hs]. split; cbn; [done| |done|done]. intros e' b' Hb'.
    destruct (Hc e' b' Hb') as (a' & f & p' & Ha' & Hf & Hp' & Hpr' & Hok). exists a', f, p'.
    split_and!; try done; [by apply is_some_insert|apply Hok..].
Qed.

(** When [record_pick] accepts, and what it then does. *)
Lemma record_pick_spec e st b p : fill_ok st -> budgets st !! e = Some b -> picks st !! e = Some p ->
  if bool_decide (p < picks_target st /\ map_Forall (fun _ p' => p <= p') (picks st))
  then record_pick e st = Ok (FillState (budgets st) (admitted st) (proven st) (in_flight st) (picks_target st)
         (<[e := p + 1]> (picks st)) (revision st + 1))
  else record_pick e st = Raise ValueError.
Proof.
  intros Hok Hb Hp. destruct Hok as [Hne Hc Hd Hs]. unfold record_pick.
  rewrite (known_some e st b Hb), bind_ok, (get_item_some _ _ _ Hp), bind_ok.
  destruct (Z.leb_spec (picks_target st) p) as [Hle|Hlt]; [rewrite bool_decide_false; [done|]; intros [? _]; lia|].
  rewrite (add_item_some _ _ _ _ Hp), bind_ok. set (m := <[e := p + 1]> (picks st)).
  assert (m !! e = Some (p + 1)) as He by apply lookup_insert_eq.
  destruct (max_values_spec m e (p + 1) He) as (hi & -> & [k Hk] & Hmax).
  destruct (min_values_spec m e (p + 1) He) as (lo & -> & [k' Hk'] & Hmin). rewrite !bind_ok.
  assert (forall i v, i <> e -> picks st !! i = Some v -> m !! i = Some v) as Hother
    by (intros i v Hi Hv; unfold m; by rewrite lookup_insert_ne).
  case_bool_decide as Hcond.
  - destruct Hcond as [_ Hall]. assert (hi - lo <= 1) as Hsp.
    { assert (p <= lo) as Hlo.
      { unfold m in Hk'. apply lookup_insert_Some in Hk' as [[_ <-]|[_ Hk']]; [lia|]. exact (Hall _ _ Hk'). }
      unfold m in Hk. apply lookup_insert_Some in Hk as [[_ <-]|[_ Hk]]; [lia|].
      pose proof (Hs k e hi p Hk Hp). lia. }
    destruct (Z.ltb_spec 1 (hi - lo)); [lia|]. by rewrite (get_item_some _ _ _ He), bind_ok.
  - assert (exists i v, picks st !! i = Some v /\ v < p) as (i & v & Hi & Hv).
    { destruct (decide (map_Forall (fun _ p' => p <= p') (picks st))) as [Hall|Hnall]; [by destruct Hcond|].
      apply map_not_Forall in Hnall as (i & v & Hi & Hv); [|intros; apply _]. exists i, v. split; [done|lia]. }
    assert (i <> e) as Hie by (intros ->; rewrite Hp in Hi; injection Hi as <-; lia).
    pose proof (Hmin i v (Hother i v Hie Hi)). pose proof (Hmax e (p + 1) He).
    destruct (Z.ltb_spec 1 (hi - lo)); [done|lia].
Qed.

Lemma record_pick_ok e st st' : fill_ok st -> record_pick e st = Ok st' -> fill_ok st'.
Proof.
  intros Hok Hr. pose proof Hr as Hr0. unfold record_pick in Hr0. apply bind_ok_inv in Hr0 as (n & Hn & _).
  apply known_ok in Hn as [_ [b Hb]]. destruct (ok_counters st Hok e b Hb) as (a & fl & p & Ha & Hfl & Hp & Hpr & Hcnt).
  pose proof (record_pick_spec e st b p Hok Hb Hp) as Hspec. case_bool_decide as Hcond; [|congruence].
  rewrite Hr in Hspec. apply (inj Ok) in Hspec as ->. destruct Hcond as [Hlt Hall], Hok as [Hne Hc Hd Hs].
  split; cbn; [done| | |].
  - intros e' b' Hb'. destruct (Hc e' b' Hb') as (a' & f & p' & Ha' & Hf & Hp' & Hpr' & Hok). unfold counters_ok in *.
    destruct (decide (e' = e)) as [->|Hne'].
    + rewrite Hp in Hp'. injection Hp' as <-. exists a', f, (p + 1). rewrite lookup_insert_eq. split_and!; (done || lia).
    + exists a', f, p'. rewrite lookup_insert_ne by done. split_and!; (done || lia).
  - intros i Hi. destruct (decide (i = e)) as [->|Hie]; [eauto|]. rewrite lookup_insert_ne in Hi by done. by apply Hd.
  - intros i i' q q' Hq Hq'. apply lookup_insert_Some in Hq as [[-> <-]|[_ Hq]];
      apply lookup_insert_Some in Hq' as [[-> <-]|[_ Hq']]; [lia| | |by eapply Hs].
    + pose proof (Hall _ _ Hq'). cbn in *. lia.
    + pose proof (Hs _ _ _ _ Hq Hp). lia.
Qed.

Lemma fill_step_ok st st' : fill_ok st -> fill_step st st' -> fill_ok st'.
Proof.
  intros Hok Hs. destruct Hs as [e st st' Ha Hr|e st st' Hr|e st st' Hr|e st st' Hr].
  - by eapply reserve_ok.
  - by eapply release_ok.
  - by eapply record_proven_ok.
  - by eapply record_pick_ok.
Qed.

(** A window closes exactly when every environment took all its picks.  In every
    state the batchers reach from a new window, no environment is admitted past its
    budget or holds more in flight than it was admitted, no two environments are
    more than one pick apart, an environment's pick is accepted exactly when it is
    under the target and no other is behind it, so an open window can always take
    a pick, and [is_closed] holds exactly when every ordinal is the target. *)
Theorem fill_window_closes_exactly (bs : gmap string Z) (target : Z) (st0 st : fill_state) :
  new_fill_state bs target = Ok st0 -> rtc fill_step st0 st ->
  (forall e b, budgets st !! e = Some b -> exists a fl p,
     admitted st !! e = Some a /\ in_flight st !! e = Some fl /\ picks_taken e st = Ok p /\
     0 <= fl <= a /\ a <= b /\ 0 <= p <= picks_target st /\
     ((exists st', record_pick e st = Ok st') <->
      p < picks_target st /\ forall e' p', picks_taken e' st = Ok p' -> p <= p' <= p + 1)) /\
  (is_closed st = Ok true \/ is_closed st = Ok false /\ exists e st', record_pick e st = Ok st') /\
  (is_closed st = Ok true <-> forall e, is_Some (budgets st !! e) -> picks_taken e st = Ok (picks_target st)).
Proof.
  intros H0 Hrun. assert (fill_ok st) as Hok.
  { apply (rtc_invariant fill_step fill_ok st0); [apply fill_step_ok|by eapply new_fill_ok|done]. }
  assert (forall e p, picks_taken e st = Ok p <-> picks st !! e = Some p) as Htaken.
  { intros e p. unfold picks_taken. split.
    - intros (n & Hn & Hg)%bind_ok_inv. apply known_ok in Hn as [-> _]. unfold get_item in Hg.
      destruct (picks st !! e); [|done]. by apply (inj Ok) in Hg as ->.
    - intros Hp. destruct (ok_dom st Hok e) as [b Hb]; [eauto|]. rewrite (known_some e st b Hb), bind_ok.
      by apply get_item_some. }
  pose proof (map_choose (budgets st) (ok_nonempty st Hok)) as (e0 & b0 & He0).
  destruct (ok_counters st Hok e0 b0 He0) as (a0 & f0 & p0 & _ & _ & Hp0 & _).
  destruct (min_values_spec (picks st) e0 p0 Hp0) as (lo & Hlo & [k Hk] & Hmin).
  assert (is_closed st = Ok (picks_target st <=? lo)) as Hcl by (unfold is_closed; by rewrite Hlo).
  assert (forall e p, picks st !! e = Some p -> 0 <= p <= picks_target st) as Hbound.
  { intros e p Hp. destruct (ok_dom st Hok e) as [b Hb]; [eauto|].
    destruct (ok_counters st Hok e b Hb) as (a & fl & q & _ & _ & Hq & _ & _ & _ & Hr). rewrite Hp in Hq. by injection Hq as <-. }
  split_and!.
  - intros e b Hb. destruct (ok_counters st Hok e b Hb) as (a & fl & p & Ha & Hfl & Hp & _ & Hc1 & Hc2 & Hc3).
    exists a, fl, p. split_and!; try done; [by apply Htaken|lia|lia|lia|lia|].
    pose proof (record_pick_spec e st b p Hok Hb Hp) as Hspec. case_bool_decide as Hcond; rewrite Hspec.
    + split; [intros _|by eauto]. destruct Hcond as [Hlt Hall]. split; [done|]. intros e' p' Hp'%Htaken.
      pose proof (Hall _ _ Hp'). pose proof (ok_spread st Hok _ _ _ _ Hp' Hp). cbn in *. lia.
    + split; [by intros [? ?]|]. intros [Hlt Hall]. destruct Hcond. split; [done|]. intros i q Hq. cbn.
      apply (Hall i q). by apply Htaken.
  - rewrite Hcl. destruct (Z.leb_spec (picks_target st) lo) as [|Hlt]; [by left|]. right. split; [done|].
    destruct (ok_dom st Hok k) as [b Hb]; [eauto|]. exists k.
    pose proof (record_pick_spec k st b lo Hok Hb Hk) as Hspec. rewrite bool_decide_true in Hspec; [eauto|].
    split; [done|]. intros i q Hq. cbn. by eapply Hmin.
  - rewrite Hcl. split.
    + intros Hle%(inj Ok)%Z.leb_le e [b Hb]. destruct (ok_counters st Hok e b Hb) as (a & fl & p & _ & _ & Hp & _).
      apply Htaken. rewrite Hp. f_equal. pose proof (Hmin _ _ Hp). pose proof (Hbound _ _ Hp). lia.
    + intros Hall. f_equal. apply Z.leb_le. specialize (Hall k ltac:(apply (ok_dom st Hok); eauto)).
      apply Htaken in Hall. rewrite Hk in Hall. injection Hall as ->. lia.
Qed.

Definition w_budgets : gmap string Z := {["math" := 2; "code" := 1]}.
Definition w_zero : gmap string Z := {["math" := 0; "code" := 0]}.
Definition w_st0 : fill_state := FillState w_budgets w_zero w_zero w_zero 1 w_zero 0.

Lemma fill_window_closes_exactly_witness :
  new_fill_state w_budgets 1 = Ok w_st0 /\
  exists st, (st1 ← record_pick "math" w_st0; record_pick "code" st1) = Ok st /\ is_closed st = Ok true.
Proof.
  assert (new_fill_state w_budgets 1 = Ok w_st0) as H0 by (vm_compute; reflexivity). split; [exact H0|].
  destruct (record_pick "math" w_st0) as [st1|] eqn:E1; [|vm_compute in E1; discriminate].
  destruct (record_pick "code" st1) as [st2|] eqn:E2; [|vm_compute in E1; injection E1 as <-; vm_compute in E2; discriminate].
  exists st2. split; [exact E2|].
  assert (rtc fill_step w_st0 st2) as Hrun
    by (eapply rtc_l; [exact (step_pick _ _ _ E1)|]; eapply rtc_l; [exact (step_pick _ _ _ E2)|apply rtc_refl]).
  destruct (fill_window_closes_exactly w_budgets 1 w_st0 st2 H0 Hrun) as (_ & [Hc|[Hc _]] & _); [exact Hc|].
  exfalso. vm_compute in E1. injection E1 as <-. vm_compute in E2. injection E2 as <-. vm_compute in Hc. discriminate.
Defined.
