(* ===== verification/Accumulator.v ===== *)
(** * Accumulator: balanced accumulation of training groups across windows

    Models [BalancedTrainingAccumulator] of
    [reliquary/validator/training_accumulator.py], over any type of groups.  The
    dictionaries [targets], [_groups] and [_source_windows] have the same keys from
    the constructor on, and each loop over them touches one key per iteration: an
    environment's three entries are one record, and a loop over the environments is
    a map over them.  The lists returned are copies, so the state is not shared. *)

From S2P Require Import Prelude.

#[local] Open Scope Z_scope.

Section accumulator.
Context {G : Type}.

Record env_acc := EnvAcc {
  target : Z;
  groups : list G;
  source_windows : list Z;
}.

Record accumulator := Accumulator {
  envs : gmap string env_acc;
  checkpoint_revision : option string;
}.

Definition new_accumulator (targets : gmap string Z) : result accumulator :=
  if bool_decide (targets = ∅) then Raise ValueError
  else if existsb (fun kv => kv.2 <? 0) (map_to_list targets) then Raise ValueError
  else Ok (Accumulator ((fun t => EnvAcc t [] []) <$> targets) None).

Definition env_ready (e : env_acc) : bool := target e <=? Z.of_nat (length (groups e)).
Definition ready (a : accumulator) : bool := forallb (fun kv => env_ready kv.2) (map_to_list (envs a)).

Definition env_has_groups (e : env_acc) : bool := (target e =? 0) || negb (Nat.eqb (length (groups e)) 0).
Definition has_groups_for_all_targets (a : accumulator) : bool :=
  forallb (fun kv => env_has_groups kv.2) (map_to_list (envs a)).

Record acc_snapshot := Snapshot {
  snap_revision : option string;
  snap_targets : gmap string Z;
  snap_counts : gmap string Z;
  snap_windows : gmap string (list Z);
  snap_ready : bool;
}.
Definition snapshot (a : accumulator) : acc_snapshot :=
  Snapshot (checkpoint_revision a) (target <$> envs a) ((fun e => Z.of_nat (length (groups e))) <$> envs a)
    (source_windows <$> envs a) (ready a).

Definition cleared (a : accumulator) : accumulator :=
  Accumulator ((fun e => EnvAcc (target e) [] []) <$> envs a) None.
Definition reset (a : accumulator) : acc_snapshot * accumulator := (snapshot a, cleared a).

(** One iteration of the loop of [add_window], with what it records. *)
Definition accepted_of (e : env_acc) (incoming : list G) : list G :=
  take (Z.to_nat (Z.max 0 (target e - Z.of_nat (length (groups e))))) incoming.

Definition add_env (window_n : Z) (incoming : list G) (e : env_acc) : env_acc :=
  match accepted_of e incoming with
  | [] => e
  | accepted =>
      EnvAcc (target e) (groups e ++ accepted)
        (match last (source_windows e) with
         | Some w => if w =? window_n then source_windows e else source_windows e ++ [window_n]
         | None => source_windows e ++ [window_n]
         end)
  end.

Record update := Update {
  checkpoint_reset : option acc_snapshot;
  counts_before : gmap string Z;
  added : gmap string Z;
  not_accumulated : gmap string Z;
  after : acc_snapshot;
}.

Definition incoming_of (batches : gmap string (list G)) (name : string) : list G := default [] (batches !! name).

Definition add_window (batches : gmap string (list G)) (window_n : Z) (revision : string) : method accumulator update :=
  fun a =>
  if bool_decide (dom batches ⊆ dom (envs a)) then
    let stale := match checkpoint_revision a with Some r => negb (String.eqb r revision) | None => false end in
    let reset_snapshot := if stale then Some (reset a).1 else None in
    let a1 := if stale then (reset a).2 else a in
    let accepted := map_imap (fun name e => Some (Z.of_nat (length (accepted_of e (incoming_of batches name))))) (envs a1) in
    let refused := map_imap (fun name e => Some (Z.of_nat (length (incoming_of batches name)) -
                                                 Z.of_nat (length (accepted_of e (incoming_of batches name))))) (envs a1) in
    let a2 := Accumulator (map_imap (fun name e => Some (add_env window_n (incoming_of batches name) e)) (envs a1))
                (Some revision) in
    (Ok (Update reset_snapshot ((fun e => Z.of_nat (length (groups e))) <$> envs a1) accepted refused (snapshot a2)), a2)
  else (Raise ValueError, a).

(** The order must name every environment once. *)
Definition order_matches (env_order : list string) (a : accumulator) : bool :=
  bool_decide (list_to_set env_order = (dom (envs a) : gset string)) && Nat.eqb (length env_order) (size (envs a)).

Definition held (a : accumulator) (name : string) : list G :=
  match envs a !! name with Some e => take (Z.to_nat (target e)) (groups e) | None => [] end.

Definition held_groups (env_order : list string) (a : accumulator) : result (list (list G)) :=
  if order_matches env_order a then Ok (held a <$> env_order) else Raise ValueError.

Definition training_batches (env_order : list string) (allow_partial : bool) (a : accumulator) : result (list (list G)) :=
  if negb (ready a) && negb (allow_partial && has_groups_for_all_targets a) then Raise RuntimeError
  else held_groups env_order a.

(** ** What a window promises the trainer *)

Inductive op :=
  | OAdd (batches : gmap string (list G)) (window_n : Z) (revision : string)
  | OReset.

Definition exec (a : accumulator) (o : op) : accumulator :=
  match o with OAdd b w r => (add_window b w r a).2 | OReset => (reset a).2 end.

(** The windows of the current revision: all those added since the revision last
    changed or the accumulator was reset. *)
Definition history := (option string * list (gmap string (list G)))%type.
Definition remember (known : gset string) (h : history) (o : op) : history :=
  match o with
  | OReset => (None, [])
  | OAdd b _ r =>
      if bool_decide (dom b ⊆ known) then
        match h.1 with
        | Some r' => if String.eqb r' r then (Some r, h.2 ++ [b]) else (Some r, [b])
        | None => (Some r, h.2 ++ [b])
        end
      else h
  end.

(** Everything the history offered an environment, oldest first. *)
Definition offered (h : history) (name : string) : list G := concat ((fun b => incoming_of b name) <$> h.2).

(** An environment holds the first [target] groups it was offered. *)
Definition represents (targets : gmap string Z) (h : history) (a : accumulator) : Prop :=
  checkpoint_revision a = h.1 /\ (h.1 = None -> h.2 = []) /\ target <$> envs a = targets /\
  forall name e, envs a !! name = Some e -> 0 <= target e /\ groups e = take (Z.to_nat (target e)) (offered h name) /\
    (source_windows e = [] <-> groups e = []).

Lemma add_env_groups e w incoming : 0 <= target e ->
  groups (add_env w incoming e) = groups e ++ accepted_of e incoming /\ target (add_env w incoming e) = target e /\
  ((source_windows e = [] <-> groups e = []) ->
   (source_windows (add_env w incoming e) = [] <-> groups (add_env w incoming e) = [])).
Proof.
  intros _. unfold add_env. destruct (accepted_of e incoming) as [|g l]; cbn; [by rewrite app_nil_r|].
  split_and!; [done|done|]. intros Hsw. split; [|by intros []%app_nil].
  destruct (last (source_windows e)) as [v|] eqn:El; [|by intros []%app_nil].
  destruct (v =? w); [|by intros []%app_nil]. intros Hnil. rewrite Hnil in El. done.
Qed.

Lemma offered_snoc h r b name : offered (r, h ++ [b]) name = offered (r, h) name ++ incoming_of b name.
Proof. unfold offered. cbn. rewrite fmap_app, concat_app. cbn. by rewrite app_nil_r. Qed.

Lemma accepted_take e offered0 incoming : 0 <= target e -> groups e = take (Z.to_nat (target e)) offered0 ->
  groups e ++ accepted_of e incoming = take (Z.to_nat (target e)) (offered0 ++ incoming).
Proof.
  intros Ht Hg. unfold accepted_of. rewrite Hg, take_app, length_take. f_equal. f_equal. lia.
Qed.

Lemma cleared_targets a : target <$> envs (cleared a) = target <$> envs a.
Proof. cbn. rewrite <- map_fmap_compose. by apply map_fmap_ext. Qed.

Lemma cleared_represents targets h a : represents targets h a -> represents targets (None, []) (cleared a).
Proof.
  intros (_ & _ & Ht & Henv). split_and!; [done|done|by rewrite cleared_targets|].
  intros name e. cbn. rewrite lookup_fmap. destruct (envs a !! name) as [e0|] eqn:E; [|done]. intros [= <-]. cbn.
  split_and!; [by eapply Henv|by rewrite take_nil|done..].
Qed.

Lemma imap_targets (f : string -> env_acc -> env_acc) (m : gmap string env_acc) :
  (forall name e, m !! name = Some e -> target (f name e) = target e) ->
  target <$> map_imap (fun name e => Some (f name e)) m = target <$> m.
Proof.
  intros Hf. apply map_eq. intros i. rewrite !lookup_fmap, map_lookup_imap. destruct (m !! i) as [e|] eqn:E; [|done].
  cbn. f_equal. by apply Hf.
Qed.

Lemma add_represents targets h a b w r (a0 : accumulator) :
  a0 = Accumulator (map_imap (fun name e => Some (add_env w (incoming_of b name) e)) (envs a)) (Some r) ->
  represents targets h a -> represents targets (Some r, h.2 ++ [b]) a0.
Proof.
  intros -> (_ & _ & Ht & Henv). split_and!; [done|done| |].
  - rewrite <- Ht. apply imap_targets. intros name e He. by apply add_env_groups, (Henv name).
  - intros name e. cbn [envs]. rewrite map_lookup_imap. destruct (envs a !! name) as [e0|] eqn:E; [|done].
    cbn [option_bind mbind]. intros [= <-].
    destruct (Henv name e0 E) as (Hpos & Hg & Hsw). destruct (add_env_groups e0 w (incoming_of b name) Hpos) as (Hgr & Htg & Hs).
    rewrite Htg. split_and!; [done| |by apply Hs..]. rewrite Hgr, offered_snoc. by apply accepted_take.
Qed.

Lemma represents_dom targets h a : represents targets h a -> dom (envs a) = dom targets.
Proof. intros (_ & _ & <- & _). by rewrite dom_fmap_L. Qed.

Lemma exec_represents targets h a o : represents targets h a -> represents targets (remember (dom targets) h o) (exec a o).
Proof.
  intros Hrep. destruct o as [b w r|]; cbn [exec remember]; [|by eapply cleared_represents].
  unfold add_window. rewrite (represents_dom _ _ _ Hrep). case_bool_decide; [|done]. cbn [snd].
  pose proof Hrep as (Hrev & Hnil & _). rewrite Hrev. destruct h as [[r'|] bs]; cbn [fst snd] in *.
  - destruct (String.eqb_spec r' r) as [->|Hr]; cbn [negb].
    + by eapply (add_represents targets (Some r, bs) a b w r).
    + eapply (add_represents targets (None, []) (cleared a) b w r); [done|by eapply cleared_represents].
  - by eapply (add_represents targets (None, bs) a b w r).
Qed.

Lemma new_represents targets a : new_accumulator targets = Ok a -> represents targets (None, []) a.
Proof.
  unfold new_accumulator. case_bool_decide; [done|]. destruct (existsb _ _) eqn:Eb; [done|]. intros <-%(inj Ok).
  split_and!; [done|done| |].
  - cbn. rewrite <- map_fmap_compose. rewrite <- (map_fmap_id targets) at 2. by apply map_fmap_ext.
  - intros name e. cbn. rewrite lookup_fmap. destruct (targets !! name) as [t|] eqn:E; [|done]. intros [= <-]. cbn.
    split_and!; [|by rewrite take_nil|done..].
    destruct (Z.le_gt_cases 0 t) as [|Hneg]; [done|].
    rewrite (proj2 (List.existsb_exists _ _)) in Eb; [done|]. exists (name, t).
    split; [by apply list_elem_of_In, elem_of_map_to_list|by apply Z.ltb_lt].
Qed.

Lemma runs_represent targets h a ops : represents targets h a ->
  represents targets (foldl (remember (dom targets)) h ops) (foldl exec a ops).
Proof. revert h a. induction ops as [|o ops IH]; intros h a Hrep; [done|]. cbn. by apply IH, exec_represents. Qed.

Lemma ready_iff a : ready a = true <-> forall name e, envs a !! name = Some e -> target e <= Z.of_nat (length (groups e)).
Proof.
  unfold ready. rewrite forallb_forall. split.
  - intros H name e He. apply (Z.leb_le), (H (name, e)), list_elem_of_In, elem_of_map_to_list, He.
  - intros H [name e] He%list_elem_of_In%elem_of_map_to_list. apply Z.leb_le. by eapply H.
Qed.

Lemma order_matches_perm env_order a : order_matches env_order a = true <-> env_order ≡ₚ elements (dom (envs a)).
Proof.
  unfold order_matches. rewrite andb_true_iff, bool_decide_eq_true, Nat.eqb_eq. rewrite <- size_dom.
  split.
  - intros [Hset Hlen]. symmetry. apply submseteq_length_Permutation; [|by rewrite Hlen].
    apply NoDup_submseteq; [apply NoDup_elements|]. intros x Hx%elem_of_elements. rewrite <- Hset in Hx.
    by apply elem_of_list_to_set in Hx.
  - intros Hp. split; [|by rewrite Hp]. apply set_eq. intros x. rewrite elem_of_list_to_set, Hp. apply elem_of_elements.
Qed.

(** C33: the trainer gets what the windows offered.  After any sequence of windows and
    resets, each environment holds the first [target] groups offered since the
    revision last changed; the accumulator is ready exactly when every environment
    was offered its target, and it then hands out one full batch per environment
    of any order that names each once, and refuses every other order. *)
Theorem accumulator_exact (targets : gmap string Z) (a0 : accumulator) (ops : list op) :
  new_accumulator targets = Ok a0 ->
  let a := foldl exec a0 ops in
  let h := foldl (remember (dom targets)) (None, []) ops in
  (forall name t, targets !! name = Some t -> held a name = take (Z.to_nat t) (offered h name)) /\
  (ready a = true <-> forall name t, targets !! name = Some t -> t <= Z.of_nat (length (offered h name))) /\
  (ready a = true -> forall env_order, training_batches env_order false a =
     if bool_decide (env_order ≡ₚ elements (dom targets))
     then Ok ((fun name => take (Z.to_nat (default 0 (targets !! name))) (offered h name)) <$> env_order)
     else Raise ValueError) /\
  (ready a = false -> forall env_order, training_batches env_order false a = Raise RuntimeError).
Proof.
  intros Hnew a h. pose proof (runs_represent targets (None, []) a0 ops (new_represents targets a0 Hnew)) as Hrep.
  fold a h in Hrep. pose proof (represents_dom _ _ _ Hrep) as Hdom. destruct Hrep as (_ & _ & Ht & Henv).
  assert (forall name t, targets !! name = Some t -> exists e, envs a !! name = Some e /\ target e = t) as Hlook.
  { intros name t E. rewrite <- Ht, lookup_fmap in E. destruct (envs a !! name) as [e|]; [|done]. injection E as <-. eauto. }
  assert (forall name t, targets !! name = Some t -> held a name = take (Z.to_nat t) (offered h name)) as Hheld.
  { intros name t (e & He & <-)%Hlook. unfold held. rewrite He. destruct (Henv name e He) as (_ & -> & _).
    rewrite take_take. f_equal. lia. }
  split_and!; [done| | |].
  - rewrite ready_iff. split.
    + intros Hr name t (e & He & <-)%Hlook. pose proof (Hr name e He) as Hle. destruct (Henv name e He) as (Hp & Hg & _).
      rewrite Hg, length_take in Hle. lia.
    + intros Ho name e He. destruct (Henv name e He) as (Hp & -> & _). rewrite length_take.
      specialize (Ho name (target e)). rewrite <- Ht, lookup_fmap, He in Ho. specialize (Ho eq_refl). lia.
  - intros Hr env_order. unfold training_batches. rewrite Hr. cbn [negb andb]. unfold held_groups.
    pose proof (order_matches_perm env_order a) as Hom. rewrite Hdom in Hom. case_bool_decide as Hp.
    + rewrite (proj2 Hom Hp). f_equal. apply list_fmap_ext. intros i name Hi%list_elem_of_lookup_2.
      rewrite Hp in Hi. apply elem_of_elements, elem_of_dom in Hi as [t E]. rewrite E. by apply Hheld.
    + destruct (order_matches env_order a); [|done]. destruct Hp. by apply Hom.
  - intros Hr env_order. unfold training_batches. by rewrite Hr.
Qed.
End accumulator.

Definition w_targets : gmap string Z := {["math" := 2; "code" := 1]}.
Definition w_ops : list (@op Z) :=
  [OAdd {["math" := [9]]} 4 "old"; OAdd {["math" := [1]]} 5 "new"; OAdd {["math" := [2; 3]; "code" := [4]]} 6 "new"].
Definition w_acc : @accumulator Z := Accumulator ((fun t => EnvAcc t [] []) <$> w_targets) None.

Lemma accumulator_exact_witness : training_batches ["code"; "math"] false (foldl exec w_acc w_ops) = Ok [[4]; [1; 2]].
Proof.
  assert (new_accumulator w_targets = Ok w_acc) as H0 by (vm_compute; reflexivity).
  destruct (accumulator_exact w_targets w_acc w_ops H0) as (_ & _ & H & _).
  assert (ready (foldl exec w_acc w_ops) = true) as Hr by (vm_compute; reflexivity).
  pose proof (H Hr ["code"; "math"]) as E. rewrite bool_decide_true in E; [|vm_compute; apply Permutation_swap || reflexivity].
  etrans; [exact E|]. vm_compute. reflexivity.
Defined.
