(* ===== verification/OpenQueue.v ===== *)
(** * OpenQueue: the fair queue of sandbox opens

    Models [reliquary/sandbox/open_queue.py].  Tickets are shared mutable objects:
    the queue holds a heap of them and lists of their identities, and the callers
    name a ticket by its identity.  Everything runs on one event loop, so a method
    is one step; the clock is read once per method and is an argument.  What the
    queue is given ([rank], [headroom], [owed]) is a parameter; the wait listener
    only observes.  [asyncio.Event] is its flag. *)

From S2P Require Import Prelude PyFloat.

#[local] Open Scope Z_scope.

Section open_queue.
(** The code's [Hashable]: classes, rooms, groups and machines. *)
Context {T : Type} `{Countable T}.

Record config := Config {
  rank : string -> string * float * bool;
  headroom : option (string -> Z);
  owed : option (string -> string -> option (T * Z));
  wait_s : float;
  aging_s : float;
  forget_s : float;
  max_waiting : Z;
  max_per_key : Z;
  fair_every : Z;
  hold_after_s : option float;
}.
Context (cfg : config).

Record ticket := Ticket {
  key : string;
  score : float;
  cls : T;
  engagement : option string;
  joined : float;
  pooled : bool;
  event : bool;
  granted : bool;
  active : bool;
  tried : Z;
  reserved : option T;
}.
Definition set_granted (g : bool) (t : ticket) : ticket :=
  Ticket (key t) (score t) (cls t) (engagement t) (joined t) (pooled t) g g (active t) (tried t) (reserved t).
Definition set_inactive (t : ticket) : ticket :=
  Ticket (key t) (score t) (cls t) (engagement t) (joined t) (pooled t) (event t) (granted t) false (tried t) (reserved t).
Definition set_tried (n : Z) (t : ticket) : ticket :=
  Ticket (key t) (score t) (cls t) (engagement t) (joined t) (pooled t) (event t) (granted t) (active t) n (reserved t).

Record queue := Queue {
  heap : gmap nat ticket;
  waiting : list nat;
  holder : option nat;
  sweep : Z;
  dirty : bool;
  missed_rooms : gset T;
  main_placed : Z;
  held : option nat;
  hold_target : option T;
  since : gmap string float;
  left_at : gmap string float;
  served : gmap string float;
}.

Definition new_queue : queue := Queue ∅ [] None 0 false ∅ 0 None None ∅ ∅ ∅.

Definition set_heap h q := Queue h (waiting q) (holder q) (sweep q) (dirty q) (missed_rooms q) (main_placed q)
  (held q) (hold_target q) (since q) (left_at q) (served q).
Definition set_waiting w q := Queue (heap q) w (holder q) (sweep q) (dirty q) (missed_rooms q) (main_placed q)
  (held q) (hold_target q) (since q) (left_at q) (served q).
Definition set_holder x q := Queue (heap q) (waiting q) x (sweep q) (dirty q) (missed_rooms q) (main_placed q)
  (held q) (hold_target q) (since q) (left_at q) (served q).
Definition set_dirty b q := Queue (heap q) (waiting q) (holder q) (sweep q) b (missed_rooms q) (main_placed q)
  (held q) (hold_target q) (since q) (left_at q) (served q).
Definition set_rooms r q := Queue (heap q) (waiting q) (holder q) (sweep q) (dirty q) r (main_placed q)
  (held q) (hold_target q) (since q) (left_at q) (served q).
Definition set_hold x m q := Queue (heap q) (waiting q) (holder q) (sweep q) (dirty q) (missed_rooms q) (main_placed q)
  x m (since q) (left_at q) (served q).
Definition set_times s l v n q := Queue (heap q) (waiting q) (holder q) (sweep q) (dirty q) (missed_rooms q) n
  (held q) (hold_target q) s l v.

Definition update (i : nat) (f : ticket -> ticket) (q : queue) : queue := set_heap (alter f i (heap q)) q.

(** ** Reading the queue *)

Definition busy (q : queue) : bool := negb (bool_decide (waiting q = [])) || bool_decide (is_Some (holder q)).

(** [_tickets], and the tickets behind a list of identities. *)
Definition ticket_ids (q : queue) : list nat := waiting q ++ option_list (holder q).
Definition objects (q : queue) (l : list nat) : list ticket := omap (fun i => heap q !! i) l.
Definition tickets (q : queue) : list ticket := objects q (ticket_ids q).

Definition keys (q : queue) : list string := key <$> objects q (waiting q).
Definition waiting_in (c : T) (q : queue) : bool := existsb (fun t => bool_decide (cls t = c)) (tickets q).
Definition deadline (now : float) : float := fadd now (wait_s cfg).
Definition waited (t : ticket) (now : float) : float := fsub now (joined t).
Definition retry_after : Z := Z.max 1 (fceil (wait_s cfg)).

(** ** Choosing the next turn *)

Definition priority (q : queue) (now : float) (t : ticket) : float :=
  let w := Z.max 0 (fsub now (default (joined t) (since q !! key t))) in
  fmul (score t) (fadd fone (fdiv w (aging_s cfg))).

(** [max(..., key=lambda t: (priority, -joined))]: a later one wins only if greater. *)
Definition prio_gtb (q : queue) (now : float) (a b : ticket) : bool :=
  let pa := priority q now a in let pb := priority q now b in
  (pb <? pa) || ((pb =? pa) && (- joined b <? - joined a)).

(** [min(..., key=lambda t: (served.get(key, -inf), joined))] *)
Definition served_ltb (q : queue) (a b : ticket) : bool :=
  match served q !! key a, served q !! key b with
  | None, Some _ => true
  | Some _, None => false
  | None, None => joined a <? joined b
  | Some x, Some y => (x <? y) || ((x =? y) && (joined a <? joined b))
  end.

(** The first ticket no other one beats. *)
Fixpoint pick (better : ticket -> ticket -> bool) (best : nat * ticket) (l : list (nat * ticket)) : nat * ticket :=
  match l with
  | [] => best
  | it :: l' => pick better (if better it.2 best.2 then it else best) l'
  end.

Definition with_ids (q : queue) (l : list nat) : list (nat * ticket) :=
  omap (fun i => (fun t => (i, t)) <$> heap q !! i) l.

Definition untried (q : queue) : list (nat * ticket) :=
  filter (fun it => tried it.2 <> sweep q) (with_ids q (waiting q)).

Definition new_sweep (q : queue) : queue :=
  Queue (heap q) (waiting q) (holder q) (sweep q + 1) false ∅ (main_placed q)
    (held q) (hold_target q) (since q) (left_at q) (served q).

(** Whether the next turn is the pooled share's. *)
Definition fair_turn (q : queue) : bool := negb (fair_every cfg =? 0) && (fair_every cfg - 1 <=? main_placed q).

Definition choose_next (q : queue) (now : float) (candidates : list (nat * ticket)) : option (nat * ticket) :=
  match (if fair_turn q then filter (fun it => pooled it.2 = true) candidates else []) with
  | it :: l => Some (pick (served_ltb q) it l)
  | [] =>
      match candidates with
      | it :: l => Some (pick (prio_gtb q now) it l)
      | [] => None
      end
  end.

Definition give_turn (i : nat) (q : queue) : queue :=
  set_holder (Some i) (update i (set_granted true) (set_waiting (filter (fun j => j <> i) (waiting q)) q)).

Definition grant_next (now : float) (q : queue) : queue :=
  match holder q with
  | Some _ => q
  | None =>
      let '(q1, candidates) :=
        match untried q with
        | [] => if dirty q then (new_sweep q, with_ids (new_sweep q) (waiting q)) else (q, [])
        | l => (q, l)
        end in
      match choose_next q1 now candidates with
      | None => q1
      | Some it => give_turn it.1 q1
      end
  end.

(** ** Joining *)

Record refusal := Refusal { reason : string; detail : list (string * pyval); refusal_retry : Z }.

Definition present (q : queue) (k : string) : bool := existsb (fun t => String.eqb (key t) k) (tickets q).

Definition forget (now : float) (q : queue) : queue :=
  let stale k l := negb (present q k) && (forget_s cfg <? fsub now l) in
  set_times
    (filter (fun kv => match left_at q !! kv.1 with Some l => stale kv.1 l | None => false end = false) (since q))
    (filter (fun kv => present q kv.1 = false /\ stale kv.1 kv.2 = false) (left_at q))
    (served q) (main_placed q) q.

Definition count_if (p : ticket -> bool) (l : list ticket) : Z := Z.of_nat (length (List.filter p l)).

(** The started group whose owed seed the ticket is, if it has one. *)
Definition reservation_of (hotkey : string) (engagement : option string) (q : queue) : option T :=
  match owed cfg, engagement with
  | Some f, Some e =>
      match f hotkey e with
      | Some (group, n) =>
          if count_if (fun t => bool_decide (reserved t = Some group)) (tickets q) <? n then Some group else None
      | None => None
      end
  | _, _ => None
  end.

(** The bound of a key and its name. *)
Definition key_bound (hotkey : string) : Z * string :=
  match headroom cfg with
  | Some f => let room := Z.max 0 (f hotkey) in
              if room <? max_per_key cfg then (room, "headroom"%string) else (max_per_key cfg, "per_key"%string)
  | None => (max_per_key cfg, "per_key"%string)
  end.

Definition mine (k : string) (q : queue) : Z :=
  count_if (fun t => String.eqb (key t) k && bool_decide (reserved t = None)) (tickets q).

Definition join_refusal (hotkey k : string) (engagement_ : option string) (q : queue) : option refusal :=
  if max_waiting cfg <=? Z.of_nat (length (waiting q)) then
    Some (Refusal "open_queue_full" [("waiting", VInt (Z.of_nat (length (waiting q)))); ("max", VInt (max_waiting cfg))]
            retry_after)
  else if match engagement_ with
          | Some e => existsb (fun t => bool_decide (engagement t = Some e)) (tickets q)
          | None => false
          end
  then Some (Refusal "open_queued" [("engagement", match engagement_ with Some e => VStr e | None => VNone end)] retry_after)
  else
    match reservation_of hotkey engagement_ q with
    | Some _ => None
    | None =>
        let '(bound, by_) := key_bound hotkey in
        if bound <=? mine k q then
          Some (Refusal "open_queue_key_full" [("waiting", VInt (mine k q)); ("max", VInt bound); ("bound", VStr by_)] retry_after)
        else None
    end.

Definition new_ticket (hotkey : string) (c : T) (engagement_ : option string) (now : float) (q : queue) : ticket :=
  let '(k, sc, pl) := rank cfg hotkey in
  Ticket k sc c engagement_ now pl false false true
    (if existsb (fun t => bool_decide (cls t = c) && (tried t =? sweep q)) (objects q (waiting q)) then sweep q else -1)
    (reservation_of hotkey engagement_ q).

(** The identity of a ticket that no object has had. *)
Definition fresh_id (q : queue) : nat := fresh (dom (heap q)).

Definition join (hotkey : string) (c : T) (engagement_ : option string) (now : float) (q : queue)
    : (nat + refusal) * queue :=
  let k := (rank cfg hotkey).1.1 in
  match join_refusal hotkey k engagement_ q with
  | Some r => (inr r, q)
  | None =>
      let t := new_ticket hotkey c engagement_ now q in
      let i := fresh_id q in
      let q1 := forget now q in
      let q2 := set_times (match since q1 !! k with Some _ => since q1 | None => <[k := now]> (since q1) end)
                  (delete k (left_at q1)) (served q1) (main_placed q1) q1 in
      let q3 := set_heap (<[i := t]> (heap q2)) (set_waiting (waiting q2 ++ [i]) q2) in
      (inl i, match holder q3 with None => grant_next now q3 | Some _ => q3 end)
  end.

(** ** Turns *)

Definition room_missed (room : T) (q : queue) : bool := bool_decide (room ∈ missed_rooms q).

Definition ticket_active (i : nat) (q : queue) : bool := from_option active false (heap q !! i).

Definition should_hold (i : nat) (now : float) (q : queue) : bool :=
  match hold_after_s cfg, heap q !! i with
  | Some after, Some t =>
      if negb (active t) then false
      else if match held q with Some j => negb (Nat.eqb j i) && ticket_active j q | None => false end then false
      else if fsub now (default (joined t) (since q !! key t)) <? after then false
      else match with_ids q (ticket_ids q) with
           | it :: l => Nat.eqb (pick (prio_gtb q now) it l).1 i
           | [] => false
           end
  | _, _ => false
  end.

Definition hold (i : nat) (target : option T) (q : queue) : queue :=
  match target with None => q | Some _ => set_hold (Some i) target q end.

Definition held_for_others (i : option nat) (q : queue) : gset T :=
  match held q with
  | None => ∅
  | Some j => if bool_decide (i = Some j) || negb (ticket_active j q) then ∅
              else match hold_target q with Some m => {[m]} | None => ∅ end
  end.

Definition missed (i : nat) (room : option T) (now : float) (q : queue) : queue :=
  let q1 := match room, heap q !! i with
            | Some r, Some t => if negb (tried t =? sweep q) then set_rooms ({[r]} ∪ missed_rooms q) q else q
            | _, _ => q
            end in
  let q2 := if bool_decide (holder q1 = Some i) then set_holder None q1 else q1 in
  let q3 := update i (fun t => set_tried (sweep q2) (set_granted false t)) q2 in
  let q4 := if ticket_active i q3 && negb (bool_decide (i ∈ waiting q3)) then set_waiting (waiting q3 ++ [i]) q3 else q3 in
  grant_next now q4.

Definition done_ (i : nat) (placed : bool) (now : float) (q : queue) : queue :=
  match heap q !! i with
  | None => q
  | Some t =>
      if negb (active t) then q
      else
        let q1 := update i set_inactive q in
        let q2 := set_waiting (filter (fun j => j <> i) (waiting q1)) q1 in
        let was_held := bool_decide (holder q2 = Some i) in
        let q3 := if was_held then set_holder None q2 else q2 in
        let q4 := if bool_decide (held q3 = Some i) then set_hold None None q3 else q3 in
        let others := present q4 (key t) in
        let q5 :=
          if placed then
            set_times (if others then <[key t := now]> (since q4) else delete (key t) (since q4)) (left_at q4)
              (<[key t := now]> (served q4)) (if pooled t then 0 else main_placed q4 + 1) q4
          else q4 in
        let q6 := if others then q5
                  else set_times (since q5) (<[key t := now]> (left_at q5)) (served q5) (main_placed q5) q5 in
        if was_held then grant_next now q6 else q6
  end.

(** [turn] once it stops waiting: the event came, or the deadline did. *)
Definition turn_end (i : nat) (now : float) (q : queue) : bool * queue :=
  match heap q !! i with
  | Some t => if granted t || event t then (true, q) else (false, done_ i false now q)
  | None => (false, q)
  end.

Definition notify (now : float) (q : queue) : queue :=
  match holder q with
  | Some _ => set_dirty true q
  | None => grant_next now (new_sweep q)
  end.

(** ** Runs *)

(** What the issuer does with the queue: [missed] comes from the turn's holder, a
    machine is held when [should_hold] says so, [done] may come at any time. *)
Inductive queue_step : queue -> queue -> Prop :=
  | step_join hotkey c e now q : queue_step q (join hotkey c e now q).2
  | step_hold i target now q : should_hold i now q = true -> queue_step q (hold i target q)
  | step_missed i t room now q : heap q !! i = Some t -> active t = true -> granted t = true ->
      queue_step q (missed i room now q)
  | step_done i placed now q : queue_step q (done_ i placed now q)
  | step_turn i now q : queue_step q (turn_end i now q).2
  | step_notify now q : queue_step q (notify now q).

(** ** Tickets of a key *)

Definition charge (k : string) (h : gmap nat ticket) (i : nat) : Z :=
  match h !! i with
  | Some t => if String.eqb (key t) k && bool_decide (reserved t = None) then 1 else 0
  | None => 0
  end.

Lemma mine_sum k q : mine k q = Zsum (charge k (heap q) <$> ticket_ids q).
Proof.
  unfold mine, tickets, objects, count_if. induction (ticket_ids q) as [|i l IH]; [done|].
  cbn [omap list_omap fmap list_fmap]. unfold charge at 1. unfold Zsum in *. cbn [foldr].
  destruct (heap q !! i) as [t|]; cbn [List.filter]; [|lia]. destruct (_ && _); cbn [length]; lia.
Qed.

Lemma charge_range k h i : 0 <= charge k h i <= 1.
Proof. unfold charge. destruct (h !! i); [|lia]. destruct (_ && _); lia. Qed.

(** ** The invariant *)

Record queue_wf (q : queue) : Prop := {
  wf_nodup : NoDup (ticket_ids q);
  wf_active : forall i, i ∈ ticket_ids q <-> ticket_active i q = true;
  wf_granted : forall i t, heap q !! i = Some t -> active t = true ->
    (granted t = true <-> holder q = Some i) /\ event t = granted t;
  wf_tried : forall i t, heap q !! i = Some t -> tried t <= sweep q;
  wf_sweep : 0 <= sweep q;
  wf_len : Z.of_nat (length (ticket_ids q)) <= max_waiting cfg + 1;
  wf_mine : forall k, mine k q <= max_per_key cfg;
  wf_engagement : forall i j t t' e, heap q !! i = Some t -> heap q !! j = Some t' -> active t = true -> active t' = true ->
    engagement t = Some e -> engagement t' = Some e -> i = j;
  wf_held : forall i, held q = Some i -> ticket_active i q = true;
}.

(** The turn is not idle while an untried ticket waits. *)
Definition turn_busy (q : queue) : Prop :=
  holder q = None -> dirty q = false /\ forall i t, i ∈ waiting q -> heap q !! i = Some t -> tried t = sweep q.

(** ** Choosing *)

Lemma pick_elem better best l : pick better best l ∈ best :: l.
Proof.
  revert best. induction l as [|it l IH]; intros best; cbn; [constructor|].
  specialize (IH (if better it.2 best.2 then it else best)). destruct (better it.2 best.2); set_solver.
Qed.

Lemma choose_next_elem q now candidates it : choose_next q now candidates = Some it -> it ∈ candidates.
Proof.
  unfold choose_next. destruct (if fair_turn q then _ else _) as [|it0 l] eqn:E.
  - destruct candidates as [|it1 l]; [done|]. intros [= <-]. apply pick_elem.
  - intros [= <-]. assert (pick (served_ltb q) it0 l ∈ it0 :: l) as Hin by apply pick_elem. rewrite <- E in Hin.
    destruct (fair_turn q); [by apply list_elem_of_filter in Hin as [_ ?]|by apply not_elem_of_nil in Hin].
Qed.

Lemma choose_next_some q now candidates : candidates <> [] -> exists it, choose_next q now candidates = Some it.
Proof.
  intros Hne. unfold choose_next. destruct (if fair_turn q then _ else _); [|eauto]. destruct candidates; [done|eauto].
Qed.

Lemma with_ids_elem q l it : it ∈ with_ids q l <-> it.1 ∈ l /\ heap q !! it.1 = Some it.2.
Proof.
  unfold with_ids. rewrite list_elem_of_omap. split.
  - intros (i & Hi & E). destruct (heap q !! i) as [t|] eqn:Et; [|done]. injection E as <-. done.
  - intros [Hi E]. exists it.1. split; [done|]. rewrite E. by destruct it.
Qed.

(** [grant_next] leaves the queue alone, or starts the follow-up sweep, or both
    or either followed by giving the turn to a waiting ticket. *)
Lemma grant_next_cases now q : holder q = None ->
  exists q1, (q1 = q \/ q1 = new_sweep q) /\
    ((grant_next now q = q1 /\ turn_busy q1) \/ exists i, i ∈ waiting q /\ grant_next now q = give_turn i q1).
Proof.
  intros Hh. unfold grant_next. rewrite Hh.
  assert (forall q1 l, (q1 = q \/ q1 = new_sweep q) -> (forall it, it ∈ l -> it.1 ∈ waiting q) -> (l = [] -> turn_busy q1) ->
    exists q2, (q2 = q \/ q2 = new_sweep q) /\
    ((match choose_next q1 now l with None => q1 | Some it => give_turn it.1 q1 end = q2 /\ turn_busy q2) \/
     exists i, i ∈ waiting q /\ match choose_next q1 now l with None => q1 | Some it => give_turn it.1 q1 end = give_turn i q2)) as Hgen.
  { intros q1 l Hq1 Hl Hnil. exists q1. split; [done|]. destruct (choose_next q1 now l) as [it|] eqn:Ec.
    - right. exists it.1. split; [|done]. apply Hl. by eapply choose_next_elem.
    - left. split; [done|]. apply Hnil. destruct l as [|it l]; [done|].
      destruct (choose_next_some q1 now (it :: l)) as [it' E]; [done|]. congruence. }
  assert (forall q2 it, it ∈ with_ids q2 (waiting q) -> it.1 ∈ waiting q) as Hw
    by (intros q2 it Hin; by apply with_ids_elem in Hin as [? _]).
  destruct (untried q) as [|it0 l0] eqn:Eu; [destruct (dirty q) eqn:Ed|].
  - apply Hgen; [by right|apply Hw|]. intros Hnil _. split; [done|]. intros i t Hi Ht. exfalso.
    assert ((i, t) ∈ with_ids (new_sweep q) (waiting q)) as Hin by by apply with_ids_elem.
    rewrite Hnil in Hin. by apply not_elem_of_nil in Hin.
  - apply Hgen; [by left|intros it Hin; by apply not_elem_of_nil in Hin|]. intros _ _. split; [done|]. intros i t Hi Ht.
    destruct (decide (tried t = sweep q)) as [|Hne]; [done|]. exfalso.
    assert ((i, t) ∈ untried q) as Hin by (apply list_elem_of_filter; split; [done|by apply with_ids_elem]).
    rewrite Eu in Hin. by apply not_elem_of_nil in Hin.
  - rewrite <- Eu. apply Hgen; [by left| |by rewrite Eu].
    intros it [_ Hin]%list_elem_of_filter. by eapply Hw.
Qed.

Lemma new_sweep_wf q : queue_wf q -> queue_wf (new_sweep q).
Proof.
  intros [H1 H2 H3 H4 H5 H6 H7 H8 H9]. split; try done.
  - intros i t Ht. specialize (H4 i t Ht). cbn. lia.
  - cbn. lia.
Qed.

Lemma update_active i f q j : (forall t, active (f t) = active t) -> ticket_active j (update i f q) = ticket_active j q.
Proof.
  intros Hf. unfold ticket_active, update, set_heap. cbn. rewrite lookup_alter. case_decide as Hi; [|done].
  subst. destruct (heap q !! j); [|done]. cbn. apply Hf.
Qed.

Lemma alter_inv {A} (f : A -> A) (m : gmap nat A) i j x : alter f i m !! j = Some x ->
  exists y, m !! j = Some y /\ x = if decide (j = i) then f y else y.
Proof.
  rewrite lookup_alter. case_decide as Hi.
  - subst. destruct (m !! j) as [y|] eqn:E; [|done]. intros [= <-]. exists y. by rewrite decide_True.
  - intros E. exists x. by rewrite decide_False.
Qed.

Lemma charge_alter k f m i j : (forall t, key (f t) = key t /\ reserved (f t) = reserved t) ->
  charge k (alter f i m) j = charge k m j.
Proof.
  intros Hf. unfold charge. rewrite lookup_alter. case_decide as Hi; [|done]. subst. destruct (m !! j) as [t|]; [|done].
  cbn. by destruct (Hf t) as [-> ->].
Qed.

(** Moving a ticket between the waiters and the turn, with its flags. *)
Lemma move_wf (q q' : queue) i f :
  queue_wf q -> ticket_ids q' ≡ₚ ticket_ids q -> heap q' = alter f i (heap q) -> sweep q' = sweep q -> held q' = held q ->
  (forall t, key (f t) = key t /\ reserved (f t) = reserved t) ->
  (forall t, active (f t) = active t /\ engagement (f t) = engagement t) ->
  (forall t, tried (f t) = tried t \/ tried (f t) = sweep q) ->
  (forall j t, heap q' !! j = Some t -> active t = true ->
     (granted t = true <-> holder q' = Some j) /\ event t = granted t) ->
  queue_wf q'.
Proof.
  intros [H1 H2 H3 H4 H5 H6 H7 H8 H9] Hids Hheap Hsw Hheld Hf1 Hf2 Hf3 Hgr.
  assert (forall j, ticket_active j q' = ticket_active j q) as Hact.
  { intros j. unfold ticket_active. rewrite Hheap, lookup_alter. case_decide as Hi; [|done]. subst.
    destruct (heap q !! j) as [t|]; [|done]. cbn. by destruct (Hf2 t) as [-> _]. }
  split.
  - by rewrite Hids.
  - intros j. by rewrite Hids, Hact.
  - exact Hgr.
  - intros j t Ht. rewrite Hheap in Ht. apply alter_inv in Ht as (y & Hy & ->). rewrite Hsw. specialize (H4 j y Hy).
    case_decide; [|done]. destruct (Hf3 y) as [-> | ->]; lia.
  - by rewrite Hsw.
  - by rewrite Hids.
  - intros k. rewrite mine_sum, Hids, Hheap. rewrite (Zsum_ext_eq _ (charge k (heap q))); [|intros j _; by apply charge_alter].
    rewrite <- mine_sum. apply H7.
  - intros a b t t' e Ha Hb. rewrite Hheap in Ha, Hb. apply alter_inv in Ha as (y & Hy & ->).
    apply alter_inv in Hb as (y' & Hy' & ->).
    assert (forall u x, active (if decide (u = i) then f x else x) = active x) as Ea
      by (intros u x; case_decide; [apply Hf2|done]).
    assert (forall u x, engagement (if decide (u = i) then f x else x) = engagement x) as Ee
      by (intros u x; case_decide; [apply Hf2|done]).
    rewrite !Ea, !Ee. by apply H8.
  - intros j Hj. rewrite Hact. apply H9. by rewrite <- Hheld.
Qed.

Lemma remove_perm (l : list nat) i : NoDup l -> i ∈ l -> filter (fun j => j <> i) l ++ [i] ≡ₚ l.
Proof.
  intros Hnd Hi. apply NoDup_Permutation; [|done|].
  - apply NoDup_app. split_and!; [by apply NoDup_filter| |apply NoDup_singleton].
    intros x [Hx _]%list_elem_of_filter ->%list_elem_of_singleton. done.
  - intros x. rewrite elem_of_app, list_elem_of_filter, list_elem_of_singleton.
    destruct (decide (x = i)) as [->|Hne]; [tauto|]. tauto.
Qed.

Lemma give_turn_wf q i : queue_wf q -> holder q = None -> i ∈ waiting q -> queue_wf (give_turn i q).
Proof.
  intros Hwf Hh Hi. assert (NoDup (waiting q)) as Hnd.
  { pose proof (wf_nodup q Hwf) as Hn. unfold ticket_ids in Hn. by apply NoDup_app in Hn as [? _]. }
  eapply (move_wf q _ i (set_granted true)); try done.
  - unfold ticket_ids, give_turn. cbn. rewrite Hh. cbn. rewrite app_nil_r. by apply remove_perm.
  - intros t. by left.
  - intros j t Ht Ha. cbn in Ht |- *. apply alter_inv in Ht as (y & Hy & ->). case_decide as Hj; [subst; by cbn|].
    destruct (wf_granted q Hwf j y Hy Ha) as [Hg He]. split; [|done]. rewrite Hg, Hh. naive_solver.
Qed.

Lemma grant_next_ok now q : queue_wf q -> queue_wf (grant_next now q) /\ turn_busy (grant_next now q).
Proof.
  intros Hwf. destruct (holder q) as [h|] eqn:Hh.
  { unfold grant_next. rewrite Hh. split; [done|]. intros E. congruence. }
  destruct (grant_next_cases now q Hh) as (q1 & Hq1 & Hcase).
  assert (queue_wf q1) as Hwf1 by (destruct Hq1 as [-> | ->]; [done|by apply new_sweep_wf]).
  destruct Hcase as [[-> Hbusy]|(i & Hi & ->)]; [done|]. split; [|done].
  apply give_turn_wf; [done| |]; by destruct Hq1 as [-> | ->].
Qed.

Lemma granted_holder q i t : queue_wf q -> heap q !! i = Some t -> active t = true -> granted t = true -> holder q = Some i.
Proof. intros Hwf Ht Ha. by apply (wf_granted q Hwf i t Ht Ha). Qed.

Lemma missed_ok i t room now q : queue_wf q -> heap q !! i = Some t -> active t = true -> granted t = true ->
  queue_wf (missed i room now q) /\ turn_busy (missed i room now q).
Proof.
  intros Hwf Ht Ha Hg. pose proof (granted_holder q i t Hwf Ht Ha Hg) as Hh. unfold missed. apply grant_next_ok.
  set (q1 := match room with Some _ => _ | None => _ end).
  assert (heap q1 = heap q /\ waiting q1 = waiting q /\ holder q1 = holder q /\ sweep q1 = sweep q /\ held q1 = held q)
    as (E1 & E2 & E3 & E4 & E5).
  { unfold q1. destruct room as [r|]; [|done]. rewrite Ht. by destruct (negb _). }
  rewrite (bool_decide_true (holder q1 = Some i)) by congruence.
  pose proof (wf_nodup q Hwf) as Hnd. unfold ticket_ids in Hnd. rewrite Hh in Hnd. cbn in Hnd.
  assert (i ∉ waiting q) as Hni by (intros Hin; apply NoDup_app in Hnd as (_ & Hd & _); apply (Hd i Hin); constructor).
  assert (ticket_active i (update i (fun t => set_tried (sweep (set_holder None q1)) (set_granted false t)) (set_holder None q1)) = true) as ->.
  { rewrite update_active by done. unfold ticket_active. cbn. by rewrite E1, Ht. }
  cbn [waiting update set_heap set_holder]. rewrite E2, bool_decide_false by done. cbn [andb negb].
  eapply (move_wf q _ i (fun t => set_tried (sweep q) (set_granted false t))); try done.
  - unfold ticket_ids. cbn. rewrite ?E2, Hh. cbn. by rewrite app_nil_r.
  - cbn. by rewrite E1, E4.
  - intros y. by right.
  - intros j y Hy Hya. cbn in Hy |- *. rewrite E1 in Hy. apply alter_inv in Hy as (z & Hz & ->). case_decide as Hj.
    + cbn. split; [|done]. done.
    + destruct (wf_granted q Hwf j z Hz Hya) as [Hgz Hez]. split; [|done]. rewrite Hgz, Hh. split; [|done]. congruence.
Qed.

Lemma filter_ids q i : filter (fun j => j <> i) (ticket_ids q) =
  filter (fun j => j <> i) (waiting q) ++ (if decide (holder q = Some i) then [] else option_list (holder q)).
Proof.
  unfold ticket_ids. rewrite filter_app. f_equal. destruct (holder q) as [h|].
  - change (option_list (Some h)) with [h]. rewrite filter_cons, filter_nil. destruct (decide (h = i)) as [->|Hne].
    + rewrite decide_False by tauto. by rewrite decide_True.
    + rewrite decide_True by done. rewrite decide_False; [done|congruence].
  - by rewrite decide_False.
Qed.

(** A ticket that leaves. *)
Lemma leave_wf (q q' : queue) i :
  queue_wf q -> ticket_ids q' = filter (fun j => j <> i) (ticket_ids q) -> heap q' = alter set_inactive i (heap q) ->
  sweep q' = sweep q -> held q' = (if decide (held q = Some i) then None else held q) ->
  holder q' = (if decide (holder q = Some i) then None else holder q) -> queue_wf q'.
Proof.
  intros [H1 H2 H3 H4 H5 H6 H7 H8 H9] Hids Hheap Hsw Hheld Hhold.
  assert (forall j, ticket_active j q' = true <-> j <> i /\ ticket_active j q = true) as Hact.
  { intros j. unfold ticket_active. rewrite Hheap, lookup_alter. destruct (decide (i = j)) as [Hi|Hi].
    - subst j. split; [|by intros [Hne _]]. by destruct (heap q !! i).
    - split; [|tauto]. intros Ha. split; [congruence|done]. }
  split.
  - rewrite Hids. by apply NoDup_filter.
  - intros j. rewrite Hids, list_elem_of_filter, Hact, H2. done.
  - intros j t Ht Ha. rewrite Hheap in Ht. apply alter_inv in Ht as (y & Hy & ->). destruct (decide (j = i)) as [Hj|Hj]; [done|].
    destruct (H3 j y Hy Ha) as [Hg He]. split; [|done]. rewrite Hg, Hhold. destruct (decide (holder q = Some i)) as [Hd|Hd]; [|done].
    rewrite Hd. split; [congruence|done].
  - intros j t Ht. rewrite Hheap in Ht. apply alter_inv in Ht as (y & Hy & ->). rewrite Hsw. specialize (H4 j y Hy).
    by destruct (decide (j = i)).
  - by rewrite Hsw.
  - rewrite Hids. etrans; [|exact H6]. apply inj_le. apply length_filter.
  - intros k. rewrite mine_sum, Hids, Hheap. etrans; [|apply (H7 k)]. rewrite mine_sum.
    clear -H. induction (ticket_ids q) as [|j l IH]; [done|]. rewrite filter_cons, fmap_cons.
    pose proof (charge_range k (heap q) j). unfold Zsum in *. cbn [foldr].
    case_decide as Hj; [|lia]. rewrite fmap_cons. cbn [foldr].
    rewrite (charge_alter k set_inactive) by done. lia.
  - intros a b t t' e Ha Hb Hta Htb. rewrite Hheap in Ha, Hb. apply alter_inv in Ha as (y & Hy & ->).
    apply alter_inv in Hb as (y' & Hy' & ->).
    destruct (decide (a = i)); [done|]. destruct (decide (b = i)); [done|]. by eapply H8.
  - intros j Hj. rewrite Hheld in Hj. destruct (decide (held q = Some i)) as [Hd|Hd]; [done|]. apply Hact. split; [congruence|by apply H9].
Qed.

(** The clocks of the keys do not touch the tickets. *)
Lemma set_times_wf s l v n q : queue_wf q -> queue_wf (set_times s l v n q).
Proof. intros [H1 H2 H3 H4 H5 H6 H7 H8 H9]. by split. Qed.

Lemma done_wf_ok i placed now q : queue_wf q -> turn_busy q ->
  queue_wf (done_ i placed now q) /\ turn_busy (done_ i placed now q).
Proof.
  intros Hwf Hbusy. unfold done_. destruct (heap q !! i) as [t|] eqn:Ht; [|done].
  destruct (active t) eqn:Ha; [|done]. cbn [negb]. set (q2 := set_waiting _ (update i set_inactive q)).
  set (was := bool_decide (holder q2 = Some i)). set (q3 := if was then set_holder None q2 else q2).
  set (q4 := if bool_decide (held q3 = Some i) then set_hold None None q3 else q3).
  assert (holder q3 = if decide (holder q = Some i) then None else holder q) as E3.
  { unfold q3, was. change (holder q2) with (holder q). case_bool_decide as Hd; destruct (decide (holder q = Some i)); done. }
  assert (heap q3 = alter set_inactive i (heap q) /\ waiting q3 = filter (fun j => j <> i) (waiting q) /\
          sweep q3 = sweep q /\ dirty q3 = dirty q /\ held q3 = held q) as (E3a & E3b & E3c & E3d & E3e).
  { unfold q3. by destruct was. }
  assert (heap q4 = heap q3 /\ waiting q4 = waiting q3 /\ holder q4 = holder q3 /\ sweep q4 = sweep q3 /\ dirty q4 = dirty q3)
    as (E4a & E4b & E4c & E4d & E4e) by (unfold q4; by destruct (bool_decide (held q3 = Some i))).
  assert (queue_wf q4) as Hwf4.
  { apply (leave_wf q q4 i Hwf).
    - rewrite filter_ids. unfold ticket_ids. rewrite E4b, E4c, E3b, E3. f_equal. by destruct (decide _).
    - by rewrite E4a.
    - by rewrite E4d.
    - unfold q4. rewrite E3e. case_bool_decide as Hd; cbn; destruct (decide (held q = Some i)); done.
    - by rewrite E4c. }
  set (others := present q4 (key t)). set (q5 := if placed then _ else q4). set (q6 := if others then q5 else _).
  assert (heap q6 = heap q4 /\ waiting q6 = waiting q4 /\ holder q6 = holder q4 /\ sweep q6 = sweep q4 /\ dirty q6 = dirty q4)
    as (E6a & E6b & E6c & E6d & E6e) by (unfold q6, q5; by destruct others, placed).
  assert (queue_wf q6) as Hwf6.
  { unfold q6, q5. destruct others, placed; repeat apply set_times_wf; exact Hwf4. }
  destruct was eqn:Ew; [by apply grant_next_ok|]. split; [done|]. intros Hn.
  unfold was in Ew. apply bool_decide_eq_false in Ew. change (holder q2) with (holder q) in Ew.
  assert (holder q = None) as Hq by (rewrite E6c, E4c, E3 in Hn; by rewrite decide_False in Hn).
  destruct (Hbusy Hq) as [Hd Htr]. split; [by rewrite E6e, E4e, E3d|]. intros j y Hj Hy.
  rewrite E6b, E4b, E3b in Hj. apply list_elem_of_filter in Hj as [Hji Hj].
  rewrite E6a, E4a, E3a in Hy. apply alter_inv in Hy as (z & Hz & ->). rewrite decide_False by done.
  rewrite E6d, E4d, E3c. by eapply Htr.
Qed.

Lemma join_refusal_none hotkey k e q : join_refusal hotkey k e q = None ->
  Z.of_nat (length (waiting q)) < max_waiting cfg /\
  (forall n, e = Some n -> forall t, t ∈ tickets q -> engagement t <> Some n) /\
  (reservation_of hotkey e q = None -> mine k q < max_per_key cfg).
Proof.
  unfold join_refusal. destruct (Z.leb_spec (max_waiting cfg) (Z.of_nat (length (waiting q)))) as [|Hlen]; [done|].
  destruct (match e with Some n => _ | None => _ end) eqn:Ee; [done|]. intros Hr. split_and!; [done| |].
  - intros n -> t Hin Ht. rewrite (proj2 (List.existsb_exists _ _)) in Ee; [done|]. exists t.
    split; [by apply list_elem_of_In|by apply bool_decide_eq_true].
  - intros Hres. rewrite Hres in Hr. unfold key_bound in Hr. destruct (headroom cfg) as [f|]; cbn zeta in Hr.
    + destruct (Z.ltb_spec (Z.max 0 (f hotkey)) (max_per_key cfg)) as [Hlt|_];
        [destruct (Z.leb_spec (Z.max 0 (f hotkey)) (mine k q)) | destruct (Z.leb_spec (max_per_key cfg) (mine k q))]; done || lia.
    + destruct (Z.leb_spec (max_per_key cfg) (mine k q)); done || lia.
Qed.

Lemma tickets_elem q t : t ∈ tickets q <-> exists i, i ∈ ticket_ids q /\ heap q !! i = Some t.
Proof. unfold tickets, objects. apply list_elem_of_omap. Qed.

(** A new waiting ticket. *)
Lemma enter_wf (q q' : queue) i t :
  queue_wf q -> heap q !! i = None -> heap q' = <[i := t]> (heap q) -> waiting q' = waiting q ++ [i] ->
  holder q' = holder q -> sweep q' = sweep q -> held q' = held q ->
  active t = true -> granted t = false -> event t = false -> tried t <= sweep q ->
  Z.of_nat (length (waiting q)) < max_waiting cfg ->
  (forall n, engagement t = Some n -> forall u, u ∈ tickets q -> engagement u <> Some n) ->
  (reserved t = None -> mine (key t) q < max_per_key cfg) -> queue_wf q'.
Proof.
  intros Hwf Hi Hheap Hw Hh Hsw Hheld Ha Hg He Htr Hlen Heng Hmine. pose proof Hwf as [H1 H2 H3 H4 H5 H6 H7 H8 H9].
  assert (ticket_ids q' ≡ₚ i :: ticket_ids q) as Hids.
  { unfold ticket_ids. rewrite Hw, Hh. rewrite <- app_assoc. symmetry. apply Permutation_middle. }
  assert (i ∉ ticket_ids q) as Hni by (rewrite H2; unfold ticket_active; by rewrite Hi).
  assert (forall j, j <> i -> heap q' !! j = heap q !! j) as Hother by (intros j Hj; by rewrite Hheap, lookup_insert_ne).
  assert (heap q' !! i = Some t) as Hti by by rewrite Hheap, lookup_insert_eq.
  assert (forall u j, heap q !! j = Some u -> active u = true -> u ∈ tickets q) as Hin.
  { intros u j Hj Hu. apply tickets_elem. exists j. split; [|done]. apply H2. unfold ticket_active. by rewrite Hj. }
  split.
  - rewrite Hids. by apply NoDup_cons.
  - intros j. rewrite Hids, elem_of_cons, H2. unfold ticket_active. destruct (decide (j = i)) as [->|Hj].
    + rewrite Hti. cbn. tauto.
    + rewrite Hother by done. tauto.
  - intros j u Hu Hua. destruct (decide (j = i)) as [->|Hj].
    + rewrite Hti in Hu. injection Hu as <-. rewrite Hg, He, Hh. split; [|done]. split; [done|]. intros Hhi. exfalso.
      apply Hni. unfold ticket_ids. rewrite Hhi. apply elem_of_app. right. constructor.
    + rewrite Hother in Hu by done. rewrite Hh. by apply H3.
  - intros j u Hu. rewrite Hsw. destruct (decide (j = i)) as [->|Hj].
    + rewrite Hti in Hu. by injection Hu as <-.
    + rewrite Hother in Hu by done. by eapply H4.
  - by rewrite Hsw.
  - rewrite Hids. cbn [length]. unfold ticket_ids. rewrite length_app.
    assert (length (option_list (holder q)) <= 1)%nat by (destruct (holder q); cbn; lia). lia.
  - intros k. rewrite mine_sum, Hids, fmap_cons.
    change (charge k (heap q') i + Zsum (charge k (heap q') <$> ticket_ids q) <= max_per_key cfg).
    rewrite (Zsum_ext_eq _ (charge k (heap q))).
    + rewrite <- mine_sum. unfold charge. rewrite Hti. destruct (String.eqb_spec (key t) k) as [<-|]; cbn [andb].
      * case_bool_decide as Hr; [specialize (Hmine Hr); lia|]. apply H7.
      * apply H7.
    + intros j Hj. unfold charge. rewrite Hother; [done|]. intros ->. done.
  - intros a b u u' n Hu Hu' Hua Hua' Eu Eu'.
    destruct (decide (a = i)) as [->|Hai], (decide (b = i)) as [->|Hbi]; [done| | |].
    + rewrite Hti in Hu. injection Hu as <-. rewrite Hother in Hu' by done. by destruct (Heng n Eu u' (Hin u' b Hu' Hua')).
    + rewrite Hti in Hu'. injection Hu' as <-. rewrite Hother in Hu by done. by destruct (Heng n Eu' u (Hin u a Hu Hua)).
    + rewrite Hother in Hu, Hu' by done. by eapply H8.
  - intros j Hj. rewrite Hheld in Hj. specialize (H9 j Hj). unfold ticket_active in *. rewrite Hother; [done|].
    intros ->. by rewrite Hi in H9.
Qed.

Lemma join_ok hotkey c e now q : queue_wf q -> turn_busy q ->
  queue_wf (join hotkey c e now q).2 /\ turn_busy (join hotkey c e now q).2.
Proof.
  intros Hwf Hbusy. unfold join. set (k := (rank cfg hotkey).1.1).
  destruct (join_refusal hotkey k e q) eqn:Er; [done|]. apply join_refusal_none in Er as (Hlen & Heng & Hmine). cbn [snd].
  set (t := new_ticket hotkey c e now q). set (i := fresh_id q). set (q2 := set_times _ _ _ _ (forget now q)).
  set (q3 := set_heap _ (set_waiting _ q2)).
  assert (heap q !! i = None) as Hfresh by exact (not_elem_of_dom_1 _ _ (is_fresh (dom (heap q) : gset nat))).
  assert (key t = k /\ engagement t = e /\ reserved t = reservation_of hotkey e q /\ active t = true /\ granted t = false /\
          event t = false /\ tried t <= sweep q) as (Hk & He & Hr & Ha & Hg & Hev & Htr).
  { unfold t, k, new_ticket. destruct (rank cfg hotkey) as [[k' sc] pl]. cbn. split_and!; try done.
    pose proof (wf_sweep q Hwf). destruct (existsb _ _); lia. }
  assert (queue_wf q3) as Hwf3.
  { apply (enter_wf q q3 i t); try done.
    - by rewrite He.
    - rewrite Hr, Hk. done. }
  destruct (holder q3) as [h|] eqn:Eh; [|by apply grant_next_ok]. split; [done|]. intros Hn. congruence.
Qed.

Lemma should_hold_active i now q : should_hold i now q = true -> ticket_active i q = true.
Proof.
  unfold should_hold, ticket_active. destruct (hold_after_s cfg); [|done]. destruct (heap q !! i) as [t|]; [|done]. cbn.
  by destruct (active t).
Qed.

Lemma queue_step_ok q q' : queue_wf q /\ turn_busy q -> queue_step q q' -> queue_wf q' /\ turn_busy q'.
Proof.
  intros [Hwf Hbusy] Hs. destruct Hs as [hotkey c e now q|i target now q Hsh|i t room now q Ht Ha Hg|i placed now q|i now q|now q].
  - by apply join_ok.
  - unfold hold. destruct target as [m|]; [|done]. split; [|done].
    destruct Hwf as [H1 H2 H3 H4 H5 H6 H7 H8 H9]. split; try done. intros j [= <-]. exact (should_hold_active i now q Hsh).
  - by eapply missed_ok.
  - by apply done_wf_ok.
  - unfold turn_end. destruct (heap q !! i) as [t|]; [|done]. destruct (_ || _); [done|]. by apply done_wf_ok.
  - unfold notify. destruct (holder q) as [h|] eqn:Eh; [|by apply grant_next_ok, new_sweep_wf].
    destruct Hwf as [H1 H2 H3 H4 H5 H6 H7 H8 H9]. split; [by split|]. intros Hn. cbn in Hn. congruence.
Qed.

(** ** Who gets the turn *)

(** A comparison whose failure is a total preorder. *)
Definition comparison (better : ticket -> ticket -> bool) : Prop :=
  (forall a b, better a b = true -> better b a = false) /\
  (forall a b c, better a b = false -> better b c = false -> better a c = false).

Lemma pick_best better best l : comparison better ->
  forall it, it ∈ best :: l -> better it.2 (pick better best l).2 = false.
Proof.
  intros [Hasym Htrans]. assert (forall a, better a a = false) as Hirr.
  { intros a. destruct (better a a) eqn:E; [|done]. by rewrite (Hasym a a E) in E. }
  revert best. induction l as [|x l IH]; intros best it Hin; cbn [pick].
  - apply list_elem_of_singleton in Hin as ->. apply Hirr.
  - rewrite !elem_of_cons in Hin. destruct (better x.2 best.2) eqn:E.
    + destruct Hin as [->|Hin]; [|apply IH; by rewrite elem_of_cons].
      eapply Htrans; [exact (Hasym _ _ E)|]. apply IH. constructor.
    + destruct Hin as [->|[->|Hin]]; [apply IH; constructor| |apply IH; by constructor].
      eapply Htrans; [exact E|]. apply IH. constructor.
Qed.

Lemma prio_comparison q now : comparison (prio_gtb q now).
Proof.
  unfold comparison, prio_gtb. split.
  - intros a b. rewrite orb_true_iff, orb_false_iff, andb_true_iff, andb_false_iff, !Z.ltb_lt, !Z.ltb_ge, !Z.eqb_eq, !Z.eqb_neq. lia.
  - intros a b c. rewrite !orb_false_iff, !andb_false_iff, !Z.ltb_ge, !Z.eqb_neq. lia.
Qed.

Lemma served_comparison q : comparison (served_ltb q).
Proof.
  unfold comparison, served_ltb. split.
  - intros a b. destruct (served q !! key a), (served q !! key b); try done;
      rewrite ?orb_true_iff, ?orb_false_iff, ?andb_true_iff, ?andb_false_iff, ?Z.ltb_lt, ?Z.ltb_ge, ?Z.eqb_eq, ?Z.eqb_neq; lia.
  - intros a b c. destruct (served q !! key a), (served q !! key b), (served q !! key c); try done;
      rewrite ?orb_false_iff, ?andb_false_iff, ?Z.ltb_ge, ?Z.eqb_neq; lia.
Qed.

(** The waiting tickets with their identities. *)
Definition waits (q : queue) (i : nat) (t : ticket) : Prop := i ∈ waiting q /\ heap q !! i = Some t.

Definition next_turn (q : queue) (now : float) (i : nat) (t : ticket) : Prop :=
  waits q i t /\
  if bool_decide (fair_turn q = true /\ List.Exists (fun u => pooled u = true) (objects q (waiting q)))
  then pooled t = true /\ forall j u, waits q j u -> pooled u = true -> served_ltb q u t = false
  else forall j u, waits q j u -> prio_gtb q now u t = false.

Lemma exists_pooled q : List.Exists (fun u => pooled u = true) (objects q (waiting q)) <->
  exists it, it ∈ filter (fun it => pooled it.2 = true) (with_ids q (waiting q)).
Proof.
  rewrite Exists_exists. split.
  - intros (u & Hu & Hp). unfold objects in Hu. apply list_elem_of_omap in Hu as (i & Hi & Ht). exists (i, u).
    apply list_elem_of_filter. split; [done|]. by apply with_ids_elem.
  - intros ([i u] & [Hp Hin]%list_elem_of_filter). apply with_ids_elem in Hin as [Hi Ht]. exists u. split; [|done].
    apply list_elem_of_omap. eauto.
Qed.

Lemma choose_next_best q now it : choose_next q now (with_ids q (waiting q)) = Some it -> next_turn q now it.1 it.2.
Proof.
  intros Hc. pose proof (choose_next_elem q now _ it Hc) as Hin. apply with_ids_elem in Hin as Hw. split; [exact Hw|].
  unfold choose_next in Hc.
  assert (forall j u, waits q j u -> (j, u) ∈ with_ids q (waiting q)) as Hall by (intros j u; by rewrite with_ids_elem).
  destruct (fair_turn q) eqn:Ef.
  - destruct (filter _ _) as [|it0 l] eqn:E.
    + rewrite bool_decide_false.
      * destruct (with_ids q (waiting q)) as [|it0 l] eqn:Ew; [done|]. injection Hc as <-. intros j u Hu.
        apply (pick_best (prio_gtb q now) it0 l (prio_comparison q now) (j, u)). by apply Hall.
      * rewrite exists_pooled, E. intros [_ [x Hx]]. by apply not_elem_of_nil in Hx.
    + assert (it ∈ filter (fun it => pooled it.2 = true) (with_ids q (waiting q))) as Hit.
      { rewrite E. injection Hc as <-. apply pick_elem. }
      rewrite bool_decide_true by (split; [done|]; apply exists_pooled; eauto).
      split; [by apply list_elem_of_filter in Hit as [? _]|]. injection Hc as <-. intros j u Hu Hp.
      apply (pick_best (served_ltb q) it0 l (served_comparison q) (j, u)). rewrite <- E.
      apply list_elem_of_filter. split; [done|]. by apply Hall.
  - rewrite bool_decide_false by (intros [? _]; done).
    destruct (with_ids q (waiting q)) as [|it0 l] eqn:Ew; [done|]. injection Hc as <-. intros j u Hu.
    apply (pick_best (prio_gtb q now) it0 l (prio_comparison q now) (j, u)). by apply Hall.
Qed.

(** A wake-up while nobody holds the turn gives it to a waiter, if there is one. *)
Lemma notify_turn q now : queue_wf q -> holder q = None -> waiting q <> [] ->
  exists i t, holder (notify now q) = Some i /\ next_turn q now i t.
Proof.
  intros Hwf Hh Hne. unfold notify. rewrite Hh. unfold grant_next. change (holder (new_sweep q)) with (holder q). rewrite Hh.
  assert (untried (new_sweep q) = with_ids q (waiting q)) as Hu.
  { apply list_filter_all. intros [i t] Hin. apply with_ids_elem in Hin as [_ Ht].
    pose proof (wf_tried q Hwf i t Ht). cbn. lia. }
  assert (with_ids q (waiting q) <> []) as Hnil.
  { destruct (waiting q) as [|i l] eqn:Ew; [done|]. intros Hnil.
    assert (ticket_active i q = true) as Hact.
    { apply (wf_active q Hwf). unfold ticket_ids. rewrite Ew. apply elem_of_app. left. constructor. }
    unfold ticket_active in Hact. destruct (heap q !! i) as [t|] eqn:Et; [|done].
    assert ((i, t) ∈ with_ids q (i :: l)) as Hin by (apply with_ids_elem; split; [constructor|done]).
    rewrite Hnil in Hin. by apply not_elem_of_nil in Hin. }
  rewrite Hu. destruct (with_ids q (waiting q)) as [|it0 l0] eqn:Ew; [done|]. rewrite <- Ew.
  destruct (choose_next_some (new_sweep q) now (with_ids q (waiting q))) as [it Hit]; [by rewrite Ew|].
  rewrite Hit. exists it.1, it.2. split; [done|]. exact (choose_next_best q now it Hit).
Qed.

(** C30: the queue loses no open and idles no turn.  In every state the issuer
    reaches: the tickets of the queue are exactly the active ones, each once; one
    of them at most holds the turn, and it knows; while nobody holds it every
    waiter has tried in this sweep and no wake-up is pending, so that the next
    wake-up gives it to a waiter: the pooled waiter served least recently when the
    fair turn is due, and else one of the highest priority; at most
    [max_waiting + 1] tickets, [max_per_key] unreserved ones per key, one per
    engagement. *)
Theorem open_queue_sound (q : queue) :
  0 <= max_waiting cfg -> 0 <= max_per_key cfg -> rtc queue_step new_queue q ->
  NoDup (ticket_ids q) /\
  (forall i, i ∈ ticket_ids q <-> ticket_active i q = true) /\
  (forall i t, heap q !! i = Some t -> active t = true -> (granted t = true <-> holder q = Some i)) /\
  (holder q = None ->
     dirty q = false /\ (forall i t, waits q i t -> tried t = sweep q) /\
     (waiting q <> [] -> forall now, exists i t, holder (notify now q) = Some i /\ next_turn q now i t)) /\
  Z.of_nat (length (ticket_ids q)) <= max_waiting cfg + 1 /\
  (forall k, mine k q <= max_per_key cfg) /\
  (forall i j t t' e, heap q !! i = Some t -> heap q !! j = Some t' -> active t = true -> active t' = true ->
     engagement t = Some e -> engagement t' = Some e -> i = j).
Proof.
  intros Hmax Hkey Hrun. assert (queue_wf q /\ turn_busy q) as [Hwf Hbusy].
  { apply (rtc_invariant queue_step (fun q => queue_wf q /\ turn_busy q) new_queue); [apply queue_step_ok| |done].
    split; [|by intros _; split; [done|intros i t Hi; by apply not_elem_of_nil in Hi]].
    split; cbn; try (by intros; rewrite ?lookup_empty in *); try lia; [constructor|].
    intros i. unfold ticket_active. cbn. rewrite lookup_empty. cbn. split; [intros Hi; by apply not_elem_of_nil in Hi|done]. }
  split_and!; [apply Hwf|apply Hwf| | |apply Hwf|apply Hwf|apply Hwf].
  - intros i t Ht Ha. by apply (wf_granted q Hwf i t Ht Ha).
  - intros Hh. destruct (Hbusy Hh) as [Hd Htr]. split_and!; [done|intros i t [Hi Ht]; by eapply Htr|].
    intros Hne now. by apply notify_turn.
Qed.
End open_queue.

(** Two opens of one class that both find no room: the turn's holder is not counted
    when the second joins, and comes back to wait. *)
Definition w_config : @config Z :=
  Config (fun h => (h, fone, false)) None None (of_int 20) (of_int 60) (of_int 120) 1 64 4 None.
Definition w_q2 : @queue Z _ _ := (join w_config "b" 7 None (of_int 2) (join w_config "a" 7 None (of_int 1) new_queue).2).2.
Definition w_q4 : @queue Z _ _ := missed w_config 1 None (of_int 4) (missed w_config 0 None (of_int 3) w_q2).

Lemma w_q4_reached : rtc (queue_step w_config) new_queue w_q4.
Proof.
  unfold w_q4, w_q2.
  eapply rtc_l; [apply (step_join w_config "a" 7 None (of_int 1))|].
  eapply rtc_l; [apply (step_join w_config "b" 7 None (of_int 2))|].
  eapply rtc_l; [eapply (step_missed w_config 0 _ None (of_int 3)); vm_compute; reflexivity|].
  eapply rtc_l; [eapply (step_missed w_config 1 _ None (of_int 4)); vm_compute; reflexivity|]. apply rtc_refl.
Defined.

Lemma open_queue_sound_witness :
  Z.of_nat (length (waiting w_q4)) = 2 /\ holder w_q4 = None /\
  exists i t, holder (notify w_config (of_int 5) w_q4) = Some i /\ next_turn w_config w_q4 (of_int 5) i t.
Proof.
  assert (0 <= max_waiting w_config) as H1 by (cbn; lia). assert (0 <= max_per_key w_config) as H2 by (cbn; lia).
  assert (holder w_q4 = None) as Hh by (vm_compute; reflexivity).
  split; [vm_compute; reflexivity|]. split; [exact Hh|].
  destruct (open_queue_sound w_config w_q4 H1 H2 w_q4_reached) as (_ & _ & _ & Hn & _).
  destruct (Hn Hh) as (_ & _ & Hnext). apply Hnext. vm_compute. discriminate.
Defined.

(** More tickets wait than [max_waiting]. *)
Lemma waiting_past_max : max_waiting w_config = 1 /\ rtc (queue_step w_config) new_queue w_q4 /\ length (waiting w_q4) = 2%nat.
Proof. split_and!; [done|apply w_q4_reached|vm_compute; reflexivity]. Qed.
