(* ===== verification/PromptRows.v ===== *)
(** * PromptRows: the rows of a split that training may draw from

    Models [protocol/rl_prompt_ranges.py]: the slices of the train splits, a slice less its
    excluded intervals and the test of membership by bisection, the rows a task declares, and
    the rows left of an environment once its excluded worlds are taken out.

    A row is an integer ([type(row) is int]).  The world of a row is the environment's answer,
    a parameter. *)

From S2P Require Import Prelude PyFloat.

#[local] Open Scope Z_scope.

(** ** A slice less some intervals *)

Record rows := PromptRows { start : Z; end_ : Z; exclude : list (Z * Z) }.

(** The loop of [__post_init__]: each interval inside the slice and past the last. *)
Fixpoint intervals_ok (floor end_ : Z) (l : list (Z * Z)) : bool :=
  match l with
  | [] => true
  | (a, b) :: l' => (floor <=? a) && (a <? b) && (b <=? end_) && intervals_ok b end_ l'
  end.

(** [__len__] *)
Definition rows_len (r : rows) : Z := end_ r - start r - Zsum ((fun ab => ab.2 - ab.1) <$> exclude r).

(** [PromptRows(start, end, exclude)] *)
Definition new_rows (s e : Z) (x : list (Z * Z)) : result rows :=
  if negb ((0 <=? s) && (s <? e)) then Raise ValueError
  else if negb (intervals_ok s e x) then Raise ValueError
  else if rows_len (PromptRows s e x) =? 0 then Raise ValueError
  else Ok (PromptRows s e x).

(** [bisect.bisect_right(exclude, (row, math.inf))]: the comparisons are on the first
    components, for no end is infinite. *)
Fixpoint bisect_right (fuel : nat) (l : list (Z * Z)) (row : Z) (lo hi : nat) : nat :=
  match fuel with
  | O => lo
  | S fuel =>
      if (lo <? hi)%nat then
        let mid := ((lo + hi) / 2)%nat in
        match l !! mid with
        | Some (a, _) => if row <? a then bisect_right fuel l row lo mid else bisect_right fuel l row (S mid) hi
        | None => lo
        end
      else lo
  end.

(** [__contains__] *)
Definition contains (r : rows) (row : Z) : bool :=
  if negb ((start r <=? row) && (row <? end_ r)) then false
  else
    let i := Z.of_nat (bisect_right (length (exclude r)) (exclude r) row 0 (length (exclude r))) - 1 in
    (i <? 0) || match exclude r !! Z.to_nat i with Some (a, b) => negb ((a <=? row) && (row <? b)) | None => false end.

(** ** The rows a task declares *)

Definition MAX_EXCLUDED_ENTRIES : Z := 4096.

(** [integer(v, label)] *)
Definition integer (v : pyval) : result Z :=
  match v with VInt z => if z <? 0 then Raise ValueError else Ok z | _ => Raise ValueError end.

Definition span_of (s e : Z) (v : pyval) : result (Z * Z) :=
  ab ← match v with
       | VList [a; b] => a ← integer a; b ← integer b; Ok (a, b)
       | VList _ => Raise ValueError
       | v => a ← integer v; Ok (a, a + 1)
       end;
  if (s <=? ab.1) && (ab.1 <? ab.2) && (ab.2 <=? e) then Ok ab else Raise ValueError.

(** Tuples in order; pairs of neighbours that overlap. *)
Definition span_leb (p q : Z * Z) : bool := (p.1 <? q.1) || ((p.1 =? q.1) && (p.2 <=? q.2)).
Fixpoint overlapping (l : list (Z * Z)) : bool :=
  match l with
  | p :: (q :: _) as l' => (q.1 <? p.2) || overlapping l'
  | _ => false
  end.

Definition has_key (name : string) (d : list (string * pyval)) : bool := existsb (fun kv => String.eqb kv.1 name) d.

Definition parse_prompt_rows (v : pyval) : result rows :=
  match v with
  | VDict d =>
      if negb (has_key "start" d && has_key "end" d
               && forallb (fun kv => String.eqb kv.1 "start" || String.eqb kv.1 "end" || String.eqb kv.1 "exclude") d)
      then Raise ValueError
      else
        s ← integer (dict_get "start" d); e ← integer (dict_get "end" d);
        match dict_get_or "exclude" d (VList []) with
        | VList raw =>
            if MAX_EXCLUDED_ENTRIES <? Z.of_nat (length raw) then Raise ValueError
            else
              spans ← mapM (span_of s e) raw;
              let spans := isort span_leb spans in
              if overlapping spans then Raise ValueError else new_rows s e spans
        | _ => Raise ValueError
        end
  | _ => Raise ValueError
  end.

(** ** The published slices *)

Record prompt_range := RlPromptRange { r_start : Z; r_end : option Z; source_length : Z }.

Definition RL_PROMPT_RANGES : list (string * prompt_range) :=
  [("reliquary_hard_math_v1", RlPromptRange 15749 None 23227);
   ("reliquary_instruction_following_v1", RlPromptRange 20000 None 29435);
   ("reliquary_code_v1", RlPromptRange 200000 (Some 2381806) 2481806);
   ("reliquary_competitive_code_v1", RlPromptRange 4181 (Some 6899) 8792);
   ("envscaler_tools_v2", RlPromptRange 0 (Some 1296) 7825)]%string.

Definition assoc {A} (name : string) (l : list (string * A)) : option A := snd <$> List.find (fun kv => String.eqb kv.1 name) l.

Definition rl_prompt_range (environment : string) (universe_n : Z) : result (Z * Z) :=
  match assoc environment RL_PROMPT_RANGES with
  | None => Ok (0, universe_n)
  | Some x =>
      if negb (universe_n =? source_length x) then Raise ValueError
      else
        let e := default universe_n (r_end x) in
        if negb ((0 <=? r_start x) && (r_start x <? e) && (e <=? universe_n)) then Raise ValueError else Ok (r_start x, e)
  end.

Definition RL_EXCLUDED_WORLDS : list (string * list string) :=
  [("envscaler_tools_v2", ["env_147_rl"; "env_153_rl"; "env_161_rl"; "env_163_rl";
                           "env_169_rl"; "env_173_rl"; "env_181_rl"; "env_187_rl"])]%string.

Section environment.
(** The environment: its number of rows, and the world of a row's scenario. *)
Context (universe_n : Z) (world_of : Z -> string).

Definition rl_excluded_prompts (environment : string) : result (list Z) :=
  match assoc environment RL_EXCLUDED_WORLDS with
  | None => Ok []
  | Some worlds =>
      se ← rl_prompt_range environment universe_n;
      Ok (filter (fun row => world_of row ∈ worlds) (seqZ se.1 (se.2 - se.1)))
  end.

(** The runs of consecutive rows; the last run is the head of [acc]. *)
Definition add_row (acc : list (Z * Z)) (row : Z) : list (Z * Z) :=
  match acc with
  | (a, b) :: acc' => if b =? row then (a, row + 1) :: acc' else (row, row + 1) :: acc
  | [] => [(row, row + 1)]
  end.
Definition runs (rows_ : list Z) : list (Z * Z) := reverse (foldl add_row [] rows_).

(** A plain slice when nothing is excluded. *)
Definition rl_prompt_rows (environment : string) : result (Z * Z + rows) :=
  se ← rl_prompt_range environment universe_n;
  excluded ← rl_excluded_prompts environment;
  match excluded with
  | [] => Ok (inl se)
  | _ => r ← new_rows se.1 se.2 (runs excluded); Ok (inr r)
  end.
End environment.

(** [PromptRows.of] *)
Definition rows_of (v : Z * Z + rows) : result rows := match v with inl se => new_rows se.1 se.2 [] | inr r => Ok r end.

(** ** Intervals *)

Definition covered (l : list (Z * Z)) (x : Z) : Prop := exists a b, (a, b) ∈ l /\ a <= x < b.
Definition before (p q : Z * Z) : Prop := p.2 <= q.1.
Definition inside (s e : Z) (p : Z * Z) : Prop := s <= p.1 < p.2 /\ p.2 <= e.

Lemma intervals_ok_iff s e l : intervals_ok s e l = true <-> Forall (inside s e) l /\ StronglySorted before l.
Proof.
  revert s. induction l as [|[a b] l IH]; intros s; cbn [intervals_ok]; [split; [by repeat constructor|done]|].
  rewrite !andb_true_iff, !Z.leb_le, Z.ltb_lt, IH. split.
  - intros [[[H1 H2] H3] [Hf Hs]]. split; [constructor; [done|]|constructor; [done|]].
    + eapply Forall_impl; [exact Hf|]. intros [x y] [? ?]. unfold inside in *. cbn in *. lia.
    + eapply Forall_impl; [exact Hf|]. intros [x y] [? ?]. unfold before. cbn in *. lia.
  - intros [Hf Hs]. apply Forall_cons in Hf as [[H1 H2] Hf]. apply StronglySorted_inv in Hs as [Hs Hb]. cbn in *. split; [lia|].
    split; [|done]. apply Forall_forall. intros [x y] Hin. pose proof (proj1 (Forall_forall _ _) Hf _ Hin) as [? ?].
    pose proof (proj1 (Forall_forall _ _) Hb _ Hin). unfold before, inside in *. cbn in *. lia.
Qed.

Lemma new_rows_ok s e x r : new_rows s e x = Ok r -> r = PromptRows s e x /\ 0 <= s < e /\ Forall (inside s e) x /\ StronglySorted before x /\ rows_len r <> 0.
Proof.
  unfold new_rows. destruct (_ && _) eqn:E1; [|done]. destruct (intervals_ok s e x) eqn:E2; [|done]. cbn [negb].
  destruct (Z.eqb_spec (rows_len (PromptRows s e x)) 0); [done|]. intros [= <-]. apply andb_true_iff in E1 as [? ?].
  apply intervals_ok_iff in E2 as [? ?]. split_and!; try done; lia.
Qed.

Lemma StronglySorted_lookup {A} (R : relation A) (l : list A) i j p q :
  StronglySorted R l -> l !! i = Some p -> l !! j = Some q -> (i < j)%nat -> R p q.
Proof.
  intros Hs. revert i j. induction Hs as [|x l Hs IH Hall]; intros i j Hi Hj Hlt; [done|].
  destruct j as [|j]; [lia|]. destruct i as [|i]; cbn in *; [|exact (IH i j Hi Hj ltac:(lia))].
  injection Hi as ->. apply list_elem_of_lookup_2 in Hj. by eapply Forall_forall in Hall.
Qed.

Lemma list_filter_none {A} (P : A -> Prop) `{!forall x, Decision (P x)} (l : list A) : (forall x, x ∈ l -> ~ P x) -> filter P l = [].
Proof.
  induction l as [|x l IH]; intros HP; [done|]. rewrite filter_cons, decide_False by (apply HP; constructor).
  apply IH. intros y Hy. apply HP. by constructor.
Qed.

(** The bisection, the search's invariant at its bounds: everything under [lo] starts at or
    before [row], everything from [hi] on after it. *)
Lemma bisect_spec l row fuel : StronglySorted (fun p q : Z * Z => p.1 <= q.1) l -> forall lo hi, (hi - lo <= fuel)%nat -> (lo <= hi <= length l)%nat ->
  (forall i p, l !! i = Some p -> (i < lo)%nat -> p.1 <= row) -> (forall i p, l !! i = Some p -> (hi <= i)%nat -> row < p.1) ->
  let n := bisect_right fuel l row lo hi in
  (forall i p, l !! i = Some p -> (i < n)%nat -> p.1 <= row) /\ forall i p, l !! i = Some p -> (n <= i)%nat -> row < p.1.
Proof.
  intros Hs. induction fuel as [|fuel IH]; intros lo hi Hf Hb Hlo Hhi; cbv zeta; cbn [bisect_right]; [split; [done|intros i p Hi Hle; apply (Hhi i p Hi); lia]|].
  destruct (Nat.ltb_spec lo hi) as [Hlt|]; [|split; [done|intros i p Hi Hle; apply (Hhi i p Hi); lia]]. cbv zeta.
  assert (lo <= (lo + hi) / 2 < hi)%nat as Hm by (split; [apply Nat.div_le_lower_bound; lia|apply Nat.Div0.div_lt_upper_bound; lia]).
  set (mid := ((lo + hi) / 2)%nat) in *. clearbody mid.
  destruct (lookup_lt_is_Some_2 l mid ltac:(lia)) as [[a b] Hmid]. rewrite Hmid.
  assert (forall i j p q, l !! i = Some p -> l !! j = Some q -> (i <= j)%nat -> p.1 <= q.1) as Hmono.
  { intros i j p q Hi Hj Hij. destruct (decide (i = j)) as [->|]; [replace q with p by congruence; lia|].
    apply (StronglySorted_lookup _ _ i j p q Hs Hi Hj). lia. }
  destruct (Z.ltb_spec row a) as [Hr|Hr].
  - apply IH; [lia|lia|done|]. intros i p Hi Hle. specialize (Hmono mid i (a, b) p Hmid Hi Hle). cbn in Hmono. lia.
  - apply IH; [lia|lia| |done]. intros i p Hi Hle. specialize (Hmono i mid p (a, b) Hi Hmid ltac:(lia)). cbn in Hmono. lia.
Qed.

Lemma before_starts l s e : Forall (inside s e) l -> StronglySorted before l -> StronglySorted (fun p q : Z * Z => p.1 <= q.1) l.
Proof.
  intros Hf Hs. induction Hs as [|p l Hs IH Hb]; [constructor|]. apply Forall_cons in Hf as [Hp Hf]. constructor; [by apply IH|].
  eapply Forall_impl; [exact Hb|]. intros q. unfold before, inside in *. destruct p, q; cbn in *. lia.
Qed.

Lemma contains_iff s e x r row : new_rows s e x = Ok r -> contains r row = true <-> s <= row < e /\ ~ covered x row.
Proof.
  intros (-> & Hse & Hf & Hs & _)%new_rows_ok. unfold contains. cbn [start end_ exclude].
  destruct (Z.leb_spec s row), (Z.ltb_spec row e); cbn [andb negb]; try (split; [done|intros [? _]; lia]).
  pose proof (bisect_spec x row (length x) (before_starts _ _ _ Hf Hs) 0 (length x) ltac:(lia) ltac:(lia) ltac:(lia)
    ltac:(intros i p Hi; apply lookup_lt_Some in Hi; lia)) as [Hle Hgt]. cbv zeta in Hle, Hgt.
  set (n := bisect_right _ _ _ _ _) in *. destruct n as [|m] eqn:En.
  - cbn. split; [intros _|done]. split; [lia|]. intros (a & b & Hin & Hab). apply list_elem_of_lookup in Hin as [i Hi].
    specialize (Hgt i _ Hi ltac:(lia)). cbn in Hgt. lia.
  - replace (Z.of_nat (S m) - 1) with (Z.of_nat m) by lia. rewrite Nat2Z.id. destruct (Z.ltb_spec (Z.of_nat m) 0); [lia|]. cbn [orb].
    destruct (x !! m) as [[a b]|] eqn:Em.
    + pose proof (Hle m _ Em ltac:(lia)) as Ha. cbn in Ha. destruct (Z.leb_spec a row); [|lia]. cbn [andb].
      destruct (Z.ltb_spec row b) as [Hb|Hb]; cbn [negb]; split; try done.
      * intros [_ Hn]. exfalso. apply Hn. exists a, b. split; [by eapply list_elem_of_lookup_2|lia].
      * intros _. split; [lia|]. intros (a' & b' & Hin & Hab). apply list_elem_of_lookup in Hin as [i Hi].
        destruct (decide (i < S m)%nat) as [Hlt|Hge]; [|specialize (Hgt i _ Hi ltac:(lia)); cbn in Hgt; lia].
        destruct (decide (i = m)) as [->|Hne]; [assert ((a', b') = (a, b)) as [= -> ->] by congruence; lia|].
        pose proof (StronglySorted_lookup _ _ i m _ _ Hs Hi Em ltac:(lia)) as Hbef. unfold before in Hbef. cbn in Hbef. lia.
    + exfalso. assert (m < length x)%nat; [|apply lookup_ge_None in Em; lia].
      assert (bisect_right (length x) x row 0 (length x) <= length x)%nat as Hn; [|subst n; lia].
      clear. assert (forall f lo hi, (lo <= hi)%nat -> (bisect_right f x row lo hi <= hi)%nat) as H; [|by apply H; lia].
      induction f as [|f IH]; intros lo hi Hle; cbn [bisect_right]; [done|]. destruct (Nat.ltb_spec lo hi) as [Hlt|]; [cbv zeta|lia].
      assert (lo <= (lo + hi) / 2 < hi)%nat as Hm by (split; [apply Nat.div_le_lower_bound; lia|apply Nat.Div0.div_lt_upper_bound; lia]).
      destruct (x !! _) as [[a b]|]; [|done]. destruct (row <? a); [etrans; [apply IH; lia|lia]|apply IH; lia].
Qed.

(** ** Counting the rows *)

Lemma count_interval s n a b : s <= a <= b -> b <= s + Z.of_nat n ->
  Z.of_nat (length (filter (fun x => a <= x < b) (seqZ s (Z.of_nat n)))) = b - a.
Proof.
  intros Ha Hb. replace (Z.of_nat n) with ((a - s) + ((b - a) + (s + Z.of_nat n - b))) by lia.
  rewrite !seqZ_app, !filter_app, !length_app by lia.
  rewrite (list_filter_none _ (seqZ s (a - s))), (list_filter_none _ (seqZ (s + (a - s) + (b - a)) _)), (list_filter_all _ (seqZ (s + (a - s)) (b - a)));
    try (intros x Hx%elem_of_seqZ; lia).
  rewrite length_seqZ. cbn. lia.
Qed.

Definition coveredb (l : list (Z * Z)) (x : Z) : bool := existsb (fun ab => (ab.1 <=? x) && (x <? ab.2)) l.
Lemma coveredb_iff l x : coveredb l x = true <-> covered l x.
Proof.
  unfold coveredb, covered. rewrite existsb_exists. split.
  - intros ([a b] & Hin & E). apply andb_true_iff in E as [? ?]. exists a, b. split; [by apply list_elem_of_In|cbn in *; lia].
  - intros (a & b & Hin & Hab). exists (a, b). split; [by apply list_elem_of_In|]. cbn. apply andb_true_iff. lia.
Qed.

Lemma filter_disjoint {A} (p q : A -> bool) (l : list A) : (forall x, x ∈ l -> p x = true -> q x = true -> False) ->
  length (filter (fun x => p x || q x = true) l) = (length (filter (fun x => p x = true) l) + length (filter (fun x => q x = true) l))%nat.
Proof.
  induction l as [|x l IH]; intros Hd; [done|]. rewrite !filter_cons. specialize (IH ltac:(intros y Hy; apply Hd; set_solver)).
  pose proof (Hd x ltac:(set_solver)) as Hx. destruct (p x) eqn:Ep, (q x) eqn:Eq; cbn [orb]; repeat (case_decide; try done); cbn [length]; try lia; exfalso; by apply Hx.
Qed.

Lemma filter_split {A} (p : A -> bool) (l : list A) :
  (length (filter (fun x => p x = true) l) + length (filter (fun x => negb (p x) = true) l))%nat = length l.
Proof. induction l as [|x l IH]; [done|]. rewrite !filter_cons. destruct (p x); cbn [negb]; repeat (case_decide; try done); cbn [length]; lia. Qed.

Lemma count_covered s e l : s <= e -> Forall (inside s e) l -> StronglySorted before l ->
  Z.of_nat (length (filter (fun x => coveredb l x = true) (seqZ s (e - s)))) = Zsum ((fun ab => ab.2 - ab.1) <$> l).
Proof.
  intros Hse Hf Hs. induction Hs as [|[a b] l Hs IH Hb].
  - rewrite list_filter_none; [done|]. by intros x _.
  - apply Forall_cons in Hf as [[Hp1 Hp2] Hf]. cbn in *. specialize (IH Hf).
    assert (forall x, coveredb ((a, b) :: l) x = ((a <=? x) && (x <? b)) || coveredb l x) as E by done.
    rewrite (list_filter_iff' _ (fun x => ((a <=? x) && (x <? b)) || coveredb l x = true)) by done.
    rewrite (filter_disjoint (fun x => (a <=? x) && (x <? b))), Nat2Z.inj_add, IH.
    + rewrite (list_filter_iff' _ (fun x => a <= x < b)) by (intros x _; rewrite andb_true_iff; lia).
      pose proof (count_interval s (Z.to_nat (e - s)) a b ltac:(lia) ltac:(lia)) as Hc. rewrite Z2Nat.id in Hc by lia. rewrite Hc. done.
    + intros x _ Hx (c & d & Hin & Hcd)%coveredb_iff. pose proof (proj1 (Forall_forall _ _) Hb _ Hin) as Hbef.
      unfold before in Hbef. cbn in Hbef. apply andb_true_iff in Hx. lia.
Qed.

(** C36: a slice less its intervals is what it says.  A row is in it exactly when it is in the
    slice and in no excluded interval, however the bisection finds it; its length is the number
    of its rows, and there is at least one. *)
Theorem rows_exact (s e : Z) (x : list (Z * Z)) (r : rows) : new_rows s e x = Ok r ->
  (forall row, contains r row = true <-> s <= row < e /\ ~ exists a b, (a, b) ∈ x /\ a <= row < b) /\
  rows_len r = Z.of_nat (length (filter (fun row => contains r row = true) (seqZ s (e - s)))) /\ 0 < rows_len r.
Proof.
  intros H. pose proof (fun row => contains_iff s e x r row H) as Hc. split; [exact Hc|].
  apply new_rows_ok in H as (-> & Hse & Hf & Hs & Hne).
  assert (rows_len (PromptRows s e x) = Z.of_nat (length (filter (fun row => contains (PromptRows s e x) row = true) (seqZ s (e - s))))) as E; [|split; [exact E|]; rewrite E in Hne |- *; lia].
  unfold rows_len. cbn [start end_ exclude]. rewrite <- (count_covered s e x) by (done || lia).
  pose proof (filter_split (coveredb x) (seqZ s (e - s))) as Hsp. rewrite length_seqZ in Hsp.
  rewrite (list_filter_iff' (fun row => contains (PromptRows s e x) row = true) (fun row => negb (coveredb x row) = true)); [lia|].
  intros row Hrow%elem_of_seqZ. rewrite Hc, negb_true_iff, <- not_true_iff_false, coveredb_iff. split; [tauto|]. intros ?; split; [lia|done].
Qed.

(** ** Declared rows *)

Lemma span_leb_total p q : span_leb p q = true \/ span_leb q p = true.
Proof. unfold span_leb. destruct p, q; cbn. lia. Qed.
Lemma span_leb_trans p q r : span_leb p q = true -> span_leb q r = true -> span_leb p r = true.
Proof. unfold span_leb. destruct p, q, r; cbn. lia. Qed.
Lemma span_leb_antisymm p q : span_leb p q = true -> span_leb q p = true -> p = q.
Proof. unfold span_leb. destruct p, q; cbn. intros. f_equal; lia. Qed.

(** Sorting forgets the order. *)
Lemma isort_spans_perm l l' : l ≡ₚ l' -> isort span_leb l = isort span_leb l'.
Proof.
  intros H. assert (AntiSymm (=) (fun p q => span_leb p q = true)) by (intros p q; apply span_leb_antisymm).
  apply (StronglySorted_unique (fun p q => span_leb p q = true)); try (apply isort_sorted; [exact span_leb_total|exact span_leb_trans]).
  by rewrite !isort_perm.
Qed.

Lemma integer_error v e : integer v = Raise e -> e = ValueError.
Proof. unfold integer. repeat case_match; congruence. Qed.
Lemma bind_error {A B} (m : result A) (f : A -> result B) x : (m = Raise x -> x = ValueError) -> (forall a, f a = Raise x -> x = ValueError) ->
  (m ≫= f) = Raise x -> x = ValueError.
Proof. intros H1 H2. destruct m as [a|e]; cbn [mbind result_bind]; [apply H2|intros [= <-]; by apply H1]. Qed.

Lemma span_error s e v x : span_of s e v = Raise x -> x = ValueError.
Proof.
  unfold span_of. apply bind_error; [|intros ab; case_match; congruence].
  destruct v as [| | | | |[|u [|w [|]]]|]; try congruence; repeat (apply bind_error; [apply integer_error|]; intros ?); congruence.
Qed.

Lemma mapM_error {A B} (f : A -> result B) (l : list A) x :
  (forall a x, f a = Raise x -> x = ValueError) -> mapM f l = Raise x -> x = ValueError.
Proof.
  intros Herr. revert x. induction l as [|a l IH]; intros x; cbn; [done|]. destruct (f a) as [b|y] eqn:Ea; cbn; [|intros [= <-]; by eapply Herr].
  destruct (mapM f l) as [k|y]; cbn; [done|]. intros [= <-]. by apply IH.
Qed.

(** What an excluded entry covers. *)
Definition entry_covers (v : pyval) (row : Z) : Prop :=
  match v with VInt z => row = z | VList [VInt a; VInt b] => a <= row < b | _ => False end.

Lemma integer_ok v z : integer v = Ok z -> v = VInt z /\ 0 <= z.
Proof. unfold integer. destruct v; try done. destruct (Z.ltb_spec z0 0); [done|]. intros [= <-]. split; [done|lia]. Qed.

Lemma span_covers s e v ab : span_of s e v = Ok ab -> forall row, ab.1 <= row < ab.2 <-> entry_covers v row.
Proof.
  unfold span_of. intros (p & Hp & Hif)%bind_ok_inv row. case_match; [|done]. injection Hif as <-.
  destruct v as [| |z| | |[|u [|w [|]]]|]; try done.
  - apply bind_ok_inv in Hp as (a & Ha%integer_ok & [= <-]). destruct Ha as [[= <-] _]. cbn. lia.
  - apply bind_ok_inv in Hp as (a & Ha%integer_ok & (b & Hb%integer_ok & [= <-])%bind_ok_inv). by destruct Ha as [-> _], Hb as [-> _].
Qed.

(** What [{"start": s, "end": e, "exclude": raw}] declares. *)
Definition declared (s e : Z) (raw : list pyval) : pyval := VDict [("start", VInt s); ("end", VInt e); ("exclude", VList raw)]%string.

Lemma parse_declared s e raw : parse_prompt_rows (declared s e raw) =
  if (s <? 0) || (e <? 0) then Raise ValueError
  else if MAX_EXCLUDED_ENTRIES <? Z.of_nat (length raw) then Raise ValueError
  else spans ← mapM (span_of s e) raw;
    if overlapping (isort span_leb spans) then Raise ValueError else new_rows s e (isort span_leb spans).
Proof. unfold parse_prompt_rows, declared. cbn. by destruct (s <? 0), (e <? 0). Qed.

Lemma parse_error s e raw x : parse_prompt_rows (declared s e raw) = Raise x -> x = ValueError.
Proof.
  rewrite parse_declared. case_match; [congruence|]. case_match; [congruence|]. apply bind_error; [apply mapM_error, span_error|].
  intros spans. case_match; [congruence|]. unfold new_rows. repeat case_match; congruence.
Qed.

(** Declared rows mean what they list, in any order.  A row may be drawn exactly when it is
    in the slice and no entry, a row or an interval, names it; an entry is refused, never
    half-read, so the only error is [ValueError]; and entries in another order are accepted or
    refused alike, as the same rows. *)
Theorem declared_rows_exact (s e : Z) (raw raw' : list pyval) :
  (raw ≡ₚ raw' -> parse_prompt_rows (declared s e raw') = parse_prompt_rows (declared s e raw)) /\
  match parse_prompt_rows (declared s e raw) with
  | Ok r => forall row, contains r row = true <-> s <= row < e /\ forall v, v ∈ raw -> ~ entry_covers v row
  | Raise x => x = ValueError
  end.
Proof.
  split.
  - intros H. rewrite !parse_declared. case_match; [done|]. rewrite (Permutation_length H). case_match; [done|].
    destruct (mapM (span_of s e) raw) as [k|x] eqn:E.
    + destruct (mapM_perm _ _ _ _ H E) as (k' & -> & Hk). cbn. by rewrite (isort_spans_perm _ _ Hk).
    + destruct (mapM (span_of s e) raw') as [k|y] eqn:E'; cbn.
      * destruct (mapM_perm _ _ raw k (symmetry H) E') as (k' & Ek' & _). congruence.
      * apply mapM_error in E as ->; [|apply span_error]. by apply mapM_error in E' as ->; [|apply span_error].
  - destruct (parse_prompt_rows (declared s e raw)) as [r|x] eqn:E; [|by eapply parse_error]. revert E. rewrite parse_declared.
    case_match; [done|]. case_match; [done|]. intros (k & Ek & Hr)%bind_ok_inv row. destruct (overlapping _); [done|].
    rewrite (contains_iff _ _ _ _ _ Hr). split; intros [Hrow Hc]; (split; [done|]).
    + intros v Hv Hcov. destruct (mapM_total _ _ _ Ek v Hv) as (ab & Hab & Hin). apply Hc. exists ab.1, ab.2. split; [by apply elem_of_isort; destruct ab|].
      by apply (span_covers _ _ _ _ Hab).
    + intros (a & b & Hin & Hab). apply elem_of_isort in Hin. apply (mapM_elem _ _ _ Ek) in Hin as (v & Hv & E). apply (Hc v Hv). by apply (span_covers _ _ _ _ E).
Qed.

(** ** The rows left of an environment *)

Lemma seqZ_sorted m n : StronglySorted Z.lt (seqZ m n).
Proof.
  unfold seqZ. generalize (Z.to_nat n) as k, 0%nat as i. induction k as [|k IH]; intros i; cbn; [constructor|]. constructor; [apply IH|].
  apply Forall_fmap, Forall_forall. intros x Hx%elem_of_seq. cbn. lia.
Qed.

Lemma filter_sorted (P : Z -> Prop) `{!forall x, Decision (P x)} l : StronglySorted Z.lt l -> StronglySorted Z.lt (filter P l).
Proof.
  induction 1 as [|x l Hs IH Hall]; [constructor|]. rewrite filter_cons. case_decide; [|done]. constructor; [done|].
  apply Forall_forall. intros y Hy. apply list_elem_of_filter in Hy as [_ Hy]. by eapply Forall_forall in Hall.
Qed.

Lemma covered_cons a b l x : covered ((a, b) :: l) x <-> a <= x < b \/ covered l x.
Proof.
  unfold covered. split.
  - intros (c & d & [[= -> ->]|Hin]%elem_of_cons & H); [by left|right; eauto].
  - intros [H|(c & d & Hin & H)]; [exists a, b; split; [by left|done]|exists c, d; split; [by right|done]].
Qed.

Lemma runs_invariant s e l : StronglySorted Z.lt l -> Forall (fun x => s <= x < e) l -> let acc := foldl add_row [] l in
  (forall x, covered acc x <-> x ∈ l) /\ Forall (inside s e) acc /\ StronglySorted (fun p q => before q p) acc.
Proof.
  cbv zeta. induction l as [|x l IH] using rev_ind; intros Hs Hf.
  { cbn. split_and!; [|constructor|constructor]. intros x. split; [by intros (a & b & Hin%not_elem_of_nil & _)|by intros ?%not_elem_of_nil]. }
  apply StronglySorted_app in Hs as (Hlt & Hs & _). apply Forall_app in Hf as [Hf Hx]. apply Forall_cons in Hx as [Hx _].
  destruct (IH Hs Hf) as (Hc & Hi & Ho). rewrite foldl_app. cbn [foldl]. set (acc := foldl add_row [] l) in *.
  assert (forall y, y ∈ l -> y < x) as Hl by (intros y Hy; apply Hlt; [done|by left]).
  assert (forall a b, (a, b) ∈ acc -> b <= x) as Hend.
  { intros a b Hin. pose proof (proj1 (Forall_forall _ _) Hi _ Hin) as [? ?]. cbn in *.
    assert (b - 1 ∈ l) as Hb by (apply Hc; exists a, b; split; [done|lia]). specialize (Hl _ Hb). lia. }
  assert (forall y, covered ((x, x + 1) :: acc) y <-> y ∈ l ++ [x]) as Hnew.
  { intros y. rewrite covered_cons, Hc, elem_of_app, list_elem_of_singleton. split; [intros [?|?]; [right; lia|by left]|intros [?| ->]; [by right|left; lia]]. }
  assert (Forall (inside s e) ((x, x + 1) :: acc)) as Hin' by (constructor; [unfold inside; cbn; lia|done]).
  assert (StronglySorted (fun p q => before q p) ((x, x + 1) :: acc)) as Ho'.
  { constructor; [done|]. apply Forall_forall. intros [a b] Hin. unfold before. cbn. by eapply Hend. }
  unfold add_row. destruct acc as [|[a b] acc'] eqn:Eacc; [done|]. destruct (Z.eqb_spec b x) as [->|Hne]; [|done].
  apply Forall_cons in Hi as [[Ha Hb] Hi]. apply StronglySorted_inv in Ho as [Ho Hall]. cbn in *. split_and!.
  - intros y. rewrite <- Hnew, !covered_cons. split; [intros [?|?]; [|by right; right]|intros [?|[?|?]]; [left; lia|left; lia|by right]].
    destruct (decide (y = x)) as [->|]; [left; lia|right; left; lia].
  - constructor; [unfold inside; cbn; lia|done].
  - constructor; [done|]. eapply Forall_impl; [exact Hall|]. intros [c d]. unfold before. cbn. done.
Qed.

Lemma sorted_reverse {A} (R : relation A) (l : list A) : StronglySorted (fun x y => R y x) l -> StronglySorted R (reverse l).
Proof.
  induction 1 as [|x l Hs IH Hall]; [constructor|]. rewrite reverse_cons. apply StronglySorted_app. split_and!; [|done|repeat constructor].
  intros y z Hy Hz. rewrite elem_of_reverse in Hy. apply list_elem_of_singleton in Hz as ->. exact (proj1 (Forall_forall _ _) Hall y Hy).
Qed.

Lemma runs_exact s e l : StronglySorted Z.lt l -> Forall (fun x => s <= x < e) l ->
  (forall x, covered (runs l) x <-> x ∈ l) /\ intervals_ok s e (runs l) = true.
Proof.
  intros Hs Hf. destruct (runs_invariant s e l Hs Hf) as (Hc & Hi & Ho). unfold runs. split.
  - intros x. rewrite <- Hc. unfold covered. by setoid_rewrite elem_of_reverse.
  - apply intervals_ok_iff. split; [by apply Forall_reverse|by apply sorted_reverse].
Qed.

Lemma range_inside env n s e : 0 < n -> rl_prompt_range env n = Ok (s, e) -> 0 <= s < e /\ e <= n.
Proof.
  intros Hn. unfold rl_prompt_range. destruct (assoc env RL_PROMPT_RANGES) as [x|]; [|intros [= <- <-]; lia].
  destruct (_ =? _); [|done]. cbn [negb]. destruct ((0 <=? r_start x) && _ && _) eqn:E; [|done]. intros [= <- <-]. split_andb E. lia.
Qed.

(** What training draws from an environment.  Of an environment with rows whose range is
    readable, the rows offered are those of its range whose world is not excluded, whichever
    form they come in; the slice is refused only when no row of it is left. *)
Theorem environment_rows_exact (n : Z) (world_of : Z -> string) (env : string) (s e : Z) :
  0 < n -> rl_prompt_range env n = Ok (s, e) ->
  let offered row := s <= row < e /\ forall worlds, assoc env RL_EXCLUDED_WORLDS = Some worlds -> world_of row ∉ worlds in
  match (v ← rl_prompt_rows n world_of env; rows_of v) with
  | Ok r => forall row, contains r row = true <-> offered row
  | Raise x => x = ValueError /\ forall row, ~ offered row
  end.
Proof.
  intros Hn Hr offered. destruct (range_inside _ _ _ _ Hn Hr) as [Hse He]. unfold rl_prompt_rows, rl_excluded_prompts. rewrite Hr. cbn [mbind result_bind fst snd].
  assert (forall row, offered row \/ ~ offered row) as Hdec.
  { intros row. unfold offered. destruct (decide (s <= row < e)) as [Hrow|]; [|right; tauto].
    destruct (assoc env RL_EXCLUDED_WORLDS) as [ws|]; [|left; split; [done|by intros w [=]]].
    destruct (decide (world_of row ∈ ws)) as [Hw|Hw]; [right; intros [_ Ho]; by apply (Ho ws)|left; split; [done|by intros w [= <-]]]. }
  assert (forall x, intervals_ok s e x = true -> (forall row, covered x row <-> s <= row < e /\ ~ offered row) ->
    match new_rows s e x with
    | Ok r => forall row, contains r row = true <-> offered row
    | Raise y => y = ValueError /\ forall row, ~ offered row
    end) as Hgen.
  { intros x Hx Hcov. destruct (new_rows s e x) as [r|y] eqn:E.
    - intros row. rewrite (contains_iff _ _ _ _ _ E), Hcov. split; [|intros Ho; pose proof (proj1 Ho); tauto].
      intros [Hrow Hno]. destruct (Hdec row); [done|tauto].
    - unfold new_rows in E. replace ((0 <=? s) && (s <? e)) with true in E by lia. rewrite Hx in E. cbn [negb] in E.
      destruct (Z.eqb_spec (rows_len (PromptRows s e x)) 0) as [Hz|]; [|done]. injection E as <-. split; [done|]. intros row Ho.
      apply intervals_ok_iff in Hx as [Hf Hs]. unfold rows_len in Hz. cbn [start end_ exclude] in Hz. rewrite <- (count_covered s e x) in Hz by (done || lia).
      pose proof (filter_split (coveredb x) (seqZ s (e - s))) as Hsp. rewrite length_seqZ in Hsp.
      assert (length (filter (fun y => negb (coveredb x y) = true) (seqZ s (e - s))) = 0%nat) as H0 by lia. apply length_zero_iff_nil in H0.
      assert (row ∈ filter (fun y => negb (coveredb x y) = true) (seqZ s (e - s))) as Hin; [|rewrite H0 in Hin; by apply not_elem_of_nil in Hin].
      apply list_elem_of_filter. split; [|apply elem_of_seqZ; pose proof (proj1 Ho); lia].
      apply negb_true_iff, not_true_iff_false. rewrite coveredb_iff, Hcov. tauto. }
  destruct (assoc env RL_EXCLUDED_WORLDS) as [worlds|] eqn:Ew; cbn [mbind result_bind].
  - set (l := filter _ (seqZ s (e - s))). assert (StronglySorted Z.lt l) as Hl by apply filter_sorted, seqZ_sorted.
    assert (forall x, x ∈ l <-> world_of x ∈ worlds /\ s <= x < e) as Hin by (intros x; unfold l; rewrite list_elem_of_filter, elem_of_seqZ; split; intros [? ?]; split; (done || lia)).
    destruct (runs_exact s e l Hl) as [Hc Hok]; [apply Forall_forall; intros x Hx; by apply Hin in Hx as [_ ?]|].
    assert (forall row, covered (runs l) row <-> s <= row < e /\ ~ offered row) as Hcov.
    { intros row. rewrite Hc, Hin. unfold offered. split.
      - intros [Hw Hrow]. split; [done|]. intros [_ Ho]. by apply (Ho worlds).
      - intros [Hrow Hno]. split; [|done]. destruct (decide (world_of row ∈ worlds)); [done|]. exfalso. apply Hno. split; [done|]. by intros w [= <-]. }
    destruct l as [|x l'] eqn:El.
    + cbn. apply (Hgen []); [done|]. intros row. by rewrite <- Hcov.
    + rewrite <- El in *. specialize (Hgen (runs l) Hok Hcov). by destruct (new_rows s e (runs l)).
  - cbn. apply (Hgen []); [done|]. intros row. split; [by intros (a & b & ?%not_elem_of_nil & _)|].
    intros [Hrow Hno]. exfalso. apply Hno. split; [done|]. by intros w [=].
Qed.

(** ** Witnesses *)

Definition w_rows : rows := PromptRows 10 30 [(12, 15); (20, 21)].

Lemma rows_exact_witness : contains w_rows 14 = false /\ contains w_rows 15 = true /\ rows_len w_rows = 16.
Proof.
  destruct (rows_exact 10 30 [(12, 15); (20, 21)] w_rows ltac:(reflexivity)) as (Hc & Hlen & _). split_and!.
  - apply not_true_iff_false. intros H%Hc. destruct H as [_ H]. apply H. exists 12, 15. split; [by left|lia].
  - apply Hc. split; [lia|]. intros (a & b & Hin & Hab). apply elem_of_cons in Hin as [[= -> ->]|Hin]; [lia|]. apply list_elem_of_singleton in Hin as [= -> ->]. lia.
  - rewrite Hlen. reflexivity.
Defined.

Lemma declared_rows_exact_witness :
  parse_prompt_rows (declared 0 50 [VInt 7; VList [VInt 20; VInt 30]]) = parse_prompt_rows (declared 0 50 [VList [VInt 20; VInt 30]; VInt 7]).
Proof. apply (declared_rows_exact 0 50 [VList [VInt 20; VInt 30]; VInt 7] [VInt 7; VList [VInt 20; VInt 30]]). apply Permutation_swap. Defined.

(** A split of instruction following, whose first 20,000 rows are kept for evaluation. *)
Lemma environment_rows_exact_witness :
  exists r, (v ← rl_prompt_rows 29435 (fun _ => "world")%string "reliquary_instruction_following_v1"; rows_of v) = Ok r /\ contains r 20000 = true.
Proof.
  pose proof (environment_rows_exact 29435 (fun _ => "world")%string "reliquary_instruction_following_v1" 20000 29435 ltac:(lia) ltac:(reflexivity)) as H.
  cbv zeta in H. destruct (v ← rl_prompt_rows _ _ _; rows_of v) as [r|x] eqn:E.
  - exists r. split; [done|]. apply H. split; [lia|]. intros ws Hws. discriminate Hws.
  - exfalso. destruct H as [_ H]. apply (H 20000). split; [lia|]. intros ws Hws. discriminate Hws.
Defined.
