(* ===== verification/RlBuffer.v ===== *)
(** * RlBuffer: the training buffer of the asynchronous RL loop

    Models [TrainingBuffer] and [mixed_take] of [reliquary/validator/rl_buffer.py].
    The table [rl_buffer] is a map from its primary key; a transaction that raises
    leaves it as it was.  A row's body is the group it packs: [pack] and [unpack]
    are JSON under zlib, and [unpack] restores the tuples JSON turned into lists.
    A query without ORDER BY returns its rows in the database's own order, the
    parameter [scan].
    The clock and the book's attributes are arguments. *)

From S2P Require Import Prelude PyFloat.

#[local] Open Scope Z_scope.

(** [SubmittedGroup] *)
Record group := Group {
  lease_id : string;
  hotkey : string;
  environment : string;
  prompt_idx : Z;
  checkpoint : Z;
  nonce : string;
  arrived_at : float;
  rewards : list float;
  truncated : list bool;
  prompt_tokens : list Z;
  completions : list (list Z);
  force_spans : list (option (Z * Z));
  spans : option (list (list (Z * Z)));
}.

Inductive row_state := queued | taken.

Record row := Row {
  row_env : string;
  row_k : Z;
  row_arrived : float;
  row_hotkey : string;
  row_state_of : row_state;
  body : group;
  attempts : Z;
}.

Definition SUSPECT_ATTEMPTS : Z := 2.
Definition URGENT_LAG_MARGIN : Z := 2.
Definition MAX_POLL_GAP_S : float := of_int 30.

Record buffer := Buffer {
  rows : gmap string row;
  arrived_tokens : gmap string Z;
  taken_tokens : Z;
  starved_s : float;
  waiting_since : option float;
}.
Definition empty_buffer : buffer := Buffer ∅ ∅ 0 0 None.

Definition with_rows (m : gmap string row) (b : buffer) : buffer :=
  Buffer m (arrived_tokens b) (taken_tokens b) (starved_s b) (waiting_since b).

Definition is_queued (r : row) : bool := match row_state_of r with queued => true | taken => false end.
Definition is_taken (r : row) : bool := negb (is_queued r).

(** [UPDATE ... SET state=?], and with [attempts=attempts+1]. *)
Definition set_state (s : row_state) (r : row) : row :=
  Row (row_env r) (row_k r) (row_arrived r) (row_hotkey r) s (body r) (attempts r).
Definition hand_out (r : row) : row :=
  Row (row_env r) (row_k r) (row_arrived r) (row_hotkey r) taken (body r) (attempts r + 1).

(** [executemany(UPDATE ... WHERE lease_id=?)] *)
Definition update_all (f : row -> row) (ids : list string) (m : gmap string row) : gmap string row :=
  foldl (fun m i => alter f i m) m ids.

(** ** Queries *)

(** [LIMIT n]: a negative limit is none. *)
Definition sql_limit {A} (n : Z) (l : list A) : list A := if n <? 0 then l else take (Z.to_nat n) l.

(** [ORDER BY arrived_at, lease_id] and [ORDER BY attempts, arrived_at, lease_id];
    text compares bytewise. *)
Definition arrival_leb (a b : string * row) : bool :=
  (row_arrived a.2 <? row_arrived b.2) || ((row_arrived a.2 =? row_arrived b.2) && String.leb a.1 b.1).
Definition attempts_leb (a b : string * row) : bool :=
  (attempts a.2 <? attempts b.2) || ((attempts a.2 =? attempts b.2) && arrival_leb a b).

Definition select (p : row -> bool) (m : gmap string row) : list (string * row) :=
  filter (fun kr => p kr.2 = true) (map_to_list m).

Definition fresh_row (r : row) : bool := is_queued r && (attempts r <? SUSPECT_ATTEMPTS).
Definition suspect_row (r : row) : bool := is_queued r && (SUSPECT_ATTEMPTS <=? attempts r).

(** ** [mixed_take] *)

(** [l[:n]] *)
Definition prefix_to {A} (n : Z) (l : list A) : list A :=
  take (Z.to_nat (if n <? 0 then Z.of_nat (length l) + n else n)) l.

Abbreviation offer := (string * string * Z)%type.

Definition bump (counts : gmap string Z) (env : string) : gmap string Z := <[env := default 0 (counts !! env) + 1]> counts.

Fixpoint mixed_loop (caps : gmap string Z) (limit : Z) (picked : list string) (rows : list offer)
    (chosen : list string) (counts : gmap string Z) (extra : list string) : list string * list string :=
  match rows with
  | [] => (chosen, extra)
  | (id, env, _) :: rows' =>
      if limit <=? Z.of_nat (length chosen) then (chosen, extra)
      else if bool_decide (id ∈ picked) then mixed_loop caps limit picked rows' chosen counts extra
      else if match caps !! env with Some c => c <=? default 0 (counts !! env) | None => false end
      then mixed_loop caps limit picked rows' chosen counts (extra ++ [id])
      else mixed_loop caps limit picked rows' (chosen ++ [id]) (bump counts env) extra
  end.

Definition urgent_rows (rows : list offer) (urgent_below : option Z) : list offer :=
  match urgent_below with
  | None => []
  | Some b => isort (fun x y => x.2 <=? y.2) (filter (fun r => r.2 < b) rows)
  end.

Definition mixed_take (rows : list offer) (caps : gmap string Z) (limit : Z) (urgent_below : option Z) : list string :=
  let first := prefix_to limit (urgent_rows rows urgent_below) in
  let picked := (fun r => r.1.1) <$> first in
  let counts := foldl bump ∅ ((fun r => r.1.2) <$> first) in
  let '(chosen, extra) := mixed_loop caps limit picked rows picked counts [] in
  chosen ++ prefix_to (Z.max 0 (limit - Z.of_nat (length chosen))) extra.

(** ** The buffer *)

Section buffer.
Context (scan : gmap string row -> list (string * row)).

Definition requeue (b : buffer) : Z * buffer :=
  (Z.of_nat (length (select is_taken (rows b))),
   with_rows ((fun r => if is_taken r then set_state queued r else r) <$> rows b) b).

Definition group_tokens (g : group) : Z := Zsum ((fun c => Z.of_nat (length c)) <$> completions g).

Definition push (g : group) : method buffer unit := fun b =>
  match rows b !! lease_id g with
  | Some _ => (Raise IntegrityError, b)
  | None =>
      (Ok tt, Buffer (<[lease_id g := Row (environment g) (checkpoint g) (arrived_at g) (hotkey g) queued g 0]> (rows b))
                (<[environment g := default 0 (arrived_tokens b !! environment g) + group_tokens g]> (arrived_tokens b))
                (taken_tokens b) (starved_s b) (waiting_since b))
  end.

Definition drain_tick (b : buffer) : (gmap string Z * Z * float) * buffer :=
  ((arrived_tokens b, taken_tokens b, starved_s b), Buffer (rows b) ∅ 0 0 (waiting_since b)).

(** The book's latest checkpoint and its maximal lag, when it has them. *)
Definition urgent_below (latest max_lag : option Z) : option Z :=
  match latest, max_lag with
  | Some l, Some m => Some (l - m + URGENT_LAG_MARGIN)
  | _, _ => None
  end.

(** The lease ids one take hands out: the fresh ones, then at most one suspect. *)
Definition fresh_ids (caps : gmap string Z) (urgent : option Z) (limit : Z) (m : gmap string row) : list string :=
  let ordered := isort arrival_leb (select fresh_row m) in
  if bool_decide (caps = ∅) then (sql_limit limit ordered).*1
  else mixed_take ((fun kr => (kr.1, row_env kr.2, row_k kr.2)) <$> ordered) caps limit urgent.

Definition suspect_held (m : gmap string row) : bool :=
  negb (bool_decide (select (fun r => is_taken r && (SUSPECT_ATTEMPTS <? attempts r)) m = [])).

Definition retried_ids (fresh : list string) (limit : Z) (m : gmap string row) : list string :=
  if (limit <=? Z.of_nat (length fresh)) || suspect_held m then []
  else (sql_limit 1 (isort attempts_leb (select suspect_row m))).*1.

Definition bodies (m : gmap string row) (ids : list string) : list group := omap (fun i => body <$> m !! i) ids.

(** [take], with the answer of [batch_caps(limit)] ([{}] without caps). *)
Definition take_groups (limit : Z) (caps : gmap string Z) (urgent : option Z) (now : float) (b : buffer)
    : list group * buffer :=
  let fresh := fresh_ids caps urgent limit (rows b) in
  let ids := fresh ++ retried_ids fresh limit (rows b) in
  let starved := match waiting_since b with
                 | Some since => fadd (starved_s b) (Z.min (fsub now since) MAX_POLL_GAP_S)
                 | None => starved_s b
                 end in
  let since := if Z.of_nat (length ids) <? limit then Some now else None in
  let groups := bodies (rows b) ids in
  (groups, Buffer (update_all hand_out ids (rows b)) (arrived_tokens b)
             (taken_tokens b + Zsum (group_tokens <$> groups)) starved since).

Definition take_where (p : row -> bool) (limit : Z) (b : buffer) : list group * buffer :=
  let ids := (sql_limit limit (filter (fun kr => p kr.2 = true) (scan (rows b)))).*1 in
  (bodies (rows b) ids, with_rows (update_all (set_state taken) ids (rows b)) b).

Definition take_older (below_k limit : Z) (b : buffer) : list group * buffer :=
  take_where (fun r => is_queued r && (row_k r <? below_k)) limit b.

Definition take_exhausted (max_attempts limit : Z) (b : buffer) : list group * buffer :=
  take_where (fun r => is_queued r && (max_attempts <=? attempts r)) limit b.

Definition release (ids : list string) (b : buffer) : buffer :=
  with_rows (update_all (fun r => if is_taken r then set_state queued r else r) ids (rows b)) b.

Definition get (id : string) (b : buffer) : option group := body <$> rows b !! id.

Definition remove (id : string) (b : buffer) : bool * buffer :=
  (bool_decide (is_Some (rows b !! id)), with_rows (delete id (rows b)) b).

Definition depth (b : buffer) : gmap string Z :=
  foldl bump ∅ ((fun kr => row_env kr.2) <$> select is_queued (rows b)).
End buffer.

(** ** [mixed_take] *)

Abbreviation offer_id := (fun r : offer => r.1.1) (only parsing).

Lemma prefix_to_take {A} n (l : list A) : 0 <= n -> prefix_to n l = take (Z.to_nat n) l.
Proof. intros Hn. unfold prefix_to. destruct (Z.ltb_spec n 0); [lia|done]. Qed.

(** The loop splits the offers it reads between the chosen and the extra ones, and
    stops short of the end only when the batch is full. *)
Lemma mixed_loop_spec caps limit picked rows chosen counts extra :
  Z.of_nat (length chosen) <= limit ->
  exists c e rest,
    mixed_loop caps limit picked rows chosen counts extra = (chosen ++ c, extra ++ e) /\
    c ++ e ++ rest ≡ₚ filter (fun i => i ∉ picked) (offer_id <$> rows) /\
    Z.of_nat (length (chosen ++ c)) <= limit /\
    (rest = [] \/ Z.of_nat (length (chosen ++ c)) = limit).
Proof.
  revert chosen counts extra. induction rows as [|[[id env] k] rows IH]; intros chosen counts extra Hlen.
  - exists [], [], []. cbn. rewrite !app_nil_r. split_and!; auto.
  - cbn [mixed_loop]. destruct (Z.leb_spec limit (Z.of_nat (length chosen))) as [Hfull|Hroom].
    { exists [], [], (filter (fun i => i ∉ picked) (offer_id <$> (id, env, k) :: rows)).
      rewrite !app_nil_r. split_and!; [done|done|done|right; lia]. }
    rewrite fmap_cons, filter_cons. cbn [fst]. case_bool_decide as Hp.
    { rewrite decide_False by tauto. by apply IH. }
    rewrite decide_True by done. destruct (match caps !! env with Some c => _ | None => _ end).
    + destruct (IH chosen counts (extra ++ [id]) Hlen) as (c & e & rest & -> & Hperm & Hl & Hr).
      exists c, (id :: e), rest. rewrite <- app_assoc. split_and!; [done| |done|done].
      rewrite <- Hperm. cbn. by rewrite <- Permutation_middle.
    + destruct (IH (chosen ++ [id]) (bump counts env) extra) as (c & e & rest & -> & Hperm & Hl & Hr);
        [rewrite length_app; cbn; lia|].
      exists (id :: c), e, rest. rewrite <- app_assoc in *. split_and!; [done| |done|done]. by rewrite <- Hperm.
Qed.

Lemma filter_picked (l p : list string) : NoDup l -> p ⊆+ l -> p ++ filter (fun i => i ∉ p) l ≡ₚ l.
Proof.
  intros Hnd Hsub. destruct (submseteq_Permutation _ _ Hsub) as [k Hk].
  assert (NoDup p) as Hp by (rewrite Hk in Hnd; by apply NoDup_app in Hnd as [? _]).
  apply NoDup_Permutation; [|done|].
  - apply NoDup_app. split_and!; [done| |by apply NoDup_filter]. intros x Hx [Hx' _]%list_elem_of_filter. done.
  - intros x. rewrite elem_of_app, list_elem_of_filter. pose proof (fun Hx => elem_of_submseteq p l x Hx Hsub).
    destruct (decide (x ∈ p)); tauto.
Qed.

(** A mixed take hands out distinct offered groups, and is short only when it has
    handed out all of them. *)
Lemma mixed_take_spec rows caps limit urgent : 0 <= limit -> NoDup (offer_id <$> rows) ->
  mixed_take rows caps limit urgent ⊆+ offer_id <$> rows /\
  length (mixed_take rows caps limit urgent) = Nat.min (Z.to_nat limit) (length rows).
Proof.
  intros Hlim Hnd. unfold mixed_take. rewrite prefix_to_take by done.
  set (first := take (Z.to_nat limit) (urgent_rows rows urgent)). set (picked := (fun r => r.1.1) <$> first).
  assert (picked ⊆+ offer_id <$> rows) as Hsub.
  { apply fmap_submseteq. etrans; [apply submseteq_take|]. unfold urgent_rows. destruct urgent as [u|]; [|apply submseteq_nil_l].
    rewrite isort_perm. apply sublist_submseteq, sublist_filter. }
  pose proof (filter_picked _ _ Hnd Hsub) as Hpick.
  assert (Z.of_nat (length picked) <= limit) as Hlen.
  { unfold picked, first. rewrite length_fmap, length_take. lia. }
  destruct (mixed_loop_spec caps limit picked rows picked (foldl bump ∅ ((fun r => r.1.2) <$> first)) [] Hlen)
    as (c & e & rest & -> & Hperm & Hl & Hr). rewrite <- Hperm in Hpick. cbn [app].
  rewrite prefix_to_take by lia. set (n := Z.to_nat (Z.max 0 (limit - Z.of_nat (length (picked ++ c))))).
  assert (length rows = length (picked ++ c ++ e ++ rest)) as Hrows by (rewrite Hpick; by rewrite length_fmap).
  split.
  - rewrite <- Hpick, <- app_assoc. apply submseteq_app; [done|]. apply submseteq_app; [done|].
    etrans; [apply (submseteq_take e n)|]. apply submseteq_inserts_r. done.
  - rewrite length_app, length_take. unfold n. rewrite Hrows. rewrite !length_app in *.
    destruct Hr as [->|Hr]; cbn [length]; lia.
Qed.

(** ** What a take hands out *)

Lemma select_elem p m i r : (i, r) ∈ select p m <-> m !! i = Some r /\ p r = true.
Proof. unfold select. rewrite list_elem_of_filter, elem_of_map_to_list. cbn. tauto. Qed.

Lemma select_nodup p m : NoDup (select p m).*1.
Proof.
  unfold select. eapply sublist_NoDup; [apply (NoDup_fst_map_to_list m)|]. apply fmap_sublist, sublist_filter.
Qed.

Lemma sql_limit_take {A} n (l : list A) : 0 <= n -> sql_limit n l = take (Z.to_nat n) l.
Proof. intros Hn. unfold sql_limit. destruct (Z.ltb_spec n 0); [lia|done]. Qed.

Lemma fresh_ids_spec caps urgent limit m : 0 <= limit ->
  fresh_ids caps urgent limit m ⊆+ (select fresh_row m).*1 /\
  length (fresh_ids caps urgent limit m) = Nat.min (Z.to_nat limit) (length (select fresh_row m)).
Proof.
  intros Hlim. unfold fresh_ids. set (ordered := isort arrival_leb (select fresh_row m)).
  assert (ordered ≡ₚ select fresh_row m) as Hperm by apply isort_perm. case_bool_decide as Hc.
  - rewrite sql_limit_take by done. split; [|by rewrite length_fmap, length_take, (Permutation_length Hperm)].
    rewrite <- Hperm. apply fmap_submseteq, submseteq_take.
  - set (offers := (fun kr : string * row => (kr.1, row_env kr.2, row_k kr.2)) <$> ordered).
    assert ((fun r : offer => r.1.1) <$> offers = ordered.*1) as Hids by (unfold offers; by rewrite <- list_fmap_compose).
    destruct (mixed_take_spec offers caps limit urgent Hlim) as [H1 H2].
    + rewrite Hids, Hperm. apply select_nodup.
    + rewrite Hids, Hperm in H1. rewrite H2. unfold offers. by rewrite length_fmap, (Permutation_length Hperm).
Qed.

Lemma retried_ids_spec fresh limit m : let l := retried_ids fresh limit m in
  (length l <= 1)%nat /\ (forall i, i ∈ l -> exists r, m !! i = Some r /\ suspect_row r = true) /\
  (l <> [] -> Z.of_nat (length fresh) < limit /\ suspect_held m = false).
Proof.
  unfold retried_ids. cbv zeta. destruct (Z.leb_spec limit (Z.of_nat (length fresh))) as [|Hlt]; cbn [orb].
  { split_and!; [cbn; lia|intros i Hi; by apply not_elem_of_nil in Hi|done]. }
  destruct (suspect_held m); [split_and!; [cbn; lia|intros i Hi; by apply not_elem_of_nil in Hi|done]|].
  rewrite sql_limit_take by lia. split_and!.
  - rewrite length_fmap, length_take. lia.
  - intros i ([j r] & -> & Hin)%list_elem_of_fmap. apply elem_of_take in Hin as (n & Hn%list_elem_of_lookup_2 & _).
    rewrite isort_perm in Hn. apply select_elem in Hn as [Hm Hs]. eauto.
  - done.
Qed.

Lemma update_all_lookup f ids m i : NoDup ids ->
  update_all f ids m !! i = if bool_decide (i ∈ ids) then f <$> m !! i else m !! i.
Proof.
  unfold update_all. revert m. induction ids as [|j ids IH]; intros m Hnd; [by rewrite bool_decide_false by set_solver|].
  apply NoDup_cons in Hnd as [Hj Hnd]. cbn [foldl]. rewrite IH by done. rewrite lookup_alter.
  destruct (decide (j = i)) as [->|Hne].
  - rewrite bool_decide_false, bool_decide_true by (done || constructor). done.
  - assert (i ∈ j :: ids <-> i ∈ ids) as E by (rewrite elem_of_cons; naive_solver).
    by rewrite (bool_decide_ext _ _ E).
Qed.

(** What a take hands out.  At most [limit] groups, each once, all of them queued
    before; exactly their rows become taken, with one more attempt, and no row
    is lost.  A short batch leaves no fresh group queued, whatever the caps.  At
    most one group already handed out twice is in it, and none while the
    trainer holds another. *)
Theorem take_exact (limit : Z) (caps : gmap string Z) (urgent : option Z) (now : float) (b : buffer) :
  0 <= limit ->
  exists ids,
    (take_groups limit caps urgent now b).1 = bodies (rows b) ids /\ NoDup ids /\ Z.of_nat (length ids) <= limit /\
    (forall i, rows (take_groups limit caps urgent now b).2 !! i =
       if bool_decide (i ∈ ids) then hand_out <$> rows b !! i else rows b !! i) /\
    (forall i, i ∈ ids -> exists r, rows b !! i = Some r /\ is_queued r = true) /\
    (Z.of_nat (length ids) < limit -> forall i r, rows b !! i = Some r -> fresh_row r = true -> i ∈ ids) /\
    (forall i r, i ∈ ids -> rows b !! i = Some r -> SUSPECT_ATTEMPTS <= attempts r ->
       (forall j r', j ∈ ids -> rows b !! j = Some r' -> SUSPECT_ATTEMPTS <= attempts r' -> j = i) /\
       forall j r', rows b !! j = Some r' -> is_taken r' = true -> attempts r' <= SUSPECT_ATTEMPTS).
Proof.
  intros Hlim. unfold take_groups. set (fresh := fresh_ids caps urgent limit (rows b)).
  set (retried := retried_ids fresh limit (rows b)).
  destruct (fresh_ids_spec caps urgent limit (rows b) Hlim) as [Hsub Hlen]. fold fresh in Hsub, Hlen.
  destruct (retried_ids_spec fresh limit (rows b)) as (Hone & Hsusp & Hroom). fold retried in Hone, Hsusp, Hroom.
  assert (forall i, i ∈ fresh -> exists r, rows b !! i = Some r /\ fresh_row r = true) as Hfresh.
  { intros i Hi. pose proof (elem_of_submseteq _ _ _ Hi Hsub) as ([j r] & -> & Hin)%list_elem_of_fmap.
    apply select_elem in Hin. eauto. }
  assert (forall i r, i ∈ fresh ++ retried -> rows b !! i = Some r -> SUSPECT_ATTEMPTS <= attempts r -> i ∈ retried) as Hback.
  { intros i r [Hi|Hi]%elem_of_app Hr Hge; [|done]. destruct (Hfresh i Hi) as (r' & Hr' & Hf). rewrite Hr in Hr'.
    injection Hr' as <-. unfold fresh_row in Hf. apply andb_true_iff in Hf as [_ Hf%Z.ltb_lt]. lia. }
  assert (NoDup (fresh ++ retried)) as Hnd.
  { apply NoDup_app. split_and!.
    - destruct (submseteq_Permutation _ _ Hsub) as [k Hk]. pose proof (select_nodup fresh_row (rows b)) as Hn.
      rewrite Hk in Hn. by apply NoDup_app in Hn as [? _].
    - intros i Hi Hi'. destruct (Hfresh i Hi) as (r & Hr & Hf), (Hsusp i Hi') as (r' & Hr' & Hs). rewrite Hr in Hr'.
      injection Hr' as <-. unfold fresh_row, suspect_row in *. apply andb_true_iff in Hf as [_ Hf%Z.ltb_lt].
      apply andb_true_iff in Hs as [_ Hs%Z.leb_le]. lia.
    - destruct retried as [|x [|y l]]; [constructor|apply NoDup_singleton|cbn in Hone; lia]. }
  exists (fresh ++ retried). cbn [fst snd rows]. split_and!; [done|done| | | | |].
  - rewrite length_app. destruct retried as [|x l] eqn:Er; cbn [length] in *; [lia|].
    destruct (Hroom ltac:(done)) as [Hlt _]. lia.
  - intros i. by apply update_all_lookup.
  - intros i [Hi|Hi]%elem_of_app.
    + destruct (Hfresh i Hi) as (r & Hr & Hf). exists r. split; [done|]. by apply andb_true_iff in Hf as [? _].
    + destruct (Hsusp i Hi) as (r & Hr & Hs). exists r. split; [done|]. by apply andb_true_iff in Hs as [? _].
  - intros Hshort i r Hr Hf. rewrite length_app in Hshort. apply elem_of_app. left.
    assert (fresh ≡ₚ (select fresh_row (rows b)).*1) as ->.
    { apply submseteq_length_Permutation; [done|]. rewrite length_fmap. lia. }
    apply list_elem_of_fmap. exists (i, r). split; [done|]. by apply select_elem.
  - intros i r Hi Hr Hge. pose proof (Hback i r Hi Hr Hge) as Hin. split.
    + intros j r' Hj Hr' Hge'. pose proof (Hback j r' Hj Hr' Hge') as Hin'.
      destruct retried as [|x [|y l]]; cbn in Hone; [by apply not_elem_of_nil in Hin| |lia].
      apply list_elem_of_singleton in Hin, Hin'. congruence.
    + destruct (Hroom ltac:(intros E; rewrite E in Hin; by apply not_elem_of_nil in Hin)) as [_ Hheld].
      intros j r' Hr' Ht. unfold suspect_held in Hheld. apply negb_false_iff, bool_decide_eq_true in Hheld.
      destruct (Z.le_gt_cases (attempts r') SUSPECT_ATTEMPTS) as [|Hgt]; [done|]. exfalso.
      assert ((j, r') ∈ select (fun r => is_taken r && (SUSPECT_ATTEMPTS <? attempts r)) (rows b)) as Hsel.
      { apply select_elem. split; [done|]. rewrite Ht. by apply Z.ltb_lt. }
      rewrite Hheld in Hsel. by apply not_elem_of_nil in Hsel.
Qed.

Definition w_group (id env : string) (k at_ : Z) : group :=
  Group id "hk" env 0 k "00" (of_int at_) [] [] [] [[1; 2]] [None] None.
Definition w_row (id env : string) (k at_ att : Z) : row := Row env k (of_int at_) "hk" queued (w_group id env k at_) att.
Definition w_buffer : buffer :=
  Buffer {["a" := w_row "a" "math" 5 1 0; "b" := w_row "b" "math" 5 2 0; "c" := w_row "c" "code" 5 3 1;
           "d" := w_row "d" "code" 5 0 2]} ∅ 0 0 None.

(** The cap of an environment gives way when the batch would be short. *)
Lemma take_exact_witness :
  (lease_id <$> (take_groups 4 {["math" := 1]} None 0 w_buffer).1) = ["a"; "c"; "b"; "d"]%string /\
  exists ids, Z.of_nat (length ids) <= 4 /\ NoDup ids /\
    (take_groups 4 {["math" := 1]} None 0 w_buffer).1 = bodies (rows w_buffer) ids.
Proof.
  split; [vm_compute; reflexivity|].
  destruct (take_exact 4 {["math" := 1]} None 0 w_buffer ltac:(lia)) as (ids & H1 & H2 & H3 & _).
  exists ids. exact (conj H3 (conj H2 H1)).
Defined.
