(* ===== verification/RlLedger.v ===== *)
(** * RlLedger: the payment ledger of the asynchronous RL loop

    Models [reliquary/validator/rl_ledger.py]: accrual of the submission path's
    events, settlement of closed periods into archives (cap, carry, trainer
    outages), the trainer's heartbeat and the publication of archives.

    The SQLite tables are maps from their primary keys, [rl_trainer_outages] a list;
    a transaction that raises leaves them as they were.  An archive is stored as JSON
    and read back: the row holds the document.  The price controller
    ([token_price], [targets]), the environment of a group and the validator's
    downtime belong to other components and are parameters; clock readings are
    arguments, one for all the readings of a settlement beside [now]. *)

From S2P Require Import Prelude PyFloat Periods.

#[local] Open Scope Z_scope.

(** ** Configuration *)

Record ledger_config := LedgerConfig {
  cap : float;
  floor : float;
  reference_groups : Z;
  default_group_tokens : Z;
  slack_s : float;
  genesis : float;
  env_pay_k : option float;
  carry_periods : Z;
  carry_max_caps : float;
  outage_fill : bool;
  outage_grace_s : float;
  outage_max_s : float;
}.

(** [__post_init__] *)
Definition valid_config (c : ledger_config) : bool :=
  (0 <? cap c) && (cap c <=? fone) && (0 <=? floor c) && (floor c <=? fone) && (0 <? reference_groups c)
  && (0 <? default_group_tokens c) && (0 <=? slack_s c)
  && match env_pay_k c with None => true | Some k => 0 <? k end
  && (0 <=? carry_periods c) && (0 <=? carry_max_caps c) && (0 <? outage_grace_s c) && (0 <=? outage_max_s c).

Definition BEAT_EVERY_S : float := of_int 10.
Definition OUTAGE_KEEP_S : float := of_int (7 * 86400).
Definition OUTAGE_REFERENCE_PERIODS : nat := 6.

(** ** Tables *)

Inductive status := accrued | settled | forfeited.
#[export] Instance status_eq_dec : EqDecision status.
Proof. solve_decision. Defined.

Inductive pay_kind := trained | first_scan.
#[export] Instance pay_kind_eq_dec : EqDecision pay_kind.
Proof. solve_decision. Defined.

Record accrual := Accrual {
  acc_lease : string;
  acc_hotkey : string;
  acc_env : string;
  acc_kind : pay_kind;
  acc_at : float;
  acc_period : Z;
  matched_tokens : Z;
  token_price_at : float;
  amount : float;
  acc_status : status;
}.

(** [published]: 0 attempted and not confirmed, 1 confirmed, 2 never attempted. *)
Inductive publication := unconfirmed | confirmed | unattempted.
#[export] Instance publication_eq_dec : EqDecision publication.
Proof. solve_decision. Defined.

Record archive_doc := ArchiveDoc {
  work_period : Z;
  doc_entry : Z;
  doc_rewards : list (string * float);
  doc_accrued : list (string * float);
  accrued_total : float;
  doc_scale : float;
  doc_cap : float;
  doc_groups : Z;
  doc_tokens : Z;
  doc_carry : option (float * float * float * Z);   (** fresh, carried in, carried out, periods *)
  doc_env_scale : option (list (string * float));
  doc_outage : option (float * float * float);      (** seconds, fraction, fill *)
}.

#[export] Instance archive_doc_eq_dec : EqDecision archive_doc.
Proof. solve_decision. Defined.

Record ledger := Ledger {
  pay_cursor : Z;
  accruals : gmap Z accrual;
  bans : gmap string float;
  carry : gmap (string * Z) float;
  archives : gmap Z (archive_doc * publication);
  beat : option float;
  outages_log : list (float * float);
  beat_at : option float;
}.
Definition new_ledger : ledger := Ledger 0 ∅ ∅ ∅ ∅ None [] None.

Definition set_cursor n l := Ledger n (accruals l) (bans l) (carry l) (archives l) (beat l) (outages_log l) (beat_at l).
Definition set_accruals a l := Ledger (pay_cursor l) a (bans l) (carry l) (archives l) (beat l) (outages_log l) (beat_at l).
Definition set_bans b l := Ledger (pay_cursor l) (accruals l) b (carry l) (archives l) (beat l) (outages_log l) (beat_at l).
Definition set_carry c l := Ledger (pay_cursor l) (accruals l) (bans l) c (archives l) (beat l) (outages_log l) (beat_at l).
Definition set_archives a l := Ledger (pay_cursor l) (accruals l) (bans l) (carry l) a (beat l) (outages_log l) (beat_at l).
Definition set_status (s : status) (a : accrual) : accrual :=
  Accrual (acc_lease a) (acc_hotkey a) (acc_env a) (acc_kind a) (acc_at a) (acc_period a) (matched_tokens a)
    (token_price_at a) (amount a) s.

(** ** Events *)

(** The [detail] of an event by kind; the other kinds carry no money. *)
Inductive detail :=
  | Ban (until : float)
  | Trained (environment : string) (rollout_match : list float) (matched : option (list Z)) (completion_tokens : list Z)
  | FirstScan (fraction : float)
  | Other.

Record event := Event { seq : Z; lease_id : string; hotkey : string; at_ : float; ev_detail : detail }.

Definition paid_tokens (rollout_match : list float) (matched : option (list Z)) (completion_tokens : list Z) (floor : float) : Z :=
  let counts := match matched with
                | Some c => c
                | None => zip_with (fun m n => ffloor (fmul m (of_int n))) rollout_match completion_tokens
                end in
  Zsum (zip_with (fun m c => if floor <=? m then c else 0) rollout_match counts).

Definition last_period (l : ledger) : option Z :=
  match (map_to_list (archives l)).*1 with [] => None | p :: ps => Some (foldr Z.max p ps) end.

(** [int(last) + 1], or nothing. *)
Definition after_last (l : ledger) (p : Z) : Z := match last_period l with None => p | Some last => Z.max p (last + 1) end.

Definition open_period (c : ledger_config) (at' : float) (l : ledger) : Z := after_last l (period_of at' (genesis c)).

(** Rows by primary key, ascending ([ORDER BY seq]). *)
Definition by_seq {A} (l : list (Z * A)) : list (Z * A) := isort (fun x y => x.1 <=? y.1) l.

Definition reference_tokens (c : ledger_config) (env : string) (l : ledger) : float :=
  let rows := take (Z.to_nat (reference_groups c)) (rev (by_seq (filter (fun ka => acc_env ka.2 = env /\ acc_kind ka.2 = trained)
                (map_to_list (accruals l))))) in
  match rows with
  | [] => of_int (default_group_tokens c)
  | _ => flit (Zsum ((fun ka => matched_tokens ka.2) <$> rows)) (Z.of_nat (length rows))
  end.

Definition banned (hk : string) (at' : float) (l : ledger) : bool :=
  match bans l !! hk with Some until => at' <? until | None => false end.

Section ledger.
Context (cfg : ledger_config).
(** [prices.token_price(env)], [prices.targets] and [rl_groups.environment]. *)
Context (token_price : string -> float) (targets : gmap string float) (group_env : string -> option string).
(** [rl_validator_downtime] *)
Context (downtime : list (float * float)).

Definition forfeit (hk : string) (a : accrual) : accrual :=
  if bool_decide (acc_hotkey a = hk /\ acc_status a = accrued) then set_status forfeited a else a.

Definition ban_event (hk : string) (until : float) (l : ledger) : ledger :=
  set_accruals (forfeit hk <$> accruals l)
    (set_bans (<[hk := match bans l !! hk with Some u => Z.max u until | None => until end]> (bans l)) l).

(** The row of a payable event. *)
Definition pay_row (e : event) (env : string) (k : pay_kind) (tokens : Z) (price amt : float) (l : ledger) : accrual :=
  Accrual (lease_id e) (hotkey e) env k (at_ e) (open_period cfg (at_ e) l) tokens price amt
    (if banned (hotkey e) (at_ e) l then forfeited else accrued).

Definition insert_accrual (e : event) (a : accrual) (l : ledger) : result ledger :=
  match accruals l !! seq e with
  | Some _ => Raise IntegrityError
  | None => Ok (set_accruals (<[seq e := a]> (accruals l)) l)
  end.

Definition ingest_event (l : ledger) (e : event) : result ledger :=
  match ev_detail e with
  | Ban until => Ok (ban_event (hotkey e) until l)
  | Trained env rollout_match matched completion_tokens =>
      let tokens := paid_tokens rollout_match matched completion_tokens (floor cfg) in
      let price := token_price env in
      insert_accrual e (pay_row e env trained tokens price (fmul (of_int tokens) price) l) l
  | FirstScan fraction =>
      match group_env (lease_id e) with
      | None => Raise TypeError
      | Some env =>
          let price := token_price env in
          insert_accrual e (pay_row e env first_scan 0 price (fmul (fmul fraction price) (reference_tokens cfg env l)) l) l
      end
  | Other => Ok l
  end.

(** [ingest]: the events the submission path returns after the cursor. *)
Definition ingest (events : list event) (limit : Z) : method ledger Z := fun l =>
  let events := take (Z.to_nat limit) (filter (fun e => pay_cursor l < seq e) events) in
  match last events with
  | None => (Ok 0, l)
  | Some e =>
      match fold_result ingest_event l events with
      | Raise x => (Raise x, l)
      | Ok l' => (Ok (Z.of_nat (length events)), set_cursor (seq e) l')
      end
  end.

(** ** Settlement *)

Abbreviation amounts := (gmap string float).

Definition add_to (m : amounts) (hk : string) (x : float) : amounts := <[hk := fadd (default 0 (m !! hk)) x]> m.
Definition values (m : amounts) : list float := (map_to_list m).*2.

(** The accruals of a period, in order. *)
Definition due_rows (period : Z) (l : ledger) : list accrual :=
  snd <$> by_seq (filter (fun ka => acc_status ka.2 = accrued /\ acc_period ka.2 = period) (map_to_list (accruals l))).

Definition env_scale (rows : list accrual) : amounts :=
  match env_pay_k cfg with
  | None => ∅
  | Some k =>
      let totals := foldl (fun m a => add_to m (acc_env a) (amount a)) ∅ rows in
      map_imap (fun env total =>
        let limit := fmul (fmul k (default 0 (targets !! env))) (cap cfg) in
        Some (if total <=? limit then fone else if 0 <? total then fdiv limit total else fone)) totals
  end.

Definition scaled (scales : amounts) (a : accrual) : float := fmul (amount a) (default fone (scales !! acc_env a)).

(** [_take_carry]: per hotkey, the pending parts in the order of their origin. *)
Definition pending_carry (period : Z) (now : float) (l : ledger) : list (string * Z * float) :=
  let old := by_seq ((fun ka => (ka.1.2, (ka.1.1, ka.2))) <$> filter (fun ka => ka.1.2 < period) (map_to_list (carry l))) in
  (fun r => (r.2.1, r.1, r.2.2)) <$>
    filter (fun r => period - r.1 <= carry_periods cfg /\ banned r.2.1 now l = false) old.

Definition drop_carry (period : Z) (l : ledger) : ledger :=
  set_carry (filter (fun ka => ~ ka.1.2 < period) (carry l)) l.

Definition parts_of (hk : string) (carried : list (string * Z * float)) : list float :=
  (fun r => r.2) <$> filter (fun r => r.1.1 = hk) carried.
Definition carried_hotkeys (carried : list (string * Z * float)) : list string := remove_dups ((fun r => r.1.1) <$> carried).

(** [_carry] *)
Definition carry_parts (period : Z) (rows : list accrual) (scales : amounts) (carried : list (string * Z * float))
    (unpaid : float) : gmap (string * Z) float :=
  let add m k x := <[k := fadd (default 0 (m !! k)) x]> m in
  foldl (fun m r => add m (r.1.1, r.1.2) (fmul r.2 unpaid))
    (foldl (fun m a => add m (acc_hotkey a, period) (fmul (scaled scales a) unpaid)) (∅ : gmap (string * Z) float) rows) carried.

Definition parts_at (origin : Z) (parts : gmap (string * Z) float) : list float :=
  snd <$> filter (fun ka => ka.1.2 = origin) (map_to_list parts).

Fixpoint burn_oldest (origins : list Z) (excess : float) (parts : gmap (string * Z) float) : gmap (string * Z) float :=
  match origins with
  | [] => parts
  | o :: origins' =>
      if excess <=? 0 then parts
      else
        let held := fsum (parts_at o parts) in
        let cut := Z.min excess held in
        let keep := if 0 <? held then fsub fone (fdiv cut held) else 0 in
        burn_oldest origins' (fsub excess cut)
          (map_imap (fun k a => Some (if k.2 =? o then fmul a keep else a)) parts)
  end.

Definition sort_Z (l : list Z) : list Z := isort Z.leb l.

Definition carry_over (period : Z) (rows : list accrual) (scales : amounts) (carried : list (string * Z * float))
    (unpaid : float) (l : ledger) : float * ledger :=
  if carry_periods cfg =? 0 then (0, l)
  else
    let parts := carry_parts period rows scales carried unpaid in
    let origins := sort_Z (remove_dups ((fun ka => ka.1.2) <$> map_to_list parts)) in
    let excess := fsub (fsum (map_to_list parts).*2) (fmul (carry_max_caps cfg) (cap cfg)) in
    let kept := burn_oldest origins excess parts in
    (fsum (map_to_list kept).*2,
     set_carry (union_with (fun a b => Some (fadd a b)) (carry l) (filter (fun ka => 0 < ka.2) kept)) l).

(** ** Outages *)

(** Cutting a downtime out of a piece. *)
Definition cut_piece (d : float * float) (p : float * float) : list (float * float) :=
  filter (fun q => q.1 < q.2) [(p.1, Z.min p.2 d.1); (Z.max p.1 d.2, p.2)].

Definition span_leb (a b : float * float) : bool := (a.1 <? b.1) || ((a.1 =? b.1) && (a.2 <=? b.2)).
Definition sort_spans (l : list (float * float)) : list (float * float) := isort span_leb l.

Definition outages (now : float) (l : ledger) : list (float * float) :=
  if outage_fill cfg then
    let spans := outages_log l ++ match beat l with
                                  | Some last => if outage_grace_s cfg <? fsub now last then [(last, now)] else []
                                  | None => []
                                  end in
    let down := sort_spans downtime in
    mjoin ((fun span =>
      let pieces := foldl (fun ps d => mjoin (cut_piece d <$> ps)) [span] down in
      (fun p => (p.1, Z.min p.2 (fadd p.1 (outage_max_s cfg))))
        <$> filter (fun p => outage_grace_s cfg < fsub p.2 p.1) pieces) <$> spans)
  else [].

(** Seconds of a period the trainer was down, overlaps counted once. *)
Definition outage_seconds (period : Z) (outs : list (float * float)) : float :=
  let stop := period_end period (genesis cfg) in
  let start := fsub stop (of_int PERIOD_SECONDS) in
  let spans := sort_spans ((fun o => (Z.max o.1 start, Z.min o.2 stop)) <$> filter (fun o => o.1 < stop /\ start < o.2) outs) in
  (foldl (fun acc s => let '(total, reach) := acc in
                       if reach <? s.2 then (fadd total (fsub s.2 (Z.max s.1 reach)), s.2) else acc)
     (0, start) spans).1.

(** The last archives that were mostly not outage, newest first. *)
Definition reference_docs (l : ledger) : list archive_doc :=
  take OUTAGE_REFERENCE_PERIODS
    (filter (fun d => match doc_outage d with Some (_, f, _) => f | None => 0 end < flit 1 2)
       ((fun r => r.2.1) <$> rev (by_seq (map_to_list (archives l))))).

Definition fill_of (fraction now : float) (l : ledger) : amounts :=
  let docs := reference_docs l in
  match docs with
  | [] => ∅
  | _ =>
      let fraction := Z.min fone fraction in
      let n := of_int (Z.of_nat (length docs)) in
      filter (fun ha => 0 < ha.2 /\ banned ha.1 now l = false)
        (foldl (fun m d => foldl (fun m hr => add_to m hr.1 (fdiv (fmul hr.2 fraction) n)) m (doc_rewards d)) ∅ docs)
  end.

(** ** One period *)

(** What each hotkey is due: its rows, then its carry, then the outage fill. *)
Definition accrued_of (rows : list accrual) (scales : amounts) : amounts :=
  foldl (fun m a => add_to m (acc_hotkey a) (scaled scales a)) ∅ rows.
Definition with_carry (carried : list (string * Z * float)) (m : amounts) : amounts :=
  foldl (fun m hk => add_to m hk (fsum (parts_of hk carried))) m (carried_hotkeys carried).
Definition with_fill (fill m : amounts) : amounts := foldl (fun m ha => add_to m ha.1 ha.2) m (map_to_list fill).

Definition scale_of (total : float) : float := if total <=? cap cfg then fone else fdiv (cap cfg) total.

Definition sorted_items (m : amounts) : list (string * float) := isort (fun x y => String.leb x.1 y.1) (map_to_list m).

Definition rewards_of (due : amounts) (scale : float) : list (string * float) :=
  (fun ha => (ha.1, fmul ha.2 scale)) <$> filter (fun ha => 0 < ha.2) (sorted_items due).

Definition settle_rows (period : Z) (l : ledger) : ledger :=
  set_accruals ((fun a => if bool_decide (acc_status a = accrued /\ acc_period a = period) then set_status settled a else a)
                <$> accruals l) l.

Definition settle_period (now clock : float) (outs : list (float * float)) (st : result (list archive_doc * ledger)) (period : Z)
    : result (list archive_doc * ledger) :=
  '(out, l) ← st;
  let rows := due_rows period l in
  let scales := env_scale rows in
  let fresh_due := accrued_of rows scales in
  let fresh := fsum (values fresh_due) in
  let carried := pending_carry period clock l in
  let l1 := drop_carry period l in
  let down_s := outage_seconds period outs in
  let fill := if 0 <? down_s then fill_of (fdiv down_s (of_int PERIOD_SECONDS)) clock l1 else ∅ in
  if bool_decide (rows = []) && bool_decide (carried = []) && bool_decide (fill = ∅) then Ok (out, l1)
  else
    let due := with_fill fill (with_carry carried fresh_due) in
    let total := fsum (values due) in
    let scale := scale_of total in
    let '(carried_out, l2) := if scale <? fone then carry_over period rows scales carried (fsub fone scale) l1 else (0, l1) in
    match entry_for (period_of now (genesis cfg) + 1) ((fun r => doc_entry r.2.1) <$> map_to_list (archives l2)) [] CATCHUP_ENTRIES with
    | None => Raise RuntimeError
    | Some entry =>
        let doc := ArchiveDoc period entry (rewards_of due scale) (sorted_items due) total scale (cap cfg)
                     (Z.of_nat (length rows)) (Zsum (matched_tokens <$> rows))
                     (if carry_periods cfg =? 0 then None else Some (fresh, fsub total fresh, carried_out, carry_periods cfg))
                     (match env_pay_k cfg with None => None | Some _ => Some (sorted_items scales) end)
                     (if 0 <? down_s then Some (down_s, fdiv down_s (of_int PERIOD_SECONDS), fsum (values fill)) else None) in
        match archives l2 !! period with
        | Some _ => Raise IntegrityError
        | None => Ok (out ++ [doc], settle_rows period (set_archives (<[period := (doc, unattempted)]> (archives l2)) l2))
        end
    end.

(** [_due_periods] *)
Definition due_periods (closed : Z) (outs : list (float * float)) (l : ledger) : list Z :=
  let owing := (fun ka => acc_period ka.2) <$> filter (fun ka => acc_status ka.2 = accrued /\ acc_period ka.2 <= closed)
                 (map_to_list (accruals l)) in
  let down := mjoin ((fun o => let first := after_last l (period_of o.1 (genesis cfg)) in
                               seqZ first (Z.min (period_of o.2 (genesis cfg)) closed + 1 - first)) <$> outs) in
  let due := owing ++ down in
  let carrying :=
    if negb (carry_periods cfg =? 0) && negb (bool_decide (carry l = ∅)) then
      let starts := due ++ match last_period l with Some last => [last + 1] | None => [] end in
      let first := match starts with [] => closed | p :: ps => foldr Z.min p ps end in
      seqZ first (closed + 1 - first)
    else [] in
  sort_Z (remove_dups (due ++ carrying)).

Definition settle (now clock : float) : method ledger (list archive_doc) := fun l =>
  let slack := if outage_fill cfg then Z.max (slack_s cfg) (outage_grace_s cfg) else slack_s cfg in
  let closed := closed_through now None (genesis cfg) slack in
  let outs := outages now l in
  match foldl (settle_period now clock outs) (Ok ([], l)) (due_periods closed outs l) with
  | Ok (out, l') => (Ok out, l')
  | Raise e => (Raise e, l)
  end.

(** ** The trainer's heartbeat *)

Definition trainer_beat (now : float) (l : ledger) : ledger :=
  if outage_fill cfg then
    let recent := match beat_at l with Some b => (0 <=? fsub now b) && (fsub now b <? BEAT_EVERY_S) | None => false end in
    if recent then l
    else
      let log := outages_log l ++ match beat l with
                                  | Some last => if outage_grace_s cfg <? fsub now last then [(last, now)] else []
                                  | None => []
                                  end in
      Ledger (pay_cursor l) (accruals l) (bans l) (carry l) (archives l)
        (Some (match beat l with Some last => Z.max last now | None => now end))
        (filter (fun o => ~ o.2 < fsub now OUTAGE_KEEP_S) log) (Some now)
  else l.

(** ** Publication *)

Definition unpublished (l : ledger) : list archive_doc :=
  (fun r => r.2.1) <$> filter (fun r => match r.2.2 with confirmed => false | _ => true end = true)
    (by_seq (map_to_list (archives l))).

Definition set_entry (e : Z) (d : archive_doc) : archive_doc :=
  ArchiveDoc (work_period d) e (doc_rewards d) (doc_accrued d) (accrued_total d) (doc_scale d) (doc_cap d) (doc_groups d)
    (doc_tokens d) (doc_carry d) (doc_env_scale d) (doc_outage d).

(** The transaction before the write of an archive nobody holds: its identity is
    committed, moved to a later entry only if it was never attempted; [None] when
    it is confirmed already. *)
Definition publish_prepare (now : float) (work : Z) (l : ledger) : result (option archive_doc * ledger) :=
  match archives l !! work with
  | None => Raise TypeError
  | Some (_, confirmed) => Ok (None, l)
  | Some (d, state) =>
      let due := period_of now (genesis cfg) + 1 in
      let others := (fun r => doc_entry r.2.1) <$> filter (fun r => r.1 <> work) (map_to_list (archives l)) in
      match (match state with unattempted => doc_entry d <? due | _ => false end), entry_for due others [] CATCHUP_ENTRIES with
      | true, None => Raise RuntimeError
      | true, Some e => Ok (Some (set_entry e d), set_archives (<[work := (set_entry e d, unconfirmed)]> (archives l)) l)
      | false, _ => Ok (Some d, set_archives (<[work := (d, unconfirmed)]> (archives l)) l)
      end
  end.

Definition publish_confirm (work : Z) (l : ledger) : ledger :=
  set_archives (alter (fun r => (r.1, confirmed)) work (archives l)) l.

(** The bucket ([read_period_archive], [write_period_archive]) is external: a read,
    and a write that may raise and leave anything.  [refuse] is the guard's answer
    for the task. *)
Context {bucket : Type} (get : bucket -> Z * Z -> option archive_doc).
Context (put : bucket -> Z * Z -> archive_doc -> result unit * bucket) (refuse : option exn).

(** [R2PeriodArchives.write] *)
Definition archives_write (d : archive_doc) : method bucket unit := fun b =>
  match refuse with
  | Some e => (Raise e, b)
  | None =>
      match get b (work_period d, doc_entry d) with
      | Some existing => (if decide (existing = d) then Ok tt else Raise RuntimeError, b)
      | None => put b (work_period d, doc_entry d) d
      end
  end.

(** One turn of [publish]'s loop: whether it counts as written. *)
Definition publish_one (now : float) (d : archive_doc) : method (bucket * ledger) bool := fun '(b, l) =>
  match get b (work_period d, doc_entry d) with
  | Some existing =>
      if decide (existing = d) then (Ok true, (b, publish_confirm (work_period d) l)) else (Raise RuntimeError, (b, l))
  | None =>
      match publish_prepare now (work_period d) l with
      | Raise e => (Raise e, (b, l))
      | Ok (None, l1) => (Ok false, (b, l1))
      | Ok (Some d1, l1) =>
          match archives_write d1 b with
          | (Raise e, b1) => (Raise e, (b1, l1))
          | (Ok _, b1) => (Ok true, (b1, publish_confirm (work_period d1) l1))
          end
      end
  end.

Fixpoint publish_all (now : float) (docs : list archive_doc) (written : Z) : method (bucket * ledger) Z := fun st =>
  match docs with
  | [] => (Ok written, st)
  | d :: docs' =>
      match publish_one now d st with
      | (Raise e, st1) => (Raise e, st1)
      | (Ok w, st1) => publish_all now docs' (if w then written + 1 else written) st1
      end
  end.

Definition publish (now : float) : method (bucket * ledger) Z := fun st => publish_all now (unpublished st.2) 0 st.
End ledger.

(** ** What a period pays *)

Lemma Zsum_filter_le (l : list (string * float)) : (forall x, x ∈ l -> 0 <= x.2) ->
  Zsum (filter (fun ha => 0 < ha.2) l).*2 <= Zsum l.*2.
Proof.
  induction l as [|x l IH]; intros Hl; [done|]. rewrite filter_cons. pose proof (Hl x ltac:(constructor)).
  specialize (IH ltac:(intros; apply Hl; by constructor)). unfold Zsum in *. case_decide; cbn in *; lia.
Qed.

Lemma scaled_sum (s : float) (l : list (string * float)) : 0 <= s -> (forall x, x ∈ l -> 0 <= x.2) ->
  Zsum ((fun ha => (ha.1, fmul ha.2 s)) <$> l).*2 * fone * 2 ^ 53 <=
  Zsum l.*2 * s * (2 ^ 53 + 1) + Z.of_nat (length l) * fone * 2 ^ 52.
Proof.
  intros Hs. induction l as [|x l IH]; intros Hl; [done|]. specialize (IH ltac:(intros; apply Hl; by constructor)).
  pose proof (Hl x ltac:(constructor)) as Hx. pose proof fone_pos as Hf.
  pose proof (fround_err (x.2 * s) fone ltac:(nia) Hf) as He. change (fround (x.2 * s) fone) with (fmul x.2 s) in He.
  rewrite !fmap_cons in *. unfold Zsum in *. cbn [foldr snd length]. nia.
Qed.

Lemma values_elem (m : gmap string float) x : x ∈ values m <-> exists k, m !! k = Some x.
Proof.
  unfold values. rewrite list_elem_of_fmap. split.
  - intros ([k y] & -> & Hk%elem_of_map_to_list). eauto.
  - intros [k Hk]. exists (k, x). split; [done|]. by apply elem_of_map_to_list.
Qed.

Lemma sorted_items_perm (m : gmap string float) : sorted_items m ≡ₚ map_to_list m.
Proof. apply isort_perm. Qed.

Lemma Zsum_elem_nonneg (l : list Z) : (forall x, x ∈ l -> 0 <= x) -> 0 <= Zsum l.
Proof. intros Hl. apply Zsum_nonneg, Forall_forall. exact Hl. Qed.

(** The sum of the rewards exceeds the cap by rounding only: one part in 2^50, and
    2^-1074 for each hotkey and for each unit of the total. *)
Definition within_cap (c : float) (rewards : list (string * float)) (total : float) : Prop :=
  Zsum rewards.*2 * 2 ^ 50 * fone <= (c * (2 ^ 50 + 1) + Z.of_nat (length rewards) * 2 ^ 50) * fone + total * 2 ^ 50.

Lemma cap_arith (c f t s S R n : Z) : 0 < f -> 0 < c -> 0 <= S -> 0 <= n -> 0 < t ->
  S * (2 ^ 53 - 1) <= t * 2 ^ 53 ->
  s * t * 2 ^ 53 <= c * f * (2 ^ 53 + 1) + t * 2 ^ 52 -> 0 <= s ->
  R * f * 2 ^ 53 <= S * s * (2 ^ 53 + 1) + n * f * 2 ^ 52 ->
  R * 2 ^ 50 * f <= (c * (2 ^ 50 + 1) + n * 2 ^ 50) * f + t * 2 ^ 50.
Proof.
  intros Hf Hc HS Hn Ht H1 H2 Hs H3.
  assert (S * s * (2 ^ 53 - 1) <= c * f * (2 ^ 53 + 1) + t * 2 ^ 52) as H4.
  { assert (S * (2 ^ 53 - 1) * s <= t * 2 ^ 53 * s) by (apply Z.mul_le_mono_nonneg_r; lia). lia. }
  set (X := R * f) in *. set (Y := S * s) in *. set (C := c * f) in *. set (N := n * f) in *.
  assert (0 <= C) by (unfold C; nia). assert (0 <= N) by (unfold N; nia).
  replace (R * 2 ^ 50 * f) with (X * 2 ^ 50) by (unfold X; ring).
  replace ((c * (2 ^ 50 + 1) + n * 2 ^ 50) * f + t * 2 ^ 50) with (C * (2 ^ 50 + 1) + N * 2 ^ 50 + t * 2 ^ 50) by (unfold C, N; ring).
  clearbody X Y C N. lia.
Qed.

Lemma rewards_within_cap (cfg : ledger_config) (due : gmap string float) :
  0 < cap cfg -> (forall h x, due !! h = Some x -> 0 <= x /\ representable x) ->
  within_cap (cap cfg) (rewards_of due (scale_of cfg (fsum (values due)))) (fsum (values due)).
Proof.
  intros Hcap Hdue. unfold within_cap, rewards_of. set (items := filter _ (sorted_items due)).
  assert (forall x, x ∈ items -> 0 <= x.2 /\ representable x.2) as Hitems.
  { intros [h x] [Hpos Hin]%list_elem_of_filter. rewrite sorted_items_perm in Hin. apply elem_of_map_to_list in Hin. cbn in *.
    split; [lia|]. by eapply Hdue. }
  assert (Zsum items.*2 <= Zsum (values due)) as Hsum.
  { unfold items, values. rewrite Zsum_filter_le; [by rewrite sorted_items_perm|].
    intros [h x] Hin. rewrite sorted_items_perm in Hin. apply elem_of_map_to_list in Hin. by eapply Hdue. }
  assert (0 <= Zsum items.*2) as HS0.
  { apply Zsum_elem_nonneg. intros x ([h y] & -> & Hin)%list_elem_of_fmap. by apply (Hitems (h, y)). }
  set (S := Zsum (values due)) in *. assert (fsum (values due) = fround S 1) as -> by done. set (t := fround S 1).
  pose proof (fround_int_err S ltac:(lia)) as Ht. fold t in Ht. assert (0 <= t) as Ht0 by lia. pose proof fone_pos as Hf.
  unfold scale_of. destruct (Z.leb_spec t (cap cfg)) as [Hle|Hgt]; rewrite length_fmap.
  - assert ((fun ha : string * float => (ha.1, fmul ha.2 fone)) <$> items = items) as ->.
    { rewrite <- (list_fmap_id items) at 2. apply list_fmap_ext. intros i [h x] Hi%list_elem_of_lookup_2. cbn. f_equal.
      apply fmul_one. by apply (Hitems (h, x)). }
    set (A := Zsum items.*2) in *. assert (0 <= Z.of_nat (length items)) as Hn by lia.
    assert (A * 2 ^ 50 <= cap cfg * (2 ^ 50 + 1)) as HA by lia. nia.
  - set (s := fdiv (cap cfg) t). assert (0 <= s) as Hs by (apply fdiv_nonneg; lia).
    eapply (cap_arith (cap cfg) fone t s (Zsum items.*2)); try lia.
    + pose proof (fround_err (cap cfg * fone) t ltac:(nia) ltac:(lia)) as He.
      assert (fround (cap cfg * fone) t = s) as E.
      { unfold s, fdiv. rewrite Z.sgn_pos, Z.abs_eq, Z.mul_1_r by lia. done. }
      rewrite E in He. lia.
    + apply (scaled_sum s items Hs). intros x Hx. by apply Hitems.
Qed.

(** ** Amounts are non-negative *)

Definition nonneg (m : gmap string float) : Prop := forall h x, m !! h = Some x -> 0 <= x /\ representable x.

Lemma nonneg_empty : nonneg ∅.
Proof. intros h x. by rewrite lookup_empty. Qed.

Lemma add_to_nonneg m h x : nonneg m -> 0 <= x -> nonneg (add_to m h x).
Proof.
  intros Hm Hx h' y. unfold add_to. rewrite lookup_insert. case_decide as Hh; [|apply Hm]. intros [= <-].
  split; [|apply fadd_representable]. apply fadd_nonneg; [|done]. destruct (m !! h) as [z|] eqn:E; cbn; [|lia]. by apply (Hm h).
Qed.

Lemma fold_add_nonneg {B} (key : B -> string) (val : B -> float) (l : list B) m :
  nonneg m -> (forall b, b ∈ l -> 0 <= val b) -> nonneg (foldl (fun m b => add_to m (key b) (val b)) m l).
Proof.
  revert m. induction l as [|b l IH]; intros m Hm Hl; [done|]. cbn. apply IH; [|intros; apply Hl; by constructor].
  apply add_to_nonneg; [done|]. apply Hl. constructor.
Qed.

Lemma fsum_nonneg (l : list float) : (forall x, x ∈ l -> 0 <= x) -> 0 <= fsum l.
Proof.
  intros Hl. unfold fsum. pose proof (Zsum_elem_nonneg l Hl). apply fround_ge; [lia|apply representable_0|lia].
Qed.

(** ** The invariant *)

Definition entries (l : ledger) : list Z := (fun r => doc_entry r.2.1) <$> map_to_list (archives l).

Record ledger_ok (cfg : ledger_config) (l : ledger) : Prop := {
  ok_rows : forall s a, accruals l !! s = Some a -> 0 <= amount a /\ 0 <= matched_tokens a /\ s <= pay_cursor l;
  ok_carry : forall k x, carry l !! k = Some x -> 0 <= x;
  ok_docs : forall p d st, archives l !! p = Some (d, st) ->
    work_period d = p /\ within_cap (cap cfg) (doc_rewards d) (accrued_total d) /\ forall x, x ∈ doc_rewards d -> 0 <= x.2;
  ok_open : forall s a p, accruals l !! s = Some a -> acc_status a = accrued -> is_Some (archives l !! p) -> p < acc_period a;
  ok_settled : forall s a, accruals l !! s = Some a -> acc_status a = settled -> is_Some (archives l !! acc_period a);
  ok_entries : forall e, count_in e (entries l) <= CATCHUP_ENTRIES;
}.

Lemma new_ledger_ok cfg : ledger_ok cfg new_ledger.
Proof.
  split; cbn; try (intros *; rewrite lookup_empty; done). intros e. discriminate.
Qed.

(** *** Rounding down what is carried *)

Lemma keep_range cut held : 0 <= held -> cut <= held -> 0 <= (if 0 <? held then fsub fone (fdiv cut held) else 0).
Proof.
  intros Hh Hc. destruct (Z.ltb_spec 0 held); [|lia]. pose proof (fdiv_le_one cut held ltac:(lia) Hc).
  unfold fsub. apply fround_ge; [lia|apply representable_0|lia].
Qed.

Lemma burn_oldest_nonneg origins excess parts :
  (forall k x, parts !! k = Some x -> 0 <= x) -> forall k x, burn_oldest origins excess parts !! k = Some x -> 0 <= x.
Proof.
  revert excess parts. induction origins as [|o origins IH]; intros excess parts Hp; [exact Hp|]. cbn [burn_oldest].
  destruct (Z.leb_spec excess 0); [exact Hp|]. cbv zeta. apply IH. intros k x. rewrite map_lookup_imap.
  destruct (parts !! k) as [y|] eqn:E; [|done]. cbn. intros [= <-]. pose proof (Hp k y E).
  destruct (k.2 =? o); [|done]. apply fmul_nonneg; [done|]. apply keep_range; [|lia].
  apply fsum_nonneg. intros z Hz. unfold parts_at in Hz. apply list_elem_of_fmap in Hz as ([k' z'] & -> & Hin).
  apply list_elem_of_filter in Hin as [_ Hin]. apply elem_of_map_to_list in Hin. by eapply Hp.
Qed.

Lemma fold_parts_nonneg {B} (key : B -> string * Z) (val : B -> float) (l : list B) (m : gmap (string * Z) float) :
  (forall k x, m !! k = Some x -> 0 <= x) -> (forall b, b ∈ l -> 0 <= val b) ->
  forall k x, foldl (fun m b => <[key b := fadd (default 0 (m !! key b)) (val b)]> m) m l !! k = Some x -> 0 <= x.
Proof.
  revert m. induction l as [|b l IH]; intros m Hm Hl; [exact Hm|]. cbn. apply IH; [|intros; apply Hl; by constructor].
  intros k x. rewrite lookup_insert. case_decide as Hk; [|apply Hm]. intros [= <-]. apply fadd_nonneg; [|apply Hl; constructor].
  destruct (m !! key b) as [y|] eqn:E; cbn; [|lia]. by eapply Hm.
Qed.

Section settle.
Context (cfg : ledger_config) (targets : gmap string float).
Context (Hcfg : valid_config cfg = true) (Htargets : forall e x, targets !! e = Some x -> 0 <= x).

Lemma cfg_cap : 0 < cap cfg.
Proof. unfold valid_config in Hcfg. repeat (apply andb_true_iff in Hcfg as [Hcfg _]). by apply Z.ltb_lt. Qed.

Lemma env_scale_nonneg rows e x : (forall a, a ∈ rows -> 0 <= amount a) -> env_scale cfg targets rows !! e = Some x -> 0 <= x.
Proof.
  intros Hrows. unfold env_scale. destruct (env_pay_k cfg) as [k|] eqn:Ek; [|by rewrite lookup_empty].
  assert (0 < k) as Hk.
  { pose proof Hcfg as Hc. unfold valid_config in Hc. rewrite Ek in Hc. repeat (apply andb_true_iff in Hc as [Hc ?H]).
    by apply Z.ltb_lt. }
  rewrite map_lookup_imap. pose proof (fold_add_nonneg acc_env amount rows ∅ nonneg_empty Hrows) as Hnn.
  destruct (foldl _ ∅ rows !! e) as [t|] eqn:Et; [|done]. cbn. intros [= <-]. pose proof fone_pos.
  destruct (t <=? _); [lia|]. destruct (Z.ltb_spec 0 t); [|lia]. apply fdiv_nonneg; [|lia].
  apply fmul_nonneg; [|pose proof cfg_cap; lia]. apply fmul_nonneg; [lia|]. destruct (targets !! e) eqn:E; cbn; [|lia]. by eapply Htargets.
Qed.

Lemma scaled_nonneg rows a : (forall a, a ∈ rows -> 0 <= amount a) -> a ∈ rows -> 0 <= scaled (env_scale cfg targets rows) a.
Proof.
  intros Hrows Ha. unfold scaled. apply fmul_nonneg; [by apply Hrows|]. pose proof fone_pos.
  destruct (env_scale cfg targets rows !! acc_env a) as [x|] eqn:E; cbn; [|lia]. by eapply env_scale_nonneg.
Qed.

Lemma due_rows_elem period l a : a ∈ due_rows period l <->
  exists s, accruals l !! s = Some a /\ acc_status a = accrued /\ acc_period a = period.
Proof.
  unfold due_rows, by_seq. rewrite list_elem_of_fmap. split.
  - intros ([s b] & -> & Hin). rewrite elem_of_isort, list_elem_of_filter, elem_of_map_to_list in Hin. cbn in *. naive_solver.
  - intros (s & Hs & H1 & H2). exists (s, a). split; [done|].
    rewrite elem_of_isort, list_elem_of_filter, elem_of_map_to_list. done.
Qed.

Lemma pending_carry_nonneg period now l r : ledger_ok cfg l -> r ∈ pending_carry cfg period now l -> 0 <= r.2.
Proof.
  intros Hok Hr. unfold pending_carry in Hr. apply list_elem_of_fmap in Hr as ([o [h x]] & -> & Hin). cbn.
  apply list_elem_of_filter in Hin as [_ Hin]. unfold by_seq in Hin.
  rewrite elem_of_isort in Hin. apply list_elem_of_fmap in Hin as ([[h' o'] x'] & E & Hin). injection E as -> -> ->.
  apply list_elem_of_filter in Hin as [_ Hin]. apply elem_of_map_to_list in Hin. by eapply (ok_carry cfg l Hok).
Qed.

Lemma fill_nonneg fraction now l h x : fill_of fraction now l !! h = Some x -> 0 <= x.
Proof.
  unfold fill_of. destruct (reference_docs l); [by rewrite lookup_empty|]. intros Hx.
  apply map_lookup_filter_Some in Hx as [_ [Hx _]]. cbn in Hx. lia.
Qed.

(** What the hotkeys are due in a period. *)
Lemma due_nonneg period clock l (fill : gmap string float) : ledger_ok cfg l ->
  (forall h x, fill !! h = Some x -> 0 <= x) ->
  nonneg (with_fill fill (with_carry (pending_carry cfg period clock l)
    (accrued_of (due_rows period l) (env_scale cfg targets (due_rows period l))))).
Proof.
  intros Hok Hfill. assert (forall a, a ∈ due_rows period l -> 0 <= amount a) as Hrows.
  { intros a (s & Hs & _)%due_rows_elem. by apply (ok_rows cfg l Hok s a Hs). }
  unfold with_fill, with_carry, accrued_of.
  apply (fold_add_nonneg fst snd); [|intros [h x] Hin%elem_of_map_to_list; by eapply Hfill].
  apply (fold_add_nonneg (fun h => h) (fun h => fsum (parts_of h (pending_carry cfg period clock l)))).
  - apply (fold_add_nonneg acc_hotkey (scaled (env_scale cfg targets (due_rows period l)))); [apply nonneg_empty|].
    intros a Ha. by apply scaled_nonneg.
  - intros h _. apply fsum_nonneg. intros x Hx. unfold parts_of in Hx. apply list_elem_of_fmap in Hx as (r & -> & Hin).
    apply list_elem_of_filter in Hin as [_ Hin]. by eapply pending_carry_nonneg.
Qed.

Lemma carry_over_frame period rows scales carried unpaid l :
  let l' := (carry_over cfg period rows scales carried unpaid l).2 in
  accruals l' = accruals l /\ archives l' = archives l /\ pay_cursor l' = pay_cursor l.
Proof. unfold carry_over. by destruct (carry_periods cfg =? 0). Qed.

Lemma carry_over_nonneg period rows carried unpaid l :
  let scales := env_scale cfg targets rows in
  (forall a, a ∈ rows -> 0 <= amount a) -> (forall r, r ∈ carried -> 0 <= r.2) -> 0 <= unpaid ->
  (forall k x, carry l !! k = Some x -> 0 <= x) ->
  forall k x, carry (carry_over cfg period rows scales carried unpaid l).2 !! k = Some x -> 0 <= x.
Proof.
  intros scales Hrows Hcar Hun Hl k x. unfold carry_over. destruct (carry_periods cfg =? 0); [apply Hl|]. cbn [snd carry set_carry].
  set (parts := carry_parts _ _ _ _ _). assert (forall k x, parts !! k = Some x -> 0 <= x) as Hparts.
  { unfold parts, carry_parts. cbv zeta.
    apply (fold_parts_nonneg (fun r : string * Z * float => (r.1.1, r.1.2)) (fun r => fmul r.2 unpaid)).
    - apply (fold_parts_nonneg (fun a => (acc_hotkey a, period)) (fun a => fmul (scaled scales a) unpaid)).
      + intros k' y. by rewrite lookup_empty.
      + intros a Ha. apply fmul_nonneg; [by apply scaled_nonneg|done].
    - intros r Hr. apply fmul_nonneg; [by apply Hcar|done]. }
  set (kept := burn_oldest _ _ _). rewrite lookup_union_with.
  destruct (carry l !! k) as [y|] eqn:Ey, (filter (fun ka => 0 < ka.2) kept !! k) as [z|] eqn:Ez; cbn; [| | |done]; intros [= <-].
  - apply map_lookup_filter_Some in Ez as [_ Ez]. cbn in Ez. apply fadd_nonneg; [by eapply Hl|lia].
  - by eapply Hl.
  - apply map_lookup_filter_Some in Ez as [_ Ez]. cbn in Ez. lia.
Qed.
End settle.

(** *** The loop over the due periods *)

Definition is_new_settled (a a' : accrual) : Prop := acc_status a = accrued /\ a' = set_status settled a.

(** Rows are kept, and only their status moves, from accrued to settled. *)
Definition rows_settle (m m' : gmap Z accrual) : Prop :=
  forall s, match m !! s, m' !! s with
            | Some a, Some a' => a' = a \/ is_new_settled a a'
            | None, None => True
            | _, _ => False
            end.

Lemma rows_settle_refl m : rows_settle m m.
Proof. intros s. destruct (m !! s); auto. Qed.

Lemma rows_settle_trans m1 m2 m3 : rows_settle m1 m2 -> rows_settle m2 m3 -> rows_settle m1 m3.
Proof.
  intros H1 H2 s. specialize (H1 s). specialize (H2 s). destruct (m1 !! s) as [a|], (m2 !! s) as [b|], (m3 !! s) as [c|]; try done.
  destruct H1 as [->|[Ha ->]]; [done|]. destruct H2 as [->|[Hb _]]; [by right|done].
Qed.

Record loop_inv (cfg : ledger_config) (closed : Z) (todo : list Z) (l : ledger) : Prop := {
  inv_ok : ledger_ok cfg l;
  inv_sorted : StronglySorted Z.lt todo;
  inv_ahead : forall q p, is_Some (archives l !! q) -> p ∈ todo -> q < p;
  inv_closed : forall p, p ∈ todo -> p <= closed;
  inv_owing : forall s a, accruals l !! s = Some a -> acc_status a = accrued -> acc_period a ∈ todo \/ closed < acc_period a;
}.

(** What a run of the loop has done to the ledger. *)
Record settled_by (l l' : ledger) (docs : list archive_doc) : Prop := {
  sb_rows : rows_settle (accruals l) (accruals l');
  sb_kept : forall p r, archives l !! p = Some r -> archives l' !! p = Some r;
  sb_new : forall p r, archives l' !! p = Some r -> archives l !! p = Some r \/ (r.1 ∈ docs /\ r.2 = unattempted);
  sb_docs : forall d, d ∈ docs -> archives l' !! work_period d = Some (d, unattempted) /\ archives l !! work_period d = None;
  sb_cursor : pay_cursor l' = pay_cursor l;
}.

Lemma settled_by_refl l : settled_by l l [].
Proof. split; [apply rows_settle_refl|done|by left|intros d Hd; by apply not_elem_of_nil in Hd|done]. Qed.

Lemma settled_by_trans l1 l2 l3 ds es : settled_by l1 l2 ds -> settled_by l2 l3 es -> settled_by l1 l3 (ds ++ es).
Proof.
  intros [A1 A2 A3 A4 A5] [B1 B2 B3 B4 B5]. split.
  - by eapply rows_settle_trans.
  - intros p r Hr. by apply B2, A2.
  - intros p r Hr. apply B3 in Hr as [Hr|[Hr Hu]]; [apply A3 in Hr as [Hr|[Hr Hu]]; [by left|]|];
      (right; split; [|done]; apply elem_of_app; auto).
  - intros d [Hd|Hd]%elem_of_app.
    + destruct (A4 d Hd) as [H1 H2]. split; [by apply B2|done].
    + destruct (B4 d Hd) as [H1 H2]. split; [done|]. destruct (archives l1 !! work_period d) as [r|] eqn:E; [|done].
      rewrite (A2 _ _ E) in H2. done.
  - congruence.
Qed.

Lemma settle_rows_lookup period l s :
  accruals (settle_rows period l) !! s =
  (fun a => if bool_decide (acc_status a = accrued /\ acc_period a = period) then set_status settled a else a) <$> accruals l !! s.
Proof. cbn. apply lookup_fmap. Qed.

(** Archiving a period: the row of the archive, and its rows settled. *)
Lemma archive_period_ok cfg closed period todo l l' doc :
  loop_inv cfg closed (period :: todo) l ->
  accruals l' = accruals l -> archives l' = archives l -> pay_cursor l' = pay_cursor l ->
  (forall k x, carry l' !! k = Some x -> 0 <= x) ->
  work_period doc = period -> within_cap (cap cfg) (doc_rewards doc) (accrued_total doc) ->
  (forall x, x ∈ doc_rewards doc -> 0 <= x.2) -> count_in (doc_entry doc) (entries l) < CATCHUP_ENTRIES ->
  let l2 := settle_rows period (set_archives (<[period := (doc, unattempted)]> (archives l')) l') in
  loop_inv cfg closed todo l2 /\ settled_by l l2 [doc].
Proof.
  intros [Hok Hsort Hahead Hclosed Howing] Eacc Earch Ecur Hcarry Hwork Hcap Hpos Hentry l2. destruct Hok as [H1 H2 H3 H4 H5 H6].
  assert (archives l !! period = None) as Hnone.
  { destruct (archives l !! period) eqn:E; [|done]. pose proof (Hahead period period ltac:(eauto) ltac:(constructor)). lia. }
  assert (archives l2 = <[period := (doc, unattempted)]> (archives l)) as Earch2 by (unfold l2; cbn; by rewrite Earch).
  assert (forall s a', accruals l2 !! s = Some a' -> exists a, accruals l !! s = Some a /\
    a' = if bool_decide (acc_status a = accrued /\ acc_period a = period) then set_status settled a else a) as Hrow.
  { intros s a' Ha. unfold l2 in Ha. rewrite settle_rows_lookup in Ha. cbn in Ha. rewrite Eacc in Ha.
    destruct (accruals l !! s) as [a|]; [|done]. injection Ha as <-. eauto. }
  apply StronglySorted_inv in Hsort as [Hsort Hall]. rewrite Forall_forall in Hall.
  split; [split; [split|done| | |]|split].
  - intros s a' (a & Ha & ->)%Hrow. specialize (H1 s a Ha). change (pay_cursor l2) with (pay_cursor l'). rewrite Ecur.
    by destruct (bool_decide _).
  - exact Hcarry.
  - intros p d st. rewrite Earch2, lookup_insert. case_decide as Hp; [|apply H3]. intros [= <- <-]. by subst.
  - intros s a' p (a & Ha & ->)%Hrow Hst Hp. rewrite Earch2 in Hp. case_bool_decide as Hb; [done|].
    destruct (decide (p = period)) as [->|Hne]; [|rewrite lookup_insert_ne in Hp by done; by eapply H4].
    destruct (Howing s a Ha Hst) as [[Hin|Hin]%elem_of_cons|Hgt]; [by destruct Hb|by apply Hall in Hin|].
    pose proof (Hclosed period ltac:(constructor)). lia.
  - intros s a' (a & Ha & ->)%Hrow Hst. rewrite Earch2. case_bool_decide as Hb.
    + cbn. destruct Hb as [_ ->]. by rewrite lookup_insert_eq.
    + pose proof (H5 s a Ha Hst) as Hs. destruct (decide (acc_period a = period)) as [->|]; [by rewrite lookup_insert_eq|].
      by rewrite lookup_insert_ne.
  - intros e. unfold entries. rewrite Earch2.
    assert ((fun r : Z * (archive_doc * publication) => doc_entry r.2.1) <$> map_to_list (<[period:=(doc, unattempted)]> (archives l))
            ≡ₚ entries l ++ [doc_entry doc]) as Hp.
    { rewrite map_to_list_insert by done. cbn. apply Permutation_cons_append. }
    unfold count_in. rewrite Hp. change (count_in e (entries l ++ [doc_entry doc]) <= CATCHUP_ENTRIES). rewrite count_in_snoc.
    specialize (H6 e). case_decide as He; [subst e; lia|lia].
  - intros q p Hq Hp. rewrite Earch2 in Hq. destruct (decide (q = period)) as [->|]; [by apply Hall|].
    rewrite lookup_insert_ne in Hq by done. apply Hahead; [done|by constructor].
  - intros p Hp. apply Hclosed. by constructor.
  - intros s a' (a & Ha & ->)%Hrow Hst. case_bool_decide as Hb; [done|].
    destruct (Howing s a Ha Hst) as [[Hin|Hin]%elem_of_cons|Hgt]; [by destruct Hb|by left|by right].
  - intros s. unfold l2. rewrite settle_rows_lookup. cbn. rewrite Eacc. destruct (accruals l !! s) as [a|]; [|done]. cbn.
    case_bool_decide as Hb; [|by left]. right. split; [apply Hb|done].
  - intros p r Hr. rewrite Earch2, lookup_insert_ne; [done|]. intros ->. congruence.
  - intros p r. rewrite Earch2, lookup_insert. case_decide; [|by left]. intros [= <-]. right. split; [constructor|done].
  - intros d ->%list_elem_of_singleton. rewrite Earch2, Hwork, lookup_insert_eq. done.
  - exact Ecur.
Qed.

Section settle_loop.
Context (cfg : ledger_config) (targets : gmap string float).
Context (Hcfg : valid_config cfg = true) (Htargets : forall e x, targets !! e = Some x -> 0 <= x).

Lemma scale_range total : 0 <= total -> 0 <= scale_of cfg total <= fone.
Proof.
  intros Ht. pose proof fone_pos. pose proof (cfg_cap cfg Hcfg). unfold scale_of. destruct (Z.leb_spec total (cap cfg)); [lia|].
  split; [apply fdiv_nonneg; lia|apply fdiv_le_one; lia].
Qed.

Lemma fsub_one_nonneg s : s <= fone -> 0 <= fsub fone s.
Proof. intros Hs. unfold fsub. apply fround_ge; [lia|apply representable_0|lia]. Qed.

Lemma settle_period_ok now clock outs out closed period todo l :
  loop_inv cfg closed (period :: todo) l ->
  exists docs l', settle_period cfg targets now clock outs (Ok (out, l)) period = Ok (out ++ docs, l') /\
    loop_inv cfg closed todo l' /\ settled_by l l' docs.
Proof.
  intros Hinv. pose proof (inv_ok _ _ _ _ Hinv) as Hok. unfold settle_period. cbn [mbind result_bind].
  set (rows := due_rows period l). set (scales := env_scale cfg targets rows). set (carried := pending_carry cfg period clock l).
  set (l1 := drop_carry period l). set (down_s := outage_seconds cfg period outs).
  set (fill := if 0 <? down_s then _ else ∅).
  assert (forall a, a ∈ rows -> 0 <= amount a) as Hrows by (intros a (s & Hs & _)%due_rows_elem; by apply (ok_rows cfg l Hok s a Hs)).
  assert (forall k x, carry l1 !! k = Some x -> 0 <= x) as Hcarry1.
  { intros k x Hx. cbn in Hx. apply map_lookup_filter_Some in Hx as [Hx _]. by eapply (ok_carry cfg l Hok). }
  destruct (bool_decide (rows = []) && _ && _) eqn:Eskip.
  { apply andb_true_iff in Eskip as [[Er%bool_decide_eq_true _]%andb_true_iff _]. exists [], l1. rewrite app_nil_r.
    split_and!; [done| |].
    - destruct Hinv as [[H1 H2 H3 H4 H5 H6] Hsort Hahead Hclosed Howing].
      apply StronglySorted_inv in Hsort as [Hsort Hall]. split; [by split|done| | |].
      + intros q p Hq Hp. apply Hahead; [done|by constructor].
      + intros p Hp. apply Hclosed. by constructor.
      + intros s a Ha Hst. destruct (Howing s a Ha Hst) as [[Hin|Hin]%elem_of_cons|Hgt]; [|by left|by right].
        assert (a ∈ rows) as Hin' by (apply due_rows_elem; eauto). rewrite Er in Hin'. by apply not_elem_of_nil in Hin'.
    - split; [apply rows_settle_refl|done|by left|intros d Hd; by apply not_elem_of_nil in Hd|done]. }
  set (due := with_fill fill _). set (total := fsum (values due)). set (scale := scale_of cfg total).
  assert (nonneg due) as Hdue.
  { apply (due_nonneg cfg targets Hcfg Htargets period clock l fill Hok). intros h x. unfold fill.
    destruct (0 <? down_s); [apply fill_nonneg|by rewrite lookup_empty]. }
  assert (0 <= total) as Htotal by (apply fsum_nonneg; intros x [h Hh]%values_elem; by eapply Hdue).
  pose proof (scale_range total Htotal) as Hscale. fold scale in Hscale.
  destruct (if scale <? fone then _ else _) as [carried_out l2] eqn:Ec.
  assert (accruals l2 = accruals l /\ archives l2 = archives l /\ pay_cursor l2 = pay_cursor l /\
          forall k x, carry l2 !! k = Some x -> 0 <= x) as (E1 & E2 & E3 & Hcarry2).
  { destruct (scale <? fone).
    - apply (f_equal snd) in Ec. cbn [snd] in Ec. subst l2.
      destruct (carry_over_frame cfg period rows scales carried (fsub fone scale) l1) as (F1 & F2 & F3).
      split_and!; [done|done|done|]. apply (carry_over_nonneg cfg targets Hcfg Htargets); [done| |apply fsub_one_nonneg; lia|done].
      intros r Hr. by eapply pending_carry_nonneg.
    - injection Ec as _ <-. done. }
  destruct (entry_for_spec (period_of now (genesis cfg) + 1) (entries l) [] CATCHUP_ENTRIES) as (entry & Hentry & _ & Hfree & _);
    [unfold CATCHUP_ENTRIES; lia|].
  assert ((fun r : Z * (archive_doc * publication) => doc_entry r.2.1) <$> map_to_list (archives l2) = entries l) as -> by by rewrite E2.
  rewrite Hentry. set (doc := ArchiveDoc _ _ _ _ _ _ _ _ _ _ _ _).
  assert (archives l2 !! period = None) as ->.
  { rewrite E2. destruct (archives l !! period) eqn:E; [|done].
    pose proof (inv_ahead _ _ _ _ Hinv period period ltac:(eauto) ltac:(constructor)). lia. }
  exists [doc]. eexists. split; [done|]. apply (archive_period_ok cfg closed period todo l l2 doc Hinv); try done.
  - apply (rewards_within_cap cfg due (cfg_cap cfg Hcfg) Hdue).
  - intros x Hx. cbn in Hx. unfold rewards_of in Hx. apply list_elem_of_fmap in Hx as (y & -> & Hy). cbn.
    apply list_elem_of_filter in Hy as [Hy _]. apply fmul_nonneg; lia.
  - unfold blocked in Hfree. change (doc_entry doc) with entry. lia.
Qed.

Lemma settle_loop_ok now clock outs closed todo out l :
  loop_inv cfg closed todo l ->
  exists docs l', foldl (settle_period cfg targets now clock outs) (Ok (out, l)) todo = Ok (out ++ docs, l') /\
    loop_inv cfg closed [] l' /\ settled_by l l' docs.
Proof.
  revert out l. induction todo as [|p todo IH]; intros out l Hinv.
  - exists [], l. rewrite app_nil_r. split_and!; [done|done|apply settled_by_refl].
  - cbn [foldl]. destruct (settle_period_ok now clock outs out closed p todo l Hinv) as (ds & l1 & -> & Hinv1 & Hs1).
    destruct (IH (out ++ ds) l1 Hinv1) as (es & l2 & -> & Hinv2 & Hs2). exists (ds ++ es), l2. rewrite app_assoc.
    split_and!; [done|done|by eapply settled_by_trans].
Qed.

(** *** Which periods are due *)

Lemma last_period_spec l : match last_period l with
  | None => forall q, archives l !! q = None
  | Some m => forall q, is_Some (archives l !! q) -> q <= m
  end.
Proof.
  unfold last_period. destruct (map_to_list (archives l)).*1 as [|p ps] eqn:E.
  - intros q. apply eq_None_not_Some. intros [r Hr]. assert (q ∈ (map_to_list (archives l)).*1) as Hin.
    { apply list_elem_of_fmap. exists (q, r). split; [done|]. by apply elem_of_map_to_list. }
    rewrite E in Hin. by apply not_elem_of_nil in Hin.
  - intros q [r Hr]. assert (q ∈ p :: ps) as Hin.
    { rewrite <- E. apply list_elem_of_fmap. exists (q, r). split; [done|]. by apply elem_of_map_to_list. }
    clear E. induction ps as [|x ps IH]; cbn; [apply list_elem_of_singleton in Hin; lia|].
    rewrite !elem_of_cons in Hin. destruct Hin as [->|[->|Hin]]; [|lia|]; [specialize (IH ltac:(constructor))|specialize (IH ltac:(by constructor))]; lia.
Qed.

Lemma after_last_ahead l p q : is_Some (archives l !! q) -> q < after_last l p.
Proof.
  intros Hq. unfold after_last. pose proof (last_period_spec l) as Hl. destruct (last_period l) as [m|].
  - specialize (Hl q Hq). lia.
  - rewrite Hl in Hq. by destruct Hq.
Qed.

Lemma foldr_min_elem p ps : foldr Z.min p ps ∈ p :: ps.
Proof.
  induction ps as [|x ps IH]; cbn; [constructor|]. destruct (Z.min_spec x (foldr Z.min p ps)) as [[_ ->]|[_ ->]]; [set_solver|].
  apply elem_of_cons in IH as [->|]; set_solver.
Qed.

Lemma due_periods_elem closed outs l p : ledger_ok cfg l -> p ∈ due_periods cfg closed outs l ->
  p <= closed /\ forall q, is_Some (archives l !! q) -> q < p.
Proof.
  intros Hok Hp. unfold due_periods in Hp. unfold sort_Z in Hp. rewrite elem_of_isort, elem_of_remove_dups in Hp.
  set (owing := (fun ka : Z * accrual => acc_period ka.2) <$> _) in Hp. set (down := mjoin _) in Hp.
  assert (forall x, x ∈ owing -> x <= closed /\ forall q, is_Some (archives l !! q) -> q < x) as Howing.
  { intros x ([s a] & -> & Hin)%list_elem_of_fmap. apply list_elem_of_filter in Hin as [[Hst Hle] Hin].
    apply elem_of_map_to_list in Hin. split; [done|]. intros q Hq. by eapply (ok_open cfg l Hok). }
  assert (forall x, x ∈ down -> x <= closed /\ forall q, is_Some (archives l !! q) -> q < x) as Hdown.
  { intros x Hx. unfold down in Hx. apply list_elem_of_join in Hx as (k & Hx & Hk). apply list_elem_of_fmap in Hk as (o & -> & _).
    apply elem_of_seqZ in Hx as [Hlo Hhi]. split; [lia|]. intros q Hq.
    pose proof (after_last_ahead l (period_of o.1 (genesis cfg)) q Hq). lia. }
  apply elem_of_app in Hp as [[Hp|Hp]%elem_of_app|Hp]; [by apply Howing|by apply Hdown|].
  destruct (negb (carry_periods cfg =? 0) && _); [|by apply not_elem_of_nil in Hp].
  apply elem_of_seqZ in Hp as [Hlo Hhi]. split; [lia|]. intros q Hq.
  pose proof (last_period_spec l) as Hl. set (starts := (owing ++ down) ++ _) in *.
  assert (forall x, x ∈ starts -> q < x) as Hstarts.
  { intros x [[Hx|Hx]%elem_of_app|Hx]%elem_of_app; [by apply Howing|by apply Hdown|].
    destruct (last_period l) as [m|]; [|by apply not_elem_of_nil in Hx]. apply list_elem_of_singleton in Hx as ->.
    specialize (Hl q Hq). lia. }
  destruct starts as [|x xs] eqn:Es; [|pose proof (Hstarts _ (foldr_min_elem x xs)); lia].
  exfalso. unfold starts in Es. apply app_eq_nil in Es as [_ Es]. destruct (last_period l); [done|]. rewrite Hl in Hq. by destruct Hq.
Qed.

Lemma isort_strict (l : list Z) : NoDup l -> StronglySorted Z.lt (isort Z.leb l).
Proof.
  intros Hnd. assert (NoDup (isort Z.leb l)) as Hnd' by by rewrite isort_perm.
  pose proof (isort_sorted Z.leb ltac:(intros x y; rewrite !Z.leb_le; lia) ltac:(intros x y z; rewrite !Z.leb_le; lia) l) as Hs.
  induction Hs as [|x k Hs IH Hall]; [constructor|]. apply NoDup_cons in Hnd' as [Hx Hnd'].
  constructor; [by apply IH|]. apply Forall_forall. intros y Hy. eapply Forall_forall in Hall as Hle; [|exact Hy].
  apply Z.leb_le in Hle. assert (x <> y) by (intros ->; contradiction). lia.
Qed.

Lemma settle_start closed outs l : ledger_ok cfg l -> loop_inv cfg closed (due_periods cfg closed outs l) l.
Proof.
  intros Hok. split; [done|apply isort_strict, NoDup_remove_dups| | |].
  - intros q p Hq Hp. by apply (due_periods_elem closed outs l p Hok Hp).
  - intros p Hp. by apply (due_periods_elem closed outs l p Hok Hp).
  - intros s a Ha Hst. destruct (Z.le_gt_cases (acc_period a) closed) as [Hle|]; [left|by right].
    unfold due_periods, sort_Z. rewrite elem_of_isort, elem_of_remove_dups. apply elem_of_app. left. apply elem_of_app. left.
    apply list_elem_of_fmap. exists (s, a). split; [done|]. apply list_elem_of_filter. split; [done|]. by apply elem_of_map_to_list.
Qed.
End settle_loop.

Definition closed_of (cfg : ledger_config) (now : float) : Z :=
  closed_through now None (genesis cfg) (if outage_fill cfg then Z.max (slack_s cfg) (outage_grace_s cfg) else slack_s cfg).

Lemma settle_ok cfg targets downtime now clock l :
  valid_config cfg = true -> (forall e x, targets !! e = Some x -> 0 <= x) -> ledger_ok cfg l ->
  exists docs l', settle cfg targets downtime now clock l = (Ok docs, l') /\ ledger_ok cfg l' /\ settled_by l l' docs /\
    forall s a, accruals l' !! s = Some a -> acc_status a = accrued -> closed_of cfg now < acc_period a.
Proof.
  intros Hcfg Ht Hok. unfold settle. fold (closed_of cfg now). set (outs := outages cfg downtime now l).
  assert (loop_inv cfg (closed_of cfg now) (due_periods cfg (closed_of cfg now) outs l) l) as Hstart by by eapply settle_start.
  destruct (settle_loop_ok cfg targets Hcfg Ht now clock outs (closed_of cfg now) _ [] l Hstart)
    as (docs & l' & -> & Hinv & Hs). exists docs, l'. split_and!; [done|apply Hinv|done|].
  intros s a Ha Hst. destruct (inv_owing _ _ _ _ Hinv s a Ha Hst) as [Hin|]; [by apply not_elem_of_nil in Hin|done].
Qed.

(** *** Events *)

(** What the submission path guarantees of an event it emits. *)
Definition good_event (e : event) : Prop :=
  match ev_detail e with
  | Trained _ _ (Some counts) _ => Forall (Z.le 0) counts
  | Trained _ rollout_match None completion_tokens => Forall (Z.le 0) rollout_match /\ Forall (Z.le 0) completion_tokens
  | FirstScan fraction => 0 <= fraction
  | _ => True
  end.

Lemma of_int_nonneg n : 0 <= n -> 0 <= of_int n.
Proof. intros Hn. pose proof (of_int_mono 0 n Hn) as H. by replace (of_int 0) with 0 in H by (symmetry; by apply of_int_exact). Qed.

Lemma zip_counts_nonneg (floor : float) (m : list float) (c : list Z) : Forall (Z.le 0) c ->
  0 <= Zsum (zip_with (fun m c => if floor <=? m then c else 0) m c).
Proof.
  intros Hc. revert m. induction Hc as [|x c Hx Hc IH]; intros [|y m]; cbn; [lia..|]. specialize (IH m). unfold Zsum in *.
  destruct (floor <=? y); lia.
Qed.

Lemma paid_tokens_nonneg e env m c n floor : ev_detail e = Trained env m c n -> good_event e -> 0 <= paid_tokens m c n floor.
Proof.
  intros E Hg. unfold good_event in Hg. rewrite E in Hg. unfold paid_tokens. destruct c as [c|]; apply zip_counts_nonneg; [done|].
  destruct Hg as [Hm Hn]. clear E. revert n Hn. induction Hm as [|x m Hx Hm IH]; intros [|y n] Hn; cbn; [constructor..|].
  apply Forall_cons in Hn as [Hy Hn]. constructor; [|by apply IH]. unfold ffloor. pose proof fone_pos.
  apply Z.div_pos; [|lia]. apply fmul_nonneg; [done|]. by apply of_int_nonneg.
Qed.

Lemma reference_tokens_nonneg cfg env l : valid_config cfg = true -> (forall s a, accruals l !! s = Some a -> 0 <= matched_tokens a) ->
  0 <= reference_tokens cfg env l.
Proof.
  intros Hcfg Hl. unfold reference_tokens. set (rows := take _ _).
  assert (forall ka, ka ∈ rows -> 0 <= matched_tokens ka.2) as Hrows.
  { intros [s a] Hin. unfold rows in Hin. apply elem_of_take in Hin as (i & Hi%list_elem_of_lookup_2 & _).
    apply list_elem_of_In, in_rev, list_elem_of_In in Hi. unfold by_seq in Hi.
    rewrite elem_of_isort, list_elem_of_filter, elem_of_map_to_list in Hi. destruct Hi as [_ Hi]. exact (Hl s a Hi). }
  destruct rows as [|r rows'].
  - apply of_int_nonneg. unfold valid_config in Hcfg. split_andb Hcfg. apply Z.lt_le_incl. by apply Z.ltb_lt.
  - pose proof fone_pos. unfold flit. apply fround_ge; [cbn [length]; lia|apply representable_0|].
    assert (0 <= Zsum ((fun ka => matched_tokens ka.2) <$> r :: rows')); [|nia].
    apply Zsum_elem_nonneg. intros x (ka & -> & Hin)%list_elem_of_fmap. by apply Hrows.
Qed.

Lemma insert_row_ok cfg l c e a : ledger_ok cfg (set_cursor c l) -> c < seq e -> 0 <= amount a -> 0 <= matched_tokens a ->
  (acc_status a = accrued \/ acc_status a = forfeited) -> acc_period a = open_period cfg (at_ e) l ->
  exists l', insert_accrual e a l = Ok l' /\ ledger_ok cfg (set_cursor (seq e) l').
Proof.
  intros [H1 H2 H3 H4 H5 H6] Hc Ha Hm Hst Hp. cbn in *. unfold insert_accrual.
  destruct (accruals l !! seq e) as [b|] eqn:E; [destruct (H1 _ _ E) as (_ & _ & ?); lia|].
  eexists. split; [done|]. split; cbn; [|done|done| | |done].
  - intros s x. rewrite lookup_insert. case_decide as Hs; [intros [= <-]; split_and!; (done || lia)|].
    intros Hx. destruct (H1 s x Hx) as (? & ? & ?). split_and!; (done || lia).
  - intros s x p. rewrite lookup_insert. case_decide as Hs; [|apply H4]. intros [= <-] _ Hq. rewrite Hp. by apply after_last_ahead.
  - intros s x. rewrite lookup_insert. case_decide as Hs; [|apply H5]. intros [= <-] Hx. destruct Hst; congruence.
Qed.

Lemma ban_ok cfg l c c' hk until : ledger_ok cfg (set_cursor c l) -> c <= c' -> ledger_ok cfg (set_cursor c' (ban_event hk until l)).
Proof.
  intros [H1 H2 H3 H4 H5 H6] Hc. cbn in *.
  assert (forall s b, (forfeit hk <$> accruals l) !! s = Some b -> exists a, accruals l !! s = Some a /\ b = forfeit hk a) as Hrow.
  { intros s b. rewrite lookup_fmap. destruct (accruals l !! s) as [a|]; [|done]. intros [= <-]. eauto. }
  split; cbn; [|done|done| | |done].
  - intros s b (a & Ha & ->)%Hrow. destruct (H1 s a Ha) as (? & ? & ?). unfold forfeit. destruct (bool_decide _); cbn; split_and!; (done || lia).
  - intros s b p (a & Ha & ->)%Hrow. unfold forfeit. case_bool_decide; [done|]. by apply (H4 s).
  - intros s b (a & Ha & ->)%Hrow. unfold forfeit. case_bool_decide; [done|]. by apply (H5 s).
Qed.

Lemma raise_cursor_ok cfg l c c' : ledger_ok cfg (set_cursor c l) -> c <= c' -> ledger_ok cfg (set_cursor c' l).
Proof.
  intros [H1 H2 H3 H4 H5 H6] Hc. split; try done. intros s a Ha. destruct (H1 s a Ha) as (? & ? & ?). cbn in *. split_and!; (done || lia).
Qed.

Section ingest.
Context (cfg : ledger_config) (token_price : string -> float) (group_env : string -> option string).
Context (Hcfg : valid_config cfg = true) (Hprice : forall e, 0 <= token_price e).

Lemma ingest_event_ok c l e l' : ledger_ok cfg (set_cursor c l) -> c < seq e -> good_event e ->
  ingest_event cfg token_price group_env l e = Ok l' -> ledger_ok cfg (set_cursor (seq e) l').
Proof.
  intros Hok Hc Hg. unfold ingest_event. destruct (ev_detail e) as [until|env m cts n|fraction|] eqn:Ed.
  - intros <-%(inj Ok). apply (ban_ok cfg l c); [done|lia].
  - pose proof (paid_tokens_nonneg e env m cts n (floor cfg) Ed Hg) as Hp. cbv zeta. set (a := pay_row _ _ _ _ _ _ _ _).
    destruct (insert_row_ok cfg l c e a Hok Hc) as (l2 & -> & Hok2); try done.
    + apply fmul_nonneg; [by apply of_int_nonneg|apply Hprice].
    + cbn. destruct (banned _ _ _); auto.
    + by intros <-%(inj Ok).
  - destruct (group_env (lease_id e)) as [env|]; [|done]. cbv zeta. set (a := pay_row _ _ _ _ _ _ _ _).
    destruct (insert_row_ok cfg l c e a Hok Hc) as (l2 & -> & Hok2); try done.
    + unfold good_event in Hg. rewrite Ed in Hg. apply fmul_nonneg; [by apply fmul_nonneg|].
      apply reference_tokens_nonneg; [done|]. intros s b Hb. by apply (ok_rows cfg _ Hok s b).
    + cbn. destruct (banned _ _ _); auto.
    + by intros <-%(inj Ok).
  - intros <-%(inj Ok). apply (raise_cursor_ok cfg l c); [done|lia].
Qed.

Lemma ingest_fold_ok events : forall c l l', ledger_ok cfg (set_cursor c l) -> StronglySorted (fun e e' => seq e < seq e') events ->
  Forall (fun e => c < seq e) events -> Forall good_event events ->
  fold_result (ingest_event cfg token_price group_env) l events = Ok l' ->
  ledger_ok cfg (set_cursor (default c (seq <$> last events)) l').
Proof.
  induction events as [|e events IH]; intros c l l' Hok Hs Hc Hg Hf; cbn [fold_result] in Hf; [by apply (inj Ok) in Hf as <-|].
  apply bind_ok_inv in Hf as (l1 & H1 & Hf). apply StronglySorted_inv in Hs as [Hs Hall].
  apply Forall_cons in Hc as [Hc _]. apply Forall_cons in Hg as [Hg Hgs].
  pose proof (ingest_event_ok c l e l1 Hok Hc Hg H1) as Hok1. specialize (IH (seq e) l1 l' Hok1 Hs Hall Hgs Hf).
  rewrite last_cons. destruct (last events); exact IH.
Qed.

Lemma sorted_take_filter (P : event -> Prop) `{!forall x, Decision (P x)} n events :
  StronglySorted (fun e e' => seq e < seq e') events -> StronglySorted (fun e e' => seq e < seq e') (take n (filter P events)).
Proof.
  intros Hs. assert (StronglySorted (fun e e' => seq e < seq e') (filter P events)) as Hf.
  { induction Hs as [|e es Hs IH Hall]; [constructor|]. rewrite filter_cons. case_decide; [|done]. constructor; [done|].
    apply Forall_forall. intros x [_ Hx]%list_elem_of_filter. by eapply Forall_forall in Hall. }
  revert Hf. generalize (filter P events). induction n as [|n IH]; intros k Hk; [constructor|]. destruct Hk as [|x k Hk Hall]; [constructor|].
  cbn. constructor; [by apply IH|]. by apply Forall_take.
Qed.

Lemma ingest_ok events limit l : ledger_ok cfg l -> StronglySorted (fun e e' => seq e < seq e') events -> Forall good_event events ->
  ledger_ok cfg (ingest cfg token_price group_env events limit l).2.
Proof.
  intros Hok Hs Hg. unfold ingest. set (es := take _ _).
  destruct (last es) as [e|] eqn:El; [|done]. destruct (fold_result _ l es) as [l'|] eqn:Ef; [|done]. cbn [snd].
  replace (seq e) with (default (pay_cursor l) (seq <$> last es)) by by rewrite El.
  apply (ingest_fold_ok es (pay_cursor l) l l'); [|by apply sorted_take_filter| | |done].
  - destruct l. exact Hok.
  - apply Forall_take, Forall_forall. intros x [Hx _]%list_elem_of_filter. exact Hx.
  - apply Forall_take, Forall_forall. intros x [_ Hx]%list_elem_of_filter. by eapply Forall_forall in Hg.
Qed.
End ingest.


(** *** Publication *)

Lemma trainer_beat_ok cfg now l : ledger_ok cfg l -> ledger_ok cfg (trainer_beat cfg now l).
Proof.
  intros Hok. unfold trainer_beat. destruct (outage_fill cfg); [|done]. cbv zeta. destruct (match beat_at l with Some b => _ | None => _ end); [done|].
  destruct Hok as [H1 H2 H3 H4 H5 H6]. by split.
Qed.

(** The archive of a period in place of another that pays the same. *)
Definition same_pay (d d' : archive_doc) : Prop :=
  work_period d' = work_period d /\ doc_rewards d' = doc_rewards d /\ accrued_total d' = accrued_total d.

Lemma set_entry_pay e d : same_pay d (set_entry e d).
Proof. done. Qed.

Lemma entries_insert l p d st d' st' : archives l !! p = Some (d, st) ->
  entries (set_archives (<[p := (d', st')]> (archives l)) l)
    ≡ₚ ((fun r => doc_entry r.2.1) <$> filter (fun r => r.1 <> p) (map_to_list (archives l))) ++ [doc_entry d'].
Proof.
  intros Hp. unfold entries. cbn [archives set_archives].
  rewrite <- (insert_delete_eq (archives l)), map_to_list_insert by apply lookup_delete_eq.
  rewrite fmap_cons. cbn [snd fst]. rewrite Permutation_cons_append. apply Permutation_app; [|done].
  apply fmap_Permutation. rewrite <- (insert_delete_id (archives l) p (d, st) Hp) at 2.
  rewrite map_to_list_insert by apply lookup_delete_eq. rewrite filter_cons_False by (cbn; tauto).
  rewrite list_filter_all; [done|]. intros [q r] Hq%elem_of_map_to_list. cbn. intros ->. by rewrite lookup_delete_eq in Hq.
Qed.

Lemma replace_archive_ok cfg l p d st d' st' : ledger_ok cfg l -> archives l !! p = Some (d, st) -> same_pay d d' ->
  (forall e, count_in e (((fun r => doc_entry r.2.1) <$> filter (fun r => r.1 <> p) (map_to_list (archives l))) ++ [doc_entry d'])
     <= CATCHUP_ENTRIES) ->
  ledger_ok cfg (set_archives (<[p := (d', st')]> (archives l)) l).
Proof.
  intros [H1 H2 H3 H4 H5 H6] Hp (E1 & E2 & E3) Hcount.
  assert (forall q, is_Some (<[p := (d', st')]> (archives l) !! q) <-> is_Some (archives l !! q)) as Hdom.
  { intros q. rewrite lookup_insert. case_decide; [subst q; rewrite Hp; split; eauto|done]. }
  split; [done|done| | | |].
  - intros q x sx. cbn. rewrite lookup_insert. case_decide as Hq; [|apply H3]. intros [= <- <-]. subst q.
    rewrite E1, E2, E3. exact (H3 p d st Hp).
  - intros s a q Ha Hst Hq. apply (H4 s a q Ha Hst). by apply Hdom.
  - intros s a Ha Hst. apply Hdom. by apply (H5 s).
  - intros e. unfold count_in. rewrite (entries_insert l p d st d' st' Hp). apply Hcount.
Qed.

Lemma keep_entry_count cfg l p d st : ledger_ok cfg l -> archives l !! p = Some (d, st) -> forall e,
  count_in e (((fun r => doc_entry r.2.1) <$> filter (fun r => r.1 <> p) (map_to_list (archives l))) ++ [doc_entry d]) <= CATCHUP_ENTRIES.
Proof.
  intros Hok Hp e. unfold count_in. rewrite <- (entries_insert l p d st d st Hp). cbn. rewrite insert_id by done.
  destruct l. exact (ok_entries cfg _ Hok e).
Qed.

(** What publication does to the archives: pay never changes, and the identity of one
    that may have been written is final. *)
Definition published_by (l l' : ledger) : Prop :=
  accruals l' = accruals l /\ forall p, match archives l !! p, archives l' !! p with
    | None, None => True
    | Some (d, st), Some (d', st') => same_pay d d' /\ (st <> unattempted -> d' = d /\ st' <> unattempted)
    | _, _ => False
    end.

Lemma published_by_replace l p d st d' st' : archives l !! p = Some (d, st) -> same_pay d d' ->
  (st <> unattempted -> d' = d /\ st' <> unattempted) ->
  published_by l (set_archives (<[p := (d', st')]> (archives l)) l).
Proof.
  intros Hp Hsame Hid. split; [done|]. intros q. cbn. rewrite lookup_insert. case_decide as Hq; [subst q; by rewrite Hp|].
  by destruct (archives l !! q) as [[]|].
Qed.

Lemma publish_prepare_ok cfg now work l : ledger_ok cfg l ->
  match archives l !! work with
  | None => publish_prepare cfg now work l = Raise TypeError
  | Some (d, confirmed) => publish_prepare cfg now work l = Ok (None, l)
  | Some (d, st) => exists d', publish_prepare cfg now work l = Ok (Some d', set_archives (<[work := (d', unconfirmed)]> (archives l)) l) /\
      same_pay d d' /\ (st = unconfirmed -> d' = d) /\ ledger_ok cfg (set_archives (<[work := (d', unconfirmed)]> (archives l)) l) /\
      published_by l (set_archives (<[work := (d', unconfirmed)]> (archives l)) l)
  end.
Proof.
  intros Hok. unfold publish_prepare. destruct (archives l !! work) as [[d st]|] eqn:E; [|done].
  set (due := period_of now (genesis cfg) + 1).
  destruct (entry_for_spec due ((fun r => doc_entry r.2.1) <$> filter (fun r => r.1 <> work) (map_to_list (archives l))) [] CATCHUP_ENTRIES)
    as (e & -> & _ & Hfree & _); [unfold CATCHUP_ENTRIES; lia|].
  pose proof (keep_entry_count cfg l work d st Hok E) as Hkeep.
  assert (same_pay d d) as Hsame by done.
  destruct st; [|done|destruct (doc_entry d <? due)].
  - exists d. split_and!; [done|done|done|by eapply replace_archive_ok|by eapply published_by_replace].
  - exists (set_entry e d). split_and!; [done|done|done| |by eapply published_by_replace].
    eapply replace_archive_ok; [done|done|apply set_entry_pay|]. intros x. rewrite count_in_snoc. unfold blocked in Hfree. cbn [doc_entry set_entry].
    specialize (Hkeep x). rewrite count_in_snoc in Hkeep. destruct (decide (e = x)) as [->|]; [lia|]. destruct (decide _); lia.
  - exists d. split_and!; [done|done|done|by eapply replace_archive_ok|by eapply published_by_replace].
Qed.

Lemma publish_confirm_ok cfg work l : ledger_ok cfg l ->
  ledger_ok cfg (publish_confirm work l) /\ published_by l (publish_confirm work l).
Proof.
  intros Hok. unfold publish_confirm. destruct (archives l !! work) as [[d st]|] eqn:E.
  - rewrite (alter_as_insert _ _ _ _ E). cbn [fst].
    split; [eapply replace_archive_ok; [done|done|done|by eapply keep_entry_count]|by eapply published_by_replace].
  - rewrite alter_id by (intros x Hx; congruence). destruct l. split; [exact Hok|]. split; [done|]. intros q. cbn.
    by destruct (_ !! q) as [[]|].
Qed.

Lemma published_by_refl l : published_by l l.
Proof. split; [done|]. intros p. by destruct (archives l !! p) as [[]|]. Qed.

Lemma published_by_trans l1 l2 l3 : published_by l1 l2 -> published_by l2 l3 -> published_by l1 l3.
Proof.
  intros [E1 H1] [E2 H2]. split; [congruence|]. intros p. specialize (H1 p). specialize (H2 p).
  destruct (archives l1 !! p) as [[d1 s1]|], (archives l2 !! p) as [[d2 s2]|], (archives l3 !! p) as [[d3 s3]|]; try done.
  destruct H1 as [(A1 & A2 & A3) H1], H2 as [(B1 & B2 & B3) H2]. split; [split_and!; congruence|].
  intros Hs. destruct (H1 Hs) as [-> Hs2]. destruct (H2 Hs2) as [-> Hs3]. done.
Qed.

Lemma publish_prepare_cases cfg now work l r l' : ledger_ok cfg l -> publish_prepare cfg now work l = Ok (r, l') ->
  ledger_ok cfg l' /\ published_by l l'.
Proof.
  intros Hok Hp. pose proof (publish_prepare_ok cfg now work l Hok) as Hs.
  destruct (archives l !! work) as [[d []]|]; [destruct Hs as (d' & E & _ & _ & H1 & H2)|rename Hs into E|
    destruct Hs as (d' & E & _ & _ & H1 & H2)|congruence]; rewrite E in Hp; injection Hp as <- <-; try done.
  split; [done|apply published_by_refl].
Qed.

(** ** The ledger as a transition system

    Each step is one transaction; [publish] is two of them around its I/O, so that the
    steps of concurrent callers interleave as the lock lets them. *)
Inductive ledger_step (cfg : ledger_config) : ledger -> ledger -> Prop :=
  | step_ingest token_price group_env events limit l :
      (forall e, 0 <= token_price e) -> StronglySorted (fun e e' => seq e < seq e') events -> Forall good_event events ->
      ledger_step cfg l (ingest cfg token_price group_env events limit l).2
  | step_settle targets downtime now clock l : (forall e x, targets !! e = Some x -> 0 <= x) ->
      ledger_step cfg l (settle cfg targets downtime now clock l).2
  | step_beat now l : ledger_step cfg l (trainer_beat cfg now l)
  | step_prepare now work l r l' : publish_prepare cfg now work l = Ok (r, l') -> ledger_step cfg l l'
  | step_confirm work l : ledger_step cfg l (publish_confirm work l).

Lemma ledger_step_ok cfg l l' : valid_config cfg = true -> ledger_ok cfg l -> ledger_step cfg l l' -> ledger_ok cfg l'.
Proof.
  intros Hcfg Hok. destruct 1 as [tp ge evs lim l Htp Hs Hg|tg dt now ck l Ht|now l|now w l r l' Hp|w l].
  - by apply ingest_ok.
  - destruct (settle_ok cfg tg dt now ck l Hcfg Ht Hok) as (docs & l' & -> & ? & _). done.
  - by apply trainer_beat_ok.
  - by eapply publish_prepare_cases.
  - by apply publish_confirm_ok.
Qed.

Lemma ledger_reachable_ok cfg l : valid_config cfg = true -> rtc (ledger_step cfg) new_ledger l -> ledger_ok cfg l.
Proof. intros Hcfg. apply rtc_invariant; [|apply new_ledger_ok]. intros a b Ha Hb. by eapply ledger_step_ok. Qed.

(** No step takes an archive away or changes what it pays. *)
Definition archives_kept (l l' : ledger) : Prop :=
  forall p d st, archives l !! p = Some (d, st) ->
    exists d' st', archives l' !! p = Some (d', st') /\ same_pay d d' /\ (st <> unattempted -> d' = d /\ st' <> unattempted).

Lemma archives_kept_eq l l' : archives l' = archives l -> archives_kept l l'.
Proof. intros E p d st Hp. rewrite E. by exists d, st. Qed.

Lemma published_by_kept l l' : published_by l l' -> archives_kept l l'.
Proof.
  intros [_ H] p d st Hp. specialize (H p). rewrite Hp in H. destruct (archives l' !! p) as [[d' st']|]; [|done]. by exists d', st'.
Qed.

Lemma ingest_archives cfg tp ge evs lim l : archives (ingest cfg tp ge evs lim l).2 = archives l.
Proof.
  unfold ingest. cbv zeta. destruct (last _) as [x|]; [|done]. destruct (fold_result _ _ _) as [l'|] eqn:E; [|done]. cbn.
  revert E. generalize (take (Z.to_nat lim) (filter (fun e => pay_cursor l < seq e) evs)). intros es. revert l.
  induction es as [|e es IH]; intros l E; cbn [fold_result] in E; [by apply (inj Ok) in E as <-|].
  apply bind_ok_inv in E as (l1 & E1 & E). rewrite (IH l1 E). unfold ingest_event, insert_accrual in E1.
  destruct (ev_detail e) as [| |f|]; [|destruct (accruals l !! seq e)|destruct (ge (lease_id e)); [destruct (accruals l !! seq e)|]|];
    try discriminate E1; apply (inj Ok) in E1 as <-; done.
Qed.

Lemma ledger_step_kept cfg l l' : valid_config cfg = true -> ledger_ok cfg l -> ledger_step cfg l l' -> archives_kept l l'.
Proof.
  intros Hcfg Hok. destruct 1 as [tp ge evs lim l Htp Hs Hg|tg dt now ck l Ht|now l|now w l r l' Hp|w l].
  - apply archives_kept_eq, ingest_archives.
  - destruct (settle_ok cfg tg dt now ck l Hcfg Ht Hok) as (docs & l' & -> & _ & Hs & _). intros p d st Hp.
    exists d, st. split; [by apply (sb_kept _ _ _ Hs)|done].
  - apply archives_kept_eq. unfold trainer_beat. destruct (outage_fill cfg); [|done]. cbv zeta.
    by destruct (match beat_at l with Some b => _ | None => _ end).
  - apply published_by_kept. by eapply publish_prepare_cases.
  - by apply published_by_kept, (publish_confirm_ok cfg).
Qed.

Lemma archives_kept_trans l1 l2 l3 : archives_kept l1 l2 -> archives_kept l2 l3 -> archives_kept l1 l3.
Proof.
  intros H1 H2 p d st Hp. destruct (H1 p d st Hp) as (d2 & s2 & Hp2 & (A1 & A2 & A3) & Hid1).
  destruct (H2 p d2 s2 Hp2) as (d3 & s3 & Hp3 & (B1 & B2 & B3) & Hid2). exists d3, s3. split_and!; [done|split_and!; congruence|].
  intros Hs. destruct (Hid1 Hs) as [-> Hs2]. destruct (Hid2 Hs2) as [-> Hs3]. done.
Qed.

(** ** Publication reconciles the bucket *)

Section publish.
Context (cfg : ledger_config) {bucket : Type} (get : bucket -> Z * Z -> option archive_doc).
Context (put : bucket -> Z * Z -> archive_doc -> result unit * bucket).

(** A bucket that answers. *)
Definition put_law : Prop := forall b k d, exists b', put b k d = (Ok tt, b') /\ get b' k = Some d /\
  forall k', k' <> k -> get b' k' = get b k'.

(** What it holds of this task is what the ledger says it may hold. *)
Definition consistent (b : bucket) (l : ledger) : Prop :=
  forall p e x, get b (p, e) = Some x -> doc_entry x = e /\ exists st, archives l !! p = Some (x, st).

Context (Hput : put_law).

(** One archive, not confirmed: it is confirmed and in the bucket, nothing else moves. *)
Lemma publish_one_ok now b l d st : ledger_ok cfg l -> consistent b l ->
  archives l !! work_period d = Some (d, st) -> st <> confirmed ->
  exists d' b' l', publish_one cfg get put None now d (b, l) = (Ok true, (b', l')) /\
    ledger_ok cfg l' /\ published_by l l' /\ archives l' = <[work_period d := (d', confirmed)]> (archives l) /\
    get b' (work_period d, doc_entry d') = Some d' /\
    (forall p e, p <> work_period d -> get b' (p, e) = get b (p, e)) /\
    (forall e x, get b' (work_period d, e) = Some x -> x = d' /\ doc_entry d' = e).
Proof.
  intros Hok Hcons Hd Hst. unfold publish_one. set (p := work_period d) in *.
  assert (forall d' l1, archives l1 !! p = Some (d', unconfirmed) \/ archives l1 !! p = Some (d', st) ->
    archives (publish_confirm p l1) = <[p := (d', confirmed)]> (archives l1)) as Hconf.
  { intros d' l1 Hl1. cbn. by destruct Hl1 as [E|E]; rewrite (alter_as_insert _ _ _ _ E). }
  destruct (get b (p, doc_entry d)) as [x|] eqn:Eg.
  - destruct (Hcons _ _ _ Eg) as (_ & st' & Hx). rewrite Hd in Hx. injection Hx as <- <-. rewrite decide_True by done.
    destruct (publish_confirm_ok cfg p l Hok) as [H1 H2]. exists d, b, (publish_confirm p l).
    split_and!; [done|done|done|by apply Hconf; right|done|done|].
    intros e x Hx. destruct (Hcons _ _ _ Hx) as (<- & st' & Hx'). rewrite Hd in Hx'. injection Hx' as <- _. done.
  - assert (forall e, get b (p, e) = None) as Hnone.
    { intros e. destruct (get b (p, e)) as [x|] eqn:Ee; [|done]. destruct (Hcons _ _ _ Ee) as (<- & st' & Hx). rewrite Hd in Hx.
      injection Hx as <- _. congruence. }
    pose proof (publish_prepare_ok cfg now p l Hok) as Hp. rewrite Hd in Hp.
    assert (exists d', publish_prepare cfg now p l = Ok (Some d', set_archives (<[p := (d', unconfirmed)]> (archives l)) l) /\
      same_pay d d' /\ ledger_ok cfg (set_archives (<[p := (d', unconfirmed)]> (archives l)) l) /\
      published_by l (set_archives (<[p := (d', unconfirmed)]> (archives l)) l)) as (d' & -> & Hsame & Hok1 & Hby1).
    { destruct st; [|done|]; destruct Hp as (d' & ? & ? & _ & ? & ?); by exists d'. }
    set (l1 := set_archives _ l) in *. assert (work_period d' = p) as Hw by apply Hsame.
    unfold archives_write. rewrite Hw, Hnone. destruct (Hput b (p, doc_entry d') d') as (b' & -> & Hget & Hother).
    destruct (publish_confirm_ok cfg p l1 Hok1) as [H1 H2]. exists d', b', (publish_confirm p l1).
    split_and!; [done|done|by eapply published_by_trans| |done| |].
    + rewrite (Hconf d' l1) by (left; apply lookup_insert_eq). apply insert_insert_eq.
    + intros q e Hq. apply Hother. congruence.
    + intros e x Hx. destruct (decide (e = doc_entry d')) as [->|Hne]; [split; congruence|]. rewrite Hother in Hx by congruence.
      rewrite Hnone in Hx. discriminate Hx.
Qed.

Lemma publish_all_ok now docs : forall n b l, ledger_ok cfg l -> consistent b l -> NoDup (work_period <$> docs) ->
  (forall d, d ∈ docs -> exists st, st <> confirmed /\ archives l !! work_period d = Some (d, st)) ->
  exists b' l', publish_all cfg get put None now docs n (b, l) = (Ok (n + Z.of_nat (length docs)), (b', l')) /\
    ledger_ok cfg l' /\ published_by l l' /\ consistent b' l' /\
    (forall p, p ∈ work_period <$> docs -> exists d', archives l' !! p = Some (d', confirmed) /\ get b' (p, doc_entry d') = Some d') /\
    (forall p, p ∉ work_period <$> docs -> archives l' !! p = archives l !! p /\ forall e, get b' (p, e) = get b (p, e)).
Proof.
  induction docs as [|d docs IH]; intros n b l Hok Hcons Hnd Hdocs; cbn [publish_all].
  { exists b, l. rewrite Z.add_0_r. split_and!; [done|done|apply published_by_refl|done| |done]. intros p Hp. by apply not_elem_of_nil in Hp. }
  rewrite fmap_cons in *. apply NoDup_cons in Hnd as [Hw Hnd].
  destruct (Hdocs d ltac:(constructor)) as (st & Hst & Hd).
  destruct (publish_one_ok now b l d st Hok Hcons Hd Hst) as (d1 & b1 & l1 & -> & Hok1 & Hby1 & Earch & Hget1 & Hframe1 & Huniq).
  assert (consistent b1 l1) as Hcons1.
  { intros p e x Hx. rewrite Earch. destruct (decide (p = work_period d)) as [->|Hp].
    - destruct (Huniq e x Hx) as [-> <-]. rewrite lookup_insert_eq. split; [done|by exists confirmed].
    - rewrite lookup_insert_ne by done. rewrite Hframe1 in Hx by done. by apply Hcons. }
  destruct (IH (n + 1) b1 l1 Hok1 Hcons1 Hnd) as (b2 & l2 & -> & Hok2 & Hby2 & Hcons2 & Hin & Hout).
  { intros x Hx. destruct (Hdocs x ltac:(by constructor)) as (sx & Hsx & Hlx). exists sx. split; [done|].
    rewrite Earch, lookup_insert_ne; [done|]. intros E. apply Hw. rewrite E. apply list_elem_of_fmap. eauto. }
  exists b2, l2. split_and!; [f_equal; f_equal; cbn [length]; lia|done|by eapply published_by_trans|done| |].
  - intros p [->|Hp]%elem_of_cons; [|by apply Hin]. destruct (Hout _ Hw) as [E1 E2]. exists d1. by rewrite E1, E2, Earch, lookup_insert_eq.
  - intros p [Hne Hp]%not_elem_of_cons. destruct (Hout p Hp) as [E1 E2]. rewrite E1, Earch, lookup_insert_ne by done.
    split; [done|]. intros e. rewrite E2. by apply Hframe1.
Qed.
End publish.

Lemma by_seq_elem {A} (x : Z * A) l : x ∈ by_seq l <-> x ∈ l.
Proof. apply elem_of_isort. Qed.

Lemma unpublished_elem cfg l d : ledger_ok cfg l ->
  d ∈ unpublished l <-> exists st, st <> confirmed /\ archives l !! work_period d = Some (d, st).
Proof.
  intros Hok. unfold unpublished. rewrite list_elem_of_fmap. split.
  - intros ([p [x st]] & -> & [Hst Hin]%list_elem_of_filter). rewrite by_seq_elem, elem_of_map_to_list in Hin.
    destruct (ok_docs cfg l Hok p x st Hin) as [<- _]. exists st. cbn in *. split; [by intros ->|done].
  - intros (st & Hst & Hd). exists (work_period d, (d, st)). split; [done|]. apply list_elem_of_filter.
    rewrite by_seq_elem, elem_of_map_to_list. cbn. by destruct st.
Qed.

Lemma unpublished_nodup cfg l : ledger_ok cfg l -> NoDup (work_period <$> unpublished l).
Proof.
  intros Hok. unfold unpublished. rewrite <- list_fmap_compose. set (rows := filter _ _).
  assert (forall r, r ∈ rows -> work_period r.2.1 = r.1) as Hrows.
  { intros [p [x st]] [_ Hin]%list_elem_of_filter. rewrite by_seq_elem, elem_of_map_to_list in Hin. by apply (ok_docs cfg l Hok p x st). }
  assert ((work_period ∘ (fun r : Z * (archive_doc * publication) => r.2.1)) <$> rows = rows.*1) as ->.
  { apply list_fmap_ext. intros i r Hr%list_elem_of_lookup_2. by apply Hrows. }
  eapply sublist_NoDup; [|apply fmap_sublist_filter]. unfold by_seq. rewrite isort_perm. apply NoDup_fst_map_to_list.
Qed.

(** ** Claims *)

(** C7: a period never pays more than the cap.  In every ledger the transactions can
    produce, an archive is filed under its work period, its rewards are non-negative
    and sum to the cap at most, up to the rounding of the products (one part in 2^50),
    and no entry period takes more than [CATCHUP_ENTRIES] archives. *)
Theorem period_pays_within_cap (cfg : ledger_config) (l : ledger) :
  valid_config cfg = true -> rtc (ledger_step cfg) new_ledger l ->
  (forall p d st, archives l !! p = Some (d, st) ->
     work_period d = p /\ within_cap (cap cfg) (doc_rewards d) (accrued_total d) /\ forall h x, (h, x) ∈ doc_rewards d -> 0 <= x) /\
  forall e, count_in e (entries l) <= CATCHUP_ENTRIES.
Proof.
  intros Hcfg Hl. pose proof (ledger_reachable_ok cfg l Hcfg Hl) as Hok. split; [|apply (ok_entries cfg l Hok)].
  intros p d st Hp. destruct (ok_docs cfg l Hok p d st Hp) as (H1 & H2 & H3). split_and!; [done|done|].
  intros h x Hx. exact (H3 (h, x) Hx).
Qed.

(** C8: an accrual is settled once and no closed one is left behind.  [settle] never
    raises on a ledger the transactions produced; it changes rows only from accrued to
    settled, the rows it leaves accrued belong to periods still open, archives that
    existed are untouched, and the new ones are the documents it returns, each for a
    work period that had none. *)
Theorem settles_each_accrual_once (cfg : ledger_config) (targets : gmap string float) (downtime : list (float * float))
    (now clock : float) (l : ledger) :
  valid_config cfg = true -> (forall e x, targets !! e = Some x -> 0 <= x) -> rtc (ledger_step cfg) new_ledger l ->
  exists docs l', settle cfg targets downtime now clock l = (Ok docs, l') /\
    (forall s, match accruals l !! s, accruals l' !! s with
               | Some a, Some a' => a' = a \/ (acc_status a = accrued /\ a' = set_status settled a)
               | None, None => True
               | _, _ => False
               end) /\
    (forall s a, accruals l' !! s = Some a -> acc_status a = accrued -> closed_of cfg now < acc_period a) /\
    (forall s a, accruals l' !! s = Some a -> acc_status a = settled -> is_Some (archives l' !! acc_period a)) /\
    (forall p r, archives l !! p = Some r -> archives l' !! p = Some r) /\
    (forall p r, archives l' !! p = Some r -> archives l !! p = Some r \/ (r.1 ∈ docs /\ r.2 = unattempted)) /\
    (forall d, d ∈ docs -> archives l' !! work_period d = Some (d, unattempted) /\ archives l !! work_period d = None).
Proof.
  intros Hcfg Ht Hl. pose proof (ledger_reachable_ok cfg l Hcfg Hl) as Hok.
  destruct (settle_ok cfg targets downtime now clock l Hcfg Ht Hok) as (docs & l' & E & Hok' & [H1 H2 H3 H4 H5] & Hleft).
  exists docs, l'. split_and!; [done|exact H1|exact Hleft|apply (ok_settled cfg l' Hok')|done|done|done].
Qed.

(** What may have been published is final.  Whatever happens to the ledger after,
    an archive is never removed and what it pays never changes, and one whose write was
    attempted keeps its whole document, entry period included, and never goes back to
    unattempted. *)
Theorem archive_identity_final (cfg : ledger_config) (l l' : ledger) (p : Z) (d : archive_doc) (st : publication) :
  valid_config cfg = true -> rtc (ledger_step cfg) new_ledger l -> rtc (ledger_step cfg) l l' ->
  archives l !! p = Some (d, st) ->
  exists d' st', archives l' !! p = Some (d', st') /\
    work_period d' = work_period d /\ doc_rewards d' = doc_rewards d /\ (st <> unattempted -> d' = d /\ st' <> unattempted).
Proof.
  intros Hcfg Hl Hll. assert (archives_kept l l') as Hk.
  { pose proof (ledger_reachable_ok cfg l Hcfg Hl) as Hok. clear Hl. induction Hll as [l|l l1 l2 Hs _ IH]; [by apply archives_kept_eq|].
    eapply archives_kept_trans; [by eapply ledger_step_kept|]. by eapply IH, ledger_step_ok. }
  intros Hp. destruct (Hk p d st Hp) as (d' & st' & E & (A1 & A2 & _) & Hid). by exists d', st'.
Qed.

(** Publication ends with everything published.  When the bucket answers and what
    it holds of the task is the ledger's own documents, [publish] returns the number of
    archives that were not confirmed; afterwards every archive is confirmed, each of
    those is in the bucket under the identity the ledger keeps, and the bucket still
    holds the ledger's documents only. *)
Theorem publish_reconciles (cfg : ledger_config) (bucket : Type) (get : bucket -> Z * Z -> option archive_doc)
    (put : bucket -> Z * Z -> archive_doc -> result unit * bucket) (now : float) (b : bucket) (l : ledger) :
  valid_config cfg = true -> rtc (ledger_step cfg) new_ledger l -> put_law get put -> consistent get b l ->
  exists b' l', publish cfg get put None now (b, l) = (Ok (Z.of_nat (length (unpublished l))), (b', l')) /\
    unpublished l' = [] /\ consistent get b' l' /\
    forall p d st, archives l !! p = Some (d, st) -> exists d', archives l' !! p = Some (d', confirmed) /\
      doc_rewards d' = doc_rewards d /\ (st <> unattempted -> d' = d) /\ (st <> confirmed -> get b' (p, doc_entry d') = Some d').
Proof.
  intros Hcfg Hl Hput Hcons. pose proof (ledger_reachable_ok cfg l Hcfg Hl) as Hok.
  destruct (publish_all_ok cfg get put Hput now (unpublished l) 0 b l Hok Hcons (unpublished_nodup cfg l Hok))
    as (b' & l' & E & Hok' & [_ Hby] & Hcons' & Hin & Hout).
  { intros d Hd. by apply (unpublished_elem cfg l d Hok). }
  assert (forall p d st, archives l !! p = Some (d, st) -> exists d', archives l' !! p = Some (d', confirmed) /\
      (st <> confirmed -> get b' (p, doc_entry d') = Some d')) as Hall.
  { intros p d st Hp. destruct (ok_docs cfg l Hok p d st Hp) as [<- _]. destruct (decide (st = confirmed)) as [->|Hst].
    - destruct (Hout (work_period d)) as [E1 _]; [|exists d; by rewrite E1].
      intros (x & Hx & (st & Hst & Hx')%(unpublished_elem cfg l x Hok))%list_elem_of_fmap. rewrite <- Hx, Hp in Hx'. congruence.
    - destruct (Hin (work_period d)) as (d' & H1 & H2); [|by exists d'].
      apply list_elem_of_fmap. exists d. split; [done|]. apply (unpublished_elem cfg l d Hok). by exists st. }
  exists b', l'. split_and!; [exact E| |done|].
  - destruct (unpublished l') as [|x xs] eqn:Eu; [done|]. exfalso.
    assert (x ∈ unpublished l') as (st & Hst & Hx)%(unpublished_elem cfg l' x Hok') by (rewrite Eu; constructor).
    specialize (Hby (work_period x)). rewrite Hx in Hby. destruct (archives l !! work_period x) as [[y sy]|] eqn:Ey; [|done].
    destruct (Hall _ _ _ Ey) as (d' & Hd' & _). congruence.
  - intros p d st Hp. destruct (Hall p d st Hp) as (d' & Hd' & Hg). specialize (Hby p). rewrite Hp, Hd' in Hby.
    destruct Hby as [(_ & Hr & _) Hid]. exists d'. split_and!; [done|done|by intros Hs; apply Hid|done].
Qed.

(** *** A ledger of two groups *)

Definition w_config : ledger_config :=
  LedgerConfig (flit 1 2) (flit 9 10) 200 16384 (of_int 120) 0 None 2 (of_int 2) false (of_int 600) (of_int 86400).
Definition w_event (n : Z) (hk : string) (tokens : Z) : event :=
  Event n "lease" hk (of_int 100) (Trained "math" [fone; flit 1 2] (Some [tokens; 7]) [tokens; 7]).
Definition w_events : list event := [w_event 1 "alice" 3; w_event 2 "bob" 1].
(** A quarter per token: four tokens accrue twice the cap. *)
Definition w_price (_ : string) : float := flit 1 4.
Definition w_accrued : ledger := (ingest w_config w_price (fun _ => None) w_events 10 new_ledger).2.
Definition w_settled : ledger := (settle w_config ∅ [] (of_int 5000) (of_int 5000) w_accrued).2.

Lemma w_accrued_reachable : rtc (ledger_step w_config) new_ledger w_accrued.
Proof.
  apply rtc_once. apply step_ingest.
  - intros e. vm_compute. discriminate.
  - repeat constructor.
  - repeat constructor; cbn; lia.
Qed.

Lemma no_targets : forall (e : string) (x : float), (∅ : gmap string float) !! e = Some x -> 0 <= x.
Proof. intros e x. by rewrite lookup_empty. Qed.

Lemma w_settled_reachable : rtc (ledger_step w_config) new_ledger w_settled.
Proof. eapply rtc_r; [apply w_accrued_reachable|]. apply step_settle, no_targets. Qed.

(** The rewards of period 0: the cap, split three to one. *)
Lemma w_rewards : (fun r => doc_rewards r.1) <$> archives w_settled !! 0 = Some [("alice", flit 3 8); ("bob", flit 1 8)]%string.
Proof. vm_compute. reflexivity. Qed.

Lemma period_pays_within_cap_witness :
  (exists r, archives w_settled !! 0 = Some r) /\ forall e, count_in e (entries w_settled) <= CATCHUP_ENTRIES.
Proof.
  split; [pose proof w_rewards as H; destruct (archives w_settled !! 0) as [r|]; [by exists r|discriminate H]|].
  apply (period_pays_within_cap w_config w_settled); [vm_compute; reflexivity|apply w_settled_reachable].
Defined.

Lemma settles_each_accrual_once_witness :
  exists docs l', settle w_config ∅ [] (of_int 5000) (of_int 5000) w_accrued = (Ok docs, l') /\
    forall s a, accruals l' !! s = Some a -> acc_status a = accrued -> closed_of w_config (of_int 5000) < acc_period a.
Proof.
  destruct (settles_each_accrual_once w_config ∅ [] (of_int 5000) (of_int 5000) w_accrued) as (docs & l' & E & _ & H & _).
  - vm_compute. reflexivity.
  - apply no_targets.
  - apply w_accrued_reachable.
  - exists docs, l'. exact (conj E H).
Defined.

Lemma archive_identity_final_witness :
  exists d' st', archives (publish_confirm 0 w_settled) !! 0 = Some (d', st') /\
    doc_rewards d' = [("alice", flit 3 8); ("bob", flit 1 8)]%string.
Proof.
  pose proof w_rewards as Hw. destruct (archives w_settled !! 0) as [[d st]|] eqn:E; [|discriminate Hw]. injection Hw as Hw.
  destruct (archive_identity_final w_config w_settled (publish_confirm 0 w_settled) 0 d st) as (d' & st' & H1 & _ & H2 & _).
  - vm_compute. reflexivity.
  - apply w_settled_reachable.
  - apply rtc_once, step_confirm.
  - exact E.
  - exists d', st'. split; [exact H1|]. rewrite H2. exact Hw.
Defined.

(** A bucket that is a map. *)
Definition w_put (b : gmap (Z * Z) archive_doc) (k : Z * Z) (d : archive_doc) : result unit * gmap (Z * Z) archive_doc :=
  (Ok tt, <[k := d]> b).

Lemma publish_reconciles_witness :
  exists b l', publish w_config (fun b k => b !! k) w_put None (of_int 6000) (∅, w_settled)
                 = (Ok (Z.of_nat (length (unpublished w_settled))), (b, l')) /\ unpublished l' = [].
Proof.
  destruct (publish_reconciles w_config (gmap (Z * Z) archive_doc) (fun b k => b !! k) w_put (of_int 6000) ∅ w_settled)
    as (b & l' & H1 & H2 & _).
  - vm_compute. reflexivity.
  - apply w_settled_reachable.
  - intros b k d. exists (<[k := d]> b). split_and!; [reflexivity|apply lookup_insert_eq|].
    intros k' Hk. apply lookup_insert_ne. congruence.
  - intros p e x Hx. rewrite lookup_empty in Hx. discriminate Hx.
  - exists b, l'. exact (conj H1 H2).
Defined.
