(* ===== verification/RlQuota.v ===== *)
(** * RlQuota: how many leases a hotkey may hold

    Models [reliquary/validator/rl_lease_quota.py]: the AIMD cap, the target measured
    by Little's law over a sliding window, and the events that move them.

    A [_Hotkey] object is shared between the controller's dict and whoever looked it
    up under the lock, so a handler is: read the entry, change it, put it back.
    [hotkeys] is the dict, [saved] the rows of [rl_lease_quota] ([None]: not attached).
    A row is JSON that reads back as the entry with its buckets sorted.  The buckets
    keep the order of a dict: the order of insertion.  Sums of floats are those of
    the builtin [sum] (Python 3.12, file [PyFloat]). *)

From S2P Require Import Prelude PyFloat.

#[local] Open Scope Z_scope.

Inductive phase := slow_start | steady.
#[export] Instance phase_eq_dec : EqDecision phase.
Proof. solve_decision. Defined.

Inductive cause := expired | rejected.
#[export] Instance cause_eq_dec : EqDecision cause.
Proof. solve_decision. Defined.

(** The explanation published with the quota. *)
Inductive reason :=
  | new_hotkey
  | doubled (p : phase) (round_quota : Z)
  | found_pace (round_quota : Z)
  | cut (c : cause) (before : Z).

Definition BUCKET_S : float := of_int 10.
Definition MIN_SAMPLES : Z := 8.
Definition EXPIRY_BACKOFF : float := flit 9 10.

Record quota_config := QuotaConfig { initial : Z; floor : Z; ceiling : Z; headroom : float; window_s : float }.

(** [__post_init__] *)
Definition valid_quota (c : quota_config) : bool :=
  (1 <=? floor c) && (floor c <=? initial c) && (initial c <=? ceiling c) && (fone <=? headroom c) && (BUCKET_S <=? window_s c).

Record counters := Counters {
  leased : Z; submitted : Z; in_zone : Z; out_of_zone : Z; paid : Z; expired_n : Z; rejected_n : Z; released : Z }.
Definition no_counters : counters := Counters 0 0 0 0 0 0 0 0.

Record entry := Entry {
  cap : Z;
  phase_of : phase;
  reason_of : reason;
  in_use : Z;
  since : option float;
  round_quota : Z;
  delivered : Z;
  saturated : bool;
  counts : counters;
  buckets : list (Z * (float * float));
}.

Record controller := Controller { hotkeys : gmap string entry; saved : option (gmap string entry) }.
Definition new_controller : controller := Controller ∅ None.

Section quota.
Context (cfg : quota_config).

(** ** Persistence *)

(** [from_json (to_json e)] *)
Definition reloaded (e : entry) : entry :=
  Entry (cap e) (phase_of e) (reason_of e) (in_use e) (since e) (round_quota e) (delivered e) (saturated e) (counts e)
    (isort (fun x y => x.1 <=? y.1) (buckets e)).

Definition attach (table : gmap string entry) (c : controller) : controller := Controller (reloaded <$> table) (Some table).

Definition save (hk : string) (e : entry) (c : controller) : controller :=
  Controller (<[hk := e]> (hotkeys c)) (<[hk := e]> <$> saved c).

(** ** Reading *)

(** [_Hotkey(cap=initial)], and the entry [_entry] creates. *)
Definition blank : entry := Entry (initial cfg) slow_start new_hotkey 0 None 0 0 false no_counters [].
Definition new_entry : entry := Entry (initial cfg) slow_start new_hotkey 0 None (initial cfg) 0 false no_counters [].
Definition entry_of (hk : string) (c : controller) : entry := default new_entry (hotkeys c !! hk).

Definition clamp (n : Z) : Z := Z.max (floor cfg) (Z.min (ceiling cfg) n).

Definition measure (e : entry) (now : option float) : Z * option float * option float :=
  match buckets e with
  | [] => (0, None, None)
  | b :: bs =>
      let last := foldr Z.max b.1 bs.*1 in
      let now := default (fmul (of_int (last + 1)) BUCKET_S) now in
      let first := ffloor (fdiv (fsub now (window_s cfg)) BUCKET_S) in
      let live := snd <$> filter (fun b => first < b.1) (buckets e) in
      let count := py_sum live.*1 in
      if count =? 0 then (0, None, None)
      else
        let span := match since e with None => window_s cfg | Some s => Z.min (window_s cfg) (fsub now s) end in
        let span := Z.max span BUCKET_S in
        (ftrunc count, Some (fdiv count span), Some (fdiv (py_sum live.*2) count))
  end.

Definition target (e : entry) (now : option float) : option float :=
  match measure e now with
  | (count, Some rate, Some latency) => if count <? MIN_SAMPLES then None else Some (fmul (fmul (headroom cfg) rate) latency)
  | _ => None
  end.

Definition entry_quota (e : entry) (now : option float) : Z :=
  match phase_of e, target e now with
  | slow_start, _ | _, None => clamp (cap e)
  | steady, Some t => clamp (Z.min (cap e) (fceil t))
  end.

Definition quota (hk : string) (now : option float) (c : controller) : Z := entry_quota (default blank (hotkeys c !! hk)) now.
Definition quota_in_use (hk : string) (c : controller) : Z := default 0 (in_use <$> hotkeys c !! hk).

(** ** Events *)

Definition set_in_use (n : Z) (e : entry) : entry :=
  Entry (cap e) (phase_of e) (reason_of e) n (since e) (round_quota e) (delivered e) (saturated e) (counts e) (buckets e).
Definition set_counts (k : counters) (e : entry) : entry :=
  Entry (cap e) (phase_of e) (reason_of e) (in_use e) (since e) (round_quota e) (delivered e) (saturated e) k (buckets e).
Definition set_saturated (b : bool) (e : entry) : entry :=
  Entry (cap e) (phase_of e) (reason_of e) (in_use e) (since e) (round_quota e) (delivered e) b (counts e) (buckets e).
Definition set_since (s : option float) (e : entry) : entry :=
  Entry (cap e) (phase_of e) (reason_of e) (in_use e) s (round_quota e) (delivered e) (saturated e) (counts e) (buckets e).
Definition set_round (q d : Z) (s : bool) (e : entry) : entry :=
  Entry (cap e) (phase_of e) (reason_of e) (in_use e) (since e) q d s (counts e) (buckets e).
Definition set_cap (n : Z) (p : phase) (r : reason) (e : entry) : entry :=
  Entry n p r (in_use e) (since e) (round_quota e) (delivered e) (saturated e) (counts e) (buckets e).
Definition set_buckets (b : list (Z * (float * float))) (e : entry) : entry :=
  Entry (cap e) (phase_of e) (reason_of e) (in_use e) (since e) (round_quota e) (delivered e) (saturated e) (counts e) b.
Definition free_slot (e : entry) : entry := set_in_use (Z.max 0 (in_use e - 1)) e.

Definition new_round (now : float) (e : entry) : entry :=
  let q := entry_quota e (Some now) in set_round q 0 (q <=? in_use e) e.

Definition lease_entry (now : float) (e : entry) : entry :=
  let e := set_since (Some (default now (since e))) e in
  let e := set_in_use (in_use e + 1) e in
  let k := counts e in
  let e := set_counts (Counters (leased k + 1) (submitted k) (in_zone k) (out_of_zone k) (paid k) (expired_n k) (rejected_n k) (released k)) e in
  if entry_quota e (Some now) <=? in_use e then set_saturated true e else e.

Definition record_lease (hk : string) (now : float) (c : controller) : controller := save hk (lease_entry now (entry_of hk c)) c.

Definition submission_entry (zone : bool) (e : entry) : entry :=
  let e := free_slot e in
  let k := counts e in
  set_counts (Counters (leased k) (submitted k + 1) (if zone then in_zone k + 1 else in_zone k)
                (if zone then out_of_zone k else out_of_zone k + 1) (paid k) (expired_n k) (rejected_n k) (released k)) e.

Definition record_submission (hk : string) (zone : bool) (c : controller) : controller :=
  save hk (submission_entry zone (entry_of hk c)) c.

(** [buckets.setdefault(b, [0.0, 0.0])], then the sample added to it. *)
Fixpoint add_sample (b : Z) (latency : float) (l : list (Z * (float * float))) : list (Z * (float * float)) :=
  match l with
  | [] => [(b, (fadd 0 fone, fadd 0 latency))]
  | (b', (n, s)) :: l' => if b' =? b then (b', (fadd n fone, fadd s latency)) :: l' else (b', (n, s)) :: add_sample b latency l'
  end.

(** The end of a round. *)
Definition end_round (now : float) (e : entry) : entry :=
  let e := if saturated e then set_cap (clamp (Z.max (cap e) (2 * round_quota e))) (phase_of e) (doubled (phase_of e) (round_quota e)) e
           else match phase_of e with
                | slow_start => set_cap (cap e) steady (found_pace (round_quota e)) e
                | steady => e
                end in
  new_round now e.

Definition paid_entry (issued_at submitted_at now : float) (e : entry) : entry :=
  let k := counts e in
  let e := set_counts (Counters (leased k) (submitted k) (in_zone k) (out_of_zone k) (paid k + 1) (expired_n k) (rejected_n k) (released k)) e in
  let e := set_buckets (add_sample (ffloor (fdiv now BUCKET_S)) (Z.max 0 (fsub submitted_at issued_at)) (buckets e)) e in
  let oldest := ffloor (fdiv (fsub now (window_s cfg)) BUCKET_S) in
  let e := set_buckets (filter (fun b => oldest < b.1) (buckets e)) e in
  let e := set_round (round_quota e) (delivered e + 1) (saturated e) e in
  if Z.max 1 (round_quota e) <=? delivered e then end_round now e else e.

Definition record_paid (hk : string) (issued_at submitted_at now : float) (c : controller) : controller :=
  save hk (paid_entry issued_at submitted_at now (entry_of hk c)) c.

Definition release_entry (e : entry) : entry :=
  let e := free_slot e in
  let k := counts e in
  set_counts (Counters (leased k) (submitted k) (in_zone k) (out_of_zone k) (paid k) (expired_n k) (rejected_n k) (released k + 1)) e.

Definition record_release (hk : string) (c : controller) : controller := save hk (release_entry (entry_of hk c)) c.

Definition expiry_entry (now : float) (why : cause) (e : entry) : entry :=
  let before := entry_quota e (Some now) in
  let e := free_slot e in
  let k := counts e in
  let e := set_counts (match why with
                       | expired => Counters (leased k) (submitted k) (in_zone k) (out_of_zone k) (paid k) (expired_n k + 1) (rejected_n k) (released k)
                       | rejected => Counters (leased k) (submitted k) (in_zone k) (out_of_zone k) (paid k) (expired_n k) (rejected_n k + 1) (released k)
                       end) e in
  let cap' := match why with
              | rejected => clamp (before / 2)
              | expired => clamp (Z.min (before - 1) (ffloor (fmul (of_int before) EXPIRY_BACKOFF)))
              end in
  new_round now (set_cap cap' steady (cut why before) e).

Definition record_expiry (hk : string) (now : float) (why : cause) (c : controller) : controller :=
  save hk (expiry_entry now why (entry_of hk c)) c.

(** [reconcile]: the hotkeys are visited once each, in the order of a set. *)
Definition reconcile_one (open_counts : gmap string Z) (c : controller) (hk : string) : controller :=
  let e := entry_of hk c in
  let n := default 0 (open_counts !! hk) in
  if in_use e =? n then Controller (<[hk := e]> (hotkeys c)) (saved c) else save hk (set_in_use n e) c.

Definition reconcile (open_counts : gmap string Z) (c : controller) : controller :=
  foldl (reconcile_one open_counts) c
    (elements (dom open_counts ∪ dom (filter (fun he => in_use he.2 <> 0) (hotkeys c)))).
End quota.

(** ** The controller as a transition system *)

Inductive quota_step (cfg : quota_config) : controller -> controller -> Prop :=
  | step_lease hk now c : quota_step cfg c (record_lease cfg hk now c)
  | step_submission hk zone c : quota_step cfg c (record_submission cfg hk zone c)
  | step_paid hk issued_at submitted_at now c : quota_step cfg c (record_paid cfg hk issued_at submitted_at now c)
  | step_release hk c : quota_step cfg c (record_release cfg hk c)
  | step_expiry hk now why c : quota_step cfg c (record_expiry cfg hk now why c)
  | step_reconcile open_counts c : (forall hk n, open_counts !! hk = Some n -> 0 <= n) ->
      quota_step cfg c (reconcile cfg open_counts c)
  | step_attach table c : saved c = Some table \/ (saved c = None /\ table = ∅) -> quota_step cfg c (attach table c).

(** ** The invariant *)

Record entry_ok (cfg : quota_config) (e : entry) : Prop := {
  ok_cap : floor cfg <= cap e <= ceiling cfg;
  ok_in_use : 0 <= in_use e;
  ok_round : floor cfg <= round_quota e <= ceiling cfg;
  ok_delivered : 0 <= delivered e < Z.max 1 (round_quota e);
}.

Definition entries_ok (cfg : quota_config) (m : gmap string entry) : Prop := forall hk e, m !! hk = Some e -> entry_ok cfg e.

Definition controller_ok (cfg : quota_config) (c : controller) : Prop :=
  entries_ok cfg (hotkeys c) /\ forall table, saved c = Some table -> entries_ok cfg table.

Section invariant.
Context (cfg : quota_config) (Hcfg : valid_quota cfg = true).

Lemma config_bounds : 1 <= floor cfg /\ floor cfg <= initial cfg /\ initial cfg <= ceiling cfg.
Proof.
  pose proof Hcfg as H. unfold valid_quota in H. split_andb H.
  split_and!; by apply Z.leb_le.
Qed.

Lemma clamp_bounds n : floor cfg <= clamp cfg n <= ceiling cfg.
Proof. pose proof config_bounds. unfold clamp. lia. Qed.

Lemma entry_quota_bounds e now : floor cfg <= entry_quota cfg e now <= ceiling cfg.
Proof. unfold entry_quota. destruct (phase_of e), (target cfg e now); apply clamp_bounds. Qed.

Lemma new_entry_ok : entry_ok cfg (new_entry cfg).
Proof. pose proof config_bounds. split; cbn; lia. Qed.

Lemma entry_of_ok hk c : controller_ok cfg c -> entry_ok cfg (entry_of cfg hk c).
Proof. intros [H _]. unfold entry_of. destruct (hotkeys c !! hk) eqn:E; [by eapply H|apply new_entry_ok]. Qed.

Lemma save_ok hk e c : controller_ok cfg c -> entry_ok cfg e -> controller_ok cfg (save hk e c).
Proof.
  intros [H1 H2] He. split; cbn.
  - intros hk' e'. rewrite lookup_insert. case_decide; [by intros [= <-]|apply H1].
  - intros table. destruct (saved c) as [t|]; [|done]. intros [= <-] hk' e'. rewrite lookup_insert.
    case_decide; [by intros [= <-]|by apply (H2 t)].
Qed.

Lemma new_round_ok now e : floor cfg <= cap e <= ceiling cfg -> 0 <= in_use e -> entry_ok cfg (new_round cfg now e).
Proof. intros Hc Hu. pose proof (entry_quota_bounds e (Some now)). pose proof config_bounds. split; cbn; lia. Qed.

Lemma lease_entry_ok now e : entry_ok cfg e -> entry_ok cfg (lease_entry cfg now e).
Proof.
  intros [H1 H2 H3 H4]. unfold lease_entry. cbv zeta. set (e1 := set_counts _ _).
  assert (entry_ok cfg e1) as He1 by (split; cbn; lia). destruct (_ <=? _); [|done]. by destruct He1.
Qed.

Lemma submission_entry_ok zone e : entry_ok cfg e -> entry_ok cfg (submission_entry zone e).
Proof. intros [H1 H2 H3 H4]. split; cbn; lia. Qed.

Lemma release_entry_ok e : entry_ok cfg e -> entry_ok cfg (release_entry e).
Proof. intros [H1 H2 H3 H4]. split; cbn; lia. Qed.

Lemma end_round_ok now e : floor cfg <= cap e <= ceiling cfg -> 0 <= in_use e -> entry_ok cfg (end_round cfg now e).
Proof.
  intros Hc Hu. unfold end_round. cbv zeta. pose proof (clamp_bounds (Z.max (cap e) (2 * round_quota e))).
  destruct (saturated e); [by apply new_round_ok|]. destruct (phase_of e); by apply new_round_ok.
Qed.

Lemma paid_entry_ok i s now e : entry_ok cfg e -> entry_ok cfg (paid_entry cfg i s now e).
Proof.
  intros [H1 H2 H3 H4]. unfold paid_entry. cbv zeta. set (e1 := set_round _ _ _ _).
  destruct (Z.leb_spec (Z.max 1 (round_quota e1)) (delivered e1)) as [|Hlt]; [by apply end_round_ok|].
  split; [done|done|done|]. cbn in *. lia.
Qed.

Lemma expiry_entry_ok now why e : entry_ok cfg e -> entry_ok cfg (expiry_entry cfg now why e).
Proof.
  intros [H1 H2 H3 H4]. unfold expiry_entry. cbv zeta. apply new_round_ok; cbn; [|lia].
  destruct why; apply clamp_bounds.
Qed.

Lemma reconcile_ok open_counts c : (forall hk n, open_counts !! hk = Some n -> 0 <= n) -> controller_ok cfg c ->
  controller_ok cfg (reconcile cfg open_counts c).
Proof.
  intros Hn. unfold reconcile. generalize (elements (dom open_counts ∪ dom (filter (fun he => in_use he.2 <> 0) (hotkeys c)))).
  intros l. revert c. induction l as [|hk l IH]; intros c Hc; [done|]. cbn [foldl]. apply IH.
  pose proof (entry_of_ok hk c Hc) as He. unfold reconcile_one. destruct (_ =? _).
  - split; cbn; [|apply Hc]. intros hk' e'. rewrite lookup_insert. case_decide; [by intros [= <-]|apply (proj1 Hc)].
  - apply save_ok; [done|]. destruct He. split; [done| |done|done]. cbn.
    destruct (open_counts !! hk) eqn:E; cbn; [by eapply Hn|lia].
Qed.

Lemma attach_ok table c : controller_ok cfg c -> saved c = Some table \/ (saved c = None /\ table = ∅) ->
  controller_ok cfg (attach table c).
Proof.
  intros [_ H2] Ht. assert (entries_ok cfg table) as Hok.
  { destruct Ht as [Ht|[_ ->]]; [by apply H2|]. intros hk e. by rewrite lookup_empty. }
  split; cbn; [|by intros ? [= <-]]. intros hk e. rewrite lookup_fmap. destruct (table !! hk) as [x|] eqn:E; [|done].
  intros [= <-]. destruct (Hok hk x E). by split.
Qed.

Lemma quota_step_ok c c' : controller_ok cfg c -> quota_step cfg c c' -> controller_ok cfg c'.
Proof.
  intros Hc. destruct 1 as [hk now c|hk zone c|hk i s now c|hk c|hk now why c|oc c Hn|t c Ht].
  - apply save_ok; [done|]. by apply lease_entry_ok, entry_of_ok.
  - apply save_ok; [done|]. by apply submission_entry_ok, entry_of_ok.
  - apply save_ok; [done|]. by apply paid_entry_ok, entry_of_ok.
  - apply save_ok; [done|]. by apply release_entry_ok, entry_of_ok.
  - apply save_ok; [done|]. by apply expiry_entry_ok, entry_of_ok.
  - by apply reconcile_ok.
  - by apply attach_ok.
Qed.

Lemma new_controller_ok : controller_ok cfg new_controller.
Proof. split; cbn; [|done]. intros hk e. by rewrite lookup_empty. Qed.

Lemma quota_reachable_ok c : rtc (quota_step cfg) new_controller c -> controller_ok cfg c.
Proof. apply rtc_invariant; [apply quota_step_ok|apply new_controller_ok]. Qed.

(** ** How the quota moves *)

(** A cap bounds the quota. *)
Lemma entry_quota_le_cap e now : floor cfg <= cap e -> entry_quota cfg e now <= cap e.
Proof.
  intros Hc. pose proof config_bounds. unfold entry_quota, clamp. destruct (phase_of e); [lia|]. destruct (target cfg e now); lia.
Qed.

(** Freeing a slot leaves the quota. *)
Lemma entry_quota_frame e e' now : cap e' = cap e -> phase_of e' = phase_of e -> buckets e' = buckets e -> since e' = since e ->
  entry_quota cfg e' now = entry_quota cfg e now.
Proof. intros H1 H2 H3 H4. unfold entry_quota, target, measure. by rewrite H1, H2, H3, H4. Qed.

Lemma expiry_cuts now why e later : entry_ok cfg e ->
  entry_quota cfg (expiry_entry cfg now why e) later <=
  Z.max (floor cfg) (match why with expired => entry_quota cfg e (Some now) - 1 | rejected => entry_quota cfg e (Some now) / 2 end).
Proof.
  intros Hok. pose proof (expiry_entry_ok now why e Hok) as Hok'. pose proof (entry_quota_le_cap (expiry_entry cfg now why e) later) as Hle.
  assert (cap (expiry_entry cfg now why e) <=
    Z.max (floor cfg) (match why with expired => entry_quota cfg e (Some now) - 1 | rejected => entry_quota cfg e (Some now) / 2 end)) as Hc.
  { unfold expiry_entry, clamp. cbn. destruct why; lia. }
  pose proof (ok_cap cfg _ Hok'). lia.
Qed.

Lemma paid_cap i s now e : entry_ok cfg e ->
  let e' := paid_entry cfg i s now e in
  if (Z.max 1 (round_quota e) <=? delivered e + 1) && saturated e
  then cap e' = clamp cfg (Z.max (cap e) (2 * round_quota e)) /\ delivered e' = 0
  else cap e' = cap e.
Proof.
  intros _. cbv zeta. unfold paid_entry. cbv zeta. set (e1 := set_round _ _ _ _).
  change (round_quota e1) with (round_quota e). change (delivered e1) with (delivered e + 1).
  destruct (_ <=? _); cbn [andb]; [|done]. unfold end_round. cbv zeta. change (saturated e1) with (saturated e).
  destruct (saturated e); [done|]. by destruct (phase_of e1).
Qed.
End invariant.

(** ** Claims *)

(** The quota stays within its bounds.  Whatever the events, in any order and
    across restarts, every hotkey's quota is between [floor] and [ceiling], its
    slots in use are never negative, and a round ends as soon as a quota's worth of
    paid groups is delivered. *)
Theorem quota_within_bounds (cfg : quota_config) (c : controller) (hk : string) (now : option float) :
  valid_quota cfg = true -> rtc (quota_step cfg) new_controller c ->
  floor cfg <= quota cfg hk now c <= ceiling cfg /\ 0 <= quota_in_use hk c /\
  forall e, hotkeys c !! hk = Some e -> 0 <= delivered e < Z.max 1 (round_quota e) /\ round_quota e <= ceiling cfg.
Proof.
  intros Hcfg Hc. destruct (quota_reachable_ok cfg Hcfg c Hc) as [Hok _]. split_and!.
  - apply (entry_quota_bounds cfg Hcfg).
  - apply (entry_quota_bounds cfg Hcfg).
  - unfold quota_in_use. destruct (hotkeys c !! hk) as [e|] eqn:E; cbn; [|lia]. apply (ok_in_use cfg e). by eapply Hok.
  - intros e He. destruct (Hok hk e He) as [_ _ H3 H4]. split; [done|]. lia.
Qed.

(** The quota moves as AIMD says.  An expiry takes at least one lease off the
    quota and a rejection halves it, down to the floor, whatever was measured since;
    a release or a submission leaves every quota as it was; a paid group moves the cap
    only when it completes a round that used the full quota, and then to at most
    twice the round's; and an event of one hotkey never moves another's quota. *)
Theorem quota_moves_aimd (cfg : quota_config) (c : controller) (hk : string) (now issued_at submitted_at : float)
    (later : option float) :
  valid_quota cfg = true -> rtc (quota_step cfg) new_controller c ->
  let before := quota cfg hk (Some now) c in
  let e := entry_of cfg hk c in
  quota cfg hk later (record_expiry cfg hk now expired c) <= Z.max (floor cfg) (before - 1) /\
  quota cfg hk later (record_expiry cfg hk now rejected c) <= Z.max (floor cfg) (before / 2) /\
  quota cfg hk later (record_release cfg hk c) = quota cfg hk later c /\
  (forall zone, quota cfg hk later (record_submission cfg hk zone c) = quota cfg hk later c) /\
  (cap (entry_of cfg hk (record_paid cfg hk issued_at submitted_at now c)) <> cap e ->
     Z.max 1 (round_quota e) <= delivered e + 1 /\ saturated e = true /\
     cap (entry_of cfg hk (record_paid cfg hk issued_at submitted_at now c)) <= Z.max (cap e) (2 * round_quota e)) /\
  forall hk' zone why, hk' <> hk ->
    quota cfg hk' later (record_lease cfg hk now c) = quota cfg hk' later c /\
    quota cfg hk' later (record_submission cfg hk zone c) = quota cfg hk' later c /\
    quota cfg hk' later (record_paid cfg hk issued_at submitted_at now c) = quota cfg hk' later c /\
    quota cfg hk' later (record_release cfg hk c) = quota cfg hk' later c /\
    quota cfg hk' later (record_expiry cfg hk now why c) = quota cfg hk' later c.
Proof.
  intros Hcfg Hc before e. pose proof (quota_reachable_ok cfg Hcfg c Hc) as Hok. pose proof (entry_of_ok cfg Hcfg hk c Hok) as He.
  fold e in He. assert (forall t, quota cfg hk t c = entry_quota cfg e t) as Hq.
  { intros t. unfold quota, e, entry_of. destruct (hotkeys c !! hk); [done|]. by apply entry_quota_frame. }
  assert (forall x t, quota cfg hk t (save hk x c) = entry_quota cfg x t) as Hsave by (intros x t; unfold quota; cbn; by rewrite lookup_insert_eq).
  assert (forall x, entry_of cfg hk (save hk x c) = x) as Hentry by (intros x; unfold entry_of; cbn; by rewrite lookup_insert_eq).
  split_and!.
  - unfold record_expiry, before. rewrite Hsave, Hq. by apply (expiry_cuts cfg Hcfg now expired e later).
  - unfold record_expiry, before. rewrite Hsave, Hq. by apply (expiry_cuts cfg Hcfg now rejected e later).
  - unfold record_release. rewrite Hsave, Hq. by apply entry_quota_frame.
  - intros zone. unfold record_submission. rewrite Hsave, Hq. by apply entry_quota_frame.
  - unfold record_paid. rewrite Hentry. fold e. pose proof (paid_cap cfg issued_at submitted_at now e He) as Hp. cbv zeta in Hp.
    destruct (Z.leb_spec (Z.max 1 (round_quota e)) (delivered e + 1)) as [Hr|]; cbn [andb] in Hp; [|done].
    destruct (saturated e); [|done]. destruct Hp as [-> _]. intros _. split_and!; [done|done|].
    pose proof (ok_cap cfg e He). unfold clamp. lia.
  - intros hk' zone why Hne. unfold quota, record_lease, record_submission, record_paid, record_release, record_expiry. cbn.
    by rewrite !lookup_insert_ne by done.
Qed.

(** *** One hotkey at the default configuration *)

Definition w_quota : quota_config := QuotaConfig 4 1 2048 (flit 3 2) (of_int 900).
Definition w_leased : controller := record_lease w_quota "alice" (of_int 100) new_controller.

Lemma w_leased_reachable : rtc (quota_step w_quota) new_controller w_leased.
Proof. apply rtc_once, step_lease. Qed.

Lemma quota_within_bounds_witness : 1 <= quota w_quota "alice" None w_leased <= 2048.
Proof.
  apply (quota_within_bounds w_quota w_leased "alice" None); [vm_compute; reflexivity|apply w_leased_reachable].
Defined.

Lemma quota_moves_aimd_witness :
  quota w_quota "alice" (Some (of_int 100)) w_leased = 4 /\
  quota w_quota "alice" None (record_expiry w_quota "alice" (of_int 100) rejected w_leased) <= 2.
Proof.
  split; [vm_compute; reflexivity|].
  destruct (quota_moves_aimd w_quota w_leased "alice" (of_int 100) 0 0 None) as (_ & H & _);
    [vm_compute; reflexivity|apply w_leased_reachable|].
  etrans; [exact H|]. vm_compute. discriminate.
Defined.
