(* ===== verification/RlLeases.v ===== *)
(** * RlLeases: the RL lease book

    Models [LeaseBook] of [reliquary/validator/rl_leases.py]: the reservation of
    prompts before they are generated, their expiry, release or submission, the
    secrets their draws derive from, bans, and the lifecycle of a prompt.

    The SQLite tables are maps from their primary keys; the partial unique index
    [rl_leases_live] is checked at each insertion.  A transaction that raises leaves
    the tables as they were but not the memory of the process, the quota's entries
    included ([rollback]).  A query without ORDER BY returns its rows in the
    database's own order, the parameter [scan].  Random choices (the shuffle of the
    claims, lease ids, secrets), the clock, the cooldown schedule, the lane maxima
    and the sandbox's verdict on a lease are parameters.  Integers SQLite cannot hold
    raise [OverflowError].  [LeaseCollector] only batches requests for [grant]. *)

From S2P Require Import Prelude PyFloat Bytes Sha256 RlQuota.

#[local] Open Scope Z_scope.

Definition DAY_S : float := of_int 86400.
Definition MAX_PROMPTS_PER_REQUEST : Z := 1024.
Definition RESTART_GRACE_S : float := of_int 120.
Definition ALIVE_EVERY_S : float := of_int 30.
Definition DOWNTIME_MIN_S : float := of_int 90.
Definition HOTKEY_MAX_OPEN : Z := 64.

(** ** Nonces and commitments *)

Definition NONCE_DOMAIN : list Z := encode "reliquary/rl-lease-nonce/v1".
Definition COMMIT_DOMAIN : list Z := encode "reliquary/rl-lease-secret-commit/v1".

(** [len(part).to_bytes(4, "big")] overflows past 2^32 bytes. *)
Definition framed (part : list Z) : result (list Z) :=
  if 2 ^ 32 <=? Z.of_nat (length part) then Raise OverflowError else Ok (to_bytes_be 4 (Z.of_nat (length part)) ++ part).

Fixpoint frames (parts : list (list Z)) : result (list Z) :=
  match parts with
  | [] => Ok []
  | p :: ps => f ← framed p; fs ← frames ps; Ok (f ++ fs)
  end.

Definition bound (domain : list Z) (parts : list (list Z)) : result (list Z) :=
  fs ← frames parts; Ok (sha256 (domain ++ fs)).

Definition u64 (value : Z) : result (list Z) :=
  if value <? 0 then Raise ValueError
  else if 2 ^ 64 <=? value then Raise OverflowError else Ok (to_bytes_be 8 value).

Definition lease_nonce (secret : list Z) (environment : string) (prompt_idx checkpoint : Z) : result (list Z) :=
  p ← u64 prompt_idx; k ← u64 checkpoint; bound NONCE_DOMAIN [secret; encode environment; p; k].

Definition secret_commitment (secret : list Z) (checkpoint : Z) : result (list Z) :=
  k ← u64 checkpoint; bound COMMIT_DOMAIN [secret; k].

(** A secret too long to frame raises [OverflowError], which is not caught. *)
Definition verify_reveal (commitment : list Z) (checkpoint : Z) (secret : list Z) : result bool :=
  match secret_commitment secret checkpoint with
  | Ok c => Ok (bool_decide (c = commitment))
  | Raise ValueError => Ok false
  | Raise e => Raise e
  end.

Definition lease_expiry_s (max_tokens : Z) (reference_tokens_per_s margin : float) : result float :=
  if negb ((0 <? max_tokens) && (0 <? reference_tokens_per_s) && (fone <=? margin)) then Raise ValueError
  else Ok (fmul (fdiv (of_int max_tokens) reference_tokens_per_s) margin).

(** ** The verdict on a group *)

Inductive verdict := IN_ZONE | TOO_EASY | TOO_HARD | TRUNCATED.
#[export] Instance verdict_eq_dec : EqDecision verdict.
Proof. solve_decision. Defined.

Definition MAX_TRUNCATED_PER_SUBMISSION : Z := 1.
Definition SIGMA_MIN_V4 : float := flit 24 100.

(** The square root of [p / q], rounded to the nearest float (ties to even); in units
    of 2^-1074 when [p / q] is in units of 2^-2148. *)
Definition fsqrt (p q : Z) : float :=
  let e := Z.max 0 (Z.log2 (Z.sqrt (p / q)) - 52) in
  let k := Z.sqrt (p / (q * 4 ^ e)) in
  let mid := q * 4 ^ e * (2 * k + 1) ^ 2 in
  (if (4 * p <? mid) || ((4 * p =? mid) && Z.even k) then k else k + 1) * 2 ^ e.

(** [statistics.pstdev]: the variance is exact, its root correctly rounded. *)
Definition pstdev (l : list float) : float :=
  let n := Z.of_nat (length l) in
  fsqrt (n * Zsum ((fun x => x * x) <$> l) - Zsum l * Zsum l) (n * n).
(** [statistics.fmean] *)
Definition fmean (l : list float) : float := fdiv (fsum l) (of_int (Z.of_nat (length l))).

(** Floats are finite here, so the test of [math.isfinite] always passes. *)
Definition classify_group (rewards : list float) (truncated : list bool) (max_truncated : Z) (sigma_min : float) : result verdict :=
  if bool_decide (rewards = []) || negb (length rewards =? length truncated)%nat then Raise ValueError
  else if max_truncated <? Z.of_nat (length (filter (fun t => t = true) truncated)) then Ok TRUNCATED
  else if sigma_min <=? pstdev rewards then Ok IN_ZONE
  else if flit 1 2 <=? fmean rewards then Ok TOO_EASY else Ok TOO_HARD.

(** ** Data *)

Record request := LeaseRequest { req_hotkey : string; req_env : string; prompt_ids : list Z; req_k : Z }.

Inductive lease_state := OPEN | SUBMITTED | EXPIRED | RELEASED.
#[export] Instance lease_state_eq_dec : EqDecision lease_state.
Proof. solve_decision. Defined.

Record lease := Lease {
  lease_id : string;
  hotkey : string;
  environment : string;
  prompt_idx : Z;
  checkpoint : Z;
  nonce : string;
  issued_at : float;
  expires_at : float;
  state : lease_state;
}.

(** A row of [rl_leases]. *)
Record lease_row := LeaseRow { row_lease : lease; closed_at : option float; cause_of : option string }.

Record secret_row := SecretRow { secret : list Z; commitment : list Z; adopted_at : float; revealed_at : option float }.

Inductive refusal := TAKEN | COOLING | BLACKLISTED | QUOTA | STALE | BANNED | FULL.
#[export] Instance refusal_eq_dec : EqDecision refusal.
Proof. solve_decision. Defined.

Inductive prompt_mode := COOLDOWN | BLACKLIST.
#[export] Instance prompt_mode_eq_dec : EqDecision prompt_mode.
Proof. solve_decision. Defined.

Record prompt_row := PromptRow {
  mode : prompt_mode;
  until_k : option Z;
  state_seq : Z;
  start_k : option Z;
  revised : bool;
}.

Record scan_row := ScanRow {
  scan_env : string;
  scan_prompt : Z;
  scan_k : Z;
  scan_rewards : list float;
  scan_verdict : verdict;
  first_scan : bool;
  scan_at : float;
  scan_mode : prompt_mode;
  scan_until : option Z;
}.

Record book_config := LeaseBookConfig {
  expiry_s : gmap string float;
  max_lag : Z;
  prompt_range : string -> option (Z -> bool);
  max_pending_groups : option Z;
  lane_reserve : gmap string Z;
  box_failed_releases_per_day : Z;
}.

(** [__post_init__] *)
Definition valid_book_config (c : book_config) : bool :=
  negb (bool_decide (expiry_s c = ∅)) && bool_decide (map_Forall (fun _ v => 0 < v) (expiry_s c)) && (0 <=? max_lag c)
  && match max_pending_groups c with Some n => 1 <=? n | None => true end
  && bool_decide (map_Forall (fun _ v => 0 <= v) (lane_reserve c))
  && (bool_decide (lane_reserve c = ∅)
      || match max_pending_groups c with Some n => map_sum (fun _ v => v) (lane_reserve c) <=? n | None => false end)
  && (0 <=? box_failed_releases_per_day c).

(** The tables, then the memory of the process. *)
Record book := Book {
  latest : option Z;
  secrets : gmap Z secret_row;
  leases : gmap string lease_row;
  scans : gmap Z scan_row;
  scan_seq : Z;                               (** [sqlite_sequence]; no row is 0 *)
  prompts : gmap (string * Z) prompt_row;
  bans : gmap string float;
  alive : option float;
  downtime : list (float * float);
  quotas : controller;
  full : gset string;
  lane_full : gset string;
  submitting : gmap string Z;
  alive_at : option float;
}.

Definition set_leases m b := Book (latest b) (secrets b) m (scans b) (scan_seq b) (prompts b) (bans b) (alive b) (downtime b)
  (quotas b) (full b) (lane_full b) (submitting b) (alive_at b).
Definition set_quotas q b := Book (latest b) (secrets b) (leases b) (scans b) (scan_seq b) (prompts b) (bans b) (alive b) (downtime b)
  q (full b) (lane_full b) (submitting b) (alive_at b).
Definition set_full f g b := Book (latest b) (secrets b) (leases b) (scans b) (scan_seq b) (prompts b) (bans b) (alive b) (downtime b)
  (quotas b) f g (submitting b) (alive_at b).
Definition set_submitting m b := Book (latest b) (secrets b) (leases b) (scans b) (scan_seq b) (prompts b) (bans b) (alive b) (downtime b)
  (quotas b) (full b) (lane_full b) m (alive_at b).
Definition set_bans m b := Book (latest b) (secrets b) (leases b) (scans b) (scan_seq b) (prompts b) m (alive b) (downtime b)
  (quotas b) (full b) (lane_full b) (submitting b) (alive_at b).
Definition set_secrets k m b := Book (Some k) m (leases b) (scans b) (scan_seq b) (prompts b) (bans b) (alive b) (downtime b)
  (quotas b) (full b) (lane_full b) (submitting b) (alive_at b).
Definition set_prompts s n m b := Book (latest b) (secrets b) (leases b) s n m (bans b) (alive b) (downtime b)
  (quotas b) (full b) (lane_full b) (submitting b) (alive_at b).
Definition set_downtime d b := Book (latest b) (secrets b) (leases b) (scans b) (scan_seq b) (prompts b) (bans b) (alive b) d
  (quotas b) (full b) (lane_full b) (submitting b) (alive_at b).
Definition mark_alive_at now b := Book (latest b) (secrets b) (leases b) (scans b) (scan_seq b) (prompts b) (bans b) (Some now) (downtime b)
  (quotas b) (full b) (lane_full b) (submitting b) (Some now).

(** What a transaction that raised leaves: the tables of before, the memory of after. *)
Definition rollback (before after : book) : book :=
  Book (latest before) (secrets before) (leases before) (scans before) (scan_seq before) (prompts before) (bans before) (alive before)
    (downtime before) (Controller (hotkeys (quotas after)) (saved (quotas before))) (full after) (lane_full after) (submitting after) (alive_at after).

Definition empty_book : book := Book None ∅ ∅ ∅ 0 ∅ ∅ None [] (attach ∅ new_controller) ∅ ∅ ∅ None.

Definition is_open (r : lease_row) : bool := bool_decide (state (row_lease r) = OPEN).
Definition is_submitted (r : lease_row) : bool := bool_decide (state (row_lease r) = SUBMITTED).

Definition set_lease_state (s : lease_state) (l : lease) : lease :=
  Lease (lease_id l) (hotkey l) (environment l) (prompt_idx l) (checkpoint l) (nonce l) (issued_at l) (expires_at l) s.
Definition set_expiry (t : float) (l : lease) : lease :=
  Lease (lease_id l) (hotkey l) (environment l) (prompt_idx l) (checkpoint l) (nonce l) (issued_at l) t (state l).

Section book.
Context (cfg : book_config) (qcfg : quota_config).
(** The database's order of the rows, and the sandbox's verdict on a lease. *)
Context (scan : gmap string lease_row -> list (string * lease_row)) (sandbox_failure : lease -> option string).

Definition select (p : lease_row -> bool) (b : book) : list lease :=
  (fun r => row_lease r.2) <$> filter (fun r => p r.2 = true) (scan (leases b)).

Definition in_use_of (hk : string) (b : book) : Z :=
  Z.of_nat (length (select (fun r => bool_decide (hotkey (row_lease r) = hk) && is_open r) b)).

Definition banned (hk : string) (now : float) (b : book) : bool :=
  match bans b !! hk with Some until => now <? until | None => false end.

(** ** Closing a lease without a submission *)

Definition close_row (s : lease_state) (now : float) (why : option string) (r : lease_row) : lease_row :=
  LeaseRow (set_lease_state s (row_lease r)) (Some now) why.

Definition lived_through_downtime (l : lease) (now : float) (b : book) : bool :=
  existsb (fun d => (issued_at l <=? d.1) && (d.1 <? now)) (downtime b).

Definition box_failed_used (hk : string) (now : float) (b : book) : Z :=
  Z.of_nat (length (filter (fun r => hotkey (row_lease r.2) = hk /\ state (row_lease r.2) = RELEASED /\
    cause_of r.2 = Some "box_failed"%string /\ match closed_at r.2 with Some t => fsub now DAY_S <? t | None => false end = true) (scan (leases b)))).

(** The cause a lease is released for, or the cause it is charged for. *)
Definition release_cause (l : lease) (now : float) (charged : string) (b : book) : sum string string :=
  let failure := sandbox_failure l in
  let over := match failure with
              | Some c => String.eqb c "box_failed" && (box_failed_releases_per_day cfg <=? box_failed_used (hotkey l) now b)
              | None => false
              end in
  if over then inr "box_failed_over_budget"%string
  else match failure with
       | Some c => inl c
       | None => if negb (String.eqb charged "box_failed_over_budget") && lived_through_downtime l now b
                 then inl "validator_unavailable"%string else inr charged
       end.

Definition close_unsubmitted (l : lease) (now : float) (charged : string) (b : book) : lease_state * book :=
  match release_cause l now charged b with
  | inr why => (EXPIRED, set_quotas (record_expiry qcfg (hotkey l) now expired (quotas b))
                           (set_leases (alter (close_row EXPIRED now (Some why)) (lease_id l) (leases b)) b))
  | inl why => (RELEASED, set_quotas (record_release qcfg (hotkey l) (quotas b))
                            (set_leases (alter (close_row RELEASED now (Some why)) (lease_id l) (leases b)) b))
  end.

Definition due (now : float) (b : book) : list lease :=
  filter (fun l => submitting b !! lease_id l = None) (select (fun r => is_open r && (expires_at (row_lease r) <=? now)) b).

Definition expire (now : float) (b : book) : book :=
  foldl (fun b l => (close_unsubmitted l now "expired" b).2) b (due now b).

Definition expire_due (now : float) (b : book) : Z * book := (Z.of_nat (length (due now b)), expire now b).

Definition forfeit (id hk : string) (now : float) : method book lease := fun b =>
  match leases b !! id with
  | None => (Raise LookupError, b)
  | Some r =>
      let l := row_lease r in
      if negb (String.eqb (hotkey l) hk) || negb (is_open r) || negb (bool_decide (submitting b !! lease_id l = None))
      then (Raise LookupError, b)
      else let '(s, b') := close_unsubmitted l now "forfeited" b in (Ok (set_lease_state s l), b')
  end.

(** ** Liveness of the validator *)

Definition note_downtime (since now : float) (b : book) : book :=
  let down := fsub now since in
  if down <=? DOWNTIME_MIN_S then b
  else set_leases ((fun r => if is_open r then LeaseRow (set_expiry (fadd (expires_at (row_lease r)) down) (row_lease r)) (closed_at r) (cause_of r)
                             else r) <$> leases b)
         (set_downtime (downtime b ++ [(since, now)]) b).

Definition mark_alive (now : float) (b : book) : book :=
  match alive_at b with
  | Some t => if (0 <=? fsub now t) && (fsub now t <? ALIVE_EVERY_S) then b else mark_alive_at now (note_downtime t now b)
  | None => mark_alive_at now b
  end.

(** A cooldown recorded before revisions gets its start from its scan. *)
Definition legacy_start (b : book) (r : prompt_row) : prompt_row :=
  match mode r, start_k r, scans b !! state_seq r with
  | COOLDOWN, None, Some s =>
      let adopted := (filter (fun kr => adopted_at kr.2 <= scan_at s) (map_to_list (secrets b))).*1 in
      PromptRow (mode r) (until_k r) (state_seq r) (Some (foldr Z.max (scan_k s) adopted)) (revised r)
  | _, _, _ => r
  end.

Definition open_counts (b : book) : gmap string Z :=
  foldl (fun m l => <[hotkey l := default 0 (m !! hotkey l) + 1]> m) ∅ (select is_open b).

(** A new process on the same file: [attach], then [_boot]. *)
Definition restart (now : float) (b : book) : book :=
  let b := Book (latest b) (secrets b) (leases b) (scans b) (scan_seq b) (prompts b) (bans b) (alive b) (downtime b)
             (attach (default ∅ (saved (quotas b))) new_controller) ∅ ∅ ∅ None in
  let floor := fadd now RESTART_GRACE_S in
  let b := match alive b with Some t => note_downtime t now b | None => b end in
  let b := set_downtime (filter (fun d => ~ d.2 < fsub now (fmul (of_int 7) DAY_S)) (downtime b)) b in
  let b := mark_alive_at now b in
  let b := set_leases ((fun r => if is_open r && (expires_at (row_lease r) <? floor)
                                 then LeaseRow (set_expiry floor (row_lease r)) (closed_at r) (cause_of r) else r) <$> leases b) b in
  let b := set_quotas (reconcile qcfg (open_counts b) (quotas b)) b in
  set_prompts (scans b) (scan_seq b) (legacy_start b <$> prompts b) b.

(** ** Requests *)

Definition check_request (r : request) : result unit :=
  if String.eqb (req_hotkey r) "" then Raise ValueError
  else match expiry_s cfg !! req_env r with
  | None => Raise ValueError
  | Some _ =>
      if req_k r <? 0 then Raise ValueError
      else if bool_decide (prompt_ids r = []) || (MAX_PROMPTS_PER_REQUEST <? Z.of_nat (length (prompt_ids r))) then Raise ValueError
      else if existsb (fun p => p <? 0) (prompt_ids r) || negb (bool_decide (NoDup (prompt_ids r))) then Raise ValueError
      else match prompt_range cfg (req_env r) with
      | Some inside => if existsb (fun p => negb (inside p)) (prompt_ids r) then Raise ValueError else Ok tt
      | None => Ok tt
      end
  end.

(** ** Granting an interval *)

(** [buffered]: the environment of each row of [rl_buffer]. *)
Definition pending_by_env (buffered : list string) : gmap string Z :=
  foldl (fun m e => <[e := default 0 (m !! e) + 1]> m) ∅ buffered.

Definition lane_room (env : string) (pending : Z) (by_env reserve : gmap string Z) (cap : Z) : bool :=
  if bool_decide (reserve = ∅) then pending <? cap
  else if default 0 (by_env !! env) <? default 0 (reserve !! env) then true
  else map_sum (fun e r => Z.max (default 0 (by_env !! e)) r) reserve
       + map_sum (fun _ n => n) (filter (fun en => reserve !! en.1 = None) by_env) <? cap.

(** The requester's own open lease of a key: a resend. *)
Definition held (hk env : string) (p k : Z) (b : book) : option lease :=
  head (select (fun r => is_open r && bool_decide (hotkey (row_lease r) = hk /\ environment (row_lease r) = env /\
                                              prompt_idx (row_lease r) = p /\ checkpoint (row_lease r) = k)) b).

(** [-1] for a banned hotkey. *)
Definition room_of (hk : string) (now : float) (b : book) : Z :=
  if banned hk now b then -1
  else
    let limit := quota qcfg hk (Some now) (quotas b) in
    let limit := match max_pending_groups cfg with Some _ => Z.min limit HOTKEY_MAX_OPEN | None => limit end in
    Z.max 0 (limit - in_use_of hk b).

(** The loop over the claims: the book, the room left, and the answers by request and
    prompt; [issued] counts the lease ids drawn. *)
Record granting := Granting {
  g_book : book;
  room : gmap string Z;
  granted : gmap (nat * Z) lease;
  refused : gmap (nat * Z) refusal;
  issued : nat;
}.

Definition refuse (i : nat) (p : Z) (why : refusal) (g : granting) : granting :=
  Granting (g_book g) (room g) (granted g) (<[(i, p) := why]> (refused g)) (issued g).

Definition initial_room (requests : list request) (now : float) (b : book) : gmap string Z :=
  list_to_map ((fun r => (req_hotkey r, room_of (req_hotkey r) now b)) <$> requests).

(** One request's prompts, in its own order: what needs no claim is answered. *)
Fixpoint ask (i : nat) (r : request) (rm : Z) (ps : list Z) (asked : Z) (g : granting) : list (nat * Z) * granting :=
  match ps with
  | [] => ([], g)
  | p :: ps' =>
      if rm <? 0 then ask i r rm ps' asked (refuse i p BANNED g)
      else match held (req_hotkey r) (req_env r) p (req_k r) (g_book g) with
      | Some l => ask i r rm ps' asked (Granting (g_book g) (room g) (<[(i, p) := l]> (granted g)) (refused g) (issued g))
      | None =>
          if rm <=? asked then ask i r rm ps' asked (refuse i p QUOTA g)
          else let '(claims, g') := ask i r rm ps' (asked + 1) g in ((i, p) :: claims, g')
      end
  end.

Fixpoint ask_all (i : nat) (requests : list request) (g : granting) : list (nat * Z) * granting :=
  match requests with
  | [] => ([], g)
  | r :: rs =>
      let '(claims, g1) := ask i r (default 0 (room g !! req_hotkey r)) (prompt_ids r) 0 g in
      let '(claims', g2) := ask_all (S i) rs g1 in
      (claims ++ claims', g2)
  end.

Context (token : nat -> string) (shuffle : list (nat * Z) -> list (nat * Z)).
Context (buffered : list string) (lane_max : gmap string Z).

Definition live_conflict (l : lease) (b : book) : bool :=
  negb (bool_decide (select (fun r => (is_open r || is_submitted r) &&
    bool_decide (environment (row_lease r) = environment l /\ prompt_idx (row_lease r) = prompt_idx l /\
                 checkpoint (row_lease r) = checkpoint l)) b = [])).

(** [INSERT INTO rl_leases] under the primary key and the unique index. *)
Definition insert_lease (l : lease) (b : book) : result book :=
  if bool_decide (is_Some (leases b !! lease_id l)) || live_conflict l b then Raise IntegrityError
  else Ok (set_leases (<[lease_id l := LeaseRow l None None]> (leases b)) b).

Definition prompt_taken (env : string) (p k : Z) (b : book) : bool :=
  negb (bool_decide (select (fun r => bool_decide (environment (row_lease r) = env /\ prompt_idx (row_lease r) = p) &&
    (is_open r || (is_submitted r && (checkpoint (row_lease r) =? k)))) b = [])).

(** Why a claim is refused, before the room and the caps are looked at. *)
Definition prompt_refusal (env : string) (p k : Z) (b : book) : result (option refusal) :=
  match secrets b !! k with
  | Some (SecretRow _ _ _ None) =>
      if 2 ^ 63 <=? p then Raise OverflowError
      else if prompt_taken env p k b then Ok (Some TAKEN)
      else match prompts b !! (env, p) with
      | None => Ok None
      | Some (PromptRow BLACKLIST _ _ _ _) => Ok (Some BLACKLISTED)
      | Some (PromptRow COOLDOWN until _ _ _) =>
          match latest b, until with
          | Some n, Some u => Ok (if n <? u then Some COOLING else None)
          | _, _ => Raise TypeError
          end
      end
  | _ => Ok (Some STALE)
  end.

Definition no_lane (env : string) : bool :=
  match lane_max !! env with Some m => m <=? default 0 (pending_by_env buffered !! env) | None => false end.
Definition no_cap_room (env : string) : bool :=
  match max_pending_groups cfg with
  | Some cap => negb (lane_room env (Z.of_nat (length buffered)) (pending_by_env buffered) (lane_reserve cfg) cap)
  | None => false
  end.

Definition new_lease (hk env : string) (p k : Z) (now : float) (id : string) (b : book) : result lease :=
  match secrets b !! k, expiry_s cfg !! env with
  | Some s, Some e => n ← lease_nonce (secret s) env p k; Ok (Lease id hk env p k (hex n) now (fadd now e) OPEN)
  | _, _ => Raise KeyError
  end.

Definition claim (requests : list request) (now : float) (g : granting) (c : nat * Z) : result granting :=
  let '(i, p) := c in
  match requests !! i with
  | None => Raise IndexError
  | Some r =>
      let '(env, k, hk) := (req_env r, req_k r, req_hotkey r) in
      why ← prompt_refusal env p k (g_book g);
      match why with
      | Some w => Ok (refuse i p w g)
      | None =>
          if default 0 (room g !! hk) <=? 0 then Ok (refuse i p QUOTA g)
          else if no_lane env then
            Ok (refuse i p FULL (Granting (set_full (full (g_book g)) ({[env]} ∪ lane_full (g_book g)) (g_book g)) (room g) (granted g) (refused g) (issued g)))
          else if no_cap_room env then
            Ok (refuse i p FULL (Granting (set_full ({[env]} ∪ full (g_book g)) (lane_full (g_book g)) (g_book g)) (room g) (granted g) (refused g) (issued g)))
          else
            l ← new_lease hk env p k now (token (issued g)) (g_book g);
            b ← insert_lease l (g_book g);
            Ok (Granting (set_quotas (record_lease qcfg hk now (quotas b)) b) (<[hk := default 0 (room g !! hk) - 1]> (room g))
                  (<[(i, p) := l]> (granted g)) (refused g) (S (issued g)))
      end
  end.

Record answer := LeaseAnswer { answer_leases : list lease; answer_refused : list (Z * refusal) }.

Definition answer_of (g : granting) (i : nat) (r : request) : answer :=
  LeaseAnswer (omap (fun p => granted g !! (i, p)) (prompt_ids r))
    (omap (fun p => (fun w => (p, w)) <$> refused g !! (i, p)) (prompt_ids r)).

(** A claim that raises rolls the tables back; the memory it changed stays. *)
Fixpoint claim_all (requests : list request) (now : float) (g : granting) (claims : list (nat * Z)) : result unit * granting :=
  match claims with
  | [] => (Ok tt, g)
  | c :: cs => match claim requests now g c with Raise e => (Raise e, g) | Ok g' => claim_all requests now g' cs end
  end.

Fixpoint first_error (rs : list request) : result unit :=
  match rs with [] => Ok tt | r :: rs' => _ ← check_request r; first_error rs' end.

Definition grant (requests : list request) (now : float) : method book (list answer) := fun b =>
  match first_error requests with
  | Raise e => (Raise e, b)
  | Ok _ =>
      let b1 := expire now b in
      let '(claims, g) := ask_all 0 requests (Granting b1 (initial_room requests now b1) ∅ ∅ 0) in
      match claim_all requests now g (shuffle claims) with
      | (Raise e, g') => (Raise e, rollback b (g_book g'))
      | (Ok _, g') => (Ok (imap (answer_of g') requests), g_book g')
      end
  end.

Definition drain_full (b : book) : gset string * book := (full b, set_full ∅ (lane_full b) b).
Definition drain_lane_full (b : book) : gset string * book := (lane_full b, set_full (full b) ∅ b).

(** ** Submission *)

(** [_submittable]: the lease and the exception to raise, and the book it leaves: a
    late lease is expired at once. *)
Definition submittable (id hk : string) (now : float) (b : book) : result lease * book :=
  match leases b !! id with
  | None => (Raise LookupError, b)
  | Some r =>
      let l := row_lease r in
      if negb (String.eqb (hotkey l) hk) then (Raise PermissionError, b)
      else if negb (is_open r) then (Raise LookupError, b)
      else if expires_at l <=? now then (Raise LookupError, expire now b)
      else if banned hk now b then (Raise PermissionError, b)
      else (Ok l, b)
  end.

Definition check_submission (id hk : string) (now : float) : method book lease := fun b => submittable id hk now b.

Definition hold_submission (id hk : string) (arrived_at : float) : method book lease := fun b =>
  match check_submission id hk arrived_at b with
  | (Raise e, b') => (Raise e, b')
  | (Ok l, b') => (Ok l, set_submitting (<[id := default 0 (submitting b' !! id) + 1]> (submitting b')) b')
  end.

Definition release_submission (id : string) (b : book) : book :=
  let left := default 1 (submitting b !! id) - 1 in
  set_submitting (if 0 <? left then <[id := left]> (submitting b) else delete id (submitting b)) b.

Definition submit_row (now : float) (r : lease_row) : lease_row :=
  LeaseRow (set_lease_state SUBMITTED (row_lease r)) (Some now) (cause_of r).

Definition submit (id hk : string) (in_zone delivered : bool) (now : float) : method book lease := fun b =>
  match submittable id hk now b with
  | (Raise e, b') => (Raise e, b')
  | (Ok l, b') =>
      let b2 := set_leases (alter (submit_row now) id (leases b')) b' in
      (Ok (set_lease_state SUBMITTED l),
       set_quotas (if delivered then record_submission qcfg hk in_zone (quotas b2) else record_expiry qcfg hk now rejected (quotas b2)) b2)
  end.

Definition credit (id : string) (now : float) (b : book) : book :=
  match leases b !! id with
  | Some r => match state (row_lease r), closed_at r with
              | SUBMITTED, Some t => set_quotas (record_paid qcfg (hotkey (row_lease r)) (issued_at (row_lease r)) t now (quotas b)) b
              | _, _ => b
              end
  | None => b
  end.

Definition ban (hk : string) (until : float) (b : book) : book :=
  set_bans (<[hk := match bans b !! hk with Some u => Z.max u until | None => until end]> (bans b)) b.
Definition banned_until (hk : string) (b : book) : option float := bans b !! hk.

(** ** The lifecycle of a prompt *)

(** The schedule's cooldown of an environment, which may not be readable. *)
Context (cooldown_of : string -> result Z).

(** [seq] of the next scan: one past the greatest ever used. *)
Definition next_seq (b : book) : Z := scan_seq b + 1.

Definition easy_before (env : string) (p : Z) (b : book) : bool :=
  negb (bool_decide (filter (fun s => scan_env s.2 = env /\ scan_prompt s.2 = p /\ scan_verdict s.2 = TOO_EASY) (map_to_list (scans b)) = [])).

(** The state a scan moves its prompt to, and the checkpoint its cooldown starts at. *)
Definition next_mode (env : string) (p k : Z) (v : verdict) (cooldown : Z) (b : book) : prompt_mode * option Z * option Z :=
  let prior := prompts b !! (env, p) in
  if (bool_decide (v = TOO_EASY) && easy_before env p b)
     || match prior with Some r => bool_decide (mode r = BLACKLIST) | None => false end
  then (BLACKLIST, None, None)
  else
    let start := Z.max k (default 0 (latest b)) in
    (COOLDOWN, Some (Z.max (start + cooldown) (default 0 (prior ≫= until_k))), Some start).

Definition record_outcome (env : string) (p k : Z) (rewards : list float) (v : verdict) (now : float) : method book scan_row := fun b =>
  match expiry_s cfg !! env with
  | None => (Raise ValueError, b)
  | Some _ =>
      match (_ ← u64 p; _ ← u64 k; if bool_decide (rewards = []) then Raise ValueError else c ← cooldown_of env; _ ← u64 c; Ok c) with
      | Raise e => (Raise e, b)
      | Ok cooldown =>
          if (2 ^ 63 <=? p) || (2 ^ 63 <=? k) then (Raise OverflowError, b)
          else
            let '(m, until, start) := next_mode env p k v cooldown b in
            let row := ScanRow env p k rewards v (bool_decide (prompts b !! (env, p) = None)) now m until in
            let n := next_seq b in
            if match until with Some u => 2 ^ 63 <=? u | None => false end then (Raise OverflowError, b)
            else (Ok row, set_prompts (<[n := row]> (scans b)) n (<[(env, p) := PromptRow m until n start false]> (prompts b)) b)
      end
  end.

(** *** [revise_cooldowns] *)

Definition readable_cooldown (env : string) : option Z :=
  match (c ← cooldown_of env; _ ← u64 c; Ok c) with Ok c => Some c | Raise _ => None end.

Definition shortenable (env : string) (cooldown : Z) (kr : (string * Z) * prompt_row) : bool :=
  bool_decide (kr.1.1 = env) && bool_decide (mode kr.2 = COOLDOWN)
  && match start_k kr.2, until_k kr.2 with Some s, Some u => s + cooldown <? u | _, _ => false end.
Definition still_revised (env : string) (n : Z) (kr : (string * Z) * prompt_row) : bool :=
  bool_decide (kr.1.1 = env) && bool_decide (mode kr.2 = COOLDOWN) && revised kr.2
  && match until_k kr.2 with Some u => n <? u | None => false end.
Definition revisable (env : string) (cooldown n : Z) (kr : (string * Z) * prompt_row) : bool :=
  shortenable env cooldown kr || (still_revised env n kr && bool_decide (is_Some (start_k kr.2))).

Definition shorten (env : string) (cooldown stamp : Z) (k : string * Z) (r : prompt_row) : option prompt_row :=
  Some (if shortenable env cooldown (k, r)
        then PromptRow (mode r) ((fun s => s + cooldown) <$> start_k r) stamp (start_k r) true else r).
Definition republish (env : string) (n stamp : Z) (k : string * Z) (r : prompt_row) : option prompt_row :=
  Some (if still_revised env n (k, r) then PromptRow (mode r) (until_k r) stamp (start_k r) (revised r) else r).

(** One environment; the stamp is reserved by the first that needs it. *)
Definition revise_env (n : Z) (acc : option Z * gmap string Z * book) (env : string) : option Z * gmap string Z * book :=
  let '(stamp, shortened, b) := acc in
  match readable_cooldown env with
  | None => acc
  | Some cooldown =>
      if negb (existsb (revisable env cooldown n) (map_to_list (prompts b))) then acc
      else
        let stamp' := default (next_seq b) stamp in
        let count := Z.of_nat (length (filter (fun kr => shortenable env cooldown kr = true) (map_to_list (prompts b)))) in
        (Some stamp', if count =? 0 then shortened else <[env := count]> shortened,
         set_prompts (scans b) stamp' (map_imap (republish env n stamp') (map_imap (shorten env cooldown stamp') (prompts b))) b)
  end.

Definition revise_cooldowns (b : book) : gmap string Z * book :=
  match latest b with
  | None => (∅, b)
  | Some n => let '(_, shortened, b') := foldl (revise_env n) (None, ∅, b) (map_to_list (expiry_s cfg)).*1 in (shortened, b')
  end.

(** ** Checkpoints *)

Definition reveal (retired : Z) (now : float) (k : Z) (s : secret_row) : option secret_row :=
  Some (match revealed_at s with
        | None => if k <? retired then SecretRow (secret s) (commitment s) (adopted_at s) (Some now) else s
        | Some _ => s
        end).

(** The rows written when k is new: its secret, the reveals, and the closed keys of
    retired checkpoints dropped. *)
Definition adopted (k : Z) (fresh_secret commit : list Z) (now : float) (b : book) : book :=
  let retired := k - max_lag cfg in
  set_leases (filter (fun r => ~ (checkpoint (row_lease r.2) < retired - max_lag cfg /\ is_open r.2 = false)) (leases b))
    (set_secrets k (map_imap (reveal retired now) (<[k := SecretRow fresh_secret commit now None]> (secrets b))) b).

Definition adopt_checkpoint (k : Z) (fresh_secret : list Z) (now : float) : method book (list Z) := fun b =>
  match u64 k with
  | Raise e => (Raise e, b)
  | Ok _ =>
      if match latest b with Some n => k <? n | None => false end then (Raise ValueError, b)
      else if bool_decide (latest b = Some k) then
        match secrets b !! k with Some s => (Ok (commitment s), b) | None => (Raise TypeError, b) end
      else if 2 ^ 63 <=? k then (Raise OverflowError, b)
      else match secret_commitment fresh_secret k, secrets b !! k with
      | Raise e, _ => (Raise e, b)
      | Ok _, Some _ => (Raise IntegrityError, b)
      | Ok c, None => (Ok c, (revise_cooldowns (adopted k fresh_secret c now b)).2)
      end
  end.
End book.

(** ** Counting the open leases of a hotkey *)

Definition opens (hk : string) (r : lease_row) : bool := bool_decide (hotkey (row_lease r) = hk) && is_open r.
Definition open_count (hk : string) (m : gmap string lease_row) : Z := map_sum (fun _ r => Z.b2z (opens hk r)) m.

Lemma Zsum_b2z {A} (p : A -> bool) (l : list A) : Zsum ((fun x => Z.b2z (p x)) <$> l) = Z.of_nat (length (filter (fun x => p x = true) l)).
Proof.
  induction l as [|x l IH]; [done|]. rewrite fmap_cons, filter_cons. unfold Zsum in *. cbn [foldr].
  destruct (p x) eqn:E; [rewrite decide_True by done|rewrite decide_False by done]; cbn [length Z.b2z]; lia.
Qed.

Lemma open_count_insert hk m id r r' : m !! id = Some r ->
  open_count hk (<[id := r']> m) = open_count hk m + Z.b2z (opens hk r') - Z.b2z (opens hk r).
Proof. intros Hr. unfold open_count. rewrite map_sum_insert, Hr. done. Qed.

Lemma open_count_new hk m id r : m !! id = None -> open_count hk (<[id := r]> m) = open_count hk m + Z.b2z (opens hk r).
Proof. intros Hr. unfold open_count. rewrite map_sum_insert, Hr. cbn [from_option]. lia. Qed.

Lemma open_count_fmap hk f m : (forall r, opens hk (f r) = opens hk r) -> open_count hk (f <$> m) = open_count hk m.
Proof.
  intros Hf. unfold open_count, map_sum. rewrite map_to_list_fmap, <- list_fmap_compose.
  f_equal. apply list_fmap_ext. intros i [id r] _. cbn. by rewrite Hf.
Qed.

(** ** The invariant *)

Definition live (r : lease_row) : Prop := state (row_lease r) = OPEN \/ state (row_lease r) = SUBMITTED.
Definition same_prompt (r r' : lease_row) : Prop :=
  environment (row_lease r) = environment (row_lease r') /\ prompt_idx (row_lease r) = prompt_idx (row_lease r').

(** A [prompt_row] as the book writes it. *)
Definition prompt_ok (n : Z) (r : prompt_row) : Prop :=
  state_seq r <= n /\
  match mode r with
  | COOLDOWN => exists u s, until_k r = Some u /\ start_k r = Some s /\ 0 <= s <= u
  | BLACKLIST => until_k r = None
  end.

Record book_ok (cfg : book_config) (qcfg : quota_config) (b : book) : Prop := {
  ok_ids : forall id r, leases b !! id = Some r -> lease_id (row_lease r) = id;
  ok_live : forall id id' r r', leases b !! id = Some r -> leases b !! id' = Some r' -> live r -> live r' -> same_prompt r r' ->
    checkpoint (row_lease r) = checkpoint (row_lease r') \/ (state (row_lease r) = OPEN /\ state (row_lease r') = OPEN) -> id = id';
  ok_quota : forall hk, quota_in_use hk (quotas b) = open_count hk (leases b);
  ok_controller : controller_ok qcfg (quotas b) /\ is_Some (saved (quotas b));
  ok_latest : match latest b with
              | None => secrets b = ∅
              | Some n => 0 <= n < 2 ^ 63 /\ is_Some (secrets b !! n)
              end;
  ok_secrets : forall k s, secrets b !! k = Some s -> 0 <= k /\ length (secret s) = 32%nat /\
    secret_commitment (secret s) k = Ok (commitment s) /\
    exists n, latest b = Some n /\ k <= n /\ (revealed_at s = None <-> n - max_lag cfg <= k);
  ok_prompts : forall key r, prompts b !! key = Some r -> prompt_ok (scan_seq b) r;
  ok_scans : forall n s, scans b !! n = Some s -> n <= scan_seq b /\ is_Some (prompts b !! (scan_env s, scan_prompt s));
}.

(** *** The quota's count of open leases *)

Lemma in_use_save hk hk' e c : quota_in_use hk' (save hk e c) = if decide (hk' = hk) then in_use e else quota_in_use hk' c.
Proof.
  unfold quota_in_use. cbn. destruct (decide (hk' = hk)) as [->|]; [by rewrite lookup_insert_eq|by rewrite lookup_insert_ne].
Qed.

Lemma in_use_entry qcfg hk c : in_use (entry_of qcfg hk c) = quota_in_use hk c.
Proof. unfold entry_of, quota_in_use. by destruct (hotkeys c !! hk). Qed.

Lemma in_use_lease qcfg now e : in_use (lease_entry qcfg now e) = in_use e + 1.
Proof. unfold lease_entry. cbv zeta. by destruct (_ <=? _). Qed.

Lemma in_use_paid qcfg i s now e : in_use (paid_entry qcfg i s now e) = in_use e.
Proof.
  unfold paid_entry. cbv zeta. destruct (_ <=? _); [|done]. unfold end_round. cbv zeta.
  destruct (saturated _); [done|]. by destruct (phase_of _).
Qed.

(** How an event of [hk] moves the slots it uses. *)
Definition moves_slots (qcfg : quota_config) (c c' : controller) (hk : string) (f : Z -> Z) : Prop :=
  quota_step qcfg c c' /\ (is_Some (saved c) -> is_Some (saved c')) /\
  forall hk', quota_in_use hk' c' = if decide (hk' = hk) then f (quota_in_use hk c) else quota_in_use hk' c.

Section moves.
Context (qcfg : quota_config).

Lemma saved_save hk e c : is_Some (saved c) -> is_Some (saved (save hk e c)).
Proof. intros [t Ht]. cbn. rewrite Ht. by eexists. Qed.

Lemma record_lease_moves hk now c : moves_slots qcfg c (record_lease qcfg hk now c) hk (fun n => n + 1).
Proof.
  split_and!; [apply step_lease|apply saved_save|]. intros hk'. unfold record_lease. by rewrite in_use_save, in_use_lease, in_use_entry.
Qed.
Lemma record_submission_moves hk zone c : moves_slots qcfg c (record_submission qcfg hk zone c) hk (fun n => Z.max 0 (n - 1)).
Proof.
  split_and!; [apply step_submission|apply saved_save|]. intros hk'. unfold record_submission. rewrite in_use_save. cbn.
  by rewrite in_use_entry.
Qed.
Lemma record_release_moves hk c : moves_slots qcfg c (record_release qcfg hk c) hk (fun n => Z.max 0 (n - 1)).
Proof.
  split_and!; [apply step_release|apply saved_save|]. intros hk'. unfold record_release. rewrite in_use_save. cbn.
  by rewrite in_use_entry.
Qed.
Lemma record_expiry_moves hk now why c : moves_slots qcfg c (record_expiry qcfg hk now why c) hk (fun n => Z.max 0 (n - 1)).
Proof.
  split_and!; [apply step_expiry|apply saved_save|]. intros hk'. unfold record_expiry. rewrite in_use_save. cbn.
  by rewrite in_use_entry.
Qed.
Lemma record_paid_moves hk i s now c : moves_slots qcfg c (record_paid qcfg hk i s now c) hk (fun n => n).
Proof.
  split_and!; [apply step_paid|apply saved_save|]. intros hk'. unfold record_paid. by rewrite in_use_save, in_use_paid, in_use_entry.
Qed.
End moves.

(** A closed row of the same lease. *)
Definition closes (r r' : lease_row) : Prop :=
  lease_id (row_lease r') = lease_id (row_lease r) /\ hotkey (row_lease r') = hotkey (row_lease r) /\
  environment (row_lease r') = environment (row_lease r) /\ prompt_idx (row_lease r') = prompt_idx (row_lease r) /\
  checkpoint (row_lease r') = checkpoint (row_lease r) /\ state (row_lease r') <> OPEN.

Lemma close_row_closes s now why r : s <> OPEN -> closes r (close_row s now why r).
Proof. done. Qed.
Lemma submit_row_closes now r : closes r (submit_row now r).
Proof. done. Qed.

Lemma is_open_spec r : is_open r = true <-> state (row_lease r) = OPEN.
Proof. apply bool_decide_eq_true. Qed.

Lemma open_count_nonneg hk m : 0 <= open_count hk m.
Proof. apply map_sum_nonneg. intros id r _. by destruct (opens hk r). Qed.

Lemma opens_closed hk r : state (row_lease r) <> OPEN -> opens hk r = false.
Proof. intros H. unfold opens, is_open. rewrite (bool_decide_eq_false_2 (state _ = OPEN)) by done. apply andb_false_r. Qed.

Section preserve.
Context (cfg : book_config) (qcfg : quota_config) (Hq : valid_quota qcfg = true).

Lemma moves_controller c c' hk f : controller_ok qcfg c /\ is_Some (saved c) -> moves_slots qcfg c c' hk f ->
  controller_ok qcfg c' /\ is_Some (saved c').
Proof. intros [H1 H2] (Hs & Hsv & _). split; [by eapply quota_step_ok|by apply Hsv]. Qed.

Lemma close_lease_ok b id r r' q' : book_ok cfg qcfg b -> leases b !! id = Some r -> is_open r = true -> closes r r' ->
  moves_slots qcfg (quotas b) q' (hotkey (row_lease r)) (fun n => Z.max 0 (n - 1)) ->
  book_ok cfg qcfg (set_quotas q' (set_leases (<[id := r']> (leases b)) b)).
Proof.
  intros [H1 H2 H3 H4 H5 H6 H7 H8] Hr Ho (C1 & C2 & C3 & C4 & C5 & C6) Hm. pose proof Ho as Ho'. apply is_open_spec in Ho'.
  split; cbn; try done.
  - intros id' x. rewrite lookup_insert. case_decide as Hid; [|apply H1]. intros [= <-]. subst id'. rewrite C1. by apply H1.
  - intros i j x y Hx Hy Lx Ly Hsame Hk. rewrite lookup_insert in Hx, Hy.
    destruct (decide (id = i)) as [Hi|Hi], (decide (id = j)) as [Hj|Hj]; [congruence| | |by apply (H2 i j x y)].
    + subst i. injection Hx as <-. destruct Hk as [Hk|[Hk _]]; [|done]. apply (H2 id j r y); [done|done|by left|done| |left; congruence].
      destruct Hsame as [S1 S2]. split; congruence.
    + subst j. injection Hy as <-. destruct Hk as [Hk|[_ Hk]]; [|done]. apply (H2 i id x r); [done|done|done|by left| |left; congruence].
      destruct Hsame as [S1 S2]. split; congruence.
  - intros hk. destruct Hm as (_ & _ & Hm). rewrite Hm, !H3. rewrite (open_count_insert hk _ _ _ _ Hr), (opens_closed hk r' C6). cbn [Z.b2z].
    pose proof (open_count_nonneg hk (<[id := r']> (leases b))) as Hnn.
    rewrite (open_count_insert hk _ _ _ _ Hr), (opens_closed hk r' C6) in Hnn. cbn [Z.b2z] in Hnn.
    destruct (decide (hk = hotkey (row_lease r))) as [->|Hne].
    + assert (opens (hotkey (row_lease r)) r = true) as E by (unfold opens; rewrite bool_decide_eq_true_2, Ho by done; done).
      rewrite E in *. cbn [Z.b2z] in *. lia.
    + assert (opens hk r = false) as -> by (unfold opens; rewrite bool_decide_eq_false_2 by congruence; done). cbn. lia.
  - by eapply moves_controller.
Qed.

Lemma close_unsubmitted_ok sandbox scan l now charged b r : book_ok cfg qcfg b -> leases b !! lease_id l = Some r -> is_open r = true ->
  hotkey l = hotkey (row_lease r) -> book_ok cfg qcfg (close_unsubmitted cfg qcfg scan sandbox l now charged b).2.
Proof.
  intros Hok Hr Ho Hhk. unfold close_unsubmitted. destruct (release_cause _ _ _ _ _ _ _); cbn [snd]; rewrite (alter_as_insert _ _ _ _ Hr);
    eapply close_lease_ok; try done; rewrite Hhk; [apply record_release_moves|apply record_expiry_moves].
Qed.

(** What closing a lease leaves alone. *)
Definition closing_frame (b b' : book) : Prop :=
  latest b' = latest b /\ secrets b' = secrets b /\ scans b' = scans b /\ scan_seq b' = scan_seq b /\ prompts b' = prompts b /\
  bans b' = bans b /\ submitting b' = submitting b /\ downtime b' = downtime b /\ alive_at b' = alive_at b /\
  full b' = full b /\ lane_full b' = lane_full b.

Lemma closing_frame_refl b : closing_frame b b.
Proof. done. Qed.
Lemma closing_frame_trans b1 b2 b3 : closing_frame b1 b2 -> closing_frame b2 b3 -> closing_frame b1 b3.
Proof. unfold closing_frame. intros H1 H2. decompose [and] H1. decompose [and] H2. split_and!; congruence. Qed.
Lemma close_unsubmitted_frame sandbox scan l now charged b :
  closing_frame b (close_unsubmitted cfg qcfg scan sandbox l now charged b).2.
Proof. unfold close_unsubmitted. by destruct (release_cause _ _ _ _ _ _ _). Qed.

(** The row after, and the others. *)
Lemma close_unsubmitted_rows sandbox scan l now charged b r : leases b !! lease_id l = Some r ->
  exists r', closes r r' /\ (state (row_lease r') = EXPIRED \/ state (row_lease r') = RELEASED) /\
    leases (close_unsubmitted cfg qcfg scan sandbox l now charged b).2 = <[lease_id l := r']> (leases b).
Proof.
  intros Hr. unfold close_unsubmitted. destruct (release_cause _ _ _ _ _ _ _); cbn [snd leases set_quotas set_leases];
    rewrite (alter_as_insert _ _ _ _ Hr); eexists; (split; [|split; [|reflexivity]]); [by apply close_row_closes|cbn; auto|by apply close_row_closes|cbn; auto].
Qed.
End preserve.

(** ** Expiry *)

Section expiry.
Context (cfg : book_config) (qcfg : quota_config) (Hq : valid_quota qcfg = true).
Context (scan : gmap string lease_row -> list (string * lease_row)) (Hscan : forall m, scan m ≡ₚ map_to_list m).
Context (sandbox : lease -> option string).

Lemma leases_select_elem p b l : l ∈ select scan p b <-> exists id r, leases b !! id = Some r /\ row_lease r = l /\ p r = true.
Proof.
  unfold select. rewrite list_elem_of_fmap. split.
  - intros ([id r] & -> & [Hp Hin]%list_elem_of_filter). rewrite Hscan in Hin. apply elem_of_map_to_list in Hin. by exists id, r.
  - intros (id & r & Hr & <- & Hp). exists (id, r). split; [done|]. apply list_elem_of_filter. rewrite Hscan.
    split; [done|]. by apply elem_of_map_to_list.
Qed.

Lemma select_nil p b : select scan p b = [] <-> forall id r, leases b !! id = Some r -> p r = false.
Proof.
  split.
  - intros E id r Hr. destruct (p r) eqn:Hp; [|done]. assert (row_lease r ∈ select scan p b) as Hin by (apply leases_select_elem; eauto).
    rewrite E in Hin. by apply not_elem_of_nil in Hin.
  - intros H. destruct (select scan p b) as [|l ls] eqn:E; [done|]. exfalso.
    assert (l ∈ select scan p b) as (id & r & Hr & _ & Hp)%leases_select_elem by (rewrite E; constructor). by rewrite (H id r Hr) in Hp.
Qed.

Lemma select_ids_nodup p b : book_ok cfg qcfg b -> NoDup (lease_id <$> select scan p b).
Proof.
  intros Hok. unfold select. rewrite <- list_fmap_compose. set (rs := filter _ _).
  assert ((lease_id ∘ (fun r : string * lease_row => row_lease r.2)) <$> rs = rs.*1) as ->.
  { apply list_fmap_ext. intros i [id r] Hr%list_elem_of_lookup_2. apply list_elem_of_filter in Hr as [_ Hr].
    rewrite Hscan in Hr. apply elem_of_map_to_list in Hr. by apply (ok_ids cfg qcfg b Hok). }
  eapply sublist_NoDup; [|apply fmap_sublist_filter]. rewrite Hscan. apply NoDup_fst_map_to_list.
Qed.

Lemma in_use_of_count hk b : in_use_of scan hk b = open_count hk (leases b).
Proof.
  unfold in_use_of, select, open_count, map_sum. rewrite length_fmap.
  etrans; [symmetry; apply (Zsum_b2z (fun r : string * lease_row => opens hk r.2))|]. by rewrite Hscan.
Qed.

Lemma due_elem now b l : book_ok cfg qcfg b -> l ∈ due scan now b <-> exists r, leases b !! lease_id l = Some r /\ row_lease r = l /\
  is_open r = true /\ expires_at l <= now /\ submitting b !! lease_id l = None.
Proof.
  intros Hok. unfold due. rewrite list_elem_of_filter, leases_select_elem. split.
  - intros (Hs & id & r & Hr & <- & [Ho Hle%Z.leb_le]%andb_true_iff). exists r. rewrite (ok_ids cfg qcfg b Hok id r Hr) in *. done.
  - intros (r & Hr & <- & Ho & Hle & Hs). split; [done|]. exists (lease_id (row_lease r)), r. rewrite Ho. cbn. by rewrite (proj2 (Z.leb_le _ _) Hle).
Qed.

(** A list of open leases closed in turn. *)
Lemma close_all_ok now ls : forall b, book_ok cfg qcfg b -> NoDup (lease_id <$> ls) ->
  (forall l, l ∈ ls -> exists r, leases b !! lease_id l = Some r /\ row_lease r = l /\ is_open r = true) ->
  let b' := foldl (fun b l => (close_unsubmitted cfg qcfg scan sandbox l now "expired" b).2) b ls in
  book_ok cfg qcfg b' /\ closing_frame b b' /\ (forall id, id ∉ lease_id <$> ls -> leases b' !! id = leases b !! id) /\
  (forall l, l ∈ ls -> exists r', closes (LeaseRow l None None) r' /\ (state (row_lease r') = EXPIRED \/ state (row_lease r') = RELEASED) /\
     leases b' !! lease_id l = Some r').
Proof.
  induction ls as [|l ls IH]; intros b Hok Hnd Hls; cbn [foldl].
  { split_and!; [done|apply closing_frame_refl|done|]. intros l Hl. by apply not_elem_of_nil in Hl. }
  rewrite fmap_cons in *. apply NoDup_cons in Hnd as [Hl Hnd].
  destruct (Hls l ltac:(constructor)) as (r & Hr & Hrl & Ho).
  set (b1 := (close_unsubmitted cfg qcfg scan sandbox l now "expired" b).2).
  assert (book_ok cfg qcfg b1) as Hok1 by (eapply close_unsubmitted_ok; [done|done|done|done|by rewrite Hrl]).
  destruct (close_unsubmitted_rows cfg qcfg sandbox scan l now "expired" b r Hr) as (r' & Hc & Hst & Erows). fold b1 in Erows.
  assert (forall id, id <> lease_id l -> leases b1 !! id = leases b !! id) as Hother.
  { intros id Hid. rewrite Erows. by rewrite lookup_insert_ne. }
  destruct (IH b1 Hok1 Hnd) as (Hok' & Hf & Hout & Hin).
  { intros x Hx. destruct (Hls x ltac:(by constructor)) as (rx & Hrx & E). exists rx. split; [|done]. rewrite Hother; [done|].
    intros E'. apply Hl. rewrite <- E'. apply list_elem_of_fmap. eauto. }
  split_and!.
  - done.
  - eapply closing_frame_trans; [|exact Hf]. apply close_unsubmitted_frame.
  - intros id [Hne Hnin]%not_elem_of_cons. rewrite Hout by done. by apply Hother.
  - intros x [->|Hx]%elem_of_cons; [|by apply Hin]. exists r'. split_and!; [|done|].
    + destruct Hc as (C1 & C2 & C3 & C4 & C5 & C6). rewrite Hrl in *. by split_and!.
    + rewrite Hout by done. by rewrite Erows, lookup_insert_eq.
Qed.

(** The sweep closes exactly the open leases that fell due and are not being graded. *)
Lemma expire_ok now b : book_ok cfg qcfg b ->
  let b' := expire cfg qcfg scan sandbox now b in
  book_ok cfg qcfg b' /\ closing_frame b b' /\
  forall id, match leases b !! id with
    | None => leases b' !! id = None
    | Some r => if is_open r && (expires_at (row_lease r) <=? now) && bool_decide (submitting b !! id = None)
                then exists r', leases b' !! id = Some r' /\ closes r r' /\ (state (row_lease r') = EXPIRED \/ state (row_lease r') = RELEASED)
                else leases b' !! id = Some r
    end.
Proof.
  intros Hok. unfold expire. cbv zeta. set (ls := due scan now b).
  assert (forall l, l ∈ ls -> exists r, leases b !! lease_id l = Some r /\ row_lease r = l /\ is_open r = true) as Hls.
  { intros l (r & H1 & H2 & H3 & _)%(due_elem now b l Hok). eauto. }
  assert (NoDup (lease_id <$> ls)) as Hnd.
  { unfold ls, due. eapply sublist_NoDup; [|apply fmap_sublist_filter]. by apply select_ids_nodup. }
  destruct (close_all_ok now ls b Hok Hnd Hls) as (Hok' & Hf & Hout & Hin). split_and!; [done|done|]. intros id.
  destruct (decide (id ∈ lease_id <$> ls)) as [(l & -> & Hl)%list_elem_of_fmap|Hnin].
  - pose proof Hl as (r & Hr & Hrl & Ho & Hle & Hs)%(due_elem now b l Hok). rewrite Hr, Ho, Hrl. apply Z.leb_le in Hle. rewrite Hle.
    rewrite bool_decide_eq_true_2 by done. cbn [andb]. destruct (Hin l Hl) as (r' & Hc & Hst & E). exists r'. split_and!; [done| |done].
    destruct Hc as (C1 & C2 & C3 & C4 & C5 & C6). unfold closes. rewrite Hrl. by split_and!.
  - rewrite (Hout id Hnin). destruct (leases b !! id) as [r|] eqn:E; [|done]. destruct (is_open r && _ && _) eqn:Ec; [|done]. exfalso.
    apply andb_true_iff in Ec as [[Ho Hle%Z.leb_le]%andb_true_iff Hs%bool_decide_eq_true]. apply Hnin. apply list_elem_of_fmap.
    exists (row_lease r). pose proof (ok_ids cfg qcfg b Hok id r E) as Hid. split; [done|]. apply (due_elem now b _ Hok). exists r.
    by rewrite Hid.
Qed.
End expiry.

(** ** The other operations *)

Lemma map_sum_filter {K A} `{Countable K} (f : K -> A -> Z) (P : K * A -> Prop) `{!forall x, Decision (P x)} (m : gmap K A) :
  (forall i x, m !! i = Some x -> ~ P (i, x) -> f i x = 0) -> map_sum f (filter P m) = map_sum f m.
Proof.
  induction m as [|i x m Hi IH] using map_ind; intros Hz; [by rewrite map_filter_empty|].
  rewrite (map_sum_insert_new f m i x Hi). rewrite <- IH.
  2:{ intros j y Hj. apply Hz. rewrite lookup_insert_ne; [done|]. intros ->. congruence. }
  destruct (decide (P (i, x))) as [HP|HP].
  - rewrite map_filter_insert_True by done. apply map_sum_insert_new. by apply map_lookup_filter_None_2; left.
  - rewrite map_filter_insert_False, delete_id by done. rewrite (Hz i x); [lia|apply lookup_insert_eq|done].
Qed.

(** Counting the elements of a list into a map. *)
Lemma count_map_spec (l : list string) (x : string) :
  default 0 (foldl (fun m e => <[e := default 0 (m !! e) + 1]> m) (∅ : gmap string Z) l !! x)
  = Z.of_nat (length (filter (fun e => e = x) l)).
Proof.
  induction l as [|e l IH] using rev_ind; [done|]. rewrite foldl_app. cbn [foldl]. rewrite filter_app, length_app, filter_cons, filter_nil.
  rewrite lookup_insert. destruct (decide (e = x)) as [->|]; cbn; [|by rewrite IH, Nat.add_0_r]. rewrite IH. lia.
Qed.

Section operations.
Context (cfg : book_config) (qcfg : quota_config) (Hq : valid_quota qcfg = true).
Context (scan : gmap string lease_row -> list (string * lease_row)) (Hscan : forall m, scan m ≡ₚ map_to_list m).
Context (sandbox : lease -> option string).

(** Fields the invariant does not read. *)
Lemma book_ok_frame b b' : book_ok cfg qcfg b -> latest b' = latest b -> secrets b' = secrets b -> leases b' = leases b ->
  scans b' = scans b -> scan_seq b' = scan_seq b -> prompts b' = prompts b -> quotas b' = quotas b -> book_ok cfg qcfg b'.
Proof.
  intros [H1 H2 H3 H4 H5 H6 H7 H8] E1 E2 E3 E4 E5 E6 E7.
  split; rewrite ?E1, ?E2, ?E3, ?E4, ?E5, ?E6, ?E7; assumption.
Qed.

(** Leases whose deadline alone moves. *)
Lemma expiry_map_ok f b : book_ok cfg qcfg b -> (forall r, row_lease (f r) = set_expiry (expires_at (row_lease (f r))) (row_lease r)) ->
  book_ok cfg qcfg (set_leases (f <$> leases b) b).
Proof.
  intros [H1 H2 H3 H4 H5 H6 H7 H8] Hf.
  assert (forall id x, (f <$> leases b) !! id = Some x -> exists r, leases b !! id = Some r /\ x = f r) as Hrow.
  { intros id x. rewrite lookup_fmap. destruct (leases b !! id) as [r|]; [|done]. intros [= <-]. eauto. }
  split; cbn; try done.
  - intros id x (r & Hr & ->)%Hrow. rewrite Hf. by apply H1.
  - intros i j x y (r & Hr & ->)%Hrow (r' & Hr' & ->)%Hrow Lx Ly Hs Hk. unfold live, same_prompt in *. rewrite (Hf r), (Hf r') in *. cbn in *.
    by apply (H2 i j r r').
  - intros hk. rewrite H3. symmetry. apply open_count_fmap. intros r. unfold opens, is_open. by rewrite (Hf r).
Qed.

Lemma note_downtime_ok since now b : book_ok cfg qcfg b -> book_ok cfg qcfg (note_downtime since now b).
Proof.
  intros Hok. unfold note_downtime. cbv zeta. destruct (_ <=? _); [done|].
  apply (expiry_map_ok _ (set_downtime _ b)); [by eapply book_ok_frame|]. intros r. destruct (is_open r); [done|]. by destruct r as [[] ? ?].
Qed.

Lemma mark_alive_ok now b : book_ok cfg qcfg b -> book_ok cfg qcfg (mark_alive now b).
Proof.
  intros Hok. unfold mark_alive. destruct (alive_at b) as [t|]; [destruct (_ && _); [done|]|].
  - by eapply book_ok_frame; [apply (note_downtime_ok t now)|..].
  - by eapply book_ok_frame.
Qed.

Lemma forfeit_ok id hk now b : book_ok cfg qcfg b -> book_ok cfg qcfg (forfeit cfg qcfg scan sandbox id hk now b).2.
Proof.
  intros Hok. unfold forfeit. destruct (leases b !! id) as [r|] eqn:E; [|done]. cbv zeta.
  destruct (negb (String.eqb (hotkey (row_lease r)) hk) || negb (is_open r) || _) eqn:Ec; [done|].
  apply orb_false_iff in Ec as [[_ Ho%negb_false_iff]%orb_false_iff _]. pose proof (ok_ids cfg qcfg b Hok id r E) as Hid.
  destruct (close_unsubmitted _ _ _ _ _ _ _ _) as [s b'] eqn:Ecl. cbn [snd]. apply (f_equal snd) in Ecl. cbn [snd] in Ecl. subst b'.
  apply (close_unsubmitted_ok cfg qcfg Hq sandbox scan _ _ _ b r); [done|by rewrite Hid|done|done].
Qed.

Lemma submittable_cases id hk now b : book_ok cfg qcfg b -> match submittable cfg qcfg scan sandbox id hk now b with
  | (Ok l, b') => b' = b /\ exists r, leases b !! id = Some r /\ row_lease r = l /\ is_open r = true /\ hotkey l = hk /\ now < expires_at l /\
                  banned hk now b = false
  | (Raise _, b') => b' = b \/ b' = expire cfg qcfg scan sandbox now b
  end.
Proof.
  intros Hok. unfold submittable. destruct (leases b !! id) as [r|]; [|by left]. cbv zeta.
  destruct (String.eqb_spec (hotkey (row_lease r)) hk); cbn [negb]; [|by left].
  destruct (is_open r) eqn:Ho; cbn [negb]; [|by left].
  destruct (Z.leb_spec (expires_at (row_lease r)) now); [by right|].
  destruct (banned hk now b) eqn:Hb; [by left|]. split; [done|]. by exists r.
Qed.

Lemma submittable_ok id hk now b : book_ok cfg qcfg b -> book_ok cfg qcfg (submittable cfg qcfg scan sandbox id hk now b).2.
Proof.
  intros Hok. pose proof (submittable_cases id hk now b Hok) as H. destruct (submittable _ _ _ _ _ _ _ _) as [[l|e] b']; cbn [snd].
  - destruct H as [-> _]. done.
  - destruct H as [-> | ->]; [done|]. by apply (expire_ok cfg qcfg Hq scan Hscan sandbox).
Qed.

Lemma hold_ok id hk now b : book_ok cfg qcfg b -> book_ok cfg qcfg (hold_submission cfg qcfg scan sandbox id hk now b).2.
Proof.
  intros Hok. unfold hold_submission, check_submission. pose proof (submittable_ok id hk now b Hok) as H.
  destruct (submittable _ _ _ _ _ _ _ _) as [[l|e] b']; cbn [snd] in *; [|done]. by eapply book_ok_frame.
Qed.

Lemma submit_ok id hk zone delivered now b : book_ok cfg qcfg b ->
  book_ok cfg qcfg (submit cfg qcfg scan sandbox id hk zone delivered now b).2.
Proof.
  intros Hok. unfold submit. pose proof (submittable_ok id hk now b Hok) as Hok'. pose proof (submittable_cases id hk now b Hok) as Hc.
  destruct (submittable _ _ _ _ _ _ _ _) as [[l|e] b']; cbn [snd] in *; [|done].
  destruct Hc as (-> & r & Hr & <- & Ho & Hhk & _). cbv zeta. cbn [snd]. rewrite (alter_as_insert _ _ _ _ Hr).
  eapply close_lease_ok; [done|done|done|done|apply submit_row_closes|]. rewrite Hhk. cbn [quotas set_leases].
  destruct delivered; [apply record_submission_moves|apply record_expiry_moves].
Qed.

Lemma set_quotas_ok b q hk : book_ok cfg qcfg b -> moves_slots qcfg (quotas b) q hk (fun n => n) -> book_ok cfg qcfg (set_quotas q b).
Proof.
  intros [H1 H2 H3 H4 H5 H6 H7 H8] Hm. split; cbn; try done; [|by eapply moves_controller].
  intros h. destruct Hm as (_ & _ & Hm). rewrite Hm, <- !H3. destruct (decide (h = hk)) as [->|]; done.
Qed.

Lemma credit_ok id now b : book_ok cfg qcfg b -> book_ok cfg qcfg (credit qcfg id now b).
Proof.
  intros Hok. unfold credit. destruct (leases b !! id) as [r|]; [|done]. destruct (state (row_lease r)); try done.
  destruct (closed_at r); [|done]. eapply set_quotas_ok; [done|apply record_paid_moves].
Qed.

(** *** Restart *)

Lemma reconcile_spec counts c hk : quota_in_use hk (reconcile qcfg counts c) = default 0 (counts !! hk).
Proof.
  unfold reconcile. set (l := elements _).
  assert (forall l c', quota_in_use hk (foldl (reconcile_one qcfg counts) c' l) =
    if decide (hk ∈ l) then default 0 (counts !! hk) else quota_in_use hk c') as Hfold.
  { clear l. intros l. induction l as [|h l IH]; intros c'; cbn [foldl]; [done|]. rewrite IH.
    assert (quota_in_use hk (reconcile_one qcfg counts c' h) = if decide (hk = h) then default 0 (counts !! hk) else quota_in_use hk c') as E.
    { unfold reconcile_one. destruct (Z.eqb_spec (in_use (entry_of qcfg h c')) (default 0 (counts !! h))) as [E|].
      - unfold quota_in_use at 1. cbn. destruct (decide (hk = h)) as [->|]; [rewrite lookup_insert_eq; cbn; congruence|by rewrite lookup_insert_ne].
      - rewrite in_use_save. by destruct (decide (hk = h)) as [->|]. }
    destruct (decide (hk ∈ l)) as [Hin|Hin]; [rewrite decide_True by (by constructor); done|]. rewrite E.
    destruct (decide (hk = h)) as [->|Hne]; [rewrite decide_True by constructor; done|]. rewrite decide_False; [done|].
    intros [->|]%elem_of_cons; done. }
  rewrite Hfold. destruct (decide (hk ∈ l)) as [|Hnin]; [done|]. unfold l in Hnin. rewrite elem_of_elements, not_elem_of_union in Hnin.
  destruct Hnin as [H1%not_elem_of_dom_1 H2%not_elem_of_dom_1]. rewrite H1. unfold quota_in_use.
  destruct (hotkeys c !! hk) as [e|] eqn:E; [|done]. cbn. apply map_lookup_filter_None_1 in H2 as [H2|H2]; [congruence|].
  specialize (H2 e E). cbn in H2. lia.
Qed.

Lemma open_counts_spec b hk : default 0 (open_counts scan b !! hk) = open_count hk (leases b).
Proof.
  rewrite <- (in_use_of_count scan Hscan hk b). unfold open_counts, in_use_of.
  assert (forall l m, foldl (fun m x => <[hotkey x := default 0 (m !! hotkey x) + 1]> m) m l =
          foldl (fun m (e : string) => <[e := default 0 (m !! e) + 1]> m) (m : gmap string Z) (hotkey <$> l)) as Efold.
  { intros l. induction l as [|x l IH]; intros m; [done|]. rewrite fmap_cons. cbn [foldl]. apply IH. }
  rewrite Efold, count_map_spec. f_equal. unfold select. rewrite <- list_fmap_compose.
  generalize (scan (leases b)). intros l. induction l as [|[id r] l IH]; [done|]. rewrite !filter_cons. cbn [snd].
  destruct (is_open r) eqn:Ho; [rewrite decide_True by done|rewrite decide_False by done].
  - rewrite fmap_cons, filter_cons. cbn [compose snd]. destruct (decide (hotkey (row_lease r) = hk)) as [E|E].
    + rewrite decide_True by (rewrite bool_decide_eq_true_2 by done; done). cbn [fmap list_fmap length]. f_equal. apply IH.
    + rewrite decide_False by (rewrite bool_decide_eq_false_2 by done; done). apply IH.
  - rewrite decide_False by (rewrite andb_false_r; done). apply IH.
Qed.

Lemma legacy_start_id b r : prompt_ok (scan_seq b) r -> legacy_start b r = r.
Proof.
  intros [_ H]. unfold legacy_start. destruct (mode r); [|done]. destruct H as (u & s & _ & -> & _). done.
Qed.

Lemma restart_ok now b : book_ok cfg qcfg b -> book_ok cfg qcfg (restart qcfg scan now b).
Proof.
  intros Hok. unfold restart. cbv zeta. set (b0 := Book _ _ _ _ _ _ _ _ _ _ _ _ _ _).
  (* the tables, with any quota of the right shape *)
  assert (forall q, controller_ok qcfg q -> is_Some (saved q) -> (forall hk, quota_in_use hk q = open_count hk (leases b)) ->
    book_ok cfg qcfg (set_quotas q b0)) as Hb0.
  { intros q Q1 Q2 Q3. destruct Hok as [H1 H2 H3 H4 H5 H6 H7 H8]. by split. }
  destruct (ok_controller cfg qcfg b Hok) as [Hc [table Ht]].
  assert (controller_ok qcfg (quotas b0)) as Hcb0.
  { cbn. rewrite Ht. cbn [default]. apply (attach_ok qcfg table (quotas b)); [done|by left]. }
  set (b1 := match alive b0 with Some t => _ | None => b0 end).
  assert (exists f, leases b1 = f <$> leases b /\ (forall r, row_lease (f r) = set_expiry (expires_at (row_lease (f r))) (row_lease r)) /\
    quotas b1 = quotas b0 /\ latest b1 = latest b /\ secrets b1 = secrets b /\ scans b1 = scans b /\ scan_seq b1 = scan_seq b /\ prompts b1 = prompts b)
    as (f & Ef & Hf & Eq & E1 & E2 & E3 & E4 & E5).
  { unfold b1. destruct (alive b0) as [t|].
    - unfold note_downtime. cbv zeta. destruct (_ <=? _).
      + exists (fun r => r). rewrite map_fmap_id. split_and!; try done. intros [[] ? ?]. done.
      + eexists. split; [reflexivity|]. split_and!; try done. intros r. destruct (is_open r); [done|]. by destruct r as [[] ? ?].
    - exists (fun r => r). rewrite map_fmap_id. split_and!; try done. intros [[] ? ?]. done. }
  set (g := fun r : lease_row => if is_open r && (expires_at (row_lease r) <? _) then _ else r).
  assert (forall r, row_lease (g r) = set_expiry (expires_at (row_lease (g r))) (row_lease r)) as Hg.
  { intros r. unfold g. destruct (_ && _); [done|]. by destruct r as [[] ? ?]. }
  assert (forall hk (f : lease_row -> lease_row) r, row_lease (f r) = set_expiry (expires_at (row_lease (f r))) (row_lease r) -> opens hk (f r) = opens hk r) as Hopens.
  { intros hk f' r E. unfold opens, is_open. by rewrite E. }
  set (b2 := set_leases _ _). assert (leases b2 = g <$> (f <$> leases b)) as El by (cbn; by rewrite Ef).
  set (q := reconcile qcfg _ _). assert (quotas b2 = quotas b0) as Eq2 by (cbn; exact Eq).
  assert (forall hk, quota_in_use hk q = open_count hk (leases b)) as Hq3.
  { intros hk. unfold q. rewrite reconcile_spec, open_counts_spec, El.
    rewrite (open_count_fmap hk g) by (intros; by apply Hopens). apply open_count_fmap. intros; by apply Hopens. }
  assert (controller_ok qcfg q) as Hcq.
  { unfold q. rewrite Eq2. apply (reconcile_ok qcfg Hq); [|done]. intros hk n Hn.
    pose proof (open_counts_spec b2 hk) as Hs. rewrite Hn in Hs. cbn in Hs. rewrite Hs. apply open_count_nonneg. }
  assert (is_Some (saved q)) as Hsq.
  { unfold q, reconcile. rewrite Eq2. generalize (elements (dom (open_counts scan b2) ∪ dom (filter (fun he : string * entry => in_use he.2 <> 0) (hotkeys (quotas b0))))).
    intros l. assert (is_Some (saved (quotas b0))) as Hs by (cbn; by eexists). revert Hs. generalize (quotas b0). induction l as [|h l IH]; intros c' Hs; [done|].
    cbn [foldl]. apply IH. unfold reconcile_one. destruct (_ =? _); [done|by apply saved_save]. }
  pose proof (expiry_map_ok f _ (Hb0 q Hcq Hsq Hq3) Hf) as Hok1. cbn [leases set_quotas] in Hok1.
  pose proof (expiry_map_ok g _ Hok1 Hg) as Hok2. cbn [leases set_quotas set_leases] in Hok2.
  eapply book_ok_frame; [exact Hok2| | | | | | | ]; cbn [latest secrets leases scans scan_seq prompts quotas set_prompts set_quotas set_leases]; cbn.
  - exact E1.
  - exact E2.
  - by rewrite Ef.
  - exact E3.
  - exact E4.
  - rewrite E5. rewrite <- (map_fmap_id (prompts b)) at 2. apply map_fmap_ext. intros key r Hr. apply legacy_start_id.
    cbn. rewrite E4. by apply (ok_prompts cfg qcfg b Hok key).
  - reflexivity.
Qed.
End operations.

(** ** The lifecycle of a prompt *)

Lemma u64_ok n bs : u64 n = Ok bs -> 0 <= n < 2 ^ 64.
Proof. unfold u64. destruct (Z.ltb_spec n 0); [done|]. destruct (Z.leb_spec (2 ^ 64) n); [done|]. lia. Qed.

Lemma u64_some n : 0 <= n < 2 ^ 64 -> exists bs, u64 n = Ok bs.
Proof. intros Hn. unfold u64. destruct (Z.ltb_spec n 0); [lia|]. destruct (Z.leb_spec (2 ^ 64) n); [lia|]. eauto. Qed.

Section lifecycle.
Context (cfg : book_config) (qcfg : quota_config) (cooldown_of : string -> result Z).

Lemma readable_nonneg env c : readable_cooldown cooldown_of env = Some c -> 0 <= c.
Proof.
  unfold readable_cooldown. destruct (cooldown_of env) as [x|]; cbn; [|done]. destruct (u64 x) eqn:E; cbn; [|done].
  intros [= <-]. apply u64_ok in E. lia.
Qed.

(** What a scan does, when it is recorded. *)
Lemma record_outcome_cases env p k rewards v now b : match record_outcome cfg cooldown_of env p k rewards v now b with
  | (Raise _, b') => b' = b
  | (Ok row, b') => exists cooldown m until start, 0 <= p < 2 ^ 63 /\ 0 <= k < 2 ^ 63 /\ readable_cooldown cooldown_of env = Some cooldown /\
      next_mode env p k v cooldown b = (m, until, start) /\
      row = ScanRow env p k rewards v (bool_decide (prompts b !! (env, p) = None)) now m until /\
      b' = set_prompts (<[next_seq b := row]> (scans b)) (next_seq b) (<[(env, p) := PromptRow m until (next_seq b) start false]> (prompts b)) b
  end.
Proof.
  unfold record_outcome. destruct (expiry_s cfg !! env); [|done].
  destruct (u64 p) as [bp|] eqn:Ep; cbn [mbind result_bind]; [|done]. destruct (u64 k) as [bk|] eqn:Ek; cbn [mbind result_bind]; [|done].
  destruct (bool_decide (rewards = [])); [done|]. destruct (cooldown_of env) as [c|] eqn:Ec; cbn [mbind result_bind]; [|done].
  destruct (u64 c) as [bc|] eqn:Eu; cbn [mbind result_bind]; [|done].
  destruct (Z.leb_spec (2 ^ 63) p), (Z.leb_spec (2 ^ 63) k); cbn [orb]; try done.
  destruct (next_mode env p k v c b) as [[m until] start] eqn:Em. destruct (match until with Some u => _ | None => false end); [done|].
  exists c, m, until, start. apply u64_ok in Ep, Ek. split_and!; try done; try lia.
  unfold readable_cooldown. rewrite Ec. cbn. by rewrite Eu.
Qed.

Lemma next_mode_ok env p k v cooldown b m until start : book_ok cfg qcfg b -> 0 <= k -> 0 <= cooldown ->
  next_mode env p k v cooldown b = (m, until, start) -> prompt_ok (next_seq b) (PromptRow m until (next_seq b) start false).
Proof.
  intros Hok Hk Hc. unfold next_mode. cbv zeta. destruct (_ || _); intros [= <- <- <-]; (split; [cbn; lia|]); cbn; [done|].
  eexists _, _. split_and!; [done|done| |]; lia.
Qed.

Lemma record_outcome_ok env p k rewards v now b : book_ok cfg qcfg b ->
  book_ok cfg qcfg (record_outcome cfg cooldown_of env p k rewards v now b).2.
Proof.
  intros Hok. pose proof (record_outcome_cases env p k rewards v now b) as H. destruct (record_outcome _ _ _ _ _ _ _ _ _) as [[row|e] b'];
    cbn [snd]; [|by subst]. destruct H as (c & m & until & start & Hp & Hk & Hc%readable_nonneg & Em & -> & ->).
  pose proof (next_mode_ok env p k v c b m until start Hok ltac:(lia) Hc Em) as Hrow.
  destruct Hok as [H1 H2 H3 H4 H5 H6 H7 H8]. split; cbn; try done.
  - intros key r. rewrite lookup_insert. case_decide; [by intros [= <-]|]. intros Hr. destruct (H7 key r Hr) as [Hs Hm].
    split; [|done]. unfold next_seq. lia.
  - intros n s. rewrite lookup_insert. destruct (decide (next_seq b = n)) as [Hn|Hn].
    + intros [= <-]. cbn. split; [lia|]. by rewrite lookup_insert_eq.
    + intros [Hs1 Hs2]%H8. split; [unfold next_seq; lia|]. rewrite lookup_insert. by case_decide.
Qed.

(** *** Revisions only shorten *)

Definition prompt_revised (r r' : prompt_row) : Prop :=
  mode r' = mode r /\ start_k r' = start_k r /\
  (until_k r' = until_k r \/ exists u u', until_k r = Some u /\ until_k r' = Some u' /\ u' < u).

Lemma prompt_revised_refl r : prompt_revised r r.
Proof. split_and!; [done|done|by left]. Qed.

Lemma prompt_revised_trans r1 r2 r3 : prompt_revised r1 r2 -> prompt_revised r2 r3 -> prompt_revised r1 r3.
Proof.
  intros (A1 & A2 & A3) (B1 & B2 & B3). split_and!; [congruence|congruence|]. destruct A3 as [A3|(u & u' & E1 & E2 & Hlt)].
  - destruct B3 as [B3|(w & w' & F1 & F2 & Hlt')]; [left; congruence|]. right. exists w, w'. split_and!; [congruence|done|done].
  - right. destruct B3 as [B3|(w & w' & F1 & F2 & Hlt')]; [exists u, u'; split_and!; [done|congruence|done]|].
    exists u, w'. split_and!; [done|done|]. assert (w = u') by congruence. lia.
Qed.

Definition prompts_revised (m m' : gmap (string * Z) prompt_row) : Prop :=
  forall key, match m !! key, m' !! key with
    | None, None => True
    | Some r, Some r' => prompt_revised r r'
    | _, _ => False
    end.

Lemma prompts_revised_refl m : prompts_revised m m.
Proof. intros key. destruct (m !! key); [apply prompt_revised_refl|done]. Qed.
Lemma prompts_revised_trans m1 m2 m3 : prompts_revised m1 m2 -> prompts_revised m2 m3 -> prompts_revised m1 m3.
Proof.
  intros H1 H2 key. specialize (H1 key). specialize (H2 key). destruct (m1 !! key), (m2 !! key), (m3 !! key); try done.
  by eapply prompt_revised_trans.
Qed.

(** The row after one environment's pass. *)
Lemma revise_row_ok env cooldown n stamp key r : 0 <= cooldown -> prompt_ok stamp r ->
  exists r', (shorten env cooldown stamp key r ≫= republish env n stamp key) = Some r' /\ prompt_ok stamp r' /\ prompt_revised r r'.
Proof.
  intros Hc Hr. unfold shorten. cbn [mbind option_bind]. set (r1 := if shortenable env cooldown (key, r) then _ else r).
  assert (prompt_ok stamp r1 /\ prompt_revised r r1) as [Hok1 Hrev1].
  { unfold r1. destruct (shortenable env cooldown (key, r)) eqn:Es; [|split; [done|apply prompt_revised_refl]].
    unfold shortenable in Es. cbn [fst snd] in Es. apply andb_true_iff in Es as [[_ Em%bool_decide_eq_true]%andb_true_iff Hlt].
    destruct Hr as [_ Hr]. rewrite Em in Hr. destruct Hr as (u & s & Eu & Es & Hsu). rewrite Eu, Es in Hlt. apply Z.ltb_lt in Hlt. split.
    - split; [cbn; lia|]. cbn. rewrite Em, Es. eexists _, _. split_and!; [done|done|lia|lia].
    - split_and!; [done|done|]. right. cbn. rewrite Es. exists u, (s + cooldown). done. }
  clearbody r1. unfold republish. eexists. split; [reflexivity|]. destruct (still_revised env n (key, r1)); [|done].
  split; [|done]. destruct Hok1 as [_ Hm]. split; [cbn; lia|done].
Qed.

(** What a pass leaves alone. *)
Definition revise_frame (b b' : book) : Prop :=
  latest b' = latest b /\ secrets b' = secrets b /\ leases b' = leases b /\ scans b' = scans b /\ bans b' = bans b /\
  quotas b' = quotas b /\ submitting b' = submitting b /\ downtime b' = downtime b.

Lemma revise_env_ok n stamp sh b env : book_ok cfg qcfg b -> (forall st, stamp = Some st -> scan_seq b = st) ->
  let '(stamp', _, b') := revise_env cooldown_of n (stamp, sh, b) env in
  book_ok cfg qcfg b' /\ (forall st, stamp' = Some st -> scan_seq b' = st) /\ scan_seq b <= scan_seq b' /\
  prompts_revised (prompts b) (prompts b') /\ revise_frame b b'.
Proof.
  intros Hok Hst. unfold revise_env. destruct (readable_cooldown cooldown_of env) as [c|] eqn:Ec;
    [|split_and!; try done; apply prompts_revised_refl]. apply readable_nonneg in Ec.
  destruct (negb _); [split_and!; try done; apply prompts_revised_refl|].
  set (stamp' := default (next_seq b) stamp). set (prompts' := map_imap _ (map_imap _ (prompts b))).
  assert (scan_seq b <= stamp') as Hle by (unfold stamp', next_seq; destruct stamp as [st|]; cbn; [rewrite (Hst st); done|]; lia).
  destruct Hok as [H1 H2 H3 H4 H5 H6 H7 H8].
  assert (forall key, match prompts b !! key with
    | None => prompts' !! key = None
    | Some r => exists r', prompts' !! key = Some r' /\ prompt_ok stamp' r' /\ prompt_revised r r'
    end) as Hkey.
  { intros key. unfold prompts'. rewrite !map_lookup_imap. destruct (prompts b !! key) as [r|] eqn:E; [|done]. cbn [mbind option_bind].
    apply revise_row_ok; [done|]. destruct (H7 key r E) as [Hs Hm]. split; [lia|done]. }
  split_and!; [|by intros st [= <-]|done| |done].
  - split; cbn; try done.
    + intros key r Hr. specialize (Hkey key). destruct (prompts b !! key); [|congruence]. destruct Hkey as (r' & E & Hr' & _). congruence.
    + intros m s [Hs1 [x Hs2]]%H8. split; [lia|]. specialize (Hkey (scan_env s, scan_prompt s)). rewrite Hs2 in Hkey.
      destruct Hkey as (r' & -> & _). eauto.
  - intros key. cbn. specialize (Hkey key). destruct (prompts b !! key); [destruct Hkey as (r' & -> & _ & Hr); done|by rewrite Hkey].
Qed.

Lemma revise_cooldowns_ok b : book_ok cfg qcfg b ->
  let b' := (revise_cooldowns cfg cooldown_of b).2 in
  book_ok cfg qcfg b' /\ scan_seq b <= scan_seq b' /\ prompts_revised (prompts b) (prompts b') /\ revise_frame b b'.
Proof.
  intros Hok. unfold revise_cooldowns. destruct (latest b) as [n|]; [|split_and!; try done; apply prompts_revised_refl].
  assert (forall envs stamp sh b0, book_ok cfg qcfg b0 -> (forall st, stamp = Some st -> scan_seq b0 = st) ->
    let '(_, _, b') := foldl (revise_env cooldown_of n) (stamp, sh, b0) envs in
    book_ok cfg qcfg b' /\ scan_seq b0 <= scan_seq b' /\ prompts_revised (prompts b0) (prompts b') /\ revise_frame b0 b') as Hfold.
  { induction envs as [|env envs IH]; intros stamp sh b0 Hok0 Hst; cbn [foldl]; [split_and!; try done; apply prompts_revised_refl|].
    pose proof (revise_env_ok n stamp sh b0 env Hok0 Hst) as H1. destruct (revise_env _ _ _ _) as [[stamp1 sh1] b1].
    destruct H1 as (Hok1 & Hst1 & Hle1 & Hr1 & Hf1). specialize (IH stamp1 sh1 b1 Hok1 Hst1).
    destruct (foldl _ _ envs) as [[stamp2 sh2] b2]. destruct IH as (Hok2 & Hle2 & Hr2 & Hf2).
    split_and!; [done|lia|by eapply prompts_revised_trans|]. unfold revise_frame in *. decompose [and] Hf1. decompose [and] Hf2.
    split_and!; congruence. }
  specialize (Hfold (map_to_list (expiry_s cfg)).*1 None ∅ b Hok ltac:(done)). destruct (foldl _ _ _) as [[? ?] b']. done.
Qed.
End lifecycle.

(** ** Checkpoints *)

Lemma adopted_ok cfg qcfg k fresh c now b : 0 <= max_lag cfg -> length fresh = 32%nat -> secret_commitment fresh k = Ok c -> 0 <= k < 2 ^ 63 ->
  (forall n, latest b = Some n -> n < k) -> book_ok cfg qcfg b -> book_ok cfg qcfg (adopted cfg k fresh c now b).
Proof.
  intros Hlag Hlen Ec Hk63 Hnew [H1 H2 H3 H4 H5 H6 H7 H8].
  assert (forall id r, filter (fun r : string * lease_row => ~ (checkpoint (row_lease r.2) < k - max_lag cfg - max_lag cfg /\ is_open r.2 = false))
    (leases b) !! id = Some r -> leases b !! id = Some r) as Hsub by by intros id r [? _]%map_lookup_filter_Some.
  split; cbn; try done.
  - intros id r Hr%Hsub. by apply H1.
  - intros i j x y Hx%Hsub Hy%Hsub. by apply H2.
  - intros hk. rewrite H3. unfold open_count. symmetry. apply map_sum_filter. intros id r _ HP. cbn in HP.
    destruct (is_open r) eqn:Ho; [|unfold opens; rewrite Ho, andb_false_r; done]. exfalso. apply HP. intros [_ ?]. done.
  - split; [lia|]. rewrite map_lookup_imap, lookup_insert_eq. cbn. by eexists.
  - intros k' s. rewrite map_lookup_imap, lookup_insert. destruct (decide (k = k')) as [<-|Hne]; cbn.
    + intros [= <-]. destruct (Z.ltb_spec k (k - max_lag cfg)); [lia|]. cbn. split_and!; [lia|done|done|]. exists k.
      split_and!; [done|lia|]. split; [lia|done].
    + destruct (secrets b !! k') as [s0|] eqn:E; cbn; [|done]. intros [= <-]. destruct (H6 k' s0 E) as (Hk0 & Hl & Hcom & n & En & Hle & Hrev).
      specialize (Hnew n En). destruct (revealed_at s0) as [t|] eqn:Er.
      * split_and!; [done|done|done|]. exists k. split_and!; [done|lia|]. rewrite Er. split; [done|]. intros Hge. apply Hrev. lia.
      * destruct (Z.ltb_spec k' (k - max_lag cfg)) as [Hlt|Hge]; cbn; (split_and!; [done|done|done|]); exists k; (split_and!; [done|lia|]).
        -- split; [done|lia].
        -- rewrite Er. done.
Qed.

(** An adoption changes nothing, or writes the rows of a new checkpoint and revises. *)
Lemma adopt_cases cfg cooldown_of k fresh now b :
  (adopt_checkpoint cfg cooldown_of k fresh now b).2 = b \/
  exists c, secret_commitment fresh k = Ok c /\ 0 <= k < 2 ^ 63 /\ secrets b !! k = None /\ (forall n, latest b = Some n -> n < k) /\
    adopt_checkpoint cfg cooldown_of k fresh now b = (Ok c, (revise_cooldowns cfg cooldown_of (adopted cfg k fresh c now b)).2).
Proof.
  unfold adopt_checkpoint. destruct (u64 k) as [bk|] eqn:Eu; [|by left]. apply u64_ok in Eu.
  destruct (match latest b with Some n => k <? n | None => false end) eqn:Eold; [by left|].
  case_bool_decide as Hk; [left; by destruct (secrets b !! k)|]. destruct (Z.leb_spec (2 ^ 63) k) as [|Hk63]; [by left|].
  destruct (secret_commitment fresh k) as [c|] eqn:Ec; [|by left]. destruct (secrets b !! k) eqn:Ek; [by left|]. right. exists c.
  split_and!; [done|lia|done|done| |done]. intros n En. rewrite En in Eold, Hk. apply Z.ltb_ge in Eold. assert (n <> k) by congruence. lia.
Qed.

Lemma adopt_ok cfg qcfg cooldown_of k fresh now b : 0 <= max_lag cfg -> length fresh = 32%nat -> book_ok cfg qcfg b ->
  book_ok cfg qcfg (adopt_checkpoint cfg cooldown_of k fresh now b).2.
Proof.
  intros Hlag Hlen Hok. destruct (adopt_cases cfg cooldown_of k fresh now b) as [->|(c & Ec & Hk & _ & Hnew & ->)]; [done|].
  apply revise_cooldowns_ok. by apply adopted_ok.
Qed.

(** ** Granting an interval *)

(** What a lease given for a request says. *)
Definition lease_for (r : request) (p : Z) (l : lease) : Prop :=
  hotkey l = req_hotkey r /\ environment l = req_env r /\ prompt_idx l = p /\ checkpoint l = req_k r /\ state l = OPEN.

(** Why a refusal is true of the book. *)
Definition refusal_true (now : float) (b : book) (r : request) (p : Z) (w : refusal) : Prop :=
  match w with
  | STALE => forall s, secrets b !! req_k r = Some s -> revealed_at s <> None
  | TAKEN => exists id x, leases b !! id = Some x /\ environment (row_lease x) = req_env r /\ prompt_idx (row_lease x) = p /\
               (state (row_lease x) = OPEN \/ (state (row_lease x) = SUBMITTED /\ checkpoint (row_lease x) = req_k r))
  | BLACKLISTED => exists x, prompts b !! (req_env r, p) = Some x /\ mode x = BLACKLIST
  | COOLING => exists x n u, prompts b !! (req_env r, p) = Some x /\ latest b = Some n /\ until_k x = Some u /\ n < u
  | BANNED => banned (req_hotkey r) now b = true
  | QUOTA | FULL => True
  end.

(** A prompt nothing keeps from being leased. *)
Definition leasable (b : book) (env : string) (p : Z) : Prop :=
  forall x, prompts b !! (env, p) = Some x -> mode x = COOLDOWN /\ exists n u, latest b = Some n /\ until_k x = Some u /\ u <= n.

(** What granting leaves alone, and adds. *)
Definition grant_frame (b b' : book) : Prop :=
  latest b' = latest b /\ secrets b' = secrets b /\ prompts b' = prompts b /\ bans b' = bans b /\
  forall id r, leases b !! id = Some r -> leases b' !! id = Some r.

Lemma grant_frame_refl b : grant_frame b b.
Proof. done. Qed.
Lemma grant_frame_trans b1 b2 b3 : grant_frame b1 b2 -> grant_frame b2 b3 -> grant_frame b1 b3.
Proof. intros (A1 & A2 & A3 & A4 & A5) (B1 & B2 & B3 & B4 & B5). split_and!; try congruence. intros id r Hr. by apply B5, A5. Qed.

Lemma refusal_true_frame now b b' r p w : grant_frame b b' -> refusal_true now b r p w -> refusal_true now b' r p w.
Proof.
  intros (E1 & E2 & E3 & E4 & Hl) Hw. destruct w; cbn in *; try done.
  - destruct Hw as (id & x & Hx & Hw). exists id, x. by split; [apply Hl|].
  - destruct Hw as (x & n & u & H1 & H2 & H3). exists x, n, u. by rewrite E1, E3.
  - by rewrite E3.
  - by rewrite E2.
  - unfold banned in *. by rewrite E4.
Qed.

(** The requests an interval is made of. *)
Definition good_requests (cfg : book_config) (requests : list request) : Prop :=
  forall r, r ∈ requests -> check_request cfg r = Ok tt /\ forall p, p ∈ prompt_ids r -> p < 2 ^ 63.

Lemma check_request_ok cfg r : check_request cfg r = Ok tt ->
  is_Some (expiry_s cfg !! req_env r) /\ 0 <= req_k r /\ NoDup (prompt_ids r) /\ forall p, p ∈ prompt_ids r -> 0 <= p.
Proof.
  unfold check_request. destruct (String.eqb _ _); [done|]. destruct (expiry_s cfg !! req_env r) eqn:E; [|done].
  destruct (Z.ltb_spec (req_k r) 0); [done|]. destruct (_ || _); [done|].
  destruct (existsb (fun p => p <? 0) (prompt_ids r)) eqn:Ep; cbn [orb]; [done|]. case_bool_decide as Hnd; cbn [negb]; [|done]. intros _.
  split_and!; [by eexists|done|done|]. intros p Hp. destruct (Z.le_gt_cases 0 p) as [|Hlt]; [done|]. exfalso.
  assert (existsb (fun p => p <? 0) (prompt_ids r) = true) as Et; [|congruence]. apply existsb_exists. exists p.
  split; [by apply list_elem_of_In|by apply Z.ltb_lt].
Qed.

Section grant.
Context (cfg : book_config) (qcfg : quota_config) (Hq : valid_quota qcfg = true).
Context (scan : gmap string lease_row -> list (string * lease_row)) (Hscan : forall m, scan m ≡ₚ map_to_list m).
Context (sandbox : lease -> option string) (token : nat -> string) (Htoken : Inj (=) (=) token).
Context (buffered : list string) (lane_max : gmap string Z).
Context (Henv : forall env e, expiry_s cfg !! env = Some e -> Z.of_nat (String.length env) < 2 ^ 32).
Context (requests : list request) (now : float) (Hreq : good_requests cfg requests).

(** A lease issued now, under an unrevealed secret. *)
Definition fresh_lease (b1 : book) (l : lease) : Prop :=
  issued_at l = now /\ leasable b1 (environment l) (prompt_idx l) /\
  exists s e n, secrets b1 !! checkpoint l = Some s /\ revealed_at s = None /\ expiry_s cfg !! environment l = Some e /\
    expires_at l = fadd now e /\ lease_nonce (secret s) (environment l) (prompt_idx l) (checkpoint l) = Ok n /\ nonce l = hex n.

Record grant_inv (b1 : book) (limit : string -> Z) (todo : list (nat * Z)) (g : granting) : Prop := {
  gi_ok : book_ok cfg qcfg (g_book g);
  gi_frame : grant_frame b1 (g_book g);
  gi_new : forall id x, leases (g_book g) !! id = Some x -> leases b1 !! id = Some x \/ (leases b1 !! id = None /\ fresh_lease b1 (row_lease x));
  gi_fresh : forall n, (issued g <= n)%nat -> leases (g_book g) !! token n = None;
  gi_count : forall hk, open_count hk (leases (g_book g)) <= limit hk /\
    forall rm, room g !! hk = Some rm -> 0 < rm -> open_count hk (leases (g_book g)) + rm <= limit hk;
  gi_todo : forall i p, (i, p) ∈ todo -> exists r, requests !! i = Some r /\ p ∈ prompt_ids r /\ banned (req_hotkey r) now b1 = false;
  gi_nodup : NoDup todo;
  gi_answer : forall i r p, requests !! i = Some r -> p ∈ prompt_ids r ->
    match granted g !! (i, p), refused g !! (i, p) with
    | None, None => (i, p) ∈ todo
    | Some l, None => (i, p) ∉ todo /\ lease_for r p l /\ banned (req_hotkey r) now b1 = false /\
                      exists x, leases (g_book g) !! lease_id l = Some x /\ row_lease x = l
    | None, Some w => (i, p) ∉ todo /\ refusal_true now (g_book g) r p w
    | Some _, Some _ => False
    end;
}.

Lemma set_full_ok f h b : book_ok cfg qcfg b -> book_ok cfg qcfg (set_full f h b).
Proof. intros Hok. by eapply book_ok_frame. Qed.

(** A claim answered by a refusal, possibly noting a full environment. *)
Lemma refuse_step b1 limit i p r w todo g f h : grant_inv b1 limit ((i, p) :: todo) g -> requests !! i = Some r -> p ∈ prompt_ids r ->
  refusal_true now (g_book g) r p w ->
  grant_inv b1 limit todo (refuse i p w (Granting (set_full f h (g_book g)) (room g) (granted g) (refused g) (issued g))).
Proof.
  intros [I1 I2 In I3 I4 I5 I6 I7] Hr Hp Hw. apply NoDup_cons in I6 as [Hnin Hnd].
  split; cbn.
  - by apply set_full_ok.
  - exact I2.
  - exact In.
  - exact I3.
  - exact I4.
  - intros j q Hj. apply I5. by constructor.
  - done.
  - intros j x q Hj Hq'. specialize (I7 j x q Hj Hq'). rewrite lookup_insert. destruct (decide ((i, p) = (j, q))) as [E|Hne].
    + injection E as <- <-. assert (x = r) as -> by congruence. destruct (granted g !! (i, p)) as [l|], (refused g !! (i, p)) as [w'|].
      * done.
      * destruct I7 as [I7 _]. exfalso. apply I7. constructor.
      * done.
      * done.
    + destruct (granted g !! (j, q)) as [l|], (refused g !! (j, q)) as [w'|].
      * done.
      * destruct I7 as [I7 I8]. split; [|done]. intros Hin. apply I7. by constructor.
      * destruct I7 as [I7 I8]. split; [|done]. intros Hin. apply I7. by constructor.
      * apply elem_of_cons in I7 as [I7|I7]; [congruence|done].
Qed.

(** A claim answered by a new lease. *)
Lemma lease_step b1 limit i p r l todo g : grant_inv b1 limit ((i, p) :: todo) g -> requests !! i = Some r -> p ∈ prompt_ids r ->
  lease_for r p l -> lease_id l = token (issued g) -> prompt_taken scan (req_env r) p (req_k r) (g_book g) = false ->
  0 < default 0 (room g !! req_hotkey r) -> fresh_lease b1 l ->
  exists b, insert_lease scan l (g_book g) = Ok b /\
    grant_inv b1 limit todo (Granting (set_quotas (record_lease qcfg (req_hotkey r) now (quotas b)) b)
      (<[req_hotkey r := default 0 (room g !! req_hotkey r) - 1]> (room g)) (<[(i, p) := l]> (granted g)) (refused g) (S (issued g))).
Proof.
  intros [I1 I2 In I3 I4 I5 I6 I7] Hr Hp (L1 & L2 & L3 & L4 & L5) Hid Htaken Hroom Hnew.
  apply NoDup_cons in I6 as [Hnin Hnd]. pose proof (I3 (issued g) ltac:(lia)) as Hfresh. rewrite <- Hid in Hfresh.
  unfold prompt_taken in Htaken. apply negb_false_iff, bool_decide_eq_true in Htaken.
  assert (forall id x, leases (g_book g) !! id = Some x -> environment (row_lease x) = req_env r -> prompt_idx (row_lease x) = p ->
    state (row_lease x) <> OPEN /\ (state (row_lease x) = SUBMITTED -> checkpoint (row_lease x) <> req_k r)) as Hfree.
  { intros id x Hx E1 E2. pose proof (proj1 (select_nil scan Hscan _ _) Htaken id x Hx) as Hf. cbn beta in Hf.
    rewrite bool_decide_eq_true_2 in Hf by done. cbn [andb] in Hf. apply orb_false_iff in Hf as [Hf1 Hf2]. split.
    - intros Ho. apply is_open_spec in Ho. congruence.
    - intros Hs Hk. unfold is_submitted in Hf2. rewrite bool_decide_eq_true_2 in Hf2 by done. apply Z.eqb_neq in Hf2. done. }
  unfold insert_lease. rewrite bool_decide_eq_false_2 by (rewrite Hfresh; by intros [? ?]). cbn [orb].
  assert (live_conflict scan l (g_book g) = false) as ->.
  { unfold live_conflict. apply negb_false_iff, bool_decide_eq_true. apply (select_nil scan Hscan). intros id x Hx.
    destruct ((is_open x || is_submitted x) && _) eqn:E; [|done]. exfalso.
    apply andb_true_iff in E as [Hlv (E1 & E2 & E3)%bool_decide_eq_true]. rewrite L2 in E1. rewrite L3 in E2. rewrite L4 in E3.
    destruct (Hfree id x Hx E1 E2) as [F1 F2]. apply orb_true_iff in Hlv as [Hlv|Hlv]; [by apply is_open_spec in Hlv|].
    apply bool_decide_eq_true in Hlv. by apply F2. }
  eexists. split; [done|]. cbn [quotas set_leases].
  set (hk := req_hotkey r) in *. set (rm := default 0 (room g !! hk)) in *.
  assert (room g !! hk = Some rm) as Erm by (unfold rm in *; destruct (room g !! hk); [done|cbn in Hroom; lia]).
  assert (forall h, opens h (LeaseRow l None None) = bool_decide (h = hk)) as Hopens.
  { intros h. unfold opens, is_open. cbn. rewrite L5, (bool_decide_eq_true_2 (OPEN = OPEN)), andb_true_r by done. rewrite L1.
    apply bool_decide_ext. split; congruence. }
  assert (forall h, open_count h (<[lease_id l := LeaseRow l None None]> (leases (g_book g))) =
                    open_count h (leases (g_book g)) + Z.b2z (bool_decide (h = hk))) as Hcount.
  { intros h. rewrite open_count_new by done. by rewrite Hopens. }
  destruct I2 as (F1 & F2 & F3 & F4 & F5).
  split; cbn [g_book room granted refused issued].
  - destruct I1 as [H1 H2 H3 H4 H5 H6 H7 H8]. split; cbn; try done.
    + intros id x. rewrite lookup_insert. case_decide as Hd; [by intros [= <-]|apply H1].
    + intros id id' x y. rewrite !lookup_insert. destruct (decide (lease_id l = id)) as [Hd|Hd], (decide (lease_id l = id')) as [Hd'|Hd'].
      * intros _ _ _ _ _ _. congruence.
      * intros [= <-] Hy _ Ly [S1 S2] Hk. exfalso. cbn in *. destruct (Hfree id' y Hy ltac:(congruence) ltac:(congruence)) as [G1 G2].
        destruct Ly as [Ly|Ly]; [done|]. destruct Hk as [Hk|[_ Hk]]; [|congruence]. apply G2; [done|congruence].
      * intros Hx [= <-] Lx _ [S1 S2] Hk. exfalso. cbn in *. destruct (Hfree id x Hx ltac:(congruence) ltac:(congruence)) as [G1 G2].
        destruct Lx as [Lx|Lx]; [done|]. destruct Hk as [Hk|[Hk _]]; [|congruence]. apply G2; [done|congruence].
      * apply H2.
    + intros h. pose proof (record_lease_moves qcfg hk now (quotas (g_book g))) as (_ & _ & Hm). rewrite Hm, Hcount, !H3.
      destruct (decide (h = hk)) as [->|]; [rewrite bool_decide_eq_true_2 by done|rewrite bool_decide_eq_false_2 by done]; cbn; lia.
    + eapply moves_controller; [done|done|apply record_lease_moves].
  - split_and!; try done. intros id x Hx. cbn. rewrite lookup_insert_ne; [by apply F5|]. intros E. apply F5 in Hx. congruence.
  - intros id x. cbn. rewrite lookup_insert. destruct (decide (lease_id l = id)) as [Hd|Hd]; [|apply In]. intros [= <-]. right. split; [|done].
    destruct (leases b1 !! id) as [y|] eqn:E; [|done]. apply F5 in E. congruence.
  - intros n Hn. cbn. rewrite lookup_insert_ne; [apply I3; lia|]. rewrite Hid. intros E. apply (inj token) in E. lia.
  - intros h. destruct (I4 h) as [J1 J2]. cbn [leases set_quotas set_leases]. rewrite Hcount.
    destruct (decide (h = hk)) as [->|Hne].
    + rewrite bool_decide_eq_true_2 by done. cbn [Z.b2z]. specialize (J2 rm Erm Hroom). split; [lia|].
      intros rm'. rewrite lookup_insert_eq. intros [= <-] _. lia.
    + rewrite bool_decide_eq_false_2 by done. cbn [Z.b2z]. rewrite Z.add_0_r. split; [done|]. intros rm'. rewrite lookup_insert_ne by done. apply J2.
  - intros j q Hj. apply I5. by constructor.
  - done.
  - intros j x q Hj Hq'. specialize (I7 j x q Hj Hq'). rewrite lookup_insert. destruct (decide ((i, p) = (j, q))) as [E|Hne].
    + injection E as <- <-. assert (x = r) as -> by congruence. destruct (granted g !! (i, p)) as [l'|], (refused g !! (i, p)) as [w'|].
      * done.
      * destruct I7 as [I7 _]. exfalso. apply I7. constructor.
      * destruct I7 as [I7 _]. exfalso. apply I7. constructor.
      * split_and!; [done|done| |].
        -- destruct (I5 i p ltac:(constructor)) as (r' & Hr' & _ & Hb). by assert (r' = r) as -> by congruence.
        -- cbn. rewrite lookup_insert_eq. eauto.
    + destruct (granted g !! (j, q)) as [l'|], (refused g !! (j, q)) as [w'|].
      * done.
      * destruct I7 as (I7 & I8 & I9 & y & Hy & Hl). split_and!; [|done|done|].
        -- intros Hin. apply I7. by constructor.
        -- cbn. exists y. split; [|done]. rewrite lookup_insert_ne; [done|]. intros E. rewrite E in Hfresh. congruence.
      * destruct I7 as [I7 I8]. split; [intros Hin; apply I7; by constructor|]. eapply refusal_true_frame; [|exact I8].
        split_and!; try done. intros id y Hy. cbn. rewrite lookup_insert_ne; [done|]. intros E. congruence.
      * apply elem_of_cons in I7 as [I7|I7]; [congruence|done].
Qed.

Lemma length_encode str : length (encode str) = String.length str.
Proof. unfold encode. rewrite length_fmap. induction str as [|a str IH]; cbn; [done|]. by rewrite IH. Qed.

Lemma frames_some parts : (forall x, x ∈ parts -> Z.of_nat (length x) < 2 ^ 32) -> exists fs, frames parts = Ok fs.
Proof.
  induction parts as [|x parts IH]; intros H; cbn [frames]; [by eexists|]. unfold framed.
  destruct (Z.leb_spec (2 ^ 32) (Z.of_nat (length x))) as [Hx|_]; [pose proof (H x ltac:(constructor)); lia|].
  destruct IH as [fs ->]; [intros y Hy; apply H; by constructor|]. cbn. by eexists.
Qed.

Lemma u64_length n bs : u64 n = Ok bs -> length bs = 8%nat.
Proof. unfold u64. destruct (_ <? _); [done|]. destruct (_ <=? _); [done|]. intros <-%(inj Ok). apply length_to_bytes_be. Qed.

Lemma lease_nonce_some sec env p k : length sec = 32%nat -> Z.of_nat (String.length env) < 2 ^ 32 -> 0 <= p < 2 ^ 63 -> 0 <= k < 2 ^ 63 ->
  exists n, lease_nonce sec env p k = Ok n.
Proof.
  intros Hs He Hp Hk. unfold lease_nonce. destruct (u64_some p ltac:(lia)) as [bp Ep]. destruct (u64_some k ltac:(lia)) as [bk Ek].
  rewrite Ep, Ek. cbn [mbind result_bind]. unfold bound.
  destruct (frames_some [sec; encode env; bp; bk]) as [fs ->]; [|cbn; by eexists]. intros x Hx. rewrite !elem_of_cons in Hx.
  destruct Hx as [->|[->|[->|[->|Hx]]]].
  - rewrite Hs. lia.
  - by rewrite length_encode.
  - rewrite (u64_length p bp Ep). lia.
  - rewrite (u64_length k bk Ek). lia.
  - by apply not_elem_of_nil in Hx.
Qed.

Lemma prompt_refusal_ok b r p : book_ok cfg qcfg b -> p < 2 ^ 63 ->
  exists why, prompt_refusal scan (req_env r) p (req_k r) b = Ok why /\
    match why with
    | Some w => refusal_true now b r p w
    | None => prompt_taken scan (req_env r) p (req_k r) b = false /\ leasable b (req_env r) p /\
              exists s, secrets b !! req_k r = Some s /\ revealed_at s = None
    end.
Proof.
  intros Hok Hp. unfold prompt_refusal. destruct (secrets b !! req_k r) as [[sec com at' [rev|]]|] eqn:Es.
  - exists (Some STALE). split; [done|]. cbn. rewrite Es. by intros s [= <-].
  - destruct (Z.leb_spec (2 ^ 63) p); [lia|]. destruct (prompt_taken scan (req_env r) p (req_k r) b) eqn:Et.
    + exists (Some TAKEN). split; [done|]. cbn. unfold prompt_taken in Et. apply negb_true_iff, bool_decide_eq_false in Et.
      destruct (select scan _ b) as [|l ls] eqn:El; [done|].
      assert (l ∈ l :: ls) as Hin by constructor. rewrite <- El in Hin. apply (leases_select_elem scan Hscan) in Hin as (id & x & Hx & _ & Hb).
      apply andb_true_iff in Hb as [(E1 & E2)%bool_decide_eq_true Hb]. exists id, x. split_and!; [done|done|done|].
      apply orb_true_iff in Hb as [Hb|[Hb Hk]%andb_true_iff]; [left; by apply is_open_spec|right].
      split; [by apply bool_decide_eq_true in Hb|by apply Z.eqb_eq].
    + assert (exists n, latest b = Some n) as [n En].
      { destruct (ok_secrets cfg qcfg b Hok _ _ Es) as (_ & _ & _ & n & En & _). by exists n. }
      destruct (prompts b !! (req_env r, p)) as [[[] until sq st rv]|] eqn:Ep.
      * destruct (ok_prompts cfg qcfg b Hok _ _ Ep) as [_ (u & s & Eu & _)]. cbn in Eu. subst until. rewrite En.
        destruct (Z.ltb_spec n u); eexists; (split; [done|]); cbn; [by eexists _, _, _|]. split_and!; [done| |by eexists].
        intros x. rewrite Ep. intros [= <-]. split; [done|]. by exists n, u.
      * eexists; split; [done|]. cbn. by eexists.
      * eexists; split; [done|]. cbn. split_and!; [done| |by eexists]. intros x. by rewrite Ep.
  - exists (Some STALE). split; [done|]. cbn. by rewrite Es.
Qed.

Lemma set_full_same b : set_full (full b) (lane_full b) b = b.
Proof. by destruct b. Qed.

Lemma claim_ok b1 limit c todo g : grant_inv b1 limit (c :: todo) g ->
  exists g', claim cfg qcfg scan token buffered lane_max requests now g c = Ok g' /\ grant_inv b1 limit todo g'.
Proof.
  intros Hinv. destruct c as [i p]. destruct (gi_todo _ _ _ _ Hinv i p ltac:(constructor)) as (r & Hr & Hp & _).
  pose proof (Hreq r ltac:(by eapply list_elem_of_lookup_2)) as [Hchk Hp63]. specialize (Hp63 p Hp).
  destruct (check_request_ok cfg r Hchk) as ([e He] & Hk0 & _ & Hp0). specialize (Hp0 p Hp).
  pose proof (gi_ok _ _ _ _ Hinv) as Hok. unfold claim. rewrite Hr. cbv zeta.
  destruct (prompt_refusal_ok (g_book g) r p Hok Hp63) as (why & -> & Hwhy). cbn [mbind result_bind].
  assert (forall w f h, refusal_true now (g_book g) r p w ->
    grant_inv b1 limit todo (refuse i p w (Granting (set_full f h (g_book g)) (room g) (granted g) (refused g) (issued g)))) as Hrefuse.
  { intros w f h Hw. by eapply refuse_step. }
  assert (forall w, refusal_true now (g_book g) r p w -> grant_inv b1 limit todo (refuse i p w g)) as Hplain.
  { intros w Hw. specialize (Hrefuse w (full (g_book g)) (lane_full (g_book g)) Hw). rewrite set_full_same in Hrefuse. by destruct g. }
  destruct why as [w|]; [eauto|]. destruct Hwhy as (Htaken & Hleasable & s & Es & Hrev).
  destruct (Z.leb_spec (default 0 (room g !! req_hotkey r)) 0) as [|Hroom]; [eexists; split; [done|by apply Hplain]|].
  destruct (no_lane _ _ _); [eexists; split; [done|by apply Hrefuse]|]. destruct (no_cap_room _ _ _); [eexists; split; [done|by apply Hrefuse]|].
  unfold new_lease. rewrite Es, He. destruct (ok_secrets cfg qcfg _ Hok _ _ Es) as (_ & Hlen & _ & n & En & Hle & _).
  pose proof (ok_latest cfg qcfg _ Hok) as Hlat. rewrite En in Hlat. destruct Hlat as [Hn _].
  destruct (lease_nonce_some (secret s) (req_env r) p (req_k r) Hlen ltac:(by eapply Henv) ltac:(lia) ltac:(lia)) as [nc Enc]. rewrite Enc.
  cbn [mbind result_bind]. set (l := Lease _ _ _ _ _ _ _ _ _).
  destruct (gi_frame _ _ _ _ Hinv) as (F1 & F2 & F3 & _).
  assert (fresh_lease b1 l) as Hfresh.
  { split_and!; [done| |].
    - unfold leasable in *. rewrite F3, F1 in Hleasable. exact Hleasable.
    - exists s, e, nc. rewrite <- F2. by split_and!. }
  destruct (lease_step b1 limit i p r l todo g Hinv Hr Hp ltac:(done) ltac:(done) Htaken Hroom Hfresh) as (b & -> & Hinv').
  cbn [mbind result_bind]. by eexists.
Qed.

Lemma claim_all_ok b1 limit claims : forall g, grant_inv b1 limit claims g ->
  exists g', claim_all cfg qcfg scan token buffered lane_max requests now g claims = (Ok tt, g') /\ grant_inv b1 limit [] g'.
Proof.
  induction claims as [|c claims IH]; intros g Hinv; cbn [claim_all]; [by exists g|].
  destruct (claim_ok b1 limit c claims g Hinv) as (g1 & -> & Hinv1). by apply IH.
Qed.

(** How one prompt stands after the asking: claimed, answered with the requester's own
    open lease, or refused. *)
Definition asked_ok (i : nat) (r : request) (rm : Z) (claims : list (nat * Z)) (g : granting) (p : Z) : Prop :=
  match granted g !! (i, p), refused g !! (i, p) with
  | None, None => (i, p) ∈ claims /\ 0 <= rm
  | Some l, None => (i, p) ∉ claims /\ 0 <= rm /\ held scan (req_hotkey r) (req_env r) p (req_k r) (g_book g) = Some l
  | None, Some w => (i, p) ∉ claims /\ ((w = BANNED /\ rm < 0) \/ w = QUOTA)
  | Some _, Some _ => False
  end.

Definition same_work (g g' : granting) : Prop := g_book g' = g_book g /\ room g' = room g /\ issued g' = issued g.
Definition same_answers (g g' : granting) (key : nat * Z) : Prop :=
  granted g' !! key = granted g !! key /\ refused g' !! key = refused g !! key.
Definition unanswered (g : granting) (key : nat * Z) : Prop := granted g !! key = None /\ refused g !! key = None.

(** Answering [p] and going on with the others. *)
Lemma asked_answer i r rm p ps claims g g1 g' : p ∉ ps -> same_work g g1 -> (forall key, key <> (i, p) -> same_answers g g1 key) ->
  asked_ok i r rm [] g1 p -> ~ unanswered g1 (i, p) ->
  same_work g1 g' -> (forall c, c ∈ claims -> exists q, c = (i, q) /\ q ∈ ps) -> (forall key, (forall q, q ∈ ps -> key <> (i, q)) -> same_answers g1 g' key) ->
  (forall q, q ∈ ps -> asked_ok i r rm claims g' q) ->
  same_work g g' /\ (forall key, (forall q, q ∈ p :: ps -> key <> (i, q)) -> same_answers g g' key) /\
  forall q, q ∈ p :: ps -> asked_ok i r rm claims g' q.
Proof.
  intros Hp (W1 & W2 & W3) Hother Hok1 Hans (V1 & V2 & V3) Hcl Hframe Hrest. split_and!; [split_and!; congruence| |].
  - intros key Hkey. destruct (Hother key (Hkey p ltac:(constructor))) as [A1 A2].
    destruct (Hframe key) as [B1 B2]; [intros q Hq'; apply Hkey; by constructor|]. split; congruence.
  - intros q [->|Hq']%elem_of_cons; [|by apply Hrest]. unfold asked_ok, unanswered in *.
    destruct (Hframe (i, p)) as [-> ->]; [intros q Hq' [= ->]; done|].
    assert ((i, p) ∉ claims) as Hnin by (intros (q & [= ->] & Hq')%Hcl; done). rewrite V1.
    destruct (granted g1 !! (i, p)), (refused g1 !! (i, p)); [done| | |by destruct Hans];
      (destruct Hok1 as [_ Hok1]; split; [exact Hnin|exact Hok1]).
Qed.

Lemma ask_spec i r rm ps : forall asked g, NoDup ps -> (forall p, p ∈ ps -> unanswered g (i, p)) ->
  let '(claims, g') := ask scan i r rm ps asked g in
  NoDup claims /\ (forall c, c ∈ claims -> exists p, c = (i, p) /\ p ∈ ps) /\ same_work g g' /\
  (forall key, (forall p, p ∈ ps -> key <> (i, p)) -> same_answers g g' key) /\ (forall p, p ∈ ps -> asked_ok i r rm claims g' p).
Proof.
  induction ps as [|p ps IH]; intros asked g Hnd Hun; cbn [ask].
  { split_and!; [constructor| |done|done|]; intros x Hx; by apply not_elem_of_nil in Hx. }
  apply NoDup_cons in Hnd as [Hp Hnd]. destruct (Hun p ltac:(constructor)) as [Hun1 Hun2].
  (* answered at once: the answer is the only change before the others *)
  assert (forall g1 asked1, same_work g g1 -> (forall key, key <> (i, p) -> same_answers g g1 key) -> asked_ok i r rm [] g1 p ->
    ~ unanswered g1 (i, p) -> let '(claims, g') := ask scan i r rm ps asked1 g1 in
    NoDup claims /\ (forall c, c ∈ claims -> exists q, c = (i, q) /\ q ∈ p :: ps) /\ same_work g g' /\
    (forall key, (forall q, q ∈ p :: ps -> key <> (i, q)) -> same_answers g g' key) /\ (forall q, q ∈ p :: ps -> asked_ok i r rm claims g' q)) as Hnext.
  { intros g1 asked1 Hw Ho Hok1 Hans.
    assert (forall q, q ∈ ps -> unanswered g1 (i, q)) as Hun'.
    { intros q Hq'. destruct (Ho (i, q)) as [E1 E2]; [intros [= ->]; done|]. destruct (Hun q ltac:(by constructor)) as [U1 U2].
      split; congruence. }
    specialize (IH asked1 g1 Hnd Hun'). destruct (ask scan i r rm ps asked1 g1) as [claims g']. destruct IH as (I1 & I2 & I3 & I4 & I5).
    split_and!; [done|intros c (q & -> & Hq')%I2; exists q; split; [done|by constructor]|..];
      by eapply (asked_answer i r rm p ps claims g g1 g'). }
  destruct (Z.ltb_spec rm 0) as [Hneg|Hpos].
  - apply Hnext; [done| | |].
    + intros key Hkey. split; [done|]. cbn. by rewrite lookup_insert_ne.
    + unfold asked_ok. cbn. rewrite lookup_insert_eq, Hun1. split; [apply not_elem_of_nil|by left].
    + intros [_ U2]. cbn in U2. by rewrite lookup_insert_eq in U2.
  - destruct (held scan (req_hotkey r) (req_env r) p (req_k r) (g_book g)) as [l|] eqn:Eh.
    + apply Hnext; [done| | |].
      * intros key Hkey. split; [|done]. cbn. by rewrite lookup_insert_ne.
      * unfold asked_ok. cbn. rewrite lookup_insert_eq, Hun2. split_and!; [apply not_elem_of_nil|done|done].
      * intros [U1 _]. cbn in U1. by rewrite lookup_insert_eq in U1.
    + destruct (Z.leb_spec rm asked).
      * apply Hnext; [done| | |].
        -- intros key Hkey. split; [done|]. cbn. by rewrite lookup_insert_ne.
        -- unfold asked_ok. cbn. rewrite lookup_insert_eq, Hun1. split; [apply not_elem_of_nil|by right].
        -- intros [_ U2]. cbn in U2. by rewrite lookup_insert_eq in U2.
      * assert (forall q, q ∈ ps -> unanswered g (i, q)) as Hun' by (intros q Hq'; apply Hun; by constructor).
        specialize (IH (asked + 1) g Hnd Hun'). destruct (ask scan i r rm ps (asked + 1) g) as [claims g']. destruct IH as (I1 & I2 & I3 & I4 & I5).
        assert ((i, p) ∉ claims) as Hnin by (intros (q & [= ->] & Hq')%I2; done).
        destruct (I4 (i, p)) as [E1 E2]; [intros q Hq' [= ->]; done|]. split_and!.
        -- by constructor.
        -- intros c [->|(q & -> & Hq')%I2]%elem_of_cons; [exists p|exists q]; (split; [done|by constructor]).
        -- done.
        -- intros key Hkey. apply I4. intros q Hq'. apply Hkey. by constructor.
        -- intros q [->|Hq']%elem_of_cons.
           ++ unfold asked_ok. rewrite E1, E2, Hun1, Hun2. split; [constructor|done].
           ++ specialize (I5 q Hq'). unfold asked_ok in *. assert ((i, q) <> (i, p)) as Hne by (intros [= ->]; done).
              destruct (granted g' !! (i, q)), (refused g' !! (i, q)); [done| | |destruct I5; split; [by constructor|done]];
                (destruct I5 as [I5 I6]; split; [|done]; intros [?|?]%elem_of_cons; done).
Qed.

(** Claims of other requests do not matter to [asked_ok]. *)
Lemma asked_ok_more i r rm claims claims' g g' p : asked_ok i r rm claims g p -> g_book g' = g_book g -> same_answers g g' (i, p) ->
  (forall x, x ∈ claims -> x ∈ claims') -> ((i, p) ∈ claims' -> (i, p) ∈ claims) -> asked_ok i r rm claims' g' p.
Proof.
  intros H E [E1 E2] Hsub Hback. unfold asked_ok in *. rewrite E, E1, E2.
  destruct (granted g !! (i, p)), (refused g !! (i, p)); [done| | |]; (destruct H as [H1 H2]; split; [auto|done]).
Qed.

Lemma ask_all_spec rs : forall i g, (forall r, r ∈ rs -> NoDup (prompt_ids r)) -> (forall j p, (i <= j)%nat -> unanswered g (j, p)) ->
  let '(claims, g') := ask_all scan i rs g in
  NoDup claims /\ same_work g g' /\ (forall j p, (j < i)%nat -> same_answers g g' (j, p)) /\
  (forall j p, (j, p) ∈ claims -> exists k r, j = (i + k)%nat /\ rs !! k = Some r /\ p ∈ prompt_ids r) /\
  (forall k r p, rs !! k = Some r -> p ∈ prompt_ids r -> asked_ok (i + k) r (default 0 (room g !! req_hotkey r)) claims g' p).
Proof.
  induction rs as [|r rs IH]; intros i g Hnd Hun; cbn [ask_all].
  { split_and!; [constructor|done|done| |done]. intros j p Hp. by apply not_elem_of_nil in Hp. }
  set (rm := default 0 (room g !! req_hotkey r)).
  pose proof (ask_spec i r rm (prompt_ids r) 0 g ltac:(apply Hnd; constructor) ltac:(intros p _; by apply Hun)) as Hask.
  destruct (ask scan i r rm (prompt_ids r) 0 g) as [claims g1]. destruct Hask as (A1 & A2 & (W1 & W2 & W3) & A4 & A5).
  specialize (IH (S i) g1 ltac:(intros x Hx; apply Hnd; by constructor)).
  destruct (ask_all scan (S i) rs g1) as [claims' g2].
  destruct IH as (B1 & (V1 & V2 & V3) & B3 & B4 & B5).
  { intros j p Hj. destruct (A4 (j, p)) as [E1 E2]; [intros q _ [= -> ->]; lia|]. destruct (Hun j p ltac:(lia)). split; congruence. }
  assert (forall p, (i, p) ∉ claims') as Hdisj by (intros p (k & x & Hk & _)%B4; lia).
  split_and!.
  - apply NoDup_app. split_and!; [done| |done]. intros c (p & -> & _)%A2. apply Hdisj.
  - split_and!; congruence.
  - intros j p Hj. destruct (A4 (j, p)) as [E1 E2]; [intros q _ [= -> ->]; lia|]. destruct (B3 j p ltac:(lia)). split; congruence.
  - intros j p [(q & [= -> ->] & Hq')%A2|(k & x & -> & Hk & Hx)%B4]%elem_of_app; [exists 0%nat, r|exists (S k), x]; (split_and!; [lia|done|done]).
  - intros [|k] x p Hk Hp.
    + injection Hk as <-. rewrite Nat.add_0_r. eapply (asked_ok_more i r rm claims); [by apply A5|congruence|apply B3; lia| |].
      * intros c Hc. apply elem_of_app. by left.
      * intros [?|Hc]%elem_of_app; [done|by apply Hdisj in Hc].
    + cbn in Hk. replace (i + S k)%nat with (S i + k)%nat by lia. rewrite W2 in B5.
      eapply (asked_ok_more (S i + k) x _ claims'); [by apply B5|done|done| |].
      * intros c Hc. apply elem_of_app. by right.
      * intros [(q & [= E _] & _)%A2|?]%elem_of_app; [lia|done].
Qed.

(** The requester's own lease. *)
Lemma held_some b r p l : book_ok cfg qcfg b -> held scan (req_hotkey r) (req_env r) p (req_k r) b = Some l ->
  lease_for r p l /\ exists x, leases b !! lease_id l = Some x /\ row_lease x = l.
Proof.
  intros Hok Hh. unfold held in Hh. destruct (select scan _ b) as [|l' ls] eqn:E; [done|]. injection Hh as ->.
  assert (l ∈ l :: ls) as Hin by constructor. rewrite <- E in Hin. apply (leases_select_elem scan Hscan) in Hin as (id & x & Hx & <- & Hb).
  apply andb_true_iff in Hb as [Ho (E1 & E2 & E3 & E4)%bool_decide_eq_true]. split; [split_and!; try done; by apply is_open_spec|].
  exists x. by rewrite (ok_ids cfg qcfg b Hok id x Hx).
Qed.

Lemma initial_room_some b r : r ∈ requests -> initial_room cfg qcfg scan requests now b !! req_hotkey r = Some (room_of cfg qcfg scan (req_hotkey r) now b).
Proof.
  intros Hr. unfold initial_room. clear Hreq. induction requests as [|x rs IH]; [by apply not_elem_of_nil in Hr|].
  rewrite fmap_cons, list_to_map_cons, lookup_insert. destruct (decide (req_hotkey x = req_hotkey r)) as [->|Hne]; [done|].
  apply elem_of_cons in Hr as [->|Hr]; [done|]. by apply IH.
Qed.

Lemma initial_room_inv b hk rm : initial_room cfg qcfg scan requests now b !! hk = Some rm -> rm = room_of cfg qcfg scan hk now b.
Proof.
  intros H. unfold initial_room in H. apply elem_of_list_to_map_2 in H. apply list_elem_of_fmap in H as (x & E & _). injection E as -> ->. done.
Qed.

(** The most open leases a hotkey may hold after the interval. *)
Definition open_limit (b : book) (hk : string) : Z := Z.max (open_count hk (leases b)) (quota qcfg hk (Some now) (quotas b)).

Lemma ask_inv b1 : book_ok cfg qcfg b1 -> (forall n, leases b1 !! token n = None) ->
  let '(claims, g) := ask_all scan 0 requests (Granting b1 (initial_room cfg qcfg scan requests now b1) ∅ ∅ 0) in
  grant_inv b1 (open_limit b1) claims g.
Proof.
  intros Hok Hfresh. set (g0 := Granting _ _ _ _ _).
  pose proof (ask_all_spec requests 0 g0) as Hask.
  destruct (ask_all scan 0 requests g0) as [claims g].
  destruct Hask as (A1 & (W1 & W2 & W3) & _ & A4 & A5).
  { intros r Hr. apply (check_request_ok cfg r). by apply Hreq. }
  { intros j p _. split; apply lookup_empty. }
  assert (forall i r, requests !! i = Some r -> default 0 (room g0 !! req_hotkey r) = room_of cfg qcfg scan (req_hotkey r) now b1) as Hroom.
  { intros i r Hr. cbn. rewrite (initial_room_some b1 r) by (by eapply list_elem_of_lookup_2). done. }
  assert (forall hk, banned hk now b1 = true -> room_of cfg qcfg scan hk now b1 = -1) as Hban by (intros hk E; unfold room_of; by rewrite E).
  assert (forall hk, 0 <= room_of cfg qcfg scan hk now b1 -> banned hk now b1 = false) as Hnotban.
  { intros hk Hge. destruct (banned hk now b1) eqn:E; [rewrite (Hban hk E) in Hge; lia|done]. }
  split.
  - by rewrite W1.
  - rewrite W1. apply grant_frame_refl.
  - intros id x Hx. left. by rewrite W1 in Hx.
  - intros n _. rewrite W1. apply Hfresh.
  - intros hk. rewrite W1, W2. split; [unfold open_limit; cbn; lia|]. intros rm Hrm%initial_room_inv Hpos. cbn.
    unfold room_of in Hrm. destruct (banned hk now b1); [lia|]. rewrite (in_use_of_count scan Hscan) in Hrm. unfold open_limit.
    destruct (max_pending_groups cfg); lia.
  - intros i p Hp. destruct (A4 i p Hp) as (k & r & -> & Hr & Hpr). exists r. split_and!; [done|done|].
    pose proof (A5 k r p Hr Hpr) as Ha. unfold asked_ok in Ha. rewrite (Hroom k r Hr) in Ha.
    destruct (granted g !! (0 + k, p)%nat), (refused g !! (0 + k, p)%nat); [done|by destruct Ha|by destruct Ha|]. by apply Hnotban, Ha.
  - done.
  - intros i r p Hr Hp. pose proof (A5 i r p Hr Hp) as Ha. unfold asked_ok in Ha. cbn [Nat.add] in Ha. rewrite (Hroom i r Hr), W1 in Ha.
    destruct (granted g !! (i, p)) as [l|], (refused g !! (i, p)) as [w|]; [done| | |by destruct Ha].
    + destruct Ha as (H1 & H2 & H3). destruct (held_some b1 r p l Hok H3) as [H4 H5]. rewrite W1.
      split_and!; [done|done|by apply Hnotban|done].
    + destruct Ha as [H1 [[-> H2]| ->]]; (split; [done|]); cbn; [|done]. rewrite W1. cbn.
      destruct (banned (req_hotkey r) now b1) eqn:E; [done|]. unfold room_of in H2. rewrite E in H2. cbv zeta in H2. lia.
Qed.

Lemma grant_inv_perm b1 limit todo todo' g : todo ≡ₚ todo' -> grant_inv b1 limit todo g -> grant_inv b1 limit todo' g.
Proof.
  intros Hp [I1 I2 In I3 I4 I5 I6 I7]. split; try done.
  - intros i p. rewrite <- Hp. apply I5.
  - by rewrite <- Hp.
  - intros i r p Hr Hpr. specialize (I7 i r p Hr Hpr). destruct (granted g !! (i, p)), (refused g !! (i, p)); rewrite <- ?Hp; done.
Qed.

Lemma first_error_ok rs : (forall r, r ∈ rs -> check_request cfg r = Ok tt) -> first_error cfg rs = Ok tt.
Proof.
  induction rs as [|r rs IH]; intros H; cbn [first_error]; [done|]. rewrite (H r) by constructor. cbn. apply IH.
  intros x Hx. apply H. by constructor.
Qed.

Lemma grant_ok shuffle b : (forall l, shuffle l ≡ₚ l) -> (forall n, leases b !! token n = None) -> book_ok cfg qcfg b ->
  let b1 := expire cfg qcfg scan sandbox now b in
  exists g, grant cfg qcfg scan sandbox token shuffle buffered lane_max requests now b = (Ok (imap (answer_of g) requests), g_book g) /\
    grant_inv b1 (open_limit b1) [] g.
Proof.
  intros Hsh Hfresh Hok b1. destruct (expire_ok cfg qcfg Hq scan Hscan sandbox now b Hok) as (Hok1 & _ & Hrows). fold b1 in Hok1, Hrows.
  unfold grant. rewrite first_error_ok by (intros r Hr; by apply Hreq). fold b1.
  pose proof (ask_inv b1 Hok1) as Hask. destruct (ask_all scan 0 requests _) as [claims g0].
  destruct (claim_all_ok b1 (open_limit b1) (shuffle claims) g0) as (g & -> & Hinv).
  { eapply grant_inv_perm; [symmetry; apply Hsh|]. apply Hask. intros n. specialize (Hrows (token n)). by rewrite Hfresh in Hrows. }
  by exists g.
Qed.
End grant.

(** ** The book as a transition system *)

(** A configuration the constructor accepts, with environment names a hash can frame. *)
Definition good_book_config (cfg : book_config) : Prop :=
  valid_book_config cfg = true /\ forall env e, expiry_s cfg !! env = Some e -> Z.of_nat (String.length env) < 2 ^ 32.

(** One call of a public method, whatever the environment answers. *)
Inductive book_step (cfg : book_config) (qcfg : quota_config) (scan : gmap string lease_row -> list (string * lease_row)) : book -> book -> Prop :=
  | step_grant sandbox token shuffle buffered lane_max requests now b :
      Inj (=) (=) token -> (forall l, shuffle l ≡ₚ l) -> (forall n, leases b !! token n = None) -> good_requests cfg requests ->
      book_step cfg qcfg scan b (grant cfg qcfg scan sandbox token shuffle buffered lane_max requests now b).2
  | step_expire sandbox now b : book_step cfg qcfg scan b (expire_due cfg qcfg scan sandbox now b).2
  | step_forfeit sandbox id hk now b : book_step cfg qcfg scan b (forfeit cfg qcfg scan sandbox id hk now b).2
  | step_alive now b : book_step cfg qcfg scan b (mark_alive now b)
  | step_restart now b : book_step cfg qcfg scan b (restart qcfg scan now b)
  | step_check sandbox id hk now b : book_step cfg qcfg scan b (check_submission cfg qcfg scan sandbox id hk now b).2
  | step_hold sandbox id hk now b : book_step cfg qcfg scan b (hold_submission cfg qcfg scan sandbox id hk now b).2
  | step_unhold id b : book_step cfg qcfg scan b (release_submission id b)
  | step_submit sandbox id hk zone delivered now b : book_step cfg qcfg scan b (submit cfg qcfg scan sandbox id hk zone delivered now b).2
  | step_credit id now b : book_step cfg qcfg scan b (credit qcfg id now b)
  | step_ban hk until b : book_step cfg qcfg scan b (ban hk until b)
  | step_outcome cooldown_of env p k rewards v now b :
      book_step cfg qcfg scan b (record_outcome cfg cooldown_of env p k rewards v now b).2
  | step_revise cooldown_of b : book_step cfg qcfg scan b (revise_cooldowns cfg cooldown_of b).2
  | step_adopt cooldown_of k fresh now b : length fresh = 32%nat ->
      book_step cfg qcfg scan b (adopt_checkpoint cfg cooldown_of k fresh now b).2
  | step_drain b : book_step cfg qcfg scan b (drain_full b).2
  | step_drain_lanes b : book_step cfg qcfg scan b (drain_lane_full b).2.

Section reachable.
Context (cfg : book_config) (qcfg : quota_config) (scan : gmap string lease_row -> list (string * lease_row)).
Context (Hcfg : good_book_config cfg) (Hq : valid_quota qcfg = true) (Hscan : forall m, scan m ≡ₚ map_to_list m).

Lemma lag_nonneg : 0 <= max_lag cfg.
Proof.
  destruct Hcfg as [H _]. unfold valid_book_config in H. split_andb H. by apply Z.leb_le.
Qed.

Lemma book_step_ok b b' : book_ok cfg qcfg b -> book_step cfg qcfg scan b b' -> book_ok cfg qcfg b'.
Proof.
  intros Hok. destruct 1.
  - destruct (grant_ok cfg qcfg Hq scan Hscan sandbox token H buffered lane_max (proj2 Hcfg) requests now H2 shuffle b H0 H1 Hok) as (g & -> & Hg).
    apply (gi_ok _ _ _ _ _ _ _ _ _ Hg).
  - by apply (expire_ok cfg qcfg Hq scan Hscan sandbox now b).
  - by apply forfeit_ok.
  - by apply mark_alive_ok.
  - by apply restart_ok.
  - by apply submittable_ok.
  - by apply hold_ok.
  - by eapply book_ok_frame.
  - by apply submit_ok.
  - by apply credit_ok.
  - by eapply book_ok_frame.
  - by apply record_outcome_ok.
  - by apply (revise_cooldowns_ok cfg qcfg cooldown_of b).
  - apply adopt_ok; [apply lag_nonneg|done|done].
  - by apply set_full_ok.
  - by apply set_full_ok.
Qed.

Lemma empty_book_ok : book_ok cfg qcfg empty_book.
Proof.
  split; cbn; try (intros *; rewrite lookup_empty; done); [|split; [|by eexists]|done].
  { intros hk. unfold quota_in_use. cbn. rewrite fmap_empty, lookup_empty. done. }
  split; cbn.
  - intros hk e. rewrite lookup_fmap, lookup_empty. done.
  - intros table [= <-] hk e. by rewrite lookup_empty.
Qed.

Lemma book_reachable_ok b : rtc (book_step cfg qcfg scan) empty_book b -> book_ok cfg qcfg b.
Proof. apply rtc_invariant; [apply book_step_ok|apply empty_book_ok]. Qed.

(** *** What no call undoes *)

Definition blacklist_kept (b b' : book) : Prop :=
  forall key x, prompts b !! key = Some x -> mode x = BLACKLIST -> exists x', prompts b' !! key = Some x' /\ mode x' = BLACKLIST.
Definition secrets_kept (b b' : book) : Prop :=
  forall k s, secrets b !! k = Some s -> exists s', secrets b' !! k = Some s' /\ secret s' = secret s /\ commitment s' = commitment s /\
    (forall t, revealed_at s = Some t -> revealed_at s' = Some t).

Lemma kept_same b b' : prompts b' = prompts b -> secrets b' = secrets b -> blacklist_kept b b' /\ secrets_kept b b'.
Proof. intros E1 E2. split; [intros key x; rewrite E1|intros k s; rewrite E2]; eauto. Qed.

Lemma kept_trans b1 b2 b3 : blacklist_kept b1 b2 /\ secrets_kept b1 b2 -> blacklist_kept b2 b3 /\ secrets_kept b2 b3 ->
  blacklist_kept b1 b3 /\ secrets_kept b1 b3.
Proof.
  intros [A1 A2] [B1 B2]. split.
  - intros key x Hx Hm. destruct (A1 key x Hx Hm) as (y & Hy & Hm'). by eapply B1.
  - intros k s Hs. destruct (A2 k s Hs) as (s2 & Hs2 & E1 & E2 & Hr). destruct (B2 k s2 Hs2) as (s3 & Hs3 & E3 & E4 & Hr').
    exists s3. split_and!; [done|congruence|congruence|]. intros t Ht. by apply Hr', Hr.
Qed.

Lemma kept_revised b b' : prompts_revised (prompts b) (prompts b') -> secrets b' = secrets b -> blacklist_kept b b' /\ secrets_kept b b'.
Proof.
  intros Hr E. split; [|intros k s; rewrite E; eauto]. intros key x Hx Hm. specialize (Hr key). rewrite Hx in Hr.
  destruct (prompts b' !! key) as [x'|]; [|done]. destruct Hr as [Hm' _]. exists x'. split; [done|congruence].
Qed.

Lemma expire_kept sandbox now b : book_ok cfg qcfg b ->
  prompts (expire cfg qcfg scan sandbox now b) = prompts b /\ secrets (expire cfg qcfg scan sandbox now b) = secrets b.
Proof. intros Hok. destruct (expire_ok cfg qcfg Hq scan Hscan sandbox now b Hok) as (_ & Hf & _). unfold closing_frame in Hf. naive_solver. Qed.

Lemma submittable_kept sandbox id hk now b : book_ok cfg qcfg b ->
  let b' := (submittable cfg qcfg scan sandbox id hk now b).2 in prompts b' = prompts b /\ secrets b' = secrets b.
Proof.
  intros Hok. pose proof (submittable_cases cfg qcfg scan sandbox id hk now b Hok) as H.
  destruct (submittable _ _ _ _ _ _ _ _) as [[l|e] b']; cbn [snd]; [by destruct H as [-> _]|].
  destruct H as [-> | ->]; [done|]. by apply expire_kept.
Qed.

Lemma note_downtime_kept since now b : prompts (note_downtime since now b) = prompts b /\ secrets (note_downtime since now b) = secrets b.
Proof. unfold note_downtime. cbv zeta. by destruct (_ <=? _). Qed.

Lemma outcome_kept cooldown_of env p k rewards v now b :
  let b' := (record_outcome cfg cooldown_of env p k rewards v now b).2 in blacklist_kept b b' /\ secrets_kept b b'.
Proof.
  cbv zeta. pose proof (record_outcome_cases cfg cooldown_of env p k rewards v now b) as H.
  destruct (record_outcome _ _ _ _ _ _ _ _ _) as [[row|e] b']; cbn [snd]; [|by subst; apply kept_same].
  destruct H as (c & m & until & start & _ & _ & _ & Em & _ & ->). split; [|intros k' s Hs; by exists s].
  intros key x Hx Hm. cbn. rewrite lookup_insert. destruct (decide ((env, p) = key)) as [<-|]; [|by exists x].
  eexists. split; [done|]. cbn. unfold next_mode in Em. rewrite Hx in Em. rewrite (bool_decide_eq_true_2 (mode x = BLACKLIST)) in Em by done.
  rewrite orb_true_r in Em. by injection Em as <- _ _.
Qed.

Lemma adopt_kept cooldown_of k fresh now b : book_ok cfg qcfg b -> length fresh = 32%nat ->
  let b' := (adopt_checkpoint cfg cooldown_of k fresh now b).2 in blacklist_kept b b' /\ secrets_kept b b'.
Proof.
  intros Hok Hlen. cbv zeta. destruct (adopt_cases cfg cooldown_of k fresh now b) as [->|(c & Ec & Hk & Hno & Hnew & ->)]; [by apply kept_same|].
  cbn [snd]. pose proof (adopted_ok cfg qcfg k fresh c now b lag_nonneg Hlen Ec Hk Hnew Hok) as Hok1.
  destruct (revise_cooldowns_ok cfg qcfg cooldown_of _ Hok1) as (_ & _ & Hr & Hf).
  eapply kept_trans; [|apply (kept_revised _ _ Hr); apply Hf]. split; [intros key x Hx Hm; by exists x|]. intros k' s Hs. cbn.
  rewrite map_lookup_imap, lookup_insert_ne, Hs by congruence. cbn. unfold reveal.
  destruct (revealed_at s) as [t|] eqn:Er; [exists s; by rewrite Er|]. destruct (k' <? _); eexists; (split; [reflexivity|]); done.
Qed.

Lemma book_step_kept b b' : book_ok cfg qcfg b -> book_step cfg qcfg scan b b' -> blacklist_kept b b' /\ secrets_kept b b'.
Proof.
  intros Hok. destruct 1.
  - destruct (grant_ok cfg qcfg Hq scan Hscan sandbox token H buffered lane_max (proj2 Hcfg) requests now H2 shuffle b H0 H1 Hok) as (g & -> & Hg).
    cbn [snd]. destruct (gi_frame _ _ _ _ _ _ _ _ _ Hg) as (_ & E2 & E3 & _). destruct (expire_kept sandbox now b Hok) as [F1 F2].
    apply kept_same; congruence.
  - by apply kept_same; apply expire_kept.
  - unfold forfeit. destruct (leases b !! id); [|by apply kept_same]. cbv zeta. destruct (_ || _); [by apply kept_same|].
    destruct (close_unsubmitted _ _ _ _ _ _ _ _) as [s b'] eqn:E. cbn [snd]. apply (f_equal snd) in E. cbn in E. subst b'.
    pose proof (close_unsubmitted_frame cfg qcfg sandbox scan (row_lease l) now "forfeited" b) as Hf. unfold closing_frame in Hf.
    apply kept_same; naive_solver.
  - unfold mark_alive. destruct (alive_at b); [destruct (_ && _)|]; by apply kept_same; try apply note_downtime_kept.
  - unfold restart. cbv zeta. set (b0 := Book _ _ _ _ _ _ _ _ _ _ _ _ _ _). split.
    + intros key x Hx Hm. cbn. rewrite lookup_fmap.
      assert (prompts (match alive b with Some t => note_downtime t now b0 | None => b0 end) = prompts b) as ->.
      { destruct (alive b); [|done]. by rewrite (proj1 (note_downtime_kept _ _ _)). }
      rewrite Hx. cbn. eexists. split; [done|]. unfold legacy_start. by rewrite Hm.
    + intros k s Hs. exists s. split_and!; try done. cbn. destruct (alive b); [|done]. by rewrite (proj2 (note_downtime_kept _ _ _)).
  - by apply kept_same; apply submittable_kept.
  - unfold hold_submission, check_submission. pose proof (submittable_kept sandbox id hk now b Hok) as [E1 E2].
    destruct (submittable _ _ _ _ _ _ _ _) as [[] ?]; by apply kept_same.
  - by apply kept_same.
  - unfold submit. pose proof (submittable_kept sandbox id hk now b Hok) as [E1 E2].
    destruct (submittable _ _ _ _ _ _ _ _) as [[] ?]; by apply kept_same.
  - unfold credit. destruct (leases b !! id) as [r|]; [|by apply kept_same].
    destruct (state (row_lease r)), (closed_at r); by apply kept_same.
  - by apply kept_same.
  - apply outcome_kept.
  - destruct (revise_cooldowns_ok cfg qcfg cooldown_of b Hok) as (_ & _ & Hr & Hf). apply kept_revised; [done|]. unfold revise_frame in Hf. naive_solver.
  - by apply adopt_kept.
  - by apply kept_same.
  - by apply kept_same.
Qed.

Lemma book_run_kept b b' : book_ok cfg qcfg b -> rtc (book_step cfg qcfg scan) b b' -> blacklist_kept b b' /\ secrets_kept b b'.
Proof.
  intros Hok Hr. induction Hr as [b|b b1 b2 Hs _ IH]; [by apply kept_same|].
  eapply kept_trans; [by apply book_step_kept|]. apply IH. by eapply book_step_ok.
Qed.
End reachable.

(** ** Frames are read back in one way *)

Lemma framed_inv p f : framed p = Ok f -> f = to_bytes_be 4 (Z.of_nat (length p)) ++ p /\ 0 <= Z.of_nat (length p) < 2 ^ 32.
Proof. unfold framed. destruct (Z.leb_spec (2 ^ 32) (Z.of_nat (length p))); [done|]. intros <-%(inj Ok). split; [done|lia]. Qed.

Lemma frames_inj parts : forall parts' m, length parts = length parts' -> frames parts = Ok m -> frames parts' = Ok m -> parts = parts'.
Proof.
  induction parts as [|p ps IH]; intros [|p' ps'] m Hlen; try done. cbn [frames]. intros H H'.
  apply bind_ok_inv in H as (f & Hf & (fs & Hfs & <-%(inj Ok))%bind_ok_inv). apply bind_ok_inv in H' as (f' & Hf' & (fs' & Hfs' & E%(inj Ok))%bind_ok_inv).
  apply framed_inv in Hf as [-> Hr], Hf' as [-> Hr']. rewrite <- !app_assoc in E.
  apply app_inj_1 in E as [E1 E2]; [|by rewrite !length_to_bytes_be].
  apply to_bytes_be_inj in E1; [|change (256 ^ Z.of_nat 4) with (2 ^ 32); lia..].
  apply app_inj_1 in E2 as [<- <-]; [|lia]. f_equal. eapply IH; [by injection Hlen|done|done].
Qed.

Lemma u64_inj n n' bs : u64 n = Ok bs -> u64 n' = Ok bs -> n = n'.
Proof.
  intros H H'. pose proof (u64_ok _ _ H). pose proof (u64_ok _ _ H'). unfold u64 in H, H'.
  destruct (n <? 0), (n' <? 0), (2 ^ 64 <=? n), (2 ^ 64 <=? n'); try done. apply (inj Ok) in H, H'. subst.
  symmetry in H'. apply to_bytes_be_inj in H'; [done|change (256 ^ Z.of_nat 8) with (2 ^ 64); lia..].
Qed.

(** Two messages with one digest. *)
Definition sha256_collision : Prop := exists m m', m <> m' /\ sha256 m = sha256 m'.

Lemma bound_inj domain parts parts' h : length parts = length parts' -> bound domain parts = Ok h -> bound domain parts' = Ok h ->
  parts = parts' \/ sha256_collision.
Proof.
  unfold bound. intros Hlen (m & Hm & E%(inj Ok))%bind_ok_inv (m' & Hm' & E'%(inj Ok))%bind_ok_inv. subst h.
  destruct (decide (m = m')) as [->|Hne]; [left; by eapply frames_inj|right]. exists (domain ++ m), (domain ++ m').
  split; [|done]. intros H. by apply app_inv_head in H.
Qed.

(** ** Claims *)


(** C21: an interval is answered in full and within the quotas.  On every reachable
    book and well-formed requests, [grant] does not raise; each asked prompt gets
    exactly one answer; a lease given is an open row of the book for that request's
    hotkey, environment, prompt and checkpoint, and never for a banned hotkey; a refusal
    is true of the book; a lease that was not there before the interval runs from
    [now], on a prompt neither blacklisted nor cooling, under the nonce of a secret not
    yet revealed; and no hotkey ends with more open leases than the quota it had after
    the sweep, or than it held already. *)
Theorem grant_answers_all (cfg : book_config) (qcfg : quota_config) (scan : gmap string lease_row -> list (string * lease_row))
    (sandbox : lease -> option string) (token : nat -> string) (shuffle : list (nat * Z) -> list (nat * Z)) (buffered : list string)
    (lane_max : gmap string Z) (requests : list request) (now : float) (b : book) :
  good_book_config cfg -> valid_quota qcfg = true -> (forall m, scan m ≡ₚ map_to_list m) -> rtc (book_step cfg qcfg scan) empty_book b ->
  Inj (=) (=) token -> (forall l, shuffle l ≡ₚ l) -> (forall n, leases b !! token n = None) -> good_requests cfg requests ->
  let swept := expire cfg qcfg scan sandbox now b in
  exists g, let b' := g_book g in
    grant cfg qcfg scan sandbox token shuffle buffered lane_max requests now b = (Ok (imap (answer_of g) requests), b') /\
    (forall i r p, requests !! i = Some r -> p ∈ prompt_ids r ->
       match granted g !! (i, p), refused g !! (i, p) with
       | Some l, None => lease_for r p l /\ banned (req_hotkey r) now swept = false /\ exists x, leases b' !! lease_id l = Some x /\ row_lease x = l
       | None, Some w => refusal_true now b' r p w
       | _, _ => False
       end) /\
    (forall id x, leases b' !! id = Some x -> leases swept !! id = Some x \/ (leases swept !! id = None /\ fresh_lease cfg now swept (row_lease x))) /\
    (forall id x, leases swept !! id = Some x -> leases b' !! id = Some x) /\
    forall hk, in_use_of scan hk b' <= Z.max (in_use_of scan hk swept) (quota qcfg hk (Some now) (quotas swept)).
Proof.
  intros Hcfg Hq Hscan Hb Htok Hsh Hfresh Hreq swept. pose proof (book_reachable_ok cfg qcfg scan Hcfg Hq Hscan b Hb) as Hok.
  destruct (grant_ok cfg qcfg Hq scan Hscan sandbox token Htok buffered lane_max (proj2 Hcfg) requests now Hreq shuffle b Hsh Hfresh Hok) as (g & E & Hg).
  exists g. cbv zeta. split_and!; [exact E| |apply (gi_new _ _ _ _ _ _ _ _ _ Hg)|apply (gi_frame _ _ _ _ _ _ _ _ _ Hg)|].
  - intros i r p Hr Hp. pose proof (gi_answer _ _ _ _ _ _ _ _ _ Hg i r p Hr Hp) as Ha.
    destruct (granted g !! (i, p)), (refused g !! (i, p)); [done| | |by apply not_elem_of_nil in Ha]; by destruct Ha as [_ Ha].
  - intros hk. rewrite !(in_use_of_count scan Hscan). apply (gi_count _ _ _ _ _ _ _ _ _ Hg hk).
Qed.

(** The sweep is exact.  It closes, as expired or released, exactly the open leases
    whose deadline has passed and that no submission is being graded for, and touches
    nothing else: every other row, the held submissions, the prompts, the secrets and
    the bans are as they were. *)
Theorem sweep_exact (cfg : book_config) (qcfg : quota_config) (scan : gmap string lease_row -> list (string * lease_row))
    (sandbox : lease -> option string) (now : float) (b : book) :
  good_book_config cfg -> valid_quota qcfg = true -> (forall m, scan m ≡ₚ map_to_list m) -> rtc (book_step cfg qcfg scan) empty_book b ->
  let b' := (expire_due cfg qcfg scan sandbox now b).2 in
  (forall id, match leases b !! id with
     | None => leases b' !! id = None
     | Some r => if is_open r && (expires_at (row_lease r) <=? now) && bool_decide (submitting b !! id = None)
                 then exists r', leases b' !! id = Some r' /\ closes r r' /\ (state (row_lease r') = EXPIRED \/ state (row_lease r') = RELEASED)
                 else leases b' !! id = Some r
     end) /\
  submitting b' = submitting b /\ prompts b' = prompts b /\ secrets b' = secrets b /\ bans b' = bans b.
Proof.
  intros Hcfg Hq Hscan Hb b'. pose proof (book_reachable_ok cfg qcfg scan Hcfg Hq Hscan b Hb) as Hok.
  destruct (expire_ok cfg qcfg Hq scan Hscan sandbox now b Hok) as (_ & (_ & E1 & _ & _ & E2 & E3 & E4 & _) & Hrows). by split_and!.
Qed.

(** A blacklist is final and a second too-easy scan is one.  Nothing the book does
    later takes a prompt off the blacklist; and a scan recorded for a prompt puts it there
    when the prompt was already scanned too easy and is again, else leaves it cooling at
    least [cooldown] checkpoints past the latest and at least as long as before. *)
Theorem blacklist_final (cfg : book_config) (qcfg : quota_config) (scan : gmap string lease_row -> list (string * lease_row)) (b b' : book)
    (key : string * Z) (x : prompt_row) :
  good_book_config cfg -> valid_quota qcfg = true -> (forall m, scan m ≡ₚ map_to_list m) -> rtc (book_step cfg qcfg scan) empty_book b ->
  rtc (book_step cfg qcfg scan) b b' -> prompts b !! key = Some x ->
  (mode x = BLACKLIST -> exists x', prompts b' !! key = Some x' /\ mode x' = BLACKLIST) /\
  forall cooldown_of k rewards v now row b2, record_outcome cfg cooldown_of key.1 key.2 k rewards v now b = (Ok row, b2) ->
    exists y, prompts b2 !! key = Some y /\
      (mode x = BLACKLIST \/ (v = TOO_EASY /\ easy_before key.1 key.2 b = true) -> mode y = BLACKLIST) /\
      (mode x = COOLDOWN -> ~ (v = TOO_EASY /\ easy_before key.1 key.2 b = true) ->
       exists c u u0, readable_cooldown cooldown_of key.1 = Some c /\ until_k x = Some u0 /\ until_k y = Some u /\ mode y = COOLDOWN /\
         u0 <= u /\ k + c <= u /\ forall n, latest b = Some n -> n + c <= u).
Proof.
  intros Hcfg Hq Hscan Hb Hbb Hx. pose proof (book_reachable_ok cfg qcfg scan Hcfg Hq Hscan b Hb) as Hok. split.
  - intros Hm. destruct (book_run_kept cfg qcfg scan Hcfg Hq Hscan b b' Hok Hbb) as [Hk _]. by eapply Hk.
  - intros cooldown_of k rewards v now row b2 E. pose proof (record_outcome_cases cfg cooldown_of key.1 key.2 k rewards v now b) as H.
    rewrite E in H. destruct H as (c & m & until & start & _ & Hk & Hc & Em & _ & ->). destruct key as [env p]. cbn [fst snd] in *.
    eexists. cbn [prompts set_prompts]. rewrite lookup_insert_eq. split; [done|]. unfold next_mode in Em. rewrite Hx in Em. cbn [mbind option_bind] in Em. split.
    + intros Hbl. cbn. assert (bool_decide (v = TOO_EASY) && easy_before env p b || bool_decide (mode x = BLACKLIST) = true) as Et.
      { apply orb_true_iff. destruct Hbl as [Hbl|[-> ->]]; [right; by apply bool_decide_eq_true_2|left; done]. }
      rewrite Et in Em. by injection Em as <- _ _.
    + intros Hm Hno. rewrite (bool_decide_eq_false_2 (mode x = BLACKLIST)), orb_false_r in Em by (by rewrite Hm).
      destruct (bool_decide (v = TOO_EASY) && easy_before env p b) eqn:Et.
      { exfalso. apply Hno. apply andb_true_iff in Et as [->%bool_decide_eq_true Et]. done. }
      injection Em as <- <- <-. pose proof (ok_prompts cfg qcfg b Hok _ _ Hx) as [_ Hp]. rewrite Hm in Hp. destruct Hp as (u0 & s & Eu & _ & Hsu).
      exists c, (Z.max (Z.max k (default 0 (latest b)) + c) (default 0 (until_k x))), u0. rewrite Eu.
      change (default 0 (Some u0)) with u0. split_and!; try done; [lia|lia|]. intros n En. rewrite En. change (default 0 (Some n)) with n. lia.
Qed.

(** Every draw can be audited.  In every reachable book the secret of a checkpoint
    is revealed exactly when the checkpoint is more than [max_lag] behind the latest; it
    opens the commitment published at its adoption, neither ever changes, and a nonce
    binds secret, environment, prompt and checkpoint: two equal nonces come from equal
    inputs, or SHA-256 has a collision. *)
Theorem secrets_open_commitments (cfg : book_config) (qcfg : quota_config) (scan : gmap string lease_row -> list (string * lease_row))
    (b b' : book) (k : Z) (s : secret_row) :
  good_book_config cfg -> valid_quota qcfg = true -> (forall m, scan m ≡ₚ map_to_list m) -> rtc (book_step cfg qcfg scan) empty_book b ->
  rtc (book_step cfg qcfg scan) b b' -> secrets b !! k = Some s ->
  verify_reveal (commitment s) k (secret s) = Ok true /\
  (exists n, latest b = Some n /\ (revealed_at s <> None <-> k < n - max_lag cfg)) /\
  (exists s', secrets b' !! k = Some s' /\ secret s' = secret s /\ commitment s' = commitment s /\
     forall t, revealed_at s = Some t -> revealed_at s' = Some t) /\
  forall env p sec' env' p' k' n, lease_nonce (secret s) env p k = Ok n -> lease_nonce sec' env' p' k' = Ok n ->
    (sec' = secret s /\ env' = env /\ p' = p /\ k' = k) \/ sha256_collision.
Proof.
  intros Hcfg Hq Hscan Hb Hbb Hs. pose proof (book_reachable_ok cfg qcfg scan Hcfg Hq Hscan b Hb) as Hok.
  destruct (ok_secrets cfg qcfg b Hok k s Hs) as (_ & _ & Hcom & n & En & Hle & Hrev). split_and!.
  - unfold verify_reveal. rewrite Hcom. by rewrite bool_decide_eq_true_2.
  - exists n. split; [done|]. rewrite Hrev. lia.
  - destruct (book_run_kept cfg qcfg scan Hcfg Hq Hscan b b' Hok Hbb) as [_ Hk]. by apply Hk.
  - intros env p sec' env' p' k' h H H'. unfold lease_nonce in H, H'.
    apply bind_ok_inv in H as (bp & Ep & (bk & Ek & H)%bind_ok_inv). apply bind_ok_inv in H' as (bp' & Ep' & (bk' & Ek' & H')%bind_ok_inv).
    destruct (bound_inj NONCE_DOMAIN [secret s; encode env; bp; bk] [sec'; encode env'; bp'; bk'] h eq_refl H H') as [E|?]; [left|by right].
    injection E as E1 E2 E3 E4. subst. split_and!; [done|symmetry; by apply encode_inj|by eapply u64_inj|by eapply u64_inj].
Qed.

(** *** One environment, one checkpoint *)

Definition w_config : book_config := LeaseBookConfig {["math" := of_int 600]} 16 (fun _ => None) (Some 64) ∅ 48.
Definition w_qcfg : quota_config := QuotaConfig 4 1 2048 (flit 3 2) (of_int 900).
Definition w_secret : list Z := replicate 32 7.
Definition w_adopted : book := (adopt_checkpoint w_config (fun _ => Ok 3) 0 w_secret (of_int 1) empty_book).2.
Definition w_requests : list request := [LeaseRequest "alice" "math" [5; 9] 0; LeaseRequest "bob" "math" [9] 0].

(** One id per count. *)
Fixpoint w_token (n : nat) : string := match n with O => "" | S n' => String "a" (w_token n') end.

Lemma w_token_inj : Inj (=) (=) w_token.
Proof.
  intros n. induction n as [|n IH]; intros [|m] H; try discriminate H; [reflexivity|]. injection H as H. f_equal. exact (IH m H).
Qed.

Lemma w_config_good : good_book_config w_config.
Proof.
  split; [vm_compute; reflexivity|]. intros env e H. unfold w_config in H. cbn [expiry_s] in H. apply lookup_singleton_Some in H as [<- _].
  vm_compute. reflexivity.
Qed.

Lemma w_adopted_reachable : rtc (book_step w_config w_qcfg map_to_list) empty_book w_adopted.
Proof. apply rtc_once. apply step_adopt. reflexivity. Qed.

Lemma w_requests_good : good_requests w_config w_requests.
Proof.
  intros r Hr. unfold w_requests in Hr. rewrite !elem_of_cons, elem_of_nil in Hr. destruct Hr as [-> |[-> |[]]]; (split; [vm_compute; reflexivity|]);
    intros p Hp; cbn [prompt_ids] in Hp; rewrite !elem_of_cons, elem_of_nil in Hp; lia.
Qed.

Lemma w_scan : forall m : gmap string lease_row, map_to_list m ≡ₚ map_to_list m.
Proof. intros m. reflexivity. Qed.

Lemma w_no_leases : forall n, leases w_adopted !! w_token n = None.
Proof.
  intros n. assert (leases w_adopted = ∅) as -> by (vm_compute; reflexivity). apply lookup_empty.
Qed.


Lemma grant_answers_all_witness :
  exists g, grant w_config w_qcfg map_to_list (fun _ => None) w_token (fun l => l) [] ∅ w_requests (of_int 2) w_adopted
              = (Ok (imap (answer_of g) w_requests), g_book g).
Proof.
  destruct (grant_answers_all w_config w_qcfg map_to_list (fun _ => None) w_token (fun l => l) [] ∅ w_requests (of_int 2) w_adopted w_config_good)
    as (g & E & _).
  - vm_compute. reflexivity.
  - apply w_scan.
  - apply w_adopted_reachable.
  - apply w_token_inj.
  - intros l. reflexivity.
  - apply w_no_leases.
  - apply w_requests_good.
  - exists g. exact E.
Defined.

Lemma sweep_exact_witness : submitting (expire_due w_config w_qcfg map_to_list (fun _ => None) (of_int 9) w_adopted).2 = submitting w_adopted.
Proof.
  destruct (sweep_exact w_config w_qcfg map_to_list (fun _ => None) (of_int 9) w_adopted w_config_good) as (_ & E & _);
    [vm_compute; reflexivity|apply w_scan|apply w_adopted_reachable|exact E].
Defined.

Definition w_scanned : book := (record_outcome w_config (fun _ => Ok 3) "math" 5 0 [fone] TOO_EASY (of_int 2) w_adopted).2.

Lemma blacklist_final_witness :
  exists y, prompts (record_outcome w_config (fun _ => Ok 3) "math" 5 0 [fone] TOO_EASY (of_int 3) w_scanned).2 !! ("math", 5)%string = Some y /\
    mode y = BLACKLIST.
Proof.
  assert (exists x, prompts w_scanned !! ("math", 5)%string = Some x) as [x Hx] by (eexists; vm_compute; reflexivity).
  destruct (blacklist_final w_config w_qcfg map_to_list w_scanned w_scanned ("math", 5)%string x w_config_good) as [_ H].
  - vm_compute. reflexivity.
  - apply w_scan.
  - eapply rtc_r; [apply w_adopted_reachable|]. apply step_outcome.
  - reflexivity.
  - exact Hx.
  - destruct (record_outcome w_config (fun _ => Ok 3) "math" 5 0 [fone] TOO_EASY (of_int 3) w_scanned) as [[row|e] b2] eqn:E.
    + destruct (H (fun _ => Ok 3) 0 [fone] TOO_EASY (of_int 3) row b2 E) as (y & Hy & Hb & _). exists y. split; [exact Hy|]. apply Hb. right.
      split; [reflexivity|vm_compute; reflexivity].
    + exfalso. apply (f_equal fst) in E. vm_compute in E. discriminate E.
Defined.

Lemma secrets_open_commitments_witness : exists s, secrets w_adopted !! 0 = Some s /\ verify_reveal (commitment s) 0 (secret s) = Ok true.
Proof.
  assert (bool_decide (is_Some (secrets w_adopted !! 0)) = true) as [s Hs]%bool_decide_eq_true by (vm_compute; reflexivity). exists s. split; [exact Hs|].
  apply (secrets_open_commitments w_config w_qcfg map_to_list w_adopted w_adopted 0 s w_config_good);
    [vm_compute; reflexivity|apply w_scan|apply w_adopted_reachable|reflexivity|exact Hs].
Defined.
