(* ===== verification/RlSubmit.v ===== *)
(** * RlSubmit: the submission path of the asynchronous RL loop

    Models [RlSubmissions] of [reliquary/validator/rl_submit.py]: a lease's group is
    graded and recorded in one transaction with the lease book and the training buffer,
    drawn for audit or not, and judged later by an audit or by the trainer; what may be
    paid is appended to the event log the payment ledger reads.

    The tables are maps from their primary keys ([rl_groups] and [rl_audits] by lease) or
    lists in the order of their AUTOINCREMENT [seq] ([rl_verdicts], [rl_events]).  A
    transaction that raises restores every table and leaves the memory of the book and
    of the buffer.  The grader (rendering, termination, scoring in process pools), the
    proof forward, the audit draw and the clock are parameters.  [rl_group_instances] is
    telemetry and is not modelled. *)

From S2P Require Import Prelude PyFloat Bytes RlLedger RlQuota RlBuffer RlLeases.

#[local] Open Scope Z_scope.

(** ** Data *)

Record rollout := Rollout { tokens : list Z; force_span : option (Z * Z); model_spans : option (list (Z * Z)) }.

Record graded := Graded {
  g_prompt_tokens : list Z;
  g_rewards : list float;
  g_truncated : list bool;
  g_reject : option string;
  g_spans : option (list (list (Z * Z)));
}.

(** The proof forward's verdict: [passed = None] is inconclusive. *)
Record audit_result := AuditResult { passed : option bool; failure_class : option string; suspect : bool }.

Record submit_config := SubmitConfig {
  audit_rate : float;
  probation_repeat_audit_rate : float;
  probation_groups : Z;
  reprobation_passes : Z;
  first_scan_fraction : float;
  first_scan_min_tokens : Z;
  rollouts_per_group : Z;
  audit_max_lag : Z;
}.

(** [__post_init__] *)
Definition valid_submit (c : submit_config) : bool :=
  (0 <=? audit_rate c) && (audit_rate c <=? fone) && (0 <=? first_scan_fraction c) && (first_scan_fraction c <=? fone)
  && (0 <=? probation_repeat_audit_rate c) && (probation_repeat_audit_rate c <=? fone)
  && (0 <=? Z.min (Z.min (probation_groups c) (reprobation_passes c)) (Z.min (first_scan_min_tokens c) (audit_max_lag c)))
  && (2 <=? rollouts_per_group c).

Inductive group_verdict := rejected_group | graded_group (v : verdict).
#[export] Instance group_verdict_eq_dec : EqDecision group_verdict.
Proof. solve_decision. Defined.

Inductive audit_state := NOT_DRAWN | PENDING | PASSED | FAILED | INCONCLUSIVE.
#[export] Instance audit_state_eq_dec : EqDecision audit_state.
Proof. solve_decision. Defined.

Inductive training_state := training_queued | training_accepted | training_rejected.
#[export] Instance training_state_eq_dec : EqDecision training_state.
Proof. solve_decision. Defined.

(** A row of [rl_groups]. *)
Record group_row := GroupRow {
  gr_hotkey : string;
  gr_env : string;
  gr_prompt : Z;
  gr_k : Z;
  gr_nonce : string;
  gr_issued_at : float;
  gr_arrived_at : float;
  gr_verdict : group_verdict;
  gr_reason : option string;
  gr_rewards : option (list float);
  gr_truncated : option (list bool);
  gr_tokens : Z;
  gr_first_scan : bool;
  gr_scan_seq : option Z;
  gr_audit : option audit_state;
  gr_training : option training_state;
}.

(** A row of [rl_audits]; the body is dropped when the audit is concluded. *)
Record audit_row := AuditRow {
  au_hotkey : string;
  au_forced : bool;
  queued_at : float;
  au_body : option RlBuffer.group;
  au_attempts : Z;
  au_lag : option Z;
}.

Inductive source := from_audit | from_training.
#[export] Instance source_eq_dec : EqDecision source.
Proof. solve_decision. Defined.

Record verdict_row := VerdictRow {
  vr_lease : string;
  vr_hotkey : string;
  vr_source : source;
  vr_verdict : audit_state;
  vr_class : option string;
  vr_forced : bool;
  vr_at : float;
}.

(** What a report on a buffered group carries. *)
Record training_detail := TrainingDetail {
  rollout_match : list float;
  completion_tokens : list Z;
  td_checkpoint : Z;
  td_environment : string;
  judged : option bool;
  matched_tokens : option (list Z);
  reward_moved : bool;
}.

(** The detail of an event, by kind. *)
Inductive event_detail :=
  | ev_first_scan (fraction : float) (audited : bool)
  | ev_first_scan_forfeited (audit : audit_state) (tokens : Z)
  | ev_trained (d : training_detail)
  | ev_untrained (d : training_detail) (failure : option string)
  | ev_ban (until : float).

Record event_row := EventRow { er_lease : string; er_hotkey : string; er_at : float; er_detail : event_detail }.

Record submissions := Submissions {
  s_book : book;
  s_buffer : buffer;
  groups : gmap string group_row;
  audits : gmap string audit_row;
  verdicts : list verdict_row;
  events : list event_row;
}.
Definition empty_submissions : submissions := Submissions empty_book empty_buffer ∅ ∅ [] [].

Definition set_book b s := Submissions b (s_buffer s) (groups s) (audits s) (verdicts s) (events s).
Definition set_buffer b s := Submissions (s_book s) b (groups s) (audits s) (verdicts s) (events s).
Definition set_groups m s := Submissions (s_book s) (s_buffer s) m (audits s) (verdicts s) (events s).
Definition set_audits m s := Submissions (s_book s) (s_buffer s) (groups s) m (verdicts s) (events s).
Definition add_verdict v s := Submissions (s_book s) (s_buffer s) (groups s) (audits s) (verdicts s ++ [v]) (events s).
Definition add_event e s := Submissions (s_book s) (s_buffer s) (groups s) (audits s) (verdicts s) (events s ++ [e]).

(** What a transaction that raised leaves. *)
Definition undo (before after : submissions) : submissions :=
  Submissions (rollback (s_book before) (s_book after))
    (Buffer (RlBuffer.rows (s_buffer before)) (arrived_tokens (s_buffer after)) (taken_tokens (s_buffer after)) (starved_s (s_buffer after))
       (waiting_since (s_buffer after)))
    (groups before) (audits before) (verdicts before) (events before).

Definition transaction {A} (m : method submissions A) : method submissions A := fun s =>
  match m s with (Ok a, s') => (Ok a, s') | (Raise e, s') => (Raise e, undo s s') end.

Definition bind_m {A B} (m : method submissions A) (f : A -> method submissions B) : method submissions B := fun s =>
  match m s with (Ok a, s') => f a s' | (Raise e, s') => (Raise e, s') end.
Definition on_book {A} (m : method book A) : method submissions A := fun s => let '(r, b) := m (s_book s) in (r, set_book b s).
Definition on_buffer {A} (m : method buffer A) : method submissions A := fun s => let '(r, b) := m (s_buffer s) in (r, set_buffer b s).
Definition modify (f : submissions -> submissions) : method submissions unit := fun s => (Ok tt, f s).
Definition fail {A} (e : exn) : method submissions A := fun s => (Raise e, s).
Definition pure {A} (a : A) : method submissions A := fun s => (Ok a, s).

(** [SubmittedGroup.model_tokens]: the length of [rl_draw.model_positions]. *)
Definition model_tokens (completion : list Z) (spans : option (list (Z * Z))) : Z :=
  match spans with
  | None => Z.of_nat (length completion)
  | Some l => Zsum ((fun p => Z.max 0 (p.2 - p.1)) <$> l)
  end.
Definition rollout_model_tokens (g : RlBuffer.group) (i : nat) : result Z :=
  match completions g !! i, RlBuffer.spans g with
  | Some c, None => Ok (model_tokens c None)
  | Some c, Some sp => match sp !! i with Some s => Ok (model_tokens c (Some s)) | None => Raise IndexError end
  | None, _ => Raise IndexError
  end.
Definition group_model_tokens (g : RlBuffer.group) : result (list Z) := mapM (rollout_model_tokens g) (List.seq 0 (length (completions g))).

Section submissions.
Context (cfg : book_config) (qcfg : quota_config) (scan : gmap string lease_row -> list (string * lease_row)).
Context (sandbox : lease -> option string) (cooldown_of : string -> result Z) (scfg : submit_config).

(** ** The audit regime *)

Definition passes (hk : string) (vs : list verdict_row) : Z :=
  Z.of_nat (length (filter (fun v => vr_hotkey v = hk /\ vr_source v = from_audit /\ vr_verdict v = PASSED) vs)).

(** The verdicts after the hotkey's last failure, when it has one. *)
Definition is_failure (hk : string) (v : verdict_row) : bool :=
  bool_decide (vr_hotkey v = hk) && bool_decide (vr_verdict v = FAILED \/ vr_verdict v = INCONCLUSIVE).
Fixpoint since_failure (hk : string) (vs : list verdict_row) : option (list verdict_row) :=
  match vs with
  | [] => None
  | v :: vs' => match since_failure hk vs' with
                | Some rest => Some rest
                | None => if is_failure hk v then Some vs' else None
                end
  end.

Definition in_probation (hk : string) (s : submissions) : bool :=
  if passes hk (verdicts s) <? probation_groups scfg then true
  else match since_failure hk (verdicts s) with
       | Some rest => passes hk rest <? reprobation_passes scfg
       | None => false
       end.

Definition failure_classes : list string := ["deterministic"; "statistical"]%string.

(** [_verdict] *)
Definition log_verdict (id hk : string) (src : source) (ok : bool) (cls : option string) (forced : bool) (now : float)
    : method submissions unit :=
  if negb ok && negb (match cls with Some c => bool_decide (c ∈ failure_classes) | None => false end) then fail ValueError
  else modify (add_verdict (VerdictRow id hk src (if ok then PASSED else FAILED) (if ok then None else cls) forced now)).

(** [_first_scan] *)
Definition note_first_scan (id hk : string) (at' : float) (audit : audit_state) (tokens : Z) : method submissions unit :=
  if bool_decide (audit = NOT_DRAWN \/ audit = PASSED) && (first_scan_min_tokens scfg <=? tokens) then
    bind_m (modify (add_event (EventRow id hk at' (ev_first_scan (first_scan_fraction scfg) (bool_decide (audit = PASSED))))))
      (fun _ => on_book (fun b => (Ok tt, credit qcfg id at' b)))
  else modify (add_event (EventRow id hk at' (ev_first_scan_forfeited audit tokens))).

(** ** Submission *)

Record answer := Answer { ans_verdict : group_verdict; ans_rewards : list float; ans_reason : option string; resent : bool }.

(** [if reason: answer["reason"] = reason] *)
Definition truthy (o : option string) : option string := match o with Some r => if String.eqb r "" then None else o | None => None end.

Definition graded_answer (id hk : string) (s : submissions) : result (option answer) :=
  match groups s !! id with
  | None => Ok None
  | Some r => if String.eqb (gr_hotkey r) hk then Ok (Some (Answer (gr_verdict r) (default [] (gr_rewards r)) (truthy (gr_reason r)) true))
              else Raise PermissionError
  end.

(** [GRADER_FAULTS] *)
Definition grader_fault (reject : option string) : bool := match reject with Some r => String.eqb r "reward_error" | None => false end.

(** The verdict on a graded group; truncated rollouts are failures, never too many. *)
Definition verdict_of (g : graded) : result group_verdict :=
  match truthy (g_reject g) with
  | Some _ => Ok rejected_group
  | None => graded_group <$> classify_group (g_rewards g) (g_truncated g) (Z.of_nat (length (g_rewards g))) SIGMA_MIN_V4
  end.

Definition group_of (lid hk : string) (l : lease) (g : graded) (rs : list rollout) (arrived_at : float) : RlBuffer.group :=
  RlBuffer.Group lid hk (environment l) (prompt_idx l) (checkpoint l) (nonce l) arrived_at (g_rewards g) (g_truncated g)
    (g_prompt_tokens g) (tokens <$> rs) (force_span <$> rs) (g_spans g).

(** [INSERT INTO rl_audits] and [INSERT INTO rl_groups]. *)
Definition insert_audit (id : string) (r : audit_row) : method submissions unit := fun s =>
  match audits s !! id with Some _ => (Raise IntegrityError, s) | None => (Ok tt, set_audits (<[id := r]> (audits s)) s) end.
Definition insert_group (id : string) (r : group_row) : method submissions unit := fun s =>
  match groups s !! id with Some _ => (Raise IntegrityError, s) | None => (Ok tt, set_groups (<[id := r]> (groups s)) s) end.

(** Where a graded group goes: the buffer, the audit queue or the event log. *)
Definition route (lid hk : string) (v : verdict) (row : scan_row) (g : RlBuffer.group) (tokens : Z) (draw : float)
    : method submissions (option audit_state * option training_state) := fun s =>
  if bool_decide (v = IN_ZONE) then bind_m (on_buffer (push g)) (fun _ => pure (None, Some training_queued)) s
  else
    let forced := in_probation hk s in
    let rate := if forced then (if first_scan row then fone else probation_repeat_audit_rate scfg) else audit_rate scfg in
    if (fone <=? rate) || (draw <? rate) then
      bind_m (insert_audit lid (AuditRow hk forced (RlBuffer.arrived_at g) (Some g) 0 None))
        (fun _ => pure (Some PENDING, None)) s
    else bind_m (if first_scan row then note_first_scan lid hk (RlBuffer.arrived_at g) NOT_DRAWN tokens else pure tt)
           (fun _ => pure (Some NOT_DRAWN, None)) s.

(** The row of a group that was scanned ([Some]: whether it is its prompt's first scan,
    and its number) or not. *)
Definition row_of (hk : string) (l : lease) (gd : graded) (v : group_verdict) (arrived_at : float) (total : Z) (scanned : option (bool * Z))
    (audit : option audit_state) (training : option training_state) : group_row :=
  GroupRow hk (environment l) (prompt_idx l) (checkpoint l) (nonce l) (issued_at l) arrived_at v (g_reject gd)
    ((fun _ => g_rewards gd) <$> scanned) ((fun _ => g_truncated gd) <$> scanned) total (match scanned with Some (first, _) => first | None => false end)
    (snd <$> scanned) audit training.

(** The body of the transaction. *)
Definition record_group (lid hk : string) (l : lease) (gd : graded) (v : group_verdict) (rs : list rollout) (total : Z) (arrived_at draw : float)
    : method submissions unit :=
  let g := group_of lid hk l gd rs arrived_at in
  let row := row_of hk l gd v arrived_at total in
  let in_zone := bool_decide (v = graded_group IN_ZONE) in
  bind_m (on_book (submit cfg qcfg scan sandbox lid hk in_zone (bool_decide (v <> rejected_group) || grader_fault (g_reject gd)) arrived_at))
    (fun _ => match v with
     | rejected_group => insert_group lid (row None None None)
     | graded_group w =>
         bind_m (on_book (record_outcome cfg cooldown_of (environment l) (prompt_idx l) (checkpoint l) (g_rewards gd) w arrived_at))
           (fun sc => bind_m (route lid hk w sc g total draw) (fun at' => fun s =>
              insert_group lid (row (Some (first_scan sc, scan_seq (s_book s))) at'.1 at'.2) s))
     end).

(** [_submit] after the grading, and the whole method. *)
Definition record_submission_of (lid hk : string) (l : lease) (gd : graded) (rs : list rollout) (arrived_at draw : float) : method submissions answer := fun s =>
  match verdict_of gd, group_model_tokens (group_of lid hk l gd rs arrived_at) with
  | Raise e, _ => (Raise e, s)
  | Ok _, Raise e => (Raise e, s)
  | Ok v, Ok ns =>
      bind_m (transaction (record_group lid hk l gd v rs (Zsum ns) arrived_at draw)) (fun _ => pure (Answer v (g_rewards gd) (truthy (g_reject gd)) false)) s
  end.

Context (grade : lease -> list rollout -> float -> result graded).

Definition submit_graded (id hk : string) (rs : list rollout) (arrived_at draw : float) : method submissions answer :=
  bind_m (on_book (check_submission cfg qcfg scan sandbox id hk arrived_at))
    (fun l => match grade l rs arrived_at with Raise e => fail e | Ok gd => record_submission_of id hk l gd rs arrived_at draw end).

(** [except LookupError]: [KeyError] and [IndexError] are subclasses. *)
Definition is_lookup_error (e : exn) : bool := match e with LookupError | KeyError | IndexError => true | _ => false end.

Definition submit_group (id hk : string) (rs : list rollout) (arrived_at draw : float) : method submissions answer := fun s =>
  if negb (Z.of_nat (length rs) =? rollouts_per_group scfg) || existsb (fun r => bool_decide (tokens r = [])) rs then (Raise ValueError, s)
  else match graded_answer id hk s with
  | Raise e => (Raise e, s)
  | Ok (Some a) => (Ok a, s)
  | Ok None =>
      match submit_graded id hk rs arrived_at draw s with
      | (Raise e, s') => if is_lookup_error e then match graded_answer id hk s' with
                                                   | Ok (Some a) => (Ok a, s')
                                                   | Ok None => (Raise e, s')
                                                   | Raise e' => (Raise e', s')
                                                   end
                         else (Raise e, s')
      | ok => ok
      end
  end.

Definition hold_group (id hk : string) (arrived_at : float) : method submissions bool := fun s =>
  match graded_answer id hk s with
  | Raise e => (Raise e, s)
  | Ok (Some _) => (Ok false, s)
  | Ok None => bind_m (on_book (hold_submission cfg qcfg scan sandbox id hk arrived_at)) (fun _ => pure true) s
  end.

Definition release_group (id : string) (s : submissions) : submissions := set_book (release_submission id (s_book s)) s.

(** ** Events and bans *)

Definition event_seq (i : nat) : Z := Z.of_nat i + 1.

(** [blacklist] *)
Definition blacklist (hk : string) (until now : float) (s : submissions) : submissions :=
  add_event (EventRow "" hk now (ev_ban until)) (set_book (ban hk until (s_book s)) s).

(** ** Audits *)

Definition set_audit_state (a : audit_state) (r : group_row) : group_row :=
  GroupRow (gr_hotkey r) (gr_env r) (gr_prompt r) (gr_k r) (gr_nonce r) (gr_issued_at r) (gr_arrived_at r) (gr_verdict r) (gr_reason r)
    (gr_rewards r) (gr_truncated r) (gr_tokens r) (gr_first_scan r) (gr_scan_seq r) (Some a) (gr_training r).
Definition set_training_state (t : training_state) (r : group_row) : group_row :=
  GroupRow (gr_hotkey r) (gr_env r) (gr_prompt r) (gr_k r) (gr_nonce r) (gr_issued_at r) (gr_arrived_at r) (gr_verdict r) (gr_reason r)
    (gr_rewards r) (gr_truncated r) (gr_tokens r) (gr_first_scan r) (gr_scan_seq r) (gr_audit r) (Some t).
Definition conclude (lag : Z) (a : audit_row) : audit_row := AuditRow (au_hotkey a) (au_forced a) (queued_at a) None (au_attempts a) (Some lag).

Definition conclude_audit (id : string) (res : audit_result) (now : float) : method submissions unit := fun s =>
  match audits s !! id, groups s !! id with
  | Some a, Some g =>
      match au_body a with
      | None => (Raise LookupError, s)
      | Some _ =>
          let lag := default 0 (latest (s_book s)) - gr_k g in
          let st := match passed res with None => INCONCLUSIVE | Some true => PASSED | Some false => FAILED end in
          bind_m (match passed res with
                  | Some ok => log_verdict id (au_hotkey a) from_audit ok (failure_class res) (au_forced a) now
                  | None => if suspect res then modify (add_verdict (VerdictRow id (au_hotkey a) from_audit INCONCLUSIVE None (au_forced a) now))
                            else pure tt
                  end)
            (fun _ => bind_m (modify (fun s => set_groups (alter (set_audit_state st) id (groups s)) (set_audits (alter (conclude lag) id (audits s)) s)))
               (fun _ => if gr_first_scan g then note_first_scan id (au_hotkey a) now st (gr_tokens g) else pure tt)) s
      end
  | _, _ => (Raise LookupError, s)
  end.

Definition report_audit (id : string) (res : audit_result) (now : float) : method submissions unit := transaction (conclude_audit id res now).

(** [ORDER BY a.forced, COALESCE(g.first_scan, 0) DESC, a.queued_at DESC]; ties in the
    database's order, [scan_audits]. *)
Context (scan_audits : gmap string audit_row -> list (string * audit_row)).

Definition first_scan_of (s : submissions) (id : string) : bool := match groups s !! id with Some g => gr_first_scan g | None => false end.
Definition audit_leb (s : submissions) (x y : string * audit_row) : bool :=
  let key r := (au_forced r.2, negb (first_scan_of s r.1), - queued_at r.2) in
  let '(f, n, q) := key x in
  let '(f', n', q') := key y in
  (Z.b2z f <? Z.b2z f') || ((Z.b2z f =? Z.b2z f') && ((Z.b2z n <? Z.b2z n') || ((Z.b2z n =? Z.b2z n') && (q <=? q')))).

Definition audit_jobs (limit : Z) (s : submissions) : list RlBuffer.group :=
  sql_limit limit (omap (fun r => au_body r.2) (isort (audit_leb s) (filter (fun r => is_Some (au_body r.2)) (scan_audits (audits s))))).

Definition stale_audits (s : submissions) : list string :=
  match latest (s_book s) with
  | None => []
  | Some n => fst <$> filter (fun r => is_Some (au_body r.2) /\
                match groups s !! r.1 with Some g => gr_k g <? n - audit_max_lag scfg | None => false end = true) (scan_audits (audits s))
  end.

(** The loop of [drop_stale_audits]; the first report that raises ends it. *)
Fixpoint report_all (ids : list string) (res : audit_result) (now : float) : method submissions unit :=
  match ids with
  | [] => pure tt
  | id :: ids' => bind_m (report_audit id res now) (fun _ => report_all ids' res now)
  end.

Definition drop_stale_audits (now : float) : method submissions Z := fun s =>
  let stale := stale_audits s in
  bind_m (report_all stale (AuditResult None None false) now) (fun _ => pure (Z.of_nat (length stale))) s.

Definition take_audits (limit : Z) (now : float) : method submissions (list RlBuffer.group) :=
  bind_m (drop_stale_audits now) (fun _ => fun s => (Ok (audit_jobs limit s), s)).

Definition AUDIT_MAX_ATTEMPTS : Z := 3.

Definition bump_attempts (a : audit_row) : audit_row :=
  AuditRow (au_hotkey a) (au_forced a) (queued_at a) (au_body a) (au_attempts a + 1) (au_lag a).

(** [run_audits]: a forward that raises ([None]) leaves its audit queued until it has
    failed [max_attempts] times. *)
Context (forward : RlBuffer.group -> option audit_result).

Fixpoint run_jobs (jobs : list RlBuffer.group) (max_attempts done : Z) (now : float) : method submissions Z := fun s =>
  match jobs with
  | [] => (Ok done, s)
  | g :: jobs' =>
      let id := RlBuffer.lease_id g in
      match forward g with
      | Some res => bind_m (report_audit id res now) (fun _ => run_jobs jobs' max_attempts (done + 1) now) s
      | None =>
          let s1 := set_audits (alter bump_attempts id (audits s)) s in
          match audits s1 !! id with
          | None => (Raise TypeError, s)
          | Some a => if au_attempts a <? max_attempts then run_jobs jobs' max_attempts done now s1
                      else bind_m (report_audit id (AuditResult None None true) now) (fun _ => run_jobs jobs' max_attempts (done + 1) now) s1
          end
      end
  end.

Definition run_audits (limit max_attempts : Z) (now : float) : method submissions Z :=
  bind_m (drop_stale_audits now) (fun _ => fun s => run_jobs (audit_jobs limit s) max_attempts 0 now s).

(** ** The trainer's report *)

(** Grading a changed rollout again, by environment and prompt; the EOS token ids. *)
Context (regrade : string -> Z -> list rollout -> result graded) (stops : list Z).

Definition pair_leb (x y : Z * Z) : bool := (x.1 <? y.1) || ((x.1 =? y.1) && (x.2 <=? y.2)).

(** The picks put in place of the first token of each run of suspects. *)
Fixpoint substitute (pairs : list (Z * Z)) (previous : option Z) (toks : list Z) : list Z :=
  match pairs with
  | [] => toks
  | (pos, pick) :: rest =>
      if negb (bool_decide (previous = Some (pos - 1))) && (0 <=? pos) && (pos <? Z.of_nat (length toks)) then
        let toks := <[Z.to_nat pos := pick]> toks in
        if bool_decide (pick ∈ stops) then take (Z.to_nat (pos + 1)) toks else substitute rest (Some pos) toks
      else substitute rest (Some pos) toks
  end.

(** The rollouts to grade again, each with its index. *)
Fixpoint changed_rollouts (g : RlBuffer.group) (i : nat) (subs : list (list (Z * Z))) : result (list (nat * rollout)) :=
  match subs with
  | [] => Ok []
  | pairs :: subs' =>
      rest ← changed_rollouts g (S i) subs';
      if bool_decide (pairs = []) || bool_decide (RlBuffer.spans g <> None) then Ok rest
      else match completions g !! i, force_spans g !! i with
      | Some c, Some f => Ok ((i, Rollout (substitute (isort pair_leb pairs) None c) f None) :: rest)
      | _, _ => Raise IndexError
      end
  end.

(** [1e-9] *)
Definition REWARD_TOLERANCE : float := flit 1 1000000000.

Definition rewards_hold (g : RlBuffer.group) (subs : list (list (Z * Z))) : result bool :=
  changed ← changed_rollouts g 0 subs;
  if bool_decide (changed = []) then Ok true
  else
    gd ← regrade (RlBuffer.environment g) (RlBuffer.prompt_idx g) (snd <$> changed);
    if bool_decide (is_Some (truthy (g_reject gd))) then Ok false
    else fold_result (fun acc x => match g_rewards gd !! fst x, RlBuffer.rewards g !! fst (snd x) with
                                   | Some a, Some b => Ok (acc && (Z.abs (fsub a b) <? REWARD_TOLERANCE))
                                   | _, _ => if acc then Raise IndexError else Ok false
                                   end) true (imap pair changed).

Definition judge_training (id : string) (rollout_match : list float) (accepted : bool) (cls : option string) (matched : option (list Z))
    (judged : option bool) (moved : bool) (now : float) : method submissions unit := fun s =>
  match get id (s_buffer s) with
  | None => (Raise LookupError, s)
  | Some g =>
      let s1 := set_buffer (remove id (s_buffer s)).2 s in
      if negb (length rollout_match =? length (completions g))%nat || negb (forallb (fun m => (0 <=? m) && (m <=? fone)) rollout_match)
      then (Raise ValueError, s1)
      else match group_model_tokens g with
      | Raise e => (Raise e, s1)
      | Ok model =>
          if match matched with
             | Some ns => negb (length ns =? length rollout_match)%nat || negb (forallb (fun nm => (0 <=? nm.1) && (nm.1 <=? nm.2)) (zip ns model))
             | None => false
             end then (Raise ValueError, s1)
          else
            let s2 := set_groups (alter (set_training_state (if accepted then training_accepted else training_rejected)) id (groups s1)) s1 in
            let detail := TrainingDetail rollout_match model (RlBuffer.checkpoint g) (RlBuffer.environment g) judged matched moved in
            if accepted then
              bind_m (modify (add_event (EventRow id (RlBuffer.hotkey g) now (ev_trained detail))))
                (fun _ => bind_m (on_book (fun b => (Ok tt, credit qcfg id now b)))
                   (fun _ => log_verdict id (RlBuffer.hotkey g) from_training true None false now)) s2
            else
              bind_m (modify (add_event (EventRow id (RlBuffer.hotkey g) now (ev_untrained detail cls))))
                (fun _ => match cls with
                 | Some _ => log_verdict id (RlBuffer.hotkey g) from_training false cls false now
                 | None => pure tt
                 end) s2
      end
  end.

Definition report_training (id : string) (rollout_match : list float) (accepted : bool) (cls : option string) (matched : option (list Z))
    (subs : list (list (Z * Z))) (judged : option bool) (now : float) : method submissions unit := fun s =>
  let check :=
    if accepted && negb (bool_decide (subs = [])) then
      match get id (s_buffer s) with
      | None => Ok false
      | Some g => if negb (length subs =? length (completions g))%nat then Raise ValueError else negb <$> rewards_hold g subs
      end
    else Ok false in
  match check with
  | Raise e => (Raise e, s)
  | Ok moved => transaction (judge_training id rollout_match (accepted && negb moved) cls matched judged moved now) s
  end.
End submissions.

(** ** The life of a group

    What the tables say of one lease: its row in [rl_groups], its audit's hotkey and
    body, its buffered group and the events about it (a ban is about a hotkey). *)
Record view := View {
  v_group : option group_row;
  v_audit : option (string * option RlBuffer.group);
  v_buffered : option RlBuffer.group;
  v_events : list event_row;
}.

Definition about (id : string) (e : event_row) : bool := String.eqb (er_lease e) id && match er_detail e with ev_ban _ => false | _ => true end.
Definition events_of (id : string) (s : submissions) : list event_row := filter (fun e => about id e = true) (events s).

Definition view_of (s : submissions) (id : string) : view :=
  View (groups s !! id) ((fun a => (au_hotkey a, au_body a)) <$> audits s !! id) (get id (s_buffer s)) (events_of id s).

(** The group a row was recorded for. *)
Definition group_matches (id : string) (r : group_row) (g : RlBuffer.group) : Prop :=
  RlBuffer.lease_id g = id /\ RlBuffer.hotkey g = gr_hotkey r /\ RlBuffer.environment g = gr_env r /\
  RlBuffer.prompt_idx g = gr_prompt r /\ RlBuffer.checkpoint g = gr_k r.

(** The one event of a concluded first scan, by the state of its audit. *)
Definition scan_detail (c : submit_config) (audit : audit_state) (tokens : Z) : event_detail :=
  if bool_decide (audit = NOT_DRAWN \/ audit = PASSED) && (first_scan_min_tokens c <=? tokens)
  then ev_first_scan (first_scan_fraction c) (bool_decide (audit = PASSED)) else ev_first_scan_forfeited audit tokens.

Definition scan_concluded (c : submit_config) (id : string) (r : group_row) (audit : audit_state) (es : list event_row) : Prop :=
  if gr_first_scan r then exists t, es = [EventRow id (gr_hotkey r) t (scan_detail c audit (gr_tokens r))] else es = [].

(** The report a trained or untrained event carries. *)
Definition report_ok (r : group_row) (d : training_detail) : Prop :=
  td_environment d = gr_env r /\ td_checkpoint d = gr_k r /\ Forall (fun m => 0 <= m <= fone) (rollout_match d) /\
  Forall (Z.le 0) (completion_tokens d) /\ length (completion_tokens d) = length (rollout_match d) /\
  match matched_tokens d with Some ns => Forall2 (fun n m => 0 <= n <= m) ns (completion_tokens d) | None => True end.

(** The states of an in-zone group and of a group out of zone. *)
Definition training_life (id : string) (r : group_row) (v : view) : Prop :=
  match gr_training r with
  | Some training_queued => v_events v = [] /\ exists g, v_buffered v = Some g /\ group_matches id r g
  | Some training_accepted => v_buffered v = None /\ exists t d, v_events v = [EventRow id (gr_hotkey r) t (ev_trained d)] /\ report_ok r d
  | Some training_rejected => v_buffered v = None /\ exists t d c, v_events v = [EventRow id (gr_hotkey r) t (ev_untrained d c)] /\ report_ok r d
  | None => False
  end.

Definition audit_life (c : submit_config) (id : string) (r : group_row) (v : view) : Prop :=
  match gr_audit r with
  | Some NOT_DRAWN => v_audit v = None /\ scan_concluded c id r NOT_DRAWN (v_events v)
  | Some PENDING => v_events v = [] /\ exists g, v_audit v = Some (gr_hotkey r, Some g) /\ group_matches id r g
  | Some st => v_audit v = Some (gr_hotkey r, None) /\ scan_concluded c id r st (v_events v)
  | None => False
  end.

Definition life (c : submit_config) (id : string) (v : view) : Prop :=
  match v_group v with
  | None => v_events v = [] /\ v_audit v = None /\ v_buffered v = None
  | Some r =>
      match gr_verdict r with
      | rejected_group => gr_audit r = None /\ gr_training r = None /\ v_events v = [] /\ v_audit v = None /\ v_buffered v = None
      | graded_group IN_ZONE => gr_audit r = None /\ v_audit v = None /\ training_life id r v
      | graded_group _ => gr_training r = None /\ v_buffered v = None /\ audit_life c id r v
      end
  end.

(** *** What each operation changes *)

Definition same_views (s s' : submissions) : Prop := forall id, view_of s' id = view_of s id.

Lemma undo_views s s' : same_views s (undo s s').
Proof. intros id. unfold view_of, get. done. Qed.

Lemma transaction_views {A} (m : method submissions A) s e s' : transaction m s = (Raise e, s') -> same_views s s'.
Proof. unfold transaction. destruct (m s) as [[a|e'] t]; [done|]. intros [= _ <-]. apply undo_views. Qed.

Lemma transaction_ok {A} (m : method submissions A) s a s' : transaction m s = (Ok a, s') -> m s = (Ok a, s').
Proof. unfold transaction. by destruct (m s) as [[a'|e'] t]. Qed.

Lemma bind_m_ok {A B} (m : method submissions A) (f : A -> method submissions B) s b s' :
  bind_m m f s = (Ok b, s') -> exists a t, m s = (Ok a, t) /\ f a t = (Ok b, s').
Proof. unfold bind_m. destruct (m s) as [[a|e] t]; [|done]. by exists a, t. Qed.

Lemma on_book_ok {A} (m : method book A) s a s' : on_book m s = (Ok a, s') -> exists b, s' = set_book b s.
Proof. unfold on_book. destruct (m (s_book s)) as [r b]. intros [= _ <-]. by exists b. Qed.

Lemma log_verdict_ok id hk src ok cls forced now s s' :
  log_verdict id hk src ok cls forced now s = (Ok tt, s') -> exists v, s' = add_verdict v s.
Proof. unfold log_verdict. destruct (_ && _); [done|]. intros [= <-]. eauto. Qed.

Lemma note_first_scan_ok scfg qcfg id hk t st tokens s :
  exists b, note_first_scan qcfg scfg id hk t st tokens s = (Ok tt, add_event (EventRow id hk t (scan_detail scfg st tokens)) (set_book b s)).
Proof.
  unfold note_first_scan, scan_detail. destruct (_ && _); [by eexists|]. exists (s_book s). by destruct s.
Qed.

Lemma events_of_add id e s : events_of id (add_event e s) = events_of id s ++ (if about id e then [e] else []).
Proof. unfold events_of. cbn [add_event events]. rewrite filter_app. f_equal. rewrite filter_cons, filter_nil. by destruct (about id e). Qed.

Lemma about_same id hk t d : (forall u, d <> ev_ban u) -> about id (EventRow id hk t d) = true.
Proof. intros Hd. unfold about. cbn. rewrite String.eqb_refl. destruct d; try done. by destruct (Hd until). Qed.

Lemma about_other id id' hk t d : id <> id' -> about id' (EventRow id hk t d) = false.
Proof. intros Hne. unfold about. cbn. by apply String.eqb_neq in Hne as ->. Qed.

Lemma scan_detail_no_ban c st tokens u : scan_detail c st tokens <> ev_ban u.
Proof. unfold scan_detail. by destruct (_ && _). Qed.

Lemma view_event id s hk t d id' : (forall u, d <> ev_ban u) -> view_of (add_event (EventRow id hk t d) s) id' =
  View (v_group (view_of s id')) (v_audit (view_of s id')) (v_buffered (view_of s id'))
    (v_events (view_of s id') ++ if decide (id' = id) then [EventRow id hk t d] else []).
Proof.
  intros Hd. unfold view_of. cbn [v_group v_audit v_buffered v_events]. rewrite events_of_add. cbn [add_event groups audits s_buffer].
  destruct (decide (id' = id)) as [->|Hne]; [by rewrite about_same|by rewrite about_other].
Qed.

(** *** Recording a group *)

Lemma push_ok g b b' : push g b = (Ok tt, b') -> get (RlBuffer.lease_id g) b = None /\
  forall id, get id b' = if decide (id = RlBuffer.lease_id g) then Some g else get id b.
Proof.
  unfold push, get. destruct (rows b !! RlBuffer.lease_id g) eqn:E; [done|]. intros [= <-]. split; [by rewrite ?E|]. intros id. cbn.
  rewrite lookup_insert. destruct (decide (RlBuffer.lease_id g = id)), (decide (id = RlBuffer.lease_id g)); naive_solver.
Qed.

(** Where a graded group went, and what the tables then say of its lease. *)
Definition routed (c : submit_config) (lid hk : string) (sc : scan_row) (tokens : Z) (g : RlBuffer.group) (w : verdict) (s s' : submissions)
    (at' : option audit_state * option training_state) : Prop :=
  let id := lid in
  groups s' = groups s /\ (forall id', id' <> id -> view_of s' id' = view_of s id') /\
  ((w = IN_ZONE /\ at' = (None, Some training_queued) /\ v_audit (view_of s' id) = v_audit (view_of s id) /\
    v_events (view_of s' id) = v_events (view_of s id) /\ v_buffered (view_of s' id) = Some g) \/
   (w <> IN_ZONE /\ at' = (Some PENDING, None) /\ v_audit (view_of s' id) = Some (hk, Some g) /\
    v_events (view_of s' id) = v_events (view_of s id) /\ v_buffered (view_of s' id) = v_buffered (view_of s id)) \/
   (w <> IN_ZONE /\ at' = (Some NOT_DRAWN, None) /\ v_audit (view_of s' id) = v_audit (view_of s id) /\
    v_buffered (view_of s' id) = v_buffered (view_of s id) /\
    v_events (view_of s' id) = v_events (view_of s id) ++
      if first_scan sc then [EventRow id hk (RlBuffer.arrived_at g) (scan_detail c NOT_DRAWN tokens)] else [])).

Lemma route_ok qcfg scfg lid hk w sc g tokens draw s at' s' : RlBuffer.lease_id g = lid ->
  route qcfg scfg lid hk w sc g tokens draw s = (Ok at', s') -> routed scfg lid hk sc tokens g w s s' at'.
Proof.
  intros Hg. unfold route. case_bool_decide as Hz.
  - intros (u & t & Hp & [= <- <-])%bind_m_ok. unfold on_buffer in Hp. destruct (push g (s_buffer s)) as [[[]|] b'] eqn:Ep; [|done].
    injection Hp as _ <-. apply push_ok in Ep as [_ Ep]. rewrite Hg in Ep. split_and!; [done| |left; split_and!; try done].
    + intros id' Hne. unfold view_of. cbn. rewrite Ep, decide_False by done. done.
    + cbn. by rewrite Ep, decide_True.
  - cbv zeta. destruct (_ || _).
    + intros (u & t & Hi & [= <- <-])%bind_m_ok. unfold insert_audit in Hi. destruct (audits s !! lid) eqn:Ea; [done|]. injection Hi as _ <-.
      split_and!; [done| |right; left; split_and!; try done].
      * intros id' Hne. unfold view_of. cbn. by rewrite lookup_insert_ne by done.
      * cbn. by rewrite lookup_insert_eq.
    + intros (u & t & Hi & [= <- <-])%bind_m_ok. destruct (first_scan sc) eqn:Ef.
      * destruct (note_first_scan_ok scfg qcfg lid hk (RlBuffer.arrived_at g) NOT_DRAWN tokens s) as (b & E).
        rewrite E in Hi. injection Hi as _ <-. split_and!; [done| |right; right; rewrite view_event by apply scan_detail_no_ban].
        -- intros id' Hne. rewrite view_event, decide_False, app_nil_r by (done || apply scan_detail_no_ban). done.
        -- rewrite decide_True by done. rewrite Ef. done.
      * injection Hi as _ <-. split_and!; [done|done|]. right; right. rewrite Ef, app_nil_r. done.
Qed.

Lemma insert_group_ok id r s s' : insert_group id r s = (Ok tt, s') -> groups s !! id = None /\ forall id', view_of s' id' =
  if decide (id' = id) then View (Some r) (v_audit (view_of s id)) (v_buffered (view_of s id)) (v_events (view_of s id)) else view_of s id'.
Proof.
  unfold insert_group. destruct (groups s !! id) eqn:E; [done|]. intros [= <-]. split; [done|]. intros id'. unfold view_of. cbn.
  rewrite lookup_insert. destruct (decide (id = id')) as [->|]; [by rewrite decide_True|by rewrite decide_False].
Qed.

Section life.
Context (scfg : submit_config).

Definition all_life (s : submissions) : Prop := forall id, life scfg id (view_of s id).

Lemma view_set_book b s id : view_of (set_book b s) id = view_of s id.
Proof. done. Qed.

Lemma same_views_life s s' : same_views s s' -> all_life s -> all_life s'.
Proof. intros E Hs id. rewrite E. apply Hs. Qed.

(** A lease without a row has nothing. *)
Lemma life_fresh s id : all_life s -> groups s !! id = None ->
  v_events (view_of s id) = [] /\ v_audit (view_of s id) = None /\ v_buffered (view_of s id) = None.
Proof. intros Hs Hg. specialize (Hs id). unfold life in Hs. cbn [v_group view_of] in Hs. by rewrite Hg in Hs. Qed.

Lemma life_out id r v w : v_group v = Some r -> gr_verdict r = graded_group w -> w <> IN_ZONE -> gr_training r = None ->
  v_buffered v = None -> audit_life scfg id r v -> life scfg id v.
Proof. intros E1 E2 Hw H1 H2 H3. unfold life. rewrite E1, E2. destruct w; [done|..]; split_and!; done. Qed.

Lemma group_of_matches lid hk l gd v rs at' total sc a t : group_matches lid (row_of hk l gd v at' total sc a t) (group_of lid hk l gd rs at').
Proof. by unfold group_matches. Qed.

Section record.
Context (cfg : book_config) (qcfg : quota_config) (scan : gmap string lease_row -> list (string * lease_row)).
Context (sandbox : lease -> option string) (cooldown_of : string -> result Z).

Lemma record_group_life lid hk l gd v rs total t draw s s' : all_life s ->
  record_group cfg qcfg scan sandbox cooldown_of scfg lid hk l gd v rs total t draw s = (Ok tt, s') ->
  all_life s' /\ groups s !! lid = None /\ (forall id, id <> lid -> view_of s' id = view_of s id) /\
  exists sc a tr, groups s' !! lid = Some (row_of hk l gd v t total sc a tr) /\ (v = rejected_group <-> sc = None).
Proof.
  intros Hs. unfold record_group. intros (l' & s1 & (b1 & ->)%on_book_ok & H)%bind_m_ok. destruct v as [|w].
  - apply insert_group_ok in H as [Hn Hv]. cbn in Hn. destruct (life_fresh s _ Hs Hn) as (He & Ha & Hb). split_and!; [|done| |].
    + intros id. rewrite Hv. destruct (decide (id = lid)); [|exact (Hs id)]. unfold life. cbn [v_group row_of gr_verdict v_events v_audit v_buffered].
      rewrite !view_set_book, He, Ha, Hb. done.
    + intros id Hne. rewrite Hv, decide_False by done. done.
    + exists None, None, None. split; [|done]. specialize (Hv lid). rewrite decide_True in Hv by done. by injection Hv.
  - apply bind_m_ok in H as (sc & s2 & (b2 & ->)%on_book_ok & H). apply bind_m_ok in H as (at' & s3 & Hr & H).
    apply route_ok in Hr as (Hg & Hother & Hr); [|done]. apply insert_group_ok in H as [Hn Hv]. rewrite Hg in Hn. cbn in Hn.
    destruct (life_fresh s _ Hs Hn) as (He & Ha & Hb). rewrite !view_set_book in Hr.
    split_and!; [|done| |].
    + intros id. rewrite Hv. destruct (decide (id = lid)) as [->|Hne]; [|rewrite Hother by done; exact (Hs id)].
      destruct Hr as [(-> & -> & E1 & E2 & E3)|[(Hw & -> & E1 & E2 & E3)|(Hw & -> & E1 & E2 & E3)]].
      * unfold life. cbn [v_group row_of gr_verdict v_audit]. rewrite E1, Ha. split_and!; [done|done|]. unfold training_life.
        cbn [gr_training row_of snd v_events v_buffered]. rewrite E2, E3. split; [done|]. eexists. split; [done|apply group_of_matches].
      * eapply life_out; [done|done|done|done|cbn [v_buffered]; by rewrite E3|]. unfold audit_life. cbn [gr_audit row_of fst v_events v_audit]. rewrite E1, E2.
        split; [done|]. eexists. split; [done|apply group_of_matches].
      * eapply life_out; [done|done|done|done|cbn [v_buffered]; by rewrite E2|]. unfold audit_life, scan_concluded. cbn [gr_audit row_of fst v_events v_audit gr_first_scan].
        rewrite E1, E3, He, Ha. split; [done|]. destruct (first_scan sc); [by eexists|done].
    + intros id Hne. rewrite Hv, decide_False by done. by rewrite Hother.
    + specialize (Hv lid). rewrite decide_True in Hv by done. injection Hv as Hv _ _ _. eexists (Some _), _, _. split; [exact Hv|done].
Qed.
End record.

(** *** Concluding an audit *)

Definition concluded (res : audit_result) : audit_state :=
  match passed res with None => INCONCLUSIVE | Some true => PASSED | Some false => FAILED end.

Lemma conclude_audit_ok qcfg id res now s s' : conclude_audit qcfg scfg id res now s = (Ok tt, s') ->
  exists hk body g, v_audit (view_of s id) = Some (hk, Some body) /\ groups s !! id = Some g /\
    forall id', view_of s' id' = if decide (id' = id) then
      View (Some (set_audit_state (concluded res) g)) (Some (hk, None)) (v_buffered (view_of s id))
        (v_events (view_of s id) ++ if gr_first_scan g then [EventRow id hk now (scan_detail scfg (concluded res) (gr_tokens g))] else [])
      else view_of s id'.
Proof.
  unfold conclude_audit. destruct (audits s !! id) as [a|] eqn:Ea; [|done]. destruct (groups s !! id) as [g|] eqn:Eg; [|done].
  destruct (au_body a) as [body|] eqn:Eb; [|done]. cbv zeta. fold (concluded res). intros (u & s1 & Hv & H)%bind_m_ok.
  assert (exists vs, s1 = Submissions (s_book s) (s_buffer s) (groups s) (audits s) vs (events s)) as (vs & ->).
  { destruct (passed res); [destruct u; apply log_verdict_ok in Hv as (v & ->); by eexists|].
    destruct (suspect res); injection Hv as _ <-; [by eexists|]. exists (verdicts s). by destruct s. }
  apply bind_m_ok in H as ([] & s2 & [= <-] & H).
  exists (au_hotkey a), body, g. split_and!; [cbn; by rewrite Ea; cbn; rewrite Eb|done|]. intros id'.
  match type of H with _ ?t = _ => set (s2 := t) in * end.
  assert (view_of s2 id' = if decide (id' = id) then View (Some (set_audit_state (concluded res) g)) (Some (au_hotkey a, None))
            (v_buffered (view_of s id)) (v_events (view_of s id)) else view_of s id') as Hview.
  { unfold view_of. cbn. rewrite !lookup_alter. destruct (decide (id = id')) as [->|]; [|by rewrite decide_False].
    rewrite decide_True by done. by rewrite Ea, Eg. }
  destruct (gr_first_scan g).
  - destruct (note_first_scan_ok scfg qcfg id (au_hotkey a) now (concluded res) (gr_tokens g) s2) as (b & E). rewrite E in H. injection H as <-.
    rewrite view_event, view_set_book, Hview by apply scan_detail_no_ban. destruct (decide (id' = id)); cbn [v_group v_audit v_buffered v_events]; [done|].
    rewrite app_nil_r. by destruct (view_of s id').
  - injection H as <-. rewrite app_nil_r. exact Hview.
Qed.

Lemma life_pending s id hk body g : all_life s -> v_audit (view_of s id) = Some (hk, Some body) -> groups s !! id = Some g ->
  hk = gr_hotkey g /\ (exists w, gr_verdict g = graded_group w /\ w <> IN_ZONE) /\ gr_audit g = Some PENDING /\ gr_training g = None /\
  v_buffered (view_of s id) = None /\ v_events (view_of s id) = [] /\ group_matches id g body.
Proof.
  intros Hs Ha Hg. specialize (Hs id). unfold life in Hs. cbn [v_group view_of] in Hs. rewrite Hg in Hs.
  assert (forall w, w <> IN_ZONE -> gr_verdict g = graded_group w -> (gr_training g = None /\ v_buffered (view_of s id) = None /\ audit_life scfg id g (view_of s id)) ->
    hk = gr_hotkey g /\ (exists w, gr_verdict g = graded_group w /\ w <> IN_ZONE) /\ gr_audit g = Some PENDING /\ gr_training g = None /\
    v_buffered (view_of s id) = None /\ v_events (view_of s id) = [] /\ group_matches id g body) as Hout.
  { intros w Hw Hv (H1 & H2 & H3). unfold audit_life in H3. rewrite Ha in H3. destruct (gr_audit g) as [[]|]; naive_solver. }
  destruct (gr_verdict g) as [|[]] eqn:Ev; [|naive_solver|(eapply Hout; [|reflexivity|exact Hs]; done)..].
  destruct Hs as (_ & _ & _ & H & _). unfold view_of in Ha. cbn in Ha, H. congruence.
Qed.

Lemma conclude_audit_life qcfg id res now s s' : all_life s -> conclude_audit qcfg scfg id res now s = (Ok tt, s') -> all_life s'.
Proof.
  intros Hs (hk & body & g & Ha & Hg & Hv)%conclude_audit_ok id'. rewrite Hv. destruct (decide (id' = id)) as [->|]; [|apply Hs].
  destruct (life_pending s id hk body g Hs Ha Hg) as (-> & (w & Ew & Hw) & _ & Ht & Hb & He & _).
  eapply life_out; [done|exact Ew|done|exact Ht|exact Hb|]. unfold audit_life, scan_concluded. cbn [v_events v_audit gr_audit set_audit_state gr_first_scan].
  rewrite He. destruct (passed res) as [[]|] eqn:Ep; unfold concluded; rewrite Ep; (split; [done|]); destruct (gr_first_scan g); by eexists || done.
Qed.

(** *** The trainer's report *)

Lemma model_tokens_nonneg c sp : 0 <= model_tokens c sp.
Proof.
  destruct sp as [l|]; cbn; [|lia]. apply Zsum_elem_nonneg. intros x (p & -> & _)%list_elem_of_fmap. lia.
Qed.

Lemma group_model_tokens_ok g ns : group_model_tokens g = Ok ns -> Forall (Z.le 0) ns /\ length ns = length (completions g).
Proof.
  unfold group_model_tokens. remember (List.seq 0 (length (completions g))) as l eqn:El.
  assert (length (completions g) = length l) as -> by (by rewrite El, length_seq). clear El. revert ns. induction l as [|i l IH]; intros ns; cbn [mapM]; [by intros <-%(inj Ok)|].
  intros (n & Hn & (ms & Hm & <-%(inj Ok))%bind_ok_inv)%bind_ok_inv. destruct (IH ms Hm) as [H1 H2]. split; [|cbn; by rewrite H2].
  constructor; [|done]. unfold rollout_model_tokens in Hn. destruct (completions g !! i), (RlBuffer.spans g) as [sp|]; try done.
  - destruct (sp !! i); [|done]. apply (inj Ok) in Hn as <-. apply model_tokens_nonneg.
  - apply (inj Ok) in Hn as <-. apply (model_tokens_nonneg _ None).
Qed.

Lemma zip_counts (ns ms : list Z) : length ns = length ms -> forallb (fun nm => (0 <=? nm.1) && (nm.1 <=? nm.2)) (zip ns ms) = true ->
  Forall2 (fun n m => 0 <= n <= m) ns ms.
Proof.
  revert ms. induction ns as [|n ns IH]; intros [|m ms]; [constructor|done..|]. intros [= Hl] H. cbn in H.
  apply andb_true_iff in H as [[H1%Z.leb_le H2%Z.leb_le]%andb_true_iff H3]. constructor; [lia|by apply IH].
Qed.

(** The report on a buffered group that is recorded. *)
Definition report_of (g : RlBuffer.group) (d : training_detail) : Prop :=
  td_environment d = RlBuffer.environment g /\ td_checkpoint d = RlBuffer.checkpoint g /\ Forall (fun m => 0 <= m <= fone) (rollout_match d) /\
  Forall (Z.le 0) (completion_tokens d) /\ length (completion_tokens d) = length (rollout_match d) /\
  match matched_tokens d with Some ns => Forall2 (fun n m => 0 <= n <= m) ns (completion_tokens d) | None => True end.

Lemma judge_training_ok qcfg id rm accepted cls matched jd moved now s s' :
  judge_training qcfg id rm accepted cls matched jd moved now s = (Ok tt, s') ->
  exists g d, v_buffered (view_of s id) = Some g /\ report_of g d /\ forall id', view_of s' id' = if decide (id' = id) then
    View (set_training_state (if accepted then training_accepted else training_rejected) <$> groups s !! id) (v_audit (view_of s id)) None
      (v_events (view_of s id) ++ [EventRow id (RlBuffer.hotkey g) now (if accepted then ev_trained d else ev_untrained d cls)])
    else view_of s id'.
Proof.
  unfold judge_training. destruct (get id (s_buffer s)) as [g|] eqn:Eg; [|done]. cbv zeta.
  destruct (negb (length rm =? _)%nat || _) eqn:E1; [done|]. apply orb_false_iff in E1 as [El%negb_false_iff%Nat.eqb_eq Em%negb_false_iff].
  destruct (group_model_tokens g) as [model|] eqn:Et; [|done]. destruct (match matched with Some _ => _ | None => false end) eqn:Ec; [done|].
  apply group_model_tokens_ok in Et as [Hpos Hlen]. intros H. set (d := TrainingDetail _ _ _ _ _ _ _) in H. exists g, d. split_and!; [done| |].
  { split_and!; [done|done| |done|cbn; congruence|].
    - rewrite forallb_forall in Em. apply Forall_forall. intros x Hx%list_elem_of_In. apply Em, andb_true_iff in Hx as [?%Z.leb_le ?%Z.leb_le]. done.
    - cbn. destruct matched as [ns|]; [|done]. apply orb_false_iff in Ec as [Ec%negb_false_iff%Nat.eqb_eq Ez%negb_false_iff].
      apply zip_counts; [congruence|done]. }
  set (s2 := set_groups _ _) in H.
  assert (forall id', view_of s2 id' = if decide (id' = id) then
    View (set_training_state (if accepted then training_accepted else training_rejected) <$> groups s !! id) (v_audit (view_of s id)) None (v_events (view_of s id))
    else view_of s id') as Hv2.
  { intros id'. unfold view_of, get. cbn. rewrite lookup_alter, lookup_delete.
    destruct (decide (id = id')) as [->|]; [by rewrite decide_True|by rewrite decide_False]. }
  assert (exists b vs, s' = Submissions b (s_buffer s2) (groups s2) (audits s2) vs
            (events s2 ++ [EventRow id (RlBuffer.hotkey g) now (if accepted then ev_trained d else ev_untrained d cls)])) as (b & vs & ->).
  { destruct accepted.
    - apply bind_m_ok in H as ([] & s3 & [= <-] & H). apply bind_m_ok in H as ([] & s4 & (b & ->)%on_book_ok & (v & ->)%log_verdict_ok). by eexists _, _.
    - apply bind_m_ok in H as ([] & s3 & [= <-] & H). destruct cls; [apply log_verdict_ok in H as (v & ->); by eexists _, _|].
      injection H as <-. by eexists _, _. }
  intros id'. trans (view_of (add_event (EventRow id (RlBuffer.hotkey g) now (if accepted then ev_trained d else ev_untrained d cls)) s2) id'); [done|].
  rewrite view_event, Hv2 by (by destruct accepted). destruct (decide (id' = id)); [done|]. cbn [v_group v_audit v_buffered v_events].
  rewrite app_nil_r. by destruct (view_of s id').
Qed.

Lemma life_queued s id g : all_life s -> v_buffered (view_of s id) = Some g -> exists r, groups s !! id = Some r /\
  gr_verdict r = graded_group IN_ZONE /\ gr_audit r = None /\ gr_training r = Some training_queued /\ v_audit (view_of s id) = None /\
  v_events (view_of s id) = [] /\ group_matches id r g.
Proof.
  intros Hs Hb. specialize (Hs id). unfold life in Hs. cbn [v_group view_of] in Hs. destruct (groups s !! id) as [r|]; [|naive_solver].
  exists r. split; [done|]. destruct (gr_verdict r) as [|[]]; [naive_solver| |naive_solver..].
  destruct Hs as (H1 & H2 & H3). unfold training_life in H3. destruct (gr_training r) as [[]|]; naive_solver.
Qed.

Lemma judge_training_life qcfg id rm accepted cls matched jd moved now s s' : all_life s ->
  judge_training qcfg id rm accepted cls matched jd moved now s = (Ok tt, s') -> all_life s'.
Proof.
  intros Hs (g & d & Hb & Hd & Hv)%judge_training_ok id'. rewrite Hv. destruct (decide (id' = id)) as [->|]; [|apply Hs].
  destruct (life_queued s id g Hs Hb) as (r & Hg & Er & Ea & Et & Hau & He & Hm). rewrite Hg, Hau, He. unfold life. cbn.
  rewrite Er. split_and!; [done|done|]. destruct Hm as (_ & -> & H3 & _ & H5). destruct Hd as (D1 & D2 & D3).
  assert (report_ok (set_training_state (if accepted then training_accepted else training_rejected) r) d) as Hd by (repeat split; cbn; try congruence; apply D3).
  unfold training_life. destruct accepted; cbn; eauto 10.
Qed.
End life.

(** ** The submission path as a transition system

    One constructor per transaction, so that the steps of concurrent requests
    interleave as the book's lock lets them: a group is graded between the check of
    its lease and its recording. *)
Inductive submit_step (cfg : book_config) (qcfg : quota_config) (scan : gmap string lease_row -> list (string * lease_row)) (scfg : submit_config)
    : submissions -> submissions -> Prop :=
  | call_book b s : book_step cfg qcfg scan (s_book s) b -> submit_step cfg qcfg scan scfg s (set_book b s)
  | call_record sandbox cooldown_of lid hk l gd rs t draw s :
      submit_step cfg qcfg scan scfg s (record_submission_of cfg qcfg scan sandbox cooldown_of scfg lid hk l gd rs t draw s).2
  | call_blacklist hk until now s : submit_step cfg qcfg scan scfg s (blacklist hk until now s)
  | call_audit id res now s : submit_step cfg qcfg scan scfg s (report_audit qcfg scfg id res now s).2
  | call_attempt id s : submit_step cfg qcfg scan scfg s (set_audits (alter bump_attempts id (audits s)) s)
  | call_training regrade stops id rm accepted cls matched subs jd now s :
      submit_step cfg qcfg scan scfg s (report_training qcfg regrade stops id rm accepted cls matched subs jd now s).2
  | call_take limit caps urgent now s : submit_step cfg qcfg scan scfg s (set_buffer (take_groups limit caps urgent now (s_buffer s)).2 s)
  | call_take_where rscan p limit s : submit_step cfg qcfg scan scfg s (set_buffer (take_where rscan p limit (s_buffer s)).2 s)
  | call_requeue s : submit_step cfg qcfg scan scfg s (set_buffer (requeue (s_buffer s)).2 s)
  | call_release ids s : submit_step cfg qcfg scan scfg s (set_buffer (RlBuffer.release ids (s_buffer s)) s)
  | call_tick s : submit_step cfg qcfg scan scfg s (set_buffer (drain_tick (s_buffer s)).2 s).

Section steps.
Context (cfg : book_config) (qcfg : quota_config) (scan : gmap string lease_row -> list (string * lease_row)) (scfg : submit_config).
Abbreviation step := (submit_step cfg qcfg scan scfg).

Lemma update_all_body f ids m i : (forall r, body (f r) = body r) -> body <$> update_all f ids m !! i = body <$> m !! i.
Proof.
  intros Hf. revert m. unfold update_all. induction ids as [|j ids IH]; intros m; [done|]. cbn [foldl]. rewrite IH, lookup_alter.
  destruct (decide (j = i)) as [->|]; [|done]. destruct (m !! i); cbn; [by rewrite Hf|done].
Qed.

Lemma set_buffer_views b s : (forall id, get id b = get id (s_buffer s)) -> same_views s (set_buffer b s).
Proof. intros Hb id. unfold view_of. cbn. by rewrite Hb. Qed.

(** The steps that move no group keep what the tables say of every lease; a group that
    is recorded, audited or judged changes what they say of its own. *)
Lemma step_cases s s' : all_life scfg s -> step s s' -> same_views s s' \/
  (exists sandbox cooldown_of lid hk l gd v rs total t draw,
     record_group cfg qcfg scan sandbox cooldown_of scfg lid hk l gd v rs total t draw s = (Ok tt, s')) \/
  (exists id res now, conclude_audit qcfg scfg id res now s = (Ok tt, s')) \/
  (exists id rm accepted cls matched jd moved now, judge_training qcfg id rm accepted cls matched jd moved now s = (Ok tt, s')).
Proof.
  intros Hs. destruct 1 as [b s Hb|sandbox cd lid hk l gd rs t draw s|hk until now s|id res now s|id s|rg st id rm acc cls mt subs jd now s|? ? ? ? s
    |rscan p limit s|s|ids s|s].
  - by left.
  - unfold record_submission_of. destruct (verdict_of gd) as [v|]; [|by left]. destruct (group_model_tokens _) as [ns|]; [|by left].
    unfold bind_m. destruct (transaction _ s) as [[[]|e] s'] eqn:E; cbn.
    + right; left. apply transaction_ok in E. eauto 20.
    + left. by eapply transaction_views.
  - left. intros id. assert (events_of id (blacklist hk until now s) = events_of id s) as E; [|unfold view_of; by rewrite E].
    unfold blacklist. rewrite events_of_add. unfold about. cbn. by rewrite andb_false_r, app_nil_r.
  - unfold report_audit. destruct (transaction _ s) as [[[]|e] s'] eqn:E; cbn.
    + right; right; left. apply transaction_ok in E. eauto.
    + left. by eapply transaction_views.
  - left. intros id'. unfold view_of. cbn. f_equal. rewrite lookup_alter. destruct (decide (id = id')) as [->|]; [|done]. by destruct (audits s !! id').
  - unfold report_training. cbv zeta. destruct (if _ && _ then _ else _) as [moved|]; [|by left].
    destruct (transaction _ s) as [[[]|e] s'] eqn:E; cbn.
    + right; right; right. apply transaction_ok in E. eauto 10.
    + left. by eapply transaction_views.
  - left. apply set_buffer_views. intros id. by apply update_all_body.
  - left. apply set_buffer_views. intros id. by apply update_all_body.
  - left. apply set_buffer_views. intros id. unfold get. cbn. rewrite lookup_fmap. destruct (rows (s_buffer s) !! id) as [r|]; [|done]. cbn. by destruct (is_taken r).
  - left. apply set_buffer_views. intros id. apply update_all_body. intros r. by destruct (is_taken r).
  - left. by apply set_buffer_views.
Qed.

Lemma step_life s s' : all_life scfg s -> step s s' -> all_life scfg s'.
Proof.
  intros Hs Hst. destruct (step_cases s s' Hs Hst) as [E|[(? & ? & ? & ? & ? & ? & ? & ? & ? & ? & ? & E)|[(? & ? & ? & E)|(? & ? & ? & ? & ? & ? & ? & ? & E)]]].
  - exact (same_views_life _ _ _ E Hs).
  - exact (proj1 (record_group_life _ _ _ _ _ _ _ _ _ _ _ _ _ _ _ _ _ Hs E)).
  - eapply conclude_audit_life; [exact Hs|exact E].
  - eapply judge_training_life; [exact Hs|exact E].
Qed.

Lemma empty_life : all_life scfg empty_submissions.
Proof. intros id. unfold life, view_of. cbn. by rewrite !lookup_empty. Qed.

Lemma reachable_life s : rtc step empty_submissions s -> all_life scfg s.
Proof. apply rtc_invariant; [apply step_life|apply empty_life]. Qed.

(** *** What no step undoes: the answer given for a group *)

Definition same_answer (r r' : group_row) : Prop :=
  gr_hotkey r' = gr_hotkey r /\ gr_verdict r' = gr_verdict r /\ gr_rewards r' = gr_rewards r /\ gr_reason r' = gr_reason r.

Lemma step_answers s s' id r : all_life scfg s -> step s s' -> groups s !! id = Some r -> exists r', groups s' !! id = Some r' /\ same_answer r r'.
Proof.
  intros Hs Hst Hr.
  assert (forall s2 : submissions, view_of s2 id = view_of s id -> exists r', groups s2 !! id = Some r' /\ same_answer r r') as Hsame.
  { intros s2 E. exists r. split; [|done]. apply (f_equal v_group) in E. cbn in E. congruence. }
  destruct (step_cases s s' Hs Hst) as [E|[(? & ? & lid & ? & ? & ? & ? & ? & ? & ? & ? & E)|[(id' & ? & ? & E)|(id' & ? & ? & ? & ? & ? & ? & ? & E)]]].
  - by apply Hsame.
  - apply record_group_life in E as (_ & Hn & Hother & _); [|done]. apply Hsame, Hother. congruence.
  - apply conclude_audit_ok in E as (hk & body & g & _ & Hg & Hv). specialize (Hv id). destruct (decide (id = id')) as [->|]; [|by apply Hsame].
    apply (f_equal v_group) in Hv. cbn in Hv. eexists. split; [exact Hv|]. assert (r = g) as -> by congruence. done.
  - apply judge_training_ok in E as (g & d & _ & _ & Hv). specialize (Hv id). destruct (decide (id = id')) as [->|]; [|by apply Hsame].
    apply (f_equal v_group) in Hv. cbn in Hv. rewrite Hr in Hv. by eexists.
Qed.

Lemma run_answers s s' id r : all_life scfg s -> rtc step s s' -> groups s !! id = Some r -> exists r', groups s' !! id = Some r' /\ same_answer r r'.
Proof.
  intros Hs Hrun. revert r Hs. induction Hrun as [s|s s1 s2 H1 H2 IH]; intros r Hs Hr; [by exists r|].
  destruct (step_answers s s1 id r Hs H1 Hr) as (r1 & Hr1 & A1). destruct (IH r1 (step_life _ _ Hs H1) Hr1) as (r2 & Hr2 & A2).
  exists r2. split; [done|]. unfold same_answer in *. naive_solver congruence.
Qed.
End steps.

(** ** The methods as sequences of steps *)

Section methods.
Context (cfg : book_config) (qcfg : quota_config) (scan : gmap string lease_row -> list (string * lease_row)) (scfg : submit_config).
Abbreviation step := (submit_step cfg qcfg scan scfg).

Lemma submit_group_run sandbox cooldown_of grade id hk rs t draw s :
  rtc step s (submit_group cfg qcfg scan sandbox cooldown_of scfg grade id hk rs t draw s).2.
Proof.
  assert (rtc step s (submit_graded cfg qcfg scan sandbox cooldown_of scfg grade id hk rs t draw s).2) as Hrun.
  { unfold submit_graded, bind_m, on_book. pose proof (step_check cfg qcfg scan sandbox id hk t (s_book s)) as Hb.
    destruct (check_submission _ _ _ _ _ _ _ _) as [[l|e] b]; cbn in Hb |- *; (eapply rtc_l; [exact (call_book cfg qcfg scan scfg b s Hb)|]); [|done].
    destruct (grade l rs t) as [gd|]; cbn; [|done]. apply rtc_once, call_record. }
  unfold submit_group. destruct (_ || _); [done|]. destruct (graded_answer id hk s) as [[a|]|]; [done| |done].
  destruct (submit_graded _ _ _ _ _ _ _ _ _ _ _ _ s) as [[a|e] s']; cbn in Hrun; [done|].
  destruct (is_lookup_error e); [|done]. by destruct (graded_answer id hk s') as [[?|]|].
Qed.

Lemma report_all_run ids res now s : rtc step s (report_all qcfg scfg ids res now s).2.
Proof.
  revert s. induction ids as [|id ids IH]; intros s; [done|]. cbn [report_all]. unfold bind_m.
  pose proof (call_audit cfg qcfg scan scfg id res now s) as Hst. destruct (report_audit _ _ _ _ _ s) as [[[]|e] s1]; cbn in Hst |- *.
  - eapply rtc_l; [exact Hst|apply IH].
  - by apply rtc_once.
Qed.

Lemma drop_stale_run ascan now s : rtc step s (drop_stale_audits qcfg scfg ascan now s).2.
Proof.
  unfold drop_stale_audits, bind_m. cbv zeta. pose proof (report_all_run (stale_audits scfg ascan s) (AuditResult None None false) now s) as H.
  by destruct (report_all _ _ _ _ _ s) as [[[]|e] s'].
Qed.

Lemma run_jobs_run forward jobs k n now s : rtc step s (run_jobs qcfg scfg forward jobs k n now s).2.
Proof.
  revert n s. induction jobs as [|g jobs IH]; intros n s; [done|]. cbn [run_jobs]. cbv zeta.
  assert (forall res s1, rtc step s1 (bind_m (report_audit qcfg scfg (RlBuffer.lease_id g) res now) (fun _ => run_jobs qcfg scfg forward jobs k (n + 1) now) s1).2) as Hrep.
  { intros res s1. unfold bind_m. pose proof (call_audit cfg qcfg scan scfg (RlBuffer.lease_id g) res now s1) as Hst.
    destruct (report_audit _ _ _ _ _ s1) as [[[]|e] s2]; cbn in Hst |- *; (eapply rtc_l; [exact Hst|]); [apply IH|done]. }
  destruct (forward g) as [res|]; [apply Hrep|].
  destruct (audits (set_audits _ s) !! _) as [a|]; [|done]. eapply rtc_l; [apply (call_attempt cfg qcfg scan scfg (RlBuffer.lease_id g))|].
  destruct (_ <? _); [apply IH|apply Hrep].
Qed.

Lemma run_audits_run ascan forward limit k now s : rtc step s (run_audits qcfg scfg ascan forward limit k now s).2.
Proof.
  unfold run_audits, bind_m. pose proof (drop_stale_run ascan now s) as H. destruct (drop_stale_audits _ _ _ _ s) as [[n|e] s']; cbn in H; [|done].
  etrans; [exact H|apply run_jobs_run].
Qed.

Lemma run_life s s' : all_life scfg s -> rtc step s s' -> all_life scfg s'.
Proof. intros Hs. apply rtc_invariant; [apply step_life|done]. Qed.

(** *** The answer of a submission is the row's *)

Definition answers_as (r : group_row) (hk : string) (a : answer) : Prop :=
  gr_hotkey r = hk /\ gr_verdict r = ans_verdict a /\ truthy (gr_reason r) = ans_reason a /\
  (ans_verdict a <> rejected_group -> default [] (gr_rewards r) = ans_rewards a).

Lemma graded_answer_row id hk s a : graded_answer id hk s = Ok (Some a) -> exists r, groups s !! id = Some r /\ answers_as r hk a.
Proof.
  unfold graded_answer. destruct (groups s !! id) as [r|]; [|done]. destruct (String.eqb (gr_hotkey r) hk) eqn:E; [|done].
  intros [= <-]%(inj Ok). exists r. apply String.eqb_eq in E. by split_and!.
Qed.

Lemma submit_group_row sandbox cooldown_of grade id hk rs t draw s a s1 : all_life scfg s ->
  submit_group cfg qcfg scan sandbox cooldown_of scfg grade id hk rs t draw s = (Ok a, s1) -> exists r, groups s1 !! id = Some r /\ answers_as r hk a.
Proof.
  intros Hs. unfold submit_group. destruct (_ || _); [done|]. destruct (graded_answer id hk s) as [[a'|]|] eqn:Ea; [|..|done].
  { intros [= -> ->]. by apply graded_answer_row. }
  destruct (submit_graded _ _ _ _ _ _ _ _ _ _ _ _ s) as [[a'|e] s'] eqn:Eg.
  - intros [= -> ->]. unfold submit_graded in Eg. apply bind_m_ok in Eg as (l & s2 & (b & ->)%on_book_ok & Eg).
    destruct (grade l rs t) as [gd|]; [|done]. unfold record_submission_of in Eg. destruct (verdict_of gd) as [v|]; [|done].
    destruct (group_model_tokens _) as [ns|]; [|done]. apply bind_m_ok in Eg as ([] & s3 & Ht%transaction_ok & [= <- <-]).
    apply (record_group_life scfg) in Ht as (_ & _ & _ & sc & au & tr & Hr & Hsc); [|exact Hs]. eexists. split; [exact Hr|]. split_and!; try done.
    cbn. intros Hv. destruct sc as [sc|]; [done|]. by destruct Hsc as [_ Hsc]; destruct (Hv (Hsc eq_refl)).
  - destruct (is_lookup_error e); [|done]. destruct (graded_answer id hk s') as [[a'|]|] eqn:Ea'; [|done..]. intros [= -> ->]. by apply graded_answer_row.
Qed.
End methods.

(** ** Probation *)

Lemma since_failure_spec hk vs : match since_failure hk vs with
  | None => Forall (fun v => is_failure hk v = false) vs
  | Some rest => exists pre f, vs = pre ++ f :: rest /\ is_failure hk f = true /\ Forall (fun v => is_failure hk v = false) rest
  end.
Proof.
  induction vs as [|v vs IH]; cbn [since_failure]; [constructor|]. destruct (since_failure hk vs) as [rest|].
  - destruct IH as (pre & f & -> & Hf). by exists (v :: pre), f.
  - destruct (is_failure hk v) eqn:E; [by exists [], v|by constructor].
Qed.

Lemma passes_app hk vs vs' : passes hk (vs ++ vs') = passes hk vs + passes hk vs'.
Proof. unfold passes. rewrite filter_app, length_app. lia. Qed.

Lemma passes_nonneg hk vs : 0 <= passes hk vs.
Proof. unfold passes. lia. Qed.

(** A failure keeps its hotkey in probation until enough audits have passed after it. *)
Lemma failure_probation scfg hk s pre f new : verdicts s = pre ++ f :: new -> is_failure hk f = true ->
  passes hk new < reprobation_passes scfg -> in_probation scfg hk s = true.
Proof.
  intros Hv Hf Hp. unfold in_probation. destruct (_ <? probation_groups scfg); [done|].
  pose proof (since_failure_spec hk (verdicts s)) as Hs. destruct (since_failure hk (verdicts s)) as [rest|].
  - destruct Hs as (pre' & f' & E & _ & Hrest). apply Z.ltb_lt. enough (exists mid, new = mid ++ rest) as (mid & ->).
    { rewrite passes_app in Hp. pose proof (passes_nonneg hk mid). lia. }
    rewrite Hv in E. clear -E Hf Hrest. revert pre' E. induction pre as [|x pre IH]; intros [|y pre'] E; cbn in E.
    + injection E as -> ->. by exists [].
    + injection E as -> ->. by exists (pre' ++ [f']); rewrite <- app_assoc.
    + injection E as -> <-. apply Forall_app in Hrest as [_ Hrest]. apply Forall_cons in Hrest as [Hrest _]. congruence.
    + injection E as _ E. by eapply IH.
  - rewrite Hv in Hs. apply Forall_app in Hs as [_ Hs]. apply Forall_cons in Hs as [Hs _]. congruence.
Qed.

(** *** Relations every step respects *)

(** A preorder on states that holds of the changes the methods make to the
    verdicts, to the audits and to the events holds of every step. *)
Section moves.
Context (R : submissions -> submissions -> Prop) `{!PreOrder R}.
Context (R_same : forall s s', verdicts s' = verdicts s -> audits s' = audits s -> events s' = events s -> R s s').
Context (R_verdict : forall v s, R s (add_verdict v s)).
Context (R_event : forall e s, R s (add_event e s)).
Context (R_drawn : forall id r s, au_attempts r = 0 -> R s (set_audits (<[id := r]> (audits s)) s)).
Context (R_audit : forall id f s, (forall a, au_attempts a <= au_attempts (f a)) -> R s (set_audits (alter f id (audits s)) s)).

Definition moves {A} (m : method submissions A) : Prop := forall s r s', m s = (r, s') -> R s s'.

Lemma transaction_moves {A} (m : method submissions A) : moves m -> moves (transaction m).
Proof.
  intros Hm s r s'. unfold transaction. destruct (m s) as [[a|e] t] eqn:E; intros [= <- <-]; [by eapply Hm|by apply R_same].
Qed.

Lemma bind_moves {A B} (m : method submissions A) (f : A -> method submissions B) : moves m -> (forall a, moves (f a)) -> moves (bind_m m f).
Proof.
  intros Hm Hf s r s'. unfold bind_m. destruct (m s) as [[a|e] t] eqn:E; intros H; [|injection H as <- <-; by eapply Hm].
  etrans; [by eapply Hm|by eapply Hf].
Qed.

Lemma on_book_moves {A} (m : method book A) : moves (on_book m).
Proof. intros s r s'. unfold on_book. destruct (m (s_book s)). intros [= <- <-]. by apply R_same. Qed.

Lemma on_buffer_moves {A} (m : method buffer A) : moves (on_buffer m).
Proof. intros s r s'. unfold on_buffer. destruct (m (s_buffer s)). intros [= <- <-]. by apply R_same. Qed.

Lemma modify_moves f : (forall s, R s (f s)) -> moves (modify f).
Proof. intros Hf s r s' [= _ <-]. apply Hf. Qed.

Lemma pure_moves {A} (a : A) : moves (pure a).
Proof. intros s r s' [= _ <-]. by apply R_same. Qed.

Lemma insert_group_moves id r : moves (insert_group id r).
Proof. intros s x s'. unfold insert_group. destruct (groups s !! id); intros [= _ <-]; by apply R_same. Qed.

Lemma insert_audit_moves id r : au_attempts r = 0 -> moves (insert_audit id r).
Proof. intros Hr s x s'. unfold insert_audit. destruct (audits s !! id); intros [= _ <-]; [by apply R_same|]. by apply R_drawn. Qed.

Lemma log_verdict_moves id hk src ok cls forced now : moves (log_verdict id hk src ok cls forced now).
Proof.
  intros s r s'. unfold log_verdict. destruct (_ && _); intros [= _ <-]; [by apply R_same|]. apply R_verdict.
Qed.

Lemma note_first_scan_moves qcfg scfg id hk t st tokens : moves (note_first_scan qcfg scfg id hk t st tokens).
Proof.
  unfold note_first_scan. destruct (_ && _); [apply bind_moves; [|intros _; apply on_book_moves]|]; apply modify_moves; intros s; apply R_event.
Qed.

Create HintDb moves.
#[local] Hint Resolve transaction_moves bind_moves on_book_moves on_buffer_moves pure_moves insert_group_moves insert_audit_moves
  log_verdict_moves note_first_scan_moves : moves.

Lemma record_group_moves cfg qcfg scan sandbox cooldown_of scfg lid hk l gd v rs total t draw :
  moves (record_group cfg qcfg scan sandbox cooldown_of scfg lid hk l gd v rs total t draw).
Proof.
  unfold record_group. apply bind_moves; [auto with moves|]. intros _. destruct v as [|w]; [auto with moves|].
  apply bind_moves; [auto with moves|]. intros sc. apply bind_moves; [|intros at'; intros s r s'; by apply insert_group_moves].
  intros s r s'. unfold route. case_bool_decide; [|cbv zeta; destruct (_ || _)].
  - apply bind_moves; auto with moves.
  - apply bind_moves; auto with moves.
  - apply bind_moves; [destruct (first_scan sc)|]; auto with moves.
Qed.

Lemma conclude_audit_moves qcfg scfg id res now : moves (conclude_audit qcfg scfg id res now).
Proof.
  intros s r s'. unfold conclude_audit. destruct (audits s !! id) as [a|]; [|intros [= _ <-]; by apply R_same].
  destruct (groups s !! id) as [g|]; [|intros [= _ <-]; by apply R_same]. destruct (au_body a); [|intros [= _ <-]; by apply R_same].
  apply bind_moves.
  - destruct (passed res); [auto with moves|]. destruct (suspect res); [apply modify_moves; intros s1; apply R_verdict|auto with moves].
  - intros _. apply bind_moves; [|intros _; destruct (gr_first_scan g); auto with moves]. apply modify_moves. intros s1.
    trans (set_audits (alter (conclude (default 0 (latest (s_book s)) - gr_k g)) id (audits s1)) s1); [by apply R_audit|by apply R_same].
Qed.

Lemma judge_training_moves qcfg id rm accepted cls matched jd moved now : moves (judge_training qcfg id rm accepted cls matched jd moved now).
Proof.
  intros s r s'. unfold judge_training. destruct (get id (s_buffer s)) as [g|]; [|intros [= _ <-]; by apply R_same]. cbv zeta.
  destruct (_ || _); [intros [= _ <-]; by apply R_same|]. destruct (group_model_tokens g) as [model|]; [|intros [= _ <-]; by apply R_same].
  destruct (match matched with Some _ => _ | None => false end); [intros [= _ <-]; by apply R_same|].
  set (s2 := set_groups _ _). intros H. trans s2; [by apply R_same|]. revert H.
  destruct accepted; (apply bind_moves; [apply modify_moves; intros s1; apply R_event|]); intros _.
  - apply bind_moves; auto with moves.
  - destruct cls; auto with moves.
Qed.

Lemma step_moves cfg qcfg scan scfg s s' : submit_step cfg qcfg scan scfg s s' -> R s s'.
Proof.
  destruct 1 as [b s Hb|sandbox cd lid hk l gd rs t draw s|hk until now s|id res now s|id s|rg st id rm acc cls mt subs jd now s|? ? ? ? s
    |rscan p limit s|s|ids s|s]; try by apply R_same.
  - unfold record_submission_of. destruct (verdict_of gd) as [v|]; [|by apply R_same]. destruct (group_model_tokens _) as [ns|]; [|by apply R_same].
    eapply (bind_moves _ _ (transaction_moves _ (record_group_moves _ _ _ _ _ _ _ _ _ _ _ _ _ _ _)) (fun _ => pure_moves _)), surjective_pairing.
  - unfold blacklist. etrans; [by apply (R_same s (set_book (ban hk until (s_book s)) s))|apply R_event].
  - eapply (transaction_moves _ (conclude_audit_moves _ _ _ _ _)), surjective_pairing.
  - apply R_audit. intros a. cbn. lia.
  - unfold report_training. cbv zeta. destruct (if _ && _ then _ else _) as [moved|]; [|by apply R_same].
    eapply (transaction_moves _ (judge_training_moves _ _ _ _ _ _ _ _ _)), surjective_pairing.
Qed.

Lemma run_moves cfg qcfg scan scfg s s' : rtc (submit_step cfg qcfg scan scfg) s s' -> R s s'.
Proof. induction 1 as [s|s s1 s2 H _ IH]; [done|]. trans s1; [by eapply step_moves|done]. Qed.
End moves.

Definition verdicts_grow (s s' : submissions) : Prop := exists new, verdicts s' = verdicts s ++ new.

#[export] Instance verdicts_grow_preorder : PreOrder verdicts_grow.
Proof.
  split.
  - intros s. exists []. by rewrite app_nil_r.
  - intros s1 s2 s3 [n1 E1] [n2 E2]. exists (n1 ++ n2). by rewrite E2, E1, app_assoc.
Qed.

Lemma run_verdicts cfg qcfg scan scfg s s' : rtc (submit_step cfg qcfg scan scfg) s s' -> verdicts_grow s s'.
Proof.
  apply run_moves; [apply _|..].
  - intros s1 s2 E _ _. exists []. by rewrite app_nil_r.
  - intros v s1. by exists [v].
  - intros e s1. exists []. by rewrite app_nil_r.
  - intros id r s1 _. exists []. by rewrite app_nil_r.
  - intros id f s1 _. exists []. by rewrite app_nil_r.
Qed.

(** No audit has failed fewer than zero times. *)
Definition attempts_ok (s : submissions) : Prop := forall id a, audits s !! id = Some a -> 0 <= au_attempts a.

Lemma reachable_attempts cfg qcfg scan scfg s : rtc (submit_step cfg qcfg scan scfg) empty_submissions s -> attempts_ok s.
Proof.
  intros H. assert (attempts_ok empty_submissions) as H0 by (intros id a; cbn; by rewrite lookup_empty). revert H0.
  pattern empty_submissions, s. revert H. apply run_moves.
  - split; [by intros s1|intros s1 s2 s3; tauto].
  - intros s1 s2 _ E _ H1. unfold attempts_ok. by rewrite E.
  - done.
  - done.
  - intros id r s1 Hr H1 id' a. cbn. rewrite lookup_insert. destruct (decide (id = id')); [intros [= <-]; lia|apply H1].
  - intros id f s1 Hf H1 id' a. cbn. rewrite lookup_alter. destruct (decide (id = id')) as [->|]; [|apply H1].
    destruct (audits s1 !! id') as [b|] eqn:Eb; [|done]. intros [= <-]. specialize (Hf b). specialize (H1 id' b Eb). lia.
Qed.

(** The event log only grows. *)
Definition events_grow (s s' : submissions) : Prop := exists new, events s' = events s ++ new.

#[export] Instance events_grow_preorder : PreOrder events_grow.
Proof.
  split.
  - intros s. exists []. by rewrite app_nil_r.
  - intros s1 s2 s3 [n1 E1] [n2 E2]. exists (n1 ++ n2). by rewrite E2, E1, app_assoc.
Qed.

Lemma step_events cfg qcfg scan scfg s s' : submit_step cfg qcfg scan scfg s s' -> events_grow s s'.
Proof.
  apply step_moves; [apply _|..].
  - intros s1 s2 _ _ E. exists []. by rewrite app_nil_r.
  - intros v s1. exists []. by rewrite app_nil_r.
  - intros e s1. by exists [e].
  - intros id r s1 _. exists []. by rewrite app_nil_r.
  - intros id f s1 _. exists []. by rewrite app_nil_r.
Qed.

(** ** The audit queue *)

(** A result the trainer may report: a failure has its class. *)
Definition valid_result (res : audit_result) : Prop := passed res = Some false -> exists c, failure_class res = Some c /\ c ∈ failure_classes.

Definition open_audit (s : submissions) (id : string) (g : RlBuffer.group) (a : audit_row) : Prop := audits s !! id = Some a /\ au_body a = Some g.

Section queue.
Context (cfg : book_config) (qcfg : quota_config) (scan : gmap string lease_row -> list (string * lease_row)) (scfg : submit_config).

Lemma open_group s id g a : all_life scfg s -> open_audit s id g a -> RlBuffer.lease_id g = id /\ is_Some (groups s !! id).
Proof.
  intros Hs [Ha Hb]. assert (v_audit (view_of s id) = Some (au_hotkey a, Some g)) as Hv by (cbn; rewrite Ha; cbn; by rewrite Hb).
  destruct (groups s !! id) as [r|] eqn:Hg.
  - destruct (life_pending scfg s id _ g r Hs Hv Hg) as (_ & _ & _ & _ & _ & _ & Hm). split; [apply Hm|done].
  - destruct (life_fresh scfg s id Hs Hg) as (_ & H & _). congruence.
Qed.

Lemma report_succeeds id res now s g a : all_life scfg s -> open_audit s id g a -> valid_result res ->
  exists s' lag, report_audit qcfg scfg id res now s = (Ok tt, s') /\ all_life scfg s' /\ audits s' = alter (conclude lag) id (audits s).
Proof.
  intros Hs Ho Hres. destruct (open_group s id g a Hs Ho) as [_ [r Hr]]. destruct Ho as [Ha Hb].
  assert (exists s' lag, conclude_audit qcfg scfg id res now s = (Ok tt, s') /\ audits s' = alter (conclude lag) id (audits s)) as (s' & lag & E & Haud).
  { unfold conclude_audit. rewrite Ha, Hr, Hb. cbv zeta. fold (concluded res).
    match goal with |- context [bind_m ?m _ s] => assert (exists vs, m s = (Ok tt, Submissions (s_book s) (s_buffer s) (groups s) (audits s) vs (events s))) as (vs & E) end.
    { destruct (passed res) as [ok|] eqn:Ep.
      - unfold log_verdict. destruct ok; cbn [negb andb]; [by eexists|]. destruct (Hres Ep) as (c & -> & Hc). rewrite bool_decide_true by done. by eexists.
      - destruct (suspect res); [by eexists|]. exists (verdicts s). by destruct s. }
    unfold bind_m at 1. rewrite E. unfold bind_m, modify. destruct (gr_first_scan r).
    - edestruct note_first_scan_ok as (b & ->). by eexists _, _.
    - by eexists _, _. }
  exists s', lag. split_and!; [unfold report_audit, transaction; by rewrite E| |done]. by eapply conclude_audit_life.
Qed.

Lemma report_other id lag s s' id' g a : audits s' = alter (conclude lag) id (audits s) -> id' <> id -> open_audit s id' g a -> open_audit s' id' g a.
Proof. intros E Hne [Ha Hb]. split; [|done]. by rewrite E, lookup_alter_ne. Qed.

(** What a run over some jobs leaves of the queue. *)
Definition swept (ids : list string) (s s' : submissions) (left : string -> audit_row -> audit_row -> Prop) : Prop :=
  (forall id, id ∉ ids -> audits s' !! id = audits s !! id) /\
  forall id, id ∈ ids -> exists a a', audits s !! id = Some a /\ audits s' !! id = Some a' /\ (au_body a' = None \/ left id a a').

Lemma swept_cons id ids s s1 s' left : id ∉ ids -> (forall id', id' <> id -> audits s1 !! id' = audits s !! id') ->
  (exists a a', audits s !! id = Some a /\ audits s1 !! id = Some a' /\ (au_body a' = None \/ left id a a')) ->
  swept ids s1 s' left -> swept (id :: ids) s s' left.
Proof.
  intros Hni Hother Hid [H1 H2]. split.
  - intros id' [Hne Hn]%not_elem_of_cons. rewrite H1 by done. by apply Hother.
  - intros id' [->|Hin]%elem_of_cons.
    + destruct Hid as (a & a' & Ha & Ha' & Hl). exists a, a'. by rewrite H1.
    + assert (id' <> id) by (by intros ->). destruct (H2 id' Hin) as (a & a' & Ha & Hr). exists a, a'. by rewrite <- Hother.
Qed.

Lemma concluded_row lag id s s' a (left : audit_row -> Prop) : audits s' = alter (conclude lag) id (audits s) -> audits s !! id = Some a ->
  exists a', audits s' !! id = Some a' /\ (au_body a' = None \/ left a').
Proof. intros E Ha. rewrite E, lookup_alter_eq, Ha. eexists. split; [done|by left]. Qed.

Lemma report_all_sweeps ids res now s : all_life scfg s -> NoDup ids -> valid_result res -> (forall id, id ∈ ids -> exists g a, open_audit s id g a) ->
  exists s', report_all qcfg scfg ids res now s = (Ok tt, s') /\ all_life scfg s' /\ swept ids s s' (fun _ _ _ => False).
Proof.
  intros Hs Hnd Hres. revert s Hs. induction Hnd as [|id ids Hni Hnd IH]; intros s Hs Hopen.
  { exists s. split_and!; [done|done|]. split; [done|]. intros id Hin. by apply not_elem_of_nil in Hin. }
  destruct (Hopen id ltac:(constructor)) as (g & a & Ho). destruct (report_succeeds id res now s g a Hs Ho Hres) as (s1 & lag & E & Hs1 & Haud).
  destruct (IH s1 Hs1) as (s' & E' & Hs' & Hsw).
  { intros id' Hin. destruct (Hopen id' ltac:(by constructor)) as (g' & a' & Ho'). exists g', a'. eapply report_other; [exact Haud| |exact Ho']. by intros ->. }
  exists s'. split_and!; [cbn [report_all]; unfold bind_m; by rewrite E|done|]. eapply swept_cons; [done| | |exact Hsw].
  - intros id' Hne. by rewrite Haud, lookup_alter_ne.
  - exists a. destruct (concluded_row lag id s s1 a (fun _ => False) Haud (proj1 Ho)) as (a' & H). exists a'. split; [apply Ho|exact H].
Qed.

Context (forward : RlBuffer.group -> option audit_result) (Hforward : forall g res, forward g = Some res -> valid_result res).

(** A job that is not concluded has failed once more, and less than [k] times. *)
Definition retried (k : Z) (a a' : audit_row) : Prop := a' = bump_attempts a /\ au_attempts a' < k.

Lemma run_jobs_sweeps k now jobs : forall n s, all_life scfg s -> NoDup (RlBuffer.lease_id <$> jobs) ->
  (forall g, g ∈ jobs -> exists a, open_audit s (RlBuffer.lease_id g) g a) ->
  exists n' s', run_jobs qcfg scfg forward jobs k n now s = (Ok n', s') /\ all_life scfg s' /\ swept (RlBuffer.lease_id <$> jobs) s s' (fun _ => retried k).
Proof.
  induction jobs as [|g jobs IH]; intros n s Hs Hnd Hopen.
  { exists n, s. split_and!; [done|done|]. split; [done|]. intros id Hin. by apply not_elem_of_nil in Hin. }
  rewrite fmap_cons in Hnd. apply NoDup_cons in Hnd as [Hni Hnd]. set (id := RlBuffer.lease_id g) in *.
  destruct (Hopen g ltac:(constructor)) as (a & Ho). fold id in Ho.
  assert (forall s1 : submissions, (forall id', id' <> id -> audits s1 !! id' = audits s !! id') ->
    forall g', g' ∈ jobs -> exists a, open_audit s1 (RlBuffer.lease_id g') g' a) as Hrest.
  { intros s1 E g' Hin. destruct (Hopen g' ltac:(by constructor)) as (a' & Ha' & Hb'). exists a'. split; [|done]. rewrite E; [done|].
    intros Heq. apply Hni. apply list_elem_of_fmap. exists g'. done. }
  assert (forall res s1 a1, valid_result res -> all_life scfg s1 -> open_audit s1 id g a1 -> (forall id', id' <> id -> audits s1 !! id' = audits s !! id') ->
    exists n' s', bind_m (report_audit qcfg scfg id res now) (fun _ => run_jobs qcfg scfg forward jobs k (n + 1) now) s1 = (Ok n', s') /\
      all_life scfg s' /\ swept (RlBuffer.lease_id <$> g :: jobs) s s' (fun _ => retried k)) as Hrep.
  { intros res s1 a1 Hres Hs1 Ho1 Hoth. destruct (report_succeeds id res now s1 g a1 Hs1 Ho1 Hres) as (s2 & lag & E & Hs2 & Haud).
    assert (forall id', id' <> id -> audits s2 !! id' = audits s !! id') as Hoth2 by (intros id' Hne; rewrite Haud, lookup_alter_ne by done; by apply Hoth).
    destruct (IH (n + 1) s2 Hs2 Hnd (Hrest s2 Hoth2)) as (n' & s' & E' & Hs' & Hsw).
    exists n', s'. split_and!; [unfold bind_m; by rewrite E|done|]. rewrite fmap_cons. eapply swept_cons; [done|exact Hoth2| |exact Hsw].
    exists a. destruct (concluded_row lag id s1 s2 a1 (retried k a) Haud (proj1 Ho1)) as (a' & H). exists a'. split; [apply Ho|exact H]. }
  cbn [run_jobs]. cbv zeta. fold id. destruct (forward g) as [res|] eqn:Ef; [by eapply Hrep; [by eapply Hforward|..]|].
  destruct Ho as [Ha Hb]. set (s1 := set_audits (alter bump_attempts id (audits s)) s).
  assert (audits s1 !! id = Some (bump_attempts a)) as Ha1 by (cbn; by rewrite lookup_alter_eq, Ha).
  assert (forall id', id' <> id -> audits s1 !! id' = audits s !! id') as Hoth by (intros id' Hne; cbn; by rewrite lookup_alter_ne).
  assert (all_life scfg s1) as Hs1 by (eapply step_life; [exact Hs|apply (call_attempt cfg qcfg scan scfg id s)]).
  rewrite Ha1. destruct (Z.ltb_spec (au_attempts (bump_attempts a)) k) as [Hlt|Hge].
  - destruct (IH n s1 Hs1 Hnd (Hrest s1 Hoth)) as (n' & s' & E' & Hs' & Hsw). exists n', s'. split_and!; [done|done|].
    rewrite fmap_cons. eapply swept_cons; [done|exact Hoth| |exact Hsw]. exists a, (bump_attempts a). split_and!; [done|done|]. right. by split.
  - eapply (Hrep _ s1 (bump_attempts a)); [by intros [=]|done|by split|done].
Qed.

Context (scan_audits : gmap string audit_row -> list (string * audit_row)) (Hscan : forall m, scan_audits m ≡ₚ map_to_list m).

Lemma scan_lookup m id a : (id, a) ∈ scan_audits m <-> m !! id = Some a.
Proof. rewrite Hscan. apply elem_of_map_to_list. Qed.

Lemma scan_nodup (P : string * audit_row -> Prop) `{!forall x, Decision (P x)} m : NoDup (filter P (scan_audits m)).*1.
Proof.
  eapply sublist_NoDup; [|apply fmap_sublist, sublist_filter]. rewrite Hscan. apply NoDup_fst_map_to_list.
Qed.

Lemma drop_stale_sweeps now s : all_life scfg s -> exists s', drop_stale_audits qcfg scfg scan_audits now s = (Ok (Z.of_nat (length (stale_audits scfg scan_audits s))), s') /\
  all_life scfg s' /\ swept (stale_audits scfg scan_audits s) s s' (fun _ _ _ => False).
Proof.
  intros Hs. unfold drop_stale_audits. cbv zeta. destruct (report_all_sweeps (stale_audits scfg scan_audits s) (AuditResult None None false) now s Hs) as (s' & E & Hs' & Hsw).
  - unfold stale_audits. destruct (latest _); [apply scan_nodup|constructor].
  - done.
  - intros id. unfold stale_audits. destruct (latest _); [|intros H; by apply not_elem_of_nil in H].
    intros ([id' a] & -> & ([[g Hb] _] & Hin)%list_elem_of_filter)%list_elem_of_fmap. exists g, a. split; [by apply scan_lookup|done].
  - exists s'. split_and!; [unfold bind_m; by rewrite E|done|done].
Qed.

Lemma audit_jobs_spec limit s : all_life scfg s ->
  NoDup (RlBuffer.lease_id <$> audit_jobs scan_audits limit s) /\
  (forall g, g ∈ audit_jobs scan_audits limit s -> exists a, open_audit s (RlBuffer.lease_id g) g a) /\
  (Z.of_nat (size (audits s)) <= limit -> forall id g a, open_audit s id g a -> g ∈ audit_jobs scan_audits limit s).
Proof.
  intros Hs. unfold audit_jobs. set (rows := isort _ _).
  assert (forall id a, (id, a) ∈ rows <-> audits s !! id = Some a /\ is_Some (au_body a)) as Hrows.
  { intros id a. unfold rows. rewrite elem_of_isort, list_elem_of_filter, scan_lookup. cbn. tauto. }
  assert (RlBuffer.lease_id <$> omap (fun r => au_body r.2) rows = rows.*1) as Hids.
  { assert (forall id a, (id, a) ∈ rows -> exists g, au_body a = Some g /\ RlBuffer.lease_id g = id) as H.
    { intros id a [Ha [g Hg]]%Hrows. exists g. split; [done|]. by apply (open_group s id g a Hs). }
    clear Hrows. induction rows as [|[id a] rows IH]; [done|]. cbn. destruct (H id a ltac:(constructor)) as (g & -> & <-). cbn. f_equal.
    apply IH. intros id' a' Hin. apply H. by constructor. }
  assert (NoDup rows.*1) as Hnd by (unfold rows; rewrite isort_perm; apply scan_nodup).
  assert (forall g, g ∈ omap (fun r => au_body r.2) rows -> exists a, open_audit s (RlBuffer.lease_id g) g a) as Hall.
  { intros g ([id a] & [Ha _]%Hrows & Hg)%list_elem_of_omap. exists a. cbn in Hg. destruct (open_group s id g a Hs (conj Ha Hg)) as [-> _]. done. }
  assert (sublist (sql_limit limit (omap (fun r => au_body r.2) rows)) (omap (fun r => au_body r.2) rows)) as Hsub.
  { unfold sql_limit. destruct (_ <? _); [done|]. apply sublist_take. }
  split_and!.
  - eapply sublist_NoDup; [|by apply fmap_sublist]. by rewrite Hids.
  - intros g Hg. apply Hall. by eapply elem_of_submseteq, sublist_submseteq.
  - intros Hlim id g a [Ha Hb]. unfold sql_limit. rewrite take_ge.
    + assert (g ∈ omap (fun r => au_body r.2) rows) as Hg by (apply list_elem_of_omap; exists (id, a); split; [by apply Hrows|done]). by destruct (_ <? _).
    + assert (length (omap (fun r => au_body r.2) rows) = length rows) as -> by (rewrite <- (length_fmap RlBuffer.lease_id), Hids; apply length_fmap).
      unfold rows. rewrite isort_perm. pose proof (length_filter (fun r => is_Some (au_body r.2)) (scan_audits (audits s))) as Hf.
      rewrite (Permutation_length (Hscan _)), length_map_to_list in Hf. lia.
Qed.

Lemma swept_rows ids s s' left id : swept ids s s' left -> is_Some (audits s' !! id) <-> is_Some (audits s !! id).
Proof.
  intros [H1 H2]. destruct (decide (id ∈ ids)) as [Hin|Hni]; [|by rewrite H1]. destruct (H2 id Hin) as (a & a' & -> & -> & _). done.
Qed.

Lemma same_rows_size s s' : (forall id, is_Some (audits s' !! id) <-> is_Some (audits s !! id)) -> size (audits s') = size (audits s).
Proof. intros H. rewrite <- !(size_dom (D := gset string)). f_equal. apply set_eq. intros id. rewrite !elem_of_dom. apply H. Qed.

(** One run concludes or retries every open audit that it takes, and never raises. *)
Lemma run_audits_sweeps limit k now s : all_life scfg s ->
  exists n s', run_audits qcfg scfg scan_audits forward limit k now s = (Ok n, s') /\ all_life scfg s' /\ size (audits s') = size (audits s) /\
    (Z.of_nat (size (audits s)) <= limit -> forall id g a', open_audit s' id g a' -> exists a, open_audit s id g a /\ retried k a a').
Proof.
  intros Hs. destruct (drop_stale_sweeps now s Hs) as (s1 & E1 & Hs1 & Hsw1). destruct (audit_jobs_spec limit s1 Hs1) as (Hnd & Hopen & Hall).
  destruct (run_jobs_sweeps k now (audit_jobs scan_audits limit s1) 0 s1 Hs1 Hnd Hopen) as (n & s' & E2 & Hs' & Hsw2).
  assert (size (audits s1) = size (audits s)) as Hsize by (apply same_rows_size; intros id; by eapply swept_rows).
  exists n, s'. split_and!; [unfold run_audits, bind_m; by rewrite E1|done| |].
  - rewrite <- Hsize. apply same_rows_size. intros id. by eapply swept_rows.
  - intros Hlim id g a' [Ha' Hb']. destruct Hsw1 as [K1 K2], Hsw2 as [J1 J2].
    destruct (decide (id ∈ RlBuffer.lease_id <$> audit_jobs scan_audits limit s1)) as [Hin|Hni].
    + destruct (J2 id Hin) as (a & a2 & Ha & Ha2 & Hcase). assert (a2 = a') as -> by congruence. destruct Hcase as [?|Hret]; [congruence|].
      exists a. split; [|done]. destruct Hret as [-> _]. split; [|done].
      destruct (decide (id ∈ stale_audits scfg scan_audits s)) as [Hst|Hns]; [|by rewrite <- K1].
      destruct (K2 id Hst) as (b & b' & _ & Hb2 & [Hn|[]]). cbn in Hb'. congruence.
    + rewrite J1 in Ha' by done. exfalso. apply Hni. destruct (open_group s1 id g a' Hs1 (conj Ha' Hb')) as [<- _].
      apply list_elem_of_fmap. exists g. split; [done|]. eapply Hall; [by rewrite Hsize|by split].
Qed.

Fixpoint run_audits_times (n : nat) (limit k now : Z) (s : submissions) : submissions :=
  match n with O => s | S n => run_audits_times n limit k now (run_audits qcfg scfg scan_audits forward limit k now s).2 end.

Lemma run_times_sweep n limit k now : forall s, all_life scfg s -> Z.of_nat (size (audits s)) <= limit ->
  forall id g a', open_audit (run_audits_times n limit k now s) id g a' ->
    exists a, open_audit s id g a /\ au_attempts a' = au_attempts a + Z.of_nat n /\ (n <> 0%nat -> au_attempts a' < k).
Proof.
  induction n as [|n IH]; intros s Hs Hlim id g a' Ho; cbn [run_audits_times] in Ho; [exists a'; split_and!; [done|lia|done]|].
  destruct (run_audits_sweeps limit k now s Hs) as (m & s1 & E & Hs1 & Hsize & Hret). rewrite E in Ho. cbn in Ho.
  destruct (IH s1 Hs1 ltac:(by rewrite Hsize) id g a' Ho) as (a1 & Ho1 & Eq & Hlt). destruct (Hret Hlim id g a1 Ho1) as (a & Ho' & -> & Hk).
  exists a. cbn in Eq, Hk. split_and!; [done|lia|]. intros _. destruct n; [cbn in Eq|]; [lia|apply Hlt; done].
Qed.
End queue.

(** ** The promises of the submission path *)

(** C4: every group is accounted for, whatever the order of the calls and of the
    interleaved requests.  A lease without a row has no audit, no buffered group and no
    event.  A refused group has nothing else.  An in-zone group is either in the
    training buffer, with no event, or judged, with exactly one trained or untrained
    event that carries a well-formed report.  A group out of zone has its audit
    pending, with its tokens kept and no event, or concluded (or not drawn), with the
    tokens dropped and, when it was a first scan, exactly one event: payable if and
    only if the audit was not drawn or passed and the group has enough model tokens. *)
Theorem groups_accounted (cfg : book_config) (qcfg : quota_config) (scan : gmap string lease_row -> list (string * lease_row)) (scfg : submit_config)
    (s : submissions) (id : string) :
  rtc (submit_step cfg qcfg scan scfg) empty_submissions s -> life scfg id (view_of s id).
Proof. intros Hs. by apply (reachable_life cfg qcfg scan scfg s Hs). Qed.

Definition payable (e : event_row) : bool := match er_detail e with ev_first_scan _ _ | ev_trained _ => true | _ => false end.

(** What entitles a payable event to its pay. *)
Definition entitled (c : submit_config) (r : group_row) (d : event_detail) : Prop :=
  match d with
  | ev_first_scan fraction audited =>
      fraction = first_scan_fraction c /\ gr_first_scan r = true /\ gr_verdict r <> graded_group IN_ZONE /\ gr_verdict r <> rejected_group /\
      first_scan_min_tokens c <= gr_tokens r /\ gr_audit r = Some (if audited then PASSED else NOT_DRAWN)
  | ev_trained d => gr_verdict r = graded_group IN_ZONE /\ gr_training r = Some training_accepted /\ report_ok r d
  | _ => False
  end.

(** The one event a lease may have. *)
Lemma life_event c id v e : life c id v -> e ∈ v_events v -> v_events v = [e] /\ exists r, v_group v = Some r /\ er_hotkey e = gr_hotkey r /\
  (payable e = true -> entitled c r (er_detail e)).
Proof.
  unfold life. destruct (v_group v) as [r|]; [|intros (-> & _) H; by apply not_elem_of_nil in H].
  assert (forall st, gr_audit r = Some st -> st <> PENDING -> gr_verdict r <> graded_group IN_ZONE -> gr_verdict r <> rejected_group ->
    scan_concluded c id r st (v_events v) -> e ∈ v_events v ->
    v_events v = [e] /\ exists r', Some r = Some r' /\ er_hotkey e = gr_hotkey r' /\ (payable e = true -> entitled c r' (er_detail e))) as Hscan.
  { intros st Ha Hp Hz Hj. unfold scan_concluded. destruct (gr_first_scan r) eqn:Ef; [|intros -> H; by apply not_elem_of_nil in H].
    intros (t & ->) ->%list_elem_of_singleton. split; [done|]. exists r. split_and!; [done|done|]. cbn. unfold scan_detail.
    destruct (bool_decide _ && _) eqn:E; [|done]. apply andb_true_iff in E as [Hst%bool_decide_eq_true Hmin%Z.leb_le]. intros _.
    split_and!; try done. rewrite Ha. by destruct Hst as [-> | ->]. }
  destruct (gr_verdict r) as [|[]] eqn:Ev.
  - intros (_ & _ & -> & _) H. by apply not_elem_of_nil in H.
  - intros (_ & _ & H). unfold training_life in H. destruct (gr_training r) as [[]|] eqn:Et; [| | |done].
    + destruct H as [-> _]. intros H. by apply not_elem_of_nil in H.
    + destruct H as (_ & t & d & -> & Hd). intros ->%list_elem_of_singleton. split; [done|]. exists r. by split_and!.
    + destruct H as (_ & t & d & cl & -> & Hd). intros ->%list_elem_of_singleton. split; [done|]. exists r. by split_and!.
  - intros (_ & _ & H). unfold audit_life in H. destruct (gr_audit r) as [[]|] eqn:Ea; try done;
      [|destruct H as [-> _]; intros H; by apply not_elem_of_nil in H|..]; destruct H as [_ H]; by eapply Hscan.
  - intros (_ & _ & H). unfold audit_life in H. destruct (gr_audit r) as [[]|] eqn:Ea; try done;
      [|destruct H as [-> _]; intros H; by apply not_elem_of_nil in H|..]; destruct H as [_ H]; by eapply Hscan.
  - intros (_ & _ & H). unfold audit_life in H. destruct (gr_audit r) as [[]|] eqn:Ea; try done;
      [|destruct H as [-> _]; intros H; by apply not_elem_of_nil in H|..]; destruct H as [_ H]; by eapply Hscan.
Qed.

Lemma payable_about id e : er_lease e = id -> payable e = true -> about id e = true.
Proof. intros <-. unfold payable, about. rewrite String.eqb_refl. by destruct (er_detail e). Qed.

(** The event log holds at most one payable event of a lease. *)
Lemma payable_unique c s e e' : all_life c s -> e ∈ events s -> e' ∈ events s -> payable e = true -> payable e' = true -> er_lease e' = er_lease e ->
  events_of (er_lease e) s = [e] /\ e' = e.
Proof.
  intros Hs He He' Hp Hp' Hl.
  assert (forall x, x ∈ events s -> payable x = true -> er_lease x = er_lease e -> events_of (er_lease e) s = [x]) as H.
  { intros x Hx Hpx Hlx. apply (life_event c (er_lease e) (view_of s (er_lease e)) x (Hs _)). apply list_elem_of_filter. split; [|done]. by apply payable_about. }
  pose proof (H e He Hp eq_refl) as E. pose proof (H e' He' Hp' Hl) as E'. split; [done|]. rewrite E in E'. by injection E'.
Qed.

(** A lease is paid at most once, and only for what it delivered.  The log holds
    at most one payable event about a lease; its hotkey is the one the group is
    recorded for; a trained event stands for an in-zone group the trainer accepted,
    with matched counts no larger than the model tokens; a first-scan event stands for
    a graded first scan out of zone, with enough tokens, that was not drawn for audit
    or passed it, and pays the configured fraction. *)
Theorem lease_paid_once (cfg : book_config) (qcfg : quota_config) (scan : gmap string lease_row -> list (string * lease_row)) (scfg : submit_config)
    (s : submissions) (e : event_row) :
  rtc (submit_step cfg qcfg scan scfg) empty_submissions s -> e ∈ events s -> payable e = true ->
  (forall e', e' ∈ events s -> payable e' = true -> er_lease e' = er_lease e -> e' = e) /\
  length (filter (fun e' => payable e' = true /\ er_lease e' = er_lease e) (events s)) = 1%nat /\
  exists r, groups s !! er_lease e = Some r /\ gr_hotkey r = er_hotkey e /\ entitled scfg r (er_detail e).
Proof.
  intros Hs%reachable_life He Hp. destruct (payable_unique scfg s e e Hs He He Hp Hp eq_refl) as [Hev _]. split_and!.
  - intros e' He' Hp' Hl. by eapply payable_unique.
  - trans (length (filter (fun e' => payable e' = true) (events_of (er_lease e) s))).
    + unfold events_of. rewrite list_filter_filter. f_equal. apply list_filter_iff. intros x. split; [intros [Hx El]; split; [done|by apply payable_about]|].
      intros [Hx Ha]. split; [done|]. unfold about in Ha. by apply andb_true_iff in Ha as [Ha%String.eqb_eq _].
    + rewrite Hev, filter_cons_True by done. done.
  - destruct (life_event scfg (er_lease e) (view_of s (er_lease e)) e (Hs _)) as (_ & r & Hr & Hh & Hent); [cbn; rewrite Hev; by constructor|].
    exists r. split_and!; [exact Hr|done|by apply Hent].
Qed.

(** C20: a resend is idempotent.  Once a submission has been answered, the holder that
    sends the lease again, with any well-formed rollouts, at any later time and after
    any other calls, gets the same verdict, reason and rewards (those of a graded
    group), flagged as resent, and the state does not move; any other hotkey is
    refused.  The first group is the one that counts. *)
Theorem resend_same_answer (cfg : book_config) (qcfg : quota_config) (scan : gmap string lease_row -> list (string * lease_row)) (scfg : submit_config)
    sandbox cooldown_of grade id hk rs t draw (s s1 s2 : submissions) (a : answer) :
  rtc (submit_step cfg qcfg scan scfg) empty_submissions s ->
  submit_group cfg qcfg scan sandbox cooldown_of scfg grade id hk rs t draw s = (Ok a, s1) ->
  rtc (submit_step cfg qcfg scan scfg) s1 s2 ->
  forall sandbox' cooldown_of' grade' rs' t' draw',
    Z.of_nat (length rs') = rollouts_per_group scfg -> Forall (fun r => tokens r <> []) rs' ->
    (exists rewards, submit_group cfg qcfg scan sandbox' cooldown_of' scfg grade' id hk rs' t' draw' s2
       = (Ok (Answer (ans_verdict a) rewards (ans_reason a) true), s2) /\ (ans_verdict a <> rejected_group -> rewards = ans_rewards a)) /\
    forall hk', hk' <> hk -> submit_group cfg qcfg scan sandbox' cooldown_of' scfg grade' id hk' rs' t' draw' s2 = (Raise PermissionError, s2).
Proof.
  intros Hs Hsub Hrun sandbox' cooldown_of' grade' rs' t' draw' Hlen Hne. pose proof (reachable_life _ _ _ _ _ Hs) as Hl.
  destruct (submit_group_row cfg qcfg scan scfg _ _ _ _ _ _ _ _ _ _ _ Hl Hsub) as (r & Hr & H1 & H2 & H3 & H4).
  pose proof (submit_group_run cfg qcfg scan scfg sandbox cooldown_of grade id hk rs t draw s) as Hrun1. rewrite Hsub in Hrun1. cbn in Hrun1.
  destruct (run_answers cfg qcfg scan scfg s1 s2 id r (run_life _ _ _ _ _ _ Hl Hrun1) Hrun Hr) as (r2 & Hr2 & A1 & A2 & A3 & A4).
  assert (existsb (fun r => bool_decide (tokens r = [])) rs' = false) as Hex.
  { apply not_true_iff_false. intros (x & Hx%list_elem_of_In & Ht%bool_decide_eq_true)%existsb_exists. by eapply Forall_forall in Hne. }
  unfold submit_group, graded_answer. rewrite Hlen, Z.eqb_refl, Hex, Hr2. cbn [negb orb]. rewrite A1, H1. split.
  - rewrite String.eqb_refl, A2, H2, A4, H3, A3. eexists. split; [done|]. exact H4.
  - intros hk' Hhk. assert (String.eqb hk hk' = false) as -> by (apply String.eqb_neq; congruence). done.
Qed.

(** A failure is never forgotten early.  When an audit fails, or is inconclusive by
    the group's own fault, its hotkey is in probation, and remains in it, whatever
    happens, as long as fewer than the configured number of its audits have passed
    since. *)
Theorem failure_reopens_probation (cfg : book_config) (qcfg : quota_config) (scan : gmap string lease_row -> list (string * lease_row))
    (scfg : submit_config) id res now (a : audit_row) (s s1 s2 : submissions) :
  audits s !! id = Some a -> passed res <> Some true -> (passed res = None -> suspect res = true) ->
  report_audit qcfg scfg id res now s = (Ok tt, s1) -> rtc (submit_step cfg qcfg scan scfg) s1 s2 ->
  exists new, verdicts s2 = verdicts s1 ++ new /\ (passes (au_hotkey a) new < reprobation_passes scfg -> in_probation scfg (au_hotkey a) s2 = true).
Proof.
  intros Ha Hp Hsus Hrep Hrun. destruct (run_verdicts _ _ _ _ _ _ Hrun) as (new & Hnew). exists new. split; [done|]. intros Hlt.
  apply transaction_ok in Hrep. unfold conclude_audit in Hrep. rewrite Ha in Hrep. destruct (groups s !! id) as [g|]; [|done].
  destruct (au_body a) as [body|]; [|done]. apply bind_m_ok in Hrep as ([] & s3 & Hv & Hrest). cbv zeta in Hrest.
  assert (exists v, s3 = add_verdict v s /\ is_failure (au_hotkey a) v = true) as (v & -> & Hf).
  { destruct (passed res) as [ok|].
    - destruct ok; [done|]. unfold log_verdict in Hv. destruct (_ && _); [done|]. injection Hv as <-. eexists. split; [done|].
      unfold is_failure. cbn. by rewrite !bool_decide_true by auto.
    - rewrite (Hsus eq_refl) in Hv. injection Hv as <-. eexists. split; [done|]. unfold is_failure. cbn. by rewrite !bool_decide_true by auto. }
  assert (verdicts s1 = verdicts s ++ [v]) as Hs1.
  { apply bind_m_ok in Hrest as ([] & s4 & [= <-] & Hrest). destruct (gr_first_scan g).
    - edestruct note_first_scan_ok as (b & E). rewrite E in Hrest. by injection Hrest as <-.
    - by injection Hrest as <-. }
  eapply (failure_probation scfg _ s2 (verdicts s) v new); [|done|done]. by rewrite Hnew, Hs1, <- app_assoc.
Qed.

(** C23: the audit queue drains.  Whatever the forwards do, raise or answer, provided
    a failure has a class, a run with room for the whole queue never raises, and after
    [n] successive runs an audit that is still open was open before and has failed [n]
    times more.  After [k] runs, [k] being the bound on the attempts, none of them is
    open: one poison group cannot stall the queue. *)
Theorem audit_queue_drains (cfg : book_config) (qcfg : quota_config) (scan : gmap string lease_row -> list (string * lease_row)) (scfg : submit_config)
    (scan_audits : gmap string audit_row -> list (string * audit_row)) (forward : RlBuffer.group -> option audit_result) (s : submissions)
    (limit k now : Z) (n : nat) :
  rtc (submit_step cfg qcfg scan scfg) empty_submissions s ->
  (forall m, scan_audits m ≡ₚ map_to_list m) -> (forall g res, forward g = Some res -> valid_result res) -> Z.of_nat (size (audits s)) <= limit ->
  (exists done_ s', run_audits qcfg scfg scan_audits forward limit k now s = (Ok done_, s')) /\
  (forall id g a', open_audit (run_audits_times qcfg scfg forward scan_audits n limit k now s) id g a' ->
     exists a, open_audit s id g a /\ au_attempts a' = au_attempts a + Z.of_nat n) /\
  (n <> 0%nat -> k <= Z.of_nat n -> forall id g a', ~ open_audit (run_audits_times qcfg scfg forward scan_audits n limit k now s) id g a').
Proof.
  intros Hreach Hscan Hf Hlim. pose proof (reachable_life _ _ _ _ _ Hreach) as Hs.
  pose proof (run_times_sweep cfg qcfg scan scfg forward Hf scan_audits Hscan n limit k now s Hs Hlim) as Hsw. split_and!.
  - destruct (run_audits_sweeps cfg qcfg scan scfg forward Hf scan_audits Hscan limit k now s Hs) as (m & s' & E & _). by exists m, s'.
  - intros id g a' Ho. destruct (Hsw id g a' Ho) as (a & Ha & E & _). by exists a.
  - intros Hn Hk id g a' Ho. destruct (Hsw id g a' Ho) as (a & [Ha _] & E & Hlt). pose proof (reachable_attempts _ _ _ _ _ Hreach id a Ha). specialize (Hlt Hn). lia.
Qed.

(** *** One group of the lease of the previous scenario *)

Definition w_granted : book :=
  (grant w_config w_qcfg map_to_list (fun _ => None) (fun n => w_token (S n)) (fun l => l) [] ∅ w_requests (of_int 2) w_adopted).2.
Definition w_start : submissions := set_book w_granted empty_submissions.
Definition w_rollouts : list rollout := [Rollout [1; 2] None None; Rollout [3] None None].
Definition w_graded : graded := Graded [4] [0; 0] [false; false] None None.
(** No audit is drawn, or every one. *)
Definition w_free : submit_config := SubmitConfig 0 0 0 1 (flit 1 4) 1 2 8.
Definition w_drawn : submit_config := SubmitConfig fone fone 0 1 (flit 1 4) 1 2 8.

Definition w_submitted (c : submit_config) : result answer * submissions :=
  submit_group w_config w_qcfg map_to_list (fun _ => None) (fun _ => Ok 3) c (fun _ _ _ => Ok w_graded) "a" "alice" w_rollouts (of_int 3) 0 w_start.

Lemma w_start_reachable c : rtc (submit_step w_config w_qcfg map_to_list c) empty_submissions w_start.
Proof.
  eapply rtc_l; [apply (call_book w_config w_qcfg map_to_list c w_adopted empty_submissions), step_adopt; reflexivity|].
  apply rtc_once. apply (call_book w_config w_qcfg map_to_list c w_granted (set_book w_adopted empty_submissions)). apply step_grant.
  - intros n m H. apply w_token_inj in H. congruence.
  - intros l. reflexivity.
  - intros n. apply w_no_leases.
  - apply w_requests_good.
Qed.

Lemma w_submitted_reachable c : rtc (submit_step w_config w_qcfg map_to_list c) empty_submissions (w_submitted c).2.
Proof. etrans; [apply w_start_reachable|apply submit_group_run]. Qed.

(** Too hard, not drawn, and payable at once. *)
Lemma w_free_facts : match w_submitted w_free with
  | (Ok a, s) => bool_decide (ans_verdict a = graded_group TOO_HARD) && (length (events s) =? 1)%nat
                 && forallb (fun e => payable e && String.eqb (er_lease e) "a" && String.eqb (er_hotkey e) "alice") (events s)
  | (Raise _, _) => false
  end = true.
Proof. vm_compute. reflexivity. Qed.

(** Drawn for audit, with its tokens kept. *)
Lemma w_drawn_facts : (let s := (w_submitted w_drawn).2 in
  (size (audits s) =? 1)%nat && match audits s !! "a"%string with Some a => String.eqb (au_hotkey a) "alice" && bool_decide (is_Some (au_body a)) | None => false end) = true.
Proof. vm_compute. reflexivity. Qed.

Lemma groups_accounted_witness : life w_free "a" (view_of (w_submitted w_free).2 "a").
Proof. apply (groups_accounted w_config w_qcfg map_to_list w_free (w_submitted w_free).2 "a"). apply w_submitted_reachable. Defined.

Lemma lease_paid_once_witness : exists e, events (w_submitted w_free).2 = [e] /\ payable e = true /\
  exists r, groups (w_submitted w_free).2 !! "a"%string = Some r /\ gr_hotkey r = "alice"%string.
Proof.
  pose proof w_free_facts as H. pose proof (w_submitted_reachable w_free) as Hreach. destruct (w_submitted w_free) as [[a|] s]; [|discriminate H]. cbn [snd] in *.
  apply andb_true_iff in H as [[_ Hl%Nat.eqb_eq]%andb_true_iff He]. destruct (events s) as [|e [|]] eqn:Ev; [discriminate Hl| |discriminate Hl].
  cbn [forallb] in He. rewrite andb_true_r in He. apply andb_true_iff in He as [[Hp El%String.eqb_eq]%andb_true_iff Eh%String.eqb_eq].
  exists e. split_and!; [reflexivity|exact Hp|].
  destruct (lease_paid_once w_config w_qcfg map_to_list w_free s e Hreach) as (_ & _ & r & Hr & Hh & _); [rewrite Ev; constructor|exact Hp|].
  exists r. rewrite <- El, <- Eh. exact (conj Hr Hh).
Defined.

Lemma resend_same_answer_witness : exists a s1,
  w_submitted w_free = (Ok a, s1) /\ ans_verdict a = graded_group TOO_HARD /\
  submit_group w_config w_qcfg map_to_list (fun _ => None) (fun _ => Ok 3) w_free (fun _ _ _ => Ok w_graded) "a" "alice" w_rollouts (of_int 4) 0 s1
    = (Ok (Answer (ans_verdict a) (ans_rewards a) (ans_reason a) true), s1).
Proof.
  pose proof w_free_facts as H. destruct (w_submitted w_free) as [[a|] s1] eqn:E; [|discriminate H].
  apply andb_true_iff in H as [[Hv%bool_decide_eq_true _]%andb_true_iff _]. exists a, s1. split_and!; [reflexivity|exact Hv|].
  destruct (resend_same_answer w_config w_qcfg map_to_list w_free _ _ _ _ _ _ _ _ w_start s1 s1 a (w_start_reachable w_free) E (rtc_refl _ s1)
    (fun _ => None) (fun _ => Ok 3) (fun _ _ _ => Ok w_graded) w_rollouts (of_int 4) 0) as [(rewards & E2 & Hr) _].
  - reflexivity.
  - repeat constructor; discriminate.
  - rewrite E2, Hr; [reflexivity|]. rewrite Hv. discriminate.
Defined.

Definition w_failed : audit_result := AuditResult (Some false) (Some "statistical"%string) false.

Lemma w_failed_valid : valid_result w_failed.
Proof. intros _. exists "statistical"%string. split; [reflexivity|]. apply (bool_decide_unpack _). reflexivity. Qed.

Lemma failure_reopens_probation_witness :
  exists s1, report_audit w_qcfg w_drawn "a" w_failed (of_int 5) (w_submitted w_drawn).2 = (Ok tt, s1) /\ in_probation w_drawn "alice" s1 = true.
Proof.
  pose proof w_drawn_facts as H. pose proof (w_submitted_reachable w_drawn) as Hreach. cbv zeta in H. set (s := (w_submitted w_drawn).2) in *. clearbody s.
  apply andb_true_iff in H as [_ H]. destruct (audits s !! "a"%string) as [a|] eqn:Ea; [|discriminate H].
  apply andb_true_iff in H as [Eh%String.eqb_eq [g Hg]%bool_decide_eq_true].
  destruct (report_succeeds w_qcfg w_drawn "a" w_failed (of_int 5) s g a (reachable_life _ _ _ _ _ Hreach) (conj Ea Hg) w_failed_valid) as (s1 & lag & E & _).
  exists s1. split; [exact E|].
  destruct (failure_reopens_probation w_config w_qcfg map_to_list w_drawn "a" w_failed (of_int 5) a s s1 s1 Ea) as (new & En & Hp).
  - discriminate.
  - discriminate.
  - exact E.
  - apply rtc_refl.
  - rewrite <- Eh. apply Hp. rewrite <- (app_nil_r (verdicts s1)) in En at 1. apply app_inv_head in En as <-. reflexivity.
Defined.

Lemma audit_queue_drains_witness : size (audits (w_submitted w_drawn).2) = 1%nat /\ forall id g a, ~ open_audit
  (run_audits_times w_qcfg w_drawn (fun _ => None) map_to_list 3 1 3 (of_int 5) (w_submitted w_drawn).2) id g a.
Proof.
  pose proof w_drawn_facts as H. apply andb_true_iff in H as [Hsize%Nat.eqb_eq _]. split; [exact Hsize|].
  apply (audit_queue_drains w_config w_qcfg map_to_list w_drawn map_to_list (fun _ => None) (w_submitted w_drawn).2 1 3 (of_int 5) 3).
  - apply w_submitted_reachable.
  - intros m. reflexivity.
  - discriminate.
  - rewrite Hsize. lia.
  - discriminate.
  - lia.
Defined.

(** A recording that raises leaves the lease open in the tables, and its slot freed in
    the memory of the quota. *)
Lemma failed_record_frees_slot :
  (let b := s_book (submit_group w_config w_qcfg map_to_list (fun _ => None) (fun _ => Raise RuntimeError) w_free (fun _ _ _ => Ok w_graded)
                      "a" "alice" w_rollouts (of_int 3) 0 w_start).2 in
   (quota_in_use "alice" (quotas b) =? 1) && (in_use_of map_to_list "alice" b =? 2)) = true.
Proof. vm_compute. reflexivity. Qed.
