(* ===== verification/RlCooldown.v ===== *)
(** * RlCooldown: cooldowns sized from the run, and each environment's share of a batch

    Models [validator/rl_cooldown.py] ([AdaptiveCooldown], the [cooldown_of] of the lease book)
    and [validator/rl_env_shares.py] ([EnvGroupCaps], the lane maxima of the book and the caps
    of a take).

    Both read the tables of the lease book and cache what they read.  The clock's reading is an
    argument of each call; the book is [None] before [attach].  Checkpoints are counted in
    integers Python converts to floats, so the arithmetic on them is that of [PyFloat].
    [snapshot] only feeds metrics. *)

From S2P Require Import Prelude PyFloat Bytes RlQuota RlBuffer RlLeases RlSubmit PromptRows.

#[local] Open Scope Z_scope.

(** ** Adaptive cooldowns *)

Definition COOLDOWN_PARAM : string := "rl_cooldown_k".

Record cooldown_params := CooldownParams {
  margin : float; floor : Z; ceiling : Z; initial : Z;
  min_first_scans : Z; first_scan_window : Z; checkpoint_window : Z; refresh_s : float }.

Definition default_params : cooldown_params := CooldownParams (flit 1 2) 4 1000 20 200 2000 50 (of_int 60).

(** [__post_init__] *)
Definition valid_params (p : cooldown_params) : bool :=
  (0 <? margin p) && (margin p <=? fone)
  && (0 <=? floor p) && (floor p <=? initial p) && (initial p <=? ceiling p)
  && (1 <=? Z.min (min_first_scans p) (Z.min (first_scan_window p) (checkpoint_window p))) && (0 <=? refresh_s p).

(** [cooldown_overrides]: the keys of a JSON object are strings already. *)
Definition cooldown_overrides (params : list (string * pyval)) : result (list (string * Z)) :=
  let raw := dict_get COOLDOWN_PARAM params in
  match (if py_truth raw then raw else VDict []) with
  | VDict d => mapM (fun kv => match kv.2 with VInt k => if k <? 0 then Raise ValueError else Ok (kv.1, k) | _ => Raise ValueError end) d
  | _ => Raise ValueError
  end.

Inductive source := Override | Initial | Measured.

(** The dict [state] returns; a key it lacks is [None]. *)
Record reading := Reading { cooldown : Z; from : source; n_of : option Z; p_of : option float; q_of : option float; first_scans : option Z }.

(** [round(x)] of a float. *)
Definition fround_int (x : float) : Z := rdiv_even x fone.

Section cooldown.
Context (prompt_range : gmap string (Z * Z + rows)) (overrides : list (string * Z)) (p : cooldown_params).

(** The scans of an environment that satisfy [P], newest first. *)
Definition scans_of (env : string) (P : scan_row -> bool) (b : book) : list scan_row :=
  (isort (fun x y : Z * scan_row => y.1 <=? x.1) (filter (fun s : Z * scan_row => bool_decide (scan_env s.2 = env) && P s.2 = true) (map_to_list (scans b)))).*2.

Definition is_in_zone (s : scan_row) : bool := bool_decide (scan_verdict s = IN_ZONE).

(** [_measure] *)
Definition measure (attached : option book) (env : string) : result reading :=
  n ← match prompt_range !! env with
      | None => Ok None
      | Some span => r ← rows_of span; Ok (Some (rows_len r))
      end;
  let start := Reading (initial p) Initial n None None None in
  match attached, n with
  | None, _ | _, None | _, Some 0 => Ok start
  | Some b, Some n =>
      let blacklisted := Z.of_nat (length (filter (fun kr : (string * Z) * prompt_row => kr.1.1 = env /\ mode kr.2 = BLACKLIST) (map_to_list (prompts b)))) in
      let n := Z.max 1 (n - blacklisted) in
      let firsts := take (Z.to_nat (first_scan_window p)) (scans_of env first_scan b) in
      let few := Reading (initial p) Initial (Some n) None None (Some (Z.of_nat (length firsts))) in
      match latest b with
      | None => Ok few
      | Some latest =>
          if Z.of_nat (length firsts) <? min_first_scans p then Ok few
          else
            let share := fdiv (of_int (Z.of_nat (length (filter (fun s => is_in_zone s = true) firsts)))) (of_int (Z.of_nat (length firsts))) in
            let since := Z.max 0 (latest - checkpoint_window p) in
            let in_zone := Z.of_nat (length (scans_of env (fun s => is_in_zone s && (since <? scan_k s)) b)) in
            let q := fdiv (of_int in_zone) (of_int (Z.max 1 (latest - since))) in
            if (share <=? 0) || (q <=? 0) then Ok (Reading (initial p) Initial (Some n) (Some share) (Some q) None)
            else
              let c := fround_int (fmul (fdiv (fmul (of_int n) share) q) (margin p)) in
              Ok (Reading (Z.min (ceiling p) (Z.max (floor p) c)) Measured (Some n) (Some share) (Some q) None)
      end
  end.

(** [self._cache] *)
Definition cache : Type := gmap string (float * reading).

(** [state] *)
Definition state (attached : option book) (now : float) (env : string) : method cache reading := fun c =>
  match assoc env overrides with
  | Some k => (Ok (Reading k Override None None None None), c)
  | None =>
      match c !! env with
      | Some (at_, r) =>
          if fsub now at_ <? refresh_s p then (Ok r, c)
          else match measure attached env with Ok r => (Ok r, <[env := (now, r)]> c) | Raise e => (Raise e, c) end
      | None => match measure attached env with Ok r => (Ok r, <[env := (now, r)]> c) | Raise e => (Raise e, c) end
      end
  end.

(** [__call__] *)
Definition adaptive (attached : option book) (now : float) (c : cache) (env : string) : result Z :=
  cooldown <$> (state attached now env c).1.

(** ** What a cooldown is *)

Definition highest : Z := foldr Z.max (ceiling p) overrides.*2.

Definition reading_ok (r : reading) : Prop :=
  match from r with
  | Override => exists env, assoc env overrides = Some (cooldown r)
  | Initial => cooldown r = initial p
  | Measured => floor p <= cooldown r <= ceiling p
  end.

Hypothesis Hvalid : valid_params p = true.
Hypothesis Hoverrides : Forall (fun kv : string * Z => 0 <= kv.2) overrides.

Lemma measure_ok attached env r : measure attached env = Ok r -> reading_ok r /\ from r <> Override.
Proof.
  unfold measure. intros (n & _ & H)%bind_ok_inv. cbv zeta in H. unfold reading_ok.
  pose proof Hvalid as V. unfold valid_params in V. split_andb V.
  assert (forall c, floor p <= Z.min (ceiling p) (Z.max (floor p) c) <= ceiling p) as Hclamp by lia.
  repeat case_match; simplify_eq; cbn in *; (split; [first [done|apply Hclamp]|done]).
Qed.

Definition cache_ok (c : cache) : Prop := forall env at_ r, c !! env = Some (at_, r) -> reading_ok r.

Lemma state_ok attached now env c : cache_ok c -> cache_ok (state attached now env c).2 /\ forall r, (state attached now env c).1 = Ok r -> reading_ok r.
Proof.
  intros Hc. unfold state. destruct (assoc env overrides) as [k|] eqn:Ek.
  { split; [done|]. intros r [= <-]. unfold reading_ok. cbn. eauto. }
  assert (let x := match measure attached env with Ok r => (Ok r, <[env := (now, r)]> c) | Raise e => (Raise e, c) end in
    cache_ok x.2 /\ forall r, x.1 = Ok r -> reading_ok r) as Hm.
  { cbv zeta. destruct (measure attached env) as [r|e] eqn:E; [|done]. apply measure_ok in E as [E _]. split; [|by intros ? [= <-]].
    intros e a r'. cbn. intros [[<- [= <- <-]]|[_ H]]%lookup_insert_Some; [done|by eapply Hc]. }
  destruct (c !! env) as [[a r]|] eqn:Ec; [|exact Hm]. destruct (fsub now a <? refresh_s p); [|exact Hm].
  split; [done|]. intros r' [= <-]. by eapply Hc.
Qed.

Lemma assoc_in {A} name (l : list (string * A)) x : assoc name l = Some x -> (name, x) ∈ l.
Proof.
  unfold assoc. destruct (List.find _ l) as [[k y]|] eqn:E; [|done]. intros [= <-]. apply find_some in E as [Hin E].
  apply String.eqb_eq in E as <-. by apply list_elem_of_In.
Qed.

Lemma highest_bound k l m : k ∈ l -> k <= foldr Z.max m l.
Proof. induction l as [|x l IH]; [by intros ?%not_elem_of_nil|]. intros [->|Hk]%elem_of_cons; cbn; [lia|]. specialize (IH Hk). lia. Qed.
Lemma highest_start l m : m <= foldr Z.max m l.
Proof. induction l as [|x l IH]; cbn; lia. Qed.

Lemma reading_bounds r : reading_ok r -> 0 <= cooldown r <= highest.
Proof.
  pose proof Hvalid as V. unfold valid_params in V. split_andb V. pose proof (highest_start overrides.*2 (ceiling p)) as Hs. fold highest in Hs.
  unfold reading_ok. destruct (from r); [|lia|lia]. intros (env & Ha%assoc_in). split.
  - by apply (proj1 (Forall_forall _ _) Hoverrides (env, cooldown r)).
  - apply highest_bound, list_elem_of_fmap. by exists (env, cooldown r).
Qed.
End cooldown.

(** ** Calls, one after the other *)

Section calls.
Context (prompt_range : gmap string (Z * Z + rows)) (overrides : list (string * Z)) (p : cooldown_params).
Notation state := (state prompt_range overrides p).
Notation measure := (measure prompt_range p).

(** The book attached when it comes, the clock and the environment asked for. *)
Definition call : Type := option book * float * string.

Fixpoint run (calls : list call) (c : cache) : list (result reading) * cache :=
  match calls with
  | [] => ([], c)
  | (attached, now, env) :: calls =>
      let '(r, c) := state attached now env c in
      let '(rs, c) := run calls c in (r :: rs, c)
  end.

Lemma run_app l1 l2 c : run (l1 ++ l2) c = let '(a, c1) := run l1 c in let '(b, c2) := run l2 c1 in (a ++ b, c2).
Proof.
  revert c. induction l1 as [|[[a t] e] l1 IH]; intros c; cbn; [by destruct (run l2 c)|]. destruct (state a t e c) as [r c1]. rewrite IH.
  destruct (run l1 c1) as [x c2]. by destruct (run l2 c2).
Qed.

Lemma run_length l c : length (run l c).1 = length l.
Proof. revert c. induction l as [|[[a t] e] l IH]; intros c; cbn; [done|]. destruct (state a t e c) as [r c1]. specialize (IH c1). destruct (run l c1). cbn in *. by rewrite IH. Qed.

(** Where a reading of [env] in the cache comes from. *)
Definition read_by (calls : list call) (env : string) (at_ : float) (r : reading) : Prop :=
  exists j attached, calls !! j = Some (attached, at_, env) /\ measure attached env = Ok r.
Definition cache_of (calls : list call) (c : cache) : Prop :=
  forall env at_ r, c !! env = Some (at_, r) -> assoc env overrides = None /\ read_by calls env at_ r.

Lemma read_by_app calls more env at_ r : read_by calls env at_ r -> read_by (calls ++ more) env at_ r.
Proof. intros (j & a & Hj & Hm). exists j, a. split; [|done]. by apply lookup_app_l_Some. Qed.

(** One call after [calls]. *)
Lemma state_read calls attached now env c : cache_of calls c ->
  let x := state attached now env c in
  cache_of (calls ++ [(attached, now, env)]) x.2 /\
  match assoc env overrides with
  | Some k => x.1 = Ok (Reading k Override None None None None)
  | None => x.1 = measure attached env \/ exists at_ r, x.1 = Ok r /\ fsub now at_ < refresh_s p /\ read_by calls env at_ r
  end.
Proof.
  intros Hc. cbv zeta. assert (cache_of (calls ++ [(attached, now, env)]) c) as Hc'.
  { intros e a r Her. destruct (Hc e a r Her) as [? ?]. split; [done|]. by apply read_by_app. }
  unfold RlCooldown.state. destruct (assoc env overrides) as [k|] eqn:Ek; [done|].
  assert (let x := match measure attached env with Ok r => (Ok r, <[env := (now, r)]> c) | Raise e => (Raise e, c) end in
    cache_of (calls ++ [(attached, now, env)]) x.2 /\ x.1 = measure attached env) as Hm.
  { cbv zeta. destruct (measure attached env) as [r|e] eqn:Em; [|done]. split; [|done].
    intros e a r'. cbn. intros [[<- [= <- <-]]|[_ He]]%lookup_insert_Some; [|by apply Hc'].
    split; [done|]. exists (length calls), attached. split; [|done]. by apply list_lookup_middle. }
  destruct (c !! env) as [[a r]|] eqn:Ec; [|destruct Hm; split; [done|by left]].
  destruct (Z.ltb_spec (fsub now a) (refresh_s p)); [|destruct Hm; split; [done|by left]].
  split; [done|]. right. exists a, r. split_and!; [done|done|]. by apply Hc in Ec as [_ ?].
Qed.

Lemma run_cache calls : cache_of calls (run calls ∅).2.
Proof.
  induction calls as [|[[a t] e] calls IH] using rev_ind; [intros env at_ r; cbn; by intros ?%(lookup_empty_Some (M:=gmap string))|].
  rewrite run_app. destruct (run calls ∅) as [rs c]. cbn in *. destruct (state_read calls a t e c IH) as [H _].
  by destruct (state a t e c).
Qed.

(** A cooldown is current and within bounds.  In any sequence of calls, an answer is an
    operator's override where there is one; else it is what the tables of the book gave at that
    call, or at an earlier call for the same environment less than [refresh_s] before.  It is
    never negative nor above [highest], a measured one lies between floor and ceiling, and a
    call fails only where the environment's rows are unreadable. *)
Theorem cooldown_readings (calls : list call) (i : nat) (attached : option book) (now : float) (env : string) (x : result reading) :
  valid_params p = true -> Forall (fun kv : string * Z => 0 <= kv.2) overrides ->
  calls !! i = Some (attached, now, env) -> (run calls ∅).1 !! i = Some x ->
  match x with
  | Ok r =>
      0 <= cooldown r <= highest overrides p /\ (from r = Measured -> floor p <= cooldown r <= ceiling p) /\
      match assoc env overrides with
      | Some k => cooldown r = k /\ from r = Override
      | None => measure attached env = Ok r \/
          exists j attached' before, (j < i)%nat /\ calls !! j = Some (attached', before, env) /\ measure attached' env = Ok r /\ fsub now before < refresh_s p
      end
  | Raise e => exists span, prompt_range !! env = Some span /\ rows_of span = Raise e
  end.
Proof.
  intros Hv Ho Hi Hx. rewrite <- (take_drop_middle calls i _ Hi) in Hx. rewrite run_app in Hx.
  pose proof (run_cache (take i calls)) as Hc. pose proof (run_length (take i calls) ∅) as Hlen. rewrite length_take in Hlen.
  apply lookup_lt_Some in Hi as Hlt. rewrite Nat.min_l in Hlen by (apply Nat.lt_le_incl, Hlt). destruct (run (take i calls) ∅) as [rs c]. cbn [run fst snd] in *.
  destruct (state_read _ attached now env c Hc) as [_ Hs]. cbv zeta in Hs. destruct (state attached now env c) as [y c1].
  destruct (run (drop (S i) calls) c1) as [rs' c2]. cbn [fst snd] in *. rewrite list_lookup_middle in Hx by done. injection Hx as ->.
  destruct (assoc env overrides) as [k|] eqn:Ek.
  { subst x. cbn [from]. split; [|done].
    apply (reading_bounds overrides p Hv Ho (Reading k Override None None None None)). by exists env. }
  assert (forall a r, measure a env = Ok r -> 0 <= cooldown r <= highest overrides p /\ (from r = Measured -> floor p <= cooldown r <= ceiling p)) as Hr.
  { intros a r [Hok _]%(measure_ok prompt_range overrides p Hv). split; [by apply reading_bounds|]. unfold reading_ok in Hok. by intros E; rewrite E in Hok. }
  destruct Hs as [->|(at_ & r & -> & Hf & j & a' & Hj & Hm)].
  - destruct (measure attached env) as [r|e] eqn:Em.
    + destruct (Hr _ _ Em). split; [done|]. split; [done|by left].
    + unfold RlCooldown.measure in Em. destruct (prompt_range !! env) as [span|] eqn:Es; cbn [mbind result_bind] in Em; [|by repeat case_match].
      destruct (rows_of span) as [?|e'] eqn:Er; cbn [mbind result_bind] in Em; [exfalso; cbv zeta in Em; repeat case_match; congruence|]. injection Em as ->. eauto.
  - destruct (Hr _ _ Hm). split; [done|]. split; [done|]. right. apply lookup_take_Some in Hj as [Hj Hlt']. exists j, a', at_. done.
Qed.
End calls.

(** ** The lease book under the schedule *)

Section schedule.
Context (cfg : book_config) (qcfg : quota_config) (scan : gmap string lease_row -> list (string * lease_row)).
Context (Hcfg : good_book_config cfg) (Hq : valid_quota qcfg = true) (Hscan : forall m, scan m ≡ₚ map_to_list m).
Context (prompt_range : gmap string (Z * Z + rows)) (overrides : list (string * Z)) (p : cooldown_params).
Context (Hvalid : valid_params p = true) (Hoverrides : Forall (fun kv : string * Z => 0 <= kv.2) overrides).

(** The [cooldown_of] of the book once [calls] were answered; the clock is read at each use. *)
Definition schedule (calls : list call) (attached : option book) (now : string -> float) (env : string) : result Z :=
  adaptive prompt_range overrides p attached (now env) (run prompt_range overrides p calls ∅).2 env.

(** The book's calls, each with the calls the schedule answered before it.  A scan is of a lease,
    whose checkpoint was adopted.  The other calls leave the prompts to the schedule. *)
Inductive scheduled_step : book -> book -> Prop :=
  | at_outcome calls attached now env q k rewards v t b : k <= default 0 (latest b) ->
      scheduled_step b (record_outcome cfg (schedule calls attached now) env q k rewards v t b).2
  | at_revise calls attached now b : scheduled_step b (revise_cooldowns cfg (schedule calls attached now) b).2
  | at_adopt calls attached now k fresh t b : length fresh = 32%nat ->
      scheduled_step b (adopt_checkpoint cfg (schedule calls attached now) k fresh t b).2
  | at_other b b' : book_step cfg qcfg scan b b' -> prompts b' = prompts b -> latest b' = latest b -> scheduled_step b b'.

(** *** Every call of the book is one of these *)

Definition quiet (b b' : book) : Prop := prompts b' = prompts b /\ latest b' = latest b.

Lemma quiet_trans b1 b2 b3 : quiet b1 b2 -> quiet b2 b3 -> quiet b1 b3.
Proof. intros [A1 A2] [B1 B2]. split; congruence. Qed.

Lemma expire_quiet sandbox now b : book_ok cfg qcfg b -> quiet b (expire cfg qcfg scan sandbox now b).
Proof. intros Hok. destruct (expire_ok cfg qcfg Hq scan Hscan sandbox now b Hok) as (_ & Hf & _). unfold closing_frame in Hf. split; apply Hf. Qed.

Lemma submittable_quiet sandbox id hk now b : book_ok cfg qcfg b -> quiet b (submittable cfg qcfg scan sandbox id hk now b).2.
Proof.
  intros Hok. pose proof (submittable_cases cfg qcfg scan sandbox id hk now b Hok) as H.
  destruct (submittable _ _ _ _ _ _ _ _) as [[l|e] b']; cbn [snd]; [by destruct H as [-> _]|]. destruct H as [-> | ->]; [done|by apply expire_quiet].
Qed.

Lemma note_downtime_quiet since now b : quiet b (note_downtime since now b).
Proof. unfold note_downtime. cbv zeta. by destruct (_ <=? _). Qed.

(** Rows the book wrote have a start, so a restart leaves them as they are. *)
Lemma restart_quiet now b : book_ok cfg qcfg b -> quiet b (restart qcfg scan now b).
Proof.
  intros Hok. unfold restart. cbv zeta. set (b0 := Book _ _ _ _ _ _ _ _ _ _ _ _ _ _).
  set (b1 := match alive b0 with Some t => _ | None => b0 end).
  assert (quiet b0 b1) as [E1 E2] by (unfold b1; destruct (alive b0); [apply note_downtime_quiet|done]).
  split; [|exact E2]. cbn [set_prompts prompts]. apply map_eq. intros key. cbn. rewrite lookup_fmap, E1. change (prompts b0) with (prompts b).
  destruct (prompts b !! key) as [r|] eqn:E; [|done]. cbn. f_equal. destruct (ok_prompts _ _ _ Hok key r E) as [_ Hr].
  unfold legacy_start. destruct (mode r); [|done]. by destruct Hr as (u & s & _ & -> & _).
Qed.

Lemma book_step_scheduled b b' : book_ok cfg qcfg b -> book_step cfg qcfg scan b b' ->
  quiet b b' \/
  (exists cooldown_of env q k rewards v t, b' = (record_outcome cfg cooldown_of env q k rewards v t b).2) \/
  (exists cooldown_of, b' = (revise_cooldowns cfg cooldown_of b).2) \/
  (exists cooldown_of k fresh t, b' = (adopt_checkpoint cfg cooldown_of k fresh t b).2).
Proof.
  intros Hok Hs. destruct Hs; [left|left|left|left|left|left|left|left|left|left|left|right; left; by repeat eexists|right; right; left; by eexists
    |right; right; right; by repeat eexists|left; done|left; done].
  - destruct (grant_ok cfg qcfg Hq scan Hscan sandbox token H buffered lane_max (proj2 Hcfg) requests now H2 shuffle b H0 H1 Hok) as (g & -> & Hg).
    cbn [snd]. destruct (gi_frame _ _ _ _ _ _ _ _ _ Hg) as (E1 & _ & E3 & _). by apply (quiet_trans _ _ _ (expire_quiet sandbox now b Hok)).
  - by apply expire_quiet.
  - unfold forfeit. destruct (leases b !! id); [|done]. cbv zeta. destruct (_ || _); [done|].
    destruct (close_unsubmitted _ _ _ _ _ _ _ _) as [s b'] eqn:E. cbn [snd]. apply (f_equal snd) in E. cbn in E. subst b'.
    pose proof (close_unsubmitted_frame cfg qcfg sandbox scan (row_lease l) now "forfeited" b) as Hf. unfold closing_frame in Hf. split; apply Hf.
  - unfold mark_alive. destruct (alive_at b); [destruct (_ && _)|]; try done. apply (note_downtime_quiet _ now b).
  - by apply restart_quiet.
  - by apply submittable_quiet.
  - unfold hold_submission, check_submission. pose proof (submittable_quiet sandbox id hk now b Hok) as H.
    by destruct (submittable _ _ _ _ _ _ _ _) as [[] ?].
  - done.
  - unfold submit. pose proof (submittable_quiet sandbox id hk now b Hok) as H. by destruct (submittable _ _ _ _ _ _ _ _) as [[] ?].
  - unfold credit. destruct (leases b !! id) as [r|]; [|done]. by destruct (RlLeases.state (row_lease r)), (closed_at r).
  - done.
Qed.

(** *** How long a prompt cools *)

Lemma schedule_bounds calls attached now env c : schedule calls attached now env = Ok c -> 0 <= c <= highest overrides p.
Proof.
  unfold schedule, adaptive. intros H. pose proof (run_cache prompt_range overrides p calls) as Hc.
  destruct (state_read prompt_range overrides p calls attached (now env) env _ Hc) as [_ Hs]. cbv zeta in Hs.
  destruct (RlCooldown.state _ _ _ _ _ _ _) as [[r|e] c1]; cbn in *; [|done]. injection H as <-.
  destruct (assoc env overrides) as [k|] eqn:Ek.
  - injection Hs as ->. apply (reading_bounds overrides p Hvalid Hoverrides (Reading k Override None None None None)). by exists env.
  - assert (exists a, measure prompt_range p a env = Ok r) as [a Ha] by (destruct Hs as [Hm|(t & r' & [= <-] & _ & j & a & _ & Hm)]; eauto).
    apply (reading_bounds overrides p Hvalid Hoverrides). by eapply measure_ok.
Qed.

Lemma readable_schedule calls attached now env c : readable_cooldown (schedule calls attached now) env = Some c -> 0 <= c <= highest overrides p.
Proof.
  unfold readable_cooldown. destruct (schedule _ _ _ _) as [x|] eqn:E; cbn; [|done]. destruct (u64 x); cbn; [|done]. intros [= <-]. by eapply schedule_bounds.
Qed.

(** Running cooldowns start at checkpoints the book has adopted and end within [highest]. *)
Definition cooling_ok (b : book) : Prop :=
  0 <= default 0 (latest b) /\
  forall key r, prompts b !! key = Some r -> mode r = COOLDOWN ->
    exists s u, start_k r = Some s /\ until_k r = Some u /\ s <= default 0 (latest b) /\ u <= s + highest overrides p.

Lemma cooling_revised b b' : cooling_ok b -> prompts_revised (prompts b) (prompts b') -> default 0 (latest b) <= default 0 (latest b') -> cooling_ok b'.
Proof.
  intros [H0 H] Hr Hle. split; [lia|]. intros key r' Hr' Hm. specialize (Hr key). rewrite Hr' in Hr.
  destruct (prompts b !! key) as [r|] eqn:E; [|done]. destruct Hr as (E1 & E2 & Hu).
  destruct (H key r E ltac:(congruence)) as (s & u & Es & Eu & Hs & Hsu). destruct Hu as [E3|(u1 & u2 & F1 & F2 & Hlt)].
  - exists s, u. split_and!; [congruence|congruence|lia|done].
  - exists s, u2. assert (u1 = u) by congruence. split_and!; [congruence|done|lia|lia].
Qed.

Lemma scheduled_step_ok b b' : book_ok cfg qcfg b /\ cooling_ok b -> scheduled_step b b' -> book_ok cfg qcfg b' /\ cooling_ok b'.
Proof.
  intros [Hok Hc] Hs. destruct Hs as [calls a now env q k rewards v t b Hk|calls a now b|calls a now k fresh t b Hlen|b b' Hs E1 E2].
  - split; [by apply record_outcome_ok|]. pose proof (record_outcome_cases cfg (schedule calls a now) env q k rewards v t b) as H.
    destruct (record_outcome _ _ _ _ _ _ _ _ _) as [[row|e] b']; cbn [snd]; [|by subst].
    destruct H as (c & m & until & start & _ & _ & Hread & Em & _ & ->). apply readable_schedule in Hread. destruct Hc as [H0 Hc].
    split; [done|]. intros key r. cbn. intros [[<- <-]|[Hne Hr]]%lookup_insert_Some; [|by apply (Hc key r)].
    cbn. intros ->. unfold next_mode in Em. cbv zeta in Em. destruct (_ || _) eqn:Eb; [done|]. injection Em as <- <-.
    apply orb_false_iff in Eb as [_ Eb]. eexists _, _. split_and!; [done|done|lia|].
    destruct (prompts b !! (env, q)) as [r|] eqn:Er; cbn [mbind option_bind default from_option]; [|lia]. apply bool_decide_eq_false in Eb.
    destruct (Hc (env, q) r Er ltac:(by destruct (mode r))) as (s & u & _ & -> & Hs & Hu). cbn. lia.
  - destruct (revise_cooldowns_ok cfg qcfg (schedule calls a now) b Hok) as (Hok' & _ & Hr & Hf). split; [done|].
    apply (cooling_revised b); [done|done|]. destruct Hf as [-> _]. lia.
  - split; [apply adopt_ok; [by eapply lag_nonneg|done|done]|].
    destruct (adopt_cases cfg (schedule calls a now) k fresh t b) as [->|(c & Ec & Hk & Hno & Hnew & ->)]; [done|]. cbn [snd].
    pose proof (adopted_ok cfg qcfg k fresh c t b ltac:(by eapply lag_nonneg) Hlen Ec Hk Hnew Hok) as Hok1.
    destruct (revise_cooldowns_ok cfg qcfg (schedule calls a now) _ Hok1) as (_ & _ & Hr & Hf).
    apply (cooling_revised b); [done|exact Hr|]. destruct Hf as [-> _]. cbn. destruct (latest b) as [n|] eqn:En; cbn; [|lia]. specialize (Hnew n eq_refl). lia.
  - split; [by eapply book_step_ok|]. destruct Hc as [H0 Hc]. split; [by rewrite E2|]. rewrite E1, E2. exact Hc.
Qed.

Lemma scheduled_run_ok b b' : book_ok cfg qcfg b /\ cooling_ok b -> rtc scheduled_step b b' -> book_ok cfg qcfg b' /\ cooling_ok b'.
Proof. intros H Hr. revert H. induction Hr as [|b b1 b2 Hs _ IH]; [done|]. intros H. by apply IH, (scheduled_step_ok b). Qed.

Lemma scheduled_reachable b : rtc scheduled_step empty_book b -> book_ok cfg qcfg b /\ cooling_ok b.
Proof. apply scheduled_run_ok. split; [by apply empty_book_ok|]. split; [done|]. intros key r. cbn. by rewrite lookup_empty. Qed.
End schedule.

(** *** A revision brings every running cooldown down *)

Section revision.
Context (cfg : book_config) (qcfg : quota_config) (cooldown_of : string -> result Z).

(** The rows of [env] cool no longer than [c] from their start. *)
Definition within (env : string) (c : Z) (m : gmap (string * Z) prompt_row) : Prop :=
  forall q r, m !! (env, q) = Some r -> mode r = COOLDOWN -> exists s u, start_k r = Some s /\ until_k r = Some u /\ u <= s + c.

Lemma within_revised env c m m' : within env c m -> prompts_revised m m' -> within env c m'.
Proof.
  intros H Hr q r' Hr' Hm. specialize (Hr (env, q)). rewrite Hr' in Hr. destruct (m !! (env, q)) as [r|] eqn:E; [|done].
  destruct Hr as (E1 & E2 & Hu). destruct (H q r E ltac:(congruence)) as (s & u & Es & Eu & Hsu). destruct Hu as [E3|(u1 & u2 & F1 & F2 & Hlt)].
  - exists s, u. split_and!; congruence.
  - exists s, u2. assert (u1 = u) by congruence. split_and!; [congruence|done|lia].
Qed.

(** The pass over [env] itself. *)
Lemma revise_env_within n stamp sh b env c : book_ok cfg qcfg b -> readable_cooldown cooldown_of env = Some c ->
  within env c (prompts (revise_env cooldown_of n (stamp, sh, b) env).2).
Proof.
  intros Hok Ec. unfold revise_env. rewrite Ec.
  assert (forall q r, prompts b !! (env, q) = Some r -> mode r = COOLDOWN -> exists s u, start_k r = Some s /\ until_k r = Some u /\
    (shortenable env c ((env, q), r) = false -> u <= s + c)) as Hrow.
  { intros q r Hr Hm. destruct (ok_prompts _ _ _ Hok _ r Hr) as [_ Hp]. rewrite Hm in Hp. destruct Hp as (u & s & Eu & Es & _). exists s, u.
    split_and!; [done|done|]. unfold shortenable. cbn [fst snd]. rewrite Hm, Eu, Es, !bool_decide_eq_true_2 by done. intros H. cbn in H. lia. }
  destruct (existsb _ (map_to_list (prompts b))) eqn:Eex; cbn [negb].
  - intros q r'. cbn. rewrite !map_lookup_imap. destruct (prompts b !! (env, q)) as [r|] eqn:Er; [|done]. cbn [mbind option_bind].
    unfold shorten, republish. cbn [mbind option_bind]. destruct (shortenable env c (env, q, r)) eqn:Esh.
    + intros Hr' Hm. assert (mode r = COOLDOWN) as Hmr by (destruct (still_revised _ _ _); injection Hr' as <-; exact Hm).
      destruct (Hrow q r Er Hmr) as (s & u & Es & Eu & _). exists s, (s + c).
      destruct (still_revised _ _ _); injection Hr' as <-; cbn; rewrite Es; (split_and!; [done|done|lia]).
    + intros Hr' Hm. assert (mode r = COOLDOWN) as Hmr by (destruct (still_revised _ _ _); injection Hr' as <-; exact Hm).
      destruct (Hrow q r Er Hmr) as (s & u & Es & Eu & Hle). exists s, u. specialize (Hle Esh).
      destruct (still_revised _ _ _); injection Hr' as <-; cbn; done.
  - intros q r Er Hm. destruct (Hrow q r Er Hm) as (s & u & Es & Eu & Hle). exists s, u. split_and!; [done|done|]. apply Hle.
    apply not_true_iff_false. intros Hsh. apply not_true_iff_false in Eex. apply Eex, existsb_exists. exists ((env, q), r).
    split; [by apply list_elem_of_In, elem_of_map_to_list|]. unfold revisable. by rewrite Hsh.
Qed.

Lemma revise_fold n envs : forall stamp sh b, book_ok cfg qcfg b -> (forall st, stamp = Some st -> scan_seq b = st) ->
  let '(stamp', _, b') := foldl (revise_env cooldown_of n) (stamp, sh, b) envs in
  book_ok cfg qcfg b' /\ (forall st, stamp' = Some st -> scan_seq b' = st) /\ prompts_revised (prompts b) (prompts b').
Proof.
  induction envs as [|env envs IH]; intros stamp sh b Hok Hst; cbn [foldl]; [split_and!; try done; apply prompts_revised_refl|].
  pose proof (revise_env_ok cfg qcfg cooldown_of n stamp sh b env Hok Hst) as H. destruct (revise_env _ _ _ _) as [[stamp1 sh1] b1].
  destruct H as (Hok1 & Hst1 & _ & Hr1 & _). specialize (IH stamp1 sh1 b1 Hok1 Hst1). destruct (foldl _ _ envs) as [[stamp2 sh2] b2].
  destruct IH as (Hok2 & Hst2 & Hr2). split_and!; [done|done|by eapply prompts_revised_trans].
Qed.

Lemma revise_within b env c : book_ok cfg qcfg b -> is_Some (latest b) -> is_Some (expiry_s cfg !! env) ->
  readable_cooldown cooldown_of env = Some c -> within env c (prompts (revise_cooldowns cfg cooldown_of b).2).
Proof.
  intros Hok [n En] [e Ee] Ec. unfold revise_cooldowns. rewrite En.
  assert (env ∈ (map_to_list (expiry_s cfg)).*1) as (l1 & l2 & El)%list_elem_of_split by (apply list_elem_of_fmap; exists (env, e); split; [done|by apply elem_of_map_to_list]).
  rewrite El, foldl_app. cbn [foldl]. pose proof (revise_fold n l1 None ∅ b Hok ltac:(done)) as H. destruct (foldl _ _ l1) as [[stamp1 sh1] b1].
  destruct H as (Hok1 & Hst1 & _). pose proof (revise_env_within n stamp1 sh1 b1 env c Hok1 Ec) as Hw.
  pose proof (revise_env_ok cfg qcfg cooldown_of n stamp1 sh1 b1 env Hok1 Hst1) as H2. destruct (revise_env _ _ _ _) as [[stamp2 sh2] b2].
  destruct H2 as (Hok2 & Hst2 & _). pose proof (revise_fold n l2 stamp2 sh2 b2 Hok2 Hst2) as H3. destruct (foldl _ _ l2) as [[stamp3 sh3] b3].
  destruct H3 as (_ & _ & Hr3). by apply (within_revised _ _ _ _ Hw).
Qed.
End revision.

(** C14: no prompt cools for ever, and a fall of the measure reaches the prompts already
    cooling.  In any run of the book, a lease is refused as cooling only less than [highest]
    checkpoints after the one its prompt was last scanned at; and once a new checkpoint is
    adopted under a schedule that can be read, no prompt of the environment cools longer than
    the schedule's value at that time. *)
Theorem cooldowns_end (cfg : book_config) (qcfg : quota_config) (scan : gmap string lease_row -> list (string * lease_row))
    (prompt_range : gmap string (Z * Z + rows)) (overrides : list (string * Z)) (p : cooldown_params) (b : book) :
  good_book_config cfg -> valid_quota qcfg = true -> (forall m, scan m ≡ₚ map_to_list m) ->
  valid_params p = true -> Forall (fun kv : string * Z => 0 <= kv.2) overrides ->
  rtc (scheduled_step cfg qcfg scan prompt_range overrides p) empty_book b ->
  (forall env q k, prompt_refusal scan env q k b = Ok (Some COOLING) ->
     exists r s n, prompts b !! (env, q) = Some r /\ start_k r = Some s /\ latest b = Some n /\ s <= n < s + highest overrides p) /\
  (forall calls attached now k fresh t commit b' env c, length fresh = 32%nat -> latest b <> Some k -> is_Some (expiry_s cfg !! env) ->
     schedule prompt_range overrides p calls attached now env = Ok c -> c < 2 ^ 64 ->
     adopt_checkpoint cfg (schedule prompt_range overrides p calls attached now) k fresh t b = (Ok commit, b') ->
     forall q r, prompts b' !! (env, q) = Some r -> mode r = COOLDOWN ->
     exists s u, start_k r = Some s /\ until_k r = Some u /\ u <= s + c).
Proof.
  intros Hcfg Hq Hscan Hv Ho Hb. destruct (scheduled_reachable cfg qcfg scan Hcfg Hq Hscan prompt_range overrides p Hv Ho b Hb) as [Hok Hc]. split.
  - intros env q k. unfold prompt_refusal. destruct (secrets b !! k) as [[? ? ? [?|]]|]; [congruence| |congruence].
    destruct (2 ^ 63 <=? q); [done|]. destruct (prompt_taken _ _ _ _ _); [congruence|]. destruct (prompts b !! (env, q)) as [r|] eqn:Er; [|congruence].
    destruct Hc as [_ Hc]. destruct r as [[|] u0 sq st rv]; [|congruence]. destruct (Hc (env, q) _ Er eq_refl) as (s & u & Es & Eu & Hs & Hsu). cbn in Es, Eu. subst.
    destruct (latest b) as [n|]; [|done]. destruct (Z.ltb_spec n u) as [Hlt|]; [|congruence]. intros _. eexists _, s, n. cbn in Hs. split_and!; [done|done|done|done|lia].
  - intros calls attached now k fresh t commit b' env c Hlen Hne Hexp Hsch Hc64 Had.
    destruct (schedule_bounds prompt_range overrides p Hv Ho _ _ _ _ _ Hsch) as [Hc0 _].
    assert (readable_cooldown (schedule prompt_range overrides p calls attached now) env = Some c) as Hread.
    { unfold readable_cooldown. rewrite Hsch. cbn. by destruct (u64_some c ltac:(lia)) as [bs ->]. }
    unfold adopt_checkpoint in Had. destruct (u64 k) as [bk|] eqn:Ek; [|done]. apply u64_ok in Ek.
    destruct (match latest b with Some n => k <? n | None => false end) eqn:Eold; [done|]. rewrite bool_decide_eq_false_2 in Had by done.
    destruct (Z.leb_spec (2 ^ 63) k) as [|Hk63]; [done|]. destruct (secret_commitment fresh k) as [cm|] eqn:Ecm; [|done].
    destruct (secrets b !! k) eqn:Esk; [done|]. injection Had as <- <-.
    apply (revise_within cfg qcfg); [|by eexists|done|done].
    apply adopted_ok; [by eapply lag_nonneg|done|done|lia| |done]. intros n En. rewrite En in Eold, Hne. apply Z.ltb_ge in Eold. assert (n <> k) by congruence. lia.
Qed.

(** ** Each environment's share of a batch *)

Definition DEFAULT_GROUP_TOKENS : float := of_int 100000.
Definition RECENT_GROUPS : Z := 200.

(** The tokens of the newest groups of [env] that count; [groups] is the table in the order
    its rows were inserted, none before the table exists. *)
Definition recent_tokens (groups : list group_row) (env : string) : list Z :=
  gr_tokens <$> take (Z.to_nat RECENT_GROUPS)
    (filter (fun g => gr_env g = env /\ gr_verdict g = graded_group IN_ZONE /\ 0 < gr_tokens g) (reverse groups)).

(** An integer divided by another is the nearest float, [flit]. *)
Definition mean_tokens (groups : list group_row) (env : string) : float :=
  let l := recent_tokens groups env in
  if bool_decide (l = []) then DEFAULT_GROUP_TOKENS else flit (Zsum l) (Z.of_nat (length l)).

Definition group_weights (groups : list group_row) (targets : gmap string float) : gmap string float :=
  map_imap (fun env share => Some (fdiv share (mean_tokens groups env))) (filter (fun es => 0 < es.2) targets).

Definition group_shares (groups : list group_row) (targets : gmap string float) : gmap string float * gmap string float :=
  let weights := group_weights groups targets in
  let total := fsum (map_to_list weights).*2 in
  (if 0 <? total then (fun w => fdiv w total) <$> weights else ∅, map_imap (fun env _ => Some (mean_tokens groups env)) targets).

Record caps_config := EnvGroupCaps {
  targets : gmap string float; batch_groups : Z; lane_batches : option float; batch_factor : option float; caps_refresh_s : float }.

(** [__init__] *)
Definition valid_caps (c : caps_config) : bool :=
  (1 <=? batch_groups c) && match lane_batches c with Some x => 0 <? x | None => true end
  && match batch_factor c with Some x => fone <=? x | None => true end.

(** [self._cached] *)
Definition shares_cache : Type := option (float * gmap string float * gmap string float).

(** [_read]: the clock, the table, the cache. *)
Definition read_shares (c : caps_config) (now : float) (groups : list group_row) (cached : shares_cache) :
    (gmap string float * gmap string float) * shares_cache :=
  match cached with
  | Some (at_, shares, tokens) =>
      if caps_refresh_s c <=? fsub now at_ then let '(s, t) := group_shares groups (targets c) in ((s, t), Some (now, s, t))
      else ((shares, tokens), cached)
  | None => let '(s, t) := group_shares groups (targets c) in ((s, t), Some (now, s, t))
  end.

(** [max(1, math.ceil(factor * groups * share))] of each share. *)
Definition limits (factor : float) (n : Z) (shares : gmap string float) : gmap string Z :=
  (fun share => Z.max 1 (fceil (fmul (fmul factor (of_int n)) share))) <$> shares.

Definition lane_max (c : caps_config) (now : float) (groups : list group_row) (cached : shares_cache) : gmap string Z * shares_cache :=
  match lane_batches c with
  | None => (∅, cached)
  | Some x => let '(s, cached) := read_shares c now groups cached in (limits x (batch_groups c) s.1, cached)
  end.

Definition batch_caps (c : caps_config) (limit : Z) (now : float) (groups : list group_row) (cached : shares_cache) : gmap string Z * shares_cache :=
  match batch_factor c with
  | None => (∅, cached)
  | Some x => let '(s, cached) := read_shares c now groups cached in (limits x limit s.1, cached)
  end.

(** *** The shares are those of the target mix *)

Lemma Zsum_pos l : Forall (fun x => 0 < x) l -> l <> [] -> Z.of_nat (length l) <= Zsum l.
Proof.
  intros H _. induction H as [|x l Hx H IH]; [done|]. unfold Zsum in *. cbn [foldr length]. lia.
Qed.

Lemma mean_tokens_pos groups env : 0 < mean_tokens groups env.
Proof.
  unfold mean_tokens. cbv zeta. case_bool_decide as Hl; [by vm_compute|].
  assert (Forall (fun x => 0 < x) (recent_tokens groups env)) as Hf.
  { unfold recent_tokens. apply Forall_fmap, Forall_take, Forall_forall. intros g [(_ & _ & Hg) _]%list_elem_of_filter. exact Hg. }
  pose proof (Zsum_pos _ Hf Hl) as Hs. assert (0 < Z.of_nat (length (recent_tokens groups env))) as Hn by (destruct (recent_tokens groups env); [done|cbn; lia]).
  pose proof fone_pos. eapply Z.lt_le_trans; [exact fone_pos|]. unfold flit. apply fround_ge; [done|exact fone_representable|nia].
Qed.

Lemma weight_lookup groups tg env w : group_weights groups tg !! env = Some w <->
  exists share, tg !! env = Some share /\ 0 < share /\ w = fdiv share (mean_tokens groups env).
Proof.
  unfold group_weights. rewrite map_lookup_imap. split.
  - destruct (filter _ tg !! env) as [share|] eqn:E; [|done]. cbn. intros [= <-]. apply map_lookup_filter_Some in E as [E Hp]. eauto.
  - intros (share & Hs & Hp & ->). by rewrite (proj2 (map_lookup_filter_Some _ _ _ _) (conj Hs Hp)).
Qed.

Lemma weights_nonneg groups tg : Forall (fun w => 0 <= w) (map_to_list (group_weights groups tg)).*2.
Proof.
  apply Forall_fmap, Forall_forall. intros [env w] (share & _ & Hp & ->)%elem_of_map_to_list%weight_lookup. cbn.
  apply fdiv_nonneg; [lia|apply mean_tokens_pos].
Qed.

Lemma Zsum_scale {A} (f : A -> Z) c l : Zsum ((fun x => c * f x) <$> l) = c * Zsum (f <$> l).
Proof. unfold Zsum. induction l as [|x l IH]; cbn; [lia|]. cbn in IH. lia. Qed.
Lemma Zsum_affine {A} (f : A -> Z) a c l : Zsum ((fun x => a * f x - c) <$> l) = a * Zsum (f <$> l) - c * Z.of_nat (length l).
Proof. unfold Zsum. induction l as [|x l IH]; cbn [fmap list_fmap foldr length]; [lia|]. cbn in IH. lia. Qed.
Lemma Zsum_member l x : Forall (Z.le 0) l -> x ∈ l -> x <= Zsum l.
Proof.
  unfold Zsum. induction 1 as [|y l Hy Hf IH]; [by intros ?%not_elem_of_nil|]. pose proof (Zsum_nonneg _ Hf). unfold Zsum in *.
  intros [->|Hx]%elem_of_cons; cbn; [lia|specialize (IH Hx); lia].
Qed.

(** The shares of a mix add up to one, but for the rounding of each. *)
Lemma shares_sum (l : list float) : Forall (Z.le 0) l -> 0 < fsum l ->
  (2 ^ 53 + 1) * (2 * Zsum ((fun w => fdiv w (fsum l)) <$> l) + Z.of_nat (length l)) >= 2 * (2 ^ 53 - 1) * fone.
Proof.
  intros Hl Ht. set (t := fsum l) in *. set (W := Zsum l). set (S := Zsum _). set (n := Z.of_nat (length l)).
  pose proof (Zsum_nonneg _ Hl) as HW. fold W in HW. pose proof (fround_int_err W HW) as Et. change (fround W 1) with t in Et.
  assert ((2 ^ 53 - 1) * fone * W - 2 ^ 52 * t * n <= 2 ^ 53 * t * S) as Hs.
  { assert (Zsum ((fun w => (2 ^ 53 - 1) * fone * w - 2 ^ 52 * t) <$> l) <= Zsum ((fun w => 2 ^ 53 * t * fdiv w t) <$> l)) as Hle;
      [|by rewrite (Zsum_affine (fun x => x)), list_fmap_id, Zsum_scale in Hle].
    apply Zsum_le. intros w Hw. pose proof (proj1 (Forall_forall _ _) Hl w Hw) as Hw0. cbn in Hw0.
    pose proof fone_pos as Hf. unfold fdiv. rewrite Z.sgn_pos, Z.abs_eq, Z.mul_1_r by lia. pose proof (fround_err (w * fone) t ltac:(nia) Ht). lia. }
  pose proof fone_pos as Hf. assert (0 <= n) as Hn by (unfold n; lia). clearbody t W S n. clear Hl.
  assert (2 ^ 53 * t <= (2 ^ 53 + 1) * W) as Ht2 by lia.
  assert (t * ((2 ^ 53 - 1) * fone * 2 ^ 53) <= t * ((2 ^ 53 + 1) * (2 ^ 53 * S + 2 ^ 52 * n))) as Hmul by nia.
  apply Z.mul_le_mono_pos_l in Hmul; lia.
Qed.

(** The limits drawn from shares that add up to one leave room for a whole take. *)
Lemma limits_fill (x : float) (n : Z) (l : list float) (k : Z) : fone <= x -> 1 <= n <= 2 ^ 50 -> Forall (Z.le 0) l -> k = Z.of_nat (length l) -> k < 2 ^ 64 ->
  (2 ^ 53 + 1) * (2 * Zsum l + k) >= 2 * (2 ^ 53 - 1) * fone ->
  n <= Zsum ((fun s => Z.max 1 (fceil (fmul (fmul x (of_int n)) s))) <$> l).
Proof.
  intros Hx Hn Hl Ek Hk HS. pose proof fone_pos as Hf. set (y := fmul x (of_int n)). set (C := Zsum _).
  assert (n * fone <= y) as Hy.
  { unfold y, fmul. rewrite of_int_exact by lia. apply fround_ge; [done| |nia]. rewrite <- of_int_exact by lia. apply of_int_representable. }
  assert ((2 ^ 53 - 1) * n * Zsum l - 2 ^ 52 * k <= 2 ^ 53 * fone * C) as HC.
  { assert (Zsum ((fun s => (2 ^ 53 - 1) * n * s - 2 ^ 52) <$> l) <= Zsum ((fun s => 2 ^ 53 * fone * Z.max 1 (fceil (fmul y s))) <$> l)) as Hle;
      [|by rewrite (Zsum_affine (fun s => s)), list_fmap_id, Zsum_scale, <- Ek in Hle].
    apply Zsum_le. intros s Hs. pose proof (proj1 (Forall_forall _ _) Hl s Hs) as Hs0. cbn in Hs0.
    assert (fmul y s <= fone * Z.max 1 (fceil (fmul y s))) as Hceil.
    { transitivity (fone * fceil (fmul y s)); [|apply Z.mul_le_mono_nonneg_l; lia]. unfold fceil, ffloor. pose proof (Z.mul_div_le (- fmul y s) fone Hf). lia. }
    assert (fround (n * fone * s) fone <= fmul y s) as Hmono by (unfold fmul; apply fround_mono; nia).
    pose proof (fround_err (n * fone * s) fone ltac:(nia) Hf) as Herr. set (r := fround (n * fone * s) fone) in *.
    assert (2 ^ 53 * (r * fone) >= (2 ^ 53 - 1) * (n * fone * s) - 2 ^ 52 * fone) as Hr by lia.
    assert (fone * (2 ^ 53 * r) >= fone * ((2 ^ 53 - 1) * n * s - 2 ^ 52)) as Hr' by lia. apply Z.ge_le, Z.mul_le_mono_pos_l in Hr'; [|done].
    transitivity (2 ^ 53 * fmul y s); [lia|]. rewrite <- Z.mul_assoc. by apply Z.mul_le_mono_nonneg_l. }
  set (S := Zsum l) in *. clearbody C S y. assert (0 <= k) by lia. clear Hl Hy Hx Ek.
  destruct (Z.le_gt_cases n C) as [|Hlt]; [done|]. exfalso.
  assert (2 * (2 ^ 53 - 1) * fone * n <= n * ((2 ^ 53 + 1) * (2 * S + k))) as HS' by nia.
  assert ((2 ^ 53 - 1) * (2 * (2 ^ 53 - 1) * fone * n) - (2 ^ 53 - 1) * (2 ^ 53 + 1) * (n * k) - (2 ^ 53 + 1) * 2 ^ 53 * k <= (2 ^ 53 + 1) * 2 ^ 54 * fone * C) as H2 by lia.
  assert (fone * C <= fone * (n - 1)) as H3 by nia. assert (n * k <= 2 ^ 50 * k) as H4 by nia.
  assert (2 ^ 200 <= fone) as H5 by (rewrite (fone_grid 200) by lia; assert (0 < 2 ^ (1074 - 200)) by (apply Z.pow_pos_nonneg; lia); nia).
  assert (fone * n <= fone * 2 ^ 50) as H6 by nia. clear HS HS' HC Hlt.
  replace (fone * (n - 1)) with (fone * n - fone) in H3 by lia. replace (2 * (2 ^ 53 - 1) * fone * n) with (2 * (2 ^ 53 - 1) * (fone * n)) in H2 by lia.
  replace ((2 ^ 53 + 1) * 2 ^ 54 * fone * C) with ((2 ^ 53 + 1) * 2 ^ 54 * (fone * C)) in H2 by lia.
  set (nk := n * k) in *. set (fc := fone * C) in *. set (fn := fone * n) in *. set (f := fone) in *. clearbody nk fc fn f. clear S. lia.
Qed.

(** *** What the caps do to a take *)

Definition env_count (env : string) (l : list offer) : Z := Z.of_nat (length (filter (fun r : offer => r.1.2 = env) l)).

Lemma env_count_app env l k : env_count env (l ++ k) = env_count env l + env_count env k.
Proof. unfold env_count. rewrite filter_app, length_app. lia. Qed.
Lemma env_count_cons env r l : env_count env (r :: l) = (if decide (r.1.2 = env) then 1 else 0) + env_count env l.
Proof. unfold env_count. rewrite filter_cons. destruct (decide _); cbn [length]; lia. Qed.
Lemma env_count_nonneg env l : 0 <= env_count env l.
Proof. unfold env_count. lia. Qed.

(** Each pick is of one environment. *)
Lemma env_counts_le (caps : gmap string Z) (l : list offer) : map_sum (fun env _ => env_count env l) caps <= Z.of_nat (length l).
Proof.
  transitivity (Z.of_nat (length (filter (fun r : offer => is_Some (caps !! r.1.2)) l))); [|pose proof (length_filter (fun r : offer => is_Some (caps !! r.1.2)) l); lia].
  induction caps as [|i c m Hi Hm IH] using map_ind; [rewrite map_sum_empty; lia|]. rewrite map_sum_insert_new by done.
  assert (forall k, env_count i k + Z.of_nat (length (filter (fun r : offer => is_Some (m !! r.1.2)) k)) = Z.of_nat (length (filter (fun r : offer => is_Some (<[i:=c]> m !! r.1.2)) k))) as H;
    [|rewrite <- H; lia].
  induction k as [|r k IHk]; [done|]. rewrite env_count_cons, !filter_cons. destruct (decide (r.1.2 = i)) as [E|E].
  - rewrite E, lookup_insert_eq. rewrite decide_False by (rewrite Hi; by intros [? ?]). rewrite decide_True by done. cbn [length]. lia.
  - rewrite lookup_insert_ne by done. destruct (decide (is_Some (m !! r.1.2))); cbn [length]; lia.
Qed.

(** The loop over the offers, without urgent ones. *)
Lemma mixed_loop_picks caps limit rows : forall chosen counts extra,
  exists picks, picks `sublist_of` rows /\ (mixed_loop caps limit [] rows chosen counts extra).1 = chosen ++ ((fun r => r.1.1) <$> picks) /\
    Z.of_nat (length chosen + length picks) <= Z.max limit (Z.of_nat (length chosen)) /\
    (forall env c, caps !! env = Some c -> default 0 (counts !! env) + env_count env picks <= Z.max c (default 0 (counts !! env))) /\
    (limit <= Z.of_nat (length chosen + length picks) \/
     forall env c, caps !! env = Some c -> Z.min c (default 0 (counts !! env) + env_count env rows) <= default 0 (counts !! env) + env_count env picks).
Proof.
  induction rows as [|[[id env] k] rows IH]; intros chosen counts extra; cbn [mixed_loop].
  - exists []. split_and!; [done|by rewrite app_nil_r|cbn; lia|intros; change (env_count env []) with 0; lia|right; intros; lia].
  - destruct (Z.leb_spec limit (Z.of_nat (length chosen))) as [Hle|Hlt].
    { exists []. split_and!; [by apply sublist_nil_l|by rewrite app_nil_r|cbn; lia|intros; change (env_count env0 []) with 0; lia|left; cbn; lia]. }
    rewrite bool_decide_eq_false_2 by apply not_elem_of_nil.
    destruct (match caps !! env with Some c => c <=? default 0 (counts !! env) | None => false end) eqn:Ecap.
    + destruct (IH chosen counts (extra ++ [id])) as (picks & Hs & -> & Hl & Hc & Hd). exists picks.
      split_and!; [by constructor|done|done|done|]. destruct Hd as [Hd|Hd]; [by left|right]. intros e c Ec. specialize (Hd e c Ec). rewrite env_count_cons. cbn [fst snd].
      destruct (decide (env = e)) as [->|]; [|lia]. rewrite Ec in Ecap. pose proof (env_count_nonneg e picks). lia.
    + destruct (IH (chosen ++ [id]) (bump counts env) extra) as (picks & Hs & -> & Hl & Hc & Hd). exists ((id, env, k) :: picks). rewrite length_app in *. cbn [length] in *.
      assert (forall e, default 0 (bump counts env !! e) = default 0 (counts !! e) + if decide (env = e) then 1 else 0) as Hb.
      { intros e. unfold bump. destruct (decide (env = e)) as [->|]; [by rewrite lookup_insert_eq|rewrite lookup_insert_ne by done; lia]. }
      split_and!; [by constructor|by rewrite <- app_assoc|lia| |].
      * intros e c Ec. specialize (Hc e c Ec). rewrite Hb in Hc. rewrite env_count_cons. cbn [fst snd]. destruct (decide (env = e)) as [->|]; [|lia].
        rewrite Ec in Ecap. lia.
      * destruct Hd as [Hd|Hd]; [left; lia|right]. intros e c Ec. specialize (Hd e c Ec). rewrite Hb in Hd. rewrite !env_count_cons. cbn [fst snd]. lia.
Qed.

Lemma mixed_take_mix caps limit rows : 0 <= limit -> map_Forall (fun _ c => 0 <= c) caps ->
  (forall env c, caps !! env = Some c -> c <= env_count env rows) -> limit <= map_sum (fun _ c => c) caps ->
  exists picks, picks `sublist_of` rows /\ mixed_take rows caps limit None = (fun r => r.1.1) <$> picks /\ Z.of_nat (length picks) = limit /\
    forall env c, caps !! env = Some c -> env_count env picks <= c.
Proof.
  intros Hl Hpos Hrows Hsum. destruct (mixed_loop_picks caps limit rows [] ∅ []) as (picks & Hs & E & Hlen & Hc & Hd). cbn [app length] in *.
  assert (Z.of_nat (length picks) = limit) as Hfull.
  { apply Z.le_antisymm; [lia|]. destruct Hd as [Hd|Hd]; [lia|]. transitivity (map_sum (fun env _ => env_count env picks) caps); [|apply env_counts_le].
    transitivity (map_sum (fun _ c => c) caps); [done|]. apply map_sum_le. intros env c Hin.
    specialize (Hd env c Hin). rewrite lookup_empty in Hd. cbn in Hd. specialize (Hrows env c Hin). lia. }
  exists picks. split_and!; [done| |done|].
  - unfold mixed_take. cbn [urgent_rows]. replace (prefix_to limit []) with (@nil offer) by (unfold prefix_to; by rewrite take_nil).
    cbn [fmap list_fmap foldl]. destruct (mixed_loop _ _ _ _ _ _ _) as [chosen extra]. cbn [fst] in E. subst chosen.
    rewrite length_fmap, Hfull, Z.sub_diag. unfold prefix_to. cbn. by rewrite app_nil_r.
  - intros env c Ec. specialize (Hc env c Ec). specialize (Hpos env c Ec). rewrite lookup_empty in Hc. cbn in *. lia.
Qed.

(** *** The caps of a take *)

(** What the cache holds was read off some table. *)
Definition cache_read (c : caps_config) (cached : shares_cache) : Prop :=
  match cached with Some (_, s, t) => exists groups, group_shares groups (targets c) = (s, t) | None => True end.

Lemma read_shares_ok c now groups cached : cache_read c cached ->
  let '((s, t), cached') := read_shares c now groups cached in cache_read c cached' /\ exists groups', group_shares groups' (targets c) = (s, t).
Proof.
  intros Hc. unfold read_shares. destruct cached as [[[at_ s] t]|]; [destruct (_ <=? _)|].
  - destruct (group_shares groups (targets c)) as [s' t'] eqn:E. cbn. eauto.
  - done.
  - destruct (group_shares groups (targets c)) as [s' t'] eqn:E. cbn. eauto.
Qed.

Lemma limits_sum x n shares : map_sum (fun _ c => c) (limits x n shares) = Zsum ((fun s => Z.max 1 (fceil (fmul (fmul x (of_int n)) s))) <$> (map_to_list shares).*2).
Proof. unfold limits, map_sum. rewrite map_to_list_fmap, <- !list_fmap_compose. done. Qed.

(** The caps any table gives. *)
Lemma limits_ok groups tg x n : fone <= x -> 1 <= n <= 2 ^ 50 -> Z.of_nat (size tg) < 2 ^ 64 ->
  let shares := (group_shares groups tg).1 in let caps := limits x n shares in
  map_Forall (fun _ s => 0 <= s <= fone) shares /\ map_Forall (fun _ c => 1 <= c) caps /\
  (caps = ∅ \/ n <= map_sum (fun _ c => c) caps /\ forall env, is_Some (caps !! env) <-> exists share, tg !! env = Some share /\ 0 < share).
Proof.
  intros Hx Hn Hsize. cbv zeta. unfold group_shares. cbn [fst]. set (ws := group_weights groups tg). set (t := fsum _).
  pose proof (weights_nonneg groups tg) as Hnn. fold ws in Hnn.
  assert (forall shares env c, limits x n shares !! env = Some c -> 1 <= c) as H1.
  { intros shares env c. unfold limits. rewrite lookup_fmap. destruct (shares !! env); cbn; [|done]. intros [= <-]. lia. }
  destruct (Z.ltb_spec 0 t) as [Ht|]; [|split_and!; [apply map_Forall_empty|intros env c; apply H1|left; unfold limits; by rewrite fmap_empty]].
  assert (map_Forall (fun _ w => 0 <= w <= t) ws) as Hw.
  { intros env w Hw. assert (w ∈ (map_to_list ws).*2) as Hin by (apply list_elem_of_fmap; exists (env, w); split; [done|by apply elem_of_map_to_list]).
    split; [by apply (proj1 (Forall_forall _ _) Hnn w)|]. pose proof (Zsum_member _ _ Hnn Hin).
    assert (representable w) as Hr by (apply weight_lookup in Hw as (sh & _ & _ & ->); apply fdiv_representable; pose proof (mean_tokens_pos groups env); lia).
    unfold t, fsum. apply fround_ge; [lia|done|lia]. }
  split_and!.
  - intros env s. rewrite lookup_fmap. destruct (ws !! env) as [w|] eqn:E; [|done]. cbn. intros [= <-]. destruct (Hw env w E). split; [by apply fdiv_nonneg|by apply fdiv_le_one].
  - intros env c. apply H1.
  - right. split.
    + rewrite limits_sum. replace (map_to_list ((fun w => fdiv w t) <$> ws)).*2 with ((fun w => fdiv w t) <$> (map_to_list ws).*2)
        by (by rewrite map_to_list_fmap, <- !list_fmap_compose).
      eapply limits_fill; [done|done| |by rewrite length_fmap| |by apply shares_sum].
      * apply Forall_fmap. eapply Forall_impl; [exact Hnn|]. intros w Hw0. cbn in *. by apply fdiv_nonneg.
      * rewrite length_fmap, length_map_to_list. eapply Z.le_lt_trans; [|exact Hsize]. apply inj_le.
        rewrite <- !size_dom. apply subseteq_size. intros env. rewrite !elem_of_dom. intros [w (sh & -> & _)%weight_lookup]. eauto.
    + intros env. unfold limits. rewrite lookup_fmap, fmap_is_Some, lookup_fmap, fmap_is_Some. split.
      * intros [w (sh & Hs & Hp & _)%weight_lookup]. eauto.
      * intros (sh & Hs & Hp). eexists. apply weight_lookup. eauto.
Qed.

Lemma limits_pos x n shares : map_Forall (fun _ c => 1 <= c) (limits x n shares).
Proof. intros env c. unfold limits. rewrite lookup_fmap. destruct (shares !! env); cbn; [|done]. intros [= <-]. lia. Qed.

(** The caps keep a batch at the target mix without holding it back.  Whatever table they
    were read from, the caps of a take of [limit] groups leave room for all of it and name the
    environments with a positive target, one group or more each; so when each of them has its
    cap queued and nothing is urgent, the take is full and holds no more of an environment than
    its cap.  A lane is never closed altogether. *)
Theorem batch_keeps_mix (c : caps_config) (x : float) (limit : Z) (now : float) (groups : list group_row) (cached : shares_cache) (rows : list offer) :
  valid_caps c = true -> batch_factor c = Some x -> Z.of_nat (size (targets c)) < 2 ^ 64 -> 1 <= limit <= 2 ^ 50 -> cache_read c cached ->
  let '(caps, cached') := batch_caps c limit now groups cached in
  cache_read c cached' /\ map_Forall (fun _ n => 1 <= n) caps /\ map_Forall (fun _ n => 1 <= n) (lane_max c now groups cached).1 /\
  (caps = ∅ \/
   limit <= map_sum (fun _ n => n) caps /\ (forall env, is_Some (caps !! env) <-> exists share, targets c !! env = Some share /\ 0 < share) /\
   ((forall env n, caps !! env = Some n -> n <= env_count env rows) ->
    exists picks, picks `sublist_of` rows /\ mixed_take rows caps limit None = (fun r => r.1.1) <$> picks /\ Z.of_nat (length picks) = limit /\
      forall env n, caps !! env = Some n -> env_count env picks <= n)).
Proof.
  intros Hv Hx Hsize Hl Hc. unfold batch_caps. rewrite Hx. unfold valid_caps in Hv. rewrite Hx in Hv. split_andb Hv.
  assert (map_Forall (fun _ n => 1 <= n) (lane_max c now groups cached).1) as Hlane.
  { unfold lane_max. destruct (lane_batches c); [|apply map_Forall_empty]. destruct (read_shares c now groups cached). apply limits_pos. }
  pose proof (read_shares_ok c now groups cached Hc) as Hread. destruct (read_shares c now groups cached) as [[s t] cached'].
  destruct Hread as [Hc' [groups' Hg]]. cbn [fst snd]. split_and!; [done|apply limits_pos|done|].
  assert (fone <= x) as Hx1 by lia.
  destruct (limits_ok groups' (targets c) x limit Hx1 Hl Hsize) as (_ & Hpos & Hcaps). rewrite Hg in Hcaps, Hpos. cbn [fst] in Hcaps, Hpos.
  destruct Hcaps as [E|[Hsum Hdom]]; [by left|right]. split_and!; [done|done|]. intros Hrows. apply mixed_take_mix; [lia| |done|done].
  intros env n Hn. specialize (Hpos env n Hn). cbn in Hpos. lia.
Qed.

(** ** Witnesses *)

Definition w_cooldown : cooldown_params := CooldownParams fone 1 9 3 1 10 10 (of_int 60).
Definition w_spans : gmap string (Z * Z + rows) := {["math" := inl (0, 100)]}.
Definition w_calls : list call := [(None, 0, "math"); (None, of_int 30, "math"); (None, of_int 30, "code")]%string.

(** The reading of the first call, within the minute, and an override. *)
Lemma cooldown_readings_witness :
  0 <= 3 <= 9 /\ (exists r, (run w_spans [("code", 7)]%string w_cooldown w_calls ∅).1 !! 2%nat = Some (Ok r) /\ cooldown r = 7).
Proof.
  pose proof (cooldown_readings w_spans [("code", 7)]%string w_cooldown w_calls 1 None (of_int 30) "math" (Ok (Reading 3 Initial (Some 100) None None None))
    ltac:(vm_compute; reflexivity) ltac:(repeat constructor; cbn; lia) ltac:(reflexivity) ltac:(vm_compute; reflexivity)) as [H _].
  split; [exact H|]. eexists. split; [vm_compute; reflexivity|].
  apply (cooldown_readings w_spans [("code", 7)]%string w_cooldown w_calls 2 None (of_int 30) "code" (Ok (Reading 7 Override None None None None))
    ltac:(vm_compute; reflexivity) ltac:(repeat constructor; cbn; lia) ltac:(reflexivity) ltac:(vm_compute; reflexivity)).
Defined.

(** A prompt scanned at checkpoint 0 cools for 3 checkpoints. *)
Abbreviation w_schedule := (schedule w_spans [] w_cooldown [] None (fun _ => 0)).
Definition w_first : book := (adopt_checkpoint RlLeases.w_config w_schedule 0 RlLeases.w_secret (of_int 1) empty_book).2.
Definition w_cooling : book := (record_outcome RlLeases.w_config w_schedule "math" 5 0 [fone] TOO_EASY (of_int 2) w_first).2.
Definition w_second : book := (adopt_checkpoint RlLeases.w_config w_schedule 1 RlLeases.w_secret (of_int 3) w_cooling).2.

Lemma w_cooling_run : rtc (scheduled_step RlLeases.w_config RlLeases.w_qcfg map_to_list w_spans [] w_cooldown) empty_book w_cooling.
Proof.
  apply rtc_l with w_first; [exact (at_adopt _ _ _ _ _ _ [] None (fun _ => 0) 0 RlLeases.w_secret (of_int 1) empty_book eq_refl)|].
  apply rtc_once. apply (at_outcome _ _ _ _ _ _ [] None (fun _ => 0)). vm_compute. discriminate.
Qed.

Lemma cooldowns_end_witness :
  (exists r s n, prompts w_cooling !! ("math", 5)%string = Some r /\ start_k r = Some s /\ latest w_cooling = Some n /\ s <= n < s + 9) /\
  exists r s u, prompts w_second !! ("math", 5)%string = Some r /\ start_k r = Some s /\ until_k r = Some u /\ u <= s + 3.
Proof.
  destruct (cooldowns_end RlLeases.w_config RlLeases.w_qcfg map_to_list w_spans [] w_cooldown w_cooling RlLeases.w_config_good ltac:(vm_compute; reflexivity)
    RlLeases.w_scan ltac:(vm_compute; reflexivity) ltac:(constructor) w_cooling_run) as [H1 H2]. split.
  - apply (H1 "math"%string 5 0). vm_compute. reflexivity.
  - assert (exists r, prompts w_second !! ("math", 5)%string = Some r /\ mode r = COOLDOWN) as (r & Hr & Hm) by (eexists; split; [vm_compute; reflexivity|reflexivity]).
    destruct (adopt_checkpoint RlLeases.w_config w_schedule 1 RlLeases.w_secret (of_int 3) w_cooling) as [[commit|e] b'] eqn:E;
      [|exfalso; apply (f_equal fst) in E; vm_compute in E; discriminate E].
    assert (b' = w_second) as Eb by (unfold w_second; rewrite E; reflexivity). rewrite Eb in E.
    destruct (H2 [] None (fun _ => 0) 1 RlLeases.w_secret (of_int 3) commit w_second "math"%string 3 eq_refl ltac:(vm_compute; discriminate) ltac:(vm_compute; eauto)
      ltac:(vm_compute; reflexivity) ltac:(lia) E 5 r Hr Hm) as (s & u & Hs & Hu & Hle).
    exists r, s, u. split; [exact Hr|]. split; [exact Hs|]. split; [exact Hu|exact Hle].
Defined.

(** Two environments at half the tokens each, a take of four. *)
Definition w_caps : caps_config := EnvGroupCaps {["math" := flit 1 2; "code" := flit 1 2]}%string 4 (Some fone) (Some fone) (of_int 300).
Definition w_offers : list offer := [("a", "math", 0); ("b", "math", 0); ("c", "math", 0); ("d", "code", 0); ("e", "code", 0)]%string.
Definition w_limits : gmap string Z := {["math" := 2; "code" := 2]}%string.

Lemma batch_keeps_mix_witness : exists picks, mixed_take w_offers w_limits 4 None = (fun r => r.1.1) <$> picks /\ Z.of_nat (length picks) = 4 /\ env_count "math" picks <= 2.
Proof.
  pose proof (batch_keeps_mix w_caps fone 4 0 [] None w_offers ltac:(vm_compute; reflexivity) ltac:(reflexivity) ltac:(vm_compute; reflexivity) ltac:(lia) I) as H.
  assert ((batch_caps w_caps 4 0 [] None).1 = w_limits) as E by (vm_compute; reflexivity).
  destruct (batch_caps w_caps 4 0 [] None) as [caps cached]. cbn [fst] in E. subst caps. destruct H as (_ & _ & _ & [H|(_ & _ & H)]).
  - exfalso. apply (f_equal (fun m : gmap string Z => m !! "math"%string)) in H. vm_compute in H. discriminate H.
  - destruct H as (picks & _ & Hp & Hl & Hc).
    + intros env n. unfold w_limits. rewrite !lookup_insert_Some, lookup_singleton_Some. intros [[<- <-]|[_ [<- <-]]]; vm_compute; discriminate.
    + exists picks. split; [exact Hp|]. split; [exact Hl|]. apply Hc. vm_compute. reflexivity.
Defined.
