(* ===== verification/RlPay.v ===== *)
(** * RlPay: from the submission path to the payment ledger

    The composition of [RlSubmissions] ([rl_submit.py]) and [RlLedger] ([rl_ledger.py]):
    the ledger reads the event log of the submission path behind a cursor, and the
    environment of a first scan from its group's row.  What the ledger needs of the log
    is the class [EventSource]; the ledger's theorems are proved against it, and the
    reachable states of the submission path are instances.  The prices are a parameter. *)

From S2P Require Import Prelude PyFloat RlLedger RlQuota RlBuffer RlLeases RlSubmit.

#[local] Open Scope Z_scope.

(** ** What the ledger reads *)

Definition ledger_detail (d : event_detail) : detail :=
  match d with
  | ev_first_scan fraction _ => FirstScan fraction
  | ev_trained d => Trained (td_environment d) (rollout_match d) (RlSubmit.matched_tokens d) (completion_tokens d)
  | ev_ban until => Ban until
  | ev_first_scan_forfeited _ _ | ev_untrained _ _ => Other
  end.

Definition ledger_event (i : nat) (e : event_row) : event :=
  Event (event_seq i) (er_lease e) (er_hotkey e) (er_at e) (ledger_detail (er_detail e)).

(** [RlSubmissions.events], and the query on [rl_groups]. *)
Definition events_since (since : Z) (s : submissions) : list event := filter (fun e => since < seq e) (imap ledger_event (events s)).
Definition env_of (s : submissions) (id : string) : option string := gr_env <$> groups s !! id.

Definition pays (e : event) : bool := match ev_detail e with Trained _ _ _ _ | FirstScan _ => true | _ => false end.

(** ** The interface *)

Class EventSource (group_env : string -> option string) (evs : list event) : Prop := {
  source_sorted : StronglySorted (fun e e' => seq e < seq e') evs;
  source_good : Forall good_event evs;
  source_env : forall e f, e ∈ evs -> ev_detail e = FirstScan f -> is_Some (group_env (RlLedger.lease_id e));
  source_once : forall e e', e ∈ evs -> e' ∈ evs -> pays e = true -> pays e' = true -> RlLedger.lease_id e = RlLedger.lease_id e' -> e = e';
}.

(** ** The ledger against the interface *)

(** The row of a payable event. *)
Definition row_for (e : event) (a : accrual) : Prop :=
  acc_lease a = RlLedger.lease_id e /\ acc_hotkey a = RlLedger.hotkey e /\ pays e = true /\
  acc_kind a = match ev_detail e with FirstScan _ => RlLedger.first_scan | _ => trained end.

(** The rows are those of the payable events that have been read. *)
Definition tracks (read : event -> Prop) (m : gmap Z accrual) : Prop :=
  (forall n a, m !! n = Some a -> exists e, read e /\ seq e = n /\ row_for e a) /\
  (forall e, read e -> pays e = true -> exists a, m !! seq e = Some a /\ row_for e a).

Lemma tracks_iff (P Q : event -> Prop) m : (forall e, P e <-> Q e) -> tracks P m -> tracks Q m.
Proof. intros E [H1 H2]. split; [intros n a Ha; destruct (H1 n a Ha) as (e & ? & ?); exists e; by rewrite <- E|intros e He; apply H2; by apply E]. Qed.

Lemma row_for_status e a st : row_for e a -> row_for e (set_status st a).
Proof. by unfold row_for. Qed.

(** A change of statuses keeps the rows. *)
Lemma tracks_status P m (f : accrual -> accrual) : (forall a, f a = a \/ exists st, f a = set_status st a) -> tracks P m -> tracks P (f <$> m).
Proof.
  intros Hf [H1 H2]. assert (forall e a, row_for e a -> row_for e (f a)) as Hrow by (intros e a Ha; destruct (Hf a) as [-> |[st ->]]; [done|by apply row_for_status]).
  split.
  - intros n b. rewrite lookup_fmap. destruct (m !! n) as [a|] eqn:Ea; [|done]. intros [= <-]. destruct (H1 n a Ea) as (e & He & Hs & Hr). exists e. auto.
  - intros e He Hp. destruct (H2 e He Hp) as (a & Ha & Hr). exists (f a). rewrite lookup_fmap, Ha. auto.
Qed.

Section ingest.
Context (cfg : ledger_config) (token_price : string -> float) (group_env : string -> option string).
Context (Hcfg : valid_config cfg = true) (Hprice : forall e, 0 <= token_price e).

Lemma ingest_insert P l l' e a : tracks P (accruals l) -> (forall e', P e' -> seq e' < seq e) -> row_for e a -> insert_accrual e a l = Ok l' ->
  tracks (fun x => P x \/ x = e) (accruals l').
Proof.
  intros [H1 H2] Hlt Hr. unfold insert_accrual. destruct (accruals l !! seq e); [done|]. intros <-%(inj Ok). cbn. split.
  - intros n b. rewrite lookup_insert. destruct (decide (seq e = n)) as [<-|Hne].
    + intros [= <-]. exists e. auto.
    + intros Hb. destruct (H1 n b Hb) as (x & Hx & Hs). exists x. auto.
  - intros x [Hx| ->] Hp; [|exists a; by rewrite lookup_insert_eq]. destruct (H2 x Hx Hp) as (b & Hb & Hrb). exists b.
    rewrite lookup_insert_ne; [done|]. specialize (Hlt x Hx). lia.
Qed.

Lemma tracks_skip P m e : pays e = false -> tracks P m -> tracks (fun x => P x \/ x = e) m.
Proof.
  intros Hp [H1 H2]. split; [intros n a Ha; destruct (H1 n a Ha) as (x & ? & ?); eauto|]. intros x [Hx| ->] Hpx; [auto|congruence].
Qed.

(** Reading one event never raises, and adds its row when it is payable. *)
Lemma ingest_event_tracks P c l e : ledger_ok cfg (set_cursor c l) -> c < seq e -> good_event e ->
  (forall f, ev_detail e = FirstScan f -> is_Some (group_env (RlLedger.lease_id e))) ->
  tracks P (accruals l) -> (forall e', P e' -> seq e' < seq e) ->
  exists l', ingest_event cfg token_price group_env l e = Ok l' /\ ledger_ok cfg (set_cursor (seq e) l') /\ tracks (fun x => P x \/ x = e) (accruals l').
Proof.
  intros Hok Hc Hg Henv Ht Hlt.
  assert (exists l', ingest_event cfg token_price group_env l e = Ok l' /\ tracks (fun x => P x \/ x = e) (accruals l')) as (l' & E & Ht').
  { assert (forall a, row_for e a -> exists l', insert_accrual e a l = Ok l' /\ tracks (fun x => P x \/ x = e) (accruals l')) as Hins.
    { intros a Hr. destruct (insert_accrual e a l) as [l'|x] eqn:E; [exists l'; split; [done|by eapply ingest_insert]|]. exfalso.
      unfold insert_accrual in E. destruct (accruals l !! seq e) as [b|] eqn:Eb; [|done]. destruct (ok_rows _ _ Hok _ _ Eb) as (_ & _ & H). cbn in H. lia. }
    unfold ingest_event. destruct (ev_detail e) as [until|env m cts n|fraction|] eqn:Ed.
    - eexists. split; [done|]. cbn. apply tracks_skip; [unfold pays; by rewrite Ed|]. apply tracks_status; [|done]. intros a. unfold RlLedger.forfeit. destruct (bool_decide _); eauto.
    - cbv zeta. apply Hins. unfold row_for, pays. rewrite Ed. done.
    - destruct (Henv fraction eq_refl) as [env ->]. cbv zeta. apply Hins. unfold row_for, pays. rewrite Ed. done.
    - eexists. split; [done|]. apply tracks_skip; [unfold pays; by rewrite Ed|done]. }
  exists l'. split_and!; [done| |done]. by eapply ingest_event_ok.
Qed.

Lemma ingest_fold_tracks events : forall P c l, ledger_ok cfg (set_cursor c l) -> StronglySorted (fun e e' => seq e < seq e') events ->
  Forall (fun e => c < seq e) events -> Forall good_event events ->
  (forall e f, e ∈ events -> ev_detail e = FirstScan f -> is_Some (group_env (RlLedger.lease_id e))) ->
  tracks P (accruals l) -> (forall e e', P e' -> e ∈ events -> seq e' < seq e) ->
  exists l', fold_result (ingest_event cfg token_price group_env) l events = Ok l' /\ tracks (fun x => P x \/ x ∈ events) (accruals l').
Proof.
  induction events as [|e events IH]; intros P c l Hok Hs Hc Hg Henv Ht Hlt.
  { exists l. split; [done|]. eapply tracks_iff; [|done]. intros e. rewrite elem_of_nil. tauto. }
  apply StronglySorted_inv in Hs as [Hs Hall]. apply Forall_cons in Hc as [Hc _]. apply Forall_cons in Hg as [Hg Hgs].
  destruct (ingest_event_tracks P c l e Hok Hc Hg) as (l1 & E1 & Hok1 & Ht1); [intros f; apply Henv; constructor|done|intros e' He'; apply Hlt; [done|constructor]|].
  destruct (IH (fun x => P x \/ x = e) (seq e) l1 Hok1 Hs Hall Hgs) as (l' & E' & Ht'); [intros x f Hx; apply Henv; by constructor|done| |].
  - intros x e' [He'| ->] Hx; [apply Hlt; [done|by constructor]|]. by eapply Forall_forall in Hall.
  - exists l'. cbn [fold_result]. rewrite E1, bind_ok. split; [done|]. eapply tracks_iff; [|done]. intros x. rewrite elem_of_cons. tauto.
Qed.
End ingest.

(** The events read up to a cursor. *)
Definition read_to (evs : list event) (c : Z) (e : event) : Prop := e ∈ evs /\ seq e <= c.

Lemma sorted_app_inv {A} (R : A -> A -> Prop) (l1 l2 : list A) : StronglySorted R (l1 ++ l2) -> forall x y, x ∈ l1 -> y ∈ l2 -> R x y.
Proof.
  induction l1 as [|z l1 IH]; intros H x y Hx Hy; [by apply not_elem_of_nil in Hx|]. apply StronglySorted_inv in H as [H Hall].
  apply elem_of_cons in Hx as [-> |Hx]; [|by apply IH]. eapply Forall_forall; [exact Hall|]. apply elem_of_app. auto.
Qed.

Section source.
Context (cfg : ledger_config) (token_price : string -> float) (group_env : string -> option string) (evs : list event).
Context `{!EventSource group_env evs} (Hcfg : valid_config cfg = true) (Hprice : forall e, 0 <= token_price e).

(** A batch of the unread events. *)
Lemma batch_read c n e : let batch := take n (filter (fun e => c < seq e) evs) in
  last batch = Some e -> c < seq e /\ forall x, (read_to evs c x \/ x ∈ batch) <-> read_to evs (seq e) x.
Proof.
  intros batch Hlast. set (unread := filter (fun e => c < seq e) evs) in *.
  assert (forall x, x ∈ unread <-> x ∈ evs /\ c < seq x) as Hun by (intros x; unfold unread; rewrite list_elem_of_filter; tauto).
  assert (forall x, x ∈ batch -> x ∈ evs /\ c < seq x) as Hb.
  { intros x Hx. apply Hun. apply elem_of_take in Hx as (i & Hi & _). by eapply list_elem_of_lookup_2. }
  assert (e ∈ batch) as He by (by apply last_Some_elem_of). split; [by apply Hb|].
  assert (StronglySorted (fun e e' => seq e < seq e') unread) as Hs.
  { rewrite <- (firstn_all unread). apply sorted_take_filter, source_sorted. }
  assert (forall x, x ∈ batch -> seq x <= seq e) as Hmax.
  { intros x Hx. apply last_Some in Hlast as [init Hi]. rewrite <- (take_drop n unread) in Hs. fold batch in Hs.
    rewrite Hi in Hx, Hs. apply elem_of_app in Hx as [Hx|Hx]; [|apply list_elem_of_singleton in Hx as ->; done].
    rewrite <- app_assoc in Hs. pose proof (sorted_app_inv _ _ _ Hs x e Hx) as H. cbn in H. specialize (H ltac:(constructor)). lia. }
  intros x. split.
  - intros [[Hx Hc]|Hx]; [split; [done|]; destruct (Hb e He); lia|]. split; [by apply Hb|by apply Hmax].
  - intros [Hx Hle]. destruct (Z.le_gt_cases (seq x) c) as [|Hgt]; [by left|right].
    assert (x ∈ unread) as Hu by (apply Hun; split; [done|lia]). rewrite <- (take_drop n unread) in Hu. apply elem_of_app in Hu as [Hu|Hu]; [done|].
    exfalso. rewrite <- (take_drop n unread) in Hs. pose proof (sorted_app_inv _ _ _ Hs e x He Hu) as H. cbn in H. lia.
Qed.

(** Reading the log never raises, keeps the ledger's invariant and gives each payable
    event it reads its row; with enough room it catches up. *)
Lemma ingest_tracks limit l : ledger_ok cfg l -> tracks (read_to evs (pay_cursor l)) (accruals l) ->
  exists l', ingest cfg token_price group_env evs limit l = (Ok (Z.of_nat (length (take (Z.to_nat limit) (filter (fun e => pay_cursor l < seq e) evs)))), l') /\
    ledger_ok cfg l' /\ tracks (read_to evs (pay_cursor l')) (accruals l') /\
    (Z.of_nat (length evs) <= limit -> forall e, e ∈ evs -> seq e <= pay_cursor l').
Proof.
  intros Hok Ht. pose proof (ingest_ok cfg token_price group_env Hcfg Hprice evs limit l Hok source_sorted source_good) as Hok'.
  unfold ingest in Hok' |- *. set (batch := take _ _) in *.
  assert (Z.of_nat (length evs) <= limit -> batch = filter (fun e => pay_cursor l < seq e) evs) as Hfull.
  { intros Hlim. unfold batch. apply take_ge. pose proof (length_filter (fun e => pay_cursor l < seq e) evs). lia. }
  destruct (last batch) as [e|] eqn:El.
  - destruct (batch_read (pay_cursor l) (Z.to_nat limit) e El) as [Hc Hread]. fold batch in Hread.
    assert (forall x, x ∈ batch -> x ∈ evs /\ pay_cursor l < seq x) as Hb.
    { intros x Hx. apply elem_of_take in Hx as (i & Hi%list_elem_of_lookup_2 & _). by apply list_elem_of_filter in Hi as [? ?]. }
    destruct (ingest_fold_tracks cfg token_price group_env Hcfg Hprice batch (read_to evs (pay_cursor l)) (pay_cursor l) l) as (l' & E & Ht').
    + by destruct l.
    + apply sorted_take_filter, source_sorted.
    + apply Forall_forall. intros x Hx. by apply Hb.
    + apply Forall_forall. intros x Hx. eapply Forall_forall; [apply source_good|]. by apply Hb.
    + intros x f Hx. apply source_env. by apply Hb.
    + done.
    + intros x x' [_ Hx'] Hx. destruct (Hb x Hx). lia.
    + rewrite E in Hok' |- *. exists (set_cursor (seq e) l'). split_and!; [done|done| |].
      * cbn. eapply tracks_iff; [|done]. exact Hread.
      * intros Hlim x Hx. cbn. apply Hread. destruct (Z.le_gt_cases (seq x) (pay_cursor l)); [by left|right]. rewrite Hfull by done.
        apply list_elem_of_filter. split; [lia|done].
  - apply last_None in El. exists l. rewrite El. split_and!; [done|done|done|]. intros Hlim x Hx. specialize (Hfull Hlim). rewrite El in Hfull.
    destruct (Z.le_gt_cases (seq x) (pay_cursor l)); [done|]. exfalso. apply (not_elem_of_nil x). rewrite Hfull. apply list_elem_of_filter. split; [lia|done].
Qed.
End source.

(** ** The submission path is such a source *)

Definition pay_events (s : submissions) : list event := imap ledger_event (events s).

Lemma pay_events_elem s e : e ∈ pay_events s <-> exists i x, events s !! i = Some x /\ e = ledger_event i x.
Proof. unfold pay_events. rewrite elem_of_lookup_imap. naive_solver. Qed.

Lemma pays_payable i x : pays (ledger_event i x) = payable x.
Proof. unfold pays, payable. cbn. by destruct (er_detail x). Qed.

Lemma imap_sorted k (l : list event_row) : StronglySorted (fun e e' => seq e < seq e') (imap (fun i => ledger_event (k + i)) l).
Proof.
  revert k. induction l as [|x l IH]; intros k; [constructor|]. rewrite imap_cons. constructor.
  - erewrite imap_ext; [apply (IH (S k))|]. intros i y _. cbn. f_equal. lia.
  - apply Forall_forall. intros e (i & y & -> & _)%elem_of_lookup_imap. cbn. unfold event_seq. lia.
Qed.

Lemma filter_one_index {A} (P : A -> Prop) `{!forall x, Decision (P x)} (l : list A) z i j x y :
  filter P l = [z] -> l !! i = Some x -> P x -> l !! j = Some y -> P y -> i = j.
Proof.
  assert (forall l i x, l !! i = Some x -> P x -> filter P l <> []) as Hne.
  { intros l' i' x' Hx%list_elem_of_lookup_2 Hp E. apply (not_elem_of_nil x'). rewrite <- E. by apply list_elem_of_filter. }
  revert i j. induction l as [|w l IH]; intros i j Hf Hi Hx Hj Hy; [done|]. rewrite filter_cons in Hf. destruct (decide (P w)) as [Hw|Hw].
  - injection Hf as _ Hf. destruct i as [|i], j as [|j]; try done; exfalso; [by eapply (Hne l j)|by eapply (Hne l i)..].
  - destruct i as [|i], j as [|j]; cbn in Hi, Hj; try congruence. f_equal. by apply IH.
Qed.

#[export] Instance submission_source c s : TCAnd (all_life c s) (0 <= first_scan_fraction c) -> EventSource (env_of s) (pay_events s).
Proof.
  intros [Hs Hfrac].
  assert (forall i x, events s !! i = Some x -> payable x = true -> events_of (er_lease x) s = [x] /\
    exists r, groups s !! er_lease x = Some r /\ entitled c r (er_detail x)) as Hpay.
  { intros i x Hx%list_elem_of_lookup_2 Hp. destruct (payable_unique c s x x Hs Hx Hx Hp Hp eq_refl) as [E _]. split; [done|].
    destruct (life_event c (er_lease x) (view_of s (er_lease x)) x (Hs _)) as (_ & r & Hr & _ & Hent); [cbn; rewrite E; by constructor|].
    exists r. split; [exact Hr|by apply Hent]. }
  split.
  - apply (imap_sorted 0).
  - apply Forall_forall. intros e (i & x & Hx & ->)%pay_events_elem. unfold good_event. cbn.
    destruct (er_detail x) as [f au| |d| |] eqn:Ed; try done; cbn; destruct (Hpay i x Hx) as (_ & r & _ & Hent);
      try (unfold payable; by rewrite Ed); rewrite Ed in Hent; cbn in Hent.
    + by destruct Hent as [-> _].
    + destruct Hent as (_ & _ & _ & _ & Hm & Hc & _ & Hn). destruct (RlSubmit.matched_tokens d) as [ns|].
      * clear -Hn. induction Hn as [|n m ns ms Hnm Hn IH]; constructor; [lia|done].
      * split; [|done]. eapply Forall_impl; [exact Hm|]. cbn. intros z Hz. lia.
  - intros e f (i & x & Hx & ->)%pay_events_elem Hd. cbn in Hd |- *. destruct (Hpay i x Hx) as (_ & r & Hr & _).
    + unfold payable. by destruct (er_detail x).
    + unfold env_of. by rewrite Hr.
  - intros e e' (i & x & Hx & ->)%pay_events_elem (j & y & Hy & ->)%pay_events_elem. rewrite !pays_payable. intros Hpx Hpy Hl. cbn in Hl.
    destruct (Hpay i x Hx Hpx) as [E _].
    assert (i = j) as -> by (apply (filter_one_index _ _ _ i j x y E Hx); [by apply payable_about|done|by apply payable_about]). congruence.
Qed.

(** The ledger asks for the events after its cursor only. *)
Lemma filter_twice {A} (P : A -> Prop) `{!forall x, Decision (P x)} (l : list A) : filter P (filter P l) = filter P l.
Proof. rewrite list_filter_filter. apply list_filter_iff. tauto. Qed.

Lemma ingest_since cfg tp ge s limit l :
  ingest cfg tp ge (events_since (pay_cursor l) s) limit l = ingest cfg tp ge (pay_events s) limit l.
Proof. unfold ingest, events_since. by rewrite filter_twice. Qed.

(** ** The two components together *)

Section together.
Context (bcfg : book_config) (qcfg : quota_config) (scan : gmap string lease_row -> list (string * lease_row)) (scfg : submit_config).
Context (lcfg : ledger_config).

(** One transaction of either component. *)
Inductive pay_step : submissions * ledger -> submissions * ledger -> Prop :=
  | pay_submit s s' l : submit_step bcfg qcfg scan scfg s s' -> pay_step (s, l) (s', l)
  | pay_ingest token_price limit s l : (forall e, 0 <= token_price e) ->
      pay_step (s, l) (s, (ingest lcfg token_price (env_of s) (events_since (pay_cursor l) s) limit l).2)
  | pay_settle targets downtime now clock s l : (forall e x, targets !! e = Some x -> 0 <= x) ->
      pay_step (s, l) (s, (settle lcfg targets downtime now clock l).2)
  | pay_beat now s l : pay_step (s, l) (s, trainer_beat lcfg now l)
  | pay_prepare now work s l r l' : publish_prepare lcfg now work l = Ok (r, l') -> pay_step (s, l) (s, l')
  | pay_confirm work s l : pay_step (s, l) (s, publish_confirm work l).

Record pay_ok (st : submissions * ledger) : Prop := {
  po_life : all_life scfg st.1;
  po_ledger : ledger_ok lcfg st.2;
  po_rows : tracks (read_to (pay_events st.1) (pay_cursor st.2)) (accruals st.2);
  po_cursor : pay_cursor st.2 <= Z.of_nat (length (events st.1));
}.

Context (Hscfg : valid_submit scfg = true) (Hlcfg : valid_config lcfg = true).

Lemma fraction_nonneg : 0 <= first_scan_fraction scfg.
Proof.
  pose proof Hscfg as H. unfold valid_submit in H. split_andb H. by apply Z.leb_le.
Qed.

(** The log grows behind the cursor only at its end. *)
Lemma read_to_grow s s' c : events_grow s s' -> c <= Z.of_nat (length (events s)) ->
  forall e, read_to (pay_events s) c e <-> read_to (pay_events s') c e.
Proof.
  intros [new E] Hc e. unfold read_to. rewrite !pay_events_elem. split; intros [(i & x & Hx & ->) Hle]; (split; [|done]); exists i, x; (split; [|done]).
  - rewrite E. by apply lookup_app_l_Some.
  - rewrite E in Hx. cbn in Hle. unfold event_seq in Hle. by rewrite lookup_app_l in Hx by lia.
Qed.

Lemma cursor_bound s c : (exists e, e ∈ pay_events s /\ c = seq e) -> c <= Z.of_nat (length (events s)).
Proof.
  intros (e & (i & x & Hx & ->)%pay_events_elem & ->). apply lookup_lt_Some in Hx. cbn. unfold event_seq. lia.
Qed.

Lemma ingest_cursor tp ge s limit l : pay_cursor l <= Z.of_nat (length (events s)) ->
  pay_cursor (ingest lcfg tp ge (pay_events s) limit l).2 <= Z.of_nat (length (events s)).
Proof.
  intros Hc. unfold ingest. destruct (last (take _ _)) as [e|] eqn:El; [|done]. destruct (fold_result _ _ _); [|done]. cbn.
  apply cursor_bound. exists e. split; [|done]. apply last_Some_elem_of in El. apply elem_of_take in El as (i & Hi%list_elem_of_lookup_2 & _).
  by apply list_elem_of_filter in Hi as [_ ?].
Qed.

Lemma rows_settle_tracks P m m' : rows_settle m m' -> tracks P m -> tracks P m'.
Proof.
  intros H [H1 H2]. split.
  - intros n b Hb. specialize (H n). rewrite Hb in H. destruct (m !! n) as [a|] eqn:Ea; [|done]. destruct (H1 n a Ea) as (e & He & Hs & Hr).
    exists e. destruct H as [-> |[_ ->]]; auto using row_for_status.
  - intros e He Hp. destruct (H2 e He Hp) as (a & Ha & Hr). specialize (H (seq e)). rewrite Ha in H. destruct (m' !! seq e) as [b|]; [|done].
    exists b. destruct H as [-> |[_ ->]]; auto using row_for_status.
Qed.

Lemma pay_step_ok st st' : pay_ok st -> pay_step st st' -> pay_ok st'.
Proof.
  intros [H1 H2 H3 H4]. destruct 1 as [s s' l Hst|tp limit s l Htp|tg dt now ck s l Ht|now s l|now w s l r l' Hp|w s l]; cbn in H1, H2, H3, H4.
  - pose proof (step_events _ _ _ _ _ _ Hst) as Hg. split; cbn; [by eapply step_life|done| |].
    + eapply tracks_iff; [|exact H3]. by apply read_to_grow.
    + destruct Hg as [new ->]. rewrite length_app. lia.
  - pose proof (submission_source scfg s (TCAnd_intro _ _ H1 fraction_nonneg)) as Hsrc. rewrite ingest_since.
    destruct (ingest_tracks lcfg tp (env_of s) (pay_events s) Hlcfg Htp limit l H2 H3) as (l' & E & Hok & Ht & _).
    pose proof (ingest_cursor tp (env_of s) s limit l H4) as Hc. rewrite E in Hc |- *. by split.
  - destruct (settle_ok lcfg tg dt now ck l Hlcfg Ht H2) as (docs & l' & E & Hok & Hsb & _). rewrite E. destruct Hsb as [Hr _ _ _ Hc].
    split; cbn; [done|done| |by rewrite Hc]. rewrite Hc. by eapply rows_settle_tracks.
  - assert (accruals (trainer_beat lcfg now l) = accruals l /\ pay_cursor (trainer_beat lcfg now l) = pay_cursor l) as [E1 E2].
    { unfold trainer_beat. destruct (outage_fill lcfg); [|done]. cbv zeta. by destruct (match beat_at l with Some _ => _ | None => _ end). }
    split; cbn; [done|by apply trainer_beat_ok|by rewrite E1, E2|by rewrite E2].
  - destruct (publish_prepare_cases lcfg now w l r l' H2 Hp) as [Hok _].
    assert (accruals l' = accruals l /\ pay_cursor l' = pay_cursor l) as [E1 E2].
    { unfold publish_prepare in Hp. destruct (archives l !! w) as [[d []]|]; try done; try (by injection Hp as <- <-); cbv zeta in Hp;
        destruct (match _ with true => _ | false => _ end) as [[? ?]|] eqn:E in Hp; try done; injection Hp as <- <-;
        repeat (case_match; try done); by injection E as <- <-. }
    split; cbn; [done|done|by rewrite E1, E2|by rewrite E2].
  - split; cbn; [done|by apply publish_confirm_ok|done|done].
Qed.

Lemma pay_reachable_ok st : rtc pay_step (empty_submissions, new_ledger) st -> pay_ok st.
Proof.
  apply rtc_invariant; [intros x y; apply pay_step_ok|]. split; cbn; [apply empty_life|apply new_ledger_ok| |lia].
  split; [intros n a; by rewrite lookup_empty|]. intros e [He _]. by apply not_elem_of_nil in He.
Qed.
End together.

(** ** The promises of the two together *)

(** What a lease is paid for. *)
Definition earned (c : submit_config) (r : group_row) (k : pay_kind) : Prop :=
  match k with
  | trained => gr_verdict r = graded_group IN_ZONE /\ gr_training r = Some training_accepted
  | RlLedger.first_scan => gr_first_scan r = true /\ gr_verdict r <> graded_group IN_ZONE /\ gr_verdict r <> rejected_group /\
      first_scan_min_tokens c <= gr_tokens r /\ (gr_audit r = Some NOT_DRAWN \/ gr_audit r = Some PASSED)
  end.

(** C1: end to end, no lease is paid twice.  Whatever the interleaving of submissions,
    audits, training reports, sweeps, ingestions, settlements and publications, the
    ledger holds at most one accrual of a lease; it goes to the hotkey the group was
    recorded for, and the group was accepted by the trainer, or is a graded first
    scan out of zone with enough tokens that was not drawn for audit or passed it. *)
Theorem lease_accrued_once (bcfg : book_config) (qcfg : quota_config) (scan : gmap string lease_row -> list (string * lease_row)) (scfg : submit_config)
    (lcfg : ledger_config) (s : submissions) (l : ledger) (n : Z) (a : accrual) :
  valid_submit scfg = true -> valid_config lcfg = true ->
  rtc (pay_step bcfg qcfg scan scfg lcfg) (empty_submissions, new_ledger) (s, l) -> accruals l !! n = Some a ->
  (forall m b, accruals l !! m = Some b -> acc_lease b = acc_lease a -> m = n) /\
  exists r, groups s !! acc_lease a = Some r /\ gr_hotkey r = acc_hotkey a /\ earned scfg r (acc_kind a).
Proof.
  intros Hs Hl Hreach Ha. destruct (pay_reachable_ok _ _ _ _ _ Hs Hl _ Hreach) as [Hlife Hok [Hrows _] _]. cbn in Hlife, Hok, Hrows.
  destruct (Hrows n a Ha) as (e & [He _] & Hn & H1 & H2 & Hp & Hk). split.
  - intros m b Hb Hlease. destruct (Hrows m b Hb) as (e' & [He' _] & Hm & H1' & _ & Hp' & _).
    pose proof (submission_source scfg s (TCAnd_intro _ _ Hlife (fraction_nonneg scfg Hs))) as Hsrc.
    rewrite <- Hm, <- Hn. f_equal. eapply source_once; [done..|congruence].
  - apply pay_events_elem in He as (i & x & Hx%list_elem_of_lookup_2 & ->). rewrite pays_payable in Hp. cbn in H1, H2, Hk.
    destruct (payable_unique scfg s x x Hlife Hx Hx Hp Hp eq_refl) as [E _].
    destruct (life_event scfg (er_lease x) (view_of s (er_lease x)) x (Hlife _)) as (_ & r & Hr & Hh & Hent); [cbn; rewrite E; by constructor|].
    exists r. rewrite H1, H2, Hk. split_and!; [exact Hr|done|]. specialize (Hent Hp). unfold payable in Hp. destruct (er_detail x) as [f [] | |d| |]; try done; cbn in *;
      [destruct Hent as (_ & ? & ? & ? & ? & ?); split_and!; auto..|]. by destruct Hent as (? & ? & _).
Qed.

(** C22: no payable work is lost.  In every reachable state an ingestion succeeds and
    tells how many events it read; one with room for the whole log leaves the ledger
    with the accrual of every payable event, and reading again finds nothing. *)
Theorem ingest_complete (bcfg : book_config) (qcfg : quota_config) (scan : gmap string lease_row -> list (string * lease_row)) (scfg : submit_config)
    (lcfg : ledger_config) (s : submissions) (l : ledger) (token_price : string -> float) (limit : Z) :
  valid_submit scfg = true -> valid_config lcfg = true -> (forall e, 0 <= token_price e) ->
  rtc (pay_step bcfg qcfg scan scfg lcfg) (empty_submissions, new_ledger) (s, l) ->
  let read := events_since (pay_cursor l) s in
  exists l', ingest lcfg token_price (env_of s) read limit l = (Ok (Z.of_nat (Nat.min (Z.to_nat limit) (length read))), l') /\
    (Z.of_nat (length (events s)) <= limit ->
       events_since (pay_cursor l') s = [] /\
       forall i e, events s !! i = Some e -> payable e = true -> exists a, accruals l' !! event_seq i = Some a /\ acc_lease a = er_lease e /\ acc_hotkey a = er_hotkey e).
Proof.
  intros Hs Hl Hp Hreach read. destruct (pay_reachable_ok _ _ _ _ _ Hs Hl _ Hreach) as [Hlife Hok Hrows _]. cbn in Hlife, Hok, Hrows.
  pose proof (submission_source scfg s (TCAnd_intro _ _ Hlife (fraction_nonneg scfg Hs))) as Hsrc.
  destruct (ingest_tracks lcfg token_price (env_of s) (pay_events s) Hl Hp limit l Hok Hrows) as (l' & E & _ & [_ Ht] & Hall).
  exists l'. unfold read. rewrite ingest_since. split; [rewrite E; by rewrite length_take|]. intros Hlim.
  assert (forall e, e ∈ pay_events s -> seq e <= pay_cursor l') as Hread by (apply Hall; unfold pay_events; by rewrite length_imap). split.
  - destruct (events_since (pay_cursor l') s) as [|e es] eqn:Ev; [done|]. exfalso.
    assert (e ∈ events_since (pay_cursor l') s) as [Hlt He]%list_elem_of_filter by (rewrite Ev; constructor). specialize (Hread e He). lia.
  - intros i e Hi Hpe. assert (ledger_event i e ∈ pay_events s) as He by (apply pay_events_elem; eauto).
    destruct (Ht (ledger_event i e)) as (a & Ha & H1 & H2 & _); [split; [done|by apply Hread]|by rewrite pays_payable|]. by exists a.
Qed.

(** *** The first scan of the previous scenario, paid *)

Definition w_price (_ : string) : float := flit 1 4.
Definition w_ledger : ledger := (ingest RlLedger.w_config w_price (env_of (w_submitted w_free).2) (events_since (pay_cursor new_ledger) (w_submitted w_free).2) 10 new_ledger).2.

Lemma w_price_nonneg e : 0 <= w_price e.
Proof. vm_compute. discriminate. Qed.

Lemma w_free_valid : valid_submit w_free = true.
Proof. vm_compute. reflexivity. Qed.
Lemma w_config_valid : valid_config RlLedger.w_config = true.
Proof. vm_compute. reflexivity. Qed.

Lemma w_paid_reachable c : rtc (pay_step RlLeases.w_config w_qcfg map_to_list c RlLedger.w_config) (empty_submissions, new_ledger) ((w_submitted c).2, new_ledger).
Proof.
  pose proof (w_submitted_reachable c) as H. revert H. generalize empty_submissions as s0, (w_submitted c).2 as s. intros s0 s.
  induction 1 as [s|s s1 s2 Hst _ IH]; [apply rtc_refl|]. eapply rtc_l; [apply pay_submit; exact Hst|exact IH].
Qed.

Lemma w_log : exists e, events (w_submitted w_free).2 = [e] /\ payable e = true /\ er_lease e = "a"%string /\ er_hotkey e = "alice"%string.
Proof.
  pose proof w_free_facts as H. destruct (w_submitted w_free) as [[a|] s]; [|discriminate H]. cbn [snd].
  apply andb_true_iff in H as [[_ Hl%Nat.eqb_eq]%andb_true_iff He]. destruct (events s) as [|e [|]]; [discriminate Hl| |discriminate Hl].
  cbn [forallb] in He. rewrite andb_true_r in He. apply andb_true_iff in He as [[Hp El%String.eqb_eq]%andb_true_iff Eh%String.eqb_eq]. by exists e.
Qed.

Lemma w_ledger_row : exists a, accruals w_ledger !! 1 = Some a.
Proof.
  destruct w_log as (e & Ev & Hp & _). pose proof (w_paid_reachable w_free) as Hreach. unfold w_ledger. revert Ev Hreach.
  generalize (w_submitted w_free).2 as s. intros s Ev Hreach.
  destruct (pay_reachable_ok _ _ _ _ _ w_free_valid w_config_valid _ Hreach) as [Hlife Hok Hrows _]. cbn [fst snd] in Hlife, Hok, Hrows.
  pose proof (submission_source w_free s (TCAnd_intro _ _ Hlife (fraction_nonneg w_free w_free_valid))) as Hsrc.
  destruct (ingest_tracks RlLedger.w_config w_price _ _ w_config_valid w_price_nonneg 10 new_ledger Hok Hrows) as (l' & E & _ & [_ Ht] & Hall).
  rewrite ingest_since, E. cbn [snd]. assert (ledger_event 0 e ∈ pay_events s) as He by (apply pay_events_elem; exists 0%nat, e; by rewrite Ev).
  destruct (Ht (ledger_event 0 e)) as (a & Ha & _); [split; [done|]; apply Hall; [|done]|by rewrite pays_payable|by exists a].
  unfold pay_events. rewrite length_imap, Ev. cbn. lia.
Qed.

Lemma ingest_complete_witness : exists a, accruals w_ledger !! 1 = Some a /\ acc_lease a = "a"%string /\ acc_hotkey a = "alice"%string.
Proof.
  destruct w_log as (e & Ev & Hp & <- & <-).
  destruct (ingest_complete RlLeases.w_config w_qcfg map_to_list w_free RlLedger.w_config (w_submitted w_free).2 new_ledger w_price 10)
    as (l' & E & H); [apply w_free_valid|apply w_config_valid|apply w_price_nonneg|apply w_paid_reachable|].
  unfold w_ledger. rewrite E. cbn [snd]. clear E. revert Ev H. generalize (w_submitted w_free).2 as s. intros s Ev H. rewrite Ev in H.
  destruct H as [_ H]; [cbn [length]; lia|]. exact (H 0%nat e eq_refl Hp).
Defined.

Lemma lease_accrued_once_witness : exists a r, accruals w_ledger !! 1 = Some a /\
  groups (w_submitted w_free).2 !! acc_lease a = Some r /\ earned w_free r (acc_kind a).
Proof.
  destruct w_ledger_row as (a & Ha).
  destruct (lease_accrued_once RlLeases.w_config w_qcfg map_to_list w_free RlLedger.w_config (w_submitted w_free).2 w_ledger 1 a) as (_ & r & Hr & _ & He).
  - apply w_free_valid.
  - apply w_config_valid.
  - eapply rtc_r; [apply w_paid_reachable|]. exact (pay_ingest _ _ _ _ _ w_price 10 (w_submitted w_free).2 new_ledger w_price_nonneg).
  - exact Ha.
  - exists a, r. exact (conj Ha (conj Hr He)).
Defined.
