(* ===== verification/RlPrice.v ===== *)
(** * RlPrice: the price controller of the asynchronous RL loop

    Models [reliquary/validator/rl_price.py]: the trainer's speed read from its takes,
    the supply of each environment, the step of a price in the per-environment mode and
    the level and weights of the level mode, as they are kept in the lease book's file.

    A tick is one transaction: when it raises, the tables are as before.  A division by
    zero raises; the power of two floats is the C library's, the parameter [pow] on
    positive bases, and raises for zero to a negative power as Python's does.  The
    targets are the dict [targets] in its order.  The signal columns, which only
    explain a decision, are not modelled. *)

From S2P Require Import Prelude PyFloat RlLedger RlQuota RlBuffer RlLeases RlSubmit RlPay.

#[local] Open Scope Z_scope.

(** ** Parameters *)

(** The fields of [PriceParams] this controller reads. *)
Record base_params := BaseParams { start : float; decay : float; rounds_per_step : Z; p_floor : float; p_cap : float; rise : float }.

Inductive price_mode := per_env | level_mode.
#[export] Instance price_mode_eq_dec : EqDecision price_mode.
Proof. solve_decision. Defined.

Record price_params := AsyncPriceParams {
  base : base_params;
  tick_s : float;
  low : float;
  high : float;
  stale_s : float;
  speed_halflife_s : float;
  starved_share : float;
  steer_halflife_ticks : float;
  steer_step : float;
  steer_gain : float;
  pmode : price_mode;
  pay_target : float;
  oversupply_share : float;
  level_rise_h : float;
  level_decay_h : float;
  level_band : float;
  level_floor : float;
  level_cap : float;
  oversupply_decay_h : float;
  oversupply_rise_h : float;
  oversupply_floor : float;
  weight_rise_h : float;
  weight_decay_h : float;
  weight_low : float;
  weight_high : float;
  weight_floor : float;
  weight_cap : float;
  supply_halflife_s : float;
  mix_halflife_s : float;
  idle_s : float;
  period_s : float;
}.

(** [__post_init__] *)
Definition valid_params (p : price_params) : bool :=
  (0 <? tick_s p) && (0 <? low p) && (low p <=? high p) && (0 <? stale_s p) && (0 <? speed_halflife_s p)
  && (0 <=? starved_share p) && (starved_share p <? fone) && (0 <? steer_halflife_ticks p) && (fone <=? steer_step p) && (0 <=? steer_gain p)
  && (0 <? pay_target p) && (pay_target p <=? fone) && (fone <=? level_rise_h p) && (0 <? level_decay_h p) && (level_decay_h p <=? fone)
  && (0 <=? level_band p) && (0 <? level_floor p) && (level_floor p <=? level_cap p)
  && (0 <? oversupply_decay_h p) && (oversupply_decay_h p <=? fone) && (fone <=? oversupply_rise_h p)
  && (0 <? oversupply_floor p) && (oversupply_floor p <=? fone) && (0 <? oversupply_share p) && (oversupply_share p <=? fone)
  && (fone <=? weight_rise_h p) && (0 <? weight_decay_h p) && (weight_decay_h p <=? fone)
  && (0 <? weight_low p) && (weight_low p <=? fone) && (fone <=? weight_high p)
  && (0 <? weight_floor p) && (weight_floor p <=? fone) && (fone <=? weight_cap p) && (0 <? supply_halflife_s p)
  && (0 <? mix_halflife_s p) && (0 <? idle_s p) && (0 <? period_s p)
  && (0 <? p_floor (base p)) && (p_floor (base p) <=? start (base p)) && (start (base p) <=? p_cap (base p)).

Definition ROUND_SECONDS : float := of_int 3.

Record queue_tick := QueueTick { arrivals : gmap string Z; taken_n : Z; tick_starved_s : float }.

Record env_signal := EnvSignal {
  seconds : float;
  supply_tps : float;
  demand_tps : option float;
  sig_full : bool;
  capped : bool;
  starved : bool;
  relative : option float;
}.

Inductive regime := RISE | DESCEND | HOLD.
#[export] Instance regime_eq_dec : EqDecision regime.
Proof. solve_decision. Defined.

(** ** State: the tables *)

Record price_row := PriceRow { price : float; last_good : float; pr_regime : regime; decided_at : float }.
Record level_row := LevelRow { level : float; mass : float; mix_mass : float; oversupply : float }.
Record weight_row := WeightRow { weight : float; supply : float; mix : float; supplied_at : option float }.
Record work_row := WorkRow { done_tokens : float; done_s : float; pending_tokens : float; pending_s : float; active_at : float }.

Record price_state := PriceState {
  ps_prices : gmap string price_row;
  ps_level : option level_row;
  ps_weights : gmap string weight_row;
  last_tick : float;
  ps_work : option work_row;
  ps_supply : gmap string float;
}.

(** A new file; an existing one is kept ([INSERT OR IGNORE]). *)
Definition new_prices (now : float) : price_state := PriceState ∅ None ∅ now None ∅.

(** [AsyncPriceController], its fields after [__post_init__]. *)
Record controller_config := Controller_config {
  targets : list (string * float);
  c_cap : float;
  planned_tokens_per_period : float;
  start_pool : float;
  params : price_params;
}.

(** [x / y], and [x ** y] on non-negative bases. *)
Definition div (x y : float) : result float := if y =? 0 then Raise ZeroDivisionError else Ok (fdiv x y).

Section prices.
Context (pow : float -> float -> float).

Definition power (x y : float) : result float :=
  if x =? 0 then (if y <? 0 then Raise ZeroDivisionError else Ok (if y =? 0 then fone else 0)) else Ok (pow x y).

(** [1e-6] *)
Definition TARGET_TOLERANCE : float := flit 1 1000000.

(** [base.cap] is raised to [cap / start_pool]. *)
Definition raise_cap (c : float) (p : price_params) : price_params :=
  let b := base p in
  if p_cap b <? c then
    AsyncPriceParams (BaseParams (start b) (decay b) (rounds_per_step b) (p_floor b) c (rise b)) (tick_s p) (low p) (high p) (stale_s p)
      (speed_halflife_s p) (starved_share p) (steer_halflife_ticks p) (steer_step p) (steer_gain p) (pmode p) (pay_target p) (oversupply_share p)
      (level_rise_h p) (level_decay_h p) (level_band p) (level_floor p) (level_cap p) (oversupply_decay_h p) (oversupply_rise_h p)
      (oversupply_floor p) (weight_rise_h p) (weight_decay_h p) (weight_low p) (weight_high p) (weight_floor p) (weight_cap p)
      (supply_halflife_s p) (mix_halflife_s p) (idle_s p) (period_s p)
  else p.

Definition new_controller (tg : list (string * float)) (cap planned : float) (pool : option float) (p : price_params) : result controller_config :=
  if bool_decide (tg = []) || existsb (fun v => v.2 <? 0) tg || (TARGET_TOLERANCE <? Z.abs (fsub (py_sum tg.*2) fone)) then Raise ValueError
  else
    let sp := default cap pool in
    if negb ((0 <? cap) && (0 <? planned) && (0 <? sp) && (sp <=? cap)) then Raise ValueError
    else Ok (Controller_config tg cap planned sp (raise_cap (fdiv cap sp) p)).

Context (c : controller_config).
Abbreviation prm := (params c).
Abbreviation bs := (base (params c)).

Definition target_of (env : string) : float := default 0 (list_to_map (M := gmap string float) (targets c) !! env).
(** [sorted(self.targets)] *)
Definition sorted_envs : list string := isort String.leb (targets c).*1.

(** ** Reads *)

Definition multiplier (env : string) (s : price_state) : float := default (start bs) (price <$> ps_prices s !! env).
Definition nominal : float := fdiv (start_pool c) (planned_tokens_per_period c).
Definition token_price (env : string) (s : price_state) : float :=
  if target_of env <=? 0 then 0 else fmul (multiplier env s) nominal.

(** ** One environment *)

Definition ratio (g : env_signal) : option float :=
  match demand_tps g with Some d => if d =? 0 then None else Some (fdiv (supply_tps g) d) | None => None end.

Definition move (p : float) (g : env_signal) : result (float * regime) :=
  match ratio g with
  | None => Ok (p, HOLD)
  | Some r =>
      let up := if (r <? low prm) && negb (capped g) then rise bs else fone in
      match starved g, relative g with
      | true, Some rel =>
          step ← (if (low prm <=? rel) && (rel <=? high prm) then Ok fone
                  else x ← power rel (- steer_gain prm); inv ← div fone (steer_step prm); Ok (Z.min (Z.max x inv) (steer_step prm)));
          let step := if capped g then Z.min step fone else step in
          let both := fmul up step in
          Ok (fmul p both, if fone <? both then RISE else if both <? fone then DESCEND else HOLD)
      | _, _ =>
          if fone <? up then Ok (fmul p up, RISE)
          else if ((high prm <? r) || (sig_full g && (low prm <=? r))) && negb (starved g) then
            e ← div (seconds g) (fmul (of_int (rounds_per_step bs)) ROUND_SECONDS);
            d ← power (decay bs) e;
            Ok (fmul p d, DESCEND)
          else Ok (p, HOLD)
      end
  end.

(** [min(max(value, low), high)] *)
Definition fclamp (x lo hi : float) : float := Z.min (Z.max x lo) hi.

(** ** The trainer's work and the supply *)

Definition half : float := flit 1 2.

Definition note_work (tokens starved_sec secs now : float) (w : option work_row) : result (option work_row) :=
  match w with
  | None => Ok (if 0 <? tokens then Some (WorkRow 0 0 tokens 0 now) else None)
  | Some w =>
      let pending := fadd (pending_s w) (Z.max (fsub secs (Z.min starved_sec secs)) 0) in
      let active := if (0 <? tokens) || (0 <? starved_sec) then now else active_at w in
      if (0 <? tokens) && (pending <? fdiv (tick_s prm) (of_int 2)) then
        Ok (Some (WorkRow (done_tokens w) (done_s w) (fadd (pending_tokens w) tokens) pending active))
      else if 0 <? tokens then
        e ← div pending (speed_halflife_s prm);
        keep ← power half e;
        Ok (Some (WorkRow (fadd (fmul keep (done_tokens w)) (pending_tokens w)) (fadd (fmul keep (done_s w)) pending) tokens 0 active))
      else Ok (Some (WorkRow (done_tokens w) (done_s w) (pending_tokens w) pending active))
  end.

Definition trainer_speed (now : float) (w : option work_row) : option float :=
  match w with
  | Some w => if (done_tokens w <=? 0) || (done_s w <=? 0) || (stale_s prm <? fsub now (active_at w)) then None
              else Some (fdiv (done_tokens w) (done_s w))
  | None => None
  end.

Definition arrived (q : queue_tick) (env : string) : Z := default 0 (arrivals q !! env).

(** The sums by environment, in the order of the targets. *)
Definition note_supply (q : queue_tick) (secs : float) (old : gmap string float) : result (list (string * float)) :=
  e ← div secs (fmul (steer_halflife_ticks prm) (tick_s prm));
  keep ← power half e;
  Ok ((fun t => (t.1, fadd (fmul keep (default 0 (old !! t.1))) (of_int (arrived q t.1)))) <$> targets c).

Definition due (now : float) (s : price_state) : bool := tick_s prm <=? fsub now (last_tick s).

(** ** The tick of the per-environment mode *)

Record env_move := EnvMove { mv_env : string; mv_state : float * float; mv_price : float; mv_regime : regime }.

Definition signal_of (q : queue_tick) (full : gset string) (is_capped is_starved : bool) (secs live : float) (speed : option float)
    (mixes : gmap string float) (supplied : float) (env : string) : env_signal :=
  let share := if 0 <? arrived q env then fdiv (target_of env) live else target_of env in
  EnvSignal secs (fdiv (of_int (arrived q env)) secs) ((fun v => fmul share v) <$> speed) (bool_decide (env ∈ full)) is_capped is_starved
    (if (0 <? supplied) && (0 <? target_of env) then Some (fdiv (fdiv (default 0 (mixes !! env)) supplied) (target_of env)) else None).

Definition move_env (s : price_state) (sig : string -> env_signal) (env : string) : result env_move :=
  let st := match ps_prices s !! env with Some r => (price r, last_good r) | None => (start bs, start bs) end in
  '(p, g) ← move st.1 (sig env);
  Ok (EnvMove env st p g).

(** [max(...) / base.cap], when it is past one. *)
Definition rescale_of (moves : list env_move) : result float :=
  over ← div (match moves with [] => 0 | m :: ms => foldr Z.max (mv_price m) (mv_price <$> ms) end) (p_cap bs);
  Ok (if fone <? over then over else fone).

Definition decided (now rescale : float) (m : env_move) : price_row :=
  PriceRow (fclamp (fdiv (mv_price m) rescale) (p_floor bs) (p_cap bs)) (mv_state m).2 (mv_regime m) now.

Definition live_share (q : queue_tick) : float :=
  let n := py_sum (snd <$> filter (fun t => 0 < arrived q t.1) (targets c)) in if n =? 0 then fone else n.

(** The seconds since the last tick. *)
Definition secs_of (now : float) (s : price_state) : float := Z.max (fsub now (last_tick s)) 0.

(** The signals of a tick: the trainer's speed, the two guards, the mix. *)
Definition signals (q : queue_tick) (full lane_full : gset string) (now : float) (s : price_state) (work : option work_row)
    (mixes : list (string * float)) : string -> env_signal :=
  signal_of q (full ∪ lane_full) (negb (bool_decide (full = ∅))) (fmul (starved_share prm) (secs_of now s) <? tick_starved_s q)
    (secs_of now s) (live_share q) (trainer_speed now work) (list_to_map mixes) (py_sum mixes.*2).

Definition tick_per_env (q : queue_tick) (full lane_full : gset string) (now : float) : method price_state (list (string * price_row)) := fun s =>
  let secs := secs_of now s in
  if secs <=? 0 then (Ok [], s)
  else
    match (work ← note_work (of_int (taken_n q)) (tick_starved_s q) secs now (ps_work s);
           mixes ← note_supply q secs (ps_supply s);
           moves ← mapM (move_env s (signals q full lane_full now s work mixes)) sorted_envs;
           rescale ← rescale_of moves;
           let rows := (fun m => (mv_env m, decided now rescale m)) <$> moves in
           Ok (rows, PriceState (list_to_map rows ∪ ps_prices s) (ps_level s) (ps_weights s) now work (list_to_map mixes ∪ ps_supply s))) with
    | Ok (rows, s') => (Ok rows, s')
    | Raise e => (Raise e, s)
    end.

(** ** The tick of the level mode *)

Record env_level := EnvLevel {
  el_env : string;
  el_weight : float;
  el_sum : float;
  el_mix : float;
  el_at : option float;
  el_rate : float;
  el_mix_rate : float;
}.

Definition set_weight (w : float) (e : env_level) : env_level :=
  EnvLevel (el_env e) w (el_sum e) (el_mix e) (el_at e) (el_rate e) (el_mix_rate e).

(** The row of the level, from the live board when there is none. *)
Definition level_start (s : price_state) : level_row :=
  match ps_level s with
  | Some r => r
  | None => LevelRow (fclamp (py_sum ((fun t => fmul t.2 (multiplier t.1 s)) <$> targets c)) (level_floor prm) (level_cap prm)) 0 0 fone
  end.

Definition level_env (s : price_state) (q : queue_tick) (lv keep mix_keep ms mix_ms now : float) (env : string) : result env_level :=
  fresh ← div (multiplier env s) lv;
  let row := default (WeightRow fresh 0 0 (Some now)) (ps_weights s !! env) in
  let got := of_int (arrived q env) in
  let sum := fadd (fmul keep (supply row)) got in
  let mx := fadd (fmul mix_keep (mix row)) got in
  rate ← div sum ms;
  mix_rate ← div mx mix_ms;
  Ok (EnvLevel env (weight row) sum mx (if 0 <? got then Some now else supplied_at row) rate mix_rate).

Definition is_active (now : float) (e : env_level) : bool :=
  match el_at e with Some t => (fsub now t <=? idle_s prm) && (0 <? target_of (el_env e)) | None => false end.

Definition weigh (hours now mix_supply : float) (full : gset string) (e : env_level) : result (env_level * regime) :=
  let tg := target_of (el_env e) in
  rel ← (if (0 <? mix_supply) && (0 <? tg) then a ← div (el_mix_rate e) mix_supply; b ← div a tg; Ok (Some b) else Ok None);
  if is_active now e then
    if bool_decide (el_env e ∈ full) || match rel with Some r => weight_high prm <? r | None => false end then
      d ← power (weight_decay_h prm) hours; Ok (set_weight (fmul (el_weight e) d) e, DESCEND)
    else if match rel with Some r => r <? weight_low prm | None => false end then
      u ← power (weight_rise_h prm) hours; Ok (set_weight (fmul (el_weight e) u) e, RISE)
    else Ok (e, HOLD)
  else Ok (e, HOLD).

(** The weights rescaled over the active environments, and the level that absorbs it. *)
Definition renormalise (now lv : float) (moved : list (env_level * regime)) : result (list (env_level * regime) * float) :=
  let act := filter (fun m => is_active now m.1 = true) moved in
  let mass_t := fsum ((fun m => target_of (el_env m.1)) <$> act) in
  if 0 <? mass_t then
    norm ← div (fsum ((fun m => fmul (target_of (el_env m.1)) (el_weight m.1)) <$> act)) mass_t;
    scaled ← mapM (fun m => if is_active now m.1
                            then w ← div (el_weight m.1) norm; Ok (set_weight (fclamp w (weight_floor prm) (weight_cap prm)) m.1, m.2)
                            else Ok m) moved;
    Ok (scaled, fclamp (fmul lv norm) (level_floor prm) (level_cap prm))
  else Ok (moved, lv).

(** The level towards its aim. *)
Definition move_level (hours lv over sup : float) (speed : option float) (envs : list env_level) : result float :=
  mean ← (if 0 <? sup then m ← div (fsum ((fun e => fmul (el_rate e) (el_weight e)) <$> envs)) sup; Ok (Some m) else Ok None);
  match mean, speed with
  | Some m, Some _ =>
      if m =? 0 then Ok lv
      else
        aim ← div (fmul (fmul (pay_target prm) over) (c_cap c)) (fmul (fmul (fmul nominal (period_s prm)) sup) m);
        let band := fadd fone (level_band prm) in
        under ← div lv band;
        moved ← (if (under <=? aim) && (aim <=? fmul lv band) then Ok lv
                 else edge ← (if aim <? lv then Ok (fmul aim band) else div aim band);
                      d ← power (level_decay_h prm) hours;
                      u ← power (level_rise_h prm) hours;
                      Ok (fclamp edge (fmul lv d) (fmul lv u)));
        Ok (fclamp moved (level_floor prm) (level_cap prm))
  | _, _ => Ok lv
  end.

Definition move_oversupply (hours over : float) (flooded : bool) : result float :=
  x ← power (if flooded then oversupply_decay_h prm else oversupply_rise_h prm) hours;
  Ok (fclamp (fmul over x) (oversupply_floor prm) fone).

Definition tick_level (q : queue_tick) (full lane_full : gset string) (now : float) : method price_state (list (string * price_row)) := fun s =>
  let secs := secs_of now s in
  if secs <=? 0 then (Ok [], s)
  else
    match (let hours := fdiv secs (of_int 3600) in
           work ← note_work (of_int (taken_n q)) (tick_starved_s q) secs now (ps_work s);
           let speed := trainer_speed now work in
           let row := level_start s in
           e1 ← div secs (supply_halflife_s prm); keep ← power half e1;
           e2 ← div secs (mix_halflife_s prm); mix_keep ← power half e2;
           let ms := fadd (fmul keep (mass row)) secs in
           let mix_ms := fadd (fmul mix_keep (mix_mass row)) secs in
           envs ← mapM (level_env s q (level row) keep mix_keep ms mix_ms now) sorted_envs;
           let sup := fsum (el_rate <$> envs) in
           let mix_supply := fsum (el_mix_rate <$> envs) in
           let is_starved := fmul (starved_share prm) secs <? tick_starved_s q in
           let lanes := oversupply_share prm <=? fsum (target_of <$> elements lane_full) in
           over ← move_oversupply hours (oversupply row) (negb (bool_decide (full = ∅)) || (lanes && negb is_starved));
           moved ← mapM (weigh hours now mix_supply (full ∪ lane_full)) envs;
           '(scaled, lv) ← renormalise now (level row) moved;
           lv' ← move_level hours lv over sup speed scaled.*1;
           let rows := (fun m => (el_env m.1, let p := fmul lv' (el_weight m.1) in PriceRow p p m.2 now)) <$> scaled in
           let weights := (fun m => (el_env m.1, WeightRow (el_weight m.1) (el_sum m.1) (el_mix m.1) (el_at m.1))) <$> scaled in
           Ok (rows, PriceState (list_to_map rows ∪ ps_prices s) (Some (LevelRow lv' ms mix_ms over)) (list_to_map weights ∪ ps_weights s) now work (ps_supply s))) with
    | Ok (rows, s') => (Ok rows, s')
    | Raise e => (Raise e, s)
    end.

Definition tick (q : queue_tick) (full lane_full : gset string) (now : float) : method price_state (list (string * price_row)) :=
  match pmode prm with level_mode => tick_level q full lane_full now | per_env => tick_per_env q full lane_full now end.
End prices.

(** ** What is assumed of the power and of the settings *)

(** The C library's power on a positive base. *)
Class PowLaws (pow : float -> float -> float) : Prop := {
  pow_nonneg : forall x y, 0 < x -> 0 <= pow x y;
  pow_le_one : forall x y, 0 < x <= fone -> 0 <= y -> pow x y <= fone;
}.

(** Settings the constructors accept, that are floats and do what their names say. *)
Record good_controller (c : controller_config) : Prop := {
  gc_valid : valid_params (params c) = true;
  gc_decay : 0 < decay (base (params c)) <= fone;
  gc_rise : fone <= rise (base (params c));
  gc_rounds : 0 <= rounds_per_step (base (params c));
  gc_floats : representable (start (base (params c))) /\ representable (p_floor (base (params c))) /\ representable (p_cap (base (params c)));
  gc_pool : 0 < start_pool c /\ 0 < planned_tokens_per_period c;
  gc_targets : NoDup (targets c).*1;
}.

Section laws.
Context (pow : float -> float -> float) `{!PowLaws pow}.

Lemma div_ok x y z : div x y = Ok z -> y <> 0 /\ z = fdiv x y.
Proof. unfold div. destruct (Z.eqb_spec y 0); [done|]. by intros <-%(inj Ok). Qed.

Lemma power_nonneg x y z : 0 <= x -> power pow x y = Ok z -> 0 <= z.
Proof.
  intros Hx. unfold power. destruct (Z.eqb_spec x 0) as [->|]; [|intros <-%(inj Ok); apply pow_nonneg; lia].
  destruct (y <? 0); [done|]. intros <-%(inj Ok). pose proof fone_pos. destruct (y =? 0); lia.
Qed.

Lemma power_le_one x y z : 0 < x <= fone -> 0 <= y -> power pow x y = Ok z -> z <= fone.
Proof.
  intros Hx Hy. unfold power. destruct (Z.eqb_spec x 0); [lia|]. intros <-%(inj Ok). by apply pow_le_one.
Qed.

Lemma fclamp_range x lo hi : lo <= hi -> lo <= fclamp x lo hi <= hi.
Proof. unfold fclamp. lia. Qed.

Lemma fclamp_id x lo hi : lo <= x <= hi -> fclamp x lo hi = x.
Proof. unfold fclamp. lia. Qed.

Lemma fclamp_representable x lo hi : representable x -> representable lo -> representable hi -> representable (fclamp x lo hi).
Proof. intros. unfold fclamp. by apply min_representable; [apply max_representable|]. Qed.

Context (c : controller_config) (Hc : good_controller c).
Abbreviation prm := (params c).
Abbreviation bs := (base (params c)).

Lemma base_bounds : 0 < p_floor bs /\ p_floor bs <= start bs /\ start bs <= p_cap bs.
Proof.
  pose proof (gc_valid c Hc) as H. unfold valid_params in H. split_andb H.
  repeat match goal with H : (_ <? _) = true |- _ => apply Z.ltb_lt in H | H : (_ <=? _) = true |- _ => apply Z.leb_le in H end. lia.
Qed.

Lemma level_bounds : 0 < level_floor prm /\ level_floor prm <= level_cap prm /\ 0 < oversupply_floor prm /\ oversupply_floor prm <= fone /\
  0 < weight_floor prm /\ weight_floor prm <= weight_cap prm /\ 0 < low prm /\ 0 < steer_step prm /\ 0 < weight_decay_h prm /\ 0 < weight_rise_h prm.
Proof.
  pose proof (gc_valid c Hc) as H. unfold valid_params in H. split_andb H. pose proof fone_pos.
  repeat match goal with H : (_ <? _) = true |- _ => apply Z.ltb_lt in H | H : (_ <=? _) = true |- _ => apply Z.leb_le in H end. lia.
Qed.

(** *** The invariant of the tables *)

Record prices_ok (s : price_state) : Prop := {
  po_price : forall env r, ps_prices s !! env = Some r -> 0 <= price r /\ representable (price r) /\
    (pmode prm = per_env -> p_floor bs <= price r <= p_cap bs);
  po_level : forall r, ps_level s = Some r -> level_floor prm <= level r <= level_cap prm /\ oversupply_floor prm <= oversupply r <= fone;
  po_weight : forall env w, ps_weights s !! env = Some w -> 0 <= weight w;
}.

Lemma multiplier_ok s env : prices_ok s -> 0 <= multiplier c env s /\ representable (multiplier c env s) /\
  (pmode prm = per_env -> p_floor bs <= multiplier c env s <= p_cap bs).
Proof.
  intros Hs. unfold multiplier. destruct (ps_prices s !! env) as [r|] eqn:E; cbn; [by apply (po_price s Hs env)|].
  pose proof base_bounds. split_and!; [lia|apply (gc_floats c Hc)|lia].
Qed.

Lemma token_price_nonneg s env : prices_ok s -> 0 <= token_price c env s.
Proof.
  intros Hs. unfold token_price. destruct (_ <=? 0); [lia|]. destruct (gc_pool c Hc). apply fmul_nonneg; [by apply multiplier_ok|].
  apply fdiv_nonneg; lia.
Qed.

(** The rows a tick writes are those of the environments, on top of the old ones. *)
Lemma union_lookup {A} (l : list (string * A)) (m : gmap string A) env x : (list_to_map l ∪ m) !! env = Some x ->
  (env, x) ∈ l \/ m !! env = Some x.
Proof. intros [H|[_ H]]%lookup_union_Some_raw; [left; by apply elem_of_list_to_map_2|by right]. Qed.

(** *** The per-environment mode *)

Lemma move_nonneg p g p' m : 0 <= p -> move pow c p g = Ok (p', m) -> 0 <= p' /\ (representable p -> representable p').
Proof.
  intros Hp. unfold move. destruct (ratio g) as [r|]; [|intros [= <- _]%(inj Ok); done]. cbv zeta. pose proof fone_pos. pose proof (gc_rise c Hc).
  assert (0 <= (if (r <? low prm) && negb (capped g) then rise bs else fone)) as Hup by (destruct (_ && _); lia).
  set (up := if _ : bool then rise bs else fone) in *. destruct level_bounds as (_ & _ & _ & _ & _ & _ & _ & Hstep & _).
  destruct (starved g), (relative g) as [rel|].
  1: { intros (step & Hs & E)%bind_ok_inv. apply (inj Ok) in E as [= <- _]. split; [|intros _; apply fmul_representable].
    assert (0 <= step) as Hpos.
    { destruct ((low prm <=? rel) && (rel <=? high prm)); [apply (inj Ok) in Hs as <-; lia|]. apply bind_ok_inv in Hs as (x & Hx & (i & Hi & <-%(inj Ok))%bind_ok_inv).
      apply div_ok in Hi as [_ ->]. pose proof (fdiv_nonneg fone (steer_step prm)). lia. }
    apply fmul_nonneg; [done|]. apply fmul_nonneg; [done|]. destruct (capped g); lia. }
  all: destruct (fone <? up); [intros [= <- _]%(inj Ok); split; [by apply fmul_nonneg|intros _; apply fmul_representable]|].
  all: match goal with |- (if ?b then _ else _) = _ -> _ => destruct b end; [|intros [= <- _]%(inj Ok); done].
  all: intros (e & _ & (d & Hd & [= <- _]%(inj Ok))%bind_ok_inv)%bind_ok_inv; split; [|intros _; apply fmul_representable].
  all: apply fmul_nonneg; [done|]; eapply power_nonneg; [|exact Hd]; destruct (gc_decay c Hc); lia.
Qed.

(** The common divisor of a tick is at least one. *)
Lemma rescale_ge_one moves x : rescale_of c moves = Ok x -> fone <= x.
Proof. unfold rescale_of. intros (o & _ & <-%(inj Ok))%bind_ok_inv. destruct (Z.ltb_spec fone o); lia. Qed.

(** What a tick that does not raise does. *)
Lemma tick_per_env_inv q full lane now s rows s' : tick_per_env pow c q full lane now s = (Ok rows, s') ->
  (rows = [] /\ s' = s) \/
  (exists work mixes moves rescale, 0 < secs_of now s /\ note_work pow c (of_int (taken_n q)) (tick_starved_s q) (secs_of now s) now (ps_work s) = Ok work /\
     note_supply pow c q (secs_of now s) (ps_supply s) = Ok mixes /\
     mapM (move_env pow c s (signals c q full lane now s work mixes)) (sorted_envs c) = Ok moves /\ rescale_of c moves = Ok rescale /\
     rows = ((fun m => (mv_env m, decided c now rescale m)) <$> moves) /\
     s' = PriceState (list_to_map rows ∪ ps_prices s) (ps_level s) (ps_weights s) now work (list_to_map mixes ∪ ps_supply s)).
Proof.
  unfold tick_per_env. cbv zeta. destruct (Z.leb_spec (secs_of now s) 0); [intros [= <- <-]; by left|].
  match goal with |- (match ?m with Ok _ => _ | Raise _ => _ end) = _ -> _ => destruct m as [[rows1 s1]|e] eqn:E end; [intros [= <- <-]|discriminate].
  apply bind_ok_inv in E as (work & Hw & E). apply bind_ok_inv in E as (mixes & Hm & E). apply bind_ok_inv in E as (moves & Hv & E).
  apply bind_ok_inv in E as (rescale & Hr & E). apply (inj Ok) in E as [= <- <-]. right. by exists work, mixes, moves, rescale.
Qed.

(** A tick that raises leaves the tables. *)
Lemma tick_per_env_raise q full lane now s e s' : tick_per_env pow c q full lane now s = (Raise e, s') -> s' = s.
Proof.
  unfold tick_per_env. cbv zeta. destruct (_ <=? 0); [discriminate|].
  match goal with |- (match ?m with Ok _ => _ | Raise _ => _ end) = _ -> _ => destruct m as [[rows1 s1]|e1] end; by intros [=].
Qed.

Lemma tick_per_env_ok q full lane now s r s' : prices_ok s -> tick_per_env pow c q full lane now s = (r, s') -> prices_ok s'.
Proof.
  intros Hs E. destruct r as [rows|e]; [|by apply tick_per_env_raise in E as ->].
  apply tick_per_env_inv in E as [[_ ->]|(work & mixes & moves & rescale & _ & _ & _ & _ & Hr%rescale_ge_one & -> & ->)]; [done|].
  split; cbn; [|apply Hs|apply Hs]. intros env row [(m & [= -> ->] & _)%list_elem_of_fmap|H]%union_lookup; [|by apply (po_price s Hs env)].
  pose proof base_bounds. pose proof fone_pos. destruct (gc_floats c Hc) as (_ & Hf & Hcap). pose proof (fclamp_range (fdiv (mv_price m) rescale) (p_floor bs) (p_cap bs)).
  cbn. split_and!; [lia| |lia]. apply fclamp_representable; [apply fdiv_representable; lia|done|done].
Qed.

(** *** The level mode *)

Lemma level_start_ok s : prices_ok s -> level_floor prm <= level (level_start c s) <= level_cap prm /\
  oversupply_floor prm <= oversupply (level_start c s) <= fone.
Proof.
  intros Hs. unfold level_start. destruct (ps_level s) as [r|] eqn:E; [by apply (po_level s Hs)|]. cbn.
  pose proof level_bounds. split; [apply fclamp_range|]; lia.
Qed.

Lemma level_env_ok s q lv keep mk ms mms now env e : prices_ok s -> 0 < lv -> level_env c s q lv keep mk ms mms now env = Ok e ->
  0 <= el_weight e /\ el_env e = env.
Proof.
  intros Hs Hlv. unfold level_env. intros (fresh & [_ ->]%div_ok & E)%bind_ok_inv. cbv zeta in E.
  apply bind_ok_inv in E as (rate & _ & (mr & _ & <-%(inj Ok))%bind_ok_inv). cbn. split; [|done].
  destruct (ps_weights s !! env) as [w|] eqn:Ew; cbn; [by eapply (po_weight s Hs)|]. apply fdiv_nonneg; [by apply multiplier_ok|done].
Qed.

Lemma weigh_ok hours now ms full e e' g : 0 <= el_weight e -> weigh pow c hours now ms full e = Ok (e', g) -> 0 <= el_weight e' /\ el_env e' = el_env e.
Proof.
  intros He. unfold weigh. cbv zeta. intros (rel & _ & E)%bind_ok_inv. destruct level_bounds as (_ & _ & _ & _ & _ & _ & _ & _ & Hd & Hr).
  destruct (is_active c now e); [|by apply (inj Ok) in E as [= <- <-]].
  destruct (_ || _); [|destruct (match rel with Some r => r <? weight_low prm | None => false end)]; [| |by apply (inj Ok) in E as [= <- <-]].
  all: apply bind_ok_inv in E as (d & Hp & [= <- <-]%(inj Ok)); cbn; split; [|done]; apply fmul_nonneg; [done|].
  all: eapply power_nonneg; [|exact Hp]; lia.
Qed.

Lemma renormalise_ok now lv moved scaled lv' : level_floor prm <= lv <= level_cap prm -> Forall (fun m => 0 <= el_weight m.1) moved ->
  renormalise c now lv moved = Ok (scaled, lv') ->
  level_floor prm <= lv' <= level_cap prm /\ Forall (fun m => 0 <= el_weight m.1) scaled /\ (fun m => el_env m.1) <$> scaled = (fun m => el_env m.1) <$> moved.
Proof.
  intros Hlv Hm. unfold renormalise. cbv zeta. destruct (0 <? _); [|by intros [= <- <-]%(inj Ok)].
  intros (norm & _ & (sc & Hsc%mapM_ok & [= <- <-]%(inj Ok))%bind_ok_inv)%bind_ok_inv. pose proof level_bounds as (Hl1 & Hl2 & _ & _ & Hw1 & Hw2 & _).
  split; [apply fclamp_range; lia|]. clear Hlv. induction Hsc as [|m m' ms ms' Hx _ IH]; [done|]. apply Forall_cons in Hm as [Hm0 Hm].
  destruct (IH Hm) as [IH1 IH2]. cbn in Hx. assert (0 <= el_weight m'.1 /\ el_env m'.1 = el_env m.1) as [H1 H2].
  { destruct (is_active c now m.1); [|by apply (inj Ok) in Hx as <-]. apply bind_ok_inv in Hx as (w & _ & <-%(inj Ok)). cbn. split; [|done].
    pose proof (fclamp_range w (weight_floor prm) (weight_cap prm)). lia. }
  split; [by constructor|]. rewrite !fmap_cons. congruence.
Qed.

Lemma move_level_ok hours lv over sup speed envs lv' : level_floor prm <= lv <= level_cap prm -> move_level pow c hours lv over sup speed envs = Ok lv' ->
  level_floor prm <= lv' <= level_cap prm.
Proof.
  intros Hlv. unfold move_level. intros (mean & _ & E)%bind_ok_inv. pose proof level_bounds as (_ & Hl & _).
  destruct mean as [m|], speed as [sp|]; [|by apply (inj Ok) in E as <-..]. destruct (m =? 0); [by apply (inj Ok) in E as <-|].
  apply bind_ok_inv in E as (aim & _ & E). cbv zeta in E. apply bind_ok_inv in E as (u & _ & (mv & _ & <-%(inj Ok))%bind_ok_inv).
  by apply fclamp_range.
Qed.

Lemma move_oversupply_ok hours over fl x : move_oversupply pow c hours over fl = Ok x -> oversupply_floor prm <= x <= fone.
Proof. unfold move_oversupply. intros (y & _ & <-%(inj Ok))%bind_ok_inv. apply fclamp_range. pose proof level_bounds. lia. Qed.

Lemma tick_level_ok q full lane now s r s' : pmode prm = level_mode -> prices_ok s -> tick_level pow c q full lane now s = (r, s') -> prices_ok s'.
Proof.
  intros Hmode Hs. unfold tick_level. cbv zeta. destruct (_ <=? 0); [by intros [= _ <-]|].
  match goal with |- (match ?m with Ok _ => _ | Raise _ => _ end) = _ -> _ => destruct m as [[rows s1]|e] eqn:E end; intros [= _ <-]; [|done].
  pose proof (level_start_ok s Hs) as [Hlv _]. pose proof level_bounds as (Hl0 & _).
  apply bind_ok_inv in E as (work & _ & E). apply bind_ok_inv in E as (e1 & _ & E). apply bind_ok_inv in E as (keep & _ & E).
  apply bind_ok_inv in E as (e2 & _ & E). apply bind_ok_inv in E as (mk & _ & E).
  apply bind_ok_inv in E as (envs & Henvs%mapM_ok & E). apply bind_ok_inv in E as (over & Hover%move_oversupply_ok & E).
  apply bind_ok_inv in E as (moved & Hmoved%mapM_ok & E). apply bind_ok_inv in E as ([scaled lv] & Hren & E).
  apply bind_ok_inv in E as (lv' & Hl' & [= <- <-]%(inj Ok)).
  assert (Forall (fun e => 0 <= el_weight e) envs) as H1.
  { apply Forall_forall. intros e He. apply list_elem_of_lookup in He as [i Hi]. destruct (Forall2_lookup_r _ _ _ _ _ Henvs Hi) as (env & _ & Hx).
    eapply level_env_ok in Hx as [Hx _]; [done|done|lia]. }
  assert (Forall (fun m => 0 <= el_weight m.1) moved) as H2.
  { apply Forall_forall. intros [e g] He. apply list_elem_of_lookup in He as [i Hi]. destruct (Forall2_lookup_r _ _ _ _ _ Hmoved Hi) as (e0 & He0 & Hx).
    apply weigh_ok in Hx as [Hx _]; [done|]. rewrite Forall_forall in H1. apply H1. by eapply list_elem_of_lookup_2. }
  apply renormalise_ok in Hren as (Hlv1 & H3 & _); [|done..]. apply move_level_ok in Hl'; [|done]. rewrite Forall_forall in H3.
  split; cbn.
  - intros env r0 [(m & [= -> ->] & Hm)%list_elem_of_fmap|H]%union_lookup; [|by apply (po_price s Hs env)]. cbn. specialize (H3 _ Hm).
    split_and!; [apply fmul_nonneg; [lia|done]|apply fmul_representable|by rewrite Hmode].
  - by intros r0 [= <-].
  - intros env w [(m & [= -> ->] & Hm)%list_elem_of_fmap|H]%union_lookup; [|by apply (po_weight s Hs env)]. exact (H3 _ Hm).
Qed.

Lemma tick_ok q full lane now s r s' : prices_ok s -> tick pow c q full lane now s = (r, s') -> prices_ok s'.
Proof.
  intros Hs. unfold tick. destruct (pmode prm) eqn:Hm; [by apply tick_per_env_ok|by apply tick_level_ok].
Qed.

Lemma new_prices_ok now : prices_ok (new_prices now).
Proof. split; cbn; intros *; try rewrite lookup_empty; discriminate. Qed.

(** *** What a tick of the per-environment mode may do to one price *)

Lemma fdiv_ge_one_le x y : representable x -> 0 <= x -> fone <= y -> fdiv x y <= x.
Proof.
  intros Hx H0 Hy. pose proof fone_pos. unfold fdiv. rewrite Z.sgn_pos, Z.abs_eq, Z.mul_1_r by lia. apply fround_le; [lia|done|nia].
Qed.

Lemma fdiv_one x : representable x -> fdiv x fone = x.
Proof.
  intros Hx. pose proof fone_pos. unfold fdiv. rewrite Z.sgn_pos, Z.abs_eq, Z.mul_1_r by lia.
  apply Z.le_antisymm; [apply fround_le|apply fround_ge]; (done || lia).
Qed.

(** The queue refuses leases: no price rises. *)
Lemma move_capped p g p' m : capped g = true -> 0 <= seconds g -> 0 <= p -> representable p -> move pow c p g = Ok (p', m) -> p' <= p.
Proof.
  intros Hcap Hsec Hp Hrep. unfold move. destruct (ratio g) as [r|]; [|intros [= <- _]%(inj Ok); lia]. cbv zeta. rewrite Hcap, andb_false_r, Z.ltb_irrefl.
  destruct (starved g), (relative g) as [rel|].
  1: { intros (step & _ & E)%bind_ok_inv. apply (inj Ok) in E as [= <- _]. apply fmul_le_l; [done|done|]. apply Z.le_trans with fone; [|lia].
    apply fmul_le_l; [apply fone_representable|pose proof fone_pos; lia|lia]. }
  all: match goal with |- (if ?b then _ else _) = _ -> _ => destruct b end; [|intros [= <- _]%(inj Ok); lia].
  all: intros (e & [Hne ->]%div_ok & (d & Hd & [= <- _]%(inj Ok))%bind_ok_inv)%bind_ok_inv; apply fmul_le_l; [done|done|].
  all: eapply power_le_one; [apply (gc_decay c Hc)| |exact Hd]; apply fdiv_nonneg; [done|].
  all: pose proof (gc_rounds c Hc); pose proof (of_int_mono 0 (rounds_per_step bs)); assert (of_int 0 = 0) as Hz by done.
  all: assert (0 <= fmul (of_int (rounds_per_step bs)) ROUND_SECONDS) by (apply fmul_nonneg; [lia|by vm_compute]); lia.
Qed.

(** The multiplier of an environment after a tick: its move, divided and clamped. *)
Lemma multiplier_after q full lane now s rows s' env : tick_per_env pow c q full lane now s = (Ok rows, s') ->
  multiplier c env s' = multiplier c env s \/
  exists work mixes moves rescale p m, work = ps_work s' /\ rescale_of c moves = Ok rescale /\
    mapM (move_env pow c s (signals c q full lane now s work mixes)) (sorted_envs c) = Ok moves /\ 0 < secs_of now s /\
    move pow c (multiplier c env s) (signals c q full lane now s work mixes env) = Ok (p, m) /\
    multiplier c env s' = fclamp (fdiv p rescale) (p_floor bs) (p_cap bs).
Proof.
  intros [[_ ->]|(work & mixes & moves & rescale & Hsec & _ & _ & Hv & Hr & -> & ->)]%tick_per_env_inv; [by left|].
  set (m := list_to_map ((fun mv => (mv_env mv, decided c now rescale mv)) <$> moves) : gmap string price_row).
  set (s' := PriceState _ _ _ _ _ _). assert (multiplier c env s' = default (multiplier c env s) (price <$> m !! env)) as ->.
  { unfold multiplier, s'. cbn [ps_prices]. rewrite lookup_union. destruct (m !! env), (ps_prices s !! env). all: done. }
  destruct (m !! env) as [row|] eqn:E; [right; cbn|by left].
  apply elem_of_list_to_map_2, list_elem_of_fmap in E as (mv & [= -> ->] & Hin). apply mapM_ok in Hv as HF.
  apply list_elem_of_lookup in Hin as [i Hi]. destruct (Forall2_lookup_r _ _ _ _ _ HF Hi) as (env' & _ & Hx). unfold move_env in Hx.
  apply bind_ok_inv in Hx as ([p g] & Hm & <-%(inj Ok)). exists work, mixes, moves, rescale, p, g. split_and!; try done.
  unfold multiplier. cbn. destruct (ps_prices s !! env'); exact Hm.
Qed.

Lemma tick_capped q full lane now s rows s' env : prices_ok s -> pmode prm = per_env -> full <> ∅ ->
  tick_per_env pow c q full lane now s = (Ok rows, s') -> multiplier c env s' <= multiplier c env s.
Proof.
  intros Hs Hmode Hfull [->|(work & mixes & moves & rescale & p & m & _ & Hr%rescale_ge_one & _ & Hsec & Hm & ->)]%(multiplier_after _ _ _ _ _ _ _ env); [lia|].
  destruct (multiplier_ok s env Hs) as (H0 & Hrep & Hb%(fun f => f Hmode)). destruct (move_nonneg _ _ _ _ H0 Hm) as [Hp0 Hprep].
  apply move_capped in Hm; [|cbn; by rewrite bool_decide_eq_false_2|cbn; lia|done|done].
  pose proof (fdiv_ge_one_le p rescale (Hprep Hrep) Hp0 Hr). unfold fclamp. lia.
Qed.

Lemma move_unknown s q full lane now work mixes env p m pr : trainer_speed c now work = None ->
  move pow c pr (signals c q full lane now s work mixes env) = Ok (p, m) -> p = pr.
Proof. intros Hw. unfold move, signals, signal_of, ratio. cbn [demand_tps]. rewrite Hw. cbn. by intros [= <- _]%(inj Ok). Qed.

Lemma foldr_max_le l d b : d <= b -> (forall x, x ∈ l -> x <= b) -> foldr Z.max d l <= b.
Proof. intros Hd. induction l as [|x l IH]; intros Hl; cbn; [done|]. assert (x <= b) by (apply Hl; constructor). assert (foldr Z.max d l <= b) by (apply IH; intros; apply Hl; by constructor). lia. Qed.

Lemma tick_held q full lane now s rows s' env : prices_ok s -> pmode prm = per_env -> trainer_speed c now (ps_work s') = None ->
  tick_per_env pow c q full lane now s = (Ok rows, s') -> multiplier c env s' = multiplier c env s.
Proof.
  intros Hs Hmode Hnone [->|(work & mixes & moves & rescale & p & m & -> & Hr & Hv & Hsec & Hm & ->)]%(multiplier_after _ _ _ _ _ _ _ env); [done|].
  apply move_unknown in Hm; [|done]. subst p. destruct (multiplier_ok s env Hs) as (H0 & Hrep & Hb%(fun f => f Hmode)).
  assert (rescale = fone) as ->; [|rewrite fdiv_one by done; by apply fclamp_id].
  assert (forall mv, mv ∈ moves -> mv_price mv <= p_cap bs) as Hmv.
  { intros mv [i Hi]%list_elem_of_lookup. apply mapM_ok in Hv. destruct (Forall2_lookup_r _ _ _ _ _ Hv Hi) as (env' & _ & Hx). unfold move_env in Hx.
    apply bind_ok_inv in Hx as ([p g] & Hm & <-%(inj Ok)). apply move_unknown in Hm; [|done]. subst p. cbn.
    destruct (multiplier_ok s env' Hs) as (_ & _ & Hb'%(fun f => f Hmode)). unfold multiplier in Hb'. destruct (ps_prices s !! env'); exact (proj2 Hb'). }
  unfold rescale_of in Hr. apply bind_ok_inv in Hr as (o & [_ Ho]%div_ok & <-%(inj Ok)). pose proof base_bounds. destruct (Z.ltb_spec fone o); [|done].
  enough (o <= fone) by lia. rewrite Ho. apply fdiv_le_one; [lia|]. destruct moves as [|mv moves]; [lia|]. apply foldr_max_le.
  - apply Hmv. constructor.
  - intros x (mv' & -> & Hin)%list_elem_of_fmap. apply Hmv. by constructor.
Qed.

(** *** An environment that nobody ever supplied *)

Lemma div_raise x y e : div x y = Raise e -> e = ZeroDivisionError.
Proof. unfold div. destruct (y =? 0); by intros [=]. Qed.

Lemma power_raise x y e : power pow x y = Raise e -> e = ZeroDivisionError.
Proof. unfold power. destruct (x =? 0); [destruct (y <? 0)|]; by intros [=]. Qed.

Lemma bind_raise {A B} (r : result A) (f : A -> result B) e : (x ← r; f x) = Raise e -> r = Raise e \/ exists x, r = Ok x /\ f x = Raise e.
Proof. destruct r as [x|e']; cbn; [by right; exists x|]. intros [= ->]. by left. Qed.

Lemma move_raise p g e : move pow c p g = Raise e -> e = ZeroDivisionError.
Proof.
  unfold move. destruct (ratio g) as [r|]; [|discriminate]. cbv zeta. set (up := if _ && _ then rise bs else fone).
  destruct (starved g), (relative g) as [rel|].
  1: { intros [H|(x & _ & H)]%bind_raise; [|discriminate]. destruct (_ && _) in H; [discriminate|].
       apply bind_raise in H as [H|(y & _ & [H|(z & _ & H)]%bind_raise)]; [by eapply power_raise|by eapply div_raise|discriminate]. }
  all: destruct (fone <? up); [discriminate|]; match goal with |- (if ?b then _ else _) = _ -> _ => destruct b end; [|discriminate].
  all: intros [H|(x & _ & [H|(y & _ & H)]%bind_raise)]%bind_raise; [by eapply div_raise|by eapply power_raise|discriminate].
Qed.

Lemma mapM_raise {A B} (f : A -> result B) e l x : (forall y e', f y = Raise e' -> e' = e) -> x ∈ l -> f x = Raise e -> mapM f l = Raise e.
Proof.
  intros Hf. induction 1 as [x l|x y l _ IH]; intros Hx; cbn; [by rewrite Hx|].
  destruct (f y) as [z|e'] eqn:E; cbn; [by rewrite (IH Hx)|]. f_equal. by eapply Hf.
Qed.

Lemma sorted_envs_elem env : env ∈ sorted_envs c <-> env ∈ (targets c).*1.
Proof. unfold sorted_envs. by rewrite isort_perm. Qed.

Lemma dry_mix q secs old mixes env : note_supply pow c q secs old = Ok mixes -> arrived q env = 0 -> default 0 (old !! env) = 0 ->
  default 0 (list_to_map (M := gmap string float) mixes !! env) = 0.
Proof.
  unfold note_supply. intros (e & _ & (keep & _ & <-%(inj Ok))%bind_ok_inv)%bind_ok_inv Ha Ho.
  destruct (list_to_map (M := gmap string float) _ !! env) as [v|] eqn:E; [|done].
  apply elem_of_list_to_map_2, list_elem_of_fmap in E as (t & [= -> ->] & _). cbn. rewrite Ha, Ho. unfold fmul. by rewrite Z.mul_0_r.
Qed.

Lemma dry_env_raises q full lane now s work mixes v env :
  0 < steer_gain prm -> fmul (starved_share prm) (secs_of now s) < tick_starved_s q ->
  trainer_speed c now work = Some v -> fmul (target_of c env) v <> 0 ->
  note_supply pow c q (secs_of now s) (ps_supply s) = Ok mixes -> 0 < py_sum mixes.*2 ->
  0 < target_of c env -> arrived q env = 0 -> default 0 (ps_supply s !! env) = 0 ->
  move_env pow c s (signals c q full lane now s work mixes) env = Raise ZeroDivisionError.
Proof.
  intros Hg Hst Hv Hd Hm Hsup Ht Ha Ho. unfold move_env. generalize (match ps_prices s !! env with Some r => (price r, last_good r) | None => (start bs, start bs) end).
  intros st. cbv zeta. assert (move pow c st.1 (signals c q full lane now s work mixes env) = Raise ZeroDivisionError) as ->; [|done].
  unfold signals, signal_of. rewrite Hv, (dry_mix _ _ _ _ _ Hm Ha Ho), Ha. cbn [Z.ltb Z.compare fmap option_fmap option_map].
  apply Z.ltb_lt in Hst. apply Z.ltb_lt in Hsup as Hsup'. apply Z.ltb_lt in Ht as Ht'. rewrite Hst, Hsup', Ht'. cbn [andb].
  unfold move, ratio. cbn [demand_tps supply_tps starved relative capped]. apply Z.eqb_neq in Hd. rewrite Hd. cbv zeta.
  assert (fdiv (fdiv 0 (py_sum mixes.*2)) (target_of c env) = 0) as ->.
  { unfold fdiv. rewrite !Z.mul_0_l. rewrite (fround_0 (Z.abs (py_sum mixes.*2))) by lia. rewrite !Z.mul_0_l. apply fround_0. lia. }
  destruct level_bounds as (_ & _ & _ & _ & _ & _ & Hlow & _). assert (low prm <=? 0 = false) as -> by (apply Z.leb_gt; lia). cbn [andb].
  unfold power. cbn [Z.eqb]. assert (- steer_gain prm <? 0 = true) as -> by (apply Z.ltb_lt; lia). done.
Qed.
End laws.

(** ** Runs *)

Section runs.
Context (pow : float -> float -> float) (c : controller_config).

(** One tick, whatever it answers. *)
Inductive price_step : price_state -> price_state -> Prop :=
  | price_tick q full lane now s : price_step s (tick pow c q full lane now s).2.
End runs.

Lemma price_run_ok (pow : float -> float -> float) `{!PowLaws pow} c now s : good_controller c ->
  rtc (price_step pow c) (new_prices now) s -> prices_ok c s.
Proof.
  intros Hc H. pose proof (new_prices_ok c now) as Hs. revert Hs. induction H as [s|s s1 s2 [q full lane now' s0] _ IH]; [done|].
  intros Hs. apply IH. destruct (tick pow c q full lane now' s0) as [r s'] eqn:E. by eapply tick_ok.
Qed.

(** What the price book promises to those who pay with it. *)
Class TokenPrices (price_of : string -> float) : Prop := { tp_nonneg : forall env, 0 <= price_of env }.

#[export] Instance controller_prices c s : good_controller c -> prices_ok c s -> TokenPrices (fun env => token_price c env s).
Proof. intros Hc Hs. split. intros env. by apply token_price_nonneg. Qed.

(** Whatever the queue reports, a controller's prices stay within their bounds.  In
    every state a run of ticks reaches, a token never has a negative price; in the
    per-environment mode every multiplier is between the floor and the ceiling of the
    board, and in the level mode the level and the oversupply are within theirs. *)
Theorem prices_bounded (pow : float -> float -> float) (c : controller_config) (now : float) (s : price_state) :
  PowLaws pow -> good_controller c -> rtc (price_step pow c) (new_prices now) s ->
  (forall env, 0 <= token_price c env s) /\
  (pmode (params c) = per_env -> forall env, p_floor (base (params c)) <= multiplier c env s <= p_cap (base (params c))) /\
  (forall r, ps_level s = Some r -> level_floor (params c) <= level r <= level_cap (params c) /\ oversupply_floor (params c) <= oversupply r <= fone).
Proof.
  intros Hpow Hc Hs%price_run_ok; [|done..]. split_and!.
  - intros env. by apply token_price_nonneg.
  - intros Hm env. by apply (multiplier_ok c Hc s env Hs).
  - apply Hs.
Qed.

(** The two guards of a tick in the per-environment mode.  When a lease was refused
    for a full queue, no environment's multiplier rises.  When the trainer's speed is
    unknown, none of them moves at all. *)
Theorem tick_guards (pow : float -> float -> float) (c : controller_config) (now0 now : float) (s s' : price_state) (q : queue_tick)
    (full lane_full : gset string) (rows : list (string * price_row)) :
  PowLaws pow -> good_controller c -> pmode (params c) = per_env -> rtc (price_step pow c) (new_prices now0) s ->
  tick pow c q full lane_full now s = (Ok rows, s') ->
  (full <> ∅ -> forall env, multiplier c env s' <= multiplier c env s) /\
  (trainer_speed c now (ps_work s') = None -> forall env, multiplier c env s' = multiplier c env s).
Proof.
  intros Hpow Hc Hm Hs%price_run_ok; [|done..]. unfold tick. rewrite Hm. intros E. split; intros H env; [by eapply tick_capped|by eapply tick_held].
Qed.

(** C34: a single environment without supply stops the whole board.  In the
    per-environment mode, let the trainer wait and its speed be known: when some
    environment with a target was never supplied while others were, the tick raises
    [ZeroDivisionError] and its transaction leaves every table as it was, the clock of
    the ticks included. *)
Theorem dry_env_stops_tick (pow : float -> float -> float) (c : controller_config) (now : float) (s : price_state) (q : queue_tick)
    (full lane_full : gset string) (work : option work_row) (mixes : list (string * float)) (v : float) (env : string) :
  good_controller c -> pmode (params c) = per_env -> 0 < steer_gain (params c) -> 0 < secs_of now s ->
  fmul (starved_share (params c)) (secs_of now s) < tick_starved_s q ->
  note_work pow c (of_int (taken_n q)) (tick_starved_s q) (secs_of now s) now (ps_work s) = Ok work -> trainer_speed c now work = Some v ->
  note_supply pow c q (secs_of now s) (ps_supply s) = Ok mixes -> 0 < py_sum mixes.*2 ->
  0 < target_of c env -> fmul (target_of c env) v <> 0 -> arrived q env = 0 -> default 0 (ps_supply s !! env) = 0 ->
  tick pow c q full lane_full now s = (Raise ZeroDivisionError, s).
Proof.
  intros Hc Hm Hg Hsec Hst Hw Hv Hmix Hsup Ht Hd Ha Ho. unfold tick, tick_per_env. rewrite Hm. cbv zeta.
  assert (secs_of now s <=? 0 = false) as -> by (apply Z.leb_gt; lia). rewrite Hw. cbn. rewrite Hmix. cbn.
  assert (env ∈ sorted_envs c) as Hin.
  { apply sorted_envs_elem. unfold target_of in Ht. destruct (list_to_map (M := gmap string float) (targets c) !! env) as [x|] eqn:E; [|cbn in Ht; lia].
    apply elem_of_list_to_map_2 in E. apply list_elem_of_fmap. by exists (env, x). }
  rewrite (mapM_raise _ ZeroDivisionError _ env); [done| |done|by eapply dry_env_raises].
  intros y e E. unfold move_env in E. cbv zeta in E. apply bind_raise in E as [E|([p g] & _ & E)]; [by eapply move_raise|discriminate].
Qed.

(** A controller's prices are prices the payment ledger may ingest with. *)
Lemma controller_ingest (bcfg : book_config) (qcfg : quota_config) (scan : gmap string lease_row -> list (string * lease_row)) (scfg : submit_config)
    (lcfg : ledger_config) price_of `{!TokenPrices price_of} limit s l :
  pay_step bcfg qcfg scan scfg lcfg (s, l) (s, (ingest lcfg price_of (env_of s) (events_since (pay_cursor l) s) limit l).2).
Proof. apply pay_ingest, tp_nonneg. Qed.

(** ** Examples *)

(** A power exact at the exponents 1, -1 and 0. *)
Definition w_pow (x y : float) : float := if y =? fone then x else if y =? - fone then fdiv fone x else fone.

#[export] Instance w_pow_laws : PowLaws w_pow.
Proof.
  pose proof fone_pos. split; intros x y Hx; unfold w_pow.
  - destruct (y =? fone); [lia|]. destruct (y =? - fone); [|lia]. apply fdiv_nonneg; lia.
  - intros Hy. destruct (Z.eqb_spec y fone); [lia|]. destruct (Z.eqb_spec y (- fone)); lia.
Qed.

(** The default settings to the nearest 256th, and two environments with equal shares. *)
Definition w_f (n : Z) : float := Z.shiftl n 1066.
Definition w_params : price_params :=
  AsyncPriceParams (BaseParams fone (w_f 209) 1000 (w_f 5) (4 * fone) (w_f 269)) (300 * fone) (w_f 230) (w_f 282) (14400 * fone) (28800 * fone)
    (w_f 13) (2 * fone) (w_f 261) fone per_env (w_f 243) (w_f 128) (w_f 282) (w_f 230) (w_f 13) (w_f 3) (100 * fone)
    (w_f 243) (w_f 269) (w_f 26) (w_f 276) (w_f 238) (w_f 218) (w_f 294) (w_f 3) (20 * fone)
    (21600 * fone) (3600 * fone) (21600 * fone) (4320 * fone).

Definition w_targets : list (string * float) := [("code"%string, w_f 128); ("math"%string, w_f 128)].
Definition w_controller : controller_config := Controller_config w_targets (w_f 205) (1000000 * fone) (w_f 128) w_params.

Lemma w_good : good_controller w_controller.
Proof.
  split.
  - by vm_compute.
  - by split; vm_compute.
  - by vm_compute.
  - by vm_compute.
  - cbn. split_and!; [apply fone_representable|by vm_compute|by vm_compute].
  - by split; vm_compute.
  - cbn. apply (bool_decide_unpack _). vm_compute. exact I.
Qed.

(** The first batch is taken: the trainer's speed is not known yet. *)
Definition w_tick (arr : list (string * Z)) : queue_tick := QueueTick (list_to_map arr) 3000 0.
Definition w_supplied : list (string * Z) := [("code"%string, 900); ("math"%string, 2000)].
Definition w_full : gset string := {["math"%string]}.
Definition w_first : result (list (string * price_row)) * price_state := tick w_pow w_controller (w_tick w_supplied) w_full ∅ (300 * fone) (new_prices 0).

Lemma w_first_ok : match w_first.1 with Ok rows => negb (bool_decide (rows = [])) | Raise _ => false end = true.
Proof. vm_compute. reflexivity. Qed.

Lemma w_first_reached : rtc (price_step w_pow w_controller) (new_prices 0) w_first.2.
Proof. apply rtc_once. apply price_tick. Qed.

Lemma prices_bounded_witness : 0 <= token_price w_controller "code" w_first.2 /\
  w_f 5 <= multiplier w_controller "code" w_first.2 <= 4 * fone.
Proof.
  destruct (prices_bounded w_pow w_controller 0 w_first.2 _ w_good w_first_reached) as (H1 & H2 & _).
  exact (conj (H1 "code"%string) (H2 eq_refl "code"%string)).
Defined.

Lemma tick_guards_witness : exists rows, w_first.1 = Ok rows /\ rows <> [] /\ multiplier w_controller "math" w_first.2 <= fone /\
  (trainer_speed w_controller (300 * fone) (ps_work w_first.2) = None -> multiplier w_controller "math" w_first.2 = fone).
Proof.
  pose proof w_first_ok as H. destruct w_first as [[rows|e] s'] eqn:E; [|discriminate H]. exists rows. cbn [fst snd].
  destruct (tick_guards w_pow w_controller 0 (300 * fone) (new_prices 0) s' (w_tick w_supplied) w_full ∅ rows) as [H1 H2].
  - exact _.
  - apply w_good.
  - reflexivity.
  - apply rtc_refl.
  - exact E.
  - split_and!; [reflexivity| |apply (H1 ltac:(done) "math"%string)|intros Hn; exact (H2 Hn "math"%string)].
    apply negb_true_iff, bool_decide_eq_false in H. exact H.
Defined.

(** The trainer waits at a known speed, and nobody supplies code. *)
Definition w_starving : price_state := PriceState ∅ None ∅ 0 (Some (WorkRow (1000 * fone) (10 * fone) 0 0 0)) ∅.
Definition w_dry : queue_tick := QueueTick {["math"%string := 2000]} 0 (60 * fone).

Definition w_work : result (option work_row) := note_work w_pow w_controller (of_int 0) (60 * fone) (secs_of (300 * fone) w_starving) (300 * fone) (ps_work w_starving).
Definition w_mixes : result (list (string * float)) := note_supply w_pow w_controller w_dry (secs_of (300 * fone) w_starving) ∅.

Lemma w_dry_facts : match w_work, w_mixes with
  | Ok work, Ok mixes => (match trainer_speed w_controller (300 * fone) work with Some v => negb (fmul (w_f 128) v =? 0) | None => false end) && (0 <? py_sum mixes.*2)
  | _, _ => false end = true.
Proof. vm_compute. reflexivity. Qed.

Lemma dry_env_stops_tick_witness : tick w_pow w_controller w_dry ∅ ∅ (300 * fone) w_starving = (Raise ZeroDivisionError, w_starving).
Proof.
  pose proof w_dry_facts as H. destruct w_work as [work|] eqn:Ew; [|discriminate H]. destruct w_mixes as [mixes|] eqn:Em; [|discriminate H].
  destruct (trainer_speed w_controller (300 * fone) work) as [v|] eqn:Ev; [|discriminate H].
  apply andb_true_iff in H as [Hd%negb_true_iff%Z.eqb_neq Hs%Z.ltb_lt].
  apply (dry_env_stops_tick w_pow w_controller (300 * fone) w_starving w_dry ∅ ∅ work mixes v "code"%string).
  - apply w_good.
  - reflexivity.
  - apply fone_pos.
  - by vm_compute.
  - by vm_compute.
  - exact Ew.
  - exact Ev.
  - exact Em.
  - exact Hs.
  - by vm_compute.
  - exact Hd.
  - reflexivity.
  - reflexivity.
Defined.

