(* ===== verification/PromptCircuit.v ===== *)
(** * PromptCircuit: the circuit breaker of incompatible prompt renderers

    Models [validator/prompt_mismatch_circuit.py]: the strikes of a hotkey or an
    operator in an environment, the cooldown that enough of them arm, the single
    canary that may close it again, pruning, the snapshot and the load of the state
    file, and the background writer; [validator/no_reveal_circuit.py], its adapter for
    uploads that never came; and the two circuits as the precommit route of
    [validator/server.py] consults them.

    The order of the dict of states is not observable and is a [gmap]; so is the dict
    of strikes, keyed by signature.  Timestamps are floats of [PyFloat] and so finite.
    A file is its JSON value; [repr_of] is the text of a float or a container, which
    only a file written by hand can ask for.  The lock makes each method one step; the
    writer takes its snapshot in one step and has written it in a later one. *)

From S2P Require Import Prelude PyFloat Cooldown.

#[local] Open Scope Z_scope.

(** ** Data *)

(** [_OutcomeOrder], ordered as its tuple of fields. *)
Record order := Order { o_window : Z; o_arrival : float; o_signature : string }.
#[export] Instance order_eq_dec : EqDecision order.
Proof. solve_decision. Defined.

Definition order_ltb (a b : order) : bool :=
  (o_window a <? o_window b) ||
  ((o_window a =? o_window b) && ((o_arrival a <? o_arrival b) || ((o_arrival a =? o_arrival b) && String.ltb (o_signature a) (o_signature b)))).
Definition order_leb (a b : order) : bool := negb (order_ltb b a).

(** [_outcome_order] *)
Definition outcome_order (window : Z) (arrival : float) (signature : string) : result order :=
  let s := strip signature in if String.eqb s "" then Raise ValueError else Ok (Order window arrival s).

(** [_CircuitState] *)
Record circuit_state := CircuitState {
  failure_events : gmap string order;
  cooldown_level : Z;
  cooldown_until : Z;
  probe_signature : option string;
  probe_window : option Z;
  recovery_order : option order;
  last_window : Z;
  mismatch_count : Z;
}.
#[export] Instance circuit_state_eq_dec : EqDecision circuit_state.
Proof. solve_decision. Defined.
Definition new_state : circuit_state := CircuitState ∅ (-1) 0 None None None 0 0.

(** Environment, scope, identity. *)
Abbreviation key := (string * string * string)%type.
Definition valid_scopes : list string := ["hotkey"; "operator"]%string.

Record config := Config {
  namespace : string;
  enabled : bool;
  failure_threshold : Z;
  failure_window_windows : Z;
  cooldown_windows : list Z;
  has_path : bool;
}.

(** [__init__] *)
Definition new_config (ns : string) (en : bool) (threshold windows : Z) (cooldowns : list Z) (path : bool) : result config :=
  let n := strip ns in
  if String.eqb n "" || (threshold <=? 0) || (windows <=? 0) || bool_decide (cooldowns = []) || existsb (fun v => v <=? 0) cooldowns
  then Raise ValueError
  else Ok (Config n en threshold windows cooldowns path).

(** The totals, each added to by one kind of event. *)
Record counters := Counters {
  mismatches_total : Z;
  binding_successes_total : Z;
  cooldowns_started_total : Z;
  cooldowns_escalated_total : Z;
  recoveries_total : Z;
  precommit_rejects_total : Z;
  stale_outcomes_ignored_total : Z;
  duplicate_outcomes_ignored_total : Z;
  noncanary_successes_ignored_total : Z;
}.
Definition add_counters (a b : counters) : counters :=
  Counters (mismatches_total a + mismatches_total b) (binding_successes_total a + binding_successes_total b)
    (cooldowns_started_total a + cooldowns_started_total b) (cooldowns_escalated_total a + cooldowns_escalated_total b)
    (recoveries_total a + recoveries_total b) (precommit_rejects_total a + precommit_rejects_total b)
    (stale_outcomes_ignored_total a + stale_outcomes_ignored_total b) (duplicate_outcomes_ignored_total a + duplicate_outcomes_ignored_total b)
    (noncanary_successes_ignored_total a + noncanary_successes_ignored_total b).
Definition no_counters : counters := Counters 0 0 0 0 0 0 0 0 0.

Record breaker := Breaker {
  states : gmap key circuit_state;
  totals : counters;
  generation : Z;
  persisted_generation : Z;
  stopping : bool;
  last_load_error : option exn;
  last_persistence_error : option exn;
  state_reset_reason : option string;
}.

Definition set_states (m : gmap key circuit_state) (b : breaker) : breaker :=
  Breaker m (totals b) (generation b) (persisted_generation b) (stopping b) (last_load_error b) (last_persistence_error b) (state_reset_reason b).
Definition count (d : counters) (b : breaker) : breaker :=
  Breaker (states b) (add_counters (totals b) d) (generation b) (persisted_generation b) (stopping b) (last_load_error b) (last_persistence_error b) (state_reset_reason b).

(** [PromptMismatchDecision], [PromptMismatchUpdate] *)
Record decision := PromptMismatchDecision {
  allowed : bool;
  canary : bool;
  blocked_scopes : list string;
  canary_scopes : list string;
  retry_after_window : option Z;
  status : string;
}.
Record update := PromptMismatchUpdate {
  activated_scopes : list string;
  escalated_scopes : list string;
  cleared_scopes : list string;
  cooldown_until_window : option Z;
}.
Definition no_update : update := PromptMismatchUpdate [] [] [] None.

(** [_subjects]: the scopes and identities to account to, each once. *)
Definition subjects (identities : list (string * string)) : list (string * string) :=
  foldl (fun seen si =>
    let s := (strip si.1, strip si.2) in
    if negb (bool_decide (s.1 ∈ valid_scopes)) || String.eqb s.2 "" || bool_decide (s ∈ seen) then seen else seen ++ [s]) [] identities.

(** [_key] *)
Definition key_of (environment : string) (s : string * string) : key := (strip environment, s.1, s.2).

(** [tuple(sorted(set(scopes)))] *)
Definition sorted_scopes (l : list string) : list string := isort String.leb (remove_dups l).

(** [max(l, default=None)] *)
Definition max_of (l : list Z) : option Z := match l with [] => None | x :: l' => Some (foldr Z.max x l') end.

(** What one scope says of the precommit. *)
Inductive gate := GPass | GCooldown (until : Z) | GPending | GCanary.
#[export] Instance gate_eq_dec : EqDecision gate.
Proof. solve_decision. Defined.

(** ** Pruning *)

Section circuit.
Context (cfg : config).

(** [_trim_failure_events_locked] *)
Definition trim (reference : Z) (st : circuit_state) : circuit_state :=
  let cutoff := reference - failure_window_windows cfg + 1 in
  CircuitState (filter (fun kv => cutoff <= o_window kv.2) (failure_events st)) (cooldown_level st) (cooldown_until st) (probe_signature st)
    (probe_window st) (recovery_order st) (last_window st) (mismatch_count st).

Definition is_unarmed (st : circuit_state) : bool := cooldown_level st <? 0.

Definition retention : Z := Z.max 1000 (4 * default 0 (max_of (cooldown_windows cfg))).

(** What pruning leaves of one entry. *)
Definition prune_entry (w : Z) (st : circuit_state) : option circuit_state :=
  let st' := if is_unarmed st then trim (Z.max w (last_window st)) st else st in
  if is_unarmed st && bool_decide (failure_events st' = ∅) && bool_decide (recovery_order st = None) then None
  else if (last_window st <? w - retention) && (is_unarmed st || (cooldown_until st <=? w)) then None
  else Some st'.

(** [_prune_locked] and whether it changed anything. *)
Definition prune (w : Z) (m : gmap key circuit_state) : gmap key circuit_state := omap (prune_entry w) m.
Definition pruned (w : Z) (m : gmap key circuit_state) : bool := negb (bool_decide (prune w m = m)).

(** [_schedule_save_locked], when the writer can be started. *)
Definition schedule_save (b : breaker) : breaker :=
  if negb (has_path cfg) || stopping b then b
  else Breaker (states b) (totals b) (generation b + 1) (persisted_generation b) (stopping b) (last_load_error b) (last_persistence_error b) (state_reset_reason b).
Definition schedule_if (changed : bool) (b : breaker) : breaker := if changed then schedule_save b else b.

(** ** Admission of a precommit *)

Definition gate_of (w : Z) (signature : string) (st : option circuit_state) : gate :=
  match st with
  | None => GPass
  | Some st =>
      if is_unarmed st then GPass
      else if w <? cooldown_until st then GCooldown (cooldown_until st)
      else if bool_decide (probe_window st = Some w) then
        if bool_decide (probe_signature st = Some signature) then GCanary else GPending
      else GCanary
  end.

Definition gate_block (w : Z) (g : gate) : option Z :=
  match g with GCooldown u => Some u | GPending => Some (w + 1) | GPass | GCanary => None end.
Definition is_canary (g : gate) : bool := match g with GCanary => true | _ => false end.

Definition reserve_probe (w : Z) (signature : string) (st : circuit_state) : circuit_state :=
  CircuitState (failure_events st) (cooldown_level st) (cooldown_until st) (Some signature) (Some w) (recovery_order st)
    (Z.max (last_window st) w) (mismatch_count st).

Definition admit_precommit (environment : string) (identities : list (string * string)) (w : Z) (sig : string) (b : breaker) : decision * breaker :=
  if negb (enabled cfg) then (PromptMismatchDecision true false [] [] None "disabled", b)
  else
    let signature := strip sig in
    let dirty := pruned w (states b) in
    let m := prune w (states b) in
    let gates := (fun s => (s, gate_of w signature (m !! key_of environment s))) <$> subjects identities in
    let blocked := filter (fun g => gate_block w g.2 <> None) gates in
    if bool_decide (blocked = []) then
      let canaries := filter (fun g => is_canary g.2 = true) gates in
      let m' := foldl (fun m g => alter (reserve_probe w signature) (key_of environment g.1) m) m canaries in
      let some := negb (bool_decide (canaries = [])) in
      (PromptMismatchDecision true some [] (sorted_scopes ((fun g => g.1.1) <$> canaries)) None (if some then "canary" else "allowed"),
       schedule_if (some || dirty) (set_states m' b))
    else
      let pending := existsb (fun g => match g.2 with GPending => true | _ => false end) blocked in
      (PromptMismatchDecision false false (sorted_scopes ((fun g => g.1.1) <$> blocked)) [] (max_of (omap (fun g => gate_block w g.2) blocked))
         (if pending then "canary_pending" else "cooldown"),
       schedule_if dirty (count (Counters 0 0 0 0 0 1 0 0 0) (set_states m b))).

(** [cancel_canary] *)
Definition holds_probe (signature : string) (w : Z) (st : circuit_state) : bool :=
  bool_decide (probe_signature st = Some signature) && bool_decide (probe_window st = Some w).
Definition drop_probe (st : circuit_state) : circuit_state :=
  CircuitState (failure_events st) (cooldown_level st) (cooldown_until st) None None (recovery_order st) (last_window st) (mismatch_count st).

Definition cancel_canary (environment : string) (identities : list (string * string)) (w : Z) (sig : string) (b : breaker) : breaker :=
  if negb (enabled cfg) then b
  else
    let signature := strip sig in
    let held := filter (fun s => from_option (holds_probe signature w) false (states b !! key_of environment s) = true) (subjects identities) in
    schedule_if (negb (bool_decide (held = [])))
      (set_states (foldl (fun m s => alter drop_probe (key_of environment s) m) (states b) held) b).

(** ** Outcomes *)

Inductive strike := Stale | Duplicate | Counted | Activated (until : Z) | Escalated (until : Z).

(** One scope's part of [record_mismatch]. *)
Definition with_strike (w : Z) (st : circuit_state) : circuit_state :=
  CircuitState (failure_events st) (cooldown_level st) (cooldown_until st) (probe_signature st) (probe_window st) (recovery_order st)
    (Z.max (last_window st) w) (mismatch_count st + 1).
Definition add_failure (e : order) (st : circuit_state) : circuit_state :=
  CircuitState (<[o_signature e := e]> (failure_events st)) (cooldown_level st) (cooldown_until st) (probe_signature st) (probe_window st)
    (recovery_order st) (last_window st) (mismatch_count st).
Definition arm (failures : gmap string order) (lvl until : Z) (st : circuit_state) : circuit_state :=
  CircuitState failures lvl until None None (recovery_order st) (last_window st) (mismatch_count st).

(** [len({failure.window for failure in failures})] *)
Definition failure_windows (f : gmap string order) : gset Z := map_to_set (fun _ e => o_window e) f.
Definition failure_count (dedupe : bool) (f : gmap string order) : Z :=
  if dedupe then Z.of_nat (size (failure_windows f)) else Z.of_nat (size f).

Definition strike_entry (dedupe : bool) (e : order) (st0 : circuit_state) : circuit_state * strike :=
  let st := with_strike (o_window e) st0 in
  if match recovery_order st with Some r => order_leb e r | None => false end then (st, Stale)
  else if is_unarmed st then
    if bool_decide (is_Some (failure_events st !! o_signature e)) || (dedupe && bool_decide (o_window e ∈ failure_windows (failure_events st)))
    then (st, Duplicate)
    else
      let reference := Z.max (o_window e) (last_window st) in
      let st1 := trim reference (add_failure e st) in
      if failure_threshold cfg <=? failure_count dedupe (failure_events st1) then
        let until := reference + default 0 (cooldown_windows cfg !! 0%nat) in
        (arm ∅ 0 until st1, Activated until)
      else (st1, Counted)
  else if bool_decide (probe_signature st = Some (o_signature e)) then
    let lvl := Z.min (cooldown_level st + 1) (Z.of_nat (length (cooldown_windows cfg)) - 1) in
    let until := o_window e + default 0 (cooldown_windows cfg !! Z.to_nat lvl) in
    (arm (failure_events st) lvl until st, Escalated until)
  else (st, Stale).

Definition strike_counters (s : strike) : counters :=
  match s with Stale => Counters 0 0 0 0 0 0 1 0 0 | Duplicate => Counters 0 0 0 0 0 0 0 1 0 | _ => no_counters end.
Definition strike_changes (s : strike) : bool := match s with Stale | Duplicate => false | _ => true end.
Definition strike_until (s : strike) : option Z := match s with Activated u | Escalated u => Some u | _ => None end.
Definition is_activated (s : strike) : bool := match s with Activated _ => true | _ => false end.
Definition is_escalated (s : strike) : bool := match s with Escalated _ => true | _ => false end.

(** The loop over the scopes. *)
Definition strike_all (dedupe : bool) (environment : string) (e : order) (subs : list (string * string)) (m : gmap key circuit_state) :
    gmap key circuit_state * list (string * strike) :=
  foldl (fun acc s =>
    let k := key_of environment s in
    let r := strike_entry dedupe e (default new_state (acc.1 !! k)) in
    (<[k := r.1]> acc.1, acc.2 ++ [(s.1, r.2)])) (m, []) subs.

Definition scopes_where (f : strike -> bool) (out : list (string * strike)) : list string := (filter (fun x => f x.2 = true) out).*1.
Definition flag (c : counters) (l : list string) : counters := if bool_decide (l = []) then no_counters else c.

Definition record_mismatch (environment : string) (identities : list (string * string)) (w : Z) (sig : string) (arrival : float) (dedupe : bool) :
    method breaker update := fun b =>
  if negb (enabled cfg) then (Ok no_update, b)
  else
    match outcome_order w arrival sig with
    | Raise e => (Raise e, b)
    | Ok e =>
        let subs := subjects identities in
        if bool_decide (subs = []) then (Ok no_update, b)
        else
          let dirty := pruned w (states b) in
          let r := strike_all dedupe environment e subs (prune w (states b)) in
          let activated := scopes_where is_activated r.2 in
          let escalated := scopes_where is_escalated r.2 in
          let c := foldr add_counters no_counters (strike_counters ∘ snd <$> r.2) in
          (Ok (PromptMismatchUpdate (sorted_scopes activated) (sorted_scopes escalated) [] (max_of (omap (strike_until ∘ snd) r.2))),
           schedule_if (dirty || existsb strike_changes r.2.*2)
             (count (flag (Counters 0 0 0 1 0 0 0 0 0) escalated) (count (flag (Counters 0 0 1 0 0 0 0 0 0) activated)
               (count (add_counters (Counters 1 0 0 0 0 0 0 0 0) c) (set_states r.1 b)))))
    end.

(** One scope's part of [record_binding_success]. *)
Inductive credit := Ignored | Unmoved | Cleared.
Definition credit_entry (e : order) (st : circuit_state) : circuit_state * credit :=
  if is_unarmed st then (st, if bool_decide (failure_events st = ∅) then Unmoved else Ignored)
  else if bool_decide (probe_signature st = Some (o_signature e)) then
    (CircuitState ∅ (-1) 0 None None
       (Some (match recovery_order st with Some r => if order_ltb r e then e else r | None => e end))
       (Z.max (last_window st) (o_window e)) (mismatch_count st), Cleared)
  else (st, Ignored).

Definition credit_all (environment : string) (e : order) (subs : list (string * string)) (m : gmap key circuit_state) :
    gmap key circuit_state * list (string * credit) :=
  foldl (fun acc s =>
    let k := key_of environment s in
    match acc.1 !! k with
    | None => acc
    | Some st => let r := credit_entry e st in (<[k := r.1]> acc.1, acc.2 ++ [(s.1, r.2)])
    end) (m, []) subs.

Definition is_cleared (c : credit) : bool := match c with Cleared => true | _ => false end.
Definition credit_counters (c : credit) : counters := match c with Ignored => Counters 0 0 0 0 0 0 0 0 1 | _ => no_counters end.

Definition record_binding_success (environment : string) (identities : list (string * string)) (w : Z) (sig : string) (arrival : float) :
    method breaker update := fun b =>
  if negb (enabled cfg) then (Ok no_update, b)
  else
    match outcome_order w arrival sig with
    | Raise e => (Raise e, b)
    | Ok e =>
        let dirty := pruned w (states b) in
        let r := credit_all environment e (subjects identities) (prune w (states b)) in
        let cleared := (filter (fun x => is_cleared x.2 = true) r.2).*1 in
        let c := foldr add_counters no_counters (credit_counters ∘ snd <$> r.2) in
        (Ok (PromptMismatchUpdate [] [] (sorted_scopes cleared) None),
         schedule_if (negb (bool_decide (cleared = [])) || dirty)
           (count (flag (Counters 0 0 0 0 1 0 0 0 0) cleared) (count (add_counters (Counters 0 1 0 0 0 0 0 0 0) c) (set_states r.1 b))))
    end.

(** ** Health *)

Record health := Health {
  h_entries : Z;
  h_partial : Z;
  h_debt : Z;
  h_tombstones : Z;
  h_armed : Z;
  h_active : Z;
  h_ready : Z;
  h_pending : Z;
  h_status : string;
  h_behind : bool;
}.

Definition is_partial (st : circuit_state) : bool := is_unarmed st && negb (bool_decide (failure_events st = ∅)).
Definition is_tombstone (st : circuit_state) : bool :=
  is_unarmed st && bool_decide (failure_events st = ∅) && negb (bool_decide (recovery_order st = None)).
Definition is_active (now : option Z) (st : circuit_state) : bool :=
  negb (is_unarmed st) && match now with None => true | Some w => w <? cooldown_until st end.
Definition is_pending (now : option Z) (st : circuit_state) : bool :=
  negb (is_unarmed st) && negb (is_active now st) && bool_decide (probe_window st = now).
Definition is_ready (now : option Z) (st : circuit_state) : bool :=
  negb (is_unarmed st) && negb (is_active now st) && negb (bool_decide (probe_window st = now)).

Definition count_states (f : circuit_state -> bool) (m : gmap key circuit_state) : Z := map_sum (fun _ st => Z.b2z (f st)) m.

Definition health_snapshot (now : option Z) (b : breaker) : health :=
  let m := states b in
  let degraded := has_path cfg && (bool_decide (is_Some (last_load_error b)) || bool_decide (is_Some (last_persistence_error b))) in
  Health (Z.of_nat (size m)) (count_states is_partial m) (map_sum (fun _ st => if is_unarmed st then Z.of_nat (size (failure_events st)) else 0) m)
    (count_states is_tombstone m) (count_states (negb ∘ is_unarmed) m) (count_states (is_active now) m) (count_states (is_ready now) m)
    (count_states (is_pending now) m) (if negb (enabled cfg) then "disabled" else if degraded then "degraded" else "ok")
    (persisted_generation b <? generation b).

(** ** The state file *)

(** [to_json] *)
Definition order_json (e : order) : pyval :=
  VDict [("window"%string, VInt (o_window e)); ("arrival_ts"%string, VFloat (o_arrival e)); ("signature"%string, VStr (o_signature e))].

Definition opt_str (o : option string) : pyval := match o with Some s => VStr s | None => VNone end.
Definition opt_int (o : option Z) : pyval := match o with Some z => VInt z | None => VNone end.
Definition opt_order (o : option order) : pyval := match o with Some e => order_json e | None => VNone end.

Definition key_leb (a b : key * circuit_state) : bool :=
  let '(e1, s1, i1) := a.1 in let '(e2, s2, i2) := b.1 in
  String.ltb e1 e2 || (String.eqb e1 e2 && (String.ltb s1 s2 || (String.eqb s1 s2 && String.leb i1 i2))).

Definition entry_json (kv : key * circuit_state) : pyval :=
  let '(environment, scope, identity) := kv.1 in let st := kv.2 in
  VDict [("environment"%string, VStr environment); ("scope"%string, VStr scope); ("identity"%string, VStr identity);
         ("failure_events"%string, VList (order_json <$> isort order_leb (map_to_list (failure_events st)).*2));
         ("cooldown_level"%string, VInt (cooldown_level st)); ("cooldown_until_window"%string, VInt (cooldown_until st));
         ("probe_signature"%string, opt_str (probe_signature st)); ("probe_window"%string, opt_int (probe_window st));
         ("recovery_order"%string, opt_order (recovery_order st)); ("last_window"%string, VInt (last_window st));
         ("mismatch_count"%string, VInt (mismatch_count st))].

Definition counters_json (c : counters) : pyval :=
  VDict [("mismatches_total"%string, VInt (mismatches_total c)); ("binding_successes_total"%string, VInt (binding_successes_total c));
         ("cooldowns_started_total"%string, VInt (cooldowns_started_total c)); ("cooldowns_escalated_total"%string, VInt (cooldowns_escalated_total c));
         ("recoveries_total"%string, VInt (recoveries_total c)); ("precommit_rejects_total"%string, VInt (precommit_rejects_total c));
         ("stale_outcomes_ignored_total"%string, VInt (stale_outcomes_ignored_total c));
         ("duplicate_outcomes_ignored_total"%string, VInt (duplicate_outcomes_ignored_total c));
         ("noncanary_successes_ignored_total"%string, VInt (noncanary_successes_ignored_total c))].

(** [_snapshot_locked] at the time [now]. *)
Definition SCHEMA_VERSION : Z := 2.
Definition snapshot (now : float) (b : breaker) : pyval :=
  VDict [("schema_version"%string, VInt SCHEMA_VERSION); ("namespace"%string, VStr (namespace cfg)); ("updated_at"%string, VFloat now);
         ("entries"%string, VList (entry_json <$> isort key_leb (map_to_list (states b)))); ("counters"%string, counters_json (totals b))].

Context (repr_of : pyval -> string).

(** [str(v)] *)
Definition to_str (v : pyval) : string :=
  match v with
  | VStr s => s
  | VInt z => py_str z
  | VBool b => if b then "True" else "False"
  | VNone => "None"
  | _ => repr_of v
  end.

(** [from_json] *)
Definition order_of_json (v : pyval) : result order :=
  match v with
  | VDict d =>
      w ← item d "window"; w ← to_int w; a ← item d "arrival_ts"; a ← to_float a; s ← item d "signature";
      let s := strip (to_str s) in
      if String.eqb s "" then Raise ValueError else Ok (Order w a s)
  | _ => Raise TypeError
  end.

(** [x if entry.get(name) is not None else None] *)
Definition get_some {A} (f : pyval -> result A) (d : list (string * pyval)) (name : string) : result (option A) :=
  match dict_get name d with VNone => Ok None | v => Some <$> f v end.

Definition failures_of_json (v : pyval) : result (gmap string order) :=
  match v with
  | VList l => fold_result (fun m raw => e ← order_of_json raw; Ok (<[o_signature e := e]> m)) ∅ l
  | _ => Raise TypeError
  end.

(** One entry of the file. *)
Definition restore_entry (v : pyval) : result (key * circuit_state) :=
  match v with
  | VDict d =>
      environment ← item d "environment"; scope ← item d "scope"; identity ← item d "identity";
      let environment := strip (to_str environment) in
      let scope := strip (to_str scope) in
      let identity := strip (to_str identity) in
      if String.eqb environment "" || String.eqb identity "" then Raise ValueError
      else if negb (bool_decide (scope ∈ valid_scopes)) then Raise ValueError
      else
        failures ← failures_of_json (dict_get_or "failure_events" d (VList []));
        recovery ← get_some order_of_json d "recovery_order";
        lvl ← to_int (dict_get_or "cooldown_level" d (VInt (-1)));
        until ← to_int (dict_get_or "cooldown_until_window" d (VInt 0));
        probe ← get_some (fun v => Ok (to_str v)) d "probe_signature";
        pw ← get_some to_int d "probe_window";
        last ← to_int (dict_get_or "last_window" d (VInt 0));
        n ← to_int (dict_get_or "mismatch_count" d (VInt 0));
        if n <? 0 then Raise ValueError
        else if negb ((-1 <=? lvl) && (lvl <? Z.of_nat (length (cooldown_windows cfg)))) then Raise ValueError
        else if (lvl <? 0) && (failure_threshold cfg <=? Z.of_nat (size failures)) then Raise ValueError
        else Ok ((environment, scope, identity), CircuitState failures lvl until probe pw recovery last n)
  | _ => Raise TypeError
  end.

Definition restore_entries (v : pyval) : result (gmap key circuit_state) :=
  match v with
  | VList l => fold_result (fun m raw => kv ← restore_entry raw; Ok (<[kv.1 := kv.2]> m)) ∅ l
  | _ => Raise TypeError
  end.

(** The totals, each with its name in the file and how it is set. *)
Definition counter_fields : list (string * (Z -> counters -> counters)) :=
  [("mismatches_total"%string, fun x c => Counters x (binding_successes_total c) (cooldowns_started_total c) (cooldowns_escalated_total c) (recoveries_total c) (precommit_rejects_total c) (stale_outcomes_ignored_total c) (duplicate_outcomes_ignored_total c) (noncanary_successes_ignored_total c));
   ("binding_successes_total"%string, fun x c => Counters (mismatches_total c) x (cooldowns_started_total c) (cooldowns_escalated_total c) (recoveries_total c) (precommit_rejects_total c) (stale_outcomes_ignored_total c) (duplicate_outcomes_ignored_total c) (noncanary_successes_ignored_total c));
   ("cooldowns_started_total"%string, fun x c => Counters (mismatches_total c) (binding_successes_total c) x (cooldowns_escalated_total c) (recoveries_total c) (precommit_rejects_total c) (stale_outcomes_ignored_total c) (duplicate_outcomes_ignored_total c) (noncanary_successes_ignored_total c));
   ("cooldowns_escalated_total"%string, fun x c => Counters (mismatches_total c) (binding_successes_total c) (cooldowns_started_total c) x (recoveries_total c) (precommit_rejects_total c) (stale_outcomes_ignored_total c) (duplicate_outcomes_ignored_total c) (noncanary_successes_ignored_total c));
   ("recoveries_total"%string, fun x c => Counters (mismatches_total c) (binding_successes_total c) (cooldowns_started_total c) (cooldowns_escalated_total c) x (precommit_rejects_total c) (stale_outcomes_ignored_total c) (duplicate_outcomes_ignored_total c) (noncanary_successes_ignored_total c));
   ("precommit_rejects_total"%string, fun x c => Counters (mismatches_total c) (binding_successes_total c) (cooldowns_started_total c) (cooldowns_escalated_total c) (recoveries_total c) x (stale_outcomes_ignored_total c) (duplicate_outcomes_ignored_total c) (noncanary_successes_ignored_total c));
   ("stale_outcomes_ignored_total"%string, fun x c => Counters (mismatches_total c) (binding_successes_total c) (cooldowns_started_total c) (cooldowns_escalated_total c) (recoveries_total c) (precommit_rejects_total c) x (duplicate_outcomes_ignored_total c) (noncanary_successes_ignored_total c));
   ("duplicate_outcomes_ignored_total"%string, fun x c => Counters (mismatches_total c) (binding_successes_total c) (cooldowns_started_total c) (cooldowns_escalated_total c) (recoveries_total c) (precommit_rejects_total c) (stale_outcomes_ignored_total c) x (noncanary_successes_ignored_total c));
   ("noncanary_successes_ignored_total"%string, fun x c => Counters (mismatches_total c) (binding_successes_total c) (cooldowns_started_total c) (cooldowns_escalated_total c) (recoveries_total c) (precommit_rejects_total c) (stale_outcomes_ignored_total c) (duplicate_outcomes_ignored_total c) x)].

(** They are read one after the other: those before an unreadable one are kept. *)
Fixpoint restore_fields (d : list (string * pyval)) (fields : list (string * (Z -> counters -> counters))) (c : counters) : result unit * counters :=
  match fields with
  | [] => (Ok tt, c)
  | (name, put) :: fields' =>
      match to_int (dict_get_or name d (VInt 0)) with
      | Raise e => (Raise e, c)
      | Ok n => restore_fields d fields' (put (Z.max 0 n) c)
      end
  end.
Definition restore_counters (d : list (string * pyval)) : method counters unit := restore_fields d counter_fields.

(** [payload.get("schema_version") == 2] *)
Definition is_schema (v : pyval) : bool :=
  match v with VInt z => z =? SCHEMA_VERSION | VFloat f => f =? of_int SCHEMA_VERSION | _ => false end.

Definition fresh_breaker : breaker := Breaker ∅ no_counters 0 0 false None None None.
Definition fail_open (e : exn) (b : breaker) : breaker :=
  Breaker (states b) (totals b) (generation b) (persisted_generation b) (stopping b) (Some e) (last_persistence_error b) (state_reset_reason b).
Definition reset_state (why : string) (b : breaker) : breaker :=
  Breaker (states b) (totals b) (generation b) (persisted_generation b) (stopping b) (last_load_error b) (last_persistence_error b) (Some why).

(** [_load]: [file] is [None] without a file, a raised exception when it cannot be
    read or parsed. *)
Definition load (file : option (result pyval)) : breaker :=
  let b := fresh_breaker in
  if negb (has_path cfg) then b
  else
    match file with
    | None => b
    | Some (Raise e) => fail_open e b
    | Some (Ok (VDict d)) =>
        if negb (is_schema (dict_get "schema_version" d)) then
          reset_state ("schema_changed:" +:+ to_str (dict_get "schema_version" d)) b
        else if negb (String.eqb (strip (to_str (dict_get_or "namespace" d (VStr "")))) (namespace cfg)) then reset_state "namespace_changed" b
        else
          match restore_entries (dict_get_or "entries" d (VList [])) with
          | Raise e => fail_open e b
          | Ok m =>
              let b := set_states m b in
              match restore_counters (match dict_get_or "counters" d (VDict []) with VDict c => c | _ => [] end) (totals b) with
              | (r, c) =>
                  let b := Breaker (states b) c (generation b) (persisted_generation b) (stopping b) (last_load_error b) (last_persistence_error b) (state_reset_reason b) in
                  match r with Ok _ => b | Raise e => fail_open e b end
              end
          end
    | Some (Ok _) => fail_open TypeError b
    end.
End circuit.

(** ** The background writer and the process *)

Section process.
Context (cfg : config) (repr_of : pyval -> string).

(** [_persistence_worker]: the snapshot of the latest generation, under the lock, and
    later the end of its write, [error] being what the write answered. *)
Definition writer_take (now : float) (b : breaker) : option (Z * pyval) :=
  if persisted_generation b <? generation b then Some (generation b, snapshot cfg now b) else None.
Definition writer_done (target : Z) (error : option exn) (b : breaker) : breaker :=
  Breaker (states b) (totals b) (generation b) (Z.max (persisted_generation b) target) (stopping b) (last_load_error b) error (state_reset_reason b).

(** [close] *)
Definition close (b : breaker) : breaker :=
  Breaker (states b) (totals b) (generation b) (persisted_generation b) true (last_load_error b) (last_persistence_error b) (state_reset_reason b).

(** The breaker, its file and the payload being written. *)
Record process := Process { proc : breaker; file : option (result pyval); in_flight : option (Z * pyval) }.

Definition start (f : option (result pyval)) : process := Process (load cfg repr_of f) f None.

Inductive circuit_event :=
  | EAdmit (environment : string) (identities : list (string * string)) (w : Z) (sig : string)
  | ECancel (environment : string) (identities : list (string * string)) (w : Z) (sig : string)
  | EMismatch (environment : string) (identities : list (string * string)) (w : Z) (sig : string) (arrival : float) (dedupe : bool)
  | ESuccess (environment : string) (identities : list (string * string)) (w : Z) (sig : string) (arrival : float).

Definition apply_event (e : circuit_event) (b : breaker) : breaker :=
  match e with
  | EAdmit env ids w sig => (admit_precommit cfg env ids w sig b).2
  | ECancel env ids w sig => cancel_canary cfg env ids w sig b
  | EMismatch env ids w sig arrival dedupe => (record_mismatch cfg env ids w sig arrival dedupe b).2
  | ESuccess env ids w sig arrival => (record_binding_success cfg env ids w sig arrival b).2
  end.

(** What the callers of one circuit promise: an environment with a name, and always the
    same way of counting. *)
Definition event_ok (dedupe : bool) (e : circuit_event) : Prop :=
  match e with
  | EAdmit env _ _ _ | ECancel env _ _ _ | ESuccess env _ _ _ _ => strip env <> ""%string
  | EMismatch env _ _ _ _ d => strip env <> ""%string /\ d = dedupe
  end.

(** A call; the writer, whose write succeeds or fails; the end of the service; and a
    crash at any point, after which a process starts on the file as it is. *)
Inductive process_step (dedupe : bool) : process -> process -> Prop :=
  | step_event e p : event_ok dedupe e -> process_step dedupe p (Process (apply_event e (proc p)) (file p) (in_flight p))
  | step_take now p x : in_flight p = None -> writer_take now (proc p) = Some x -> process_step dedupe p (Process (proc p) (file p) (Some x))
  | step_written p target v : in_flight p = Some (target, v) ->
      process_step dedupe p (Process (writer_done target None (proc p)) (Some (Ok v)) None)
  | step_failed p target v e : in_flight p = Some (target, v) -> process_step dedupe p (Process (writer_done target (Some e) (proc p)) (file p) None)
  | step_close p : process_step dedupe p (Process (close (proc p)) (file p) (in_flight p))
  | step_crash p : process_step dedupe p (start (file p)).
End process.

(** ** The adapter for uploads that never came *)

Definition NO_REVEAL_CIRCUIT_FAILURE_THRESHOLD : Z := 4.
Definition NO_REVEAL_CIRCUIT_FAILURE_WINDOW_WINDOWS : Z := 10.
Definition NO_REVEAL_CIRCUIT_COOLDOWN_WINDOWS : list Z := [10; 50; 250].
Definition PROMPT_MISMATCH_CIRCUIT_FAILURE_THRESHOLD : Z := 3.
Definition PROMPT_MISMATCH_CIRCUIT_FAILURE_WINDOW_WINDOWS : Z := 10.
Definition PROMPT_MISMATCH_CIRCUIT_COOLDOWN_WINDOWS : list Z := [10; 50; 250].

Definition no_reveal_config (ns : string) (en path : bool) : result config :=
  new_config ns en NO_REVEAL_CIRCUIT_FAILURE_THRESHOLD NO_REVEAL_CIRCUIT_FAILURE_WINDOW_WINDOWS NO_REVEAL_CIRCUIT_COOLDOWN_WINDOWS path.

Definition operator_identities (operator : option string) : list (string * string) :=
  let v := strip (default "" operator) in if String.eqb v "" then [] else [("operator"%string, v)].

Definition admit_reveal (cfg : config) (environment : string) (operator : option string) (w : Z) (sig : string) : breaker -> decision * breaker :=
  admit_precommit cfg environment (operator_identities operator) w sig.
Definition cancel_reveal (cfg : config) (environment : string) (operator : option string) (w : Z) (sig : string) : breaker -> breaker :=
  cancel_canary cfg environment (operator_identities operator) w sig.
Definition record_no_reveal (cfg : config) (environment : string) (operator : option string) (w : Z) (sig : string) (arrival : float) : method breaker update :=
  record_mismatch cfg environment (operator_identities operator) w sig arrival true.
Definition record_reveal (cfg : config) (environment : string) (operator : option string) (w : Z) (sig : string) (arrival : float) : method breaker update :=
  record_binding_success cfg environment (operator_identities operator) w sig arrival.

(** ** The precommit route over the two circuits *)

(** [_prompt_mismatch_identities] *)
Definition mismatch_identities (hotkey : string) (operator : option string) : list (string * string) :=
  ("hotkey"%string, hotkey) :: match operator with Some o => if String.eqb o "" then [] else [("operator"%string, o)] | None => [] end.

(** The prompt circuit, the no-reveal circuit, and the registration of the receipt:
    what the first two reserved is cancelled when the receipt is not registered. *)
Definition precommit_route (pcfg ncfg : config) (register : result bool) (environment hotkey : string) (operator : option string) (w : Z) (sig : string) :
    method (breaker * breaker) bool := fun '(pb, nb) =>
  let ids := mismatch_identities hotkey operator in
  let '(d, pb) := admit_precommit pcfg environment ids w sig pb in
  if negb (allowed d) then (Ok false, (pb, nb))
  else
    let '(n, nb) := admit_reveal ncfg environment operator w sig nb in
    let cancel_prompt pb := if canary d then cancel_canary pcfg environment ids w sig pb else pb in
    if negb (allowed n) then (Ok false, (cancel_prompt pb, nb))
    else
      let cancel_no_reveal nb := if canary n then cancel_reveal ncfg environment operator w sig nb else nb in
      match register with
      | Raise e => (Raise e, (cancel_prompt pb, cancel_no_reveal nb))
      | Ok false => (Ok false, (cancel_prompt pb, cancel_no_reveal nb))
      | Ok true => (Ok true, (pb, nb))
      end.

(** ** Text *)

Lemma list_string_inv s : String.string_of_list_ascii (String.list_ascii_of_string s) = s.
Proof. apply String.string_of_list_ascii_of_string. Qed.

Lemma reverse_reverse s : reverse (reverse s) = s.
Proof. unfold reverse. by rewrite String.list_ascii_of_string_of_list_ascii, rev_involutive, list_string_inv. Qed.

(** No space in front. *)
Definition bare (s : string) : Prop := match s with String c _ => is_space c = false | EmptyString => True end.

Lemma lstrip_bare s : bare (lstrip s).
Proof. induction s as [|c s IH]; cbn; [done|]. destruct (is_space c) eqn:E; [done|exact E]. Qed.

Lemma lstrip_id s : bare s -> lstrip s = s.
Proof. destruct s as [|c s]; cbn; [done|]. by intros ->. Qed.

Lemma lstrip_suffix s : exists p, String.list_ascii_of_string s = p ++ String.list_ascii_of_string (lstrip s).
Proof.
  induction s as [|c s (p & IH)]; cbn; [by exists []|]. destruct (is_space c); [|by exists []].
  exists (c :: p). cbn. by f_equal.
Qed.

Lemma bare_prefix s t p : String.list_ascii_of_string s = String.list_ascii_of_string t ++ p -> bare s -> bare t.
Proof. destruct t as [|c t]; [done|]. destruct s as [|c' s]; cbn; [done|]. by intros [= -> _]. Qed.

Lemma strip_idem s : strip (strip s) = strip s.
Proof.
  unfold strip at 1. set (t := reverse (lstrip s)).
  assert (bare (strip s)) as Hb.
  { unfold strip. destruct (lstrip_suffix t) as (p & Hp). eapply (bare_prefix (lstrip s) _ (rev p)); [|apply lstrip_bare].
    fold t. unfold reverse at 1. rewrite String.list_ascii_of_string_of_list_ascii, <- rev_app_distr, <- Hp. unfold t, reverse.
    by rewrite String.list_ascii_of_string_of_list_ascii, rev_involutive. }
  rewrite (lstrip_id _ Hb). unfold strip. rewrite reverse_reverse. f_equal. apply lstrip_id, lstrip_bare.
Qed.

(** ** Loops over distinct keys *)

Section loops.
Context {A S : Type} (kf : A -> key) (f : A -> option S -> option S).

Definition key_loop (l : list A) (m : gmap key S) : gmap key S := foldl (fun m x => partial_alter (f x) (kf x) m) m l.

Lemma key_loop_cons x l m : key_loop (x :: l) m = key_loop l (partial_alter (f x) (kf x) m).
Proof. done. Qed.

Lemma key_loop_other l m k : (forall x, x ∈ l -> kf x <> k) -> key_loop l m !! k = m !! k.
Proof.
  revert m. induction l as [|x l IH]; intros m Hl; [done|]. rewrite key_loop_cons, IH by (intros; apply Hl; by constructor).
  apply lookup_partial_alter_ne. apply Hl. constructor.
Qed.

Lemma key_loop_in l m x : NoDup (kf <$> l) -> x ∈ l -> key_loop l m !! kf x = f x (m !! kf x).
Proof.
  revert m. induction l as [|y l IH]; intros m Hnd Hx; [by apply not_elem_of_nil in Hx|]. apply NoDup_cons in Hnd as [Hy Hnd]. rewrite key_loop_cons.
  apply elem_of_cons in Hx as [->|Hx].
  - rewrite key_loop_other; [apply lookup_partial_alter_eq|]. intros z Hz E. apply Hy. rewrite <- E. by apply list_elem_of_fmap_2.
  - rewrite IH by done. rewrite lookup_partial_alter_ne; [done|]. intros E. apply Hy. rewrite E. by apply list_elem_of_fmap_2.
Qed.
End loops.

Lemma key_of_inj env : Inj (=) (=) (key_of env).
Proof. intros [s i] [s' i']. unfold key_of. cbn. by intros [= -> ->]. Qed.

(** A scope the circuit keeps an account of: stripped, valid and not empty. *)
Definition subject_ok (s : string * string) : Prop := strip s.1 = s.1 /\ strip s.2 = s.2 /\ s.1 ∈ valid_scopes /\ s.2 <> ""%string.

Lemma subjects_ok ids : NoDup (subjects ids) /\ Forall subject_ok (subjects ids).
Proof.
  unfold subjects. set (g := fun seen si => _). assert (forall seen, NoDup seen /\ Forall subject_ok seen -> NoDup (foldl g seen ids) /\ Forall subject_ok (foldl g seen ids)) as H.
  { induction ids as [|si ids IH]; intros seen [Hn Hf]; cbn; [done|]. apply IH. unfold g. cbn.
    destruct (bool_decide (strip si.1 ∈ valid_scopes)) eqn:Hv; [|done]. apply bool_decide_eq_true in Hv. cbn.
    destruct (String.eqb_spec (strip si.2) ""); [done|]. cbn. case_bool_decide as Hs; [done|]. split.
    - apply NoDup_app. split_and!; [done| |apply NoDup_singleton]. by intros x Hx ->%list_elem_of_singleton.
    - apply Forall_app. split; [done|]. apply Forall_singleton. split_and!; [apply strip_idem|apply strip_idem|done|done]. }
  apply H. split; constructor.
Qed.

Lemma subjects_keys env ids : NoDup (key_of env <$> subjects ids).
Proof. apply NoDup_fmap_2; [apply key_of_inj|apply subjects_ok]. Qed.

(** ** What an operation does to one entry *)

Lemma schedule_if_states cfg c b : states (schedule_if cfg c b) = states b.
Proof. unfold schedule_if, schedule_save. by destruct c, (negb (has_path cfg) || stopping b). Qed.

Lemma prune_lookup cfg w m k : prune cfg w m !! k = m !! k ≫= prune_entry cfg w.
Proof. apply lookup_omap. Qed.

(** The entries an event is about. *)
Definition touched (env : string) (ids : list (string * string)) (k : key) : Prop := k ∈ key_of env <$> subjects ids.
#[export] Instance touched_dec env ids k : Decision (touched env ids k) := decide (k ∈ key_of env <$> subjects ids).

Section lookups.
Context (cfg : config) (Hen : enabled cfg = true).

Lemma admit_lookup env ids w sig b d b' k : admit_precommit cfg env ids w sig b = (d, b') ->
  let p := states b !! k ≫= prune_entry cfg w in
  states b' !! k = if bool_decide (allowed d = true /\ touched env ids k /\ gate_of w (strip sig) p = GCanary) then reserve_probe w (strip sig) <$> p else p.
Proof.
  unfold admit_precommit. rewrite Hen. cbn [negb]. cbv zeta. set (m := prune cfg w (states b)). set (gates := _ <$> subjects ids).
  rewrite <- prune_lookup. fold m. destruct (bool_decide (filter _ gates = [])) eqn:Eb.
  2: { intros [= <- <-]. rewrite schedule_if_states. cbn. rewrite bool_decide_eq_false_2 by (intros [? _]; discriminate). done. }
  intros [= <- <-]. rewrite schedule_if_states. cbn [states set_states allowed]. clear Eb. set (can := filter (fun g => is_canary g.2 = true) gates).
  change (foldl _ m can) with (key_loop (fun g : (string * string) * gate => key_of env g.1) (fun _ => fmap (reserve_probe w (strip sig))) can m).
  assert (NoDup ((fun g : (string * string) * gate => key_of env g.1) <$> can)) as Hnd.
  { eapply sublist_NoDup; [|apply (fmap_sublist_filter _ _ gates)]. unfold gates. rewrite <- list_fmap_compose. apply subjects_keys. }
  case_bool_decide as H.
  - unfold touched in H. destruct H as (_ & (s & -> & Hs)%list_elem_of_fmap & Hg).
    change (key_of env s) with ((fun g : (string * string) * gate => key_of env g.1) (s, GCanary)) at 1. rewrite key_loop_in; [done|done|].
    apply list_elem_of_filter. split; [done|]. apply list_elem_of_fmap. exists s. by rewrite <- Hg.
  - apply key_loop_other. intros [s g] [Hc (s' & [= <- ->] & Hs)%list_elem_of_fmap]%list_elem_of_filter E. cbn in *. subst k. apply H.
    split_and!; [done|by apply list_elem_of_fmap_2|by destruct (gate_of _ _ _)].
Qed.

Lemma cancel_lookup env ids w sig b k :
  states (cancel_canary cfg env ids w sig b) !! k =
  if bool_decide (touched env ids k /\ from_option (holds_probe (strip sig) w) false (states b !! k) = true) then drop_probe <$> states b !! k else states b !! k.
Proof.
  unfold cancel_canary. rewrite Hen. cbn [negb]. cbv zeta. rewrite schedule_if_states. cbn [states set_states]. set (held := filter _ (subjects ids)).
  change (foldl _ (states b) held) with (key_loop (key_of env) (fun _ => fmap drop_probe) held (states b)).
  assert (NoDup (key_of env <$> held)) as Hnd by (eapply sublist_NoDup; [apply subjects_keys|apply fmap_sublist_filter]).
  case_bool_decide as H.
  - unfold touched in H. destruct H as [(s & -> & Hs)%list_elem_of_fmap Hh]. rewrite key_loop_in; [done|done|]. by apply list_elem_of_filter.
  - apply key_loop_other. intros s [Hh Hs]%list_elem_of_filter <-. apply H. split; [by apply list_elem_of_fmap_2|done].
Qed.

Lemma strike_all_spec dedupe env e subs m : NoDup (key_of env <$> subs) ->
  strike_all cfg dedupe env e subs m =
  (key_loop (key_of env) (fun _ o => Some (strike_entry cfg dedupe e (default new_state o)).1) subs m,
   (fun s => (s.1, (strike_entry cfg dedupe e (default new_state (m !! key_of env s))).2)) <$> subs).
Proof.
  unfold strike_all. set (g := fun acc s => _). intros Hnd.
  assert (forall out, foldl g (m, out) subs =
    (key_loop (key_of env) (fun _ o => Some (strike_entry cfg dedupe e (default new_state o)).1) subs m,
     out ++ ((fun s => (s.1, (strike_entry cfg dedupe e (default new_state (m !! key_of env s))).2)) <$> subs))) as H; [|apply (H [])].
  revert m. induction subs as [|s subs IH]; intros m out; cbn [foldl fmap list_fmap]; [by rewrite app_nil_r|].
  apply NoDup_cons in Hnd as [Hs Hnd]. rewrite key_loop_cons. unfold g at 2. cbn [fst snd]. rewrite IH by done.
  assert (forall x, <[key_of env s := x]> m = partial_alter (fun _ => Some x) (key_of env s) m) as Hins by done.
  rewrite <- app_assoc. cbn [app]. f_equal.
  - f_equal. rewrite Hins. apply partial_alter_ext. by intros ? <-.
  - do 2 f_equal. apply list_fmap_ext. intros i y Hy. do 3 f_equal. f_equal. apply lookup_insert_ne. intros E. apply Hs. rewrite E.
    apply list_elem_of_fmap_2. by eapply list_elem_of_lookup_2.
Qed.

Lemma mismatch_lookup env ids w sig arrival dedupe b k e : outcome_order w arrival sig = Ok e -> subjects ids <> [] ->
  let p := states b !! k ≫= prune_entry cfg w in
  states (record_mismatch cfg env ids w sig arrival dedupe b).2 !! k =
  if bool_decide (touched env ids k) then Some (strike_entry cfg dedupe e (default new_state p)).1 else p.
Proof.
  intros He Hs. unfold record_mismatch. rewrite Hen, He, bool_decide_eq_false_2 by done. cbn [negb snd]. cbv zeta. rewrite schedule_if_states.
  cbn [states set_states count]. rewrite strike_all_spec by apply subjects_keys. cbn [fst]. rewrite <- prune_lookup. case_bool_decide as H.
  - unfold touched in H. apply list_elem_of_fmap in H as (s & -> & H). by rewrite (key_loop_in _ _ _ _ _ (subjects_keys env ids) H).
  - apply key_loop_other. intros s Hin <-. apply H. by apply list_elem_of_fmap_2.
Qed.

Lemma credit_all_spec env e subs m : NoDup (key_of env <$> subs) ->
  credit_all env e subs m =
  (key_loop (key_of env) (fun _ => fmap (fun st => (credit_entry e st).1)) subs m,
   omap (fun s => (fun st => (s.1, (credit_entry e st).2)) <$> (m !! key_of env s)) subs).
Proof.
  unfold credit_all. set (g := fun acc s => _). intros Hnd.
  assert (forall out, foldl g (m, out) subs =
    (key_loop (key_of env) (fun _ => fmap (fun st => (credit_entry e st).1)) subs m,
     out ++ omap (fun s => (fun st => (s.1, (credit_entry e st).2)) <$> (m !! key_of env s)) subs)) as H; [|apply (H [])].
  revert m. induction subs as [|s subs IH]; intros m out; [cbn; by rewrite app_nil_r|].
  rewrite fmap_cons in Hnd. apply NoDup_cons in Hnd as [Hs Hnd]. cbn [foldl]. rewrite key_loop_cons. unfold g at 2. cbn [fst snd].
  assert (forall m' : gmap key circuit_state, (forall k, k <> key_of env s -> m' !! k = m !! k) ->
    omap (fun s => (fun st => (s.1, (credit_entry e st).2)) <$> (m' !! key_of env s)) subs =
    omap (fun s => (fun st => (s.1, (credit_entry e st).2)) <$> (m !! key_of env s)) subs) as Homap.
  { intros m' Hm'. clear IH Hnd. induction subs as [|y subs IH]; [done|]. rewrite fmap_cons in Hs. apply not_elem_of_cons in Hs as [Hy Hs]. cbn. rewrite Hm' by congruence.
    destruct (m !! key_of env y); cbn; by rewrite IH. }
  destruct (m !! key_of env s) as [st|] eqn:E; rewrite IH by done; cbn [omap list_omap]; rewrite E; cbn [fmap option_fmap option_map].
  - rewrite <- app_assoc. cbn [app]. f_equal; [|do 2 f_equal; apply Homap; intros k Hk; by apply lookup_insert_ne]. f_equal.
    apply map_eq. intros k. destruct (decide (k = key_of env s)) as [->|].
    + by rewrite lookup_insert_eq, lookup_partial_alter_eq, E.
    + by rewrite lookup_insert_ne, lookup_partial_alter_ne.
  - f_equal. f_equal. apply map_eq. intros k. destruct (decide (k = key_of env s)) as [->|].
    + by rewrite lookup_partial_alter_eq, E.
    + by rewrite lookup_partial_alter_ne.
Qed.

Lemma success_lookup env ids w sig arrival b k e : outcome_order w arrival sig = Ok e ->
  let p := states b !! k ≫= prune_entry cfg w in
  states (record_binding_success cfg env ids w sig arrival b).2 !! k =
  if bool_decide (touched env ids k) then (fun st => (credit_entry e st).1) <$> p else p.
Proof.
  intros He. unfold record_binding_success. rewrite Hen, He. cbn [negb snd]. cbv zeta. rewrite schedule_if_states.
  cbn [states set_states count]. rewrite credit_all_spec by apply subjects_keys. cbn [fst]. rewrite <- prune_lookup. case_bool_decide as H.
  - unfold touched in H. apply list_elem_of_fmap in H as (s & -> & H). by rewrite (key_loop_in _ _ _ _ _ (subjects_keys env ids) H).
  - apply key_loop_other. intros s Hin <-. apply H. by apply list_elem_of_fmap_2.
Qed.
End lookups.

(** ** Well-formed entries *)

(** A configuration the constructor accepts. *)
Record config_ok (cfg : config) : Prop := {
  co_namespace : strip (namespace cfg) = namespace cfg;
  co_threshold : 0 < failure_threshold cfg;
  co_windows : 0 < failure_window_windows cfg;
  co_cooldowns : cooldown_windows cfg <> [];
  co_positive : Forall (Z.lt 0) (cooldown_windows cfg);
}.

Lemma new_config_ok ns en th ws cds path cfg : new_config ns en th ws cds path = Ok cfg -> config_ok cfg.
Proof.
  unfold new_config. destruct (_ || _) eqn:E; [discriminate|]. intros <-%(inj Ok). repeat (apply orb_false_iff in E as [E ?]).
  split; cbn; [apply strip_idem|lia|lia|by eapply bool_decide_eq_false|]. apply Forall_forall. intros x Hx.
  destruct (Z.leb_spec x 0); [|done]. exfalso. assert (existsb (fun v => v <=? 0) cds = true) as Hex; [|congruence].
  apply existsb_exists. exists x. split; [by apply list_elem_of_In|by apply Z.leb_le].
Qed.

Definition signature_ok (s : string) : Prop := strip s = s /\ s <> ""%string.

(** [dedupe]: the entry belongs to a circuit that counts windows and not signatures. *)
Record entry_ok (cfg : config) (dedupe : bool) (st : circuit_state) : Prop := {
  eo_level : -1 <= cooldown_level st < Z.of_nat (length (cooldown_windows cfg));
  eo_count : 0 <= mismatch_count st;
  eo_failures : map_Forall (fun s e => o_signature e = s /\ signature_ok s) (failure_events st);
  eo_recovery : forall e, recovery_order st = Some e -> signature_ok (o_signature e);
  eo_below : is_unarmed st = true -> Z.of_nat (size (failure_events st)) < failure_threshold cfg;
  eo_windows : dedupe = true -> forall s s' e e', failure_events st !! s = Some e -> failure_events st !! s' = Some e' -> o_window e = o_window e' -> s = s';
}.

(** Where an entry is kept: under a stripped environment, scope and identity. *)
Definition key_ok (k : key) : Prop := strip k.1.1 = k.1.1 /\ k.1.1 <> ""%string /\ subject_ok (k.1.2, k.2).

Section entries.
Context (cfg : config) (Hcfg : config_ok cfg) (dedupe : bool).

Lemma new_state_ok : entry_ok cfg dedupe new_state.
Proof. split; cbn; [pose proof (co_cooldowns cfg Hcfg); lia|lia|apply map_Forall_empty|done| |by intros]. intros _. rewrite map_size_empty. apply Hcfg. Qed.

(** Losing strikes. *)
Lemma entry_ok_sub st f : entry_ok cfg dedupe st -> f ⊆ failure_events st ->
  entry_ok cfg dedupe (CircuitState f (cooldown_level st) (cooldown_until st) (probe_signature st) (probe_window st) (recovery_order st) (last_window st) (mismatch_count st)).
Proof.
  intros H Hf. split; cbn; [apply H|apply H| |apply H| |].
  - intros s e Hs. apply (eo_failures _ _ _ H). by eapply lookup_weaken.
  - intros Hu%(eo_below _ _ _ H). apply map_subseteq_size in Hf. lia.
  - intros Hd s s' e e' Hs Hs'. apply (eo_windows _ _ _ H Hd); by eapply lookup_weaken.
Qed.

Lemma trim_ok r st : entry_ok cfg dedupe st -> entry_ok cfg dedupe (trim cfg r st).
Proof. intros H. apply entry_ok_sub; [done|]. apply map_filter_subseteq. Qed.

Lemma prune_entry_inv w st st' : prune_entry cfg w st = Some st' ->
  st' = (if is_unarmed st then trim cfg (Z.max w (last_window st)) st else st) /\
  ((last_window st <? w - retention cfg) && (is_unarmed st || (cooldown_until st <=? w))) = false.
Proof.
  unfold prune_entry. cbv zeta. destruct (is_unarmed st && _ && _); [discriminate|]. destruct (_ && _) eqn:E; [discriminate|]. by intros [= <-].
Qed.

Lemma prune_entry_ok w st st' : entry_ok cfg dedupe st -> prune_entry cfg w st = Some st' -> entry_ok cfg dedupe st'.
Proof. intros H [-> _]%prune_entry_inv. destruct (is_unarmed st); [by apply trim_ok|done]. Qed.

Lemma reserve_probe_ok w s st : entry_ok cfg dedupe st -> entry_ok cfg dedupe (reserve_probe w s st).
Proof. intros []. by split. Qed.

Lemma drop_probe_ok st : entry_ok cfg dedupe st -> entry_ok cfg dedupe (drop_probe st).
Proof. intros []. by split. Qed.

Lemma failure_windows_elem f w : w ∈ failure_windows f <-> exists s e, f !! s = Some e /\ o_window e = w.
Proof. unfold failure_windows. rewrite elem_of_map_to_set. naive_solver. Qed.

(** With one strike a window, counting windows is counting strikes. *)
Lemma failure_windows_size f : (forall s s' e e', f !! s = Some e -> f !! s' = Some e' -> o_window e = o_window e' -> s = s') -> size (failure_windows f) = size f.
Proof.
  intros Hinj. unfold failure_windows, map_to_set. rewrite size_list_to_set.
  - rewrite length_fmap. apply length_map_to_list.
  - assert (forall l : list (string * order), NoDup l.*1 -> (forall s e, (s, e) ∈ l -> f !! s = Some e) -> NoDup (uncurry (fun _ e => o_window e) <$> l)) as H.
    { induction l as [|[s e] l IH]; intros Hnd Hl; [constructor|]. cbn in Hnd. apply NoDup_cons in Hnd as [Hs Hnd]. rewrite fmap_cons. apply NoDup_cons. split.
      - intros ([s' e'] & E & Hin)%list_elem_of_fmap. cbn in E. apply Hs. rewrite (Hinj s s' e e'); [|apply Hl; constructor|apply Hl; by constructor|done].
        apply list_elem_of_fmap. by exists (s', e').
      - apply IH; [done|]. intros s' e' Hin. apply Hl. by constructor. }
    apply H; [apply NoDup_fst_map_to_list|]. intros s e. by rewrite elem_of_map_to_list.
Qed.

Lemma failure_count_size st : entry_ok cfg dedupe st -> failure_count dedupe (failure_events st) = Z.of_nat (size (failure_events st)).
Proof. intros H. unfold failure_count. destruct dedupe; [|done]. rewrite failure_windows_size; [done|]. by apply (eo_windows _ _ _ H). Qed.

Lemma with_strike_ok w st : entry_ok cfg dedupe st -> entry_ok cfg dedupe (with_strike w st).
Proof. intros []. split; cbn; try done. lia. Qed.

(** The parts of a state with one strike more, before it is known to stay below. *)
Lemma add_failure_parts e st : signature_ok (o_signature e) -> entry_ok cfg dedupe st ->
  (dedupe = true -> o_window e ∉ failure_windows (failure_events st)) ->
  let st' := add_failure e st in
  map_Forall (fun s e => o_signature e = s /\ signature_ok s) (failure_events st') /\
  (dedupe = true -> forall s s' e e', failure_events st' !! s = Some e -> failure_events st' !! s' = Some e' -> o_window e = o_window e' -> s = s').
Proof.
  intros He H Hw. cbn. split.
  - apply map_Forall_insert_2; [done|]. apply H.
  - intros Hd s s' x x'. rewrite !lookup_insert_Some. specialize (Hw Hd). rewrite failure_windows_elem in Hw.
    intros [[<- <-]|[Hs Hx]] [[<- <-]|[Hs' Hx']] E; [done| | |by eapply (eo_windows _ _ _ H Hd)].
    + destruct Hw. by exists s', x'.
    + destruct Hw. by exists s, x.
Qed.

Lemma strike_entry_ok e st : signature_ok (o_signature e) -> entry_ok cfg dedupe st -> entry_ok cfg dedupe (strike_entry cfg dedupe e st).1.
Proof.
  intros He H. unfold strike_entry. apply (with_strike_ok (o_window e)) in H. set (st1 := with_strike (o_window e) st) in *.
  destruct (match recovery_order st1 with Some r => order_leb e r | None => false end); [done|]. destruct (is_unarmed st1) eqn:Hu.
  - destruct (_ || _) eqn:Edup; [done|]. apply orb_false_iff in Edup as [_ Hd]. cbv zeta.
    set (st2 := trim cfg _ (add_failure e st1)). destruct (add_failure_parts e st1 He H) as [Hf Hw].
    { intros Hdd. rewrite Hdd in Hd. cbn in Hd. by apply bool_decide_eq_false in Hd. }
    destruct (Z.leb_spec (failure_threshold cfg) (failure_count dedupe (failure_events st2))) as [Hth|Hth]; cbn [fst].
    + pose proof (co_cooldowns cfg Hcfg). destruct (cooldown_windows cfg) eqn:Ec; [done|].
      split; cbn; [rewrite Ec; cbn; lia|apply H|apply map_Forall_empty|apply H|discriminate|by intros].
    + assert (failure_events st2 ⊆ failure_events (add_failure e st1)) as Hsub by apply map_filter_subseteq.
      assert (dedupe = true -> forall s s' e0 e', failure_events st2 !! s = Some e0 -> failure_events st2 !! s' = Some e' -> o_window e0 = o_window e' -> s = s') as Hw2.
      { intros Hdd s s' x x' Hx Hx'. apply (Hw Hdd); by eapply lookup_weaken. }
      split; cbn [cooldown_level mismatch_count failure_events recovery_order st2 trim add_failure]; [apply H|apply H| |apply H| |exact Hw2].
      * intros s x Hx. apply Hf. by eapply lookup_weaken.
      * intros _. enough (failure_count dedupe (failure_events st2) = Z.of_nat (size (failure_events st2))) as E by (change (Z.of_nat (size (failure_events st2)) < failure_threshold cfg); rewrite <- E; exact Hth).
        unfold failure_count. destruct dedupe; [|done]. by rewrite failure_windows_size by (by apply Hw2).
  - case_bool_decide; [|done]. pose proof (eo_level _ _ _ H) as Hl. unfold is_unarmed in Hu. apply Z.ltb_ge in Hu. cbn in Hl, Hu.
    split; cbn; [lia|apply H|apply H|apply H| |apply H]. unfold is_unarmed. cbn. intros Hlt%Z.ltb_lt. lia.
Qed.

Lemma credit_entry_ok e st : signature_ok (o_signature e) -> entry_ok cfg dedupe st -> entry_ok cfg dedupe (credit_entry e st).1.
Proof.
  intros He H. unfold credit_entry. destruct (is_unarmed st); [done|]. case_bool_decide; [|done].
  split; cbn; [lia|apply H|apply map_Forall_empty| |intros _; rewrite map_size_empty; apply Hcfg|by intros].
  intros r [= <-]. destruct (recovery_order st) as [r0|] eqn:Er; [|done]. destruct (order_ltb r0 e); [done|]. by eapply (eo_recovery _ _ _ H).
Qed.

Lemma outcome_order_ok w a s e : outcome_order w a s = Ok e -> signature_ok (o_signature e) /\ o_window e = w /\ o_arrival e = a /\ o_signature e = strip s.
Proof.
  unfold outcome_order. destruct (String.eqb_spec (strip s) ""); [discriminate|]. intros <-%(inj Ok). split; [|done]. split; [apply strip_idem|done].
Qed.
End entries.

(** ** Events *)

Definition states_ok (cfg : config) (dedupe : bool) (m : gmap key circuit_state) : Prop := map_Forall (fun k st => key_ok k /\ entry_ok cfg dedupe st) m.

(** What a circuit decides by: everything but the two fields that only record
    traffic. *)
Definition essence (st : circuit_state) : circuit_state :=
  CircuitState (failure_events st) (cooldown_level st) (cooldown_until st) (probe_signature st) (probe_window st) (recovery_order st) 0 0.

Section events.
Context (cfg : config) (Hcfg : config_ok cfg) (dedupe : bool).

Lemma touched_key_ok env ids k : strip env <> ""%string -> touched env ids k -> key_ok k.
Proof.
  intros He (s & -> & Hs)%list_elem_of_fmap. destruct (subjects_ok ids) as [_ Hf]. rewrite Forall_forall in Hf.
  split; [apply strip_idem|]. split; [exact He|]. destruct s as [sc i]. exact (Hf _ Hs).
Qed.

Lemma pruned_ok w m k st : states_ok cfg dedupe m -> m !! k ≫= prune_entry cfg w = Some st -> key_ok k /\ entry_ok cfg dedupe st.
Proof. intros Hm (st0 & H0 & Hp)%bind_Some. apply Hm in H0 as [Hk H0]. split; [done|]. by eapply prune_entry_ok. Qed.

Lemma record_mismatch_idle env ids w sig arrival d b :
  (outcome_order w arrival sig = Raise ValueError \/ subjects ids = []) -> (record_mismatch cfg env ids w sig arrival d b).2 = b.
Proof.
  intros H. unfold record_mismatch. destruct (negb (enabled cfg)); [done|]. destruct (outcome_order w arrival sig) as [e|x] eqn:E; [|done].
  destruct H as [H|H]; [discriminate|]. by rewrite H, bool_decide_eq_true_2.
Qed.

Lemma outcome_order_raise w a s x : outcome_order w a s = Raise x -> x = ValueError.
Proof. unfold outcome_order. destruct (String.eqb _ _); by intros [=]. Qed.

Lemma apply_event_disabled e b : enabled cfg = false -> apply_event cfg e b = b.
Proof. intros H. by destruct e; cbn; unfold admit_precommit, cancel_canary, record_mismatch, record_binding_success; rewrite H. Qed.

Lemma apply_event_ok e b : event_ok dedupe e -> states_ok cfg dedupe (states b) -> states_ok cfg dedupe (states (apply_event cfg e b)).
Proof.
  intros He Hb. destruct (enabled cfg) eqn:Hen; [|by rewrite apply_event_disabled].
  intros k st. destruct e as [env ids w sig|env ids w sig|env ids w sig arrival d|env ids w sig arrival]; cbn [apply_event].
  - destruct (admit_precommit cfg env ids w sig b) as [dd b'] eqn:E. cbn [snd]. rewrite (admit_lookup cfg Hen _ _ _ _ _ _ _ k E). cbv zeta.
    case_bool_decide; [|by apply pruned_ok]. intros (st0 & H0 & ->)%fmap_Some. apply pruned_ok in H0 as [Hk H0]; [|done]. split; [done|by apply reserve_probe_ok].
  - rewrite (cancel_lookup cfg Hen). case_bool_decide; [|by apply Hb]. intros (st0 & H0 & ->)%fmap_Some. apply Hb in H0 as [Hk H0]. split; [done|by apply drop_probe_ok].
  - destruct He as [He ->]. destruct (outcome_order w arrival sig) as [o|x] eqn:Eo.
    2: { apply outcome_order_raise in Eo as Hx. subst x. rewrite record_mismatch_idle by (by left). apply Hb. }
    destruct (decide (subjects ids = [])) as [Hs|Hs]; [rewrite record_mismatch_idle by (by right); apply Hb|].
    rewrite (mismatch_lookup cfg Hen _ _ _ _ _ _ _ k o Eo Hs). cbv zeta. case_bool_decide as Ht; [|by apply pruned_ok]. intros [= <-].
    split; [by eapply touched_key_ok|]. apply outcome_order_ok in Eo as [Ho _]. apply strike_entry_ok; [done|done|].
    destruct (states b !! k ≫= prune_entry cfg w) as [st0|] eqn:E; cbn; [|by apply new_state_ok]. by eapply pruned_ok.
  - destruct (outcome_order w arrival sig) as [o|x] eqn:Eo.
    2: { unfold record_binding_success. rewrite Hen, Eo. cbn. apply Hb. }
    rewrite (success_lookup cfg Hen _ _ _ _ _ _ k o Eo). cbv zeta. case_bool_decide; [|by apply pruned_ok].
    intros (st0 & H0 & ->)%fmap_Some. apply pruned_ok in H0 as [Hk H0]; [|done]. split; [done|].
    apply outcome_order_ok in Eo as [Ho _]. by apply credit_entry_ok.
Qed.

(** *** What is not saved did not matter *)

(** An operation that schedules no save leaves every decision of the circuit. *)
Definition quiet (b b' : breaker) : Prop :=
  stopping b' = stopping b /\ persisted_generation b' = persisted_generation b /\ last_persistence_error b' = last_persistence_error b /\ generation b <= generation b' /\
  (has_path cfg = true -> stopping b = false ->
     (generation b' = generation b /\ essence <$> states b' = essence <$> states b) \/ generation b' = generation b + 1).

Lemma schedule_if_quiet changed b b' :
  stopping b' = stopping b -> persisted_generation b' = persisted_generation b -> last_persistence_error b' = last_persistence_error b ->
  generation b' = generation b -> (changed = false -> essence <$> states b' = essence <$> states b) -> quiet b (schedule_if cfg changed b').
Proof.
  intros H1 H2 H3 H4 H5. unfold quiet, schedule_if, schedule_save. destruct changed.
  - destruct (negb (has_path cfg) || stopping b') eqn:E; (split; [done|split; [done|split; [done|]]]).
    + split; [lia|]. intros Hp Hs. rewrite Hp, H1, Hs in E. discriminate.
    + cbn. split; [lia|]. intros _ _. right. by rewrite H4.
  - split; [done|split; [done|split; [done|]]]. split; [lia|]. intros _ _. left. by rewrite H5.
Qed.

Lemma strike_entry_quiet d e o : strike_changes (strike_entry cfg d e (default new_state o)).2 = false ->
  essence <$> Some (strike_entry cfg d e (default new_state o)).1 = essence <$> o.
Proof.
  destruct o as [st|].
  - change (default new_state (Some st)) with st. unfold strike_entry. set (st1 := with_strike (o_window e) st).
    destruct (match recovery_order st1 with Some r => order_leb e r | None => false end); [intros _; reflexivity|].
    destruct (is_unarmed st1).
    + destruct (_ || _); [intros _; reflexivity|]. cbv zeta. by destruct (_ <=? _).
    + case_bool_decide; [done|]. intros _. reflexivity.
  - change (default new_state None) with new_state. unfold strike_entry. cbn. rewrite lookup_empty, bool_decide_eq_false_2 by (by intros [? ?]). cbn.
    destruct (d && _) eqn:Ed.
    { apply andb_true_iff in Ed as [_ Ed]. apply bool_decide_eq_true in Ed. exfalso. revert Ed. unfold failure_windows, map_to_set. rewrite map_to_list_empty. set_solver. }
    by destruct (_ <=? _).
Qed.

Lemma credit_entry_quiet e st : is_cleared (credit_entry e st).2 = false -> (credit_entry e st).1 = st.
Proof. unfold credit_entry. destruct (is_unarmed st); [done|]. by case_bool_decide. Qed.

Lemma not_pruned w m : pruned cfg w m = false -> prune cfg w m = m.
Proof. unfold pruned. intros H%negb_false_iff. by apply bool_decide_eq_true in H. Qed.

Lemma apply_event_quiet e b : quiet b (apply_event cfg e b).
Proof.
  assert (quiet b b) as Hb by (split; [done|split; [done|split; [done|split; [lia|by left]]]]).
  destruct (enabled cfg) eqn:Hen; [|by rewrite apply_event_disabled].
  destruct e as [env ids w sig|env ids w sig|env ids w sig arrival d|env ids w sig arrival]; cbn [apply_event].
  - unfold admit_precommit. rewrite Hen. cbn [negb]. cbv zeta. destruct (bool_decide (filter _ _ = [])); cbn [snd]; apply schedule_if_quiet; try done.
    + intros [Hs Hd%not_pruned]%orb_false_iff. apply negb_false_iff, bool_decide_eq_true in Hs. rewrite Hs. cbn. by rewrite Hd.
    + intros Hd%not_pruned. cbn. by rewrite Hd.
  - unfold cancel_canary. rewrite Hen. cbn [negb]. cbv zeta. apply schedule_if_quiet; try done. intros Hs. apply negb_false_iff, bool_decide_eq_true in Hs. by rewrite Hs.
  - destruct (outcome_order w arrival sig) as [o|x] eqn:Eo.
    2: { apply outcome_order_raise in Eo as Hx. subst x. by rewrite record_mismatch_idle by (by left). }
    destruct (decide (subjects ids = [])) as [Hs|Hs]; [by rewrite record_mismatch_idle by (by right)|].
    unfold record_mismatch. rewrite Hen, Eo. rewrite (bool_decide_eq_false_2 (subjects ids = [])) by done. cbn [negb snd]. cbv zeta. apply schedule_if_quiet; try done.
    intros [Hd%not_pruned Hx]%orb_false_iff. cbn [states set_states count]. rewrite Hd in *. rewrite strike_all_spec in * by apply subjects_keys. cbn [fst snd] in *.
    apply map_eq. intros k. rewrite !lookup_fmap. destruct (decide (touched env ids k)) as [Ht|Ht].
    + unfold touched in Ht. apply list_elem_of_fmap in Ht as (s & -> & Hin). rewrite (key_loop_in _ _ _ _ _ (subjects_keys env ids) Hin).
      apply strike_entry_quiet. apply not_true_iff_false. intros Hc. apply not_true_iff_false in Hx. apply Hx. apply existsb_exists.
      eexists. split; [|exact Hc]. apply list_elem_of_In. rewrite <- list_fmap_compose. apply list_elem_of_fmap. exists s. done.
    + rewrite key_loop_other; [done|]. intros s Hin <-. apply Ht. by apply list_elem_of_fmap_2.
  - destruct (outcome_order w arrival sig) as [o|x] eqn:Eo.
    2: { unfold record_binding_success. by rewrite Hen, Eo. }
    unfold record_binding_success. rewrite Hen, Eo. cbn [negb snd]. cbv zeta. apply schedule_if_quiet; try done.
    intros [Hx Hd%not_pruned]%orb_false_iff. cbn [states set_states count]. rewrite Hd in *. rewrite credit_all_spec in * by apply subjects_keys. cbn [fst snd] in *.
    apply negb_false_iff, bool_decide_eq_true, fmap_nil_inv in Hx.
    apply map_eq. intros k. rewrite !lookup_fmap. destruct (decide (touched env ids k)) as [Ht|Ht].
    + unfold touched in Ht. apply list_elem_of_fmap in Ht as (s & -> & Hin). rewrite (key_loop_in _ _ _ _ _ (subjects_keys env ids) Hin).
      destruct (states b !! key_of env s) as [st|] eqn:E; [|done]. cbn. rewrite credit_entry_quiet; [done|]. apply not_true_iff_false. intros Hc.
      assert ((s.1, (credit_entry o st).2) ∈ ([] : list (string * credit))) as Hn; [|by apply not_elem_of_nil in Hn].
      rewrite <- Hx. apply list_elem_of_filter. split; [done|]. apply list_elem_of_omap. exists s. by rewrite E.
    + rewrite key_loop_other; [done|]. intros s Hin <-. apply Ht. by apply list_elem_of_fmap_2.
Qed.
End events.

(** ** The file gives the state back *)

Lemma foldl_insert_map {X V} (kf : X -> string) (vf : X -> V) (l : list X) (m : gmap string V) : NoDup (kf <$> l) ->
  foldl (fun m x => <[kf x := vf x]> m) m l = list_to_map ((fun x => (kf x, vf x)) <$> l) ∪ m.
Proof.
  revert m. induction l as [|x l IH]; intros m Hnd; cbn [foldl fmap list_fmap list_to_map foldr]; [by rewrite (left_id_L ∅ (∪))|].
  rewrite fmap_cons in Hnd. apply NoDup_cons in Hnd as [Hx Hnd]. rewrite IH by done. cbn. apply map_eq. intros k.
  assert (list_to_map (M := gmap string V) ((fun x => (kf x, vf x)) <$> l) !! kf x = None) as Hn.
  { apply not_elem_of_list_to_map_1. rewrite <- list_fmap_compose. exact Hx. }
  rewrite !lookup_union. destruct (decide (k = kf x)) as [->|].
  - rewrite !lookup_insert_eq, Hn. by destruct (m !! kf x).
  - by rewrite !lookup_insert_ne.
Qed.

Lemma fold_restore {K V X} `{Countable K} (P : pyval -> result X) (J : X -> pyval) (kf : X -> K) (vf : X -> V) l (m : gmap K V) :
  (forall x, x ∈ l -> P (J x) = Ok x) ->
  fold_result (fun m raw => x ← P raw; Ok (<[kf x := vf x]> m)) m (J <$> l) = Ok (foldl (fun m x => <[kf x := vf x]> m) m l).
Proof.
  revert m. induction l as [|x l IH]; intros m Hl; cbn [fmap list_fmap fold_result foldl]; [done|].
  rewrite Hl by constructor. cbn. apply IH. intros y Hy. apply Hl. by constructor.
Qed.

Section roundtrip.
Context (cfg : config) (Hcfg : config_ok cfg) (dedupe : bool) (repr_of : pyval -> string).

Lemma order_reads_back e : signature_ok (o_signature e) -> order_of_json repr_of (order_json e) = Ok e.
Proof. destruct e as [w a s]. intros [Hs Hne]. cbn in Hs, Hne. cbn. rewrite Hs. by destruct (String.eqb_spec s ""). Qed.

Lemma failures_read_back f : map_Forall (fun s e => o_signature e = s /\ signature_ok s) f ->
  failures_of_json repr_of (VList (order_json <$> isort order_leb (map_to_list f).*2)) = Ok f.
Proof.
  intros Hf. cbn [failures_of_json]. set (l := isort order_leb (map_to_list f).*2).
  assert (forall e, e ∈ l -> f !! o_signature e = Some e /\ signature_ok (o_signature e)) as Hl.
  { intros e. unfold l. rewrite elem_of_isort. intros ([s e'] & -> & Hin%elem_of_map_to_list)%list_elem_of_fmap. cbn. by destruct (Hf s e' Hin) as [-> ?]. }
  rewrite (fold_restore (order_of_json repr_of) order_json o_signature (fun e => e)).
  2: { intros e He. apply order_reads_back. by apply Hl. }
  f_equal. assert (o_signature <$> (map_to_list f).*2 = (map_to_list f).*1) as Hk.
  { rewrite <- list_fmap_compose. apply list_fmap_ext. intros i [s e] Hi. cbn. apply (Hf s e). apply elem_of_map_to_list. by eapply list_elem_of_lookup_2. }
  assert (NoDup (o_signature <$> l)) as Hnd.
  { unfold l. rewrite isort_perm, Hk. apply NoDup_fst_map_to_list. }
  rewrite foldl_insert_map by done. rewrite (right_id_L ∅ (∪)). transitivity (list_to_map (M := gmap string order) (map_to_list f)); [|apply list_to_map_to_list].
  apply list_to_map_proper; [by rewrite <- list_fmap_compose|]. unfold l. rewrite isort_perm. rewrite <- list_fmap_compose.
  apply reflexive_eq. etrans; [|apply list_fmap_id]. apply list_fmap_ext. intros i [s e] Hi. cbn. f_equal. apply (Hf s e). apply elem_of_map_to_list. by eapply list_elem_of_lookup_2.
Qed.

Lemma entry_reads_back k st : key_ok k -> entry_ok cfg dedupe st -> restore_entry cfg repr_of (entry_json (k, st)) = Ok (k, st).
Proof.
  destruct k as [[env sc] idn], st as [f lvl until psig pw rec last n]. intros (Henv & Hne & Hsc & Hid & Hv & Hine) H. cbn in Henv, Hne, Hsc, Hid, Hv, Hine.
  pose proof (eo_failures _ _ _ H) as Hf. cbn in Hf. pose proof (eo_level _ _ _ H) as Hl. pose proof (eo_count _ _ _ H) as Hn. pose proof (eo_below _ _ _ H) as Hb.
  unfold is_unarmed in Hb. cbn [cooldown_level mismatch_count failure_events] in Hl, Hn, Hb.
  unfold entry_json. cbn [fst snd failure_events cooldown_level cooldown_until probe_signature probe_window recovery_order last_window mismatch_count].
  set (fl := order_json <$> _). cbn. rewrite Henv, Hsc, Hid. destruct (String.eqb_spec env ""); [done|]. destruct (String.eqb_spec idn ""); [done|]. cbn.
  rewrite bool_decide_eq_true_2 by done. cbn. fold (failures_of_json repr_of (VList fl)). unfold fl at 1.
  assert (failures_of_json repr_of (VList fl) = Ok f) as Ef by by apply failures_read_back.
  change (fold_result _ ∅ fl) with (failures_of_json repr_of (VList fl)). rewrite Ef. cbn.
  assert (get_some (order_of_json repr_of) [("recovery_order"%string, opt_order rec)] "recovery_order" = Ok rec) as Er.
  { destruct rec as [e|]; [|done]. pose proof (order_reads_back e (eo_recovery _ _ _ H e eq_refl)) as E. cbn in E |- *. by rewrite E. }
  assert (forall d, dict_get "recovery_order" d = opt_order rec -> get_some (order_of_json repr_of) d "recovery_order" = Ok rec) as Er'.
  { intros d Hd. unfold get_some in Er |- *. rewrite Hd. exact Er. }
  rewrite Er' by done. cbn. assert (n <? 0 = false) as -> by (apply Z.ltb_ge; lia).
  assert ((-1 <=? lvl) && (lvl <? Z.of_nat (length (cooldown_windows cfg))) = true) as E1 by (apply andb_true_iff; split; [apply Z.leb_le|apply Z.ltb_lt]; lia).
  assert ((lvl <? 0) && (failure_threshold cfg <=? Z.of_nat (size f)) = false) as E2.
  { destruct (lvl <? 0); [|done]. cbn. apply Z.leb_gt. by apply Hb. }
  destruct psig as [ps|], pw as [w|]; cbn; by rewrite E1, E2.
Qed.

Lemma states_read_back m : states_ok cfg dedupe m -> restore_entries cfg repr_of (VList (entry_json <$> isort key_leb (map_to_list m))) = Ok m.
Proof.
  intros Hm. cbn [restore_entries]. rewrite (fold_restore (restore_entry cfg repr_of) entry_json fst snd).
  2: { intros [k st]. rewrite elem_of_isort, elem_of_map_to_list. intros Hk. destruct (Hm k st Hk). by apply entry_reads_back. }
  f_equal. generalize (isort_perm key_leb (map_to_list m)). generalize (isort key_leb (map_to_list m)). intros l Hl.
  transitivity (list_to_map (M := gmap key circuit_state) l).
  2: { rewrite (list_to_map_proper l (map_to_list m)); [apply list_to_map_to_list| |done]. rewrite Hl. apply NoDup_fst_map_to_list. }
  assert (NoDup l.*1) as Hnd by (rewrite Hl; apply NoDup_fst_map_to_list). clear Hl Hm.
  enough (forall m0 : gmap key circuit_state, foldl (fun m x => <[x.1 := x.2]> m) m0 l = list_to_map l ∪ m0) as H by (rewrite H; apply (right_id_L ∅ (∪))).
  induction l as [|[k st] l IH]; intros m0; cbn; [by rewrite (left_id_L ∅ (∪))|]. cbn in Hnd. apply NoDup_cons in Hnd as [Hk Hnd]. rewrite IH by done.
  apply not_elem_of_list_to_map_1 in Hk. apply map_eq. intros k'. rewrite !lookup_union. destruct (decide (k' = k)) as [->|].
  - rewrite !lookup_insert_eq, (Hk : (list_to_map l : gmap key circuit_state) !! k = None). by destruct (m0 !! k).
  - by rewrite !lookup_insert_ne.
Qed.

(** A file this circuit wrote is loaded back whole. *)
Lemma load_snapshot now b : has_path cfg = true -> states_ok cfg dedupe (states b) -> states (load cfg repr_of (Some (Ok (snapshot cfg now b)))) = states b.
Proof.
  intros Hp Hb. unfold load, snapshot. rewrite Hp. cbn [negb dict_get dict_get_or existsb String.eqb Ascii.eqb Bool.eqb fst snd orb is_schema to_str andb].
  rewrite (co_namespace cfg Hcfg), String.eqb_refl. cbn [negb Z.eqb Pos.eqb SCHEMA_VERSION]. rewrite states_read_back by done.
  destruct (restore_counters _ _) as [[[]|x] c']; done.
Qed.
End roundtrip.

(** ** Processes *)

Section runs.
Context (cfg : config) (Hcfg : config_ok cfg) (repr_of : pyval -> string) (dedupe : bool) (Hpath : has_path cfg = true).

(** A file that loads to these circuits. *)
Definition loads_as (f : option (result pyval)) (m : gmap key circuit_state) : Prop := essence <$> states (load cfg repr_of f) = essence <$> m.
Definition file_ok (f : option (result pyval)) : Prop := f = None \/ exists now b, f = Some (Ok (snapshot cfg now b)) /\ states_ok cfg dedupe (states b).

(** The process, its file and the payload being written. *)
Record process_ok (p : process) : Prop := {
  po_states : states_ok cfg dedupe (states (proc p));
  po_file : file_ok (file p);
  po_generation : persisted_generation (proc p) <= generation (proc p);
  po_saved : stopping (proc p) = false -> last_persistence_error (proc p) = None -> persisted_generation (proc p) = generation (proc p) ->
    loads_as (file p) (states (proc p));
  po_flight : forall target v, in_flight p = Some (target, v) -> persisted_generation (proc p) < target <= generation (proc p) /\ file_ok (Some (Ok v)) /\
    (stopping (proc p) = false -> target = generation (proc p) -> loads_as (Some (Ok v)) (states (proc p)));
}.

Lemma load_file f : file_ok f -> states_ok cfg dedupe (states (load cfg repr_of f)).
Proof.
  intros [->|(now & b & -> & Hb)]; [|by rewrite (load_snapshot cfg Hcfg dedupe)]. unfold load. rewrite Hpath. apply map_Forall_empty.
Qed.

Lemma load_fields f : let b := load cfg repr_of f in generation b = 0 /\ persisted_generation b = 0 /\ stopping b = false /\ last_persistence_error b = None.
Proof.
  unfold load. rewrite Hpath. cbn [negb]. destruct f as [[v|e]|]; [|done|done]. destruct v; try done. destruct (negb _); [done|]. destruct (negb _); [done|].
  destruct (restore_entries _ _ _); [|done]. by destruct (restore_counters _ _) as [[] ?].
Qed.

Lemma start_ok f : file_ok f -> process_ok (start cfg repr_of f).
Proof.
  intros Hf. destruct (load_fields f) as (Hg & Hp & Hs & He). split; cbn.
  - by apply load_file.
  - done.
  - lia.
  - done.
  - discriminate.
Qed.

Lemma process_step_ok p p' : process_ok p -> process_step cfg repr_of dedupe p p' -> process_ok p'.
Proof.
  intros Hp. destruct 1 as [e p He|now p x Hi Ht|p target v Hi|p target v e Hi|p|p].
  - destruct (apply_event_quiet cfg Hcfg e (proc p)) as (Hst & Hpe & Her & Hmono & Hq). pose proof (po_generation _ Hp). split; cbn.
    + apply apply_event_ok; [done|done|apply Hp].
    + apply Hp.
    + lia.
    + rewrite Hst, Her, Hpe. intros Hs Hn Hg. destruct (Hq Hpath Hs) as [[Hg' He']|Hg']; [|lia].
      unfold loads_as. rewrite He'. apply (po_saved _ Hp Hs Hn). congruence.
    + intros target v Hi. destruct (po_flight _ Hp _ _ Hi) as (Hr & Hv & Hl). rewrite Hpe, Hst. split; [lia|]. split; [done|]. intros Hs Ht.
      destruct (Hq Hpath Hs) as [[Hg He']|Hg]; [|lia]. unfold loads_as. rewrite He'. apply Hl; [done|congruence].
  - unfold writer_take in Ht. destruct (Z.ltb_spec (persisted_generation (proc p)) (generation (proc p))); [|discriminate]. injection Ht as <-.
    split; cbn; [apply Hp|apply Hp|apply Hp|apply Hp|]. intros target v [= <- <-]. pose proof (po_states _ Hp). split; [lia|]. split; [right; eauto|].
    intros _ _. unfold loads_as. by rewrite (load_snapshot cfg Hcfg dedupe).
  - destruct (po_flight _ Hp _ _ Hi) as (Hr & Hv & Hl). pose proof (po_generation _ Hp). split; cbn; [apply Hp|done|lia| |discriminate].
    intros Hs _ Hg. apply Hl; [done|lia].
  - destruct (po_flight _ Hp _ _ Hi) as (Hr & Hv & Hl). pose proof (po_generation _ Hp). split; cbn; [apply Hp|apply Hp|lia|discriminate|discriminate].
  - split; cbn; [apply Hp|apply Hp|apply Hp|discriminate|]. intros target v Hi. destruct (po_flight _ Hp _ _ Hi) as (Hr & Hv & Hl). split; [exact Hr|]. by split.
  - apply start_ok, Hp.
Qed.

Lemma process_reachable_ok p : rtc (process_step cfg repr_of dedupe) (start cfg repr_of None) p -> process_ok p.
Proof. apply rtc_invariant; [apply process_step_ok|]. apply start_ok. by left. Qed.
End runs.

(** ** Canaries *)

Section canaries.
Context (cfg : config) (Hen : enabled cfg = true).

(** The stripped signature of an outcome that is about the entry [k]. *)
Definition outcome_for (k : key) (e : circuit_event) : option string :=
  match e with
  | EMismatch env ids _ sig _ _ | ESuccess env ids _ sig _ =>
      if bool_decide (touched env ids k) && negb (String.eqb (strip sig) "") then Some (strip sig) else None
  | _ => None
  end.

Definition event_window (e : circuit_event) : Z :=
  match e with EAdmit _ _ w _ | ECancel _ _ w _ | EMismatch _ _ w _ _ _ | ESuccess _ _ w _ _ => w end.

(** The fields of an armed entry that only its canary may change. *)
Definition same_cooldown (st st' : circuit_state) : Prop :=
  cooldown_level st' = cooldown_level st /\ cooldown_until st' = cooldown_until st /\ failure_events st' = failure_events st /\ recovery_order st' = recovery_order st.

(** An armed entry that is pruned is kept as it is, or its cooldown ended long ago. *)
Lemma prune_armed w st : is_unarmed st = false -> prune_entry cfg w st = Some st \/
  (prune_entry cfg w st = None /\ cooldown_until st <= w /\ last_window st < w - retention cfg).
Proof.
  intros Hu. unfold prune_entry. rewrite Hu. cbn. destruct (Z.ltb_spec (last_window st) (w - retention cfg)); cbn; [|by left].
  destruct (Z.leb_spec (cooldown_until st) w); [right|by left]. by split_and!.
Qed.

Lemma strike_armed d e st : is_unarmed st = false -> probe_signature st <> Some (o_signature e) ->
  (strike_entry cfg d e st).1 = with_strike (o_window e) st.
Proof.
  intros Hu Hp. unfold strike_entry. change (is_unarmed (with_strike (o_window e) st)) with (is_unarmed st). rewrite Hu.
  destruct (match recovery_order _ with Some r => order_leb e r | None => false end); [done|]. by rewrite bool_decide_eq_false_2.
Qed.

Lemma credit_armed e st : is_unarmed st = false -> probe_signature st <> Some (o_signature e) -> (credit_entry e st).1 = st.
Proof. intros Hu Hp. unfold credit_entry. rewrite Hu. by rewrite bool_decide_eq_false_2. Qed.

(** What an event leaves of an armed entry seen lately that it is not the canary of. *)
Lemma armed_kept e b k st : states b !! k = Some st -> is_unarmed st = false -> event_window e - retention cfg <= last_window st ->
  (forall s, outcome_for k e = Some s -> probe_signature st <> Some s) ->
  exists st', states (apply_event cfg e b) !! k = Some st' /\ same_cooldown st st'.
Proof.
  intros Hk Hu Hr Hout. assert (prune_entry cfg (event_window e) st = Some st) as Hp by (destruct (prune_armed (event_window e) st Hu) as [?|(_ & _ & ?)]; [done|lia]).
  destruct e as [env ids w sig|env ids w sig|env ids w sig arrival d|env ids w sig arrival]; cbn [apply_event event_window] in *.
  - destruct (admit_precommit cfg env ids w sig b) as [dd b'] eqn:E. cbn [snd]. rewrite (admit_lookup cfg Hen _ _ _ _ _ _ _ k E), Hk. cbn.
    rewrite Hp. case_bool_decide; [exists (reserve_probe w (strip sig) st)|exists st]; by split.
  - rewrite (cancel_lookup cfg Hen), Hk. cbn. case_bool_decide; [exists (drop_probe st)|exists st]; by split.
  - destruct (outcome_order w arrival sig) as [o|x] eqn:Eo.
    2: { apply outcome_order_raise in Eo as Hx. subst x. rewrite record_mismatch_idle by (by left). by exists st. }
    destruct (decide (subjects ids = [])) as [Hs|Hs]; [rewrite record_mismatch_idle by (by right); by exists st|].
    rewrite (mismatch_lookup cfg Hen _ _ _ _ _ _ _ k o Eo Hs), Hk. cbn. rewrite Hp. apply outcome_order_ok in Eo as ((_ & Hne) & _ & _ & Es).
    case_bool_decide as Ht; [|by exists st]. eexists. split; [done|]. rewrite strike_armed; [done|done|].
    rewrite Es in *. apply Hout. cbn. rewrite bool_decide_eq_true_2 by done. by destruct (String.eqb_spec (strip sig) "").
  - destruct (outcome_order w arrival sig) as [o|x] eqn:Eo.
    2: { unfold record_binding_success. rewrite Hen, Eo. by exists st. }
    rewrite (success_lookup cfg Hen _ _ _ _ _ _ k o Eo), Hk. cbn. rewrite Hp. apply outcome_order_ok in Eo as ((_ & Hne) & _ & _ & Es).
    case_bool_decide as Ht; [|by exists st]. exists st. split; [|done]. cbn. rewrite credit_armed; [done|done|].
    rewrite Es in *. apply Hout. cbn. rewrite bool_decide_eq_true_2 by done. by destruct (String.eqb_spec (strip sig) "").
Qed.

(** The canary of an armed entry, reserved for the window [w]. *)
Definition holds_canary (s : string) (w : Z) (st : circuit_state) : Prop :=
  is_unarmed st = false /\ cooldown_until st <= w /\ probe_signature st = Some s /\ probe_window st = Some w /\ w <= last_window st.

(** The event ends the canary of [k] that [s] holds. *)
Definition concludes (k : key) (s : string) (e : circuit_event) : Prop :=
  outcome_for k e = Some s \/ match e with ECancel env ids _ sig => touched env ids k /\ strip sig = s | _ => False end.

Lemma retention_pos : 0 <= retention cfg.
Proof. unfold retention. lia. Qed.

(** Another signature is refused at the gate of an entry whose canary is out. *)
Lemma canary_blocks env ids w sig b k st s : states b !! k = Some st -> holds_canary s w st -> touched env ids k -> strip sig <> s ->
  allowed (admit_precommit cfg env ids w sig b).1 = false.
Proof.
  intros Hk (Hu & Hc & Hps & Hpw & Hl) Ht Hs. unfold admit_precommit. rewrite Hen. cbn [negb]. cbv zeta. rewrite bool_decide_eq_false_2; [done|].
  unfold touched in Ht. apply list_elem_of_fmap in Ht as (x & -> & Hx). intros Hn.
  apply (not_elem_of_nil (x, GPending)). rewrite <- Hn. apply list_elem_of_filter. split; [done|]. apply list_elem_of_fmap. exists x. split; [|done]. f_equal.
  rewrite prune_lookup, Hk. cbn. destruct (prune_armed w st Hu) as [-> | (_ & _ & ?)]; [|pose proof retention_pos; lia].
  unfold gate_of. rewrite Hu, bool_decide_eq_true_2 by done. rewrite bool_decide_eq_false_2 by congruence. destruct (Z.ltb_spec w (cooldown_until st)); [lia|done].
Qed.

Lemma holds_canary_step e b k st s w : states b !! k = Some st -> holds_canary s w st -> event_window e = w -> ~ concludes k s e ->
  exists st', states (apply_event cfg e b) !! k = Some st' /\ holds_canary s w st'.
Proof.
  intros Hk Hh Hw Hc. pose proof Hh as (Hu & Hcd & Hps & Hpw & Hl). pose proof retention_pos.
  assert (prune_entry cfg w st = Some st) as Hp by (destruct (prune_armed w st Hu) as [?|(_ & _ & ?)]; [done|lia]).
  destruct e as [env ids w' sig|env ids w' sig|env ids w' sig arrival d|env ids w' sig arrival]; cbn [apply_event event_window] in *; subst w'.
  - destruct (admit_precommit cfg env ids w sig b) as [dd b'] eqn:E. cbn [snd]. rewrite (admit_lookup cfg Hen _ _ _ _ _ _ _ k E), Hk. cbn. rewrite Hp.
    case_bool_decide as H0; [|by exists st]. destruct H0 as (Ha & Ht & _). exists (reserve_probe w (strip sig) st). split; [done|].
    destruct (decide (strip sig = s)) as [->|Hne]; [split_and!; cbn; (done || lia)|].
    pose proof (canary_blocks env ids w sig b k st s Hk Hh Ht Hne) as Hb. rewrite E in Hb. cbn in Hb. congruence.
  - rewrite (cancel_lookup cfg Hen), Hk. cbn. case_bool_decide as H0; [|by exists st]. destruct H0 as [Ht Hp0]. destruct Hc. right. split; [done|].
    unfold holds_probe in Hp0. apply andb_true_iff in Hp0 as [Hp0%bool_decide_eq_true _]. congruence.
  - destruct (outcome_order w arrival sig) as [o|x] eqn:Eo.
    2: { apply outcome_order_raise in Eo as Hx. subst x. rewrite record_mismatch_idle by (by left). by exists st. }
    destruct (decide (subjects ids = [])) as [Hs|Hs]; [rewrite record_mismatch_idle by (by right); by exists st|].
    rewrite (mismatch_lookup cfg Hen _ _ _ _ _ _ _ k o Eo Hs), Hk. cbn. rewrite Hp. apply outcome_order_ok in Eo as ((_ & Hne) & Ew & _ & Es).
    case_bool_decide as Ht; [|by exists st]. eexists. split; [done|]. cbn. rewrite strike_armed; [|done|].
    + split_and!; cbn; (done || lia).
    + intros E. apply Hc. left. cbn. rewrite bool_decide_eq_true_2, <- Es by done. destruct (String.eqb_spec (o_signature o) ""); [done|]. cbn. congruence.
  - destruct (outcome_order w arrival sig) as [o|x] eqn:Eo.
    2: { unfold record_binding_success. rewrite Hen, Eo. by exists st. }
    rewrite (success_lookup cfg Hen _ _ _ _ _ _ k o Eo), Hk. cbn. rewrite Hp. apply outcome_order_ok in Eo as ((_ & Hne) & _ & _ & Es).
    case_bool_decide as Ht; [|by exists st]. exists st. split; [|done]. cbn. rewrite credit_armed; [done|done|].
    intros E. apply Hc. left. cbn. rewrite bool_decide_eq_true_2, <- Es by done. destruct (String.eqb_spec (o_signature o) ""); [done|]. cbn. congruence.
Qed.

(** A sequence of calls. *)
Definition run_events (es : list circuit_event) (b : breaker) : breaker := foldl (fun b e => apply_event cfg e b) b es.

Lemma holds_canary_run es b k st s w : states b !! k = Some st -> holds_canary s w st -> Forall (fun e => event_window e = w /\ ~ concludes k s e) es ->
  exists st', states (run_events es b) !! k = Some st' /\ holds_canary s w st'.
Proof.
  revert b st. induction es as [|e es IH]; intros b st Hk Hh Hes; [by exists st|]. apply Forall_cons in Hes as [[Hw Hc] Hes].
  destruct (holds_canary_step e b k st s w Hk Hh Hw Hc) as (st1 & Hk1 & Hh1). exact (IH _ _ Hk1 Hh1 Hes).
Qed.

(** An armed entry whose precommit is admitted holds its canary. *)
Lemma admitted_holds env ids w sig b k st : allowed (admit_precommit cfg env ids w sig b).1 = true -> touched env ids k ->
  states (admit_precommit cfg env ids w sig b).2 !! k = Some st -> is_unarmed st = false -> holds_canary (strip sig) w st.
Proof.
  intros Ha Ht Hk Hu. destruct (admit_precommit cfg env ids w sig b) as [d b'] eqn:E. cbn [fst snd] in *.
  pose proof (admit_lookup cfg Hen _ _ _ _ _ _ _ k E) as Hl. cbv zeta in Hl. rewrite Hk in Hl.
  destruct (states b !! k ≫= prune_entry cfg w) as [p|] eqn:Ep; [|revert Hl; by case_bool_decide].
  assert (gate_of w (strip sig) (Some p) = GCanary) as Hg.
  { unfold admit_precommit in E. rewrite Hen in E. cbn [negb] in E. cbv zeta in E. destruct (bool_decide (filter _ _ = [])) eqn:Eb in E; [|injection E as <- _; discriminate].
    clear E. apply bool_decide_eq_true in Eb. unfold touched in Ht. apply list_elem_of_fmap in Ht as (x & -> & Hx).
    assert (gate_block w (gate_of w (strip sig) (Some p)) = None) as Hb.
    { destruct (gate_block w (gate_of w (strip sig) (Some p))) as [z|] eqn:Ez; [|done]. exfalso. apply (not_elem_of_nil (x, gate_of w (strip sig) (Some p))).
      rewrite <- Eb. apply list_elem_of_filter. split; [cbn [snd]; by rewrite Ez|]. apply list_elem_of_fmap. exists x. by rewrite prune_lookup, Ep. }
    assert (is_unarmed p = false) as Hup. { revert Hl. case_bool_decide; cbn; intros [= ->]; exact Hu. }
    revert Hb. unfold gate_of. rewrite Hup. destruct (w <? cooldown_until p); [discriminate|]. by repeat case_bool_decide. }
  rewrite bool_decide_eq_true_2 in Hl by done. injection Hl as ->. unfold gate_of in Hg. change (is_unarmed (reserve_probe w (strip sig) p)) with (is_unarmed p) in Hu. rewrite Hu in Hg.
  destruct (Z.ltb_spec w (cooldown_until p)); [discriminate|]. split_and!; cbn; (done || lia).
Qed.
End canaries.

(** ** The rolling window of strikes *)

Section rolling.
Context (cfg : config) (Hcfg : config_ok cfg) (Hen : enabled cfg = true) (Hret : failure_window_windows cfg <= retention cfg).
Context (dedupe : bool).

(** The outcomes of a list that are recent at the window [w], and how many strikes they
    make: one each, or one a window. *)
Definition recent (w : Z) (es : list order) : list order := filter (fun e => w - failure_window_windows cfg < o_window e) es.
Definition strikes (w : Z) (es : list order) : Z :=
  if dedupe then Z.of_nat (size (list_to_set (o_window <$> recent w es) : gset Z)) else Z.of_nat (length (recent w es)).

(** The strikes an entry holds are the recent ones of the list. *)
Record tracks (w : Z) (es : list order) (f : gmap string order) : Prop := {
  tr_from : forall s e, f !! s = Some e -> e ∈ recent w es /\ o_signature e = s;
  tr_all : forall e, e ∈ recent w es -> if dedupe then o_window e ∈ failure_windows f else f !! o_signature e = Some e;
}.

Lemma recent_elem w es e : e ∈ recent w es <-> e ∈ es /\ w - failure_window_windows cfg < o_window e.
Proof. unfold recent. rewrite list_elem_of_filter. tauto. Qed.

Lemma tracks_trim w w' es f : tracks w es f -> w <= w' -> tracks w' es (filter (fun kv => w' - failure_window_windows cfg + 1 <= o_window kv.2) f).
Proof.
  intros [Hfrom Hall] Hw. split.
  - intros s e [Hs Hc]%map_lookup_filter_Some. cbn in Hc. apply Hfrom in Hs as [He <-]. apply recent_elem in He as [He _]. split; [|done]. apply recent_elem. split; [done|lia].
  - intros e [He Hc]%recent_elem. assert (e ∈ recent w es) as Hr by (apply recent_elem; split; [done|lia]). specialize (Hall e Hr). destruct dedupe.
    + apply failure_windows_elem in Hall as (s & x & Hx & E). apply failure_windows_elem. exists s, x. split; [|done]. apply map_lookup_filter_Some. split; [done|]. cbn. lia.
    + apply map_lookup_filter_Some. split; [done|]. cbn. lia.
Qed.

Lemma tracks_add w es f e : tracks w es f -> o_window e = w -> o_signature e ∉ o_signature <$> es -> tracks w (es ++ [e]) (<[o_signature e := e]> f).
Proof.
  intros [Hfrom Hall] Hw Hs. pose proof (co_windows cfg Hcfg). split.
  - intros s x [[<- <-]|[Hne Hx]]%lookup_insert_Some.
    + split; [|done]. apply recent_elem. split; [apply elem_of_app; right; constructor|lia].
    + apply Hfrom in Hx as [[Hx Hc]%recent_elem E]. split; [|done]. apply recent_elem. split; [apply elem_of_app; by left|done].
  - intros x [[Hx|Hx]%elem_of_app Hc]%recent_elem.
    + assert (x ∈ recent w es) as Hr by (by apply recent_elem). specialize (Hall x Hr).
      assert (o_signature e <> o_signature x) as Hne by (intros E; apply Hs; rewrite E; by apply list_elem_of_fmap_2). destruct dedupe.
      * apply failure_windows_elem in Hall as (s & y & Hy & E). apply failure_windows_elem. exists s, y. split; [|done]. rewrite lookup_insert_ne; [done|].
        intros <-. apply Hfrom in Hy as [[Hy _]%recent_elem E']. apply Hs. rewrite <- E'. by apply list_elem_of_fmap_2.
      * by rewrite lookup_insert_ne.
    + apply list_elem_of_singleton in Hx as ->. destruct dedupe; [|apply lookup_insert_eq]. apply failure_windows_elem. exists (o_signature e), e. split; [apply lookup_insert_eq|done].
Qed.

Lemma tracks_duplicate w es f e : tracks w es f -> dedupe = true -> o_window e ∈ failure_windows f -> tracks w (es ++ [e]) f.
Proof.
  intros [Hfrom Hall] Hd Hw. split.
  - intros s x Hx. apply Hfrom in Hx as [[Hx Hc]%recent_elem E]. split; [|done]. apply recent_elem. split; [apply elem_of_app; by left|done].
  - intros x [[Hx|Hx]%elem_of_app Hc]%recent_elem; [apply Hall; by apply recent_elem|]. apply list_elem_of_singleton in Hx as ->. by rewrite Hd.
Qed.

Lemma tracks_count w es f : tracks w es f -> NoDup (o_signature <$> es) -> failure_count dedupe f = strikes w es.
Proof.
  intros [Hfrom Hall] Hnd. unfold failure_count, strikes. destruct dedupe; f_equal.
  - f_equal. apply set_eq. intros x. rewrite failure_windows_elem, elem_of_list_to_set, list_elem_of_fmap. split.
    + intros (s & e & He & <-). exists e. split; [done|]. by apply Hfrom in He as [He _].
    + intros (e & -> & He). specialize (Hall e He). by apply failure_windows_elem in Hall.
  - assert (NoDup (o_signature <$> recent w es)) as Hr by (eapply sublist_NoDup; [exact Hnd|apply fmap_sublist_filter]).
    assert (f = list_to_map ((fun e => (o_signature e, e)) <$> recent w es)) as ->.
    { apply map_eq. intros s. apply option_eq. intros e. rewrite <- elem_of_list_to_map; [|by rewrite <- list_fmap_compose]. rewrite list_elem_of_fmap. split.
      - intros [He <-]%Hfrom. by exists e.
      - intros (x & [= -> ->] & Hx). by apply Hall. }
    rewrite map_size_list_to_map; [by rewrite length_fmap|by rewrite <- list_fmap_compose].
Qed.

(** *** The entry of one subject under a list of mismatches *)

Definition mismatch_run (env : string) (ids : list (string * string)) (es : list order) (b : breaker) : breaker :=
  foldl (fun b e => (record_mismatch cfg env ids (o_window e) (o_signature e) (o_arrival e) dedupe b).2) b es.

(** An entry without recovery that is still below the threshold. *)
Definition counting (w : Z) (es : list order) (o : option circuit_state) : Prop :=
  match o with
  | None => es = []
  | Some st => is_unarmed st = true /\ recovery_order st = None /\ last_window st = w /\ tracks w es (failure_events st) /\ Forall (fun e => o_window e <= w) es /\
      failure_count dedupe (failure_events st) < failure_threshold cfg
  end.

(** Pruning at a later window leaves the recent strikes. *)
Lemma counting_pruned w w' es o : counting w es o -> 0 <= w' -> w <= w' ->
  let st := default new_state (o ≫= prune_entry cfg w') in
  is_unarmed st = true /\ recovery_order st = None /\ last_window st <= w' /\ tracks w' es (failure_events st) /\ failure_count dedupe (failure_events st) < failure_threshold cfg.
Proof.
  assert (forall f g : gmap string order, g ⊆ f -> failure_count dedupe g <= failure_count dedupe f) as Hmono.
  { intros f g Hs. unfold failure_count. destruct dedupe; [|apply map_subseteq_size in Hs; lia]. apply Nat2Z.inj_le, subseteq_size. intros x.
    rewrite !failure_windows_elem. intros (s & e & He & <-). exists s, e. split; [by eapply lookup_weaken|done]. }
  assert (failure_count dedupe ∅ < failure_threshold cfg) as H0.
  { unfold failure_count. pose proof (co_threshold cfg Hcfg). destruct dedupe; [|by rewrite map_size_empty]. unfold failure_windows, map_to_set. rewrite map_to_list_empty. done. }
  intros Hc Hw0 Hw. cbv zeta. destruct o as [st|]; cbn in Hc |- *.
  2: { subst es. split_and!; try done. split; [intros s e; by rewrite lookup_empty|intros e [He _]%recent_elem; by apply not_elem_of_nil in He]. }
  destruct Hc as (Hu & Hr & Hl & Ht & Hes & Hb). unfold prune_entry. rewrite Hu. cbn [negb]. cbv zeta. assert (Z.max w' (last_window st) = w') as -> by lia.
  pose proof (tracks_trim w w' es (failure_events st) Ht Hw) as Ht'. set (g := filter _ (failure_events st)) in Ht'.
  assert (g ⊆ failure_events st) as Hsub by apply map_filter_subseteq. change (failure_events (trim cfg w' st)) with g.
  assert (g = ∅ -> let st := new_state in is_unarmed st = true /\ recovery_order st = None /\ last_window st <= w' /\ tracks w' es (failure_events st) /\ failure_count dedupe (failure_events st) < failure_threshold cfg) as Hempty.
  { intros E. rewrite E in Ht'. cbn. by split_and!. }
  rewrite (bool_decide_eq_true_2 (recovery_order st = None)) by done. rewrite andb_true_r. cbn [andb orb]. case_bool_decide as Hg; [by apply Hempty|]. rewrite andb_true_r.
  destruct (Z.ltb_spec (last_window st) (w' - retention cfg)) as [Hlt|_].
  - apply Hempty. apply map_empty. intros s. apply eq_None_not_Some. intros [e He]. apply (tr_from _ _ _ Ht') in He as [[H1 H2]%recent_elem _].
    rewrite Forall_forall in Hes. specialize (Hes e H1). cbn in Hes. subst w. lia.
  - cbn. change (failure_events (trim cfg w' st)) with g. split_and!; [done|done|lia|done|]. eapply Z.le_lt_trans; [apply Hmono, Hsub|done].
Qed.

(** One more mismatch. *)
Lemma counting_step w es o e : counting w es o -> 0 <= o_window e -> w <= o_window e -> NoDup (o_signature <$> es ++ [e]) ->
  let st := (strike_entry cfg dedupe e (default new_state (o ≫= prune_entry cfg (o_window e)))).1 in
  if failure_threshold cfg <=? strikes (o_window e) (es ++ [e])
  then is_unarmed st = false /\ cooldown_until st = o_window e + default 0 (cooldown_windows cfg !! 0%nat)
  else counting (o_window e) (es ++ [e]) (Some st).
Proof.
  intros Hc Hw0 Hw Hnd. assert (Forall (fun x => o_window x <= o_window e) (es ++ [e])) as Hes.
  { apply Forall_app. split; [|by apply Forall_singleton]. destruct o as [st|]; cbn in Hc; [|subst es; constructor]. destruct Hc as (_ & _ & _ & _ & Hes & _).
    eapply Forall_impl; [exact Hes|]. cbn. intros x ?. lia. }
  pose proof (counting_pruned w (o_window e) es o Hc Hw0 Hw) as Hp. cbv zeta in *. set (st0 := default new_state _) in *. clearbody st0. clear Hc.
  destruct Hp as (Hu & Hr & Hl & Ht & Hb). rewrite fmap_app in Hnd. apply NoDup_app in Hnd as (Hnd & Hs & _).
  assert (o_signature e ∉ o_signature <$> es) as Hfresh by (intros Hin; apply (Hs _ Hin); constructor).
  assert (NoDup (o_signature <$> es ++ [e])) as Hnd' by (rewrite fmap_app; apply NoDup_app; split_and!; [done| |apply NoDup_singleton]; intros x Hx ->%list_elem_of_singleton; contradiction).
  unfold strike_entry. set (st1 := with_strike (o_window e) st0). change (recovery_order st1) with (recovery_order st0). rewrite Hr.
  change (is_unarmed st1) with (is_unarmed st0). rewrite Hu. change (failure_events st1) with (failure_events st0).
  assert (last_window st1 = o_window e) as Hl1 by (cbn; lia).
  assert (failure_events st0 !! o_signature e = None) as Hnone.
  { apply eq_None_not_Some. intros [x [[Hx _]%recent_elem Ex]%(tr_from _ _ _ Ht)]. apply Hfresh. rewrite <- Ex. by apply list_elem_of_fmap_2. }
  rewrite (bool_decide_eq_false_2 (is_Some _)) by (rewrite Hnone; by intros [? ?]). cbn [orb].
  destruct (dedupe && _) eqn:Ed.
  - apply andb_true_iff in Ed as [Hd Hin%bool_decide_eq_true]. pose proof (tracks_duplicate _ _ _ _ Ht Hd Hin) as Ht'.
    rewrite <- (tracks_count _ _ _ Ht' Hnd'). destruct (Z.leb_spec (failure_threshold cfg) (failure_count dedupe (failure_events st0))); [lia|]. cbn [fst]. by split_and!.
  - cbv zeta. rewrite Hl1. assert (Z.max (o_window e) (o_window e) = o_window e) as -> by lia.
    pose proof (tracks_add _ _ _ _ Ht eq_refl Hfresh) as Ht'. pose proof (tracks_trim _ (o_window e) _ _ Ht' ltac:(lia)) as Ht2.
    set (g := filter _ (<[o_signature e := e]> (failure_events st0))) in Ht2. change (failure_events (trim cfg (o_window e) (add_failure e st1))) with g.
    rewrite <- (tracks_count _ _ _ Ht2 Hnd'). destruct (Z.leb_spec (failure_threshold cfg) (failure_count dedupe g)); cbn [fst]; [done|]. cbn. split_and!; try done; lia.
Qed.

Lemma mismatch_run_app env ids es e b : mismatch_run env ids (es ++ [e]) b =
  (record_mismatch cfg env ids (o_window e) (o_signature e) (o_arrival e) dedupe (mismatch_run env ids es b)).2.
Proof. unfold mismatch_run. by rewrite foldl_app. Qed.

Lemma outcome_order_of e : signature_ok (o_signature e) -> outcome_order (o_window e) (o_arrival e) (o_signature e) = Ok e.
Proof. destruct e as [w a s]. intros [Hs Hne]. unfold outcome_order. cbn in *. rewrite Hs. by destruct (String.eqb_spec s ""). Qed.

Lemma mismatch_run_step env ids es e b k : touched env ids k -> signature_ok (o_signature e) ->
  states (mismatch_run env ids (es ++ [e]) b) !! k =
  Some (strike_entry cfg dedupe e (default new_state (states (mismatch_run env ids es b) !! k ≫= prune_entry cfg (o_window e)))).1.
Proof.
  intros Hk Hs. rewrite mismatch_run_app. rewrite (mismatch_lookup cfg Hen _ _ _ _ _ _ _ k e (outcome_order_of e Hs)).
  - cbv zeta. by rewrite bool_decide_eq_true_2.
  - intros E. unfold touched in Hk. rewrite E in Hk. by apply not_elem_of_nil in Hk.
Qed.

(** Below the threshold after each of them, the entry holds the recent strikes. *)
Lemma mismatch_run_counting env ids es b k : touched env ids k -> states b !! k = None -> Forall (fun e => signature_ok (o_signature e) /\ 0 <= o_window e) es ->
  NoDup (o_signature <$> es) -> StronglySorted Z.le (o_window <$> es) ->
  (forall es1 e es2, es = es1 ++ e :: es2 -> strikes (o_window e) (es1 ++ [e]) < failure_threshold cfg) ->
  counting (default 0 (last (o_window <$> es))) es (states (mismatch_run env ids es b) !! k).
Proof.
  intros Hk Hb. induction es as [|e es IH] using rev_ind; intros Hes Hnd Hsort Hlt; [cbn; by rewrite Hb|].
  apply Forall_app in Hes as [Hes He]. apply Forall_singleton in He as [Hsig Hw0]. rewrite mismatch_run_step by done.
  rewrite fmap_app. change (o_window <$> [e]) with [o_window e]. rewrite last_snoc. change (default 0 (Some (o_window e))) with (o_window e).
  pose proof Hsort as Hsort'. rewrite fmap_app in Hsort'. change (o_window <$> [e]) with [o_window e] in Hsort'. apply StronglySorted_app in Hsort' as (Hle & Hs1 & _).
  assert (NoDup (o_signature <$> es)) as Hnd1 by (rewrite fmap_app in Hnd; by apply NoDup_app in Hnd as (? & _ & _)).
  specialize (IH Hes Hnd1 Hs1). pose proof (Hlt es e [] eq_refl) as Hlast.
  assert (default 0 (last (o_window <$> es)) <= o_window e) as Hle'.
  { destruct (last (o_window <$> es)) as [x|] eqn:E; cbn; [|lia]. apply last_Some_elem_of in E. apply (Hle x (o_window e)); [done|constructor]. }
  pose proof (counting_step (default 0 (last (o_window <$> es))) es (states (mismatch_run env ids es b) !! k) e) as Hstep. cbv zeta in Hstep.
  destruct (Z.leb_spec (failure_threshold cfg) (strikes (o_window e) (es ++ [e]))); [lia|]. apply Hstep; try done.
  apply IH. intros es1 e1 es2 ->. apply (Hlt es1 e1 (es2 ++ [e])). by rewrite <- app_assoc.
Qed.
End rolling.

(** ** The order of two outcomes *)

Lemma string_ltb_leb a b : String.ltb a b = negb (String.leb b a).
Proof. unfold String.ltb, String.leb. rewrite (String.compare_antisym b a). by destruct (String.compare a b). Qed.

Lemma order_leb_trans a b c : order_leb a b = true -> order_leb b c = true -> order_leb a c = true.
Proof.
  unfold order_leb, order_ltb. rewrite !string_ltb_leb. intros H1%negb_true_iff H2%negb_true_iff. apply negb_true_iff.
  pose proof (string_leb_trans (o_signature a) (o_signature b) (o_signature c)) as Ht.
  destruct (String.leb (o_signature a) (o_signature b)), (String.leb (o_signature b) (o_signature c)), (String.leb (o_signature a) (o_signature c)); cbn in *; try (specialize (Ht eq_refl eq_refl)); try discriminate.
  all: repeat match goal with
    | H : (_ || _) = false |- _ => apply orb_false_iff in H as [? H]
    | |- (_ || _) = false => apply orb_false_iff; split
    end; rewrite ?andb_true_r, ?andb_false_r, ?orb_false_r, ?orb_true_r in *; lia.
Qed.

Section ordering.
Context (cfg : config) (Hen : enabled cfg = true).

Lemma success_at env ids b k e : signature_ok (o_signature e) -> touched env ids k ->
  states (apply_event cfg (ESuccess env ids (o_window e) (o_signature e) (o_arrival e)) b) !! k =
  (fun st => (credit_entry e st).1) <$> (states b !! k ≫= prune_entry cfg (o_window e)).
Proof. intros Hs Ht. cbn. rewrite (success_lookup cfg Hen _ _ _ _ _ _ k e) by (by apply outcome_order_of). cbv zeta. by rewrite bool_decide_eq_true_2. Qed.

Lemma mismatch_at d env ids b k e : signature_ok (o_signature e) -> touched env ids k ->
  states (apply_event cfg (EMismatch env ids (o_window e) (o_signature e) (o_arrival e) d) b) !! k =
  Some (strike_entry cfg d e (default new_state (states b !! k ≫= prune_entry cfg (o_window e)))).1.
Proof.
  intros Hs Ht. cbn. rewrite (mismatch_lookup cfg Hen _ _ _ _ _ _ _ k e); [|by apply outcome_order_of|].
  - cbv zeta. by rewrite bool_decide_eq_true_2.
  - intros E. unfold touched in Ht. rewrite E in Ht. by apply not_elem_of_nil in Ht.
Qed.

(** An entry whose canary [c] has succeeded. *)
Definition recovered (c : order) (st : circuit_state) : circuit_state :=
  CircuitState ∅ (-1) 0 None None (Some (match recovery_order st with Some r => if order_ltb r c then c else r | None => c end))
    (Z.max (last_window st) (o_window c)) (mismatch_count st).

Lemma recovered_after c o st : order_leb o c = true -> exists r, recovery_order (recovered c st) = Some r /\ order_leb o r = true.
Proof.
  intros Ho. cbn. destruct (recovery_order st) as [r|]; [|by exists c]. destruct (order_ltb r c) eqn:E; [by exists c|].
  exists r. split; [done|]. apply (order_leb_trans o c r); [done|]. unfold order_leb. by rewrite E.
Qed.

Lemma prune_recovered c w st : w <= o_window c -> prune_entry cfg w (recovered c st) = Some (recovered c st).
Proof.
  intros Hw. unfold prune_entry, trim. cbn. rewrite map_filter_empty. rewrite andb_false_r.
  destruct (Z.ltb_spec (Z.max (last_window st) (o_window c)) (w - retention cfg)); [|done]. pose proof (retention_pos cfg). lia.
Qed.

Lemma prune_recent w st : is_unarmed st = false -> w - retention cfg <= last_window st -> prune_entry cfg w st = Some st.
Proof. intros Hu Hl. destruct (prune_armed cfg w st Hu) as [?|(_ & _ & ?)]; [done|lia]. Qed.

Lemma credit_canary c st : is_unarmed st = false -> probe_signature st = Some (o_signature c) -> (credit_entry c st).1 = recovered c st.
Proof. intros Hu Hp. unfold credit_entry. by rewrite Hu, bool_decide_eq_true_2. Qed.
End ordering.

(** ** Theorems *)

(** C35: every process of a circuit keeps well-formed entries, whatever calls, writes,
    failed writes and crashes happened since its first start: each is under a stripped
    key of a valid scope, its level is an index of the cooldowns or -1, its strikes are
    filed under their own signatures, and an unarmed one is below the threshold.  A file
    it left is one that loads. *)
Theorem circuits_well_formed (cfg : config) (repr_of : pyval -> string) (dedupe : bool) (p : process) :
  config_ok cfg -> has_path cfg = true -> rtc (process_step cfg repr_of dedupe) (start cfg repr_of None) p ->
  states_ok cfg dedupe (states (proc p)) /\ states_ok cfg dedupe (states (load cfg repr_of (file p))).
Proof.
  intros Hc Hp Hr. pose proof (process_reachable_ok cfg Hc repr_of dedupe Hp p Hr) as H. split; [apply H|].
  apply load_file; [done|done|]. apply (po_file _ _ _ _ H).
Qed.

(** A restart changes no decision.  When the writer has caught up with a service
    still open and its last write succeeded, a process started on the file has the same
    circuits: the same strikes, levels, ends of cooldown, canaries and recoveries. *)
Theorem restart_keeps_circuits (cfg : config) (repr_of : pyval -> string) (dedupe : bool) (p : process) :
  config_ok cfg -> has_path cfg = true -> rtc (process_step cfg repr_of dedupe) (start cfg repr_of None) p ->
  stopping (proc p) = false -> last_persistence_error (proc p) = None -> persisted_generation (proc p) = generation (proc p) ->
  essence <$> states (proc (start cfg repr_of (file p))) = essence <$> states (proc p).
Proof. intros Hc Hp Hr Hs He Hg. by apply (po_saved _ _ _ _ (process_reachable_ok cfg Hc repr_of dedupe Hp p Hr)). Qed.

(** One canary a window.  Once an armed scope admitted a precommit in a window, it
    refuses every other signature in that window, whatever calls of that window come in
    between, until an outcome or the cancellation of that very precommit. *)
Theorem one_canary_a_window (cfg : config) (b : breaker) (k : key) (st : circuit_state) (w : Z) (env : string) (ids : list (string * string)) (sig : string)
    (es : list circuit_event) (env' : string) (ids' : list (string * string)) (sig' : string) :
  enabled cfg = true -> allowed (admit_precommit cfg env ids w sig b).1 = true -> touched env ids k ->
  states (admit_precommit cfg env ids w sig b).2 !! k = Some st -> is_unarmed st = false ->
  Forall (fun e => event_window e = w /\ ~ concludes k (strip sig) e) es -> touched env' ids' k -> strip sig' <> strip sig ->
  allowed (admit_precommit cfg env' ids' w sig' (run_events cfg es (admit_precommit cfg env ids w sig b).2)).1 = false.
Proof.
  intros Hen Ha Ht Hk Hu Hes Ht' Hne. pose proof (admitted_holds cfg Hen _ _ _ _ _ _ _ Ha Ht Hk Hu) as Hh.
  destruct (holds_canary_run cfg Hen es _ k st _ _ Hk Hh Hes) as (st' & Hk' & Hh'). by eapply canary_blocks.
Qed.

(** Only its canary moves an armed scope.  Of the calls made while the entry is
    recent, one that is not an outcome of the canary leaves level, end of cooldown,
    strikes and recovery; the canary's success closes the circuit; its mismatch starts a
    cooldown at least as high, ending after its window, unless it is older than a
    recovery. *)
Theorem only_canary_moves (cfg : config) (dedupe : bool) (e : circuit_event) (b : breaker) (k : key) (st : circuit_state) :
  config_ok cfg -> enabled cfg = true -> states_ok cfg dedupe (states b) -> states b !! k = Some st -> is_unarmed st = false ->
  event_window e - retention cfg <= last_window st ->
  exists st', states (apply_event cfg e b) !! k = Some st' /\
    (if bool_decide (outcome_for k e <> None /\ outcome_for k e = probe_signature st)
     then match e with
          | ESuccess _ _ _ _ _ => is_unarmed st' = true /\ failure_events st' = ∅
          | _ => same_cooldown st st' \/ (is_unarmed st' = false /\ cooldown_level st <= cooldown_level st' /\ event_window e < cooldown_until st')
          end
     else same_cooldown st st').
Proof.
  intros Hc Hen Hb Hk Hu Hr. case_bool_decide as Hcan.
  2: { apply armed_kept; try done. intros s Hs Hps. apply Hcan. by rewrite Hs, Hps. }
  pose proof (prune_recent cfg (event_window e) st Hu Hr) as Hp. destruct Hcan as [Hne Heq].
  destruct e as [?|?|env ids w sig arrival d|env ids w sig arrival]; cbn [outcome_for event_window] in *; try done.
  all: destruct (bool_decide (touched env ids k) && negb (String.eqb (strip sig) "")) eqn:Et; [|done].
  all: apply andb_true_iff in Et as [Ht%bool_decide_eq_true Hs%negb_true_iff]; assert (outcome_order w arrival sig = Ok (Order w arrival (strip sig))) as Eo by (unfold outcome_order; by rewrite Hs).
  - assert (subjects ids <> []) as Hsub by (intros E; unfold touched in Ht; rewrite E in Ht; by apply not_elem_of_nil in Ht).
    eexists. split. { cbn [apply_event]. rewrite (mismatch_lookup cfg Hen _ _ _ _ _ _ _ k _ Eo Hsub), Hk. cbn. rewrite Hp, bool_decide_eq_true_2 by done. reflexivity. }
    unfold strike_entry. change (default new_state (Some st)) with st. destruct (match recovery_order _ with Some r => order_leb _ r | None => false end); [by left|].
    change (is_unarmed (with_strike _ st)) with (is_unarmed st). rewrite Hu. change (probe_signature (with_strike _ st)) with (probe_signature st).
    rewrite bool_decide_eq_true_2 by done. right. destruct (Hb k st Hk) as [_ He]. pose proof (eo_level _ _ _ He) as Hl. unfold is_unarmed in Hu. apply Z.ltb_ge in Hu. cbn.
    set (lvl := Z.min _ _). assert (0 <= lvl < Z.of_nat (length (cooldown_windows cfg)) /\ cooldown_level st <= lvl) as [Hlvl ?] by lia.
    split; [unfold is_unarmed; cbn; apply Z.ltb_ge; lia|]. split; [done|]. destruct (lookup_lt_is_Some_2 (cooldown_windows cfg) (Z.to_nat lvl)) as [x Hx]; [lia|]. rewrite Hx. cbn.
    pose proof (co_positive cfg Hc) as Hpos. rewrite Forall_forall in Hpos. specialize (Hpos x ltac:(by eapply list_elem_of_lookup_2)). cbn in Hpos. lia.
  - eexists. split. { cbn [apply_event]. rewrite (success_lookup cfg Hen _ _ _ _ _ _ k _ Eo), Hk. cbn. rewrite Hp, bool_decide_eq_true_2 by done. reflexivity. }
    by rewrite (credit_canary (Order w arrival (strip sig)) st Hu) by done.
Qed.

(** A circuit arms exactly at the threshold.  Under mismatches of distinct receipts
    in the order of their windows, none of which made the recent strikes reach the
    threshold before, the entry of a new subject is armed by the next one if and only if
    the mismatches of the last [failure_window_windows] windows, counted per receipt or
    per window, reach it; the first cooldown then starts at that window. *)
Theorem arms_exactly (cfg : config) (dedupe : bool) (env : string) (ids : list (string * string)) (es : list order) (e : order) (b : breaker) (k : key) :
  config_ok cfg -> enabled cfg = true -> failure_window_windows cfg <= retention cfg -> touched env ids k -> states b !! k = None ->
  Forall (fun e => signature_ok (o_signature e) /\ 0 <= o_window e) (es ++ [e]) -> NoDup (o_signature <$> es ++ [e]) ->
  StronglySorted Z.le (o_window <$> es ++ [e]) ->
  (forall es1 x es2, es = es1 ++ x :: es2 -> strikes cfg dedupe (o_window x) (es1 ++ [x]) < failure_threshold cfg) ->
  exists st, states (mismatch_run cfg dedupe env ids (es ++ [e]) b) !! k = Some st /\
    (is_unarmed st = false <-> failure_threshold cfg <= strikes cfg dedupe (o_window e) (es ++ [e])) /\
    (is_unarmed st = false -> cooldown_until st = o_window e + default 0 (cooldown_windows cfg !! 0%nat)).
Proof.
  intros Hc Hen Hret Hk Hb Hes Hnd Hsort Hlt. apply Forall_app in Hes as [Hes He]. apply Forall_singleton in He as [Hsig Hw0].
  pose proof Hsort as Hsort'. rewrite fmap_app in Hsort'. change (o_window <$> [e]) with [o_window e] in Hsort'. apply StronglySorted_app in Hsort' as (Hle & Hs1 & _).
  assert (NoDup (o_signature <$> es)) as Hnd1 by (rewrite fmap_app in Hnd; by apply NoDup_app in Hnd as (? & _ & _)).
  pose proof (mismatch_run_counting cfg Hc Hen Hret dedupe env ids es b k Hk Hb Hes Hnd1 Hs1 Hlt) as Hcount.
  assert (default 0 (last (o_window <$> es)) <= o_window e) as Hle'.
  { destruct (last (o_window <$> es)) as [x|] eqn:E; cbn; [|lia]. apply last_Some_elem_of in E. apply (Hle x (o_window e)); [done|constructor]. }
  pose proof (counting_step cfg Hc Hret dedupe _ es _ e Hcount Hw0 Hle' Hnd) as Hstep. cbv zeta in Hstep.
  eexists. split; [by apply mismatch_run_step|]. set (st := (strike_entry _ _ _ _).1) in *. clearbody st.
  destruct (Z.leb_spec (failure_threshold cfg) (strikes cfg dedupe (o_window e) (es ++ [e]))) as [Hth|Hth].
  - destruct Hstep as [-> Hcd]. split; [by split|done].
  - destruct Hstep as (-> & _). split; [split; [discriminate|lia]|discriminate].
Qed.

(** C25: the order in which two outcomes complete does not matter.  Let an armed scope's
    canary succeed, and let another receipt, precommitted before it, end in a mismatch:
    the scope's entry is the same whichever of the two is recorded first. *)
Theorem completion_order_irrelevant (cfg : config) (d : bool) (b : breaker) (k : key) (st : circuit_state)
    (env env' : string) (ids ids' : list (string * string)) (c o : order) :
  enabled cfg = true -> states b !! k = Some st -> is_unarmed st = false -> o_window c - retention cfg <= last_window st ->
  signature_ok (o_signature c) -> signature_ok (o_signature o) -> touched env ids k -> touched env' ids' k ->
  probe_signature st = Some (o_signature c) -> o_signature o <> o_signature c -> o_window o <= o_window c -> order_leb o c = true ->
  let success := apply_event cfg (ESuccess env ids (o_window c) (o_signature c) (o_arrival c)) in
  let mismatch := apply_event cfg (EMismatch env' ids' (o_window o) (o_signature o) (o_arrival o) d) in
  states (success (mismatch b)) !! k = states (mismatch (success b)) !! k.
Proof.
  intros Hen Hk Hu Hr Hc Ho Ht Ht' Hp Hne Hw Hle success mismatch. unfold success, mismatch.
  rewrite (success_at cfg Hen) by done. rewrite !(mismatch_at cfg Hen) by done. rewrite (success_at cfg Hen) by done. rewrite Hk.
  cbn [mbind option_bind]. rewrite (prune_recent cfg (o_window o) st Hu) by lia. rewrite (prune_recent cfg (o_window c) st Hu) by lia.
  change (default new_state (Some st)) with st. rewrite strike_armed by (done || congruence). cbn [fmap option_fmap option_map mbind option_bind].
  rewrite (prune_recent cfg (o_window c) (with_strike (o_window o) st)) by (done || (cbn; lia)). cbn [fmap option_fmap option_map mbind option_bind].
  rewrite !credit_canary by done. rewrite prune_recovered by done. f_equal. change (default new_state (Some (recovered c st))) with (recovered c st).
  destruct (recovered_after c o st Hle) as (r & Er & Hor). unfold strike_entry. change (recovery_order (with_strike (o_window o) (recovered c st))) with (recovery_order (recovered c st)).
  rewrite Er, Hor. cbn [fst]. unfold recovered, with_strike. cbn. f_equal. lia.
Qed.

(** *** The two circuits of the precommit route *)

Lemma cancelled_probe cfg env ids w sig b k st : enabled cfg = true -> touched env ids k ->
  states (cancel_canary cfg env ids w sig b) !! k = Some st -> holds_probe (strip sig) w st = false.
Proof.
  intros Hen Ht. rewrite (cancel_lookup cfg Hen). case_bool_decide as H.
  - intros (st0 & _ & ->)%fmap_Some. done.
  - intros Hk. rewrite Hk in H. cbn in H. apply not_true_iff_false. intros Hp. by apply H.
Qed.

(** Without a canary no armed scope of the call let it through. *)
Lemma no_canary_unarmed cfg env ids w sig b k st : enabled cfg = true -> touched env ids k ->
  allowed (admit_precommit cfg env ids w sig b).1 = true -> canary (admit_precommit cfg env ids w sig b).1 = false ->
  states (admit_precommit cfg env ids w sig b).2 !! k = Some st -> is_unarmed st = true.
Proof.
  intros Hen Ht Ha Hc Hk. apply not_false_iff_true. intros Hu. pose proof (admitted_holds cfg Hen _ _ _ _ _ _ _ Ha Ht Hk Hu) as (_ & Hcd & Hps & Hpw & _).
  destruct (admit_precommit cfg env ids w sig b) as [d b'] eqn:E. cbn [fst snd] in *. pose proof (admit_lookup cfg Hen _ _ _ _ _ _ _ k E) as Hl. cbv zeta in Hl. rewrite Hk in Hl.
  assert (exists p, states b !! k ≫= prune_entry cfg w = Some p /\ (st = p \/ (st = reserve_probe w (strip sig) p /\ gate_of w (strip sig) (Some p) = GCanary))) as (p & Ep & Hst).
  { destruct (states b !! k ≫= prune_entry cfg w) as [p|] eqn:Ep; [|by destruct (bool_decide _) in Hl]. exists p. split; [done|].
    case_bool_decide as H; injection Hl as ->; [right|by left]. split; [done|apply H]. }
  assert (gate_of w (strip sig) (Some p) = GCanary) as Hg.
  { destruct Hst as [<-|[_ Hg]]; [|exact Hg]. unfold gate_of. rewrite Hu. destruct (Z.ltb_spec w (cooldown_until st)); [lia|]. by rewrite !bool_decide_eq_true_2. }
  clear Hl. unfold admit_precommit in E. rewrite Hen in E. cbn [negb] in E. cbv zeta in E. destruct (bool_decide (filter _ _ = [])) in E; [|injection E as <- _; discriminate].
  injection E as <- _. cbn [canary] in Hc. apply negb_false_iff, bool_decide_eq_true in Hc.
  unfold touched in Ht. apply list_elem_of_fmap in Ht as (x & -> & Hx).
  apply (not_elem_of_nil (x, GCanary)). rewrite <- Hc. apply list_elem_of_filter. split; [done|]. apply list_elem_of_fmap. exists x. split; [|done].
  by rewrite prune_lookup, Ep, Hg.
Qed.

(** A precommit that is not registered leaves no canary behind.  When both circuits
    admit it and its registration refuses or raises, no armed scope of either circuit
    keeps a canary for its signature in that window; when only the no-reveal circuit
    refuses it, none of the prompt circuit does. *)
Theorem route_leaves_no_canary (pcfg ncfg : config) (register : result bool) (environment hotkey : string) (operator : option string) (w : Z) (sig : string)
    (pb nb pb' nb' : breaker) (r : result bool) :
  enabled pcfg = true -> enabled ncfg = true -> precommit_route pcfg ncfg register environment hotkey operator w sig (pb, nb) = (r, (pb', nb')) -> r <> Ok true ->
  allowed (admit_precommit pcfg environment (mismatch_identities hotkey operator) w sig pb).1 = true ->
  (forall k st, touched environment (mismatch_identities hotkey operator) k -> states pb' !! k = Some st -> is_unarmed st = false -> holds_probe (strip sig) w st = false) /\
  (allowed (admit_reveal ncfg environment operator w sig nb).1 = true ->
   forall k st, touched environment (operator_identities operator) k -> states nb' !! k = Some st -> is_unarmed st = false -> holds_probe (strip sig) w st = false).
Proof.
  intros Hp Hn E Hr Ha. unfold precommit_route, admit_reveal, cancel_reveal in *. set (ids := mismatch_identities hotkey operator) in *. set (oids := operator_identities operator) in *.
  assert (forall cfg ids b, enabled cfg = true -> allowed (admit_precommit cfg environment ids w sig b).1 = true -> forall k st, touched environment ids k ->
    states (if canary (admit_precommit cfg environment ids w sig b).1 then cancel_canary cfg environment ids w sig (admit_precommit cfg environment ids w sig b).2
            else (admit_precommit cfg environment ids w sig b).2) !! k = Some st -> is_unarmed st = false -> holds_probe (strip sig) w st = false) as Hcancel.
  { intros cfg ids0 b Hen Hal k st Ht Hk Hu. destruct (canary (admit_precommit cfg environment ids0 w sig b).1) eqn:Ec; [by eapply cancelled_probe|].
    pose proof (no_canary_unarmed cfg _ _ _ _ _ _ _ Hen Ht Hal Ec Hk). congruence. }
  pose proof (Hcancel pcfg ids pb Hp Ha) as Hcp. pose proof (Hcancel ncfg oids nb Hn) as Hcn. clear Hcancel.
  destruct (admit_precommit pcfg environment ids w sig pb) as [d pb1]. destruct (admit_precommit ncfg environment oids w sig nb) as [n nb1]. cbn [fst snd] in *.
  rewrite Ha in E. cbn [negb] in E. destruct (allowed n) eqn:En; cbn [negb] in E.
  - destruct register as [[]|x]; injection E as <- <- <-; [done| |]; split; auto.
  - injection E as <- <- <-. split; [exact Hcp|discriminate].
Qed.

(** A sequence of calls of a process. *)
Lemma events_reached cfg repr_of dedupe es p : Forall (event_ok dedupe) es ->
  rtc (process_step cfg repr_of dedupe) p (Process (run_events cfg es (proc p)) (file p) (in_flight p)).
Proof.
  intros Hes. revert p. induction Hes as [|e es He _ IH]; intros p; [by destruct p|]. eapply rtc_l; [by apply step_event|]. exact (IH (Process _ _ _)).
Qed.

(** ** Examples *)

Definition w_config : config := Config "run" true 3 10 [10; 50; 250] true.
Definition w_repr (_ : pyval) : string := "".
Definition w_ids : list (string * string) := [("hotkey", "alice"); ("operator", " cold ")]%string.
Definition w_key : key := ("math", "hotkey", "alice")%string.
Definition w_miss (w : Z) (sig : string) : order := Order w w sig.
Definition w_strikes : list order := [w_miss 100 "a"; w_miss 101 "b"]%string.
Definition w_third : order := w_miss 104 "c".
Definition w_mismatch (o : order) : circuit_event := EMismatch "math" w_ids (o_window o) (o_signature o) (o_arrival o) false.

(** The process after the three mismatches, and after the writer saved it. *)
Definition w_start : process := start w_config w_repr None.
Definition w_armed : breaker := run_events w_config (w_mismatch <$> w_strikes ++ [w_third]) (proc w_start).
Definition w_process : process := Process w_armed None None.
Definition saved_process (b : breaker) : process := Process (writer_done (generation b) None b) (Some (Ok (snapshot w_config 0 b))) None.
Abbreviation w_saved := (saved_process w_armed).

Lemma saved_states b : states (proc (saved_process b)) = states b.
Proof. reflexivity. Qed.
Lemma admit_event cfg env ids w sig b : (admit_precommit cfg env ids w sig b).2 = apply_event cfg (EAdmit env ids w sig) b.
Proof. reflexivity. Qed.

Lemma w_config_ok : config_ok w_config.
Proof. split; try done. by repeat constructor. Qed.

Lemma w_touched : touched "math" w_ids w_key.
Proof. apply (bool_decide_unpack _). vm_compute. exact I. Qed.

Lemma w_process_reached : rtc (process_step w_config w_repr false) w_start w_process.
Proof. apply (events_reached w_config w_repr false _ w_start). repeat constructor; discriminate. Qed.

Lemma w_behind : persisted_generation w_armed <? generation w_armed = true.
Proof. vm_compute. reflexivity. Qed.

Lemma w_saved_reached : rtc (process_step w_config w_repr false) w_start w_saved.
Proof.
  etrans; [apply w_process_reached|]. eapply rtc_l; [apply (step_take w_config w_repr false 0 w_process (generation w_armed, snapshot w_config 0 w_armed) eq_refl)|].
  - unfold writer_take, w_process. cbn [proc]. by rewrite w_behind.
  - eapply rtc_l; [exact (step_written w_config w_repr false (Process w_armed None (Some (generation w_armed, snapshot w_config 0 w_armed))) (generation w_armed) (snapshot w_config 0 w_armed) eq_refl)|]. apply rtc_refl.
Qed.

Lemma w_armed_entry : exists st, states w_armed !! w_key = Some st /\ is_unarmed st = false /\ cooldown_until st = 114 /\ probe_signature st = None /\ last_window st = 104.
Proof. eexists. split; [vm_compute; reflexivity|]. by split_and!. Qed.

Lemma circuits_well_formed_witness : exists st, states (proc w_saved) !! w_key = Some st /\ entry_ok w_config false st.
Proof.
  destruct (circuits_well_formed w_config w_repr false w_saved w_config_ok eq_refl w_saved_reached) as [H _].
  rewrite saved_states in H |- *.
  destruct w_armed_entry as (st & Hk & _). exists st. exact (conj Hk (proj2 (H w_key st Hk))).
Defined.

Lemma restart_keeps_circuits_witness : exists st, (essence <$> states (proc (start w_config w_repr (file w_saved)))) !! w_key = Some st /\ cooldown_until st = 114.
Proof.
  destruct w_armed_entry as (st & Hk & _ & Hu & _). exists (essence st). split; [|exact Hu].
  rewrite (restart_keeps_circuits w_config w_repr false w_saved w_config_ok eq_refl w_saved_reached).
  - rewrite lookup_fmap, saved_states, Hk. reflexivity.
  - vm_compute. reflexivity.
  - reflexivity.
  - vm_compute. reflexivity.
Defined.

(** The cooldown is over, and a canary goes out. *)
Abbreviation w_canary := (admit_precommit w_config "math" w_ids 114 "d" w_armed).

Lemma w_canary_entry : exists st, states w_canary.2 !! w_key = Some st /\ is_unarmed st = false /\ probe_signature st = Some "d"%string /\ last_window st = 114.
Proof. eexists. split; [vm_compute; reflexivity|]. by split_and!. Qed.

Lemma one_canary_a_window_witness : allowed w_canary.1 = true /\
  allowed (admit_precommit w_config "math" w_ids 114 "e" (run_events w_config [w_mismatch (w_miss 114 "x")] w_canary.2)).1 = false.
Proof.
  destruct w_canary_entry as (st & Hk & Hu & _). split; [vm_compute; reflexivity|].
  apply (one_canary_a_window w_config w_armed w_key st 114 "math" w_ids "d" [w_mismatch (w_miss 114 "x")] "math" w_ids "e").
  - reflexivity.
  - vm_compute. reflexivity.
  - exact w_touched.
  - exact Hk.
  - exact Hu.
  - apply Forall_singleton. split; [reflexivity|]. intros [H|[]]. vm_compute in H. discriminate H.
  - exact w_touched.
  - vm_compute. discriminate.
Defined.

Lemma only_canary_moves_witness : exists st', states (apply_event w_config (ESuccess "math" w_ids 114 "d" 0) w_canary.2) !! w_key = Some st' /\
  is_unarmed st' = true /\ failure_events st' = ∅.
Proof.
  destruct w_canary_entry as (st & Hk & Hu & Hp & Hl).
  destruct (only_canary_moves w_config false (ESuccess "math" w_ids 114 "d" 0) w_canary.2 w_key st) as (st' & Hk' & H').
  - exact w_config_ok.
  - reflexivity.
  - rewrite admit_event. apply (apply_event_ok w_config w_config_ok false (EAdmit "math" w_ids 114 "d") w_armed); [discriminate|].
    apply (po_states _ _ _ _ (process_reachable_ok w_config w_config_ok w_repr false eq_refl w_process w_process_reached)).
  - exact Hk.
  - exact Hu.
  - rewrite Hl. vm_compute. discriminate.
  - exists st'. split; [exact Hk'|]. rewrite Hp, bool_decide_eq_true_2 in H'; [exact H'|]. split; vm_compute; [discriminate|reflexivity].
Defined.

Lemma arms_exactly_witness : exists st, states (mismatch_run w_config false "math" w_ids (w_strikes ++ [w_third]) (proc w_start)) !! w_key = Some st /\
  is_unarmed st = false /\ cooldown_until st = 114.
Proof.
  destruct (arms_exactly w_config false "math" w_ids w_strikes w_third (proc w_start) w_key) as (st & Hk & Hiff & Hc).
  - exact w_config_ok.
  - reflexivity.
  - vm_compute. discriminate.
  - exact w_touched.
  - reflexivity.
  - repeat constructor; discriminate.
  - apply (bool_decide_unpack _). vm_compute. exact I.
  - repeat constructor; discriminate.
  - intros es1 x es2 E. destruct es1 as [|a [|b [|? ?]]]; try discriminate E; injection E; intros; subst; vm_compute; reflexivity.
  - exists st. split; [exact Hk|]. assert (is_unarmed st = false) as Hu by (apply Hiff; vm_compute; discriminate). split; [exact Hu|exact (Hc Hu)].
Defined.

Lemma completion_order_irrelevant_witness :
  let success := apply_event w_config (ESuccess "math" w_ids 114 "d" 114) in
  let mismatch := apply_event w_config (w_mismatch (w_miss 103 "x")) in
  states (success (mismatch w_canary.2)) !! w_key = states (mismatch (success w_canary.2)) !! w_key.
Proof.
  destruct w_canary_entry as (st & Hk & Hu & Hp & Hl).
  apply (completion_order_irrelevant w_config false w_canary.2 w_key st "math" "math" w_ids w_ids (w_miss 114 "d") (w_miss 103 "x")).
  - reflexivity.
  - exact Hk.
  - exact Hu.
  - rewrite Hl. vm_compute. discriminate.
  - by split.
  - by split.
  - exact w_touched.
  - exact w_touched.
  - exact Hp.
  - discriminate.
  - discriminate.
  - reflexivity.
Defined.

(** The registration fails: the canary is given back. *)
Definition w_route : result bool * (breaker * breaker) :=
  precommit_route w_config w_config (Ok false) "math" "alice" (Some "cold"%string) 114 "d" (w_armed, proc w_start).

Lemma route_leaves_no_canary_witness : w_route.1 = Ok false /\
  forall k st, touched "math" (mismatch_identities "alice" (Some "cold"%string)) k -> states w_route.2.1 !! k = Some st -> is_unarmed st = false -> holds_probe "d" 114 st = false.
Proof.
  split; [vm_compute; reflexivity|].
  apply (route_leaves_no_canary w_config w_config (Ok false) "math" "alice" (Some "cold"%string) 114 "d" w_armed (proc w_start) w_route.2.1 w_route.2.2 w_route.1).
  - reflexivity.
  - reflexivity.
  - unfold w_route. by destruct (precommit_route _ _ _ _ _ _ _ _ _) as [? [? ?]].
  - vm_compute. discriminate.
  - vm_compute. reflexivity.
Defined.
