(* ===== verification/WindowAdmission.v ===== *)
(** * WindowAdmission: what a training window has accepted and still holds

    Models the admission ledger of [GrpoWindowBatcher] in [validator/batcher.py]: signed
    upload receipts from registration to their end, the bytes of their bodies, the
    grading work they become, the payloads kept until the seal, the claims on a prompt,
    proof-failure debt, and the closing of an auction window.

    Both locks are taken inside each method, so a method is one step.  The clock and the
    answer of [_fill_proof_admission_closed] (the proof scheduler's) are arguments; so is
    the pool of graded candidates the early close reads.  A request object is its [id]
    and the private attributes it carries are in [attrs].  The throughput queue, which
    only records telemetry, and the counters of rejected submissions are left out. *)

From S2P Require Import Prelude PyFloat.

#[local] Open Scope Z_scope.

(** ** Settings *)

Record config := Config {
  difficulty_auction_enabled : bool;
  FILL_CLOSED_ENABLED : bool;
  window_opened_at : float;
  window_opened_wall_ts : float;
  collection_seconds : float;
  max_productive_candidates : Z;
  max_grading_starts : Z;
  operator_by_hotkey : option (gmap string string);
  early_close_enforced : bool;
  early_close_off : bool;
  upload_grace : float;
  primary_target : Z;
  max_pending_per_hotkey : Z;
  max_pending_per_operator : Z;
  max_payload : Z;
  max_env_bytes : Z;
  max_hotkey_bytes : Z;
  max_failures_hotkey : Z;
  max_failures_operator : Z;
  max_post_trigger : Z;
  batch_size : Z;
  min_collection : float;
}.

(** The constructor's bounds. *)
Definition valid_bounds (c : config) : bool :=
  (0 <? collection_seconds c) && (1 <=? max_productive_candidates c) && (max_productive_candidates c <=? max_grading_starts c).

(** ** State *)

(** [_UploadPrecommitReservation] *)
Record reservation := Reservation {
  r_hotkey : string;
  r_operator : string;
  r_deadline : float;
  r_payload_bytes : Z;
  r_start_deadline : option float;
  r_started : option float;
  r_completed : option float;
  r_accounted : Z;
  r_revealed : bool;
  r_transferred : bool;
  r_digest : string;
}.

Record request := Request { q_id : Z; q_hotkey : string; q_round : Z; q_prompt : Z; q_json_bytes : Z }.

(** A tuple of the maps of work: request, hotkey, post-trigger, bytes. *)
Record work := Work { k_request : request; k_hotkey : string; k_post : bool; k_bytes : Z }.

(** The private attributes of a request. *)
Record attributes := Attributes { a_payload : Z; a_retain : bool; a_refundable : bool; a_claim : option (string * Z) }.
Definition no_attributes : attributes := Attributes 0 false false None.

Record uploads := Uploads {
  precommits : gmap string reservation;
  digests : gset string;
  accepted : Z;
  expired_n : Z;
  terminal : Z;
  revealed_n : Z;
  peak : Z;
  rejections : gmap string Z;
}.

Record payloads := Payloads {
  upload_bytes : Z;
  pending_bytes : Z;
  inflight_bytes : Z;
  retained_bytes : Z;
  by_hotkey : gmap string Z;
}.

Record proofs := Proofs {
  pay : payloads;
  pending : gmap Z work;
  inflight : gmap Z work;
  retained : gmap Z work;
  attempts : Z;
  charged : Z;
  post_count : Z;
  pending_post : Z;
  failures_hotkey : gmap string Z;
  failures_operator : gmap string Z;
  snapshot_started : bool;
  seal_completed : bool;
}.

Record window := Window {
  up : uploads;
  pr : proofs;
  sealed : bool;
  eligible_at : option float;
  trigger_round : option Z;
  claims : gmap (string * Z) Z;
  claim_duplicates : Z;
  attrs : gmap Z attributes;
}.

Definition empty_window : window :=
  Window (Uploads ∅ ∅ 0 0 0 0 0 ∅) (Proofs (Payloads 0 0 0 0 ∅) ∅ ∅ ∅ 0 0 0 0 ∅ ∅ false false) false None None ∅ 0 ∅.

(** Writing one component. *)
Definition set_up (u : uploads) (w : window) : window :=
  Window u (pr w) (sealed w) (eligible_at w) (trigger_round w) (claims w) (claim_duplicates w) (attrs w).
Definition set_pr (p : proofs) (w : window) : window :=
  Window (up w) p (sealed w) (eligible_at w) (trigger_round w) (claims w) (claim_duplicates w) (attrs w).
Definition set_sealed (w : window) : window :=
  Window (up w) (pr w) true (eligible_at w) (trigger_round w) (claims w) (claim_duplicates w) (attrs w).
Definition set_eligible (t : float) (w : window) : window :=
  Window (up w) (pr w) (sealed w) (Some t) (trigger_round w) (claims w) (claim_duplicates w) (attrs w).
Definition set_attrs (id : Z) (a : attributes) (w : window) : window :=
  Window (up w) (pr w) (sealed w) (eligible_at w) (trigger_round w) (claims w) (claim_duplicates w) (<[id := a]> (attrs w)).
Definition set_pay (p : payloads) (s : proofs) : proofs :=
  Proofs p (pending s) (inflight s) (retained s) (attempts s) (charged s) (post_count s) (pending_post s) (failures_hotkey s) (failures_operator s) (snapshot_started s) (seal_completed s).
Definition set_precommits (m : gmap string reservation) (u : uploads) : uploads :=
  Uploads m (digests u) (accepted u) (expired_n u) (terminal u) (revealed_n u) (peak u) (rejections u).

Definition attrs_of (id : Z) (w : window) : attributes := default no_attributes (attrs w !! id).

(** ** Bytes *)

Section window.
Context (c : config).

(** [_operator_for_hotkey] *)
Definition operator_for (hotkey : string) : option string :=
  match operator_by_hotkey c with None => Some hotkey | Some m => m !! hotkey end.

(** [_reserved_payload_bytes_locked] *)
Definition reserved_bytes (p : payloads) : Z := upload_bytes p + pending_bytes p + inflight_bytes p + retained_bytes p.
Definition held_by (hotkey : string) (p : payloads) : Z := default 0 (by_hotkey p !! hotkey).

(** [_payload_capacity_reason_locked] *)
Definition payload_refusal (hotkey : string) (n : Z) (p : payloads) : option string :=
  if max_payload c <? n then Some "submission_payload_too_large"%string
  else if max_env_bytes c <? reserved_bytes p + n then Some "pending_payload_bytes_env_full"%string
  else if max_hotkey_bytes c <? held_by hotkey p + n then Some "pending_payload_bytes_hotkey_full"%string
  else None.

Definition hold (hotkey : string) (n : Z) (p : payloads) : payloads :=
  Payloads (upload_bytes p) (pending_bytes p) (inflight_bytes p) (retained_bytes p) (<[hotkey := held_by hotkey p + n]> (by_hotkey p)).

(** [_release_hotkey_payload_locked] *)
Definition release (hotkey : string) (n : Z) (p : payloads) : payloads :=
  let remaining := Z.max 0 (held_by hotkey p - n) in
  Payloads (upload_bytes p) (pending_bytes p) (inflight_bytes p) (retained_bytes p)
    (if remaining =? 0 then delete hotkey (by_hotkey p) else <[hotkey := remaining]> (by_hotkey p)).

Definition add_upload (n : Z) (p : payloads) : payloads := Payloads (Z.max 0 (upload_bytes p + n)) (pending_bytes p) (inflight_bytes p) (retained_bytes p) (by_hotkey p).
Definition add_pending (n : Z) (p : payloads) : payloads := Payloads (upload_bytes p) (Z.max 0 (pending_bytes p + n)) (inflight_bytes p) (retained_bytes p) (by_hotkey p).
Definition add_inflight (n : Z) (p : payloads) : payloads := Payloads (upload_bytes p) (pending_bytes p) (Z.max 0 (inflight_bytes p + n)) (retained_bytes p) (by_hotkey p).
Definition add_retained (n : Z) (p : payloads) : payloads := Payloads (upload_bytes p) (pending_bytes p) (inflight_bytes p) (retained_bytes p + n) (by_hotkey p).

(** ** Upload receipts *)

Definition reject_upload (reason : string) (w : window) : window :=
  let u := up w in
  set_up (Uploads (precommits u) (digests u) (accepted u) (expired_n u) (terminal u) (revealed_n u) (peak u)
            (<[reason := default 0 (rejections u !! reason) + 1]> (rejections u))) w.

(** [_finish_upload_precommit_locked] *)
Definition finish_upload (expired : bool) (r : reservation) (w : window) : window :=
  let w := if r_transferred r then w
           else set_pr (set_pay (release (r_hotkey r) (r_accounted r) (add_upload (- r_accounted r) (pay (pr w)))) (pr w)) w in
  let u := up w in
  if expired then
    set_up (Uploads (precommits u) (if negb (r_revealed r) && negb (String.eqb (r_digest r) "") then digests u ∖ {[r_digest r]} else digests u)
              (accepted u) (expired_n u + 1) (terminal u) (revealed_n u) (peak u) (rejections u)) w
  else set_up (Uploads (precommits u) (digests u) (accepted u) (expired_n u) (terminal u + 1) (revealed_n u) (peak u) (rejections u)) w.

(** Popping one receipt and ending it. *)
Definition end_receipt (expired : bool) (id : string) (w : window) : window :=
  match precommits (up w) !! id with
  | None => w
  | Some r => finish_upload expired r (set_up (set_precommits (delete id (precommits (up w))) (up w)) w)
  end.

Definition is_expired (now : float) (r : reservation) : bool :=
  (r_deadline r <=? now) && bool_decide (r_completed r = None) && negb (r_revealed r).

(** The receipts of which [f] holds. *)
Definition receipts_where (f : reservation -> bool) (w : window) : list string := (map_to_list (filter (fun kv => f kv.2 = true) (precommits (up w)))).*1.

(** [_prune_upload_precommits_locked] *)
Definition prune (now : float) (w : window) : window := foldl (fun w id => end_receipt true id w) w (receipts_where (is_expired now) w).

Definition count_receipts (f : reservation -> bool) (u : uploads) : Z := map_sum (fun _ r => Z.b2z (f r)) (precommits u).

(** [_early_close_refusing_precommits_locked] *)
Definition early_close_refusing (w : window) : bool := early_close_enforced c && bool_decide (is_Some (eligible_at w)).

Definition burn (digest : string) (w : window) : window :=
  let u := up w in set_up (Uploads (precommits u) ({[digest]} ∪ digests u) (accepted u) (expired_n u) (terminal u) (revealed_n u) (peak u) (rejections u)) w.

Definition file_receipt (id : string) (r : reservation) (w : window) : window :=
  let u := up w in
  let m := <[id := r]> (precommits u) in
  set_up (Uploads m (digests u) (accepted u + 1) (expired_n u) (terminal u) (revealed_n u) (Z.max (peak u) (Z.of_nat (size m))) (rejections u)) w.

(** Whether the receipt is bound to its content. *)
Definition keeps_digest (digest : string) : bool := FILL_CLOSED_ENABLED c && negb (String.eqb digest "").

(** [try_register_upload_precommit]: the reason of a refusal, or the deadline. *)
Definition try_register (id hotkey : string) (arrival : float) (bytes : Z) (digest : string) (now : float) (dispatch_closed : bool) (w : window) : (string + float) * window :=
  if negb (difficulty_auction_enabled c) then (inl "precommit_requires_auction"%string, w)
  else if arrival <? window_opened_wall_ts c then (inl "collection_not_open"%string, w)
  else if fadd (window_opened_wall_ts c) (collection_seconds c) <? arrival then (inl "collection_closed"%string, w)
  else if dispatch_closed then (inl "proof_dispatch_closed"%string, w)
  else
    let w := prune now w in
    if sealed w || snapshot_started (pr w) then (inl "collection_sealed"%string, w)
    else if early_close_refusing w then (inl "collection_sealed"%string, w)
    else
      match operator_for hotkey with
      | None => (inl "precommit_operator_unmapped"%string, reject_upload "precommit_operator_unmapped" w)
      | Some operator =>
          if keeps_digest digest && bool_decide (digest ∈ digests (up w)) then
            (inl "precommit_duplicate_payload"%string, reject_upload "precommit_duplicate_payload" w)
          else
            let w := if keeps_digest digest then burn digest w else w in
            if max_pending_per_hotkey c <=? count_receipts (fun r => String.eqb (r_hotkey r) hotkey) (up w) then
              (inl "precommit_hotkey_active_full"%string, reject_upload "precommit_hotkey_active_full" w)
            else if max_pending_per_operator c <=? count_receipts (fun r => String.eqb (r_operator r) operator) (up w) then
              (inl "precommit_operator_active_full"%string, reject_upload "precommit_operator_active_full" w)
            else
              let deadline := Z.min (fadd now (upload_grace c)) (fadd (fadd (window_opened_at c) (collection_seconds c)) (upload_grace c)) in
              (inr deadline, file_receipt id (Reservation hotkey operator deadline bytes None None None 0 false false (if keeps_digest digest then digest else "")) w)
      end.

(** The reservation of [id] rewritten. *)
Definition set_receipt (id : string) (r : reservation) (w : window) : window := set_up (set_precommits (<[id := r]> (precommits (up w))) (up w)) w.

Definition start_receipt (t : float) (r : reservation) : reservation :=
  Reservation (r_hotkey r) (r_operator r) (r_deadline r) (r_payload_bytes r) (r_start_deadline r) (Some t) (r_completed r) (r_accounted r) (r_revealed r) (r_transferred r) (r_digest r).
Definition account (n : Z) (r : reservation) : reservation :=
  Reservation (r_hotkey r) (r_operator r) (r_deadline r) (r_payload_bytes r) (r_start_deadline r) (r_started r) (r_completed r) (r_accounted r + n) (r_revealed r) (r_transferred r) (r_digest r).
Definition complete_receipt (t : float) (r : reservation) : reservation :=
  Reservation (r_hotkey r) (r_operator r) (r_deadline r) (r_payload_bytes r) (r_start_deadline r) (r_started r) (Some t) (r_accounted r) (r_revealed r) (r_transferred r) (r_digest r).
Definition reveal (r : reservation) : reservation :=
  Reservation (r_hotkey r) (r_operator r) (r_deadline r) (r_payload_bytes r) (r_start_deadline r) (r_started r) (r_completed r) (r_accounted r) true (r_transferred r) (r_digest r).
Definition transfer (r : reservation) : reservation :=
  Reservation (r_hotkey r) (r_operator r) (r_deadline r) (r_payload_bytes r) (r_start_deadline r) (r_started r) (r_completed r) (r_accounted r) (r_revealed r) true (r_digest r).

(** [account_upload_precommit_bytes]: [None] when the chunk is accounted. *)
Definition account_bytes (id : string) (arrival : float) (n : Z) (w : window) : option string * window :=
  if n <=? 0 then (Some "upload_chunk_invalid"%string, w)
  else
    match precommits (up w) !! id with
    | None => (Some "upload_precommit_missing"%string, w)
    | Some r =>
        if bool_decide (r_started r = None) && (default (fadd (window_opened_wall_ts c) (collection_seconds c)) (r_start_deadline r) <? arrival)
        then (Some "upload_started_after_collection"%string, w)
        else
          let r := match r_started r with None => start_receipt arrival r | Some _ => r end in
          let w := set_receipt id r w in
          if r_payload_bytes r <? r_accounted r + n then (Some "upload_payload_exceeded"%string, w)
          else
            match payload_refusal (r_hotkey r) n (pay (pr w)) with
            | Some reason => (Some reason, w)
            | None =>
                let p := hold (r_hotkey r) n (Payloads (upload_bytes (pay (pr w)) + n) (pending_bytes (pay (pr w))) (inflight_bytes (pay (pr w))) (retained_bytes (pay (pr w))) (by_hotkey (pay (pr w)))) in
                (None, set_receipt id (account n r) (set_pr (set_pay p (pr w)) w))
            end
    end.

(** [mark_upload_precommit_transport_complete] *)
Definition mark_complete (id : string) (t : float) (w : window) : option string * window :=
  match precommits (up w) !! id with
  | None => (Some "upload_precommit_missing"%string, w)
  | Some r => if negb (r_accounted r =? r_payload_bytes r) then (Some "upload_payload_incomplete"%string, w)
              else (None, set_receipt id (complete_receipt t r) w)
  end.

(** [mark_upload_precommit_revealed] *)
Definition mark_revealed (id : string) (w : window) : bool * window :=
  match precommits (up w) !! id with
  | None => (false, w)
  | Some r =>
      if r_revealed r then (true, w)
      else
        let u := up w in
        (true, set_up (Uploads (<[id := reveal r]> (precommits u)) (digests u) (accepted u) (expired_n u) (terminal u) (revealed_n u + 1) (peak u) (rejections u)) w)
  end.

(** [resolve_upload_precommit] *)
Definition resolve_upload (id : string) (expired : bool) (w : window) : bool * window :=
  (bool_decide (is_Some (precommits (up w) !! id)), end_receipt expired id w).

(** ** Grading work *)

Definition productive_used (s : proofs) : Z := Z.of_nat (size (pending s)) + charged s.

Definition hotkey_debt (hotkey : string) (s : proofs) : Z := default 0 (failures_hotkey s !! hotkey).
Definition operator_debt (hotkey : string) (s : proofs) : Z :=
  match operator_for hotkey with None => 0 | Some o => default 0 (failures_operator s !! o) end.

Definition debt_refusal (hotkey : string) (s : proofs) : option string :=
  if max_failures_hotkey c <=? hotkey_debt hotkey s then Some "proof_failure_debt_hotkey"%string
  else if max_failures_operator c <=? operator_debt hotkey s then Some "proof_failure_debt_operator"%string
  else None.

(** The two ceilings, against the productive capacity [used]. *)
Definition capacity_refusal (used : Z) (s : proofs) : option string :=
  if max_productive_candidates c <=? used then Some "proof_grading_attempts_full"%string
  else if max_grading_starts c <=? attempts s then Some "grading_starts_full"%string
  else None.

Definition is_reserved (id : Z) (s : proofs) : bool :=
  bool_decide (is_Some (pending s !! id)) || bool_decide (is_Some (inflight s !! id)) || bool_decide (is_Some (retained s !! id)).

(** One grading start. *)
Definition start_work (id : Z) (k : work) (s : proofs) : proofs :=
  Proofs (add_inflight (k_bytes k) (pay s)) (pending s) (<[id := k]> (inflight s)) (retained s) (attempts s + 1) (charged s + 1)
    (post_count s + Z.b2z (k_post k)) (pending_post s) (failures_hotkey s) (failures_operator s) (snapshot_started s) (seal_completed s).

(** [start_revealed_admission] *)
Definition start_revealed (id : string) (q : request) (dispatch_closed : bool) (w : window) : option string * window :=
  if dispatch_closed then (Some "proof_dispatch_closed"%string, w)
  else
    match precommits (up w) !! id with
    | None => (Some "upload_precommit_missing"%string, w)
    | Some r =>
        if r_transferred r then (Some "proof_reservation_duplicate"%string, w)
        else if negb (r_revealed r) then (Some "upload_precommit_not_revealed"%string, w)
        else if bool_decide (r_completed r = None) then (Some "upload_transport_incomplete"%string, w)
        else if negb (r_accounted r =? r_payload_bytes r) then (Some "upload_payload_incomplete"%string, w)
        else if negb (String.eqb (r_hotkey r) (q_hotkey q)) then (Some "upload_precommit_hotkey_mismatch"%string, w)
        else
          let s := pr w in
          if snapshot_started s then (Some "auction_seal_snapshot_started"%string, w)
          else
            match debt_refusal (q_hotkey q) s with
            | Some reason => (Some reason, w)
            | None =>
                match capacity_refusal (productive_used s) s with
                | Some reason => (Some reason, w)
                | None =>
                    if is_reserved (q_id q) s then (Some "proof_reservation_duplicate"%string, w)
                    else
                      let a := attrs_of (q_id q) w in
                      let w := set_attrs (q_id q) (Attributes (r_payload_bytes r) false (a_refundable a) (a_claim a)) w in
                      let w := set_receipt id (transfer r) w in
                      (None, set_pr (start_work (q_id q) (Work q (q_hotkey q) false (r_accounted r)) (set_pay (add_upload (- r_accounted r) (pay s)) s)) w)
                end
            end
    end.

(** [_submission_payload_bytes]: the size, remembered on the request. *)
Definition submission_bytes (q : request) (w : window) : Z * window :=
  let a := attrs_of (q_id q) w in
  if a_payload a <=? 0 then (q_json_bytes q, set_attrs (q_id q) (Attributes (q_json_bytes q) (a_retain a) (a_refundable a) (a_claim a)) w) else (a_payload a, w).

Definition set_retain (id : Z) (b : bool) (w : window) : window :=
  let a := attrs_of id w in set_attrs id (Attributes (a_payload a) b (a_refundable a) (a_claim a)) w.
Definition set_refundable (id : Z) (w : window) : window :=
  let a := attrs_of id w in set_attrs id (Attributes (a_payload a) (a_retain a) true (a_claim a)) w.

Definition reserve_work (id : Z) (k : work) (s : proofs) : proofs :=
  Proofs (hold (k_hotkey k) (k_bytes k) (add_pending (k_bytes k) (pay s))) (<[id := k]> (pending s)) (inflight s) (retained s) (attempts s) (charged s)
    (post_count s) (pending_post s + Z.b2z (k_post k)) (failures_hotkey s) (failures_operator s) (snapshot_started s) (seal_completed s).

(** [_try_reserve_proof_admission_locked] *)
Definition try_reserve_locked (q : request) (w : window) : option string * window :=
  let '(n, w) := submission_bytes q w in
  let w := set_retain (q_id q) false w in
  let s := pr w in
  if is_reserved (q_id q) s then (Some "proof_reservation_duplicate"%string, w)
  else
    match debt_refusal (q_hotkey q) s with
    | Some reason => (Some reason, w)
    | None =>
        match capacity_refusal (charged s + Z.of_nat (size (pending s))) s with
        | Some reason => (Some reason, w)
        | None =>
            match payload_refusal (q_hotkey q) n (pay s) with
            | Some reason => (Some reason, w)
            | None =>
                let post := bool_decide (trigger_round w = Some (q_round q)) in
                if post && (max_post_trigger c <=? post_count s + pending_post s) then (Some "proof_admission_post_trigger_full"%string, w)
                else (None, set_pr (reserve_work (q_id q) (Work q (q_hotkey q) post n) s) w)
            end
        end
    end.

(** [try_reserve_proof_admission] *)
Definition try_reserve (q : request) (now : float) (dispatch_closed : bool) (w : window) : option string * window :=
  if dispatch_closed then (Some "proof_dispatch_closed"%string, w) else try_reserve_locked q (prune now w).

(** Taking a pending reservation out: its bytes stay with the hotkey. *)
Definition unreserve (id : Z) (k : work) (s : proofs) : proofs :=
  Proofs (add_pending (- k_bytes k) (pay s)) (delete id (pending s)) (inflight s) (retained s) (attempts s) (charged s) (post_count s)
    (if k_post k then Z.max 0 (pending_post s - 1) else pending_post s) (failures_hotkey s) (failures_operator s) (snapshot_started s) (seal_completed s).
Definition drop_bytes (k : work) (s : proofs) : proofs := set_pay (release (k_hotkey k) (k_bytes k) (pay s)) s.

(** [cancel_proof_admission] *)
Definition cancel_proof (id : Z) (w : window) : bool * window :=
  match pending (pr w) !! id with
  | None => (false, w)
  | Some k => (true, set_pr (drop_bytes k (unreserve id k (pr w))) w)
  end.

(** The start of work already taken out of the pending map, debt checked again. *)
Definition start_taken (id : Z) (k : work) (w : window) : option string * window :=
  match debt_refusal (k_hotkey k) (pr w) with
  | Some reason => (Some reason, set_pr (drop_bytes k (pr w)) w)
  | None => (None, set_pr (start_work id k (pr w)) w)
  end.

(** [start_proof_admission] *)
Definition start_proof (q : request) (dispatch_closed : bool) (w : window) : option string * window :=
  if dispatch_closed then (Some "proof_dispatch_closed"%string, (cancel_proof (q_id q) w).2)
  else
    match pending (pr w) !! q_id q with
    | Some k =>
        let w := set_pr (unreserve (q_id q) k (pr w)) w in
        if snapshot_started (pr w) then (Some "auction_seal_snapshot_started"%string, set_pr (drop_bytes k (pr w)) w) else start_taken (q_id q) k w
    | None =>
        if snapshot_started (pr w) then (Some "auction_seal_snapshot_started"%string, w)
        else
          match capacity_refusal (charged (pr w)) (pr w) with
          | Some reason => (Some reason, w)
          | None =>
              let '(n, w) := submission_bytes q w in
              match payload_refusal (q_hotkey q) n (pay (pr w)) with
              | Some reason => (Some reason, w)
              | None => start_taken (q_id q) (Work q (q_hotkey q) false n) (set_pr (set_pay (hold (q_hotkey q) n (pay (pr w))) (pr w)) w)
              end
          end
    end.

(** [finish_proof_admission] *)
Definition finish_proof (id : Z) (w : window) : window :=
  match inflight (pr w) !! id with
  | None => w
  | Some k =>
      let s := pr w in
      let a := attrs_of id w in
      let ch := if a_refundable a then Z.max 0 (charged s - 1) else charged s in
      let p := add_inflight (- k_bytes k) (pay s) in
      let keep := a_retain a && negb (seal_completed s) in
      set_pr (Proofs (if keep then add_retained (k_bytes k) p else release (k_hotkey k) (k_bytes k) p) (pending s) (delete id (inflight s))
                (if keep then <[id := k]> (retained s) else retained s) (attempts s) ch (post_count s) (pending_post s)
                (failures_hotkey s) (failures_operator s) (snapshot_started s) (seal_completed s)) w
  end.

(** [_release_retained_payloads] *)
Definition release_retained (w : window) : window :=
  let s := pr w in
  let p := pay s in
  let ks := map_to_list (retained s) in
  let p' := foldl (fun p ik => release (k_hotkey ik.2) (k_bytes ik.2) p) (Payloads (upload_bytes p) (pending_bytes p) (inflight_bytes p) 0 (by_hotkey p)) ks in
  foldl (fun w ik => set_retain ik.1 false w)
    (set_pr (Proofs p' (pending s) (inflight s) ∅ (attempts s) (charged s) (post_count s) (pending_post s) (failures_hotkey s) (failures_operator s) (snapshot_started s) true) w) ks.

(** The debt of a failed proof: [_reject], [_execute_scheduled_proof]. *)
Definition bump (k : string) (m : gmap string Z) : gmap string Z := <[k := default 0 (m !! k) + 1]> m.
Definition hotkey_failed (hotkey : string) (code_crash : bool) (w : window) : window :=
  let s := pr w in
  let fo := match operator_for hotkey with Some o => if code_crash then bump o (failures_operator s) else failures_operator s | None => failures_operator s end in
  set_pr (Proofs (pay s) (pending s) (inflight s) (retained s) (attempts s) (charged s) (post_count s) (pending_post s) (bump hotkey (failures_hotkey s)) fo (snapshot_started s) (seal_completed s)) w.
Definition operator_failed (hotkey : string) (w : window) : window :=
  match operator_for hotkey with
  | None => w
  | Some o =>
      let s := pr w in
      set_pr (Proofs (pay s) (pending s) (inflight s) (retained s) (attempts s) (charged s) (post_count s) (pending_post s) (failures_hotkey s) (bump o (failures_operator s)) (snapshot_started s) (seal_completed s)) w
  end.

(** [begin_seal_snapshot] *)
Definition begin_seal_snapshot (w : window) : window :=
  let s := pr w in
  set_pr (Proofs (pay s) (pending s) (inflight s) (retained s) (attempts s) (charged s) (post_count s) (pending_post s) (failures_hotkey s) (failures_operator s) true (seal_completed s)) w.

(** ** Claims of an auction: an operator, a prompt *)

Definition set_claims (m : gmap (string * Z) Z) (w : window) : window :=
  Window (up w) (pr w) (sealed w) (eligible_at w) (trigger_round w) m (claim_duplicates w) (attrs w).
Definition set_claim (id : Z) (k : option (string * Z)) (w : window) : window :=
  let a := attrs_of id w in set_attrs id (Attributes (a_payload a) (a_retain a) (a_refundable a) k) w.

(** [try_reserve_logical_group] *)
Definition try_claim (q : request) (w : window) : option string * window :=
  match operator_for (q_hotkey q) with
  | None => (Some "operator_unmapped"%string, w)
  | Some operator =>
      let k := (operator, q_prompt q) in
      match claims w !! k with
      | Some owner =>
          if (owner =? q_id q) && bool_decide (a_claim (attrs_of (q_id q) w) = Some k) then (None, w)
          else (Some "logical_group_duplicate"%string,
                Window (up w) (pr w) (sealed w) (eligible_at w) (trigger_round w) (claims w) (claim_duplicates w + 1) (attrs w))
      | None => (None, set_claim (q_id q) (Some k) (set_claims (<[k := q_id q]> (claims w)) w))
      end
  end.

(** [cancel_logical_group_reservation], [confirm_logical_group_reservation] *)
Definition cancel_claim (id : Z) (w : window) : bool * window :=
  match a_claim (attrs_of id w) with
  | None => (false, w)
  | Some k => if bool_decide (claims w !! k = Some id) then (true, set_claim id None (set_claims (delete k (claims w)) w)) else (false, w)
  end.
Definition confirm_claim (id : Z) (w : window) : window := set_claim id None w.

(** ** Closing *)

(** What the close reads of the pool of graded candidates. *)
Record pool := Pool { pool_count : Z; pool_prompts : Z; last_valid : option float; pipeline_ready : bool; quiet_seconds : float }.

(** [_early_close_possible] *)
Definition early_close_possible (now : float) (g : pool) (w : window) : bool :=
  negb (early_close_off c) && negb (bool_decide (is_Some (eligible_at w))) && negb (fsub now (window_opened_at c) <? min_collection c) && pipeline_ready g
  && negb (pool_count g <? primary_target c) && negb (pool_prompts g <? batch_size c)
  && match last_valid g with None => false | Some t => negb (fsub now t <? quiet_seconds g) end
  && bool_decide (pending (pr w) = ∅) && bool_decide (inflight (pr w) = ∅).

(** [_poll_early_close] *)
Definition poll_early_close (now : float) (g : pool) (w : window) : bool * window :=
  if negb (early_close_possible now g w) then (false, w)
  else
    let w := prune now w in
    if negb (bool_decide (precommits (up w) = ∅)) then (false, w)
    else if negb (bool_decide (pending (pr w) = ∅)) || negb (bool_decide (inflight (pr w) = ∅)) then (false, w)
    else
      let w := set_eligible now w in
      if early_close_enforced c then (true, set_sealed w) else (false, w).

Definition is_inactive (r : reservation) : bool := bool_decide (r_started r = None).

(** [poll_deadline] of an auction window that is not filled continuously. *)
Definition poll_deadline (now : float) (g : pool) (w : window) : bool * window :=
  if sealed w then (true, w)
  else if negb (difficulty_auction_enabled c) then (false, w)
  else
    let elapsed := fsub now (window_opened_at c) in
    let '(early, w) := if elapsed <? collection_seconds c then poll_early_close now g w else (false, w) in
    if early then (true, w)
    else if collection_seconds c <=? elapsed then
      let w := prune now w in
      let w := foldl (fun w id => end_receipt true id w) w (receipts_where is_inactive w) in
      if negb (bool_decide (receipts_where (negb ∘ is_inactive) w = [])) && (elapsed <? fadd (collection_seconds c) (upload_grace c)) then (false, w)
      else (true, set_sealed w)
    else (false, w).

(** [force_seal] *)
Definition force_seal (w : window) : window := set_sealed w.

(** ** The report *)

Record conservation := Conservation {
  v_accepted : Z; v_terminal : Z; v_expired : Z; v_pending : Z; v_conserved : bool; v_productive : Z; v_capacity_conserved : bool; v_inactive : Z;
}.

(** [upload_precommit_conservation] *)
Definition conservation_report (now : float) (w : window) : conservation * window :=
  let w := prune now w in
  let u := up w in
  let n := Z.of_nat (size (precommits u)) in
  (Conservation (accepted u) (terminal u) (expired_n u) n (accepted u =? terminal u + expired_n u + n) (productive_used (pr w))
     (productive_used (pr w) <=? max_productive_candidates c) (count_receipts is_inactive u), w).
End window.


(** * What the ledger owes *)

(** ** Shares

    What an entry of a map weighs: in all, or for one hotkey. *)

Definition share (h : option string) (x : string * Z) : Z :=
  match h with None => x.2 | Some h => if String.eqb x.1 h then x.2 else 0 end.

Lemma share_bounds h x : 0 <= x.2 -> 0 <= share h x <= x.2.
Proof. intros. destruct h as [h|]; cbn; [destruct (String.eqb x.1 h)|]; lia. Qed.

Section weigh.
Context {K A : Type} `{Countable K} (g : A -> string * Z).
Implicit Types (m : gmap K A) (h : option string).

Definition weigh h m : Z := map_sum (fun _ x => share h (g x)) m.

Lemma weigh_empty h : weigh h ∅ = 0.
Proof. apply map_sum_empty. Qed.

Lemma weigh_new h m i x : m !! i = None -> weigh h (<[i := x]> m) = weigh h m + share h (g x).
Proof. intros Hi. unfold weigh. rewrite map_sum_insert_new by done. lia. Qed.

Lemma weigh_set h m i x y : m !! i = Some x -> weigh h (<[i := y]> m) = weigh h m - share h (g x) + share h (g y).
Proof. intros Hi. unfold weigh. rewrite map_sum_insert, Hi. cbn. lia. Qed.

Lemma weigh_delete h m i x : m !! i = Some x -> weigh h (delete i m) = weigh h m - share h (g x).
Proof. intros Hi. unfold weigh. rewrite (map_sum_delete _ m i x Hi). lia. Qed.

Definition weighty m : Prop := map_Forall (fun _ x => 0 <= (g x).2) m.

Lemma weigh_nonneg h m : weighty m -> 0 <= weigh h m.
Proof. intros Hm. apply map_sum_nonneg. intros i x Hx. apply share_bounds, (Hm i x Hx). Qed.

Lemma weigh_ge h m i x : weighty m -> m !! i = Some x -> share h (g x) <= weigh h m.
Proof.
  intros Hm Hi. enough (0 <= weigh h (delete i m)) by (rewrite (weigh_delete h m i x Hi) in *; lia).
  apply weigh_nonneg. by apply map_Forall_delete.
Qed.

Lemma weigh_covers m i x : weighty m -> m !! i = Some x -> 0 <= (g x).2 <= weigh None m /\ (g x).2 <= weigh (Some (g x).1) m.
Proof.
  intros Hm Hi. assert (0 <= (g x).2) by exact (Hm i x Hi). pose proof (weigh_ge None m i x Hm Hi) as Hn. pose proof (weigh_ge (Some (g x).1) m i x Hm Hi) as Hs.
  cbn [share] in Hn, Hs. rewrite String.eqb_refl in Hs. lia.
Qed.
End weigh.

Definition unspent (r : reservation) : Z := if r_transferred r then 0 else r_accounted r.
Definition of_receipt (r : reservation) : string * Z := (r_hotkey r, unspent r).
Definition of_work (k : work) : string * Z := (k_hotkey k, k_bytes k).

(** The four counters and the totals by hotkey are those of the maps they describe. *)
Record owes (p : payloads) (U : gmap string reservation) (P I R : gmap Z work) : Prop := Owes {
  owes_receipts : weighty of_receipt U;
  owes_works : weighty of_work P /\ weighty of_work I /\ weighty of_work R;
  owes_upload : upload_bytes p = weigh of_receipt None U;
  owes_pending : pending_bytes p = weigh of_work None P;
  owes_inflight : inflight_bytes p = weigh of_work None I;
  owes_retained : retained_bytes p = weigh of_work None R;
  owes_hotkey h : held_by h p =
    weigh of_receipt (Some h) U + weigh of_work (Some h) P + weigh of_work (Some h) I + weigh of_work (Some h) R;
}.

Lemma held_by_hold h hotkey n p : held_by h (hold hotkey n p) = held_by h p + share (Some h) (hotkey, n).
Proof.
  unfold held_by, hold. cbn [by_hotkey share fst snd]. destruct (String.eqb_spec hotkey h) as [->|Hne].
  - by rewrite lookup_insert_eq.
  - rewrite lookup_insert_ne by done. lia.
Qed.

Lemma held_by_release h hotkey n p : n <= held_by hotkey p -> held_by h (release hotkey n p) = held_by h p - share (Some h) (hotkey, n).
Proof.
  intros Hn. unfold release. rewrite Z.max_r by lia. unfold held_by at 1. cbn [by_hotkey share fst snd].
  destruct (String.eqb_spec hotkey h) as [->|Hne]; destruct (Z.eqb_spec (held_by hotkey p - n) 0) as [E|E] || destruct (Z.eqb_spec (held_by h p - n) 0) as [E|E];
    rewrite ?lookup_delete_eq, ?lookup_insert_eq, ?lookup_delete_ne, ?lookup_insert_ne by done; cbn; try lia.
  all: fold (held_by h p); unfold held_by; lia.
Qed.

(** What one map holds for a hotkey is part of what is held for it. *)
Section owes_ge.
Context {p U P I R} (Ho : owes p U P I R).

Lemma owes_nonneg : 0 <= upload_bytes p /\ 0 <= pending_bytes p /\ 0 <= inflight_bytes p /\ 0 <= retained_bytes p.
Proof.
  destruct Ho as [HU [HP [HI HR]] -> -> -> -> _]. repeat split; by apply weigh_nonneg.
Qed.

Lemma owes_each h : 0 <= weigh of_receipt h U /\ 0 <= weigh of_work h P /\ 0 <= weigh of_work h I /\ 0 <= weigh of_work h R.
Proof. destruct Ho as [HU [HP [HI HR]] _ _ _ _ _]. repeat split; by apply weigh_nonneg. Qed.
End owes_ge.

Lemma owes_empty : owes (Payloads 0 0 0 0 ∅) ∅ ∅ ∅ ∅.
Proof.
  split; unfold weighty; rewrite ?weigh_empty; done.
Qed.

#[export] Hint Resolve map_Forall_delete map_Forall_insert_2 : core.

(** Rewrites the weights of an updated map, then the arithmetic of each counter. *)
Ltac weigh_up :=
  repeat match goal with
  | H : ?m !! ?i = None |- context [weigh ?g ?h (<[?i := ?x]> ?m)] => rewrite (weigh_new g h m i x H)
  | H : ?m !! ?i = Some ?y |- context [weigh ?g ?h (<[?i := ?x]> ?m)] => rewrite (weigh_set g h m i y x H)
  | H : ?m !! ?i = Some ?y |- context [weigh ?g ?h (delete ?i ?m)] => rewrite (weigh_delete g h m i y H)
  end.

(** ** Moving one entry

    The clamps at zero never bite: an entry weighs no more than its counter and no more
    than its hotkey's total. *)

Section moves.
Context {p : payloads} {U : gmap string reservation} {P I R : gmap Z work} (Ho : owes p U P I R).

Lemma owes_receipt_new id r : U !! id = None -> r_accounted r = 0 -> owes p (<[id := r]> U) P I R.
Proof.
  intros Hid Hr. assert (E : unspent r = 0) by (unfold unspent; destruct (r_transferred r); done).
  destruct Ho as [HU HW EU EP EI ER EH]. split; [|done| |done|done|done|intros h]; weigh_up.
  - apply map_Forall_insert_2; [cbn; lia|done].
  - cbn. lia.
  - rewrite EH. cbn. rewrite E. destruct (String.eqb _ _); lia.
Qed.

Lemma owes_receipt_same id r r' :
  U !! id = Some r -> r_hotkey r' = r_hotkey r -> unspent r' = unspent r -> owes p (<[id := r']> U) P I R.
Proof.
  intros Hid Eh Eu. assert (E : of_receipt r' = of_receipt r) by (unfold of_receipt; by rewrite Eh, Eu).
  destruct Ho as [HU HW EU EP EI ER EH]. split; [|done| |done|done|done|intros h]; weigh_up.
  - apply map_Forall_insert_2; [rewrite E; exact (HU id r Hid)|done].
  - rewrite E. lia.
  - rewrite EH, E. lia.
Qed.

Lemma covers_receipt id r : U !! id = Some r -> 0 <= unspent r <= upload_bytes p /\ unspent r <= held_by (r_hotkey r) p.
Proof.
  intros Hid. destruct (weigh_covers of_receipt U id r (owes_receipts _ _ _ _ _ Ho) Hid). destruct (owes_each Ho (Some (r_hotkey r))) as (?&?&?&?).
  rewrite (owes_upload _ _ _ _ _ Ho), (owes_hotkey _ _ _ _ _ Ho). cbn [of_receipt of_work fst snd] in *. lia.
Qed.

Lemma covers_pending i k : P !! i = Some k -> 0 <= k_bytes k <= pending_bytes p /\ k_bytes k <= held_by (k_hotkey k) p.
Proof.
  intros Hi. destruct (weigh_covers of_work P i k (proj1 (owes_works _ _ _ _ _ Ho)) Hi). destruct (owes_each Ho (Some (k_hotkey k))) as (?&?&?&?).
  rewrite (owes_pending _ _ _ _ _ Ho), (owes_hotkey _ _ _ _ _ Ho). cbn [of_receipt of_work fst snd] in *. lia.
Qed.

Lemma covers_inflight i k : I !! i = Some k -> 0 <= k_bytes k <= inflight_bytes p /\ k_bytes k <= held_by (k_hotkey k) p.
Proof.
  intros Hi. destruct (weigh_covers of_work I i k (proj1 (proj2 (owes_works _ _ _ _ _ Ho))) Hi). destruct (owes_each Ho (Some (k_hotkey k))) as (?&?&?&?).
  rewrite (owes_inflight _ _ _ _ _ Ho), (owes_hotkey _ _ _ _ _ Ho). cbn [of_receipt of_work fst snd] in *. lia.
Qed.

Lemma owes_receipt_gone id r : U !! id = Some r ->
  owes (if r_transferred r then p else release (r_hotkey r) (r_accounted r) (add_upload (- r_accounted r) p)) (delete id U) P I R.
Proof.
  intros Hid. destruct (covers_receipt id r Hid) as [H1 H2]. unfold unspent in H1, H2.
  destruct Ho as [HU HW EU EP EI ER EH]. destruct (r_transferred r) eqn:Et.
  - assert (E : forall h, share h (of_receipt r) = 0) by (intros [h|]; cbn; unfold unspent; rewrite Et; [by destruct (String.eqb _ _)|done]).
    split; eauto; [by apply map_Forall_delete|..]; intros; weigh_up; rewrite E; [lia|rewrite EH; lia].
  - assert (Es : of_receipt r = (r_hotkey r, r_accounted r)) by (unfold of_receipt, unspent; by rewrite Et).
    split; eauto; [by apply map_Forall_delete|..]; intros; weigh_up; rewrite Es.
    + cbn [upload_bytes add_upload release share snd]. lia.
    + rewrite held_by_release by done. change (held_by h (add_upload (- r_accounted r) p)) with (held_by h p). rewrite EH. lia.
Qed.

Lemma owes_work_drop i k : P !! i = Some k -> owes (release (k_hotkey k) (k_bytes k) (add_pending (- k_bytes k) p)) U (delete i P) I R.
Proof.
  intros Hi. destruct (covers_pending i k Hi) as [H1 H2]. destruct Ho as [HU (HP & HI & HR) EU EP EI ER EH].
  split; eauto; [repeat split; eauto; by apply map_Forall_delete|..]; intros; weigh_up.
  - cbn [pending_bytes add_pending release share of_work snd]. lia.
  - rewrite held_by_release by done. change (held_by h (add_pending (- k_bytes k) p)) with (held_by h p). rewrite EH. change (k_hotkey k, k_bytes k) with (of_work k). lia.
Qed.

Lemma owes_inflight_drop i k : I !! i = Some k -> owes (release (k_hotkey k) (k_bytes k) (add_inflight (- k_bytes k) p)) U P (delete i I) R.
Proof.
  intros Hi. destruct (covers_inflight i k Hi) as [H1 H2]. destruct Ho as [HU (HP & HI & HR) EU EP EI ER EH].
  split; eauto; [repeat split; eauto; by apply map_Forall_delete|..]; intros; weigh_up.
  - cbn [inflight_bytes add_inflight release share of_work snd]. lia.
  - rewrite held_by_release by done. change (held_by h (add_inflight (- k_bytes k) p)) with (held_by h p). rewrite EH. change (k_hotkey k, k_bytes k) with (of_work k). lia.
Qed.

Lemma owes_retain i k : I !! i = Some k -> R !! i = None ->
  owes (add_retained (k_bytes k) (add_inflight (- k_bytes k) p)) U P (delete i I) (<[i := k]> R).
Proof.
  intros Hi Hr. destruct (covers_inflight i k Hi) as [H1 H2]. destruct Ho as [HU (HP & HI & HR) EU EP EI ER EH].
  split; eauto; [repeat split; eauto; [by apply map_Forall_delete|by apply map_Forall_insert_2; [apply (HI i k Hi)|]]|..]; intros; weigh_up.
  - cbn [inflight_bytes add_retained add_inflight share of_work snd]. lia.
  - cbn [retained_bytes add_retained add_inflight share of_work snd]. lia.
  - change (held_by h (add_retained (k_bytes k) (add_inflight (- k_bytes k) p))) with (held_by h p). rewrite EH. lia.
Qed.

Lemma owes_start i k : P !! i = Some k -> I !! i = None ->
  owes (add_inflight (k_bytes k) (add_pending (- k_bytes k) p)) U (delete i P) (<[i := k]> I) R.
Proof.
  intros Hp Hi. destruct (covers_pending i k Hp) as [H1 H2]. destruct (owes_nonneg Ho) as (?&?&?&?). destruct Ho as [HU (HP & HI & HR) EU EP EI ER EH].
  split; eauto; [repeat split; eauto; [by apply map_Forall_delete|by apply map_Forall_insert_2; [apply (HP i k Hp)|]]|..]; intros; weigh_up.
  - cbn [pending_bytes add_pending add_inflight share of_work snd]. lia.
  - cbn [inflight_bytes add_pending add_inflight share of_work snd]. lia.
  - change (held_by h (add_inflight (k_bytes k) (add_pending (- k_bytes k) p))) with (held_by h p). rewrite EH. lia.
Qed.

Lemma owes_reserve i k : P !! i = None -> 0 <= k_bytes k -> owes (hold (k_hotkey k) (k_bytes k) (add_pending (k_bytes k) p)) U (<[i := k]> P) I R.
Proof.
  intros Hp Hk. destruct (owes_nonneg Ho) as (?&?&?&?). destruct Ho as [HU (HP & HI & HR) EU EP EI ER EH].
  split; eauto; [repeat split; eauto; by apply map_Forall_insert_2|..]; intros; weigh_up.
  - cbn [pending_bytes add_pending hold share of_work snd]. lia.
  - rewrite held_by_hold. change (held_by h (add_pending (k_bytes k) p)) with (held_by h p). rewrite EH. change (k_hotkey k, k_bytes k) with (of_work k). lia.
Qed.

Lemma owes_direct i k : I !! i = None -> 0 <= k_bytes k -> owes (add_inflight (k_bytes k) (hold (k_hotkey k) (k_bytes k) p)) U P (<[i := k]> I) R.
Proof.
  intros Hi Hk. destruct (owes_nonneg Ho) as (?&?&?&?). destruct Ho as [HU (HP & HI & HR) EU EP EI ER EH].
  split; eauto; [repeat split; eauto; by apply map_Forall_insert_2|..]; intros; weigh_up.
  - cbn [inflight_bytes add_inflight hold share of_work snd]. lia.
  - change (held_by h (add_inflight (k_bytes k) (hold (k_hotkey k) (k_bytes k) p))) with (held_by h (hold (k_hotkey k) (k_bytes k) p)).
    rewrite held_by_hold, EH. change (k_hotkey k, k_bytes k) with (of_work k). lia.
Qed.

Lemma owes_account id r n : U !! id = Some r -> r_transferred r = false -> 0 <= n ->
  owes (hold (r_hotkey r) n (Payloads (upload_bytes p + n) (pending_bytes p) (inflight_bytes p) (retained_bytes p) (by_hotkey p))) (<[id := account n r]> U) P I R.
Proof.
  intros Hid Ht Hn. destruct (covers_receipt id r Hid) as [H1 H2]. unfold unspent in H1, H2. rewrite Ht in H1, H2.
  assert (Es : of_receipt r = (r_hotkey r, r_accounted r)) by (unfold of_receipt, unspent; by rewrite Ht).
  assert (Ea : of_receipt (account n r) = (r_hotkey r, r_accounted r + n)) by (unfold of_receipt, unspent; cbn; by rewrite Ht).
  destruct Ho as [HU HW EU EP EI ER EH]. split; eauto; [apply map_Forall_insert_2; [rewrite Ea; cbn; lia|done]|..]; intros; weigh_up; rewrite Es, Ea.
  - cbn [upload_bytes hold share snd]. lia.
  - rewrite held_by_hold. unfold held_by at 1. cbn [by_hotkey]. fold (held_by h p). rewrite EH. cbn [share fst snd]. destruct (String.eqb _ _); lia.
Qed.

Lemma owes_transfer id r i k : U !! id = Some r -> r_transferred r = false -> of_work k = (r_hotkey r, r_accounted r) -> I !! i = None ->
  owes (add_inflight (k_bytes k) (add_upload (- r_accounted r) p)) (<[id := transfer r]> U) P (<[i := k]> I) R.
Proof.
  intros Hid Ht Hk Hi. destruct (covers_receipt id r Hid) as [H1 H2]. unfold unspent in H1, H2. rewrite Ht in H1, H2.
  destruct (owes_nonneg Ho) as (?&?&?&?).
  assert (Es : of_receipt r = (r_hotkey r, r_accounted r)) by (unfold of_receipt, unspent; by rewrite Ht).
  assert (Ez : of_receipt (transfer r) = (r_hotkey r, 0)) by done. injection Hk as Ek1 Ek2.
  destruct Ho as [HU (HP & HI & HR) EU EP EI ER EH].
  split; eauto; [apply map_Forall_insert_2; done|repeat split; eauto; apply map_Forall_insert_2; [cbn; lia|done]|..]; intros; weigh_up; rewrite ?Es, ?Ez.
  - cbn [upload_bytes add_upload add_inflight share snd]. lia.
  - cbn [inflight_bytes add_upload add_inflight share of_work snd]. lia.
  - change (held_by h (add_inflight (k_bytes k) (add_upload (- r_accounted r) p))) with (held_by h p). rewrite EH. cbn [share of_work fst snd]. rewrite Ek1, Ek2. destruct (String.eqb _ _); lia.
Qed.
End moves.

(** The retained payloads let go one by one. *)
Definition with_retained (n : Z) (p : payloads) : payloads := Payloads (upload_bytes p) (pending_bytes p) (inflight_bytes p) n (by_hotkey p).

Lemma release_with_retained hk n m p : release hk n (with_retained m p) = with_retained m (release hk n p).
Proof. done. Qed.

Lemma owes_let_go p U P I R i k : owes p U P I R -> R !! i = Some k ->
  owes (release (k_hotkey k) (k_bytes k) (with_retained (retained_bytes p - k_bytes k) p)) U P I (delete i R).
Proof.
  intros Ho Hi. destruct (owes_each Ho (Some (k_hotkey k))) as (?&?&?&?). destruct Ho as [HU (HP & HI & HR) EU EP EI ER EH].
  destruct (weigh_covers of_work R i k HR Hi) as [? Hs]. cbn [of_work fst snd] in Hs. pose proof (EH (k_hotkey k)).
  split; eauto; [repeat split; eauto; by apply map_Forall_delete|..]; intros; weigh_up.
  - cbn [retained_bytes with_retained release share of_work snd]. lia.
  - rewrite held_by_release by (change (held_by (k_hotkey k) (with_retained (retained_bytes p - k_bytes k) p)) with (held_by (k_hotkey k) p); lia).
    change (held_by h (with_retained (retained_bytes p - k_bytes k) p)) with (held_by h p). rewrite EH. change (k_hotkey k, k_bytes k) with (of_work k). lia.
Qed.

Lemma owes_let_all_go ks : forall p U P I R, owes p U P I R -> ks ≡ₚ map_to_list R ->
  owes (foldl (fun p ik => release (k_hotkey ik.2) (k_bytes ik.2) p) (with_retained 0 p) ks) U P I ∅.
Proof.
  induction ks as [|[i k] ks IH]; intros p U P I R Ho Hks; cbn [foldl].
  - symmetry in Hks. apply Permutation_nil_r, map_to_list_empty_iff in Hks as ->. pose proof Ho as [HU HW EU EP EI ER EH].
    split; done.
  - assert (Hi : R !! i = Some k) by (apply elem_of_map_to_list; rewrite <- Hks; set_solver).
    pose proof (owes_let_go _ _ _ _ _ _ _ Ho Hi) as Hgo. apply (IH _ _ _ _ (delete i R)) in Hgo.
    + exact Hgo.
    + apply (Permutation_cons_inv (a := (i, k))). by rewrite Hks, map_to_list_delete.
Qed.

(** What is held is bounded. *)
Definition within (c : config) (p : payloads) : Prop := reserved_bytes p <= max_env_bytes c /\ forall h, held_by h p <= max_hotkey_bytes c.

Lemma payload_admitted c hk n p : payload_refusal c hk n p = None ->
  n <= max_payload c /\ reserved_bytes p + n <= max_env_bytes c /\ held_by hk p + n <= max_hotkey_bytes c.
Proof.
  unfold payload_refusal. destruct (Z.ltb_spec (max_payload c) n); [done|]. destruct (Z.ltb_spec (max_env_bytes c) (reserved_bytes p + n)); [done|].
  destruct (Z.ltb_spec (max_hotkey_bytes c) (held_by hk p + n)); [done|]. done.
Qed.

Lemma held_by_hold_le c hk n p : 0 <= n -> (forall h, held_by h p <= max_hotkey_bytes c) -> held_by hk p + n <= max_hotkey_bytes c ->
  forall h, held_by h (hold hk n p) <= max_hotkey_bytes c.
Proof.
  intros Hn Hp Hk h. rewrite held_by_hold. cbn. specialize (Hp h). destruct (String.eqb_spec hk h) as [->|]; lia.
Qed.

Lemma held_by_release_le c hk n p : 0 <= n -> n <= held_by hk p -> (forall h, held_by h p <= max_hotkey_bytes c) -> 
  forall h, held_by h (release hk n p) <= max_hotkey_bytes c.
Proof.
  intros Hn Hk Hp h. rewrite held_by_release by done. specialize (Hp h). cbn. destruct (String.eqb _ _); lia.
Qed.

(** * The invariant *)

Definition receipt_ok (r : reservation) : Prop := 0 <= r_accounted r <= r_payload_bytes r /\ (r_transferred r = true -> r_accounted r = r_payload_bytes r /\ r_revealed r = true).

(** A digest lock has one owner among the open receipts. *)
Definition locks_ok (m : gmap string reservation) (ds : gset string) : Prop :=
  (forall id r, m !! id = Some r -> r_digest r <> ""%string -> r_digest r ∈ ds)
  /\ (forall id id' r r', m !! id = Some r -> m !! id' = Some r' -> r_digest r = r_digest r' -> r_digest r <> ""%string -> id = id').

Record uploads_ok (u : uploads) : Prop := UploadsOk {
  ok_count : accepted u = terminal u + expired_n u + Z.of_nat (size (precommits u));
  ok_receipts : map_Forall (fun _ r => receipt_ok r) (precommits u);
  ok_locks : locks_ok (precommits u) (digests u);
  ok_numbers : 0 <= terminal u /\ 0 <= expired_n u;
}.

Definition posts (m : gmap Z work) : Z := map_sum (fun _ k => Z.b2z (k_post k)) m.

Record proofs_ok (c : config) (s : proofs) : Prop := ProofsOk {
  ok_within : within c (pay s);
  ok_apart i : is_Some (pending s !! i) -> inflight s !! i = None /\ retained s !! i = None;
  ok_apart' i : is_Some (inflight s !! i) -> retained s !! i = None;
  ok_charged : Z.of_nat (size (inflight s)) <= charged s <= attempts s;
  ok_starts : Z.of_nat (size (pending s)) <= max_productive_candidates c /\ attempts s + Z.of_nat (size (pending s)) <= max_grading_starts c + max_productive_candidates c;
  ok_post : pending_post s = posts (pending s);
}.

Record window_ok (c : config) (w : window) : Prop := WindowOk {
  ok_owes : owes (pay (pr w)) (precommits (up w)) (pending (pr w)) (inflight (pr w)) (retained (pr w));
  ok_up : uploads_ok (up w);
  ok_pr : proofs_ok c (pr w);
}.

(** ** Ending receipts *)

Definition paid_back (r : reservation) (p : payloads) : payloads :=
  if r_transferred r then p else release (r_hotkey r) (r_accounted r) (add_upload (- r_accounted r) p).
Definition unlocked (expired : bool) (r : reservation) (ds : gset string) : gset string :=
  if expired && negb (r_revealed r) && negb (String.eqb (r_digest r) "") then ds ∖ {[r_digest r]} else ds.

Lemma finish_upload_up expired r w : up (finish_upload expired r w) =
  Uploads (precommits (up w)) (unlocked expired r (digests (up w))) (accepted (up w)) (expired_n (up w) + Z.b2z expired)
    (terminal (up w) + Z.b2z (negb expired)) (revealed_n (up w)) (peak (up w)) (rejections (up w)).
Proof. unfold finish_upload, unlocked. destruct (r_transferred r), expired; cbn; try destruct (_ && _); f_equal; lia. Qed.

Lemma finish_upload_pr expired r w : pr (finish_upload expired r w) = set_pay (paid_back r (pay (pr w))) (pr w).
Proof. unfold finish_upload, paid_back. destruct (r_transferred r), expired; cbn; try done; by destruct w as [? []]. Qed.

(** Two windows that differ in their receipts and payloads only. *)
Definition same_course (w w' : window) : Prop :=
  sealed w' = sealed w /\ eligible_at w' = eligible_at w /\ trigger_round w' = trigger_round w /\ attrs w' = attrs w /\ claims w' = claims w
  /\ pending (pr w') = pending (pr w) /\ inflight (pr w') = inflight (pr w) /\ snapshot_started (pr w') = snapshot_started (pr w)
  /\ charged (pr w') = charged (pr w).

#[export] Instance same_course_preorder : PreOrder same_course.
Proof. split; [done|]. intros w1 w2 w3. unfold same_course. naive_solver congruence. Qed.

Lemma end_receipt_course expired id w : same_course w (end_receipt expired id w).
Proof.
  unfold end_receipt. destruct (_ !! id) as [r|]; [|done]. unfold same_course, finish_upload. destruct (r_transferred r), expired; cbn; done.
Qed.

Lemma set_pay_ok c p s : within c p -> proofs_ok c s -> proofs_ok c (set_pay p s).
Proof. intros Hp [Hw Ha Ha' Hc Hs Hq]. by split. Qed.

Lemma locks_gone m ds id r expired : locks_ok m ds -> m !! id = Some r -> locks_ok (delete id m) (unlocked expired r ds).
Proof.
  intros [Hin Hone] Hid. split.
  - intros i ri [Hne Hi]%lookup_delete_Some Hd. unfold unlocked. destruct (_ && _) eqn:E; [|eauto].
    apply elem_of_difference. split; [eauto|]. intros Hs%elem_of_singleton. apply Hne. symmetry. by apply (Hone i id ri r).
  - intros i j ri rj [_ Hi]%lookup_delete_Some [_ Hj]%lookup_delete_Some. by apply Hone.
Qed.

Lemma locks_set m ds id r r' : locks_ok m ds -> m !! id = Some r -> r_digest r' = r_digest r -> locks_ok (<[id := r']> m) ds.
Proof.
  intros [Hin Hone] Hid E. split.
  - intros i ri [[<- <-]|[Hne Hi]]%lookup_insert_Some; [|eauto]. rewrite E. eauto.
  - intros i j ri rj [[<- <-]|[Hne Hi]]%lookup_insert_Some [[<- <-]|[Hnj Hj]]%lookup_insert_Some; rewrite ?E; eauto.
Qed.

Section ok.
Context {c : config}.

Lemma within_paid p U P I R id r : owes p U P I R -> U !! id = Some r -> receipt_ok r -> within c p -> within c (paid_back r p).
Proof.
  intros Ho Hid Hr [He Hh]. destruct (covers_receipt Ho id r Hid) as [H1 H2]. unfold paid_back, unspent in *.
  destruct (r_transferred r); [done|]. split.
  - unfold reserved_bytes in *. cbn. lia.
  - apply held_by_release_le; [lia|done|done].
Qed.

Lemma end_receipt_ok expired id w : window_ok c w -> window_ok c (end_receipt expired id w).
Proof.
  intros [Ho [Hn Hr Hl Hz] Hp]. unfold end_receipt. destruct (precommits (up w) !! id) as [r|] eqn:Hid; [|by split].
  split; rewrite ?finish_upload_up, ?finish_upload_pr; cbn [up pr set_up set_precommits precommits pay set_pay pending inflight retained].
  - apply (owes_receipt_gone Ho id r Hid).
  - split; cbn [accepted terminal expired_n precommits digests].
    + rewrite map_size_delete_Some by done. pose proof (map_size_ne_0_lookup_2 (precommits (up w)) id ltac:(eauto)).
      destruct expired; cbn; lia.
    + by apply map_Forall_delete.
    + by apply locks_gone.
    + destruct expired; cbn; lia.
  - apply set_pay_ok; [|done]. eapply within_paid; eauto using ok_within.
Qed.

Lemma end_receipts_ok expired ids w : window_ok c w -> window_ok c (foldl (fun w id => end_receipt expired id w) w ids).
Proof. revert w. induction ids as [|id ids IH]; intros w Hw; [done|]. apply IH, end_receipt_ok, Hw. Qed.

Lemma end_receipts_course expired ids w : same_course w (foldl (fun w id => end_receipt expired id w) w ids).
Proof. revert w. induction ids as [|id ids IH]; intros w; [done|]. cbn. etrans; [apply end_receipt_course|apply IH]. Qed.

Lemma prune_ok now w : window_ok c w -> window_ok c (prune now w).
Proof. apply end_receipts_ok. Qed.

Lemma prune_course now w : same_course w (prune now w).
Proof. apply end_receipts_course. Qed.

(** Rewriting a receipt in a way that spends nothing. *)
Lemma set_receipt_ok id r r' w : window_ok c w -> precommits (up w) !! id = Some r ->
  r_hotkey r' = r_hotkey r -> unspent r' = unspent r -> r_digest r' = r_digest r -> receipt_ok r' -> window_ok c (set_receipt id r' w).
Proof.
  intros [Ho [Hn Hr Hl Hz] Hp] Hid E1 E2 E3 Hr'. split; cbn; [by eapply owes_receipt_same| |done].
  split; cbn; [by rewrite map_size_insert_Some|by apply map_Forall_insert_2|by eapply locks_set|done].
Qed.
End ok.

(** ** Upload receipts keep the invariant *)

Section uploads_ok.
Context {c : config}.
Implicit Types (w : window).

(** A change of the counters the invariant does not read. *)
Lemma set_up_ok u w : window_ok c w -> precommits u = precommits (up w) -> digests u = digests (up w) -> accepted u = accepted (up w) ->
  expired_n u = expired_n (up w) -> terminal u = terminal (up w) -> window_ok c (set_up u w).
Proof. intros [Ho [Hn Hr Hl Hz] Hp] E1 E2 E3 E4 E5. split; cbn; rewrite ?E1; [done| |done]. split; rewrite ?E1, ?E2, ?E3, ?E4, ?E5; done. Qed.

Lemma reject_upload_ok reason w : window_ok c w -> window_ok c (reject_upload reason w).
Proof. intros Hw. by apply set_up_ok. Qed.

Lemma burn_ok d w : window_ok c w -> window_ok c (burn d w).
Proof.
  intros [Ho [Hn Hr [Hin Hone] Hz] Hp]. split; [done| |done]. split; cbn; [done|done| |done]. split; [|done].
  intros i r Hi Hd. apply elem_of_union_r. eauto.
Qed.

Lemma file_receipt_ok id r w : window_ok c w -> precommits (up w) !! id = None -> r_accounted r = 0 -> r_transferred r = false -> 0 <= r_payload_bytes r ->
  (r_digest r <> ""%string -> r_digest r ∈ digests (up w) /\ forall i ri, precommits (up w) !! i = Some ri -> r_digest ri <> r_digest r) ->
  window_ok c (file_receipt id r w).
Proof.
  intros [Ho [Hn Hr [Hin Hone] Hz] Hp] Hid Ha Ht Hb Hd. split; cbn; [by apply owes_receipt_new| |done].
  split; cbn; [rewrite map_size_insert_None by done; lia|apply map_Forall_insert_2; [unfold receipt_ok; rewrite Ha, Ht; split; [lia|done]|done]| |done]. split.
  - intros i ri [[<- <-]|[Hne Hi]]%lookup_insert_Some Hs; [by apply Hd|eauto].
  - intros i j ri rj [[<- <-]|[Hne Hi]]%lookup_insert_Some [[<- <-]|[Hnj Hj]]%lookup_insert_Some E Hs; eauto.
    + destruct (Hd Hs) as [_ Hx]. by destruct (Hx j rj Hj).
    + rewrite E in Hs. destruct (Hd Hs) as [_ Hx]. by destruct (Hx i ri Hi).
Qed.

Lemma pruned_absent now id w : precommits (up w) !! id = None -> precommits (up (prune now w)) !! id = None.
Proof.
  unfold prune. generalize (receipts_where (is_expired now) w) as ids. intros ids. revert w. induction ids as [|j ids IH]; intros w Hid; [done|].
  apply IH. unfold end_receipt. destruct (precommits (up w) !! j) as [r|]; [|done]. rewrite finish_upload_up. cbn.
  by rewrite lookup_delete_None; right.
Qed.

(** The receipt registered, if any, is filed once its digest has been locked. *)
Lemma try_register_ok id hk arrival bytes digest now closed w :
  window_ok c w -> precommits (up w) !! id = None -> 0 <= bytes -> window_ok c (try_register c id hk arrival bytes digest now closed w).2.
Proof.
  intros Hw Hid Hb. unfold try_register. destruct (negb _); [done|]. destruct (_ <? _); [done|]. destruct (_ <? _); [done|]. destruct closed; [done|].
  pose proof (prune_ok now w Hw) as Hp. apply (pruned_absent now) in Hid. revert Hp Hid. generalize (prune now w) as v. intros v Hv Hid.
  destruct (_ || _); [done|]. destruct (early_close_refusing c v); [done|].
  destruct (operator_for c hk) as [op|]; [|by apply reject_upload_ok].
  destruct (keeps_digest c digest) eqn:Hk; cbn [andb]; [destruct (bool_decide (digest ∈ digests (up v))) eqn:Hin; [by apply reject_upload_ok|]|].
  - apply bool_decide_eq_false in Hin. destruct (_ <=? _); [by apply reject_upload_ok, burn_ok|]. destruct (_ <=? _); [by apply reject_upload_ok, burn_ok|].
    apply file_receipt_ok; [by apply burn_ok|done|done|done|done|]. cbn. intros Hs. split; [set_solver|]. intros i ri Hi E. apply Hin. rewrite <- E.
    destruct (ok_locks _ (ok_up _ _ Hv)) as [Hl _]. apply (Hl i ri Hi). by rewrite E.
  - destruct (_ <=? _); [by apply reject_upload_ok|]. destruct (_ <=? _); [by apply reject_upload_ok|]. by apply file_receipt_ok.
Qed.

Lemma receipt_at id r w : window_ok c w -> precommits (up w) !! id = Some r -> receipt_ok r.
Proof. intros Hw. apply (ok_receipts _ (ok_up _ _ Hw)). Qed.

Lemma account_bytes_ok id arrival n w : window_ok c w -> window_ok c (account_bytes c id arrival n w).2.
Proof.
  intros Hw. unfold account_bytes. destruct (Z.leb_spec n 0) as [|Hn]; [done|]. destruct (precommits (up w) !! id) as [r0|] eqn:Hid; [|done].
  destruct (_ && _); [done|]. pose proof (receipt_at id r0 w Hw Hid) as Hr0.
  set (r := match r_started r0 with None => start_receipt arrival r0 | Some _ => r0 end).
  assert (Hr : receipt_ok r) by (unfold r; by destruct (r_started r0)).
  assert (Hs : window_ok c (set_receipt id r w)) by (unfold r; destruct (r_started r0); eapply set_receipt_ok; eauto; by destruct Hr0).
  assert (Hi : precommits (up (set_receipt id r w)) !! id = Some r) by apply lookup_insert_eq.
  revert Hs Hi Hr. generalize (set_receipt id r w) as v. generalize r. clear - Hn. intros r v Hv Hid [Hr Ht].
  destruct (Z.ltb_spec (r_payload_bytes r) (r_accounted r + n)) as [|Hle]; [done|].
  destruct (payload_refusal c (r_hotkey r) n (pay (pr v))) as [reason|] eqn:Hpr; [done|]. apply payload_admitted in Hpr as (_ & He & Hh).
  assert (Hut : r_transferred r = false) by (destruct (r_transferred r); [destruct (Ht eq_refl); lia|done]).
  destruct Hv as [Ho [Hnum Hrs Hl Hz] Hp]. split; cbn; [eapply owes_account; eauto; lia| |].
  - split; cbn; [by rewrite map_size_insert_Some|apply map_Forall_insert_2; [|done]; unfold receipt_ok; cbn; rewrite Hut; split; [lia|done]|by eapply locks_set|done].
  - apply set_pay_ok; [|done]. destruct (ok_within _ _ Hp) as [_ Hall]. split; [unfold reserved_bytes in *; cbn; lia|].
    by apply (held_by_hold_le c (r_hotkey r) n (Payloads (upload_bytes (pay (pr v)) + n) _ _ _ _)); [lia| |].
Qed.

Lemma mark_complete_ok id t w : window_ok c w -> window_ok c (mark_complete id t w).2.
Proof.
  intros Hw. unfold mark_complete. destruct (precommits (up w) !! id) as [r|] eqn:Hid; [|done]. destruct (negb _); [done|].
  eapply set_receipt_ok; eauto. exact (receipt_at id r w Hw Hid).
Qed.

Lemma mark_revealed_ok id w : window_ok c w -> window_ok c (mark_revealed id w).2.
Proof.
  intros Hw. unfold mark_revealed. destruct (precommits (up w) !! id) as [r|] eqn:Hid; [|done]. destruct (r_revealed r); [done|].
  pose proof (receipt_at id r w Hw Hid) as [Hr Ht]. 
  assert (Hs : window_ok c (set_receipt id (reveal r) w)) by (eapply set_receipt_ok; eauto; split; [done|intros E; cbn in *; split; [by apply Ht|done]]).
  exact (set_up_ok (Uploads (<[id := reveal r]> (precommits (up w))) (digests (up w)) (accepted (up w)) (expired_n (up w)) (terminal (up w)) (revealed_n (up w) + 1) (peak (up w)) (rejections (up w))) _ Hs eq_refl eq_refl eq_refl eq_refl eq_refl).
Qed.

Lemma resolve_upload_ok id expired w : window_ok c w -> window_ok c (resolve_upload id expired w).2.
Proof. apply end_receipt_ok. Qed.
End uploads_ok.

(** ** Grading work keeps the invariant *)

Section proofs_ok.
Context {c : config}.
Implicit Types (w : window) (s : proofs).

Lemma capacity_admitted used s : capacity_refusal c used s = None -> used < max_productive_candidates c /\ attempts s < max_grading_starts c.
Proof. unfold capacity_refusal. destruct (Z.leb_spec (max_productive_candidates c) used), (Z.leb_spec (max_grading_starts c) (attempts s)); done. Qed.

Lemma not_reserved id s : is_reserved id s = false -> pending s !! id = None /\ inflight s !! id = None /\ retained s !! id = None.
Proof.
  unfold is_reserved. rewrite !orb_false_iff, !bool_decide_eq_false. intros [[H1 H2] H3]. rewrite !eq_None_not_Some. done.
Qed.

Lemma posts_drop m id k : m !! id = Some k -> posts (delete id m) = posts m - Z.b2z (k_post k).
Proof. intros Hk. unfold posts. rewrite (map_sum_delete _ m id k Hk). lia. Qed.

Lemma posts_ge m id k : m !! id = Some k -> Z.b2z (k_post k) <= posts m.
Proof.
  intros Hk. pose proof (posts_drop m id k Hk). assert (0 <= posts (delete id m)); [|lia].
  apply map_sum_nonneg. intros i x _. destruct (k_post x); cbn; lia.
Qed.

Lemma unreserve_ok id k s : proofs_ok c s -> pending s !! id = Some k -> 0 <= k_bytes k <= pending_bytes (pay s) ->
  proofs_ok c (unreserve id k s) /\ inflight s !! id = None /\ retained s !! id = None
  /\ attempts s + 1 + Z.of_nat (size (pending (unreserve id k s))) <= max_grading_starts c + max_productive_candidates c.
Proof.
  intros [[He Hh] Ha Ha' Hc [Hs1 Hs2] Hq] Hk Hb. destruct (Ha id ltac:(eauto)) as [Hi Hr].
  pose proof (map_size_ne_0_lookup_2 (pending s) id ltac:(eauto)).
  assert (Hsz : Z.of_nat (size (delete id (pending s))) = Z.of_nat (size (pending s)) - 1) by (rewrite map_size_delete_Some by eauto; lia).
  split; [|cbn; rewrite Hsz; repeat split; [done|done|lia]]. split; cbn; try done.
  - split; [unfold reserved_bytes in *; cbn; lia|done].
  - intros i [x [_ Hx]%lookup_delete_Some]. eauto.
  - rewrite Hsz. lia.
  - rewrite (posts_drop _ _ _ Hk). pose proof (posts_ge _ _ _ Hk). destruct (k_post k); cbn in *; lia.
Qed.

Lemma start_work_ok id k s : proofs_ok c s -> within c (add_inflight (k_bytes k) (pay s)) ->
  pending s !! id = None -> inflight s !! id = None -> retained s !! id = None ->
  attempts s + 1 + Z.of_nat (size (pending s)) <= max_grading_starts c + max_productive_candidates c -> proofs_ok c (start_work id k s).
Proof.
  intros [Hw Ha Ha' Hc [Hs1 Hs2] Hq] Hw' Hp Hi Hr Hcap. split; cbn; try done; try lia.
  - intros i Hx. rewrite lookup_insert_ne; [by apply Ha|]. intros <-. rewrite Hp in Hx. by destruct Hx.
  - intros i [x [[<- <-]|[_ Hx]]%lookup_insert_Some]; [done|]. eauto.
  - rewrite map_size_insert_None by done. lia.
Qed.

(** Work leaving one counter for another stays within the limits. *)
Lemma within_shift p p' : within c p -> reserved_bytes p' = reserved_bytes p -> by_hotkey p' = by_hotkey p -> within c p'.
Proof. intros [He Hh] E1 E2. split; [by rewrite E1|]. intros h. unfold held_by. rewrite E2. apply Hh. Qed.

Lemma within_release k n p : within c p -> 0 <= n <= held_by k p -> forall p', reserved_bytes p' <= reserved_bytes p -> by_hotkey p' = by_hotkey p -> within c (release k n p').
Proof.
  intros [He Hh] Hn p' E1 E2. assert (Hb : forall h, held_by h p' = held_by h p) by (intros h; unfold held_by; by rewrite E2). split.
  - change (reserved_bytes (release k n p')) with (reserved_bytes p'). lia.
  - apply held_by_release_le; [lia|rewrite Hb; lia|]. intros h. rewrite Hb. done.
Qed.

Lemma set_attrs_ok id a w : window_ok c w -> window_ok c (set_attrs id a w).
Proof. intros [Ho Hu Hp]. by split. Qed.

Lemma submission_bytes_ok q w : window_ok c w -> window_ok c (submission_bytes q w).2.
Proof. intros Hw. unfold submission_bytes. destruct (_ <=? 0); [by apply set_attrs_ok|done]. Qed.

Lemma submission_bytes_nonneg q w : 0 <= q_json_bytes q -> 0 <= (submission_bytes q w).1.
Proof. intros Hq. unfold submission_bytes. destruct (Z.leb_spec (a_payload (attrs_of (q_id q) w)) 0); cbn; lia. Qed.

Lemma submission_bytes_pr q w : pr (submission_bytes q w).2 = pr w /\ up (submission_bytes q w).2 = up w.
Proof. unfold submission_bytes. by destruct (_ <=? 0). Qed.

Lemma start_revealed_ok id q closed w : window_ok c w -> window_ok c (start_revealed c id q closed w).2.
Proof.
  intros Hw. unfold start_revealed. destruct closed; [done|]. destruct (precommits (up w) !! id) as [r|] eqn:Hid; [|done].
  destruct (r_transferred r) eqn:Ht; [done|]. destruct (r_revealed r) eqn:Hrev; cbn [negb]; [|done]. destruct (bool_decide _); [done|].
  destruct (Z.eqb_spec (r_accounted r) (r_payload_bytes r)) as [Ea|]; cbn [negb]; [|done].
  destruct (String.eqb_spec (r_hotkey r) (q_hotkey q)) as [Eh|]; cbn [negb]; [|done].
  destruct (snapshot_started (pr w)); [done|]. destruct (debt_refusal _ _ _); [done|].
  destruct (capacity_refusal _ _ _) eqn:Hcap; [done|]. apply capacity_admitted in Hcap as [Hc1 Hc2].
  destruct (is_reserved _ _) eqn:Hres; [done|]. apply not_reserved in Hres as (Hp & Hi & Hr).
  pose proof (receipt_at id r w Hw Hid) as Hrok. destruct Hw as [Ho [Hn Hrs Hl Hz] Hpr]. 
  destruct (covers_receipt Ho id r Hid) as [Hcov _]. unfold unspent in Hcov. rewrite Ht in Hcov.
  destruct (owes_nonneg Ho) as (?&?&?&?). pose proof (ok_charged _ _ Hpr). destruct (ok_starts _ _ Hpr).
  split; cbn [snd].
  - apply (owes_transfer Ho id r); [done|done|unfold of_work; cbn; by rewrite Eh|done].
  - split; cbn; [by rewrite map_size_insert_Some|apply map_Forall_insert_2; [|done]; destruct Hrok; by split|by eapply locks_set|done].
  - apply start_work_ok; cbn; try done.
    + destruct (ok_within _ _ Hpr) as [He Hh]. apply set_pay_ok; [|done]. split; [unfold reserved_bytes in *; cbn; lia|done].
    + eapply within_shift; [exact (ok_within _ _ Hpr)| |done]. unfold reserved_bytes. cbn. lia.
    + unfold productive_used in Hc1. lia.
Qed.

Lemma try_reserve_locked_ok q w : window_ok c w -> 0 <= q_json_bytes q -> window_ok c (try_reserve_locked c q w).2.
Proof.
  intros Hw Hq. unfold try_reserve_locked. pose proof (submission_bytes_ok q w Hw) as Hv. pose proof (submission_bytes_nonneg q w Hq) as Hn.
  destruct (submission_bytes q w) as [n v]. cbn [fst snd] in *. clear w Hw. apply (set_attrs_ok (q_id q) (Attributes (a_payload (attrs_of (q_id q) v)) false (a_refundable (attrs_of (q_id q) v)) (a_claim (attrs_of (q_id q) v)))) in Hv.
  fold (set_retain (q_id q) false v) in Hv. revert Hv. generalize (set_retain (q_id q) false v) as w. intros w Hw.
  destruct (is_reserved _ _) eqn:Hres; [done|]. apply not_reserved in Hres as (Hp & Hi & Hr).
  destruct (debt_refusal _ _ _); [done|]. destruct (capacity_refusal _ _ _) eqn:Hcap; [done|]. apply capacity_admitted in Hcap as [Hc1 Hc2].
  destruct (payload_refusal _ _ _ _) eqn:Hpay; [done|]. apply payload_admitted in Hpay as (_ & He & Hh). destruct (_ && _); [done|].
  destruct Hw as [Ho Hu [[He0 Hh0] Ha Ha' Hc [Hs1 Hs2] Hqq]]. destruct (owes_nonneg Ho) as (?&?&?&?).
  split; cbn [snd]; [by apply (owes_reserve Ho (q_id q) (Work q (q_hotkey q) (bool_decide (trigger_round w = Some (q_round q))) n))|done|]. split; cbn.
  - split; [unfold reserved_bytes in *; cbn; lia|]. by apply (held_by_hold_le c (q_hotkey q) n (add_pending n (pay (pr w)))).
  - intros i [x [[<- <-]|[_ Hx]]%lookup_insert_Some]; [done|]. eauto.
  - done.
  - done.
  - rewrite map_size_insert_None by done. lia.
  - rewrite Hqq. unfold posts. rewrite map_sum_insert_new by done. cbn. lia.
Qed.

Lemma try_reserve_ok q now closed w : window_ok c w -> 0 <= q_json_bytes q -> window_ok c (try_reserve c q now closed w).2.
Proof. intros Hw Hq. unfold try_reserve. destruct closed; [done|]. by apply try_reserve_locked_ok, Hq; apply prune_ok. Qed.

(** Dropping pending work gives back what it held. *)
Lemma drop_pending_ok id k w : window_ok c w -> pending (pr w) !! id = Some k -> window_ok c (set_pr (drop_bytes k (unreserve id k (pr w))) w).
Proof.
  intros [Ho Hu Hp] Hk. destruct (covers_pending Ho id k Hk) as [Hc1 Hc2]. destruct (unreserve_ok id k _ Hp Hk Hc1) as (Hp' & _).
  split; [apply (owes_work_drop Ho id k Hk)|done|]. apply set_pay_ok; [|done].
  eapply within_release; [exact (ok_within _ _ Hp)|split; [lia|done]| |done]. unfold reserved_bytes. cbn. lia.
Qed.

Lemma cancel_proof_ok id w : window_ok c w -> window_ok c (cancel_proof id w).2.
Proof. intros Hw. unfold cancel_proof. destruct (_ !! id) as [k|] eqn:Hk; [by apply drop_pending_ok|done]. Qed.

Lemma start_pending_ok id k w : window_ok c w -> pending (pr w) !! id = Some k -> window_ok c (start_taken c id k (set_pr (unreserve id k (pr w)) w)).2.
Proof.
  intros Hw Hk. unfold start_taken. cbn [pr set_pr up]. destruct (debt_refusal _ _ _); [by apply (drop_pending_ok id k w)|].
  destruct Hw as [Ho Hu Hp]. destruct (covers_pending Ho id k Hk) as [Hc1 Hc2]. destruct (unreserve_ok id k _ Hp Hk Hc1) as (Hp' & Hi & Hr & Hcap).
  destruct (owes_nonneg Ho) as (?&?&?&?).
  split; [by apply (owes_start Ho id k)|done|]. apply start_work_ok; [done| |apply lookup_delete_eq|done|done|done].
  eapply within_shift; [exact (ok_within _ _ Hp)| |done]. unfold reserved_bytes. cbn. lia.
Qed.

(** Work injected without a reservation. *)
Lemma start_direct_ok id k w : window_ok c w -> is_reserved id (pr w) = false -> 0 <= k_bytes k -> attempts (pr w) < max_grading_starts c ->
  payload_refusal c (k_hotkey k) (k_bytes k) (pay (pr w)) = None ->
  window_ok c (start_taken c id k (set_pr (set_pay (hold (k_hotkey k) (k_bytes k) (pay (pr w))) (pr w)) w)).2.
Proof.
  intros Hw (Hp & Hi & Hr)%not_reserved Hn Hatt (_ & He & Hh)%payload_admitted. unfold start_taken. cbn [pr set_pr up]. destruct Hw as [Ho Hu Hpr].
  destruct (owes_nonneg Ho) as (?&?&?&?). pose proof (ok_starts _ _ Hpr) as [Hs1 Hs2]. pose proof (ok_within _ _ Hpr) as [He0 Hh0].
  assert (Hin : within c (hold (k_hotkey k) (k_bytes k) (pay (pr w)))) by (split; [unfold reserved_bytes in *; cbn; lia|by apply held_by_hold_le]).
  destruct (debt_refusal _ _ _).
  - assert (E : forall h, held_by h (release (k_hotkey k) (k_bytes k) (hold (k_hotkey k) (k_bytes k) (pay (pr w)))) = held_by h (pay (pr w))).
    { intros h. pose proof (owes_hotkey _ _ _ _ _ Ho (k_hotkey k)). destruct (owes_each Ho (Some (k_hotkey k))) as (?&?&?&?).
      rewrite held_by_release, held_by_hold; [lia|]. rewrite held_by_hold. cbn [share fst snd]. rewrite String.eqb_refl. lia. }
    split; cbn [snd]; [|done|].
    + destruct Ho as [HU HW EU EP EI ER EH]. split; try done. intros h. cbn [pr set_pr drop_bytes set_pay pay]. rewrite E. apply EH.
    + apply set_pay_ok; [|by apply set_pay_ok]. split; [done|]. intros h. cbn [pay set_pay]. rewrite E. apply Hh0.
  - split; [by apply (owes_direct Ho id k)|done|]. apply start_work_ok; cbn [pending inflight retained attempts set_pay pay]; try done; try lia; [by apply set_pay_ok|].
    split; [unfold reserved_bytes in *; cbn; lia|]. by apply held_by_hold_le.
Qed.

(** A request is injected once: the start of work that is already running is not repeated. *)
Definition startable (id : Z) (s : proofs) : bool := bool_decide (is_Some (pending s !! id)) || negb (is_reserved id s).

Lemma start_proof_ok q closed w : window_ok c w -> 0 <= q_json_bytes q -> startable (q_id q) (pr w) = true -> window_ok c (start_proof c q closed w).2.
Proof.
  intros Hw Hq Hs. unfold start_proof. destruct closed; [by apply cancel_proof_ok|]. destruct (pending (pr w) !! q_id q) as [k|] eqn:Hk.
  - cbn [pr set_pr unreserve snapshot_started]. destruct (snapshot_started (pr w)); [by apply (drop_pending_ok _ _ w)|by apply start_pending_ok].
  - assert (Hres : is_reserved (q_id q) (pr w) = false).
    { unfold startable in Hs. apply orb_true_iff in Hs as [Hs|Hs]; [|by apply negb_true_iff in Hs].
      apply bool_decide_eq_true in Hs. rewrite Hk in Hs. by destruct Hs. }
    destruct (snapshot_started _); [done|]. destruct (capacity_refusal _ _ _) eqn:Hcap; [done|]. apply capacity_admitted in Hcap as [_ Hatt].
    pose proof (submission_bytes_ok q w Hw) as Hv. pose proof (submission_bytes_nonneg q w Hq) as Hn. destruct (submission_bytes_pr q w) as [Ep _].
    destruct (submission_bytes q w) as [n v]. cbn [fst snd] in *. destruct (payload_refusal _ _ _ _) eqn:Hpay; [done|]. rewrite <- Ep in Hres, Hatt.
    by apply (start_direct_ok (q_id q) (Work q (q_hotkey q) false n) v).
Qed.

Lemma finish_proof_ok id w : window_ok c w -> window_ok c (finish_proof id w).
Proof.
  intros [Ho Hu Hp]. unfold finish_proof. destruct (inflight (pr w) !! id) as [k|] eqn:Hk; [|by split].
  destruct (covers_inflight Ho id k Hk) as [Hc1 Hc2]. pose proof (ok_apart' _ _ Hp id ltac:(eauto)) as Hr.
  pose proof (map_size_ne_0_lookup_2 (inflight (pr w)) id ltac:(eauto)).
  assert (Hsz : Z.of_nat (size (delete id (inflight (pr w)))) = Z.of_nat (size (inflight (pr w))) - 1) by (rewrite map_size_delete_Some by eauto; lia).
  destruct Hp as [Hw Ha Ha' Hc Hs Hq].
  assert (Hch : Z.of_nat (size (delete id (inflight (pr w)))) <= (if a_refundable (attrs_of id w) then Z.max 0 (charged (pr w) - 1) else charged (pr w)) <= attempts (pr w)).
  { rewrite Hsz. destruct (a_refundable _); lia. }
  destruct (_ && _).
  - split; [by apply (owes_retain Ho id k)|done|]. split; cbn; try done.
    + eapply within_shift; [exact Hw| |done]. unfold reserved_bytes. cbn. lia.
    + intros i Hi. destruct (Ha i Hi) as [H1 H2]. split; [by apply lookup_delete_None; right|].
      rewrite lookup_insert_ne; [done|]. intros <-. by rewrite Hk in H1.
    + intros i [x [Hne Hx]%lookup_delete_Some]. rewrite lookup_insert_ne by done. eauto.
  - split; [by apply (owes_inflight_drop Ho id k)|done|]. split; cbn; try done.
    + eapply within_release; [exact Hw|split; [lia|done]| |done]. unfold reserved_bytes. cbn. lia.
    + intros i Hi. destruct (Ha i Hi) as [H1 H2]. split; [by apply lookup_delete_None; right|done].
    + intros i [x [Hne Hx]%lookup_delete_Some]. eauto.
Qed.

Lemma set_retains_parts (ks : list (Z * work)) w :
  up (foldl (fun w ik => set_retain ik.1 false w) w ks) = up w /\ pr (foldl (fun w ik => set_retain ik.1 false w) w ks) = pr w.
Proof. revert w. induction ks as [|ik ks IH]; intros w; [done|]. cbn. destruct (IH (set_retain ik.1 false w)) as [-> ->]. done. Qed.

Lemma release_retained_pr w : up (release_retained w) = up w /\ pr (release_retained w) =
  Proofs (foldl (fun p ik => release (k_hotkey ik.2) (k_bytes ik.2) p) (with_retained 0 (pay (pr w))) (map_to_list (retained (pr w))))
    (pending (pr w)) (inflight (pr w)) ∅ (attempts (pr w)) (charged (pr w)) (post_count (pr w)) (pending_post (pr w)) (failures_hotkey (pr w)) (failures_operator (pr w)) (snapshot_started (pr w)) true.
Proof. unfold release_retained. by destruct (set_retains_parts (map_to_list (retained (pr w))) (set_pr (Proofs (foldl (fun p ik => release (k_hotkey ik.2) (k_bytes ik.2) p) (with_retained 0 (pay (pr w))) (map_to_list (retained (pr w))))
    (pending (pr w)) (inflight (pr w)) ∅ (attempts (pr w)) (charged (pr w)) (post_count (pr w)) (pending_post (pr w)) (failures_hotkey (pr w)) (failures_operator (pr w)) (snapshot_started (pr w)) true) w)) as [? ?]. Qed.

(** The totals by hotkey after letting everything go are sums of shares, so no larger. *)
Lemma owes_within p p' U P I R R' : owes p U P I R -> owes p' U P I R' -> (forall h, weigh of_work h R' <= weigh of_work h R) -> within c p -> within c p'.
Proof.
  intros [_ _ EU EP EI ER EH] [_ _ EU' EP' EI' ER' EH'] Hle [He Hh]. split.
  - unfold reserved_bytes in *. specialize (Hle None). lia.
  - intros h. specialize (Hh h). specialize (Hle (Some h)). rewrite EH in Hh. rewrite EH'. lia.
Qed.

Lemma release_retained_ok w : window_ok c w -> window_ok c (release_retained w).
Proof.
  intros [Ho Hu [Hw Ha Ha' Hc Hs Hq]]. destruct (release_retained_pr w) as [Eu Ep].
  pose proof (owes_let_all_go _ _ _ _ _ _ Ho (reflexivity (map_to_list (retained (pr w))))) as Hgo.
  split; rewrite ?Eu, ?Ep; [exact Hgo|done|]. split; cbn; try done.
  - eapply owes_within; [exact Ho|exact Hgo| |done]. intros h. rewrite weigh_empty. by destruct (owes_each Ho h) as (_ & _ & _ & ?).
  - intros i Hi. split; [by apply Ha|done].
Qed.

Lemma hotkey_failed_ok hk crash w : window_ok c w -> window_ok c (hotkey_failed c hk crash w).
Proof. intros [Ho Hu [Hw Ha Ha' Hc Hs Hq]]. by split. Qed.

Lemma operator_failed_ok hk w : window_ok c w -> window_ok c (operator_failed c hk w).
Proof. intros [Ho Hu [Hw Ha Ha' Hc Hs Hq]]. unfold operator_failed. destruct (operator_for c hk); by split. Qed.

Lemma begin_seal_ok w : window_ok c w -> window_ok c (begin_seal_snapshot w).
Proof. intros [Ho Hu [Hw Ha Ha' Hc Hs Hq]]. by split. Qed.

Lemma set_sealed_ok w : window_ok c w -> window_ok c (set_sealed w).
Proof. intros [Ho Hu Hp]. by split. Qed.

Lemma poll_early_close_ok now g w : window_ok c w -> window_ok c (poll_early_close c now g w).2.
Proof.
  intros Hw. unfold poll_early_close. destruct (negb _); [done|]. pose proof (prune_ok now w Hw) as Hp. revert Hp. generalize (prune now w). intros v Hv.
  destruct (negb _); [done|]. destruct (_ || _); [done|]. assert (He : window_ok c (set_eligible now v)) by (destruct Hv; by split).
  destruct (early_close_enforced c); [by apply set_sealed_ok|done].
Qed.

Lemma poll_deadline_ok now g w : window_ok c w -> window_ok c (poll_deadline c now g w).2.
Proof.
  intros Hw. unfold poll_deadline. destruct (sealed w); [done|]. destruct (negb (difficulty_auction_enabled c)); [done|].
  assert (Hv : window_ok c (if fsub now (window_opened_at c) <? collection_seconds c then poll_early_close c now g w else (false, w)).2) by (destruct (_ <? _); [by apply poll_early_close_ok|done]).
  destruct (if _ <? _ then _ else _) as [early v]. cbn [snd] in Hv. destruct early; [done|]. destruct (_ <=? _); [|done].
  assert (Hx : window_ok c (foldl (fun w id => end_receipt true id w) (prune now v) (receipts_where is_inactive (prune now v)))) by apply end_receipts_ok, prune_ok, Hv.
  cbn zeta. destruct (_ && _); [exact Hx|apply set_sealed_ok, Hx].
Qed.

Lemma set_claims_ok m n w : window_ok c w -> window_ok c (Window (up w) (pr w) (sealed w) (eligible_at w) (trigger_round w) m n (attrs w)).
Proof. intros [Ho Hu Hp]. by split. Qed.

Lemma try_claim_ok q w : window_ok c w -> window_ok c (try_claim c q w).2.
Proof.
  intros Hw. unfold try_claim. destruct (operator_for c _); [|done]. destruct (claims w !! _); [destruct (_ && _); [done|by apply set_claims_ok]|].
  by apply set_attrs_ok, set_claims_ok.
Qed.

Lemma cancel_claim_ok id w : window_ok c w -> window_ok c (cancel_claim id w).2.
Proof. intros Hw. unfold cancel_claim. destruct (a_claim _); [|done]. destruct (bool_decide _); [by apply set_attrs_ok, set_claims_ok|done]. Qed.
End proofs_ok.

(** * A window's life

    The events of one window, in the order their locks are taken.  A receipt's identifier
    is new, sizes are not negative, and work is started once. *)

Inductive event :=
  | Register (id hotkey : string) (arrival : float) (bytes : Z) (digest : string) (now : float) (closed : bool)
  | Account (id : string) (arrival : float) (n : Z)
  | Complete (id : string) (t : float)
  | Reveal (id : string)
  | Resolve (id : string) (expired : bool)
  | StartRevealed (id : string) (q : request) (closed : bool)
  | Reserve (q : request) (now : float) (closed : bool)
  | CancelWork (id : Z)
  | StartWork (q : request) (closed : bool)
  | Finish (id : Z)
  | Retain (id : Z) (b : bool)
  | Refundable (id : Z)
  | ReleaseRetained
  | HotkeyFailed (hotkey : string) (code_crash : bool)
  | OperatorFailed (hotkey : string)
  | BeginSeal
  | Claim (q : request)
  | CancelClaim (id : Z)
  | ConfirmClaim (id : Z)
  | Poll (now : float) (g : pool)
  | ForceSeal
  | Report (now : float).

Section life.
Context (c : config).

Definition do (e : event) (w : window) : window :=
  match e with
  | Register id hk arrival bytes digest now closed => (try_register c id hk arrival bytes digest now closed w).2
  | Account id arrival n => (account_bytes c id arrival n w).2
  | Complete id t => (mark_complete id t w).2
  | Reveal id => (mark_revealed id w).2
  | Resolve id expired => (resolve_upload id expired w).2
  | StartRevealed id q closed => (start_revealed c id q closed w).2
  | Reserve q now closed => (try_reserve c q now closed w).2
  | CancelWork id => (cancel_proof id w).2
  | StartWork q closed => (start_proof c q closed w).2
  | Finish id => finish_proof id w
  | Retain id b => set_retain id b w
  | Refundable id => set_refundable id w
  | ReleaseRetained => release_retained w
  | HotkeyFailed hk crash => hotkey_failed c hk crash w
  | OperatorFailed hk => operator_failed c hk w
  | BeginSeal => begin_seal_snapshot w
  | Claim q => (try_claim c q w).2
  | CancelClaim id => (cancel_claim id w).2
  | ConfirmClaim id => confirm_claim id w
  | Poll now g => (poll_deadline c now g w).2
  | ForceSeal => force_seal w
  | Report now => (conservation_report c now w).2
  end.

Definition allowed (e : event) (w : window) : bool :=
  match e with
  | Register id _ _ bytes _ _ _ => bool_decide (precommits (up w) !! id = None) && (0 <=? bytes)
  | Reserve q _ _ => 0 <=? q_json_bytes q
  | StartWork q _ => (0 <=? q_json_bytes q) && startable (q_id q) (pr w)
  | _ => true
  end.

Fixpoint run (es : list event) (w : window) : option window :=
  match es with
  | [] => Some w
  | e :: es => if allowed e w then run es (do e w) else None
  end.

(** A window opens empty. *)
Definition opened (trigger : option Z) : window :=
  Window (up empty_window) (pr empty_window) false None trigger ∅ 0 ∅.

Lemma run_ind (Q : window -> Prop) (G : event -> window -> Prop) es w w' :
  (forall e v, Q v -> allowed e v = true -> G e v -> Q (do e v)) -> (forall e v, e ∈ es -> G e v) -> Q w -> run es w = Some w' -> Q w'.
Proof.
  intros Hstep. revert w. induction es as [|e es IH]; intros w Hg Hw Hr; cbn in Hr; [by simplify_eq|].
  destruct (allowed e w) eqn:Ha; [|done]. apply IH in Hr; [done|intros; apply Hg; set_solver|]. apply Hstep; [done|done|apply Hg; set_solver].
Qed.

Lemma do_ok e w : window_ok c w -> allowed e w = true -> window_ok c (do e w).
Proof.
  intros Hw Ha. destruct e; cbn [do]; cbn [allowed] in Ha.
  - split_andb Ha. apply bool_decide_eq_true in Ha. by apply try_register_ok; [| |apply Z.leb_le].
  - by apply account_bytes_ok.
  - by apply mark_complete_ok.
  - by apply mark_revealed_ok.
  - by apply resolve_upload_ok.
  - by apply start_revealed_ok.
  - apply try_reserve_ok; [done|by apply Z.leb_le].
  - by apply cancel_proof_ok.
  - split_andb Ha. apply start_proof_ok; [done|by apply Z.leb_le|done].
  - by apply finish_proof_ok.
  - by apply set_attrs_ok.
  - by apply set_attrs_ok.
  - by apply release_retained_ok.
  - by apply hotkey_failed_ok.
  - by apply operator_failed_ok.
  - by apply begin_seal_ok.
  - by apply try_claim_ok.
  - by apply cancel_claim_ok.
  - by apply set_attrs_ok.
  - by apply poll_deadline_ok.
  - by apply set_sealed_ok.
  - by apply prune_ok.
Qed.

Definition limits_ok : Prop := 0 <= max_env_bytes c /\ 0 <= max_hotkey_bytes c /\ 1 <= max_productive_candidates c <= max_grading_starts c.

Lemma opened_ok trigger : limits_ok -> window_ok c (opened trigger).
Proof.
  intros (H1 & H2 & H3). split; cbn.
  - apply owes_empty.
  - by split.
  - split; cbn; rewrite ?map_size_empty; try done; lia.
Qed.

Lemma run_ok trigger es w : limits_ok -> run es (opened trigger) = Some w -> window_ok c w.
Proof.
  intros Hl. apply (run_ind (window_ok c) (fun _ _ => True)); [|done|by apply opened_ok]. intros e v Hv Ha _. by apply do_ok.
Qed.
End life.

(** * What the ledger promises *)

Section promises.
Context (c : config).

(** ** Production windows

    Work is reserved before it is started: the direct injection of work is a path kept for
    compatibility, which the reservations do not count. *)

Definition reserved_first (e : event) (w : window) : bool :=
  match e with StartWork q closed => closed || bool_decide (is_Some (pending (pr w) !! q_id q)) | _ => true end.

Fixpoint production (es : list event) (w : window) : bool :=
  match es with [] => true | e :: es => reserved_first e w && production es (do c e w) end.

Definition productive_ok (s : proofs) : Prop :=
  productive_used s <= max_productive_candidates c /\ attempts s + Z.of_nat (size (pending s)) < max_grading_starts c + max_productive_candidates c.

(** What the two ceilings read. *)
Definition load (w : window) : nat * Z * Z := (size (pending (pr w)), charged (pr w), attempts (pr w)).

Lemma load_ok w w' : load w' = load w -> productive_ok (pr w) -> productive_ok (pr w').
Proof. unfold load, productive_ok, productive_used. intros [= -> -> ->]. done. Qed.

Lemma end_receipts_load expired ids w : load (foldl (fun w id => end_receipt expired id w) w ids) = load w.
Proof.
  revert w. induction ids as [|id ids IH]; intros w; [done|]. cbn. rewrite IH. unfold end_receipt. destruct (_ !! id) as [r|]; [|done].
  unfold load. by rewrite !finish_upload_pr.
Qed.

Lemma prune_load now w : load (prune now w) = load w.
Proof. apply end_receipts_load. Qed.

Lemma try_register_load id hk arrival bytes digest now closed w : load (try_register c id hk arrival bytes digest now closed w).2 = load w.
Proof.
  unfold try_register. destruct (negb _); [done|]. destruct (_ <? _); [done|]. destruct (_ <? _); [done|]. destruct closed; [done|].
  rewrite <- (prune_load now w). generalize (prune now w) as v. intros v. cbn zeta. repeat case_match; done.
Qed.

Lemma account_bytes_load id arrival n w : load (account_bytes c id arrival n w).2 = load w.
Proof. unfold account_bytes. cbn zeta. repeat case_match; done. Qed.

Lemma poll_early_close_load now g w : load (poll_early_close c now g w).2 = load w.
Proof.
  unfold poll_early_close. destruct (negb _); [done|]. rewrite <- (prune_load now w). generalize (prune now w) as v. intros v. cbn zeta.
  repeat case_match; done.
Qed.

Lemma poll_load now g w : load (poll_deadline c now g w).2 = load w.
Proof.
  unfold poll_deadline. destruct (sealed w); [done|]. destruct (negb (difficulty_auction_enabled c)); [done|].
  assert (Hv : load (if fsub now (window_opened_at c) <? collection_seconds c then poll_early_close c now g w else (false, w)).2 = load w) by (destruct (_ <? _); [apply poll_early_close_load|done]).
  destruct (if _ <? _ then _ else _) as [early v]. cbn [snd] in Hv. destruct early; [done|]. destruct (_ <=? _); [|done]. rewrite <- Hv, <- (prune_load now v).
  cbn zeta. destruct (_ && _); cbn [snd]; [apply end_receipts_load|].
  rewrite <- (end_receipts_load true (receipts_where is_inactive (prune now v)) (prune now v)). done.
Qed.

Lemma mark_complete_load id t w : load (mark_complete id t w).2 = load w.
Proof. unfold mark_complete. repeat case_match; done. Qed.

Lemma mark_revealed_load id w : load (mark_revealed id w).2 = load w.
Proof. unfold mark_revealed. repeat case_match; done. Qed.

(** One start, against the free capacity. *)
Lemma start_work_productive id k s : inflight s !! id = None -> productive_used s < max_productive_candidates c -> attempts s < max_grading_starts c -> 0 <= charged s ->
  productive_ok (start_work id k s).
Proof. intros Hi H1 H2 H3. unfold productive_ok, productive_used in *. cbn. lia. Qed.

Lemma start_revealed_productive id q closed w : window_ok c w -> productive_ok (pr w) -> productive_ok (pr (start_revealed c id q closed w).2).
Proof.
  intros Hw Hp. pose proof (ok_charged _ _ (ok_pr _ _ Hw)) as Hch. unfold start_revealed. cbn zeta.
  repeat (case_match; [done|] || (case_match; try done; [])); try done. cbn [snd].
  match goal with H : capacity_refusal _ _ _ = None |- _ => apply capacity_admitted in H as [? ?] end.
  match goal with H : is_reserved _ _ = false |- _ => apply not_reserved in H as (? & ? & ?) end.
  apply start_work_productive; cbn; try done. lia.
Qed.

Lemma try_reserve_productive q now closed w : window_ok c w -> productive_ok (pr w) -> productive_ok (pr (try_reserve c q now closed w).2).
Proof.
  intros Hw Hp. unfold try_reserve. destruct closed; [done|]. apply (prune_ok now) in Hw. apply (load_ok w (prune now w)) in Hp; [|by rewrite prune_load].
  revert Hw Hp. generalize (prune now w) as v. intros v Hv Hp. unfold try_reserve_locked. destruct (submission_bytes_pr q v) as [Ep _].
  destruct (submission_bytes q v) as [n u]. cbn [snd] in Ep. pose proof (ok_charged _ _ (ok_pr _ _ Hv)) as Hch. rewrite <- Ep in Hp, Hch. clear Ep Hv v.
  cbn zeta. change (pr (set_retain (q_id q) false u)) with (pr u).
  destruct (is_reserved _ _) eqn:Hres; [done|]. apply not_reserved in Hres as (H1 & H2 & H3).
  destruct (debt_refusal _ _ _); [done|]. destruct (capacity_refusal _ _ _) eqn:Hcap; [done|]. apply capacity_admitted in Hcap as [Hc1 Hc2].
  destruct (payload_refusal _ _ _ _); [done|]. destruct (_ && _); [done|].
  unfold productive_ok, productive_used in *. cbn. rewrite map_size_insert_None by done. lia.
Qed.

Lemma unreserve_productive id k s : pending s !! id = Some k -> productive_ok s ->
  productive_used (unreserve id k s) < max_productive_candidates c /\ attempts s + 1 + Z.of_nat (size (pending (unreserve id k s))) < max_grading_starts c + max_productive_candidates c.
Proof.
  intros Hk. unfold productive_ok, productive_used. cbn. rewrite map_size_delete_Some by eauto. pose proof (map_size_ne_0_lookup_2 (pending s) id ltac:(eauto)). lia.
Qed.

Lemma cancel_proof_productive id w : productive_ok (pr w) -> productive_ok (pr (cancel_proof id w).2).
Proof.
  intros Hp. unfold cancel_proof. destruct (_ !! id) as [k|] eqn:Hk; [|done]. destruct (unreserve_productive _ _ _ Hk Hp) as [H1 H2].
  unfold productive_ok, productive_used in *. cbn in *. lia.
Qed.

Lemma start_proof_productive q closed w : productive_ok (pr w) -> reserved_first (StartWork q closed) w = true -> productive_ok (pr (start_proof c q closed w).2).
Proof.
  intros Hp Hf. unfold start_proof. destruct closed; [by apply cancel_proof_productive|]. apply bool_decide_eq_true in Hf as [k Hk].
  rewrite Hk. destruct (unreserve_productive _ _ _ Hk Hp) as [H1 H2]. unfold start_taken. cbn zeta.
  destruct (snapshot_started _); [|destruct (debt_refusal _ _ _)]; unfold productive_ok, productive_used in *; cbn in *; lia.
Qed.

Lemma finish_proof_productive id w : productive_ok (pr w) -> 0 <= charged (pr w) -> productive_ok (pr (finish_proof id w)).
Proof.
  intros Hp Hc. unfold finish_proof. destruct (_ !! id) as [k|]; [|done]. unfold productive_ok, productive_used in *. cbn.
  destruct (a_refundable _); lia.
Qed.

Lemma do_productive e w : window_ok c w -> reserved_first e w = true -> productive_ok (pr w) -> productive_ok (pr (do c e w)).
Proof.
  intros Hw Hf Hp. pose proof (ok_charged _ _ (ok_pr _ _ Hw)) as Hch. destruct e; cbn [do].
  - eapply load_ok; [apply try_register_load|done].
  - eapply load_ok; [apply account_bytes_load|done].
  - eapply load_ok; [apply mark_complete_load|done].
  - eapply load_ok; [apply mark_revealed_load|done].
  - eapply load_ok; [apply (end_receipts_load expired [id])|done].
  - by apply start_revealed_productive.
  - by apply try_reserve_productive.
  - by apply cancel_proof_productive.
  - by apply start_proof_productive.
  - apply finish_proof_productive; [done|lia].
  - done.
  - done.
  - destruct (release_retained_pr w) as [_ ->]. done.
  - done.
  - unfold operator_failed. by destruct (operator_for c hotkey).
  - done.
  - unfold try_claim. repeat case_match; done.
  - unfold cancel_claim. repeat case_match; done.
  - done.
  - eapply load_ok; [apply poll_load|done].
  - done.
  - eapply load_ok; [apply prune_load|done].
Qed.

Lemma run_productive es w w' : window_ok c w -> production es w = true -> productive_ok (pr w) -> run c es w = Some w' -> productive_ok (pr w').
Proof.
  revert w. induction es as [|e es IH]; intros w Hw Hprod Hp Hr; cbn in *; [by simplify_eq|].
  destruct (allowed e w) eqn:Ha; [|done]. apply andb_true_iff in Hprod as [Hf Hprod].
  apply (IH (do c e w)); [by apply do_ok|done|by apply do_productive|done].
Qed.
End promises.

(** ** Shut doors *)

Section doors.
Context (c : config).

(** Whether new receipts are refused, whether the seal froze its pool; what was accepted and started. *)
Definition doors (w : window) : bool * bool * Z * Z := (sealed w, snapshot_started (pr w), accepted (up w), attempts (pr w)).

Lemma end_receipts_doors expired ids w : doors (foldl (fun w id => end_receipt expired id w) w ids) = doors w.
Proof.
  revert w. induction ids as [|id ids IH]; intros w; [done|]. cbn. rewrite IH. unfold end_receipt. destruct (_ !! id) as [r|]; [|done].
  unfold doors. rewrite finish_upload_pr, finish_upload_up. unfold finish_upload. cbn. by destruct (r_transferred r), expired.
Qed.

Lemma prune_doors now w : doors (prune now w) = doors w.
Proof. apply end_receipts_doors. Qed.

(** A step that opens nothing: doors once shut stay shut, and nothing passes them. *)
Definition keeps_shut (w w' : window) : Prop :=
  (sealed w = true -> sealed w' = true)
  /\ (snapshot_started (pr w) = true -> snapshot_started (pr w') = true /\ attempts (pr w') = attempts (pr w))
  /\ (sealed w || snapshot_started (pr w) = true -> accepted (up w') = accepted (up w)).

Lemma doors_keep w w' : doors w' = doors w -> keeps_shut w w'.
Proof. unfold doors, keeps_shut. intros [= -> -> -> ->]. done. Qed.

Lemma keeps_shut_trans w1 w2 w3 : keeps_shut w1 w2 -> keeps_shut w2 w3 -> keeps_shut w1 w3.
Proof.
  unfold keeps_shut. intros (A1 & A2 & A3) (B1 & B2 & B3). split; [auto|]. split.
  - intros H. destruct (A2 H) as [H1 H2]. destruct (B2 H1) as [H3 H4]. split; [done|]. by rewrite H4, H2.
  - intros H. rewrite B3, A3; [done|done|]. apply orb_true_iff in H as [H|H]; apply orb_true_iff; [left; auto|right; by apply A2].
Qed.

Lemma prune_keeps now w w' : keeps_shut (prune now w) w' -> keeps_shut w w'.
Proof. apply keeps_shut_trans, doors_keep, prune_doors. Qed.

Lemma seal_keeps w : keeps_shut w (set_sealed w).
Proof. unfold keeps_shut. cbn. auto. Qed.

Lemma try_register_keeps id hk arrival bytes digest now closed w : keeps_shut w (try_register c id hk arrival bytes digest now closed w).2.
Proof.
  unfold try_register. destruct (negb _); [by apply doors_keep|]. destruct (_ <? _); [by apply doors_keep|]. destruct (_ <? _); [by apply doors_keep|].
  destruct closed; [by apply doors_keep|]. apply (prune_keeps now). generalize (prune now w) as v. intros v. cbn zeta.
  destruct (sealed v || snapshot_started (pr v)) eqn:Hs; [by apply doors_keep|]. apply orb_false_iff in Hs as [H1 H2].
  assert (Hk : forall u, keeps_shut v u) by (intros u; unfold keeps_shut; rewrite H1, H2; done). repeat case_match; apply Hk.
Qed.

Lemma account_keeps id arrival n w : keeps_shut w (account_bytes c id arrival n w).2.
Proof. apply doors_keep. unfold account_bytes. cbn zeta. repeat case_match; done. Qed.

Lemma start_revealed_keeps id q closed w : keeps_shut w (start_revealed c id q closed w).2.
Proof.
  unfold start_revealed. cbn zeta. repeat (case_match; try (by apply doors_keep)). unfold keeps_shut. cbn. split; [done|]. split; [|done]. congruence.
Qed.

Lemma try_reserve_keeps q now closed w : keeps_shut w (try_reserve c q now closed w).2.
Proof.
  unfold try_reserve. destruct closed; [by apply doors_keep|]. apply (prune_keeps now). apply doors_keep. generalize (prune now w) as v. intros v.
  unfold try_reserve_locked, submission_bytes. cbn zeta. repeat case_match; simplify_eq; done.
Qed.

Lemma start_proof_keeps q closed w : keeps_shut w (start_proof c q closed w).2.
Proof.
  unfold start_proof, start_taken, cancel_proof. destruct closed; [apply doors_keep; by destruct (_ !! _)|].
  destruct (pending (pr w) !! q_id q) as [k|].
  - cbn zeta. cbn [pr set_pr unreserve snapshot_started]. destruct (snapshot_started (pr w)) eqn:E; [by apply doors_keep|].
    unfold keeps_shut. rewrite E. destruct (debt_refusal _ _ _); done.
  - destruct (snapshot_started (pr w)) eqn:E; [by apply doors_keep|]. unfold submission_bytes. cbn zeta. unfold keeps_shut. rewrite E. repeat case_match; simplify_eq; done.
Qed.

Lemma poll_early_close_keeps now g w : keeps_shut w (poll_early_close c now g w).2.
Proof.
  unfold poll_early_close. destruct (negb _); [by apply doors_keep|]. apply (prune_keeps now). generalize (prune now w) as v. intros v. cbn zeta.
  repeat case_match; try (by apply doors_keep). unfold keeps_shut. cbn. auto.
Qed.

Lemma poll_keeps now g w : keeps_shut w (poll_deadline c now g w).2.
Proof.
  unfold poll_deadline. destruct (sealed w); [by apply doors_keep|]. destruct (negb (difficulty_auction_enabled c)); [by apply doors_keep|].
  assert (Hv : keeps_shut w (if fsub now (window_opened_at c) <? collection_seconds c then poll_early_close c now g w else (false, w)).2) by (destruct (_ <? _); [apply poll_early_close_keeps|by apply doors_keep]).
  destruct (if _ <? _ then _ else _) as [early v]. cbn [snd] in Hv. destruct early; [done|]. destruct (_ <=? _); [|done]. eapply keeps_shut_trans; [exact Hv|]. apply (prune_keeps now).
  cbn zeta. destruct (_ && _); cbn [snd]; [apply doors_keep, end_receipts_doors|]. eapply keeps_shut_trans; [apply doors_keep, end_receipts_doors|apply seal_keeps].
Qed.

Lemma set_retains_doors (ks : list (Z * work)) w : doors (foldl (fun w ik => set_retain ik.1 false w) w ks) = doors w.
Proof. revert w. induction ks as [|ik ks IH]; intros w; [done|]. cbn. rewrite IH. done. Qed.

Lemma do_keeps e w : keeps_shut w (do c e w).
Proof.
  destruct e; cbn [do]; try (by apply doors_keep).
  - apply try_register_keeps.
  - apply account_keeps.
  - apply doors_keep. unfold mark_complete. repeat case_match; done.
  - apply doors_keep. unfold mark_revealed. repeat case_match; done.
  - apply doors_keep, (end_receipts_doors expired [id]).
  - apply start_revealed_keeps.
  - apply try_reserve_keeps.
  - apply doors_keep. unfold cancel_proof. by destruct (_ !! id).
  - apply start_proof_keeps.
  - apply doors_keep. unfold finish_proof. by destruct (_ !! id).
  - apply doors_keep. unfold release_retained. cbn zeta. by rewrite set_retains_doors.
  - apply doors_keep. unfold operator_failed. by destruct (operator_for c hotkey).
  - unfold keeps_shut. cbn. repeat split; try done. 
  - apply doors_keep. unfold try_claim. repeat case_match; done.
  - apply doors_keep. unfold cancel_claim. repeat case_match; done.
  - apply poll_keeps.
  - apply seal_keeps.
  - apply doors_keep, prune_doors.
Qed.

Lemma run_keeps es w w' : run c es w = Some w' -> keeps_shut w w'.
Proof.
  revert w. induction es as [|e es IH]; intros w Hr; cbn in Hr; [simplify_eq; by apply doors_keep|].
  destruct (allowed e w); [|done]. eapply keeps_shut_trans; [apply do_keeps|by apply IH].
Qed.
End doors.

(** ** Claims *)

Section claims.
Context (c : config).

Definition same_claims (w w' : window) : Prop := claims w' = claims w /\ forall id, a_claim (attrs_of id w') = a_claim (attrs_of id w).

#[local] Instance same_claims_preorder : PreOrder same_claims.
Proof. split; [done|]. intros w1 w2 w3 [E1 F1] [E2 F2]. split; [congruence|]. intros id. by rewrite F2. Qed.

Lemma same_attrs w w' : claims w' = claims w -> attrs w' = attrs w -> same_claims w w'.
Proof. intros E1 E2. split; [done|]. intros id. unfold attrs_of. by rewrite E2. Qed.

Lemma set_attrs_claims id a w : a_claim a = a_claim (attrs_of id w) -> same_claims w (set_attrs id a w).
Proof.
  intros E. split; [done|]. intros j. unfold attrs_of at 1. cbn [attrs set_attrs]. destruct (decide (j = id)) as [->|Hne].
  - by rewrite lookup_insert_eq.
  - by rewrite lookup_insert_ne.
Qed.

Lemma course_claims w w' : same_course w w' -> same_claims w w'.
Proof. intros (_ & _ & _ & E1 & E2 & _). by apply same_attrs. Qed.

Lemma prune_claims now w w' : same_claims (prune now w) w' -> same_claims w w'.
Proof. intros H. etrans; [apply course_claims, prune_course|exact H]. Qed.

Lemma set_retain_claims id b w : same_claims w (set_retain id b w).
Proof. by apply set_attrs_claims. Qed.

Lemma submission_bytes_claims q w : same_claims w (submission_bytes q w).2.
Proof. unfold submission_bytes. destruct (_ <=? 0); [by apply set_attrs_claims|done]. Qed.

Lemma try_register_claims id hk arrival bytes digest now closed w : same_claims w (try_register c id hk arrival bytes digest now closed w).2.
Proof.
  unfold try_register. destruct (negb _); [done|]. destruct (_ <? _); [done|]. destruct (_ <? _); [done|].
  destruct closed; [done|]. apply (prune_claims now). generalize (prune now w) as v. intros v. cbn zeta. repeat case_match; done.
Qed.

Lemma account_claims id arrival n w : same_claims w (account_bytes c id arrival n w).2.
Proof. unfold account_bytes. cbn zeta. repeat case_match; done. Qed.

Lemma start_revealed_claims id q closed w : same_claims w (start_revealed c id q closed w).2.
Proof.
  unfold start_revealed. cbn zeta. repeat (case_match; [done|] || (case_match; try done; [])); try done.
  cbn [snd]. etrans; [by apply (set_attrs_claims (q_id q) (Attributes (r_payload_bytes r) false (a_refundable (attrs_of (q_id q) w)) (a_claim (attrs_of (q_id q) w))))|done].
Qed.

Lemma try_reserve_claims q now closed w : same_claims w (try_reserve c q now closed w).2.
Proof.
  unfold try_reserve. destruct closed; [done|]. apply (prune_claims now). generalize (prune now w) as v. intros v.
  unfold try_reserve_locked. pose proof (submission_bytes_claims q v) as Hs. destruct (submission_bytes q v) as [n u]. cbn [snd] in Hs. etrans; [exact Hs|].
  etrans; [apply (set_retain_claims (q_id q) false)|]. generalize (set_retain (q_id q) false u) as w'. intros w'. cbn zeta. repeat case_match; done.
Qed.

Lemma start_proof_claims q closed w : same_claims w (start_proof c q closed w).2.
Proof.
  unfold start_proof, start_taken, cancel_proof. destruct closed; [by destruct (_ !! _)|].
  destruct (pending (pr w) !! q_id q) as [k|]; [cbn zeta; repeat case_match; done|].
  pose proof (submission_bytes_claims q w) as Hs. destruct (submission_bytes q w) as [n u]. cbn [snd] in Hs. destruct (snapshot_started _); [done|].
  destruct (capacity_refusal _ _ _); [done|]. etrans; [exact Hs|]. repeat case_match; done.
Qed.

Lemma set_retains_claims (ks : list (Z * work)) w : same_claims w (foldl (fun w ik => set_retain ik.1 false w) w ks).
Proof. revert w. induction ks as [|ik ks IH]; intros w; [done|]. cbn. etrans; [apply (set_retain_claims ik.1 false)|apply IH]. Qed.

Lemma release_retained_claims w : same_claims w (release_retained w).
Proof. unfold release_retained. cbn zeta. etrans; [|apply set_retains_claims]. done. Qed.

Lemma poll_early_close_claims now g w : same_claims w (poll_early_close c now g w).2.
Proof.
  unfold poll_early_close. destruct (negb _); [done|]. apply (prune_claims now). generalize (prune now w) as v. intros v. cbn zeta. repeat case_match; done.
Qed.

Lemma poll_claims now g w : same_claims w (poll_deadline c now g w).2.
Proof.
  unfold poll_deadline. destruct (sealed w); [done|]. destruct (negb (difficulty_auction_enabled c)); [done|].
  assert (Hv : same_claims w (if fsub now (window_opened_at c) <? collection_seconds c then poll_early_close c now g w else (false, w)).2) by (destruct (_ <? _); [apply poll_early_close_claims|done]).
  destruct (if _ <? _ then _ else _) as [early v]. cbn [snd] in Hv. destruct early; [done|]. destruct (_ <=? _); [|done]. etrans; [exact Hv|]. apply (prune_claims now).
  cbn zeta. pose proof (course_claims _ _ (end_receipts_course true (receipts_where is_inactive (prune now v)) (prune now v))) as Hx.
  destruct (_ && _); [exact Hx|]. etrans; [exact Hx|done].
Qed.

(** What is not a claim, a cancellation or a confirmation leaves the claims alone. *)
Definition about_claims (e : event) : bool := match e with Claim _ | CancelClaim _ | ConfirmClaim _ => true | _ => false end.

Lemma do_claims e w : about_claims e = false -> same_claims w (do c e w).
Proof.
  intros He. destruct e; try done; cbn [do].
  - apply try_register_claims.
  - apply account_claims.
  - unfold mark_complete. repeat case_match; done.
  - unfold mark_revealed. repeat case_match; done.
  - apply course_claims, end_receipt_course.
  - apply start_revealed_claims.
  - apply try_reserve_claims.
  - unfold cancel_proof. by destruct (_ !! id).
  - apply start_proof_claims.
  - unfold finish_proof. by destruct (_ !! id).
  - apply set_retain_claims.
  - by apply set_attrs_claims.
  - apply release_retained_claims.
  - unfold operator_failed. by destruct (operator_for c hotkey).
  - apply poll_claims.
  - apply course_claims, prune_course.
Qed.

(** A claim its owner no longer remembers cannot be cancelled. *)
Definition settled (k : string * Z) (a : Z) (w : window) : Prop := claims w !! k = Some a /\ a_claim (attrs_of a w) <> Some k.

Lemma same_claims_settled k a w w' : same_claims w w' -> settled k a w -> settled k a w'.
Proof. intros [E F] [H1 H2]. split; [by rewrite E|by rewrite F]. Qed.

Lemma claim_of_set id j x w : a_claim (attrs_of j (set_claim id x w)) = if decide (j = id) then x else a_claim (attrs_of j w).
Proof.
  unfold set_claim, attrs_of. cbn [attrs set_attrs]. destruct (decide (j = id)) as [->|Hne]; [by rewrite lookup_insert_eq|by rewrite lookup_insert_ne].
Qed.

Lemma do_settled e k a w : settled k a w -> settled k a (do c e w).
Proof.
  intros Hs. destruct (about_claims e) eqn:He; [|by eapply same_claims_settled; [by apply do_claims|]]. destruct Hs as [H1 H2].
  destruct e; try done; cbn [do].
  - unfold try_claim. destruct (operator_for c _) as [op|]; [|done]. destruct (claims w !! (op, q_prompt q)) as [o|] eqn:Ho; [destruct (_ && _); done|].
    assert (k <> (op, q_prompt q)) by congruence. split; cbn [snd].
    + cbn. by rewrite lookup_insert_ne.
    + rewrite claim_of_set. destruct (decide _); [congruence|done].
  - unfold cancel_claim. destruct (a_claim (attrs_of id w)) as [k'|] eqn:Ek; [|done]. destruct (bool_decide (claims w !! k' = Some id)) eqn:Hb; [|done].
    apply bool_decide_eq_true in Hb. assert (k <> k') by (intros <-; congruence). split; cbn [snd].
    + cbn. by rewrite lookup_delete_ne.
    + rewrite claim_of_set. destruct (decide _); [done|done].
  - unfold confirm_claim. split; [done|]. rewrite claim_of_set. by destruct (decide _).
Qed.

Lemma run_settled es k a w w' : run c es w = Some w' -> settled k a w -> settled k a w'.
Proof.
  revert w. induction es as [|e es IH]; intros w Hr Hs; cbn in Hr; [by simplify_eq|]. destruct (allowed e w); [|done]. eapply IH, do_settled, Hs. done.
Qed.

(** Once a claim is taken and confirmed, the prompt is refused to the operator's other requests. *)
Lemma settled_refuses k a q w : settled k a w -> operator_for c (q_hotkey q) = Some k.1 -> q_prompt q = k.2 -> (try_claim c q w).1 = Some "logical_group_duplicate"%string.
Proof.
  intros [H1 H2] Ho Hp. unfold try_claim. rewrite Ho, Hp. destruct k as [op p]. cbn in *. rewrite H1.
  destruct (Z.eqb_spec a (q_id q)) as [->|]; cbn; [|done]. by rewrite bool_decide_eq_false_2.
Qed.
End claims.

(** ** Which receipts are open *)

Section open_receipts.
Context (c : config).

Lemma elem_receipts_where f w id : id ∈ receipts_where f w <-> exists r, precommits (up w) !! id = Some r /\ f r = true.
Proof.
  unfold receipts_where. rewrite list_elem_of_fmap. split.
  - intros [[i r] [-> Hi]]. cbn. apply elem_of_map_to_list, map_lookup_filter_Some in Hi as [H1 H2]. eauto.
  - intros [r [Hr Hf]]. exists (id, r). split; [done|]. apply elem_of_map_to_list, map_lookup_filter_Some. done.
Qed.

Lemma end_receipt_lookup expired j w id : precommits (up (end_receipt expired j w)) !! id = if decide (id = j) then None else precommits (up w) !! id.
Proof.
  unfold end_receipt. destruct (precommits (up w) !! j) as [r|] eqn:Hj.
  - rewrite finish_upload_up. cbn. destruct (decide (id = j)) as [->|Hne]; [apply lookup_delete_eq|by rewrite lookup_delete_ne].
  - destruct (decide (id = j)) as [->|Hne]; done.
Qed.

Lemma end_receipts_lookup expired ids w id :
  precommits (up (foldl (fun w id => end_receipt expired id w) w ids)) !! id = if decide (id ∈ ids) then None else precommits (up w) !! id.
Proof.
  revert w. induction ids as [|j ids IH]; intros w; cbn [foldl]; [by rewrite decide_False by apply not_elem_of_nil|].
  rewrite IH, end_receipt_lookup. destruct (decide (id ∈ ids)) as [H1|H1], (decide (id = j)) as [H2|H2], (decide (id ∈ j :: ids)) as [H3|H3]; try done; exfalso; set_solver.
Qed.

(** Pruning ends exactly the receipts whose deadline passed before their body came. *)
Lemma pruned_lookup now w id r : precommits (up (prune now w)) !! id = Some r <-> precommits (up w) !! id = Some r /\ is_expired now r = false.
Proof.
  unfold prune. rewrite end_receipts_lookup. destruct (decide _) as [H|H]; rewrite elem_receipts_where in H.
  - split; [done|]. intros [Hr He]. destruct H as (r' & Hr' & He'). simplify_eq. congruence.
  - split; [|by intros [? ?]]. intros Hr. split; [done|]. destruct (is_expired now r) eqn:E; [|done]. by destruct H; eauto.
Qed.

(** The receipts of [m'] are receipts of [m], of the same owners. *)
Definition owners_of (m m' : gmap string reservation) : Prop :=
  forall id r', m' !! id = Some r' -> exists r, m !! id = Some r /\ r_hotkey r' = r_hotkey r /\ r_operator r' = r_operator r.

#[local] Instance owners_preorder : PreOrder owners_of.
Proof.
  split; [intros m id r Hr; eauto|]. intros m1 m2 m3 H1 H2 id r3 Hr3. destruct (H2 id r3 Hr3) as (r2 & Hr2 & E1 & E2).
  destruct (H1 id r2 Hr2) as (r1 & Hr1 & E3 & E4). exists r1. split; [done|]. split; congruence.
Qed.

Lemma owners_set m id r r' : m !! id = Some r -> r_hotkey r' = r_hotkey r -> r_operator r' = r_operator r -> owners_of m (<[id := r']> m).
Proof. intros Hid E1 E2 j x [[<- <-]|[Hne Hj]]%lookup_insert_Some; eauto. Qed.

Lemma map_sum_submap {A} (f : A -> Z) (m m' : gmap string A) : (forall x, 0 <= f x) ->
  (forall i x', m' !! i = Some x' -> exists x, m !! i = Some x /\ f x' = f x) -> map_sum (fun _ => f) m' <= map_sum (fun _ => f) m.
Proof.
  intros Hf. revert m. induction m' as [|i x' m' Hi IH] using map_ind; intros m Hm.
  - rewrite map_sum_empty. apply map_sum_nonneg. auto.
  - destruct (Hm i x') as (x & Hx & E); [apply lookup_insert_eq|]. rewrite map_sum_insert_new, E, (map_sum_delete _ m i x Hx) by done.
    apply Zplus_le_compat_l, IH. intros j y' Hj. assert (i <> j) by congruence. destruct (Hm j y') as (y & Hy & Ey); [by rewrite lookup_insert_ne|].
    exists y. by rewrite lookup_delete_ne.
Qed.

Definition of_hotkey (hk : string) (r : reservation) : bool := String.eqb (r_hotkey r) hk.
Definition of_operator (op : string) (r : reservation) : bool := String.eqb (r_operator r) op.

(** Each hotkey and each operator has at most so many receipts open. *)
Definition caps_ok (w : window) : Prop :=
  (forall hk, count_receipts (of_hotkey hk) (up w) <= max_pending_per_hotkey c) /\ (forall op, count_receipts (of_operator op) (up w) <= max_pending_per_operator c).

Lemma owners_caps w w' : owners_of (precommits (up w)) (precommits (up w')) -> caps_ok w -> caps_ok w'.
Proof.
  intros Ho [H1 H2]. split; [intros k; specialize (H1 k)|intros k; specialize (H2 k)]; (etrans; [|eassumption]); unfold count_receipts; apply (map_sum_submap (fun r => Z.b2z _)).
  all: try (intros x; destruct (_ : bool); cbn; lia).
  - intros i r' Hr'. destruct (Ho i r' Hr') as (r & Hr & E1 & E2). exists r. split; [done|]. unfold of_hotkey. by rewrite E1.
  - intros i r' Hr'. destruct (Ho i r' Hr') as (r & Hr & E1 & E2). exists r. split; [done|]. unfold of_operator. by rewrite E2.
Qed.

Lemma end_receipts_owners expired ids w : owners_of (precommits (up w)) (precommits (up (foldl (fun w id => end_receipt expired id w) w ids))).
Proof. intros id r. rewrite end_receipts_lookup. destruct (decide _); [done|eauto]. Qed.

Lemma prune_owners now w w' : owners_of (precommits (up (prune now w))) (precommits (up w')) -> owners_of (precommits (up w)) (precommits (up w')).
Proof. intros H. etrans; [apply end_receipts_owners|exact H]. Qed.

Lemma account_owners id arrival n w : owners_of (precommits (up w)) (precommits (up (account_bytes c id arrival n w).2)).
Proof.
  unfold account_bytes. destruct (n <=? 0); [done|]. destruct (precommits (up w) !! id) as [r0|] eqn:Hid; [|done]. destruct (_ && _); [done|]. cbn zeta.
  set (r := match r_started r0 with None => start_receipt arrival r0 | Some _ => r0 end).
  assert (E : r_hotkey r = r_hotkey r0 /\ r_operator r = r_operator r0) by (unfold r; by destruct (r_started r0)). destruct E as [E1 E2].
  assert (Hs : owners_of (precommits (up w)) (<[id := r]> (precommits (up w)))) by (by eapply owners_set).
  destruct (_ <? _); [exact Hs|]. destruct (payload_refusal _ _ _ _); [exact Hs|]. etrans; [exact Hs|]. eapply owners_set; [apply lookup_insert_eq|done|done].
Qed.

Lemma try_reserve_owners q now closed w : owners_of (precommits (up w)) (precommits (up (try_reserve c q now closed w).2)).
Proof.
  unfold try_reserve. destruct closed; [done|]. apply (prune_owners now). generalize (prune now w) as v. intros v.
  unfold try_reserve_locked, submission_bytes. cbn zeta. repeat case_match; simplify_eq; done.
Qed.

Lemma start_proof_up q closed w : up (start_proof c q closed w).2 = up w.
Proof. unfold start_proof, start_taken, cancel_proof, submission_bytes. cbn zeta. repeat case_match; simplify_eq; done. Qed.

Lemma start_revealed_owners id q closed w : owners_of (precommits (up w)) (precommits (up (start_revealed c id q closed w).2)).
Proof.
  unfold start_revealed. destruct closed; [done|]. destruct (precommits (up w) !! id) as [r|] eqn:Hid; [|done]. cbn zeta.
  repeat (case_match; try done). by eapply owners_set.
Qed.

Lemma poll_early_close_owners now g w : owners_of (precommits (up w)) (precommits (up (poll_early_close c now g w).2)).
Proof.
  unfold poll_early_close. destruct (negb _); [done|]. apply (prune_owners now). generalize (prune now w) as v. intros v. cbn zeta. repeat case_match; done.
Qed.

Lemma poll_owners now g w : owners_of (precommits (up w)) (precommits (up (poll_deadline c now g w).2)).
Proof.
  unfold poll_deadline. destruct (sealed w); [done|]. destruct (negb (difficulty_auction_enabled c)); [done|].
  assert (Hv : owners_of (precommits (up w)) (precommits (up (if fsub now (window_opened_at c) <? collection_seconds c then poll_early_close c now g w else (false, w)).2))) by (destruct (_ <? _); [apply poll_early_close_owners|done]).
  destruct (if _ <? _ then _ else _) as [early v]. cbn [snd] in Hv. destruct early; [done|]. destruct (_ <=? _); [|done]. etrans; [exact Hv|]. apply (prune_owners now).
  cbn zeta. destruct (_ && _); apply end_receipts_owners.
Qed.

Lemma file_receipt_caps id r w : precommits (up w) !! id = None -> caps_ok w ->
  count_receipts (of_hotkey (r_hotkey r)) (up w) < max_pending_per_hotkey c -> count_receipts (of_operator (r_operator r)) (up w) < max_pending_per_operator c ->
  caps_ok (file_receipt id r w).
Proof.
  intros Hid [H1 H2] L1 L2. split; intros k; unfold count_receipts; cbn; rewrite map_sum_insert_new by done.
  - specialize (H1 k). unfold count_receipts in *. unfold of_hotkey at 1. destruct (String.eqb_spec (r_hotkey r) k) as [<-|]; cbn [Z.b2z]; lia.
  - specialize (H2 k). unfold count_receipts in *. unfold of_operator at 1. destruct (String.eqb_spec (r_operator r) k) as [<-|]; cbn [Z.b2z]; lia.
Qed.

Lemma try_register_caps id hk arrival bytes digest now closed w : precommits (up w) !! id = None -> caps_ok w -> caps_ok (try_register c id hk arrival bytes digest now closed w).2.
Proof.
  intros Hid Hw. unfold try_register. destruct (negb _); [done|]. destruct (_ <? _); [done|]. destruct (_ <? _); [done|]. destruct closed; [done|].
  apply (pruned_absent now) in Hid. apply (owners_caps w (prune now w)) in Hw; [|apply end_receipts_owners]. revert Hw Hid. generalize (prune now w) as v. intros v Hv Hid. cbn zeta.
  destruct (_ || _); [done|]. destruct (early_close_refusing c v); [done|]. destruct (operator_for c hk) as [op|]; [|done]. destruct (_ && _); [done|].
  assert (E : exists u, (if keeps_digest c digest then burn digest v else v) = u /\ caps_ok u /\ precommits (up u) !! id = None) by (destruct (keeps_digest c digest); eauto).
  destruct E as (u & -> & Hu & Hiu). destruct (Z.leb_spec (max_pending_per_hotkey c) (count_receipts (fun r => String.eqb (r_hotkey r) hk) (up u))); [done|].
  destruct (Z.leb_spec (max_pending_per_operator c) (count_receipts (fun r => String.eqb (r_operator r) op) (up u))); [done|]. by apply file_receipt_caps.
Qed.

Lemma do_caps e w : allowed e w = true -> caps_ok w -> caps_ok (do c e w).
Proof.
  intros Ha Hw. destruct e; cbn [do]; try done.
  - cbn in Ha. split_andb Ha. apply bool_decide_eq_true in Ha. by apply try_register_caps.
  - eapply owners_caps; [apply account_owners|done].
  - eapply owners_caps; [|done]. unfold mark_complete. destruct (_ !! id) eqn:Hid; [|done]. destruct (negb _); [done|]. by eapply owners_set.
  - eapply owners_caps; [|done]. unfold mark_revealed. destruct (_ !! id) eqn:Hid; [|done]. destruct (r_revealed _); [done|]. by eapply owners_set.
  - eapply owners_caps; [apply (end_receipts_owners expired [id])|done].
  - eapply owners_caps; [apply start_revealed_owners|done].
  - eapply owners_caps; [apply try_reserve_owners|done].
  - unfold cancel_proof. by destruct (_ !! id).
  - unfold caps_ok. by rewrite start_proof_up.
  - unfold finish_proof. by destruct (_ !! id).
  - unfold caps_ok. by destruct (release_retained_pr w) as [-> _].
  - unfold operator_failed. by destruct (operator_for c hotkey).
  - unfold try_claim. repeat case_match; done.
  - unfold cancel_claim. repeat case_match; done.
  - eapply owners_caps; [apply poll_owners|done].
  - eapply owners_caps; [apply end_receipts_owners|done].
Qed.

Lemma opened_caps trigger : 0 <= max_pending_per_hotkey c -> 0 <= max_pending_per_operator c -> caps_ok (opened trigger).
Proof. intros H1 H2. by split. Qed.
End open_receipts.

(** ** Closing *)

Section closing.
Context (c : config).

(** The answer of a poll is the seal. *)
Lemma poll_early_close_tells now g w : sealed w = false -> (poll_early_close c now g w).1 = sealed (poll_early_close c now g w).2.
Proof.
  intros Hs. unfold poll_early_close. destruct (negb _); [done|]. assert (Hv : sealed (prune now w) = false) by (destruct (prune_course now w) as [-> _]; done).
  revert Hv. generalize (prune now w) as v. intros v Hv. cbn zeta. repeat case_match; done.
Qed.





(** A receipt refused for its hotkey's count has locked its content, and no receipt will unlock it. *)
Lemma refused_receipt_burns_digest id hk arrival bytes digest now closed w w' : window_ok c w -> keeps_digest c digest = true ->
  try_register c id hk arrival bytes digest now closed w = (inl "precommit_hotkey_active_full"%string, w') ->
  digest ∈ digests (up w') /\ forall i r, precommits (up w') !! i = Some r -> r_digest r <> digest.
Proof.
  intros Hw Hk. unfold try_register. destruct (negb _); [done|]. destruct (_ <? _); [done|]. destruct (_ <? _); [done|]. destruct closed; [done|].
  pose proof (prune_ok now w Hw) as Hp. revert Hp. generalize (prune now w) as v. intros v Hv. destruct (_ || _); [done|].
  destruct (early_close_refusing c v); [done|]. destruct (operator_for c hk) as [op|]; [|done]. rewrite Hk. cbn [andb].
  destruct (bool_decide (digest ∈ digests (up v))) eqn:Hin; [done|]. apply bool_decide_eq_false in Hin. cbn zeta.
  destruct (_ <=? _); [|destruct (_ <=? _); done]. intros [= <-]. split; [cbn; set_solver|]. intros i r Hi E. apply Hin. rewrite <- E.
  destruct (ok_locks _ (ok_up _ _ Hv)) as [Hl _]. apply (Hl i r Hi). rewrite E. unfold keeps_digest in Hk.
  apply andb_true_iff in Hk as [_ Hk]. intros ->. done.
Qed.

(** A shut window files no receipt. *)
Lemma shut_refuses id hk arrival bytes digest now closed w : sealed w || snapshot_started (pr w) = true ->
  exists reason, (try_register c id hk arrival bytes digest now closed w).1 = inl reason.
Proof.
  intros Hs. unfold try_register. destruct (negb _); [eauto|]. destruct (_ <? _); [eauto|]. destruct (_ <? _); [eauto|]. destruct closed; [eauto|].
  destruct (prune_course now w) as (E1 & _ & _ & _ & _ & _ & _ & E2 & _). cbn zeta. rewrite E1, E2, Hs. eauto.
Qed.
End closing.

(** * The properties *)

(** C10: through any sequence of events of a window, the four byte counters are the sums over
    the receipts and the work they describe, every hotkey's total is what the window holds
    for it, and neither the environment's nor a hotkey's limit is ever passed. *)
Theorem payload_accounting (c : config) (trigger : option Z) (es : list event) (w : window) :
  limits_ok c -> run c es (opened trigger) = Some w ->
  let p := pay (pr w) in
  upload_bytes p = weigh of_receipt None (precommits (up w)) /\ pending_bytes p = weigh of_work None (pending (pr w))
  /\ inflight_bytes p = weigh of_work None (inflight (pr w)) /\ retained_bytes p = weigh of_work None (retained (pr w))
  /\ (forall hk, held_by hk p = weigh of_receipt (Some hk) (precommits (up w)) + weigh of_work (Some hk) (pending (pr w))
                              + weigh of_work (Some hk) (inflight (pr w)) + weigh of_work (Some hk) (retained (pr w)))
  /\ reserved_bytes p <= max_env_bytes c /\ (forall hk, held_by hk p <= max_hotkey_bytes c).
Proof.
  intros Hl Hr. destruct (run_ok c trigger es w Hl Hr) as [[_ _ EU EP EI ER EH] _ [[He Hh] _ _ _ _ _]]. cbn zeta. done.
Qed.

(** A window whose receipts have ended and whose work is done and released holds no
    byte, for no hotkey, and every receipt it accepted is counted as terminal or expired. *)
Theorem drained_window_holds_nothing (c : config) (trigger : option Z) (es : list event) (w : window) :
  limits_ok c -> run c es (opened trigger) = Some w ->
  precommits (up w) = ∅ -> pending (pr w) = ∅ -> inflight (pr w) = ∅ -> retained (pr w) = ∅ ->
  reserved_bytes (pay (pr w)) = 0 /\ (forall hk, held_by hk (pay (pr w)) = 0) /\ accepted (up w) = terminal (up w) + expired_n (up w).
Proof.
  intros Hl Hr H1 H2 H3 H4. destruct (run_ok c trigger es w Hl Hr) as [[_ _ EU EP EI ER EH] [Hn _ _ _] _].
  rewrite H1, H2, H3, H4 in *. rewrite map_size_empty in Hn. rewrite !weigh_empty in *. unfold reserved_bytes. repeat split; [lia| |lia].
  intros hk. rewrite EH, !weigh_empty. done.
Qed.

(** In a window whose work is reserved before it is started, the report always finds the
    receipts and the productive capacity conserved; the started attempts may pass
    [max_grading_starts], by less than [max_productive_candidates]. *)
Theorem report_always_conserved (c : config) (trigger : option Z) (es : list event) (w : window) (now : float) :
  limits_ok c -> production c es (opened trigger) = true -> run c es (opened trigger) = Some w ->
  let v := (conservation_report c now w).1 in
  v_conserved v = true /\ v_capacity_conserved v = true /\ attempts (pr w) < max_grading_starts c + max_productive_candidates c.
Proof.
  intros Hl Hp Hr. pose proof (run_ok c trigger es w Hl Hr) as Hw. pose proof (prune_ok now w Hw) as [_ [Hn _ _ _] _].
  assert (Ho : productive_ok c (pr (opened trigger))).
  { destruct Hl as (_ & _ & H1 & H2). unfold productive_ok, productive_used. cbn. rewrite map_size_empty. lia. }
  pose proof (run_productive c es (opened trigger) w (opened_ok c trigger Hl) Hp Ho Hr) as Hq.
  pose proof (load_ok c w (prune now w) (prune_load now w) Hq) as [Hu _]. destruct Hq as [_ Hatt]. cbn zeta. cbn [conservation_report fst v_conserved v_capacity_conserved].
  split; [by apply Z.eqb_eq|]. split; [by apply Z.leb_le|lia].
Qed.

(** Once a window is sealed it stays sealed, once its pool is frozen it stays frozen;
    from then on no receipt is filed and, in a frozen window, no work is started, whatever
    the events that follow. *)
Theorem shut_window_is_final (c : config) (es : list event) (w w' : window) :
  run c es w = Some w' -> sealed w || snapshot_started (pr w) = true ->
  sealed w' || snapshot_started (pr w') = true /\ (sealed w = true -> sealed w' = true) /\ accepted (up w') = accepted (up w)
  /\ (snapshot_started (pr w) = true -> attempts (pr w') = attempts (pr w))
  /\ (forall id hk arrival bytes digest now closed, exists reason, (try_register c id hk arrival bytes digest now closed w').1 = inl reason).
Proof.
  intros Hr Hs. destruct (run_keeps c es w w' Hr) as (H1 & H2 & H3).
  assert (Hs' : sealed w' || snapshot_started (pr w') = true) by (apply orb_true_iff in Hs as [H|H]; apply orb_true_iff; [left; auto|right; by apply H2]).
  split; [done|]. split; [done|]. split; [auto|]. split; [intros H; by apply H2|]. intros. by apply shut_refuses.
Qed.


(** No hotkey and no operator ever has more than its number of receipts open. *)
Theorem receipts_capped (c : config) (trigger : option Z) (es : list event) (w : window) :
  0 <= max_pending_per_hotkey c -> 0 <= max_pending_per_operator c -> run c es (opened trigger) = Some w ->
  (forall hk, count_receipts (of_hotkey hk) (up w) <= max_pending_per_hotkey c)
  /\ (forall op, count_receipts (of_operator op) (up w) <= max_pending_per_operator c).
Proof.
  intros H1 H2. apply (run_ind c (caps_ok c) (fun _ _ => True)); [|done|by apply opened_caps]. intros e v Hv Ha _. by apply do_caps.
Qed.

(** A claim on a prompt, once taken and confirmed, is final: whatever happens next, every
    other request of the same operator for the prompt is refused as a duplicate. *)
Theorem confirmed_claim_final (c : config) (q q' : request) (es : list event) (w w1 w' : window) :
  try_claim c q w = (None, w1) -> run c es (confirm_claim (q_id q) w1) = Some w' ->
  operator_for c (q_hotkey q') = operator_for c (q_hotkey q) -> q_prompt q' = q_prompt q ->
  (try_claim c q' w').1 = Some "logical_group_duplicate"%string.
Proof.
  unfold try_claim at 1. destruct (operator_for c (q_hotkey q)) as [op|] eqn:Ho; [|done]. intros Hc Hr Hop Hp.
  apply (settled_refuses c (op, q_prompt q) (q_id q)); [|done|done]. apply (run_settled c es _ _ _ _ Hr). split; cbn [claims confirm_claim].
  - destruct (claims w !! (op, q_prompt q)) as [o|] eqn:E; [|simplify_eq; apply lookup_insert_eq].
    destruct (Z.eqb_spec o (q_id q)) as [->|]; cbn [andb] in Hc; [|done]. destruct (bool_decide _); simplify_eq. done.
  - unfold confirm_claim. by rewrite claim_of_set, decide_True.
Qed.

(** ** Witnesses *)

Definition example_config : config :=
  Config true true 0 0 (60 * fone) 2 2 None true false fone 1 1 1 1000 2000 1500 2 2 1 1 fone.

Definition example_request (id : Z) : request := Request id "a" 0 (7 + id) 100.

Lemma example_limits : limits_ok example_config.
Proof. repeat split; vm_compute; discriminate. Qed.

Lemma payload_accounting_witness : exists w,
  run example_config [Register "r" "a" fone 5 "d" fone false; Account "r" fone 3; Reserve (example_request 1) fone false] (opened None) = Some w
  /\ reserved_bytes (pay (pr w)) <= max_env_bytes example_config.
Proof.
  eexists. split; [vm_compute; reflexivity|].
  eapply (payload_accounting example_config None [Register "r" "a" fone 5 "d" fone false; Account "r" fone 3; Reserve (example_request 1) fone false]);
    [exact example_limits|vm_compute; reflexivity].
Defined.

Lemma drained_window_holds_nothing_witness : exists w,
  run example_config [Reserve (example_request 1) 0 false; StartWork (example_request 1) false; Finish 1] (opened None) = Some w
  /\ reserved_bytes (pay (pr w)) = 0.
Proof.
  eexists. split; [vm_compute; reflexivity|].
  eapply (drained_window_holds_nothing example_config None [Reserve (example_request 1) 0 false; StartWork (example_request 1) false; Finish 1]);
    [exact example_limits|vm_compute; reflexivity..].
Defined.

Lemma report_always_conserved_witness : exists w,
  run example_config [Reserve (example_request 1) 0 false; StartWork (example_request 1) false; Finish 1] (opened None) = Some w
  /\ v_conserved (conservation_report example_config 0 w).1 = true.
Proof.
  eexists. split; [vm_compute; reflexivity|].
  eapply (report_always_conserved example_config None [Reserve (example_request 1) 0 false; StartWork (example_request 1) false; Finish 1]);
    [exact example_limits|vm_compute; reflexivity..].
Defined.

Lemma shut_window_is_final_witness :
  sealed (set_sealed (opened None)) || snapshot_started (pr (set_sealed (opened None))) = true
  /\ exists w', run example_config [BeginSeal; Reserve (example_request 1) 0 false] (set_sealed (opened None)) = Some w' /\ sealed w' = true.
Proof.
  split; [reflexivity|]. eexists. split; [vm_compute; reflexivity|].
  eapply (shut_window_is_final example_config [BeginSeal; Reserve (example_request 1) 0 false] (set_sealed (opened None))); [vm_compute; reflexivity|reflexivity|reflexivity].
Defined.


Lemma receipts_capped_witness : exists w,
  run example_config [Register "r" "a" fone 5 "d" fone false] (opened None) = Some w
  /\ forall hk, count_receipts (of_hotkey hk) (up w) <= 1.
Proof.
  eexists. split; [vm_compute; reflexivity|].
  eapply (receipts_capped example_config None [Register "r" "a" fone 5 "d" fone false]); [vm_compute; discriminate|vm_compute; discriminate|vm_compute; reflexivity].
Defined.

Lemma confirmed_claim_final_witness : exists w1 w',
  try_claim example_config (example_request 1) (opened None) = (None, w1)
  /\ run example_config [CancelClaim 1; ForceSeal] (confirm_claim 1 w1) = Some w'
  /\ (try_claim example_config (Request 2 "a" 0 8 100) w').1 = Some "logical_group_duplicate"%string.
Proof.
  eexists _, _. split; [vm_compute; reflexivity|]. split; [vm_compute; reflexivity|].
  eapply (confirmed_claim_final example_config (example_request 1) (Request 2 "a" 0 8 100) [CancelClaim 1; ForceSeal] (opened None)); [vm_compute; reflexivity|vm_compute; reflexivity|reflexivity|reflexivity].
Defined.

(** The ceiling on grading starts is read when work is reserved, and the work already
    reserved is not counted: three starts under a ceiling of two. *)
Example grading_starts_overshoot : exists w,
  run example_config [Reserve (example_request 1) 0 false; StartWork (example_request 1) false; Refundable 1; Finish 1;
                      Reserve (example_request 2) 0 false; Reserve (example_request 3) 0 false;
                      StartWork (example_request 2) false; StartWork (example_request 3) false] (opened None) = Some w
  /\ max_grading_starts example_config = 2 /\ attempts (pr w) = 3.
Proof. eexists. split; [vm_compute; reflexivity|done]. Qed.
