(* ===== verification/Quarantine.v ===== *)
(** * Quarantine: which batches may not move the model

    Models [validator/quarantine.py].  A rollout's commit is read through four fields:
    whether its metadata carries a completion length, that length and the prompt's
    ([None] and 0 read alike), and its tokens.  The environment caps of the active
    protocol profile are parameters. *)

From S2P Require Import Prelude PyFloat.

#[local] Open Scope Z_scope.

Definition TRAINING_QUARANTINE_ENABLED : bool := true.
Definition TRAINING_QUARANTINE_MAX_REWARD_VECTOR_SHARE : float := 3 * Z.shiftl 1 1072.
Definition TRAINING_QUARANTINE_REWARD_VECTOR_MIN_GROUPS : Z := 4.
Definition TRAINING_QUARANTINE_MAX_MEAN_COMPLETION_LENGTH : Z := 24576.
Definition TRAINING_QUARANTINE_MAX_SINGLE_COMPLETION_LENGTH : Z := 32768.
Definition TRAINING_QUARANTINE_EXTREME_LENGTH_MIN_ROLLOUTS : Z := 4.
Definition TRAINING_QUARANTINE_EXTREME_LENGTH_MIN_GROUPS : Z := 3.
Definition TRAINING_QUARANTINE_REJECT_SPIKE_MIN : Z := 32.
Definition TRAINING_QUARANTINE_REWARD_SHAPE_MIN_GROUPS : Z := 2.
Definition TRAINING_QUARANTINE_LONG_ZERO_TAIL_MIN_LENGTH : Z := 16384.

Definition HIGH_RISK_REJECT_REASONS : list string :=
  ["reward_distribution"; "bad_termination"; "distribution_suspicious"; "tokens_mismatch"; "reward_mismatch"; "reward_shape_suspicious"]%string.

Record rollout := Rollout {
  ro_reward : float;
  ro_env_name : string;
  ro_tokens : list Z;
  ro_prompt_length : Z;
  ro_completion_length : option Z;
}.

(** A proven group.  Of [reward_shape], its flag and its [zero_length_mode]; the tokens it
    ended with are kept for the payment record. *)
Record group := Group {
  g_hotkey : string;
  g_environment : string;
  g_rollouts : list rollout;
  g_suspicious : bool;
  g_zero_length_mode : Z;
  g_eos_tokens : Z;
}.

Record quarantine_metrics := Metrics {
  n_groups : Z;
  n_rollouts : Z;
  max_hotkey_groups : Z;
  max_hotkey_share : float;
  dominant_reward_vector : string;
  dominant_reward_vector_groups : Z;
  dominant_reward_vector_share : float;
  dominant_reward_vector_threshold : bool;
  mean_completion_length : float;
  max_completion_length : Z;
  cap_length_rollouts : Z;
  cap_length_groups : Z;
  extreme_length_rollouts : Z;
  extreme_length_groups : Z;
  reward_shape_groups : Z;
  reward_shape_group_share : float;
  long_zero_tail_shape_groups : Z;
  high_risk_rejects : Z;
}.

(** [TrainingQuarantineDecision]; a batch that is not assessed carries no metrics but its size. *)
Record quarantine_decision := QuarantineDecision { quarantined : bool; reasons : list string; metrics : Z + quarantine_metrics }.

(** [_completion_length] *)
Definition completion_length (r : rollout) : Z :=
  match ro_completion_length r with
  | Some n => n
  | None => Z.max 0 (Z.of_nat (length (ro_tokens r)) - ro_prompt_length r)
  end.

(** [_binary_reward_vector] *)
Definition binary_reward_vector (g : group) : string :=
  String.concat "" ((fun r => if Z.shiftl 1 1073 <=? ro_reward r then "1"%string else "0"%string) <$> g_rollouts g).

(** [_group_environment] *)
Definition group_environment (g : group) : string :=
  if negb (String.eqb (g_environment g) "") then g_environment g
  else default ""%string (head (filter (fun n => n <> ""%string) (ro_env_name <$> g_rollouts g))).

(** [Counter], in the order of first occurrence, and [most_common(1)]: the first of the largest. *)
Fixpoint tally (k : string) (c : list (string * Z)) : list (string * Z) :=
  match c with [] => [(k, 1)] | (k', n) :: c => if String.eqb k' k then (k', n + 1) :: c else (k', n) :: tally k c end.
Definition counter (l : list string) : list (string * Z) := foldl (fun c k => tally k c) [] l.
Definition most_common (c : list (string * Z)) : string * Z :=
  match c with [] => (""%string, 0) | x :: c => foldl (fun b y => if b.2 <? y.2 then y else b) x c end.

Definition count_if {A} (f : A -> bool) (l : list A) : Z := Zsum ((fun x => Z.b2z (f x)) <$> l).
Definition max_or_0 (l : list Z) : Z := match l with [] => 0 | x :: l => foldl Z.max x l end.
Definition ratio (a b : Z) : float := fdiv (of_int a) (of_int b).

Section assess.
(** [max_new_tokens_for_environment] *)
Context (cap_by_env : gmap string Z) (default_cap : Z).
Definition max_new_tokens_for_environment (environment : string) : Z := default default_cap (cap_by_env !! environment).

(** One group's facts: the loop over the batch counts them. *)
Definition lengths (g : group) : list Z := completion_length <$> g_rollouts g.
Definition at_cap (g : group) (n : Z) : bool := max_new_tokens_for_environment (group_environment g) <=? n.
Definition is_extreme (n : Z) : bool := TRAINING_QUARANTINE_MAX_SINGLE_COMPLETION_LENGTH <=? n.
Definition cap_length_group (g : group) : bool := existsb (at_cap g) (lengths g).
Definition extreme_length_group (g : group) : bool := existsb is_extreme (lengths g).
Definition long_zero_tail (g : group) : bool := g_suspicious g && (TRAINING_QUARANTINE_LONG_ZERO_TAIL_MIN_LENGTH <=? g_zero_length_mode g).
Definition cap_rollouts (g : group) : Z := count_if (at_cap g) (lengths g).
Definition extreme_rollouts (g : group) : Z := count_if is_extreme (lengths g).

Definition mean_length (batch : list group) : float :=
  let all := batch ≫= lengths in
  if bool_decide (all = []) then 0 else ratio (Zsum all) (Z.of_nat (length all)).

Definition density (groups rollouts : Z) : bool :=
  (TRAINING_QUARANTINE_EXTREME_LENGTH_MIN_GROUPS <=? groups)
  || (2 <=? groups) && (TRAINING_QUARANTINE_EXTREME_LENGTH_MIN_ROLLOUTS <=? rollouts).

Definition high_risk (reject_counts : gmap string Z) : Z := Zsum ((fun r => default 0 (reject_counts !! r)) <$> HIGH_RISK_REJECT_REASONS).

Definition length_reasons (batch : list group) : list string :=
  if density (count_if cap_length_group batch) (Zsum (cap_rollouts <$> batch)) then ["cap_length_density"%string]
  else if density (count_if extreme_length_group batch) (Zsum (extreme_rollouts <$> batch)) then ["extreme_completion_length_density"%string]
  else [].
Definition mean_reasons (batch : list group) : list string :=
  if of_int TRAINING_QUARANTINE_MAX_MEAN_COMPLETION_LENGTH <=? mean_length batch then ["mean_completion_length_high"%string] else [].
Definition shape_reasons (batch : list group) : list string :=
  if 0 <? count_if long_zero_tail batch then ["long_zero_tail_reward_shape"%string]
  else if TRAINING_QUARANTINE_REWARD_SHAPE_MIN_GROUPS <=? count_if g_suspicious batch then ["reward_shape_density"%string] else [].
Definition reject_reasons (reject_counts : gmap string Z) : list string :=
  if TRAINING_QUARANTINE_REJECT_SPIKE_MIN <=? high_risk reject_counts then ["high_risk_reject_spike"%string] else [].

Definition metrics_of (batch : list group) (reject_counts : gmap string Z) : quarantine_metrics :=
  let n := Z.of_nat (length batch) in
  let top := max_or_0 (snd <$> counter (g_hotkey <$> batch)) in
  let dominant := most_common (counter (binary_reward_vector <$> batch)) in
  let all := batch ≫= lengths in
  Metrics n (Z.of_nat (length all)) top (ratio top n) dominant.1 dominant.2 (ratio dominant.2 n)
    ((TRAINING_QUARANTINE_REWARD_VECTOR_MIN_GROUPS <=? dominant.2) && (TRAINING_QUARANTINE_MAX_REWARD_VECTOR_SHARE <=? ratio dominant.2 n))
    (mean_length batch) (max_or_0 all) (Zsum (cap_rollouts <$> batch)) (count_if cap_length_group batch)
    (Zsum (extreme_rollouts <$> batch)) (count_if extreme_length_group batch) (count_if g_suspicious batch)
    (ratio (count_if g_suspicious batch) n) (count_if long_zero_tail batch) (high_risk reject_counts).

(** [assess_training_batch] *)
Definition assess_training_batch (enabled : bool) (batch : list group) (reject_counts : gmap string Z) : quarantine_decision :=
  if negb enabled || bool_decide (batch = []) then QuarantineDecision false [] (inl (Z.of_nat (length batch)))
  else
    let rs := length_reasons batch ++ mean_reasons batch ++ shape_reasons batch ++ reject_reasons reject_counts in
    QuarantineDecision (negb (bool_decide (rs = []))) rs (inr (metrics_of batch reject_counts)).
End assess.

(** ** What the decision reads

    A group's part in the reasons: its environment, its lengths and its reward shape. *)

Definition profile : Type := string * list Z * bool * Z.
Definition profile_of (g : group) : profile := (group_environment g, lengths g, g_suspicious g, g_zero_length_mode g).

Section shape.
Context (cap_by_env : gmap string Z) (default_cap : Z).
Implicit Types (batch : list group).

(** A sum over the batch of what a profile determines. *)
Lemma Zsum_profile (f : group -> Z) (h : profile -> Z) batch batch' :
  (forall g, f g = h (profile_of g)) -> profile_of <$> batch ≡ₚ profile_of <$> batch' -> Zsum (f <$> batch) = Zsum (f <$> batch').
Proof.
  intros Hf Hp. assert (E : forall l, f <$> l = h <$> (profile_of <$> l)) by (intros l; rewrite <- list_fmap_compose; by apply list_fmap_ext; intros; apply Hf).
  by rewrite !E, Hp.
Qed.

Lemma lengths_profile batch batch' : profile_of <$> batch ≡ₚ profile_of <$> batch' -> batch ≫= lengths ≡ₚ batch' ≫= lengths.
Proof.
  intros Hp. assert (E : forall l, l ≫= lengths = (profile_of <$> l) ≫= (fun p => p.1.1.2)) by (intros l; induction l as [|g l IH]; cbn in *; [done|by rewrite IH]).
  by rewrite !E, Hp.
Qed.

Lemma mean_profile batch batch' : profile_of <$> batch ≡ₚ profile_of <$> batch' -> mean_length batch = mean_length batch'.
Proof.
  intros Hp%lengths_profile. unfold mean_length. rewrite (Zsum_perm _ _ Hp), (Permutation_length Hp).
  case_bool_decide as H1; case_bool_decide as H2; [done|..|done]; exfalso.
  - rewrite H1 in Hp. by apply H2, Permutation_nil_r.
  - rewrite H2 in Hp. symmetry in Hp. by apply H1, Permutation_nil_r.
Qed.
End shape.

(** A batch is quarantined for the lengths, environments and reward shapes of its groups
    and for the window's rejects, and for nothing else: neither who made the groups, nor
    their rewards, nor the order of the batch changes the decision or its reasons. *)
Theorem quarantine_reads_shape (cap_by_env : gmap string Z) (default_cap : Z) (enabled : bool) (batch batch' : list group) (reject_counts : gmap string Z) :
  profile_of <$> batch ≡ₚ profile_of <$> batch' ->
  let d := assess_training_batch cap_by_env default_cap enabled batch reject_counts in
  let d' := assess_training_batch cap_by_env default_cap enabled batch' reject_counts in
  quarantined d = quarantined d' /\ reasons d = reasons d'.
Proof.
  intros Hp. assert (Hnil : batch = [] <-> batch' = []).
  { apply Permutation_length in Hp. rewrite !length_fmap in Hp. rewrite <- !length_zero_iff_nil. lia. }
  unfold assess_training_batch. rewrite (bool_decide_ext _ _ Hnil). destruct (negb enabled || bool_decide (batch' = [])); [done|].
  assert (E : length_reasons cap_by_env default_cap batch = length_reasons cap_by_env default_cap batch' /\ shape_reasons batch = shape_reasons batch').
  { unfold length_reasons, shape_reasons, count_if. pose (cap := fun p : profile => max_new_tokens_for_environment cap_by_env default_cap p.1.1.1).
    rewrite (Zsum_profile (fun g => Z.b2z (cap_length_group cap_by_env default_cap g)) (fun p => Z.b2z (existsb (fun n => cap p <=? n) p.1.1.2)) batch batch'),
      (Zsum_profile (cap_rollouts cap_by_env default_cap) (fun p => count_if (fun n => cap p <=? n) p.1.1.2) batch batch'),
      (Zsum_profile (fun g => Z.b2z (extreme_length_group g)) (fun p => Z.b2z (existsb is_extreme p.1.1.2)) batch batch'),
      (Zsum_profile extreme_rollouts (fun p => count_if is_extreme p.1.1.2) batch batch'),
      (Zsum_profile (fun g => Z.b2z (long_zero_tail g)) (fun p => Z.b2z (p.1.2 && (TRAINING_QUARANTINE_LONG_ZERO_TAIL_MIN_LENGTH <=? p.2))) batch batch'),
      (Zsum_profile (fun g => Z.b2z (g_suspicious g)) (fun p => Z.b2z p.1.2) batch batch') by done. done. }
  destruct E as [-> ->]. unfold mean_reasons. rewrite (mean_profile batch batch' Hp). done.
Qed.

Definition example_group (hotkey : string) (rewards : list float) : group :=
  Group hotkey "math" ((fun r => Rollout r "math" [] 0 (Some 40000)) <$> rewards) false 0 0.

Lemma quarantine_reads_shape_witness :
  profile_of <$> [example_group "a" [0; fone]; example_group "b" [0; 0]] ≡ₚ profile_of <$> [example_group "c" [fone; fone]; example_group "c" [fone; 0]]
  /\ reasons (assess_training_batch ∅ 50000 true [example_group "a" [0; fone]; example_group "b" [0; 0]] ∅)
     = reasons (assess_training_batch ∅ 50000 true [example_group "c" [fone; fone]; example_group "c" [fone; 0]] ∅).
Proof. split; [reflexivity|]. apply quarantine_reads_shape. reflexivity. Defined.
