(* ===== verification/FillAssembler.v ===== *)
(** * FillAssembler: the batches of a fill-closed window, their payment and their journal

    Models [validator/fill_closed_batch_assembler.py], [validator/token_rewards.py], the key
    of a journal entry ([infrastructure/training_payload_queue.py]) and the reader of the
    journal ([trainer/journal.py]).

    The assembler holds one lock in each method, so a method is one step.  The encoders of
    payloads and tombstones build numpy archives and JSON headers: they are the operations
    of a class [TrainingCodec], whose law is that what is decoded names the window that was
    encoded.  The callbacks that make a write durable are the operation of a class
    [DurableJournal], whose state lists the writes they returned from. *)

From S2P Require Import Prelude PyFloat Quarantine Accumulator.

#[local] Open Scope Z_scope.

(** ** Payment: [token_rewards.py] *)

Record accepted_group := AcceptedGroup { ag_hotkey : string; ag_operator_id : string; ag_eos_tokens : Z }.

(** [rewards[k] = rewards.get(k, 0.0) + x], in the order of first use. *)
Fixpoint credit (k : string) (x : float) (d : list (string * float)) : list (string * float) :=
  match d with
  | [] => [(k, fadd 0 x)]
  | (k', y) :: d => if String.eqb k' k then (k', fadd y x) :: d else (k', y) :: credit k x d
  end.

Definition split_environment_pool (gs : list accepted_group) (pool : float) : list (string * float) :=
  let paying := filter (fun g => 0 < ag_eos_tokens g) gs in
  let total := Zsum (ag_eos_tokens <$> paying) in
  foldl (fun d g => credit (ag_hotkey g) (fdiv (fmul pool (of_int (ag_eos_tokens g))) (of_int total)) d) [] paying.

Definition split_fixed_environment_pool (gs : list accepted_group) (pool : float) (slots : Z) : result (list (string * float)) :=
  if slots <=? 0 then Raise ValueError
  else if slots <? Z.of_nat (length gs) then Raise ValueError
  else let share := fdiv pool (of_int slots) in Ok (foldl (fun d g => credit (ag_hotkey g) share d) [] gs).

(** ** What is outside the model *)

(** The encoders and decoders of [shared/training_payload.py]. *)
Class TrainingCodec (D : Type) := {
  encode_training_payload : list (string * list group) -> Z -> string -> result D;
  encode_tombstone : Z -> string -> D;
  payload_window : D -> result Z;
  tombstone_window : D -> result Z;
  payload_reads_back batches w revision d : encode_training_payload batches w revision = Ok d -> payload_window d = Ok w;
  tombstone_reads_back w stage : 0 <= w -> tombstone_window (encode_tombstone w stage) = Ok w;
}.

(** [_PreparedWrite] *)
Record write (D : Type) := Write {
  w_key : Z;
  w_data : D;
  w_tombstone : bool;
  w_batches : option (list (string * list group));
  w_reset : bool;
}.
Arguments Write {_} _ _ _ _ _.
Arguments w_key {_} _.
Arguments w_data {_} _.
Arguments w_tombstone {_} _.
Arguments w_batches {_} _.
Arguments w_reset {_} _.

(** [commit_fn], or [tombstone_fn] and [enqueue_fn]: a call that returns has made its write
    durable; of a call that raises nothing is assumed to remain. *)
Class DurableJournal (D W : Type) := {
  commit_fn : write D -> method W unit;
  entries : W -> list (write D);
  commit_ok e w w' : commit_fn e w = (Ok tt, w') -> entries w' = entries w ++ [e];
  commit_raise e w w' x : commit_fn e w = (Raise x, w') -> entries w' = entries w;
}.

(** ** The assembler's state *)

(** The window, the order of its environments, the constants of a fill-closed run, the
    caps of the quarantine and the pool of each environment. *)
Record fill_config := FillConfig {
  window_start : Z;
  env_order : list string;
  B_BATCH : Z;
  picks_target : Z;
  FILL_CLOSED_EMISSIONS_PER_WINDOW : Z;
  FILL_CLOSED_ENABLED : bool;
  cap_by_env : gmap string Z;
  default_cap : Z;
  pool_by_env : gmap string float;
  window_pool : float;
}.

Record assembler := Assembler {
  acc : @accumulator group;
  pending : gmap string (list (list group));
  revision : string;
  next_batch_index : Z;
  durable_payload_count : Z;
  durable_tombstone_count : Z;
  rewards_by_hotkey : list (string * float);
  paid_groups : gmap string (list (Z * group));
  closed : bool;
  straggler_count : Z;
  last_straggler : option (string * Z);
}.

Definition set_acc (a : @accumulator group) (s : assembler) : assembler :=
  Assembler a (pending s) (revision s) (next_batch_index s) (durable_payload_count s) (durable_tombstone_count s) (rewards_by_hotkey s) (paid_groups s) (closed s) (straggler_count s) (last_straggler s).
Definition set_pending (p : gmap string (list (list group))) (s : assembler) : assembler :=
  Assembler (acc s) p (revision s) (next_batch_index s) (durable_payload_count s) (durable_tombstone_count s) (rewards_by_hotkey s) (paid_groups s) (closed s) (straggler_count s) (last_straggler s).
Definition set_paid (r : list (string * float)) (p : gmap string (list (Z * group))) (s : assembler) : assembler :=
  Assembler (acc s) (pending s) (revision s) (next_batch_index s) (durable_payload_count s) (durable_tombstone_count s) r p (closed s) (straggler_count s) (last_straggler s).

(** The pools of the constructor: a mapping of the declared environments, rescaled to the
    running ones, or a number, shared evenly. *)
Definition pools_of (env_order : list string) (pool : float + list (string * float)) : result (gmap string float * float) :=
  match pool with
  | inl total =>
      let share := if bool_decide (env_order = []) then 0 else fdiv total (of_int (Z.of_nat (length env_order))) in
      Ok (list_to_map ((fun e => (e, share)) <$> env_order), total)
  | inr declared =>
      let m : gmap string float := list_to_map (M := gmap string float) (reverse declared) in
      if negb (bool_decide (Forall (fun e => is_Some (m !! e)) env_order)) then Raise ValueError
      else
        let declared_total := fsum (snd <$> map_to_list m) in
        let restricted : gmap string float := list_to_map (M := gmap string float) ((fun e => (e, default 0 (m !! e))) <$> env_order) in
        let restricted_total := fsum (snd <$> map_to_list restricted) in
        Ok (if 0 <? restricted_total then (fun v => fmul v (fdiv declared_total restricted_total)) <$> restricted else (fun _ => 0) <$> restricted, declared_total)
  end.

Definition new_assembler (c : fill_config) : result assembler :=
  a ← new_accumulator (list_to_map (M := gmap string Z) ((fun e => (e, B_BATCH c)) <$> env_order c));
  Ok (Assembler a (list_to_map ((fun e => (e, [])) <$> env_order c)) "" 0 0 0 [] (list_to_map ((fun e => (e, [])) <$> env_order c)) false 0 None).

Section assembler.
Context {D W : Type} `{TrainingCodec D, DurableJournal D W} (c : fill_config).

(** [encoded_window_journal_key] *)
Definition encoded_window_journal_key (w i : Z) : result Z :=
  if negb (FILL_CLOSED_ENABLED c) then Ok w
  else if (0 <=? i) && (i <? FILL_CLOSED_EMISSIONS_PER_WINDOW c) then Ok (w * FILL_CLOSED_EMISSIONS_PER_WINDOW c + i)
  else Raise ValueError.

Definition count_of (s : assembler) (e : string) : Z := Z.of_nat (length (default [] (groups <$> envs (acc s) !! e))).
Definition pending_of (s : assembler) (e : string) : list (list group) := default [] (pending s !! e).

(** One turn of the loop of [_prepare_next_ready_locked]: a chunk for each environment
    whose slot has room, by the counts read before the turn. *)
Definition feed_env (counts : string -> Z) (e : string) : method assembler bool := fun s =>
  match pending_of s e with
  | chunk :: rest =>
      if counts e <? B_BATCH c then
        let s := set_pending (<[e := rest]> (pending s)) s in
        let '(r, a) := add_window {[e := chunk]} (window_start c) (revision s) (acc s) in
        ((fun _ => true) <$> r, set_acc a s)
      else (Ok false, s)
  | [] => (Ok false, s)
  end.

Fixpoint feed (counts : string -> Z) (es : list string) (fed : bool) : method assembler bool := fun s =>
  match es with
  | [] => (Ok fed, s)
  | e :: es => match feed_env counts e s with
               | (Ok b, s) => feed counts es (fed || b) s
               | (Raise x, s) => (Raise x, s)
               end
  end.

(** [_prepare_payload_locked] *)
Definition prepare_payload (allow_partial : bool) (s : assembler) : result (write D) :=
  if picks_target c <=? next_batch_index s then Raise RuntimeError
  else
    extracted ← training_batches (env_order c) allow_partial (acc s);
    let window_batches := zip (env_order c) extracted in
    let decision := assess_training_batch (cap_by_env c) (default_cap c) TRAINING_QUARANTINE_ENABLED (concat extracted) ∅ in
    key ← encoded_window_journal_key (window_start c) (next_batch_index s);
    if quarantined decision then Ok (Write key (encode_tombstone (window_start c) "training_quarantine") true (Some window_batches) true)
    else
      data ← encode_training_payload window_batches (window_start c) (revision s);
      Ok (Write key data false (Some window_batches) true).

(** [_prepare_next_ready_locked]; [fuel] bounds the turns of its loop. *)
Fixpoint prepare_next_ready (fuel : nat) : method assembler (option (write D)) := fun s =>
  if ready (acc s) then (Some <$> prepare_payload false s, s)
  else
    match fuel with
    | O => (Ok None, s)
    | S fuel =>
        match feed (count_of s) (env_order c) false s with
        | (Ok true, s) => prepare_next_ready fuel s
        | (Ok false, s) => (Ok None, s)
        | (Raise x, s) => (Raise x, s)
        end
    end.

(** The chunks waiting, which every turn that goes on lowers. *)
Definition waiting (s : assembler) : nat := sum_list ((fun e => length (pending_of s e)) <$> env_order c).
Definition prepare_ready : method assembler (option (write D)) := fun s => prepare_next_ready (S (waiting s)) s.

(** [_prepare_paid_remainder_tombstone_locked] *)
Definition prepare_remainder (s : assembler) : result (write D) :=
  if picks_target c <=? next_batch_index s then Raise RuntimeError
  else
    key ← encoded_window_journal_key (window_start c) (next_batch_index s);
    held ← held_groups (env_order c) (acc s);
    Ok (Write key (encode_tombstone (window_start c) "fill_closed_incomplete_remainder") true (Some (zip (env_order c) held)) true).

(** [_prepare_underfill_padding_locked] *)
Definition prepare_padding (s : assembler) : result (write D) :=
  if FILL_CLOSED_EMISSIONS_PER_WINDOW c <=? next_batch_index s then Raise RuntimeError
  else
    key ← encoded_window_journal_key (window_start c) (next_batch_index s);
    Ok (Write key (encode_tombstone (window_start c) "window_underfilled") true None false).

(** [_accrue_payment_locked] *)
Definition accrue_env (i : Z) (s : assembler) (eb : string * list group) : result assembler :=
  pool ← match pool_by_env c !! eb.1 with Some p => Ok p | None => Raise KeyError end;
  let paid := <[eb.1 := default [] (paid_groups s !! eb.1) ++ ((fun g => (i, g)) <$> eb.2)]> (paid_groups s) in
  shares ← split_fixed_environment_pool ((fun g => AcceptedGroup (g_hotkey g) (g_hotkey g) (g_eos_tokens g)) <$> eb.2)
             (fdiv pool (of_int (picks_target c))) (B_BATCH c);
  Ok (set_paid (foldl (fun d kx => credit kx.1 kx.2 d) (rewards_by_hotkey s) shares) paid s).
Definition accrue_payment (i : Z) (batches : list (string * list group)) (s : assembler) : result assembler := fold_result (accrue_env i) s batches.

(** The accounting that follows a durable write. *)
Definition settle (e : write D) (s : assembler) : result assembler :=
  s ← match w_batches e with Some b => accrue_payment (next_batch_index s) b s | None => Ok s end;
  let a := if w_reset e then (reset (acc s)).2 else acc s in
  Ok (Assembler a (pending s) (revision s) (next_batch_index s + 1) (durable_payload_count s + Z.b2z (negb (w_tombstone e)))
        (durable_tombstone_count s + Z.b2z (w_tombstone e)) (rewards_by_hotkey s) (paid_groups s) (closed s) (straggler_count s) (last_straggler s)).

(** [_commit_write_locked]: whatever raises, the assembler is as it was. *)
Definition commit_write (e : write D) : method (assembler * W) unit := fun sw =>
  match encoded_window_journal_key (window_start c) (next_batch_index sw.1) with
  | Raise x => (Raise x, sw)
  | Ok k =>
      if negb (k =? w_key e) then (Raise RuntimeError, sw)
      else
        match commit_fn e sw.2 with
        | (Raise x, w) => (Raise x, (sw.1, w))
        | (Ok _, w) => match settle e sw.1 with Raise x => (Raise x, (sw.1, w)) | Ok s => (Ok tt, (s, w)) end
        end
  end.

(** [accept]; the image restored after an exception is the whole of the join's state. *)
Definition accept (environment : string) (chunk : list group) (window : Z) (rev : string) : method (assembler * W) unit := fun sw =>
  let '(s, w) := sw in
  if negb (bool_decide (environment ∈ env_order c)) then (Raise ValueError, sw)
  else if negb (window =? window_start c) then (Raise ValueError, sw)
  else if closed s then
    (Ok tt, (Assembler (acc s) (pending s) (revision s) (next_batch_index s) (durable_payload_count s) (durable_tombstone_count s) (rewards_by_hotkey s) (paid_groups s)
               (closed s) (straggler_count s + 1) (Some (environment, next_batch_index s)), w))
  else
    let s1 := Assembler (acc s) (<[environment := pending_of s environment ++ [chunk]]> (pending s)) rev (next_batch_index s) (durable_payload_count s)
                (durable_tombstone_count s) (rewards_by_hotkey s) (paid_groups s) (closed s) (straggler_count s) (last_straggler s) in
    match prepare_ready s1 with
    | (Raise x, _) => (Raise x, sw)
    | (Ok None, s2) => (Ok tt, (s2, w))
    | (Ok (Some e), s2) => match commit_write e (s2, w) with (Ok _, sw') => (Ok tt, sw') | (Raise x, (_, w')) => (Raise x, (s, w')) end
    end.

Definition outstanding (s : assembler) : bool := existsb (fun e => negb (count_of s e =? 0) || negb (bool_decide (pending_of s e = []))) (env_order c).

(** The first loop of [close]: each turn writes one entry or ends it, so the entries left
    below the target bound the turns. *)
Fixpoint write_remainder (train_partial_remainder : bool) (turns : nat) : method (assembler * W) unit := fun sw =>
  match turns with
  | O => (Ok tt, sw)
  | S turns =>
      match prepare_ready sw.1 with
      | (Raise x, s) => (Raise x, (s, sw.2))
      | (Ok (Some e), s) =>
          match commit_write e (s, sw.2) with (Ok _, sw) => write_remainder train_partial_remainder turns sw | (Raise x, sw) => (Raise x, sw) end
      | (Ok None, s) =>
          if negb (outstanding s) then (Ok tt, (s, sw.2))
          else
            match (if train_partial_remainder && has_groups_for_all_targets (acc s) then prepare_payload true s else prepare_remainder s) with
            | Raise x => (Raise x, (s, sw.2))
            | Ok e => match commit_write e (s, sw.2) with (Ok _, sw) => write_remainder train_partial_remainder turns sw | (Raise x, sw) => (Raise x, sw) end
            end
      end
  end.

(** Its second loop, up to the end of the window's range. *)
Fixpoint write_padding (turns : nat) : method (assembler * W) unit := fun sw =>
  match turns with
  | O => (Ok tt, sw)
  | S turns =>
      match prepare_padding sw.1 with
      | Raise x => (Raise x, sw)
      | Ok e => match commit_write e sw with (Ok _, sw) => write_padding turns sw | (Raise x, sw) => (Raise x, sw) end
      end
  end.

Definition set_closed (s : assembler) : assembler :=
  Assembler (acc s) (pending s) (revision s) (next_batch_index s) (durable_payload_count s) (durable_tombstone_count s) (rewards_by_hotkey s) (paid_groups s) true (straggler_count s) (last_straggler s).

(** [close] *)
Definition close (train_partial_remainder : bool) : method (assembler * W) unit := fun sw =>
  if closed sw.1 then (Ok tt, sw)
  else
    match write_remainder train_partial_remainder (Z.to_nat (picks_target c - next_batch_index sw.1)) sw with
    | (Raise x, sw) => (Raise x, sw)
    | (Ok _, sw) =>
        match write_padding (Z.to_nat (FILL_CLOSED_EMISSIONS_PER_WINDOW c - next_batch_index sw.1)) sw with
        | (Raise x, sw) => (Raise x, sw)
        | (Ok _, (s, w)) => (Ok tt, (set_closed s, w))
        end
    end.
End assembler.

(** ** The trainer's side: [trainer/journal.py] *)

Inductive journal_entry (D : Type) := PayloadEntry (d : D) | TombstoneEntry (d : D).
Arguments PayloadEntry {_} _.
Arguments TombstoneEntry {_} _.

Section journal.
Context {D : Type} `{TrainingCodec D} (c : fill_config).

(** [payload_key] and [tombstone_key] give two objects to one number. *)
Inductive object_key := PayloadKey (n : Z) | TombstoneKey (n : Z).

(** [next_entry], without an expected training identity. *)
Definition next_entry (fetch : object_key -> option D) (cursor stride : Z) : result (option (journal_entry D)) :=
  let target := cursor + stride in
  let expected := if FILL_CLOSED_ENABLED c then target / FILL_CLOSED_EMISSIONS_PER_WINDOW c else target in
  match fetch (PayloadKey target) with
  | Some d => w ← payload_window d; if w =? expected then Ok (Some (PayloadEntry d)) else Raise ValueError
  | None =>
      match fetch (TombstoneKey target) with
      | Some d => w ← tombstone_window d; if (w <? 0) || negb (w =? expected) then Raise ValueError else Ok (Some (TombstoneEntry d))
      | None => Ok None
      end
  end.

Definition active_journal_key_space : string := if FILL_CLOSED_ENABLED c then "fill_closed" else "raw".

(** [migrate_journal_cursor] *)
Definition migrate_journal_cursor (cursor : Z) (key_space : option string) : result (Z * string) :=
  if cursor <? 0 then Raise ValueError
  else
    stored ← match key_space with None => Ok "raw"%string | Some k => if String.eqb k "" then Raise ValueError else Ok k end;
    if negb (String.eqb stored "raw" || String.eqb stored "fill_closed") then Raise ValueError
    else if String.eqb stored active_journal_key_space then Ok (cursor, active_journal_key_space)
    else if FILL_CLOSED_ENABLED c then Ok ((cursor + 1) * FILL_CLOSED_EMISSIONS_PER_WINDOW c - 1, active_journal_key_space)
    else if negb (cursor mod FILL_CLOSED_EMISSIONS_PER_WINDOW c =? FILL_CLOSED_EMISSIONS_PER_WINDOW c - 1) then Raise ValueError
    else Ok (cursor / FILL_CLOSED_EMISSIONS_PER_WINDOW c, active_journal_key_space).
End journal.

(** * Chunks in line

    Upstream, a pick is a full batch of one environment: every chunk has [B_BATCH] groups
    and the window has one checkpoint.  An environment's slot of the accumulator is then
    empty or holds one chunk, and what an environment still has is a line of chunks. *)

Record config_ok (c : fill_config) : Prop := ConfigOk {
  ok_batch : 0 < B_BATCH c;
  ok_order : NoDup (env_order c) /\ env_order c <> [];
  ok_range : 1 <= picks_target c <= FILL_CLOSED_EMISSIONS_PER_WINDOW c;
  ok_enabled : FILL_CLOSED_ENABLED c = true;
  ok_pools : Forall (fun e => is_Some (pool_by_env c !! e)) (env_order c);
  ok_window : 0 <= window_start c;
}.

Definition full_chunk (c : fill_config) (l : list group) : Prop := Z.of_nat (length l) = B_BATCH c.

(** The chunk in the slot of an environment, and its line. *)
Definition slot (s : assembler) (e : string) : list group := default [] (groups <$> envs (acc s) !! e).
Definition line (s : assembler) (e : string) : list (list group) := (if bool_decide (slot s e = []) then [] else [slot s e]) ++ pending_of s e.

Record join_ok (c : fill_config) (rev : string) (s : assembler) : Prop := JoinOk {
  ok_dom e : is_Some (envs (acc s) !! e) <-> e ∈ env_order c;
  ok_target e a : envs (acc s) !! e = Some a -> target a = B_BATCH c;
  ok_slot e : slot s e = [] \/ full_chunk c (slot s e);
  ok_pending e ch : ch ∈ pending_of s e -> full_chunk c ch;
  ok_revision : checkpoint_revision (acc s) = None \/ checkpoint_revision (acc s) = Some rev;
  ok_current : revision s = rev \/ forall e, pending_of s e = [];
}.

(** Two states with the same lines and the same accounts. *)
Record same_books (s s' : assembler) : Prop := SameBooks {
  same_line e : line s' e = line s e;
  same_next : next_batch_index s' = next_batch_index s;
  same_rewards : rewards_by_hotkey s' = rewards_by_hotkey s;
  same_paid : paid_groups s' = paid_groups s;
  same_closed : closed s' = closed s;
}.

#[export] Instance same_books_preorder : PreOrder same_books.
Proof.
  split; [by split|]. intros s1 s2 s3 [A1 A2 A3 A4 A5] [B1 B2 B3 B4 B5].
  split; intros; rewrite ?B1, ?B2, ?B3, ?B4, ?B5; auto.
Qed.

Section join.
Context {c : fill_config} (Hc : config_ok c) {rev : string}.
Implicit Types (s : assembler).

Lemma count_slot s e : count_of s e = Z.of_nat (length (slot s e)).
Proof. done. Qed.

Lemma slot_room s e : join_ok c rev s -> (count_of s e <? B_BATCH c) = bool_decide (slot s e = []).
Proof.
  intros Hs. rewrite count_slot. pose proof (ok_batch _ Hc). destruct (ok_slot _ _ _ Hs e) as [E|E].
  - rewrite E, bool_decide_true by done. by apply Z.ltb_lt.
  - unfold full_chunk in E. rewrite E, Z.ltb_irrefl. symmetry. apply bool_decide_false. intros E'. rewrite E' in E. cbn in E. lia.
Qed.

Lemma full_not_nil ch : full_chunk c ch -> ch <> [].
Proof. intros Hf ->. pose proof (ok_batch _ Hc). unfold full_chunk in Hf. cbn in Hf. lia. Qed.

Lemma add_env_nil w (a : @env_acc group) : add_env w [] a = a.
Proof. unfold add_env, accepted_of. by rewrite take_nil. Qed.

(** A chunk fed to an empty slot is all there. *)
Lemma add_chunk s e ch : join_ok c rev s -> revision s = rev -> e ∈ env_order c -> slot s e = [] -> full_chunk c ch ->
  exists r a, add_window {[e := ch]} (window_start c) (revision s) (acc s) = (Ok r, a)
    /\ checkpoint_revision a = Some rev
    /\ (forall n, groups <$> envs a !! n = if decide (n = e) then Some ch else groups <$> envs (acc s) !! n)
    /\ (forall n, target <$> envs a !! n = target <$> envs (acc s) !! n).
Proof.
  intros Hs Hr He Hslot Hf. apply (ok_dom _ _ _ Hs) in He as [x Hx]. unfold add_window.
  rewrite bool_decide_true by (rewrite dom_singleton_L; apply singleton_subseteq_l, elem_of_dom; eauto).
  assert (Hst : match checkpoint_revision (acc s) with Some r => negb (String.eqb r (revision s)) | None => false end = false).
  { rewrite Hr. destruct (ok_revision _ _ _ Hs) as [-> | ->]; [done|]. by rewrite String.eqb_refl. }
  rewrite Hst. eexists _, _. split; [reflexivity|]. cbn [checkpoint_revision envs]. split; [by rewrite Hr|].
  assert (Hg : groups x = []) by (unfold slot in Hslot; rewrite Hx in Hslot; done).
  assert (Hadd : forall n y, envs (acc s) !! n = Some y -> n <> e -> add_env (window_start c) (incoming_of {[e := ch]} n) y = y).
  { intros n y _ Hn. unfold incoming_of. rewrite lookup_singleton_ne by done. apply add_env_nil. }
  assert (Hacc : accepted_of x ch = ch).
  { unfold accepted_of. rewrite Hg. cbn [length]. rewrite take_ge; [done|]. pose proof (ok_target _ _ _ Hs e x Hx). unfold full_chunk in Hf. lia. }
  split; intros n; rewrite map_lookup_imap; (destruct (decide (n = e)) as [->|Hn]; [rewrite Hx|destruct (envs (acc s) !! n) as [y|] eqn:Hy]); cbn; try done.
  - unfold incoming_of. rewrite lookup_singleton_eq. cbn. unfold add_env. rewrite Hacc. destruct ch as [|g ch]; cbn; rewrite ?Hg; done.
  - by rewrite (Hadd n y).
  - unfold incoming_of. rewrite lookup_singleton_eq. cbn. unfold add_env. rewrite Hacc. destruct ch as [|g ch]; done.
  - by rewrite (Hadd n y).
Qed.

Lemma pending_of_set e r s n : pending_of (set_pending (<[e := r]> (pending s)) s) n = if decide (n = e) then r else pending_of s n.
Proof.
  unfold pending_of. cbn. destruct (decide (n = e)) as [->|Hn]; [by rewrite lookup_insert_eq|by rewrite lookup_insert_ne].
Qed.

(** Feeding one environment moves the head of its line into its slot. *)
Lemma feed_env_spec s e ch rest : join_ok c rev s -> e ∈ env_order c -> slot s e = [] -> pending_of s e = ch :: rest ->
  exists s', (forall counts, counts e <? B_BATCH c = true -> feed_env c counts e s = (Ok true, s')) /\ join_ok c rev s' /\ same_books s s'
    /\ pending_of s' e = rest /\ (forall n, n <> e -> slot s' n = slot s n /\ pending_of s' n = pending_of s n).
Proof.
  intros Hs He Hslot Hp. assert (Hrev : revision s = rev).
  { destruct (ok_current _ _ _ Hs) as [|Hn]; [done|]. by rewrite Hn in Hp. }
  assert (Hf : full_chunk c ch) by (apply (ok_pending _ _ _ Hs e); rewrite Hp; set_solver).
  set (s1 := set_pending (<[e := rest]> (pending s)) s).
  assert (Hs1 : join_ok c rev s1).
  { destruct Hs as [A1 A2 A3 A4 A5 A6]. split; try done.
    - intros n x. unfold s1. rewrite pending_of_set. destruct (decide (n = e)) as [->|]; [|eauto]. intros Hx. apply (A4 e). rewrite Hp. set_solver.
    - by left. }
  destruct (add_chunk s1 e ch Hs1 Hrev He Hslot Hf) as (r & a & Ea & Er & Eg & Et).
  assert (Hsl : forall n, slot (set_acc a s1) n = if decide (n = e) then ch else slot s n).
  { intros n. unfold slot. cbn [acc set_acc]. rewrite Eg. destruct (decide (n = e)); done. }
  assert (Hpe : forall n, pending_of (set_acc a s1) n = if decide (n = e) then rest else pending_of s n).
  { intros n. change (pending_of (set_acc a s1) n) with (pending_of s1 n). apply pending_of_set. }
  exists (set_acc a s1). split_and!.
  - intros counts Hlt. unfold feed_env. rewrite Hp, Hlt. fold s1. change (revision s) with (revision s1). change (acc s) with (acc s1). by rewrite Ea.
  - split.
    + intros n. rewrite <- (ok_dom _ _ _ Hs1 n). cbn [acc set_acc]. specialize (Et n). destruct (envs a !! n), (envs (acc s1) !! n); cbn in Et; try done.
    + intros n x Hx. specialize (Et n). cbn [acc set_acc] in Hx. rewrite Hx in Et. destruct (envs (acc s1) !! n) as [y|] eqn:Hy; [|done].
      injection Et as ->. by apply (ok_target _ _ _ Hs1 n).
    + intros n. rewrite Hsl. destruct (decide (n = e)); [by right|apply (ok_slot _ _ _ Hs)].
    + intros n x. rewrite Hpe. destruct (decide (n = e)) as [->|]; [|apply (ok_pending _ _ _ Hs)]. intros Hx. apply (ok_pending _ _ _ Hs e). rewrite Hp. set_solver.
    + right. done.
    + left. done.
  - split; try done. intros n. unfold line. rewrite Hsl, Hpe. destruct (decide (n = e)) as [->|]; [|done].
    rewrite Hslot, Hp, bool_decide_false by (by apply full_not_nil). by rewrite bool_decide_true.
  - rewrite Hpe. by rewrite decide_True.
  - intros n Hn. rewrite Hsl, Hpe, !decide_False by done. done.
Qed.

(** How many chunks wait in the lines of [es]. *)
Definition waits (es : list string) s : nat := sum_list ((fun e => length (pending_of s e)) <$> es).

Lemma waits_cons e es s : waits (e :: es) s = (length (pending_of s e) + waits es s)%nat.
Proof. done. Qed.

Lemma waits_same es s s' : (forall e, e ∈ es -> pending_of s' e = pending_of s e) -> waits es s' = waits es s.
Proof.
  intros Hp. unfold waits. f_equal. apply list_fmap_ext. intros i e He. rewrite Hp; [done|]. by eapply list_elem_of_lookup_2.
Qed.

Lemma feed_spec es : forall s counts fed, join_ok c rev s -> NoDup es -> (forall e, e ∈ es -> e ∈ env_order c /\ counts e = count_of s e) ->
  exists b s', feed c counts es fed s = (Ok b, s') /\ join_ok c rev s' /\ same_books s s'
    /\ (forall n, n ∉ es -> slot s' n = slot s n /\ pending_of s' n = pending_of s n)
    /\ (waits es s' + (if b then if fed then 0 else 1 else 0) <= waits es s)%nat
    /\ (b = false -> fed = false /\ s' = s /\ forall e, e ∈ es -> slot s e = [] -> pending_of s e = []).
Proof.
  induction es as [|e es IH]; intros s counts fed Hs Hnd Hes; cbn [feed].
  - exists fed, s. split_and!; try done; [destruct fed; cbn; lia|]. intros ->. split_and!; set_solver.
  - apply NoDup_cons in Hnd as [Hne Hnd]. destruct (Hes e ltac:(set_solver)) as [He Hce].
    assert (Hlt : counts e <? B_BATCH c = bool_decide (slot s e = [])) by (rewrite Hce; by apply slot_room).
    destruct (pending_of s e) as [|ch rest] eqn:Hp; [|destruct (bool_decide (slot s e = [])) eqn:Hsl].
    + unfold feed_env. rewrite Hp, orb_false_r. destruct (IH s counts fed Hs Hnd ltac:(set_solver)) as (b & s' & E & H1 & H2 & H3 & H4 & H5).
      exists b, s'. split_and!; [done|done|done| | |].
      * intros n Hn. apply H3. set_solver.
      * destruct (H3 e Hne) as [_ Hpe]. rewrite !waits_cons, Hpe, Hp. cbn [length]. lia.
      * intros Hb. destruct (H5 Hb) as (F1 & F2 & F3). split_and!; [done|done|]. intros x [->|Hx]%elem_of_cons; [done|auto].
    + apply bool_decide_eq_true in Hsl. destruct (feed_env_spec s e ch rest Hs He Hsl Hp) as (s1 & E1 & Hs1 & Hb1 & Hp1 & Ho1).
      rewrite E1 by done. rewrite orb_true_r.
      destruct (IH s1 counts true Hs1 Hnd) as (b & s' & E & H1 & H2 & H3 & H4 & H5).
      { intros x Hx. destruct (Hes x ltac:(set_solver)) as [Hx1 Hx2]. split; [done|]. rewrite Hx2, !count_slot.
        destruct (Ho1 x) as [-> _]; [set_solver|done]. }
      exists b, s'. split_and!; [done|done|by etrans| | |].
      * intros n Hn. destruct (H3 n ltac:(set_solver)) as [-> ->]. apply Ho1. set_solver.
      * assert (Hw : waits es s1 = waits es s) by (apply waits_same; intros x Hx; apply Ho1; set_solver).
        destruct (H3 e Hne) as [_ Hpe]. rewrite !waits_cons, Hpe, Hp, Hp1. cbn [length]. destruct b, fed; lia.
      * intros Hb. by destruct (H5 Hb).
    + unfold feed_env. rewrite Hp, Hlt, orb_false_r. destruct (IH s counts fed Hs Hnd ltac:(set_solver)) as (b & s' & E & H1 & H2 & H3 & H4 & H5).
      exists b, s'. split_and!; [done|done|done| | |].
      * intros n Hn. apply H3. set_solver.
      * destruct (H3 e Hne) as [_ Hpe]. rewrite !waits_cons, Hpe, Hp. cbn [length]. lia.
      * intros Hb. destruct (H5 Hb) as (F1 & F2 & F3). split_and!; [done|done|]. intros x [->|Hx]%elem_of_cons; [|auto].
        intros Hx. apply bool_decide_eq_false in Hsl. done.
Qed.
End join.

(** ** Preparing and settling a row *)

Section rows.
Context {D W : Type} `{TrainingCodec D, DurableJournal D W} {c : fill_config} (Hc : config_ok c) {rev : string}.
Implicit Types (s : assembler).

Lemma envs_slot s e : join_ok c rev s -> e ∈ env_order c -> exists a, envs (acc s) !! e = Some a /\ groups a = slot s e /\ target a = B_BATCH c.
Proof.
  intros Hs He. apply (ok_dom _ _ _ Hs) in He as [a Ha]. exists a. unfold slot. rewrite Ha. split_and!; [done|done|]. by apply (ok_target _ _ _ Hs e).
Qed.

Lemma slots_ready s : join_ok c rev s -> ready (acc s) = true <-> forall e, e ∈ env_order c -> slot s e <> [].
Proof.
  intros Hs. rewrite ready_iff. split.
  - intros Hr e He Hn. destruct (envs_slot s e Hs He) as (a & Ha & Hg & Ht). specialize (Hr e a Ha). rewrite Ht, Hg, Hn in Hr.
    pose proof (ok_batch _ Hc). cbn in Hr. lia.
  - intros Hr e a Ha. assert (He : e ∈ env_order c) by (apply (ok_dom _ _ _ Hs); eauto).
    destruct (envs_slot s e Hs He) as (a' & Ha' & Hg & Ht). simplify_eq. rewrite Ht, Hg. destruct (ok_slot _ _ _ Hs e) as [E|E]; [by destruct (Hr e He)|].
    unfold full_chunk in E. lia.
Qed.

Lemma slots_partial s : join_ok c rev s -> has_groups_for_all_targets (acc s) = true -> ready (acc s) = true.
Proof.
  intros Hs Hg. apply slots_ready; [done|]. intros e He Hn. destruct (envs_slot s e Hs He) as (a & Ha & Hga & Ht).
  unfold has_groups_for_all_targets in Hg. rewrite forallb_forall in Hg. specialize (Hg (e, a)). cbn in Hg. unfold env_has_groups in Hg.
  rewrite Hga, Hn, Ht in Hg. pose proof (ok_batch _ Hc). destruct (Z.eqb_spec (B_BATCH c) 0); [lia|]. cbn in Hg.
  discriminate Hg. by apply list_elem_of_In, elem_of_map_to_list.
Qed.

Lemma order_ok s : join_ok c rev s -> order_matches (env_order c) (acc s) = true.
Proof.
  intros Hs. apply order_matches_perm. apply NoDup_Permutation; [apply (ok_order _ Hc)|apply NoDup_elements|].
  intros e. rewrite elem_of_elements, elem_of_dom. symmetry. apply (ok_dom _ _ _ Hs).
Qed.

Lemma held_slots s : join_ok c rev s -> held_groups (env_order c) (acc s) = Ok (slot s <$> env_order c).
Proof.
  intros Hs. unfold held_groups. rewrite order_ok by done. f_equal. apply list_fmap_ext. intros i e He%list_elem_of_lookup_2.
  destruct (envs_slot s e Hs He) as (a & Ha & Hg & Ht). unfold held. rewrite Ha, Hg, Ht. apply take_ge.
  destruct (ok_slot _ _ _ Hs e) as [->|E]; [cbn; lia|]. unfold full_chunk in E. lia.
Qed.

(** The batches of the row in the slots. *)
Definition row s : list (string * list group) := zip (env_order c) (slot s <$> env_order c).

Lemma row_alt s : row s = (fun e => (e, slot s e)) <$> env_order c.
Proof. unfold row. induction (env_order c) as [|e es IH]; cbn; [done|by rewrite IH]. Qed.

(** Preparing stops on a full row, or when every chunk that could be fed has been. *)
Lemma prepare_next_ready_spec fuel : forall s, join_ok c rev s -> (waits (env_order c) s < fuel)%nat ->
  exists s', join_ok c rev s' /\ same_books s s' /\
    ((ready (acc s') = true /\ prepare_next_ready c fuel s = (Some <$> prepare_payload c false s', s'))
     \/ (ready (acc s') = false /\ prepare_next_ready c fuel s = (Ok None, s') /\ forall e, e ∈ env_order c -> slot s' e = [] -> line s' e = [])).
Proof.
  induction fuel as [|fuel IH]; intros s Hs Hf; [lia|]. cbn [prepare_next_ready]. destruct (ready (acc s)) eqn:Hr; [exists s; split_and!; [done|done|by left]|].
  destruct (feed_spec Hc (env_order c) s (count_of s) false Hs (proj1 (ok_order _ Hc)) ltac:(done)) as (b & s1 & E & Hs1 & Hb1 & _ & Hw & Hn).
  rewrite E. destruct b.
  - destruct (IH s1 Hs1 ltac:(cbn in Hw; lia)) as (s' & Hs' & Hb' & Hx). exists s'. split_and!; [done|by etrans|done].
  - destruct (Hn eq_refl) as (_ & -> & Hp). exists s. split_and!; [done|done|]. right. split_and!; [done|done|].
    intros e He Hsl. unfold line. rewrite Hsl, bool_decide_true by done. cbn. by apply Hp.
Qed.

Lemma prepare_ready_spec s : join_ok c rev s ->
  exists s', join_ok c rev s' /\ same_books s s' /\
    ((ready (acc s') = true /\ prepare_ready c s = (Some <$> prepare_payload c false s', s'))
     \/ (ready (acc s') = false /\ prepare_ready c s = (Ok None, s') /\ forall e, e ∈ env_order c -> slot s' e = [] -> line s' e = [])).
Proof. intros Hs. apply prepare_next_ready_spec; [done|]. unfold waiting. unfold waits. lia. Qed.

(** The key of an entry, and what its data names. *)
Definition entry_at (i : Z) (e : write D) : Prop :=
  w_key e = window_start c * FILL_CLOSED_EMISSIONS_PER_WINDOW c + i
  /\ (if w_tombstone e then tombstone_window (w_data e) else payload_window (w_data e)) = Ok (window_start c).

Definition is_clean (batches : list (string * list group)) : bool :=
  negb (quarantined (assess_training_batch (cap_by_env c) (default_cap c) TRAINING_QUARANTINE_ENABLED (concat (snd <$> batches)) ∅)).

Lemma key_at i : 0 <= i < FILL_CLOSED_EMISSIONS_PER_WINDOW c ->
  encoded_window_journal_key c (window_start c) i = Ok (window_start c * FILL_CLOSED_EMISSIONS_PER_WINDOW c + i).
Proof.
  intros Hi. unfold encoded_window_journal_key. rewrite (ok_enabled _ Hc). cbn [negb].
  destruct (Z.leb_spec 0 i), (Z.ltb_spec i (FILL_CLOSED_EMISSIONS_PER_WINDOW c)); done || lia.
Qed.

Lemma prepare_payload_spec s partial e : join_ok c rev s -> 0 <= next_batch_index s -> prepare_payload c partial s = Ok e ->
  next_batch_index s < picks_target c /\ ready (acc s) = true
  /\ entry_at (next_batch_index s) e /\ w_batches e = Some (row s) /\ w_reset e = true /\ w_tombstone e = negb (is_clean (row s)).
Proof.
  intros Hs Hn. unfold prepare_payload. destruct (Z.leb_spec (picks_target c) (next_batch_index s)) as [|Hlt]; [done|].
  intros (ex & Eex & Hm)%bind_ok_inv. unfold training_batches in Eex.
  destruct (negb (ready (acc s)) && negb (partial && has_groups_for_all_targets (acc s))) eqn:Hr; [done|]. rewrite held_slots in Eex by done. injection Eex as <-.
  assert (Hrd : ready (acc s) = true).
  { destruct (ready (acc s)) eqn:E; [done|]. cbn in Hr. apply negb_false_iff, andb_true_iff in Hr as [_ Hr]. apply slots_partial in Hr; [congruence|done]. }
  pose proof (ok_range _ Hc). rewrite key_at in Hm by lia. cbn [mbind result_bind] in Hm.
  assert (Hcl : quarantined (assess_training_batch (cap_by_env c) (default_cap c) TRAINING_QUARANTINE_ENABLED (concat (slot s <$> env_order c)) ∅) = negb (is_clean (row s))).
  { unfold is_clean. rewrite negb_involutive, row_alt, <- list_fmap_compose. done. }
  rewrite Hcl in Hm. destruct (is_clean (row s)); cbn [negb] in Hm.
  - apply bind_ok_inv in Hm as (d & Ed & [= <-]). split_and!; try done. split; [done|]. cbn. by eapply payload_reads_back.
  - injection Hm as <-. split_and!; try done. split; [done|]. cbn. apply tombstone_reads_back, (ok_window _ Hc).
Qed.

Lemma payload_raises s partial x : join_ok c rev s -> 0 <= next_batch_index s < picks_target c -> ready (acc s) = true ->
  prepare_payload c partial s = Raise x -> exists batches w r, encode_training_payload (D := D) batches w r = Raise x.
Proof.
  intros Hs Hn Hr. pose proof (ok_range _ Hc). unfold prepare_payload. destruct (Z.leb_spec (picks_target c) (next_batch_index s)); [lia|].
  unfold training_batches. rewrite Hr. cbn [negb andb]. rewrite held_slots by done. cbn [mbind result_bind]. rewrite key_at by lia. cbn [mbind result_bind].
  destruct (quarantined _); [done|]. destruct (encode_training_payload _ _ _) eqn:E; cbn; [done|]. intros [= ->]. eauto.
Qed.

Lemma prepare_remainder_spec s : join_ok c rev s -> 0 <= next_batch_index s < picks_target c ->
  exists e, prepare_remainder c s = Ok e /\ entry_at (next_batch_index s) e /\ w_batches e = Some (row s) /\ w_reset e = true /\ w_tombstone e = true.
Proof.
  intros Hs Hn. pose proof (ok_range _ Hc). unfold prepare_remainder. destruct (Z.leb_spec (picks_target c) (next_batch_index s)); [lia|].
  rewrite key_at by lia. cbn. rewrite held_slots by done. cbn. eexists. split_and!; [reflexivity| |done..]. split; [done|]. cbn. apply tombstone_reads_back, (ok_window _ Hc).
Qed.

Lemma prepare_padding_spec s : 0 <= next_batch_index s < FILL_CLOSED_EMISSIONS_PER_WINDOW c ->
  exists e, prepare_padding c s = Ok e /\ entry_at (next_batch_index s) e /\ w_batches e = None /\ w_reset e = false /\ w_tombstone e = true.
Proof.
  intros Hn. unfold prepare_padding. destruct (Z.leb_spec (FILL_CLOSED_EMISSIONS_PER_WINDOW c) (next_batch_index s)); [lia|].
  rewrite key_at by lia. cbn. eexists. split_and!; [reflexivity| |done..]. split; [done|]. cbn. apply tombstone_reads_back, (ok_window _ Hc).
Qed.

(** ** Payment of a row *)

Definition env_shares (eb : string * list group) : list (string * float) :=
  let share := fdiv (fdiv (default 0 (pool_by_env c !! eb.1)) (of_int (picks_target c))) (of_int (B_BATCH c)) in
  foldl (fun d g => credit (g_hotkey g) share d) [] eb.2.
Definition pay_env (d : list (string * float)) (eb : string * list group) : list (string * float) := foldl (fun d kx => credit kx.1 kx.2 d) d (env_shares eb).
Definition pay_row (d : list (string * float)) (batches : list (string * list group)) : list (string * float) := foldl pay_env d batches.

Definition file_env (i : Z) (m : gmap string (list (Z * group))) (eb : string * list group) : gmap string (list (Z * group)) :=
  <[eb.1 := default [] (m !! eb.1) ++ ((fun g => (i, g)) <$> eb.2)]> m.

Lemma pay_shares share gs d : foldl (fun d g => credit (ag_hotkey g) share d) d ((fun g => AcceptedGroup (g_hotkey g) (g_hotkey g) (g_eos_tokens g)) <$> gs)
  = foldl (fun d g => credit (g_hotkey g) share d) d gs.
Proof. revert d. induction gs as [|g gs IH]; intros d; cbn; [done|apply IH]. Qed.

Lemma accrue_env_spec i s eb : eb.1 ∈ env_order c -> Z.of_nat (length eb.2) <= B_BATCH c ->
  accrue_env c i s eb = Ok (set_paid (pay_env (rewards_by_hotkey s) eb) (file_env i (paid_groups s) eb) s).
Proof.
  intros He Hl. unfold accrue_env, pay_env, env_shares. pose proof (proj1 (Forall_forall _ _) (ok_pools _ Hc) eb.1 He) as [p Hp]. rewrite Hp.
  cbn [mbind result_bind default]. unfold split_fixed_environment_pool. pose proof (ok_batch _ Hc). destruct (Z.leb_spec (B_BATCH c) 0); [lia|]. rewrite length_fmap.
  destruct (Z.ltb_spec (B_BATCH c) (Z.of_nat (length eb.2))); [lia|]. cbn [mbind result_bind]. by rewrite pay_shares.
Qed.

Lemma accrue_payment_spec i batches : forall s,
  Forall (fun eb => eb.1 ∈ env_order c /\ Z.of_nat (length eb.2) <= B_BATCH c) batches ->
  accrue_payment c i batches s = Ok (set_paid (pay_row (rewards_by_hotkey s) batches) (foldl (file_env i) (paid_groups s) batches) s).
Proof.
  induction batches as [|eb batches IH]; intros s Hb; [by destruct s|]. apply Forall_cons in Hb as [[He Hl] Hb].
  unfold accrue_payment in *. cbn [fold_result]. rewrite accrue_env_spec by done. cbn [mbind result_bind]. by rewrite IH.
Qed.
End rows.

(** ** What the chunks in line come to

    [L e] lists the chunks accepted for an environment: row [i] of the window joins the
    [i]-th of each, and pays it in batch [i]. *)

Lemma drop_S_tail {A} (l : list A) n : drop (S n) l = tail (drop n l).
Proof. revert n. induction l as [|x l IH]; intros [|n]; try done. apply IH. Qed.

Section spec.
Context (c : fill_config).
Implicit Types (L : string -> list (list group)).

Definition batches_at L (i : nat) : list (string * list group) := (fun e => (e, default [] (L e !! i))) <$> env_order c.
Definition some_at L (i : nat) : bool := existsb (fun e => bool_decide (is_Some (L e !! i))) (env_order c).
Definition full_at L (i : nat) : bool := forallb (fun e => bool_decide (is_Some (L e !! i))) (env_order c).
Definition row_at L (i : nat) : option (list (string * list group)) := if some_at L i then Some (batches_at L i) else None.

Definition in_batch (i : nat) (ch : list group) : list (Z * group) := (fun g => (Z.of_nat i, g)) <$> ch.
Definition paid_at L (n : nat) (e : string) : list (Z * group) := concat (imap in_batch (take n (L e))).
Definition pay_at (d : list (string * float)) (r : option (list (string * list group))) : list (string * float) :=
  match r with Some b => pay_row (c := c) d b | None => d end.
Definition pay_all L (n : nat) : list (string * float) := foldl pay_at [] (row_at L <$> seq 0 n).

Lemma paid_at_S L n e : paid_at L (S n) e = paid_at L n e ++ in_batch n (default [] (L e !! n)).
Proof.
  unfold paid_at. destruct (L e !! n) as [ch|] eqn:Hn; cbn [default].
  - rewrite (take_S_r _ _ _ Hn), imap_app, concat_app. f_equal. cbn. apply lookup_lt_Some in Hn. rewrite app_nil_r, length_take, Nat.min_l, Nat.add_0_r by lia. done.
  - apply lookup_ge_None in Hn. cbn. rewrite !take_ge, app_nil_r by lia. done.
Qed.

Lemma pay_all_S L n : pay_all L (S n) = pay_at (pay_all L n) (row_at L n).
Proof. unfold pay_all. rewrite seq_S, fmap_app, foldl_app. done. Qed.

Lemma filed_at i (f : string -> list group) es : forall m e, NoDup es ->
  foldl (file_env i) m ((fun e => (e, f e)) <$> es) !! e = if decide (e ∈ es) then Some (default [] (m !! e) ++ ((fun g => (i, g)) <$> f e)) else m !! e.
Proof.
  induction es as [|x es IH]; intros m e Hnd; cbn [fmap list_fmap foldl]; [by rewrite decide_False by apply not_elem_of_nil|].
  apply NoDup_cons in Hnd as [Hx Hnd]. rewrite IH by done. unfold file_env. cbn [fst snd]. destruct (decide (e = x)) as [->|Hne].
  - rewrite decide_False by done. rewrite decide_True by set_solver. by rewrite lookup_insert_eq.
  - rewrite lookup_insert_ne by done. destruct (decide (e ∈ es)); [rewrite decide_True by set_solver|rewrite decide_False by set_solver]; done.
Qed.
End spec.

Section tracks.
Context {D W : Type} `{TrainingCodec D, DurableJournal D W} {c : fill_config} (Hc : config_ok c) {rev : string}.
Implicit Types (s : assembler) (L : string -> list (list group)).

(** The assembler after [n] rows of [L]. *)
Record tracks L (n : nat) s (es : list (write D)) : Prop := Tracks {
  tr_join : join_ok c rev s;
  tr_next : next_batch_index s = Z.of_nat n;
  tr_line e : e ∈ env_order c -> line s e = drop n (L e);
  tr_paid e : e ∈ env_order c -> paid_groups s !! e = Some (paid_at L n e);
  tr_rewards : rewards_by_hotkey s = pay_all c L n;
  tr_length : length es = n;
  tr_entries i e : es !! i = Some e -> entry_at (c := c) (Z.of_nat i) e /\ w_batches e = row_at c L i
    /\ w_tombstone e = negb (full_at c L i && is_clean (c := c) (batches_at c L i));
}.

Lemma tracks_same L n s s' es : same_books s s' -> join_ok c rev s' -> tracks L n s es -> tracks L n s' es.
Proof.
  intros [E1 E2 E3 E4 _] Hj [A1 A2 A3 A4 A5 A6 A7]. split; [done|by rewrite E2| |intros e He; rewrite E4; auto|by rewrite E3|done|done].
  intros e He. rewrite E1. auto.
Qed.

(** Every chunk that can be in a slot is there. *)
Definition primed s : Prop := forall e, e ∈ env_order c -> slot s e = [] -> line s e = [].

Lemma slot_at L n s es e : tracks L n s es -> primed s -> e ∈ env_order c -> L e !! n = if bool_decide (slot s e = []) then None else Some (slot s e).
Proof.
  intros Ht Hp He. pose proof (tr_line _ _ _ _ Ht e He) as Hl. case_bool_decide as Hs.
  - rewrite (Hp e He Hs) in Hl. apply lookup_ge_None. apply (f_equal length) in Hl. rewrite length_drop in Hl. cbn in Hl. lia.
  - unfold line in Hl. rewrite bool_decide_false in Hl by done. rewrite <- (Nat.add_0_r n), <- lookup_drop, <- Hl. done.
Qed.

Lemma row_primed L n s es : tracks L n s es -> primed s -> row (c := c) s = batches_at c L n.
Proof.
  intros Ht Hp. rewrite row_alt. apply list_fmap_ext. intros i e He%list_elem_of_lookup_2. f_equal.
  rewrite (slot_at _ _ _ _ _ Ht Hp He). case_bool_decide as Hs; [by rewrite Hs|done].
Qed.

Lemma full_primed L n s es : tracks L n s es -> primed s -> full_at c L n = ready (acc s).
Proof.
  intros Ht Hp. apply eq_bool_prop_intro. rewrite !Is_true_true, (slots_ready Hc) by apply (tr_join _ _ _ _ Ht). unfold full_at. rewrite forallb_forall. split.
  - intros Hf e He Hs. specialize (Hf e ltac:(by apply list_elem_of_In)). rewrite (slot_at _ _ _ _ _ Ht Hp He), (bool_decide_true (slot s e = [])) in Hf by done. by apply bool_decide_eq_true, is_Some_None in Hf.
  - intros Hr e He%list_elem_of_In. apply bool_decide_eq_true. rewrite (slot_at _ _ _ _ _ Ht Hp He), (bool_decide_false (slot s e = [])) by auto. done.
Qed.

Lemma some_primed L n s es : tracks L n s es -> primed s -> some_at c L n = existsb (fun e => negb (bool_decide (slot s e = []))) (env_order c).
Proof.
  intros Ht Hp. unfold some_at. assert (He : forall es', (forall e, e ∈ es' -> e ∈ env_order c) -> existsb (fun e => bool_decide (is_Some (L e !! n))) es' = existsb (fun e => negb (bool_decide (slot s e = []))) es').
  { induction es' as [|e es' IH]; intros Hin; cbn; [done|]. rewrite IH by set_solver. f_equal. rewrite (slot_at _ _ _ _ _ Ht Hp) by set_solver.
    destruct (bool_decide (slot s e = [])); [by rewrite bool_decide_false by by intros []|by rewrite bool_decide_true]. }
  by apply He.
Qed.

Lemma cleared_slot a e : default [] (groups <$> envs (cleared a) !! e) = ([] : list group).
Proof. cbn. rewrite lookup_fmap. by destruct (envs a !! e). Qed.

Lemma settled_join s p r n1 n2 n3 cl st ls : join_ok c rev s ->
  join_ok c rev (Assembler (cleared (acc s)) (pending s) (revision s) n1 n2 n3 r p cl st ls).
Proof.
  intros [A1 A2 A3 A4 A5 A6]. split; cbn; try done.
  - intros e. rewrite lookup_fmap, fmap_is_Some. apply A1.
  - intros e a. rewrite lookup_fmap. destruct (envs (acc s) !! e) as [x|] eqn:E; [|done]. intros [= <-]. cbn. by apply (A2 e).
  - intros e. left. unfold slot. cbn [acc]. apply cleared_slot.
  - by left.
Qed.

Lemma batches_fit L n s es : tracks L n s es -> primed s -> Forall (fun eb => eb.1 ∈ env_order c /\ Z.of_nat (length eb.2) <= B_BATCH c) (batches_at c L n).
Proof.
  intros Ht Hp. apply Forall_fmap, Forall_forall. intros e He. cbn. split; [done|]. rewrite (slot_at _ _ _ _ _ Ht Hp He). pose proof (ok_batch _ Hc).
  case_bool_decide as Hs; cbn; [lia|]. destruct (ok_slot _ _ _ (tr_join _ _ _ _ Ht) e) as [|E]; [done|]. unfold full_chunk in E. lia.
Qed.

(** The next row is paid, cleared and journalled, or nothing happens. *)
Lemma commit_row L n s w e : tracks L n s (entries w) -> primed s -> Z.of_nat n < FILL_CLOSED_EMISSIONS_PER_WINDOW c ->
  entry_at (c := c) (Z.of_nat n) e -> w_batches e = row_at c L n -> w_reset e = some_at c L n ->
  w_tombstone e = negb (full_at c L n && is_clean (c := c) (batches_at c L n)) ->
  (exists s' w', commit_write c e (s, w) = (Ok tt, (s', w')) /\ tracks L (S n) s' (entries w') /\ closed s' = closed s)
  \/ (exists x w', commit_write c e (s, w) = (Raise x, (s, w')) /\ entries w' = entries w /\ commit_fn e w = (Raise x, w')).
Proof.
  intros Ht Hp Hn He Hb Hre Hto. pose proof Ht as [A1 A2 A3 A4 A5 A6 A7]. unfold commit_write. cbn [fst snd]. rewrite A2, key_at by (done || lia).
  rewrite (proj1 He), Z.eqb_refl. cbn [negb]. destruct (commit_fn e w) as [[[]|x] w'] eqn:Ecm; [|right; exists x, w'; split_and!; [done|by eapply commit_raise|done]].
  left. unfold settle. rewrite Hb, Hre. unfold row_at.
  assert (Hents : entries w' = entries w ++ [e]) by by eapply commit_ok.
  assert (Hnew : forall i e', (entries w ++ [e]) !! i = Some e' -> entry_at (c := c) (Z.of_nat i) e' /\ w_batches e' = row_at c L i /\ w_tombstone e' = negb (full_at c L i && is_clean (c := c) (batches_at c L i))).
  { intros i e' [Hi|[-> [= <-]]]%lookup_snoc_Some; [by apply A7; destruct Hi|]. rewrite A6. done. }
  destruct (some_at c L n) eqn:Hs.
  - rewrite (accrue_payment_spec Hc) by by eapply batches_fit. cbn [mbind result_bind]. eexists _, _. split; [reflexivity|]. split; [|done].
    split; [exact (settled_join s _ _ _ _ _ _ _ _ A1)|cbn; rewrite A2; lia| | | | |].
    + intros x Hx. unfold line, slot. cbn [acc reset snd pending_of]. rewrite cleared_slot. cbn. pose proof (slot_at _ _ _ _ _ Ht Hp Hx) as Hsl. pose proof (A3 x Hx) as Hl. unfold line in Hl.
      rewrite drop_S_tail. rewrite <- Hl. case_bool_decide as Hse; [|done]. cbn in *.
      pose proof (Hp x Hx Hse) as Hnil. unfold line in Hnil. rewrite bool_decide_true in Hnil by done. cbn in Hnil. unfold pending_of in *. cbn. by rewrite Hnil.
    + intros x Hx. cbn [paid_groups set_paid]. unfold batches_at. rewrite filed_at by apply (ok_order _ Hc). rewrite decide_True by done. rewrite A4 by done. cbn. rewrite paid_at_S. by rewrite A2.
    + cbn [rewards_by_hotkey set_paid]. rewrite pay_all_S. unfold row_at. rewrite Hs, A5. done.
    + rewrite Hents, length_app, A6. cbn. lia.
    + rewrite Hents. done.
  - cbn [mbind result_bind]. eexists _, _. split; [reflexivity|]. split; [|done].
    assert (Hnone : forall x, x ∈ env_order c -> L x !! n = None).
    { intros x Hx. apply eq_None_not_Some. intros Hi. unfold some_at in Hs. rewrite (proj2 (existsb_exists _ _)) in Hs; [done|]. exists x. split; [by apply list_elem_of_In|by apply bool_decide_eq_true]. }
    split; [destruct A1; by split|cbn; rewrite A2; lia| | | | |].
    + intros x Hx. change (line s x = drop (S n) (L x)). rewrite (A3 x Hx). pose proof (Hnone x Hx) as Hnx. apply lookup_ge_None in Hnx. rewrite !drop_ge by lia. done.
    + intros x Hx. cbn. rewrite A4, paid_at_S, (Hnone x Hx) by done. cbn. by rewrite app_nil_r.
    + cbn [rewards_by_hotkey]. rewrite pay_all_S. unfold row_at. by rewrite Hs, A5.
    + rewrite Hents, length_app, A6. cbn. lia.
    + rewrite Hents. done.
Qed.
End tracks.

(** ** The life of a window *)

Section life.
Context {D W : Type} `{TrainingCodec D, DurableJournal D W} {c : fill_config} (Hc : config_ok c) {rev : string}.
Implicit Types (s : assembler) (L : string -> list (list group)).
Abbreviation tracks := (tracks (c := c) (rev := rev)).

(** What an encoder or a journal raised. *)
Definition faulty (x : exn) : Prop :=
  (exists (e : write D) (w w' : W), commit_fn e w = (Raise x, w')) \/ (exists batches w r, encode_training_payload (D := D) batches w r = Raise x).

Lemma tracks_ext L L' n s s' es : join_ok c rev s' -> next_batch_index s' = next_batch_index s -> paid_groups s' = paid_groups s -> rewards_by_hotkey s' = rewards_by_hotkey s ->
  (forall e, e ∈ env_order c -> take n (L' e) = take n (L e) /\ line s' e = drop n (L' e)) -> tracks L n s es -> tracks L' n s' es.
Proof.
  intros Hj E1 E2 E3 HL [A1 A2 A3 A4 A5 A6 A7].
  assert (Hi : forall i e, (i < n)%nat -> e ∈ env_order c -> L' e !! i = L e !! i).
  { intros i e Hin He. destruct (HL e He) as [Ht _]. rewrite <- (lookup_take_lt (L' e) n), <- (lookup_take_lt (L e) n), Ht by done. done. }
  assert (Hb : forall i, (i < n)%nat -> batches_at c L' i = batches_at c L i /\ some_at c L' i = some_at c L i /\ full_at c L' i = full_at c L i).
  { intros i Hin. unfold batches_at, some_at, full_at. assert (Hes : forall es', (forall e, e ∈ es' -> L' e !! i = L e !! i) ->
      (fun e => (e, default [] (L' e !! i))) <$> es' = (fun e => (e, default [] (L e !! i))) <$> es'
      /\ existsb (fun e => bool_decide (is_Some (L' e !! i))) es' = existsb (fun e => bool_decide (is_Some (L e !! i))) es'
      /\ forallb (fun e => bool_decide (is_Some (L' e !! i))) es' = forallb (fun e => bool_decide (is_Some (L e !! i))) es').
    { induction es' as [|e es' IH]; intros Hes; [done|]. destruct (IH ltac:(set_solver)) as (F1 & F2 & F3). cbn. rewrite F1, F2, F3, !(Hes e) by set_solver. done. }
    apply Hes. intros e He. by apply Hi. }
  split; [done|by rewrite E1| | | |done|].
  - intros e He. by apply HL.
  - intros e He. rewrite E2, A4 by done. unfold paid_at. by destruct (HL e He) as [-> _].
  - rewrite E3, A5. unfold pay_all. f_equal. apply list_fmap_ext. intros j i Hji. apply lookup_seq in Hji as [-> Hlt].
    destruct (Hb j ltac:(lia)) as (F1 & F2 & _). cbn. unfold row_at. by rewrite F1, F2.
  - intros i e He. destruct (A7 i e He) as (B1 & B2 & B3). assert (Hlt : (i < n)%nat) by (apply lookup_lt_Some in He; lia).
    destruct (Hb i Hlt) as (F1 & F2 & F3). unfold row_at. rewrite F1, F2, F3. done.
Qed.

(** Before the close: only full rows have been written, and no full row waits. *)
Definition even L (n : nat) : Prop := forall e, e ∈ env_order c -> (n <= length (L e))%nat.
Definition idle L (n : nat) : Prop := exists e, e ∈ env_order c /\ (length (L e) <= n)%nat.
Definition grow L (e0 : string) (ch : list group) (e : string) : list (list group) := if decide (e = e0) then L e ++ [ch] else L e.

Lemma full_length L n e : full_at c L n = true -> e ∈ env_order c -> (S n <= length (L e))%nat.
Proof.
  intros Hf He. unfold full_at in Hf. rewrite forallb_forall in Hf. specialize (Hf e ltac:(by apply list_elem_of_In)).
  apply bool_decide_eq_true in Hf. apply lookup_lt_is_Some in Hf. lia.
Qed.

Lemma full_some L n : full_at c L n = true -> some_at c L n = true.
Proof.
  intros Hf. destruct (ok_order _ Hc) as [_ Hne]. unfold full_at, some_at in *. destruct (env_order c) as [|e es]; [done|]. cbn in *.
  apply andb_true_iff in Hf as [-> _]. done.
Qed.

Lemma not_ready_slot s : join_ok c rev s -> ready (acc s) = false -> exists e, e ∈ env_order c /\ slot s e = [].
Proof.
  intros Hs Hr. destruct (decide (Exists (fun e => slot s e = []) (env_order c))) as [Hx|Hx].
  - apply Exists_exists in Hx as (e & He & Hsl). eauto.
  - exfalso. assert (ready (acc s) = true); [|congruence]. apply (slots_ready Hc s Hs). intros e He Hsl. apply Hx, Exists_exists. eauto.
Qed.

(** One accept: it is all taken, or nothing changed. *)
Lemma accept_spec L n s w e0 ch : tracks L n s (entries w) -> closed s = false -> even L n -> idle L n -> e0 ∈ env_order c -> full_chunk c ch ->
  (exists n' s' w', accept c e0 ch (window_start c) rev (s, w) = (Ok tt, (s', w')) /\ tracks (grow L e0 ch) n' s' (entries w') /\ closed s' = false
     /\ even (grow L e0 ch) n' /\ idle (grow L e0 ch) n' /\ (n' = n \/ Z.of_nat n' <= picks_target c))
  \/ (exists x w', accept c e0 ch (window_start c) rev (s, w) = (Raise x, (s, w')) /\ entries w' = entries w).
Proof.
  intros Ht Hcl Hev [ei [Hei Hid]] He0 Hf. unfold accept. rewrite bool_decide_true, Z.eqb_refl, Hcl by done. cbn [negb].
  set (s1 := Assembler _ _ _ _ _ _ _ _ _ _ _).
  assert (Hp1 : forall e, pending_of s1 e = if decide (e = e0) then pending_of s e ++ [ch] else pending_of s e).
  { intros e. unfold s1, pending_of. cbn [pending]. destruct (decide (e = e0)) as [->|]; [by rewrite lookup_insert_eq|by rewrite lookup_insert_ne]. }
  assert (Hl1 : forall e, line s1 e = if decide (e = e0) then line s e ++ [ch] else line s e).
  { intros e. unfold line. rewrite Hp1. change (slot s1 e) with (slot s e). destruct (decide (e = e0)); [by rewrite app_assoc|done]. }
  assert (Hev' : forall e, e ∈ env_order c -> (n <= length (grow L e0 ch e))%nat).
  { intros e He. unfold grow. specialize (Hev e He). destruct (decide _); [rewrite length_app; lia|done]. }
  assert (Ht1 : tracks (grow L e0 ch) n s1 (entries w)).
  { pose proof Ht as [[B1 B2 B3 B4 B5 B6] A2 A3 A4 A5 A6 A7]. apply (tracks_ext L _ n s s1); try done.
    - split; try done; [|by left]. intros e x. rewrite Hp1. destruct (decide (e = e0)) as [->|]; [|apply B4]. intros [Hx|Hx%list_elem_of_singleton]%elem_of_app; [by apply (B4 e0)|by subst].
    - intros e He. rewrite Hl1, A3 by done. unfold grow. specialize (Hev e He). destruct (decide (e = e0)); [|done].
      rewrite take_app_le, drop_app_le by done. done. }
  destruct (prepare_ready_spec Hc s1 (tr_join _ _ _ _ Ht1)) as (s2 & Hs2 & Hb2 & Hcase). pose proof (tracks_same _ _ _ _ _ Hb2 Hs2 Ht1) as Ht2.
  assert (Hcl2 : closed s2 = false) by (rewrite (same_closed _ _ Hb2); done).
  destruct Hcase as [[Hr ->]|(Hr & -> & Hp)].
  - assert (Hpr : primed (c := c) s2) by (intros e He Hs; by destruct (proj1 (slots_ready Hc s2 Hs2) Hr e He)).
    destruct (prepare_payload c false s2) as [e|x] eqn:Epp; cbn [fmap result_fmap]; [|right; by exists x, w].
    destruct (prepare_payload_spec Hc s2 false e Hs2 ltac:(rewrite (tr_next _ _ _ _ Ht2); lia) Epp) as (Q1 & _ & Q2 & Q3 & Q4 & Q5).
    rewrite (tr_next _ _ _ _ Ht2) in Q1, Q2. rewrite (row_primed _ _ _ _ Ht2 Hpr) in Q3, Q5. pose proof (ok_range _ Hc).
    pose proof (full_primed Hc _ _ _ _ Ht2 Hpr) as Hfull. rewrite Hr in Hfull.
    assert (Hsome : some_at c (grow L e0 ch) n = true) by by apply full_some.
    destruct (commit_row Hc (grow L e0 ch) n s2 w e Ht2 Hpr ltac:(lia) Q2 ltac:(unfold row_at; by rewrite Hsome) ltac:(by rewrite Hsome) ltac:(by rewrite Hfull)) as [(s' & w' & -> & Ht' & Hcl')|(x & w' & -> & Hw' & _)].
    + left. exists (S n), s', w'. split_and!; [done|done|congruence| | |right; lia].
      * intros e' He'. apply (full_length _ _ _ Hfull He').
      * exists ei. split; [done|]. unfold grow. destruct (decide (ei = e0)) as [->|Hne]; [rewrite length_app; cbn; lia|].
        pose proof (full_length _ _ _ Hfull Hei) as Hlen. unfold grow in Hlen. rewrite decide_False in Hlen by done. lia.
    + right. by exists x, w'.
  - left. exists n, s2, w. split_and!; [done|done|done|done| |by left].
    assert (Hex : exists e, e ∈ env_order c /\ slot s2 e = []).
    { destruct (not_ready_slot s2 Hs2 Hr) as (e & He & Hs). eauto. }
    destruct Hex as (e & He & Hs). exists e. split; [done|]. pose proof (Hp e He Hs) as Hl. rewrite (tr_line _ _ _ _ Ht2 e He) in Hl.
    apply (f_equal length) in Hl. rewrite length_drop in Hl. cbn in Hl. lia.
Qed.

(** The remainder: the rows of what is in line, complete or not. *)
Lemma remainder_spec L flag turns : forall n s w, tracks L n s (entries w) -> (forall e, e ∈ env_order c -> Z.of_nat (length (L e)) <= picks_target c) ->
  turns = Z.to_nat (picks_target c - Z.of_nat n) -> Z.of_nat n <= FILL_CLOSED_EMISSIONS_PER_WINDOW c ->
  exists n' s' w', (n <= n')%nat /\ Z.of_nat n' <= FILL_CLOSED_EMISSIONS_PER_WINDOW c /\ tracks L n' s' (entries w') /\ closed s' = closed s
    /\ ((write_remainder c flag turns (s, w) = (Ok tt, (s', w')) /\ forall e, e ∈ env_order c -> line s' e = [])
        \/ exists x, write_remainder c flag turns (s, w) = (Raise x, (s', w')) /\ faulty x).
Proof.
  pose proof (ok_range _ Hc) as Hrange. induction turns as [|turns IH]; intros n s w Ht Hlen Htu HE; cbn [write_remainder].
  - exists n, s, w. split_and!; [done|done|done|done|]. left. split; [done|]. intros e He. rewrite (tr_line _ _ _ _ Ht e He). specialize (Hlen e He). apply drop_ge. lia.
  - cbn [fst snd]. destruct (prepare_ready_spec Hc s (tr_join _ _ _ _ Ht)) as (s2 & Hs2 & Hb2 & Hcase). pose proof (tracks_same _ _ _ _ _ Hb2 Hs2 Ht) as Ht2.
    assert (Hcl2 : closed s2 = closed s) by apply (same_closed _ _ Hb2).
    assert (Hgo : forall e, primed (c := c) s2 -> entry_at (c := c) (Z.of_nat n) e -> w_batches e = row_at c L n -> w_reset e = some_at c L n ->
      w_tombstone e = negb (full_at c L n && is_clean (c := c) (batches_at c L n)) ->
      exists n' s' w', (n <= n')%nat /\ Z.of_nat n' <= FILL_CLOSED_EMISSIONS_PER_WINDOW c /\ tracks L n' s' (entries w') /\ closed s' = closed s
        /\ ((match commit_write c e (s2, w) with (Ok _, sw) => write_remainder c flag turns sw | (Raise x, sw) => (Raise x, sw) end = (Ok tt, (s', w')) /\ forall e, e ∈ env_order c -> line s' e = [])
            \/ exists x, match commit_write c e (s2, w) with (Ok _, sw) => write_remainder c flag turns sw | (Raise x, sw) => (Raise x, sw) end = (Raise x, (s', w')) /\ faulty x)).
    { intros e Hpr Q1 Q2 Q3 Q4. destruct (commit_row Hc L n s2 w e Ht2 Hpr ltac:(lia) Q1 Q2 Q3 Q4) as [(s' & w' & -> & Ht' & Hcl')|(x & w' & -> & Hw' & Hx)].
      - destruct (IH (S n) s' w' Ht' Hlen ltac:(lia) ltac:(lia)) as (n' & s3 & w3 & G1 & G2 & G3 & G4 & G5). exists n', s3, w3. split_and!; [lia|done|done|congruence|done].
      - exists n, s2, w'. split_and!; [done|done|by rewrite Hw'|done|]. right. exists x. split; [done|]. left. eauto. }
    destruct Hcase as [[Hr ->]|(Hr & -> & Hp)].
    + assert (Hpr : primed (c := c) s2) by (intros e He Hs; by destruct (proj1 (slots_ready Hc s2 Hs2) Hr e He)).
      pose proof (full_primed Hc _ _ _ _ Ht2 Hpr) as Hfull. rewrite Hr in Hfull. pose proof (full_some _ _ Hfull) as Hsome.
      destruct (prepare_payload c false s2) as [e|x] eqn:Epp; cbn [fmap result_fmap].
      * destruct (prepare_payload_spec Hc s2 false e Hs2 ltac:(rewrite (tr_next _ _ _ _ Ht2); lia) Epp) as (Q1 & _ & Q2 & Q3 & Q4 & Q5).
        rewrite (tr_next _ _ _ _ Ht2) in Q2. rewrite (row_primed _ _ _ _ Ht2 Hpr) in Q3, Q5.
        apply Hgo; [done|done|unfold row_at; by rewrite Hsome|by rewrite Hsome|by rewrite Hfull].
      * exists n, s2, w. split_and!; [done|done|done|done|]. right. exists x. split; [done|]. right. apply (payload_raises Hc s2 false x Hs2); [|done|done]. rewrite (tr_next _ _ _ _ Ht2). lia.
    + destruct (outstanding c s2) eqn:Ho; cbn [negb].
      * destruct (flag && has_groups_for_all_targets (acc s2)) eqn:Hfl; [apply andb_true_iff in Hfl as [_ Hfl]; apply (slots_partial Hc s2 Hs2) in Hfl; congruence|].
        destruct (prepare_remainder_spec Hc s2 Hs2) as (e & -> & Q1 & Q2 & Q3 & Q4); [rewrite (tr_next _ _ _ _ Ht2); lia|].
        rewrite (tr_next _ _ _ _ Ht2) in Q1. rewrite (row_primed _ _ _ _ Ht2 Hp) in Q2. pose proof (full_primed Hc _ _ _ _ Ht2 Hp) as Hfull. rewrite Hr in Hfull.
        assert (Hsome : some_at c L n = true).
        { rewrite (some_primed Hc _ _ _ _ Ht2 Hp). unfold outstanding in Ho. apply existsb_exists in Ho as (e' & He' & Ho). apply existsb_exists. exists e'. split; [done|].
          destruct (bool_decide (slot s2 e' = [])) eqn:Hs; [|done]. apply bool_decide_eq_true in Hs. apply list_elem_of_In in He'. pose proof (Hp e' He' Hs) as Hl. unfold line in Hl. rewrite bool_decide_true in Hl by done. cbn in Hl.
          rewrite count_slot, Hs, Hl in Ho. done. }
        apply Hgo; [done|done|unfold row_at; by rewrite Hsome|by rewrite Hsome|by rewrite Hfull].
      * exists n, s2, w. split_and!; [done|done|done|done|]. left. split; [done|]. intros e He. destruct (slot s2 e) as [|g sl] eqn:Hs; [by apply Hp|].
        exfalso. unfold outstanding in Ho. rewrite (proj2 (existsb_exists _ _)) in Ho; [done|]. exists e. split; [by apply list_elem_of_In|]. rewrite count_slot, Hs. cbn. done.
Qed.

Lemma line_nil_slot s e : line s e = [] -> slot s e = [].
Proof. unfold line. case_bool_decide; done. Qed.

(** Padding: what is left of the window's range. *)
Lemma padding_spec L turns : forall n s w, tracks L n s (entries w) -> (forall e, e ∈ env_order c -> line s e = []) ->
  turns = Z.to_nat (FILL_CLOSED_EMISSIONS_PER_WINDOW c - Z.of_nat n) -> Z.of_nat n <= FILL_CLOSED_EMISSIONS_PER_WINDOW c ->
  exists n' s' w', (n <= n')%nat /\ Z.of_nat n' <= FILL_CLOSED_EMISSIONS_PER_WINDOW c /\ tracks L n' s' (entries w') /\ closed s' = closed s
    /\ ((write_padding c turns (s, w) = (Ok tt, (s', w')) /\ Z.of_nat n' = FILL_CLOSED_EMISSIONS_PER_WINDOW c)
        \/ exists x, write_padding c turns (s, w) = (Raise x, (s', w')) /\ faulty x).
Proof.
  induction turns as [|turns IH]; intros n s w Ht Hl Htu HE; cbn [write_padding].
  - exists n, s, w. split_and!; [done|done|done|done|]. left. split; [done|lia].
  - cbn [fst]. destruct (prepare_padding_spec Hc s) as (e & -> & Q1 & Q2 & Q3 & Q4); [rewrite (tr_next _ _ _ _ Ht); lia|].
    rewrite (tr_next _ _ _ _ Ht) in Q1.
    assert (Hpr : primed (c := c) s) by (intros x Hx _; auto).
    assert (Hsome : some_at c L n = false).
    { rewrite (some_primed Hc _ _ _ _ Ht Hpr). apply not_true_iff_false. intros (x & Hx%list_elem_of_In & Hb)%existsb_exists. by rewrite line_nil_slot, bool_decide_true in Hb by auto. }
    assert (Hfull : full_at c L n = false) by (apply not_true_iff_false; intros Hf%full_some; congruence).
    destruct (commit_row Hc L n s w e Ht Hpr ltac:(lia) Q1 ltac:(unfold row_at; by rewrite Hsome) ltac:(by rewrite Hsome) ltac:(by rewrite Hfull)) as [(s' & w' & -> & Ht' & Hcl')|(x & w' & -> & Hw' & Hx)].
    + destruct (IH (S n) s' w' Ht') as (n' & s3 & w3 & G1 & G2 & G3 & G4 & G5); [|lia|lia|].
      * intros x Hx. rewrite (tr_line _ _ _ _ Ht' x Hx), drop_S_tail. rewrite <- (tr_line _ _ _ _ Ht x Hx), (Hl x Hx). done.
      * exists n', s3, w3. split_and!; [lia|done|done|congruence|done].
    + exists n, s, w'. split_and!; [done|done|by rewrite Hw'|done|]. right. exists x. split; [done|]. left. eauto.
Qed.

(** [close] either finishes the window or raises what a callback raised. *)
Lemma close_spec L n s w flag : tracks L n s (entries w) -> closed s = false -> (forall e, e ∈ env_order c -> Z.of_nat (length (L e)) <= picks_target c) ->
  Z.of_nat n <= FILL_CLOSED_EMISSIONS_PER_WINDOW c ->
  exists n' s' w', Z.of_nat n' <= FILL_CLOSED_EMISSIONS_PER_WINDOW c /\ tracks L n' s' (entries w')
    /\ ((close c flag (s, w) = (Ok tt, (s', w')) /\ closed s' = true /\ Z.of_nat n' = FILL_CLOSED_EMISSIONS_PER_WINDOW c)
        \/ exists x, close c flag (s, w) = (Raise x, (s', w')) /\ closed s' = false /\ faulty x).
Proof.
  intros Ht Hcl Hlen HE. unfold close. cbn [fst]. rewrite Hcl, (tr_next _ _ _ _ Ht).
  destruct (remainder_spec L flag _ n s w Ht Hlen eq_refl HE) as (n1 & s1 & w1 & G1 & G2 & G3 & G4 & [[-> G5]|(x & -> & G5)]).
  - cbn [fst]. rewrite (tr_next _ _ _ _ G3). destruct (padding_spec L _ n1 s1 w1 G3 G5 eq_refl G2) as (n2 & s2 & w2 & K1 & K2 & K3 & K4 & [[-> K5]|(x & -> & K5)]).
    + exists n2, (set_closed s2), w2. split; [done|]. split; [|by left]. destruct K3 as [[] ? ? ? ? ? ?]. by split.
    + exists n2, s2, w2. split_and!; [done|done|]. right. exists x. split_and!; [done|congruence|done].
  - exists n1, s1, w1. split_and!; [done|done|]. right. exists x. split_and!; [done|congruence|done].
Qed.
End life.

(** ** A window from its opening to its close *)

Section window.
Context {D W : Type} `{TrainingCodec D, DurableJournal D W} {c : fill_config} (Hc : config_ok c) (rev : string).
Implicit Types (s : assembler).

(** The chunks offered in turn; those whose call returned are taken, the others go back
    to the pool they were picked from. *)
Fixpoint accept_all (cs : list (string * list group)) (sw : assembler * W) : list (string * list group) * (assembler * W) :=
  match cs with
  | [] => ([], sw)
  | ec :: cs =>
      match accept c ec.1 ec.2 (window_start c) rev sw with
      | (Ok _, sw) => let r := accept_all cs sw in (ec :: r.1, r.2)
      | (Raise _, sw) => accept_all cs sw
      end
  end.

(** [close] called until it returns. *)
Definition close_until (flags : list bool) (sw : assembler * W) : assembler * W := foldl (fun sw flag => (close c flag sw).2) sw flags.

Definition chunks_of (taken : list (string * list group)) (e : string) : list (list group) := snd <$> filter (fun ec => ec.1 = e) taken.

Lemma chunks_of_cons ec taken e : chunks_of (ec :: taken) e = (if decide (e = ec.1) then [ec.2] else []) ++ chunks_of taken e.
Proof. unfold chunks_of. rewrite filter_cons. destruct (decide (ec.1 = e)), (decide (e = ec.1)); congruence || done. Qed.

Lemma new_tracks s0 : new_assembler c = Ok s0 -> tracks (D := D) (c := c) (rev := rev) (fun _ => []) 0 s0 [] /\ closed s0 = false.
Proof.
  intros (a & Ha & [= <-])%bind_ok_inv. split; [|done]. unfold new_accumulator in Ha. case_bool_decide; [done|]. destruct (existsb _ _); [done|]. injection Ha as <-.
  assert (Hlk : forall {A} (x : A) e, (list_to_map ((fun e => (e, x)) <$> env_order c) : gmap string A) !! e = if decide (e ∈ env_order c) then Some x else None).
  { intros A x e. generalize (env_order c) as es. induction es as [|y es IH]; cbn; [by rewrite decide_False by apply not_elem_of_nil|].
    destruct (decide (e = y)) as [->|Hne]; [rewrite lookup_insert_eq, decide_True by set_solver; done|]. rewrite lookup_insert_ne, IH by done.
    destruct (decide (e ∈ es)); [rewrite decide_True by set_solver|rewrite decide_False by set_solver]; done. }
  set (s0 := Assembler _ _ _ _ _ _ _ _ _ _ _).
  assert (Hsl : forall e, slot s0 e = []) by (intros e; unfold slot, s0; cbn [acc envs]; rewrite lookup_fmap, Hlk; by destruct (decide _)).
  assert (Hpe : forall e, pending_of s0 e = []) by (intros e; unfold pending_of, s0; cbn [pending]; rewrite Hlk; by destruct (decide _)).
  split; try done.
  - split.
    + intros e. unfold s0. cbn [acc envs]. rewrite lookup_fmap, Hlk, fmap_is_Some. destruct (decide _); [done|]. split; [by intros []|done].
    + intros e x. unfold s0. cbn [acc envs]. rewrite lookup_fmap, Hlk. destruct (decide _); [|done]. by intros [= <-].
    + intros e. left. apply Hsl.
    + intros e ch. rewrite Hpe. intros []%not_elem_of_nil.
    + by left.
    + right. apply Hpe.
  - intros e He. unfold line. rewrite Hsl, Hpe, bool_decide_true by done. done.
  - intros e He. unfold s0. cbn [paid_groups]. rewrite Hlk, decide_True by done. done.
Qed.

Lemma accept_all_spec cs : forall L n s w taken s' w', tracks (c := c) (rev := rev) L n s (entries w) -> closed s = false -> even (c := c) L n -> idle (c := c) L n ->
  Z.of_nat n <= FILL_CLOSED_EMISSIONS_PER_WINDOW c ->
  Forall (fun ec => ec.1 ∈ env_order c /\ full_chunk c ec.2) cs -> accept_all cs (s, w) = (taken, (s', w')) ->
  exists n', Z.of_nat n' <= FILL_CLOSED_EMISSIONS_PER_WINDOW c /\ tracks (c := c) (rev := rev) (fun e => L e ++ chunks_of taken e) n' s' (entries w') /\ closed s' = false
    /\ even (c := c) (fun e => L e ++ chunks_of taken e) n' /\ idle (c := c) (fun e => L e ++ chunks_of taken e) n'.
Proof.
  assert (Hext : forall L L' n s es, (forall e, L' e = L e) -> tracks (D := D) (c := c) (rev := rev) L n s es -> tracks (c := c) (rev := rev) L' n s es).
  { intros L L' n s es E Ht. apply (tracks_ext Hc L L' n s s es); try done; [apply (tr_join _ _ _ _ Ht)|]. intros e He. rewrite E. split; [done|]. by apply (tr_line _ _ _ _ Ht). }
  assert (Hexe : forall L L' n, (forall e, L' e = L e) -> even (c := c) L n /\ idle (c := c) L n -> even (c := c) L' n /\ idle (c := c) L' n).
  { intros L L' n E [He (e & H1 & H2)]. split; [intros e' He'; rewrite E; auto|]. exists e. by rewrite E. }
  induction cs as [|ec cs IH]; intros L n s w taken s' w' Ht Hcl Hev Hid HE Hcs Hrun; cbn [accept_all] in Hrun.
  - injection Hrun as <- <- <-. assert (E : forall e, L e ++ chunks_of [] e = L e) by (intros e; apply app_nil_r). exists n. split; [done|]. split; [by apply (Hext L)|]. split; [done|]. by apply (Hexe L).
  - apply Forall_cons in Hcs as [[He Hf] Hcs]. destruct (accept_spec Hc L n s w ec.1 ec.2 Ht Hcl Hev Hid He Hf) as [(n' & s1 & w1 & E & Ht1 & Hcl1 & Hev1 & Hid1 & Hn1)|(x & w1 & E & Hw1)]; rewrite E in Hrun.
    + destruct (accept_all cs (s1, w1)) as [taken' [s2 w2]] eqn:Er. cbn [fst snd] in Hrun. injection Hrun as <- <- <-.
      pose proof (ok_range _ Hc). destruct (IH (grow L ec.1 ec.2) n' s1 w1 taken' s2 w2 Ht1 Hcl1 Hev1 Hid1 ltac:(lia) Hcs Er) as (n2 & G1 & G2 & G3 & G4 & G5).
      assert (Eg : forall e, L e ++ chunks_of (ec :: taken') e = grow L ec.1 ec.2 e ++ chunks_of taken' e).
      { intros e. rewrite chunks_of_cons. unfold grow. destruct (decide (e = ec.1)); [by rewrite app_assoc|done]. }
      exists n2. split; [done|]. split; [exact (Hext _ _ _ _ _ Eg G2)|]. split; [done|]. by apply (Hexe (fun e => grow L ec.1 ec.2 e ++ chunks_of taken' e)).
    + apply (IH L n s w1 taken s' w'); try done. by rewrite Hw1.
Qed.

Lemma close_until_spec L flags : forall n s w s' w', tracks (c := c) (rev := rev) L n s (entries w) -> closed s = false ->
  (forall e, e ∈ env_order c -> Z.of_nat (length (L e)) <= picks_target c) -> Z.of_nat n <= FILL_CLOSED_EMISSIONS_PER_WINDOW c ->
  close_until flags (s, w) = (s', w') -> closed s' = true -> tracks (c := c) (rev := rev) L (Z.to_nat (FILL_CLOSED_EMISSIONS_PER_WINDOW c)) s' (entries w').
Proof.
  induction flags as [|flag flags IH]; intros n s w s' w' Ht Hcl Hlen HE Hr Hd; cbn [close_until foldl] in Hr; [injection Hr as <- <-; congruence|].
  destruct (close_spec Hc L n s w flag Ht Hcl Hlen HE) as (n1 & s1 & w1 & G1 & G2 & [(E & G3 & G4)|(x & E & G3 & G4)]); rewrite E in Hr; cbn [snd] in Hr.
  - assert (Hdone : forall fs, foldl (fun sw flag => (close c flag sw).2) (s1, w1) fs = (s1, w1)).
    { induction fs as [|f fs IHf]; [done|]. cbn [foldl]. unfold close at 2. cbn [fst]. rewrite G3. apply IHf. }
    unfold close_until in Hr. rewrite Hdone in Hr. injection Hr as <- <-. rewrite <- G4, Nat2Z.id. done.
  - by apply (IH n1 s1 w1 s' w').
Qed.

Lemma accept_all_tracks cs s0 w0 taken s w : new_assembler c = Ok s0 -> entries w0 = [] -> Forall (fun ec => ec.1 ∈ env_order c /\ full_chunk c ec.2) cs ->
  accept_all cs (s0, w0) = (taken, (s, w)) ->
  exists n, Z.of_nat n <= FILL_CLOSED_EMISSIONS_PER_WINDOW c /\ tracks (c := c) (rev := rev) (chunks_of taken) n s (entries w) /\ closed s = false
    /\ even (c := c) (chunks_of taken) n /\ idle (c := c) (chunks_of taken) n.
Proof.
  intros Hnew Hw0 Hcs Hrun. destruct (new_tracks s0 Hnew) as [Ht0 Hcl0]. destruct (ok_order _ Hc) as [_ Hne]. pose proof (ok_range _ Hc).
  apply (accept_all_spec cs (fun _ => []) 0 s0 w0 taken s w); [by rewrite Hw0|done|intros e _; cbn; lia| |lia|done|done].
  destruct (env_order c) as [|e es] eqn:E; [done|]. exists e. rewrite E. split; [set_solver|done].
Qed.
End window.

(** * The properties *)

Section properties.
Context {D W : Type} `{TrainingCodec D, DurableJournal D W}.

(** C9: whatever accepts fail on the way, once the window is closed every chunk that was
    taken has been paid exactly once, in the batch of its place in its environment's line;
    the rewards are those rows' fixed shares in order; and the journal holds one entry for
    each slot of the window, in order, which carries its row, and trains on it exactly when
    every environment has a chunk in it and the row is not quarantined. *)
Theorem window_pays_each_chunk_once (c : fill_config) (rev : string) (cs : list (string * list group)) (flags : list bool)
    (taken : list (string * list group)) (s0 s1 s : assembler) (w0 w1 w : W) :
  config_ok c -> new_assembler c = Ok s0 -> entries w0 = [] -> Forall (fun ec => ec.1 ∈ env_order c /\ full_chunk c ec.2) cs ->
  accept_all (c := c) rev cs (s0, w0) = (taken, (s1, w1)) ->
  (forall e, e ∈ env_order c -> Z.of_nat (length (chunks_of taken e)) <= picks_target c) ->
  close_until (c := c) flags (s1, w1) = (s, w) -> closed s = true ->
  let L := chunks_of taken in
  let slots := Z.to_nat (FILL_CLOSED_EMISSIONS_PER_WINDOW c) in
  (forall e, e ∈ env_order c -> paid_groups s !! e = Some (concat (imap in_batch (L e))))
  /\ rewards_by_hotkey s = foldl (pay_at c) [] (row_at c L <$> seq 0 slots)
  /\ length (entries w) = slots
  /\ (forall i e, entries w !! i = Some e ->
        w_key e = window_start c * FILL_CLOSED_EMISSIONS_PER_WINDOW c + Z.of_nat i /\ w_batches e = row_at c L i
        /\ w_tombstone e = negb (full_at c L i && is_clean (c := c) (batches_at c L i))).
Proof.
  intros Hc Hnew Hw0 Hcs Hrun Hlen Hcl Hd. destruct (accept_all_tracks Hc rev cs s0 w0 taken s1 w1 Hnew Hw0 Hcs Hrun) as (n & HE & Ht & Hcl1 & _).
  pose proof (close_until_spec Hc rev (chunks_of taken) flags n s1 w1 s w Ht Hcl1 Hlen HE Hcl Hd) as [_ _ _ A4 A5 A6 A7]. cbn zeta.
  split_and!; [|done|done|].
  - intros e He. rewrite A4 by done. unfold paid_at. rewrite take_ge; [done|]. specialize (Hlen e He). pose proof (ok_range _ Hc). lia.
  - intros i e He. destruct (A7 i e He) as ([B1 _] & B2 & B3). done.
Qed.

(** Rows are joined as soon as they can be: after any accepts, the assembler has written
    as many rows as the slowest environment has chunks, each with one chunk of every
    environment, and nothing else is in the journal. *)
Theorem rows_written_at_once (c : fill_config) (rev : string) (cs : list (string * list group)) (taken : list (string * list group)) (s0 s : assembler) (w0 w : W) :
  config_ok c -> new_assembler c = Ok s0 -> entries w0 = [] -> Forall (fun ec => ec.1 ∈ env_order c /\ full_chunk c ec.2) cs ->
  accept_all (c := c) rev cs (s0, w0) = (taken, (s, w)) ->
  next_batch_index s = Z.of_nat (length (entries w))
  /\ (forall e, e ∈ env_order c -> (length (entries w) <= length (chunks_of taken e))%nat)
  /\ (exists e, e ∈ env_order c /\ length (chunks_of taken e) = length (entries w))
  /\ (forall i e, entries w !! i = Some e -> w_batches e = Some (batches_at c (chunks_of taken) i) /\ w_tombstone e = negb (is_clean (c := c) (batches_at c (chunks_of taken) i))).
Proof.
  intros Hc Hnew Hw0 Hcs Hrun. destruct (accept_all_tracks Hc rev cs s0 w0 taken s w Hnew Hw0 Hcs Hrun) as (n & HE & Ht & _ & Hev & (ei & Hei & Hid)).
  pose proof Ht as [_ A2 _ _ _ A6 A7]. rewrite A6. split_and!; [done|done|exists ei; split; [done|specialize (Hev ei Hei); lia]|].
  intros i e He. assert (Hi : (i < n)%nat) by (rewrite <- A6; by eapply lookup_lt_Some). destruct (A7 i e He) as (_ & B2 & B3).
  assert (Hf : full_at c (chunks_of taken) i = true).
  { unfold full_at. apply forallb_forall. intros x Hx%list_elem_of_In. apply bool_decide_eq_true, lookup_lt_is_Some. specialize (Hev x Hx). lia. }
  rewrite Hf in B3. unfold row_at in B2. rewrite (full_some Hc _ _ Hf) in B2. done.
Qed.

(** A close raises nothing of its own: it ends the window, or passes on what the journal
    or the encoder raised and can be called again; if neither raises, one call is enough. *)
Theorem close_completes (c : fill_config) (rev : string) (cs : list (string * list group)) (taken : list (string * list group)) (s0 s1 : assembler) (w0 w1 : W) (flag : bool) :
  config_ok c -> new_assembler c = Ok s0 -> entries w0 = [] -> Forall (fun ec => ec.1 ∈ env_order c /\ full_chunk c ec.2) cs ->
  accept_all (c := c) rev cs (s0, w0) = (taken, (s1, w1)) ->
  (forall e, e ∈ env_order c -> Z.of_nat (length (chunks_of taken e)) <= picks_target c) ->
  exists s w, (close c flag (s1, w1) = (Ok tt, (s, w)) /\ closed s = true)
    \/ (exists x, close c flag (s1, w1) = (Raise x, (s, w)) /\ closed s = false
        /\ ((exists (e : write D) (v v' : W), commit_fn e v = (Raise x, v')) \/ (exists batches n r, encode_training_payload (D := D) batches n r = Raise x))).
Proof.
  intros Hc Hnew Hw0 Hcs Hrun Hlen. destruct (accept_all_tracks Hc rev cs s0 w0 taken s1 w1 Hnew Hw0 Hcs Hrun) as (n & HE & Ht & Hcl1 & _).
  destruct (close_spec Hc (chunks_of taken) n s1 w1 flag Ht Hcl1 Hlen HE) as (n' & s & w & _ & _ & [(E & Hd & _)|(x & E & Hd & Hf)]); exists s, w; [by left|right; by exists x].
Qed.

(** The objects the journal's entries are filed under. *)
Definition fetch_of (es : list (write D)) (k : object_key) : option D :=
  match k with
  | PayloadKey n => w_data <$> head (filter (fun e => w_key e = n /\ w_tombstone e = false) es)
  | TombstoneKey n => w_data <$> head (filter (fun e => w_key e = n /\ w_tombstone e = true) es)
  end.

Lemma head_filter_unique {A} (P : A -> Prop) `{!forall x, Decision (P x)} (l : list A) (x : A) : x ∈ l -> P x -> (forall y, y ∈ l -> P y -> y = x) -> head (filter P l) = Some x.
Proof.
  intros Hx Hp Hu. assert (Hf : x ∈ filter P l) by by apply list_elem_of_filter. destruct (filter P l) as [|y k] eqn:E; [by apply not_elem_of_nil in Hf|].
  cbn. f_equal. assert (Hy : y ∈ filter P l) by (rewrite E; set_solver). apply list_elem_of_filter in Hy as [Hy1 Hy2]. by apply Hu.
Qed.

Lemma head_filter_none {A} (P : A -> Prop) `{!forall x, Decision (P x)} (l : list A) : (forall y, y ∈ l -> ~ P y) -> head (filter P l) = None.
Proof.
  intros Hn. destruct (filter P l) as [|y k] eqn:E; [done|]. assert (Hy : y ∈ filter P l) by (rewrite E; set_solver).
  apply list_elem_of_filter in Hy as [Hy1 Hy2]. by destruct (Hn y Hy2).
Qed.

(** C24: the trainer never parks inside a closed window: from the key before the window's
    first, each read of the next entry returns the entry the assembler filed in that slot,
    a payload or a tombstone, and names this window. *)
Theorem trainer_reads_every_slot (c : fill_config) (rev : string) (cs : list (string * list group)) (flags : list bool)
    (taken : list (string * list group)) (s0 s1 s : assembler) (w0 w1 w : W) (i : nat) :
  config_ok c -> new_assembler c = Ok s0 -> entries w0 = [] -> Forall (fun ec => ec.1 ∈ env_order c /\ full_chunk c ec.2) cs ->
  accept_all (c := c) rev cs (s0, w0) = (taken, (s1, w1)) ->
  (forall e, e ∈ env_order c -> Z.of_nat (length (chunks_of taken e)) <= picks_target c) ->
  close_until (c := c) flags (s1, w1) = (s, w) -> closed s = true -> Z.of_nat i < FILL_CLOSED_EMISSIONS_PER_WINDOW c ->
  exists e, entries w !! i = Some e
    /\ next_entry c (fetch_of (entries w)) (window_start c * FILL_CLOSED_EMISSIONS_PER_WINDOW c - 1 + Z.of_nat i) 1
       = Ok (Some (if w_tombstone e then TombstoneEntry (w_data e) else PayloadEntry (w_data e))).
Proof.
  intros Hc Hnew Hw0 Hcs Hrun Hlen Hcl Hd Hi. destruct (accept_all_tracks Hc rev cs s0 w0 taken s1 w1 Hnew Hw0 Hcs Hrun) as (n & HE & Ht & Hcl1 & _).
  pose proof (close_until_spec Hc rev (chunks_of taken) flags n s1 w1 s w Ht Hcl1 Hlen HE Hcl Hd) as [_ _ _ _ _ A6 A7].
  assert (Hlt : is_Some (entries w !! i)) by (apply lookup_lt_is_Some; rewrite A6; lia). destruct Hlt as [e He]. exists e. split; [done|].
  destruct (A7 i e He) as ([Hk Hdat] & _). assert (Hu : forall y, y ∈ entries w -> w_key y = w_key e -> y = e).
  { intros y [j Hj]%list_elem_of_lookup Hky. destruct (A7 j y Hj) as ([Hkj _] & _). rewrite Hk, Hkj in Hky. assert (j = i) by lia. subst. congruence. }
  unfold next_entry. replace (_ - 1 + Z.of_nat i + 1) with (w_key e) by lia. rewrite (ok_enabled _ Hc).
  assert (Hw : w_key e / FILL_CLOSED_EMISSIONS_PER_WINDOW c = window_start c) by (rewrite Hk; symmetry; apply Z.div_unique with (Z.of_nat i); lia).
  rewrite Hw. pose proof (ok_window _ Hc). assert (Hin : e ∈ entries w) by by eapply list_elem_of_lookup_2. cbn [fetch_of]. destruct (w_tombstone e) eqn:Hto.
  - assert (Hnone : head (filter (fun x => w_key x = w_key e /\ w_tombstone x = false) (entries w)) = None).
    { apply head_filter_none. intros y Hy [Hk1 Hk2]. rewrite (Hu y Hy Hk1) in Hk2. congruence. }
    rewrite Hnone, (head_filter_unique _ _ e) by (done || naive_solver). cbn [fmap option_fmap option_map]. rewrite Hdat. cbn.
    destruct (Z.ltb_spec (window_start c) 0); [lia|]. by rewrite Z.eqb_refl.
  - rewrite (head_filter_unique _ _ e) by (done || naive_solver). cbn [fmap option_fmap option_map]. rewrite Hdat. cbn. by rewrite Z.eqb_refl.
Qed.
End properties.

(** The cutover of the trainer's cursor loses no window and repeats none: a cursor of the
    old key space becomes the key before batch zero of the next window, it is stable from
    then on, and a cursor at the end of a window goes back to that window's number. *)
Theorem cursor_migration_roundtrip (c raw : fill_config) (cursor : Z) :
  FILL_CLOSED_ENABLED c = true -> FILL_CLOSED_ENABLED raw = false -> FILL_CLOSED_EMISSIONS_PER_WINDOW raw = FILL_CLOSED_EMISSIONS_PER_WINDOW c ->
  0 < FILL_CLOSED_EMISSIONS_PER_WINDOW c -> 0 <= cursor ->
  exists k, migrate_journal_cursor c cursor None = Ok (k, "fill_closed"%string) /\ encoded_window_journal_key c (cursor + 1) 0 = Ok (k + 1)
    /\ migrate_journal_cursor c k (Some "fill_closed"%string) = Ok (k, "fill_closed"%string)
    /\ migrate_journal_cursor raw k (Some "fill_closed"%string) = Ok (cursor, "raw"%string).
Proof.
  intros He Hr HE Hpos Hcur. exists ((cursor + 1) * FILL_CLOSED_EMISSIONS_PER_WINDOW c - 1).
  unfold migrate_journal_cursor, active_journal_key_space, encoded_window_journal_key. rewrite He, Hr, HE.
  destruct (Z.ltb_spec cursor 0); [lia|]. assert (Hk : 0 <= (cursor + 1) * FILL_CLOSED_EMISSIONS_PER_WINDOW c - 1) by nia.
  destruct (Z.ltb_spec ((cursor + 1) * FILL_CLOSED_EMISSIONS_PER_WINDOW c - 1) 0); [lia|]. cbn.
  destruct (Z.ltb_spec 0 (FILL_CLOSED_EMISSIONS_PER_WINDOW c)); [|lia].
  assert (Hd : ((cursor + 1) * FILL_CLOSED_EMISSIONS_PER_WINDOW c - 1) mod FILL_CLOSED_EMISSIONS_PER_WINDOW c = FILL_CLOSED_EMISSIONS_PER_WINDOW c - 1) by (symmetry; apply Z.mod_unique_pos with cursor; lia).
  assert (Hq : ((cursor + 1) * FILL_CLOSED_EMISSIONS_PER_WINDOW c - 1) / FILL_CLOSED_EMISSIONS_PER_WINDOW c = cursor) by (symmetry; apply Z.div_unique with (FILL_CLOSED_EMISSIONS_PER_WINDOW c - 1); lia).
  rewrite Hd, Hq, Z.eqb_refl. cbn. split_and!; [done| |done|done]. f_equal. lia.
Qed.

(** ** Witnesses

    Data that is its kind and its window; a journal that follows a script of failures. *)

Lemma example_reads_back (w : Z) (d : bool * Z) : Ok (true, w) = Ok d -> (if d.1 then Ok d.2 else Raise ValueError) = Ok w.
Proof. by intros [= <-]. Qed.

#[local] Instance example_codec : TrainingCodec (bool * Z) := {
  encode_training_payload _ w _ := Ok (true, w);
  encode_tombstone w _ := (false, w);
  payload_window d := if d.1 then Ok d.2 else Raise ValueError;
  tombstone_window d := if d.1 then Raise ValueError else Ok d.2;
  payload_reads_back _ w _ d := example_reads_back w d;
  tombstone_reads_back w _ _ := eq_refl;
}.

Definition script_commit (e : write (bool * Z)) : method (list (option exn) * list (write (bool * Z))) unit := fun w =>
  match w.1 with
  | Some x :: rest => (Raise x, (rest, w.2))
  | None :: rest => (Ok tt, (rest, w.2 ++ [e]))
  | [] => (Ok tt, ([], w.2 ++ [e]))
  end.

Lemma script_ok e w w' : script_commit e w = (Ok tt, w') -> w'.2 = w.2 ++ [e].
Proof. destruct w as [[|[x|] rest] es]; cbn; intros; by simplify_eq. Qed.

Lemma script_raise e w w' x : script_commit e w = (Raise x, w') -> w'.2 = w.2.
Proof. destruct w as [[|[y|] rest] es]; cbn; intros; by simplify_eq. Qed.

#[local] Instance example_journal : DurableJournal (bool * Z) (list (option exn) * list (write (bool * Z))) := {
  commit_fn := script_commit;
  entries := snd;
  commit_ok := script_ok;
  commit_raise := script_raise;
}.

Definition example_fill : fill_config := FillConfig 7 ["math"; "code"]%string 1 2 3 true ∅ 100 {["math"%string := 0; "code"%string := 0]} 0.
Definition proven (hotkey : string) : group := Group hotkey "math" [] false 0 0.
Definition example_chunks : list (string * list group) := [("math", [proven "a"]); ("code", [proven "b"]); ("code", [proven "c"]); ("math", [proven "d"])]%string.
Definition example_world : list (option exn) * list (write (bool * Z)) := ([Some RuntimeError; None; Some RuntimeError], []).
Definition example_start : assembler :=
  Assembler (Accumulator (list_to_map [("math", EnvAcc 1 [] []); ("code", EnvAcc 1 [] [])]%string) None)
    (list_to_map [("math", []); ("code", [])]%string) "" 0 0 0 [] (list_to_map [("math", []); ("code", [])]%string) false 0 None.

Lemma example_config_ok : config_ok example_fill.
Proof. split; cbn; try done; [split; [apply (bool_decide_unpack _); reflexivity|done]|].
  repeat (apply Forall_cons; split; [eexists; reflexivity|]). by apply Forall_nil.
Qed.

Lemma example_new : new_assembler example_fill = Ok example_start.
Proof. vm_compute. reflexivity. Qed.

Lemma example_empty : entries example_world = [].
Proof. reflexivity. Qed.

Lemma example_offered : Forall (fun ec => ec.1 ∈ env_order example_fill /\ full_chunk example_fill ec.2) example_chunks.
Proof. repeat constructor; cbn; set_solver. Qed.

Abbreviation example_run := (accept_all (c := example_fill) "rev" example_chunks (example_start, example_world)).
Abbreviation example_end := (close_until (c := example_fill) [true; true] example_run.2).

Lemma example_run_eq : accept_all (c := example_fill) "rev" example_chunks (example_start, example_world) = (example_run.1, (example_run.2.1, example_run.2.2)).
Proof. destruct example_run as [? [? ?]]. reflexivity. Qed.

Lemma example_end_eq : close_until (c := example_fill) [true; true] (example_run.2.1, example_run.2.2) = (example_end.1, example_end.2).
Proof. destruct example_run as [? [? ?]]. cbn [fst snd]. by destruct (close_until _ _) as [? ?]. Qed.

Lemma example_taken : example_run.1 = [("math", [proven "a"]); ("code", [proven "c"]); ("math", [proven "d"])]%string.
Proof. vm_compute. reflexivity. Qed.

Lemma example_few : forall e, e ∈ env_order example_fill -> Z.of_nat (length (chunks_of example_run.1 e)) <= picks_target example_fill.
Proof. rewrite example_taken. intros e He. cbn in He. apply elem_of_cons in He as [->|[->|[]%not_elem_of_nil]%elem_of_cons]; vm_compute; discriminate. Qed.

Lemma example_closed : closed example_end.1 = true.
Proof. vm_compute. reflexivity. Qed.

Lemma window_pays_each_chunk_once_witness :
  example_run.1 = [("math", [proven "a"]); ("code", [proven "c"]); ("math", [proven "d"])]%string
  /\ length (entries example_end.2) = 3%nat
  /\ paid_groups example_end.1 !! "math"%string = Some [(0, proven "a"); (1, proven "d")].
Proof.
  split; [exact example_taken|].
  destruct (window_pays_each_chunk_once example_fill "rev" example_chunks [true; true] example_run.1 example_start example_run.2.1 example_end.1 example_world example_run.2.2 example_end.2
    example_config_ok example_new example_empty example_offered example_run_eq example_few example_end_eq example_closed) as (H1 & _ & H3 & _).
  split; [exact H3|]. rewrite H1 by (apply elem_of_cons; by left). rewrite example_taken. reflexivity.
Defined.

Lemma rows_written_at_once_witness : entries example_world = [] /\ next_batch_index example_run.2.1 = Z.of_nat (length (entries example_run.2.2)).
Proof.
  split; [reflexivity|].
  apply (rows_written_at_once example_fill "rev" example_chunks example_run.1 example_start example_run.2.1 example_world example_run.2.2
    example_config_ok example_new example_empty example_offered example_run_eq).
Defined.

Lemma close_completes_witness : exists s w, close example_fill true (example_run.2.1, example_run.2.2) = (Ok tt, (s, w))
  \/ exists x, close example_fill true (example_run.2.1, example_run.2.2) = (Raise x, (s, w)).
Proof.
  destruct (close_completes example_fill "rev" example_chunks example_run.1 example_start example_run.2.1 example_world example_run.2.2 true
    example_config_ok example_new example_empty example_offered example_run_eq example_few) as (s & w & [[E _]|(x & E & _)]); exists s, w; [by left|right; by exists x].
Defined.

Lemma trainer_reads_every_slot_witness : exists e, entries example_end.2 !! 2%nat = Some e
  /\ next_entry example_fill (fetch_of (entries example_end.2)) (7 * 3 - 1 + 2) 1 = Ok (Some (if w_tombstone e then TombstoneEntry (w_data e) else PayloadEntry (w_data e))).
Proof.
  apply (trainer_reads_every_slot example_fill "rev" example_chunks [true; true] example_run.1 example_start example_run.2.1 example_end.1 example_world example_run.2.2 example_end.2 2
    example_config_ok example_new example_empty example_offered example_run_eq example_few example_end_eq example_closed). reflexivity.
Defined.

Definition example_raw : fill_config := FillConfig 7 ["math"; "code"]%string 1 2 3 false ∅ 100 ∅ 0.

Lemma cursor_migration_roundtrip_witness : exists k, migrate_journal_cursor example_fill 6 None = Ok (k, "fill_closed"%string)
  /\ migrate_journal_cursor example_raw k (Some "fill_closed"%string) = Ok (6, "raw"%string).
Proof.
  destruct (cursor_migration_roundtrip example_fill example_raw 6 eq_refl eq_refl eq_refl ltac:(reflexivity) ltac:(discriminate)) as (k & H1 & _ & _ & H2).
  exists k. split; [exact H1|exact H2].
Defined.
