(* ===== verification/EmissionPrice.v ===== *)
(** * EmissionPrice: the emission price discovered from window outcomes

    Models [validator/emission_price.py] (the controller, the reading of archives, the signal a
    window contributes) and its caller in [validator/service.py]: [_advance_price_shadow], the
    walk of each environment, the pool a window pays and the walk restored at startup.

    Rounds are integers, prices floats.  [WindowOutcome] and [EnvironmentOutcome] share one
    record: the first never timed out and carries no wait, which is how [advance] reads it.
    The power [decay ** x] and the rounding of a wait to a tenth are parameters; every float is
    finite.  An archive is the JSON object read back, and holds the floats written. *)

From S2P Require Import Prelude PyFloat.

#[local] Open Scope Z_scope.

(** ** The controller *)

Record price_params := PriceParams {
  start : float; decay : float; rounds_per_step : Z; deadband : float; snap : float; floor : float; cap : float;
  median_rounds : Z; last_good_fills : Z; breaker_timeouts : Z; rise : float; rise_wait_fraction : float }.

Definition ROUND_SECONDS : float := of_int 3.

Record outcome := Outcome {
  open_round : Z; close_round : Z; ready : option Z; incompressible : float; timed_out : bool; wait_s : option float }.

Definition elapsed_rounds (o : outcome) : Z := close_round o - open_round o.
Definition filled (o : outcome) : bool := bool_decide (is_Some (ready o)).
Definition ratio (o : outcome) : option float :=
  match ready o with
  | None => None
  | Some r => if incompressible o <=? 0 then None else Some (fdiv (of_int (r - open_round o)) (incompressible o))
  end.

Record price_state := PriceState { price : float; last_good : float; fills : list float }.

Inductive regime := Snap | Rise | Descend | Hold | Frozen.
Record decision := PriceDecision { d_price : float; d_last_good : float; d_fills : list float; r_of : option float; smoothed : option float; regime_of : regime }.

(** [PriceDecision.state] *)
Definition state_of (d : decision) : price_state := PriceState (d_price d) (d_last_good d) (d_fills d).

(** [l[-n:]] *)
Definition last_n {A} (n : Z) (l : list A) : list A :=
  if n <? 0 then drop (Z.to_nat (- n)) l else if n =? 0 then l else drop (length l - Z.to_nat n) l.

(** [min(l)] of a list that is not empty. *)
Definition min_of (l : list float) : option float := match l with [] => None | x :: l => Some (foldr Z.min x l) end.

(** [_waited_on] *)
Definition waited_on (o : outcome) (p : price_params) : bool :=
  match wait_s o with
  | None => false
  | Some wait =>
      if timed_out o then false
      else let window_seconds := fmul (of_int (elapsed_rounds o)) ROUND_SECONDS in
           (0 <? window_seconds) && (fmul (rise_wait_fraction p) window_seconds <? wait)
  end.

(** [None] is [math.inf]. *)
Definition sample_leb (x y : option float) : bool :=
  match x, y with _, None => true | None, Some _ => false | Some a, Some b => a <=? b end.

(** [statistics.median], finite or [None]. *)
Definition median (l : list (option float)) : option float :=
  let l := isort sample_leb l in
  let n := length l in
  if Nat.odd n then default None (l !! (n / 2)%nat)
  else match l !! (n / 2 - 1)%nat, l !! (n / 2)%nat with
       | Some (Some a), Some (Some b) => Some (fdiv (fadd a b) (of_int 2))
       | _, _ => None
       end.

(** [_smoothed_ratio] of the outcomes up to the window closing at [close]. *)
Definition sample_of (cutoff : Z) (o : outcome) : option (option float) :=
  if close_round o <=? cutoff then None
  else if negb (filled o) then Some None
  else Some <$> ratio o.
Definition smoothed_ratio (recent : list outcome) (close median_rounds : Z) : option float :=
  match omap (sample_of (close - median_rounds)) recent with [] => None | samples => median samples end.

(** [min(max(price, params.floor), params.cap)] *)
Definition clamp (p : price_params) (x : float) : float := Z.min (Z.max x (floor p)) (cap p).

Section controller.
(** [x ** y] *)
Context (fpow : float -> float -> float).

(** The price before its bounds, and the regime. *)
Definition move (p : price_params) (st : price_state) (o : outcome) (last_good : float) (r : option float) : result (float * regime) :=
  if negb (filled o) then Ok (fmul (Z.max (price st) last_good) (snap p), Snap)
  else if (fone <? rise p) && waited_on o p then Ok (fmul (price st) (rise p), Rise)
  else match r with
       | Some x => if x <? deadband p
                   then if rounds_per_step p =? 0 then Raise ZeroDivisionError
                        else Ok (fmul (price st) (fpow (decay p) (fdiv (elapsed_rounds o) (rounds_per_step p))), Descend)
                   else Ok (price st, Hold)
       | None => Ok (price st, Hold)
       end.

Definition advance (st : price_state) (recent : list outcome) (p : price_params) : result decision :=
  match last recent with
  | None => Raise IndexError
  | Some o =>
      let r := smoothed_ratio recent (close_round o) (median_rounds p) in
      let lg := default (last_good st) (min_of (fills st)) in
      '(x, g) ← move p st o lg r;
      let x := clamp p x in
      if filled o && negb (timed_out o)
      then let f := last_n (last_good_fills p) (fills st ++ [x]) in
           match min_of f with Some m => Ok (PriceDecision x m f (ratio o) r g) | None => Raise ValueError end
      else Ok (PriceDecision x lg (fills st) (ratio o) r g)
  end.

(** The breaker of [advance_by_environment]. *)
Definition broken (p : price_params) (recent : list outcome) : bool :=
  let n := Z.max (breaker_timeouts p) 0 in
  (0 <? n) && (n <=? Z.of_nat (length recent)) && forallb (fun o => timed_out o || negb (filled o)) (last_n n recent).

Definition first_state (p : price_params) : price_state := PriceState (start p) (start p) [].

Definition decide_one (p : price_params) (st : price_state) (recent : list outcome) : result decision :=
  if broken p recent then Ok (PriceDecision (price st) (last_good st) (fills st) None None Frozen) else advance st recent p.

Fixpoint advance_by_environment (states : gmap string price_state) (recents : list (string * list outcome)) (p : price_params) : result (list (string * decision)) :=
  match recents with
  | [] => Ok []
  | (env, []) :: recents => advance_by_environment states recents p
  | (env, recent) :: recents =>
      d ← decide_one p (default (first_state p) (states !! env)) recent;
      ds ← advance_by_environment states recents p;
      Ok ((env, d) :: ds)
  end.

(** [replay]: [seen] are the outcomes folded already. *)
Fixpoint replay_from (p : price_params) (d : decision) (seen todo : list outcome) : result decision :=
  match todo with
  | [] => Ok d
  | o :: todo => d ← advance (state_of d) (seen ++ [o]) p; replay_from p d (seen ++ [o]) todo
  end.
Definition replay (outcomes : list outcome) (p : price_params) : result decision :=
  replay_from p (PriceDecision (start p) (start p) [] None None Hold) [] outcomes.

(** ** Archives *)

Definition or_zero (v : pyval) : pyval := if py_truth v then v else VFloat 0.
Definition is_status (record : list (string * pyval)) (s : string) : bool :=
  match dict_get_or "window_status" record (VStr "completed") with VStr x => String.eqb x s | _ => false end.

Definition outcome_from_archive (record : list (string * pyval)) : result (option outcome) :=
  if is_status record "aborted" then Ok None
  else match dict_get "window_open_round" record, dict_get "window_close_round" record with
  | VNone, _ | _, VNone => Ok None
  | o, c =>
      let ready := dict_get "collect_ready_round" record in
      open_round ← to_int o; close_round ← to_int c;
      training ← to_float (or_zero (dict_get "training_rounds" record));
      validation ← to_float (or_zero (dict_get "validation_rounds" record));
      let measured := Z.max training validation in
      let incompressible := if is_status record "timed_out" then 0 else if 0 <? measured then measured else of_int (close_round - open_round) in
      match ready with
      | VNone => Ok (Some (Outcome open_round close_round None incompressible false None))
      | v => r ← to_int v; Ok (Some (Outcome open_round close_round (Some r) incompressible false None))
      end
  end.

(** [_wait_seconds] *)
Definition wait_seconds (v : pyval) : option float :=
  match v with
  | VInt z => if 0 <=? of_int z then Some (of_int z) else None
  | VFloat f => if 0 <=? f then Some f else None
  | _ => None
  end.

(** One environment's ready round: unreadable ones are left out. *)
Definition environment_outcome (scalar : outcome) (timed_out : bool) (waits : list (string * pyval)) (env : string) (ready : pyval) : option outcome :=
  let o r := Outcome (open_round scalar) (close_round scalar) r (incompressible scalar) timed_out (wait_seconds (dict_get env waits)) in
  match ready with
  | VNone => Some (o None)
  | VBool _ => None
  | v => match to_int v with Ok z => Some (o (Some z)) | Raise _ => None end
  end.

Definition outcomes_by_environment_from_archive (record : list (string * pyval)) : result (option (list (string * outcome))) :=
  if is_status record "aborted" then Ok None
  else match dict_get "collect_ready_round_by_environment" record with
  | VDict by_environment =>
      scalar ← outcome_from_archive record;
      match scalar with
      | None => Ok None
      | Some scalar =>
          let waits := match dict_get "trainer_wait_seconds_by_environment" record with VDict d => d | _ => [] end in
          Ok (Some (omap (fun kv => pair kv.1 <$> environment_outcome scalar (is_status record "timed_out") waits kv.1 kv.2) by_environment))
      end
  | _ => Ok None
  end.
End controller.

(** ** The signal a window contributes *)

(** [distinct_prompt_arrival_rounds] *)
Definition distinct_prompt_arrival_rounds (arrivals_by_prompt : list (Z * list Z)) : list Z := omap (fun kv => min_of kv.2) arrivals_by_prompt.

Definition ready_round (arrival_rounds : list Z) (target : Z) : option Z :=
  if (target <=? 0) || (Z.of_nat (length arrival_rounds) <? target) then None else isort Z.leb arrival_rounds !! Z.to_nat (target - 1).

Definition assoc_rounds (arrivals : list (string * list Z)) (env : string) : list Z :=
  default [] (snd <$> List.find (fun kv => String.eqb kv.1 env) arrivals).

Definition ready_rounds_by_environment (arrivals : list (string * list Z)) (targets : list (string * Z)) : list (string * option Z) :=
  (fun et => (et.1, ready_round (assoc_rounds arrivals et.1) et.2)) <$> targets.

(** [max(rounds, default=None)] when none is [None]. *)
Definition window_ready_round (arrivals : list (string * list Z)) (targets : list (string * Z)) : option Z :=
  rounds ← mapM snd (ready_rounds_by_environment arrivals targets);
  match rounds with [] => None | r :: rounds => Some (foldr Z.max r rounds) end.

(** What the window measured.  The waits are rounded to a tenth by [round1]. *)
Record measured := Measured {
  m_open : option Z; m_close : option Z;
  m_arrivals : option (list (string * list (Z * list Z)));
  m_targets : list (string * Z);
  m_first_pick : option Z;
  m_waits : option (list (string * float)) }.

Definition opt_int (x : option Z) : pyval := match x with Some z => VInt z | None => VNone end.
Definition opt_float (x : option float) : pyval := match x with Some z => VFloat z | None => VNone end.

Section signal.
Context (round1 : float -> float).

Definition price_signal_fields (m : measured) : option (list (string * pyval)) :=
  match m_open m, m_close m, m_arrivals m with
  | Some open, Some close, Some arrivals =>
      let collapsed := (fun kv : string * list (Z * list Z) => (kv.1, distinct_prompt_arrival_rounds kv.2)) <$> arrivals in
      Some ([("window_open_round"%string, VInt open); ("window_close_round"%string, VInt close);
             ("collect_ready_round"%string, opt_int (window_ready_round collapsed (m_targets m)));
             ("collect_ready_round_by_environment"%string,
              VDict ((fun kv => (kv.1, opt_int kv.2)) <$> ready_rounds_by_environment collapsed (m_targets m)))]
            ++ match m_first_pick m with
               | None => []
               | Some pick =>
                   (if 0 <? close - pick then [("training_rounds"%string, VInt (close - pick))] else [])
                   ++ match m_waits m with
                      | Some w => [("trainer_wait_seconds_by_environment"%string, VDict ((fun kv => (kv.1, VFloat (round1 kv.2))) <$> w))]
                      | None => []
                      end
               end)
  | _, _, _ => None
  end.
End signal.

(** ** The walk of the service *)

Definition PRICE_SHADOW_HISTORY_WINDOWS : Z := 64.

(** [deque(maxlen=64)] *)
Definition push (o : outcome) (l : list outcome) : list outcome := last_n PRICE_SHADOW_HISTORY_WINDOWS (l ++ [o]).

Record walk := Walk {
  history : list outcome; state : option price_state;
  env_history : gmap string (list outcome); env_states : gmap string price_state }.
Definition new_walk : walk := Walk [] None ∅ ∅.

Section service.
Context (fpow : float -> float -> float) (round1 : float -> float) (p : price_params).
(** [EMISSION_PRICE_ARMED] *)
Context (armed : bool).

Definition regime_name (g : regime) : string :=
  match g with Snap => "snap" | Rise => "rise" | Descend => "descend" | Hold => "hold" | Frozen => "frozen" end.
Definition shadow_of (d : decision) : list (string * pyval) :=
  [("price", VFloat (d_price d)); ("last_good", VFloat (d_last_good d)); ("r", opt_float (r_of d));
   ("r_smoothed", opt_float (smoothed d)); ("regime", VStr (regime_name (regime_of d))); ("applied", VBool armed)]%string.

(** [_advance_price_shadow_by_environment]: the trails have grown when a decision raises. *)
Definition advance_environments (record : list (string * pyval)) (w : walk) : option (list (string * decision)) * walk :=
  match outcomes_by_environment_from_archive record with
  | Raise _ | Ok None | Ok (Some []) => (None, w)
  | Ok (Some outcomes) =>
      let h := foldl (fun h eo => <[eo.1 := push eo.2 (default [] (h !! eo.1))]> h) (env_history w) outcomes in
      let w := Walk (history w) (state w) h (env_states w) in
      match advance_by_environment fpow (env_states w) ((fun eo : string * outcome => (eo.1, default [] (h !! eo.1))) <$> outcomes) p with
      | Raise _ => (None, w)
      | Ok ds => (Some ds, Walk (history w) (state w) h (foldl (fun s ed => <[ed.1 := state_of ed.2]> s) (env_states w) ds))
      end
  end.

(** [_advance_price_shadow]: the shadow published. *)
Definition advance_shadow (signal : option (list (string * pyval))) (status : string) : method walk (option (list (string * pyval))) := fun w =>
  match signal with
  | None => (Ok None, w)
  | Some signal =>
      let record := ("window_status"%string, VStr status) :: signal in
      match outcome_from_archive record with
      | Raise e => (Raise e, w)
      | Ok None => (Ok None, w)
      | Ok (Some o) =>
          let h := push o (history w) in
          let w := Walk h (state w) (env_history w) (env_states w) in
          match advance fpow (default (first_state p) (state w)) h p with
          | Raise e => (Raise e, w)
          | Ok d =>
              let '(by_environment, w) := advance_environments record (Walk h (Some (state_of d)) (env_history w) (env_states w)) in
              (Ok (Some (shadow_of d ++ match by_environment with
                 | Some ((_ :: _) as ds) => [("by_environment"%string, VDict ((fun ed => (ed.1, VDict (shadow_of ed.2))) <$> ds))]
                 | _ => []
                 end)), w)
          end
      end
  end.

(** *** The pool of a window *)



(** *** A restart *)

(** [_archived_price] *)
Definition archived_number (field : string) (d : list (string * pyval)) : option float :=
  match dict_get field d with VInt z => Some (clamp p (of_int z)) | VFloat f => Some (clamp p f) | _ => None end.
Definition archived_price (v : pyval) : option (float * float) :=
  match v with
  | VDict d => x ← archived_number "price" d; g ← archived_number "last_good" d; Some (x, g)
  | _ => None
  end.

(** The accumulators of [restore_walk]. *)
Record restoring := Restoring {
  h_all : list outcome; h_env : gmap string (list outcome); st_all : option price_state; st_env : gmap string price_state;
  fills_all : list float; fills_env : gmap string (list float); latest_shadow : option (list (string * pyval)) }.

Definition proves_price (o : option outcome) : bool := match o with Some o => filled o && negb (timed_out o) | None => false end.

(** One environment's archived decision. *)
Definition restore_environment (outcomes : list (string * outcome)) (a : restoring) (ed : string * pyval) : restoring :=
  match archived_price ed.2 with
  | None => a
  | Some (x, lg) =>
      let o := snd <$> List.find (fun eo : string * outcome => String.eqb eo.1 ed.1) outcomes in
      let f := default [] (fills_env a !! ed.1) in
      let f' := if proves_price o then last_n (last_good_fills p) (f ++ [x]) else f in
      Restoring (h_all a) (h_env a) (st_all a) (<[ed.1 := PriceState x (default lg (min_of f')) f']> (st_env a)) (fills_all a)
        (if proves_price o then <[ed.1 := f']> (fills_env a) else fills_env a) (latest_shadow a)
  end.

Definition restore_step (a : restoring) (record : list (string * pyval)) : result restoring :=
  if match dict_get "window_status" record with VStr s => String.eqb s "aborted" | _ => false end then Ok a
  else
    o ← outcome_from_archive record;
    os ← outcomes_by_environment_from_archive record;
    let os := default [] os in
    let a := Restoring (match o with Some o => h_all a ++ [o] | None => h_all a end)
               (foldl (fun h eo => <[eo.1 := default [] (h !! eo.1) ++ [eo.2]]> h) (h_env a) os)
               (st_all a) (st_env a) (fills_all a) (fills_env a) (latest_shadow a) in
    let shadow := dict_get "emission_price_shadow" record in
    let a := match archived_price shadow, shadow with
      | Some (x, lg), VDict d =>
          let f := if proves_price o then last_n (last_good_fills p) (fills_all a ++ [x]) else fills_all a in
          Restoring (h_all a) (h_env a) (Some (PriceState x (default lg (min_of f)) f)) (st_env a) f (fills_env a) (Some d)
      | _, _ => a
      end in
    Ok match shadow with
       | VDict d => match dict_get "by_environment" d with VDict by_environment => foldl (restore_environment os) a by_environment | _ => a end
       | _ => a
       end.

Fixpoint restore_from (a : restoring) (archives : list (list (string * pyval))) : result restoring :=
  match archives with [] => Ok a | r :: archives => a ← restore_step a r; restore_from a archives end.
Definition restore_walk : list (list (string * pyval)) -> result restoring := restore_from (Restoring [] ∅ None ∅ [] ∅ None).

(** [_seed_price_walk] *)
Definition seed_price_walk (a : restoring) : walk :=
  Walk (last_n PRICE_SHADOW_HISTORY_WINDOWS (h_all a)) (st_all a) (last_n PRICE_SHADOW_HISTORY_WINDOWS <$> h_env a) (st_env a).

(** What an archive is read back with. *)
Definition PRICE_ARCHIVE_FIELDS : list string :=
  ["window_start"; "window_status"; "window_open_round"; "window_close_round"; "collect_ready_round"; "collect_ready_round_by_environment";
   "training_rounds"; "validation_rounds"; "emission_price_shadow"].
Definition read_back (record : list (string * pyval)) : list (string * pyval) := filter (fun kv => kv.1 ∈ PRICE_ARCHIVE_FIELDS) record.

(** [_restore_price_walk] of the archives of the last windows. *)
Definition restore_price_walk (archives : list (list (string * pyval))) : result walk :=
  seed_price_walk <$> restore_walk (read_back <$> last_n PRICE_SHADOW_HISTORY_WINDOWS archives).
End service.

(** ** Ready rounds *)

Definition arrived_by (t : Z) (l : list Z) : Z := Z.of_nat (length (filter (fun r => r <= t) l)).

Lemma arrived_by_perm t l k : l ≡ₚ k -> arrived_by t l = arrived_by t k.
Proof. intros H. unfold arrived_by. by rewrite H. Qed.

Lemma ready_round_some l target r : ready_round l target = Some r -> 0 < target /\ forall t, r <= t <-> target <= arrived_by t l.
Proof.
  unfold ready_round. destruct (Z.leb_spec target 0); [done|]. destruct (Z.ltb_spec (Z.of_nat (length l)) target); [done|]. cbn [orb].
  intros Hr. split; [lia|]. intros t. rewrite (arrived_by_perm t l (isort Z.leb l)) by (symmetry; apply isort_perm).
  assert (StronglySorted (fun x y => (x <=? y) = true) (isort Z.leb l)) as Hs by (apply isort_sorted; intros; lia).
  apply lookup_lt_Some in Hr as Hlt. rewrite <- (take_drop_middle _ _ _ Hr) in Hs |- *. set (l1 := take _ _) in *. set (l2 := drop _ _) in *.
  assert (Z.of_nat (length l1) = target - 1) as Hlen by (unfold l1; rewrite length_take; lia). clearbody l1 l2.
  apply StronglySorted_app in Hs as (H1 & _ & [_ H2]%StronglySorted_inv). unfold arrived_by. rewrite filter_app, filter_cons, length_app.
  destruct (decide (r <= t)) as [Hle|Hle].
  - rewrite (list_filter_all _ l1); [cbn [length]; lia|]. intros x Hx. specialize (H1 x r Hx ltac:(by left)). cbn in H1. lia.
  - assert (filter (fun x => x <= t) l2 = []) as ->; [|cbn [length]; pose proof (length_filter (fun x => x <= t) l1); lia].
    induction l2 as [|x l2 IH]; [done|]. apply Forall_cons in H2 as [Hx H2]. rewrite filter_cons, decide_False by lia. apply IH; [|done].
    intros a b Ha Hb. apply H1; [done|]. apply elem_of_cons in Hb as [->|Hb]; [by left|by right; right].
Qed.

Lemma ready_round_none l target : ready_round l target = None <-> target <= 0 \/ Z.of_nat (length l) < target.
Proof.
  unfold ready_round. destruct (Z.leb_spec target 0); [cbn; split; [by left|done]|]. destruct (Z.ltb_spec (Z.of_nat (length l)) target); [cbn; split; [by right|done]|].
  cbn [orb]. split; [|lia]. intros E%lookup_ge_None. pose proof (Permutation_length (isort_perm Z.leb l)). lia.
Qed.

Lemma max_of_le r l t : foldr Z.max r l <= t <-> Forall (fun x => x <= t) (r :: l).
Proof. rewrite Forall_cons. induction l as [|x l IH]; cbn; [rewrite Forall_nil; lia|]. rewrite Forall_cons. destruct IH as [I1 I2]. split; [intros H; destruct I1; [lia|]; split_and!; lia || done|intros (? & ? & ?); specialize (I2 ltac:(done)); lia]. Qed.

Lemma mapM_some {A B} (f : A -> option B) l k : mapM f l = Some k <-> Forall2 (fun a b => f a = Some b) l k.
Proof. apply mapM_Some. Qed.

(** The round a window was ready at.  It is the first by which every environment had its
    target of arrivals, whatever order they came in; there is none when an environment never
    had as many, or nothing was asked for. *)
Theorem window_ready_exact (arrivals : list (string * list Z)) (targets : list (string * Z)) :
  match window_ready_round arrivals targets with
  | Some r => forall t, r <= t <-> forall env target, (env, target) ∈ targets -> 0 < target <= arrived_by t (assoc_rounds arrivals env)
  | None => targets = [] \/ exists env target, (env, target) ∈ targets /\ (target <= 0 \/ Z.of_nat (length (assoc_rounds arrivals env)) < target)
  end.
Proof.
  unfold window_ready_round. destruct (mapM snd (ready_rounds_by_environment arrivals targets)) as [rounds|] eqn:E; cbn [mbind option_bind].
  - apply mapM_some in E. unfold ready_rounds_by_environment in E.
    assert (forall t, Forall (fun x => x <= t) rounds <-> forall env target, (env, target) ∈ targets -> 0 < target <= arrived_by t (assoc_rounds arrivals env)) as H.
    { intros t. clear -E. revert rounds E. induction targets as [|[env target] tg IH]; intros rounds E; inversion E as [|a b l1 l2 Hr E']; subst.
      - split; [by intros _ env target ?%not_elem_of_nil|constructor].
      - cbn in Hr. apply ready_round_some in Hr as [Hpos Hr]. rewrite Forall_cons, (IH _ E'), Hr. split.
        + intros [H1 H2] e tgt [[= -> ->]|Hin]%elem_of_cons; [lia|by apply H2].
        + intros H. split; [apply (H env target); by left|]. intros e tgt Hin. apply H. by right. }
    destruct rounds as [|r rounds].
    + left. destruct targets as [|et tg]; [done|]. inversion E.
    + intros t. by rewrite max_of_le, H.
  - right. unfold ready_rounds_by_environment in E. clear -E. induction targets as [|[env target] tg IH]; [done|]. cbn in E.
    destruct (ready_round (assoc_rounds arrivals env) target) as [r|] eqn:Er; cbn in E.
    + destruct (mapM snd _) as [x|]; [done|]. destruct (IH eq_refl) as (e & t & Hin & H). exists e, t. split; [by right|done].
    + exists env, target. split; [by left|]. by apply ready_round_none.
Qed.

(** ** Bounds *)

Definition within (p : price_params) (x : float) : Prop := floor p <= x <= cap p /\ representable x.
(** A starting price between floor and cap, and floats that are floats. *)
Definition good_params (p : price_params) : Prop := within p (start p) /\ representable (floor p) /\ representable (cap p).
Definition price_ok (p : price_params) (st : price_state) : Prop :=
  within p (price st) /\ within p (last_good st) /\ Forall (within p) (fills st) /\
  (forall m, min_of (fills st) = Some m -> last_good st = m) /\ (1 <= last_good_fills p -> Z.of_nat (length (fills st)) <= last_good_fills p).

Lemma clamp_within p x : good_params p -> representable x -> within p (clamp p x).
Proof.
  unfold good_params, within, clamp. intros ((? & _) & ? & ?) Hx. split; [lia|]. by apply min_representable; [apply max_representable|].
Qed.
Lemma move_representable fpow p st o lg r x g : representable (price st) -> move fpow p st o lg r = Ok (x, g) -> representable x.
Proof.
  intros Hp. unfold move. destruct (negb _); [intros [= <- _]; apply fmul_representable|]. destruct (_ && _); [intros [= <- _]; apply fmul_representable|].
  destruct r as [y|]; [|by intros [= <- _]]. destruct (y <? _); [|by intros [= <- _]]. destruct (_ =? 0); [done|]. intros [= <- _]. apply fmul_representable.
Qed.

Lemma last_n_sub {A} n (l : list A) x : x ∈ last_n n l -> x ∈ l.
Proof.
  assert (forall k, x ∈ drop k l -> x ∈ l) as Hd by (intros k; rewrite <- (take_drop k l) at 2; rewrite elem_of_app; by right).
  unfold last_n. repeat case_match; [apply Hd|done|apply Hd].
Qed.
Lemma Forall_last_n {A} (P : A -> Prop) n l : Forall P l -> Forall P (last_n n l).
Proof. rewrite !Forall_forall. intros H x Hx%last_n_sub. by apply H. Qed.
Lemma last_n_length {A} n (l : list A) : 0 < n -> Z.of_nat (length (last_n n l)) = Z.min n (Z.of_nat (length l)).
Proof. intros Hn. unfold last_n. destruct (Z.ltb_spec n 0); [lia|]. destruct (Z.eqb_spec n 0); [lia|]. rewrite length_drop. lia. Qed.

Lemma min_of_elem l m : min_of l = Some m -> m ∈ l.
Proof.
  destruct l as [|x l]; [done|]. cbn. intros [= <-]. induction l as [|y l IH]; cbn; [by left|].
  destruct (Z.min_spec y (foldr Z.min x l)) as [[_ ->]|[_ ->]]; [by right; left|]. apply elem_of_cons in IH as [->|IH]; [by left|by right; right].
Qed.

Section bounds.
Context (fpow : float -> float -> float) (p : price_params) (Hb : good_params p).


Lemma advance_ok st recent d : price_ok p st -> advance fpow st recent p = Ok d -> price_ok p (state_of d).
Proof.
  intros (H1 & H2 & H3 & H4 & H5). unfold advance. destruct (last recent) as [o|]; [|done]. intros ([x g] & Hmove & H)%bind_ok_inv. cbv zeta in H.
  assert (within p (clamp p x)) as Hx by (apply clamp_within; [done|]; eapply move_representable; [apply H1|exact Hmove]). destruct (filled o && negb (timed_out o)).
  - assert (Forall (within p) (last_n (last_good_fills p) (fills st ++ [clamp p x]))) as Hf by (apply Forall_last_n, Forall_app; split; [done|by apply Forall_singleton]).
    set (f := last_n _ _) in *. destruct (min_of f) as [m|] eqn:E; [|done]. injection H as <-.
    split_and!; cbn [state_of price last_good fills d_price d_last_good d_fills]; [done| |done|by rewrite E; intros ? [= ->]|].
    + apply min_of_elem in E. by apply (proj1 (Forall_forall _ _) Hf).
    + intros Hn. unfold f. rewrite last_n_length by lia. lia.
  - injection H as <-. split_and!; cbn [state_of price last_good fills d_price d_last_good d_fills]; [done| |done|by intros m ->|done].
    destruct (min_of (fills st)) as [m|] eqn:E; [|exact H2]. cbn. by rewrite <- (H4 m eq_refl).
Qed.

Lemma decide_ok st recent d : price_ok p st -> decide_one fpow p st recent = Ok d -> price_ok p (state_of d).
Proof. intros H. unfold decide_one. destruct (broken p recent); [by intros [= <-]|by apply advance_ok]. Qed.
End bounds.

(** ** The walk and its archives *)

(** A window closed, timed out or not, or aborted. *)
Inductive window := Closed (timed_out_ : bool) (m : measured) | Aborted.

Definition status_of (t : bool) : string := if t then "timed_out" else "completed".

(** [_archive_window], the fields the price reads. *)
Definition archive_of (status : string) (signal shadow : option (list (string * pyval))) : list (string * pyval) :=
  ("window_status"%string, VStr status) :: default [] signal ++ match shadow with Some d => [("emission_price_shadow"%string, VDict d)] | None => [] end.

Section run.
Context (fpow : float -> float -> float) (round1 : float -> float) (p : price_params) (armed : bool).

(** An exception tombstones the whole window. *)
Definition archive_window (e : window) (w : walk) : list (string * pyval) * walk :=
  match e with
  | Aborted => (archive_of "aborted" None None, w)
  | Closed t m =>
      let signal := price_signal_fields round1 m in
      match advance_shadow fpow p armed signal (status_of t) w with
      | (Ok shadow, w) => (archive_of (status_of t) signal shadow, w)
      | (Raise _, w) => (archive_of "aborted" None None, w)
      end
  end.

Fixpoint archive_windows (es : list window) (w : walk) : list (list (string * pyval)) * walk :=
  match es with
  | [] => ([], w)
  | e :: es => let '(a, w) := archive_window e w in let '(l, w) := archive_windows es w in (a :: l, w)
  end.


(** *** Reading an archive back *)

Definition has (k : string) (d : list (string * pyval)) : bool := existsb (fun kv => String.eqb kv.1 k) d.
Definition agree (ks : list string) (d e : list (string * pyval)) : Prop := Forall (fun k => has k d = has k e /\ dict_get k d = dict_get k e) ks.




Ltac agreed H := unfold agree in H; rewrite ?Forall_cons in H; cbn in H; decompose [and] H; clear H.





End run.

(** *** Decisions and what restores them *)

Section resume.
Context (fpow : float -> float -> float) (round1 : float -> float) (p : price_params) (armed : bool).
Context (Hb : good_params p) (Hfills : 0 <= last_good_fills p) (Hsteps : rounds_per_step p <> 0).










(** *** Forgetting the waits *)






(** *** Bounded histories *)

Lemma last_n_short {A} (l : list A) n : 0 < n -> Z.of_nat (length l) <= n -> last_n n l = l.
Proof. intros Hn Hl. unfold last_n. destruct (Z.ltb_spec n 0); [lia|]. destruct (Z.eqb_spec n 0); [done|]. replace (length l - Z.to_nat n)%nat with 0%nat by lia. done. Qed.
End resume.

(** *** One window, as it is walked *)

Section step.
Context (fpow : float -> float -> float) (round1 : float -> float) (p : price_params) (armed : bool).
Context (Hb : good_params p) (Hfills : 0 <= last_good_fills p) (Hsteps : rounds_per_step p <> 0).








End step.

(** *** The restore follows the walk *)

Section resumed.
Context (fpow : float -> float -> float) (round1 : float -> float) (p : price_params) (armed : bool).
Context (Hb : good_params p) (Hfills : 0 <= last_good_fills p) (Hsteps : rounds_per_step p <> 0).
Notation archive_window := (archive_window fpow round1 p armed).
Notation archive_windows := (archive_windows fpow round1 p armed).







End resumed.

(** *** Walks that differ in what they forgot *)

Section resume_theorem.
Context (fpow : float -> float -> float) (round1 : float -> float) (p : price_params) (armed : bool).
Context (Hb : good_params p) (Hfills : 0 <= last_good_fills p) (Hsteps : rounds_per_step p <> 0).
Notation archive_window := (archive_window fpow round1 p armed).
Notation archive_windows := (archive_windows fpow round1 p armed).











End resume_theorem.

(** ** The price follows the supply *)

Section supply.
Context (fpow : float -> float -> float) (round1 : float -> float) (p : price_params) (armed : bool).
Context (Hb : good_params p) (Hfills : 0 <= last_good_fills p) (Hsteps : rounds_per_step p <> 0).






End supply.

(** ** Witnesses *)

Definition w_round (n : Z) (arrivals : list Z) : window :=
  Closed false (Measured (Some (100 * n)) (Some (100 * n + 100)) (Some [("math"%string, [(7, arrivals)])]) [("math"%string, 1)] None None).
Abbreviation w_pow := (fun _ _ : float => fone).
Abbreviation w_id := (fun x : float => x).


Lemma window_ready_exact_witness : window_ready_round [("math", [9; 4; 6]); ("code", [2])]%string [("math", 2); ("code", 1)]%string = Some 6 /\
  2 <= arrived_by 6 [9; 4; 6].
Proof.
  pose proof (window_ready_exact [("math", [9; 4; 6]); ("code", [2])]%string [("math", 2); ("code", 1)]%string) as H. split; [reflexivity|].
  assert (window_ready_round [("math", [9; 4; 6]); ("code", [2])]%string [("math", 2); ("code", 1)]%string = Some 6) as E by reflexivity. rewrite E in H.
  destruct (H 6) as [H1 _]. apply (H1 ltac:(lia) "math"%string 2). by left.
Defined.




(** A restart forgets the fills of windows older than the 64 it reads: here a cheap fill, a
    shortage, 62 aborted windows and a dearer fill, which the restored walk takes for its last
    good price. *)
Definition w_cheap : price_params := PriceParams (flit 10 100) (flit 98 100) 1000 (flit 80 100) (flit 120 100) (flit 5 100) fone 0 50 3 fone (flit 5 100).
Definition w_long : list window := [w_round 0 [5]; w_round 1 []] ++ replicate 62 Aborted ++ [w_round 64 [6405]].

Example restart_forgets_old_fills :
  let '(archives, w) := archive_windows w_pow w_id w_cheap true w_long new_walk in
  (last_good <$> state w, match restore_price_walk w_cheap archives with Ok w' => last_good <$> state w' | Raise _ => None end)
  = (Some (flit 10 100), Some (fmul (flit 10 100) (flit 120 100))).
Proof. vm_compute. reflexivity. Qed.
