(* ===== verification/DifficultyAuction.v ===== *)
(** * DifficultyAuction: the value of a reward group and the shadow auction

    Models [validator/difficulty_auction.py]: the difficulty of a group of rewards, its least
    value under rollouts whose reward is not trusted, and the greedy selection of the shadow
    auction.

    [x ** y] on floats is a parameter.  Rewards are floats, so finite; the constants the
    functions import are arguments.  A key hashes eight bytes of the prompt index, which raises
    when it does not fit. *)

From S2P Require Import Prelude PyFloat Bytes Sha256 Cooldown BatchSelection.

#[local] Open Scope Z_scope.

(** ** Values *)

Record difficulty := DifficultyScore { value : float; mean_reward : float; reward_std : float; reward_count : Z }.

Section values.
Context (fpow : float -> float -> float).

Definition outside_unit (l : list float) : bool := existsb (fun x => (x <? 0) || (fone <? x)) l.

Definition difficulty_score (rewards : list float) (delta : float) : result difficulty :=
  if delta <? 0 then Raise ValueError
  else if outside_unit rewards then Raise ValueError
  else if bool_decide (rewards = []) then Ok (DifficultyScore 0 0 0 0)
  else
    let count := of_int (Z.of_nat (length rewards)) in
    let mean := fdiv (py_sum rewards) count in
    let variance := fdiv (py_sum ((fun r => fpow (fsub r mean) (of_int 2)) <$> rewards)) count in
    let std := fpow variance (flit 1 2) in
    Ok (DifficultyScore (fmul std (fpow (fsub fone mean) delta)) mean std (Z.of_nat (length rewards))).

Definition gated_difficulty_utility (rewards : list float) (sigma_min delta : float) : result float :=
  if sigma_min <? 0 then Raise ValueError
  else
    s ← difficulty_score rewards delta;
    Ok (if (reward_std s <? flit 1 (10 ^ 8)) || (reward_std s <? sigma_min) then 0 else value s).

Definition fractional_reward_lattice (total_tests : Z) : result (list float) :=
  if total_tests <=? 0 then Raise ValueError
  else Ok ((fun passed => flit passed total_tests) <$> seqZ 0 (total_tests + 1)).

(** ** Rewards that are not trusted *)

Definition ROBUST_UTILITY_MAX_OUTCOMES : Z := 200000.

(** [dict.fromkeys]: the first of each. *)
Fixpoint first_of_each (l : list Z) : list Z :=
  match l with [] => [] | x :: l => x :: filter (fun y => y <> x) (first_of_each l) end.

(** [math.comb] *)
Fixpoint comb (n k : nat) : Z :=
  match n, k with
  | _, O => 1
  | O, S _ => 0
  | S n, S k => comb n k + comb n (S k)
  end.

(** [itertools.combinations_with_replacement] *)
Fixpoint combinations (l : list float) (r : nat) : list (list float) :=
  match l with
  | [] => match r with O => [[]] | S _ => [] end
  | x :: l' =>
      (fix with_x (r : nat) : list (list float) :=
         match r with O => [[]] | S r' => (cons x <$> with_x r') ++ combinations l' (S r') end) r
  end.

(** [outcome[index] = attainable_reward] of each pair. *)
Fixpoint assign (values : list float) (ia : list (Z * float)) : list float :=
  match ia with [] => values | (i, a) :: ia => assign (<[Z.to_nat i := a]> values) ia end.

Definition robust_uncertain_reward_utility (rewards : list float) (sigma_min : float) (uncertain attainable : list Z) (delta : float) : result float :=
  let indices := first_of_each uncertain in
  if bool_decide (indices = []) then gated_difficulty_utility rewards sigma_min delta
  else if existsb (fun i => (i <? 0) || (Z.of_nat (length rewards) <=? i)) indices then Raise ValueError
  else
    let lattice := first_of_each attainable in
    if bool_decide (lattice = []) || outside_unit lattice then Raise ValueError
    else
      _ ← difficulty_score rewards delta;
      if ROBUST_UTILITY_MAX_OUTCOMES <? comb (length lattice + length indices - 1) (length indices) then Ok 0
      else
        utilities ← mapM (fun assignment => gated_difficulty_utility (assign rewards (zip indices assignment)) sigma_min delta)
                      (combinations lattice (length indices));
        match utilities with [] => Raise ValueError | u :: us => Ok (foldr Z.min u us) end.

Definition robust_truncation_utility (rewards : list float) (sigma_min : float) (truncated_index : option Z) (truncated_indices attainable : list Z)
    (delta : float) : result float :=
  robust_uncertain_reward_utility rewards sigma_min (match truncated_index with Some i => i :: truncated_indices | None => truncated_indices end) attainable delta.

(** The positions of the first [count] zeros. *)
Definition zero_positions (values : list float) (count : Z) : list nat :=
  take (Z.to_nat count) ((fun iv => iv.1) <$> filter (fun iv : nat * float => iv.2 = 0) (imap pair values)).
Definition raised (values : list float) (positions : list nat) : list float := foldl (fun v i => <[i := fone]> v) values positions.

(** The loop over the interpretations; a tie keeps the first. *)
Fixpoint least_score (delta : float) (candidates : list (list float)) (best : option difficulty) : result (option difficulty) :=
  match candidates with
  | [] => Ok best
  | c :: cs =>
      s ← difficulty_score c delta;
      least_score delta cs (match best with Some b => if value s <? value b then Some s else Some b | None => Some s end)
  end.

Definition conservative_difficulty_score (rewards : list float) (truncated_count : Z) (delta : float) : result difficulty :=
  let count := Z.max 0 truncated_count in
  if (count =? 0) || bool_decide (rewards = []) then difficulty_score rewards delta
  else
    let zeros := zero_positions rewards count in
    best ← least_score delta ((fun j => raised rewards (take j zeros)) <$> List.seq 0 (S (length zeros))) None;
    match best with Some s => Ok s | None => difficulty_score rewards delta end.

(** [DIFFICULTY_AUCTION_FLAT_VALUE], [CONSERVATIVE_TRUNCATION_VALUE], [DIFFICULTY_AUCTION_DELTA] *)
Context (flat_value conservative : bool) (auction_delta : float).

Definition flat_auction_value (v : float) : float := if flat_value && (0 <? v) then fone else v.

Definition auction_difficulty_score (rewards : list float) (truncated_count : Z) (delta : option float) : result difficulty :=
  let delta := default auction_delta delta in
  s ← (if conservative && (0 <? truncated_count) then conservative_difficulty_score rewards truncated_count delta else difficulty_score rewards delta);
  let flat := flat_auction_value (value s) in
  Ok (if negb (flat =? value s) then DifficultyScore flat (mean_reward s) (reward_std s) (reward_count s) else s).

Definition auction_value (rewards : list float) (truncated_count : Z) (delta : option float) : result float :=
  value <$> auction_difficulty_score rewards truncated_count delta.

Definition max_difficulty_value (count : Z) (delta : float) : result float :=
  if count <=? 0 then Ok 0
  else
    scores ← mapM (fun k => difficulty_score (replicate k fone ++ replicate (Z.to_nat count - k) 0) delta) (List.seq 0 (S (Z.to_nat count)));
    match scores with [] => Raise ValueError | s :: l => Ok (foldr Z.max (value s) (value <$> l)) end.
End values.

(** ** The shadow auction *)

Record submission := ShadowSubmission {
  source_id : Z; hotkey : string; prompt_idx : Z; drand_round : Z; merkle_root : list Z; selection_digest : list Z;
  rewards : list float; in_cooldown : bool; arrival_drand_round : option Z }.

Definition scored : Type := submission * difficulty.

Record candidate := ShadowCandidate {
  c_submission : submission; c_score : difficulty; rank : option Z; eligible : bool; selected : bool; operator_id : option string }.

Record auction := ShadowAuctionResult {
  candidates : list candidate; chosen : list submission; eligible_count : Z; distinct_prompt_count : Z;
  operator_cap_requested : option Z; operator_cap_applied : bool; operator_mapping_complete : bool }.

(** Python's [<=] on [bytes]. *)
Definition bytes_leb (a b : list Z) : bool := negb (bytes_ltb b a).

(** What [_within_slot_key] reads of a submission. *)
Definition slot_sub (s : submission) : sub :=
  Sub (source_id s) (hotkey s) (prompt_idx s) (merkle_root s) (Some (selection_digest s)) (drand_round s).
Definition slot_key (s : submission) : list Z := within_slot_key (slot_sub s).
Definition chronological (s : submission) : Z := default (drand_round s) (arrival_drand_round s).

(** [_rank_key], compared as tuples are. *)
Definition rank_leb (x y : scored) : bool :=
  if value y.2 <? value x.2 then true
  else if value x.2 <? value y.2 then false
  else if chronological x.1 <? chronological y.1 then true
  else if chronological y.1 <? chronological x.1 then false
  else bytes_leb (slot_key x.1) (slot_key y.1).

(** [str(operator).strip() or None] *)
Definition operator_name (o : option string) : option string :=
  match o with Some s => let t := strip s in if String.eqb t "" then None else Some t | None => None end.

Section auction.
Context (fpow : float -> float -> float).
(** The operator of a hotkey, when a mapping is given. *)
Context (operator_of : option (string -> option string)).

Definition operator (s : submission) : option string := match operator_of with Some f => operator_name (f (hotkey s)) | None => None end.

(** The loop, on the submissions selected so far. *)
Definition slots_of (sel : list submission) (o : string) : Z := Z.of_nat (length (filter (fun s => operator s = Some o) sel)).
Definition blocked (b : Z) (cap : option Z) (sel : list submission) (s : submission) : bool :=
  (b <=? Z.of_nat (length sel)) || bool_decide (prompt_idx s ∈ prompt_idx <$> sel)
  || match cap, operator s with Some n, Some o => n <=? slots_of sel o | _, _ => false end.
Definition pick (b : Z) (cap : option Z) (sel : list submission) (s : submission) : list submission := if blocked b cap sel s then sel else sel ++ [s].

Definition eligible_of (l : list scored) : list scored := filter (fun x => (0 <? value x.2) && negb (in_cooldown x.1) = true) l.

Definition rank_of (ranked : list scored) (s : submission) : option Z :=
  (fun r => Z.of_nat r.1 + 1) <$> list_find (fun x : scored => source_id x.1 = source_id s) ranked.

Definition select_shadow_auction (submissions : list submission) (b : Z) (delta : float) (max_slots : option Z) : result auction :=
  if b <? 0 then Raise ValueError
  else if match max_slots with Some n => n <=? 0 | None => false end then Raise ValueError
  else if negb (bool_decide (NoDup (source_id <$> submissions))) then Raise ValueError
  else
    scored ← mapM (fun s => d ← difficulty_score fpow (rewards s) delta; Ok (s, d)) submissions;
    let pool := eligible_of scored in
    if existsb (fun x : submission * difficulty => (prompt_idx x.1 <? 0) || (2 ^ 64 <=? prompt_idx x.1)) pool then Raise OverflowError
    else
      let ranked := isort rank_leb pool in
      let complete := negb (bool_decide (ranked = [])) && forallb (fun x => match operator x.1 with Some _ => true | None => false end) ranked in
      let applied := bool_decide (is_Some max_slots) && complete in
      let sel := foldl (pick b (if applied then max_slots else None)) [] ranked.*1 in
      let ids := source_id <$> sel in
      Ok (ShadowAuctionResult
            ((fun x => ShadowCandidate x.1 x.2 (rank_of ranked x.1) (bool_decide (is_Some (rank_of ranked x.1)))
                         (bool_decide (source_id x.1 ∈ ids))
                         (match rank_of ranked x.1 with Some _ => operator x.1 | None => None end)) <$> scored)
            sel (Z.of_nat (length ranked)) (Z.of_nat (size (list_to_set (prompt_idx <$> ranked.*1) : gset Z)))
            max_slots applied complete).
End auction.

(** ** Enumerating the outcomes *)

Lemma combinations_cons x l r : combinations (x :: l) (S r) = (cons x <$> combinations (x :: l) r) ++ combinations l (S r).
Proof. reflexivity. Qed.
Lemma combinations_0 l : combinations l 0 = [[]].
Proof. by destruct l. Qed.

Lemma comb_0 n : comb n 0 = 1.
Proof. by destruct n. Qed.
Lemma comb_over n k : (n < k)%nat -> comb n k = 0.
Proof. revert k. induction n as [|n IH]; intros [|k] H; cbn; try lia. rewrite !IH by lia. done. Qed.

(** [outcome_count] is the number of outcomes priced. *)
Lemma combinations_length l r : Z.of_nat (length (combinations l r)) = comb (length l + r - 1) r.
Proof.
  revert r. induction l as [|x l IH]; intros r.
  - destruct r as [|r]; [done|]. rewrite comb_over by (cbn; lia). done.
  - induction r as [|r IHr]; [by rewrite combinations_0, comb_0|]. rewrite combinations_cons, length_app, length_fmap, Nat2Z.inj_add, IHr, IH. cbn [length].
    replace (S (length l) + S r - 1)%nat with (S (length l + r)) by lia. replace (S (length l) + r - 1)%nat with (length l + r)%nat by lia.
    replace (length l + S r - 1)%nat with (length l + r)%nat by lia. done.
Qed.

Lemma combinations_sound l r c : c ∈ combinations l r -> length c = r /\ Forall (fun x => x ∈ l) c.
Proof.
  revert r c. induction l as [|x l IH]; intros r c.
  - destruct r as [|r]; cbn; [intros ->%list_elem_of_singleton; by split|by intros ?%not_elem_of_nil].
  - revert c. induction r as [|r IHr]; intros c; [rewrite combinations_0; intros ->%list_elem_of_singleton; by split|].
    rewrite combinations_cons, elem_of_app, list_elem_of_fmap. intros [(d & -> & [Hl Hf]%IHr)|[Hl Hf]%IH].
    + split; [cbn; lia|]. constructor; [by left|done].
    + split; [done|]. eapply Forall_impl; [exact Hf|]. intros y Hy. by right.
Qed.

(** Every joint assignment is priced, in one order. *)
Lemma combinations_complete l t : Forall (fun x => x ∈ l) t -> exists c, c ∈ combinations l (length t) /\ c ≡ₚ t.
Proof.
  remember (length t) as r eqn:Er. revert r t Er. induction l as [|x l IH]; intros r t Er Hf.
  - destruct t as [|y t]; [exists []; subst; split; [by left|done]|]. apply Forall_cons in Hf as [?%not_elem_of_nil _]. done.
  - revert t Er Hf. induction r as [|r IHr]; intros t Er Hf.
    { destruct t; [|done]. exists []. rewrite combinations_0. split; [by left|done]. }
    rewrite combinations_cons. destruct (decide (x ∈ t)) as [Hx|Hx].
    + apply elem_of_Permutation in Hx as [t' Ht]. assert (Forall (fun y => y ∈ x :: l) t') as Hf' by (rewrite Ht in Hf; by apply Forall_cons in Hf as [_ ?]).
      destruct (IHr t') as (c & Hc & Hp); [rewrite Ht in Er; cbn in Er; lia|done|]. exists (x :: c). split; [|by rewrite Ht, Hp].
      apply elem_of_app. left. apply list_elem_of_fmap. eauto.
    + destruct (IH (S r) t Er) as (c & Hc & Hp); [|exists c; split; [apply elem_of_app; by right|done]].
      apply Forall_forall. intros y Hy. pose proof (proj1 (Forall_forall _ _) Hf y Hy) as Hin. apply elem_of_cons in Hin as [->|?]; done.
Qed.

Lemma elem_of_first_of_each x l : x ∈ first_of_each l <-> x ∈ l.
Proof.
  induction l as [|y l IH]; [done|]. cbn. rewrite !elem_of_cons, list_elem_of_filter, IH. destruct (decide (x = y)); [naive_solver|tauto].
Qed.
Lemma NoDup_first_of_each l : NoDup (first_of_each l).
Proof.
  induction l as [|y l IH]; cbn; [constructor|]. constructor; [|by apply NoDup_filter]. intros [H _]%list_elem_of_filter. done.
Qed.

Lemma fold_min_le x l y : y ∈ x :: l -> foldr Z.min x l <= y.
Proof. induction l as [|z l IH]; cbn; [intros ->%list_elem_of_singleton; lia|]. rewrite !elem_of_cons in *. intros [->|[->|Hy]]; [specialize (IH ltac:(by left))| |specialize (IH ltac:(by right))]; lia. Qed.
Lemma fold_min_in x l : foldr Z.min x l ∈ x :: l.
Proof.
  induction l as [|z l IH]; cbn; [by left|]. destruct (Z.min_spec z (foldr Z.min x l)) as [[_ ->]|[_ ->]]; [by right; left|].
  apply elem_of_cons in IH as [->|IH]; [by left|by right; right].
Qed.

(** C37: a reward nobody trusts never helps.  The utility of a group with uncertain rollouts is
    at most that of each outcome they could have, every joint assignment of attainable rewards
    being priced in one of its orders, and is reached by one of them; where there are more
    than [ROBUST_UTILITY_MAX_OUTCOMES], of which none is priced, it is zero. *)
Theorem uncertain_rewards_never_help (fpow : float -> float -> float) (rewards : list float) (sigma_min delta u : float) (uncertain attainable : list Z) :
  uncertain <> [] -> robust_uncertain_reward_utility fpow rewards sigma_min uncertain attainable delta = Ok u ->
  let indices := first_of_each uncertain in
  let outcome c := gated_difficulty_utility fpow (assign rewards (zip indices c)) sigma_min delta in
  let count := comb (length (first_of_each attainable) + length indices - 1) (length indices) in
  count = Z.of_nat (length (combinations (first_of_each attainable) (length indices))) /\
  (ROBUST_UTILITY_MAX_OUTCOMES < count -> u = 0) /\
  (count <= ROBUST_UTILITY_MAX_OUTCOMES ->
     (forall t, length t = length indices -> Forall (fun x => x ∈ attainable) t -> exists c v, c ≡ₚ t /\ outcome c = Ok v /\ u <= v) /\
     exists c, length c = length indices /\ Forall (fun x => x ∈ attainable) c /\ outcome c = Ok u).
Proof.
  intros Hu H indices outcome count. unfold robust_uncertain_reward_utility in H. fold indices in H.
  rewrite bool_decide_eq_false_2 in H by (unfold indices; by destruct uncertain). destruct (existsb _ indices); [done|]. destruct (_ || _); [done|].
  apply bind_ok_inv in H as (s & _ & H). fold count in H. split; [by rewrite combinations_length|]. destruct (Z.ltb_spec ROBUST_UTILITY_MAX_OUTCOMES count).
  { injection H as <-. split; [done|lia]. }
  split; [lia|]. intros _. apply bind_ok_inv in H as (us & Hm & H). destruct us as [|x us]; [done|]. injection H as <-.
  pose proof (mapM_total _ _ _ Hm) as H1. pose proof (fun b => proj1 (mapM_elem _ _ _ Hm b)) as H2. split.
  - intros t Ht Hf. destruct (combinations_complete (first_of_each attainable) t) as (c & Hc & Hp).
    { eapply Forall_impl; [exact Hf|]. intros y. by rewrite elem_of_first_of_each. }
    rewrite Ht in Hc. destruct (H1 c Hc) as (v & Hv & Hin). exists c, v. split_and!; [done|done|by apply fold_min_le].
  - destruct (H2 _ (fold_min_in x us)) as (c & Hc & Hv). destruct (combinations_sound _ _ _ Hc) as [Hl Hf]. exists c. split_and!; [done| |done].
    eapply Forall_impl; [exact Hf|]. intros y. by rewrite elem_of_first_of_each.
Qed.

(** ** Truncated rollouts *)

Lemma least_score_spec fpow delta cs : forall best r, least_score fpow delta cs best = Ok r ->
  (forall c, c ∈ cs -> exists s b, difficulty_score fpow c delta = Ok s /\ r = Some b /\ value b <= value s) /\
  (forall b0, best = Some b0 -> exists b, r = Some b /\ value b <= value b0) /\
  (r = best \/ exists c b, c ∈ cs /\ difficulty_score fpow c delta = Ok b /\ r = Some b).
Proof.
  induction cs as [|c cs IH]; intros best r; cbn; [intros [= <-]; split_and!; [by intros c ?%not_elem_of_nil|by intros b ->; exists b|by left]|].
  intros (s & Hs & H)%bind_ok_inv. destruct (IH _ _ H) as (H1 & H2 & H3). set (best' := match best with Some _ => _ | None => _ end) in *.
  assert (exists b', best' = Some b' /\ value b' <= value s /\ (forall b0, best = Some b0 -> value b' <= value b0) /\ (best' = best \/ b' = s)) as (b' & Eb & Hb1 & Hb2 & Hb3).
  { unfold best'. destruct best as [b|]; [destruct (Z.ltb_spec (value s) (value b))|]; eexists; (split_and!; [done|lia| |]).
    all: try (intros b0 [= <-]; lia). all: try done. all: by auto. }
  destruct (H2 b' Eb) as (b & -> & Hb). split_and!.
  - intros c' [->|Hc]%elem_of_cons; [exists s, b; split_and!; [done|done|lia]|by apply H1].
  - intros b0 ->. exists b. split; [done|]. specialize (Hb2 b0 eq_refl). lia.
  - destruct H3 as [E|(c' & x & Hc & Hx & E)]; [|right; exists c', x; split_and!; [by right|done|done]].
    destruct Hb3 as [E'|E']; [left; congruence|]. right. exists c, b. split_and!; [by left|congruence|done].
Qed.

Lemma raised_nil values : raised values [] = values.
Proof. done. Qed.

(** A truncated rollout is valued at its least.  The score of a group with truncated
    rollouts is that of one of the interpretations, none of which scores lower: any number of
    its first zeros, as many as were truncated, taken for correct answers; so it is at most the
    score of the rewards as graded. *)
Theorem conservative_is_least (fpow : float -> float -> float) (rewards : list float) (truncated_count : Z) (delta : float) (s : difficulty) :
  conservative_difficulty_score fpow rewards truncated_count delta = Ok s ->
  let zeros := if (truncated_count <=? 0) || bool_decide (rewards = []) then [] else zero_positions rewards truncated_count in
  (forall j, exists s', difficulty_score fpow (raised rewards (take j zeros)) delta = Ok s' /\ value s <= value s') /\
  (exists j, difficulty_score fpow (raised rewards (take j zeros)) delta = Ok s) /\
  exists s', difficulty_score fpow rewards delta = Ok s' /\ value s <= value s'.
Proof.
  intros H zeros. unfold conservative_difficulty_score in H. cbv zeta in H.
  assert ((Z.max 0 truncated_count =? 0) = (truncated_count <=? 0)) as Ez by lia. rewrite Ez in H.
  destruct ((truncated_count <=? 0) || bool_decide (rewards = [])) eqn:E.
  { unfold zeros. assert (forall j, take j (@nil nat) = []) as Hn by (intros j; apply take_nil). split_and!.
    - intros j. rewrite Hn. exists s. split; [done|lia].
    - exists 0%nat. done.
    - exists s. split; [done|lia]. }
  apply orb_false_iff in E as [E _]. rewrite Z.max_r in H by lia. fold zeros in H. apply bind_ok_inv in H as (best & Hb & H).
  destruct (least_score_spec _ _ _ _ _ Hb) as (H1 & _ & H3).
  assert (forall j, exists s' b, difficulty_score fpow (raised rewards (take j zeros)) delta = Ok s' /\ best = Some b /\ value b <= value s') as Hall.
  { intros j. destruct (H1 (raised rewards (take j zeros))) as (s' & b & ? & ? & ?); [|by exists s', b].
    apply list_elem_of_fmap. exists (Nat.min j (length zeros)). split; [|apply elem_of_seq; lia]. f_equal.
    destruct (decide (j <= length zeros)%nat) as [Hj|Hj]; [by rewrite Nat.min_l|]. rewrite Nat.min_r by lia. by rewrite !take_ge by lia. }
  assert (best = Some s) as ->.
  { destruct (Hall 0%nat) as (s' & b & _ & -> & _). by injection H as ->. }
  split_and!.
  - intros j. destruct (Hall j) as (s' & b & Hs & [= <-] & Hle). eauto.
  - destruct H3 as [?|(c & b & (j & -> & _)%list_elem_of_fmap & Hs & [= <-])]; [done|]. by exists j.
  - destruct (Hall 0%nat) as (s' & b & Hs & [= <-] & Hle). exists s'. split; [exact Hs|done].
Qed.

(** ** The shadow auction *)

#[export] Instance submission_eq_dec : EqDecision submission.
Proof. solve_decision. Defined.

Lemma rank_leb_total x y : rank_leb x y = true \/ rank_leb y x = true.
Proof.
  unfold rank_leb, bytes_leb. repeat (match goal with |- context [?a <? ?b] => destruct (Z.ltb_spec a b); try lia; auto end).
  destruct (bytes_ltb (slot_key y.1) (slot_key x.1)) eqn:E; [|by left]. right.
  destruct (bytes_ltb (slot_key x.1) (slot_key y.1)) eqn:E'; [|done]. pose proof (bytes_ltb_trans _ _ _ E E') as Ht. by rewrite bytes_ltb_irrefl in Ht.
Qed.

Lemma bytes_leb_trans a b c : bytes_leb a b = true -> bytes_leb b c = true -> bytes_leb a c = true.
Proof.
  unfold bytes_leb. rewrite !negb_true_iff. intros H1 H2. destruct (bytes_ltb c a) eqn:E; [|done]. destruct (bytes_ltb a b) eqn:E2.
  - by rewrite (bytes_ltb_trans _ _ _ E E2) in H2.
  - by rewrite <- (bytes_total _ _ E2 H1), E in H2.
Qed.

Lemma rank_leb_trans x y z : rank_leb x y = true -> rank_leb y z = true -> rank_leb x z = true.
Proof.
  unfold rank_leb. repeat (match goal with |- context [?a <? ?b] => destruct (Z.ltb_spec a b); try lia; try done end).
  apply bytes_leb_trans.
Qed.

Section picks.
Context (operator_of : option (string -> option string)) (b : Z) (cap : option Z).
Local Notation pick := (pick operator_of b cap).

Lemma picks_app sel l : exists k, foldl pick sel l = sel ++ k /\ k `sublist_of` l.
Proof.
  revert sel. induction l as [|s l IH]; intros sel; cbn; [exists []; by rewrite app_nil_r|].
  unfold DifficultyAuction.pick at 2. destruct (blocked _ _ _ _ _).
  - destruct (IH sel) as (k & -> & ?). exists k. split; [done|by apply sublist_cons].
  - destruct (IH (sel ++ [s])) as (k & -> & ?). exists (s :: k). rewrite <- (assoc_L (++)). split; [done|by apply sublist_skip].
Qed.

Lemma picks_at pre x post : exists before after,
  before `sublist_of` pre /\ after `sublist_of` post /\
  foldl pick [] (pre ++ x :: post) = before ++ (if blocked operator_of b cap before x then [] else [x]) ++ after.
Proof.
  rewrite foldl_app. cbn [foldl]. destruct (picks_app [] pre) as (k & -> & Hk). cbn [app]. destruct (picks_app (pick k x) post) as (k' & -> & Hk').
  exists k, k'. split_and!; [done|done|]. unfold DifficultyAuction.pick. destruct (blocked _ _ _ _ _); [done|by rewrite <- (assoc_L (++))].
Qed.

Lemma slots_of_app sel x o : slots_of operator_of (sel ++ [x]) o = slots_of operator_of sel o + Z.b2z (bool_decide (operator operator_of x = Some o)).
Proof.
  unfold slots_of. rewrite filter_app, length_app. case_bool_decide as Ho; [rewrite filter_cons_True by done|rewrite filter_cons_False by done]; rewrite filter_nil; cbn [length Z.b2z]; lia.
Qed.

(** What every selection keeps. *)
Definition fair (sel : list submission) : Prop :=
  Z.of_nat (length sel) <= Z.max 0 b /\ NoDup (prompt_idx <$> sel) /\ forall n o, cap = Some n -> slots_of operator_of sel o <= Z.max 0 n.

Lemma pick_fair sel x : fair sel -> fair (pick sel x).
Proof.
  intros (Hb & Hp & Hc). unfold DifficultyAuction.pick. destruct (blocked _ _ _ _ _) eqn:E; [done|]. unfold blocked in E.
  apply orb_false_iff in E as [E E3]. apply orb_false_iff in E as [E1 E2%bool_decide_eq_false]. split_and!.
  - rewrite length_app. cbn. lia.
  - rewrite fmap_app. apply NoDup_app. split_and!; [done| |apply NoDup_singleton]. intros q Hq ->%list_elem_of_singleton. done.
  - intros n o ->. specialize (Hc n o eq_refl). rewrite slots_of_app. case_bool_decide as Ho; cbn [Z.b2z]; [|lia]. rewrite Ho in E3. apply Z.leb_gt in E3. lia.
Qed.

Lemma picks_fair l : forall sel, fair sel -> fair (foldl pick sel l).
Proof. induction l as [|x l IH]; intros sel H; [done|]. by apply IH, pick_fair. Qed.

Lemma fair_nil : fair [].
Proof. split_and!; [cbn; lia|constructor|]. intros n o _. unfold slots_of. rewrite filter_nil. cbn [length]. lia. Qed.
End picks.

Lemma rank_of_spec ranked s : NoDup (source_id <$> ranked.*1) -> forall k, rank_of ranked s = Some k -> 1 <= k /\ exists x, ranked !! Z.to_nat (k - 1) = Some x /\ source_id x.1 = source_id s.
Proof.
  intros Hn k. unfold rank_of. destruct (list_find _ _) as [[i x]|] eqn:E; cbn; [|done]. intros [= <-]. apply list_find_Some in E as (Hi & Hx & _).
  split; [lia|]. exists x. by replace (Z.to_nat (Z.of_nat i + 1 - 1)) with i by lia.
Qed.

Lemma rank_of_some ranked s : is_Some (rank_of ranked s) <-> source_id s ∈ source_id <$> ranked.*1.
Proof.
  unfold rank_of. rewrite fmap_is_Some. split.
  - intros [[i x] (Hi & Hx & _)%list_find_Some]. rewrite <- Hx, <- list_fmap_compose. apply (list_elem_of_fmap_2 (fun x : scored => source_id x.1)). by eapply list_elem_of_lookup_2.
  - rewrite <- list_fmap_compose. intros (x & Hx & Hin)%list_elem_of_fmap. eapply list_find_elem_of; [exact Hin|]. by cbn in *.
Qed.

(** The cap in force. *)
Definition cap_of (r : auction) : option Z := if operator_cap_applied r then operator_cap_requested r else None.

Lemma shadow_auction_inv fpow operator_of subs b delta cap r : select_shadow_auction fpow operator_of subs b delta cap = Ok r ->
  0 <= b /\ (forall n, cap = Some n -> 0 < n) /\ NoDup (source_id <$> subs) /\
  exists scored, scored.*1 = subs /\ Forall (fun x => difficulty_score fpow (rewards x.1) delta = Ok x.2) scored /\
    let ranked := isort rank_leb (eligible_of scored) in
    operator_mapping_complete r = negb (bool_decide (ranked = [])) && forallb (fun x => match operator operator_of x.1 with Some _ => true | None => false end) ranked /\
    operator_cap_requested r = cap /\ operator_cap_applied r = bool_decide (is_Some cap) && operator_mapping_complete r /\
    chosen r = foldl (pick operator_of b (cap_of r)) [] ranked.*1 /\
    candidates r = (fun x => ShadowCandidate x.1 x.2 (rank_of ranked x.1) (bool_decide (is_Some (rank_of ranked x.1)))
                     (bool_decide (source_id x.1 ∈ source_id <$> chosen r)) (match rank_of ranked x.1 with Some _ => operator operator_of x.1 | None => None end)) <$> scored.
Proof.
  unfold select_shadow_auction. destruct (Z.ltb_spec b 0); [done|]. destruct (match cap with Some n => n <=? 0 | None => false end) eqn:Ec; [done|].
  case_bool_decide as Hn; [|done]. cbn [negb]. intros (scored & Hm & Hr)%bind_ok_inv. apply mapM_pairs in Hm as [Hs Hf].
  destruct (existsb _ _); [done|]. injection Hr as <-. split_and!; [done| |done|].
  - intros n ->. lia.
  - exists scored. cbn. split_and!; done.
Qed.

Lemma rank_of_eligible (scored : list scored) x : NoDup (source_id <$> scored.*1) -> x ∈ scored ->
  bool_decide (is_Some (rank_of (isort rank_leb (eligible_of scored)) x.1)) = (0 <? value x.2) && negb (in_cooldown x.1).
Proof.
  intros Hn Hx. apply eq_true_iff_eq. rewrite bool_decide_eq_true, rank_of_some, <- list_fmap_compose. rewrite <- list_fmap_compose in Hn. split.
  - intros (y & Hy & Hin)%list_elem_of_fmap. apply elem_of_isort, list_elem_of_filter in Hin as [Hel Hin]. by rewrite (NoDup_fmap_elem _ _ x y Hn Hx Hin Hy).
  - intros Hel. apply (list_elem_of_fmap_2 (source_id ∘ fst)). by apply elem_of_isort, list_elem_of_filter.
Qed.

Lemma elem_of_isort_eligible x l : x ∈ isort rank_leb (eligible_of l) -> (0 <? value x.2) && negb (in_cooldown x.1) = true /\ x ∈ l.
Proof. by intros [? ?]%elem_of_isort%list_elem_of_filter. Qed.

Lemma filter_fmap_list {A B} (g : A -> B) (P : B -> Prop) `{!forall y, Decision (P y)} (Q : A -> Prop) `{!forall x, Decision (Q x)} (l : list A) :
  (forall x, x ∈ l -> (P (g x) <-> Q x)) -> filter P (g <$> l) = g <$> filter Q l.
Proof.
  induction l as [|x l IH]; intros Hpq; [done|]. cbn [fmap list_fmap]. assert (P (g x) <-> Q x) as Hx by (apply Hpq; by left).
  rewrite !filter_cons. destruct (decide (P (g x))), (decide (Q x)); try tauto; cbn [fmap list_fmap]; rewrite IH; try done; intros y Hy; apply Hpq; by right.
Qed.

(** C38: what the shadow auction selects.  The eligible candidates, of positive value and out of
    cooldown, are ranked by value, then arrival, then slot key, and each, in turn, is selected
    exactly when those selected before it leave a slot, are on other prompts and, where the cap
    is applied, leave its operator a slot; so no more than [b] are selected, on distinct
    prompts, and an applied cap is kept.  It is applied when one is requested and every
    eligible candidate has an operator, never to some of them only; and a candidate is marked
    eligible and selected exactly when it is. *)
Theorem shadow_auction_exact (fpow : float -> float -> float) (operator_of : option (string -> option string)) (subs : list submission) (b : Z) (delta : float)
    (cap : option Z) (r : auction) : select_shadow_auction fpow operator_of subs b delta cap = Ok r ->
  c_submission <$> candidates r = subs /\
  Forall (fun c => difficulty_score fpow (rewards (c_submission c)) delta = Ok (c_score c) /\
                   eligible c = (0 <? value (c_score c)) && negb (in_cooldown (c_submission c)) /\
                   (selected c = true <-> c_submission c ∈ chosen r)) (candidates r) /\
  exists ranked,
    ranked ≡ₚ (fun c => (c_submission c, c_score c)) <$> filter (fun c => eligible c = true) (candidates r) /\
    StronglySorted (fun x y => rank_leb x y = true) ranked /\
    (forall pre x post, ranked = pre ++ x :: post -> exists before after,
       before `sublist_of` pre.*1 /\ after `sublist_of` post.*1 /\
       chosen r = before ++ (if blocked operator_of b (cap_of r) before x.1 then [] else [x.1]) ++ after) /\
    Z.of_nat (length (chosen r)) <= b /\ NoDup (prompt_idx <$> chosen r) /\
    (operator_cap_applied r = true <-> is_Some cap /\ ranked <> [] /\ Forall (fun x => is_Some (operator operator_of x.1)) ranked) /\
    (operator_cap_applied r = true -> forall n o, cap = Some n -> slots_of operator_of (chosen r) o <= n).
Proof.
  intros (Hb & Hcap & Hn & scored & <- & Hf & Hcm & Hreq & Happ & Hch & Hcd)%shadow_auction_inv. set (ranked := isort rank_leb (eligible_of scored)) in *.
  set (cd := fun x => _) in Hcd. rewrite Hcd.
  assert (forall x, x ∈ scored -> eligible (cd x) = (0 <? value x.2) && negb (in_cooldown x.1)) as Hel by (intros x Hx; by apply rank_of_eligible).
  assert (foldl (pick operator_of b (cap_of r)) [] ranked.*1 `sublist_of` ranked.*1) as Hsub by (destruct (picks_app operator_of b (cap_of r) [] ranked.*1) as (k & -> & Hk); exact Hk).
  rewrite <- Hch in Hsub. destruct (picks_fair operator_of b (cap_of r) ranked.*1 [] (fair_nil _ _ _)) as (Fb & Fp & Fc). rewrite <- Hch in Fb, Fp, Fc.
  split_and!.
  - rewrite <- list_fmap_compose. by apply list_fmap_ext.
  - apply Forall_fmap, Forall_forall. intros x Hx. split_and!; [exact (proj1 (Forall_forall _ _) Hf x Hx)|by apply Hel|]. cbn. rewrite bool_decide_eq_true. split; [|apply list_elem_of_fmap_2].
    intros (s & Hs & Hin)%list_elem_of_fmap. assert (s ∈ scored.*1) as Hin2.
    { apply (sublist_subseteq _ _ Hsub), list_elem_of_fmap in Hin as (y & -> & [_ Hy]%elem_of_isort_eligible). by apply list_elem_of_fmap_2. }
    by rewrite (NoDup_fmap_elem _ _ x.1 s Hn (list_elem_of_fmap_2 fst _ _ Hx) Hin2 Hs).
  - exists ranked. split_and!; [|apply isort_sorted; [apply rank_leb_total|apply rank_leb_trans]| |lia|done| |].
    + unfold ranked. rewrite isort_perm, (filter_fmap_list cd _ (fun x => (0 <? value x.2) && negb (in_cooldown x.1) = true)); [|by intros x Hx; rewrite Hel].
      rewrite <- list_fmap_compose. fold (eligible_of scored). apply Permutation_refl'. rewrite <- (list_fmap_id (eligible_of scored)) at 1. apply list_fmap_ext. by intros i [].
    + intros pre x post E. rewrite Hch, E, fmap_app. apply picks_at.
    + rewrite Happ, Hcm, !andb_true_iff, bool_decide_eq_true, negb_true_iff, bool_decide_eq_false, forallb_forall, Forall_forall. fold ranked.
      setoid_rewrite list_elem_of_In. split; intros (H1 & H2 & H3); split_and!; try done; intros x Hx; specialize (H3 x Hx); by destruct (operator operator_of x.1).
    + intros Ha n o ->. specialize (Fc n o). specialize (Hcap n eq_refl). unfold cap_of in Fc. rewrite Ha, Hreq in Fc. specialize (Fc eq_refl). lia.
Qed.

(** ** Runs *)

Module Runs.
(** Powers of the floats below: squares, their roots, and the first power. *)
Definition pow_at (x y : float) : float :=
  if y =? 2 ^ 1075 then fmul x x
  else if y =? 2 ^ 1073 then (if x =? 2 ^ 1072 then 2 ^ 1073 else if x =? 2 ^ 1070 then 2 ^ 1072 else 0)
  else x.

Definition half : float := 2 ^ 1073.
Definition sub_of (id : Z) (hk : string) (q round : Z) (rs : list float) (cooling : bool) : submission :=
  ShadowSubmission id hk q round [] [] rs cooling None.

(** A submission, one cooling down on its prompt, and one without rewards. *)
Definition subs : list submission := [sub_of 1 "a" 7 100 [fone; 0] false; sub_of 4 "c" 7 80 [0; 0] true; sub_of 5 "c" 10 80 [] false].
Definition op (hk : string) : option string := Some (if String.eqb hk "a" then " alpha " else "beta").

Definition auction_run : result auction := select_shadow_auction pow_at (Some op) subs 2 fone (Some 1).
Definition uncertain_run : result float := robust_uncertain_reward_utility pow_at [0; 0] half [1] [0] fone.
Definition truncated_run : result difficulty := conservative_difficulty_score pow_at [half; 0] 1 fone.

Lemma uncertain_few : comb (length (first_of_each [0]) + length (first_of_each [1]) - 1) (length (first_of_each [1])) <=? ROBUST_UTILITY_MAX_OUTCOMES = true.
Proof. vm_compute. reflexivity. Qed.

Lemma auction_run_ok :
  match auction_run with Ok r => (source_id <$> chosen r, selected <$> candidates r, rank <$> candidates r, operator_cap_applied r)
    | Raise _ => ([], [], [], false) end
  = ([1], [true; false; false], [Some 1; None; None], true).
Proof. vm_compute. reflexivity. Qed.
Lemma uncertain_run_ok : uncertain_run = Ok 0.
Proof. vm_compute. reflexivity. Qed.
Lemma truncated_run_ok : value <$> truncated_run = Ok (2 ^ 1070).
Proof. vm_compute. reflexivity. Qed.
End Runs.

Lemma uncertain_rewards_never_help_witness : exists c,
  length c = length (first_of_each [1]) /\ Forall (fun x => x ∈ [0]) c /\
  gated_difficulty_utility Runs.pow_at (assign [0; 0] (zip (first_of_each [1]) c)) Runs.half fone = Ok 0.
Proof.
  destruct (uncertain_rewards_never_help Runs.pow_at [0; 0] Runs.half fone 0 [1] [0] ltac:(done) Runs.uncertain_run_ok) as (Hc & _ & H).
  destruct H as [_ (c & Hl & Hf & Ho)]; [exact (proj1 (Z.leb_le _ _) Runs.uncertain_few)|]. exists c. split_and!; [exact Hl|exact Hf|exact Ho].
Defined.

Lemma conservative_is_least_witness : exists s s',
  conservative_difficulty_score Runs.pow_at [Runs.half; 0] 1 fone = Ok s /\
  difficulty_score Runs.pow_at [Runs.half; 0] fone = Ok s' /\ value s <= value s'.
Proof.
  pose proof Runs.truncated_run_ok as H. unfold Runs.truncated_run in H. destruct (conservative_difficulty_score _ _ _ _) as [s|] eqn:E; [|discriminate].
  destruct (conservative_is_least _ _ _ _ _ E) as (_ & _ & s' & Hs & Hle). exists s, s'. split; [exact eq_refl|]. split; [exact Hs|exact Hle].
Defined.

Lemma shadow_auction_exact_witness : exists r, Runs.auction_run = Ok r /\ source_id <$> chosen r = [1] /\
  NoDup (prompt_idx <$> chosen r) /\ slots_of (Some Runs.op) (chosen r) "alpha" <= 1.
Proof.
  pose proof Runs.auction_run_ok as H. unfold Runs.auction_run in *. destruct (select_shadow_auction _ _ _ _ _ _) as [r|] eqn:E; [|discriminate].
  injection H as Hch _ _ Ha. destruct (shadow_auction_exact _ _ _ _ _ _ _ E) as (_ & _ & ranked & _ & _ & _ & _ & Hp & _ & Hcap).
  exists r. split; [exact eq_refl|]. split; [exact Hch|]. split; [exact Hp|]. exact (Hcap Ha 1 "alpha"%string eq_refl).
Defined.

(** The least over the interpretations is not the honest score where rewards are fractional: a
    group whose two rollouts earned one half is worth nothing, and is worth a sixteenth once
    one of them is truncated, each interpretation taking it for zero or one. *)
Example truncation_gains_on_fractions :
  value <$> difficulty_score Runs.pow_at [Runs.half; Runs.half] fone = Ok 0 /\
  value <$> conservative_difficulty_score Runs.pow_at [Runs.half; 0] 1 fone = Ok (2 ^ 1070) /\ 0 < 2 ^ 1070.
Proof. split; [|split; [exact Runs.truncated_run_ok|lia]]. vm_compute. reflexivity. Qed.
