(* ===== verification/TaskRegistry.v ===== *)
(** * TaskRegistry: what tasks may exist and what they may cost

    Models [shared/task_registry.py] and [normalise_task_id] of [shared/task_id.py]: the checks
    of an entry and of the registry, the changes an operator makes, and the JSON object it is
    written as and read from.

    The registry is an association list in the order of the dict.  [RegistryError] is the
    [ValueError] it derives from.  A JSON object is a [VDict]; floats are finite, so a literal
    NaN or Infinity, which [_number] refuses, is outside the model.  The service contract of
    [protocol/service_contract.py], the digest of [protocol/release_contract.py] and [repr] of a
    value are parameters; so are the calls of the registry's document to and from bytes, of
    which only the order of the keys is kept ([sort_keys]). *)

From S2P Require Import Prelude PyFloat Cooldown SignerJournal Periods TokenAuction.

#[local] Open Scope Z_scope.

(** ** The data *)

Definition REGISTRY_VERSION : Z := 1.
Definition DEFAULT_TASK_ID : string := "default".
Definition MECHANISM_RL_DISCOVERED_PRICE : string := "rl-discovered-price".
Definition MECHANISM_CORPUS_GENERATION : string := "corpus-generation".
Definition MECHANISM_SERVICE_RL : string := "rl-service-policy/v1".
Definition KNOWN_MECHANISMS : list string := [MECHANISM_RL_DISCOVERED_PRICE; MECHANISM_CORPUS_GENERATION; MECHANISM_SERVICE_RL].
Definition KNOWN_VERIFICATION : list string := ["resident"; "streamed"]%string.
Definition PRICE_PARAM_FIELDS : list string :=
  ["start"; "decay"; "rounds_per_step"; "deadband"; "snap"; "floor"; "cap"; "median_rounds"; "last_good_fills"]%string.
Definition TAIL_CAP_PARAM : string := "tail_cap".
Definition MAX_PRICE_PARAMS : list string :=
  ["max_price_per_token"; "max_price_alpha_per_mtoken"; "max_price_miner_alpha_per_period"; "max_price_set_at"]%string.
Definition MAX_PRICE_INPUT_PARAMS : list string := ["max_price_input_per_token"; "max_price_input_alpha_per_mtoken"]%string.
Definition MAX_PRICE_USD_PARAMS : list string :=
  ["max_price_usd_per_mtoken_input"; "max_price_usd_per_mtoken_output"; "max_price_alpha_usd"; "max_price_tao_usd"]%string.
Definition RL_START_POOL_PARAM : string := "rl_start_pool".
Definition AUCTION_PARAMS : list string := ["pricing"; "auction_round_seconds"; "auction_initial_leases"]%string.
Definition SUM_TOLERANCE : float := flit 1 1000000000.

Record task_entry := TaskEntry {
  task_id : string; profile_id : string; profile_sha256 : string; mechanism : string; params : json; status : string;
  retired_at : pyval; env_split : pyval; contract : pyval; verification : option string; job_id : option string;
  service_contract : pyval; admission : pyval }.

Definition registry : Type := list (string * task_entry).

Definition set_params (p : json) (e : task_entry) : task_entry :=
  TaskEntry (task_id e) (profile_id e) (profile_sha256 e) (mechanism e) p (status e) (retired_at e) (env_split e) (contract e) (verification e) (job_id e)
    (service_contract e) (admission e).
Definition set_admission_of (a : pyval) (e : task_entry) : task_entry :=
  TaskEntry (task_id e) (profile_id e) (profile_sha256 e) (mechanism e) (params e) (status e) (retired_at e) (env_split e) (contract e) (verification e) (job_id e)
    (service_contract e) a.
Definition set_retired (at_ : Z) (e : task_entry) : task_entry :=
  TaskEntry (task_id e) (profile_id e) (profile_sha256 e) (mechanism e) (params e) "retired" (VInt at_) (env_split e) (contract e) (verification e) (job_id e)
    (service_contract e) (admission e).

(** [k in d], [d.pop(k, None)], [d.update(e)] *)
Definition has {A} (k : string) (d : list (string * A)) : bool := existsb (fun kv => String.eqb kv.1 k) d.
Definition dict_del (k : string) (d : json) : json := filter (fun kv => kv.1 <> k) d.
Definition dict_update (d e : json) : json := foldl (fun d kv => dict_set kv.1 kv.2 d) d e.

(** [entries[k]] and [{**entries, k: e}] *)
Fixpoint find_task (k : string) (l : registry) : option task_entry :=
  match l with [] => None | (k', e) :: l => if String.eqb k' k then Some e else find_task k l end.
Fixpoint put_task (k : string) (e : task_entry) (l : registry) : registry :=
  match l with [] => [(k, e)] | (k', e') :: l => if String.eqb k' k then (k', e) :: l else (k', e') :: put_task k e l end.

(** ** The checks of an entry *)

(** [TASK_ID_RE] *)
Definition slug_char (c : ascii) : bool :=
  let n := Z.of_nat (nat_of_ascii c) in ((97 <=? n) && (n <=? 122)) || ((48 <=? n) && (n <=? 57)).
Definition is_slug (s : string) : bool :=
  match String.list_ascii_of_string s with
  | [] => false
  | c :: l => slug_char c && forallb (fun c => slug_char c || Ascii.eqb c "-") l && (Z.of_nat (length l) <=? 62)
  end.
Definition normalise_task_id (value : string) : result string :=
  let s := strip value in
  let resolved := if String.eqb s "" then DEFAULT_TASK_ID else s in
  if is_slug resolved then Ok resolved else Raise ValueError.

(** An integer rounding to 2^1024 has no float. *)
Definition too_large (z : Z) : bool := 2 ^ 1024 * fone <=? Z.abs (of_int z).

(** [_number] *)
Definition number (v : pyval) : result float :=
  match v with
  | VInt z => if too_large z then Raise ValueError else Ok (of_int z)
  | VFloat f => Ok f
  | _ => Raise ValueError
  end.

(** [if not ...: raise RegistryError(...)] *)
Definition ensure (b : bool) : result unit := if b then Ok () else Raise ValueError.

Definition is_none (v : pyval) : bool := match v with VNone => true | _ => false end.

Definition in_floor_range (v : pyval) : result unit :=
  if is_none v then Ok () else (x ← number v; ensure ((0 <=? x) && (x <? fone))).

Definition validate_incentive_floor (d : json) : result unit :=
  let share := dict_get "min_incentive_share" d in
  let start := dict_get "min_incentive_ramp_start" d in
  _ ← in_floor_range share;
  _ ← in_floor_range start;
  _ ← ensure (is_none start || negb (is_none share));
  if is_none start then Ok () else (s ← to_float start; x ← to_float share; ensure (negb (x <? s))).

(** [math.isclose(a, b, rel_tol=1e-9)] *)
Definition REL_TOL : float := flit 1 1000000000.
Definition isclose (a b : float) : bool :=
  (a =? b) || (let diff := Z.abs (fsub b a) in (diff <=? Z.abs (fmul REL_TOL b)) || (diff <=? Z.abs (fmul REL_TOL a)) || (diff <=? 0)).

Definition declared_of (fields : list string) (d : json) : list string := filter (fun f => has f d = true) fields.
Definition all_or_none (fields : list string) (d : json) : result unit :=
  ensure (length (declared_of fields d) =? length fields)%nat.
(** The number of a field known to be there. *)
Definition field (d : json) (f : string) : result float := v ← item d f; number v.

(** A corpus task settled by period. *)
Definition settled_by_period (d : json) : bool := is_period_task (VDict d).
Definition corpus_by_period (e : task_entry) : bool := String.eqb (mechanism e) MECHANISM_CORPUS_GENERATION && settled_by_period (params e).

Definition validate_input_price (d : json) (emission : float) : result (option float) :=
  if bool_decide (declared_of MAX_PRICE_INPUT_PARAMS d = []) then Ok None
  else
    _ ← all_or_none MAX_PRICE_INPUT_PARAMS d;
    in_price ← field d "max_price_input_per_token";
    in_alpha ← field d "max_price_input_alpha_per_mtoken";
    _ ← ensure ((0 <? in_price) && (0 <? in_alpha));
    _ ← ensure (isclose in_price (fdiv (fdiv in_alpha MILLION) emission));
    Ok (Some in_alpha).

Definition validate_usd_price (d : json) (alpha : float) (in_alpha : option float) : result unit :=
  if bool_decide (declared_of MAX_PRICE_USD_PARAMS d = []) then Ok ()
  else
    _ ← all_or_none MAX_PRICE_USD_PARAMS d;
    usd_in ← field d "max_price_usd_per_mtoken_input";
    usd_out ← field d "max_price_usd_per_mtoken_output";
    alpha_usd ← field d "max_price_alpha_usd";
    tao_usd ← field d "max_price_tao_usd";
    _ ← ensure ((0 <=? usd_in) && (0 <? usd_out) && (0 <? alpha_usd) && (0 <? tao_usd));
    _ ← ensure (isclose alpha (fdiv usd_out alpha_usd));
    _ ← ensure (negb (0 <? usd_in) || match in_alpha with Some a => isclose a (fdiv usd_in alpha_usd) | None => false end);
    ensure (negb ((usd_in =? 0) && bool_decide (is_Some in_alpha))).

Definition validate_token_price (e : task_entry) : result unit :=
  let d := params e in
  if bool_decide (declared_of MAX_PRICE_PARAMS d = []) then
    ensure (bool_decide (declared_of (MAX_PRICE_INPUT_PARAMS ++ MAX_PRICE_USD_PARAMS) d = []))
  else
    _ ← all_or_none MAX_PRICE_PARAMS d;
    _ ← ensure (corpus_by_period e);
    price ← field d "max_price_per_token";
    alpha ← field d "max_price_alpha_per_mtoken";
    emission ← field d "max_price_miner_alpha_per_period";
    _ ← field d "max_price_set_at";
    _ ← ensure ((0 <? price) && (0 <? alpha) && (0 <? emission));
    _ ← ensure (isclose price (fdiv (fdiv alpha MILLION) emission));
    in_alpha ← validate_input_price d emission;
    validate_usd_price d alpha in_alpha.

Definition validate_pricing (e : task_entry) : result unit :=
  if bool_decide (declared_of AUCTION_PARAMS (params e) = []) then Ok ()
  else
    _ ← ensure (has "pricing" (params e));
    _ ← ensure (corpus_by_period e);
    match auction_params (VDict (params e)) with
    | Ok _ => Ok ()
    | Raise TypeError => Raise ValueError
    | Raise x => Raise x
    end.

Definition validate_rl_start_pool (e : task_entry) (cap : float) : result unit :=
  if negb (has RL_START_POOL_PARAM (params e)) then Ok ()
  else
    _ ← ensure (String.eqb (mechanism e) MECHANISM_RL_DISCOVERED_PRICE && settled_by_period (params e));
    pool ← field (params e) RL_START_POOL_PARAM;
    ensure ((0 <? pool) && (pool <=? cap)).

(** *** [validate_audit_params] of [corpus/audit_policy.py] *)

Inductive audit_kind := AuditCount | AuditShare | AuditHold | AuditPositive.
Definition AUDIT_PARAM_KEYS : list (string * audit_kind) :=
  [("audit_q", AuditShare); ("audit_probation_submissions", AuditCount); ("audit_hold_seconds", AuditHold); ("audit_suspect_seconds", AuditPositive);
   ("audit_ban_after_failures", AuditCount); ("audit_ban_window_seconds", AuditPositive); ("audit_ban_seconds", AuditPositive)]%string.

(** A number as compared by Python: integers are not rounded. *)
Definition exact (v : pyval) : result float :=
  match v with
  | VInt z => if too_large z then Raise OverflowError else Ok (z * fone)
  | VFloat f => Ok f
  | _ => Raise ValueError
  end.

Definition validate_audit_param (d : json) (key : string) (kind : audit_kind) : result unit :=
  if negb (has key d) then Ok ()
  else
    x ← exact (dict_get key d);
    ensure (match kind with
            | AuditCount => (x mod fone =? 0) && (fone <=? x)
            | AuditShare => (0 <? x) && (x <=? fone)
            | AuditHold => 0 <=? x
            | AuditPositive => 0 <? x
            end).

Definition validate_audit_params (d : json) : result unit :=
  _ ← fold_result (fun _ kk => validate_audit_param d kk.1 kk.2) tt AUDIT_PARAM_KEYS;
  q ← exact (dict_get_or "audit_q" d (VInt 1));
  hold ← exact (dict_get_or "audit_hold_seconds" d (VInt 4320));
  ensure (negb ((q <? fone) && (hold =? 0))).

(** ** [validate_entry], [validate_registry] *)

(** What [validate_entry] reads of a service contract. *)
Record service := Service {
  version : Z; service_kind : pyval; generation_contract_sha256 : pyval; service_environments : list string;
  checkpoint_repo : pyval; checkpoint_revision : pyval }.

Section registry.
(** [ServiceContract.from_dict], [canonical_sha256] and [repr]. *)
Context (service_of : pyval -> result service) (canonical_sha256 : pyval -> result string) (repr_of : pyval -> string).

Definition is_zero (v : pyval) : bool := match v with VInt z | VFloat z => z =? 0 | VBool b => negb b | _ => false end.
(** [a == b] where one is a string or nothing. *)
Definition str_eq (a b : pyval) : bool :=
  match a, b with VStr s, VStr t => String.eqb s t | VNone, VNone => true | _, _ => false end.

(** [set(v)] of JSON values of which only the strings are compared. *)
Definition names_of (v : pyval) : result (list string) :=
  l ← py_list v;
  if existsb (fun x => match x with VList _ | VDict _ => true | _ => false end) l then Raise TypeError
  else Ok (omap (fun x => match x with VStr s => Some s | _ => None end) l).

Definition validate_service (e : task_entry) : result unit :=
  if String.eqb (mechanism e) MECHANISM_SERVICE_RL then
    match contract e with
    | VDict c =>
        if is_none (service_contract e) then Raise ValueError
        else
          s ← service_of (service_contract e);
          _ ← ensure (version s =? 2);
          _ ← ensure (is_none (env_split e));
          _ ← ensure (is_zero (dict_get "min_incentive_share" (params e)) && is_zero (dict_get "min_incentive_ramp_start" (params e)));
          _ ← ensure (str_eq (service_kind s) (VStr "adaptive_training") && str_eq (generation_contract_sha256 s) (VStr (profile_sha256 e)));
          declared ← names_of (dict_get_or "environments" c (VDict []));
          _ ← ensure (forallb (fun x => bool_decide (x ∈ declared)) (service_environments s));
          ensure (str_eq (checkpoint_repo s) (dict_get "model_id" c) && str_eq (checkpoint_revision s) (dict_get "model_revision" c))
    | _ => Raise ValueError
    end
  else ensure (is_none (service_contract e)).

(** [x in {"open", "paused"}]: a list or an object has no hash. *)
Definition validate_admission (e : task_entry) : result unit :=
  match admission e with
  | VStr s =>
      _ ← ensure (String.eqb s "open" || String.eqb s "paused");
      ensure (negb (String.eqb s "paused") || String.eqb (mechanism e) MECHANISM_CORPUS_GENERATION)
  | VList _ | VDict _ => Raise TypeError
  | _ => Raise ValueError
  end.

Definition whole (d : json) (f : string) : result unit := v ← item d f; match v with VInt _ => Ok () | _ => Raise ValueError end.

Definition validate_env_split (e : task_entry) : result unit :=
  match env_split e with
  | VNone => Ok ()
  | VDict [] => Raise ValueError
  | VDict shares =>
      total ← fold_result (fun total kv => x ← number kv.2; _ ← ensure ((0 <=? x) && (x <=? fone)); Ok (fadd total x)) 0 shares;
      ensure (Z.abs (fsub total fone) <=? SUM_TOLERANCE)
  | _ => Raise ValueError
  end.

Definition validate_contract (e : task_entry) : result unit :=
  match contract e with
  | VNone => Ok ()
  | VDict _ =>
      match canonical_sha256 (contract e) with
      | Ok digest => ensure (String.eqb digest (profile_sha256 e))
      | Raise TypeError => Raise ValueError
      | Raise x => Raise x
      end
  | _ => Raise ValueError
  end.

Definition validate_job (e : task_entry) (cap floor : float) : result unit :=
  if String.eqb (mechanism e) MECHANISM_CORPUS_GENERATION then
    _ ← ensure (floor =? cap);
    ensure (match job_id e with Some j => negb (String.eqb j "") | None => false end)
  else ensure (bool_decide (job_id e = None)).

Definition validate_entry (e : task_entry) : result unit :=
  canonical ← normalise_task_id (task_id e);
  _ ← ensure (String.eqb canonical (task_id e));
  _ ← ensure (bool_decide (mechanism e ∈ KNOWN_MECHANISMS));
  _ ← validate_service e;
  _ ← ensure (match verification e with Some v => bool_decide (v ∈ KNOWN_VERIFICATION) | None => true end);
  _ ← ensure (String.eqb (status e) "active" || String.eqb (status e) "retired");
  _ ← validate_admission e;
  _ ← ensure (forallb (fun f => has f (params e)) PRICE_PARAM_FIELDS);
  _ ← fold_result (fun _ f => _ ← field (params e) f; Ok ()) tt PRICE_PARAM_FIELDS;
  _ ← fold_result (fun _ f => whole (params e) f) tt ["rounds_per_step"; "median_rounds"; "last_good_fills"]%string;
  _ ← ensure (match retired_at e with VNone | VInt _ => true | _ => false end);
  _ ← validate_incentive_floor (params e);
  _ ← validate_audit_params (params e);
  cap ← field (params e) "cap";
  _ ← ensure ((0 <=? cap) && (cap <=? fone));
  _ ← (if has TAIL_CAP_PARAM (params e) then tail ← field (params e) TAIL_CAP_PARAM; ensure ((0 <=? tail) && (tail <=? fone)) else Ok ());
  _ ← validate_token_price e;
  _ ← validate_pricing e;
  _ ← validate_rl_start_pool e cap;
  floor ← field (params e) "floor";
  _ ← ensure (floor <=? cap);
  _ ← validate_job e cap floor;
  _ ← validate_env_split e;
  validate_contract e.

(** [params.get("cap")] *)
Definition cap_of (e : task_entry) : result float := number (dict_get "cap" (params e)).
Definition total_cap (l : registry) : result float := caps ← mapM (fun ke => cap_of ke.2) l; Ok (py_sum caps).

Definition entry_leb {A} (a b : string * A) : bool := String.leb a.1 b.1.

(** The job an entry is paid for. *)
Definition active_job (e : task_entry) : option string :=
  match job_id e with Some j => if String.eqb j "" || negb (String.eqb (status e) "active") then None else Some j | None => None end.

Definition claim (claimed : list string) (ke : string * task_entry) : result (list string) :=
  match active_job ke.2 with
  | None => Ok claimed
  | Some j => if bool_decide (j ∈ claimed) then Raise ValueError else Ok (j :: claimed)
  end.

Definition validate_registry (l : registry) : result unit :=
  _ ← fold_result (fun _ ke => validate_entry ke.2) tt l;
  total ← total_cap l;
  _ ← ensure (total <=? fadd fone SUM_TOLERANCE);
  _ ← fold_result claim [] (isort entry_leb l);
  Ok ().

(** ** Changes *)

Definition add_task (l : registry) (e : task_entry) : result registry :=
  _ ← validate_entry e;
  _ ← ensure (bool_decide (find_task (task_id e) l = None));
  let merged := put_task (task_id e) e l in
  _ ← validate_registry merged;
  Ok merged.

Definition require_default_declared_first (l : registry) (e : task_entry) : result unit :=
  ensure (bool_decide (is_Some (find_task DEFAULT_TASK_ID l)) || String.eqb (task_id e) DEFAULT_TASK_ID).

Definition require_fleet_knows_corpus_generation (e : task_entry) (acknowledged : bool) : result unit :=
  ensure (negb (String.eqb (mechanism e) MECHANISM_CORPUS_GENERATION) || acknowledged).

(** [entries[task_id]], refused when it is not there. *)
Definition the_task (k : string) (l : registry) : result task_entry :=
  match find_task k l with Some e => Ok e | None => Raise ValueError end.

Definition retire_task (l : registry) (k : string) (at_ : pyval) : result registry :=
  e ← the_task k l;
  match to_int at_ with
  | Ok stamp => Ok (put_task k (set_retired stamp e) l)
  | Raise _ => Raise ValueError
  end.

(** [_number(params.get(TAIL_CAP_PARAM, 0.0))] *)
Definition tail_of (d : json) : result float := number (dict_get_or TAIL_CAP_PARAM d (VFloat 0)).

Definition release_cap (l : registry) (k : string) : result registry :=
  e ← the_task k l;
  _ ← ensure (String.eqb (status e) "retired");
  _ ← ensure (corpus_by_period e);
  old_cap ← cap_of e;
  if old_cap =? 0 then Ok l
  else
    tail ← tail_of (params e);
    let d := dict_set "floor" (VFloat 0) (dict_set "cap" (VFloat 0) (params e)) in
    Ok (put_task k (set_params (dict_set TAIL_CAP_PARAM (VFloat (Z.max old_cap tail)) d) e) l).

(** The arguments of [set_cap].  [token_price] and [pricing] are [None] when they are omitted
    ([KEEP]) and [Some None] to remove. *)
Record cap_args := CapArgs {
  a_cap : option float; a_floor : option float; a_min_incentive_share : option float; a_audit_q : option float;
  a_audit_probation_submissions : option Z; a_audit_hold_seconds : option float; a_audit_suspect_seconds : option float;
  a_audit_ban_after_failures : option Z; a_audit_ban_window_seconds : option float; a_audit_ban_seconds : option float;
  a_token_price : option (option json); a_pricing : option (option json) }.

Definition set_opt {A} (k : string) (f : A -> pyval) (v : option A) (d : json) : json := match v with Some x => dict_set k (f x) d | None => d end.

(** The tail a lowered cap leaves, and the starting budget it bounds. *)
Definition keep_tail (e : task_entry) (cap old_cap : float) (d : json) : result json :=
  if corpus_by_period e && (cap <? old_cap) then tail ← tail_of (params e); Ok (dict_set TAIL_CAP_PARAM (VFloat (Z.max old_cap tail)) d) else Ok d.
Definition bound_start_pool (cap : float) (d : json) : result json :=
  if has RL_START_POOL_PARAM d then
    pool ← field d RL_START_POOL_PARAM;
    Ok (if cap <? pool then (if 0 <? cap then dict_set RL_START_POOL_PARAM (VFloat cap) d else dict_del RL_START_POOL_PARAM d) else d)
  else Ok d.
Definition set_floor (e : task_entry) (a : cap_args) (cap : float) (d : json) : json :=
  match a_floor a with
  | Some f => dict_set "floor" (VFloat f) d
  | None => if String.eqb (mechanism e) MECHANISM_CORPUS_GENERATION then dict_set "floor" (VFloat cap) d else d
  end.
Definition set_share (a : cap_args) (d : json) : result json :=
  match a_min_incentive_share a with
  | None => Ok d
  | Some s =>
      let d := dict_set "min_incentive_share" (VFloat s) d in
      start ← to_float (dict_get_or "min_incentive_ramp_start" d (VFloat 0));
      Ok (if s <? start then dict_set "min_incentive_ramp_start" (VFloat s) d else d)
  end.
Definition set_audit (a : cap_args) (d : json) : json :=
  set_opt "audit_ban_seconds" VFloat (a_audit_ban_seconds a) (set_opt "audit_ban_window_seconds" VFloat (a_audit_ban_window_seconds a)
    (set_opt "audit_ban_after_failures" VInt (a_audit_ban_after_failures a) (set_opt "audit_suspect_seconds" VFloat (a_audit_suspect_seconds a)
      (set_opt "audit_hold_seconds" VFloat (a_audit_hold_seconds a) (set_opt "audit_probation_submissions" VInt (a_audit_probation_submissions a)
        (set_opt "audit_q" VFloat (a_audit_q a) d)))))).

Definition drop_all (fields : list string) (d : json) : json := foldl (fun d f => dict_del f d) d fields.
Definition set_token_price (a : cap_args) (d : json) : result json :=
  match a_token_price a with
  | None => Ok d
  | Some price =>
      let d := drop_all (MAX_PRICE_PARAMS ++ (MAX_PRICE_INPUT_PARAMS ++ MAX_PRICE_USD_PARAMS)) d in
      match price with
      | None => Ok d
      | Some p =>
          given ← mapM (fun f => v ← item p f; x ← to_float v; Ok (f, VFloat x)) MAX_PRICE_PARAMS;
          more ← mapM (fun f => v ← item p f; x ← to_float v; Ok (f, VFloat x)) (declared_of (MAX_PRICE_INPUT_PARAMS ++ MAX_PRICE_USD_PARAMS) p);
          Ok (dict_update (dict_update d given) more)
      end
  end.
Definition set_pricing (a : cap_args) (d : json) : json :=
  match a_pricing a with
  | None => d
  | Some pricing =>
      let d := drop_all AUCTION_PARAMS d in
      match pricing with None => d | Some p => dict_update d ((fun f => (f, dict_get f p)) <$> declared_of AUCTION_PARAMS p) end
  end.

Definition set_cap (l : registry) (k : string) (a : cap_args) : result registry :=
  e ← the_task k l;
  cap ← match a_cap a with Some c => Ok c | None => cap_of e end;
  _ ← ensure (String.eqb (status e) "active");
  old_cap ← cap_of e;
  d ← keep_tail e cap old_cap (dict_set "cap" (VFloat cap) (params e));
  d ← bound_start_pool cap d;
  d ← set_share a (set_floor e a cap d);
  d ← set_token_price a (set_audit a d);
  let updated := put_task k (set_params (set_pricing a d) e) l in
  _ ← validate_registry updated;
  Ok updated.

Definition set_admission (l : registry) (k : string) (a : string) : result registry :=
  _ ← ensure (String.eqb a "open" || String.eqb a "paused");
  e ← the_task k l;
  _ ← ensure (String.eqb (status e) "active");
  _ ← ensure (String.eqb (mechanism e) MECHANISM_CORPUS_GENERATION);
  let updated := put_task k (set_admission_of (VStr a) e) l in
  _ ← validate_registry updated;
  Ok updated.

(** ** The document *)

Definition str_of (v : pyval) : string :=
  match v with
  | VStr s => s
  | VInt z => py_str z
  | VBool b => if b then "True" else "False"
  | VNone => "None"
  | _ => repr_of v
  end.

Definition verification_of (body : json) : result (option string) :=
  match dict_get "verification" body with
  | VNone => Ok None
  | VDict d =>
      if existsb (fun kv => negb (String.eqb kv.1 "replica")) d then Raise ValueError
      else match dict_get "replica" d with VNone => Ok None | VStr s => Ok (Some s) | _ => Raise ValueError end
  | _ => Raise ValueError
  end.

Definition job_id_of (body : json) : result (option string) :=
  match dict_get "job_id" body with VNone => Ok None | VStr s => Ok (Some s) | _ => Raise ValueError end.

Definition parse_entry (kv : string * pyval) : result (string * task_entry) :=
  match kv.2 with
  | VDict body =>
      match dict_get "incentive" body with
      | VDict incentive =>
          match dict_get "params" incentive with
          | VDict d =>
              v ← verification_of body;
              j ← job_id_of body;
              Ok (kv.1, TaskEntry kv.1 (str_of (dict_get_or "profile_id" body (VStr ""))) (str_of (dict_get_or "profile_sha256" body (VStr "")))
                          (str_of (dict_get_or "mechanism" incentive (VStr ""))) d (str_of (dict_get_or "status" body (VStr "active")))
                          (dict_get "retired_at" body) (dict_get "env_split" body) (dict_get "contract" body) v j (dict_get "service_contract" body)
                          (dict_get_or "admission" body (VStr "open")))
          | _ => Raise ValueError
          end
      | _ => Raise ValueError
      end
  | _ => Raise ValueError
  end.

Definition parse_registry (document : pyval) (strict : bool) : result registry :=
  match document with
  | VDict d =>
      match dict_get_or "tasks" d (VDict []) with
      | VDict tasks =>
          entries ← mapM parse_entry tasks;
          _ ← (if strict then validate_registry entries else fold_result (fun _ ke => validate_entry ke.2) tt entries);
          Ok entries
      | _ => Raise ValueError
      end
  | _ => Raise ValueError
  end.

(** [_body]; an object that is there was checked to be one. *)
Definition render_entry (e : task_entry) : pyval :=
  VDict ([("profile_id", VStr (profile_id e)); ("profile_sha256", VStr (profile_sha256 e));
          ("incentive", VDict [("mechanism", VStr (mechanism e)); ("params", VDict (params e))]);
          ("status", VStr (status e)); ("retired_at", retired_at e); ("env_split", env_split e);
          ("verification", match verification e with None => VNone | Some v => VDict [("replica", VStr v)] end);
          ("job_id", match job_id e with None => VNone | Some j => VStr j end)]%string
         ++ (if is_none (contract e) then [] else [("contract"%string, contract e)])
         ++ (if is_none (service_contract e) then [] else [("service_contract"%string, service_contract e)])
         ++ (if str_eq (admission e) (VStr "open") then [] else [("admission"%string, admission e)])).

Definition render_registry (l : registry) : pyval :=
  VDict [("registry_version", VInt REGISTRY_VERSION); ("tasks", VDict ((fun ke => (ke.1, render_entry ke.2)) <$> isort entry_leb l))]%string.

(** What is read back of the object: its keys in order. *)
Definition stored (l : registry) : pyval := sort_keys (render_registry l).
End registry.

(** ** The keys in order *)

Lemma sort_keys_dict d : sort_keys (VDict d) = VDict (isort entry_leb ((fun kv => (kv.1, sort_keys kv.2)) <$> d)).
Proof.
  cbn. f_equal. induction d as [|kv d IH]; [done|]. cbn [List.fold_right fmap list_fmap]. rewrite IH. change (isort entry_leb (?x :: ?l)) with (insert_leb entry_leb x (isort entry_leb l)).
  generalize (isort entry_leb ((λ kv : string * pyval, (kv.1, sort_keys kv.2)) <$> d)) as l. intros l. induction l as [|y l IHl]; [done|]. cbn. unfold entry_leb, key_leb. cbn.
  by rewrite IHl.
Qed.

Lemma entry_leb_total {A} (a b : string * A) : entry_leb a b = true \/ entry_leb b a = true.
Proof. apply string_leb_total. Qed.
Lemma entry_leb_trans {A} (a b c : string * A) : entry_leb a b = true -> entry_leb b c = true -> entry_leb a c = true.
Proof. apply string_leb_trans. Qed.

Lemma insert_entry_map {A B} (f : A -> B) x (l : list (string * A)) :
  insert_leb entry_leb (x.1, f x.2) ((fun kv => (kv.1, f kv.2)) <$> l) = (fun kv => (kv.1, f kv.2)) <$> insert_leb entry_leb x l.
Proof. induction l as [|y l IH]; [done|]. cbn. unfold entry_leb in *. cbn. destruct (String.leb x.1 y.1); [done|]. cbn. by rewrite IH. Qed.

Lemma isort_entry_map {A B} (f : A -> B) (l : list (string * A)) :
  isort entry_leb ((fun kv => (kv.1, f kv.2)) <$> l) = (fun kv => (kv.1, f kv.2)) <$> isort entry_leb l.
Proof.
  induction l as [|x l IH]; [done|]. cbn [fmap list_fmap]. change (isort entry_leb (?x :: ?l)) with (insert_leb entry_leb x (isort entry_leb l)).
  rewrite IH. by rewrite insert_entry_map.
Qed.

Lemma isort_idem {A} (l : list (string * A)) : isort entry_leb (isort entry_leb l) = isort entry_leb l.
Proof. apply isort_id, isort_sorted; [apply entry_leb_total|apply entry_leb_trans]. Qed.

(** The entry as it is read back. *)
Definition sorted_json (d : json) : json := match sort_keys (VDict d) with VDict d => d | _ => d end.
Definition canon_entry (e : task_entry) : task_entry :=
  TaskEntry (task_id e) (profile_id e) (profile_sha256 e) (mechanism e) (sorted_json (params e)) (status e) (retired_at e) (sort_keys (env_split e))
    (sort_keys (contract e)) (verification e) (job_id e) (sort_keys (service_contract e)) (admission e).
Definition canon (l : registry) : registry := (fun ke => (ke.1, canon_entry ke.2)) <$> isort entry_leb l.

Lemma sort_keys_none v : is_none (sort_keys v) = is_none v.
Proof. by destruct v. Qed.

(** *** A key looked up *)

Lemma dict_get_map (f : pyval -> pyval) k d : f VNone = VNone -> dict_get k ((fun kv => (kv.1, f kv.2)) <$> d) = f (dict_get k d).
Proof. intros Hf. induction d as [|[k' v] d IH]; cbn; [done|]. by destruct (String.eqb k' k). Qed.

Lemma dict_get_elem k v d : NoDup d.*1 -> (k, v) ∈ d -> dict_get k d = v.
Proof.
  induction d as [|[k' v'] d IH]; cbn; [by intros _ ?%not_elem_of_nil|]. intros [Hk Hn]%NoDup_cons [[= -> ->]|Hin]%elem_of_cons; [by rewrite String.eqb_refl|].
  destruct (String.eqb_spec k' k) as [->|]; [|by apply IH]. destruct Hk. by apply (list_elem_of_fmap_2 fst _ (k, v)).
Qed.

Lemma dict_get_absent k d : k ∉ d.*1 -> dict_get k d = VNone.
Proof.
  induction d as [|[k' v] d IH]; cbn; [done|]. rewrite not_elem_of_cons. intros [Hk Hd]. destruct (String.eqb_spec k' k); [congruence|by apply IH].
Qed.

Lemma has_spec {A} k (d : list (string * A)) : has k d = true <-> k ∈ d.*1.
Proof.
  unfold has. rewrite existsb_exists, list_elem_of_fmap. split.
  - intros (kv & Hin%list_elem_of_In & <-%String.eqb_eq). by exists kv.
  - intros (kv & -> & Hin). exists kv. split; [by apply list_elem_of_In|apply String.eqb_refl].
Qed.

Lemma has_perm {A} k (d d' : list (string * A)) : d.*1 ≡ₚ d'.*1 -> has k d = has k d'.
Proof. intros Hp. apply eq_true_iff_eq. by rewrite !has_spec, Hp. Qed.

Lemma dict_get_perm k d d' : NoDup d.*1 -> d ≡ₚ d' -> dict_get k d = dict_get k d'.
Proof.
  intros Hn Hp. destruct (decide (k ∈ d.*1)) as [Hk|Hk].
  - apply list_elem_of_fmap in Hk as ([k' v] & -> & Hin). cbn. rewrite (dict_get_elem k' v d) by done. symmetry. apply dict_get_elem; by rewrite <- Hp.
  - rewrite !dict_get_absent; [done| |done]. by rewrite <- Hp.
Qed.

Lemma sort_keys_json d : sort_keys (VDict d) = VDict (sorted_json d).
Proof. unfold sorted_json. by rewrite sort_keys_dict. Qed.

Lemma sorted_json_perm d : sorted_json d ≡ₚ (fun kv => (kv.1, sort_keys kv.2)) <$> d.
Proof. unfold sorted_json. rewrite sort_keys_dict. apply isort_perm. Qed.

Lemma sorted_json_keys d : (sorted_json d).*1 ≡ₚ d.*1.
Proof. rewrite sorted_json_perm, <- list_fmap_compose. done. Qed.

Lemma dict_get_sorted k d : NoDup d.*1 -> dict_get k (sorted_json d) = sort_keys (dict_get k d).
Proof.
  intros Hn. rewrite <- (dict_get_map sort_keys k d) by done. apply dict_get_perm; [by rewrite sorted_json_keys|apply sorted_json_perm].
Qed.

Lemma has_sorted k d : has k (sorted_json d) = has k d.
Proof. apply has_perm, sorted_json_keys. Qed.

Lemma dict_get_or_sorted k d v : NoDup d.*1 -> sort_keys v = v -> dict_get_or k (sorted_json d) v = sort_keys (dict_get_or k d v).
Proof.
  intros Hn Hv. unfold dict_get_or. fold (has k (sorted_json d)). fold (has k d). rewrite has_sorted, dict_get_sorted by done. by destruct (has k d).
Qed.

(** An induction principle through the lists. *)
Section pyval_ind.
Context (P : pyval -> Prop) (Hnone : P VNone) (Hbool : forall b, P (VBool b)) (Hint : forall z, P (VInt z)) (Hfloat : forall f, P (VFloat f))
  (Hstr : forall s, P (VStr s)) (Hlist : forall l, Forall P l -> P (VList l)) (Hdict : forall d, Forall P d.*2 -> P (VDict d)).

Fixpoint pyval_nested_ind (v : pyval) : P v :=
  match v with
  | VNone => Hnone
  | VBool b => Hbool b
  | VInt z => Hint z
  | VFloat f => Hfloat f
  | VStr s => Hstr s
  | VList l => Hlist l ((fix go l : Forall P l := match l with [] => Forall_nil_2 P | x :: l => Forall_cons_2 P x l (pyval_nested_ind x) (go l) end) l)
  | VDict d => Hdict d ((fix go d : Forall P d.*2 := match d with [] => Forall_nil_2 P | kv :: d => Forall_cons_2 P kv.2 d.*2 (pyval_nested_ind kv.2) (go d) end) d)
  end.
End pyval_ind.

Lemma sort_keys_idem v : sort_keys (sort_keys v) = sort_keys v.
Proof.
  induction v as [| | | | |l IH|d IH] using pyval_nested_ind; [done..| |].
  - cbn. f_equal. rewrite List.map_map. induction IH as [|x l Hx _ IHl]; cbn; [done|]. by rewrite Hx, IHl.
  - rewrite sort_keys_dict, sort_keys_dict, !isort_entry_map, isort_idem. f_equal. rewrite <- list_fmap_compose.
    rewrite <- (isort_perm entry_leb d) in IH. induction (isort entry_leb d) as [|kv k IHk]; [done|]. cbn in *. apply Forall_cons in IH as [Hv Hd]. by rewrite Hv, IHk.
Qed.

Lemma sorted_json_idem d : sorted_json (sorted_json d) = sorted_json d.
Proof.
  pose proof (sort_keys_idem (VDict d)) as H. rewrite !sort_keys_json in H. by injection H.
Qed.

Lemma canon_entry_idem e : canon_entry (canon_entry e) = canon_entry e.
Proof. unfold canon_entry. cbn. by rewrite !sort_keys_idem, sorted_json_idem. Qed.

Lemma canon_idem l : canon (canon l) = canon l.
Proof.
  unfold canon. rewrite isort_entry_map, isort_idem, <- list_fmap_compose. apply list_fmap_ext. intros _ [k e] _. cbn. by rewrite canon_entry_idem.
Qed.

(** ** Reading back what was written *)

Section read_back.
Context (service_of : pyval -> result service) (canonical_sha256 : pyval -> result string) (repr_of : pyval -> string).
Local Notation validate_entry := (validate_entry service_of canonical_sha256).
Local Notation validate_registry := (validate_registry service_of canonical_sha256).
Local Notation parse_registry := (parse_registry service_of canonical_sha256 repr_of).

(** What an entry that was checked looks like. *)
Record plain (e : task_entry) : Prop := {
  plain_retired : sort_keys (retired_at e) = retired_at e;
  plain_admission : exists s, admission e = VStr s }.

Lemma body_keys e : plain e ->
  exists d, render_entry e = VDict d /\ NoDup d.*1.
Proof.
  intros [_ [s Hs]]. eexists. split; [reflexivity|]. rewrite Hs.
  destruct (is_none (contract e)), (is_none (service_contract e)), (str_eq (VStr s) (VStr "open")); apply (bool_decide_unpack _); vm_compute; exact I.
Qed.

Lemma parse_rendered e : plain e -> NoDup (params e).*1 -> parse_entry repr_of (task_id e, sort_keys (render_entry e)) = Ok (task_id e, canon_entry e).
Proof.
  intros Hp Hn. destruct (body_keys e Hp) as (d & E & Hd). unfold parse_entry. cbn [fst snd]. rewrite E, sort_keys_json.
  unfold verification_of, job_id_of. rewrite !dict_get_sorted, !dict_get_or_sorted by done. injection E as <-.
  destruct Hp as [Hr [s Hs]]. rewrite Hs.
  assert (forall v, is_none v = true -> v = VNone) as Hnone by (by intros []).
  destruct (is_none (contract e)) eqn:Ec, (is_none (service_contract e)) eqn:Es, (str_eq (VStr s) (VStr "open")) eqn:Ea; idtac.
  all: cbn [dict_get dict_get_or existsb String.eqb Ascii.eqb Bool.eqb fst snd app orb].
  all: rewrite (sort_keys_json [("mechanism"%string, _); _]), !dict_get_sorted, !dict_get_or_sorted by (done || (apply (bool_decide_unpack _); vm_compute; exact I)).
  all: cbn [dict_get dict_get_or existsb String.eqb Ascii.eqb Bool.eqb fst snd app orb]; rewrite (sort_keys_json (params e)).
  all: unfold canon_entry; rewrite Hr, Hs, ?(Hnone _ Ec), ?(Hnone _ Es); try (apply String.eqb_eq in Ea as ->).
  all: destruct (verification e), (job_id e); reflexivity.
Qed.

Definition keyed (l : registry) : Prop := Forall (fun ke => task_id ke.2 = ke.1) l.
End read_back.

(** *** What the checks give *)

Lemma ensure_ok b : ensure b = Ok () -> b = true.
Proof. by destruct b. Qed.
Lemma ensure_unit b u : ensure b = Ok u -> b = true.
Proof. by destruct b. Qed.

(** The binds of a run that succeeded, taken apart. *)
Ltac binds H := repeat (let H' := fresh "Hb" in apply bind_ok_inv in H as (? & H' & H)).

Lemma fold_unit_ok {A} (f : A -> result unit) l u v : fold_result (fun _ x => f x) u l = Ok v -> Forall (fun x => f x = Ok ()) l.
Proof.
  revert u. induction l as [|x l IH]; intros u; cbn; [by constructor|]. destruct (f x) as [[]|] eqn:E; cbn; [|done]. intros H. constructor; [done|by eapply IH].
Qed.

Section facts.
Context (service_of : pyval -> result service) (canonical_sha256 : pyval -> result string) (repr_of : pyval -> string).
Local Notation validate_entry := (validate_entry service_of canonical_sha256).
Local Notation validate_registry := (validate_registry service_of canonical_sha256).
Local Notation parse_registry := (parse_registry service_of canonical_sha256 repr_of).

Lemma validate_entry_plain e u : validate_entry e = Ok u -> plain e.
Proof.
  unfold TaskRegistry.validate_entry. intros H. binds H.
  repeat match goal with
  | Ha : validate_admission e = Ok _ |- _ => unfold validate_admission in Ha; destruct (admission e) eqn:Eadm; try discriminate Ha; clear Ha
  | Ha : ensure (match retired_at e with _ => _ end) = Ok _ |- _ => destruct (retired_at e) eqn:Eret; try discriminate Ha; clear Ha
  end.
  all: split; [by rewrite Eret|by eexists].
Qed.

Lemma validate_registry_ok l u : validate_registry l = Ok u ->
  Forall (fun ke => validate_entry ke.2 = Ok ()) l /\
  (exists total, total_cap l = Ok total /\ total <= fadd fone SUM_TOLERANCE) /\
  NoDup (omap (fun ke => active_job ke.2) l).
Proof.
  unfold TaskRegistry.validate_registry. intros H. binds H. split_and!.
  - by eapply (fold_unit_ok (fun ke => validate_entry ke.2)).
  - eexists. split; [done|]. match goal with Hb : ensure _ = Ok _ |- _ => apply ensure_unit in Hb; lia end.
  - match goal with Hb : fold_result claim _ _ = Ok _ |- _ => rename Hb into Hc end. clear -Hc.
    assert (forall (l : registry) (c c' : list string), fold_result claim c l = Ok c' -> NoDup c -> NoDup (omap (fun ke => active_job ke.2) l ++ c)) as Hg.
    { clear. induction l as [|ke l IH]; intros c c'; [by intros [= <-]|]. intros (c1 & H1 & H2)%bind_ok_inv Hn. unfold claim in H1. cbn [omap list_omap].
      destruct (active_job ke.2) as [j|]; [|injection H1 as <-; by eapply IH].
      case_bool_decide as Hj; [done|]. injection H1 as <-. specialize (IH _ _ H2 (proj2 (NoDup_cons _ _) (conj Hj Hn))). by rewrite <- Permutation_middle in IH. }
    specialize (Hg _ _ _ Hc (NoDup_nil_2)). rewrite app_nil_r in Hg. by rewrite <- (isort_perm entry_leb l).
Qed.

(** *** Reading back what was written *)

Lemma mapM_fmap_ok {A B C} (f : B -> result C) (h : A -> B) (g : A -> C) l : Forall (fun x => f (h x) = Ok (g x)) l -> mapM f (h <$> l) = Ok (g <$> l).
Proof. induction 1 as [|x l Hx _ IH]; cbn; [done|]. rewrite Hx. cbn. by rewrite IH. Qed.

(** Dictionaries have each key once. *)
Definition unique_keys (l : registry) : Prop := NoDup l.*1 /\ Forall (fun ke => NoDup (params ke.2).*1) l.

Lemma tasks_of_stored l : dict_get_or "tasks" (sorted_json (match render_registry l with VDict d => d | _ => [] end)) (VDict []) =
  VDict ((fun ke => (ke.1, sort_keys (render_entry ke.2))) <$> isort entry_leb l).
Proof.
  unfold render_registry. rewrite dict_get_or_sorted; [|apply (bool_decide_unpack _); vm_compute; exact I|done].
  cbn [dict_get dict_get_or existsb String.eqb Ascii.eqb Bool.eqb fst snd app orb]. rewrite sort_keys_dict, <- list_fmap_compose.
  rewrite (isort_entry_map (sort_keys ∘ render_entry)), isort_idem. done.
Qed.

Lemma parse_stored l strict : Forall (fun ke => plain ke.2) l -> keyed l -> unique_keys l ->
  parse_registry (stored l) strict =
  (_ ← (if strict then validate_registry (canon l) else fold_result (fun _ ke => validate_entry ke.2) tt (canon l)); Ok (canon l)).
Proof.
  intros Hp Hk [_ Hn]. unfold stored, TaskRegistry.parse_registry. pose proof (tasks_of_stored l) as Ht. unfold render_registry in *. rewrite sort_keys_json, Ht.
  assert (mapM (parse_entry repr_of) ((fun ke => (ke.1, sort_keys (render_entry ke.2))) <$> isort entry_leb l) = Ok (canon l)) as ->; [|done].
  rewrite <- (isort_perm entry_leb l) in Hp, Hn. unfold keyed in Hk. rewrite <- (isort_perm entry_leb l) in Hk.
  apply mapM_fmap_ok, Forall_forall. intros [k e] Hin. cbn [fst snd]. pose proof (proj1 (Forall_forall _ _) Hk _ Hin) as E. cbn in E. subst k.
  apply parse_rendered; [exact (proj1 (Forall_forall _ _) Hp _ Hin)|exact (proj1 (Forall_forall _ _) Hn _ Hin)].
Qed.

Lemma find_task_elem k e l : find_task k l = Some e -> (k, e) ∈ l.
Proof.
  induction l as [|[k' e'] l IH]; cbn; [done|]. destruct (String.eqb_spec k' k) as [->|]; [intros [= ->]; by left|]. intros H. right. by apply IH.
Qed.

Lemma find_task_none k l : find_task k l = None <-> k ∉ l.*1.
Proof.
  induction l as [|[k' e'] l IH]; cbn; [split; [by intros _ ?%not_elem_of_nil|done]|]. rewrite not_elem_of_cons. destruct (String.eqb_spec k' k); [naive_solver|]. rewrite IH. naive_solver.
Qed.

Lemma elem_find_task k e l : NoDup l.*1 -> (k, e) ∈ l -> find_task k l = Some e.
Proof.
  induction l as [|[k' e'] l IH]; cbn; [by intros _ ?%not_elem_of_nil|]. intros [Hk Hn]%NoDup_cons [[= -> ->]|Hin]%elem_of_cons; [by rewrite String.eqb_refl|].
  destruct (String.eqb_spec k' k) as [->|]; [|by apply IH]. destruct Hk. by apply (list_elem_of_fmap_2 fst _ (k, e)).
Qed.

Lemma canon_keys l : (canon l).*1 ≡ₚ l.*1.
Proof. unfold canon. by rewrite <- list_fmap_compose, (isort_perm entry_leb l). Qed.

Lemma find_task_canon k l : NoDup l.*1 -> find_task k (canon l) = canon_entry <$> find_task k l.
Proof.
  intros Hn. destruct (find_task k l) as [e|] eqn:E; cbn.
  - apply find_task_elem in E. apply elem_find_task; [by rewrite canon_keys|]. unfold canon. apply list_elem_of_fmap. exists (k, e). split; [done|]. by apply elem_of_isort.
  - apply find_task_none in E. apply find_task_none. by rewrite canon_keys.
Qed.

Lemma canon_unique l : unique_keys l -> unique_keys (canon l).
Proof.
  intros [Hn Hp]. split; [by rewrite canon_keys|]. unfold canon. apply Forall_fmap. rewrite (isort_perm entry_leb l). eapply Forall_impl; [exact Hp|].
  intros [k e] H. cbn in *. by rewrite sorted_json_keys.
Qed.

Lemma canon_keyed l : keyed l -> keyed (canon l).
Proof. unfold keyed, canon. intros H. apply Forall_fmap. rewrite (isort_perm entry_leb l). eapply Forall_impl; [exact H|]. by intros [k e] ?. Qed.
End facts.

(** ** What no change does *)

Lemma find_put_eq k e l : find_task k (put_task k e l) = Some e.
Proof. induction l as [|[k' e'] l IH]; cbn; [by rewrite String.eqb_refl|]. destruct (String.eqb k' k) eqn:E; cbn; rewrite E; done. Qed.
Lemma find_put_ne k k' e l : k' <> k -> find_task k' (put_task k e l) = find_task k' l.
Proof.
  intros Hne. induction l as [|[x e'] l IH]; cbn; [destruct (String.eqb_spec k k'); [congruence|done]|].
  destruct (String.eqb_spec x k) as [->|]; cbn; [by destruct (String.eqb_spec k k'); [congruence|]|]. by rewrite IH.
Qed.

Lemma put_keys k e l : (put_task k e l).*1 = if has k l then l.*1 else l.*1 ++ [k].
Proof.
  induction l as [|[x e'] l IH]; [done|]. cbn [put_task has existsb fst]. destruct (String.eqb x k); [done|]. cbn. fold (has k l). rewrite IH. by destruct (has k l).
Qed.

Lemma elem_of_put k e l x : x ∈ put_task k e l -> x = (k, e) \/ x ∈ l.
Proof.
  induction l as [|[y e'] l IH]; cbn; [by intros ->%list_elem_of_singleton; left|]. destruct (String.eqb_spec y k) as [->|].
  - intros [->|Hin]%elem_of_cons; [by left|right; by right].
  - intros [->|Hin]%elem_of_cons; [right; by left|]. destruct (IH Hin); [by left|right; by right].
Qed.

Lemma put_unique k e l : unique_keys l -> NoDup (params e).*1 -> unique_keys (put_task k e l).
Proof.
  intros [Hn Hp] He. split.
  - rewrite put_keys. destruct (has k l) eqn:E; [done|]. apply NoDup_app. split_and!; [done| |apply NoDup_singleton].
    intros x Hx ->%list_elem_of_singleton. apply has_spec in Hx. congruence.
  - apply Forall_forall. intros x [->|Hin]%elem_of_put; [done|exact (proj1 (Forall_forall _ _) Hp _ Hin)].
Qed.

Lemma put_keyed k e l : keyed l -> task_id e = k -> keyed (put_task k e l).
Proof. intros Hk He. apply Forall_forall. intros x [->|Hin]%elem_of_put; [done|exact (proj1 (Forall_forall _ _) Hk _ Hin)]. Qed.

Lemma keyed_find k e l : keyed l -> find_task k l = Some e -> task_id e = k.
Proof. intros Hk Hf%find_task_elem. exact (proj1 (Forall_forall _ _) Hk _ Hf). Qed.
Lemma unique_find k e l : unique_keys l -> find_task k l = Some e -> NoDup (params e).*1.
Proof. intros [_ Hp] Hf%find_task_elem. exact (proj1 (Forall_forall _ _) Hp _ Hf). Qed.

(** *** Dictionaries changed *)

Lemma dict_get_set_ne k k' v d : k' <> k -> dict_get k' (dict_set k v d) = dict_get k' d.
Proof.
  intros Hne. induction d as [|[x y] d IH]; cbn; [destruct (String.eqb_spec k k'); [congruence|done]|].
  destruct (String.eqb_spec x k) as [->|]; cbn; [by destruct (String.eqb_spec k k'); [congruence|]|]. by rewrite IH.
Qed.
Lemma dict_get_del k k' d : k' <> k -> dict_get k' (dict_del k d) = dict_get k' d.
Proof.
  intros Hne. unfold dict_del. induction d as [|[x y] d IH]; [done|]. rewrite filter_cons. cbn [fst]. destruct (decide (x <> k)) as [Hx|Hx]; cbn; rewrite IH; [done|].
  destruct (String.eqb_spec x k') as [->|]; [|done]. by destruct Hx.
Qed.

Lemma elem_of_dict_set k v d x : x ∈ (dict_set k v d).*1 -> x = k \/ x ∈ d.*1.
Proof.
  induction d as [|[y w] d IH]; cbn; [by intros ->%list_elem_of_singleton; left|]. destruct (String.eqb y k); cbn; [by right|].
  rewrite !elem_of_cons. naive_solver.
Qed.
Lemma dict_set_unique k v d : NoDup d.*1 -> NoDup (dict_set k v d).*1.
Proof.
  induction d as [|[y w] d IH]; cbn; [intros _; apply NoDup_singleton|]. intros [Hy Hd]%NoDup_cons. destruct (String.eqb_spec y k) as [->|Hne]; cbn; [by constructor|].
  constructor; [|by apply IH]. by intros [?|?]%elem_of_dict_set.
Qed.
Lemma dict_del_unique k d : NoDup d.*1 -> NoDup (dict_del k d).*1.
Proof. intros Hn. eapply sublist_NoDup; [exact Hn|]. apply fmap_sublist. unfold dict_del. apply sublist_filter. Qed.

(** What the pay of a task is read from. *)
Definition pay_keys : list string := ["cap"; "tail_cap"; "settlement"]%string.
Record frame (d d' : json) : Prop := { frame_unique : NoDup d.*1 -> NoDup d'.*1; frame_get k : k ∈ pay_keys -> dict_get k d' = dict_get k d }.

Lemma frame_refl d : frame d d.
Proof. by split. Qed.
Lemma frame_trans d1 d2 d3 : frame d1 d2 -> frame d2 d3 -> frame d1 d3.
Proof. intros [H1 H2] [H3 H4]. split; [auto|]. intros k Hk. by rewrite H4, H2. Qed.
Lemma frame_set k v d : k ∉ pay_keys -> frame d (dict_set k v d).
Proof. intros Hk. split; [apply dict_set_unique|]. intros k' Hk'. apply dict_get_set_ne. by intros ->. Qed.
Lemma frame_del k d : k ∉ pay_keys -> frame d (dict_del k d).
Proof. intros Hk. split; [apply dict_del_unique|]. intros k' Hk'. apply dict_get_del. by intros ->. Qed.
Lemma frame_opt {A} k f (v : option A) d : k ∉ pay_keys -> frame d (set_opt k f v d).
Proof. intros Hk. destruct v; [by apply frame_set|apply frame_refl]. Qed.

Lemma frame_drop fields d : Forall (fun f => f ∉ pay_keys) fields -> frame d (drop_all fields d).
Proof.
  revert d. induction fields as [|f fields IH]; intros d H; [apply frame_refl|]. apply Forall_cons in H as [Hf H].
  eapply frame_trans; [by apply (frame_del f)|]. by apply (IH (dict_del f d)).
Qed.
Lemma frame_update e d : Forall (fun kv => kv.1 ∉ pay_keys) e -> frame d (dict_update d e).
Proof.
  revert d. induction e as [|[k v] e IH]; intros d H; [apply frame_refl|]. apply Forall_cons in H as [Hf H].
  eapply frame_trans; [by apply (frame_set k v)|]. by apply (IH (dict_set k v d)).
Qed.

Ltac not_pay := apply (bool_decide_unpack _); vm_compute; exact I.

(** *** A task stays the task it was *)

(** The identity of a task never changes, a retired one stays so, and what a corpus task paid by
    period may still be paid never falls. *)
Record continues (e e' : task_entry) : Prop := {
  same_id : task_id e' = task_id e;
  same_profile : profile_id e' = profile_id e /\ profile_sha256 e' = profile_sha256 e;
  same_mechanism : mechanism e' = mechanism e;
  same_job : job_id e' = job_id e;
  same_verification : verification e' = verification e;
  same_contracts : sort_keys (contract e') = sort_keys (contract e) /\ sort_keys (service_contract e') = sort_keys (service_contract e) /\
    sort_keys (env_split e') = sort_keys (env_split e);
  stays_retired : status e = "retired"%string -> status e' = "retired"%string;
  same_settlement : corpus_by_period e' = corpus_by_period e;
  ceiling_kept : corpus_by_period e = true -> forall c, pay_ceiling (VDict (params e)) = Ok (Some c) ->
    exists c', pay_ceiling (VDict (params e')) = Ok (Some c') /\ c <= c' }.

Lemma continues_refl e : continues e e.
Proof. split; try done. intros _ c Hc. exists c. split; [done|lia]. Qed.

Lemma continues_trans e1 e2 e3 : continues e1 e2 -> continues e2 e3 -> continues e1 e3.
Proof.
  intros H1 H2. destruct H1 as [? [? ?] ? ? ? (? & ? & ?) Hr1 Hs1 Hc1], H2 as [? [? ?] ? ? ? (? & ? & ?) Hr2 Hs2 Hc2].
  split; try congruence; try (split_and!; congruence); try (by auto).
  intros Hp c Hc. destruct (Hc1 Hp c Hc) as (c1 & E1 & L1). destruct (Hc2 ltac:(congruence) c1 E1) as (c2 & E2 & L2). exists c2. split; [done|lia].
Qed.

Lemma ceiling_get d d' : dict_get "cap" d' = dict_get "cap" d -> dict_get "tail_cap" d' = dict_get "tail_cap" d -> pay_ceiling (VDict d') = pay_ceiling (VDict d).
Proof. intros E1 E2. unfold pay_ceiling. by rewrite E1, E2. Qed.
Lemma ceiling_frame d d' : frame d d' -> pay_ceiling (VDict d') = pay_ceiling (VDict d).
Proof. intros [_ H]. apply ceiling_get; apply H; not_pay. Qed.

Lemma period_get d d' : dict_get "settlement" d' = dict_get "settlement" d -> settled_by_period d' = settled_by_period d.
Proof. intros E. unfold settled_by_period, is_period_task. by rewrite E. Qed.

Lemma number_to_float v x : number v = Ok x -> to_float v = Ok x.
Proof. destruct v; cbn; try done. by destruct (too_large z). Qed.

(** The ceiling read from numbers. *)
Lemma ceiling_eq d c t : to_float (dict_get "cap" d) = Ok c -> (dict_get "tail_cap" d = VNone \/ to_float (dict_get "tail_cap" d) = Ok t) ->
  pay_ceiling (VDict d) = Ok (Some (match dict_get "tail_cap" d with VNone => c | _ => Z.max c t end)).
Proof.
  intros Hc Ht. unfold pay_ceiling. destruct (dict_get "cap" d) eqn:E; try (by discriminate Hc); rewrite Hc; cbn [mbind result_bind].
  all: destruct (dict_get "tail_cap" d) eqn:E'; try done; destruct Ht as [Ht|Ht]; try discriminate Ht; rewrite Ht; done.
Qed.

Lemma ceiling_inv d c : pay_ceiling (VDict d) = Ok (Some c) -> exists c0, to_float (dict_get "cap" d) = Ok c0 /\
  match dict_get "tail_cap" d with VNone => c = c0 | v => exists t, to_float v = Ok t /\ c = Z.max c0 t end.
Proof.
  unfold pay_ceiling. intros H. destruct (dict_get "cap" d) eqn:E; try discriminate H; apply bind_ok_inv in H as (c0 & Hc & H); exists c0; (split; [done|]).
  all: destruct (dict_get "tail_cap" d); try (by injection H); apply bind_ok_inv in H as (t & Ht & H); injection H; eauto.
Qed.

(** A lowered cap leaves the highest as tail. *)
Lemma lowered_ceiling d d' cap old tail c :
  number (dict_get "cap" d) = Ok old -> tail_of d = Ok tail -> dict_get "cap" d' = VFloat cap -> dict_get "tail_cap" d' = VFloat (Z.max old tail) ->
  pay_ceiling (VDict d) = Ok (Some c) -> exists c', pay_ceiling (VDict d') = Ok (Some c') /\ c <= c'.
Proof.
  intros Ho%number_to_float Ht E1 E2 (c0 & Hc & H)%ceiling_inv. eexists. split.
  { apply (ceiling_eq d' cap (Z.max old tail)); [by rewrite E1|right; by rewrite E2]. }
  rewrite E2. assert (c0 = old) as -> by congruence. unfold tail_of, dict_get_or in Ht. fold (has TAIL_CAP_PARAM d) in Ht.
  destruct (dict_get "tail_cap" d) eqn:E; [lia|..]; destruct H as (t & Ht' & ->); assert (has TAIL_CAP_PARAM d = true) as Hh.
  all: try (apply has_spec; destruct (decide (TAIL_CAP_PARAM ∈ d.*1)) as [Hin|Hin]; [done|]; by rewrite dict_get_absent in E).
  all: rewrite Hh in Ht; unfold TAIL_CAP_PARAM in Ht; rewrite E in Ht; apply number_to_float in Ht; assert (t = tail) as -> by congruence; lia.
Qed.

Lemma raised_ceiling d d' cap old c :
  number (dict_get "cap" d) = Ok old -> old <= cap -> dict_get "cap" d' = VFloat cap -> dict_get "tail_cap" d' = dict_get "tail_cap" d ->
  pay_ceiling (VDict d) = Ok (Some c) -> exists c', pay_ceiling (VDict d') = Ok (Some c') /\ c <= c'.
Proof.
  intros Ho%number_to_float Hle E1 E2 (c0 & Hc & H)%ceiling_inv. assert (c0 = old) as -> by congruence.
  assert (to_float (dict_get "cap" d') = Ok cap) as Hc' by (by rewrite E1).
  destruct (dict_get "tail_cap" d) eqn:E.
  { subst c. exists cap. split; [|done]. rewrite (ceiling_eq d' cap 0 Hc'); [by rewrite E2|by left]. }
  all: destruct H as (t & Ht & ->); exists (Z.max cap t); (split; [|lia]); rewrite (ceiling_eq d' cap t Hc'); [by rewrite E2|right; by rewrite E2].
Qed.

(** *** The changes *)

Lemma mapM_keys (f : string -> result pyval) fields (k : json) : mapM (fun x => v ← f x; Ok (x, v)) fields = Ok k -> k.*1 = fields.
Proof.
  revert k. induction fields as [|x fields IH]; intros k; cbn; [by intros [= <-]|]. destruct (f x) as [v|]; cbn; [|done]. destruct (mapM _ fields) as [m|]; cbn; [|done].
  intros [= <-]. cbn. by rewrite (IH m eq_refl).
Qed.

Lemma frame_given p fields (k : json) d : mapM (fun f => v ← item p f; x ← to_float v; Ok (f, VFloat x)) fields = Ok k ->
  Forall (fun f => f ∉ pay_keys) fields -> frame d (dict_update d k).
Proof.
  intros Hm Hf. apply frame_update. cut (Forall (fun f => f ∉ pay_keys) k.*1); [by rewrite Forall_fmap|]. rewrite (mapM_keys (fun f => v ← item p f; x ← to_float v; Ok (VFloat x)) fields k); [done|].
  rewrite <- Hm. clear. induction fields as [|f fields IH]; [done|]. cbn. rewrite IH. destruct (item p f) as [v|]; cbn; [|done]. by destruct (to_float v).
Qed.

Lemma declared_not_pay fields p : Forall (fun f => f ∉ pay_keys) fields -> Forall (fun f => f ∉ pay_keys) (declared_of fields p).
Proof. intros H. apply Forall_forall. intros x [_ Hx]%list_elem_of_filter. exact (proj1 (Forall_forall _ _) H x Hx). Qed.

Lemma bound_start_pool_frame cap d d' : bound_start_pool cap d = Ok d' -> frame d d'.
Proof.
  unfold bound_start_pool. destruct (has _ _); [|intros [= <-]; apply frame_refl]. intros H. binds H. injection H as <-.
  destruct (cap <? _); [|apply frame_refl]. destruct (0 <? cap); [apply frame_set|apply frame_del]; not_pay.
Qed.
Lemma set_floor_frame e a cap d : frame d (set_floor e a cap d).
Proof. unfold set_floor. destruct (a_floor a); [apply frame_set; not_pay|]. destruct (String.eqb _ _); [apply frame_set; not_pay|apply frame_refl]. Qed.
Lemma set_share_frame a d d' : set_share a d = Ok d' -> frame d d'.
Proof.
  unfold set_share. destruct (a_min_incentive_share a) as [s|]; [|intros [= <-]; apply frame_refl]. intros H. binds H. injection H as <-.
  eapply frame_trans; [apply (frame_set "min_incentive_share"); not_pay|]. destruct (s <? _); [apply frame_set; not_pay|apply frame_refl].
Qed.
Lemma set_audit_frame a d : frame d (set_audit a d).
Proof. unfold set_audit. repeat (eapply frame_trans; [|apply frame_opt; not_pay]). apply frame_refl. Qed.
Lemma set_token_price_frame a d d' : set_token_price a d = Ok d' -> frame d d'.
Proof.
  unfold set_token_price. destruct (a_token_price a) as [price|]; [|intros [= <-]; apply frame_refl]. intros H.
  eapply frame_trans; [apply (frame_drop (MAX_PRICE_PARAMS ++ (MAX_PRICE_INPUT_PARAMS ++ MAX_PRICE_USD_PARAMS))); not_pay|].
  destruct price as [p|]; [|injection H as <-; apply frame_refl]. apply bind_ok_inv in H as (given & Hg & H). apply bind_ok_inv in H as (more & Hm & H). injection H as <-.
  eapply frame_trans; [eapply (frame_given p); [exact Hg|not_pay]|]. eapply (frame_given p); [exact Hm|]. apply declared_not_pay. not_pay.
Qed.
Lemma set_pricing_frame a d : frame d (set_pricing a d).
Proof.
  unfold set_pricing. destruct (a_pricing a) as [pricing|]; [|apply frame_refl]. eapply frame_trans; [apply (frame_drop AUCTION_PARAMS); not_pay|].
  destruct pricing as [p|]; [|apply frame_refl]. apply frame_update, Forall_fmap. eapply Forall_impl; [apply (declared_not_pay AUCTION_PARAMS); not_pay|]. done.
Qed.

Lemma continues_params e d : dict_get "settlement" d = dict_get "settlement" (params e) ->
  (corpus_by_period e = true -> forall c, pay_ceiling (VDict (params e)) = Ok (Some c) -> exists c', pay_ceiling (VDict d) = Ok (Some c') /\ c <= c') ->
  continues e (set_params d e).
Proof. intros Hs Hc. split; try done. unfold corpus_by_period. cbn [params mechanism set_params]. by rewrite (period_get _ _ Hs). Qed.

(** The cap set, and the tail it leaves. *)
Lemma keep_tail_spec e cap old d : cap_of e = Ok old -> keep_tail e cap old (dict_set "cap" (VFloat cap) (params e)) = Ok d ->
  (NoDup (params e).*1 -> NoDup d.*1) /\ dict_get "settlement" d = dict_get "settlement" (params e) /\
  (corpus_by_period e = true -> forall c, pay_ceiling (VDict (params e)) = Ok (Some c) -> exists c', pay_ceiling (VDict d) = Ok (Some c') /\ c <= c').
Proof.
  intros Ho. unfold keep_tail. destruct (corpus_by_period e && (cap <? old)) eqn:E.
  - intros H. apply bind_ok_inv in H as (tail & Ht & H). injection H as <-. split_and!.
    + intros Hn. by apply dict_set_unique, dict_set_unique.
    + unfold TAIL_CAP_PARAM. by rewrite !dict_get_set_ne by done.
    + intros _ c. apply (lowered_ceiling (params e) _ cap old tail); [done|done| |].
      * unfold TAIL_CAP_PARAM. rewrite dict_get_set_ne by done. apply dict_get_set.
      * apply dict_get_set.
  - intros [= <-]. split_and!; [apply dict_set_unique|by rewrite dict_get_set_ne|]. intros Hp c. rewrite Hp in E. cbn in E.
    apply (raised_ceiling (params e) _ cap old); [done|lia|apply dict_get_set|by rewrite dict_get_set_ne].
Qed.

Section changes.
Context (service_of : pyval -> result service) (canonical_sha256 : pyval -> result string).
Local Notation validate_registry := (validate_registry service_of canonical_sha256).

(** A change that replaced one entry. *)
Definition replaced (l : registry) (k : string) (l' : registry) : Prop :=
  exists e e', find_task k l = Some e /\ l' = put_task k e' l /\ continues e e' /\ (NoDup (params e).*1 -> NoDup (params e').*1).

Lemma the_task_ok k l e : the_task k l = Ok e -> find_task k l = Some e.
Proof. unfold the_task. destruct (find_task k l); [by intros [= ->]|done]. Qed.

Lemma set_cap_replaces l k a l' : set_cap service_of canonical_sha256 l k a = Ok l' -> replaced l k l' /\ validate_registry l' = Ok ().
Proof.
  unfold set_cap. intros H. apply bind_ok_inv in H as (e & He%the_task_ok & H). apply bind_ok_inv in H as (cap & _ & H). apply bind_ok_inv in H as ([] & _ & H).
  apply bind_ok_inv in H as (old & Ho & H). apply bind_ok_inv in H as (d1 & H1 & H). apply bind_ok_inv in H as (d2 & H2%bound_start_pool_frame & H).
  apply bind_ok_inv in H as (d3 & H3%set_share_frame & H). apply bind_ok_inv in H as (d4 & H4%set_token_price_frame & H).
  apply bind_ok_inv in H as ([] & Hv & H). injection H as <-. split; [|done]. destruct (keep_tail_spec e cap old d1 Ho H1) as (Hn & Hs & Hc).
  assert (frame d1 (set_pricing a d4)) as Hf.
  { eapply frame_trans; [exact H2|]. eapply frame_trans; [apply (set_floor_frame e a cap)|]. eapply frame_trans; [exact H3|]. eapply frame_trans; [apply (set_audit_frame a)|].
    eapply frame_trans; [exact H4|]. apply set_pricing_frame. }
  exists e, (set_params (set_pricing a d4) e). split_and!; [done|done| |intros Hu; by apply (frame_unique _ _ Hf), Hn].
  apply continues_params; [rewrite (frame_get _ _ Hf) by not_pay; done|]. intros Hp c Hcc. rewrite (ceiling_frame _ _ Hf). by apply Hc.
Qed.

Lemma release_cap_replaces l k l' : release_cap l k = Ok l' -> l' = l \/ replaced l k l'.
Proof.
  unfold release_cap. intros H. apply bind_ok_inv in H as (e & He%the_task_ok & H). apply bind_ok_inv in H as ([] & _ & H). apply bind_ok_inv in H as ([] & _ & H).
  apply bind_ok_inv in H as (old & Ho & H). destruct (old =? 0); [injection H as <-; by left|]. right. apply bind_ok_inv in H as (tail & Ht & H). injection H as <-.
  eexists e, _. split_and!; [done|done| |intros Hn; by apply dict_set_unique, dict_set_unique, dict_set_unique]. apply continues_params; unfold TAIL_CAP_PARAM.
  - by rewrite !dict_get_set_ne by done.
  - intros _ c. apply (lowered_ceiling (params e) _ 0 old tail); [done|done| |apply dict_get_set]. rewrite !dict_get_set_ne by done. apply dict_get_set.
Qed.

Lemma retire_task_replaces l k at_ l' : retire_task l k at_ = Ok l' -> replaced l k l'.
Proof.
  unfold retire_task. intros H. apply bind_ok_inv in H as (e & He%the_task_ok & H). destruct (to_int at_) as [stamp|]; [|done]. injection H as <-.
  exists e, (set_retired stamp e). split_and!; [done|done| |done]. split; try done. intros _ c Hc. exists c. split; [done|lia].
Qed.

Lemma set_admission_continues e a : continues e (set_admission_of a e).
Proof. split; try done. intros _ c Hc. exists c. split; [done|lia]. Qed.

Lemma add_task_spec l e l' : add_task service_of canonical_sha256 l e = Ok l' ->
  find_task (task_id e) l = None /\ l' = put_task (task_id e) e l /\ validate_registry l' = Ok ().
Proof.
  unfold add_task. intros H. apply bind_ok_inv in H as ([] & _ & H). apply bind_ok_inv in H as ([] & Hf%ensure_ok%bool_decide_eq_true & H).
  apply bind_ok_inv in H as ([] & Hv & H). by injection H as <-.
Qed.
End changes.

(** ** Claims *)

(** C39: a registry reads back as it was written.  A registry that passed its checks, written and
    read, gives the same entries, the keys of every object in order, once these pass the checks
    themselves, which sum the same caps in the order of the ids; where its keys are in order
    already, as in every registry that was read, it gives the registry itself.  Each task is
    found under its id, its parameters have the same values. *)
Theorem registry_reads_back (service_of : pyval -> result service) (canonical_sha256 : pyval -> result string) (repr_of : pyval -> string) (l : registry) :
  keyed l -> unique_keys l -> validate_registry service_of canonical_sha256 l = Ok () ->
  parse_registry service_of canonical_sha256 repr_of (stored l) true =
    (_ ← validate_registry service_of canonical_sha256 (canon l); Ok (canon l)) /\
  (canon l = l -> parse_registry service_of canonical_sha256 repr_of (stored l) true = Ok l) /\
  canon (canon l) = canon l /\
  (forall k, find_task k (canon l) = canon_entry <$> find_task k l) /\
  (forall k e f, find_task k l = Some e -> dict_get f (params (canon_entry e)) = sort_keys (dict_get f (params e))).
Proof.
  intros Hk Hu Hv. pose proof (validate_registry_ok _ _ _ _ Hv) as [Hf _].
  assert (parse_registry service_of canonical_sha256 repr_of (stored l) true = (_ ← validate_registry service_of canonical_sha256 (canon l); Ok (canon l))) as Hp.
  { apply (parse_stored _ _ _ l true); [|done|done]. eapply Forall_impl; [exact Hf|]. intros ke H. eapply validate_entry_plain. exact H. }
  split_and!; [done| |apply canon_idem|intros k; by apply find_task_canon, Hu|].
  - intros E. by rewrite Hp, E, Hv.
  - intros k e f He. apply dict_get_sorted. by eapply unique_find.
Qed.

(** A change leaves every task what it was.  Declaring, retiring, releasing and setting caps
    keep all tasks: each keeps its id, profile, contracts, mechanism, job and settlement, a
    retired one stays retired, only the task changed has other parameters, and what the archives
    of a corpus task paid by period may be paid never falls, however its cap is lowered. *)
Theorem changes_keep_tasks (service_of : pyval -> result service) (canonical_sha256 : pyval -> result string) (l l' : registry) (changed : string) :
  (exists e, task_id e = changed /\ add_task service_of canonical_sha256 l e = Ok l') \/ (exists at_, retire_task l changed at_ = Ok l') \/
  release_cap l changed = Ok l' \/ (exists a, set_cap service_of canonical_sha256 l changed a = Ok l') \/
  (exists a, set_admission service_of canonical_sha256 l changed a = Ok l') ->
  forall k e, find_task k l = Some e -> exists e', find_task k l' = Some e' /\ continues e e' /\ (k <> changed -> e' = e).
Proof.
  intros H k e He.
  assert (forall x, l' = put_task changed x l -> (forall e0, find_task changed l = Some e0 -> continues e0 x) ->
    exists e', find_task k l' = Some e' /\ continues e e' /\ (k <> changed -> e' = e)) as Hput.
  { intros x -> Hx. destruct (decide (k = changed)) as [->|Hne].
    - exists x. split_and!; [apply find_put_eq|by apply Hx|done].
    - exists e. rewrite find_put_ne by done. split_and!; [done|apply continues_refl|done]. }
  assert (replaced l changed l' -> exists e', find_task k l' = Some e' /\ continues e e' /\ (k <> changed -> e' = e)) as Hrep.
  { intros (e0 & x & He0 & E & Hc & _). apply (Hput x E). intros e1 He1. by assert (e1 = e0) as -> by congruence. }
  destruct H as [(x & <- & (Hn & E & _)%add_task_spec)|[(at_ & H)|[H|[(a & H)|(a & H)]]]].
  - apply (Hput x E). congruence.
  - by eapply Hrep, retire_task_replaces.
  - apply release_cap_replaces in H as [->|H]; [|by apply Hrep]. exists e. split_and!; [done|apply continues_refl|done].
  - apply set_cap_replaces in H as [H _]. by apply Hrep.
  - unfold set_admission in H. apply bind_ok_inv in H as ([] & _ & H). apply bind_ok_inv in H as (x & Hx%the_task_ok & H). apply bind_ok_inv in H as ([] & _ & H).
    apply bind_ok_inv in H as ([] & _ & H). apply bind_ok_inv in H as ([] & _ & H). injection H as <-. apply (Hput (set_admission_of (VStr a) x) eq_refl).
    intros e0 He0. assert (e0 = x) as -> by congruence. apply set_admission_continues.
Qed.

(** ** Runs *)

Module Runs.
Definition service_none (v : pyval) : result service := Raise ValueError.
Definition digest (v : pyval) : result string := Ok "d"%string.
Definition repr (v : pyval) : string := "".

Definition number_params (cap floor : pyval) : json :=
  [("start", VFloat fone); ("decay", VFloat fone); ("rounds_per_step", VInt 1); ("deadband", VInt 0); ("snap", VInt 0); ("floor", floor); ("cap", cap);
   ("median_rounds", VInt 3); ("last_good_fills", VInt 5); ("settlement", VStr "period-ema-v1")]%string.

Definition half : float := 2 ^ 1073.
Definition corpus : task_entry :=
  TaskEntry "books" "p" "d" MECHANISM_CORPUS_GENERATION (number_params (VFloat half) (VFloat half)) "active" VNone VNone (VDict [("b", VInt 1); ("a", VInt 2)]%string) None (Some "job-1"%string) VNone (VStr "open").
Definition rl : task_entry :=
  TaskEntry "default" "p" "d" MECHANISM_RL_DISCOVERED_PRICE (number_params (VFloat half) (VInt 0)) "active" VNone VNone VNone None None VNone (VStr "open").
Definition reg : registry := [("default"%string, rl); ("books"%string, corpus)].
Definition lower_to (cap : float) : cap_args := CapArgs (Some cap) None None None None None None None None None None None.

Lemma reg_valid : validate_registry service_none digest reg = Ok ().
Proof. vm_compute. reflexivity. Qed.
Lemma reg_unique : unique_keys reg.
Proof. split; [apply (bool_decide_unpack _); vm_compute; exact I|]. repeat (apply Forall_cons; split); try apply Forall_nil_2; apply (bool_decide_unpack _); vm_compute; exact I. Qed.
Lemma reg_keyed : keyed reg.
Proof. unfold keyed. repeat (apply Forall_cons; split); try apply Forall_nil_2; reflexivity. Qed.

Definition ceiling_after (k : string) : option float :=
  match set_cap service_none digest reg k (lower_to 0) with
  | Ok l => match find_task k l with Some e => match pay_ceiling (VDict (params e)) with Ok c => c | Raise _ => None end | None => None end
  | Raise _ => None
  end.
Lemma lowered_runs : (ceiling_after "books", ceiling_after "default") = (Some half, Some 0).
Proof. vm_compute. reflexivity. Qed.
Lemma lowered_ok : match set_cap service_none digest reg "books" (lower_to 0) with Ok _ => true | Raise _ => false end = true.
Proof. vm_compute. reflexivity. Qed.
End Runs.

Lemma registry_reads_back_witness : exists e, find_task "books" (canon Runs.reg) = Some e /\ dict_get "cap" (params e) = VFloat Runs.half /\ canon (canon Runs.reg) = canon Runs.reg.
Proof.
  destruct (registry_reads_back Runs.service_none Runs.digest Runs.repr Runs.reg Runs.reg_keyed Runs.reg_unique Runs.reg_valid) as (_ & _ & Hi & Hf & Hp).
  exists (canon_entry Runs.corpus). split_and!; [by rewrite Hf|by rewrite (Hp "books"%string Runs.corpus)|done].
Defined.

Lemma changes_keep_tasks_witness : exists l' e', set_cap Runs.service_none Runs.digest Runs.reg "books" (Runs.lower_to 0) = Ok l' /\
  find_task "books" l' = Some e' /\ job_id e' = Some "job-1"%string /\ find_task "default" l' = Some Runs.rl.
Proof.
  pose proof Runs.lowered_ok as H. destruct (set_cap _ _ _ _ _) as [l'|] eqn:E; [|discriminate].
  pose proof (changes_keep_tasks Runs.service_none Runs.digest Runs.reg l' "books" (or_intror (or_intror (or_intror (or_introl (ex_intro _ _ E)))))) as Hk.
  destruct (Hk "books"%string Runs.corpus eq_refl) as (e' & He' & Hc & _). destruct (Hk "default"%string Runs.rl eq_refl) as (e2 & He2 & _ & Hs).
  exists l', e'. split; [exact eq_refl|]. split; [exact He'|]. split; [exact (same_job _ _ Hc)|]. rewrite He2. f_equal. by apply Hs.
Defined.

(** The pay of a task of asynchronous training paid by period is cut when its cap is lowered:
    what its archives may be paid falls with the cap, which only a corpus task keeps. *)
Example lowered_rl_cap_cuts_pay :
  pay_ceiling (VDict (params Runs.rl)) = Ok (Some Runs.half) /\ settled_by_period (params Runs.rl) = true /\
  Runs.ceiling_after "default" = Some 0 /\ Runs.ceiling_after "books" = Some Runs.half.
Proof. pose proof Runs.lowered_runs as H. split_and!; [vm_compute; reflexivity|vm_compute; reflexivity|congruence|congruence]. Qed.
