(* ===== verification/RegistryStore.v ===== *)
(** * RegistryStore: the registry object and its writers

    Models [infrastructure/task_registry_store.py]: the registry and the admissions as two
    objects of a bucket, read and conditionally written by any number of operators at once, and
    the loop that reads, applies a change and writes it back.

    A method is a program that asks the bucket ([prog]); the bucket answers one request at a
    time, so an interleaving of methods is a sequence of answers.  A write can fail, also after
    it landed, and its answer can be a conflict after it landed, as when a client retries it.
    The ETag of a version is a parameter, which tells apart objects that differ.  The bytes of an
    object are its document with its keys in order; [json_size] is their length, a parameter. *)

From S2P Require Import Prelude PyFloat Cooldown SignerJournal Periods TokenAuction TaskRegistry.

#[local] Open Scope Z_scope.

(** ** Requests *)

Inductive object := RegistryObject | AdmissionObject.
Inductive request (tag : Type) := Get (o : object) | Put (o : object) (body : pyval) (condition : option tag).
Arguments Get {_} _.
Arguments Put {_} _ _ _.

(** [Conflicted]: a code of [_CONFLICT_CODES]; [Failed]: any other error of the client. *)
Inductive answer (tag : Type) := Found (body : pyval) (etag : tag) | Absent | Stored | Conflicted | Failed.
Arguments Found {_} _ _.
Arguments Absent {_}.
Arguments Stored {_}.
Arguments Conflicted {_}.
Arguments Failed {_}.

Inductive prog (tag A : Type) := Ret (r : result A) | Ask (q : request tag) (k : answer tag -> prog tag A).
Arguments Ret {_ _} _.
Arguments Ask {_ _} _ _.

Fixpoint bind {tag A B} (m : prog tag A) (f : A -> prog tag B) : prog tag B :=
  match m with
  | Ret (Ok a) => f a
  | Ret (Raise e) => Ret (Raise e)
  | Ask q k => Ask q (fun a => bind (k a) f)
  end.

(** The statements [x <- m; ...] of a program, and the value of a pure call. *)
Notation "x <~ m ; k" := (bind m (fun x => k)) (at level 100, m at next level, k at level 200, right associativity).
Definition call {tag A} (r : result A) : prog tag A := Ret r.

Definition ADMISSION_SCHEMA : string := "reliquary/task-admission/v1".
Definition ADMISSION_MAX_BYTES : Z := 2 ^ 20.
Definition ADMISSION_MAX_TASKS : Z := 4096.

Section store.
Context {tag : Type} (service_of : pyval -> result service) (canonical_sha256 : pyval -> result string) (repr_of : pyval -> string) (json_size : pyval -> Z).
Local Notation prog := (prog tag).
Local Notation validate_registry := (validate_registry service_of canonical_sha256).
Local Notation parse_registry := (parse_registry service_of canonical_sha256 repr_of).

(** ** Admissions *)

Definition same_names (d : json) (names : list string) : bool :=
  forallb (fun kv => bool_decide (kv.1 ∈ names)) d && forallb (fun n => has n d) names.

Definition hex_char (c : ascii) : bool :=
  let n := Z.of_nat (nat_of_ascii c) in ((48 <=? n) && (n <=? 57)) || ((97 <=? n) && (n <=? 102)).
Definition sha_text (s : string) : bool := (String.length s =? 64)%nat && forallb hex_char (String.list_ascii_of_string s).

Definition binding_ok (value : pyval) : bool :=
  match value with
  | VDict d =>
      same_names d ["job_id"; "profile_sha256"; "admission"]%string &&
      match dict_get "job_id" d, dict_get "profile_sha256" d, dict_get "admission" d with
      | VStr j, VStr p, VStr a => negb (String.eqb j "") && sha_text p && (String.eqb a "open" || String.eqb a "paused")
      | _, _, _ => false
      end
  | _ => false
  end.

Definition check_binding (kv : string * pyval) : result unit :=
  id ← normalise_task_id kv.1; ensure (String.eqb id kv.1 && binding_ok kv.2).

Definition parse_admissions (document : pyval) : result json :=
  _ ← ensure (json_size document <=? ADMISSION_MAX_BYTES);
  match document with
  | VDict d =>
      match dict_get "tasks" d with
      | VDict tasks =>
          _ ← ensure (same_names d ["schema"; "tasks"]%string && str_eq (dict_get "schema" d) (VStr ADMISSION_SCHEMA)
                      && (Z.of_nat (length tasks) <=? ADMISSION_MAX_TASKS));
          _ ← fold_result (fun _ kv => check_binding kv) tt tasks;
          Ok tasks
      | _ => Raise ValueError
      end
  | _ => Raise ValueError
  end.

Definition read_admissions : prog (json * option tag) :=
  Ask (Get AdmissionObject) (fun a =>
    match a with
    | Found body etag => call (tasks ← parse_admissions body; Ok (tasks, Some etag))
    | Absent => call (Ok ([], None))
    | _ => call (Raise ClientError)
    end).

Definition job_value (e : task_entry) : pyval := match job_id e with Some j => VStr j | None => VNone end.
Definition admission_binding (e : task_entry) (admission : string) : json :=
  [("job_id", job_value e); ("profile_sha256", VStr (profile_sha256 e)); ("admission", VStr admission)]%string.
(** [value == _admission_binding(entry, admission)] *)
Definition is_binding (value : pyval) (e : task_entry) (admission : pyval) : bool :=
  match value with
  | VDict d =>
      same_names d ["job_id"; "profile_sha256"; "admission"]%string && str_eq (dict_get "job_id" d) (job_value e)
      && str_eq (dict_get "profile_sha256" d) (VStr (profile_sha256 e)) && str_eq (dict_get "admission" d) admission
  | _ => false
  end.

Definition overlay_entry (tasks : json) (ke : string * task_entry) : string * task_entry :=
  let '(k, e) := ke in
  (k, match dict_get k tasks with
      | VDict d =>
          if String.eqb (mechanism e) MECHANISM_CORPUS_GENERATION && is_binding (VDict d) e (dict_get "admission" d)
          then set_admission_of (dict_get "admission" d) e else e
      | _ => e
      end).
Definition overlay_admissions (l : registry) (tasks : json) : registry := overlay_entry tasks <$> l.

(** A lost write is [false]. *)
Definition write_admissions (tasks : json) (etag : option tag) : prog bool :=
  let body := sort_keys (VDict [("schema", VStr ADMISSION_SCHEMA); ("tasks", VDict tasks)]%string) in
  _ <~ call (ensure (Z.of_nat (length tasks) <=? ADMISSION_MAX_TASKS));
  _ <~ call (ensure (json_size body <=? ADMISSION_MAX_BYTES));
  Ask (Put AdmissionObject body etag) (fun a => match a with Stored => call (Ok true) | Conflicted => call (Ok false) | _ => call (Raise ClientError) end).

(** ** The registry *)

Definition read_registry (strict : bool) : prog (registry * option tag) :=
  Ask (Get RegistryObject) (fun a =>
    match a with
    | Found body etag =>
        entries <~ call (parse_registry body strict);
        if existsb (fun ke => String.eqb (mechanism ke.2) MECHANISM_CORPUS_GENERATION) entries then
          read <~ read_admissions;
          call (Ok (overlay_admissions entries read.1, Some etag))
        else call (Ok (entries, Some etag))
    | Absent => call (Ok ([], None))
    | _ => call (Raise ClientError)
    end).

Definition write_registry (l : registry) (etag : option tag) : prog bool :=
  _ <~ call (validate_registry l);
  Ask (Put RegistryObject (stored l) etag) (fun a => match a with Stored => call (Ok true) | Conflicted => call (Ok false) | _ => call (Raise ClientError) end).

Fixpoint mutate (change : registry -> result registry) (attempts : nat) : prog unit :=
  match attempts with
  | O => call (Raise RuntimeError)
  | S n =>
      read <~ read_registry true;
      updated <~ call (change read.1);
      written <~ write_registry updated read.2;
      if (written : bool) then call (Ok ()) else mutate change n
  end.

(** The guard of a caller, which sees both registries. *)
Definition guard : Type := option (registry -> registry -> result unit).
Definition guarded (before updated : registry) (g : guard) : result registry :=
  match g with None => Ok updated | Some f => _ ← f before updated; Ok updated end.

Inductive change :=
  | CreateTask (e : task_entry) (g : guard)
  | RetireTask (k : string) (at_ : pyval)
  | ReleaseCap (k : string)
  | SetCap (k : string) (a : cap_args) (g : guard).

(** What each writer hands to [_mutate]. *)
Definition apply_change (c : change) (l : registry) : result registry :=
  match c with
  | CreateTask e g =>
      _ ← require_default_declared_first l e;
      updated ← add_task service_of canonical_sha256 l e;
      guarded l updated g
  | RetireTask k at_ => retire_task l k at_
  | ReleaseCap k => release_cap l k
  | SetCap k a g => updated ← set_cap service_of canonical_sha256 l k a; guarded l updated g
  end.

Fixpoint set_task_admission (k : string) (admission : string) (attempts : nat) : prog unit :=
  match attempts with
  | O => call (Raise RuntimeError)
  | S n =>
      read <~ read_registry true;
      updated <~ call (set_admission service_of canonical_sha256 read.1 k admission);
      match find_task k updated with
      | None => call (Raise KeyError)
      | Some e =>
          adm <~ read_admissions;
          let desired := admission_binding e admission in
          let check :=
            current <~ read_registry true;
            match find_task k current.1 with
            | None => call (Raise ValueError)
            | Some observed =>
                if negb (String.eqb (status observed) "active") then call (Raise ValueError)
                else if negb (is_binding (VDict desired) observed (VStr admission)) then call (Raise RuntimeError)
                else if negb (str_eq (TaskRegistry.admission observed) (VStr admission)) then set_task_admission k admission n
                else call (Ok ())
            end in
          if is_binding (dict_get k adm.1) e (VStr admission) then check
          else
            written <~ write_admissions (dict_set k (VDict desired) adm.1) adm.2;
            if (written : bool) then check else set_task_admission k admission n
      end
  end.

(** A method of the store, run by an operator or a validator. *)
Inductive method_of : Type :=
  | Mutate (c : change) (attempts : nat)
  | SetTaskAdmission (k : string) (admission : string) (attempts : nat)
  | ReadRegistry (strict : bool).
Definition start (m : method_of) : prog unit :=
  match m with
  | Mutate c attempts => mutate (apply_change c) attempts
  | SetTaskAdmission k admission attempts => set_task_admission k admission attempts
  | ReadRegistry strict => _ <~ read_registry strict; call (Ok ())
  end.

(** ** The bucket *)

(** Every version of each object, the newest last. *)
Record bucket := Bucket { versions : list pyval; admission_versions : list pyval }.
Definition object_of (o : object) (b : bucket) : list pyval := match o with RegistryObject => versions b | AdmissionObject => admission_versions b end.
Definition put (o : object) (body : pyval) (b : bucket) : bucket :=
  match o with
  | RegistryObject => Bucket (versions b ++ [body]) (admission_versions b)
  | AdmissionObject => Bucket (versions b) (admission_versions b ++ [body])
  end.

(** The ETag of the [n]-th version of an object. *)
Context (etag_of : nat -> pyval -> tag).

Definition current (l : list pyval) (t : option tag) : Prop :=
  match t with None => l = [] | Some t => exists body, last l = Some body /\ t = etag_of (pred (length l)) body end.

Inductive answers (b : bucket) : request tag -> answer tag -> bucket -> Prop :=
  | get_found o body : last (object_of o b) = Some body -> answers b (Get o) (Found body (etag_of (pred (length (object_of o b))) body)) b
  | get_absent o : object_of o b = [] -> answers b (Get o) Absent b
  | get_fails o : answers b (Get o) Failed b
  | put_lands o body t a : current (object_of o b) t -> a = Stored \/ a = Conflicted \/ a = Failed -> answers b (Put o body t) a (put o body b)
  | put_lost o body t a : a = Conflicted \/ a = Failed -> answers b (Put o body t) a b.

(** A dict holds each key once. *)
Definition change_ok (c : change) : Prop := match c with CreateTask e _ => NoDup (params e).*1 | _ => True end.
Definition method_ok (m : method_of) : Prop := match m with Mutate c _ => change_ok c | _ => True end.

Record world := World { bkt : bucket; running : list (prog unit) }.
Inductive step (w : world) : world -> Prop :=
  | step_start m : method_ok m -> step w (World (bkt w) (running w ++ [start m]))
  | step_answer i q k a b : running w !! i = Some (Ask q k) -> answers (bkt w) q a b -> step w (World b (<[i := k a]> (running w))).
Definition reachable : world -> Prop := rtc step (World (Bucket [] []) []).
End store.

(** ** Programs that write what they read, changed *)

Section writers.
Context {tag : Type} (service_of : pyval -> result service) (canonical_sha256 : pyval -> result string) (repr_of : pyval -> string) (json_size : pyval -> Z).
Context (etag_of : nat -> pyval -> tag).
Local Notation prog := (prog tag).
Local Notation validate_registry := (validate_registry service_of canonical_sha256).
Local Notation parse_registry := (parse_registry service_of canonical_sha256 repr_of).
Local Notation apply_change := (apply_change service_of canonical_sha256).
Implicit Types h : list pyval.

(** A registry read of a version, the admissions laid over it. *)
Definition read_of (d : pyval) (base : registry) : Prop := exists e tasks, parse_registry d true = Ok e /\ base = overlay_admissions e tasks.

(** The registry [base] under the condition it is written back with. *)
Definition read_under h (base : registry) (t : option tag) : Prop :=
  match t with None => base = [] | Some t => exists n d, h !! n = Some d /\ t = etag_of n d /\ read_of d base end.

(** What [_mutate] writes. *)
Definition change_of (base : registry) (body : pyval) : Prop :=
  exists c updated, change_ok c /\ apply_change c base = Ok updated /\ validate_registry updated = Ok () /\ body = stored updated.
Definition writes h (o : object) (body : pyval) (t : option tag) : Prop :=
  match o with RegistryObject => exists base, read_under h base t /\ change_of base body | AdmissionObject => True end.

Definition request_ok h (q : request tag) : Prop := match q with Put o body t => writes h o body t | Get _ => True end.
Definition told h (q : request tag) (a : answer tag) : Prop :=
  match q, a with Get RegistryObject, Found body t => exists n, h !! n = Some body /\ t = etag_of n body | _, _ => True end.

(** The program only makes such writes, whatever it is told, and what it returns satisfies [Q]. *)
Fixpoint wp {A} (m : prog A) (h : list pyval) (Q : list pyval -> A -> Prop) : Prop :=
  match m with
  | Ret (Ok a) => Q h a
  | Ret (Raise _) => True
  | Ask q k => request_ok h q /\ forall h' a, h `prefix_of` h' -> told h' q a -> wp (k a) h' Q
  end.

Lemma wp_bind_prog {A B} (m : prog A) (f : A -> prog B) h Q : wp m h (fun h' a => wp (f a) h' Q) -> wp (bind m f) h Q.
Proof.
  revert h. induction m as [[a|e]|q k IH]; intros h; cbn; [done|done|]. intros [Hq Hk]. split; [done|]. intros h' a Hh Ha. by apply IH, Hk.
Qed.

Lemma wp_mono {A} (m : prog A) h (P Q : list pyval -> A -> Prop) : (forall h' a, P h' a -> Q h' a) -> wp m h P -> wp m h Q.
Proof.
  intros HPQ. revert h. induction m as [[a|e]|q k IH]; intros h; cbn; [apply HPQ|done|]. intros [Hq Hk]. split; [done|]. intros h' a Hh Ha. by apply IH, Hk.
Qed.

Lemma wp_call_prog {A} (r : result A) h (Q : list pyval -> A -> Prop) : (forall a, r = Ok a -> Q h a) -> wp (call r) h Q.
Proof. intros H. destruct r; cbn; [by apply H|done]. Qed.

Lemma read_under_prefix h h' base t : h `prefix_of` h' -> read_under h base t -> read_under h' base t.
Proof. intros Hh. destruct t as [t|]; cbn; [|done]. intros (n & d & Hn & Ht & Hr). exists n, d. split_and!; [by eapply prefix_lookup_Some|done|done]. Qed.

Lemma writes_prefix h h' o body t : h `prefix_of` h' -> writes h o body t -> writes h' o body t.
Proof. intros Hh. destruct o; cbn; [|done]. intros (base & Hr & Hc). exists base. split; [by eapply read_under_prefix|done]. Qed.

Lemma wp_prefix {A} (m : prog A) h h' : h `prefix_of` h' -> wp m h (fun _ _ => True) -> wp m h' (fun _ _ => True).
Proof.
  intros Hh. destruct m as [[a|e]|q k]; cbn; [done|done|]. intros [Hq Hk]. split.
  - destruct q as [o|o body t]; cbn in *; [done|]. by eapply writes_prefix.
  - intros h'' a Hh' Ha. apply Hk; [by etrans|done].
Qed.

Lemma overlay_nil (l : registry) : overlay_admissions l [] = l.
Proof. unfold overlay_admissions. rewrite <- (list_fmap_id l) at 2. apply list_fmap_ext. by intros _ [k e] _. Qed.

Lemma wp_read_admissions h (Q : list pyval -> json * option tag -> Prop) : (forall h' r, h `prefix_of` h' -> Q h' r) -> wp (read_admissions json_size) h Q.
Proof.
  intros HQ. cbn. split; [done|]. intros h' a Hh _. destruct a; try apply wp_call_prog; try (intros r _; by apply HQ).
Qed.

Lemma wp_write_admissions tasks t h (Q : list pyval -> bool -> Prop) : (forall h' r, h `prefix_of` h' -> Q h' r) -> wp (write_admissions json_size tasks t) h Q.
Proof.
  intros HQ. unfold write_admissions. apply wp_bind_prog, wp_call_prog. intros [] _. apply wp_bind_prog, wp_call_prog. intros [] _. cbn. split; [done|].
  intros h' a Hh _. destruct a; apply wp_call_prog; intros r _; by apply HQ.
Qed.

Lemma wp_read_registry strict h (Q : list pyval -> registry * option tag -> Prop) :
  (forall h' l t, h `prefix_of` h' -> (strict = true -> read_under h' l t) -> Q h' (l, t)) -> wp (read_registry service_of canonical_sha256 repr_of json_size strict) h Q.
Proof.
  intros HQ. unfold read_registry. cbn [wp request_ok]. split; [done|]. intros h' a Hh Ha. destruct a as [body t| | | |].
  - destruct Ha as (n & Hn & ->). apply wp_bind_prog, wp_call_prog. intros e He. destruct (existsb _ e).
    + apply wp_bind_prog, wp_read_admissions. intros h2 [tasks t2] Hh2. apply HQ; [by etrans|]. intros ->. exists n, body.
      split_and!; [by eapply prefix_lookup_Some|done|by exists e, tasks].
    + apply HQ; [done|]. intros ->. exists n, body. split_and!; [done|done|exists e, []; by rewrite overlay_nil].
  - apply HQ; done.
  - done.
  - done.
  - done.
Qed.

Lemma wp_mutate c n h : change_ok c -> wp (mutate service_of canonical_sha256 repr_of json_size (apply_change c) n) h (fun _ _ => True).
Proof.
  intros Hc. revert h. induction n as [|n IH]; intros h; [done|]. cbn [mutate]. apply wp_bind_prog, wp_read_registry. intros h1 l t _ Hr. apply wp_bind_prog, wp_call_prog. intros u Hu.
  apply wp_bind_prog. unfold write_registry. apply wp_bind_prog, wp_call_prog. intros [] Hv. cbn [wp request_ok]. split.
  - exists l. split; [by apply Hr|by exists c, u].
  - intros h2 ans _ _. destruct ans; try done. cbn. apply IH.
Qed.

Lemma wp_set_task_admission k adm n h : wp (set_task_admission service_of canonical_sha256 repr_of json_size k adm n) h (fun _ _ => True).
Proof.
  revert h. induction n as [|n IH]; intros h; [done|]. cbn [set_task_admission]. apply wp_bind_prog, wp_read_registry. intros h1 l t _ _. apply wp_bind_prog, wp_call_prog. intros u _.
  destruct (find_task k u) as [e|]; [|done]. apply wp_bind_prog, wp_read_admissions. intros h2 [tasks t2] _. cbv zeta.
  match goal with |- context [if _ then ?c else _] => set (check := c) end.
  assert (forall h, wp check h (fun _ _ => True)) as Hcheck.
  { intros h3. apply wp_bind_prog, wp_read_registry. intros h4 l' t' _ _. cbn [fst]. destruct (find_task k l') as [o|]; [|done]. destruct (negb _); [done|]. destruct (negb _); [done|].
    destruct (negb _); [apply IH|done]. }
  destruct (is_binding _ _ _); [apply Hcheck|]. apply wp_bind_prog, wp_write_admissions. intros h3 [] _; [apply Hcheck|apply IH].
Qed.

Lemma wp_start m h : method_ok m -> wp (start service_of canonical_sha256 repr_of json_size m) h (fun _ _ => True).
Proof.
  destruct m as [c n|k adm n|strict]; intros Hm; [by apply wp_mutate|apply wp_set_task_admission|]. apply wp_bind_prog, wp_read_registry. intros; done.
Qed.
End writers.

(** ** The versions of the registry *)

Lemma overlay_keys (l : registry) tasks : (overlay_admissions l tasks).*1 = l.*1.
Proof. unfold overlay_admissions. rewrite <- list_fmap_compose. apply list_fmap_ext. by intros _ [k e] _. Qed.

Lemma overlay_entry_continues tasks ke : (overlay_entry tasks ke).1 = ke.1 /\ continues ke.2 (overlay_entry tasks ke).2 /\ params (overlay_entry tasks ke).2 = params ke.2.
Proof.
  destruct ke as [k e]. cbn. split; [done|]. destruct (dict_get k tasks); try (split; [apply continues_refl|done]).
  destruct (_ && _); [split; [apply set_admission_continues|done]|split; [apply continues_refl|done]].
Qed.

Lemma overlay_find (l : registry) tasks k e : find_task k l = Some e -> exists e', find_task k (overlay_admissions l tasks) = Some e' /\ continues e e'.
Proof.
  induction l as [|[x e0] l IH]; [done|]. pose proof (overlay_entry_continues tasks (x, e0)) as (E & Hc & _). unfold overlay_admissions. cbn [fmap list_fmap find_task].
  destruct (overlay_entry tasks (x, e0)) as [x' e1]. cbn [fst snd] in E, Hc. subst x'. destruct (String.eqb x k); [intros [= <-]; by exists e1|]. apply IH.
Qed.

Lemma overlay_ok (l : registry) tasks : keyed l -> unique_keys l -> keyed (overlay_admissions l tasks) /\ unique_keys (overlay_admissions l tasks).
Proof.
  intros Hk [Hn Hp]. split; [|split; [by rewrite overlay_keys|]]; apply Forall_fmap.
  - eapply Forall_impl; [exact Hk|]. intros ke E. destruct (overlay_entry_continues tasks ke) as (E1 & Hc & _). cbn. by rewrite (same_id _ _ Hc), E, E1.
  - eapply Forall_impl; [exact Hp|]. intros ke E. destruct (overlay_entry_continues tasks ke) as (_ & _ & E1). cbn. by rewrite E1.
Qed.

Lemma canon_continues e : NoDup (params e).*1 -> continues e (canon_entry e).
Proof.
  intros Hn. assert (forall k, dict_get k (sorted_json (params e)) = sort_keys (dict_get k (params e))) as Hg by (intros k; by apply dict_get_sorted).
  split; try done; try (split_and!; apply sort_keys_idem).
  - unfold corpus_by_period, settled_by_period, is_period_task. cbn [canon_entry mechanism params]. rewrite Hg. by destruct (dict_get "settlement" (params e)).
  - intros _ c (c0 & Hc & H)%ceiling_inv. cbn [canon_entry params].
    assert (to_float (dict_get "cap" (sorted_json (params e))) = Ok c0) as Hc' by (rewrite Hg; by destruct (dict_get "cap" (params e))).
    pose proof (Hg "tail_cap"%string) as Ht. exists c. split; [|lia]. destruct (dict_get "tail_cap" (params e)) eqn:E.
    { rewrite (ceiling_eq _ c0 0 Hc'), Ht; [by subst c|by left]. }
    all: destruct H as (t & Hto & ->); rewrite (ceiling_eq _ c0 t Hc'); [by rewrite Ht|right; rewrite Ht; by destruct (dict_get "tail_cap" (params e))].
Qed.

Section versions.
Context {tag : Type} (service_of : pyval -> result service) (canonical_sha256 : pyval -> result string) (repr_of : pyval -> string) (json_size : pyval -> Z).
Context (etag_of : nat -> pyval -> tag).
(** An ETag tells apart objects that differ. *)
Context (etag_body : forall n m b c, etag_of n b = etag_of m c -> b = c).
Local Notation validate_registry := (validate_registry service_of canonical_sha256).
Local Notation parse_registry := (parse_registry service_of canonical_sha256 repr_of).
Local Notation apply_change := (apply_change service_of canonical_sha256).
Local Notation change_of := (change_of service_of canonical_sha256).
Local Notation read_of := (read_of service_of canonical_sha256 repr_of).
Local Notation wp := (wp service_of canonical_sha256 repr_of etag_of).
Local Notation step := (step service_of canonical_sha256 repr_of json_size etag_of).
Local Notation reachable := (reachable service_of canonical_sha256 repr_of json_size etag_of).

(** The registry a version was made from. *)
Definition base_of (before : list pyval) (base : registry) : Prop := match last before with None => base = [] | Some d => read_of d base end.

(** Each version is a change of the one before. *)
Definition chain (vs : list pyval) : Prop := forall n d, vs !! n = Some d -> exists base, base_of (take n vs) base /\ change_of base d.

Record inv (w : world) : Prop := {
  inv_chain : chain (versions (bkt w));
  inv_progs : forall i p, running w !! i = Some p -> wp p (versions (bkt w)) (fun _ _ => True) }.

Lemma chain_snoc vs d base : chain vs -> base_of vs base -> change_of base d -> chain (vs ++ [d]).
Proof.
  intros Hc Hb Hd n x Hx. apply lookup_app_Some in Hx as [Hx|[Hn Hx]].
  - destruct (Hc n x Hx) as (b & Hb' & Hd'). exists b. split; [|done]. rewrite take_app_le; [done|]. apply lookup_lt_Some in Hx. lia.
  - apply list_lookup_singleton_Some in Hx as [E <-]. exists base. split; [|done]. replace n with (length vs) by lia. by rewrite take_app_length.
Qed.

Lemma answers_told b q a b' : answers etag_of b q a b' -> told etag_of (versions b) q a.
Proof.
  intros []; try done; try (by destruct o).
  destruct o; [|done]. cbn. exists (pred (length (versions b))). split; [|done]. by rewrite <- last_lookup.
Qed.

Lemma answers_versions b q a b' : answers etag_of b q a b' ->
  versions b' = versions b \/ exists body t, q = Put RegistryObject body t /\ current etag_of (versions b) t /\ versions b' = versions b ++ [body].
Proof. intros []; try by left. destruct o; [right; cbn; eauto|by left]. Qed.

Lemma store_step_inv w w' : inv w -> step w w' -> inv w'.
Proof.
  intros [Hc Hp] [m Hm|i q k a b Hi Ha].
  - split; [exact Hc|]. cbn. intros i p Hi. apply lookup_app_Some in Hi as [Hi|[_ Hi]]; [by eapply Hp|]. apply list_lookup_singleton_Some in Hi as [_ <-]. by apply wp_start.
  - pose proof (Hp i _ Hi) as Hw. cbn in Hw. destruct Hw as [Hq Hk]. pose proof (answers_told _ _ _ _ Ha) as Ht.
    assert (chain (versions b) /\ versions (bkt w) `prefix_of` versions b) as [Hc' Hpre].
    { apply answers_versions in Ha as [->|(body & t & -> & Hcur & ->)]; [done|]. split; [|by eexists]. destruct Hq as (base & Hr & Hch).
      apply (chain_snoc _ _ base); [done| |done]. unfold base_of. destruct t as [t|]; cbn in Hr, Hcur; [|by rewrite Hcur].
      destruct Hcur as (cur & -> & Ht1). destruct Hr as (n & d & _ & Ht2 & Hr). rewrite Ht1 in Ht2. apply etag_body in Ht2 as ->. exact Hr. }
    split; [done|]. cbn. intros j p Hj. destruct (decide (i = j)) as [<-|Hne].
    + rewrite list_lookup_insert_eq in Hj by (by eapply lookup_lt_Some). injection Hj as <-. eapply wp_prefix; [exact Hpre|]. apply Hk; [done|done].
    + rewrite list_lookup_insert_ne in Hj by done. eapply wp_prefix; [exact Hpre|]. by eapply Hp.
Qed.

Lemma store_reachable_inv w : reachable w -> inv w.
Proof. apply rtc_invariant; [intros a b; apply store_step_inv|]. split; [by intros n d|by intros i p]. Qed.

(** What a version is. *)
Definition version_ok (d : pyval) (l : registry) : Prop := d = stored l /\ keyed l /\ unique_keys l /\ validate_registry l = Ok ().

Lemma version_plain l : validate_registry l = Ok () -> Forall (fun ke => plain ke.2) l.
Proof. intros [Hf _]%validate_registry_ok. eapply Forall_impl; [exact Hf|]. intros ke H. eapply validate_entry_plain. exact H. Qed.

Lemma read_version d l base : version_ok d l -> read_of d base -> keyed base /\ unique_keys base /\
  forall k e, find_task k l = Some e -> exists e', find_task k base = Some e' /\ continues e e'.
Proof.
  intros (-> & Hk & Hu & Hv) (e & tasks & Hp & ->). rewrite (parse_stored _ _ _ l true (version_plain l Hv) Hk Hu) in Hp. apply bind_ok_inv in Hp as (? & _ & [= <-]).
  destruct (overlay_ok (canon l) tasks (canon_keyed l Hk) (canon_unique l Hu)) as [Hk' Hu']. split_and!; [done|done|]. intros k e He.
  assert (find_task k (canon l) = Some (canon_entry e)) as Hf by (by rewrite (find_task_canon k l (proj1 Hu)), He).
  destruct (overlay_find _ tasks k _ Hf) as (e' & He' & Hc). exists e'. split; [done|]. eapply continues_trans; [|exact Hc]. apply canon_continues. exact (unique_find k e l Hu He).
Qed.

Lemma replaced_keeps l k l' : replaced l k l' -> keyed l -> unique_keys l -> keyed l' /\ unique_keys l'.
Proof.
  intros (e & e' & He & -> & Hc & Hn) Hk Hu. split; [apply put_keyed; [done|]|apply put_unique; [done|]].
  - rewrite (same_id _ _ Hc). by eapply keyed_find.
  - apply Hn. exact (unique_find k e l Hu He).
Qed.

Lemma change_spec c l l' : change_ok c -> apply_change c l = Ok l' -> keyed l -> unique_keys l ->
  keyed l' /\ unique_keys l' /\ forall k e, find_task k l = Some e -> exists e', find_task k l' = Some e' /\ continues e e'.
Proof.
  intros Hok H Hk Hu.
  assert (forall k0, l' = l \/ replaced l k0 l' -> keyed l' /\ unique_keys l' /\ forall k e, find_task k l = Some e -> exists e', find_task k l' = Some e' /\ continues e e') as Hrep.
  { intros k0 [->|Hr].
    - split_and!; [done|done|]. intros k e He. exists e. split; [done|apply continues_refl].
    - destruct (replaced_keeps _ _ _ Hr Hk Hu). split_and!; [done|done|]. destruct Hr as (e0 & x & He0 & -> & Hc & _). intros k e He.
      destruct (decide (k = k0)) as [->|Hne]; [exists x; rewrite find_put_eq; split; [done|]; by assert (e = e0) as -> by congruence|].
      exists e. rewrite find_put_ne by done. split; [done|apply continues_refl]. }
  assert (forall g u, guarded l u g = Ok l' -> u = l') as Hg.
  { intros [f|] u; cbn; [|by intros [= ->]]. destruct (f l u); cbn; [by intros [= ->]|done]. }
  destruct c as [e g|k at_|k|k a g]; cbn in H, Hok.
  - apply bind_ok_inv in H as ([] & _ & H). apply bind_ok_inv in H as (u & Ha & H). apply Hg in H as ->. apply add_task_spec in Ha as (Hn & -> & _).
    split_and!; [by apply put_keyed|by apply put_unique|]. intros k0 e0 He0. exists e0. split; [|apply continues_refl]. rewrite find_put_ne; [done|]. intros ->. congruence.
  - apply (Hrep k). right. by eapply retire_task_replaces.
  - apply (Hrep k). by apply release_cap_replaces.
  - apply bind_ok_inv in H as (u & Ha & H). apply Hg in H as ->. apply set_cap_replaces in Ha as [Ha _]. apply (Hrep k). by right.
Qed.

Lemma change_of_spec base d : keyed base -> unique_keys base -> change_of base d ->
  exists l, version_ok d l /\ forall k e, find_task k base = Some e -> exists e', find_task k l = Some e' /\ continues e e'.
Proof.
  intros Hk Hu (c & l & Hok & Ha & Hv & ->). destruct (change_spec c base l Hok Ha Hk Hu) as (Hk' & Hu' & Hc). exists l. split; [|done]. done.
Qed.

Lemma chain_versions vs : chain vs -> forall n d, vs !! n = Some d -> exists l, version_ok d l.
Proof.
  intros Hc n. induction n as [n IH] using lt_wf_ind. intros d Hd. destruct (Hc n d Hd) as (base & Hb & Hch). unfold base_of in Hb.
  assert (keyed base /\ unique_keys base) as [Hk Hu].
  { destruct (last (take n vs)) as [d0|] eqn:El; [|subst base; split; [apply Forall_nil_2|split; [apply NoDup_nil_2|apply Forall_nil_2]]].
    rewrite last_lookup in El. apply lookup_lt_Some in Hd as Hlt. rewrite length_take, lookup_take_Some in El. destruct El as [E Hlt2].
    destruct (IH _ Hlt2 d0 E) as (l0 & Hl0). destruct (read_version _ _ _ Hl0 Hb) as (? & ? & _). done. }
  destruct (change_of_spec base d Hk Hu Hch) as (l & Hl & _). by exists l.
Qed.

(** From a version to the next. *)
Lemma chain_next vs n d d' l : chain vs -> vs !! n = Some d -> vs !! S n = Some d' -> version_ok d l ->
  exists l', version_ok d' l' /\ forall k e, find_task k l = Some e -> exists e', find_task k l' = Some e' /\ continues e e'.
Proof.
  intros Hc Hn Hs Hl. destruct (Hc _ _ Hs) as (base & Hb & Hch). unfold base_of in Hb. rewrite (take_S_r _ _ _ Hn), last_snoc in Hb.
  destruct (read_version _ _ _ Hl Hb) as (Hk & Hu & H1). destruct (change_of_spec base d' Hk Hu Hch) as (l' & Hl' & H2). exists l'. split; [done|].
  intros k e He. destruct (H1 k e He) as (e1 & He1 & Hc1). destruct (H2 k e1 He1) as (e2 & He2 & Hc2). exists e2. split; [done|by eapply continues_trans].
Qed.

Lemma chain_later vs i j d d' l : chain vs -> (i <= j)%nat -> vs !! i = Some d -> vs !! j = Some d' -> version_ok d l ->
  exists l', version_ok d' l' /\ forall k e, find_task k l = Some e -> exists e', find_task k l' = Some e' /\ continues e e'.
Proof.
  intros Hc Hij Hi. revert d'. induction Hij as [|j Hij IH]; intros d' Hj Hl.
  - assert (d' = d) as -> by congruence. exists l. split; [done|]. intros k e He. exists e. split; [done|apply continues_refl].
  - destruct (lookup_lt_is_Some_2 vs j) as [dj Hdj]; [apply lookup_lt_Some in Hj; lia|]. destruct (IH dj Hdj Hl) as (l1 & Hl1 & H1).
    destruct (chain_next _ _ _ _ _ Hc Hdj Hj Hl1) as (l2 & Hl2 & H2). exists l2. split; [done|]. intros k e He.
    destruct (H1 k e He) as (e1 & He1 & Hc1). destruct (H2 k e1 He1) as (e2 & He2 & Hc2). exists e2. split; [done|by eapply continues_trans].
Qed.
End versions.

(** ** A writer alone *)

Section alone.
Context {tag : Type} (service_of : pyval -> result service) (canonical_sha256 : pyval -> result string) (repr_of : pyval -> string) (json_size : pyval -> Z).
Context (etag_of : nat -> pyval -> tag).
Local Notation apply_change := (apply_change service_of canonical_sha256).
Local Notation mutate := (mutate service_of canonical_sha256 repr_of json_size).
Local Notation read_registry := (read_registry (tag := tag) service_of canonical_sha256 repr_of json_size).

(** A program served by a bucket that answers everything, with nobody else writing: a condition
    it was given by its last read holds. *)
Definition serve (q : request tag) (b : bucket) : answer tag * bucket :=
  match q with
  | Get o => (match last (object_of o b) with Some body => Found body (etag_of (pred (length (object_of o b))) body) | None => Absent end, b)
  | Put o body _ => (Stored, put o body b)
  end.
Fixpoint run {A} (m : prog tag A) (b : bucket) : result A * bucket :=
  match m with Ret r => (r, b) | Ask q k => let '(a, b') := serve q b in run (k a) b' end.

Lemma run_bind {A B} (m : prog tag A) (f : A -> prog tag B) b :
  run (bind m f) b = match run m b with (Ok a, b') => run (f a) b' | (Raise e, b') => (Raise e, b') end.
Proof. revert b. induction m as [[a|e]|q k IH]; intros b; cbn; [done|done|]. destruct (serve q b) as [a b']. apply IH. Qed.

Lemma run_read strict b : (run (read_registry strict) b).2 = b.
Proof.
  unfold RegistryStore.read_registry. cbn [run serve object_of]. destruct (last (versions b)) as [body|]; [|done]. rewrite run_bind. cbn [call run].
  destruct (parse_registry _ _ _ _ _) as [e|]; [|done]. destruct (existsb _ e); [|done]. rewrite run_bind. unfold read_admissions. cbn [run serve object_of].
  destruct (last (admission_versions b)) as [t|]; [|done]. cbn [call run]. by destruct (parse_admissions json_size t).
Qed.
End alone.

(** ** Claims *)

(** C5: the registry never promises more than the pool.  However many operators declare, retire,
    release and change tasks at once, whatever requests fail, land unanswered or lose their race,
    every version of the registry ever written passed every check: each entry is well-formed
    under its own id, the caps, those of retired tasks included, add up to at most the pool, and
    no job is paid by two active tasks. *)
Theorem registry_within_pool {tag : Type} (service_of : pyval -> result service) (canonical_sha256 : pyval -> result string) (repr_of : pyval -> string)
    (json_size : pyval -> Z) (etag_of : nat -> pyval -> tag) (w : world) :
  (forall n m b c, etag_of n b = etag_of m c -> b = c) -> reachable service_of canonical_sha256 repr_of json_size etag_of w ->
  forall d, d ∈ versions (bkt w) -> exists l, d = stored l /\ keyed l /\ unique_keys l /\
    Forall (fun ke => validate_entry service_of canonical_sha256 ke.2 = Ok ()) l /\
    (exists total, total_cap l = Ok total /\ total <= fadd fone SUM_TOLERANCE) /\
    NoDup (omap (fun ke => active_job ke.2) l).
Proof.
  intros Ht Hw d [n Hn]%list_elem_of_lookup. destruct (store_reachable_inv _ _ _ _ _ Ht _ Hw) as [Hc _].
  destruct (chain_versions _ _ _ _ Hc n d Hn) as (l & -> & Hk & Hu & Hv). exists l. destruct (validate_registry_ok _ _ _ _ Hv) as (Hf & Htot & Hj). done.
Qed.

(** C13: no change of the registry is lost.  Whatever the interleaving of the writers and the fate
    of their requests, the versions of the registry are those of one writer at a time: each is
    the change of one of them applied to the version before it, as it reads with the admissions
    laid over it, and the first one to no registry. *)
Theorem writes_are_serial {tag : Type} (service_of : pyval -> result service) (canonical_sha256 : pyval -> result string) (repr_of : pyval -> string)
    (json_size : pyval -> Z) (etag_of : nat -> pyval -> tag) (w : world) :
  (forall n m b c, etag_of n b = etag_of m c -> b = c) -> reachable service_of canonical_sha256 repr_of json_size etag_of w ->
  forall n d, versions (bkt w) !! n = Some d -> exists c base l,
    apply_change service_of canonical_sha256 c base = Ok l /\ d = stored l /\
    match n with
    | O => base = []
    | S m => exists d0 e tasks, versions (bkt w) !! m = Some d0 /\ parse_registry service_of canonical_sha256 repr_of d0 true = Ok e /\ base = overlay_admissions e tasks
    end.
Proof.
  intros Ht Hw n d Hn. destruct (store_reachable_inv _ _ _ _ _ Ht _ Hw) as [Hc _]. destruct (Hc n d Hn) as (base & Hb & c & l & _ & Ha & _ & ->).
  exists c, base, l. split_and!; [done|done|]. destruct n as [|m]; [exact Hb|]. destruct (lookup_lt_is_Some_2 (versions (bkt w)) m) as [d0 Hd0]; [apply lookup_lt_Some in Hn; lia|].
  unfold base_of in Hb. rewrite (take_S_r _ _ _ Hd0), last_snoc in Hb. destruct Hb as (e & tasks & Hp & ->). by exists d0, e, tasks.
Qed.

(** C3: a declared task is never lost, nor what it owes.  From any version of the registry to any
    later one, through all the changes of all the writers, every task is still there with the
    same profile, contracts, mechanism and job, a retired one stays retired, and what the
    archives of a corpus task paid by period may be paid has not fallen. *)
Theorem tasks_continue {tag : Type} (service_of : pyval -> result service) (canonical_sha256 : pyval -> result string) (repr_of : pyval -> string)
    (json_size : pyval -> Z) (etag_of : nat -> pyval -> tag) (w : world) :
  (forall n m b c, etag_of n b = etag_of m c -> b = c) -> reachable service_of canonical_sha256 repr_of json_size etag_of w ->
  forall i j d d', (i <= j)%nat -> versions (bkt w) !! i = Some d -> versions (bkt w) !! j = Some d' ->
  exists l l', d = stored l /\ d' = stored l' /\ forall k e, find_task k l = Some e -> exists e', find_task k l' = Some e' /\ continues e e'.
Proof.
  intros Ht Hw i j d d' Hij Hi Hj. destruct (store_reachable_inv _ _ _ _ _ Ht _ Hw) as [Hc _]. destruct (chain_versions _ _ _ _ Hc i d Hi) as (l & Hl).
  destruct (chain_later _ _ _ _ _ _ _ _ _ Hc Hij Hi Hj Hl) as (l' & Hl' & H). exists l, l'. split_and!; [apply Hl|apply Hl'|exact H].
Qed.

(** A writer alone writes what it means to.  With the bucket answering and nobody else
    writing, a change is applied to the registry read and, when it is accepted, the new registry
    is its next version; a registry that does not read, a change that is refused or a result
    that fails the checks raises and writes nothing. *)
Theorem lone_writer_exact {tag : Type} (service_of : pyval -> result service) (canonical_sha256 : pyval -> result string) (repr_of : pyval -> string)
    (json_size : pyval -> Z) (etag_of : nat -> pyval -> tag) (change : registry -> result registry) (attempts : nat) (b : bucket) :
  run etag_of (mutate service_of canonical_sha256 repr_of json_size change (S attempts)) b =
  match (run etag_of (read_registry service_of canonical_sha256 repr_of json_size true) b).1 with
  | Raise e => (Raise e, b)
  | Ok (base, _) =>
      match (updated ← change base; _ ← validate_registry service_of canonical_sha256 updated; Ok updated) with
      | Raise e => (Raise e, b)
      | Ok updated => (Ok (), put RegistryObject (stored updated) b)
      end
  end.
Proof.
  cbn [mutate]. rewrite run_bind. pose proof (run_read service_of canonical_sha256 repr_of json_size etag_of true b) as Hb.
  destruct (run etag_of (read_registry _ _ _ _ true) b) as [[[base t]|e] b']; cbn in Hb; subst b'; [|done]. cbn [fst snd]. rewrite run_bind. cbn [call run].
  destruct (change base) as [u|e]; [|done]. cbn [mbind result_bind]. rewrite run_bind. unfold write_registry. rewrite run_bind. cbn [call run].
  by destruct (validate_registry _ _ u) as [[]|e].
Qed.

(** ** Runs *)

Section first_write.
Context (service_of : pyval -> result service) (canonical_sha256 : pyval -> result string) (repr_of : pyval -> string) (json_size : pyval -> Z).

(** The bodies tell versions apart. *)
Definition body_tag (n : nat) (body : pyval) : pyval := body.
Lemma body_tag_inj n m b c : body_tag n b = body_tag m c -> b = c.
Proof. done. Qed.

(** The first declaration of a task. *)
Lemma first_write_reachable c l : change_ok c -> apply_change service_of canonical_sha256 c [] = Ok l -> validate_registry service_of canonical_sha256 l = Ok () ->
  exists w, reachable service_of canonical_sha256 repr_of json_size body_tag w /\ versions (bkt w) = [stored l].
Proof.
  intros Hok Ha Hv. set (p := mutate (tag := pyval) service_of canonical_sha256 repr_of json_size (apply_change service_of canonical_sha256 c) 1).
  assert (exists k, p = Ask (Get RegistryObject) k) as [k Ek] by (by eexists).
  assert (exists k2, k Absent = Ask (Put RegistryObject (stored l) None) k2) as [k2 Ek2].
  { assert (bind (Ret (Ok ([], None))) (fun read : registry * option pyval => updated <~ call (apply_change service_of canonical_sha256 c read.1);
      written <~ write_registry (tag := pyval) service_of canonical_sha256 updated read.2; if (written : bool) then call (Ok ()) else call (Raise RuntimeError)) = k Absent) as <- by (by injection Ek as <-).
    cbn [bind fst snd]. rewrite Ha. cbn [bind call]. unfold write_registry. rewrite Hv. cbn [bind call]. by eexists. }
  exists (World (Bucket [stored l] []) [k2 Stored]). split; [|done].
  eapply rtc_l; [apply (step_start _ _ _ _ _ _ (Mutate c 1)); exact Hok|]. cbn [start bkt running app]. fold p. rewrite Ek.
  eapply rtc_l; [apply (step_answer _ _ _ _ _ (World (Bucket [] []) [Ask (Get RegistryObject) k]) 0 (Get RegistryObject) k Absent (Bucket [] [])); [done|by apply get_absent]|]. cbn [running insert list_insert bkt].
  apply rtc_once. apply (step_answer _ _ _ _ _ (World (Bucket [] []) [k Absent]) 0 (Put RegistryObject (stored l) None) k2 Stored (Bucket [stored l] [])); [by rewrite <- Ek2|]. exact (put_lands body_tag (Bucket [] []) RegistryObject (stored l) None Stored eq_refl (or_introl eq_refl)).
Qed.
End first_write.

Module StoreRuns.
Definition create_default : change := CreateTask TaskRegistry.Runs.rl None.
Definition size (v : pyval) : Z := 0.
Definition created : result registry := apply_change TaskRegistry.Runs.service_none TaskRegistry.Runs.digest create_default [].
Lemma created_ok : match created with Ok l => match validate_registry TaskRegistry.Runs.service_none TaskRegistry.Runs.digest l with Ok _ => bool_decide (l.*1 = ["default"%string]) | Raise _ => false end | Raise _ => false end = true.
Proof. vm_compute. reflexivity. Qed.

Lemma one_task : exists l w, created = Ok l /\
  reachable TaskRegistry.Runs.service_none TaskRegistry.Runs.digest TaskRegistry.Runs.repr size body_tag w /\ versions (bkt w) = [stored l].
Proof.
  pose proof created_ok as H. destruct created as [l|] eqn:E; [|discriminate]. destruct (validate_registry _ _ l) as [[]|] eqn:Ev; [|discriminate].
  destruct (first_write_reachable TaskRegistry.Runs.service_none TaskRegistry.Runs.digest TaskRegistry.Runs.repr size create_default l) as (w & Hw & Hvs); [|exact E|exact Ev|].
  - apply (bool_decide_unpack _). vm_compute. exact I.
  - exists l, w. split; [exact eq_refl|]. split; [exact Hw|exact Hvs].
Qed.
End StoreRuns.

Lemma registry_within_pool_witness : exists w d, d ∈ versions (bkt w) /\
  reachable TaskRegistry.Runs.service_none TaskRegistry.Runs.digest TaskRegistry.Runs.repr StoreRuns.size body_tag w /\
  exists l, d = stored l /\ exists total, total_cap l = Ok total /\ total <= fadd fone SUM_TOLERANCE.
Proof.
  destruct StoreRuns.one_task as (l & w & _ & Hw & Hvs). exists w, (stored l). assert (stored l ∈ versions (bkt w)) as Hin by (rewrite Hvs; by left).
  destruct (registry_within_pool _ _ _ _ _ w body_tag_inj Hw _ Hin) as (l' & E & _ & _ & _ & Ht & _). split; [exact Hin|]. split; [exact Hw|]. exists l'. split; [exact E|exact Ht].
Defined.

Lemma writes_are_serial_witness : exists w c l, reachable TaskRegistry.Runs.service_none TaskRegistry.Runs.digest TaskRegistry.Runs.repr StoreRuns.size body_tag w /\
  versions (bkt w) !! 0%nat = Some (stored l) /\ apply_change TaskRegistry.Runs.service_none TaskRegistry.Runs.digest c [] = Ok l.
Proof.
  destruct StoreRuns.one_task as (l & w & _ & Hw & Hvs). assert (versions (bkt w) !! 0%nat = Some (stored l)) as Hn by (by rewrite Hvs).
  destruct (writes_are_serial _ _ _ _ _ w body_tag_inj Hw _ _ Hn) as (c & base & l' & Ha & E & Hb). cbv iota in Hb. subst base. exists w, c, l'. split; [exact Hw|]. split; [by rewrite <- E|exact Ha].
Defined.

Lemma tasks_continue_witness : exists w l l', reachable TaskRegistry.Runs.service_none TaskRegistry.Runs.digest TaskRegistry.Runs.repr StoreRuns.size body_tag w /\
  versions (bkt w) = [stored l] /\ stored l = stored l' /\ forall k e, find_task k l = Some e -> exists e', find_task k l' = Some e' /\ continues e e'.
Proof.
  destruct StoreRuns.one_task as (l & w & _ & Hw & Hvs). assert (versions (bkt w) !! 0%nat = Some (stored l)) as Hn by (by rewrite Hvs).
  destruct (tasks_continue _ _ _ _ _ w body_tag_inj Hw 0 0 _ _ (le_n 0) Hn Hn) as (l1 & l2 & E1 & E2 & H). exists w, l1, l2. split; [exact Hw|]. split; [by rewrite <- E1|]. split; [by rewrite <- E1|exact H].
Defined.
