(* ===== verification/WeightSetter.v ===== *)
(** * WeightSetter: from the archives to the weights on chain

    Models [validator/weight_only.py]: what is read, when an epoch is abstained from, the choice
    between copies of a service archive, the replay of the archives into weights, the caps and
    the minimum-incentive floor of each task, and the vector that is submitted.

    What the storage, the registry, the metagraph and the chain answer are parameters; a read
    that fails raises.  Weights are association lists in the order of the dict; the order of a
    set of hotkeys is a parameter.  The rewards of a service archive, its contract and canonical
    JSON are parameters, and so are the constants set from the environment.  The loop of
    [_apply_min_incentive_share] has fuel: [floor_never_pays_more] proves that some is enough. *)

From S2P Require Import Prelude PyFloat Cooldown BatchSelection SignerJournal Periods TokenAuction TaskRegistry.

#[local] Open Scope Z_scope.

Abbreviation weights := (list (string * float)).

(** [d.get(k)], [d[k] = v] *)
Fixpoint weight_of (k : string) (d : weights) : option float :=
  match d with [] => None | (k', v) :: d => if String.eqb k' k then Some v else weight_of k d end.
Fixpoint set_weight (k : string) (v : float) (d : weights) : weights :=
  match d with [] => [(k, v)] | (k', v') :: d => if String.eqb k' k then (k', v) :: d else (k', v') :: set_weight k v d end.
Definition add_weight (d : weights) (k : string) (v : float) : weights := set_weight k (fadd (default 0 (weight_of k d)) v) d.

(** ** The minimum-incentive floor *)

Definition ramped_incentive (value start threshold : float) : float :=
  if threshold <=? value then value
  else if (threshold <=? start) || (value <? start) then 0
  else fdiv (fmul value (fsub value start)) (fsub threshold start).

(** [math.nextafter(x, 0.0)] *)
Definition ulp_below (x : float) : float :=
  let e := Z.max 0 (Z.log2 x - 52) in if (x =? 2 ^ Z.log2 x) && (0 <? e) then 2 ^ (e - 1) else 2 ^ e.
Definition toward_zero (x : float) : float := if x =? 0 then 0 else Z.sgn x * (Z.abs x - ulp_below (Z.abs x)).

(** [max(paid, key=paid.__getitem__)]: the first of the largest. *)
Fixpoint largest_from (best : string * float) (d : weights) : string * float :=
  match d with [] => best | kv :: d => largest_from (if best.2 <? kv.2 then kv else best) d end.
Definition largest (d : weights) : option string := match d with [] => None | kv :: d => Some (largest_from kv d).1 end.

(** The loop that takes an overshoot back. *)
Fixpoint lower_until (fuel : nat) (total : float) (k : string) (paid : weights) : option weights :=
  if total <? fsum paid.*2 then
    match fuel with
    | O => None
    | S fuel => lower_until fuel total k (set_weight k (toward_zero (default 0 (weight_of k paid))) paid)
    end
  else Some paid.

Definition apply_min_incentive_share (fuel : nat) (w : weights) (start threshold : float) : option weights :=
  let total := fsum w.*2 in
  if total <=? 0 then Some w
  else
    let shares := (fun kv => (kv.1, fdiv kv.2 total)) <$> w in
    let kept := (fun kv => (kv.1, ramped_incentive kv.2 start threshold)) <$> shares in
    if bool_decide (kept.*2 = shares.*2) then Some w
    else
      let kept := filter (fun kv => 0 < kv.2) kept in
      let kept_total := fsum kept.*2 in
      if kept_total <=? 0 then Some w
      else
        let paid := (fun kv => (kv.1, fdiv (fmul total kv.2) kept_total)) <$> kept in
        let overshoot := fsub (fsum paid.*2) total in
        if 0 <? overshoot then
          match largest paid with
          | Some k => lower_until fuel total k (set_weight k (fsub (default 0 (weight_of k paid)) overshoot) paid)
          | None => Some paid
          end
        else Some paid.

(** ** What the registry declares *)

Section setter.
(** [MIN_INCENTIVE_RAMP_START], [MIN_INCENTIVE_SHARE] *)
Context (ramp_start min_share : float).

Definition floor_of (e : task_entry) : result (float * float) :=
  if has "min_incentive_share" (params e) then
    share ← to_float (dict_get "min_incentive_share" (params e));
    start ← to_float (dict_get_or "min_incentive_ramp_start" (params e) (VFloat (if ramp_start <=? share then ramp_start else 0)));
    Ok (start, share)
  else Ok (ramp_start, min_share).
Definition floors_by_task (declared : registry) : result (list (string * (float * float))) :=
  mapM (fun ke => f ← floor_of ke.2; Ok (ke.1, f)) declared.

(** A cap that is no number is left out. *)
Definition caps_by_task (declared : registry) : weights :=
  omap (fun ke : string * task_entry => match (v ← item (params ke.2) "cap"; to_float v) with Ok c => Some (ke.1, c) | Raise _ => None end) declared.
Definition period_caps_by_task (declared : registry) : weights :=
  omap (fun ke : string * task_entry =>
    if is_period_task (VDict (params ke.2)) then match pay_ceiling (VDict (params ke.2)) with Ok (Some c) => Some (ke.1, c) | _ => None end else None) declared.

Definition is_corpus_task (e : option task_entry) : bool := match e with Some e => String.eqb (mechanism e) MECHANISM_CORPUS_GENERATION | None => false end.
Definition is_service_task (e : option task_entry) : bool := match e with Some e => String.eqb (mechanism e) MECHANISM_SERVICE_RL | None => false end.

(** ** Replay *)

(** [2.0 / (72 + 1)] *)
Definition EMA_ALPHA : float := fdiv (of_int 2) (of_int 73).
(** The order of a set of hotkeys. *)
Context (set_order : list string -> list string).

(** A number in arithmetic. *)
Definition arith (v : pyval) : result float := match v with VInt _ | VFloat _ | VBool _ => to_float v | _ => Raise TypeError end.
Definition rewards_of (record : json) : result json :=
  match dict_get_or "rewards_by_hotkey" record (VDict []) with VDict r => Ok r | _ => Raise TypeError end.
Definition is_aborted (record : json) : bool := str_eq (dict_get_or "window_status" record (VStr "completed")) (VStr "aborted").

Definition decay (rewards : json) (ema : weights) (hk : string) : result weights :=
  fraction ← arith (dict_get_or hk rewards (VFloat 0));
  Ok (set_weight hk (fadd (fmul EMA_ALPHA fraction) (fmul (fsub fone EMA_ALPHA) (default 0 (weight_of hk ema)))) ema).

Definition CUTOFF : float := flit 1 1000000.
Definition replay_window (service : bool) (ema : weights) (record : json) : result weights :=
  if is_aborted record then Ok ema
  else
    rewards ← rewards_of record;
    ema ← fold_result (decay rewards) ema (set_order (remove_dups (ema.*1 ++ rewards.*1)));
    Ok (filter (fun kv => (if service then 0 else CUTOFF) < kv.2) ema).

Definition window_of (record : json) : result Z := v ← item record "window_start"; to_int v.
Definition task_of (record : json) : string := match dict_get_or "task_id" record (VStr "") with VStr s => s | _ => "" end.

(** [sorted(records, key=...)] where the key may raise. *)
Definition sorted_by {A} (leb : A -> A -> bool) (key : json -> result A) (l : list json) : result (list json) :=
  keyed ← mapM (fun r => k ← key r; Ok (k, r)) l; Ok (isort (fun a b => leb a.1 b.1) keyed).*2.

Definition clamp_to_cap (ema : weights) (cap : option float) : weights :=
  match cap with
  | None => ema
  | Some cap =>
      let share := py_sum ema.*2 in
      if share <=? cap then ema
      else if (cap <=? 0) || (share <=? 0) then []
      else (fun kv => (kv.1, fmul kv.2 (fdiv cap share))) <$> ema
  end.

(** The tasks of the archives and of the periods, in order. *)
Fixpoint first_names (l : list string) : list string := match l with [] => [] | k :: l => k :: filter (fun x => x <> k) (first_names l) end.

Section replay.
Context (fuel : nat) (caps period_caps : weights) (floors : list (string * (float * float))) (periods : list (string * weights)) (service_tasks : list string).

Fixpoint lookup_name {A} (k : string) (d : list (string * A)) : option A :=
  match d with [] => None | (k', v) :: d => if String.eqb k' k then Some v else lookup_name k d end.

Definition cap_in_force (task : string) : option float :=
  match lookup_name task periods with
  | None => weight_of task caps
  | Some _ =>
      let cap := match weight_of task period_caps with Some c => Some c | None => weight_of task caps end in
      (fun c => fmul c (of_int CATCHUP_ENTRIES)) <$> cap
  end.

(** One task; [None] is out of fuel. *)
Definition task_weights (archives : list json) (task : string) : result (option weights) :=
  records ← sorted_by Z.leb window_of (filter (fun r => task_of r = task) archives);
  ema ← fold_result (replay_window (bool_decide (task ∈ service_tasks))) [] records;
  let ema := foldl (fun d kv => add_weight d kv.1 kv.2) ema (default [] (lookup_name task periods)) in
  let ema := clamp_to_cap ema (cap_in_force task) in
  let '(start, threshold) := default (ramp_start, min_share) (lookup_name task floors) in
  Ok (if 0 <? threshold then apply_min_incentive_share fuel ema start threshold else Some ema).

Definition add_task_weights (archives : list json) (combined : weights) (task : string) : result (option weights) :=
  w ← task_weights archives task;
  Ok (match w with Some w => Some (foldl (fun d (kv : string * float) => add_weight d kv.1 kv.2) combined w) | None => None end).

Fixpoint combine (archives : list json) (combined : weights) (tasks : list string) : result (option weights) :=
  match tasks with
  | [] => Ok (Some combined)
  | t :: tasks =>
      c ← add_task_weights archives combined t;
      match c with Some c => combine archives c tasks | None => Ok None end
  end.

Definition replay_ema (archives : list json) : result (option weights) :=
  c ← combine archives [] (first_names ((task_of <$> archives) ++ periods.*1));
  Ok (match c with
      | Some c => let total := py_sum c.*2 in Some (if fone <? total then (fun kv : string * float => (kv.1, fdiv kv.2 total)) <$> c else c)
      | None => None
      end).
End replay.
End setter.

(** ** Service archives *)

Section service.
Context {C : Type} (contract_of : pyval -> result C) (canonical : json -> result (list Z)) (service_rewards : json -> C -> float -> result json).

(** The exceptions an archive is dropped for. *)
Definition refusal (x : exn) : bool :=
  match x with ValueError | OverflowError | ZeroDivisionError | TypeError | KeyError | AttributeError => true | _ => false end.

Definition archive_key : Type := string * Z.
Record choice := Choice { chosen : list (archive_key * json); poisoned : list archive_key }.

Fixpoint find_archive (k : archive_key) (l : list (archive_key * json)) : option json :=
  match l with [] => None | (k', a) :: l => if bool_decide (k' = k) then Some a else find_archive k l end.
Fixpoint put_archive (k : archive_key) (a : json) (l : list (archive_key * json)) : list (archive_key * json) :=
  match l with [] => [(k, a)] | (k', a') :: l => if bool_decide (k' = k) then (k', a) :: l else (k', a') :: put_archive k a l end.
Definition del_archive (k : archive_key) (l : list (archive_key * json)) : list (archive_key * json) := filter (fun ka => ka.1 <> k) l.

Definition key_of_archive (a : json) : result archive_key := t ← item a "task_id"; w ← window_of a; Ok (match t with VStr s => s | _ => ""%string end, w).

(** The loop over the archives of the service tasks. *)
Definition choose (c : choice) (a : json) : result choice :=
  match key_of_archive a with
  | Raise x => if refusal x then Ok c else Raise x
  | Ok key =>
      if bool_decide (key ∈ poisoned c) then Ok c
      else
        match find_archive key (chosen c) with
        | None => Ok (Choice (put_archive key a (chosen c)) (poisoned c))
        | Some held =>
            match (rank ← canonical a; kept ← canonical held; Ok (rank, kept)) with
            | Raise x => if refusal x then Ok (Choice (del_archive key (chosen c)) (key :: poisoned c)) else Raise x
            | Ok (rank, kept) => Ok (if bytes_ltb rank kept then Choice (put_archive key a (chosen c)) (poisoned c) else c)
            end
        end
  end.

Definition contract_for (declared : registry) (task : string) : result (C * float) :=
  match find_task task declared with
  | None => Raise KeyError
  | Some e =>
      match (c ← contract_of (service_contract e); v ← item (params e) "cap"; x ← to_float v; Ok (c, x)) with
      | Ok (c, cap) => if (0 <? cap) && (cap <=? fone) then Ok (c, cap) else Raise ValueError
      | Raise x => if refusal x then Raise ValueError else Raise x
      end
  end.

(** A task's contract is read at its first archive. *)
Definition contracts_of (declared : registry) (l : list (archive_key * json)) : result (list (string * (C * float))) :=
  mapM (fun t => c ← contract_for declared t; Ok (t, c)) (first_names ((fun ka => ka.1.1) <$> l)).

Definition reduced (key : archive_key) (status : pyval) (rewards : json) : json :=
  [("task_id", VStr key.1); ("window_start", VInt key.2); ("window_status", status); ("rewards_by_hotkey", VDict rewards)]%string.

(** An archive that was chosen; [None] when it is dropped. *)
Definition settle_archive (contracts : list (string * (C * float))) (ka : archive_key * json) : result (option json) :=
  if str_eq (dict_get "window_status" ka.2) (VStr "aborted") then Ok (Some (reduced ka.1 (VStr "aborted") []))
  else
    match lookup_name ka.1.1 contracts with
    | None => Raise KeyError
    | Some (c, cap) =>
        match service_rewards ka.2 c cap with
        | Raise x => if refusal x then Ok None else Raise x
        | Ok rewards => Ok (Some (reduced ka.1 (dict_get_or "window_status" ka.2 (VStr "completed")) rewards))
        end
    end.

Definition record_leb (a b : Z * string) : bool := (a.1 <? b.1) || ((a.1 =? b.1) && String.leb a.2 b.2).
Definition record_key (r : json) : result (Z * string) := w ← window_of r; Ok (w, task_of r).

Definition validated_service_archives (archives : list json) (declared : registry) : result (list json) :=
  let service r := is_service_task (find_task (task_of r) declared) in
  c ← fold_result choose (Choice [] []) (filter (fun r => service r = true) archives);
  contracts ← contracts_of declared (chosen c);
  settled ← mapM (settle_archive contracts) (chosen c);
  sorted_by record_leb record_key (filter (fun r => service r = false) archives ++ omap id settled).
End service.

(** ** Periods *)

Section setter.
Context (ramp_start min_share : float) (set_order : list string -> list string) (pow : float -> Z -> float).

(** The keys of a task's period archives, and their documents. *)
Context (listed_of : string -> result (list (Z * Z))) (read_archive : string -> Z -> Z -> result (option json)).

Definition doc_of (task : string) (key : Z * Z) : result json :=
  d ← read_archive task key.1 key.2; match d with Some d => Ok d | None => Raise RuntimeError end.

Definition moved_to (task : string) (key earlier : Z * Z) : result bool :=
  d ← doc_of task earlier;
  match dict_get "replaces_entry_period" d with VNone => Ok false | v => z ← to_int v; Ok (z =? key.2) end.
(** An earlier entry of the same work period replaces it. *)
Definition is_replaced (task : string) (listed : list (Z * Z)) (key : Z * Z) : result bool :=
  l ← mapM (moved_to task key) (filter (fun k => k.1 = key.1 /\ k.2 < key.2) listed); Ok (existsb id l).

Definition period_rewards (ceiling : option float) (doc : json) : result weights :=
  r ← match dict_get "rewards_by_hotkey" doc with VDict r => Ok r | v => if py_truth v then Raise AttributeError else Ok [] end;
  rewards ← mapM (fun kv => x ← to_float kv.2; Ok (kv.1, x)) r;
  recorded ← match dict_get "cap" doc with VNone => Ok None | v => x ← to_float v; Ok (Some x) end;
  let paid := py_sum rewards.*2 in
  Ok (match archive_bound recorded ceiling with
      | Some cap =>
          if fmul cap (fadd fone (flit 1 1000000000)) <? paid
          then if cap <=? 0 then [] else (fun kv => (kv.1, fdiv (fmul kv.2 cap) paid)) <$> rewards
          else rewards
      | None => rewards
      end).

(** [cp.replay], the weights in the order of the dict. *)
Definition replay_entry (current : Z) (w : weights) (a : archive) : weights :=
  let age := current - entry_period a in
  if (age <? 0) || (REPLAY_DEPTH <? age) then w
  else foldl (fun w hr => add_weight w hr.1 (fmul (fmul PERIOD_ALPHA (pow (fsub fone PERIOD_ALPHA) age)) hr.2)) w (rewards_by_hotkey a).
Definition replay_periods (docs : list archive) (current : Z) : weights :=
  filter (fun kv => DUST < kv.2) (foldl (replay_entry current) [] docs).

Definition period_task_weights (ceilings : weights) (current : Z) (task : string) : result weights :=
  listed ← listed_of task;
  let keys := filter (fun k : Z * Z => 0 <= current - k.2 <= REPLAY_DEPTH) listed in
  flagged ← mapM (fun k => r ← is_replaced task listed k; Ok (k, r)) keys;
  docs ← mapM (fun k => d ← doc_of task k; r ← period_rewards (weight_of task ceilings) d; Ok (Archive k.2 r))
           (filter (fun kr : (Z * Z) * bool => kr.2 = false) flagged).*1;
  Ok (replay_periods docs current).

Definition period_tasks (declared : registry) : list string :=
  isort String.leb (filter (fun ke : string * task_entry => is_period_task (VDict (params ke.2)) = true) declared).*1.

Definition period_weights (declared : registry) (now : float) (genesis : result float) : result (list (string * weights)) :=
  if bool_decide (period_tasks declared = []) then Ok []
  else
    g ← genesis;
    l ← mapM (fun t => w ← period_task_weights (period_caps_by_task declared) (period_of now g) t; Ok (t, w)) (period_tasks declared);
    Ok (filter (fun tw => tw.2 <> []) l).

(** ** An epoch *)

Definition ROLLING_WINDOWS_HISTORY : Z := 72.

Definition merge_archives (by_task : list (string * list json)) : result (list json) :=
  sorted_by record_leb record_key (concat ((fun ta : string * list json => (fun a => dict_set "task_id" (VStr ta.1) a) <$> ta.2) <$> by_task)).
Definition undeclared_tasks (by_task : list (string * list json)) (declared : registry) : list string :=
  isort String.leb (filter (fun t => find_task t declared = None) by_task.*1).
(** [legacy_registry_fallback] of [task_config.py] *)
Definition legacy_registry_fallback (entries : registry) (tasks : list string) : bool :=
  bool_decide (entries = []) && negb (bool_decide (tasks = [])) && forallb (fun t => String.eqb t DEFAULT_TASK_ID) tasks.

(** The reads of an epoch, and the clock. *)
Context (registry_read : result registry) (task_ids : result (list string)) (window_keys : string -> result (list Z))
  (datasets : string -> Z -> result (list json)) (now : float) (genesis : result float).

Definition horizon (windows : list (string * list Z)) : Z := foldr Z.max 0 (concat windows.*2) + 1.
(** A listed window of the history that was not read. *)
Definition missing (h : Z) (windows : list Z) (archives : list json) : result bool :=
  starts ← mapM (fun a => item a "window_start") archives;
  Ok (existsb (fun w => (h - ROLLING_WINDOWS_HISTORY * 3 <=? w) && (w <? h)
                        && negb (existsb (fun v => match v with VInt z => z =? w | VFloat f => f =? w * fone | _ => false end) starts)) windows).

(** The archives of each task; [None] when one that is listed is missing. *)
Fixpoint read_tasks (declared : registry) (h : Z) (windows : list (string * list Z)) : result (option (list (string * list json))) :=
  match windows with
  | [] => Ok (Some [])
  | (t, ws) :: rest =>
      if is_corpus_task (find_task t declared) then read_tasks declared h rest
      else
        archives ← datasets t h;
        lost ← missing h ws archives;
        if (lost : bool) then Ok None
        else
          others ← read_tasks declared h rest;
          Ok (match others with Some l => Some (if bool_decide (archives = []) then l else (t, archives) :: l) | None => None end)
  end.

Definition read_archives (declared : registry) : result (option (list (string * list json))) :=
  ids ← task_ids;
  listed ← mapM (fun t => w ← window_keys t; Ok (t, w)) ids;
  let windows := filter (fun tw => tw.2 <> []) listed in
  read_tasks declared (horizon windows) windows.

(** What an epoch does with the weights it replays: nothing, or submits them. *)
Inductive epoch := Abstain | OutOfFuel | Submit (w : weights).

Context {C : Type} (contract_of : pyval -> result C) (canonical : json -> result (list Z)) (service_rewards : json -> C -> float -> result json).

Definition declared_services (declared : registry) : list string := (filter (fun ke : string * task_entry => is_service_task (Some ke.2) = true) declared).*1.

Definition submit_once (fuel : nat) : result epoch :=
  match registry_read with
  | Raise _ => Ok Abstain
  | Ok declared =>
      match read_archives declared with
      | Raise _ | Ok None => Ok Abstain
      | Ok (Some by_task) =>
          match period_weights declared now genesis with
          | Raise _ => Ok Abstain
          | Ok periods =>
              if bool_decide (by_task = []) && bool_decide (periods = []) then Ok Abstain
              else if negb (bool_decide (undeclared_tasks by_task declared = [])) && negb (legacy_registry_fallback declared by_task.*1) then Ok Abstain
              else
                merged ← merge_archives by_task;
                match validated_service_archives contract_of canonical service_rewards merged declared with
                | Raise ValueError => Ok Abstain
                | Raise x => Raise x
                | Ok archives =>
                    floors ← floors_by_task ramp_start min_share declared;
                    r ← replay_ema ramp_start min_share set_order fuel (caps_by_task declared) (period_caps_by_task declared) floors periods
                          (declared_services declared) archives;
                    Ok (match r with Some w => Submit w | None => OutOfFuel end)
                end
          end
      end
  end.

(** ** The vector on chain *)

(** The metagraph, and [UID_BURN]. *)
Context (uid_of : string -> option Z) (owner_hotkey : option string) (uid_burn : option Z).

Definition resolve_burn_uid : result Z :=
  match uid_burn with
  | Some u => Ok u
  | None =>
      match owner_hotkey with
      | None => Raise RuntimeError
      | Some hk => if String.eqb hk "" then Raise RuntimeError else match uid_of hk with Some u => Ok u | None => Raise RuntimeError end
      end
  end.

(** The weights of the uids, and the total registered. *)
Definition registered (vt : gmap Z float * float) (kv : string * float) : gmap Z float * float :=
  if kv.2 <=? 0 then vt
  else match uid_of kv.1 with
       | None => vt
       | Some u => (<[u := fadd (default 0 (vt.1 !! u)) kv.2]> vt.1, fadd vt.2 kv.2)
       end.

Definition chain_vector (w : weights) : result (gmap Z float) :=
  let '(v, total) := foldl registered (∅, 0) w in
  let burn := Z.max 0 (fsub fone total) in
  if 0 <? burn then u ← resolve_burn_uid; Ok (<[u := fadd (default 0 (v !! u)) burn]> v) else Ok v.
End setter.

(** ** The floor *)

Lemma ulp_below_range x : 0 < x -> 1 <= ulp_below x <= x.
Proof.
  intros Hx. unfold ulp_below. set (e := Z.max 0 (Z.log2 x - 52)). pose proof (Z.log2_nonneg x) as Hl. destruct (Z.log2_spec x Hx) as [Hlo _].
  assert (forall k, 0 <= k <= Z.log2 x -> 1 <= 2 ^ k <= x) as Hk.
  { intros k Hk. split; [apply (Z.pow_le_mono_r 2 0 k); lia|]. etrans; [apply (Z.pow_le_mono_r 2 k (Z.log2 x)); lia|done]. }
  destruct ((x =? 2 ^ Z.log2 x) && (0 <? e)) eqn:E; apply Hk; [apply andb_true_iff in E as [_ E]|]; lia.
Qed.

Lemma toward_zero_range x : 0 < x -> 0 <= toward_zero x < x.
Proof.
  intros Hx. unfold toward_zero. destruct (Z.eqb_spec x 0); [lia|]. rewrite Z.sgn_pos, Z.abs_eq by lia. pose proof (ulp_below_range x Hx). lia.
Qed.

Lemma weight_of_set k v d : weight_of k (set_weight k v d) = Some v.
Proof. induction d as [|[k' v'] d IH]; cbn; [by rewrite String.eqb_refl|]. destruct (String.eqb k' k) eqn:E; cbn; rewrite E; done. Qed.
Lemma set_weight_twice k v v' d : set_weight k v (set_weight k v' d) = set_weight k v d.
Proof. induction d as [|[x y] d IH]; cbn; [by rewrite String.eqb_refl|]. destruct (String.eqb x k) eqn:E; cbn; rewrite E; [done|by rewrite IH]. Qed.
Lemma set_weight_keys k v d : k ∈ d.*1 -> (set_weight k v d).*1 = d.*1.
Proof.
  induction d as [|[x y] d IH]; cbn; [by intros ?%not_elem_of_nil|]. destruct (String.eqb_spec x k) as [->|Hne]; [done|]. intros [?|Hk]%elem_of_cons; [congruence|]. cbn. by rewrite IH.
Qed.
Lemma weight_of_elem k v d : NoDup d.*1 -> (k, v) ∈ d -> weight_of k d = Some v.
Proof.
  induction d as [|[x y] d IH]; cbn; [by intros _ ?%not_elem_of_nil|]. intros [Hx Hn]%NoDup_cons [[= -> ->]|Hin]%elem_of_cons; [by rewrite String.eqb_refl|].
  destruct (String.eqb_spec x k) as [->|]; [|by apply IH]. destruct Hx. by apply (list_elem_of_fmap_2 fst _ (k, v)).
Qed.
Lemma set_weight_sum k v v' d : weight_of k d = Some v -> Zsum (set_weight k v' d).*2 = Zsum d.*2 - v + v'.
Proof.
  induction d as [|[x y] d IH]; cbn; [done|]. destruct (String.eqb x k); cbn; [intros [= ->]; unfold Zsum; lia|]. intros H. specialize (IH H). unfold Zsum in *. lia.
Qed.

(** The loop ends when the other payments fit. *)
Lemma lower_until_ends total k v d : representable total -> weight_of k d = Some v -> Zsum d.*2 - v <= total ->
  forall y, exists n, forall fuel, (n <= fuel)%nat -> exists y', lower_until fuel total k (set_weight k y d) = Some (set_weight k y' d) /\
    fsum (set_weight k y' d).*2 <= total /\ (y' = y \/ 0 <= y' < y).
Proof.
  intros Ht Hv Ho y. remember (Z.to_nat y) as m eqn:Em. revert y Em. induction m as [m IH] using lt_wf_ind. intros y ->.
  destruct (Z.ltb_spec total (fsum (set_weight k y d).*2)) as [Hlt|Hle].
  - assert (0 < y) as Hy.
    { destruct (decide (0 < y)) as [|Hn]; [done|]. exfalso. assert (fsum (set_weight k y d).*2 <= total); [|lia]. apply fround_le; [lia|done|]. rewrite (set_weight_sum k v) by done. lia. }
    pose proof (toward_zero_range y Hy) as Hz. destruct (IH (Z.to_nat (toward_zero y)) ltac:(lia) (toward_zero y) eq_refl) as (n & Hn).
    exists (S n). intros [|fuel] Hf; [lia|]. destruct (Hn fuel ltac:(lia)) as (y' & E & Hs & Hy'). exists y'. split_and!; [|done|lia].
    cbn [lower_until]. apply Z.ltb_lt in Hlt as ->. by rewrite weight_of_set, set_weight_twice.
  - exists 0%nat. intros fuel _. exists y. split_and!; [|done|by left]. apply Z.ltb_ge in Hle. by destruct fuel; cbn [lower_until]; rewrite Hle.
Qed.

(** *** What is shared out *)

(** Payments exceed their total by rounding only. *)
Lemma paid_sum T K (ks : list float) : 0 <= T -> 0 < K -> Forall (Z.le 0) ks ->
  2 ^ 106 * (K * Zsum ((fun k => fdiv (fmul T k) K) <$> ks)) <=
    (2 ^ 53 + 1) ^ 2 * (T * Zsum ks) + Z.of_nat (length ks) * ((2 ^ 53 + 1) * 2 ^ 52 * fone + 2 ^ 105 * K).
Proof.
  intros HT HK. induction 1 as [|k ks Hk _ IH]; [cbn; lia|]. cbn [fmap list_fmap Zsum foldr length]. change (foldr Z.add 0 ?l) with (Zsum l).
  pose proof fone_pos as Hf. set (x := fmul T k). assert (0 <= x) as Hx by (by apply fmul_nonneg).
  pose proof (fround_err (T * k) fone ltac:(nia) Hf) as H1. change (fround (T * k) fone) with x in H1.
  assert (fdiv x K = fround (x * fone) K) as E by (unfold fdiv; rewrite Z.sgn_pos, Z.mul_1_r, Z.abs_eq by lia; done). rewrite E.
  pose proof (fround_err (x * fone) K ltac:(nia) HK) as H2. set (p := fround (x * fone) K) in *. set (P := Zsum _) in *.
  assert (2 ^ 53 * (p * K) <= (2 ^ 53 + 1) * (x * fone) + 2 ^ 52 * K) as A2 by lia.
  assert (2 ^ 53 * (x * fone) <= (2 ^ 53 + 1) * (T * k) + 2 ^ 52 * fone) as A1 by lia.
  rewrite Nat2Z.inj_succ. rewrite !Z.mul_add_distr_l. nia.
Qed.

(** The largest payment. *)
Lemma largest_from_spec best d : largest_from best d ∈ best :: d /\ forall kv, kv ∈ best :: d -> kv.2 <= (largest_from best d).2.
Proof.
  revert best. induction d as [|x d IH]; intros best; cbn; [split; [by left|]; intros kv ->%list_elem_of_singleton; lia|].
  destruct (IH (if best.2 <? x.2 then x else best)) as [H1 H2]. split.
  - destruct (best.2 <? x.2); [by right|]. apply elem_of_cons in H1 as [->|?]; [by left|by right; right].
  - intros kv Hkv. destruct (Z.ltb_spec best.2 x.2).
    + apply elem_of_cons in Hkv as [->|Hkv]; [|by apply H2]. specialize (H2 x ltac:(by left)). lia.
    + apply elem_of_cons in Hkv as [->|[->|Hkv]%elem_of_cons]; [apply H2; by left| |apply H2; by right]. specialize (H2 best ltac:(by left)). lia.
Qed.

Lemma Zsum_max (l : list Z) p : (forall x, x ∈ l -> x <= p) -> Zsum l <= Z.of_nat (length l) * p.
Proof.
  induction l as [|x l IH]; intros H; [cbn; lia|]. cbn [Zsum foldr length]. change (foldr Z.add 0 l) with (Zsum l). pose proof (H x ltac:(by left)).
  specialize (IH ltac:(intros y Hy; apply H; by right)). lia.
Qed.

(** *** What is kept does not vanish *)

Lemma fone_pow : fone = 2 ^ 1074.
Proof. pose proof (fone_grid 1074 ltac:(lia)) as H. rewrite H. change (1074 - 1074) with 0. lia. Qed.

Lemma pow_representable k : 0 <= k -> representable (2 ^ k).
Proof. intros Hk. rewrite <- (Z.mul_1_l (2 ^ k)). apply representable_scaled; lia. Qed.

Lemma elem_le_Zsum (l : list Z) x : Forall (Z.le 0) l -> x ∈ l -> x <= Zsum l.
Proof.
  induction 1 as [|y l Hy Hl IH]; [by intros ?%not_elem_of_nil|]. cbn [Zsum foldr]. change (foldr Z.add 0 l) with (Zsum l).
  intros [->|Hx]%elem_of_cons; [pose proof (Zsum_nonneg l Hl); lia|]. specialize (IH Hx). lia.
Qed.

Lemma fsum_ge (l : list Z) x : Forall (Z.le 0) l -> x ∈ l -> representable x -> x <= fsum l.
Proof. intros Hl Hx Hr. apply fround_ge; [lia|done|]. pose proof (elem_le_Zsum l x Hl Hx). lia. Qed.

(** The largest of at most 2^40 weights holds at least 2^-41 of the total. *)
Lemma largest_share (l : list Z) m : Forall (Z.le 0) l -> Z.of_nat (length l) <= 2 ^ 40 -> (forall x, x ∈ l -> x <= m) -> 0 <= m -> 0 < fsum l ->
  2 ^ 1033 <= fdiv m (fsum l).
Proof.
  intros Hl Hn Hm Hm0 HT. set (T := fsum l) in *. pose proof (Zsum_max l m Hm) as Hs. pose proof (Zsum_nonneg l Hl) as Hs0.
  pose proof (fround_int_err (Zsum l) Hs0) as H1. change (fround (Zsum l) 1) with T in H1.
  unfold fdiv. rewrite Z.sgn_pos, Z.mul_1_r, Z.abs_eq by lia. apply fround_ge; [lia|apply pow_representable; lia|].
  rewrite fone_pow. change (2 ^ 1074) with (2 ^ 41 * 2 ^ 1033). assert (T <= 2 ^ 41 * m) as Hle by nia. nia.
Qed.

Lemma ramped_nonneg s start threshold : 0 <= s -> 0 <= ramped_incentive s start threshold.
Proof.
  intros Hs. unfold ramped_incentive. destruct (threshold <=? s); [done|]. destruct (Z.leb_spec threshold start) as [|H1]; [done|]. destruct (Z.ltb_spec s start) as [|H2]; [done|]. cbn.
  apply fdiv_nonneg; [|by apply fsub_pos_iff]. apply fmul_nonneg; [done|]. pose proof (fsub_neg_iff s start). lia.
Qed.

(** A share above one that is kept is kept at 2^-135 of the pool at least. *)
Lemma ramped_large s s0 start threshold : representable s -> representable start -> 0 <= start -> 2 ^ 1033 <= s -> threshold <= fone ->
  s0 <= s -> 0 < ramped_incentive s0 start threshold -> 2 ^ 939 <= ramped_incentive s start threshold.
Proof.
  intros Hrs Hrt Hst Hs Hth Hle. unfold ramped_incentive. destruct (Z.leb_spec threshold s) as [_|H1].
  { intros _. etrans; [|exact Hs]. apply Z.pow_le_mono_r; lia. }
  destruct (Z.leb_spec threshold s0) as [|_]; [lia|]. destruct (Z.leb_spec threshold start) as [|H2]; [cbn; lia|]. cbn [orb].
  destruct (Z.ltb_spec s0 start) as [|H3]; [lia|]. destruct (Z.ltb_spec s start) as [|H4]; [lia|]. intros Hpos.
  assert (start < s) as Hlt.
  { destruct (decide (start < s)) as [|Hn]; [done|]. assert (s0 = start) as -> by lia. assert (fsub start start = 0) as E by (by apply fsub_0_iff). rewrite E in Hpos.
    unfold fmul, fdiv in Hpos. rewrite Z.mul_0_r, (fround_0 fone fone_pos), !Z.mul_0_l in Hpos. rewrite fround_0 in Hpos; [lia|]. pose proof (fsub_pos_iff threshold start). lia. }
  assert (2 ^ 980 <= s - start) as Hd.
  { destruct (decide (2 * start <= s)) as [Hh|Hh].
    - assert (2 ^ 1033 = 2 * 2 ^ 1032) as E by (by rewrite <- Z.pow_succ_r). assert (2 ^ 980 <= 2 ^ 1032) by (apply Z.pow_le_mono_r; lia). lia.
    - assert (2 ^ 1033 = 2 * 2 ^ 1032) as E by (by rewrite <- Z.pow_succ_r).
      destruct (representable_grid start 979 ltac:(lia) Hrt) as [a Ha]; [change (979 + 53) with 1032; lia|].
      destruct (representable_grid s 979 ltac:(lia) Hrs) as [b Hb]; [change (979 + 53) with 1032; lia|]. change (979 + 1) with 980 in *.
      rewrite Ha, Hb in *. assert (0 < 2 ^ 980) by (apply Z.pow_pos_nonneg; lia). assert (a < b) by nia. nia. }
  assert (2 ^ 980 <= fsub s start) as Hf by (apply fround_ge; [lia|apply pow_representable; lia|lia]).
  assert (2 ^ 939 <= fmul s (fsub s start)) as Hm.
  { apply fround_ge; [apply fone_pos|apply pow_representable; lia|]. rewrite fone_pow, <- Z.pow_add_r by lia. change (939 + 1074) with (1033 + 980). rewrite Z.pow_add_r by lia.
    apply Z.mul_le_mono_nonneg; (apply Z.pow_nonneg; lia) || done. }
  pose proof (fsub_pos_iff threshold start) as Hpp. assert (0 < fsub threshold start) as Hden by (apply Hpp; lia).
  assert (fsub threshold start <= fone) as Hden1 by (apply fround_le; [lia|apply fone_representable|lia]).
  unfold fdiv. rewrite Z.sgn_pos, Z.mul_1_r, Z.abs_eq by lia. apply fround_ge; [done|apply pow_representable; lia|].
  assert (0 < 2 ^ 939) by (apply Z.pow_pos_nonneg; lia). pose proof fone_pos. nia.
Qed.

(** *** The payments *)

Lemma paid_close T (ks : list float) : 2 ^ 400 <= T -> Z.of_nat (length ks) <= 2 ^ 40 -> Forall (Z.le 0) ks -> 2 ^ 939 <= fsum ks ->
  2 ^ 45 * Zsum ((fun k => fdiv (fmul T k) (fsum ks)) <$> ks) <= (2 ^ 45 + 1) * T.
Proof.
  intros HT Hn Hk HK. assert (0 < 2 ^ 400) as H400 by (apply Z.pow_pos_nonneg; lia). assert (0 < 2 ^ 939) as H939 by (apply Z.pow_pos_nonneg; lia).
  set (K := fsum ks) in *. pose proof (paid_sum T K ks ltac:(lia) ltac:(lia) Hk) as Hp. set (P := Zsum (_ <$> ks)) in *.
  pose proof (Zsum_nonneg ks Hk) as HS. pose proof (fround_int_err (Zsum ks) HS) as Hr. change (fround (Zsum ks) 1) with K in Hr. set (S := Zsum ks) in *.
  assert ((2 ^ 53 - 1) * S <= 2 ^ 53 * K) as HSK by lia.
  assert (fone <= 2 ^ 135 * K) as Hf. { rewrite fone_pow. change 1074 with (135 + 939). rewrite Z.pow_add_r by lia. apply Z.mul_le_mono_nonneg_l; [apply Z.pow_nonneg; lia|done]. }
  set (n := Z.of_nat (length ks)) in *. assert (0 <= n) as Hn0 by lia.
  assert ((2 ^ 53 - 1) * (T * S) <= 2 ^ 53 * (T * K)) as HTS by nia.
  assert (n * ((2 ^ 53 + 1) * 2 ^ 52 * fone + 2 ^ 105 * K) <= 2 ^ 40 * ((2 ^ 53 + 1) * 2 ^ 187 + 2 ^ 105) * K) as Hnf.
  { assert ((2 ^ 53 + 1) * 2 ^ 52 * fone + 2 ^ 105 * K <= ((2 ^ 53 + 1) * 2 ^ 187 + 2 ^ 105) * K) as H1 by lia.
    assert (0 <= (2 ^ 53 + 1) * 2 ^ 52 * fone + 2 ^ 105 * K) by (pose proof fone_pos; lia). nia. }
  assert (K * ((2 ^ 53 - 1) * 2 ^ 106 * P) <= K * ((2 ^ 53 + 1) ^ 2 * 2 ^ 53 * T + (2 ^ 53 - 1) * (2 ^ 40 * ((2 ^ 53 + 1) * 2 ^ 187 + 2 ^ 105)))) as HKP by lia.
  apply Z.mul_le_mono_pos_l in HKP; [|lia]. assert (2 ^ 400 = 2 ^ 300 * 2 ^ 100) as E by (by rewrite <- Z.pow_add_r). lia.
Qed.

(** What the others are paid fits in the total, and an overshoot is less than the largest payment. *)
Lemma largest_covers T (ps : list Z) p : 2 ^ 400 <= T -> Forall (Z.le 0) ps -> Z.of_nat (length ps) <= 2 ^ 40 -> p ∈ ps -> (forall x, x ∈ ps -> x <= p) ->
  2 ^ 45 * Zsum ps <= (2 ^ 45 + 1) * T -> Zsum ps - p <= T /\ (0 < fsub (fsum ps) T -> fsub (fsum ps) T <= p).
Proof.
  intros HT Hps Hn Hp Hmax HP. assert (0 < 2 ^ 400) as H400 by (apply Z.pow_pos_nonneg; lia). pose proof (Zsum_max ps p Hmax) as Hs. pose proof (Zsum_nonneg ps Hps) as HS.
  set (P := Zsum ps) in *. assert (P <= 2 ^ 40 * p) as HPp. { assert (0 <= p) by (rewrite Forall_forall in Hps; by apply Hps). nia. }
  split; [lia|]. intros Hpos. pose proof (fround_int_err P HS) as H1. change (fround P 1) with (fsum ps) in H1. assert (T < fsum ps) as Hlt by (by apply fsub_pos_iff). clear Hpos.
  unfold fsub. set (F := fsum ps) in *. pose proof (fround_int_err (F - T) ltac:(lia)) as H2. lia.
Qed.

Lemma length_filter_le {A} (P : A -> Prop) `{!forall x, Decision (P x)} (l : list A) : (length (filter P l) <= length l)%nat.
Proof. apply sublist_length, sublist_filter. Qed.

(** What the ramp keeps of the shares of a task. *)
Lemma ramp_kept_elem (w : weights) total start threshold k r :
  (k, r) ∈ filter (fun kv => 0 < kv.2) ((fun kv => (kv.1, ramped_incentive kv.2 start threshold)) <$> ((fun kv => (kv.1, fdiv kv.2 total)) <$> w)) <->
  exists v, (k, v) ∈ w /\ r = ramped_incentive (fdiv v total) start threshold /\ 0 < r.
Proof.
  rewrite list_elem_of_filter, <- list_fmap_compose, list_elem_of_fmap. cbn. split.
  - intros [Hr ([k' v] & [= -> ->] & Hin)]. by exists v.
  - intros (v & Hin & -> & Hr). split; [done|]. by exists (k, v).
Qed.

Lemma ramped_representable s start threshold : representable s -> representable (ramped_incentive s start threshold).
Proof.
  intros Hs. unfold ramped_incentive. destruct (threshold <=? s); [done|]. destruct (Z.leb_spec threshold start) as [|H]; [apply representable_0|].
  destruct (s <? start); [apply representable_0|]. apply fdiv_representable. pose proof (fsub_pos_iff threshold start). lia.
Qed.

(** What is kept is not small: the largest share is kept with anything else. *)
Lemma ramp_kept_large (w : weights) start threshold (kept := filter (fun kv => 0 < kv.2)
    ((fun kv => (kv.1, ramped_incentive kv.2 start threshold)) <$> ((fun kv : string * float => (kv.1, fdiv kv.2 (fsum w.*2))) <$> w))) :
  Forall (Z.le 0) w.*2 -> Z.of_nat (length w) <= 2 ^ 40 -> 0 < fsum w.*2 -> representable start -> 0 <= start -> threshold <= fone ->
  0 < fsum kept.*2 -> 2 ^ 939 <= fsum kept.*2.
Proof.
  intros Hw Hn HT Hrs Hst Hth HK. set (T := fsum w.*2) in *.
  assert (Forall (Z.le 0) kept.*2) as Hk0.
  { apply Forall_forall. intros x ([k r] & -> & Hin)%list_elem_of_fmap. apply ramp_kept_elem in Hin as (v & _ & _ & Hr). cbn. lia. }
  destruct kept as [|[k0 r0] kept'] eqn:Ek; [cbn in HK; unfold fsum in HK; cbn in HK; pose proof representable_0 as E0; unfold representable in E0; lia|].
  assert ((k0, r0) ∈ kept) as Hin by (rewrite Ek; by left). rewrite <- Ek in *. apply ramp_kept_elem in Hin as (v0 & Hv0 & -> & Hr0).
  destruct w as [|[k1 v1] w']; [by apply not_elem_of_nil in Hv0|]. destruct (largest_from_spec (k1, v1) w') as [Hl Hmax]. destruct (largest_from (k1, v1) w') as [k m] eqn:El. cbn in Hmax.
  pose proof (proj1 (Forall_forall _ _) Hw m (list_elem_of_fmap_2 snd _ _ Hl)) as Hm0. cbn beta in Hm0.
  assert (2 ^ 1033 <= fdiv m T) as Hs.
  { apply largest_share; [done|by rewrite length_fmap| |done|done]. intros x (kv & -> & Hx)%list_elem_of_fmap. by apply Hmax. }
  assert (2 ^ 939 <= ramped_incentive (fdiv m T) start threshold) as Hr.
  { apply (ramped_large _ (fdiv v0 T)); [apply fdiv_representable; lia|done|done|done|done| |done]. apply fdiv_mono_l; [done|]. by apply (Hmax (k0, v0)). }
  etrans; [exact Hr|]. apply fsum_ge; [done| |apply ramped_representable, fdiv_representable; lia].
  apply (list_elem_of_fmap_2 snd _ (k, ramped_incentive (fdiv m T) start threshold)). apply ramp_kept_elem. exists m. split_and!; [done|done|].
  assert (0 < 2 ^ 939) by (apply Z.pow_pos_nonneg; lia). lia.
Qed.

Lemma largest_weight (d : weights) : NoDup d.*1 -> d <> [] ->
  exists k p, largest d = Some k /\ weight_of k d = Some p /\ k ∈ d.*1 /\ p ∈ d.*2 /\ (forall x, x ∈ d.*2 -> x <= p).
Proof.
  intros Hn Hd. destruct d as [|kv d]; [done|]. destruct (largest_from_spec kv d) as [Hin Hmax]. destruct (largest_from kv d) as [k p] eqn:E. exists k, p.
  split_and!; [cbn; by rewrite E|by apply weight_of_elem|by apply (list_elem_of_fmap_2 fst _ (k, p))|by apply (list_elem_of_fmap_2 snd _ (k, p))|].
  intros x (y & -> & Hy)%list_elem_of_fmap. by apply Hmax.
Qed.

Lemma set_weight_elem k v d x : x ∈ (set_weight k v d).*2 -> x = v \/ x ∈ d.*2.
Proof.
  induction d as [|[k' v'] d IH]; cbn; [intros ->%list_elem_of_singleton; by left|]. destruct (String.eqb k' k); cbn; intros [->|H]%elem_of_cons.
  - by left.
  - right. by right.
  - right. by left.
  - destruct (IH H) as [->|]; [by left|right; by right].
Qed.

Lemma lower_until_more n fuel total k d r : (n <= fuel)%nat -> lower_until n total k d = Some r -> lower_until fuel total k d = Some r.
Proof.
  revert fuel d. induction n as [|n IH]; intros [|fuel] d Hf; cbn [lower_until]; destruct (total <? fsum d.*2); try done; [lia|]. apply IH. lia.
Qed.

(** The payments with the overshoot taken back from the largest. *)
Lemma overshoot_returned T (d : weights) (over := fsub (fsum d.*2) T) :
  representable T -> 2 ^ 400 <= T -> NoDup d.*1 -> d <> [] -> Forall (Z.le 0) d.*2 -> Z.of_nat (length d) <= 2 ^ 40 -> 2 ^ 45 * Zsum d.*2 <= (2 ^ 45 + 1) * T -> 0 < over ->
  exists k n paid, largest d = Some k /\ (forall fuel, (n <= fuel)%nat -> lower_until fuel T k (set_weight k (fsub (default 0 (weight_of k d)) over) d) = Some paid) /\
    fsum paid.*2 <= T /\ Forall (Z.le 0) paid.*2 /\ paid.*1 = d.*1.
Proof.
  intros Hr HT Hnd Hne Hd Hn HP Ho. destruct (largest_weight d Hnd Hne) as (k & p & El & Ew & Hk & Hp & Hmax). exists k. rewrite Ew. cbn [default].
  destruct (largest_covers T d.*2 p HT Hd ltac:(by rewrite length_fmap) Hp Hmax HP) as [Hrest Hcov]. specialize (Hcov Ho). fold over in Hcov. set (y := fsub p over).
  assert (0 <= y) as Hy by (unfold y; pose proof (fsub_neg_iff p over); lia).
  destruct (lower_until_ends T k p d Hr Ew Hrest y) as (n & Hlow). destruct (Hlow n ltac:(lia)) as (y' & E & Hs & Hy'). exists n, (set_weight k y' d). split_and!; [done| |done| |].
  - intros fuel Hf. exact (lower_until_more n fuel T k _ _ Hf E).
  - apply Forall_forall. intros x [->|Hx]%set_weight_elem; [destruct Hy'; lia|]. by apply (proj1 (Forall_forall _ _) Hd).
  - by apply set_weight_keys.
Qed.

(** C16: the minimum-incentive floor pays no more than was there.  It always ends; the payments it
    leaves add up to at most the total they started from, none is negative, none is to a hotkey
    that had no weight, and a hotkey whose share of the task is below the start of the ramp is
    paid nothing, unless the floor leaves the weights as they were. *)
Theorem floor_never_pays_more (w : weights) (start threshold : float) :
  NoDup w.*1 -> Forall (Z.le 0) w.*2 -> Z.of_nat (length w) <= 2 ^ 40 -> fsum w.*2 = 0 \/ 2 ^ 400 <= fsum w.*2 ->
  representable start -> 0 <= start <= threshold -> threshold <= fone ->
  exists n paid, (forall fuel, (n <= fuel)%nat -> apply_min_incentive_share fuel w start threshold = Some paid) /\
    fsum paid.*2 <= fsum w.*2 /\ Forall (Z.le 0) paid.*2 /\ paid.*1 `sublist_of` w.*1 /\
    (paid = w \/ forall k v, (k, v) ∈ w -> fdiv v (fsum w.*2) < start -> k ∉ paid.*1).
Proof.
  intros Hnd Hw Hn HT Hrs [Hst Hst'] Hth. unfold apply_min_incentive_share. set (T := fsum w.*2) in *.
  assert (exists n paid, (forall fuel, (n <= fuel)%nat -> Some w = Some paid) /\ fsum paid.*2 <= T /\ Forall (Z.le 0) paid.*2 /\ paid.*1 `sublist_of` w.*1 /\
    (paid = w \/ forall k v, (k, v) ∈ w -> fdiv v T < start -> k ∉ paid.*1)) as Hsame by (exists 0%nat, w; split_and!; [done|done|done|done|by left]).
  destruct (Z.leb_spec T 0) as [|HT0]; [done|]. case_bool_decide; [done|]. clear Hsame. destruct HT as [HT|HT]; [lia|].
  pose proof (ramp_kept_large w start threshold Hw Hn HT0 Hrs Hst Hth) as Hlarge. pose proof (ramp_kept_elem w T start threshold) as Helem. fold T in Hlarge.
  set (kept := filter _ _) in *. destruct (Z.leb_spec (fsum kept.*2) 0) as [|HK0].
  { exists 0%nat, w. split_and!; [done|done|done|done|by left]. }
  specialize (Hlarge HK0). set (K := fsum kept.*2) in *. set (paid := (fun kv => (kv.1, fdiv (fmul T kv.2) K)) <$> kept).
  assert (kept.*1 `sublist_of` w.*1) as Hsub.
  { replace w.*1 with ((fun kv => (kv.1, ramped_incentive kv.2 start threshold)) <$> ((fun kv => (kv.1, fdiv kv.2 T)) <$> w)).*1 by (by rewrite <- !list_fmap_compose).
    apply fmap_sublist, sublist_filter. }
  assert (paid.*1 = kept.*1) as Hkeys by (unfold paid; rewrite <- list_fmap_compose; done).
  assert (paid.*2 = (fun k => fdiv (fmul T k) K) <$> kept.*2) as Hpaid by (unfold paid; rewrite <- !list_fmap_compose; done).
  assert (Forall (Z.le 0) kept.*2) as Hk0.
  { apply Forall_forall. intros x ([k r] & -> & Hin)%list_elem_of_fmap. apply Helem in Hin as (v & _ & _ & Hr). cbn. lia. }
  assert (length kept <= length w)%nat as Hlen by (apply sublist_length in Hsub; by rewrite !length_fmap in Hsub).
  assert (Forall (Z.le 0) paid.*2) as Hp0.
  { rewrite Hpaid. apply Forall_fmap. eapply Forall_impl; [exact Hk0|]. intros x Hx. cbn. apply fdiv_nonneg; [apply fmul_nonneg; lia|done]. }
  assert (2 ^ 45 * Zsum paid.*2 <= (2 ^ 45 + 1) * T) as HP by (rewrite Hpaid; apply paid_close; [done|rewrite length_fmap; lia|done|done]).
  assert (forall k v, (k, v) ∈ w -> fdiv v T < start -> k ∉ kept.*1) as Hbelow.
  { intros k v Hkv Hs ([k' r] & -> & Hin)%list_elem_of_fmap. apply Helem in Hin as (v' & Hkv' & -> & Hr). cbn in Hkv.
    pose proof (weight_of_elem _ _ _ Hnd Hkv) as E1. pose proof (weight_of_elem _ _ _ Hnd Hkv') as E2. assert (v' = v) as -> by congruence.
    unfold ramped_incentive in Hr. destruct (Z.leb_spec threshold (fdiv v T)); [lia|]. destruct (Z.leb_spec threshold start); [cbn in Hr; lia|].
    destruct (Z.ltb_spec (fdiv v T) start); [cbn in Hr; lia|lia]. }
  destruct (Z.ltb_spec 0 (fsub (fsum paid.*2) T)) as [Hover|Hfits].
  - assert (length paid = length kept) as Hlp by apply length_fmap.
    assert (paid <> []) as Hne by (intros E; rewrite E in Hover; change (fsum [].*2) with 0 in Hover; pose proof (proj1 (fsub_pos_iff 0 T) Hover); lia).
    assert (NoDup paid.*1) as Hpn by (rewrite Hkeys; by eapply sublist_NoDup).
    assert (representable T) as HrT by (by apply fround_representable). assert (Z.of_nat (length paid) <= 2 ^ 40) as Hln by lia.
    destruct (overshoot_returned T paid HrT HT Hpn Hne Hp0 Hln HP Hover) as (k & n & p' & El & Hl & Hs & Hp & Ek).
    exists n, p'. rewrite El. split_and!; [exact Hl|done|done|by rewrite Ek, Hkeys|right; by rewrite Ek, Hkeys].
  - exists 0%nat, paid. split_and!; [done| |done|by rewrite Hkeys|right; by rewrite Hkeys].
    apply Z.nlt_ge. intros Hgt%fsub_pos_iff. apply Z.lt_nge in Hgt. by apply Hgt.
Qed.

(** ** What an epoch needs *)

(** An archive says it is of a window. *)
Definition says_window (z : Z) (a : json) : Prop :=
  exists v, item a "window_start" = Ok v /\ (v = VInt z \/ exists f, v = VFloat f /\ f = z * fone).

(** A window of the history is among the archives that were read. *)
Lemma not_missing h ws archives z : missing h ws archives = Ok false -> z ∈ ws -> h - ROLLING_WINDOWS_HISTORY * 3 <= z < h -> exists a, a ∈ archives /\ says_window z a.
Proof.
  unfold missing. intros (starts & Em & [= E])%bind_ok_inv Hz Hh.
  assert (existsb (fun v => match v with VInt z' => z' =? z | VFloat f => f =? z * fone | _ => false end) starts = true) as Hs.
  { destruct (existsb _ starts) eqn:Es; [done|]. apply not_true_iff_false in E. destruct E. apply existsb_exists. exists z. split; [by apply list_elem_of_In|].
    rewrite Es. destruct (Z.leb_spec (h - ROLLING_WINDOWS_HISTORY * 3) z); [|lia]. destruct (Z.ltb_spec z h); [done|lia]. }
  apply existsb_exists in Hs as (v & Hv%list_elem_of_In & Hz'). apply (mapM_elem _ _ _ Em) in Hv as (a & Ha & Ei). exists a. split; [done|].
  exists v. split; [done|]. destruct v; try done; [left|right]; apply Z.eqb_eq in Hz' as ->; eauto.
Qed.

Section submit.
Context (ramp_start min_share : float) (set_order : list string -> list string) (pow : float -> Z -> float)
  (listed_of : string -> result (list (Z * Z))) (read_archive : string -> Z -> Z -> result (option json))
  (registry_read : result registry) (task_ids : result (list string)) (window_keys : string -> result (list Z))
  (datasets : string -> Z -> result (list json)) (now : float) (genesis : result float).
Context {C : Type} (contract_of : pyval -> result C) (canonical : json -> result (list Z)) (service_rewards : json -> C -> float -> result json).

(** What the reads of the tasks say. *)
Lemma read_tasks_spec declared h windows by_task : read_tasks datasets declared h windows = Ok (Some by_task) ->
  (forall t ws, (t, ws) ∈ windows -> is_corpus_task (find_task t declared) = false ->
    exists archives, datasets t h = Ok archives /\ missing h ws archives = Ok false /\ (archives <> [] -> (t, archives) ∈ by_task)) /\
  (forall t archives, (t, archives) ∈ by_task -> exists ws, (t, ws) ∈ windows /\ is_corpus_task (find_task t declared) = false /\ datasets t h = Ok archives /\ archives <> []).
Proof.
  revert by_task. induction windows as [|[t ws] rest IH]; intros by_task; cbn [read_tasks].
  { intros [= <-]. split; [intros t ws ?%not_elem_of_nil|intros t a ?%not_elem_of_nil]; done. }
  destruct (is_corpus_task (find_task t declared)) eqn:Ec.
  { intros [H1 H2]%IH. split; [intros t' ws' [[= -> ->]|Hin]%elem_of_cons Hc; [congruence|by apply (H1 t' ws')]|]. intros t' a Hin. destruct (H2 t' a Hin) as (ws' & ? & ?). exists ws'. split; [by right|done]. }
  intros (archives & Ed & (lost & Em & E)%bind_ok_inv)%bind_ok_inv. destruct lost; [done|]. apply bind_ok_inv in E as ([others|] & Eo & [= <-]).
  destruct (IH others Eo) as [H1 H2]. split.
  - intros t' ws' [[= -> ->]|Hin]%elem_of_cons Hc.
    + exists archives. split_and!; [done|done|]. intros Hne. rewrite bool_decide_eq_false_2 by done. by left.
    + destruct (H1 t' ws' Hin Hc) as (a & ? & ? & Ha). exists a. split_and!; [done|done|]. intros Hne. case_bool_decide; [by apply Ha|right; by apply Ha].
  - intros t' a. assert ((t', a) ∈ others -> exists ws', (t', ws') ∈ (t, ws) :: rest /\ is_corpus_task (find_task t' declared) = false /\ datasets t' h = Ok a /\ a <> []) as Hrest.
    { intros Hin. destruct (H2 t' a Hin) as (ws' & ? & ?). exists ws'. split; [by right|done]. }
    case_bool_decide as Hb; [done|]. intros [[= -> ->]|Hin]%elem_of_cons; [|by apply Hrest]. exists ws. split_and!; [by left|done|done|done].
Qed.

Lemma elem_of_undeclared by_task declared t : t ∈ undeclared_tasks by_task declared <-> t ∈ by_task.*1 /\ find_task t declared = None.
Proof. unfold undeclared_tasks. rewrite (elem_of_isort String.leb), list_elem_of_filter. tauto. Qed.
Lemma horizon_above windows t ws z : (t, ws) ∈ windows -> z ∈ ws -> z < horizon windows.
Proof.
  intros Hin Hz. unfold horizon. assert (z ∈ concat windows.*2) as Hc by (apply list_elem_of_In, in_concat; exists ws; split; apply list_elem_of_In; [by apply (list_elem_of_fmap_2 snd _ (t, ws))|done]).
  revert Hc. induction (concat windows.*2) as [|y l IH]; cbn; [by intros ?%not_elem_of_nil|]. intros [->|H]%elem_of_cons; [lia|]. specialize (IH H). lia.
Qed.

Lemma horizon_listed (listed : list (string * list Z)) : horizon (filter (fun tw => tw.2 <> []) listed) = horizon listed.
Proof.
  unfold horizon. f_equal. f_equal. induction listed as [|[t ws] l IH]; [done|]. rewrite filter_cons. case_decide as H; cbn; [by rewrite IH|].
  destruct ws; [exact IH|done].
Qed.

(** C15: a vector is submitted on a complete history only.  When an epoch submits weights, the
    registry, the list of the tasks and the windows of every task were read; of every task that is
    not a corpus task, each listed window of the last 216 is among the archives that were read; the
    archives of the periods were read; and every task that has archives is declared, unless there
    is no registry at all and the archives are of the legacy task alone. *)
Theorem submit_only_complete (fuel : nat) (w : weights) :
  submit_once ramp_start min_share set_order pow listed_of read_archive registry_read task_ids window_keys datasets now genesis contract_of canonical service_rewards fuel
    = Ok (Submit w) ->
  exists declared ids windows periods,
    registry_read = Ok declared /\ task_ids = Ok ids /\ windows.*1 = ids /\ Forall (fun tw => window_keys tw.1 = Ok tw.2) windows /\
    period_weights pow listed_of read_archive declared now genesis = Ok periods /\
    (forall t ws, (t, ws) ∈ windows -> ws <> [] -> is_corpus_task (find_task t declared) = false -> let h := horizon windows in
      exists archives, datasets t h = Ok archives /\
        (forall z, z ∈ ws -> h - ROLLING_WINDOWS_HISTORY * 3 <= z -> exists a, a ∈ archives /\ says_window z a) /\
        (archives <> [] -> (exists e, find_task t declared = Some e) \/ (declared = [] /\ t = DEFAULT_TASK_ID))).
Proof.
  unfold submit_once. destruct registry_read as [declared|]; [|done]. destruct (read_archives _ _ _ declared) as [[by_task|]|] eqn:Er; [|done|done].
  destruct (period_weights _ _ _ _ _ _) as [periods|] eqn:Ep; [|done]. case_match; [done|]. destruct (negb _ && negb _) eqn:Eu; [done|]. intros _.
  unfold read_archives in Er. apply bind_ok_inv in Er as (ids & Ei & (windows & Ew & Er)%bind_ok_inv). destruct (mapM_pairs _ _ _ Ew) as [Hids Hw].
  destruct (read_tasks_spec _ _ _ _ Er) as [H1 H2]. exists declared, ids, windows, periods. split_and!; [done|done|done|done|done|].
  intros t ws Hin Hne Hc. set (h := horizon windows). assert ((t, ws) ∈ filter (fun tw => tw.2 <> []) windows) as Hin' by (by apply list_elem_of_filter).
  destruct (H1 t ws Hin' Hc) as (archives & Ed & Em & Ha). rewrite horizon_listed in Ed, Em. fold h in Ed, Em. exists archives. split_and!; [done| |].
  - intros z Hz Hh. apply (not_missing h ws); [done|done|]. split; [done|by eapply horizon_above].
  - intros Hna. specialize (Ha Hna). destruct (find_task t declared) as [e|] eqn:Ef; [left; eauto|right].
    assert (t ∈ undeclared_tasks by_task declared) as Hu by (apply elem_of_undeclared; split; [by apply (list_elem_of_fmap_2 fst _ (t, archives))|done]).
    apply andb_false_iff in Eu as [Eu|Eu]; apply negb_false_iff in Eu; [apply bool_decide_eq_true in Eu; rewrite Eu in Hu; by apply not_elem_of_nil in Hu|].
    unfold legacy_registry_fallback in Eu. apply andb_true_iff in Eu as [[Eu _]%andb_true_iff Hall]. apply bool_decide_eq_true in Eu. split; [done|].
    apply String.eqb_eq. apply (proj1 (forallb_forall _ _) Hall). apply list_elem_of_In. by apply (list_elem_of_fmap_2 fst _ (t, archives)).
Qed.
End submit.

(** ** The copies of a service archive *)

Lemma to_int_refusal v x : to_int v = Raise x -> refusal x = true.
Proof. unfold to_int. repeat case_match; intros [=]; by subst. Qed.
Lemma key_refusal a x : key_of_archive a = Raise x -> refusal x = true.
Proof.
  unfold key_of_archive, window_of, item. destruct (existsb _ a), (existsb _ a); cbn; try by intros [= <-].
  destruct (to_int _) eqn:E; cbn; [done|]. intros [= <-]. by eapply to_int_refusal.
Qed.

Lemma find_archive_put k k' a l : find_archive k (put_archive k' a l) = if bool_decide (k' = k) then Some a else find_archive k l.
Proof.
  induction l as [|[y b] l IH]; cbn; [done|]. destruct (decide (y = k')) as [->|Hy]; [rewrite bool_decide_eq_true_2 by done; cbn; by case_bool_decide|].
  rewrite (bool_decide_eq_false_2 (y = k')) by done. cbn. rewrite IH. do 2 case_bool_decide; congruence.
Qed.
Lemma find_archive_del k k' l : find_archive k (del_archive k' l) = if bool_decide (k' = k) then None else find_archive k l.
Proof.
  unfold del_archive. induction l as [|[y b] l IH]; [by case_bool_decide|]. rewrite filter_cons. destruct (decide (y = k')) as [Hy|Hy].
  - rewrite decide_False by (intros H; by apply H). rewrite IH. cbn. repeat case_bool_decide; congruence.
  - rewrite decide_True by done. cbn [find_archive]. rewrite IH. repeat case_bool_decide; congruence.
Qed.
Lemma put_archive_keys k a l : (put_archive k a l).*1 = if bool_decide (k ∈ l.*1) then l.*1 else l.*1 ++ [k].
Proof.
  induction l as [|[y b] l IH]; cbn; [done|]. destruct (decide (y = k)) as [->|Hy].
  - rewrite bool_decide_eq_true_2 by done. by rewrite bool_decide_eq_true_2 by (by left).
  - rewrite bool_decide_eq_false_2 by done. cbn. rewrite IH. do 2 case_bool_decide; try done; [by destruct H0; right|]. by apply elem_of_cons in H0 as [?|?].
Qed.
Lemma find_archive_iff k a l : NoDup l.*1 -> find_archive k l = Some a <-> (k, a) ∈ l.
Proof.
  induction l as [|[y b] l IH]; cbn; [intros _; split; [done|by intros ?%not_elem_of_nil]|]. intros [Hy Hn]%NoDup_cons. case_bool_decide as He.
  - subst y. rewrite elem_of_cons. split; [intros [= ->]; by left|]. intros [[= ->]|Hin]; [done|]. destruct Hy. by apply (list_elem_of_fmap_2 fst _ (k, a)).
  - rewrite (IH Hn), elem_of_cons. split; [by right|]. intros [[= -> ->]|?]; done.
Qed.

(** What is held of one window. *)
Inductive copy := Absent | Held (a : json) | Poisoned.

Section copies.
Context (canonical : json -> result (list Z)).

Definition copy_of (k : archive_key) (c : choice) : copy :=
  if bool_decide (k ∈ poisoned c) then Poisoned else match find_archive k (chosen c) with Some a => Held a | None => Absent end.
Definition copy_step (s : copy) (a : json) : copy :=
  match s with
  | Absent => Held a
  | Poisoned => Poisoned
  | Held h => match canonical a, canonical h with Ok r, Ok k => if bytes_ltb r k then Held a else Held h | _, _ => Poisoned end
  end.
Definition has_key (k : archive_key) (a : json) : bool := match key_of_archive a with Ok k' => bool_decide (k' = k) | Raise _ => false end.
Definition choice_ok (c : choice) : Prop := NoDup (chosen c).*1 /\ forall k, k ∈ poisoned c -> find_archive k (chosen c) = None.

Hypothesis canonical_refusal : forall a x, canonical a = Raise x -> refusal x = true.

Lemma choice_put c k a : choice_ok c -> k ∉ poisoned c -> choice_ok (Choice (put_archive k a (chosen c)) (poisoned c)) /\
  forall k', copy_of k' (Choice (put_archive k a (chosen c)) (poisoned c)) = if bool_decide (k = k') then Held a else copy_of k' c.
Proof.
  intros [Hn Hp] Hk. split; [split|]; cbn.
  - rewrite put_archive_keys. case_bool_decide as Hin; [done|]. apply NoDup_app. split_and!; [done| |apply NoDup_singleton]. by intros x Hx ->%list_elem_of_singleton.
  - intros k' Hk'. rewrite find_archive_put. case_bool_decide as He; [by subst|by apply Hp].
  - intros k'. unfold copy_of. cbn. rewrite find_archive_put. case_bool_decide as He; case_bool_decide as Hq; try done. by subst.
Qed.

(** One archive moves the copy of its own window only. *)
Lemma choose_step c a : choice_ok c -> exists c', choose canonical c a = Ok c' /\ choice_ok c' /\
  forall k, copy_of k c' = if has_key k a then copy_step (copy_of k c) a else copy_of k c.
Proof.
  intros Hc. unfold choose, has_key. destruct (key_of_archive a) as [key|x] eqn:Ek.
  2: { rewrite (key_refusal _ _ Ek). by exists c. }
  destruct (decide (key ∈ poisoned c)) as [Hp|Hp]; [rewrite bool_decide_eq_true_2 by done|rewrite bool_decide_eq_false_2 by done].
  { exists c. split_and!; [done|done|]. intros k. case_bool_decide as He; [|done]. subst. unfold copy_of. by rewrite bool_decide_eq_true_2. }
  assert (copy_of key c = match find_archive key (chosen c) with Some h => Held h | None => Absent end) as Eh by (unfold copy_of; by rewrite bool_decide_eq_false_2).
  destruct (find_archive key (chosen c)) as [h|] eqn:Ef.
  2: { destruct (choice_put c key a Hc Hp) as [H1 H2]. eexists. split_and!; [done|done|]. intros k. rewrite H2. case_bool_decide as He; [|done]. subst. by rewrite Eh. }
  assert (forall x, refusal x = true -> exists c', (if refusal x then Ok (Choice (del_archive key (chosen c)) (key :: poisoned c)) else Raise x) = Ok c' /\ choice_ok c' /\
    forall k, copy_of k c' = if bool_decide (key = k) then Poisoned else copy_of k c) as Hdrop.
  { intros x ->. eexists. split_and!; [done| |].
    - split; cbn; [eapply sublist_NoDup; [apply Hc|apply fmap_sublist_filter]|]. intros k [->|Hk]%elem_of_cons; rewrite find_archive_del; case_bool_decide; try done. by apply Hc.
    - intros k. unfold copy_of. cbn. rewrite find_archive_del. destruct (decide (key = k)) as [<-|He].
      + rewrite (bool_decide_eq_true_2 (key = key)) by done. by rewrite bool_decide_eq_true_2 by (by left).
      + rewrite (bool_decide_eq_false_2 (key = k)) by done. rewrite (bool_decide_ext (k ∈ key :: poisoned c) (k ∈ poisoned c)); [done|]. rewrite elem_of_cons. naive_solver. }
  destruct (canonical a) as [r|x] eqn:Ea; cbn [mbind result_bind].
  2: { destruct (Hdrop x (canonical_refusal _ _ Ea)) as (c' & E & H1 & H2). exists c'. split_and!; [done|done|]. intros k. rewrite H2. case_bool_decide; [|done]. subst k. by rewrite Eh; cbn; rewrite Ea. }
  destruct (canonical h) as [r'|x] eqn:Ehh; cbn [mbind result_bind].
  2: { destruct (Hdrop x (canonical_refusal _ _ Ehh)) as (c' & E & H1 & H2). exists c'. split_and!; [done|done|]. intros k. rewrite H2. case_bool_decide; [|done]. subst k. by rewrite Eh; cbn; rewrite Ea, Ehh. }
  destruct (bytes_ltb r r') eqn:El.
  - destruct (choice_put c key a Hc Hp) as [H1 H2]. eexists. split_and!; [done|done|]. intros k. rewrite H2. case_bool_decide; [|done]. subst k. by rewrite Eh; cbn; rewrite Ea, Ehh, El.
  - exists c. split_and!; [done|done|]. intros k. case_bool_decide; [|done]. subst k. by rewrite Eh; cbn; rewrite Ea, Ehh, El.
Qed.

Lemma choose_fold l : forall c, choice_ok c -> exists c', fold_result (choose canonical) c l = Ok c' /\ choice_ok c' /\
  forall k, copy_of k c' = foldl copy_step (copy_of k c) (filter (fun a => has_key k a = true) l).
Proof.
  induction l as [|a l IH]; intros c Hc; [by exists c|]. destruct (choose_step c a Hc) as (c1 & E1 & Hc1 & H1). destruct (IH c1 Hc1) as (c2 & E2 & Hc2 & H2).
  exists c2. split_and!; [cbn; by rewrite E1|done|]. intros k. rewrite H2, H1, filter_cons. case_decide as Hk; [by rewrite Hk|by apply not_true_is_false in Hk as ->].
Qed.
End copies.

(** *** The order of the copies *)

Lemma foldl_swap {S A} (f : S -> A -> S) (I : S -> Prop) (P : A -> Prop) :
  (forall s a, I s -> P a -> I (f s a)) -> (forall s a b, I s -> P a -> P b -> f (f s a) b = f (f s b) a) ->
  forall l l', l ≡ₚ l' -> Forall P l -> forall s, I s -> foldl f s l = foldl f s l'.
Proof.
  intros HI Hf l l'. induction 1 as [|a l l' H IH|a b l|l1 l2 l3 H1 IH1 H2 IH2]; intros Hl s Hs; cbn.
  - done.
  - apply Forall_cons in Hl as [Ha Hl]. apply IH; [done|by apply HI].
  - apply Forall_cons in Hl as [Ha Hl]. apply Forall_cons in Hl as [Hb Hl]. f_equal. by apply Hf.
  - rewrite (IH1 Hl s Hs). apply IH2; [by rewrite <- H1|done].
Qed.

Lemma bytes_ltb_asym a b : bytes_ltb a b = true -> bytes_ltb b a = false.
Proof. intros H. destruct (bytes_ltb b a) eqn:E; [|done]. pose proof (bytes_ltb_trans _ _ _ H E). by rewrite bytes_ltb_irrefl in *. Qed.

Section order.
Context (canonical : json -> result (list Z)) (P : json -> Prop).
Hypothesis canonical_inj : forall a b r, P a -> P b -> canonical a = Ok r -> canonical b = Ok r -> a = b.
Definition copy_in (s : copy) : Prop := match s with Held a => P a | _ => True end.

Lemma copy_step_in s a : copy_in s -> P a -> copy_in (copy_step canonical s a).
Proof. destruct s as [|h|]; cbn; [done| |done]. intros Hh Ha. by repeat case_match. Qed.

(** Of two copies that are not the same, one is kept whichever came first. *)
Lemma least_copy a b r k : P a -> P b -> canonical a = Ok r -> canonical b = Ok k -> (if bytes_ltb r k then Held a else Held b) = (if bytes_ltb k r then Held b else Held a).
Proof.
  intros Ha Hb Er Ek. destruct (bytes_ltb r k) eqn:E1; [by rewrite (bytes_ltb_asym _ _ E1)|]. destruct (bytes_ltb k r) eqn:E2; [done|].
  pose proof (bytes_total _ _ E1 E2) as ->. by rewrite (canonical_inj a b k).
Qed.

Lemma copy_step_swap s a b : copy_in s -> P a -> P b -> copy_step canonical (copy_step canonical s a) b = copy_step canonical (copy_step canonical s b) a.
Proof.
  destruct s as [|h|]; [| |done].
  - intros _ Ha Hb. cbn. destruct (canonical a) as [r|] eqn:Er, (canonical b) as [k|] eqn:Ek; [|done..]. symmetry. by apply least_copy.
  - cbn [copy_in]. intros Hh Ha Hb. cbn. destruct (canonical a) as [r|] eqn:Er, (canonical b) as [k|] eqn:Ek, (canonical h) as [m|] eqn:Em; cbn; try done;
    repeat (case_match; cbn; rewrite ?Er, ?Ek, ?Em; try done).
    + pose proof (bytes_ltb_asym k r ltac:(done)). congruence.
    + pose proof (bytes_ltb_trans k r m ltac:(done) ltac:(done)). congruence.
    + pose proof (bytes_total k r ltac:(done) ltac:(done)) as ->. by rewrite (canonical_inj a b r).
    + pose proof (bytes_ltb_trans r k m ltac:(done) ltac:(done)). congruence.
Qed.

(** The copy of a window depends on the archives of it alone, in any order. *)
Lemma copy_perm l l' : l ≡ₚ l' -> Forall P l -> foldl (copy_step canonical) Absent l = foldl (copy_step canonical) Absent l'.
Proof. intros Hp Hl. apply (foldl_swap _ copy_in P); [apply copy_step_in|apply copy_step_swap|done|done|done]. Qed.
Lemma foldl_copy_in l : Forall P l -> copy_in (foldl (copy_step canonical) Absent l).
Proof.
  assert (forall s, copy_in s -> Forall P l -> copy_in (foldl (copy_step canonical) s l)) as H; [|by apply H].
  induction l as [|a l IH]; intros s Hs Hl; [done|]. apply Forall_cons in Hl as [Ha Hl]. apply IH; [by apply copy_step_in|done].
Qed.
End order.

Lemma choice_ok_empty : choice_ok (Choice [] []).
Proof. split; [constructor|]. by intros k ?%not_elem_of_nil. Qed.

Lemma held_iff k a c : choice_ok c -> copy_of k c = Held a <-> (k, a) ∈ chosen c.
Proof.
  intros [Hn Hp]. rewrite <- (find_archive_iff k a _ Hn). unfold copy_of. case_bool_decide as Hk; [rewrite (Hp k Hk); split; done|].
  destruct (find_archive k (chosen c)); split; congruence.
Qed.

(** What is chosen of the copies, whatever their order. *)
Lemma chosen_perm canonical l l' : (forall a x, canonical a = Raise x -> refusal x = true) ->
  (forall a b r, a ∈ l -> b ∈ l -> canonical a = Ok r -> canonical b = Ok r -> a = b) -> l ≡ₚ l' ->
  exists c c', fold_result (choose canonical) (Choice [] []) l = Ok c /\ fold_result (choose canonical) (Choice [] []) l' = Ok c' /\
    NoDup (chosen c).*1 /\ chosen c ≡ₚ chosen c' /\ (forall k a, (k, a) ∈ chosen c -> a ∈ l /\ key_of_archive a = Ok k).
Proof.
  intros Hr Hi Hp. destruct (choose_fold canonical Hr l _ choice_ok_empty) as (c & E & Hc & H). destruct (choose_fold canonical Hr l' _ choice_ok_empty) as (c' & E' & Hc' & H').
  exists c, c'. split_and!; [done|done|apply Hc| |].
  - assert (forall k, copy_of k c = copy_of k c') as Hk.
    { intros k. rewrite H, H'. apply (copy_perm canonical (fun a => a ∈ l)); [intros; by eapply Hi|by rewrite Hp|]. apply Forall_forall. by intros a [_ Ha]%list_elem_of_filter. }
    apply NoDup_Permutation; [eapply NoDup_fmap_1; apply Hc|eapply NoDup_fmap_1; apply Hc'|]. intros [k a]. by rewrite <- !held_iff, Hk.
  - intros k a. rewrite <- (held_iff k a c Hc), H. change (copy_of k (Choice [] [])) with Absent. intros Ek.
    pose proof (foldl_copy_in canonical (fun a => a ∈ l /\ has_key k a = true) (filter (fun a => has_key k a = true) l)) as Hin. rewrite Ek in Hin.
    destruct Hin as [Hin Hkey]; [apply Forall_forall; by intros x [? ?]%list_elem_of_filter|]. split; [done|].
    unfold has_key in Hkey. destruct (key_of_archive a); [|done]. apply bool_decide_eq_true in Hkey. by subst.
Qed.

(** *** Contracts, settlement and the final order *)

Lemma record_leb_total a b : record_leb a b = true \/ record_leb b a = true.
Proof.
  unfold record_leb. destruct (Z.ltb_spec a.1 b.1); [by left|]. destruct (Z.ltb_spec b.1 a.1); [by right|]. destruct (Z.eqb_spec a.1 b.1); [|lia]. destruct (Z.eqb_spec b.1 a.1); [|lia].
  apply string_leb_total.
Qed.
Lemma record_leb_trans a b c : record_leb a b = true -> record_leb b c = true -> record_leb a c = true.
Proof.
  unfold record_leb. rewrite !orb_true_iff, !andb_true_iff, !Z.ltb_lt, !Z.eqb_eq. intros [H1|[E1 H1]] [H2|[E2 H2]]; [left; lia..|]. right. split; [lia|]. by eapply string_leb_trans.
Qed.
Lemma record_leb_antisym a b : record_leb a b = true -> record_leb b a = true -> a = b.
Proof.
  destruct a as [x s], b as [y t]. unfold record_leb. cbn. rewrite !orb_true_iff, !andb_true_iff, !Z.ltb_lt, !Z.eqb_eq. intros [H1|[E1 H1]] [H2|[E2 H2]]; try lia. subst. f_equal. by apply string_leb_antisym.
Qed.

(** Sorting forgets an order that the keys tell apart. *)
Lemma isort_perm_eq {A} (leb : A -> A -> bool) l l' : (forall x y, leb x y = true \/ leb y x = true) -> (forall x y z, leb x y = true -> leb y z = true -> leb x z = true) ->
  (forall x y, x ∈ l -> y ∈ l -> leb x y = true -> leb y x = true -> x = y) -> l ≡ₚ l' -> isort leb l = isort leb l'.
Proof.
  intros Ht Htr Ha Hp. apply (StronglySorted_unique_strong (fun x y => leb x y = true)); [|by apply isort_sorted|by apply isort_sorted|by rewrite !isort_perm].
  intros x y Hx%elem_of_isort Hy%elem_of_isort. rewrite <- Hp in Hy. by apply Ha.
Qed.

Lemma elem_of_first_names t l : t ∈ first_names l <-> t ∈ l.
Proof.
  induction l as [|x l IH]; [done|]. cbn. rewrite !elem_of_cons, list_elem_of_filter, IH. destruct (decide (t = x)) as [->|]; tauto.
Qed.

Lemma lookup_pairs {A} (f : string -> result A) l t : Forall (fun x => f x.1 = Ok x.2) l -> t ∈ l.*1 -> exists v, lookup_name t l = Some v /\ f t = Ok v.
Proof.
  induction 1 as [|[k v] l Hk Hl IH]; cbn; [by intros ?%not_elem_of_nil|]. destruct (String.eqb_spec k t) as [->|]; [by exists v|]. intros [?|?]%elem_of_cons; [congruence|by apply IH].
Qed.

Lemma mapM_answer {A B} (f : A -> result B) l e : (forall a x, a ∈ l -> f a = Raise x -> x = e) ->
  (exists k, mapM f l = Ok k) \/ (mapM f l = Raise e /\ exists a, a ∈ l /\ f a = Raise e).
Proof.
  induction l as [|a l IH]; intros H; [by left; exists []|]. cbn. destruct (f a) as [b|x] eqn:Ea; cbn.
  - destruct IH as [[k ->]|[-> (a' & Ha & E)]]; [intros; eapply H; [by right|done]|left; by eexists|]. right. split; [done|]. exists a'. split; [by right|done].
  - right. pose proof (H a x ltac:(by left) Ea) as ->. split; [done|]. exists a. split; [by left|done].
Qed.
Lemma mapM_ext_in {A B} (f g : A -> result B) l : (forall a, a ∈ l -> f a = g a) -> mapM f l = mapM g l.
Proof. induction l as [|a l IH]; intros H; [done|]. cbn. rewrite (H a) by (by left). rewrite IH; [done|]. intros x Hx. apply H. by right. Qed.

Lemma to_float_refusal v x : to_float v = Raise x -> refusal x = true.
Proof. unfold to_float. repeat case_match; intros [=]; by subst. Qed.

Section settle.
Context {C : Type} (contract_of : pyval -> result C) (service_rewards : json -> C -> float -> result json) (declared : registry).
Hypothesis contract_refusal : forall v x, contract_of v = Raise x -> refusal x = true.
Hypothesis rewards_refusal : forall a c cap x, service_rewards a c cap = Raise x -> refusal x = true.

Lemma contract_for_error t x : find_task t declared <> None -> contract_for contract_of declared t = Raise x -> x = ValueError.
Proof.
  unfold contract_for. destruct (find_task t declared) as [e|]; [|done]. intros _.
  destruct (contract_of _) as [c|y] eqn:Ec; cbn [mbind result_bind]; [|rewrite (contract_refusal _ _ Ec); by intros [= <-]].
  unfold item. destruct (existsb _ _); cbn [mbind result_bind]; [|by intros [= <-]].
  destruct (to_float _) as [f|y] eqn:Ef; cbn [mbind result_bind]; [case_match; [done|by intros [= <-]]|rewrite (to_float_refusal _ _ Ef); by intros [= <-]].
Qed.

(** The contracts of the same archives in another order. *)
Lemma contracts_perm (l l' : list (archive_key * json)) : l ≡ₚ l' -> (forall ka : archive_key * json, ka ∈ l -> find_task ka.1.1 declared <> None) ->
  (contracts_of contract_of declared l = Raise ValueError /\ contracts_of contract_of declared l' = Raise ValueError) \/
  (exists cs cs', contracts_of contract_of declared l = Ok cs /\ contracts_of contract_of declared l' = Ok cs' /\
    forall ka : archive_key * json, ka ∈ l -> exists v, lookup_name ka.1.1 cs = Some v /\ lookup_name ka.1.1 cs' = Some v).
Proof.
  intros Hp Hd. set (tasks := fun l : list (archive_key * json) => first_names ((fun ka => ka.1.1) <$> l)).
  set (f := fun t => c ← contract_for contract_of declared t; Ok (t, c)). change (contracts_of contract_of declared) with (fun l => mapM f (tasks l)). cbn beta.
  assert (forall t, t ∈ tasks l <-> t ∈ tasks l') as Ht by (intros t; unfold tasks; by rewrite !elem_of_first_names, Hp).
  assert (forall t, t ∈ tasks l -> find_task t declared <> None) as Hd' by (intros t (ka & -> & Hka)%elem_of_first_names%list_elem_of_fmap; by apply Hd).
  assert (forall t x, t ∈ tasks l -> f t = Raise x -> x = ValueError) as He.
  { intros t x Hin. unfold f. destruct (contract_for _ _ t) eqn:E; cbn; [done|]. intros [= <-]. by eapply contract_for_error; [apply Hd'|]. }
  destruct (mapM_answer f (tasks l) ValueError He) as [[cs Ecs]|[E (t & Hin & Hr)]], (mapM_answer f (tasks l') ValueError ltac:(intros t' x Hin'; apply He; by apply Ht)) as [[cs' Ecs']|[E' (t' & Hin' & Hr')]].
  - right. exists cs, cs'. split_and!; [done|done|]. intros ka Hka. destruct (mapM_pairs _ _ _ Ecs) as [Hn Hf], (mapM_pairs _ _ _ Ecs') as [Hn' Hf'].
    assert (ka.1.1 ∈ tasks l) as Hin by (apply elem_of_first_names; by apply (list_elem_of_fmap_2 (fun ka : archive_key * json => ka.1.1) _ ka)).
    destruct (lookup_pairs _ _ ka.1.1 Hf ltac:(by rewrite Hn)) as (v & Hv & Ev), (lookup_pairs _ _ ka.1.1 Hf' ltac:(rewrite Hn'; by apply Ht)) as (v' & Hv' & Ev').
    exists v. split; [done|]. congruence.
  - destruct (mapM_total _ _ _ Ecs t' ltac:(by apply Ht)) as (b & Hb & _). congruence.
  - destruct (mapM_total _ _ _ Ecs' t ltac:(by apply Ht)) as (b & Hb & _). congruence.
  - by left.
Qed.

(** An archive settles into a record of its own task and window, or is dropped. *)
Lemma settle_answer cs (ka : archive_key * json) v : lookup_name ka.1.1 cs = Some v -> exists o, settle_archive service_rewards cs ka = Ok o /\
  (forall r, o = Some r -> record_key r = Ok (ka.1.2, ka.1.1)).
Proof.
  intros Hv. unfold settle_archive. destruct (str_eq _ _); [eexists; split; [done|by intros r [= <-]]|]. rewrite Hv. destruct v as [c cap].
  destruct (service_rewards ka.2 c cap) as [rw|x] eqn:Er; [eexists; split; [done|by intros r [= <-]]|]. rewrite (rewards_refusal _ _ _ _ Er). eexists. by split.
Qed.
End settle.

Lemma isort_app {A} (leb : A -> A -> bool) l k k' : isort leb k = isort leb k' -> isort leb (l ++ k) = isort leb (l ++ k').
Proof. intros H. induction l as [|x l IH]; [exact H|]. change (insert_leb leb x (isort leb (l ++ k)) = insert_leb leb x (isort leb (l ++ k'))). by rewrite IH. Qed.
Lemma mapM_app {A B} (f : A -> result B) l k : mapM f (l ++ k) = (x ← mapM f l; y ← mapM f k; Ok (x ++ y)).
Proof.
  induction l as [|a l IH]; cbn; [by destruct (mapM f k)|]. destruct (f a); cbn; [|done]. rewrite IH. destruct (mapM f l); cbn; [|done]. by destruct (mapM f k).
Qed.
Lemma task_of_key a k : key_of_archive a = Ok k -> k.1 = task_of a.
Proof.
  unfold key_of_archive, task_of, item, dict_get_or. intros (t & Ht & (w & _ & [= <-])%bind_ok_inv)%bind_ok_inv. cbn. unfold has. destruct (existsb _ a); [|done]. by injection Ht as <-.
Qed.

(** Records told apart by their key may come in any order. *)
Lemma sorted_tail legacy (s s' : list json) : s ≡ₚ s' -> (forall r, r ∈ s -> exists k, record_key r = Ok k) ->
  (forall r r' k, r ∈ s -> r' ∈ s -> record_key r = Ok k -> record_key r' = Ok k -> r = r') ->
  sorted_by record_leb record_key (legacy ++ s) = sorted_by record_leb record_key (legacy ++ s').
Proof.
  intros Hp Hk Hi. unfold sorted_by. set (f := fun r => k ← record_key r; Ok (k, r)). rewrite !mapM_app. destruct (mapM f legacy) as [ks|]; cbn [mbind result_bind]; [|done].
  destruct (mapM_answer f s ValueError) as [[k E]|[_ (r & Hr & E)]].
  { intros r x Hr E. destruct (Hk r Hr) as (k & Ek). unfold f in E. by rewrite Ek in E. }
  2: { destruct (Hk r Hr) as (k & Ek). unfold f in E. by rewrite Ek in E. }
  destruct (mapM_perm f s s' k Hp E) as (k' & -> & Hkk). rewrite E. cbn [mbind result_bind]. do 2 f_equal. apply isort_app, isort_perm_eq; [| | |done].
  - intros x y. apply record_leb_total.
  - intros x y z. apply record_leb_trans.
  - intros x y Hx Hy Hxy Hyx. pose proof (record_leb_antisym _ _ Hxy Hyx) as He. apply (mapM_elem _ _ _ E) in Hx as (r & Hr & (a & Ha & [= <-])%bind_ok_inv).
    apply (mapM_elem _ _ _ E) in Hy as (r' & Hr' & (b & Hb & [= <-])%bind_ok_inv). cbn in He. subst b. f_equal. by eapply Hi.
Qed.

(** C40: which copy of a service archive counts does not depend on the order in which the copies
    are listed.  Two lists with the same archives of service tasks in different orders, and the same
    other archives, are settled into the same records, or both abstain; the canonical JSON tells
    the archives apart, and what the archives are rejected for is an ordinary error. *)
Theorem copies_order_free {C : Type} (contract_of : pyval -> result C) (canonical : json -> result (list Z)) (service_rewards : json -> C -> float -> result json)
  (l l' : list json) (declared : registry) (service := fun r => is_service_task (find_task (task_of r) declared)) :
  (forall v x, contract_of v = Raise x -> refusal x = true) -> (forall a x, canonical a = Raise x -> refusal x = true) ->
  (forall a c cap x, service_rewards a c cap = Raise x -> refusal x = true) ->
  (forall a b r, a ∈ l -> b ∈ l -> canonical a = Ok r -> canonical b = Ok r -> a = b) ->
  filter (fun r => service r = true) l ≡ₚ filter (fun r => service r = true) l' ->
  filter (fun r => service r = false) l = filter (fun r => service r = false) l' ->
  validated_service_archives contract_of canonical service_rewards l declared = validated_service_archives contract_of canonical service_rewards l' declared.
Proof.
  intros Hcon Hcan Hrew Hinj Hp Hlegacy. subst service. unfold validated_service_archives. cbv beta zeta in *.
  destruct (chosen_perm canonical _ _ Hcan ltac:(intros a b r [_ Ha]%list_elem_of_filter [_ Hb]%list_elem_of_filter; by apply Hinj) Hp) as (c & c' & -> & -> & Hn & Hc & Hin).
  cbn [mbind result_bind]. assert (forall ka : archive_key * json, ka ∈ chosen c -> find_task ka.1.1 declared <> None) as Hd.
  { intros [k a] Hka. destruct (Hin k a Hka) as [[Hs _]%list_elem_of_filter Hk]. cbn. rewrite (task_of_key _ _ Hk). intros E. by rewrite E in Hs. }
  destruct (contracts_perm contract_of declared Hcon _ _ Hc Hd) as [[-> ->]|(cs & cs' & -> & -> & Hcs)]; [done|]. cbn [mbind result_bind].
  rewrite (mapM_ext_in (settle_archive service_rewards cs') (settle_archive service_rewards cs) (chosen c')).
  2: { intros ka Hka. rewrite <- Hc in Hka. destruct (Hcs ka Hka) as (v & E & E'). unfold settle_archive. by rewrite E, E'. }
  destruct (mapM_answer (settle_archive service_rewards cs) (chosen c) ValueError) as [[k Ek]|[_ (ka & Hka & E)]].
  { intros ka x Hka E. destruct (Hcs ka Hka) as (v & Ev & _). destruct (settle_answer service_rewards Hrew cs ka v Ev) as (o & E' & _). congruence. }
  2: { destruct (Hcs ka Hka) as (v & Ev & _). destruct (settle_answer service_rewards Hrew cs ka v Ev) as (o & E' & _). congruence. }
  destruct (mapM_perm _ _ _ _ Hc Ek) as (k' & Ek' & Hk). rewrite Ek, Ek'. cbn [mbind result_bind]. rewrite Hlegacy.
  assert (forall r, r ∈ omap id k -> exists ka v, ka ∈ chosen c /\ settle_archive service_rewards cs ka = Ok (Some r) /\ record_key r = Ok v /\ v = (ka.1.2, ka.1.1)) as Hrec.
  { intros r (o & Ho & Hr)%list_elem_of_omap. cbn in Hr. subst o. apply (mapM_elem _ _ _ Ek) in Ho as (ka & Hka & E). destruct (Hcs ka Hka) as (v & Ev & _).
    destruct (settle_answer service_rewards Hrew cs ka v Ev) as (o & E' & Hkey). rewrite E in E'. injection E' as <-. exists ka, (ka.1.2, ka.1.1). split_and!; [done|done|by apply Hkey|done]. }
  apply sorted_tail; [by apply omap_Permutation|intros r Hr; destruct (Hrec r Hr) as (ka & v & _ & _ & ? & _); by exists v|].
  intros r r' v Hr Hr' Ev Ev'. destruct (Hrec r Hr) as ([[t w] a] & v1 & Hka & E1 & Hv1 & E), (Hrec r' Hr') as ([[t' w'] a'] & v2 & Hka' & E2 & Hv2 & E').
  assert (w = w' /\ t = t') as [<- <-] by (cbn in E, E'; split; congruence). assert (a = a') as <-; [|congruence].
  apply (find_archive_iff _ _ _ Hn) in Hka. apply (find_archive_iff _ _ _ Hn) in Hka'. congruence.
Qed.

(** ** The theorems at concrete inputs *)

Local Open Scope string_scope.

(** Three quarters of a half and a quarter of it, under a ramp. *)
Lemma floor_never_pays_more_witness :
  exists n paid, (forall fuel, (n <= fuel)%nat -> apply_min_incentive_share fuel [("a", (3 * 2 ^ 1071)%Z); ("b", (2 ^ 1071)%Z)] (2 ^ 1071)%Z (2 ^ 1073)%Z = Some paid) /\
    paid.*1 `sublist_of` ["a"; "b"].
Proof.
  destruct (floor_never_pays_more [("a", (3 * 2 ^ 1071)%Z); ("b", (2 ^ 1071)%Z)] (2 ^ 1071)%Z (2 ^ 1073)%Z) as (n & paid & H & _ & _ & Hs & _).
  - cbn [fmap list_fmap fst]. apply NoDup_cons_2; [by intros [=]%list_elem_of_singleton|apply NoDup_singleton].
  - cbn [fmap list_fmap snd]. assert (0 <= 2 ^ 1071)%Z by (by apply Z.pow_nonneg). repeat constructor; lia.
  - cbn. lia.
  - right. apply fround_ge; [lia|apply pow_representable; lia|]. cbn [fmap list_fmap snd Zsum foldr].
    assert (0 < 2 ^ 1071)%Z by (by apply Z.pow_pos_nonneg). assert (2 ^ 400 <= 2 ^ 1071)%Z by (apply Z.pow_le_mono_r; lia). lia.
  - apply pow_representable. lia.
  - split; [by apply Z.pow_nonneg|apply Z.pow_le_mono_r; lia].
  - rewrite fone_pow. apply Z.pow_le_mono_r; lia.
  - exists n, paid. exact (conj H Hs).
Defined.

(** One window of the legacy task, in an empty registry. *)
Definition sample_windows (t : string) : result (list Z) := Ok [7%Z].
Definition sample_archives (t : string) (h : Z) : result (list json) := Ok [[("window_start", VInt 7); ("rewards_by_hotkey", VDict [("hk", VFloat fone)])]].
Definition sample_epoch : result epoch :=
  submit_once 0%Z 0%Z id (fun _ _ => fone) (fun _ => Raise RuntimeError) (fun _ _ _ => Raise RuntimeError) (Ok []) (Ok [DEFAULT_TASK_ID]) sample_windows sample_archives
    0%Z (Raise RuntimeError) (fun _ => Ok tt) (fun _ => Ok []) (fun a _ _ => rewards_of a) 0.

Lemma sample_submits : exists w, sample_epoch = Ok (Submit w) /\ w <> [].
Proof. eexists. split; [vm_compute; reflexivity|done]. Qed.

Lemma submit_only_complete_witness :
  exists windows, windows.*1 = [DEFAULT_TASK_ID] /\ Forall (fun tw => sample_windows tw.1 = Ok tw.2) windows /\
    forall ws, (DEFAULT_TASK_ID, ws) ∈ windows -> ws <> [] -> exists archives, sample_archives DEFAULT_TASK_ID (horizon windows) = Ok archives.
Proof.
  destruct sample_submits as (w & E & _).
  destruct (submit_only_complete _ _ _ _ _ _ _ _ _ _ _ _ _ _ _ _ w E) as (declared & ids & windows & periods & Er & Ei & Hw & Hf & _ & H). exists windows. injection Er as <-. injection Ei as <-.
  refine (conj Hw (conj Hf _)). intros ws Hin Hne. destruct (H DEFAULT_TASK_ID ws Hin Hne eq_refl) as (archives & Ea & _). exists archives. exact Ea.
Defined.

(** Two copies of a window of a service task. *)
Definition sample_copy (n : Z) : json := [("task_id", VStr "svc"); ("window_start", VInt 7); ("rewards_by_hotkey", VDict [("hk", VInt n)])].
Definition sample_rank (a : json) : result (list Z) :=
  match dict_get "rewards_by_hotkey" a with VDict [(_, VInt n)] => Ok [n] | _ => Raise ValueError end.
Definition sample_registry : registry :=
  [("svc", TaskEntry "svc" "" "" MECHANISM_SERVICE_RL [("cap", VInt 1)] "active" VNone VNone VNone None None VNone VNone)].

Lemma copies_order_free_witness :
  validated_service_archives (fun _ => Ok tt) sample_rank (fun a _ _ => rewards_of a) [sample_copy 2; sample_copy 1] sample_registry =
  validated_service_archives (fun _ => Ok tt) sample_rank (fun a _ _ => rewards_of a) [sample_copy 1; sample_copy 2] sample_registry.
Proof.
  apply copies_order_free.
  - done.
  - intros a x. unfold sample_rank. repeat case_match; intros [=]; by subst.
  - intros a _ _ x. unfold rewards_of. repeat case_match; intros [=]; by subst.
  - intros a b r Ha Hb. repeat (apply elem_of_cons in Ha as [->|Ha] || apply elem_of_cons in Hb as [->|Hb]); try (by apply not_elem_of_nil in Ha); try (by apply not_elem_of_nil in Hb);
      cbn; congruence.
  - apply Permutation_swap.
  - reflexivity.
Defined.
